(* ===== verification/_CoqProject ===== *)
-Q . S2P
Prelude.v
GoText.v
GoTime.v
SqlScan.v
Schema.v
TableValidate.v
Dialect.v
EngineProfile.v
Query.v
QueryValidate.v
QueryScope.v
QuerySelect.v
QueryWrite.v
Render.v
RenderWrite.v
RenderLayout.v
RenderSafety.v
QueryCompile.v
RenderSchema.v
NamedSql.v
Sha256.v
Migration.v
MigrateSelect.v
MigrateRun.v
MigrateSafety.v
MigrateProgress.v
MigrationOrder.v
Bytes.v
CursorCodec.v
Page.v
PageOrder.v
Typed.v
GraphKey.v
Graph.v
GraphValid.v
GraphLoad.v
GraphBatch.v
GraphEdges.v
GraphSound.v
GraphCorrect.v
Files.v
MigrationDir.v
NativeSql.v
Diff.v
DiffWrite.v
DiffSource.v
GoSort.v
GoPath.v
CompilerIR.v
CompilerPhysical.v
CompilerRound.v
CompilerSemantic.v
CompilerBuild.v
CompilerRelations.v
CompilerGo.v
GenSum.v
BindPlan.v
Mutation.v
MutationBatch.v
Prog.v
Exec.v
ExecScope.v
ExecQuiet.v
ExecAtomic.v
ExecRows.v
ExecRead.v
ExecGuard.v
MutationRun.v
MutationAtomic.v
