(* ===== verification/Prelude.v ===== *)
(** * rasql: a verification development

    rasql is a Go library around built and hand-written SQL.  It has a query
    model that validates itself, a renderer to the SQL text and the bound
    arguments of three dialects, a scanner for native SQL, schema descriptors
    with their DDL, a migration runner with schema diffs, a handle on
    [database/sql] with hooks, transactions and scopes, graph loads, keyset
    pages, batches of mutations, and the models its code generator prints.
    This development translates those parts into executable Rocq definitions
    and proves what makes them correct.  Source paths below are relative to
    [src/].

    ** The files

    Shared by all:
    - [Prelude]: Go errors as data (format and operands, verbs not expanded),
      the result monad with its notation, loops over slices with early return
      ([foldi], [checki]), [sort.Search], shared tactics.
    - [GoText], [GoTime], [GoSort], [GoPath], [Sha256], [Bytes], [Files]: what
      the sources use of Go's standard library - text, times, sorting and map
      order, paths, the hash, byte encodings, the file system.

    Statements and their text:
    - [SqlScan] ([internal/sqlscan]): the lexical scan and the SELECT check.
    - [Dialect] ([dialect/dialect.go]): the [Dialect] interface as a record of
      operations and the three dialects that implement it.  The renderer is
      written against the interface; its theorems hold for every
      [builtin_dialect].
    - [EngineProfile] ([internal/engineprofile]): versions, profiles and the
      discovery of a server's.
    - [Query], [QueryValidate], [QueryScope], [QuerySelect], [QueryWrite]
      ([query/]): expressions, relations and query bodies as one mutual
      inductive type, their validation with its reference semantics, the
      builders, the write statements.
    - [Render], [RenderWrite] ([render/select.go], [write.go]): the renderer
      as a state transformer over text and arguments; [RenderLayout] and
      [RenderSafety] hold its theorems.
    - [QueryCompile] ([internal/querycompile]): the checks of an engine
      profile around validation and rendering.
    - [NamedSql] ([namedsql/]): templates with bind actions.

    Schemas:
    - [Schema], [TableValidate] ([schema/]): descriptors, what makes them
      valid, the builders; [RenderSchema] ([render/schema.go]): their DDL.
    - [CompilerIR], [CompilerPhysical], [CompilerSemantic], [CompilerBuild],
      [CompilerGo] ([internal/compilerir]): the physical catalog, the semantic
      model and the Go model of the code generator, each with its validation;
      [CompilerRound] and [CompilerRelations] hold theorems.
    - [GenSum] ([internal/gensum]): the record of a generation.

    Migrations:
    - [Migration], [MigrateSelect], [MigrateRun] ([migrate/]): migrations,
      what a target selects, and the runner with its locks, transactions and
      history table on three engines; [MigrateSafety] and [MigrateProgress]
      hold its theorems.
    - [MigrationOrder] ([internal/migrationorder]), [MigrationDir]
      ([internal/migrationdir]).
    - [NativeSql], [Diff], [DiffWrite], [DiffSource] ([migrate/diff/]): the
      check of a caller's SQL, plans and their decisions, the migration a plan
      is written to, the sources a schema is read from.

    Running queries:
    - [Prog]: programs that call code they do not own.
    - [Exec], [ExecScope], [ExecRows] ([db.go], [hook.go], [event.go],
      [rows.go], [atomic.go], [scope.go], [executor.go]): the handle, its
      hooks, observers and events, the rows, transactions and scopes, reading
      a query; theorems in [ExecQuiet], [ExecAtomic], [ExecRead], [ExecGuard].
    - [BindPlan] ([internal/bindplan], [codec.go]), [Mutation], [MutationRun]
      ([mutation.go], [mutation_result.go]): bound values and codecs, batches
      of mutations, what becomes of their inputs; theorems in [MutationBatch]
      and [MutationAtomic].
    - [Typed] ([expression.go], [expression_operators.go]): typed expressions.
    - [CursorCodec], [Page], [PageOrder] ([internal/cursorcodec], [cursor.go],
      [page.go]): cursors and keyset pages.
    - [GraphKey], [Graph], [GraphLoad] ([internal/graphkey], [graph.go],
      [graph_execute.go], [relation_value.go]): keys, plans and their loading;
      theorems in [GraphValid], [GraphBatch], [GraphEdges], [GraphSound],
      [GraphCorrect].

    ** How the parts interact

    Validation runs in every constructor of a statement and again at the start
    of every render entry point ([Render.Select_], [RenderWrite.Write]).
    Native bodies pass through [SqlScan.Scan] when they are built, validated
    and rendered, which splices placeholders at the offsets the scan reported;
    quoted identifiers are tied to the same scanner by
    [Dialect.QuoteIdentifier_protected].  [QueryCompile] restricts the
    dialect it renders for to a profile.  Mutations compile through an
    interface and run on the handle of [Exec]; atomic batches run in the
    scopes of [ExecScope].  Pages build predicates of [Typed] and [Query];
    graph loads see the queries of their nodes through the class
    [Graph.QueryOps].  Descriptors are rendered by [RenderSchema], converted
    to and from catalogs by [CompilerIR], ordered by [MigrationOrder], and
    diffed through the parsers [Diff] is given.  A written plan is a directory
    of [Files] that [MigrationDir] reads back into migrations for the runner.

    ** What the theorems show

    - Scanner: reported regions, placeholders and semicolons are in bounds,
      ordered, disjoint and stand on the right characters; the WITH check
      accepts exactly a declarative grammar.
    - Validation: an accepted statement reads only columns its sources carry
      and aggregates only where and how it may.
    - Rendering: the argument list is exactly the statement's values in text
      order, numbered by the placeholders; what a compiler hands out is within
      its profile, bind limit included, and what is not is refused.
    - Named SQL: parsing accepts exactly the templates of a grammar and keeps
      every byte, compiling numbers the actions, binding refuses missing and
      unknown names and orders the values.
    - Profiles: discovery succeeds exactly when a server answers one version
      that a built-in profile covers, and then only one does.
    - Descriptors: validation accepts exactly the well-formed ones, DDL is
      rendered exactly for those that state none of the facts a dialect
      refuses; they survive the trip
      through the catalog; a catalog's validation is exact; identities follow
      their objects; a model's relations are those of the foreign keys and
      mappings; what generated code may write is what the columns allow.
    - Generation record: parsing is exact, what is written reads back, and the
      comparison names the least entry that differs.
    - Migrations: whatever calls fail, an apply or revert leaves a history
      naming a prefix of the migrations, on PostgreSQL and SQLite together
      with exactly their effects, and the next run accepts it; an undisturbed
      run does all of its selection.  The creation order is the one order
      with the smallest ready table first, and exists exactly when the foreign
      keys allow one.
    - Diffs: which SQL a caller may supply, when a plan is resolved and to
      what, and that a written plan loads as the migration it stands for.
    - Scopes and rows: what a callback does in a transaction or a nested scope
      is kept exactly when it returns, over a database with savepoints and any
      nesting, and one that leaves rows open is refused its end; reading a query returns what a reference says of its rows,
      closes them once and frees the token; hooks bracket every statement, owned
      queries included.
    - Mutations: batches tile the plans within the row and bind limits; an
      atomic batch leaves all of its work or none and says which.
    - Pages: the predicate is the lexicographic order of the keys, following
      the cursors visits every row once, foreign cursors are refused, and the
      byte formats round-trip.
    - Graphs: keys are equal exactly when their bytes are; the plan walk ends
      and accepts exactly the well-formed acyclic plans; a load ends, and what
      it returns is the graphs the plan describes.

    Each theorem with hypotheses is applied to concrete values by a witness.
    Lemmas record behaviour the sources do not intend or describe otherwise:
    [SqlScan.backtick_hides_semicolon], [RenderSafety.cast_hides_target],
    [RenderSafety.correlated_insert_renders],
    [RenderSafety.window_order_drops_nulls], [MigrateSelect.checksums_collide],
    [MigrationOrder.cycle_names_dependents],
    [CursorCodec.negative_zero_undecodable], [CursorCodec.time_order_broken],
    [NativeSql.escape_string_hides], [NativeSql.dashes_hide],
    [NativeSql.two_equals], [Diff.rename_dropped],
    [GraphCorrect.collation_duplicates], [ExecGuard.begin_unguarded],
    [ExecGuard.close_keeps_token], [ExecGuard.finish_again].

    ** Modelling conventions

    Strings are byte sequences; [int] values that come from callers are [Z],
    lengths and indices are [nat]; bit sets are [N] with [N.land] and
    [N.lor]; where a width matters its wrap-around is written out.  A nil
    interface is a constructor or [None].  A value bound as an argument is
    opaque ([any]).  A copy of an immutable value is the value; where sharing
    matters it is modelled: the heap of cells of a graph load, the cells of
    [Prog].

    What Go leaves open, and what the repository does not own, is a class or a
    section variable: the order of [sort.Slice] and of map ranges
    ([GoSort.SliceSort], [GoSort.MapRange], [range_ids]), rune tables, the Go
    parser, the SQL parsers of other modules, codecs.  The server a migration
    runs on is the class [MigrateRun.Server]: what its SQL does and which
    calls fail are its methods.  The driver, hooks, observers and callbacks of
    [Exec] are calls of a program, answered by an environment that sees all
    earlier calls and may panic; [ExecAtomic] instantiates the driver with a
    database that keeps savepoints.  A theorem holds for all instances unless
    it names the laws it needs.

    Recursion that is not structural has fuel with a theorem that it
    suffices, or a bound the theorem states: [NamedSql.parse_fuel] and
    [SqlScan.with_grammar_complete] (the text's length),
    [Graph.validate_fuel] (two turns per edge and node, [graphValidate_exact]),
    [GraphLoad.level_fuel] (one level per node, [LoadGraph_ends]), the read
    loop of [ExecRows] (more than the rows the driver has, [rows_read]), the
    batch search of [Mutation] (the length of the run).

    ** Not modelled

    Contexts and cancellation are failing calls; the compiler extension of a
    dialect ([dialect/compiler.go]) has no implementation in the repository.
    The diff engines ([migrate/diff/postgresql], [mysql], [sqlite]) work on
    syntax trees of other modules.  The typed queries and mutations read Go
    row types by reflection, decorated executors wrap arbitrary ones, and
    [graph_clone.go], [graph_page.go], JSON encodings, catalog inspection, the
    emitters of generated code, error classification and the command line
    tools are left out. *)

From stdpp Require Export base tactics list gmap strings pretty sorting.
From Stdlib Require Export ZArith Ascii Lia.
#[export] Set Default Goal Selector "!".
#[export] Set Warnings "-notation-overridden,-clear-no-such-hyp,-register-all".
#[global] Arguments String.append !_ _ : simpl nomatch.

(** ** Go errors

    Every Go function of the repository that can fail returns an [error]
    built from a format string and its operands ([fmt.Errorf],
    [errors.New], or one of the repository's own error structs).  The model
    keeps the format string and the operands as the source writes them and
    does not expand the verbs; [AErr] is an operand that is itself an error,
    which is how wrapping ([%w], or ["%s", err]) appears,
    and [AList] one that is a slice, a map or a struct. *)
Inductive err_kind : Type :=
| KPlain                                   (* fmt.Errorf / errors.New *)
| KValidation (path : string)              (* query.ValidationError, schema.ValidationError *)
| KTyped (name : string).                  (* a typed error struct, by its Go name *)

Inductive error : Type :=
| MkError (kind : err_kind) (format : string) (args : list err_arg)
with err_arg : Type :=
| AStr (s : string)
| AInt (z : Z)
| AErr (e : error)
| AList (l : list err_arg).

Abbreviation ANat n := (AInt (Z.of_nat n)).
Abbreviation Errorf f args := (MkError KPlain f args).
Abbreviation errors_New f := (MkError KPlain f []).

(** ** Results: [(value, error)] pairs where the value is meaningful only
    when the error is nil. *)
Inductive result (A : Type) : Type :=
| Ok (a : A)
| Err (e : error).
Arguments Ok {A} a.
Arguments Err {A} e.

Declare Scope go_scope.
Delimit Scope go_scope with go.

Notation "'do' x <- c ; k" :=
  (match c with Ok x => k | Err e_ => Err e_ end)
  (at level 10, x pattern, c at level 100, k at level 200) : go_scope.
Notation "'check' c ; k" :=
  (match c with Ok tt => k | Err e_ => Err e_ end)
  (at level 10, c at level 100, k at level 200) : go_scope.
Open Scope go_scope.

Definition is_ok {A} (r : result A) : bool :=
  match r with Ok _ => true | Err _ => false end.

(** [injection] on results computes the values; this does not. *)
Lemma Ok_inj {A} (x y : A) : Ok x = Ok y -> x = y.
Proof. congruence. Qed.
Lemma is_ok_true {A} (r : result A) : is_ok r = true <-> exists a, r = Ok a.
Proof. destruct r; naive_solver. Qed.

(** Wrapping the error of a result, as [if err != nil { return f(err) }]. *)
Definition wrap_err {A} (f : error -> error) (r : result A) : result A :=
  match r with Ok a => Ok a | Err e => Err (f e) end.

Lemma wrap_err_ok {A} (f : error -> error) (r : result A) a :
  wrap_err f r = Ok a <-> r = Ok a.
Proof. destruct r; naive_solver. Qed.

(** ** Loops with an early return *)
Section Loops.
Context {A S : Type}.

(** [for i, x := range l { ... }] carrying a state [s]; the body may return
    an error, which ends the loop. *)
Section FoldI.
Variable body : nat -> A -> S -> result S.
Fixpoint foldi (i : nat) (l : list A) (s : S) : result S :=
  match l with
  | [] => Ok s
  | x :: l' => do s' <- body i x s; foldi (Datatypes.S i) l' s'
  end.
End FoldI.

(** A loop invariant rule for [foldi]. *)
Lemma foldi_inv (body : nat -> A -> S -> result S) (P : nat -> S -> Prop) i l s s' :
  (forall j x t t', l !! j = Some x -> P (i + j) t -> body (i + j) x t = Ok t' ->
                    P (Datatypes.S (i + j)) t') ->
  P i s -> foldi body i l s = Ok s' -> P (i + length l) s'.
Proof.
  revert i s. induction l as [|x l IH]; simpl; intros i s Hstep HP Hrun.
  - rewrite Nat.add_0_r. by simplify_eq.
  - destruct (body i x s) as [t|] eqn:E; [|done].
    rewrite <- Nat.add_succ_comm. apply (IH (Datatypes.S i) t); [| |done].
    + intros j y u u' Hy. replace (Datatypes.S i + j) with (i + Datatypes.S j) by lia.
      by apply (Hstep (Datatypes.S j)).
    + specialize (Hstep 0 x s t). rewrite Nat.add_0_r in Hstep. by apply Hstep.
Qed.

Lemma foldi_app (body : nat -> A -> S -> result S) i l1 l2 s :
  foldi body i (l1 ++ l2) s =
    (do s' <- foldi body i l1 s; foldi body (i + length l1) l2 s').
Proof.
  revert i s. induction l1 as [|x l1 IH]; intros i s; simpl.
  - by rewrite Nat.add_0_r.
  - destruct (body i x s); [|done]. rewrite IH. by rewrite Nat.add_succ_r.
Qed.
End Loops.

Lemma foldi_ext {A S} (f g : nat -> A -> S -> result S) i l s :
  (forall i x s, f i x s = g i x s) -> foldi f i l s = foldi g i l s.
Proof.
  intros H. revert i s. induction l as [|x l IH]; intros i s; simpl; [done|].
  rewrite H. destruct (g i x s); [apply IH|done].
Qed.

(** A loop that appends one result per element. *)
Lemma foldi_collected {A B} (f : A -> result B) i l acc out :
  foldi (fun _ x l => do v <- f x; Ok (l ++ [v])) i l acc = Ok out <->
  exists vs, out = acc ++ vs /\ Forall2 (fun x v => f x = Ok v) l vs.
Proof.
  revert i acc. induction l as [|x l IH]; intros i acc; simpl.
  - split; [intros [= <-]; exists []; by rewrite app_nil_r|]. intros (vs & -> & ->%Forall2_nil_inv_l). by rewrite app_nil_r.
  - destruct (f x) as [v|e] eqn:E; simpl.
    + rewrite IH. split.
      * intros (vs & -> & H). exists (v :: vs). rewrite <- app_assoc. split; [done|]. by constructor.
      * intros (vs & -> & (v' & vs' & Hv & H & ->)%Forall2_cons_inv_l).
        assert (v' = v) as -> by congruence. exists vs'. split; [by rewrite <- app_assoc|done].
    + split; [done|]. intros (vs & -> & (v' & vs' & Hv & H & ->)%Forall2_cons_inv_l). congruence.
Qed.

(** A loop whose body has no state, only the possibility of failing. *)
Definition checki {A} (body : nat -> A -> result unit) (i : nat) (l : list A) : result unit :=
  foldi (fun i x _ => body i x) i l tt.

Lemma checki_ok {A} (body : nat -> A -> result unit) i l :
  checki body i l = Ok tt <-> forall j x, l !! j = Some x -> body (i + j) x = Ok tt.
Proof.
  revert i. induction l as [|x l IH]; intros i; unfold checki; simpl.
  - split; [|done]. intros _ j x Hx. by rewrite lookup_nil in Hx.
  - split.
    + destruct (body i x) as [[]|] eqn:E; [|done]. intros H [|j] y Hy; simpl in Hy.
      * simplify_eq. by rewrite Nat.add_0_r.
      * rewrite <- Nat.add_succ_comm. by apply IH.
    + intros H. pose proof (H 0 x eq_refl) as H0. rewrite Nat.add_0_r in H0. rewrite H0.
      apply IH. intros j y Hy. replace (S i + j) with (i + S j) by lia. by apply H.
Qed.

(** Conditions of a chain of tests. *)
Lemma check_ok {A} (a : result unit) (k : result A) x :
  (check a; k) = Ok x <-> a = Ok tt /\ k = Ok x.
Proof. destruct a as [[]|e]; naive_solver. Qed.
Lemma do_ok {A B} (a : result A) (k : A -> result B) y :
  match a with Ok x => k x | Err e => Err e end = Ok y <-> exists x, a = Ok x /\ k x = Ok y.
Proof. destruct a; naive_solver. Qed.
Lemma checki_Forall {A} (body : nat -> A -> result unit) (P : A -> Prop) l :
  (forall i x, body i x = Ok tt <-> P x) -> checki body 0 l = Ok tt <-> Forall P l.
Proof.
  intros H. rewrite checki_ok, Forall_lookup. split; intros Hl i x Hx; [eapply H|eapply H]; eauto.
Qed.
Lemma length_nil {A} (l : list A) : (length l =? 0) = false <-> l <> [].
Proof. destruct l; naive_solver. Qed.
Lemma length_pos {A} (l : list A) : (0 <? length l) = false <-> l = [].
Proof. destruct l; naive_solver. Qed.

(** A loop that records distinct names in a set, testing each element. *)
Lemma foldi_distinct {A} (nm : A -> string) (P : A -> Prop)
  (body : nat -> A -> gset string -> result (gset string)) :
  (forall i x seen s, body i x seen = Ok s <-> P x /\ (nm x ∉ seen) /\ s = {[ nm x ]} ∪ seen) ->
  forall l i seen s, foldi body i l seen = Ok s <->
    (Forall P l /\ NoDup (nm <$> l) /\ Forall (fun x => nm x ∉ seen) l) /\ s = list_to_set (nm <$> l) ∪ seen.
Proof.
  intros HP l. induction l as [|x l IH]; intros i seen s; simpl.
  { split; [intros [= <-]; split; [|set_solver]|intros (_ & ->); f_equal; set_solver].
    split; [constructor|]. split; constructor. }
  rewrite NoDup_cons, !Forall_cons. transitivity (exists s1, body i x seen = Ok s1 /\ foldi body (S i) l s1 = Ok s).
  { destruct (body i x seen); naive_solver. }
  rewrite !Forall_forall, !list_elem_of_fmap. split.
  - intros (s1 & (Hx & Hn & ->)%HP & [(H1 & H2 & H3) ->]%IH). rewrite Forall_forall in H1, H3. split_and!; try done.
    + intros (y & Ey & Hy). apply (H3 y Hy). set_solver.
    + intros y Hy. specialize (H3 y Hy). set_solver.
    + set_solver.
  - intros (([Hx H1] & [Hn H2] & [Hs H3]) & ->). exists ({[ nm x ]} ∪ seen). split; [by apply HP|].
    apply IH. rewrite !Forall_forall. split_and!; try done; [|set_solver].
    intros y Hy [E%elem_of_singleton|Hi]%elem_of_union; [apply Hn; by exists y|by apply (H3 y Hy)].
Qed.

(** ** [sort.Search]: the standard library's bisection, with the interval
    length as fuel. *)
Fixpoint search_loop (fuel : nat) (f : nat -> bool) (i j : nat) : nat :=
  match fuel with
  | 0 => i
  | S fuel' =>
      if i <? j
      then let h := Nat.div2 (i + j) in
           if f h then search_loop fuel' f i h else search_loop fuel' f (S h) j
      else i
  end.
Definition sort_Search (n : nat) (f : nat -> bool) : nat := search_loop (S n) f 0 n.

Lemma search_loop_spec fuel (f : nat -> bool) n i j :
  (forall a b, a <= b < n -> f a = true -> f b = true) ->
  j - i < fuel -> i <= j <= n ->
  (forall k, k < i -> f k = false) -> (forall k, j <= k < n -> f k = true) ->
  let r := search_loop fuel f i j in
  r <= n /\ (forall k, k < r -> f k = false) /\ (forall k, r <= k < n -> f k = true).
Proof.
  intros Hmono. revert i j. induction fuel as [|fuel IH]; intros i j Hf Hij Hlo Hhi; [lia|].
  simpl. destruct (Nat.ltb_spec i j) as [Hlt|Hge].
  - pose proof (Nat.div2_odd (i + j)) as Hd.
    set (h := Nat.div2 (i + j)) in *.
    assert (i <= h < j) as Hh by (destruct (Nat.odd (i + j)); simpl in Hd; lia).
    destruct (f h) eqn:E.
    + apply IH; [lia|lia|done|]. intros k Hk. destruct (decide (j <= k)) as [H|H].
      * apply Hhi. lia.
      * apply (Hmono h); [lia|done].
    + apply IH; [lia|lia| |done]. intros k Hk. destruct (f k) eqn:Ek; [|done].
      rewrite (Hmono k h) in E; [done|lia|done].
  - assert (i = j) as -> by lia. split; [lia|]. split; [done|]. intros k Hk. apply Hhi. lia.
Qed.

Lemma sort_Search_spec n (f : nat -> bool) :
  (forall a b, a <= b < n -> f a = true -> f b = true) ->
  let r := sort_Search n f in
  r <= n /\ (forall k, k < r -> f k = false) /\ (forall k, r <= k < n -> f k = true).
Proof. intros Hm. apply search_loop_spec; [done|lia|lia|lia|lia]. Qed.

(** ** Tactics and hints shared by the files *)

(** Consume every [Ok]/[Err] equation produced by a [do] in a hypothesis. *)
Ltac inv_ok :=
  repeat match goal with
  | H : Err _ = Ok _ |- _ => discriminate H
  | H : Ok _ = Err _ |- _ => discriminate H
  | H : Ok _ = Ok _ |- _ => injection H; clear H; intros; try subst
  | u : unit |- _ => destruct u
  | H : (match ?c with Ok _ => _ | Err _ => _ end) = Ok _ |- _ =>
      let E := fresh "E" in destruct c eqn:E; try discriminate H
  end.

Create HintDb rasql discriminated.
Create Rewrite HintDb rasql_str.
