(* ===== verification/GoText.v ===== *)
(** * GoText: the parts of Go's [strings], [unicode], [unicode/utf8],
    [strconv] and [sort] packages the repository uses on text.

    A Go string is a sequence of bytes, so it is a Rocq [string], whose
    characters are 8-bit [ascii] values.  Everything here is a definition of
    documented standard-library behaviour; none of it is repository code. *)

From S2P Require Import Prelude.

Open Scope string_scope.
Open Scope list_scope.
Open Scope nat_scope.

(** ** Bytes *)
Definition code (c : ascii) : N := N_of_ascii c.
Definition chr (n : N) : ascii := ascii_of_N n.
Definition in_range (lo hi n : N) : bool := ((lo <=? n) && (n <=? hi))%N.

Lemma in_range_true lo hi n : in_range lo hi n = true <-> (lo <= n <= hi)%N.
Proof. unfold in_range. rewrite andb_true_iff, !N.leb_le. lia. Qed.

Lemma chr_code c : chr (code c) = c.
Proof. apply ascii_N_embedding. Qed.
Lemma code_chr n : (n < 256)%N -> code (chr n) = n.
Proof. apply N_ascii_embedding. Qed.
Lemma code_bound c : (code c < 256)%N.
Proof. apply N_ascii_bounded. Qed.
Lemma code_inj a b : code a = code b -> a = b.
Proof. intros H. rewrite <- (chr_code a), <- (chr_code b). by rewrite H. Qed.

(** [unicode.IsLetter], [IsDigit] and [IsSpace] of [rune(b)] for a byte [b]:
    the Latin-1 rows of the Unicode tables. *)
Definition is_letter (c : ascii) : bool :=
  let n := code c in
  (in_range 65 90 n || in_range 97 122 n || (n =? 170) || (n =? 181) || (n =? 186)
   || in_range 192 214 n || in_range 216 246 n || in_range 248 255 n)%N.
Definition is_digit (c : ascii) : bool := in_range 48 57 (code c).
Definition is_space (c : ascii) : bool :=
  let n := code c in (in_range 9 13 n || (n =? 32) || (n =? 133) || (n =? 160))%N.

Definition upper (c : ascii) : ascii :=
  if in_range 97 122 (code c) then chr (code c - 32) else c.
Definition lower (c : ascii) : ascii :=
  if in_range 65 90 (code c) then chr (code c + 32) else c.

Fixpoint str_map (f : ascii -> ascii) (s : string) : string :=
  match s with "" => "" | String c s' => String (f c) (str_map f s') end.

(** [strings.ToUpper] and [ToLower] on the ASCII letters.  The repository
    only compares the results with ASCII keywords, and no byte sequence
    outside ASCII folds to an ASCII letter of the words it builds. *)
Definition ToUpper (s : string) : string := str_map upper s.
Definition ToLower (s : string) : string := str_map lower s.

(** ** Slicing: [s[n:]], [s[:n]], concatenation *)
Fixpoint sdrop (n : nat) (s : string) : string :=
  match n, s with
  | 0, _ => s
  | S n', String _ s' => sdrop n' s'
  | S _, "" => ""
  end.
Fixpoint stake (n : nat) (s : string) : string :=
  match n, s with
  | 0, _ => ""
  | S n', String c s' => String c (stake n' s')
  | S _, "" => ""
  end.

Fixpoint HasPrefix (s p : string) {struct p} : bool :=
  match p, s with
  | "", _ => true
  | String a p', String b s' => Ascii.eqb a b && HasPrefix s' p'
  | String _ _, "" => false
  end.

Fixpoint str_rev_app (s acc : string) : string :=
  match s with "" => acc | String c s' => str_rev_app s' (String c acc) end.
Definition str_rev (s : string) : string := str_rev_app s "".

Definition HasSuffix (s p : string) : bool := HasPrefix (str_rev s) (str_rev p).
Definition TrimSuffix (s p : string) : string :=
  if HasSuffix s p then stake (String.length s - String.length p) s else s.

(** [strings.Index]: the first offset at which [p] occurs. *)
Fixpoint Index (s p : string) : option nat :=
  if HasPrefix s p then Some 0
  else match s with
       | "" => None
       | String _ s' => match Index s' p with Some n => Some (S n) | None => None end
       end.
Definition Contains (s p : string) : bool :=
  match Index s p with Some _ => true | None => false end.
Definition IndexByte (s : string) (b : ascii) : option nat := Index s (String b "").

Definition Join (l : list string) (sep : string) : string :=
  match l with
  | [] => ""
  | x :: l' => fold_left (fun acc y => acc +:+ sep +:+ y) l' x
  end.

(** [strings.Split] for a non-empty separator: [skip] counts the bytes of a
    separator still to be stepped over. *)
Fixpoint split_from (s sep cur : string) (skip : nat) : list string :=
  match s with
  | "" => [str_rev cur]
  | String c s' =>
      match skip with
      | S k => split_from s' sep cur k
      | 0 => if HasPrefix s sep
             then str_rev cur :: split_from s' sep "" (String.length sep - 1)
             else split_from s' sep (String c cur) 0
      end
  end.
Definition Split (s sep : string) : list string := split_from s sep "" 0.

(** [strings.Count] for a non-empty substring: non-overlapping occurrences. *)
Definition Count (s p : string) : nat := length (Split s p) - 1.

(** [strings.ReplaceAll] for a non-empty [old]. *)
Fixpoint replace_from (old new : string) (skip : nat) (s : string) : string :=
  match s with
  | "" => ""
  | String c s' =>
      match skip with
      | S k => replace_from old new k s'
      | 0 => if HasPrefix s old then new +:+ replace_from old new (String.length old - 1) s'
             else String c (replace_from old new 0 s')
      end
  end.
Definition ReplaceAll (s old new : string) : string := replace_from old new 0 s.

Definition str1 (c : ascii) : string := String c "".

Fixpoint str_forallb (p : ascii -> bool) (s : string) : bool :=
  match s with "" => true | String c s' => p c && str_forallb p s' end.

(** ** White space, with the UTF-8 encodings of the Unicode spaces *)
Definition bytes (l : list N) : string :=
  fold_right (fun n s => String (chr n) s) "" l.

Definition space_encodings : list string :=
  map (fun n => bytes [n]) [9; 10; 11; 12; 13; 32]%N
  ++ map bytes ([[194; 133]; [194; 160]; [225; 154; 128]; [226; 128; 168]; [226; 128; 169];
                 [226; 128; 175]; [226; 129; 159]; [227; 128; 128]]
                ++ map (fun k => [226; 128; 128 + N.of_nat k]) (seq 0 11))%N.

(** Length of the space that starts [s], if one does. *)
Definition space_prefix_of (encs : list string) (s : string) : option nat :=
  match List.find (HasPrefix s) encs with Some e => Some (String.length e) | None => None end.

Fixpoint trim_left_of (encs : list string) (skip : nat) (s : string) : string :=
  match s with
  | "" => ""
  | String _ s' =>
      match skip with
      | S k => trim_left_of encs k s'
      | 0 => match space_prefix_of encs s with
             | Some (S k) => trim_left_of encs k s'
             | _ => s
             end
      end
  end.
Definition TrimSpace (s : string) : string :=
  let l := trim_left_of space_encodings 0 s in
  str_rev (trim_left_of (map str_rev space_encodings) 0 (str_rev l)).

(** [strings.Fields]. *)
Fixpoint fields_from (s cur : string) (skip : nat) : list string :=
  let flush := if String.eqb cur "" then [] else [str_rev cur] in
  match s with
  | "" => flush
  | String c s' =>
      match skip with
      | S k => fields_from s' cur k
      | 0 => match space_prefix_of space_encodings s with
             | Some (S k) => flush ++ fields_from s' "" k
             | _ => fields_from s' (String c cur) 0
             end
      end
  end.
Definition Fields (s : string) : list string := fields_from s "" 0.

(** ** UTF-8 *)

(** [utf8.DecodeRuneInString]: the rune and its width; an invalid encoding
    is [(65533, 1)] and the empty string [(65533, 0)]. *)
Definition rune_error : N := 65533.
Definition cont (lo hi : N) (c : ascii) : bool := in_range lo hi (code c).
Definition low6 (c : ascii) : N := (code c - 128)%N.

Open Scope N_scope.
Definition DecodeRune (s : string) : N * nat :=
  match s with
  | "" => (rune_error, 0%nat)
  | String a r =>
      let n := code a in
      if n <? 128 then (n, 1%nat)
      else if in_range 194 223 n then
        match r with
        | String b _ => if cont 128 191 b then ((n - 192) * 64 + low6 b, 2%nat) else (rune_error, 1%nat)
        | _ => (rune_error, 1%nat)
        end
      else if in_range 224 239 n then
        let lo := if n =? 224 then 160 else 128 in
        let hi := if n =? 237 then 159 else 191 in
        match r with
        | String b (String c _) =>
            if cont lo hi b && cont 128 191 c
            then ((n - 224) * 4096 + low6 b * 64 + low6 c, 3%nat) else (rune_error, 1%nat)
        | _ => (rune_error, 1%nat)
        end
      else if in_range 240 244 n then
        let lo := if n =? 240 then 144 else 128 in
        let hi := if n =? 244 then 143 else 191 in
        match r with
        | String b (String c (String d _)) =>
            if cont lo hi b && cont 128 191 c && cont 128 191 d
            then ((n - 240) * 262144 + low6 b * 4096 + low6 c * 64 + low6 d, 4%nat)
            else (rune_error, 1%nat)
        | _ => (rune_error, 1%nat)
        end
      else (rune_error, 1%nat)
  end.

Close Scope N_scope.

(** [utf8.ValidString]: every decoding step is a valid one.  An error of
    width 1 is what [DecodeRune] reports for a byte no encoding starts at. *)
Fixpoint valid_from (skip : nat) (s : string) : bool :=
  match s with
  | "" => true
  | String _ s' =>
      match skip with
      | S k => valid_from k s'
      | 0 => let '(r, w) := DecodeRune s in
             if (r =? rune_error)%N && (w =? 1) then false else valid_from (w - 1) s'
      end
  end.
Definition ValidString (s : string) : bool := valid_from 0 s.

Open Scope N_scope.
(** [utf8.AppendRune]; an invalid rune is encoded as the replacement rune. *)
Definition ValidRune (r : N) : bool := (r <? 55296) || in_range 57344 1114111 r.
Definition EncodeRune (r : N) : string :=
  let enc r :=
    if r <? 128 then bytes [r]
    else if r <? 2048 then bytes [192 + r / 64; 128 + r mod 64]
    else if r <? 65536 then bytes [224 + r / 4096; 128 + (r / 64) mod 64; 128 + r mod 64]
    else bytes [240 + r / 262144; 128 + (r / 4096) mod 64; 128 + (r / 64) mod 64; 128 + r mod 64] in
  if ValidRune r then enc r else enc rune_error.
Close Scope N_scope.

(** ** Numbers as text *)

Definition Itoa (z : Z) : string := pretty z.
Definition NatItoa (n : nat) : string := pretty (N.of_nat n).

(** The value of a string of decimal digits. *)
Fixpoint digits_value (s : string) (acc : Z) : Z :=
  match s with
  | "" => acc
  | String c s' => digits_value s' (acc * 10 + Z.of_N (code c - 48))%Z
  end.
Definition maxInt64 : Z := 9223372036854775807.
(** [strconv.Atoi] of a non-empty string of decimal digits. *)
Definition Atoi_digits (s : string) : option Z :=
  let v := digits_value s 0 in if (v <=? maxInt64)%Z then Some v else None.

(** ** [strconv.Unquote] *)
Definition unhex (c : ascii) : option N :=
  let n := code c in
  if in_range 48 57 n then Some (n - 48)%N
  else if in_range 97 102 n then Some (n - 87)%N
  else if in_range 65 70 n then Some (n - 55)%N
  else None.

Fixpoint read_hex (k : nat) (s : string) (v : N) : option (N * string) :=
  match k with
  | 0 => Some (v, s)
  | S k' => match s with
            | String c s' => match unhex c with
                             | Some x => read_hex k' s' (v * 16 + x)%N
                             | None => None
                             end
            | "" => None
            end
  end.

Fixpoint read_octal (k : nat) (s : string) (v : N) : option (N * string) :=
  match k with
  | 0 => Some (v, s)
  | S k' => match s with
            | String c s' => if in_range 48 55 (code c)
                             then read_octal k' s' (v * 8 + (code c - 48))%N else None
            | "" => None
            end
  end.

Definition dquote : ascii := chr 34%N.
Definition squote : ascii := chr 39%N.
Definition backquote : ascii := chr 96%N.
Definition backslash : ascii := chr 92%N.
Definition newline : ascii := chr 10%N.
Definition creturn : ascii := chr 13%N.

(** [strconv.UnquoteChar]: the bytes the character stands for (as
    [unquote] appends them) and the remaining text. *)
Definition UnquoteChar (s : string) (quote : ascii) : option (string * string) :=
  match s with
  | "" => None
  | String c s1 =>
      if Ascii.eqb c quote && (Ascii.eqb quote squote || Ascii.eqb quote dquote) then None
      else if (128 <=? code c)%N then
        let '(r, w) := DecodeRune s in Some (EncodeRune r, sdrop w s)
      else if negb (Ascii.eqb c backslash) then Some (String c "", s1)
      else match s1 with
           | "" => None
           | String e s2 =>
               let lit n := Some (String (chr n) "", s2) in
               match code e with
               | 97%N => lit 7%N | 98%N => lit 8%N | 102%N => lit 12%N | 110%N => lit 10%N
               | 114%N => lit 13%N | 116%N => lit 9%N | 118%N => lit 11%N | 92%N => lit 92%N
               | 120%N => match read_hex 2 s2 0%N with
                        | Some (v, r) => Some (String (chr v) "", r) | None => None end
               | 117%N => match read_hex 4 s2 0%N with
                        | Some (v, r) => if ValidRune v then Some (EncodeRune v, r) else None
                        | None => None end
               | 85%N => match read_hex 8 s2 0%N with
                       | Some (v, r) => if ValidRune v then Some (EncodeRune v, r) else None
                       | None => None end
               | 39%N | 34%N => if Ascii.eqb e quote then Some (String e "", s2) else None
               | _ => if in_range 48 55 (code e)
                      then match read_octal 2 s2 (code e - 48)%N with
                           | Some (v, r) => if (v <=? 255)%N then Some (String (chr v) "", r) else None
                           | None => None end
                      else None
               end
           end
  end.

(** The escape-processing loop of [unquote]; the fuel is the length of the
    text, since every character consumes at least one byte. *)
Fixpoint unquote_loop (fuel : nat) (quote : ascii) (s buf : string) : option (string * string) :=
  match fuel with
  | 0 => None
  | S fuel' =>
      match s with
      | "" => None
      | String c s' =>
          if Ascii.eqb c quote then Some (buf, s')
          else if Ascii.eqb c newline then None
          else match UnquoteChar s quote with
               | None => None
               | Some (o, rem) =>
                   if Ascii.eqb quote squote
                   then match rem with
                        | String q rem' => if Ascii.eqb q quote then Some (buf +:+ o, rem') else None
                        | "" => None
                        end
                   else unquote_loop fuel' quote rem (buf +:+ o)
               end
      end
  end.

Fixpoint remove_byte (b : ascii) (s : string) : string :=
  match s with
  | "" => ""
  | String c s' => if Ascii.eqb c b then remove_byte b s' else String c (remove_byte b s')
  end.

Definition Unquote (s : string) : option string :=
  match s with
  | String q rest =>
      if String.length s <? 2 then None
      else match IndexByte rest q with
      | None => None
      | Some at_ =>
          let inner := stake at_ rest in
          let rem := sdrop (S at_) rest in
          let slow := match unquote_loop (S (String.length rest)) q rest "" with
                      | Some (out, "") => Some out
                      | _ => None
                      end in
          let whole out := if String.eqb rem "" then Some out else None in
          if Ascii.eqb q backquote then whole (remove_byte creturn inner)
          else if Ascii.eqb q dquote || Ascii.eqb q squote then
            if negb (Contains inner (String backslash "")) && negb (Contains inner (String newline ""))
               && (if Ascii.eqb q dquote then ValidString inner
                   else let '(r, w) := DecodeRune inner in
                        (w =? String.length inner) && negb ((r =? rune_error)%N && (w =? 1)))
            then whole inner
            else slow
          else None
      end
  | "" => None
  end.

(** ** Byte-wise string order and [sort] *)
Fixpoint str_ltb (a b : string) : bool :=
  match a, b with
  | "", String _ _ => true
  | String x a', String y b' =>
      (code x <? code y)%N || ((code x =? code y)%N && str_ltb a' b')
  | _, _ => false
  end.

Definition str_le (a b : string) : Prop := str_ltb b a = false.
#[export] Instance str_le_dec : RelDecision str_le.
Proof. intros a b. unfold str_le. apply _. Defined.

Lemma str_ltb_irrefl a : str_ltb a a = false.
Proof. induction a as [|x a IH]; simpl; [done|]. by rewrite N.ltb_irrefl, N.eqb_refl, IH. Qed.

Lemma str_ltb_trans a b c : str_ltb a b = true -> str_ltb b c = true -> str_ltb a c = true.
Proof.
  revert b c. induction a as [|x a IH]; intros [|y b] [|z c]; simpl; try done.
  rewrite !orb_true_iff, !andb_true_iff, !N.ltb_lt, !N.eqb_eq.
  intros [H1|[H1 H2]] [H3|[H3 H4]]; try (left; lia).
  right. split; [lia|]. by apply (IH b c).
Qed.

Lemma str_ltb_total a b : str_ltb a b = false -> str_ltb b a = false -> a = b.
Proof.
  revert b. induction a as [|x a IH]; intros [|y b]; simpl; try done.
  rewrite !orb_false_iff, !andb_false_iff, !N.ltb_ge, !N.eqb_neq. intros [H1 H2] [H3 H4].
  assert (code x = code y) as E by lia. rewrite (code_inj _ _ E). f_equal.
  apply IH; [destruct H2|destruct H4]; (lia || done).
Qed.

Lemma str_ltb_asym a b : str_ltb a b = true -> str_ltb b a = false.
Proof.
  intros H. destruct (str_ltb b a) eqn:E; [|done].
  pose proof (str_ltb_trans _ _ _ H E) as T. by rewrite str_ltb_irrefl in T.
Qed.

#[export] Instance str_le_total_order : TotalOrder str_le.
Proof.
  split; [split; [split|]|].
  - intros a. apply str_ltb_irrefl.
  - intros a b c H1 H2. unfold str_le in *. destruct (str_ltb c a) eqn:E; [|done].
    destruct (str_ltb b c) eqn:E3.
    + pose proof (str_ltb_trans _ _ _ E3 E). congruence.
    + pose proof (str_ltb_total _ _ H2 E3). congruence.
  - unfold str_le. intros a b H1 H2. by apply str_ltb_total.
  - intros a b. unfold str_le, strict. destruct (str_ltb a b) eqn:E.
    + left. split; [by apply str_ltb_asym|congruence].
    + right. destruct (str_ltb b a) eqn:E2.
      * right. split; [done|congruence].
      * left. by apply str_ltb_total.
Qed.

(** [sort.Strings]. *)
Definition sort_Strings (l : list string) : list string := merge_sort str_le l.

Lemma sort_Strings_perm l : sort_Strings l ≡ₚ l.
Proof. apply merge_sort_Permutation. Qed.
Lemma sort_Strings_sorted l : StronglySorted str_le (sort_Strings l).
Proof. apply StronglySorted_merge_sort; apply _. Qed.

(** ** Lemmas on strings *)
Lemma sapp_assoc a b c : (a +:+ b) +:+ c = a +:+ (b +:+ c).
Proof. induction a as [|x a IH]; simpl; [done|]. by rewrite IH. Qed.
Lemma sapp_nil_r a : a +:+ "" = a.
Proof. induction a as [|x a IH]; simpl; [done|]. by rewrite IH. Qed.
Lemma slength_app a b : String.length (a +:+ b) = String.length a + String.length b.
Proof. induction a as [|x a IH]; simpl; [done|]. by rewrite IH. Qed.
Lemma sdrop_app a b : sdrop (String.length a) (a +:+ b) = b.
Proof. induction a as [|x a IH]; simpl; [by destruct b|done]. Qed.
Lemma stake_app a b : stake (String.length a) (a +:+ b) = a.
Proof. induction a as [|x a IH]; simpl; [by destruct b|by rewrite IH]. Qed.
Lemma stake_sdrop n s : stake n s +:+ sdrop n s = s.
Proof.
  revert s. induction n as [|n IH]; intros [|c s]; simpl; try done. by rewrite IH.
Qed.
Lemma slength_sdrop n s : String.length (sdrop n s) = String.length s - n.
Proof. revert s. induction n as [|n IH]; intros [|c s]; simpl; try done. Qed.
Lemma sdrop_sdrop n m s : sdrop n (sdrop m s) = sdrop (m + n) s.
Proof.
  revert s. induction m as [|m IH]; intros s; simpl; [done|].
  destruct s as [|c s]; simpl; [by destruct n|apply IH].
Qed.
Lemma HasPrefix_spec s p : HasPrefix s p = true <-> exists r, s = p +:+ r.
Proof.
  revert s. induction p as [|a p IH]; intros s; simpl.
  - split; [by exists s|done].
  - destruct s as [|b s]; [split; [done|by intros [r H]]|].
    rewrite andb_true_iff, Ascii.eqb_eq, IH. split.
    + intros [-> [r ->]]. by exists r.
    + intros [r H]. injection H as -> ->. eauto.
Qed.

#[export] Hint Rewrite sapp_assoc sapp_nil_r slength_app sdrop_app stake_app : rasql_str.

(** Induction on the length of a string, for scanners that look ahead. *)
Lemma string_len_ind (P : string -> Prop) :
  (forall s, (forall s', String.length s' < String.length s -> P s') -> P s) -> forall s, P s.
Proof. intros H s. induction s using (well_founded_induction (Wf_nat.well_founded_ltof _ String.length)).
  by apply H. Qed.

Lemma slength_stake n s : String.length (stake n s) = Nat.min n (String.length s).
Proof. revert s. induction n as [|n IH]; intros [|c s]; simpl; try done. by rewrite IH. Qed.

Lemma Index_spec s p k :
  Index s p = Some k -> HasPrefix (sdrop k s) p = true /\ k + String.length p <= String.length s.
Proof.
  revert k. induction s as [|c s IH]; intros k; simpl.
  - destruct (HasPrefix "" p) eqn:E; [|done]. intros [= <-]. split; [done|].
    destruct p; simpl in *; [lia|done].
  - destruct (HasPrefix (String c s) p) eqn:E.
    + intros [= <-]. split; [done|]. apply HasPrefix_spec in E as [r E].
      change (S (String.length s)) with (String.length (String c s)). rewrite E, slength_app. lia.
    + destruct (Index s p) as [m|]; [|done]. intros [= <-].
      destruct (IH m eq_refl) as [H1 H2]. split; [done|simpl; lia].
Qed.

(** ** Suffixes *)
Lemma str_rev_app_acc s acc : str_rev_app s acc = str_rev s +:+ acc.
Proof.
  unfold str_rev. revert acc. induction s as [|c s IH]; intros acc; simpl; [done|].
  rewrite (IH (String c acc)), (IH (String c "")), sapp_assoc. done.
Qed.
Lemma str_rev_app_rev a b : str_rev (a +:+ b) = str_rev b +:+ str_rev a.
Proof.
  induction a as [|c a IH]; [by rewrite sapp_nil_r|].
  change (str_rev (String c a +:+ b)) with (str_rev_app (a +:+ b) (String c "")).
  change (str_rev (String c a)) with (str_rev_app a (String c "")).
  by rewrite !str_rev_app_acc, IH, sapp_assoc.
Qed.
Lemma str_rev_involutive s : str_rev (str_rev s) = s.
Proof.
  induction s as [|c s IH]; [done|]. change (str_rev (String c s)) with (str_rev_app s (String c "")).
  by rewrite str_rev_app_acc, str_rev_app_rev, IH.
Qed.
Lemma HasPrefix_app p s : HasPrefix (p +:+ s) p = true.
Proof. apply HasPrefix_spec. by exists s. Qed.
Lemma HasSuffix_app s p : HasSuffix (s +:+ p) p = true.
Proof. unfold HasSuffix. rewrite str_rev_app_rev. apply HasPrefix_app. Qed.
Lemma TrimSuffix_app s p : TrimSuffix (s +:+ p) p = s.
Proof.
  unfold TrimSuffix. rewrite HasSuffix_app, slength_app, Nat.add_sub. apply stake_app.
Qed.
Lemma sapp_cancel_r a b s : a +:+ s = b +:+ s -> a = b.
Proof. intros H. rewrite <- (TrimSuffix_app a s), H. apply TrimSuffix_app. Qed.

(** ** The order of strings with a common part *)
Lemma str_ltb_app a b x y : String.length a = String.length b -> str_ltb a b = true -> str_ltb (a +:+ x) (b +:+ y) = true.
Proof.
  revert b. induction a as [|c a IH]; intros [|d b]; simpl; try done. intros [= Hl].
  rewrite !orb_true_iff, !andb_true_iff. intros [H|[H1 H2]]; [by left|]. right. split; [done|]. by apply IH.
Qed.
Lemma str_ltb_prefix p a b : str_ltb (p +:+ a) (p +:+ b) = str_ltb a b.
Proof. induction p as [|c p IH]; simpl; [done|]. by rewrite IH, N.ltb_irrefl, N.eqb_refl. Qed.

(** ** [errors.Join] and [errors.Is]

    Whether an error wraps its operands ([%w], a joined error), and whether it
    is or wraps the error made of a message. *)
Definition wraps (kind : err_kind) (format : string) : bool :=
  match kind with
  | KTyped n => existsb (String.eqb n) ["errors.joinError"; "ExtensionError"; "noRowsError"] || Contains format "%w"
  | _ => Contains format "%w"
  end.
(** [errors.Join]: the errors that are not nil, as one. *)
Definition errors_Join (l : list (option error)) : option error :=
  match omap (fun e => e) l with
  | [] => None
  | es => Some (MkError (KTyped "errors.joinError") "" (map AErr es))
  end.
Lemma errors_Join_none a b : errors_Join [a; b] = None <-> a = None /\ b = None.
Proof. destruct a, b; naive_solver. Qed.
Fixpoint errors_Is (message : string) (e : error) : bool :=
  match e with
  | MkError kind format args =>
      String.eqb format message
      || (wraps kind format &&
          (fix wrapped (l : list err_arg) : bool :=
             match l with
             | [] => false
             | AErr e' :: l' => errors_Is message e' || wrapped l'
             | _ :: l' => wrapped l'
             end) args)
  end.

(** ** Text of one-byte separators *)

(** A text without the byte [c]. *)
Definition lacks (c : ascii) (s : string) : bool := str_forallb (fun x => negb (Ascii.eqb x c)) s.
Lemma lacks_app c a b : lacks c (a +:+ b) = lacks c a && lacks c b.
Proof. unfold lacks. induction a as [|x a IH]; [done|]. simpl. by rewrite IH, andb_assoc. Qed.
Lemma Index_lacks c s : Index s (str1 c) = None <-> lacks c s = true.
Proof.
  unfold lacks. induction s as [|x s IH]; [done|]. cbn [Index HasPrefix str1 str_forallb]. rewrite Ascii.eqb_sym, andb_true_r.
  destruct (Ascii.eqb x c); [by split|]. cbn [negb andb]. rewrite <- IH. by destruct (Index s (str1 c)).
Qed.
Lemma Contains_lacks c s : Contains s (str1 c) = negb (lacks c s).
Proof.
  unfold Contains. pose proof (Index_lacks c s) as H. destruct (Index s (str1 c)), (lacks c s); try done; exfalso;
    [by apply proj2 in H; specialize (H eq_refl)|by apply proj1 in H; specialize (H eq_refl)].
Qed.
Lemma Join_cons x y l sep : Join (x :: y :: l) sep = x +:+ sep +:+ Join (y :: l) sep.
Proof.
  assert (forall l a b, fold_left (fun acc z => acc +:+ sep +:+ z) l (a +:+ b) = a +:+ fold_left (fun acc z => acc +:+ sep +:+ z) l b) as H.
  { clear. induction l as [|z l IH]; intros a b; [done|]. cbn [fold_left]. by rewrite <- IH, sapp_assoc. }
  unfold Join. cbn [fold_left]. rewrite <- sapp_assoc, H. by rewrite sapp_assoc.
Qed.
Lemma str_rev_cons x s : str_rev (String x s) = str_rev s +:+ str1 x.
Proof. exact (str_rev_app_acc s (str1 x)). Qed.
Lemma split_cur c s : forall cur, split_from s (str1 c) cur 0 = match split_from s (str1 c) "" 0 with h :: t => (str_rev cur +:+ h) :: t | [] => [] end.
Proof.
  induction s as [|x s IH]; intros cur; [cbn [split_from]; by rewrite sapp_nil_r|]. cbn [split_from].
  destruct (HasPrefix _ _); [by rewrite sapp_nil_r|]. rewrite (IH (String x cur)), (IH (String x "")).
  destruct (split_from s (str1 c) "" 0) as [|h t]; [done|]. by rewrite !str_rev_cons, sapp_assoc.
Qed.
Lemma Split_unfold c s : Split s (str1 c) =
  match s with
  | "" => [""]
  | String x s' =>
      if Ascii.eqb x c then "" :: Split s' (str1 c)
      else match Split s' (str1 c) with h :: t => String x h :: t | [] => [] end
  end.
Proof.
  unfold Split. destruct s as [|x s]; [done|]. cbn [split_from HasPrefix str1]. rewrite (Ascii.eqb_sym c x), andb_true_r.
  destruct (Ascii.eqb x c); [done|]. rewrite split_cur. by destruct (split_from s (str1 c) "" 0).
Qed.
Lemma Split_spec c s : Split s (str1 c) <> [] /\ Forall (fun x => lacks c x = true) (Split s (str1 c)) /\ Join (Split s (str1 c)) (str1 c) = s.
Proof.
  induction s as [|x s (IH1 & IH2 & IH3)]; [by repeat constructor|]. rewrite Split_unfold. destruct (Ascii.eqb_spec x c) as [->|Hx].
  - split; [done|]. split; [by constructor|]. destruct (Split s (str1 c)) as [|h t]; [done|]. rewrite Join_cons, IH3. done.
  - destruct (Split s (str1 c)) as [|h t]; [done|]. inversion_clear IH2. split; [done|]. split.
    + constructor; [|done]. unfold lacks in *. cbn [str_forallb]. destruct (Ascii.eqb_spec x c); done.
    + destruct t as [|y t]; [exact (f_equal (String x) IH3)|]. rewrite Join_cons in *. by rewrite <- IH3.
Qed.
Lemma Split_prefix c s r : lacks c s = true ->
  Split (s +:+ r) (str1 c) = match Split r (str1 c) with h :: t => (s +:+ h) :: t | [] => [] end.
Proof.
  induction s as [|x s IH]; [change ("" +:+ r) with r; by destruct (Split r (str1 c))|]. unfold lacks. cbn [str_forallb]. intros [Hx Hs]%andb_true_iff.
  apply negb_true_iff in Hx. change (String x s +:+ r) with (String x (s +:+ r)). rewrite Split_unfold, Hx, IH by done.
  by destruct (Split r (str1 c)).
Qed.
Lemma Split_Join c l : l <> [] -> Forall (fun x => lacks c x = true) l -> Split (Join l (str1 c)) (str1 c) = l.
Proof.
  pose proof (Split_prefix c) as H.
  intros Hl. induction 1 as [|x l Hx Hf IH]; [done|]. destruct l as [|y l].
  - pose proof (H x "" Hx) as E. cbn in E. rewrite sapp_nil_r in E. exact E.
  - rewrite Join_cons, H by done. change (str1 c +:+ Join (y :: l) (str1 c)) with (String c (Join (y :: l) (str1 c))).
    rewrite Split_unfold, Ascii.eqb_refl, IH by done. by rewrite sapp_nil_r.
Qed.
Lemma Split_app c s r : lacks c s = true -> Split (s +:+ String c r) (str1 c) = s :: Split r (str1 c).
Proof.
  induction s as [|x s IH]; [change ("" +:+ String c r) with (String c r); by rewrite Split_unfold, Ascii.eqb_refl|].
  unfold lacks. cbn [str_forallb]. intros [Hx%negb_true_iff Hs]%andb_true_iff.
  change (String x s +:+ String c r) with (String x (s +:+ String c r)). by rewrite Split_unfold, Hx, IH.
Qed.

(** ** Occurrences of a text *)

(** [p] occurs nowhere in [s]; [s] is [a], the first occurrence of [p], and
    [b]. *)
Definition absent (p s : string) : Prop := forall a b, s <> a +:+ (p +:+ b).
Definition first_split (p s a b : string) : Prop :=
  s = a +:+ (p +:+ b) /\ forall a' b', s = a' +:+ (p +:+ b') -> String.length a <= String.length a'.

Lemma Index_split s p k :
  Index s p = Some k -> s = stake k s +:+ (p +:+ sdrop (k + String.length p) s).
Proof.
  intros [H _]%Index_spec. apply HasPrefix_spec in H as [r H].
  rewrite <- sdrop_sdrop, H, sdrop_app, <- H. by rewrite stake_sdrop.
Qed.

Lemma Index_before p a b : exists k, Index (a +:+ (p +:+ b)) p = Some k /\ k <= String.length a.
Proof.
  induction a as [|c a (k & IH & Hk)].
  - exists 0. split; [|done]. change ("" +:+ (p +:+ b)) with (p +:+ b).
    pose proof (HasPrefix_app p b) as H. destruct (p +:+ b); cbn [Index]; by rewrite H.
  - change (String c a +:+ (p +:+ b)) with (String c (a +:+ (p +:+ b))). cbn [Index].
    destruct (HasPrefix _ p); [exists 0; split; [done|lia]|]. rewrite IH. exists (S k). split; [done|simpl; lia].
Qed.
Lemma Index_absent s p : Index s p = None <-> absent p s.
Proof.
  split.
  - intros H a b ->. destruct (Index_before p a b) as (k & Hk & _). congruence.
  - intros H. destruct (Index s p) as [k|] eqn:E; [|done]. apply Index_split in E. by apply H in E.
Qed.
Lemma stake_length_le k s : k <= String.length s -> String.length (stake k s) = k.
Proof. revert s. induction k as [|k IH]; intros [|c s] H; simpl in *; try lia. by rewrite IH by lia. Qed.
Lemma Index_first_split s p k :
  Index s p = Some k -> first_split p s (stake k s) (sdrop (k + String.length p) s).
Proof.
  intros E. split; [by apply Index_split|]. intros a' b' ->.
  destruct (Index_before p a' b') as (k' & Hk & Hle). rewrite E in Hk. injection Hk as <-.
  rewrite stake_length_le; [done|]. apply Index_spec in E as [_ E]. lia.
Qed.
Lemma sapp_eq_length a a' b b' : a +:+ b = a' +:+ b' -> String.length a = String.length a' -> a = a' /\ b = b'.
Proof.
  revert a'. induction a as [|c a IH]; intros [|d a'] H L; try discriminate; [done|].
  injection H as -> H. injection L as L. by destruct (IH a' H L) as [-> ->].
Qed.
Lemma first_split_unique p s a b a' b' : first_split p s a b -> first_split p s a' b' -> a = a' /\ b = b'.
Proof.
  intros [E H] [E' H']. specialize (H _ _ E'). specialize (H' _ _ E).
  rewrite E in E'. apply sapp_eq_length in E' as [-> E']; [|lia]. split; [done|].
  by apply (sapp_eq_length p p) in E' as [_ ->].
Qed.
Lemma first_split_index p s a b : first_split p s a b ->
  Index s p = Some (String.length a) /\ stake (String.length a) s = a /\ sdrop (String.length a + String.length p) s = b.
Proof.
  intros [-> H]. destruct (Index_before p a b) as (k & Hk & Hle).
  pose proof (Index_first_split _ _ _ Hk) as [E _]. pose proof (H _ _ E) as Hle'.
  rewrite stake_length_le in Hle' by (rewrite slength_app; lia). assert (k = String.length a) as -> by lia.
  split; [done|]. split; [apply stake_app|]. by rewrite <- sdrop_sdrop, !sdrop_app.
Qed.

(** ** Decimal numbers *)
Inductive decimal : string -> N -> Prop :=
| decimal_digit c : (48 <= code c <= 57)%N -> decimal (str1 c) (code c - 48)
| decimal_more s n c : decimal s n -> (48 <= code c <= 57)%N -> decimal (s +:+ str1 c) (10 * n + (code c - 48)).

Lemma str_forallb_app p a b : str_forallb p (a +:+ b) = str_forallb p a && str_forallb p b.
Proof. induction a as [|c a IH]; [done|]. simpl. by rewrite IH, andb_assoc. Qed.
Lemma digits_value_app a b acc : digits_value (a +:+ b) acc = digits_value b (digits_value a acc).
Proof. revert acc. induction a as [|c a IH]; intros acc; [done|]. simpl. apply IH. Qed.
Lemma decimal_reads s n : decimal s n -> s <> "" /\ str_forallb is_digit s = true /\ digits_value s 0 = Z.of_N n.
Proof.
  assert (forall c, (48 <= code c <= 57)%N -> is_digit c = true) as Hd by (intros c; apply in_range_true).
  induction 1 as [c Hc|s n c _ (_ & IH1 & IH2) Hc].
  - simpl. rewrite Hd by done. split_and!; [done|done|lia].
  - rewrite str_forallb_app, digits_value_app, IH1, IH2. simpl. rewrite Hd by done.
    split_and!; [by destruct s|done|lia].
Qed.
Lemma digits_decimal s : s <> "" -> str_forallb is_digit s = true -> decimal s (Z.to_N (digits_value s 0)).
Proof.
  assert (forall s d m, decimal d m -> str_forallb is_digit s = true ->
            decimal (d +:+ s) (Z.to_N (digits_value s (Z.of_N m)))) as H.
  { clear. induction s as [|c s IH]; intros d m Hd; cbn [str_forallb digits_value].
    - by rewrite sapp_nil_r, N2Z.id.
    - intros [Hc%in_range_true Hs]%andb_true_iff. change (String c s) with (str1 c +:+ s). rewrite <- sapp_assoc.
      replace (Z.of_N m * 10 + Z.of_N (code c - 48))%Z with (Z.of_N (10 * m + (code c - 48))) by lia.
      apply IH; [by constructor|done]. }
  destruct s as [|c s]; [done|]. cbn [str_forallb digits_value]. intros _ [Hc%in_range_true Hs]%andb_true_iff.
  apply (H s (str1 c)); [by constructor|done].
Qed.
Lemma pretty_decimal n : decimal (pretty n) n.
Proof.
  assert (forall x, (x < 10)%N -> (48 <= code (pretty_N_char x) <= 57)%N /\ (code (pretty_N_char x) - 48 = x)%N) as Hc.
  { intros x Hx. destruct x as [|p]; [done|]. do 4 (destruct p as [p|p|]; try done; try lia). }
  assert (forall x s, (0 < x)%N -> exists d, pretty_N_go x s = d +:+ s /\ decimal d x) as H.
  { intros x. induction (N.lt_wf_0 x) as [x _ IH]; intros s Hx. rewrite pretty_N_go_step by done.
    destruct (Hc (x mod 10)%N (N.mod_lt x 10 ltac:(done))) as [Hr Hv].
    pose proof (N.div_mod x 10 ltac:(done)) as E. destruct (N.lt_ge_cases x 10) as [Hlt|Hge].
    - rewrite N.div_small by done. exists (str1 (pretty_N_char (x mod 10))). split; [done|].
      rewrite N.mod_small in * by done. rewrite <- Hv at 2. by constructor.
    - assert (0 < x / 10)%N as Hp by (apply N.div_str_pos; lia).
      destruct (IH (x / 10)%N ltac:(apply N.div_lt; lia) (String (pretty_N_char (x mod 10)) s) Hp) as (d & -> & Hd).
      exists (d +:+ str1 (pretty_N_char (x mod 10))). rewrite sapp_assoc. split; [done|].
      rewrite E at 2. rewrite <- Hv at 2. by constructor. }
  unfold pretty, pretty_N. case_decide as Hn; [subst n; apply (decimal_digit "0"); simpl; lia|].
  destruct (H n "" ltac:(lia)) as (d & -> & Hd). by rewrite sapp_nil_r.
Qed.
