(* ===== verification/GoTime.v ===== *)
(** * GoTime: formatting of times in Go's standard library

    [time.Time.Format] with the layout [time.RFC3339Nano] in UTC, over the
    instant a time stands for: seconds since 1970 and nanoseconds.  Distinct
    instants have distinct texts ([FormatRFC3339Nano_inj]). *)

From S2P Require Import Prelude GoText.
Open Scope string_scope.
Open Scope list_scope.
Open Scope Z_scope.

(** Linear arithmetic with quotients and remainders by constants. *)
Ltac zdiv := Z.to_euclidean_division_equations; lia.

(** ** Decimal digits *)
Definition digit (z : Z) : ascii := chr (Z.to_N (48 + z mod 10)).
(** The last [w] decimal digits. *)
Fixpoint digits (w : nat) (z : Z) : string :=
  match w with O => "" | S w' => digits w' (z / 10) +:+ str1 (digit z) end.
Fixpoint count_digits (fuel : nat) (z : Z) : nat :=
  match fuel with O => 1%nat | S fuel' => if z <? 10 then 1%nat else S (count_digits fuel' (z / 10)) end.
(** [appendInt(b, x, width)]. *)
Definition appendInt (x : Z) (width : nat) : string :=
  let n := Z.abs x in
  (if x <? 0 then "-" else "") +:+ digits (Nat.max width (count_digits (Z.to_nat (Z.log2 n + 1)) n)) n.
Fixpoint trim_zeros (s : string) : string :=
  match s with
  | "" => ""
  | String c s' =>
      let t := trim_zeros s' in
      if String.eqb t "" && Ascii.eqb c "0"%char then "" else String c t
  end.
(** [appendNano] for [".999999999"]. *)
Definition appendNano (nanos : Z) : string :=
  let t := trim_zeros (digits 9 nanos) in
  if String.eqb t "" then "" else "." +:+ t.

(** ** The proleptic Gregorian calendar *)
Definition days_of (seconds : Z) : Z := seconds / 86400.
Definition second_of_day (seconds : Z) : Z := seconds mod 86400.
(** Days counted from 0000-03-01, in eras of 400 years. *)
Definition era_of (days : Z) : Z := (days + 719468) / 146097.
Definition day_of_era (days : Z) : Z := (days + 719468) mod 146097.
Definition year_of_era (doe : Z) : Z := (doe - doe / 1460 + doe / 36524 - doe / 146096) / 365.
Definition day_of_year (doe : Z) : Z :=
  let yoe := year_of_era doe in doe - (365 * yoe + yoe / 4 - yoe / 100).
Definition month_index (doy : Z) : Z := (5 * doy + 2) / 153.
Definition month_of (mp : Z) : Z := if mp <? 10 then mp + 3 else mp - 9.

Definition civil_day (days : Z) : Z :=
  let doy := day_of_year (day_of_era days) in doy - (153 * month_index doy + 2) / 5 + 1.
Definition civil_month (days : Z) : Z := month_of (month_index (day_of_year (day_of_era days))).
Definition civil_year (days : Z) : Z :=
  year_of_era (day_of_era days) + era_of days * 400 + (if civil_month days <=? 2 then 1 else 0).

(** [t.UTC().Format(time.RFC3339Nano)]. *)
Definition FormatRFC3339Nano (seconds nanos : Z) : string :=
  let days := days_of seconds in
  let s := second_of_day seconds in
  appendInt (civil_year days) 4 +:+ "-" +:+ digits 2 (civil_month days) +:+ "-" +:+ digits 2 (civil_day days)
    +:+ "T" +:+ digits 2 (s / 3600) +:+ ":" +:+ digits 2 (s / 60 mod 60) +:+ ":" +:+ digits 2 (s mod 60)
    +:+ appendNano nanos +:+ "Z".

Example format_1 : FormatRFC3339Nano 1709210096 120000000 = "2024-02-29T12:34:56.12Z".
Proof. vm_compute. reflexivity. Qed.
Example format_2 : FormatRFC3339Nano (-62135596801) 0 = "0000-12-31T23:59:59Z".
Proof. vm_compute. reflexivity. Qed.
Example format_3 : FormatRFC3339Nano (-62198755200) 5 = "-0001-01-01T00:00:00.000000005Z".
Proof. vm_compute. reflexivity. Qed.

(** ** Digits determine the number *)
Lemma sapp_inj_length (a b x y : string) :
  String.length a = String.length b -> a +:+ x = b +:+ y -> a = b /\ x = y.
Proof.
  revert b. induction a as [|c a IH]; intros [|d b]; simpl; intros Hl E; try discriminate; [done|].
  injection E as -> E. injection Hl as Hl. by destruct (IH b Hl E) as [-> ->].
Qed.
Lemma digits_length w z : String.length (digits w z) = w.
Proof. revert z. induction w as [|w IH]; intros z; simpl; [done|]. rewrite slength_app, IH. simpl. lia. Qed.
Lemma digit_inj a b : digit a = digit b -> a mod 10 = b mod 10.
Proof.
  unfold digit. pose proof (Z.mod_pos_bound a 10 eq_refl) as Ha. pose proof (Z.mod_pos_bound b 10 eq_refl) as Hb.
  generalize dependent (b mod 10). generalize dependent (a mod 10). intros x Hx y Hy E%(f_equal code).
  rewrite !code_chr in E by lia. lia.
Qed.
Lemma pow10_S w : 10 ^ Z.of_nat (S w) = 10 * 10 ^ Z.of_nat w.
Proof. rewrite Nat2Z.inj_succ, Z.pow_succ_r; lia. Qed.
Lemma digits_inj w a b :
  0 <= a < 10 ^ Z.of_nat w -> 0 <= b < 10 ^ Z.of_nat w -> digits w a = digits w b -> a = b.
Proof.
  revert a b. induction w as [|w IH]; intros a b Ha Hb E; [simpl in *; lia|].
  rewrite pow10_S in Ha, Hb. cbn [digits] in E.
  apply sapp_inj_length in E as [E1 E2]; [|by rewrite !digits_length].
  injection E2 as E2%digit_inj. apply IH in E1; zdiv.
Qed.
Lemma count_digits_bound fuel z : 0 <= z < 2 ^ Z.of_nat fuel -> z < 10 ^ Z.of_nat (count_digits fuel z).
Proof.
  revert z. induction fuel as [|fuel IH]; intros z Hz; cbn [count_digits]; [simpl in *; lia|].
  destruct (Z.ltb_spec z 10); [simpl; lia|]. rewrite pow10_S.
  rewrite Nat2Z.inj_succ, Z.pow_succ_r in Hz by lia. pose proof (IH (z / 10)). zdiv.
Qed.
Definition int_width (width : nat) (n : Z) : nat := Nat.max width (count_digits (Z.to_nat (Z.log2 n + 1)) n).
Lemma int_width_bound width n : 0 <= n -> n < 10 ^ Z.of_nat (int_width width n).
Proof.
  intros Hn. apply Z.lt_le_trans with (10 ^ Z.of_nat (count_digits (Z.to_nat (Z.log2 n + 1)) n)).
  - apply count_digits_bound. split; [done|]. rewrite Z2Nat.id by (pose proof (Z.log2_nonneg n); lia).
    destruct (decide (n = 0)) as [->|]; [done|]. apply Z.log2_spec. lia.
  - apply Z.pow_le_mono_r; [lia|]. unfold int_width. lia.
Qed.

(** A text free of a character, up to the first occurrence of it. *)
Lemma split_first (c : ascii) (a b x y : string) :
  str_forallb (fun d => negb (Ascii.eqb d c)) a = true -> str_forallb (fun d => negb (Ascii.eqb d c)) b = true ->
  a +:+ String c x = b +:+ String c y -> a = b /\ x = y.
Proof.
  revert b. induction a as [|d a IH]; intros [|d' b]; simpl; intros Ha Hb E.
  - by injection E as ->.
  - injection E as <- _. by rewrite Ascii.eqb_refl in Hb.
  - injection E as -> _. by rewrite Ascii.eqb_refl in Ha.
  - injection E as -> E. apply andb_true_iff in Ha as [_ Ha], Hb as [_ Hb]. by destruct (IH b Ha Hb E) as [-> ->].
Qed.
Lemma digit_no_dash z : Ascii.eqb (digit z) "-"%char = false.
Proof.
  unfold digit. pose proof (Z.mod_pos_bound z 10 eq_refl).
  assert (exists k, (k < 10)%N /\ Z.to_N (48 + z mod 10) = (48 + k)%N) as (k & Hk & ->).
  { exists (Z.to_N (z mod 10)). lia. }
  assert (Forall (fun k => Ascii.eqb (chr (48 + k)) "-"%char = false) [0;1;2;3;4;5;6;7;8;9]%N) as HF by (repeat constructor).
  rewrite Forall_forall in HF. apply HF. assert (k = 0 \/ k = 1 \/ k = 2 \/ k = 3 \/ k = 4 \/ k = 5 \/ k = 6 \/ k = 7 \/ k = 8 \/ k = 9)%N by lia.
  set_solver.
Qed.
Lemma digits_no_dash w z : str_forallb (fun d => negb (Ascii.eqb d "-"%char)) (digits w z) = true.
Proof.
  revert z. induction w as [|w IH]; intros z; [done|]. cbn [digits].
  rewrite str_forallb_app, IH. simpl. by rewrite digit_no_dash.
Qed.
Lemma appendInt_inj width x y (r s : string) :
  (0 < width)%nat -> appendInt x width +:+ String "-" r = appendInt y width +:+ String "-" s -> x = y /\ r = s.
Proof.
  intros Hw. assert (forall a b (r s : string), digits (int_width width (Z.abs a)) (Z.abs a) +:+ String "-" r =
      digits (int_width width (Z.abs b)) (Z.abs b) +:+ String "-" s -> Z.abs a = Z.abs b /\ r = s) as Habs.
  { intros a b r' s' E. apply split_first in E as [E ->]; [|apply digits_no_dash..]. split; [|done].
    assert (int_width width (Z.abs a) = int_width width (Z.abs b)) as Hl.
    { apply (f_equal String.length) in E. by rewrite !digits_length in E. }
    rewrite <- Hl in E. apply digits_inj in E; [done| |]; split; try lia; [|rewrite Hl]; apply int_width_bound; lia. }
  assert (forall z (t u : string), "-" +:+ t <> digits (int_width width z) z +:+ u) as Hsign.
  { intros z t u. assert (0 < int_width width z)%nat by (unfold int_width; lia).
    pose proof (digits_no_dash (int_width width z) z) as Hd. pose proof (digits_length (int_width width z) z) as Hlen.
    destruct (digits (int_width width z) z) as [|c d]; [simpl in Hlen; lia|]. simpl in Hd |- *.
    intros E. injection E as <- _. by rewrite Ascii.eqb_refl in Hd. }
  unfold appendInt. fold (int_width width (Z.abs x)) (int_width width (Z.abs y)).
  destruct (Z.ltb_spec x 0) as [Hx|Hx], (Z.ltb_spec y 0) as [Hy|Hy]; rewrite ?sapp_assoc; intros E.
  - simpl in E. injection E as E. apply Habs in E as [E ->]. split; [lia|done].
  - by apply Hsign in E.
  - symmetry in E. by apply Hsign in E.
  - apply Habs in E as [E ->]. split; [lia|done].
Qed.

(** ** Fractions *)
Fixpoint zeros (n : nat) : string := match n with O => "" | S n' => String "0" (zeros n') end.
Lemma trim_zeros_pad s : s = trim_zeros s +:+ zeros (String.length s - String.length (trim_zeros s)).
Proof.
  induction s as [|c s IH]; [done|]. cbn [trim_zeros String.length].
  destruct (String.eqb_spec (trim_zeros s) "") as [E|E]; cbn [andb].
  - rewrite E in IH. cbn in IH. rewrite Nat.sub_0_r in IH.
    destruct (Ascii.eqb_spec c "0"%char) as [->|]; cbn [String.length String.append Nat.sub zeros];
      rewrite ?E; cbn [String.length String.append]; rewrite ?Nat.sub_0_r; f_equal; exact IH.
  - cbn [String.length String.append Nat.sub]. f_equal. exact IH.
Qed.
Lemma trim_zeros_inj a b : String.length a = String.length b -> trim_zeros a = trim_zeros b -> a = b.
Proof. intros Hl E. rewrite (trim_zeros_pad a), (trim_zeros_pad b), E, Hl. done. Qed.
Lemma appendNano_inj a b :
  0 <= a < 1000000000 -> 0 <= b < 1000000000 -> appendNano a = appendNano b -> a = b.
Proof.
  intros Ha Hb E. assert (trim_zeros (digits 9 a) = trim_zeros (digits 9 b)) as Et.
  { unfold appendNano in E. destruct (String.eqb_spec (trim_zeros (digits 9 a)) "") as [E1|E1],
      (String.eqb_spec (trim_zeros (digits 9 b)) "") as [E2|E2]; cbv zeta in E; [congruence|discriminate..|].
    by apply sapp_inj_length in E as [_ E]. }
  apply trim_zeros_inj in Et; [|by rewrite !digits_length]. by apply (digits_inj 9).
Qed.

(** ** The calendar determines the day *)
Lemma year_of_era_bound doe : 0 <= doe < 146097 -> 0 <= year_of_era doe < 400.
Proof. unfold year_of_era. zdiv. Qed.
Lemma day_of_year_bound doe : 0 <= doe < 146097 -> 0 <= day_of_year doe <= 366.
Proof. unfold day_of_year, year_of_era. zdiv. Qed.
Lemma month_index_bound doy : 0 <= doy <= 366 -> 0 <= month_index doy <= 11.
Proof. unfold month_index. zdiv. Qed.
Lemma month_of_inj a b : 0 <= a <= 11 -> 0 <= b <= 11 -> month_of a = month_of b -> a = b.
Proof. unfold month_of. intros. destruct (Z.ltb_spec a 10), (Z.ltb_spec b 10); lia. Qed.
Lemma civil_bounds days : 1 <= civil_month days <= 12 /\ 0 <= civil_day days < 100.
Proof.
  unfold civil_month, civil_day, day_of_era.
  pose proof (day_of_year_bound ((days + 719468) mod 146097) ltac:(apply Z.mod_pos_bound; lia)) as Hd.
  generalize dependent (day_of_year ((days + 719468) mod 146097)). intros d Hd.
  pose proof (month_index_bound d Hd) as Hm. unfold month_index in *. split.
  - unfold month_of. destruct (Z.ltb_spec ((5 * d + 2) / 153) 10); lia.
  - zdiv.
Qed.
Lemma civil_inj a b :
  civil_year a = civil_year b -> civil_month a = civil_month b -> civil_day a = civil_day b -> a = b.
Proof.
  intros Hy Hm Hd.
  assert (forall d, 0 <= day_of_era d < 146097) as He by (intros d; apply Z.mod_pos_bound; lia).
  assert (year_of_era (day_of_era a) + era_of a * 400 = year_of_era (day_of_era b) + era_of b * 400) as Hyy.
  { unfold civil_year in Hy. rewrite Hm in Hy. lia. }
  pose proof (year_of_era_bound _ (He a)) as Ya. pose proof (year_of_era_bound _ (He b)) as Yb.
  assert (era_of a = era_of b /\ year_of_era (day_of_era a) = year_of_era (day_of_era b)) as [Ee Ey] by lia.
  assert (month_index (day_of_year (day_of_era a)) = month_index (day_of_year (day_of_era b))) as Emi.
  { apply month_of_inj; [apply month_index_bound, day_of_year_bound, He..|exact Hm]. }
  unfold civil_day in Hd. rewrite Emi in Hd. assert (day_of_year (day_of_era a) = day_of_year (day_of_era b)) as Ed by lia.
  unfold day_of_year in Ed. rewrite Ey in Ed. assert (day_of_era a = day_of_era b) as Edoe by lia.
  unfold day_of_era, era_of in *. pose proof (Z.div_mod (a + 719468) 146097). pose proof (Z.div_mod (b + 719468) 146097). lia.
Qed.

Lemma string_tail (c : ascii) (x y : string) : String c x = String c y -> x = y.
Proof. congruence. Qed.

(** The text of an instant of Go's [time.Time] is short. *)
Lemma count_digits_le fuel z : (count_digits fuel z <= S fuel)%nat.
Proof. revert z. induction fuel as [|f IH]; intros z; cbn [count_digits]; [done|]. destruct (z <? 10); [lia|]. specialize (IH (z / 10)). lia. Qed.
Lemma trim_zeros_length s : (String.length (trim_zeros s) <= String.length s)%nat.
Proof. induction s as [|c s IH]; simpl; [done|]. destruct (_ && _); simpl; lia. Qed.
Lemma civil_year_bound days : - 2 ^ 50 <= days <= 2 ^ 50 -> Z.abs (civil_year days) < 2 ^ 50.
Proof.
  intros Hd. unfold civil_year. pose proof (year_of_era_bound (day_of_era days) ltac:(apply Z.mod_pos_bound; lia)).
  assert (- 2 ^ 40 <= era_of days <= 2 ^ 40)%Z by (unfold era_of; zdiv). destruct (civil_month days <=? 2); lia.
Qed.
Lemma FormatRFC3339Nano_length s n :
  - 2 ^ 63 <= s < 2 ^ 63 -> (String.length (FormatRFC3339Nano s n) <= 200)%nat.
Proof.
  intros Hs. unfold FormatRFC3339Nano. cbv zeta. rewrite !slength_app, !digits_length. unfold appendInt, appendNano.
  rewrite !slength_app, digits_length. cbn [String.length].
  assert (Z.abs (civil_year (days_of s)) < 2 ^ 50) as Hy by (apply civil_year_bound; unfold days_of; zdiv).
  pose proof (count_digits_le (Z.to_nat (Z.log2 (Z.abs (civil_year (days_of s))) + 1)) (Z.abs (civil_year (days_of s)))) as Hc.
  assert (Z.log2 (Z.abs (civil_year (days_of s))) <= 50).
  { rewrite <- (Z.log2_pow2 50) by done. apply Z.log2_le_mono. lia. }
  pose proof (trim_zeros_length (digits 9 n)) as Ht. rewrite digits_length in Ht.
  destruct (civil_year (days_of s) <? 0), (String.eqb (trim_zeros (digits 9 n)) ""); cbn [String.length];
    rewrite ?slength_app; cbn [String.length]; lia.
Qed.

(** Distinct instants have distinct texts. *)
Lemma FormatRFC3339Nano_inj s n s' n' :
  0 <= n < 1000000000 -> 0 <= n' < 1000000000 ->
  FormatRFC3339Nano s n = FormatRFC3339Nano s' n' -> s = s' /\ n = n'.
Proof.
  intros Hn Hn'. unfold FormatRFC3339Nano. cbv zeta.
  cbn [String.append]. intros [Ey E]%appendInt_inj; [|lia].
  repeat (apply sapp_inj_length in E as [? E]; [|by rewrite !digits_length]; try apply string_tail in E).
  apply sapp_cancel_r, appendNano_inj in E; [|done..]. split; [|done].
  pose proof (civil_bounds (days_of s)) as [? ?]. pose proof (civil_bounds (days_of s')) as [? ?].
  pose proof (Z.mod_pos_bound s 86400 eq_refl) as Hs. pose proof (Z.mod_pos_bound s' 86400 eq_refl) as Hs'.
  fold (second_of_day s) in Hs. fold (second_of_day s') in Hs'.
  repeat match goal with H : digits 2 _ = digits 2 _ |- _ => apply digits_inj in H; [|simpl; zdiv..] end.
  assert (days_of s = days_of s') as Ed by (by apply civil_inj).
  assert (second_of_day s = second_of_day s') as Es by zdiv.
  unfold days_of, second_of_day in *. pose proof (Z.div_mod s 86400). pose proof (Z.div_mod s' 86400). lia.
Qed.
