(* ===== verification/SqlScan.v ===== *)
(** * SqlScan: [internal/sqlscan/sqlscan.go]

    The lexical scan rasql runs over native SQL: protected regions (string
    literals, quoted identifiers, comments, dollar quoting), executable
    placeholders and executable semicolons, and the SELECT-only statement
    shape check built on it.

    The source walks the text with an index [i]; the model walks the unread
    text [sql[i:]] and lets each scanner report how many bytes it consumed, so
    [scan_step] is one iteration of the [for] loop of [Scan].  A step that
    consumes [n] bytes sets [skip] to [n - 1], which makes every loop
    structural: there is no fuel. *)

From S2P Require Import Prelude GoText.
Open Scope string_scope.
Open Scope list_scope.
Open Scope nat_scope.

(** ** Data *)
Record Span := MkSpan { Span_Start : nat; Span_End : nat }.

Inductive PlaceholderKind := Question | Dollar.
#[export] Instance PlaceholderKind_eq_dec : EqDecision PlaceholderKind.
Proof. solve_decision. Defined.

Record Placeholder := MkPlaceholder {
  Ph_Start : nat; Ph_End : nat; Ph_Kind : PlaceholderKind; Ph_Number : Z; Ph_Invalid : bool }.

Record Result := MkResult {
  Protected : list Span; Placeholders : list Placeholder; Semicolons : list nat }.

Definition ErrNotSelect : error := errors_New "native result is not SELECT".
Definition ErrInvalidPlaceholder : error := errors_New "invalid native placeholder".

(** What one iteration of the scan loop found. *)
Inductive event :=
| EvNone
| EvProtected
| EvPlaceholder (kind : PlaceholderKind) (number : Z) (invalid : bool)
| EvSemicolon.

(** ** Region scanners: bytes consumed from the given text *)

(** [scanQuoted]: [s] is the text after the opening quote; the count includes
    the closing quote. *)
Fixpoint scanQuoted (quote : ascii) (escapes : bool) (s : string) : option nat :=
  match s with
  | "" => None
  | String c s' =>
      match s' with
      | String d s'' =>
          if escapes && Ascii.eqb c backslash then
            match scanQuoted quote escapes s'' with Some n => Some (2 + n) | None => None end
          else if negb (Ascii.eqb c quote) then
            match scanQuoted quote escapes s' with Some n => Some (1 + n) | None => None end
          else if Ascii.eqb d quote then
            match scanQuoted quote escapes s'' with Some n => Some (2 + n) | None => None end
          else Some 1
      | "" => if Ascii.eqb c quote then Some 1 else None
      end
  end.

Definition quoted (quote : ascii) (escapes : bool) (s : string) : result nat :=
  match scanQuoted quote escapes s with
  | Some n => Ok n
  | None => Err (errors_New "unterminated quoted SQL region")
  end.

(** [scanLineComment]: up to, not including, the line end. *)
Fixpoint scanLineComment (s : string) : nat :=
  match s with
  | "" => 0
  | String c s' =>
      if Ascii.eqb c newline || Ascii.eqb c creturn then 0 else S (scanLineComment s')
  end.

(** [scanBlockComment]: [s] is the text after the opening marker; comments
    nest. *)
Fixpoint scanBlockComment (depth : nat) (s : string) : option nat :=
  match s with
  | String a s' =>
      match s' with
      | String b s'' =>
          if Ascii.eqb a "/" && Ascii.eqb b "*" then
            match scanBlockComment (S depth) s'' with Some n => Some (2 + n) | None => None end
          else if Ascii.eqb a "*" && Ascii.eqb b "/" then
            if depth =? 1 then Some 2
            else match scanBlockComment (depth - 1) s'' with Some n => Some (2 + n) | None => None end
          else match scanBlockComment depth s' with Some n => Some (1 + n) | None => None end
      | "" => None
      end
  | "" => None
  end.

Definition tag_char (c : ascii) : bool := Ascii.eqb c "_" || is_letter c || is_digit c.
Fixpoint span_len (p : ascii -> bool) (s : string) : nat :=
  match s with String c s' => if p c then S (span_len p s') else 0 | "" => 0 end.

(** [dollarQuoteStart]: [s] is the text after the first dollar; the count is
    the length of the whole opening tag, both dollars included. *)
Definition dollarQuoteStart (s : string) : option nat :=
  match s with
  | "" => None
  | String c s' =>
      if Ascii.eqb c "$" then Some 2
      else if negb (Ascii.eqb c "_") && negb (is_letter c) then None
      else let n := span_len tag_char s' in
           match sdrop n s' with
           | String d _ => if Ascii.eqb d "$" then Some (n + 3) else None
           | "" => None
           end
  end.

(** [dollarPlaceholder]: [s] is the text after the dollar; the result is the
    number, the bytes consumed with the dollar, and whether the number does
    not fit an int. *)
Definition dollarPlaceholder (s : string) : option (Z * nat * bool) :=
  let n := span_len is_digit s in
  if n =? 0 then None
  else match Atoi_digits (stake n s) with
       | Some z => Some (z, S n, false)
       | None => Some (0%Z, S n, true)
       end.

(** [lineCommentStart]: [after] is the text behind the two dashes. *)
Definition lineCommentStart (after engine : string) : bool :=
  if negb (String.eqb engine "mysql") then true
  else match after with "" => true | String c _ => is_space c end.

(** ** One iteration of the loop of [Scan] *)
Definition next_is (c : ascii) (s : string) : bool :=
  match s with String d _ => Ascii.eqb d c | "" => false end.

Definition scan_step (engine : string) (rest : string) : result (nat * event) :=
  let backslashStrings := String.eqb engine "" || String.eqb engine "mysql" in
  match rest with
  | "" => Ok (1, EvNone)
  | String c s =>
      if Ascii.eqb c squote then
        do n <- quoted squote backslashStrings s; Ok (1 + n, EvProtected)
      else if String.eqb engine "postgresql" && (Ascii.eqb c "e" || Ascii.eqb c "E") && next_is squote s then
        do n <- quoted squote true (sdrop 1 s); Ok (2 + n, EvProtected)
      else if Ascii.eqb c dquote then
        do n <- quoted dquote (String.eqb engine "mysql") s; Ok (1 + n, EvProtected)
      else if Ascii.eqb c backquote then
        do n <- quoted backquote backslashStrings s; Ok (1 + n, EvProtected)
      else if Ascii.eqb c "-" && next_is "-" s && lineCommentStart (sdrop 1 s) engine then
        Ok (2 + scanLineComment (sdrop 1 s), EvProtected)
      else if Ascii.eqb c "#" && (String.eqb engine "" || String.eqb engine "mysql") then
        Ok (1 + scanLineComment s, EvProtected)
      else if Ascii.eqb c "/" && next_is "*" s then
        match scanBlockComment 1 (sdrop 1 s) with
        | Some n => Ok (2 + n, EvProtected)
        | None => Err (errors_New "unterminated block comment")
        end
      else if Ascii.eqb c "$" then
        match (if String.eqb engine "" || String.eqb engine "postgresql" then dollarQuoteStart s else None) with
        | Some n =>
            match Index (sdrop n rest) (stake n rest) with
            | Some k => Ok (n + k + n, EvProtected)
            | None => Err (errors_New "unterminated dollar-quoted string")
            end
        | None =>
            match dollarPlaceholder s with
            | Some (number, n, invalid) => Ok (n, EvPlaceholder Dollar number invalid)
            | None => Ok (1, EvNone)
            end
        end
      else if Ascii.eqb c "?" then Ok (1, EvPlaceholder Question 0 false)
      else if Ascii.eqb c ";" then Ok (1, EvSemicolon)
      else Ok (1, EvNone)
  end.

(** Appending what a step found at offset [i] to the result. *)
Definition record_event (i n : nat) (ev : event) (r : Result) : Result :=
  match ev with
  | EvNone => r
  | EvProtected => MkResult (Protected r ++ [MkSpan i (i + n)]) (Placeholders r) (Semicolons r)
  | EvPlaceholder k z b =>
      MkResult (Protected r) (Placeholders r ++ [MkPlaceholder i (i + n) k z b]) (Semicolons r)
  | EvSemicolon => MkResult (Protected r) (Placeholders r) (Semicolons r ++ [i])
  end.

Fixpoint scan_from (engine : string) (skip i : nat) (rest : string) (r : Result) : result Result :=
  match rest with
  | "" => Ok r
  | String _ rest' =>
      match skip with
      | S k => scan_from engine k (S i) rest' r
      | 0 => do (n, ev) <- scan_step engine rest;
             scan_from engine (n - 1) (S i) rest' (record_event i n ev r)
      end
  end.

Definition empty_result : Result := MkResult [] [] [].

(** [Scan]; [engine] is the optional engine name. *)
Definition engine_name (engine : option string) : string :=
  match engine with None => "" | Some e => ToLower (TrimSpace e) end.
Definition Scan (sql : string) (engine : option string) : result Result :=
  scan_from (engine_name engine) 0 0 sql empty_result.

(** ** Words and tokens outside protected regions *)

(** [protected := make(map[int]int)], filled in order.  Spans produced by
    [Scan] end after they start ([scan_wf] below), so jumping to the end
    always moves forward. *)
Definition protected_map (scan : Result) : gmap nat nat :=
  fold_left (fun m sp => <[Span_Start sp := Span_End sp]> m) (Protected scan) ∅.

Definition word_char (c : ascii) : bool := is_letter c || is_digit c || Ascii.eqb c "_".

Fixpoint first_keyword_from (prot : gmap nat nat) (skip i : nat) (s : string) : string :=
  match s with
  | "" => ""
  | String c s' =>
      match skip with
      | S k => first_keyword_from prot k (S i) s'
      | 0 =>
          match prot !! i with
          | Some e => first_keyword_from prot (e - i - 1) (S i) s'
          | None =>
              if is_space c then first_keyword_from prot 0 (S i) s'
              else if negb (is_letter c) then ""
              else ToUpper (stake (span_len word_char s) s)
          end
      end
  end.
Definition FirstKeyword (sql : string) (scan : Result) : string :=
  first_keyword_from (protected_map scan) 0 0 sql.

Record Word := MkWord { Word_Text : string; Word_Depth : nat }.

Fixpoint words_from (prot : gmap nat nat) (depth skip i : nat) (s : string) : list Word :=
  match s with
  | "" => []
  | String c s' =>
      match skip with
      | S k => words_from prot depth k (S i) s'
      | 0 =>
          match prot !! i with
          | Some e => words_from prot depth (e - i - 1) (S i) s'
          | None =>
              if Ascii.eqb c "(" then words_from prot (S depth) 0 (S i) s'
              else if Ascii.eqb c ")" then words_from prot (depth - 1) 0 (S i) s'
              else if is_letter c then
                let n := span_len word_char s in
                MkWord (ToUpper (stake n s)) depth :: words_from prot depth (n - 1) (S i) s'
              else words_from prot depth 0 (S i) s'
          end
      end
  end.
Definition ExecutableWords (sql : string) (scan : Result) : list Word :=
  words_from (protected_map scan) 0 0 0 sql.

Inductive tokenKind := tokenWord | tokenOpen | tokenClose | tokenComma | tokenOpaque.
#[export] Instance tokenKind_eq_dec : EqDecision tokenKind.
Proof. solve_decision. Defined.
Record token := MkToken { tk_kind : tokenKind; tk_text : string }.
#[export] Instance token_eq_dec : EqDecision token.
Proof. solve_decision. Defined.

Fixpoint tokens_from (prot : gmap nat nat) (skip i : nat) (s : string) : list token :=
  match s with
  | "" => []
  | String c s' =>
      match skip with
      | S k => tokens_from prot k (S i) s'
      | 0 =>
          match prot !! i with
          | Some e =>
              let rest := tokens_from prot (e - i - 1) (S i) s' in
              if negb (Ascii.eqb c "-") && negb (Ascii.eqb c "#") && negb (Ascii.eqb c "/")
              then MkToken tokenOpaque (stake (e - i) s) :: rest else rest
          | None =>
              if Ascii.eqb c "(" then MkToken tokenOpen "(" :: tokens_from prot 0 (S i) s'
              else if Ascii.eqb c ")" then MkToken tokenClose ")" :: tokens_from prot 0 (S i) s'
              else if Ascii.eqb c "," then MkToken tokenComma "," :: tokens_from prot 0 (S i) s'
              else if is_letter c || Ascii.eqb c "_" then
                let n := span_len word_char s in
                MkToken tokenWord (ToUpper (stake n s)) :: tokens_from prot (n - 1) (S i) s'
              else tokens_from prot 0 (S i) s'
          end
      end
  end.
Definition executableTokens (sql : string) (scan : Result) : list token :=
  tokens_from (protected_map scan) 0 0 sql.

(** ** The SELECT-only shape check *)
Definition isWord (value : token) (want : string) : bool :=
  bool_decide (tk_kind value = tokenWord) && String.eqb (tk_text value) want.
Definition wordAt (tokens : list token) (i : nat) (want : string) : bool :=
  match tokens !! i with Some t => isWord t want | None => false end.
Definition kindAt (tokens : list token) (i : nat) (k : tokenKind) : bool :=
  match tokens !! i with Some t => bool_decide (tk_kind t = k) | None => false end.

(** [matchingParen], from the tokens at [start] on; [depth] is signed in the
    source but never leaves the naturals, since the loop starts on an opening
    token and stops the first time the depth is back to zero. *)
Fixpoint matching_from (tokens : list token) (i : nat) (depth : Z) : option nat :=
  match tokens with
  | [] => None
  | t :: rest =>
      match tk_kind t with
      | tokenOpen => matching_from rest (S i) (depth + 1)
      | tokenClose => if (depth - 1 =? 0)%Z then Some i else matching_from rest (S i) (depth - 1)
      | _ => matching_from rest (S i) depth
      end
  end.
Definition matchingParen (tokens : list token) (start : nat) : option nat :=
  matching_from (list.drop start tokens) start 0.

Definition slice {A} (l : list A) (lo hi : nat) : list A := list.drop lo (list.take hi l).

(** One pass of the [for] loop of [validateWithTokens] reads one common table
    expression: [None] is [return false]; otherwise the body's tokens, and the
    index just behind its closing parenthesis. *)
Definition with_clause (tokens : list token) (i : nat) : option (list token * nat) :=
  if negb (kindAt tokens i tokenWord) && negb (kindAt tokens i tokenOpaque) then None else
  let i := S i in
  match (if kindAt tokens i tokenOpen
         then match matchingParen tokens i with Some close => Some (S close) | None => None end
         else Some i) with
  | None => None
  | Some i =>
      if negb (wordAt tokens i "AS") then None else
      let i := S i in
      match (if wordAt tokens i "NOT"
             then if negb (wordAt tokens (S i) "MATERIALIZED") then None else Some (i + 2)
             else if wordAt tokens i "MATERIALIZED" then Some (S i) else Some i) with
      | None => None
      | Some i =>
          if negb (kindAt tokens i tokenOpen) then None else
          match matchingParen tokens i with
          | None => None
          | Some close =>
              if close =? S i then None else Some (slice tokens (S i) close, S close)
          end
      end
  end.

(** [validateWithTokens] and [validSelectBody] call each other; the fuel
    bounds loop passes plus nesting, and [with_loop_fuel] below shows that any
    fuel above the token count gives the same answer. *)
Fixpoint with_loop (fuel : nat) (tokens : list token) (i : nat) : bool :=
  match fuel with
  | 0 => false
  | S fuel' =>
      match with_clause tokens i with
      | None => false
      | Some (body, i) =>
          let validSelectBody :=
            match body with
            | [] => false
            | t :: _ =>
                if negb (bool_decide (tk_kind t = tokenWord)) then false
                else if String.eqb (tk_text t) "SELECT" then true
                else if negb (String.eqb (tk_text t) "WITH") then false
                else with_loop fuel' body (if wordAt body 1 "RECURSIVE" then 2 else 1)
            end in
          if negb validSelectBody then false
          else if kindAt tokens i tokenComma then with_loop fuel' tokens (S i)
          else wordAt tokens i "SELECT"
      end
  end.
Definition validateWithTokens (tokens : list token) : bool :=
  with_loop (S (length tokens)) tokens (if wordAt tokens 1 "RECURSIVE" then 2 else 1).
Definition validSelectBody (tokens : list token) : bool :=
  match tokens with
  | [] => false
  | t :: _ =>
      if negb (bool_decide (tk_kind t = tokenWord)) then false
      else if String.eqb (tk_text t) "SELECT" then true
      else if negb (String.eqb (tk_text t) "WITH") then false
      else validateWithTokens tokens
  end.

Definition not_select (msg : string) : result unit := Err (Errorf msg [AErr ErrNotSelect]).

Definition ValidateSelect (sql : string) (engine : option string) : result unit :=
  do scan <- Scan sql engine;
  match Semicolons scan with
  | _ :: _ => Err (errors_New "embedded SQL must not contain an executable semicolon")
  | [] =>
      let tokens := executableTokens sql scan in
      match tokens with
      | [] => not_select "%w: native result must be a SELECT statement"
      | t :: _ =>
          if isWord t "SELECT" then Ok tt
          else if negb (isWord t "WITH")
          then not_select "%w: native result must be a SELECT statement"
          else if negb (validateWithTokens tokens)
          then not_select "%w: native result WITH bodies must be SELECT statements"
          else Ok tt
      end
  end.

(** ** Every step consumes a non-empty prefix of the unread text *)
Lemma scanQuoted_cons2 q e c d s :
  scanQuoted q e (String c (String d s)) =
    if e && Ascii.eqb c backslash then (Nat.add 2) <$> scanQuoted q e s
    else if negb (Ascii.eqb c q) then S <$> scanQuoted q e (String d s)
    else if Ascii.eqb d q then (Nat.add 2) <$> scanQuoted q e s
    else Some 1.
Proof. done. Qed.

Lemma scanBlockComment_cons2 k a b s :
  scanBlockComment k (String a (String b s)) =
    if Ascii.eqb a "/" && Ascii.eqb b "*" then (Nat.add 2) <$> scanBlockComment (S k) s
    else if Ascii.eqb a "*" && Ascii.eqb b "/" then
      if k =? 1 then Some 2 else (Nat.add 2) <$> scanBlockComment (k - 1) s
    else S <$> scanBlockComment k (String b s).
Proof. done. Qed.

(** Shared induction step: both lookahead scanners return a count within the
    text.  [IH] is the strong induction hypothesis. *)
Ltac scan_bounds IH s' s :=
  let H := fresh in
  intros H; repeat case_match; simplify_option_eq;
  repeat match goal with
  | E : _ = Some ?n |- _ =>
      first [apply (IH s ltac:(simpl; lia)) in E | apply (IH s' ltac:(simpl; lia)) in E]
  end; simpl in *; lia.

Lemma scanQuoted_bounds q e s n : scanQuoted q e s = Some n -> 1 <= n <= String.length s.
Proof.
  revert n. induction s as [s IH] using string_len_ind. intros n.
  destruct s as [|c [|d s]]; [done|simpl; case_match; intros; simplify_eq; lia|].
  rewrite scanQuoted_cons2. scan_bounds IH (String d s) s.
Qed.

Lemma scanBlockComment_bounds k s n : scanBlockComment k s = Some n -> 1 <= n <= String.length s.
Proof.
  revert k n. induction s as [s IH] using string_len_ind. intros k n.
  destruct s as [|c [|d s]]; [done|done|].
  rewrite scanBlockComment_cons2. scan_bounds IH (String d s) s.
Qed.

Lemma scanLineComment_bounds s : scanLineComment s <= String.length s.
Proof. induction s as [|c s IH]; simpl; [lia|]. case_match; lia. Qed.
Lemma span_len_bounds p s : span_len p s <= String.length s.
Proof. induction s as [|c s IH]; simpl; [lia|]. case_match; lia. Qed.

Lemma dollarQuoteStart_bounds s n : dollarQuoteStart s = Some n -> 2 <= n <= S (String.length s).
Proof.
  destruct s as [|c s]; simpl; [done|]. repeat case_match; intros; simplify_eq; [lia|].
  match goal with E : sdrop ?k s = String _ ?r |- _ =>
    pose proof (f_equal String.length E) as L; rewrite slength_sdrop in L; simpl in L end. lia.
Qed.

Lemma dollarPlaceholder_bounds s z n b :
  dollarPlaceholder s = Some (z, n, b) -> 2 <= n <= S (String.length s).
Proof.
  unfold dollarPlaceholder. pose proof (span_len_bounds is_digit s).
  case_match eqn:E; [done|]. apply Nat.eqb_neq in E. case_match; intros; simplify_eq; lia.
Qed.

Lemma quoted_bounds q e s n : quoted q e s = Ok n -> 1 <= n <= String.length s.
Proof. unfold quoted. case_match; intros; simplify_eq. by eapply scanQuoted_bounds. Qed.

Lemma next_is_length c s : next_is c s = true -> String.length (sdrop 1 s) = String.length s - 1 /\ 1 <= String.length s.
Proof. destruct s; simpl; [done|]. destruct s; simpl; lia. Qed.

Lemma scan_step_bounds e c s n ev :
  scan_step e (String c s) = Ok (n, ev) -> 1 <= n <= S (String.length s).
Proof.
  destruct s as [|d s]; cbn [scan_step]; intros H;
  repeat case_match; inv_ok; simplify_eq;
    repeat match goal with
    | E : _ && _ = true |- _ => apply andb_prop in E as [? ?]
    | E : next_is _ _ = true |- _ => apply next_is_length in E as [? ?]
    | E : quoted _ _ _ = Ok _ |- _ => apply quoted_bounds in E
    | E : scanBlockComment _ _ = Some _ |- _ => apply scanBlockComment_bounds in E
    | E : dollarPlaceholder _ = Some _ |- _ => apply dollarPlaceholder_bounds in E
    | E : dollarQuoteStart _ = Some _ |- _ => apply dollarQuoteStart_bounds in E
    | E : Index _ _ = Some _ |- _ => apply Index_spec in E as [_ ?]
    | |- context [scanLineComment ?x] => pose proof (scanLineComment_bounds x); set (scanLineComment x) in *
    end; rewrite ?slength_sdrop, ?slength_stake in *; simpl in *; try lia.
  case_match; lia.
Qed.

(** ** Shape of a scan result *)
Definition interval : Type := nat * nat.
Definition before (x y : interval) : Prop := x.2 <= y.1.
Definition apart (x y : interval) : Prop := before x y \/ before y x.

Definition span_iv (s : Span) : interval := (Span_Start s, Span_End s).
Definition ph_iv (p : Placeholder) : interval := (Ph_Start p, Ph_End p).
Definition semi_iv (i : nat) : interval := (i, S i).

Definition ordered (b : nat) (l : list interval) : Prop :=
  Forall (fun x => x.1 < x.2 <= b) l /\ StronglySorted before l.

(** Regions are non-empty, in bounds and in text order, and nothing
    executable lies inside a protected region. *)
Record scan_wf (b : nat) (r : Result) : Prop := {
  wf_spans : ordered b (span_iv <$> Protected r);
  wf_phs : ordered b (ph_iv <$> Placeholders r);
  wf_semis : ordered b (semi_iv <$> Semicolons r);
  wf_apart_ph : forall s p, s ∈ Protected r -> p ∈ Placeholders r -> apart (span_iv s) (ph_iv p);
  wf_apart_semi : forall s i, s ∈ Protected r -> i ∈ Semicolons r -> apart (span_iv s) (semi_iv i) }.

(** What a placeholder or a semicolon stands on in the text. *)
Definition all_digits (s : string) : Prop := span_len is_digit s = String.length s.
Definition ph_text (sql : string) (p : Placeholder) : Prop :=
  let text := stake (Ph_End p - Ph_Start p) (sdrop (Ph_Start p) sql) in
  match Ph_Kind p with
  | Question => text = "?" /\ Ph_Invalid p = false
  | Dollar => exists ds, text = String "$" ds /\ ds <> "" /\ all_digits ds /\
                match sdrop (Ph_End p) sql with String c _ => is_digit c = false | "" => True end /\
                if Ph_Invalid p then (maxInt64 < digits_value ds 0)%Z
                else Ph_Number p = digits_value ds 0
  end.
Definition semi_text (sql : string) (i : nat) : Prop := stake 1 (sdrop i sql) = ";".

Record scan_text (sql : string) (r : Result) : Prop := {
  text_phs : Forall (ph_text sql) (Placeholders r);
  text_semis : Forall (semi_text sql) (Semicolons r) }.

Lemma ordered_mono b b' l : b <= b' -> ordered b l -> ordered b' l.
Proof. intros Hb [H1 H2]. split; [|done]. eapply Forall_impl; [done|]. simpl; lia. Qed.

Lemma ordered_snoc b b' l x :
  ordered b l -> b <= x.1 -> x.1 < x.2 <= b' -> ordered b' (l ++ [x]).
Proof.
  intros [H1 H2] Hb Hx. split.
  - apply Forall_app; split; [|by apply Forall_singleton].
    eapply Forall_impl; [done|]. simpl; lia.
  - induction H2 as [|y l H2 IH Hy]; simpl; [by repeat constructor|].
    apply Forall_cons in H1 as [Hy1 H1]. constructor; [by apply IH|].
    apply Forall_app; split; [done|]. apply Forall_singleton. unfold before. lia.
Qed.

Lemma ordered_apart {A} b (f : A -> interval) l x y :
  ordered b (f <$> l) -> y ∈ l -> b <= x.1 -> apart (f y) x.
Proof.
  intros [H _] Hy Hb. left. unfold before. rewrite Forall_fmap, Forall_forall in H.
  specialize (H y Hy). simpl in H. lia.
Qed.

Lemma apart_sym x y : apart x y -> apart y x.
Proof. unfold apart. tauto. Qed.

#[local] Hint Resolve ordered_mono ordered_apart apart_sym : rasql.

Lemma record_event_wf i n ev r :
  scan_wf i r -> 1 <= n -> scan_wf (i + n) (record_event i n ev r).
Proof.
  intros [Hs Hp Hc Hap Has] Hn.
  assert (forall A (f : A -> interval) l, ordered i (f <$> l) -> ordered (i + n) (f <$> l)) as Hm
    by (intros A f l; apply ordered_mono; lia).
  destruct ev; simpl; split; simpl; rewrite ?fmap_app; auto;
    try (eapply ordered_snoc; [eassumption|simpl; lia|simpl; lia]);
    intros x y; rewrite ?elem_of_app, ?list_elem_of_singleton; intros Hx Hy;
    repeat match goal with H : _ \/ _ |- _ => destruct H | H : _ = _ |- _ => subst end; auto;
    solve [ eapply ordered_apart; [eassumption|eassumption|simpl; lia]
          | apply apart_sym; eapply ordered_apart; [eassumption|eassumption|simpl; lia] ].
Qed.

Lemma scan_from_wf e skip i rest r r' :
  scan_from e skip i rest r = Ok r' -> skip <= String.length rest ->
  scan_wf (i + skip) r -> scan_wf (i + String.length rest) r'.
Proof.
  revert skip i r. induction rest as [|c rest IH]; intros skip i r; cbn [scan_from String.length].
  - intros [= ->] ? Hwf. by replace (i + 0) with (i + skip) by lia.
  - destruct skip as [|k].
    + intros H _ Hwf. destruct (scan_step e (String c rest)) as [[n ev]|] eqn:E; [|done].
      pose proof (scan_step_bounds _ _ _ _ _ E) as Hn.
      replace (i + S (String.length rest)) with (S i + String.length rest) by lia.
      eapply IH; [eassumption|lia|].
      replace (S i + (n - 1)) with (i + n) by lia.
      apply record_event_wf; [by rewrite Nat.add_0_r in Hwf|lia].
    + intros H Hk Hwf. replace (i + S (String.length rest)) with (S i + String.length rest) by lia.
      eapply IH; [eassumption|lia|]. by replace (S i + k) with (i + S k) by lia.
Qed.

Lemma scan_wf_empty : scan_wf 0 empty_result.
Proof. split; try (split; constructor); intros ?? H; inversion H. Qed.

(** ** What the recorded positions hold *)
Lemma span_len_stop p s :
  match sdrop (span_len p s) s with String c _ => p c = false | "" => True end.
Proof. induction s as [|c s IH]; simpl; [done|]. by destruct (p c) eqn:E; simpl. Qed.

Lemma span_len_all p s : span_len p (stake (span_len p s) s) = span_len p s.
Proof. induction s as [|c s IH]; simpl; [done|]. destruct (p c) eqn:E; simpl; [|done]. by rewrite E, IH. Qed.

Lemma dollarPlaceholder_text s z n b sql i :
  sdrop i sql = String "$" s -> dollarPlaceholder s = Some (z, n, b) ->
  ph_text sql (MkPlaceholder i (i + n) Dollar z b).
Proof.
  intros Hrest. unfold dollarPlaceholder, Atoi_digits. set (k := span_len is_digit s).
  destruct (Nat.eqb_spec k 0) as [|Hk]; [done|].
  assert (String.length (stake k s) = k) as Hlen.
  { rewrite slength_stake. pose proof (span_len_bounds is_digit s). lia. }
  intros H. exists (stake k s). simpl.
  assert (n = S k) as -> by (case_match; congruence).
  replace (i + S k - i) with (S k) by lia. rewrite Hrest. cbn [stake].
  split; [done|]. split; [intros E; rewrite E in Hlen; simpl in Hlen; lia|].
  split; [unfold all_digits; rewrite Hlen; apply span_len_all|].
  split.
  - rewrite <- sdrop_sdrop, Hrest. cbn [sdrop]. apply span_len_stop.
  - destruct (Z.leb_spec (digits_value (stake k s) 0) maxInt64); simplify_eq; simpl; [done|lia].
Qed.

Lemma scan_step_text e sql i c s n ev r :
  sdrop i sql = String c s -> scan_step e (String c s) = Ok (n, ev) ->
  scan_text sql r -> scan_text sql (record_event i n ev r).
Proof.
  intros Hrest Hstep [Hp Hs].
  assert (match ev with
          | EvPlaceholder k z b => ph_text sql (MkPlaceholder i (i + n) k z b)
          | EvSemicolon => semi_text sql i
          | _ => True end) as Hev.
  { cbn [scan_step] in Hstep. repeat case_match; inv_ok; simplify_eq; try done;
    repeat match goal with E : Ascii.eqb _ _ = true |- _ => apply Ascii.eqb_eq in E; subst end;
    try (eapply dollarPlaceholder_text; eassumption).
    - unfold ph_text; cbn. replace (i + 1 - i) with 1 by lia. rewrite Hrest. by split.
    - unfold semi_text. by rewrite Hrest. }
  destruct ev; split; simpl; try done; (apply Forall_app; split; [done|]; by apply Forall_singleton).
Qed.

Lemma sdrop_S i sql c s : sdrop i sql = String c s -> sdrop (S i) sql = s.
Proof. intros H. rewrite <- Nat.add_1_r, <- sdrop_sdrop, H. done. Qed.

Lemma scan_from_text e sql skip i rest r r' :
  sdrop i sql = rest -> scan_from e skip i rest r = Ok r' -> scan_text sql r -> scan_text sql r'.
Proof.
  revert skip i r. induction rest as [|c rest IH]; intros skip i r Hrest; cbn [scan_from].
  - intros [= ->]. done.
  - destruct skip as [|k].
    + destruct (scan_step e (String c rest)) as [[n ev]|] eqn:E; [|done]. intros H Ht.
      eapply IH; [by eapply sdrop_S|eassumption|]. by eapply scan_step_text.
    + intros H. by apply (IH k (S i)), H; eapply sdrop_S.
Qed.

(** ** The grammar [validateWithTokens] recognises

    A declarative account of the accepted WITH statements, over token lists:
    a comma-separated list of [name \[(columns)\] AS \[\[NOT\] MATERIALIZED\]
    (body)] followed by SELECT, where each body is a SELECT or again a WITH
    statement, and parentheses are balanced. *)
Fixpoint depth_after (l : list token) (d : nat) : option nat :=
  match l with
  | [] => Some d
  | t :: l' =>
      match tk_kind t with
      | tokenOpen => depth_after l' (S d)
      | tokenClose => match d with 0 => None | S d' => depth_after l' d' end
      | _ => depth_after l' d
      end
  end.
Definition balanced (l : list token) : Prop := depth_after l 0 = Some 0.

Definition has_kind (k : tokenKind) (t : token) : Prop := tk_kind t = k.
Definition is_name (t : token) : Prop := has_kind tokenWord t \/ has_kind tokenOpaque t.
Definition word (w : string) (t : token) : Prop := isWord t w = true.

Inductive columns : list token -> Prop :=
| columns_none : columns []
| columns_some o l c :
    has_kind tokenOpen o -> balanced l -> has_kind tokenClose c -> columns (o :: l ++ [c]).

Inductive materialized : list token -> Prop :=
| mat_none : materialized []
| mat_yes m : word "MATERIALIZED" m -> materialized [m]
| mat_not n m : word "NOT" n -> word "MATERIALIZED" m -> materialized [n; m].

(** One common table expression with its body. *)
Inductive cte : list token -> list token -> Prop :=
| cte_intro name cols as_ mat o body c :
    is_name name -> columns cols -> word "AS" as_ -> materialized mat ->
    has_kind tokenOpen o -> balanced body -> body <> [] -> has_kind tokenClose c ->
    cte (name :: cols ++ as_ :: mat ++ o :: body ++ [c]) body.

Inductive with_list : list token -> Prop :=
| wl_last l body s rest :
    cte l body -> select_body body -> word "SELECT" s -> with_list (l ++ s :: rest)
| wl_more l body comma rest :
    cte l body -> select_body body -> has_kind tokenComma comma -> with_list rest ->
    with_list (l ++ comma :: rest)
with select_body : list token -> Prop :=
| sb_select s l : word "SELECT" s -> select_body (s :: l)
| sb_with w l : word "WITH" w -> with_tail l -> select_body (w :: l)
with with_tail : list token -> Prop :=
| wt_plain l : (forall r l', l = r :: l' -> ~ word "RECURSIVE" r) -> with_list l -> with_tail l
| wt_recursive r l : word "RECURSIVE" r -> with_list l -> with_tail (r :: l).

Scheme with_list_mind := Minimality for with_list Sort Prop
  with select_body_mind := Minimality for select_body Sort Prop
  with with_tail_mind := Minimality for with_tail Sort Prop.
Combined Scheme with_grammar_ind from with_list_mind, select_body_mind, with_tail_mind.

Lemma depth_after_app l1 l2 d :
  depth_after (l1 ++ l2) d =
    match depth_after l1 d with Some d' => depth_after l2 d' | None => None end.
Proof.
  revert d. induction l1 as [|t l1 IH]; intros d; simpl; [done|].
  destruct (tk_kind t); auto. by destruct d.
Qed.

Lemma matching_from_spec ts i d j :
  matching_from ts i (Z.of_nat (S d)) = Some j <->
  exists inner c rest, ts = inner ++ c :: rest /\ has_kind tokenClose c /\
    depth_after inner d = Some 0 /\ j = i + length inner.
Proof.
  revert i d. induction ts as [|t ts IH]; intros i d; cbn [matching_from].
  - split; [done|]. by intros ([|? ?] & ? & ? & ? & ?).
  - assert (forall e, matching_from ts (S i) (Z.of_nat (S e)) = Some j <->
       exists inner c rest, t :: ts = t :: inner ++ c :: rest /\ has_kind tokenClose c /\
         depth_after inner e = Some 0 /\ j = i + S (length inner)) as IH'.
    { intros e. rewrite IH. split; intros (inner & c & rest & H); exists inner, c, rest;
        destruct H as (H1 & ? & ? & ?); split_and!; try done; try lia; congruence. }
    assert ((exists inner c rest, t :: ts = inner ++ c :: rest /\ has_kind tokenClose c /\
        depth_after inner d = Some 0 /\ j = i + length inner) <->
      (has_kind tokenClose t /\ d = 0 /\ j = i) \/
      exists inner c rest, t :: ts = t :: inner ++ c :: rest /\ has_kind tokenClose c /\
        depth_after (t :: inner) d = Some 0 /\ j = i + S (length inner)) as ->.
    { split.
      - intros ([|t' inner] & c & rest & H & Hc & Hd & ->); simplify_eq/=.
        + left. split_and!; [done|congruence|lia].
        + right. by exists inner, c, rest.
      - intros [(Hc & -> & ->)|(inner & c & rest & H & ? & ? & ->)].
        + exists [], t, ts. split_and!; try done; simpl; lia.
        + by exists (t :: inner), c, rest. }
    destruct (tk_kind t) eqn:K; cbn [depth_after]; rewrite ?K; unfold has_kind at 1; rewrite K.
    1,4,5: rewrite IH'; split; [by right|]; by intros [(? & _)|?].
    + replace (Z.of_nat (S d) + 1)%Z with (Z.of_nat (S (S d))) by lia.
      rewrite IH'. split; [by right|]. by intros [(? & _)|?].
    + destruct d as [|d].
      * simpl. split; [intros [= <-]; by left|].
        intros [(_ & _ & ->)|(? & ? & ? & ? & ? & ? & ?)]; done.
      * replace (Z.of_nat (S (S d)) - 1)%Z with (Z.of_nat (S d)) by lia.
        replace (Z.of_nat (S d) =? 0)%Z with false by (symmetry; apply Z.eqb_neq; lia).
        rewrite IH'. split; [by right|]. by intros [(_ & ? & _)|?].
Qed.

Lemma drop_cons_S {A} (l : list A) i x r : list.drop i l = x :: r -> list.drop (S i) l = r.
Proof. intros H. by rewrite <- Nat.add_1_r, <- drop_drop, H. Qed.

Lemma lookup_drop_head {A} (l : list A) i : l !! i = head (list.drop i l).
Proof. revert i. induction l as [|x l IH]; intros [|i]; simpl; auto. Qed.

Lemma kindAt_true tokens i k :
  kindAt tokens i k = true <-> exists t r, list.drop i tokens = t :: r /\ has_kind k t.
Proof.
  unfold kindAt, has_kind. rewrite lookup_drop_head. destruct (list.drop i tokens) as [|t r]; simpl.
  - split; [done|]. by intros (? & ? & ? & ?).
  - rewrite bool_decide_eq_true. split; [by eauto|by intros (? & ? & [= <- <-] & ?)].
Qed.

Lemma wordAt_true tokens i w :
  wordAt tokens i w = true <-> exists t r, list.drop i tokens = t :: r /\ word w t.
Proof.
  unfold wordAt, word. rewrite lookup_drop_head. destruct (list.drop i tokens) as [|t r]; simpl.
  - split; [done|]. by intros (? & ? & ? & ?).
  - split; [by eauto|by intros (? & ? & [= <- <-] & ?)].
Qed.

Lemma word_kind w t : word w t -> has_kind tokenWord t.
Proof. unfold word, isWord. rewrite andb_true_iff, bool_decide_eq_true. by intros [? _]. Qed.
Lemma word_text w t : word w t -> tk_text t = w.
Proof. unfold word, isWord. rewrite andb_true_iff, String.eqb_eq. by intros [_ ?]. Qed.
Lemma word_inj w w' t : word w t -> word w' t -> w = w'.
Proof. intros H H'. by rewrite <- (word_text _ _ H), <- (word_text _ _ H'). Qed.
Lemma word_not_kind w k t : word w t -> has_kind k t -> k = tokenWord.
Proof. intros H H'. apply word_kind in H. unfold has_kind in *. congruence. Qed.

Lemma matchingParen_spec tokens i o ts j :
  list.drop i tokens = o :: ts -> has_kind tokenOpen o ->
  matchingParen tokens i = Some j <->
  exists inner c rest, ts = inner ++ c :: rest /\ has_kind tokenClose c /\
    balanced inner /\ j = S i + length inner.
Proof.
  intros Hd Ho. unfold matchingParen. rewrite Hd. cbn [matching_from]. rewrite Ho.
  exact (matching_from_spec ts (S i) 0 j).
Qed.

Lemma slice_inner {A} (tokens : list A) i o inner c rest :
  list.drop i tokens = o :: inner ++ c :: rest ->
  slice tokens (S i) (S i + length inner) = inner /\
  list.drop (S (S i + length inner)) tokens = rest.
Proof.
  intros H. apply drop_cons_S in H. unfold slice. split.
  - rewrite <- take_drop_commute, H. by rewrite take_app_length.
  - replace (S (S i + length inner)) with (S i + (length inner + 1)) by lia.
    by rewrite <- !drop_drop, H, drop_app_length.
Qed.

(** Parsing the optional column list at [i]. *)
Lemma columns_parse tokens i j rest :
  (if kindAt tokens i tokenOpen
   then match matchingParen tokens i with Some close => Some (S close) | None => None end
   else Some i) = Some j -> list.drop j tokens = rest ->
  exists cols, list.drop i tokens = cols ++ rest /\ columns cols /\ j = i + length cols.
Proof.
  destruct (kindAt tokens i tokenOpen) eqn:K.
  - apply kindAt_true in K as (o & ts & Hd & Ho).
    destruct (matchingParen tokens i) as [close|] eqn:M; [|done]. intros [= <-] Hr.
    apply (matchingParen_spec _ _ _ _ _ Hd Ho) in M as (inner & c & r & -> & Hc & Hb & ->).
    apply slice_inner in Hd as Hs. destruct Hs as [_ Hs]. rewrite Hs in Hr. subst r.
    exists (o :: inner ++ [c]). split; [by rewrite Hd; simpl; rewrite <- app_assoc|].
    split; [by constructor|]. simpl. rewrite length_app. simpl. lia.
  - intros [= <-] Hr. exists []. split; [done|]. split; [constructor|]. simpl; lia.
Qed.

Lemma materialized_parse tokens i j rest :
  (if wordAt tokens i "NOT"
   then if negb (wordAt tokens (S i) "MATERIALIZED") then None else Some (i + 2)
   else if wordAt tokens i "MATERIALIZED" then Some (S i) else Some i) = Some j ->
  list.drop j tokens = rest ->
  exists mat, list.drop i tokens = mat ++ rest /\ materialized mat /\ j = i + length mat.
Proof.
  destruct (wordAt tokens i "NOT") eqn:K.
  - apply wordAt_true in K as (n & ts & Hd & Hn).
    destruct (wordAt tokens (S i) "MATERIALIZED") eqn:K2; simpl; [|done].
    apply wordAt_true in K2 as (m & ts' & Hd' & Hm). intros [= <-] Hr.
    pose proof (drop_cons_S _ _ _ _ Hd) as E. rewrite Hd' in E. subst ts.
    apply drop_cons_S in Hd'. replace (S (S i)) with (i + 2) in Hd' by lia.
    subst ts' rest. exists [n; m]. rewrite Hd. split; [done|]. split; [by constructor|simpl; lia].
  - destruct (wordAt tokens i "MATERIALIZED") eqn:K2.
    + apply wordAt_true in K2 as (m & ts & Hd & Hm). intros [= <-] Hr.
      rewrite (drop_cons_S _ _ _ _ Hd) in Hr. subst ts. exists [m].
      rewrite Hd. split; [done|]. split; [by constructor|simpl; lia].
    + intros [= <-] Hr. exists []. split; [done|]. split; [constructor|simpl; lia].
Qed.

Lemma with_clause_sound tokens i body j :
  with_clause tokens i = Some (body, j) ->
  exists l, list.drop i tokens = l ++ list.drop j tokens /\ cte l body /\ j = i + length l.
Proof.
  unfold with_clause. destruct (negb _ && negb _) eqn:K; [done|].
  assert (exists name ts, list.drop i tokens = name :: ts /\ is_name name) as (name & ts & Hd & Hname).
  { unfold is_name. rewrite andb_false_iff, !negb_false_iff, !kindAt_true in K.
    destruct K as [(t & r & ? & ?)|(t & r & ? & ?)]; eauto. }
  pose proof (drop_cons_S _ _ _ _ Hd) as Hd1.
  case_match eqn:C; [|done]. rename n into i1.
  destruct (wordAt tokens i1 "AS") eqn:A; simpl; [|done].
  apply wordAt_true in A as (as_ & ts1 & Hd2 & Has).
  destruct (columns_parse tokens (S i) i1 _ C eq_refl) as (cols & Hcols & Hc & ->).
  pose proof (drop_cons_S _ _ _ _ Hd2) as Hd3.
  match goal with |- context [match ?m with Some _ => _ | None => None end] => destruct m as [i2|] eqn:M end; [|done].
  destruct (materialized_parse tokens _ i2 _ M eq_refl) as (mat & Hmat & Hm & Hi2).
  destruct (kindAt tokens i2 tokenOpen) eqn:O; simpl; [|done].
  apply kindAt_true in O as (o & ts2 & Hd4 & Ho).
  destruct (matchingParen tokens i2) as [close|] eqn:P; [|done].
  apply (matchingParen_spec _ _ _ _ _ Hd4 Ho) in P as (inner & c & rest & -> & Hcl & Hb & ->).
  destruct (slice_inner _ _ _ _ _ _ Hd4) as [Hsl Hrest].
  destruct (Nat.eqb_spec (S i2 + length inner) (S i2)) as [|Hne]; [done|].
  rewrite Hsl. intros [= <- <-]. cbn [Nat.add] in Hrest. rewrite Hrest.
  exists (name :: cols ++ as_ :: mat ++ o :: inner ++ [c]). split_and!.
  - rewrite Hd. simpl. f_equal. rewrite <- Hd1, Hcols, Hd2, <- Hd3, Hmat, Hd4.
    by repeat (rewrite <- ?app_assoc; simpl).
  - constructor; try done. intros ->. simpl in Hne. lia.
  - rewrite Hi2. simpl. rewrite !length_app. simpl. rewrite !length_app. simpl. rewrite length_app. simpl. lia.
Qed.

Lemma drop_app_at {A} (tokens : list A) i l rest :
  list.drop i tokens = l ++ rest -> list.drop (i + length l) tokens = rest.
Proof. intros H. by rewrite <- drop_drop, H, drop_app_length. Qed.

(** The converse of the parse lemmas, for what may follow each part. *)
Lemma columns_complete tokens i cols t rest :
  columns cols -> list.drop i tokens = cols ++ t :: rest -> has_kind tokenWord t ->
  (if kindAt tokens i tokenOpen
   then match matchingParen tokens i with Some close => Some (S close) | None => None end
   else Some i) = Some (i + length cols).
Proof.
  intros Hc Hd Ht. destruct Hc as [|o l c Ho Hb Hcl].
  - destruct (kindAt tokens i tokenOpen) eqn:K; simpl.
    + apply kindAt_true in K as (t' & r & E & Ho). simpl in Hd. unfold has_kind in *. congruence.
    + f_equal. lia.
  - simpl in Hd. rewrite <- app_assoc in Hd. simpl in Hd.
    rewrite (proj2 (kindAt_true _ _ _)) by eauto.
    rewrite (proj2 (matchingParen_spec tokens i o _ (S i + length l) Hd Ho)) by eauto 7.
    f_equal. simpl. rewrite length_app. simpl. lia.
Qed.

Lemma materialized_complete tokens i mat t rest :
  materialized mat -> list.drop i tokens = mat ++ t :: rest -> has_kind tokenOpen t ->
  (if wordAt tokens i "NOT"
   then if negb (wordAt tokens (S i) "MATERIALIZED") then None else Some (i + 2)
   else if wordAt tokens i "MATERIALIZED" then Some (S i) else Some i) = Some (i + length mat).
Proof.
  intros Hm Hd Ht. destruct Hm as [|m Hm|n m Hn Hm]; simpl in Hd.
  - assert (forall w, wordAt tokens i w = false) as Hw.
    { intros w. apply not_true_iff_false. intros (t' & r & E & Hw)%wordAt_true.
      rewrite E in Hd. simplify_eq. by pose proof (word_not_kind _ _ _ Hw Ht). }
    rewrite !Hw. simpl. f_equal. lia.
  - destruct (wordAt tokens i "NOT") eqn:K.
    + apply wordAt_true in K as (t' & r & E & Hw). rewrite E in Hd. simplify_eq.
      by pose proof (word_inj _ _ _ Hw Hm).
    + rewrite (proj2 (wordAt_true tokens i "MATERIALIZED")) by eauto. f_equal. simpl. lia.
  - rewrite (proj2 (wordAt_true tokens i "NOT")) by eauto.
    rewrite (proj2 (wordAt_true tokens (S i) "MATERIALIZED")); [done|].
    apply drop_cons_S in Hd. eauto.
Qed.

Lemma with_clause_complete tokens i l body rest :
  cte l body -> list.drop i tokens = l ++ rest ->
  with_clause tokens i = Some (body, i + length l).
Proof.
  intros [name cols as_ mat o body' c Hname Hcols Has Hmat Ho Hb Hne Hc] Hd.
  unfold with_clause.
  replace (negb _ && negb _) with false; cycle 1.
  { symmetry. rewrite andb_false_iff, !negb_false_iff, !kindAt_true.
    destruct Hname; [left|right]; eauto. }
  simpl in Hd. apply drop_cons_S in Hd.
  repeat (rewrite <- app_assoc in Hd; simpl in Hd).
  erewrite columns_complete; [|eassumption|exact Hd|by eapply word_kind].
  apply drop_app_at in Hd. rewrite (proj2 (wordAt_true _ _ "AS")) by eauto. cbn [negb].
  apply drop_cons_S in Hd. repeat (rewrite <- app_assoc in Hd; simpl in Hd).
  erewrite materialized_complete; [|eassumption|exact Hd|done].
  apply drop_app_at in Hd. rewrite (proj2 (kindAt_true _ _ tokenOpen)) by eauto. cbn [negb].
  repeat (rewrite <- app_assoc in Hd; simpl in Hd).
  set (k := S (S i + length cols) + length mat) in *.
  rewrite (proj2 (matchingParen_spec tokens k o _ (S k + length body') Hd Ho)) by eauto 7.
  destruct (Nat.eqb_spec (S k + length body') (S k)) as [E|_].
  { destruct body'; [done|simpl in E; lia]. }
  rewrite (proj1 (slice_inner _ _ _ _ _ _ Hd)). repeat f_equal. unfold k.
  simpl. repeat (rewrite length_app; simpl). lia.
Qed.

(** The body check of one loop pass, and the pass itself. *)
Definition body_ok (fuel : nat) (body : list token) : bool :=
  match body with
  | [] => false
  | t :: _ =>
      if negb (bool_decide (tk_kind t = tokenWord)) then false
      else if String.eqb (tk_text t) "SELECT" then true
      else if negb (String.eqb (tk_text t) "WITH") then false
      else with_loop fuel body (if wordAt body 1 "RECURSIVE" then 2 else 1)
  end.

Lemma with_loop_S fuel tokens i :
  with_loop (S fuel) tokens i =
    match with_clause tokens i with
    | None => false
    | Some (body, i) =>
        if negb (body_ok fuel body) then false
        else if kindAt tokens i tokenComma then with_loop fuel tokens (S i)
        else wordAt tokens i "SELECT"
    end.
Proof. done. Qed.

Lemma body_ok_cons fuel t body :
  body_ok fuel (t :: body) = true <->
  word "SELECT" t \/
  (word "WITH" t /\ with_loop fuel (t :: body) (if wordAt (t :: body) 1 "RECURSIVE" then 2 else 1) = true).
Proof.
  cbn [body_ok]. unfold word, isWord.
  destruct (bool_decide _); simpl; [|naive_solver].
  destruct (String.eqb (tk_text t) "SELECT") eqn:E.
  - naive_solver.
  - destruct (String.eqb (tk_text t) "WITH"); simpl; naive_solver.
Qed.

Lemma tail_start (w : token) l (P : list token -> Prop) :
  P (list.drop (if wordAt (w :: l) 1 "RECURSIVE" then 2 else 1) (w :: l)) ->
  (exists r l', l = r :: l' /\ word "RECURSIVE" r /\ P l') \/
  ((forall r l', l = r :: l' -> ~ word "RECURSIVE" r) /\ P l).
Proof.
  destruct (wordAt (w :: l) 1 "RECURSIVE") eqn:R.
  - apply wordAt_true in R as (r & l' & E & Hr). cbn in E. rewrite drop_0 in E. subst l. simpl. rewrite drop_0. left. eauto.
  - simpl. rewrite drop_0. right. split; [|done]. intros r l' -> Hr.
    rewrite (proj2 (wordAt_true (w :: r :: l') 1 "RECURSIVE")) in R by (simpl; eauto). done.
Qed.

Lemma with_loop_sound fuel tokens i :
  with_loop fuel tokens i = true -> with_list (list.drop i tokens).
Proof.
  revert tokens i. induction fuel as [|fuel IH]; intros tokens i; [done|].
  rewrite with_loop_S. destruct (with_clause tokens i) as [[body j]|] eqn:W; [|done].
  apply with_clause_sound in W as (l & Hd & Hcte & ->).
  destruct (body_ok fuel body) eqn:B; simpl; [|done].
  assert (select_body body) as Hbody.
  { destruct body as [|t body]; [done|]. apply body_ok_cons in B as [Hs|[Hw Hl]].
    - by constructor.
    - constructor; [done|]. apply IH, tail_start in Hl as [(r & l' & -> & ? & ?)|[? ?]].
      + by apply wt_recursive.
      + by apply wt_plain. }
  destruct (kindAt tokens (i + length l) tokenComma) eqn:K.
  - intros Hl%IH. apply kindAt_true in K as (t & r & E & Ht).
    rewrite (drop_cons_S _ _ _ _ E) in Hl. rewrite Hd, E. by eapply wl_more.
  - intros (t & r & E & Ht)%wordAt_true. rewrite Hd, E. by eapply wl_last.
Qed.

Lemma cte_length l body : cte l body -> length body < length l.
Proof. intros []. simpl. repeat (rewrite length_app; simpl). lia. Qed.

Lemma with_grammar_complete :
  (forall ts, with_list ts -> forall tokens i fuel,
     list.drop i tokens = ts -> length ts < fuel -> with_loop fuel tokens i = true) /\
  (forall b, select_body b -> forall fuel, length b <= fuel -> body_ok fuel b = true) /\
  (forall l, with_tail l -> forall w fuel, length l < fuel ->
     with_loop fuel (w :: l) (if wordAt (w :: l) 1 "RECURSIVE" then 2 else 1) = true).
Proof.
  apply with_grammar_ind.
  - intros l body s rest Hcte _ IHb Hs tokens i fuel Hd Hf.
    destruct fuel as [|fuel]; [lia|]. pose proof (cte_length _ _ Hcte).
    rewrite length_app in Hf. simpl in Hf.
    rewrite with_loop_S, (with_clause_complete _ _ _ _ _ Hcte Hd), IHb by lia. simpl.
    apply drop_app_at in Hd. destruct (kindAt tokens (i + length l) tokenComma) eqn:K.
    + apply kindAt_true in K as (t & r & E & Ht). rewrite E in Hd. simplify_eq.
      by pose proof (word_not_kind _ _ _ Hs Ht).
    + apply wordAt_true. eauto.
  - intros l body comma rest Hcte _ IHb Hc _ IHr tokens i fuel Hd Hf.
    destruct fuel as [|fuel]; [lia|]. pose proof (cte_length _ _ Hcte).
    rewrite length_app in Hf. simpl in Hf.
    rewrite with_loop_S, (with_clause_complete _ _ _ _ _ Hcte Hd), IHb by lia. simpl.
    apply drop_app_at in Hd. rewrite (proj2 (kindAt_true _ _ tokenComma)) by eauto.
    apply IHr; [by eapply drop_cons_S|lia].
  - intros s l Hs fuel _. apply body_ok_cons. by left.
  - intros w l Hw _ IH fuel Hf. apply body_ok_cons. right. split; [done|]. apply IH. simpl in Hf. lia.
  - intros l Hn _ IH w fuel Hf. replace (wordAt (w :: l) 1 "RECURSIVE") with false.
    + by apply IH.
    + symmetry. apply not_true_iff_false. intros (r & l' & E & Hr)%wordAt_true. by apply (Hn r l').
  - intros r l Hr _ IH w fuel Hf. rewrite (proj2 (wordAt_true _ 1 "RECURSIVE")) by (simpl; eauto).
    apply IH; [done|simpl in Hf; lia].
Qed.

(** ** Claims *)

(** C1 The lexical scan is sound: whenever [Scan] accepts a text, the
    protected regions, the placeholders and the semicolons it reports are
    non-empty, in bounds, in text order and pairwise disjoint, no placeholder
    or semicolon lies inside a protected region, every [?] placeholder stands
    on a question mark, every [$n] placeholder on a maximal digit run whose
    value is its number (or overflows an int, when it is flagged invalid), and
    every semicolon offset on a semicolon. *)
Theorem Scan_sound (sql : string) (engine : option string) (r : Result) :
  Scan sql engine = Ok r -> scan_wf (String.length sql) r /\ scan_text sql r.
Proof.
  unfold Scan. intros H. split.
  - apply (scan_from_wf _ _ 0 _ _ _ H); [lia|apply scan_wf_empty].
  - eapply (scan_from_text _ sql 0 0); [done|exact H|]. split; constructor.
Qed.

Lemma Scan_sound_witness :
  exists r, Scan "a = $1 -- ?" None = Ok r /\ scan_wf 11 r /\ scan_text "a = $1 -- ?" r /\
            length (Placeholders r) = 1.
Proof.
  eexists. split; [reflexivity|].
  pose proof (Scan_sound "a = $1 -- ?" None _ eq_refl) as [H1 H2].
  split; [exact H1|]. split; [exact H2|reflexivity].
Defined.

(** C37 The SELECT-only WITH check of [validateWithTokens] accepts exactly
    the token sequences of the declarative grammar [with_tail]: WITH, an
    optional RECURSIVE, a comma-separated list of named common table
    expressions with balanced column lists and balanced non-empty bodies, each
    body a SELECT or again such a WITH statement, and finally SELECT. *)
Theorem validateWithTokens_grammar (w : token) (l : list token) :
  validateWithTokens (w :: l) = true <-> with_tail l.
Proof.
  unfold validateWithTokens. split.
  - intros [(r & l' & -> & ? & ?)|[? ?]]%with_loop_sound%tail_start; by constructor.
  - intros H. apply with_grammar_complete; [done|simpl; lia].
Qed.

(** MySQL does not treat a backslash inside a back-quoted identifier as an
    escape; [ScanWithOptions] does, so here it takes the second statement for
    the inside of an identifier, and [ValidateSelect] accepts the text. *)
Definition hidden_statement : string := "SELECT `a\`; DELETE FROM t -- `".
Lemma backtick_hides_semicolon :
  (exists r, Scan hidden_statement (Some "mysql") = Ok r /\ Semicolons r = []) /\
  ValidateSelect hidden_statement (Some "mysql") = Ok tt.
Proof. split; [eexists; split|]; vm_compute; reflexivity. Qed.
