(* ===== verification/Schema.v ===== *)
(** * Schema: [schema/types.go], [schema/column_type.go], [schema/table.go],
    [schema/native_type.go]

    Identifiers, column types and table descriptors.  A stated-or-not integer
    ([DecimalScale], [TextWidth], [IntegerDisplayWidth]: a value and a [set]
    flag) is an [option Z], a nil interface or pointer is [None], a Go map is
    its list of entries, and [sqltext.Text] is a string. *)

From S2P Require Import Prelude GoText.
Open Scope string_scope.
Open Scope list_scope.
Open Scope nat_scope.

(** ** Identifiers *)
Definition validationError (path format : string) (args : list err_arg) : error :=
  MkError (KValidation path) format args.

Definition nul : ascii := chr 0.

Definition ValidateIdentifier (name : string) : result unit :=
  if String.eqb name "" then Err (validationError "identifier" "must not be empty" [])
  else match IndexByte name nul with
       | Some _ => Err (validationError "identifier" "must not contain NUL" [])
       | None => if negb (ValidString name)
                 then Err (validationError "identifier" "must contain valid UTF-8" [])
                 else Ok tt
       end.

Definition ascii_letter (c : ascii) : bool := in_range 65 90 (code c) || in_range 97 122 (code c).

(** [for i, r := range name]: a byte below 128 is a rune of its own; any
    other byte starts a rune that is in neither class, so the loop always ends
    there, with the rune decoded at that point. *)
Fixpoint simple_identifier_from (first : bool) (name : string) : result unit :=
  match name with
  | "" => Ok tt
  | String c rest =>
      let ok := Ascii.eqb c "_" || ascii_letter c || (negb first && is_digit c) in
      if ok then simple_identifier_from false rest
      else if first then Err (validationError "identifier" "must start with a letter or underscore" [])
      else Err (validationError "identifier" "contains invalid character %q"
                  [AInt (Z.of_N (fst (DecodeRune name)))])
  end.
Definition ValidateSimpleIdentifier (name : string) : result unit :=
  if String.eqb name "" then Err (validationError "identifier" "must not be empty" [])
  else simple_identifier_from true name.

(** ** Column types.  [ExternalType] is a type declared outside the package
    that embeds one of its types, which is what the [default] arms see. *)
Inductive ColumnType :=
| BooleanType
| IntegerType (Unsigned : bool) (DisplayWidth : option Z) (ZeroFill : bool)
| FloatType
| TextType (Width : option Z) (Fixed : bool)
| BytesType
| TimeType
| JSONType
| UUIDType
| DecimalType (Precision : Z) (Scale : option Z) (Unsigned ZeroFill : bool)
| OpaqueType
| ExternalType (go_type kind : string).

Definition Kind (t : ColumnType) : string :=
  match t with
  | BooleanType => "boolean" | IntegerType _ _ _ => "integer" | FloatType => "float"
  | TextType _ _ => "text" | BytesType => "bytes" | TimeType => "time" | JSONType => "json"
  | UUIDType => "uuid" | DecimalType _ _ _ _ => "decimal" | OpaqueType => "native"
  | ExternalType _ k => k
  end.

Definition validColumnType (t : ColumnType) : bool :=
  match t with ExternalType _ _ => false | _ => true end.

Definition ValidateColumnType (columnType : option ColumnType) : result unit :=
  match columnType with
  | None => Err (errors_New "column type must not be nil")
  | Some t =>
      if negb (validColumnType t) then Err (Errorf "unsupported column type %T" [])
      else match t with
      | DecimalType precision scale _ _ =>
          if (precision <? 1)%Z then Err (errors_New "decimal precision must be at least 1")
          else match scale with
               | None => Err (errors_New "decimal scale must be stated")
               | Some sc => if (sc <? 0)%Z || (precision <? sc)%Z
                            then Err (errors_New "decimal scale must be between 0 and precision")
                            else Ok tt
               end
      | TextType width fixed =>
          if match width with Some w => (w <? 0)%Z | None => false end
          then Err (errors_New "text width must not be negative")
          else if fixed && match width with Some _ => false | None => true end
          then Err (errors_New "fixed-width text requires a width")
          else Ok tt
      | IntegerType _ (Some width) _ =>
          if (width <? 0)%Z then Err (errors_New "integer display width must not be negative") else Ok tt
      | _ => Ok tt
      end
  end.

(** ** Native types *)
Definition NativeBuiltin : string := "builtin".
Definition NativeDomain : string := "domain".
Definition NativeEnum : string := "enum".
Definition NativeSet : string := "set".
Definition NativeArray : string := "array".
Definition NativeOther : string := "other".
Inductive NativeTypeDef := MkNative {
  Native_Dialect : string; Native_Schema : string; Native_Name : string;
  Native_Kind : string; Native_Arguments : list string;
  Native_Element : option NativeTypeDef }.

(** ** The closed sets of string constants *)
Definition NoAction : string := "NO ACTION".
Definition Restrict : string := "RESTRICT".
Definition Cascade : string := "CASCADE".
Definition SetNull : string := "SET NULL".
Definition SetDefault : string := "SET DEFAULT".
Definition one_of (l : list string) (s : string) : bool := existsb (String.eqb s) l.
Definition ReferenceAction_valid (a : string) : bool :=
  one_of [""; NoAction; Restrict; Cascade; SetNull; SetDefault] a.
Definition MatchFull : string := "FULL".
Definition MatchPartial : string := "PARTIAL".
Definition MatchType_valid (m : string) : bool := one_of [""; MatchFull; MatchPartial] m.
Definition DeferrableInitiallyImmediate : string := "DEFERRABLE INITIALLY IMMEDIATE".
Definition DeferrableInitiallyDeferred : string := "DEFERRABLE INITIALLY DEFERRED".
Definition Deferrability_valid (d : string) : bool :=
  one_of [""; DeferrableInitiallyImmediate; DeferrableInitiallyDeferred] d.
Definition ConflictRollback : string := "ROLLBACK".
Definition ConflictFail : string := "FAIL".
Definition ConflictIgnore : string := "IGNORE".
Definition ConflictReplace : string := "REPLACE".
Definition ConflictResolution_valid (c : string) : bool :=
  one_of [""; ConflictRollback; ConflictFail; ConflictIgnore; ConflictReplace] c.
Definition GeneratedStored : string := "STORED".
Definition GeneratedVirtual : string := "VIRTUAL".
Definition GeneratedStorage_valid (g : string) : bool := one_of [""; GeneratedStored; GeneratedVirtual] g.
Definition IdentityAlways : string := "ALWAYS".
Definition IdentityByDefault : string := "BY DEFAULT".
Definition IdentityGeneration_valid (g : string) : bool := one_of [""; IdentityAlways; IdentityByDefault] g.
Definition IndexNullsFirst : string := "FIRST".
Definition IndexNullsLast : string := "LAST".
Definition NullsOrder_valid (n : string) : bool := one_of [""; IndexNullsFirst; IndexNullsLast] n.
Definition ObjectTable : string := "table".
Definition ObjectView : string := "view".
Definition ObjectKind_valid (k : string) : bool := one_of [""; ObjectTable; ObjectView] k.

(** ** Tables *)
Record GoBinding := MkGoBinding {
  GoType : string; NullableType : string; Imports : list (string * string) }.
Record ColumnDef := MkColumn {
  Column_Name : string; Column_Type : option ColumnType; Column_Nullable : bool;
  Column_Default : string; Column_GoBinding : option GoBinding; Column_Collation : string;
  GeneratedExpression : string; Column_GeneratedStorage : string; Identity : string;
  Hidden : bool; NativeType : option NativeTypeDef }.
(** A column that states nothing else. *)
Definition column_of (name : string) (typ : option ColumnType) (nullable : bool) : ColumnDef :=
  MkColumn name typ nullable "" None "" "" "" "" false None.

Record IndexKeyDef := MkIndexKey {
  ik_Expression : string; Descending : bool; ik_Collation : string; OperatorClass : string;
  PrefixLength : Z; ik_NullsOrder : string }.
Record UniqueDef := MkUnique {
  uq_Name : string; uq_Columns : list string; uq_Deferrable : string; uq_NullsNotDistinct : bool;
  uq_IncludeColumns : list string; OnConflict : string; uq_Keys : list IndexKeyDef; uq_Temporal : bool;
  uq_StorageParameters : list (string * string); uq_Tablespace : string; uq_ReplicaIdentity : bool;
  Collations : list (string * string) }.
Record CheckDef := MkCheck {
  ck_Name : string; ck_Expression : string; NoInherit : bool; ck_NotValid : bool; ck_NotEnforced : bool }.
Record ExclusionElementDef := MkElement { el_Expression : string; el_Operator : string }.
Record ExclusionDef := MkExclusion {
  ex_Name : string; ex_Method : string; Elements : list ExclusionElementDef; ex_Predicate : string;
  ex_Deferrable : string }.
Record IndexDef := MkIndex {
  ix_Name : string; ix_Columns : list string; ix_Unique : bool; ix_Method : string;
  Expressions : list string; Predicate : string; ix_IncludeColumns : list string; Invisible : bool;
  ix_NotValid : bool; ix_StorageParameters : list (string * string); ix_Tablespace : string;
  ix_ReplicaIdentity : bool; ix_Keys : list IndexKeyDef; ix_NullsNotDistinct : bool }.
Record ForeignKeyDef := MkForeignKey {
  fk_Name : string; fk_Columns : list string; ReferencedSchema : string; ReferencedTable : string;
  ReferencedColumns : list string; Match : string; OnDelete : string; OnUpdate : string;
  fk_Deferrable : string; fk_NotValid : bool; fk_NotEnforced : bool; fk_Temporal : bool;
  DeleteSetColumns : list string }.

Definition OperationRead : N := 1.
Definition OperationInsert : N := 2.
Definition OperationUpdate : N := 4.
Definition OperationDelete : N := 8.
Definition OperationDDL : N := 16.
Definition allTableOperations : N := 31.
Definition Operation_valid (o : N) : bool := (N.ldiff o allTableOperations =? 0)%N.

Record TableDef := MkTable {
  Schema : string; Name : string; TableKind : string; Operations : N; RowName : string;
  Columns : list ColumnDef; PrimaryKey : list string; Strict : bool; WithoutRowID : bool;
  PrimaryKeyAutoincrement : bool; PrimaryKeyOnConflict : string; VirtualTableModule : string;
  VirtualTableModuleArguments : list string; UniqueConstraints : list UniqueDef; Checks : list CheckDef;
  ExclusionConstraints : list ExclusionDef; Indexes : list IndexDef; ForeignKeys : list ForeignKeyDef }.
(** A table with nothing but columns. *)
Definition table_of (schema name kind : string) (operations : N) (columns : list ColumnDef) : TableDef :=
  MkTable schema name kind operations "" columns [] false false false "" "" [] [] [] [] [] [].
(** [table.Schema = namespace] on a copy. *)
Definition set_Schema (namespace : string) (t : TableDef) : TableDef :=
  MkTable namespace (Name t) (TableKind t) (Operations t) (RowName t) (Columns t) (PrimaryKey t) (Strict t)
    (WithoutRowID t) (PrimaryKeyAutoincrement t) (PrimaryKeyOnConflict t) (VirtualTableModule t)
    (VirtualTableModuleArguments t) (UniqueConstraints t) (Checks t) (ExclusionConstraints t) (Indexes t)
    (ForeignKeys t).

Definition Qualified (t : TableDef) : bool := negb (String.eqb (Schema t) "").
Definition EffectiveKind (t : TableDef) : string :=
  if String.eqb (TableKind t) "" then "table" else TableKind t.

(** [operation &^ allTableOperations != 0] on a [uint16]. *)
Definition Supports (t : TableDef) (operation : N) : bool :=
  if (operation =? 0)%N || negb (N.ldiff operation allTableOperations =? 0)%N then false
  else
    let operations :=
      if (Operations t =? 0)%N
      then if String.eqb (EffectiveKind t) "view" then OperationRead else allTableOperations
      else Operations t in
    (N.land operations operation =? operation)%N.

Definition QualifiedName (t : TableDef) : string :=
  if String.eqb (Schema t) "" then Name t else Schema t +:+ "." +:+ Name t.

Fixpoint find_column (name : string) (l : list ColumnDef) : option ColumnDef :=
  match l with
  | [] => None
  | c :: l' => if String.eqb (Column_Name c) name then Some c else find_column name l'
  end.
Definition Column (t : TableDef) (name : string) : option ColumnDef := find_column name (Columns t).

(** ** Lemmas *)
Lemma ValidateIdentifier_ok name :
  ValidateIdentifier name = Ok tt ->
  name <> "" /\ IndexByte name nul = None /\ ValidString name = true.
Proof.
  unfold ValidateIdentifier. destruct (String.eqb_spec name ""); [done|].
  destruct (IndexByte name nul); [done|]. by destruct (ValidString name).
Qed.

(** Every accepted simple identifier is made of letters, digits and
    underscores, and does not start with a digit. *)
Definition simple_char (c : ascii) : bool := Ascii.eqb c "_" || ascii_letter c || is_digit c.

Lemma simple_identifier_from_chars first name :
  simple_identifier_from first name = Ok tt -> str_forallb simple_char name = true.
Proof.
  revert first. induction name as [|c name IH]; intros first; simpl; [done|].
  destruct (Ascii.eqb c "_" || ascii_letter c || negb first && is_digit c) eqn:E; [|by destruct first].
  intros H. rewrite (IH false H), andb_true_r. unfold simple_char.
  destruct first; simpl in E; [by rewrite orb_false_r in E; rewrite E|done].
Qed.

Lemma ValidateSimpleIdentifier_chars name :
  ValidateSimpleIdentifier name = Ok tt -> name <> "" /\ str_forallb simple_char name = true.
Proof.
  unfold ValidateSimpleIdentifier. destruct (String.eqb_spec name ""); [done|].
  intros H. split; [done|]. by eapply simple_identifier_from_chars.
Qed.

(** A simple identifier, letter by letter. *)
Definition name_start (c : ascii) : Prop := c = "_"%char \/ (65 <= code c <= 90)%N \/ (97 <= code c <= 122)%N.
Definition name_part (c : ascii) : Prop := name_start c \/ (48 <= code c <= 57)%N.
Inductive name_rest : string -> Prop :=
| name_rest_end : name_rest ""
| name_rest_more c s : name_part c -> name_rest s -> name_rest (String c s).
Inductive simple_name : string -> Prop :=
| simple_name_of c s : name_start c -> name_rest s -> simple_name (String c s).

Lemma name_start_iff c : Ascii.eqb c "_" || ascii_letter c = true <-> name_start c.
Proof.
  unfold ascii_letter, name_start. rewrite !orb_true_iff, Ascii.eqb_eq, !in_range_true. done.
Qed.
Lemma simple_identifier_rest s : simple_identifier_from false s = Ok tt <-> name_rest s.
Proof.
  induction s as [|c s IH]; cbn [simple_identifier_from]; [by split; [constructor|]|].
  destruct (Ascii.eqb c "_" || ascii_letter c || negb false && is_digit c) eqn:E.
  - rewrite IH. split; [|by inversion_clear 1]. intros H. constructor; [|done].
    apply orb_true_iff in E as [E|E]; [left; by apply name_start_iff|right; by apply in_range_true in E].
  - split; [done|]. inversion_clear 1 as [|? ? [H1|H1] _].
    + apply name_start_iff in H1. by rewrite H1 in E.
    + unfold is_digit in E. apply in_range_true in H1. by rewrite H1, orb_true_r in E.
Qed.
Lemma ValidateSimpleIdentifier_exact name : ValidateSimpleIdentifier name = Ok tt <-> simple_name name.
Proof.
  unfold ValidateSimpleIdentifier. destruct name as [|c s]; cbn [String.eqb simple_identifier_from]; [by split; [|inversion 1]|].
  rewrite andb_false_l, orb_false_r. destruct (Ascii.eqb c "_" || ascii_letter c) eqn:E.
  - rewrite simple_identifier_rest. split; [|by inversion_clear 1]. intros H. constructor; [by apply name_start_iff|done].
  - split; [done|]. inversion_clear 1 as [? ? H1 _]. apply name_start_iff in H1. by rewrite H1 in E.
Qed.

Lemma find_column_some name l c :
  find_column name l = Some c -> c ∈ l /\ Column_Name c = name.
Proof.
  induction l as [|x l IH]; simpl; [done|].
  destruct (String.eqb_spec (Column_Name x) name) as [<-|_].
  - intros [= ->]. split; [apply list_elem_of_here|done].
  - intros [H1 H2]%IH. split; [by apply list_elem_of_further|done].
Qed.

Lemma find_column_none name l : find_column name l = None <-> name ∉ Column_Name <$> l.
Proof.
  induction l as [|x l IH]; simpl; [split; [intros _; apply not_elem_of_nil|done]|].
  destruct (String.eqb_spec (Column_Name x) name) as [<-|Hne].
  - split; [done|]. intros H. destruct H. apply list_elem_of_here.
  - rewrite IH, not_elem_of_cons. naive_solver.
Qed.
