(* ===== verification/TableValidate.v ===== *)
(** * TableValidate: [schema/table.go], [schema/native_type.go] and the option
    constructors of the [schema] package

    What makes a table descriptor valid, and the builder that assembles one.
    The classes of runes [unicode] keeps tables of are a parameter; the maps a
    loop records names in are the sets and maps of stdpp. *)

From S2P Require Import Prelude GoText Schema.
Open Scope string_scope.
Open Scope list_scope.
Open Scope nat_scope.

(** ** Go identifiers *)
Class Unicode := MkUnicode { IsLetter : N -> bool; IsDigit : N -> bool; IsUpper : N -> bool }.
#[export] Instance ascii_unicode : Unicode := {
  IsLetter r := in_range 65 90 r || in_range 97 122 r;
  IsDigit r := in_range 48 57 r;
  IsUpper r := in_range 65 90 r }.

Definition go_keywords : list string :=
  ["break"; "case"; "chan"; "const"; "continue"; "default"; "defer"; "else"; "fallthrough"; "for"; "func";
   "go"; "goto"; "if"; "import"; "interface"; "map"; "package"; "range"; "return"; "select"; "struct";
   "switch"; "type"; "var"].

(** The error of a failed test. *)
Definition refuse_if (b : bool) (e : error) : result unit := if b then Err e else Ok tt.
Definition as_validation (path : string) (r : result unit) : result unit :=
  wrap_err (fun e => validationError path "%s" [AErr e]) r.
Definition unset (s : string) : bool := String.eqb s "".
Definition indexed (path : string) (i : nat) : string := path +:+ "[" +:+ NatItoa i +:+ "]".

(** [native_type.go]: [depth] starts at 1, and the nesting is the fuel. *)
Definition native_kinds : list string :=
  [NativeBuiltin; NativeDomain; NativeEnum; NativeSet; NativeArray; NativeOther].
Fixpoint native_validate (n : NativeTypeDef) (path : string) (depth : nat) : result unit :=
  match n with
  | MkNative dialect schema name kind _ element =>
      check refuse_if (32 <? depth) (validationError path "native type nesting exceeds depth 32" []);
      check refuse_if (String.eqb dialect "") (validationError (path +:+ ".dialect") "must not be empty" []);
      check refuse_if (String.eqb name "") (validationError (path +:+ ".name") "must not be empty" []);
      check refuse_if (String.eqb kind "") (validationError (path +:+ ".kind") "must not be empty" []);
      check refuse_if (negb (one_of native_kinds kind)) (validationError (path +:+ ".kind") "is unsupported" []);
      check (if String.eqb schema "" then Ok tt
             else as_validation (path +:+ ".schema") (ValidateSimpleIdentifier schema));
      check (if String.eqb dialect "postgresql"
             then as_validation (path +:+ ".name") (ValidateSimpleIdentifier name) else Ok tt);
      check refuse_if (String.eqb dialect "mysql" && one_of [NativeDomain; NativeArray] kind)
              (validationError (path +:+ ".kind") "is unsupported for mysql" []);
      check refuse_if (String.eqb dialect "postgresql" && String.eqb kind NativeSet)
              (validationError (path +:+ ".kind") "is unsupported for postgresql" []);
      check refuse_if (negb (String.eqb kind NativeArray) && match element with Some _ => true | None => false end)
              (validationError (path +:+ ".element") "is only valid for array native types" []);
      check refuse_if (String.eqb kind NativeArray && match element with Some _ => false | None => true end)
              (validationError (path +:+ ".element") "is required for array native types" []);
      match element with
      | Some e => native_validate e (path +:+ ".element") (S depth)
      | None => Ok tt
      end
  end.
Definition validateNativeColumn (column : ColumnDef) (path : string) : result unit :=
  check (match NativeType column with
         | Some n => native_validate n (path +:+ ".native_type") 1 | None => Ok tt end);
  match Column_Type column, NativeType column with
  | Some OpaqueType, None => Err (validationError (path +:+ ".native_type") "is required for opaque column types" [])
  | _, _ => Ok tt
  end.

Section Validate.
Context {unicode : Unicode}.

(** [token.IsIdentifier]: letters, digits and underscores, not starting with a
    digit, and no keyword. *)
Fixpoint identifier_runes (fuel : nat) (first : bool) (name : string) : bool :=
  match fuel, name with
  | _, "" => true
  | 0, _ => false
  | S fuel', _ =>
      let '(r, w) := DecodeRune name in
      (IsLetter r || N.eqb r 95 || (negb first && IsDigit r)) && identifier_runes fuel' false (sdrop w name)
  end.
Definition IsIdentifier (name : string) : bool :=
  negb (String.eqb name "") && negb (one_of go_keywords name) && identifier_runes (String.length name) true name.
Definition validateExportedGoIdentifier (name : string) : result unit :=
  check refuse_if (negb (IsIdentifier name)) (Errorf "must be a valid Go identifier" []);
  refuse_if (negb (IsUpper (DecodeRune name).1)) (Errorf "must be an exported Go identifier" []).

(** ** Lists of names *)
(** A loop that refuses a name it has seen, after a test of the name. *)
Definition name_list (known : nat -> string -> result unit) (path : string) (names : list string)
  (seen : gset string) : result unit :=
  do _ <- foldi (fun i name seen =>
    check known i name;
    if bool_decide (name ∈ seen) then Err (validationError (indexed path i) "duplicates column %q" [AStr name])
    else Ok ({[ name ]} ∪ seen)) 0 names seen;
  Ok tt.
Definition unknown_column (path : string) (columns : gset string) (i : nat) (name : string) : result unit :=
  refuse_if (negb (bool_decide (name ∈ columns)))
    (validationError (indexed path i) "references unknown column %q" [AStr name]).

Definition validateColumnList (path : string) (names : list string) (columns : gset string) (required : bool)
  : result unit :=
  check refuse_if (required && (length names =? 0)) (validationError path "must not be empty" []);
  name_list (unknown_column path columns) path names ∅.
Definition validateIdentifierList (path : string) (names : list string) (required : bool) : result unit :=
  check refuse_if (required && (length names =? 0)) (validationError path "must not be empty" []);
  name_list (fun i name => as_validation (indexed path i) (ValidateIdentifier name)) path names ∅.
(** [IncludeColumns]: known, and neither repeated nor a key column. *)
Definition include_columns (path : string) (keys names : list string) (columns : gset string) : result unit :=
  if length names =? 0 then Ok tt
  else name_list (unknown_column path columns) path names (list_to_set keys).

(** A constraint's name: an identifier no other constraint has; [names] maps
    a name to the path of its constraint. *)
Definition claim_name (path name : string) (names : gmap string string) : result (gmap string string) :=
  if String.eqb name "" then Ok names
  else
    check as_validation (path +:+ ".name") (ValidateIdentifier name);
    match names !! name with
    | Some owner => Err (validationError (path +:+ ".name") "duplicates constraint %q declared at %s" [AStr name; AStr owner])
    | None => Ok (<[name := path]> names)
    end.
Definition storage_parameters (path : string) (parameters : list (string * string)) : result unit :=
  checki (fun _ p => refuse_if (String.eqb p.1 "")
    (validationError (path +:+ ".storage_parameters") "must not have an empty key" [])) 0 parameters.
Definition tablespace (path name : string) : result unit :=
  if unset name then Ok tt else as_validation (path +:+ ".tablespace") (ValidateIdentifier name).

(** ** Columns *)
Definition validate_column_type (path : string) (t : option ColumnType) : result unit :=
  match t with
  | Some (DecimalType precision scale _ _) =>
      check refuse_if (precision <? 1)%Z
        (validationError (path +:+ ".type.precision") "decimal column must state a precision of at least 1" []);
      match scale with
      | None => Err (validationError (path +:+ ".type.scale") "decimal column must state a scale: use schema.NewDecimalScale, which can state a scale of 0" [])
      | Some scale =>
          check refuse_if (scale <? 0)%Z (validationError (path +:+ ".type.scale") "decimal scale must not be negative" []);
          refuse_if (precision <? scale)%Z
            (validationError (path +:+ ".type.scale") "decimal scale %d exceeds precision %d" [AInt scale; AInt precision])
      end
  | Some (TextType width fixed) =>
      check refuse_if (match width with Some w => (w <? 0)%Z | None => false end)
        (validationError (path +:+ ".type.width") "text width must not be negative" []);
      refuse_if (fixed && match width with Some _ => false | None => true end)
        (validationError (path +:+ ".type.width") "fixed-width text column must state a width: use schema.Width, since bare CHAR means CHAR(1), not an unbounded column" [])
  | Some (IntegerType _ (Some width) _) =>
      refuse_if (width <? 0)%Z (validationError (path +:+ ".type.display_width") "integer display width must not be negative" [])
  | _ => Ok tt
  end.
Definition type_supported (t : option ColumnType) : bool :=
  match t with Some t => validColumnType t | None => false end.
Definition validate_table_column (virtual : string) (path : string) (column : ColumnDef) : result unit :=
  check as_validation (path +:+ ".name") (ValidateIdentifier (Column_Name column));
  check refuse_if (negb (type_supported (Column_Type column))) (validationError (path +:+ ".type") "unsupported column type %T" []);
  check validateNativeColumn column path;
  check (if unset (Column_Collation column) then Ok tt
         else as_validation (path +:+ ".collation") (ValidateIdentifier (Column_Collation column)));
  check validate_column_type path (Column_Type column);
  check refuse_if (negb (Bool.eqb (unset (GeneratedExpression column)) (unset (Column_GeneratedStorage column))))
    (validationError (path +:+ ".generated_storage") "GeneratedExpression and GeneratedStorage must be stated together" []);
  check refuse_if (negb (GeneratedStorage_valid (Column_GeneratedStorage column)))
    (validationError (path +:+ ".generated_storage") "unsupported generated column storage %q" [AStr (Column_GeneratedStorage column)]);
  check refuse_if (negb (unset (GeneratedExpression column)) && negb (unset (Column_Default column)))
    (validationError (path +:+ ".default") "a generated column must not also state a Default" []);
  check refuse_if (negb (IdentityGeneration_valid (Identity column)))
    (validationError (path +:+ ".identity") "unsupported identity generation %q" [AStr (Identity column)]);
  check refuse_if (negb (unset (Identity column)) && negb (unset (GeneratedExpression column)))
    (validationError (path +:+ ".identity") "an identity column must not also state a GeneratedExpression" []);
  check refuse_if (negb (unset (Identity column)) && negb (unset (Column_Default column)))
    (validationError (path +:+ ".identity") "an identity column must not also state a Default" []);
  check refuse_if (negb (unset (Identity column)) && Column_Nullable column)
    (validationError (path +:+ ".identity") "an identity column must not be Nullable" []);
  refuse_if (Hidden column && unset virtual)
    (validationError (path +:+ ".hidden") "must not be set without a VirtualTableModule" []).
Definition validate_table_columns (virtual : string) (l : list ColumnDef) : result (gset string) :=
  foldi (fun i column columns =>
    let path := indexed "columns" i in
    check validate_table_column virtual path column;
    if bool_decide (Column_Name column ∈ columns)
    then Err (validationError (path +:+ ".name") "duplicates column %q" [AStr (Column_Name column)])
    else Ok ({[ Column_Name column ]} ∪ columns)) 0 l ∅.

(** ** Constraints *)
Definition validate_key (path : string) (j : nat) (key : IndexKeyDef) : result unit :=
  let keyPath := indexed (path +:+ ".keys") j in
  check refuse_if (unset (ik_Expression key)) (validationError (keyPath +:+ ".expression") "must not be empty" []);
  refuse_if (PrefixLength key <? 0)%Z (validationError (keyPath +:+ ".prefix_length") "must not be negative" []).
Definition validate_collations (path : string) (c : UniqueDef) : result unit :=
  checki (fun _ p =>
    check refuse_if (negb (bool_decide (p.1 ∈ uq_Columns c)))
      (validationError (path +:+ ".collations") "names column %q, which is not part of the constraint" [AStr p.1]);
    refuse_if (unset p.2) (validationError (path +:+ ".collations") "must not have an empty value for column %q" [AStr p.1]))
    0 (Collations c).
Definition validate_unique (columns : gset string) (path : string) (c : UniqueDef) : result unit :=
  check (if 0 <? length (uq_Keys c)
         then check refuse_if (0 <? length (uq_Columns c))
                (validationError (path +:+ ".columns") "must be empty when Keys describes the constraint's keys instead" []);
              checki (validate_key path) 0 (uq_Keys c)
         else validateColumnList (path +:+ ".columns") (uq_Columns c) columns true);
  check refuse_if (negb (Deferrability_valid (uq_Deferrable c)))
    (validationError (path +:+ ".deferrable") "unsupported unique constraint deferrability %q" [AStr (uq_Deferrable c)]);
  check refuse_if (negb (ConflictResolution_valid (OnConflict c)))
    (validationError (path +:+ ".on_conflict") "unsupported unique constraint conflict resolution %q" [AStr (OnConflict c)]);
  check include_columns (path +:+ ".include_columns") (uq_Columns c) (uq_IncludeColumns c) columns;
  check storage_parameters path (uq_StorageParameters c);
  check tablespace path (uq_Tablespace c);
  validate_collations path c.
Definition validate_check (path : string) (c : CheckDef) : result unit :=
  refuse_if (unset (ck_Expression c)) (validationError (path +:+ ".expression") "must not be empty" []).
Definition validate_element (path : string) (j : nat) (e : ExclusionElementDef) : result unit :=
  let elementPath := indexed (path +:+ ".elements") j in
  check refuse_if (unset (el_Expression e)) (validationError (elementPath +:+ ".expression") "must not be empty" []);
  refuse_if (unset (el_Operator e)) (validationError (elementPath +:+ ".operator") "must not be empty" []).
Definition validate_exclusion (path : string) (c : ExclusionDef) : result unit :=
  check refuse_if (length (Elements c) =? 0) (validationError (path +:+ ".elements") "must not be empty" []);
  check checki (validate_element path) 0 (Elements c);
  refuse_if (negb (Deferrability_valid (ex_Deferrable c)))
    (validationError (path +:+ ".deferrable") "unsupported exclusion constraint deferrability %q" [AStr (ex_Deferrable c)]).

(** The loops over the constraints of one kind: the name is claimed first. *)
Definition validate_named {A} (kind : string) (name : A -> string) (validate : string -> A -> result unit)
  (l : list A) (names : gmap string string) : result (gmap string string) :=
  foldi (fun i c names =>
    let path := indexed kind i in
    do names' <- claim_name path (name c) names;
    check validate path c;
    Ok names') 0 l names.
Definition validateNamedColumnLists (l : list UniqueDef) (columns : gset string) :=
  validate_named "unique_constraints" uq_Name (validate_unique columns) l.
Definition validateChecks := validate_named "checks" ck_Name validate_check.
Definition validateExclusionConstraints := validate_named "exclusion_constraints" ex_Name validate_exclusion.

Definition validate_delete_set (path : string) (key : ForeignKeyDef) : result unit :=
  if length (DeleteSetColumns key) =? 0 then Ok tt
  else
    check refuse_if (negb (one_of [SetNull; SetDefault] (OnDelete key)))
      (validationError (path +:+ ".delete_set_columns") "must not be set unless OnDelete is SetNull or SetDefault" []);
    name_list (fun j name => refuse_if (negb (bool_decide (name ∈ fk_Columns key)))
        (validationError (indexed (path +:+ ".delete_set_columns") j) "names column %q, which is not part of the foreign key" [AStr name]))
      (path +:+ ".delete_set_columns") (DeleteSetColumns key) ∅.
Definition validate_foreign_key (columns : gset string) (path : string) (key : ForeignKeyDef) : result unit :=
  check validateColumnList (path +:+ ".columns") (fk_Columns key) columns true;
  check (if unset (ReferencedSchema key) then Ok tt
         else as_validation (path +:+ ".referenced_schema") (ValidateIdentifier (ReferencedSchema key)));
  check as_validation (path +:+ ".referenced_table") (ValidateIdentifier (ReferencedTable key));
  check validateIdentifierList (path +:+ ".referenced_columns") (ReferencedColumns key) true;
  check refuse_if (negb (length (fk_Columns key) =? length (ReferencedColumns key)))
    (validationError path "has %d local columns and %d referenced columns"
       [ANat (length (fk_Columns key)); ANat (length (ReferencedColumns key))]);
  check refuse_if (negb (ReferenceAction_valid (OnDelete key)))
    (validationError (path +:+ ".on_delete") "unsupported reference action %q" [AStr (OnDelete key)]);
  check refuse_if (negb (ReferenceAction_valid (OnUpdate key)))
    (validationError (path +:+ ".on_update") "unsupported reference action %q" [AStr (OnUpdate key)]);
  check refuse_if (negb (MatchType_valid (Match key)))
    (validationError (path +:+ ".match") "unsupported foreign key match type %q" [AStr (Match key)]);
  check refuse_if (negb (Deferrability_valid (fk_Deferrable key)))
    (validationError (path +:+ ".deferrable") "unsupported foreign key deferrability %q" [AStr (fk_Deferrable key)]);
  validate_delete_set path key.
Definition validateForeignKeys (l : list ForeignKeyDef) (columns : gset string) :=
  validate_named "foreign_keys" fk_Name (validate_foreign_key columns) l.

(** ** Indexes *)
Definition validate_index_key (path : string) (j : nat) (key : IndexKeyDef) : result unit :=
  check validate_key path j key;
  refuse_if (negb (NullsOrder_valid (ik_NullsOrder key)))
    (validationError (indexed (path +:+ ".keys") j +:+ ".nulls_order") "unsupported nulls order %q" [AStr (ik_NullsOrder key)]).
Definition validate_index (columns : gset string) (path : string) (index : IndexDef) : result unit :=
  check (if 0 <? length (ix_Keys index) then
           check refuse_if (0 <? length (ix_Columns index))
             (validationError (path +:+ ".columns") "must be empty when Keys describes the index's keys instead" []);
           check refuse_if (0 <? length (Expressions index))
             (validationError (path +:+ ".expressions") "must be empty when Keys describes the index's keys instead" []);
           checki (validate_index_key path) 0 (ix_Keys index)
         else if 0 <? length (Expressions index) then
           check refuse_if (0 <? length (ix_Columns index))
             (validationError (path +:+ ".columns") "must be empty when Expressions describes the index's keys instead" []);
           checki (fun j e => refuse_if (unset e) (validationError (indexed (path +:+ ".expressions") j) "must not be empty" []))
             0 (Expressions index)
         else validateColumnList (path +:+ ".columns") (ix_Columns index) columns true);
  check include_columns (path +:+ ".include_columns") (ix_Columns index) (ix_IncludeColumns index) columns;
  check storage_parameters path (ix_StorageParameters index);
  check tablespace path (ix_Tablespace index);
  check refuse_if (ix_ReplicaIdentity index && negb (ix_Unique index))
    (validationError (path +:+ ".replica_identity") "must not be set on a non-unique index: PostgreSQL requires a unique index to serve as REPLICA IDENTITY USING INDEX" []);
  refuse_if (ix_NullsNotDistinct index && negb (ix_Unique index))
    (validationError (path +:+ ".nulls_not_distinct") "must not be set on a non-unique index: NULLS NOT DISTINCT only applies to a unique index" []).
Definition validateIndexes (l : list IndexDef) (columns : gset string) : result (gset string) :=
  foldi (fun i index names =>
    let path := indexed "indexes" i in
    check as_validation (path +:+ ".name") (ValidateIdentifier (ix_Name index));
    if bool_decide (ix_Name index ∈ names)
    then Err (validationError (path +:+ ".name") "duplicates index %q" [AStr (ix_Name index)])
    else check validate_index columns path index; Ok ({[ ix_Name index ]} ∪ names)) 0 l ∅.

(** ** The table *)
(** What goes with a primary key, and what a SQLite virtual table cannot have. *)
Definition validate_table_options (t : TableDef) : result unit :=
  check refuse_if (negb (ConflictResolution_valid (PrimaryKeyOnConflict t)))
    (validationError "table.primary_key_on_conflict" "unsupported primary key conflict resolution %q" [AStr (PrimaryKeyOnConflict t)]);
  check (if length (PrimaryKey t) =? 0
         then check refuse_if (PrimaryKeyAutoincrement t)
                (validationError "table.primary_key_autoincrement" "must not be set without a primary key" []);
              refuse_if (negb (unset (PrimaryKeyOnConflict t)))
                (validationError "table.primary_key_on_conflict" "must not be set without a primary key" [])
         else Ok tt);
  let empty_on field (b : bool) := refuse_if b (validationError ("table." +:+ field) "must be empty on a SQLite virtual table" []) in
  let unset_on field (b : bool) := refuse_if b (validationError ("table." +:+ field) "must not be set on a SQLite virtual table" []) in
  if unset (VirtualTableModule t)
  then refuse_if (0 <? length (VirtualTableModuleArguments t))
         (validationError "table.virtual_table_module_arguments" "must not be set without a VirtualTableModule" [])
  else
    check empty_on "primary_key" (0 <? length (PrimaryKey t));
    check unset_on "strict" (Strict t);
    check unset_on "without_rowid" (WithoutRowID t);
    check empty_on "unique_constraints" (0 <? length (UniqueConstraints t));
    check empty_on "checks" (0 <? length (Checks t));
    check empty_on "exclusion_constraints" (0 <? length (ExclusionConstraints t));
    check empty_on "indexes" (0 <? length (Indexes t));
    empty_on "foreign_keys" (0 <? length (ForeignKeys t)).

Definition Table_Validate (t : TableDef) : result unit :=
  check refuse_if (negb (ObjectKind_valid (TableKind t)))
    (validationError "table.kind" "unsupported object kind %q" [AStr (TableKind t)]);
  check refuse_if (negb (Operation_valid (Operations t)))
    (validationError "table.operations" "unsupported operation bits %d" [AInt (Z.of_N (Operations t))]);
  check (if unset (Schema t) then Ok tt else as_validation "table.schema" (ValidateIdentifier (Schema t)));
  check as_validation "table" (ValidateIdentifier (Name t));
  check (if unset (RowName t) then Ok tt
         else as_validation "table.row_name" (validateExportedGoIdentifier (RowName t)));
  check refuse_if (length (Columns t) =? 0) (validationError "table" "must have at least one column" []);
  do columns <- validate_table_columns (VirtualTableModule t) (Columns t);
  check validateColumnList "primary_key" (PrimaryKey t) columns false;
  check validate_table_options t;
  do names <- validateNamedColumnLists (UniqueConstraints t) columns ∅;
  do names <- validateChecks (Checks t) names;
  do names <- validateExclusionConstraints (ExclusionConstraints t) names;
  do _ <- validateIndexes (Indexes t) columns;
  do _ <- validateForeignKeys (ForeignKeys t) columns names;
  Ok tt.
End Validate.

(** ** Building a descriptor: [table_options.go], [column_options.go],
    [foreign_key_options.go].  A nil option is [None]. *)
Record tableBuilder := MkBuilder {
  b_schemaName : string; b_rowName : string; b_columns : list ColumnDef; b_primaryKey : list string;
  b_primaryKeySet : bool; b_uniqueConstraints : list UniqueDef; b_checks : list CheckDef;
  b_indexes : list IndexDef; b_foreignKeys : list ForeignKeyDef }.
Definition zero_builder : tableBuilder := MkBuilder "" "" [] [] false [] [] [] [].
Definition TableOption : Type := tableBuilder -> result tableBuilder.
Definition ColumnOption : Type := ColumnDef -> result ColumnDef.
Definition ForeignKeyOption : Type := ForeignKeyDef -> result ForeignKeyDef.

(** [for _, opt := range opts]: a nil option ends the loop with an error. *)
Definition apply_options {A} (nil_option : error) (opts : list (option (A -> result A))) (a : A) : result A :=
  foldi (fun _ opt a => match opt with None => Err nil_option | Some f => f a end) 0 opts a.

Definition InSchema (name : string) : TableOption := fun b =>
  Ok (MkBuilder name (b_rowName b) (b_columns b) (b_primaryKey b) (b_primaryKeySet b) (b_uniqueConstraints b)
        (b_checks b) (b_indexes b) (b_foreignKeys b)).
Definition RowNamed (name : string) : TableOption := fun b =>
  if unset name then Err (validationError "row_name" "RowNamed name must not be empty" [])
  else Ok (MkBuilder (b_schemaName b) name (b_columns b) (b_primaryKey b) (b_primaryKeySet b) (b_uniqueConstraints b)
             (b_checks b) (b_indexes b) (b_foreignKeys b)).
Definition PrimaryKey_ (columns : list string) : TableOption := fun b =>
  if b_primaryKeySet b then Err (validationError "primary_key" "declared more than once" [])
  else Ok (MkBuilder (b_schemaName b) (b_rowName b) (b_columns b) columns true (b_uniqueConstraints b)
             (b_checks b) (b_indexes b) (b_foreignKeys b)).
Definition add_unique (u : UniqueDef) : TableOption := fun b =>
  Ok (MkBuilder (b_schemaName b) (b_rowName b) (b_columns b) (b_primaryKey b) (b_primaryKeySet b)
        (b_uniqueConstraints b ++ [u]) (b_checks b) (b_indexes b) (b_foreignKeys b)).
Definition add_check (c : CheckDef) : TableOption := fun b =>
  Ok (MkBuilder (b_schemaName b) (b_rowName b) (b_columns b) (b_primaryKey b) (b_primaryKeySet b)
        (b_uniqueConstraints b) (b_checks b ++ [c]) (b_indexes b) (b_foreignKeys b)).
Definition add_index (i : IndexDef) : TableOption := fun b =>
  Ok (MkBuilder (b_schemaName b) (b_rowName b) (b_columns b) (b_primaryKey b) (b_primaryKeySet b)
        (b_uniqueConstraints b) (b_checks b) (b_indexes b ++ [i]) (b_foreignKeys b)).
Definition add_foreign_key (k : ForeignKeyDef) : TableOption := fun b =>
  Ok (MkBuilder (b_schemaName b) (b_rowName b) (b_columns b) (b_primaryKey b) (b_primaryKeySet b)
        (b_uniqueConstraints b) (b_checks b) (b_indexes b) (b_foreignKeys b ++ [k])).
Definition add_column (c : ColumnDef) : TableOption := fun b =>
  Ok (MkBuilder (b_schemaName b) (b_rowName b) (b_columns b ++ [c]) (b_primaryKey b) (b_primaryKeySet b)
        (b_uniqueConstraints b) (b_checks b) (b_indexes b) (b_foreignKeys b)).

Definition UniqueNamed (name : string) (columns : list string) : TableOption :=
  add_unique (MkUnique name columns "" false [] "" [] false [] "" false []).
Definition Unique (columns : list string) : TableOption := UniqueNamed "" columns.
Definition CheckNamed (name expression : string) : TableOption := add_check (MkCheck name expression false false false).
Definition Check_ (expression : string) : TableOption := CheckNamed "" expression.
Definition index_option (name : string) (columns : list string) (unique : bool) : TableOption :=
  add_index (MkIndex name columns unique "" [] "" [] false false [] "" false [] false).
Definition Index_ (name : string) (columns : list string) : TableOption := index_option name columns false.
Definition UniqueIndex (name : string) (columns : list string) : TableOption := index_option name columns true.

(** The option of a column carries the error of the column's own options. *)
Definition column (name : string) (columnType : ColumnType) (opts : list (option ColumnOption)) : TableOption :=
  match apply_options (validationError "columns" "option for column %q must not be nil" [AStr name])
          opts (column_of name (Some columnType) false) with
  | Ok built => add_column built
  | Err e => fun _ => Err e
  end.
Definition Boolean name := column name BooleanType.
Definition Integer name := column name (IntegerType false None false).
Definition Float name := column name FloatType.
Definition Text name := column name (TextType None false).
Definition Bytes_ name := column name BytesType.
Definition Time name := column name TimeType.
Definition JSON name := column name JSONType.
Definition UUID name := column name UUIDType.
Definition Decimal name (precision scale : Z) := column name (DecimalType precision (Some scale) false false).

Definition Nullable_ : ColumnOption := fun c =>
  Ok (MkColumn (Column_Name c) (Column_Type c) true (Column_Default c) (Column_GoBinding c) (Column_Collation c)
        (GeneratedExpression c) (Column_GeneratedStorage c) (Identity c) (Hidden c) (NativeType c)).
Definition Default (expr : string) : ColumnOption := fun c =>
  Ok (MkColumn (Column_Name c) (Column_Type c) (Column_Nullable c) expr (Column_GoBinding c) (Column_Collation c)
        (GeneratedExpression c) (Column_GeneratedStorage c) (Identity c) (Hidden c) (NativeType c)).
Definition Identity_ (generation : string) : ColumnOption := fun c =>
  Ok (MkColumn (Column_Name c) (Column_Type c) (Column_Nullable c) (Column_Default c) (Column_GoBinding c)
        (Column_Collation c) (GeneratedExpression c) (Column_GeneratedStorage c) generation (Hidden c) (NativeType c)).
Definition with_type (c : ColumnDef) (t : ColumnType) : ColumnDef :=
  MkColumn (Column_Name c) (Some t) (Column_Nullable c) (Column_Default c) (Column_GoBinding c) (Column_Collation c)
    (GeneratedExpression c) (Column_GeneratedStorage c) (Identity c) (Hidden c) (NativeType c).
Definition Unsigned_ : ColumnOption := fun c =>
  match Column_Type c with
  | Some (IntegerType _ width zerofill) => Ok (with_type c (IntegerType true width zerofill))
  | _ => Err (validationError "columns" "column %q: Unsigned only applies to integer columns" [AStr (Column_Name c)])
  end.
Definition Width_ (n : Z) : ColumnOption := fun c =>
  match Column_Type c with
  | Some (TextType _ fixed) => Ok (with_type c (TextType (Some n) fixed))
  | _ => Err (validationError "columns" "column %q: Width only applies to text columns" [AStr (Column_Name c)])
  end.
Definition Fixed_ : ColumnOption := fun c =>
  match Column_Type c with
  | Some (TextType width _) => Ok (with_type c (TextType width true))
  | _ => Err (validationError "columns" "column %q: Fixed only applies to text columns" [AStr (Column_Name c)])
  end.

Definition ForeignKeyOn (columns : list string) (opts : list (option ForeignKeyOption)) : TableOption :=
  match apply_options (validationError "foreign_keys" "option for columns %v must not be nil" [AList (map AStr columns)])
          opts (MkForeignKey "" columns "" "" [] "" "" "" "" false false false []) with
  | Ok key => add_foreign_key key
  | Err e => fun _ => Err e
  end.
Definition ForeignKey (column : string) := ForeignKeyOn [column].
Definition Named (name : string) : ForeignKeyOption := fun k =>
  Ok (MkForeignKey name (fk_Columns k) (ReferencedSchema k) (ReferencedTable k) (ReferencedColumns k) (Match k)
        (OnDelete k) (OnUpdate k) (fk_Deferrable k) (fk_NotValid k) (fk_NotEnforced k) (fk_Temporal k) (DeleteSetColumns k)).
Definition ReferencesIn (schemaName table : string) (columns : list string) : ForeignKeyOption := fun k =>
  Ok (MkForeignKey (fk_Name k) (fk_Columns k) schemaName table columns (Match k)
        (OnDelete k) (OnUpdate k) (fk_Deferrable k) (fk_NotValid k) (fk_NotEnforced k) (fk_Temporal k) (DeleteSetColumns k)).
Definition References (table : string) (columns : list string) := ReferencesIn "" table columns.
Definition OnDelete_ (action : string) : ForeignKeyOption := fun k =>
  Ok (MkForeignKey (fk_Name k) (fk_Columns k) (ReferencedSchema k) (ReferencedTable k) (ReferencedColumns k) (Match k)
        action (OnUpdate k) (fk_Deferrable k) (fk_NotValid k) (fk_NotEnforced k) (fk_Temporal k) (DeleteSetColumns k)).
Definition OnUpdate_ (action : string) : ForeignKeyOption := fun k =>
  Ok (MkForeignKey (fk_Name k) (fk_Columns k) (ReferencedSchema k) (ReferencedTable k) (ReferencedColumns k) (Match k)
        (OnDelete k) action (fk_Deferrable k) (fk_NotValid k) (fk_NotEnforced k) (fk_Temporal k) (DeleteSetColumns k)).

Definition built_table (name : string) (b : tableBuilder) : TableDef :=
  MkTable (b_schemaName b) name "" 0 (b_rowName b) (b_columns b) (b_primaryKey b) false false false "" "" []
    (b_uniqueConstraints b) (b_checks b) [] (b_indexes b) (b_foreignKeys b).
Definition NewTableDef {unicode : Unicode} (name : string) (opts : list (option TableOption)) : result TableDef :=
  do builder <- apply_options (validationError "table" "option must not be nil" []) opts zero_builder;
  check Table_Validate (built_table name builder);
  Ok (built_table name builder).

(** ** Well-formed descriptors *)
Definition ident (s : string) : Prop := s <> "" /\ IndexByte s nul = None /\ ValidString s = true.
Definition optional_ident (s : string) : Prop := s = "" \/ ident s.
(** Distinct names, all among the columns. *)
Definition listed (columns names : list string) : Prop := NoDup names /\ Forall (fun n => n ∈ columns) names.

Definition type_wf (t : ColumnType) : Prop :=
  match t with
  | DecimalType precision scale _ _ => (1 <= precision)%Z /\ exists s, scale = Some s /\ (0 <= s <= precision)%Z
  | TextType width fixed =>
      (forall w, width = Some w -> (0 <= w)%Z) /\ (fixed = true -> width <> None)
  | IntegerType _ (Some width) _ => (0 <= width)%Z
  | ExternalType _ _ => False
  | _ => True
  end.
Fixpoint native_depth (n : NativeTypeDef) : nat :=
  match n with MkNative _ _ _ _ _ element => S (match element with Some e => native_depth e | None => 0 end) end.
Fixpoint native_wf (n : NativeTypeDef) : Prop :=
  match n with
  | MkNative dialect schema name kind _ element =>
      dialect <> "" /\ name <> "" /\ one_of native_kinds kind = true /\
      (schema = "" \/ ValidateSimpleIdentifier schema = Ok tt) /\
      (dialect = "postgresql" -> ValidateSimpleIdentifier name = Ok tt /\ kind <> NativeSet) /\
      (dialect = "mysql" -> kind <> NativeDomain /\ kind <> NativeArray) /\
      (kind = NativeArray <-> element <> None) /\
      match element with Some e => native_wf e | None => True end
  end.
Definition column_wf (virtual : string) (c : ColumnDef) : Prop :=
  ident (Column_Name c) /\
  (exists t, Column_Type c = Some t /\ type_wf t /\ (t = OpaqueType -> NativeType c <> None)) /\
  (forall n, NativeType c = Some n -> native_wf n /\ native_depth n <= 32) /\
  optional_ident (Column_Collation c) /\
  (GeneratedExpression c = "" <-> Column_GeneratedStorage c = "") /\
  GeneratedStorage_valid (Column_GeneratedStorage c) = true /\
  IdentityGeneration_valid (Identity c) = true /\
  (GeneratedExpression c <> "" -> Column_Default c = "") /\
  (Identity c <> "" -> GeneratedExpression c = "" /\ Column_Default c = "" /\ Column_Nullable c = false) /\
  (Hidden c = true -> virtual <> "").

Definition key_wf (k : IndexKeyDef) : Prop := ik_Expression k <> "" /\ (0 <= PrefixLength k)%Z.
(** [INCLUDE]: distinct columns that are no keys. *)
Definition include_wf (columns keys names : list string) : Prop :=
  listed columns names /\ Forall (fun n => n ∉ keys) names.
Definition storage_wf (parameters : list (string * string)) (space : string) : Prop :=
  Forall (fun p => p.1 <> "") parameters /\ optional_ident space.
Definition unique_wf (columns : list string) (c : UniqueDef) : Prop :=
  (if decide (uq_Keys c = []) then uq_Columns c <> [] /\ listed columns (uq_Columns c)
   else uq_Columns c = [] /\ Forall key_wf (uq_Keys c)) /\
  Deferrability_valid (uq_Deferrable c) = true /\ ConflictResolution_valid (OnConflict c) = true /\
  include_wf columns (uq_Columns c) (uq_IncludeColumns c) /\
  storage_wf (uq_StorageParameters c) (uq_Tablespace c) /\
  Forall (fun p => p.1 ∈ uq_Columns c /\ p.2 <> "") (Collations c).
Definition check_wf (c : CheckDef) : Prop := ck_Expression c <> "".
Definition exclusion_wf (c : ExclusionDef) : Prop :=
  Elements c <> [] /\ Forall (fun e => el_Expression e <> "" /\ el_Operator e <> "") (Elements c) /\
  Deferrability_valid (ex_Deferrable c) = true.
Definition foreign_key_wf (columns : list string) (k : ForeignKeyDef) : Prop :=
  fk_Columns k <> [] /\ listed columns (fk_Columns k) /\
  optional_ident (ReferencedSchema k) /\ ident (ReferencedTable k) /\
  NoDup (ReferencedColumns k) /\ Forall ident (ReferencedColumns k) /\
  length (fk_Columns k) = length (ReferencedColumns k) /\
  ReferenceAction_valid (OnDelete k) = true /\ ReferenceAction_valid (OnUpdate k) = true /\
  MatchType_valid (Match k) = true /\ Deferrability_valid (fk_Deferrable k) = true /\
  listed (fk_Columns k) (DeleteSetColumns k) /\
  (DeleteSetColumns k <> [] -> OnDelete k = SetNull \/ OnDelete k = SetDefault).
Definition index_wf (columns : list string) (i : IndexDef) : Prop :=
  ident (ix_Name i) /\
  (if decide (ix_Keys i = [])
   then if decide (Expressions i = []) then ix_Columns i <> [] /\ listed columns (ix_Columns i)
        else ix_Columns i = [] /\ Forall (fun e => e <> "") (Expressions i)
   else ix_Columns i = [] /\ Expressions i = [] /\
        Forall (fun k => key_wf k /\ NullsOrder_valid (ik_NullsOrder k) = true) (ix_Keys i)) /\
  include_wf columns (ix_Columns i) (ix_IncludeColumns i) /\
  storage_wf (ix_StorageParameters i) (ix_Tablespace i) /\
  (ix_ReplicaIdentity i = true \/ ix_NullsNotDistinct i = true -> ix_Unique i = true).
(** The names constraints of every kind share. *)
Definition constraint_names (t : TableDef) : list string :=
  base.filter (fun n => n <> "")
    ((uq_Name <$> UniqueConstraints t) ++ (ck_Name <$> Checks t) ++ (ex_Name <$> ExclusionConstraints t) ++
     (fk_Name <$> ForeignKeys t)).
Definition column_names (t : TableDef) : list string := Column_Name <$> Columns t.
Definition options_wf (t : TableDef) : Prop :=
  ConflictResolution_valid (PrimaryKeyOnConflict t) = true /\
  (PrimaryKey t = [] -> PrimaryKeyAutoincrement t = false /\ PrimaryKeyOnConflict t = "") /\
  if decide (VirtualTableModule t = "") then VirtualTableModuleArguments t = []
  else PrimaryKey t = [] /\ Strict t = false /\ WithoutRowID t = false /\ UniqueConstraints t = [] /\
       Checks t = [] /\ ExclusionConstraints t = [] /\ Indexes t = [] /\ ForeignKeys t = [].
Definition row_name_wf {unicode : Unicode} (name : string) : Prop :=
  name = "" \/ (IsIdentifier name = true /\ IsUpper (DecodeRune name).1 = true).
Definition table_wf {unicode : Unicode} (t : TableDef) : Prop :=
  ObjectKind_valid (TableKind t) = true /\ Operation_valid (Operations t) = true /\
  optional_ident (Schema t) /\ ident (Name t) /\ row_name_wf (RowName t) /\
  Columns t <> [] /\ NoDup (column_names t) /\ Forall (column_wf (VirtualTableModule t)) (Columns t) /\
  listed (column_names t) (PrimaryKey t) /\ options_wf t /\
  NoDup (constraint_names t) /\ Forall ident (constraint_names t) /\
  Forall (unique_wf (column_names t)) (UniqueConstraints t) /\ Forall check_wf (Checks t) /\
  Forall exclusion_wf (ExclusionConstraints t) /\
  NoDup (ix_Name <$> Indexes t) /\ Forall (index_wf (column_names t)) (Indexes t) /\
  Forall (foreign_key_wf (column_names t)) (ForeignKeys t).

(** ** Lemmas: chains of tests *)
Lemma refuse_if_ok b e : refuse_if b e = Ok tt <-> b = false.
Proof. destruct b; naive_solver. Qed.
Lemma as_validation_ok path r : as_validation path r = Ok tt <-> r = Ok tt.
Proof. apply wrap_err_ok. Qed.
Lemma unset_true s : unset s = true <-> s = "".
Proof. apply String.eqb_eq. Qed.
Lemma unset_false s : unset s = false <-> s <> "".
Proof. apply String.eqb_neq. Qed.
Lemma ident_ok s : ValidateIdentifier s = Ok tt <-> ident s.
Proof.
  unfold ident. split; [apply ValidateIdentifier_ok|]. intros (H1 & H2 & H3). unfold ValidateIdentifier.
  rewrite H2, H3. by destruct (String.eqb_spec s "").
Qed.
Lemma optional_ident_ok path s :
  (if unset s then Ok tt else as_validation path (ValidateIdentifier s)) = Ok tt <-> optional_ident s.
Proof.
  unfold optional_ident, unset. rewrite <- ident_ok. destruct (String.eqb_spec s ""); [naive_solver|].
  rewrite as_validation_ok. naive_solver.
Qed.

(** ** Lists of names *)
Lemma name_list_ok known path names seen :
  name_list known path names seen = Ok tt <->
  NoDup names /\ Forall (fun n => n ∉ seen) names /\
  forall i n, names !! i = Some n -> known i n = Ok tt.
Proof.
  unfold name_list. rewrite do_ok.
  assert (forall i (seen : gset string), (exists s, foldi (fun i name seen =>
    check known i name;
    if bool_decide (name ∈ seen) then Err (validationError (indexed path i) "duplicates column %q" [AStr name])
    else Ok ({[ name ]} ∪ seen)) i names seen = Ok s) <->
    NoDup names /\ Forall (fun n => n ∉ seen) names /\
    forall j n, names !! j = Some n -> known (i + j) n = Ok tt) as H.
  2:{ rewrite <- (H 0 seen). naive_solver. }
  clear seen. induction names as [|n names IH]; intros i seen; simpl.
  { split; [intros _|eauto]. split; [constructor|]. split; [constructor|done]. }
  destruct (known i n) as [[]|e] eqn:E.
  2:{ split; [naive_solver|]. intros (_ & _ & H). specialize (H 0 n eq_refl). rewrite Nat.add_0_r in H. congruence. }
  case_bool_decide as Hin.
  { split; [naive_solver|]. intros (_ & H & _). by inversion H. }
  rewrite IH, NoDup_cons, Forall_cons. split.
  - intros (H1 & H2 & H3). rewrite Forall_forall in H2. split_and!.
    + intros Hn. apply (H2 n Hn). set_solver.
    + done.
    + done.
    + apply Forall_forall. intros m Hm. specialize (H2 m Hm). set_solver.
    + intros [|j] m; simpl; [intros [= <-]; by rewrite Nat.add_0_r|].
      rewrite <- Nat.add_succ_comm. apply H3.
  - intros ((Hn & H1) & (_ & H2) & H3). rewrite Forall_forall in H2. split_and!; [done| |].
    + apply Forall_forall. intros m Hm. specialize (H2 m Hm). assert (m <> n) by congruence. set_solver.
    + intros j m Hm. rewrite Nat.add_succ_comm. by apply (H3 (S j)).
Qed.
Lemma unknown_column_ok path columns i name : unknown_column path columns i name = Ok tt <-> name ∈ columns.
Proof. unfold unknown_column. rewrite refuse_if_ok, negb_false_iff. apply bool_decide_eq_true. Qed.
Lemma validateColumnList_ok path names columns required :
  validateColumnList path names (list_to_set columns) required = Ok tt <->
  (required = true -> names <> []) /\ listed columns names.
Proof.
  unfold validateColumnList, listed. rewrite check_ok, refuse_if_ok, name_list_ok, andb_false_iff, length_nil.
  setoid_rewrite unknown_column_ok. rewrite (Forall_lookup (fun n => n ∈ columns)).
  setoid_rewrite elem_of_list_to_set.
  assert (Forall (fun n => n ∉ (∅ : gset string)) names) by (apply Forall_forall; set_solver).
  destruct required; naive_solver.
Qed.
Lemma validateColumnList_required path names columns :
  validateColumnList path names (list_to_set columns) true = Ok tt <-> names <> [] /\ listed columns names.
Proof. rewrite validateColumnList_ok. naive_solver. Qed.
Lemma validateIdentifierList_ok path names :
  validateIdentifierList path names true = Ok tt <-> names <> [] /\ NoDup names /\ Forall ident names.
Proof.
  unfold validateIdentifierList. rewrite check_ok, refuse_if_ok, name_list_ok. simpl. rewrite length_nil.
  setoid_rewrite as_validation_ok. setoid_rewrite ident_ok. rewrite (Forall_lookup ident).
  assert (Forall (fun n => n ∉ (∅ : gset string)) names) by (apply Forall_forall; set_solver). naive_solver.
Qed.
Lemma include_columns_ok path keys names columns :
  include_columns path keys names (list_to_set columns) = Ok tt <-> include_wf columns keys names.
Proof.
  unfold include_columns, include_wf, listed. destruct (Nat.eqb_spec (length names) 0) as [E|_].
  { destruct names; [|done]. split; [|done]. intros _. repeat split; constructor. }
  rewrite name_list_ok. setoid_rewrite unknown_column_ok. setoid_rewrite elem_of_list_to_set.
  rewrite (Forall_lookup (fun n => n ∈ columns)). naive_solver.
Qed.

(** ** Columns *)
Lemma native_ind (P : NativeTypeDef -> Prop) :
  (forall dialect schema name kind args element, (forall e, element = Some e -> P e) ->
     P (MkNative dialect schema name kind args element)) ->
  forall n, P n.
Proof.
  intros H. fix IH 1. intros [dialect schema name kind args [e|]]; apply H; [intros e' [= <-]; apply IH|discriminate].
Qed.
Lemma le_false a b : (a <? b) = false <-> b <= a.
Proof. apply Nat.ltb_ge. Qed.
Lemma native_validate_ok n path depth :
  native_validate n path depth = Ok tt <-> native_wf n /\ native_depth n + depth <= 33.
Proof.
  revert path depth. induction n as [dialect schema name kind args element IH] using native_ind; intros path depth.
  assert (forall p d, match element with Some e => native_validate e p d | None => Ok tt end = Ok tt <->
    match element with Some e => native_wf e /\ native_depth e + d <= 33 | None => True end) as Hel.
  { intros p d. destruct element as [e|]; [by apply IH|done]. }
  cbn [native_validate native_wf native_depth]. rewrite !check_ok, !refuse_if_ok, Hel, le_false.
  rewrite !String.eqb_neq, negb_false_iff. clear Hel IH.
  assert ((if String.eqb schema "" then Ok tt else as_validation (path +:+ ".schema") (ValidateSimpleIdentifier schema)) = Ok tt
    <-> schema = "" \/ ValidateSimpleIdentifier schema = Ok tt) as ->.
  { destruct (String.eqb_spec schema ""); [naive_solver|]. rewrite as_validation_ok. naive_solver. }
  assert ((if String.eqb dialect "postgresql" then as_validation (path +:+ ".name") (ValidateSimpleIdentifier name) else Ok tt) = Ok tt
    <-> (dialect = "postgresql" -> ValidateSimpleIdentifier name = Ok tt)) as ->.
  { destruct (String.eqb_spec dialect "postgresql"); [rewrite as_validation_ok|]; naive_solver. }
  assert (String.eqb dialect "mysql" && one_of [NativeDomain; NativeArray] kind = false <->
    (dialect = "mysql" -> kind <> NativeDomain /\ kind <> NativeArray)) as ->.
  { unfold one_of. simpl. destruct (String.eqb_spec dialect "mysql"), (String.eqb_spec kind NativeDomain), (String.eqb_spec kind NativeArray); naive_solver. }
  assert (String.eqb dialect "postgresql" && String.eqb kind NativeSet = false <-> (dialect = "postgresql" -> kind <> NativeSet)) as ->.
  { destruct (String.eqb_spec dialect "postgresql"), (String.eqb_spec kind NativeSet); naive_solver. }
  assert (one_of native_kinds kind = true -> kind <> "") as Hkind by (intros H ->; discriminate H).
  split.
  - intros (Hd & H1 & H2 & _ & H4 & H5 & H6 & H7 & H8 & H9 & H10 & H11).
    assert (kind = NativeArray <-> element <> None) as Hk.
    { destruct (String.eqb_spec kind NativeArray), element; naive_solver. }
    destruct element as [x|]; [destruct H11|]; (split; [split_and!; tauto|lia]).
  - intros ((H1 & H2 & H4 & H5 & H6 & H7 & Hk & H11) & Hd).
    split_and!; [destruct element; lia|tauto..| | |].
    + destruct (String.eqb_spec kind NativeArray), element; naive_solver.
    + destruct (String.eqb_spec kind NativeArray), element; naive_solver.
    + destruct element; [split; [done|lia]|done].
Qed.

Lemma width_ok (width : option Z) (fixed : bool) :
  match width with Some w => (w <? 0)%Z | None => false end = false /\
  fixed && match width with Some _ => false | None => true end = false <->
  (forall w, width = Some w -> (0 <= w)%Z) /\ (fixed = true -> width <> None).
Proof.
  destruct width as [w|]; rewrite ?Z.ltb_ge, ?andb_false_r, ?andb_true_r; [naive_solver|]. destruct fixed; naive_solver.
Qed.
Lemma column_type_ok path t :
  validColumnType t = true /\ validate_column_type path (Some t) = Ok tt <-> type_wf t.
Proof.
  destruct t as [|u [w|] z| |w f| | | | |p [sc|] u z| |]; simpl; rewrite ?check_ok, ?refuse_if_ok, ?Z.ltb_ge; try naive_solver.
  rewrite width_ok. naive_solver.
Qed.
(** The two checkers of column types in the repository agree. *)
Lemma ValidateColumnType_wf t : ValidateColumnType (Some t) = Ok tt <-> type_wf t.
Proof.
  destruct t as [|u [w|] z| |w f| | | | |p [sc|] u z| |]; simpl; try naive_solver.
  - destruct (Z.ltb_spec w 0); split; [done|lia|done|done].
  - rewrite <- width_ok. destruct (match w with Some _ => _ | None => _ end); [naive_solver|].
    destruct (_ && _); naive_solver.
  - destruct (Z.ltb_spec p 1); [split; [done|lia]|]. destruct (Z.ltb_spec sc 0), (Z.ltb_spec p sc); simpl;
      (split; [first [done|intros _; split; [lia|]; exists sc; split; [done|lia]]|intros (_ & s & [= <-] & ?); done || lia]).
  - destruct (Z.ltb_spec p 1); naive_solver.
Qed.

Lemma validate_table_column_ok virtual path c : validate_table_column virtual path c = Ok tt <-> column_wf virtual c.
Proof.
  unfold validate_table_column, validateNativeColumn, column_wf.
  rewrite !check_ok, !refuse_if_ok, as_validation_ok, ident_ok, optional_ident_ok, !andb_false_iff, !negb_false_iff, eqb_true_iff.
  assert (match NativeType c with Some n => native_validate n (path +:+ ".native_type") 1 | None => Ok tt end = Ok tt <->
    (forall n, NativeType c = Some n -> native_wf n /\ native_depth n <= 32)) as ->.
  { destruct (NativeType c) as [n|]; [|naive_solver]. rewrite native_validate_ok.
    split; [intros [? ?] n' [= <-]; split; [done|lia]|intros H; destruct (H n eq_refl); split; [done|lia]]. }
  assert (unset (GeneratedExpression c) = unset (Column_GeneratedStorage c) <->
    (GeneratedExpression c = "" <-> Column_GeneratedStorage c = "")) as ->.
  { rewrite <- (unset_true (GeneratedExpression c)), <- (unset_true (Column_GeneratedStorage c)).
    destruct (unset (GeneratedExpression c)), (unset (Column_GeneratedStorage c)); intuition congruence. }
  assert (type_supported (Column_Type c) = true /\ match Column_Type c, NativeType c with
      | Some OpaqueType, None => Err (validationError (path +:+ ".native_type") "is required for opaque column types" [])
      | _, _ => Ok tt end = Ok tt /\ validate_column_type path (Column_Type c) = Ok tt <->
    exists t, Column_Type c = Some t /\ type_wf t /\ (t = OpaqueType -> NativeType c <> None)) as Ht.
  { destruct (Column_Type c) as [t|]; [|naive_solver]. split.
    - intros (H1 & H2 & H3). exists t. split; [done|]. split; [by apply (column_type_ok path)|].
      intros ->. by destruct (NativeType c).
    - intros (t' & [= <-] & [H1 H3]%(column_type_ok path) & H2). split; [done|]. split; [|done].
      destruct t, (NativeType c); try done. by destruct H2. }
  rewrite !unset_true, unset_false, <- Ht.
  assert (Hidden c = false \/ virtual <> "" <-> (Hidden c = true -> virtual <> "")) as -> by (destruct (Hidden c); naive_solver).
  destruct (decide (Identity c = "")), (decide (GeneratedExpression c = "")); tauto.
Qed.

(** A loop that records distinct keys in a set, testing each element. *)
Lemma distinct_elements {A} (nm : A -> string) (pre post : nat -> A -> result unit) (dup : nat -> A -> error)
  (P : A -> Prop) l :
  (forall i x, pre i x = Ok tt /\ post i x = Ok tt <-> P x) ->
  forall i (seen : gset string) s,
  foldi (fun i x (seen : gset string) =>
    check pre i x;
    if bool_decide (nm x ∈ seen) then Err (dup i x) else check post i x; Ok ({[ nm x ]} ∪ seen)) i l seen = Ok s <->
  (Forall P l /\ NoDup (nm <$> l) /\ Forall (fun x => nm x ∉ seen) l) /\ s = list_to_set (nm <$> l) ∪ seen.
Proof.
  intros HP i seen s. apply foldi_distinct. clear i seen s l. intros i x seen s. rewrite <- (HP i x).
  destruct (pre i x) as [[]|]; [|naive_solver].
  case_bool_decide; [naive_solver|]. destruct (post i x) as [[]|]; naive_solver.
Qed.

Lemma validate_table_columns_ok virtual l s :
  validate_table_columns virtual l = Ok s <->
  (Forall (column_wf virtual) l /\ NoDup (Column_Name <$> l)) /\ s = list_to_set (Column_Name <$> l).
Proof.
  pose proof (distinct_elements Column_Name (fun i c => validate_table_column virtual (indexed "columns" i) c) (fun _ _ => Ok tt)
    (fun i c => validationError (indexed "columns" i +:+ ".name") "duplicates column %q" [AStr (Column_Name c)])
    (column_wf virtual) l ltac:(intros i x; rewrite <- (validate_table_column_ok virtual (indexed "columns" i) x); naive_solver) 0 ∅ s) as H.
  unfold validate_table_columns. cbv beta in H. rewrite H, union_empty_r_L.
  assert (Forall (fun x => Column_Name x ∉ (∅ : gset string)) l) by (apply Forall_forall; set_solver). naive_solver.
Qed.

(** ** Constraints *)
Lemma key_ok path j k : validate_key path j k = Ok tt <-> key_wf k.
Proof. unfold validate_key, key_wf. by rewrite check_ok, !refuse_if_ok, unset_false, Z.ltb_ge. Qed.
Lemma storage_ok path parameters space :
  storage_parameters path parameters = Ok tt /\ tablespace path space = Ok tt <-> storage_wf parameters space.
Proof.
  unfold storage_parameters, tablespace, storage_wf. rewrite optional_ident_ok.
  rewrite (checki_Forall _ (fun p => p.1 <> "")); [done|]. intros _ p. rewrite refuse_if_ok. apply String.eqb_neq.
Qed.
Lemma collations_ok path c :
  validate_collations path c = Ok tt <-> Forall (fun p => p.1 ∈ uq_Columns c /\ p.2 <> "") (Collations c).
Proof.
  apply checki_Forall. intros _ p. by rewrite check_ok, !refuse_if_ok, unset_false, negb_false_iff, bool_decide_eq_true.
Qed.
Lemma validate_unique_ok columns path c :
  validate_unique (list_to_set columns) path c = Ok tt <-> unique_wf columns c.
Proof.
  unfold validate_unique, unique_wf. rewrite !check_ok, !refuse_if_ok, !negb_false_iff, include_columns_ok, collations_ok.
  rewrite <- (storage_ok path (uq_StorageParameters c) (uq_Tablespace c)).
  assert ((if 0 <? length (uq_Keys c)
           then check refuse_if (0 <? length (uq_Columns c))
                  (validationError (path +:+ ".columns") "must be empty when Keys describes the constraint's keys instead" []);
                checki (validate_key path) 0 (uq_Keys c)
           else validateColumnList (path +:+ ".columns") (uq_Columns c) (list_to_set columns) true) = Ok tt <->
    if decide (uq_Keys c = []) then uq_Columns c <> [] /\ listed columns (uq_Columns c)
    else uq_Columns c = [] /\ Forall key_wf (uq_Keys c)) as ->.
  { destruct (uq_Keys c) as [|k ks]; [|].
    - change (0 <? length []) with false. cbn iota. rewrite validateColumnList_ok, decide_True by done. naive_solver.
    - change (0 <? length (k :: ks)) with true. cbn iota. rewrite decide_False by done.
      rewrite check_ok, refuse_if_ok, length_pos, (checki_Forall _ key_wf); [done|intros; apply key_ok]. }
  tauto.
Qed.
Lemma validate_check_ok path c : validate_check path c = Ok tt <-> check_wf c.
Proof. unfold validate_check, check_wf. by rewrite refuse_if_ok, unset_false. Qed.
Lemma validate_exclusion_ok path c : validate_exclusion path c = Ok tt <-> exclusion_wf c.
Proof.
  unfold validate_exclusion, exclusion_wf. rewrite !check_ok, !refuse_if_ok, length_nil, negb_false_iff.
  rewrite (checki_Forall _ (fun e => el_Expression e <> "" /\ el_Operator e <> "")); [done|].
  intros j e. unfold validate_element. by rewrite check_ok, !refuse_if_ok, !unset_false.
Qed.
Lemma delete_set_ok path k :
  validate_delete_set path k = Ok tt <->
  listed (fk_Columns k) (DeleteSetColumns k) /\
  (DeleteSetColumns k <> [] -> OnDelete k = SetNull \/ OnDelete k = SetDefault).
Proof.
  unfold validate_delete_set, listed. destruct (Nat.eqb_spec (length (DeleteSetColumns k)) 0) as [E|E].
  { destruct (DeleteSetColumns k); [|done]. split; [|done]. intros _. repeat split; try constructor. done. }
  rewrite check_ok, refuse_if_ok, negb_false_iff, name_list_ok.
  setoid_rewrite refuse_if_ok. setoid_rewrite negb_false_iff. setoid_rewrite bool_decide_eq_true.
  rewrite (Forall_lookup (fun n => n ∈ fk_Columns k)).
  assert (one_of [SetNull; SetDefault] (OnDelete k) = true <-> OnDelete k = SetNull \/ OnDelete k = SetDefault) as ->.
  { unfold one_of. simpl. rewrite orb_false_r, orb_true_iff, !String.eqb_eq. naive_solver. }
  assert (Forall (fun n => n ∉ (∅ : gset string)) (DeleteSetColumns k)) by (apply Forall_forall; set_solver).
  assert (DeleteSetColumns k <> []) by (intros E'; by rewrite E' in E). naive_solver.
Qed.
Lemma validate_foreign_key_ok columns path k :
  validate_foreign_key (list_to_set columns) path k = Ok tt <-> foreign_key_wf columns k.
Proof.
  unfold validate_foreign_key, foreign_key_wf.
  rewrite !check_ok, !refuse_if_ok, !negb_false_iff, optional_ident_ok, as_validation_ok, ident_ok, Nat.eqb_eq,
    validateColumnList_required, validateIdentifierList_ok, delete_set_ok.
  assert (fk_Columns k <> [] -> length (fk_Columns k) = length (ReferencedColumns k) -> ReferencedColumns k <> []).
  { intros H1 H2 H3. rewrite H3 in H2. by destruct (fk_Columns k). }
  tauto.
Qed.
Lemma index_key_ok path j k :
  validate_index_key path j k = Ok tt <-> key_wf k /\ NullsOrder_valid (ik_NullsOrder k) = true.
Proof. unfold validate_index_key. by rewrite check_ok, key_ok, refuse_if_ok, negb_false_iff. Qed.
Lemma index_keys_ok columns path i :
  (if 0 <? length (ix_Keys i) then
     check refuse_if (0 <? length (ix_Columns i))
       (validationError (path +:+ ".columns") "must be empty when Keys describes the index's keys instead" []);
     check refuse_if (0 <? length (Expressions i))
       (validationError (path +:+ ".expressions") "must be empty when Keys describes the index's keys instead" []);
     checki (validate_index_key path) 0 (ix_Keys i)
   else if 0 <? length (Expressions i) then
     check refuse_if (0 <? length (ix_Columns i))
       (validationError (path +:+ ".columns") "must be empty when Expressions describes the index's keys instead" []);
     checki (fun j e => refuse_if (unset e) (validationError (indexed (path +:+ ".expressions") j) "must not be empty" []))
       0 (Expressions i)
   else validateColumnList (path +:+ ".columns") (ix_Columns i) (list_to_set columns) true) = Ok tt <->
  if decide (ix_Keys i = [])
  then if decide (Expressions i = []) then ix_Columns i <> [] /\ listed columns (ix_Columns i)
       else ix_Columns i = [] /\ Forall (fun e => e <> "") (Expressions i)
  else ix_Columns i = [] /\ Expressions i = [] /\
       Forall (fun k => key_wf k /\ NullsOrder_valid (ik_NullsOrder k) = true) (ix_Keys i).
Proof.
  destruct (ix_Keys i) as [|k ks].
  - change (0 <? length []) with false. cbn iota. rewrite (decide_True (P := [] = [])) by done.
    destruct (Expressions i) as [|e es].
    + change (0 <? length []) with false. cbn iota. by rewrite validateColumnList_required, decide_True.
    + change (0 <? length (e :: es)) with true. cbn iota. rewrite decide_False by done.
      rewrite check_ok, refuse_if_ok, length_pos, (checki_Forall _ (fun e => e <> "")); [done|].
      intros j x. by rewrite refuse_if_ok, unset_false.
  - change (0 <? length (k :: ks)) with true. cbn iota. rewrite decide_False by done.
    rewrite !check_ok, !refuse_if_ok, !length_pos, (checki_Forall _ _ _ (index_key_ok path)). done.
Qed.
Lemma validate_index_ok columns path i :
  ident (ix_Name i) /\ validate_index (list_to_set columns) path i = Ok tt <-> index_wf columns i.
Proof.
  unfold validate_index, index_wf. rewrite !check_ok, !refuse_if_ok, include_columns_ok, index_keys_ok.
  rewrite <- (storage_ok path (ix_StorageParameters i) (ix_Tablespace i)).
  destruct (ix_ReplicaIdentity i), (ix_NullsNotDistinct i), (ix_Unique i); simpl; naive_solver.
Qed.
Lemma validateIndexes_ok columns l s :
  validateIndexes l (list_to_set columns) = Ok s <->
  (Forall (index_wf columns) l /\ NoDup (ix_Name <$> l)) /\ s = list_to_set (ix_Name <$> l).
Proof.
  pose proof (distinct_elements ix_Name
    (fun i x => as_validation (indexed "indexes" i +:+ ".name") (ValidateIdentifier (ix_Name x)))
    (fun i x => validate_index (list_to_set columns) (indexed "indexes" i) x)
    (fun i x => validationError (indexed "indexes" i +:+ ".name") "duplicates index %q" [AStr (ix_Name x)])
    (index_wf columns) l
    ltac:(intros i x; rewrite <- (validate_index_ok columns (indexed "indexes" i) x), as_validation_ok, ident_ok; done) 0 ∅ s) as H.
  unfold validateIndexes. cbv beta in H. rewrite H, union_empty_r_L.
  assert (Forall (fun x => ix_Name x ∉ (∅ : gset string)) l) by (apply Forall_forall; set_solver). naive_solver.
Qed.

(** ** Names that constraints share *)
Definition stated (names : list string) : list string := base.filter (fun n => n <> "") names.
Lemma check_claim {A} path name names (k : gmap string string -> result A) : name <> "" ->
  match claim_name path name names with Ok names' => k names' | Err e => Err e end =
  match ValidateIdentifier name with
  | Ok _ => match names !! name with
            | Some owner => Err (validationError (path +:+ ".name") "duplicates constraint %q declared at %s" [AStr name; AStr owner])
            | None => k (<[name := path]> names)
            end
  | Err e => Err (validationError (path +:+ ".name") "%s" [AErr e])
  end.
Proof.
  intros Hn. unfold claim_name. destruct (String.eqb_spec name ""); [done|]. unfold as_validation.
  destruct (ValidateIdentifier name) as [[]|]; simpl; [|done]. by destruct (names !! name).
Qed.
Lemma validate_named_ok {A} kind (name : A -> string) validate (P : A -> Prop) l names :
  (forall path c, validate path c = Ok tt <-> P c) ->
  match validate_named kind name validate l names with
  | Ok out => (Forall P l /\ Forall ident (stated (name <$> l)) /\ NoDup (stated (name <$> l)) /\
               Forall (fun n => n ∉ dom names) (stated (name <$> l))) /\
              dom out = list_to_set (stated (name <$> l)) ∪ dom names
  | Err _ => ~ (Forall P l /\ Forall ident (stated (name <$> l)) /\ NoDup (stated (name <$> l)) /\
               Forall (fun n => n ∉ dom names) (stated (name <$> l)))
  end.
Proof.
  intros HP. unfold validate_named. generalize 0. revert names. induction l as [|c l IH]; intros names i.
  { simpl. split; [|set_solver]. repeat split; constructor. }
  cbn [foldi fmap list_fmap]. unfold stated. rewrite filter_cons. fold (stated (name <$> l)).
  destruct (String.eqb_spec (name c) "") as [E|E].
  - rewrite decide_False by naive_solver. unfold claim_name at 1. rewrite E. simpl. specialize (HP (indexed kind i) c).
    destruct (validate (indexed kind i) c) as [[]|]; [|rewrite Forall_cons; naive_solver].
    specialize (IH names (S i)). destruct (foldi _ (S i) l names); rewrite Forall_cons; naive_solver.
  - rewrite decide_True by done. rewrite check_claim by done.
    destruct (ValidateIdentifier (name c)) as [[]|] eqn:Ei.
    2:{ intros (_ & H & _). apply Forall_inv in H. apply ident_ok in H. congruence. }
    apply ident_ok in Ei. destruct (names !! name c) as [owner|] eqn:En.
    { intros (_ & _ & _ & H). apply Forall_inv in H. apply H. by apply elem_of_dom_2 in En. }
    apply not_elem_of_dom in En. specialize (HP (indexed kind i) c).
    destruct (validate (indexed kind i) c) as [[]|]; [|rewrite (Forall_cons P); naive_solver].
    specialize (IH (<[name c:=indexed kind i]> names) (S i)).
    rewrite dom_insert_L in IH.
    assert (Forall (fun n => n ∉ {[name c]} ∪ dom names) (stated (name <$> l)) <->
      (name c ∉ stated (name <$> l)) /\ Forall (fun n => n ∉ dom names) (stated (name <$> l))) as Hd.
    { rewrite !Forall_forall. split.
      - intros H. split; [intros Hin; apply (H _ Hin); set_solver|]. intros n Hn. specialize (H n Hn). set_solver.
      - intros [H1 H2] n Hn. specialize (H2 n Hn). assert (n <> name c) by congruence. set_solver. }
    destruct (foldi _ (S i) l _); rewrite !Forall_cons, NoDup_cons; [|tauto].
    destruct IH as [H ->]. split; [tauto|set_solver].
Qed.

(** ** The descriptor *)
Lemma options_ok t : validate_table_options t = Ok tt <-> options_wf t.
Proof.
  unfold validate_table_options, options_wf. rewrite !check_ok, !refuse_if_ok, negb_false_iff.
  assert ((if length (PrimaryKey t) =? 0
         then check refuse_if (PrimaryKeyAutoincrement t)
                (validationError "table.primary_key_autoincrement" "must not be set without a primary key" []);
              refuse_if (negb (unset (PrimaryKeyOnConflict t)))
                (validationError "table.primary_key_on_conflict" "must not be set without a primary key" [])
         else Ok tt) = Ok tt <->
    (PrimaryKey t = [] -> PrimaryKeyAutoincrement t = false /\ PrimaryKeyOnConflict t = "")) as ->.
  { destruct (PrimaryKey t); simpl; [|naive_solver].
    rewrite check_ok, !refuse_if_ok, negb_false_iff, unset_true. naive_solver. }
  unfold unset at 1. destruct (String.eqb_spec (VirtualTableModule t) "") as [E|E].
  - rewrite decide_True, refuse_if_ok, length_pos by done. done.
  - rewrite decide_False by done. rewrite !check_ok, !refuse_if_ok, !length_pos. done.
Qed.

Section Descriptor.
Context {unicode : Unicode}.

Lemma row_name_ok name :
  (if unset name then Ok tt else as_validation "table.row_name" (validateExportedGoIdentifier name)) = Ok tt <->
  row_name_wf name.
Proof.
  unfold row_name_wf, unset. destruct (String.eqb_spec name ""); [naive_solver|].
  rewrite as_validation_ok. unfold validateExportedGoIdentifier.
  rewrite check_ok, !refuse_if_ok, !negb_false_iff. naive_solver.
Qed.

(** One kind of constraint, before the kinds that follow it. *)
Lemma stage {A} (P : A -> Prop) kind (name : A -> string) validate l used names (Q : gmap string string -> Prop)
  (F : list string -> Prop) :
  (forall path c, validate path c = Ok tt <-> P c) -> dom names = list_to_set used ->
  (forall out used', dom out = list_to_set used' -> Q out <-> F used') ->
  (exists out, validate_named kind name validate l names = Ok out /\ Q out) <->
  (Forall P l /\ Forall ident (stated (name <$> l)) /\ NoDup (stated (name <$> l)) /\
   Forall (fun n => n ∉ used) (stated (name <$> l))) /\ F (stated (name <$> l) ++ used).
Proof.
  intros HP Hn HQ. pose proof (validate_named_ok kind name validate P l names HP) as K.
  assert (Forall (fun n => n ∉ dom names) (stated (name <$> l)) <-> Forall (fun n => n ∉ used) (stated (name <$> l))) as E.
  { rewrite Hn, !Forall_forall. by setoid_rewrite elem_of_list_to_set. }
  destruct (validate_named kind name validate l names) as [out|e].
  - destruct K as [K Hdom]. rewrite <- (HQ out); [naive_solver|]. by rewrite list_to_set_app_L, <- Hn.
  - naive_solver.
Qed.

Lemma constraints_ok columns t :
  (exists names, validateNamedColumnLists (UniqueConstraints t) (list_to_set columns) ∅ = Ok names /\
   exists names', validateChecks (Checks t) names = Ok names' /\
   exists names'', validateExclusionConstraints (ExclusionConstraints t) names' = Ok names'' /\
   exists out, validateForeignKeys (ForeignKeys t) (list_to_set columns) names'' = Ok out /\ True) <->
  NoDup (constraint_names t) /\ Forall ident (constraint_names t) /\
  Forall (unique_wf columns) (UniqueConstraints t) /\ Forall check_wf (Checks t) /\
  Forall exclusion_wf (ExclusionConstraints t) /\ Forall (foreign_key_wf columns) (ForeignKeys t).
Proof.
  unfold constraint_names. rewrite !filter_app, !Forall_app, !NoDup_app.
  etransitivity.
  { apply (stage (unique_wf columns) _ _ _ _ [] ∅); [apply validate_unique_ok|done|]. intros out1 used1 Hu1.
    apply (stage check_wf _ _ _ _ used1 out1); [apply validate_check_ok|done|]. intros out2 used2 Hu2.
    apply (stage exclusion_wf _ _ _ _ used2 out2); [apply validate_exclusion_ok|done|]. intros out3 used3 Hu3.
    apply (stage (foreign_key_wf columns) _ _ _ _ used3 out3 (fun _ => True) (fun _ => True));
      [apply validate_foreign_key_ok|done|done]. }
  cbv beta. fold (stated (uq_Name <$> UniqueConstraints t)) (stated (ck_Name <$> Checks t))
    (stated (ex_Name <$> ExclusionConstraints t)) (stated (fk_Name <$> ForeignKeys t)).
  rewrite !app_nil_r, !Forall_forall. repeat setoid_rewrite elem_of_app.
  set (s1 := stated (uq_Name <$> _)). set (s2 := stated (ck_Name <$> _)).
  set (s3 := stated (ex_Name <$> _)). set (s4 := stated (fk_Name <$> _)). clearbody s1 s2 s3 s4.
  assert (forall x, x ∈ s1 -> x ∉ []) by (intros x _; apply not_elem_of_nil).
  split; intros K; destruct_and! K; split_and!; try done; try (intros x Hx Hy; naive_solver).
Qed.

Lemma indexes_exist columns l :
  (exists s, validateIndexes l (list_to_set columns) = Ok s) <->
  Forall (index_wf columns) l /\ NoDup (ix_Name <$> l).
Proof. setoid_rewrite validateIndexes_ok. naive_solver. Qed.
(** The loops over constraints and indexes, in the source's order. *)
Lemma tail_ok t (columns : gset string) :
  (do names <- validateNamedColumnLists (UniqueConstraints t) columns ∅;
   do names <- validateChecks (Checks t) names;
   do names <- validateExclusionConstraints (ExclusionConstraints t) names;
   do _ <- validateIndexes (Indexes t) columns;
   do _ <- validateForeignKeys (ForeignKeys t) columns names;
   Ok tt) = Ok tt <->
  (exists names, validateNamedColumnLists (UniqueConstraints t) columns ∅ = Ok names /\
   exists names', validateChecks (Checks t) names = Ok names' /\
   exists names'', validateExclusionConstraints (ExclusionConstraints t) names' = Ok names'' /\
   exists out, validateForeignKeys (ForeignKeys t) columns names'' = Ok out /\ True) /\
  exists s, validateIndexes (Indexes t) columns = Ok s.
Proof. repeat setoid_rewrite do_ok. naive_solver. Qed.

Lemma Table_Validate_ok t : Table_Validate t = Ok tt <-> table_wf t.
Proof.
  unfold Table_Validate, table_wf, column_names.
  rewrite !check_ok, !refuse_if_ok, !negb_false_iff, optional_ident_ok, as_validation_ok, ident_ok, row_name_ok, length_nil.
  rewrite do_ok. setoid_rewrite validate_table_columns_ok.
  assert (forall s (K : gset string -> Prop), (exists x, (s /\ x = list_to_set (Column_Name <$> Columns t)) /\ K x) <->
    s /\ K (list_to_set (Column_Name <$> Columns t))) as -> by (intros s K; naive_solver).
  rewrite !check_ok, options_ok, validateColumnList_ok, tail_ok, constraints_ok, indexes_exist. naive_solver.
Qed.

(** C26 Valid descriptors. [TableDef.Validate] accepts a descriptor exactly when
    it is well formed: its identifiers are legal, its columns are named apart
    and each is consistent in itself (type parameters, generated, identity,
    native and hidden columns), keys, indexes, unique constraints, includes and
    foreign keys list existing columns without repetition, constraints of all
    kinds share one name space without a clash, indexes are named apart, and a
    virtual table declares nothing that belongs to its module.  What
    [NewTableDef] returns is well formed, and the checker of column metadata,
    [ValidateColumnType], accepts exactly the types a column may have. *)
Theorem Validate_well_formed :
  (forall t, Table_Validate t = Ok tt <-> table_wf t) /\
  (forall name opts t, NewTableDef name opts = Ok t -> table_wf t /\ Name t = name) /\
  (forall t, ValidateColumnType (Some t) = Ok tt <-> type_wf t).
Proof.
  split; [exact Table_Validate_ok|]. split; [|exact ValidateColumnType_wf].
  intros name opts t. unfold NewTableDef. rewrite do_ok. intros (b & _ & [H [= <-]]%check_ok).
  split; [by apply Table_Validate_ok|done].
Qed.
End Descriptor.

Definition sample_opts : list (option TableOption) :=
  [Some (Integer "id" []); Some (Text "email" [Some (Width_ 120)]); Some (PrimaryKey_ ["id"]);
   Some (UniqueNamed "email_key" ["email"]);
   Some (ForeignKey "id" [Some (References "accounts" ["id"]); Some (OnDelete_ Cascade)])].
Lemma Validate_well_formed_witness :
  exists t, NewTableDef "users" sample_opts = Ok t /\ table_wf t /\ column_names t = ["id"; "email"].
Proof.
  destruct (NewTableDef "users" sample_opts) as [t|e] eqn:E; [|discriminate E].
  exists t. split; [reflexivity|]. split.
  - exact (proj1 (proj1 (proj2 Validate_well_formed) "users" sample_opts t E)).
  - injection E as <-. reflexivity.
Defined.
