(* ===== verification/Dialect.v ===== *)
(** * Dialect: [dialect/dialect.go]

    Identifier quoting, placeholders, DDL type names, capabilities and the
    three built-in dialects.  [Dialect] is the Go interface as a record of
    operations: the renderer is written and proved against it, and
    [builtin_dialect] implements it from the [builtin] struct.  The optional
    extension interfaces are option fields ([IdentifierComparer]) or
    functions of the struct ([NativeTypeNamer]). *)

From S2P Require Import Prelude GoText SqlScan Schema.
Open Scope string_scope.
Open Scope list_scope.
Open Scope nat_scope.

(** ** Capabilities: one bit each *)
Definition capability (bit : N) : N := N.shiftl 1 bit.
Definition CapabilityReturning : N := capability 0.
Definition CapabilityUpsert : N := capability 1.
Definition CapabilityConflictTarget : N := capability 2.
Definition CapabilityDefaultValues : N := capability 3.
Definition CapabilityEmptyInsert : N := capability 4.
Definition CapabilityDefaultValuesUpsert : N := capability 5.
Definition CapabilitySubqueryLimit : N := capability 6.
Definition CapabilityWriteSubqueryTarget : N := capability 7.
Definition CapabilityQualifiedReference : N := capability 8.
Definition CapabilityQualifiedIndexTarget : N := capability 9.
Definition CapabilityQualifiedIndexName : N := capability 10.
Definition CapabilityPartialIndex : N := capability 11.
Definition CapabilityMatchOperator : N := capability 12.
Definition CapabilityAggregateFilter : N := capability 13.
Definition CapabilitySelectForUpdate : N := capability 14.
Definition CapabilitySelectForShare : N := capability 15.
Definition CapabilitySelectLockOf : N := capability 16.
Definition CapabilitySelectLockNoWait : N := capability 17.
Definition CapabilitySelectLockSkipLocked : N := capability 18.
Definition CapabilityUpsertConflictWhere : N := capability 19.
Definition CapabilityUpsertUpdateWhere : N := capability 20.
Definition CapabilitySavepoint : N := capability 21.
Definition lor_all (l : list N) : N := fold_right N.lor 0%N l.

Inductive UpsertStyle := UpsertUnsupported | UpsertOnConflict | UpsertDuplicateKey.
#[export] Instance UpsertStyle_eq_dec : EqDecision UpsertStyle.
Proof. solve_decision. Defined.

(** ** The interface *)
Record Dialect := MkDialect {
  d_Name : string;
  d_QuoteIdentifier : string -> result string;
  d_Placeholder : Z -> result string;
  d_TypeName : ColumnDef -> result string;
  d_UpsertStyle : UpsertStyle;
  d_Supports : N -> bool;
  d_Comparer : option (string -> string -> bool);
  (** [NativeTypeNamer], when the dialect implements it. *)
  d_NativeTypeName : option (NativeTypeDef -> result (string * bool)) }.

Definition IdentifiersEqual (d : Dialect) (left right : string) : bool :=
  match d_Comparer d with
  | Some equal => equal left right
  | None => String.eqb left right
  end.

(** ** The [builtin] struct and its methods *)
Record builtin := MkBuiltin {
  name : string;
  quote : ascii;
  placeholder : Z -> string;
  upsert : UpsertStyle;
  capabilities : N;
  types : gmap string string;
  decimalName : string;
  maxPrecision : Z;
  maxScale : Z;
  unsignedInteger : string;
  varcharText : bool }.

Definition dialect_error (d : builtin) (format : string) (args : list err_arg) : error :=
  Errorf format (AStr (name d) :: args).

Definition QuoteIdentifier (d : builtin) (ident : string) : result string :=
  match ValidateIdentifier ident with
  | Err e => Err (dialect_error d "dialect %s: invalid identifier: %w" [AErr e])
  | Ok _ =>
      let q := str1 (quote d) in
      Ok (q +:+ ReplaceAll ident q (q +:+ q) +:+ q)
  end.

Definition Placeholder (d : builtin) (position : Z) : result string :=
  if (position <? 1)%Z
  then Err (dialect_error d "dialect %s: placeholder position must be positive" [])
  else Ok (placeholder d position).

Definition unsignedTypeName (d : builtin) (column : ColumnDef) : result string :=
  if String.eqb (unsignedInteger d) ""
  then Err (dialect_error d "dialect %s: unsigned integer column %q cannot be represented: this dialect has no unsigned integer type, and rendering the column signed would narrow the values it permits" [AStr (Column_Name column)])
  else Ok (unsignedInteger d).

Definition map_get (m : gmap string string) (k : string) : string :=
  match m !! k with Some v => v | None => "" end.

Definition textTypeName (d : builtin) (width : option Z) (fixed : bool) : string :=
  match width with
  | None => map_get (types d) "text"
  | Some w =>
      if negb (varcharText d) then map_get (types d) "text"
      else if fixed then "CHAR(" +:+ Itoa w +:+ ")"
      else "VARCHAR(" +:+ Itoa w +:+ ")"
  end.

Definition decimalTypeName (d : builtin) (column : ColumnDef) (precision : Z) (scale : option Z)
  : result string :=
  match scale with
  | None => Err (dialect_error d "dialect %s: decimal column %q states no scale" [AStr (Column_Name column)])
  | Some sc =>
      if (maxPrecision d =? 0)%Z && (maxScale d =? 0)%Z then Ok (decimalName d)
      else if (maxPrecision d <? precision)%Z
      then Err (dialect_error d "dialect %s: decimal precision %d exceeds the maximum of %d" [AInt precision; AInt (maxPrecision d)])
      else if (maxScale d <? sc)%Z
      then Err (dialect_error d "dialect %s: decimal scale %d exceeds the maximum of %d" [AInt sc; AInt (maxScale d)])
      else Ok (decimalName d +:+ "(" +:+ Itoa precision +:+ "," +:+ Itoa sc +:+ ")")
  end.

Definition TypeName (d : builtin) (column : ColumnDef) : result string :=
  let by_kind t :=
    match types d !! Kind t with
    | Some n => Ok n
    | None => Err (dialect_error d "dialect %s: unsupported column type %q" [AStr (Kind t)])
    end in
  match Column_Type column with
  | None => Err (dialect_error d "dialect %s: unsupported nil column type" [])
  | Some t =>
      match t with
      | IntegerType unsigned _ _ => if unsigned then unsignedTypeName d column else by_kind t
      | DecimalType precision scale _ _ => decimalTypeName d column precision scale
      | TextType width fixed => Ok (textTypeName d width fixed)
      | BooleanType | FloatType | BytesType | TimeType | JSONType | UUIDType => by_kind t
      | OpaqueType => Err (dialect_error d "dialect %s: unsupported column type %T" [AStr "schema.OpaqueType"])
      | ExternalType go_type _ => Err (dialect_error d "dialect %s: unsupported column type %T" [AStr go_type])
      end
  end.

Definition sqlite_names : list string :=
  ["INT"; "INTEGER"; "TINYINT"; "SMALLINT"; "MEDIUMINT"; "BIGINT"; "INT2"; "INT8";
   "CHAR"; "CHARACTER"; "VARCHAR"; "VARYING CHARACTER"; "NCHAR"; "NATIVE CHARACTER"; "NVARCHAR"; "TEXT"; "CLOB";
   "BLOB"; "REAL"; "DOUBLE"; "FLOAT"; "NUMERIC"; "DECIMAL"; "BOOLEAN"; "DATE";
   "DATETIME"; "TIME"; "JSON"].
Definition sqliteNativeNameUnquoted (value : string) : bool :=
  bool_decide (ToUpper (TrimSpace value) ∈ sqlite_names).

(** The loops over the runes of [value] and [argument] accept ASCII
    characters only, so they are loops over bytes. *)
Definition declaration_char (c : ascii) : bool :=
  ascii_letter c || is_digit c || Ascii.eqb c "_" || Ascii.eqb c " " || Ascii.eqb c dquote.
Definition decimal_digits (s : string) : bool := str_forallb is_digit s.
Definition sqliteNativeDeclarationSupported (value : string) (arguments : list string) : bool :=
  let value := TrimSpace value in
  if String.eqb value "" then false
  else str_forallb declaration_char value
       && forallb (fun a => negb (String.eqb a "") && decimal_digits a) arguments.

(** [NativeTypeName]: the name, and whether the dialect supports the type. *)
Definition supported (r : result string) : result (string * bool) :=
  match r with Ok n => Ok (n, true) | Err e => Err e end.

Definition qualified_native (d : builtin) (n : NativeTypeDef) : result string :=
  if String.eqb (Native_Schema n) "" then QuoteIdentifier d (Native_Name n)
  else do schemaName <- QuoteIdentifier d (Native_Schema n);
       do nm <- QuoteIdentifier d (Native_Name n);
       Ok (schemaName +:+ "." +:+ nm).

Definition mysql_literal (value : string) : string :=
  let value := ReplaceAll value (str1 backslash) (str1 backslash +:+ str1 backslash) in
  "'" +:+ ReplaceAll value "'" "''" +:+ "'".

Fixpoint NativeTypeName (d : builtin) (n : NativeTypeDef) {struct n} : result (string * bool) :=
  let kind := Native_Kind n in
  let args := Native_Arguments n in
  if negb (String.eqb (Native_Dialect n) (name d)) then Ok ("", false)
  else if String.eqb (Native_Name n) ""
  then Err (dialect_error d "dialect %s: native type name must not be empty" [])
  else if String.eqb kind NativeOther || String.eqb kind NativeBuiltin then
    if String.eqb (name d) "sqlite" then
      if negb (sqliteNativeDeclarationSupported (Native_Name n) args) then Ok ("", false)
      else match args with
      | [] => if sqliteNativeNameUnquoted (Native_Name n) then Ok (Native_Name n, true)
              else supported (QuoteIdentifier d (Native_Name n))
      | _ => if negb (sqliteNativeNameUnquoted (Native_Name n)) then Ok ("", false)
             else Ok (Native_Name n +:+ "(" +:+ Join args ", " +:+ ")", true)
      end
    else if String.eqb (name d) "postgresql" && String.eqb kind NativeBuiltin && (0 <? length args) then
      match args with
      | [a] =>
          if String.eqb a "" then Ok ("", false)
          else if negb (decimal_digits a) then Ok ("", false)
          else if bool_decide (Native_Name n ∉ ["time"; "timetz"; "timestamp"; "timestamptz"]) then Ok ("", false)
          else do nm <- qualified_native d n; Ok (nm +:+ "(" +:+ a +:+ ")", true)
      | _ => Ok ("", false)
      end
    else supported (qualified_native d n)
  else if String.eqb kind NativeArray then
    match Native_Element n with
    | None => Err (dialect_error d "dialect %s: native array lacks an element type" [])
    | Some el =>
        if negb (String.eqb (name d) "postgresql") then Ok ("", false)
        else match NativeTypeName d el with
             | Err e => Err e
             | Ok (element, true) => Ok (element +:+ "[]", true)
             | Ok (_, false) => Ok ("", false)
             end
    end
  else if String.eqb kind NativeEnum || String.eqb kind NativeSet then
    if negb (String.eqb (name d) "mysql") then
      if String.eqb kind NativeEnum && String.eqb (name d) "postgresql"
      then supported (qualified_native d n)
      else Ok ("", false)
    else
      let nm := if String.eqb kind NativeSet then "SET" else "ENUM" in
      Ok (nm +:+ "(" +:+ Join (map mysql_literal args) ", " +:+ ")", true)
  else supported (qualified_native d n).

Definition d_Supports_bits (d : builtin) (c : N) : bool := (N.land (capabilities d) c =? c)%N.

Definition dollarPlaceholder (position : Z) : string := "$" +:+ Itoa position.
Definition questionPlaceholder (_ : Z) : string := "?".

(** [sqliteBuiltin.IdentifiersEqual]: ASCII case folding, byte by byte. *)
Fixpoint fold_equal (left right : string) : bool :=
  match left, right with
  | String a l, String b r => Ascii.eqb (lower a) (lower b) && fold_equal l r
  | _, _ => true
  end.
Definition sqliteIdentifiersEqual (left right : string) : bool :=
  if negb (String.length left =? String.length right) then false else fold_equal left right.

Definition builtin_dialect (d : builtin) (comparer : option (string -> string -> bool)) : Dialect :=
  {| d_Name := name d; d_QuoteIdentifier := QuoteIdentifier d; d_Placeholder := Placeholder d;
     d_TypeName := TypeName d; d_UpsertStyle := upsert d; d_Supports := d_Supports_bits d;
     d_Comparer := comparer; d_NativeTypeName := Some (NativeTypeName d) |}.

(** ** The three dialects *)
Definition type_map (l : list (string * string)) : gmap string string := list_to_map l.

Definition postgresql_builtin : builtin :=
  {| name := "postgresql"; quote := dquote; placeholder := dollarPlaceholder; upsert := UpsertOnConflict;
     capabilities := lor_all [CapabilityReturning; CapabilityUpsert; CapabilityConflictTarget; CapabilityDefaultValues; CapabilityDefaultValuesUpsert; CapabilitySubqueryLimit; CapabilityWriteSubqueryTarget; CapabilityQualifiedReference; CapabilityQualifiedIndexTarget; CapabilityPartialIndex; CapabilityAggregateFilter; CapabilitySelectForUpdate; CapabilitySelectForShare; CapabilitySelectLockOf; CapabilitySelectLockNoWait; CapabilitySelectLockSkipLocked; CapabilityUpsertConflictWhere; CapabilityUpsertUpdateWhere; CapabilitySavepoint];
     decimalName := "NUMERIC"; maxPrecision := 1000; maxScale := 1000;
     unsignedInteger := ""; varcharText := true;
     types := type_map [("boolean", "BOOLEAN"); ("integer", "BIGINT"); ("float", "DOUBLE PRECISION");
                        ("text", "TEXT"); ("bytes", "BYTEA"); ("time", "TIMESTAMPTZ"); ("json", "JSONB");
                        ("uuid", "UUID")] |}.
Definition PostgreSQL : Dialect := builtin_dialect postgresql_builtin None.

Definition mysql_builtin : builtin :=
  {| name := "mysql"; quote := backquote; placeholder := questionPlaceholder; upsert := UpsertDuplicateKey;
     capabilities := lor_all [CapabilityUpsert; CapabilityDefaultValuesUpsert; CapabilityEmptyInsert; CapabilityQualifiedReference; CapabilityQualifiedIndexTarget; CapabilitySelectForUpdate; CapabilitySelectForShare; CapabilitySelectLockOf; CapabilitySelectLockNoWait; CapabilitySelectLockSkipLocked; CapabilitySavepoint];
     decimalName := "DECIMAL"; maxPrecision := 65; maxScale := 30;
     unsignedInteger := "BIGINT UNSIGNED"; varcharText := true;
     types := type_map [("boolean", "BOOLEAN"); ("integer", "BIGINT"); ("float", "DOUBLE");
                        ("text", "TEXT"); ("bytes", "BLOB"); ("time", "DATETIME"); ("json", "JSON");
                        ("uuid", "CHAR(36)")] |}.
Definition MySQL : Dialect := builtin_dialect mysql_builtin None.

Definition sqlite_builtin : builtin :=
  {| name := "sqlite"; quote := dquote; placeholder := questionPlaceholder; upsert := UpsertOnConflict;
     capabilities := lor_all [CapabilityReturning; CapabilityUpsert; CapabilityConflictTarget; CapabilityDefaultValues; CapabilitySubqueryLimit; CapabilityWriteSubqueryTarget; CapabilityQualifiedIndexName; CapabilityPartialIndex; CapabilityMatchOperator; CapabilityAggregateFilter; CapabilityUpsertConflictWhere; CapabilityUpsertUpdateWhere; CapabilitySavepoint];
     decimalName := "TEXT"; maxPrecision := 0; maxScale := 0;
     unsignedInteger := ""; varcharText := false;
     types := type_map [("boolean", "INTEGER"); ("integer", "INTEGER"); ("float", "REAL");
                        ("text", "TEXT"); ("bytes", "BLOB"); ("time", "TEXT"); ("json", "TEXT");
                        ("uuid", "TEXT")] |}.
Definition SQLite : Dialect := builtin_dialect sqlite_builtin (Some sqliteIdentifiersEqual).

(** ** Quoting *)
Fixpoint double (q : ascii) (s : string) : string :=
  match s with
  | "" => ""
  | String c s' => if Ascii.eqb c q then String q (String q (double q s')) else String c (double q s')
  end.

Lemma eqb_sym (a b : ascii) : Ascii.eqb a b = Ascii.eqb b a.
Proof. destruct (Ascii.eqb_spec a b), (Ascii.eqb_spec b a); congruence. Qed.

Lemma ReplaceAll_double q s : ReplaceAll s (str1 q) (str1 q +:+ str1 q) = double q s.
Proof.
  unfold ReplaceAll. induction s as [|c s IH]; [done|]. cbn [replace_from double].
  replace (HasPrefix (String c s) (str1 q)) with (Ascii.eqb c q) by (cbn; by rewrite andb_true_r, eqb_sym).
  change (String.length (str1 q) - 1) with 0. by destruct (Ascii.eqb c q); rewrite IH.
Qed.

Lemma QuoteIdentifier_ok d ident text :
  QuoteIdentifier d ident = Ok text <->
  ValidateIdentifier ident = Ok tt /\
  text = String (quote d) (double (quote d) ident +:+ str1 (quote d)).
Proof.
  unfold QuoteIdentifier. destruct (ValidateIdentifier ident) as [[]|]; [|naive_solver].
  rewrite ReplaceAll_double. simpl. naive_solver.
Qed.

Lemma double_inj q s1 s2 r1 r2 :
  next_is q r1 = false -> next_is q r2 = false ->
  double q s1 +:+ String q r1 = double q s2 +:+ String q r2 -> s1 = s2 /\ r1 = r2.
Proof.
  intros H1 H2. revert s2. induction s1 as [|c s1 IH]; intros [|c' s2]; simpl.
  - by intros [= ->].
  - destruct (Ascii.eqb_spec c' q) as [->|Hne]; simpl.
    + intros [= ->]. simpl in H1. by rewrite Ascii.eqb_refl in H1.
    + intros [= -> _]. done.
  - destruct (Ascii.eqb_spec c q) as [->|Hne]; simpl.
    + intros [= <-]. simpl in H2. by rewrite Ascii.eqb_refl in H2.
    + intros [= <- _]. done.
  - destruct (Ascii.eqb_spec c q) as [->|Hne], (Ascii.eqb_spec c' q) as [->|Hne']; simpl;
      intros [=]; subst; try done.
    + match goal with E : _ = _ |- _ => destruct (IH _ E) as [-> ->] end. done.
    + match goal with E : _ +:+ _ = _ +:+ _ |- _ => destruct (IH _ E) as [-> ->] end. done.
Qed.

Definition no_backslash (s : string) : bool := str_forallb (fun c => negb (Ascii.eqb c backslash)) s.

(** The scanner of quoted regions ends exactly at the closing quote. *)
Lemma scanQuoted_double q escapes s rest :
  q <> backslash -> escapes = false \/ no_backslash s = true -> next_is q rest = false ->
  scanQuoted q escapes (double q s +:+ String q rest) = Some (S (String.length (double q s))).
Proof.
  intros Hq Hesc Hrest. induction s as [|c s IH].
  - simpl. destruct rest as [|d rest]; [by rewrite Ascii.eqb_refl|]. simpl in Hrest.
    rewrite Ascii.eqb_refl, Hrest. simpl.
    by destruct (Ascii.eqb_spec q backslash); [|rewrite andb_false_r].
  - assert (escapes = false \/ no_backslash s = true) as Hesc'.
    { destruct Hesc as [->|H]; [by left|]. right. simpl in H. by apply andb_prop in H as [_ ?]. }
    specialize (IH Hesc').
    assert (Hcb : escapes && Ascii.eqb c backslash = false).
    { destruct Hesc as [->|H]; [done|]. simpl in H. apply andb_prop in H as [H _].
      apply negb_true_iff in H. by rewrite H, andb_false_r. }
    cbn [double]. destruct (Ascii.eqb_spec c q) as [->|Hne]; cbn [String.append].
    + rewrite scanQuoted_cons2, Hcb, Ascii.eqb_refl, IH. done.
    + destruct (double q s +:+ String q rest) as [|d t] eqn:E.
      { destruct s as [|c' s]; simpl in E; [done|]. by destruct (Ascii.eqb c' q). }
      rewrite scanQuoted_cons2, Hcb, IH. by destruct (Ascii.eqb_spec c q).
Qed.

(** The built-in dialects, for the claims below. *)
Definition builtins : list builtin := [postgresql_builtin; mysql_builtin; sqlite_builtin].

Lemma builtins_quote d : d ∈ builtins -> quote d <> backslash /\ (quote d = dquote \/ quote d = backquote).
Proof.
  unfold builtins. rewrite !elem_of_cons. intros [->|[->|[->|H]]]; simpl; auto; [split; [done|by left]..|].
  by apply not_elem_of_nil in H.
Qed.

(** ** Claims *)

(** An identifier cannot break out of its quotes: for each built-in
    dialect, whatever identifier [QuoteIdentifier] accepts, the lexical scan
    for that engine sees the quoted text, in front of any text that does not
    continue it with another quote, as exactly one protected region.  For
    MySQL the scan treats a backslash inside back quotes as an escape, so
    there the identifier must not contain one. *)
Lemma QuoteIdentifier_protected (d : builtin) (ident text rest : string) :
  d ∈ builtins -> QuoteIdentifier d ident = Ok text ->
  (name d = "mysql" -> no_backslash ident = true) -> next_is (quote d) rest = false ->
  scan_step (name d) (text +:+ rest) = Ok (String.length text, EvProtected).
Proof.
  intros Hd [_ ->]%QuoteIdentifier_ok Hb Hrest.
  set (q := quote d) in *. cbn [String.append]. rewrite sapp_assoc. cbn [str1 String.append].
  assert (scanQuoted q (String.eqb (name d) "mysql") (double q ident +:+ String q rest) =
          Some (S (String.length (double q ident)))) as Hscan.
  { apply scanQuoted_double; [by apply builtins_quote| |done].
    destruct (String.eqb_spec (name d) "mysql"); [right; by apply Hb|by left]. }
  unfold builtins in Hd. rewrite !elem_of_cons in Hd.
  destruct Hd as [->|[->|[->|Hd]]]; [| | |by apply not_elem_of_nil in Hd]; subst q; cbn in Hscan |- *;
    unfold quoted; rewrite Hscan; do 2 f_equal; rewrite slength_app; simpl; lia.
Qed.

Lemma QuoteIdentifier_protected_witness :
  exists text, QuoteIdentifier postgresql_builtin "a b" = Ok text /\
  scan_step "postgresql" (text +:+ ";") = Ok (5, EvProtected).
Proof.
  eexists. split; [reflexivity|].
  exact (QuoteIdentifier_protected postgresql_builtin "a b" _ ";"
           ltac:(apply list_elem_of_here) eq_refl ltac:(intros H; discriminate H) eq_refl).
Defined.

(** Quoting loses nothing and accepts exactly the valid identifiers: for
    every dialect struct, two identifiers with the same quoted text are the
    same identifier, quoting succeeds exactly when [ValidateIdentifier] does,
    and any error reports the dialect and the validation error it wraps. *)
Lemma QuoteIdentifier_correct (d : builtin) (a b : string) :
  (forall text, QuoteIdentifier d a = Ok text -> QuoteIdentifier d b = Ok text -> a = b) /\
  ((exists text, QuoteIdentifier d a = Ok text) <-> ValidateIdentifier a = Ok tt) /\
  (forall e, QuoteIdentifier d a = Err e ->
     exists e', ValidateIdentifier a = Err e' /\
       e = Errorf "dialect %s: invalid identifier: %w" [AStr (name d); AErr e']).
Proof.
  split_and!.
  - intros text [_ H1]%QuoteIdentifier_ok [_ H2]%QuoteIdentifier_ok. rewrite H1 in H2.
    injection H2 as H2. by apply (double_inj (quote d)) in H2 as [-> _].
  - split; [intros [text H%QuoteIdentifier_ok]; by destruct H|].
    intros H. eexists. apply QuoteIdentifier_ok. by split.
  - intros e. unfold QuoteIdentifier. destruct (ValidateIdentifier a) as [|e']; [done|].
    intros [= <-]. by exists e'.
Qed.
