(* ===== verification/EngineProfile.v ===== *)
(** * EngineProfile: [internal/engineprofile]

    What a database engine of a known version can do: profiles and their
    validation, the built-in profiles, the version text a server reports, and
    the dialect a profile constrains.  The queries that observe a server's
    version are a sequence of results ([observed]). *)

From S2P Require Import Prelude GoText SqlScan Schema Dialect.
Open Scope string_scope.
Open Scope list_scope.
Open Scope N_scope.

(** ** [profile.go] *)
Definition PostgreSQL_ : N := 1.
Definition MySQL_ : N := 2.
Definition SQLite_ : N := 3.
Definition Custom : N := 4.

Record Version := MkVersion { Known : bool; Major : N; Minor : N; Patch : N }.
Definition ReturningNone : N := 0.
Definition ReturningInsert : N := 1.
Definition ReturningInsertUpdateDelete : N := 2.
Definition UpsertNone : N := 0.
Definition UpsertOnConflict_ : N := 1.
Definition UpsertDuplicateKey_ : N := 2.
Definition PerParentLimitUnsupported : N := 0.
Definition PerParentLimitWindow : N := 1.
Definition PerParentLimitLateral : N := 2.
Definition UpdateDefaultUnsupported : N := 0.
Definition UpdateDefaultExpression : N := 1.

Record Capabilities := MkCapabilities {
  Returning : N; Upsert : N;
  ConflictTarget : bool; DefaultValues : bool; EmptyInsert : bool; DefaultValuesUpsert : bool;
  SubqueryLimit : bool; WriteSubqueryTarget : bool; PartialIndex : bool; AggregateFilter : bool;
  QualifiedReference : bool; QualifiedIndexTarget : bool; QualifiedIndexName : bool; MatchOperator : bool;
  SelectForUpdate : bool; SelectForShare : bool; SelectLockOf : bool; SelectLockNoWait : bool; SelectLockSkipLocked : bool;
  UpsertConflictWhere : bool; UpsertUpdateWhere : bool;
  WindowFunctions : bool; LateralJoins : bool; Savepoints : bool; TransactionalDDL : bool;
  ExplicitNullOrdering : bool; TupleComparison : bool;
  PerParentLimit : N; UpdateDefault : N }.
#[export] Instance Capabilities_eq_dec : EqDecision Capabilities.
Proof. solve_decision. Defined.

Record Profile := MkProfile {
  ID : string; Engine : N; CustomName : string; p_Version : Version; p_Capabilities : Capabilities;
  MaxBindParameters : Z }.

(** [ProfileError] and [DiscoveryError]: the code they unwrap to and the
    detail or feature. *)
Definition ErrInvalidProfile := "engine profile: invalid profile".
Definition ErrUnsupportedFeature := "engine profile: unsupported feature".
Definition ErrUnsupportedVersion := "engine profile: unsupported version".
Definition ErrBindLimit := "engine profile: bind limit exceeded".
Definition ErrVersionObservation := "engine profile: version observation failed".
Definition ErrVersionParse := "engine profile: version parse failed".
Definition ErrUnknownProfile := "engine profile: unknown profile".
Definition ErrProfileMismatch := "engine profile: profile mismatch".
Definition ProfileError (code feature detail : string) : error :=
  MkError (KTyped "engineprofile.ProfileError") code [AStr feature; AStr detail].
Definition DiscoveryError (code : string) (detail : error) : error :=
  MkError (KTyped "engineprofile.DiscoveryError") code [AErr detail].

Definition validEngine (e : N) : bool := (PostgreSQL_ <=? e) && (e <=? Custom).

Record profileSpec := MkSpec {
  ps_id : string; ps_engine : N; ps_major : N; ps_minMinor : N; ps_maxMinor : N; ps_maxPatch : N;
  ps_caps : Capabilities; ps_binds : Z }.

Definition caps_pg : Capabilities := {|
  Returning := ReturningInsertUpdateDelete; Upsert := UpsertOnConflict_;
  ConflictTarget := true; DefaultValues := true; EmptyInsert := false; DefaultValuesUpsert := true;
  SubqueryLimit := true; WriteSubqueryTarget := true; PartialIndex := true; AggregateFilter := true;
  QualifiedReference := true; QualifiedIndexTarget := true; QualifiedIndexName := false; MatchOperator := false;
  SelectForUpdate := true; SelectForShare := true; SelectLockOf := true; SelectLockNoWait := true; SelectLockSkipLocked := true;
  UpsertConflictWhere := true; UpsertUpdateWhere := true;
  WindowFunctions := true; LateralJoins := true; Savepoints := true; TransactionalDDL := true;
  ExplicitNullOrdering := true; TupleComparison := true;
  PerParentLimit := PerParentLimitWindow; UpdateDefault := UpdateDefaultExpression |}.
Definition caps_m : Capabilities := {|
  Returning := ReturningNone; Upsert := UpsertDuplicateKey_;
  ConflictTarget := false; DefaultValues := false; EmptyInsert := true; DefaultValuesUpsert := true;
  SubqueryLimit := false; WriteSubqueryTarget := false; PartialIndex := false; AggregateFilter := false;
  QualifiedReference := true; QualifiedIndexTarget := true; QualifiedIndexName := false; MatchOperator := false;
  SelectForUpdate := true; SelectForShare := true; SelectLockOf := true; SelectLockNoWait := true; SelectLockSkipLocked := true;
  UpsertConflictWhere := false; UpsertUpdateWhere := false;
  WindowFunctions := true; LateralJoins := true; Savepoints := true; TransactionalDDL := false;
  ExplicitNullOrdering := false; TupleComparison := true;
  PerParentLimit := PerParentLimitWindow; UpdateDefault := UpdateDefaultExpression |}.
Definition caps_s : Capabilities := {|
  Returning := ReturningInsertUpdateDelete; Upsert := UpsertOnConflict_;
  ConflictTarget := true; DefaultValues := true; EmptyInsert := false; DefaultValuesUpsert := false;
  SubqueryLimit := true; WriteSubqueryTarget := true; PartialIndex := true; AggregateFilter := true;
  QualifiedReference := false; QualifiedIndexTarget := false; QualifiedIndexName := true; MatchOperator := true;
  SelectForUpdate := false; SelectForShare := false; SelectLockOf := false; SelectLockNoWait := false; SelectLockSkipLocked := false;
  UpsertConflictWhere := true; UpsertUpdateWhere := true;
  WindowFunctions := true; LateralJoins := false; Savepoints := true; TransactionalDDL := true;
  ExplicitNullOrdering := true; TupleComparison := true;
  PerParentLimit := PerParentLimitWindow; UpdateDefault := UpdateDefaultUnsupported |}.
Definition specs : list profileSpec := [
  MkSpec "postgresql-16" PostgreSQL_ 16 0 65535 0 caps_pg 65535;
  MkSpec "postgresql-17" PostgreSQL_ 17 0 65535 0 caps_pg 65535;
  MkSpec "mysql-8.4" MySQL_ 8 4 4 65535 caps_m 65535;
  MkSpec "sqlite-3.35" SQLite_ 3 35 65535 65535 caps_s 999].

Definition find_spec (id : string) : option profileSpec := find (fun s => String.eqb (ps_id s) id) specs.
(** The version is outside the range of the specification. *)
Definition outside (v : Version) (s : profileSpec) : bool :=
  negb (Major v =? ps_major s) || (Minor v <? ps_minMinor s) || (ps_maxMinor s <? Minor v) || (ps_maxPatch s <? Patch v).

Definition invalid (detail : string) : error := ProfileError ErrInvalidProfile "" detail.
Definition check_builtin (id : string) (engine : N) (v : Version) (caps : Capabilities) (limit : Z) : result unit :=
  match find_spec id with
  | None => Err (invalid "built-in capabilities or limits do not match profile")
  | Some known =>
      if negb (ps_engine known =? engine) || negb (limit =? ps_binds known)%Z || negb (bool_decide (caps = ps_caps known))
      then Err (invalid "built-in capabilities or limits do not match profile")
      else if outside v known then Err (ProfileError ErrUnsupportedVersion "" "version is outside supported range")
      else Ok tt
  end.
Definition New (id : string) (engine : N) (customName : string) (v : Version) (caps : Capabilities) (limit : Z)
  : result Profile :=
  if negb (validEngine engine) || String.eqb (TrimSpace id) "" || (limit <=? 0)%Z
  then Err (invalid "invalid identity or bind limit")
  else if UpdateDefaultExpression <? UpdateDefault caps then Err (invalid "invalid UPDATE DEFAULT capability")
  else if negb (Known v) && (negb (Major v =? 0) || negb (Minor v =? 0) || negb (Patch v =? 0))
  then Err (invalid "unknown version has numeric fields")
  else if Known v && (Major v =? 0) then Err (invalid "known version has zero major")
  else if (ReturningInsertUpdateDelete <? Returning caps) || (UpsertDuplicateKey_ <? Upsert caps)
          || (PerParentLimitLateral <? PerParentLimit caps) then Err (invalid "unknown capability enum value")
  else if negb (engine =? Custom) && negb (String.eqb customName "")
  then Err (invalid "built-in profile cannot have a custom name")
  else if negb (Known v) && negb (engine =? Custom) then Err (invalid "built-in profile requires a known version")
  else if (engine =? Custom) && String.eqb (TrimSpace customName) "" then Err (invalid "custom name is required")
  else
    check (if negb (engine =? Custom) then check_builtin id engine v caps limit else Ok tt);
    if ((PerParentLimit caps =? PerParentLimitWindow) && negb (WindowFunctions caps))
       || ((PerParentLimit caps =? PerParentLimitLateral) && negb (LateralJoins caps))
    then Err (invalid "per-parent strategy lacks matching capability")
    else if (Upsert caps =? UpsertNone)
            && (ConflictTarget caps || DefaultValuesUpsert caps || UpsertConflictWhere caps || UpsertUpdateWhere caps)
    then Err (invalid "upsert capabilities require an upsert form")
    else Ok (MkProfile id engine customName v caps limit).
Definition Validate_profile (p : Profile) : result unit :=
  do _ <- New (ID p) (Engine p) (CustomName p) (p_Version p) (p_Capabilities p) (MaxBindParameters p);
  Ok tt.

Record ObservedIdentity := MkObserved { o_Engine : N; o_Raw : string; o_Version : Version }.
Definition Resolve_profile (profileID : string) (observed : ObservedIdentity) : result Profile :=
  match find_spec profileID with
  | None => Err (DiscoveryError ErrUnknownProfile (Errorf "unknown profile " [AStr profileID]))
  | Some s =>
      if negb (o_Engine observed =? ps_engine s)
      then Err (DiscoveryError ErrProfileMismatch (errors_New "observed engine does not match profile"))
      else if negb (Known (o_Version observed)) || outside (o_Version observed) s
      then Err (ProfileError ErrUnsupportedVersion "" "observed version is outside supported range")
      else New (ps_id s) (ps_engine s) "" (o_Version observed) (ps_caps s) (ps_binds s)
  end.
Definition engineForProfile (id : string) : N :=
  match find_spec id with Some s => ps_engine s | None => 0 end.
Definition Builtin (profileID : string) (v : Version) : result Profile :=
  Resolve_profile profileID (MkObserved (engineForProfile profileID) "" v).

(** ** [observe.go] *)

(** [strconv.ParseUint(s, 10, bits)]: decimal digits only. *)
Definition ParseUint (s : string) (bits : N) : option N :=
  if String.eqb s "" || negb (str_forallb is_digit s) then None
  else let z := digits_value s 0 in if (2 ^ Z.of_N bits <=? z)%Z then None else Some (Z.to_N z).

(** The part of a MySQL patch before a build suffix. *)
Fixpoint before_suffix (s : string) : string :=
  match s with
  | "" => ""
  | String c s' => if Ascii.eqb c "-"%char || Ascii.eqb c "+"%char then "" else String c (before_suffix s')
  end.
Definition component (p : string) : result N :=
  match ParseUint p 16 with Some n => Ok n | None => Err (errors_New "invalid version component") end.
(** MySQL's components are rewritten as the numbers they parse as. *)
Definition mysql_component (i : nat) (p : string) : result string :=
  let p := if Nat.eqb i 2 then before_suffix p else p in
  if String.eqb p "" then Err (errors_New "empty version component")
  else do n <- component p; Ok (pretty n).
Definition mysql_parts (parts : list string) : result (list string) :=
  if Nat.ltb 3 (length parts) && negb (Contains (default "" (parts !! 2%nat)) "-") && negb (Contains (default "" (parts !! 2%nat)) "+")
  then Err (errors_New "MySQL version has extra components")
  else foldi (fun i p l => do c <- mysql_component i p; Ok (l ++ [c])) 0%nat (take 3 parts) [].
Definition parseVersion (engine : N) (raw : string) : result Version :=
  if engine =? PostgreSQL_ then
    match ParseUint (TrimSpace raw) 64 with
    | Some n =>
        if (n <? 100000) || (65535 <? n / 10000) || (65535 <? n mod 10000)
        then Err (errors_New "invalid server_version_num")
        else Ok (MkVersion true (n / 10000) (n mod 10000) 0)
    | None => Err (errors_New "invalid server_version_num")
    end
  else
    let parts := Split raw "." in
    if (engine =? SQLite_) && negb (Nat.eqb (length parts) 3) then Err (errors_New "SQLite version must have three components")
    else if (engine =? MySQL_) && Nat.ltb (length parts) 3 then Err (errors_New "MySQL version requires major.minor.patch")
    else
      do parts <- (if engine =? MySQL_ then mysql_parts parts else Ok parts);
      match parts with
      | [a; b; c] =>
          do major <- component a;
          do minor <- component b;
          do patch <- component c;
          if major =? 0 then Err (errors_New "zero major") else Ok (MkVersion true major minor patch)
      | _ => Err (errors_New "invalid version")
      end.

(** What the version query yields: the number of columns or an error, the
    error before the first row, the rows' scanned values as text, and the
    errors the rows and their closing end with. *)
Record observation := MkObservation {
  ob_columns : result nat; ob_early : option error; ob_rows : list (result string); ob_err : option error; ob_close : option error }.
Definition observation_failed (e : error) : error := DiscoveryError ErrVersionObservation e.
(** No row to read: the rows' error, or the shape's. *)
Definition no_row (err : option error) : error :=
  observation_failed (match err with Some e => e | None => errors_New "expected one row and one column" end).
Definition observe_rows (engine : N) (o : observation) : result ObservedIdentity :=
  match ob_columns o with
  | Err e => Err (observation_failed e)
  | Ok columns =>
      if negb (Nat.eqb columns 1) then Err (no_row (ob_early o))
      else match ob_rows o with
      | [] => Err (no_row (ob_err o))
      | Err e :: _ => Err (observation_failed e)
      | Ok raw :: rest =>
          if Nat.ltb 0 (length rest) then Err (observation_failed (errors_New "expected one row"))
          else match ob_err o with
          | Some e => Err (observation_failed e)
          | None =>
              match parseVersion engine raw with
              | Err e => Err (DiscoveryError ErrVersionParse e)
              | Ok v => Ok (MkObserved engine raw v)
              end
          end
      end
  end.
(** The deferred [Close] turns a success into its error. *)
Definition Observe (query : option (N -> result observation)) (engine : N) : result ObservedIdentity :=
  match query with
  | None => Err (observation_failed (errors_New "invalid queryer or engine"))
  | Some query =>
      if negb ((engine =? PostgreSQL_) || (engine =? MySQL_) || (engine =? SQLite_))
      then Err (observation_failed (errors_New "invalid queryer or engine"))
      else match query engine with
      | Err e => Err (observation_failed e)
      | Ok o =>
          do identity <- observe_rows engine o;
          match ob_close o with Some e => Err (observation_failed e) | None => Ok identity end
      end
  end.
Definition Discover (query : option (N -> result observation)) (engine : N) (id : string) : result Profile :=
  do o <- Observe query engine; Resolve_profile id o.
Definition specForObservation (o : ObservedIdentity) : option profileSpec :=
  if negb (Known (o_Version o)) then None
  else find (fun s => (ps_engine s =? o_Engine o) && negb (outside (o_Version o) s)) specs.
Definition DiscoverBuiltin (query : option (N -> result observation)) (engine : N) : result Profile :=
  do o <- Observe query engine;
  match specForObservation o with
  | None => Err (ProfileError ErrUnsupportedVersion "" "no built-in profile matches the observed version")
  | Some spec => Resolve_profile (ps_id spec) o
  end.

(** ** [compiler_dialect.go] *)
Definition profileCapability (c : Capabilities) (capability : N) : option (string * bool) :=
  if capability =? CapabilityReturning then Some ("returning", negb (Returning c =? ReturningNone))
  else if capability =? CapabilityUpsert then Some ("upsert", negb (Upsert c =? UpsertNone))
  else if capability =? CapabilityConflictTarget then Some ("conflict target", ConflictTarget c)
  else if capability =? CapabilityDefaultValues then Some ("default values", DefaultValues c)
  else if capability =? CapabilityEmptyInsert then Some ("empty insert", EmptyInsert c)
  else if capability =? CapabilityDefaultValuesUpsert then Some ("default values upsert", DefaultValuesUpsert c)
  else if capability =? CapabilitySubqueryLimit then Some ("subquery limit", SubqueryLimit c)
  else if capability =? CapabilityWriteSubqueryTarget then Some ("write subquery target", WriteSubqueryTarget c)
  else if capability =? CapabilityQualifiedReference then Some ("qualified reference", QualifiedReference c)
  else if capability =? CapabilityQualifiedIndexTarget then Some ("qualified index target", QualifiedIndexTarget c)
  else if capability =? CapabilityQualifiedIndexName then Some ("qualified index name", QualifiedIndexName c)
  else if capability =? CapabilityPartialIndex then Some ("partial index", PartialIndex c)
  else if capability =? CapabilityMatchOperator then Some ("match operator", MatchOperator c)
  else if capability =? CapabilityAggregateFilter then Some ("aggregate filter", AggregateFilter c)
  else if capability =? CapabilitySelectForUpdate then Some ("select for update", SelectForUpdate c)
  else if capability =? CapabilitySelectForShare then Some ("select for share", SelectForShare c)
  else if capability =? CapabilitySelectLockOf then Some ("select lock of", SelectLockOf c)
  else if capability =? CapabilitySelectLockNoWait then Some ("select lock no wait", SelectLockNoWait c)
  else if capability =? CapabilitySelectLockSkipLocked then Some ("select lock skip locked", SelectLockSkipLocked c)
  else if capability =? CapabilityUpsertConflictWhere then Some ("upsert conflict where", UpsertConflictWhere c)
  else if capability =? CapabilityUpsertUpdateWhere then Some ("upsert update where", UpsertUpdateWhere c)
  else if capability =? CapabilitySavepoint then Some ("savepoint", Savepoints c)
  else None.
Definition upsertStyle (form : N) : UpsertStyle :=
  if form =? UpsertOnConflict_ then UpsertOnConflict
  else if form =? UpsertDuplicateKey_ then UpsertDuplicateKey else UpsertUnsupported.
Definition engineName (engine : N) : string :=
  if engine =? PostgreSQL_ then "postgresql" else if engine =? MySQL_ then "mysql"
  else if engine =? SQLite_ then "sqlite" else "".

(** The bits of the [uint64] capability set, in order. *)
Definition capability_bits : list N := map (fun i => capability (N.of_nat i)) (seq 0 64).
Definition check_capability (d : Dialect) (p : Profile) (c : N) : result unit :=
  match profileCapability (p_Capabilities p) c with
  | None => Ok tt
  | Some (feature, allowed) =>
      if negb (Bool.eqb (d_Supports d c) allowed)
      then Err (ProfileError ErrInvalidProfile feature "dialect and capabilities disagree") else Ok tt
  end.
Definition ValidateDialect (d : option Dialect) (p : Profile) : result unit :=
  match d with
  | None => Err (invalid "dialect must not be nil")
  | Some d =>
      if negb (Engine p =? Custom) && negb (String.eqb (d_Name d) (engineName (Engine p)))
      then Err (invalid "dialect and profile disagree")
      else if (Engine p =? Custom) && negb (String.eqb (d_Name d) (CustomName p))
      then Err (invalid "dialect and custom profile disagree")
      else
        check checki (fun _ c => check_capability d p c) 0%nat capability_bits;
        if negb (bool_decide (d_UpsertStyle d = upsertStyle (Upsert (p_Capabilities p))))
        then Err (ProfileError ErrInvalidProfile "upsert style" "dialect and capabilities disagree") else Ok tt
  end.

(** [constrainedDialect]: the base dialect with the profile's capabilities. *)
Definition ConstrainDialect (p : Profile) (base : Dialect) : Dialect := {|
  d_Name := d_Name base;
  d_QuoteIdentifier := d_QuoteIdentifier base;
  d_Placeholder := d_Placeholder base;
  d_TypeName := d_TypeName base;
  d_UpsertStyle := upsertStyle (Upsert (p_Capabilities p));
  d_Supports := fun c => match profileCapability (p_Capabilities p) c with
                         | None => d_Supports base c | Some (_, allowed) => allowed end;
  d_Comparer := Some (IdentifiersEqual base);
  d_NativeTypeName := Some (match d_NativeTypeName base with
                            | Some namer => namer | None => fun _ => Ok ("", false) end) |}.

(** ** [dialect.go] *)
Definition FromDialect (id : string) (d : option Dialect) (v : Version) (caps : Capabilities) (limit : Z) : result Profile :=
  match d with
  | None => Err (invalid "dialect must not be nil")
  | Some dl =>
      let known := if String.eqb (d_Name dl) "postgresql" then PostgreSQL_ else if String.eqb (d_Name dl) "mysql" then MySQL_
                   else if String.eqb (d_Name dl) "sqlite" then SQLite_ else 0 in
      if (known =? 0) && String.eqb id "" then Err (invalid "unknown dialect")
      else
        let engine := if known =? 0 then Custom else known in
        if (engine =? Custom) && String.eqb id "" then Err (invalid "custom profile ID is required")
        else
          do p <- New id engine (if engine =? Custom then d_Name dl else "") v caps limit;
          check ValidateDialect d p;
          Ok p
  end.

(** ** Lemmas *)

(** Every version a built-in profile covers is accepted, with the built-in
    dialect of its engine. *)
Definition builtin_of (engine : N) : Dialect :=
  if engine =? PostgreSQL_ then PostgreSQL else if engine =? MySQL_ then MySQL else SQLite.
Lemma builtin_dialects :
  Forall (fun s => forall v b, ValidateDialect (Some (builtin_of (ps_engine s)))
                     (MkProfile (ps_id s) (ps_engine s) "" v (ps_caps s) b) = Ok tt) specs.
Proof. repeat constructor; intros v b; vm_compute; reflexivity. Qed.
Lemma builtin_specs :
  Forall (fun s => find_spec (ps_id s) = Some s /\ forall v, outside v s = false -> Major v = ps_major s /\
    (Known v = true -> New (ps_id s) (ps_engine s) "" v (ps_caps s) (ps_binds s) =
       Ok (MkProfile (ps_id s) (ps_engine s) "" v (ps_caps s) (ps_binds s)))) specs.
Proof.
  assert (forall v s, outside v s = false -> Major v = ps_major s) as Hm.
  { intros v s Ho. unfold outside in Ho. apply orb_false_iff in Ho as [[[H _]%orb_false_iff _]%orb_false_iff _].
    by apply negb_false_iff, N.eqb_eq in H. }
  assert (Forall (fun s => String.eqb (TrimSpace (ps_id s)) "" = false) specs) as Ht by (repeat constructor).
  rewrite !Forall_forall in *. intros s Hs. pose proof (Ht s Hs) as Hid. clear Ht. unfold specs in Hs.
  repeat setoid_rewrite elem_of_cons in Hs. destruct Hs as [->|[->|[->|[->|Hs%elem_of_nil]]]]; try done;
    (split; [reflexivity|]); intros [k ma mi pa] Ho; (split; [by apply Hm|]); pose proof (Hm _ _ Ho) as E;
    cbn [Major ps_major] in E; subst ma; intros Hk; cbn [Known] in Hk; subst k; unfold New, check_builtin;
    rewrite Hid; cbn -[outside TrimSpace]; cbn -[outside TrimSpace] in Ho; rewrite Ho; reflexivity.
Qed.
Lemma builtin_profiles s v :
  s ∈ specs -> Known v = true -> outside v s = false ->
  exists p, Builtin (ps_id s) v = Ok p /\ p_Capabilities p = ps_caps s /\ MaxBindParameters p = ps_binds s /\
    Engine p = ps_engine s /\ ValidateDialect (Some (builtin_of (ps_engine s))) p = Ok tt.
Proof.
  intros Hs Hk Ho. pose proof (proj1 (Forall_forall _ _) builtin_specs s Hs) as [Hf Hn].
  destruct (Hn v Ho) as [_ Hnew]. eexists. split.
  - unfold Builtin, Resolve_profile, engineForProfile. rewrite Hf. cbn [o_Engine o_Version].
    rewrite N.eqb_refl, Hk, Ho. cbn [negb orb]. by apply Hnew.
  - split_and!; [done..|]. apply (proj1 (Forall_forall _ _) builtin_dialects s Hs).
Qed.

(** ** Discovery *)
(** The version text of each engine: PostgreSQL's [server_version_num], the
    three numbers of SQLite, and those of MySQL with whatever its build adds
    after a dash or a plus sign. *)
Inductive build_suffix : string -> Prop :=
| no_suffix : build_suffix ""
| some_suffix c s : c = "-"%char \/ c = "+"%char -> build_suffix (String c s).
Definition component_text (s : string) (n : N) : Prop := decimal s n /\ n < 65536.
Inductive reads_version : N -> string -> Version -> Prop :=
| reads_postgresql raw major minor :
    decimal (TrimSpace raw) (major * 10000 + minor) -> minor < 10000 -> 10 <= major <= 65535 ->
    reads_version PostgreSQL_ raw (MkVersion true major minor 0)
| reads_sqlite a b c major minor patch :
    component_text a major -> component_text b minor -> component_text c patch -> major <> 0 ->
    reads_version SQLite_ (a +:+ "." +:+ b +:+ "." +:+ c) (MkVersion true major minor patch)
| reads_mysql a b c suffix major minor patch :
    component_text a major -> component_text b minor -> component_text c patch -> build_suffix suffix -> major <> 0 ->
    reads_version MySQL_ (a +:+ "." +:+ b +:+ "." +:+ c +:+ suffix) (MkVersion true major minor patch).

Lemma ParseUint_exact s bits n : ParseUint s bits = Some n <-> decimal s n /\ n < 2 ^ bits.
Proof.
  unfold ParseUint. split.
  - destruct (String.eqb_spec s "") as [|Hs]; [done|]. cbn [orb]. destruct (str_forallb is_digit s) eqn:Hd; [|done]. cbn [negb].
    destruct (Z.leb_spec (2 ^ Z.of_N bits) (digits_value s 0)) as [|Hlt]; [done|]. intros [= <-].
    pose proof (digits_decimal s Hs Hd) as H. split; [done|]. apply decimal_reads in H as (_ & _ & H).
    rewrite H in Hlt. apply N2Z.inj_lt. by rewrite N2Z.inj_pow.
  - intros [(Hs & Hd & Hv)%decimal_reads Hlt]. destruct (String.eqb_spec s "") as [|_]; [done|]. rewrite Hd, Hv. cbn [orb negb].
    destruct (Z.leb_spec (2 ^ Z.of_N bits) (Z.of_N n)) as [Hle|_]; [|by rewrite N2Z.id].
    apply N2Z.inj_lt in Hlt. rewrite N2Z.inj_pow in Hlt. simpl in Hlt. lia.
Qed.
Lemma component_exact p n : component p = Ok n <-> component_text p n.
Proof.
  unfold component, component_text. change 65536 with (2 ^ 16). rewrite <- ParseUint_exact.
  destruct (ParseUint p 16); naive_solver.
Qed.
Lemma component_pretty n : n < 65536 -> component (pretty n) = Ok n.
Proof. intros H. apply component_exact. split; [apply pretty_decimal|done]. Qed.
Lemma component_lacks c s n : is_digit c = false -> component_text s n -> lacks c s = true.
Proof.
  intros Hc [(_ & Hd & _)%decimal_reads _]. unfold lacks. induction s as [|x s IH]; [done|]. cbn [str_forallb] in *.
  apply andb_true_iff in Hd as [H1 H2]. rewrite (IH H2). destruct (Ascii.eqb_spec x c) as [->|]; [congruence|done].
Qed.
Lemma before_suffix_split s : exists suffix, s = before_suffix s +:+ suffix /\ build_suffix suffix.
Proof.
  induction s as [|c s (r & E & Hr)]; cbn [before_suffix]; [by exists ""; split; [|constructor]|].
  destruct (Ascii.eqb_spec c "-") as [->|]; [exists (String "-" s); split; [done|by constructor; left]|].
  destruct (Ascii.eqb_spec c "+") as [->|]; [exists (String "+" s); split; [done|by constructor; right]|].
  cbn [orb]. exists r. split; [|done]. change (String c s = String c (before_suffix s +:+ r)). by rewrite <- E.
Qed.
Lemma before_suffix_app c s : lacks "-" c = true -> lacks "+" c = true -> build_suffix s -> before_suffix (c +:+ s) = c.
Proof.
  intros H1 H2 Hs. induction c as [|x c IH].
  - change ("" +:+ s) with s. by destruct Hs as [|? ? [-> | ->]].
  - unfold lacks in H1, H2. cbn [str_forallb] in H1, H2. apply andb_true_iff in H1 as [X1 H1], H2 as [X2 H2].
    change (String x c +:+ s) with (String x (c +:+ s)). cbn [before_suffix].
    apply negb_true_iff in X1, X2. rewrite X1, X2. cbn [orb]. by rewrite IH.
Qed.
Lemma build_suffix_contains s : build_suffix s -> s = "" \/ Contains s "-" || Contains s "+" = true.
Proof.
  intros [|c r H]; [by left|]. right. change "-" with (str1 "-"). change "+" with (str1 "+"). rewrite !Contains_lacks.
  unfold lacks. cbn [str_forallb]. by destruct H as [-> | ->]; rewrite ?orb_true_r.
Qed.

Lemma dotted_join a b c : Join [a; b; c] "." = a +:+ "." +:+ b +:+ "." +:+ c.
Proof. cbn [Join fold_left]. by rewrite !sapp_assoc. Qed.
(** The last step of reading three numbers. *)
Definition three_components (a b c : string) : result Version :=
  do major <- component a;
  do minor <- component b;
  do patch <- component c;
  if major =? 0 then Err (errors_New "zero major") else Ok (MkVersion true major minor patch).
Lemma three_components_exact a b c v :
  three_components a b c = Ok v <->
  exists major minor patch, component_text a major /\ component_text b minor /\ component_text c patch /\
    major <> 0 /\ v = MkVersion true major minor patch.
Proof.
  setoid_rewrite <- component_exact. unfold three_components. split.
  - intros H. inv_ok. destruct (N.eqb_spec a0 0) as [|Hn]; [done|]. injection H as <-. by exists a0, a1, a2.
  - intros (major & minor & patch & -> & -> & -> & Hn & ->). by destruct (N.eqb_spec major 0).
Qed.
Lemma mysql_component_exact i p l : mysql_component i p = Ok l <->
  exists n, component_text (if Nat.eqb i 2 then before_suffix p else p) n /\ l = pretty n.
Proof.
  setoid_rewrite <- component_exact. unfold mysql_component. destruct (String.eqb_spec (if Nat.eqb i 2 then before_suffix p else p) "") as [->|Hne].
  - split; [done|]. by intros (n & H & _).
  - split; [intros H; inv_ok; by exists a|]. by intros (m & -> & ->).
Qed.
Lemma mysql_parts_exact p0 p1 p2 rest l : mysql_parts (p0 :: p1 :: p2 :: rest) = Ok l <->
  (rest = [] \/ Contains p2 "-" || Contains p2 "+" = true) /\
  exists a b c, component_text p0 a /\ component_text p1 b /\ component_text (before_suffix p2) c /\
    l = [pretty a; pretty b; pretty c].
Proof.
  unfold mysql_parts. cbn [length take lookup list_lookup default foldi app].
  assert ((Nat.ltb 3 (S (S (S (length rest)))) && negb (Contains p2 "-") && negb (Contains p2 "+")) = false <->
          (rest = [] \/ Contains p2 "-" || Contains p2 "+" = true)) as Hg.
  { destruct rest; simpl; [naive_solver|]. destruct (Contains p2 "-"), (Contains p2 "+"); naive_solver. }
  rewrite <- Hg. destruct (_ && _); [naive_solver|]. split.
  - intros H. inv_ok. cbn in H. injection H as <-. repeat match goal with H : mysql_component _ _ = Ok _ |- _ => apply mysql_component_exact in H as (? & ? & ->) end.
    split; [done|]. do 3 eexists. split_and!; [eassumption..|done].
  - intros (_ & a & b & c & Ha & Hb & Hc & ->).
    rewrite (proj2 (mysql_component_exact 0 p0 (pretty a))) by by exists a.
    rewrite (proj2 (mysql_component_exact 1 p1 (pretty b))) by by exists b.
    rewrite (proj2 (mysql_component_exact 2 p2 (pretty c))) by by exists c. by destruct rest.
Qed.

Lemma parse_postgresql raw v : parseVersion PostgreSQL_ raw = Ok v <-> reads_version PostgreSQL_ raw v.
Proof.
  unfold parseVersion. cbn [N.eqb PostgreSQL_ Pos.eqb]. split.
  - destruct (ParseUint _ _) as [n|] eqn:E; [|done]. apply ParseUint_exact in E as [Hd _].
    destruct (_ || _) eqn:B; [done|]. intros [= <-]. apply orb_false_iff in B as [[B1 B2]%orb_false_iff _].
    apply N.ltb_ge in B1, B2. apply (reads_postgresql raw).
    + by rewrite N.mul_comm, <- N.div_mod.
    + by apply N.mod_lt.
    + split; [|done]. by apply (N.div_le_lower_bound n 10000 10).
  - inversion_clear 1 as [? major minor Hd Hlt Hm| |].
    rewrite (proj2 (ParseUint_exact (TrimSpace raw) 64 (major * 10000 + minor))) by (split; [done|lia]).
    assert ((major * 10000 + minor) / 10000 = major) as -> by (symmetry; apply (N.div_unique _ _ _ minor); lia).
    assert ((major * 10000 + minor) mod 10000 = minor) as -> by (symmetry; apply (N.mod_unique _ _ major); lia).
    destruct (_ || _) eqn:B; [|done]. apply orb_true_iff in B as [[B%N.ltb_lt|B%N.ltb_lt]%orb_true_iff|B%N.ltb_lt]; lia.
Qed.
Lemma parse_sqlite raw v : parseVersion SQLite_ raw = Ok v <-> reads_version SQLite_ raw v.
Proof.
  unfold parseVersion. change (SQLite_ =? PostgreSQL_) with false. change (SQLite_ =? MySQL_) with false. change (SQLite_ =? SQLite_) with true.
  cbv match. cbn [andb]. split.
  - destruct (Split_spec "." raw) as (_ & _ & Hj). change (str1 ".") with "." in Hj. destruct (negb _); [done|].
    destruct (Split raw ".") as [|a [|b [|c [|]]]]; try done. rewrite dotted_join in Hj. subst raw. fold (three_components a b c).
    intros (ma & mi & pa & Ha & Hb & Hc & Hn & ->)%three_components_exact. by constructor.
  - inversion_clear 1 as [|a b c ma mi pa Ha Hb Hc Hn|]. rewrite <- dotted_join.
    assert (Forall (fun x => lacks "." x = true) [a; b; c]) as Hl
      by (repeat apply Forall_cons_2; [by eapply component_lacks..|constructor]).
    change "." with (str1 "."). rewrite (Split_Join "." [a; b; c]) by done.
    cbn [length Nat.eqb negb]. fold (three_components a b c). apply three_components_exact. by exists ma, mi, pa.
Qed.
(** The parts of a MySQL version, before and after splitting at the dots. *)
Lemma parse_mysql raw v : parseVersion MySQL_ raw = Ok v <-> reads_version MySQL_ raw v.
Proof.
  unfold parseVersion. change (MySQL_ =? PostgreSQL_) with false. change (MySQL_ =? MySQL_) with true. change (MySQL_ =? SQLite_) with false.
  cbv match. cbn [andb]. split.
  - destruct (Split_spec "." raw) as (_ & _ & Hj). change (str1 ".") with "." in Hj. destruct (Nat.ltb _ _) eqn:L; [done|].
    destruct (Split raw ".") as [|a [|b [|p rest]]]; try done. intros H. inv_ok.
    apply mysql_parts_exact in E as (Hg & ma & mi & pa & Ha & Hb & Hc & ->). fold (three_components (pretty ma) (pretty mi) (pretty pa)) in H.
    unfold three_components in H. rewrite !component_pretty in H by apply Ha || apply Hb || apply Hc. cbn -[N.eqb] in H.
    destruct (N.eqb_spec ma 0) as [|Hn]; [done|]. injection H as <-.
    destruct (before_suffix_split p) as (s & Ep & Hs).
    assert (exists s', raw = a +:+ "." +:+ b +:+ "." +:+ before_suffix p +:+ s' /\ build_suffix s') as (s' & -> & Hs').
    { rewrite !(Join_cons a), !(Join_cons b) in Hj. destruct rest as [|q rest].
      - exists s. split; [|done]. cbn [Join fold_left] in Hj. by rewrite <- Ep, Hj.
      - rewrite (Join_cons p) in Hj. exists (s +:+ "." +:+ Join (q :: rest) "."). split; [by rewrite <- Hj, Ep at 1; rewrite sapp_assoc|].
        destruct Hg as [|Hg]; [done|]. destruct Hs as [|x s Hx]; [|by constructor].
        exfalso. rewrite sapp_nil_r in Ep. rewrite Ep in Hg. change "-" with (str1 "-") in Hg. change "+" with (str1 "+") in Hg.
        rewrite !Contains_lacks, !(component_lacks _ _ pa) in Hg by done. done. }
    by constructor.
  - inversion_clear 1 as [| |a b c s ma mi pa Ha Hb Hc Hs Hn].
    assert (exists p rest, Split (a +:+ "." +:+ b +:+ "." +:+ c +:+ s) "." = a :: b :: p :: rest /\ before_suffix p = c /\
              (rest = [] \/ Contains p "-" || Contains p "+" = true)) as (p & rest & -> & Hp & Hr).
    { assert (Split (a +:+ "." +:+ b +:+ "." +:+ c +:+ s) "." = a :: b :: Split (c +:+ s) (str1 ".")) as ->.
      { change (Split (a +:+ String "." (b +:+ String "." (c +:+ s))) (str1 ".") = a :: b :: Split (c +:+ s) (str1 ".")).
        by rewrite !Split_app by by eapply component_lacks. }
      rewrite Split_prefix by by eapply component_lacks.
      assert (lacks "-" c = true) as L1 by by eapply component_lacks. assert (lacks "+" c = true) as L2 by by eapply component_lacks.
      destruct Hs as [|x s Hx].
      - exists (c +:+ ""), []. split; [done|]. split; [|by left]. apply before_suffix_app; [done|done|constructor].
      - rewrite Split_unfold. assert (Ascii.eqb x "." = false) as -> by (by destruct Hx as [-> | ->]).
        destruct (Split_spec "." s) as (Hne & _). destruct (Split s (str1 ".")) as [|h t]; [done|].
        exists (c +:+ String x h), t. split; [done|]. split; [apply before_suffix_app; [done|done|by constructor]|]. right.
        change "-" with (str1 "-"). change "+" with (str1 "+"). rewrite !Contains_lacks, !lacks_app, L1, L2. unfold lacks. cbn [str_forallb].
        by destruct Hx as [-> | ->]; rewrite ?orb_true_r. }
    cbn [length Nat.ltb Nat.leb].
    rewrite (proj2 (mysql_parts_exact a b p rest [pretty ma; pretty mi; pretty pa])).
    2:{ split; [done|]. exists ma, mi, pa. by rewrite Hp. }
    cbn -[component]. fold (three_components (pretty ma) (pretty mi) (pretty pa)). unfold three_components.
    rewrite !component_pretty by apply Ha || apply Hb || apply Hc. simpl. by destruct (N.eqb_spec ma 0).
Qed.

(** *** The observation *)

(** The one row, of one column, the version query answered without an error. *)
Definition answers_one (o : observation) (raw : string) : Prop :=
  ob_columns o = Ok 1%nat /\ ob_rows o = [Ok raw] /\ ob_err o = None /\ ob_close o = None.
Definition observable (engine : N) : Prop := engine = PostgreSQL_ \/ engine = MySQL_ \/ engine = SQLite_.
Lemma parseVersion_exact engine raw v : observable engine -> parseVersion engine raw = Ok v <-> reads_version engine raw v.
Proof. intros [->|[->| ->]]; [apply parse_postgresql|apply parse_mysql|apply parse_sqlite]. Qed.
Lemma reads_known engine raw v : reads_version engine raw v -> observable engine /\ Known v = true.
Proof. unfold observable. by intros []; auto. Qed.

Lemma Observe_exact query engine id :
  Observe query engine = Ok id <->
  exists ask o raw v, query = Some ask /\ ask engine = Ok o /\ answers_one o raw /\ reads_version engine raw v /\
    id = MkObserved engine raw v.
Proof.
  assert (negb ((engine =? PostgreSQL_) || (engine =? MySQL_) || (engine =? SQLite_)) = false <-> observable engine) as Hb.
  { unfold observable. rewrite negb_false_iff, !orb_true_iff, !N.eqb_eq. tauto. }
  unfold Observe, answers_one. split.
  - destruct query as [ask|]; [|done]. destruct (negb _); [done|]. pose proof (proj1 Hb eq_refl) as He. clear Hb.
    destruct (ask engine) as [o|] eqn:Ea; [|done]. intros H. inv_ok. destruct (ob_close o) eqn:Ec; [done|]. injection H as ->.
    unfold observe_rows in E. destruct (ob_columns o) as [n|] eqn:Ecol; [|done]. destruct (Nat.eqb_spec n 1) as [->|]; [|done]. cbn [negb] in E.
    destruct (ob_rows o) as [|[raw|] [|]] eqn:Er; try done. cbn in E. destruct (ob_err o) eqn:Ee; [done|].
    destruct (parseVersion engine raw) as [v|] eqn:Ev; [|done]. injection E as <-. apply parseVersion_exact in Ev; [|done].
    exists ask, o, raw, v. by split_and!.
  - intros (ask & o & raw & v & -> & Ea & (Ecol & Er & Ee & Ec) & Hv & ->). destruct (reads_known _ _ _ Hv) as [He _].
    rewrite (proj2 Hb He), Ea. unfold observe_rows. rewrite Ecol, Er, Ee. cbn.
    apply parseVersion_exact in Hv; [|done]. rewrite Hv. cbn. by rewrite Ec.
Qed.
Lemma Observe_known query engine o : Observe query engine = Ok o -> o_Engine o = engine /\ Known (o_Version o) = true.
Proof. intros (ask & ob & raw & v & _ & _ & _ & H & ->)%Observe_exact. split; [done|]. by destruct (reads_known _ _ _ H). Qed.

(** The ranges of one engine do not overlap. *)
Lemma specs_disjoint s s' v : s ∈ specs -> s' ∈ specs -> ps_engine s = ps_engine s' -> outside v s = false -> outside v s' = false -> s = s'.
Proof.
  assert (forall s, outside v s = false -> Major v = ps_major s) as Hm.
  { intros x Ho. unfold outside in Ho. apply orb_false_iff in Ho as [[[H _]%orb_false_iff _]%orb_false_iff _].
    by apply negb_false_iff, N.eqb_eq in H. }
  intros Hs Hs' He Ho%Hm Ho'%Hm. assert (ps_major s = ps_major s') as E by congruence. clear Ho Ho' Hm.
  unfold specs in *. repeat setoid_rewrite elem_of_cons in Hs. repeat setoid_rewrite elem_of_cons in Hs'.
  destruct Hs as [->|[->|[->|[->|Hs%elem_of_nil]]]]; try done;
    destruct Hs' as [->|[->|[->|[->|Hs'%elem_of_nil]]]]; try done.
Qed.
(** The profile of a specification at a version. *)
Definition profile_of (s : profileSpec) (v : Version) : Profile := MkProfile (ps_id s) (ps_engine s) "" v (ps_caps s) (ps_binds s).
Lemma Resolve_spec s o : s ∈ specs -> ps_engine s = o_Engine o -> Known (o_Version o) = true -> outside (o_Version o) s = false ->
  Resolve_profile (ps_id s) o = Ok (profile_of s (o_Version o)) /\ Validate_profile (profile_of s (o_Version o)) = Ok tt.
Proof.
  intros Hs He Hk Ho. pose proof (proj1 (Forall_forall _ _) builtin_specs s Hs) as [Hf Hn].
  destruct (Hn _ Ho) as [_ Hnew]. specialize (Hnew Hk). split.
  - unfold Resolve_profile. rewrite Hf, <- He, N.eqb_refl, Hk, Ho. exact Hnew.
  - unfold Validate_profile, profile_of. cbn [ID Engine CustomName p_Version p_Capabilities MaxBindParameters]. by rewrite Hnew.
Qed.

(** The versions a built-in profile covers. *)
Definition covers (s : profileSpec) (v : Version) : Prop :=
  Major v = ps_major s /\ ps_minMinor s <= Minor v <= ps_maxMinor s /\ Patch v <= ps_maxPatch s.
Lemma outside_covers v s : outside v s = false <-> covers s v.
Proof.
  unfold outside, covers. rewrite !orb_false_iff, negb_false_iff, N.eqb_eq, !N.ltb_ge. tauto.
Qed.
(** What a dialect must share with a profile. *)
Definition agrees (d : Dialect) (p : Profile) : Prop :=
  d_Name d = engineName (Engine p) /\ d_UpsertStyle d = upsertStyle (Upsert (p_Capabilities p)) /\
  forall c feature allowed, c ∈ capability_bits ->
    profileCapability (p_Capabilities p) c = Some (feature, allowed) -> d_Supports d c = allowed.
Lemma ValidateDialect_agrees d p :
  Engine p <> Custom -> ValidateDialect (Some d) p = Ok tt -> agrees d p.
Proof.
  intros Hc%N.eqb_neq. unfold ValidateDialect. rewrite Hc. cbn [negb andb].
  destruct (String.eqb_spec (d_Name d) (engineName (Engine p))) as [Hn|]; [|done]. cbn [negb]. intros H. inv_ok.
  case_bool_decide as Hu; [|done]. split; [done|]. split; [done|]. intros c feature allowed Hin Hp.
  rewrite checki_ok in E. apply list_elem_of_lookup in Hin as [i Hi]. specialize (E i c Hi). cbn beta in E.
  unfold check_capability in E. rewrite Hp in E. destruct (Bool.eqb (d_Supports d c) allowed) eqn:B; [|done].
  by apply Bool.eqb_prop.
Qed.
Lemma specs_builtin s : s ∈ specs -> ps_engine s <> Custom.
Proof.
  intros Hs. assert (Forall (fun s => ps_engine s <> Custom) specs) as H by (repeat constructor; done).
  by apply (proj1 (Forall_forall _ _) H).
Qed.

(** C25 Discovering a profile from the server alone succeeds exactly when the
    engine's version query answers one row of one column, without an error
    then or on closing, and its text is a version of the engine (PostgreSQL's
    number is ten thousand times the major version plus the minor; SQLite's
    and MySQL's are three dotted numbers below 65536 with a major above zero,
    MySQL's with anything after a dash or a plus sign) that a built-in profile of
    the engine covers.  Exactly one then does, the result is that profile at
    that version, it is valid, and the engine's built-in dialect has its name,
    its upsert style and every capability it declares. *)
Theorem DiscoverBuiltin_exact query engine p :
  (DiscoverBuiltin query engine = Ok p <->
   exists ask o raw v s, query = Some ask /\ ask engine = Ok o /\ answers_one o raw /\
     reads_version engine raw v /\ s ∈ specs /\ ps_engine s = engine /\ covers s v /\
     (forall s', s' ∈ specs -> ps_engine s' = engine -> covers s' v -> s' = s) /\ p = profile_of s v) /\
  (DiscoverBuiltin query engine = Ok p -> Validate_profile p = Ok tt /\ agrees (builtin_of engine) p).
Proof.
  assert (DiscoverBuiltin query engine = Ok p ->
    exists o s, Observe query engine = Ok o /\ s ∈ specs /\ ps_engine s = engine /\ outside (o_Version o) s = false /\
    p = profile_of s (o_Version o) /\ Validate_profile p = Ok tt) as Hd.
  { unfold DiscoverBuiltin. intros H. inv_ok. destruct (Observe_known _ _ _ E) as [He Hk].
    destruct (specForObservation a) as [s|] eqn:Es; [|done]. unfold specForObservation in Es. rewrite Hk in Es. cbn [negb] in Es.
    apply find_some in Es as [Hin%list_elem_of_In [Hse%N.eqb_eq Ho%negb_true_iff]%andb_true_iff].
    destruct (Resolve_spec s a Hin Hse Hk Ho) as [Hr Hv]. rewrite Hr in H. injection H as <-. exists a, s.
    rewrite <- He. by split_and!. }
  split; [split|].
  - intros (o & s & Eo & Hin & Hse & Ho & -> & _)%Hd. apply Observe_exact in Eo as (ask & ob & raw & v & -> & Ea & Hone & Hv & ->).
    exists ask, ob, raw, v, s. split_and!; try done; [by apply outside_covers|].
    intros s' Hin' He' Hc'%outside_covers. eapply specs_disjoint; [done|done|congruence|exact Hc'|exact Ho].
  - intros (ask & ob & raw & v & s & -> & Ea & Hone & Hv & Hin & Hse & Ho%outside_covers & Huniq & ->).
    unfold DiscoverBuiltin. rewrite (proj2 (Observe_exact _ _ (MkObserved engine raw v))) by by exists ask, ob, raw, v.
    destruct (reads_known _ _ _ Hv) as [_ Hk]. cbn -[specForObservation Resolve_profile].
    assert (specForObservation (MkObserved engine raw v) = Some s) as ->.
    { unfold specForObservation. cbn [o_Version o_Engine]. rewrite Hk. cbn [negb]. destruct (find _ specs) as [s'|] eqn:Ef.
      + apply find_some in Ef as [Hin'%list_elem_of_In [Hse'%N.eqb_eq Ho'%negb_true_iff]%andb_true_iff].
        f_equal. apply Huniq; [done|done|by apply outside_covers].
      + apply list_elem_of_In in Hin. pose proof (find_none _ _ Ef s Hin) as H. cbn beta in H.
        by rewrite Hse, N.eqb_refl, Ho in H. }
    by apply Resolve_spec.
  - intros (o & s & _ & Hin & <- & _ & -> & Hv)%Hd. split; [done|]. apply ValidateDialect_agrees; [by apply specs_builtin|].
    apply (proj1 (Forall_forall _ _) builtin_dialects s Hin).
Qed.

(** A server that answers one row. *)
Definition one_answer (raw : string) : option (N -> result observation) :=
  Some (fun _ => Ok (MkObservation (Ok 1%nat) None [Ok raw] None None)).
Definition mysql_84 : Profile := MkProfile "mysql-8.4" MySQL_ "" (MkVersion true 8 4 3) caps_m 65535.
Lemma DiscoverBuiltin_exact_witness :
  DiscoverBuiltin (one_answer "8.4.3-log") MySQL_ = Ok mysql_84 /\ agrees (builtin_of MySQL_) mysql_84.
Proof.
  assert (DiscoverBuiltin (one_answer "8.4.3-log") MySQL_ = Ok mysql_84) as E by (vm_compute; reflexivity).
  split; [exact E|]. exact (proj2 (proj2 (DiscoverBuiltin_exact (one_answer "8.4.3-log") MySQL_ mysql_84) E)).
Defined.
Example discover_postgresql : DiscoverBuiltin (one_answer "170002") PostgreSQL_ =
  Ok (MkProfile "postgresql-17" PostgreSQL_ "" (MkVersion true 17 2 0) caps_pg 65535).
Proof. vm_compute. reflexivity. Qed.
Example discover_one_row : is_ok (DiscoverBuiltin
  (Some (fun _ => Ok (MkObservation (Ok 1%nat) None [Ok "8.4.3"; Ok "8.4.3"] None None))) MySQL_) = false.
Proof. vm_compute. reflexivity. Qed.
