(* ===== verification/Query.v ===== *)
(** * Query: the statement model of [query/table.go], [query/relation.go],
    [query/expression.go], [query/select.go]

    Expressions, relations and query bodies refer to each other, so they are
    one mutual inductive type; the Go structs shared between them are records
    parametrised by the component types and instantiated below it.

    - [Expression] is an interface: each struct that implements it is a
      constructor; [ENil] is the nil interface, [EDefault] the unexported
      [defaultExpression], [EOther] a type declared outside the package.
    - [RelationRef] is a tagged struct: the zero value and its three kinds are
      constructors.  A relation's alias is a field, except that a table
      relation's alias is always its [TableRef]'s, which is how [Relation]
      builds it and the only way one is built.
    - [%p] of a derived or CTE relation's pointer is the text [ptr]; the
      constructor that allocates takes it as an argument.
    - [QueryBody] holds values; the pointer forms the interface also admits
      behave as the value they point to and are not distinguished.
    - A slice is a list, and [append([]T(nil), l...)] of an immutable list is
      the list, so the copying accessors are projections. *)

From S2P Require Import Prelude GoText Schema.
Open Scope string_scope.
Open Scope list_scope.
Open Scope nat_scope.

(** ** [query/table.go] *)
Record tableDescriptor := MkDescriptor {
  definition : TableDef; columns : gmap string nat; owned : bool }.

Record TableRef := MkTableRef { descriptor : option tableDescriptor; table_alias : string }.

Definition ErrNilTable : error := errors_New "query table: table must not be nil".

(** The index keeps the first position of a repeated name. *)
Definition newTableDescriptor (def : TableDef) (own : bool) : tableDescriptor :=
  let index :=
    foldi (fun i column (m : gmap string nat) =>
             match m !! Column_Name column with
             | Some _ => Ok m
             | None => Ok (<[Column_Name column := i]> m)
             end) 0 (Columns def) ∅ in
  match index with
  | Ok m => MkDescriptor def m own
  | Err _ => MkDescriptor def ∅ own
  end.

Definition descriptor_column (d : tableDescriptor) (cname : string) : option ColumnDef :=
  let miss := if owned d then None else Column (definition d) cname in
  match columns d !! cname with
  | Some i =>
      match Columns (definition d) !! i with
      | Some column => if owned d || String.eqb (Column_Name column) cname then Some column else miss
      | None => miss
      end
  | None => miss
  end.

Definition TableRefFrom (def : TableDef) : TableRef :=
  MkTableRef (Some (newTableDescriptor def false)) "".

Definition zero_def : TableDef := table_of "" "" "" 0 [].
Definition def (t : TableRef) : TableDef :=
  match descriptor t with Some d => definition d | None => zero_def end.

Definition table_validate (t : TableRef) : result unit :=
  match descriptor t with Some _ => Ok tt | None => Err ErrNilTable end.

Definition table_As (t : TableRef) (alias : string) : result TableRef :=
  check table_validate t;
  match ValidateSimpleIdentifier alias with
  | Err e => Err (Errorf "query table alias: %w" [AErr e])
  | Ok _ => Ok (MkTableRef (descriptor t) alias)
  end.

Definition table_InSchema (t : TableRef) (namespace : string) : result TableRef :=
  match descriptor t with
  | None => Err ErrNilTable
  | Some d =>
      match ValidateIdentifier namespace with
      | Err e => Err (Errorf "query table schema: %w" [AErr e])
      | Ok _ =>
          let old := definition d in
          let moved := set_Schema namespace old in
          Ok (MkTableRef (Some (MkDescriptor moved (columns d) (owned d))) (table_alias t))
      end
  end.

Definition table_Name (t : TableRef) : string := Name (def t).
Definition table_Schema (t : TableRef) : string := Schema (def t).
Definition table_Qualified (t : TableRef) : bool := Qualified (def t).
Definition table_Qualifier (t : TableRef) : string :=
  if negb (String.eqb (table_alias t) "") then table_alias t else Name (def t).
Definition table_QualifierSchema (t : TableRef) : string :=
  if negb (String.eqb (table_alias t) "") then "" else Schema (def t).
Definition table_QualifiedName (t : TableRef) : string :=
  if negb (String.eqb (table_alias t) "") then table_alias t else QualifiedName (def t).
Definition table_Supports (t : TableRef) (operation : N) : bool :=
  match descriptor t with Some d => Supports (definition d) operation | None => false end.
Definition table_column (t : TableRef) (cname : string) : option ColumnDef :=
  match descriptor t with Some d => descriptor_column d cname | None => None end.
Definition nul_text : string := str1 nul.
Definition table_key (t : TableRef) : string :=
  match descriptor t with
  | None => nul_text +:+ nul_text +:+ table_alias t
  | Some d => Schema (definition d) +:+ nul_text +:+ Name (definition d) +:+ nul_text +:+ table_alias t
  end.

Record sourceReference := MkReference { qualifier : string; ref_schema : string; ref_descriptor : string }.

Definition conflicts (r other : sourceReference) : bool :=
  if negb (String.eqb (qualifier r) (qualifier other)) then false
  else if negb (String.eqb (ref_schema r) "") && negb (String.eqb (ref_schema other) "")
  then String.eqb (ref_schema r) (ref_schema other)
  else true.

(** ** Structs shared by the three types *)

(** A bound Go value ([any]); nothing in the packages [query] and [render]
    looks inside one.  [any_token] is [bindplan.Token], which the typed API
    binds, and [any_named] is [sql.NamedArg]; [Copy] is what the token's
    copier returns each time it is called. *)
Inductive any :=
| any_nil
| any_int (z : Z)
| any_string (s : string)
| any_other (go_type : string) (id : Z)
| any_token (ID : N) (Value : any) (Codec : string) (Err_ : option error) (Copy : option (result any))
            (PreEncoded Parameter_ : bool)
| any_named (name : string) (value : any).

(** [Projection]: a [ColumnRef] projects itself and is recognised by its
    type; every other implementation is an expression with an alias. *)
Inductive projection_ (E R : Type) :=
| PNil
| PColumn (source : R) (cname : string)
| PExpr (e : E) (alias : string).
Arguments PNil {E R}.
Arguments PColumn {E R} source cname.
Arguments PExpr {E R} e alias.

Record order_ (E R : Type) := MkOrder {
  o_expression : E; o_resultProjection : projection_ E R; descending : bool; nullPlacement : N }.
Arguments MkOrder {E R}.
Arguments o_expression {E R} _.
Arguments o_resultProjection {E R} _.
Arguments descending {E R} _.
Arguments nullPlacement {E R} _.
Definition NullPlacementDefault : N := 0.
Definition NullsFirst : N := 1.
Definition NullsLast : N := 2.

Record join_ (E R : Type) := MkJoin { join_kind : string; join_source : R; join_on : E }.
Arguments MkJoin {E R}.
Arguments join_kind {E R} _.
Arguments join_source {E R} _.
Arguments join_on {E R} _.
Definition JoinInner : string := "INNER".
Definition JoinLeft : string := "LEFT".

Record Lock := MkLock { strength : N; lock_of : list TableRef; wait : N }.
Definition LockUpdate : N := 1.
Definition LockNoKeyUpdate : N := 2.
Definition LockShare : N := 3.
Definition LockKeyShare : N := 4.
Definition LockWaitDefault : N := 0.
Definition LockWaitNoWait : N := 1.
Definition LockWaitSkipLocked : N := 2.
Definition no_lock : Lock := MkLock 0 [] 0.

Record ResultColumn := MkResultColumn {
  rc_Name : string; rc_Type : option ColumnType; rc_Nullable : bool; rc_Codec : string }.

Record result_query_ (B : Type) := MkResultQuery { rq_body : B; rq_columns : list ResultColumn }.
Arguments MkResultQuery {B}.
Arguments rq_body {B} _.
Arguments rq_columns {B} _.

Record cte_ (B : Type) := MkCTE { cte_name : string; cte_query : result_query_ B; cte_id : N }.
Arguments MkCTE {B}.
Arguments cte_name {B} _.
Arguments cte_query {B} _.
Arguments cte_id {B} _.

Record select_ (E R B : Type) := MkSelect {
  projections : list (projection_ E R);
  from : R;
  correlations : list R;
  ctes : list (cte_ B);
  joins : list (join_ E R);
  where_ : E;
  groupBy : list E;
  having : E;
  orderBy : list (order_ E R);
  limit : Z;
  hasLimit : bool;
  offset : Z;
  hasOffset : bool;
  distinct : bool;
  lock : Lock;
  hasLock : bool;
  checked : bool }.
Arguments MkSelect {E R B}.
Arguments projections {E R B} _.
Arguments from {E R B} _.
Arguments correlations {E R B} _.
Arguments ctes {E R B} _.
Arguments joins {E R B} _.
Arguments where_ {E R B} _.
Arguments groupBy {E R B} _.
Arguments having {E R B} _.
Arguments orderBy {E R B} _.
Arguments limit {E R B} _.
Arguments hasLimit {E R B} _.
Arguments offset {E R B} _.
Arguments hasOffset {E R B} _.
Arguments distinct {E R B} _.
Arguments lock {E R B} _.
Arguments hasLock {E R B} _.
Arguments checked {E R B} _.

Record NativeResult := MkNativeResult { engine : string; nat_sql : string; nat_args : list any }.

Inductive fragment_part_ (E : Type) :=
| fragmentHole (value : E)
| identifierHole (ident : string)
| OtherPart (go_type : string).
Arguments fragmentHole {E} value.
Arguments identifierHole {E} ident.
Arguments OtherPart {E} go_type.

(** ** The mutual type *)
Inductive expression :=
| ENil
| EDefault
| EOther (go_type : string)
| EColumn (source : relation) (cname : string)
| EExcluded (source : relation) (cname : string)
| ETableIdentifier (table : relation)
| EValue (value : any)
| EBinary (left : expression) (operator : string) (right : expression)
| ECase (operand : expression) (branches : list (expression * expression))
        (fallback : expression) (hasFallback : bool)
| ECast (expr : expression) (target : option ColumnType)
| EFilter (aggregate predicate : expression)
| EOver (expr : expression) (partition : list expression) (order : list (order_ expression relation))
| EFragment (sql : string) (parts : list (fragment_part_ expression))
| ELogical (operator : string) (expressions : list expression)
| ENot (expr : expression)
| ENullTest (expr : expression) (not : bool)
| EMembership (expr : expression) (values : list expression) (not : bool)
              (subquery : option (select_ expression relation body))
| ESubquery (statement : select_ expression relation body)
| EExistence (statement : select_ expression relation body) (not : bool)
| EFunction (fname : string) (arguments : list expression) (star dist unchecked : bool)
with relation :=
| RelZero
| RelTable (table : TableRef)
| RelResult (ptr : string) (q : result_query_ body) (alias : string)
| RelCTE (ptr : string) (c : cte_ body) (q : result_query_ body) (alias : string)
with body :=
| BNil
| BNative (n : NativeResult)
| BSelect (s : select_ expression relation body)
| BCompound (left right : result_query_ body) (operator : N).

Abbreviation Select := (select_ expression relation body).
Abbreviation Projection := (projection_ expression relation).
Abbreviation Order := (order_ expression relation).
Abbreviation JoinClause := (join_ expression relation).
Abbreviation CTE := (cte_ body).
Abbreviation ResultQuery := (result_query_ body).
Abbreviation FragmentPart := (fragment_part_ expression).

Definition ProjectedExpression (p : Projection) : expression :=
  match p with PNil => ENil | PColumn s c => EColumn s c | PExpr e _ => e end.
Definition ResultAlias (p : Projection) : string :=
  match p with PExpr _ a => a | _ => "" end.
Definition proj_is_nil (p : Projection) : bool := match p with PNil => true | _ => false end.
Definition is_nil (e : expression) : bool := match e with ENil => true | _ => false end.
Definition body_is_nil (b : body) : bool := match b with BNil => true | _ => false end.

(** [Order.ResultProjection]. *)
Definition order_is_result (o : Order) : bool := negb (proj_is_nil (o_resultProjection o)).

(** [ResultName]: an alias, or an unwrapped column's own name. *)
Definition ResultName (p : Projection) : option string :=
  if negb (String.eqb (ResultAlias p) "") then Some (ResultAlias p)
  else match p with PColumn _ c => Some c | _ => None end.

(** ** [RelationRef] methods *)
Definition Table (r : relation) : option TableRef :=
  match r with RelTable t => Some t | _ => None end.
Definition rel_alias (r : relation) : string :=
  match r with RelZero => "" | RelTable t => table_alias t | RelResult _ _ a => a | RelCTE _ _ _ a => a end.
Definition rel_result (r : relation) : option ResultQuery :=
  match r with RelResult _ q _ => Some q | RelCTE _ _ q _ => Some q | _ => None end.

Definition hasColumn (r : relation) (cname : string) : bool :=
  match r with
  | RelTable t => match table_column t cname with Some _ => true | None => false end
  | _ => match rel_result r with
         | None => false
         | Some q => existsb (fun c => String.eqb (rc_Name c) cname) (rq_columns q)
         end
  end.

Definition Qualifier (r : relation) : string :=
  if negb (String.eqb (rel_alias r) "") then rel_alias r
  else match Table r with Some t => table_Qualifier t | None => "" end.
Definition QualifierSchema (r : relation) : string :=
  if negb (String.eqb (rel_alias r) "") then ""
  else match Table r with Some t => table_QualifierSchema t | None => "" end.
Definition rel_Schema (r : relation) : string :=
  match Table r with Some t => table_Schema t | None => "" end.
Definition rel_Name (r : relation) : string :=
  match Table r with Some t => table_Name t | None => Qualifier r end.
Definition rel_QualifiedName (r : relation) : string :=
  if negb (String.eqb (rel_alias r) "") then rel_alias r
  else match Table r with Some t => table_QualifiedName t | None => "" end.
Definition rel_Definition (r : relation) : TableDef :=
  match Table r with Some t => def t | None => zero_def end.
Definition ResultBody (r : relation) : body :=
  match rel_result r with Some q => rq_body q | None => BNil end.
Definition CTEName (r : relation) : string :=
  match r with RelCTE _ c _ _ => cte_name c | _ => "" end.
Definition cteID (r : relation) : N := match r with RelCTE _ c _ _ => cte_id c | _ => 0%N end.

Definition rel_Columns (r : relation) : list ResultColumn :=
  match r with
  | RelTable t => map (fun c => MkResultColumn (Column_Name c) (Column_Type c) (Column_Nullable c) "")
                      (Columns (def t))
  | _ => match rel_result r with Some q => rq_columns q | None => [] end
  end.

Definition key (r : relation) : string :=
  match r with
  | RelZero => "relation" +:+ nul_text
  | RelTable t => "table" +:+ nul_text +:+ table_key t
  | RelResult p _ a => "result" +:+ nul_text +:+ p +:+ nul_text +:+ a
  | RelCTE p _ _ a => "cte" +:+ nul_text +:+ p +:+ nul_text +:+ a
  end.

Definition rel_validate (r : relation) : result unit :=
  match r with
  | RelZero => Err ErrNilTable
  | RelTable t => table_validate t
  | RelResult _ _ a | RelCTE _ _ _ a =>
      if String.eqb a "" then Err (errors_New "relation alias must not be empty") else Ok tt
  end.

Definition reference (r : relation) : sourceReference :=
  MkReference (Qualifier r) (QualifierSchema r)
    (match Table r with Some t => QualifiedName (def t) | None => rel_QualifiedName r end).

Definition Derived (ptr : string) (q : ResultQuery) (alias : string) : result relation :=
  match ValidateSimpleIdentifier alias with
  | Err e => Err (Errorf "derived relation alias: %w" [AErr e])
  | Ok _ => if body_is_nil (rq_body q) then Err (errors_New "derived relation query must not be empty")
            else Ok (RelResult ptr q alias)
  end.

(** [CommonTable] takes the identity the atomic counter hands out. *)
Definition CommonTable (id : N) (cname : string) (q : ResultQuery) : result CTE :=
  match ValidateSimpleIdentifier cname with
  | Err e => Err (Errorf "CTE name: %w" [AErr e])
  | Ok _ => if body_is_nil (rq_body q) then Err (errors_New "CTE query must not be empty")
            else Ok (MkCTE cname q id)
  end.
Definition CTE_Ref (ptr : string) (c : CTE) (alias : string) : result relation :=
  let alias := if String.eqb alias "" then cte_name c else alias in
  match ValidateSimpleIdentifier alias with
  | Err e => Err (Errorf "CTE alias: %w" [AErr e])
  | Ok _ => Ok (RelCTE ptr c (cte_query c) alias)
  end.

Definition Union : N := 1.
Definition UnionAll : N := 2.
Definition Intersect : N := 3.
Definition Except : N := 4.
Definition CompoundQuery (left : ResultQuery) (operator : N) (right : ResultQuery) : result body :=
  if body_is_nil (rq_body left) || body_is_nil (rq_body right)
  then Err (errors_New "compound operands must not be empty")
  else if (operator <? Union)%N || (Except <? operator)%N
  then Err (Errorf "unsupported compound operator %d" [AInt (Z.of_N operator)])
  else if negb (length (rq_columns left) =? length (rq_columns right))
  then Err (errors_New "compound operands expose different column counts")
  else Ok (BCompound left right operator).

(** ** Expression constructors ([query/expression.go])

    An operand of type [any] is a typed column ([Ref()]), an expression, or a
    plain Go value to bind. *)
Inductive operand_value :=
| OpRef (source : relation) (cname : string)
| OpExpression (e : expression)
| OpPlain (v : any).

Definition operand (v : operand_value) : expression :=
  match v with
  | OpRef s c => EColumn s c
  | OpExpression e => e
  | OpPlain v => EValue v
  end.
Definition operands (values : list operand_value) : list expression := map operand values.

Definition Bind (value : any) : expression := EValue value.
Definition Excluded (source : relation) (cname : string) : expression := EExcluded source cname.

Definition OperatorEqual := "=".
Definition OperatorNotEqual := "<>".
Definition OperatorGreaterThan := ">".
Definition OperatorGreaterThanOrEqual := ">=".
Definition OperatorLessThan := "<".
Definition OperatorLessThanOrEqual := "<=".
Definition OperatorLike := "LIKE".
Definition OperatorMatch := "MATCH".
Definition OperatorAdd := "+".
Definition OperatorSubtract := "-".
Definition OperatorMultiply := "*".
Definition OperatorDivide := "/".
Definition OperatorModulo := "%".

Definition Compare (left : operand_value) (operator : string) (right : operand_value) : expression :=
  EBinary (operand left) operator (operand right).
Definition Equal l r := Compare l OperatorEqual r.
Definition NotEqual l r := Compare l OperatorNotEqual r.
Definition GreaterThan l r := Compare l OperatorGreaterThan r.
Definition GreaterThanOrEqual l r := Compare l OperatorGreaterThanOrEqual r.
Definition LessThan l r := Compare l OperatorLessThan r.
Definition LessThanOrEqual l r := Compare l OperatorLessThanOrEqual r.
Definition Add l r := Compare l OperatorAdd r.
Definition Subtract l r := Compare l OperatorSubtract r.
Definition Multiply l r := Compare l OperatorMultiply r.
Definition Divide l r := Compare l OperatorDivide r.
Definition Modulo l r := Compare l OperatorModulo r.
Definition Like l r := Compare l OperatorLike r.
Definition Match (table : TableRef) (expr : operand_value) : expression :=
  EBinary (ETableIdentifier (RelTable table)) OperatorMatch (operand expr).

Definition When (predicate : expression) (result : operand_value) : expression * expression :=
  (predicate, operand result).
Definition SearchedCase (branches : list (expression * expression)) : expression :=
  ECase ENil branches ENil false.
Definition SimpleCase (operandValue : operand_value) (branches : list (expression * expression)) : expression :=
  ECase (operand operandValue) branches ENil false.
Definition Else (c : expression) (value : operand_value) : expression :=
  match c with
  | ECase op branches _ _ => ECase op branches (operand value) true
  | _ => c
  end.
Definition CastAs (v : operand_value) (target : option ColumnType) : expression := ECast (operand v) target.
Definition FilterWhere (aggregate predicate : expression) : expression := EFilter aggregate predicate.
Definition OverWindow (e : expression) (partition : list expression) (order : list Order) : expression :=
  EOver e partition order.
Definition Hole (v : operand_value) : FragmentPart := fragmentHole (operand v).
Definition IdentifierHole (ident : string) : FragmentPart := identifierHole ident.
Definition TrustedSQL (sql : string) (parts : list FragmentPart) : expression := EFragment sql parts.

Definition LogicalAnd := "AND".
Definition LogicalOr := "OR".
Definition And (l : list expression) : expression := ELogical LogicalAnd l.
Definition Or (l : list expression) : expression := ELogical LogicalOr l.
Definition Negate (e : expression) : expression := ENot e.
Definition IsNull (e : expression) : expression := ENullTest e false.
Definition IsNotNull (e : expression) : expression := ENullTest e true.
Definition In_ (e : operand_value) (values : list operand_value) : expression :=
  EMembership (operand e) (operands values) false None.
Definition NotIn (e : operand_value) (values : list operand_value) : expression :=
  EMembership (operand e) (operands values) true None.
Definition InSelect (e : operand_value) (statement : Select) : expression :=
  EMembership (operand e) [] false (Some statement).
Definition NotInSelect (e : operand_value) (statement : Select) : expression :=
  EMembership (operand e) [] true (Some statement).
Definition Scalar (statement : Select) : expression := ESubquery statement.
Definition Exists_ (statement : Select) : expression := EExistence statement false.
Definition NotExists (statement : Select) : expression := EExistence statement true.

Definition FunctionCount := "COUNT".
Definition FunctionSum := "SUM".
Definition FunctionMin := "MIN".
Definition FunctionMax := "MAX".
Definition FunctionAvg := "AVG".
Definition FunctionCoalesce := "COALESCE".
Definition FunctionLower := "LOWER".
Definition FunctionUpper := "UPPER".
Definition FunctionAbs := "ABS".
Definition FunctionBM25 := "BM25".
Definition Call (fname : string) (arguments : list operand_value) : expression :=
  EFunction fname (operands arguments) false false false.
Definition Func (fname : string) (arguments : list operand_value) : expression :=
  EFunction fname (operands arguments) false false true.
Definition CallOne (fname : string) (e : expression) : expression := Call fname [OpExpression e].
Definition Count (e : expression) := CallOne FunctionCount e.
Definition CountAll : expression := EFunction FunctionCount [] true false false.
Definition Sum (e : expression) := CallOne FunctionSum e.
Definition Min (e : expression) := CallOne FunctionMin e.
Definition Max (e : expression) := CallOne FunctionMax e.
Definition Avg (e : operand_value) := CallOne FunctionAvg (operand e).
Definition Coalesce (l : list operand_value) := Call FunctionCoalesce l.
Definition Lower (e : operand_value) := CallOne FunctionLower (operand e).
Definition Upper (e : expression) := CallOne FunctionUpper e.
Definition Abs (e : expression) := CallOne FunctionAbs e.
Definition BM25 (table : TableRef) (weights : list any) : expression :=
  Call FunctionBM25 (OpExpression (ETableIdentifier (RelTable table)) :: map OpPlain weights).
Definition WithDistinct_fn (f : expression) : expression :=
  match f with EFunction n a s _ u => EFunction n a s true u | _ => f end.

Definition Project (v : operand_value) : Projection := PExpr (operand v) "".
Definition Project_As (p : Projection) (alias : string) : Projection := PExpr (ProjectedExpression p) alias.
Definition InnerJoin (source : relation) (on : expression) : JoinClause := MkJoin JoinInner source on.
Definition LeftJoin (source : relation) (on : expression) : JoinClause := MkJoin JoinLeft source on.
Definition Asc (v : operand_value) : Order := MkOrder (operand v) PNil false NullPlacementDefault.
Definition Desc (v : operand_value) : Order := MkOrder (operand v) PNil true NullPlacementDefault.
Definition AscNulls (v : operand_value) (placement : N) : Order := MkOrder (operand v) PNil false placement.
Definition DescNulls (v : operand_value) (placement : N) : Order := MkOrder (operand v) PNil true placement.
Definition AscResult (p : Projection) : Order := MkOrder ENil p false NullPlacementDefault.
Definition DescResult (p : Projection) : Order := MkOrder ENil p true NullPlacementDefault.
Definition RowLock (s : N) : Lock := MkLock s [] LockWaitDefault.
Definition Lock_Of (l : Lock) (tables : list TableRef) : Lock := MkLock (strength l) tables (wait l).
Definition Lock_Wait (l : Lock) (w : N) : Lock := MkLock (strength l) (lock_of l) w.

(** [Function.Aggregates] reads the curated table of [query/validate.go]. *)
Record functionSpec := MkSpec { aggregate : bool; minimum : nat; maximum : nat }.
Definition functionSpecs : list (string * functionSpec) :=
  [(FunctionCount, MkSpec true 1 1); (FunctionSum, MkSpec true 1 1); (FunctionMin, MkSpec true 1 1);
   (FunctionMax, MkSpec true 1 1); (FunctionAvg, MkSpec true 1 1);
   (FunctionCoalesce, MkSpec false 2 0); (FunctionLower, MkSpec false 1 1);
   (FunctionUpper, MkSpec false 1 1); (FunctionAbs, MkSpec false 1 1)].
Fixpoint assoc {A} (k : string) (l : list (string * A)) : option A :=
  match l with
  | [] => None
  | (k', a) :: l' => if String.eqb k k' then Some a else assoc k l'
  end.
Definition find_spec (fname : string) : option functionSpec := assoc fname functionSpecs.
Definition Aggregates (fname : string) (unchecked : bool) : bool :=
  if unchecked then false
  else match find_spec fname with Some spec => aggregate spec | None => false end.

(** ** Induction over the mutual type

    The premises of a struct's case are predicates on its parts; the parts of
    the shared records are collected by the [..._all] predicates. *)
Section Induction.
Variables (PE : expression -> Prop) (PR : relation -> Prop) (PB : body -> Prop).

Definition proj_all (p : Projection) : Prop :=
  match p with PNil => True | PColumn r _ => PR r | PExpr e _ => PE e end.
Definition order_all (o : Order) : Prop := PE (o_expression o) /\ proj_all (o_resultProjection o).
Definition join_all (j : JoinClause) : Prop := PR (join_source j) /\ PE (join_on j).
Definition cte_all (c : CTE) : Prop := PB (rq_body (cte_query c)).
Definition part_all (p : FragmentPart) : Prop := match p with fragmentHole e => PE e | _ => True end.
Definition branch_all (b : expression * expression) : Prop := PE b.1 /\ PE b.2.
Record select_all (s : Select) : Prop := {
  sa_projections : Forall proj_all (projections s);
  sa_from : PR (from s);
  sa_correlations : Forall PR (correlations s);
  sa_ctes : Forall cte_all (ctes s);
  sa_joins : Forall join_all (joins s);
  sa_where : PE (where_ s);
  sa_groupBy : Forall PE (groupBy s);
  sa_having : PE (having s);
  sa_orderBy : Forall order_all (orderBy s) }.

Record induction_cases : Prop := {
  ic_nil : PE ENil;
  ic_default : PE EDefault;
  ic_other : forall t, PE (EOther t);
  ic_column : forall r c, PR r -> PE (EColumn r c);
  ic_excluded : forall r c, PR r -> PE (EExcluded r c);
  ic_ident : forall r, PR r -> PE (ETableIdentifier r);
  ic_value : forall v, PE (EValue v);
  ic_binary : forall l op r, PE l -> PE r -> PE (EBinary l op r);
  ic_case : forall op bs f h, PE op -> Forall branch_all bs -> PE f -> PE (ECase op bs f h);
  ic_cast : forall e t, PE e -> PE (ECast e t);
  ic_filter : forall a p, PE a -> PE p -> PE (EFilter a p);
  ic_over : forall e ps os, PE e -> Forall PE ps -> Forall order_all os -> PE (EOver e ps os);
  ic_fragment : forall sql ps, Forall part_all ps -> PE (EFragment sql ps);
  ic_logical : forall op es, Forall PE es -> PE (ELogical op es);
  ic_not : forall e, PE e -> PE (ENot e);
  ic_null : forall e n, PE e -> PE (ENullTest e n);
  ic_member : forall e vs n, PE e -> Forall PE vs -> PE (EMembership e vs n None);
  ic_member_sub : forall e vs n s, PE e -> Forall PE vs -> select_all s -> PE (EMembership e vs n (Some s));
  ic_subquery : forall s, select_all s -> PE (ESubquery s);
  ic_existence : forall s n, select_all s -> PE (EExistence s n);
  ic_function : forall f es st d u, Forall PE es -> PE (EFunction f es st d u);
  ic_zero : PR RelZero;
  ic_table : forall t, PR (RelTable t);
  ic_result : forall p q a, PB (rq_body q) -> PR (RelResult p q a);
  ic_cte : forall p c q a, cte_all c -> PB (rq_body q) -> PR (RelCTE p c q a);
  ic_bnil : PB BNil;
  ic_native : forall n, PB (BNative n);
  ic_select : forall s, select_all s -> PB (BSelect s);
  ic_compound : forall l r op, PB (rq_body l) -> PB (rq_body r) -> PB (BCompound l r op) }.

Definition list_all {A} (P : A -> Prop) (f : forall a, P a) : forall l, Forall P l :=
  fix go l := match l with [] => Forall_nil_2 P | x :: l' => Forall_cons_2 P x l' (f x) (go l') end.

Variable IC : induction_cases.

Fixpoint expression_all (e : expression) : PE e
with relation_all (r : relation) : PR r
with body_all (b : body) : PB b.
Proof using IC.
  all: pose (projection_all := fun p : Projection =>
    match p return proj_all p with PNil => I | PColumn r _ => relation_all r | PExpr e _ => expression_all e end).
  all: pose (ordering_all := fun o : Order =>
    match o return order_all o with MkOrder e p _ _ => conj (expression_all e) (projection_all p) end).
  all: pose (joining_all := fun j : JoinClause =>
    match j return join_all j with MkJoin _ r e => conj (relation_all r) (expression_all e) end).
  all: pose (query_all := fun q : ResultQuery =>
    match q return PB (rq_body q) with MkResultQuery b _ => body_all b end).
  all: pose (table_all := fun c : CTE =>
    match c return cte_all c with MkCTE _ q _ => query_all q end).
  all: pose (statement_all := fun s : Select =>
    match s return select_all s with
    | MkSelect ps f cs ts js w g h os _ _ _ _ _ _ _ _ =>
        Build_select_all (MkSelect ps f cs ts js w g h os _ _ _ _ _ _ _ _)
          (list_all _ projection_all ps) (relation_all f) (list_all _ relation_all cs)
          (list_all _ table_all ts) (list_all _ joining_all js) (expression_all w)
          (list_all _ expression_all g) (expression_all h) (list_all _ ordering_all os)
    end).
  - destruct e.
    + apply IC.
    + apply IC.
    + apply IC.
    + apply IC; apply relation_all.
    + apply IC; apply relation_all.
    + apply IC; apply relation_all.
    + apply IC.
    + apply IC; apply expression_all.
    + apply IC; [apply expression_all| |apply expression_all].
      apply list_all. intros [p r]. exact (conj (expression_all p) (expression_all r)).
    + apply IC; apply expression_all.
    + apply IC; apply expression_all.
    + apply IC; [apply expression_all|exact (list_all _ expression_all partition)|exact (list_all _ ordering_all order)].
    + apply IC. apply list_all. intros [e| |]; [exact (expression_all e)|exact I|exact I].
    + apply IC. exact (list_all _ expression_all expressions).
    + apply IC; apply expression_all.
    + apply IC; apply expression_all.
    + destruct subquery as [s|].
      * apply IC; [apply expression_all|exact (list_all _ expression_all values)|exact (statement_all s)].
      * apply IC; [apply expression_all|exact (list_all _ expression_all values)].
    + apply IC. exact (statement_all statement).
    + apply IC. exact (statement_all statement).
    + apply IC. exact (list_all _ expression_all arguments).
  - destruct r.
    + apply IC.
    + apply IC.
    + apply IC. exact (query_all q).
    + apply IC; [exact (table_all c)|exact (query_all q)].
  - destruct b.
    + apply IC.
    + apply IC.
    + apply IC. exact (statement_all s).
    + apply IC; apply query_all.
Qed.
End Induction.

(** ** The column index answers like a scan *)
Fixpoint find_index (cname : string) (l : list ColumnDef) : option nat :=
  match l with
  | [] => None
  | c :: l' => if String.eqb (Column_Name c) cname then Some 0 else S <$> find_index cname l'
  end.

Lemma find_column_index cname l : find_column cname l = (i ← find_index cname l; l !! i).
Proof.
  induction l as [|c l IH]; simpl; [done|].
  destruct (String.eqb_spec (Column_Name c) cname); [done|]. rewrite IH. by destruct (find_index cname l).
Qed.

Definition index_body (i : nat) (column : ColumnDef) (m : gmap string nat) : result (gmap string nat) :=
  match m !! Column_Name column with
  | Some _ => Ok m
  | None => Ok (<[Column_Name column := i]> m)
  end.

Lemma foldi_index l i m :
  exists m', foldi index_body i l m = Ok m' /\
    forall n, m' !! n = match m !! n with Some x => Some x | None => Nat.add i <$> find_index n l end.
Proof.
  revert i m. induction l as [|c l IH]; intros i m; cbn [foldi].
  - exists m. split; [done|]. intros n. simpl. by destruct (m !! n).
  - unfold index_body at 1. destruct (m !! Column_Name c) as [x|] eqn:E.
    + destruct (IH (S i) m) as (m' & -> & H). exists m'. split; [done|]. intros n. rewrite H. simpl.
      destruct (m !! n) eqn:En; [done|].
      destruct (String.eqb_spec (Column_Name c) n) as [<-|]; [congruence|].
      destruct (find_index n l); simpl; [|done]. f_equal. lia.
    + destruct (IH (S i) (<[Column_Name c := i]> m)) as (m' & -> & H).
      exists m'. split; [done|]. intros n. rewrite H. simpl.
      destruct (String.eqb_spec (Column_Name c) n) as [<-|Hne].
      * rewrite lookup_insert_eq, E. simpl. f_equal. lia.
      * rewrite lookup_insert_ne by done. destruct (m !! n); [done|].
        destruct (find_index n l); simpl; [|done]. f_equal. lia.
Qed.

Lemma newTableDescriptor_index def own :
  definition (newTableDescriptor def own) = def /\ owned (newTableDescriptor def own) = own /\
  forall n, columns (newTableDescriptor def own) !! n = find_index n (Columns def).
Proof.
  unfold newTableDescriptor. destruct (foldi_index (Columns def) 0 ∅) as (m & E & H).
  unfold index_body in E. rewrite E. split_and!; [done|done|].
  intros n. simpl. rewrite H, lookup_empty. by destruct (find_index n (Columns def)).
Qed.

Lemma find_index_name cname l i : find_index cname l = Some i ->
  exists c, l !! i = Some c /\ Column_Name c = cname.
Proof.
  revert i. induction l as [|c l IH]; intros i; simpl; [done|].
  destruct (String.eqb_spec (Column_Name c) cname) as [<-|_]; [intros [= <-]; by exists c|].
  destruct (find_index cname l) as [j|]; [|done]. intros [= <-]. by apply IH.
Qed.

(** ** Claims *)

(** The column index of a table descriptor agrees with the scan it
    replaces: right after construction an indexed lookup returns exactly what
    [schema.TableDef.Column] returns, owned or not.  When the caller of
    [TableRefFrom] later renames columns in place, a lookup on the unowned
    descriptor still finds a column exactly when the live columns hold one of
    that name, and never returns a column of another name. *)
Lemma column_index_scan (tdef : TableDef) (own : bool) (cname : string) :
  descriptor_column (newTableDescriptor tdef own) cname = Column tdef cname /\
  forall renamed, length (Columns renamed) = length (Columns tdef) ->
    let d := MkDescriptor renamed (columns (newTableDescriptor tdef false)) false in
    (descriptor_column d cname = None <-> Column renamed cname = None) /\
    (forall c, descriptor_column d cname = Some c -> c ∈ Columns renamed /\ Column_Name c = cname).
Proof.
  split.
  - destruct (newTableDescriptor_index tdef own) as (Hd & Ho & Hi).
    unfold descriptor_column, Column. rewrite Hd, Ho, Hi, find_column_index.
    destruct (find_index cname (Columns tdef)) as [i|] eqn:E; simpl; [|by destruct own].
    destruct (find_index_name _ _ _ E) as (c & -> & <-). by rewrite String.eqb_refl, orb_true_r.
  - intros renamed Hlen d. destruct (newTableDescriptor_index tdef false) as (_ & _ & Hi).
    unfold descriptor_column, d. cbn [columns definition owned orb]. rewrite Hi.
    assert (forall c, Column renamed cname = Some c -> c ∈ Columns renamed /\ Column_Name c = cname) as Hscan.
    { intros c. apply find_column_some. }
    destruct (find_index cname (Columns tdef)) as [i|]; [|done].
    destruct (Columns renamed !! i) as [c|] eqn:Ec; [|done].
    destruct (String.eqb_spec (Column_Name c) cname) as [<-|_]; [|done].
    pose proof (list_elem_of_lookup_2 _ _ _ Ec) as Hin. split; [|by intros ? [= <-]].
    split; [done|]. intros Hn. unfold Column in Hn. apply find_column_none in Hn.
    destruct Hn. apply list_elem_of_fmap. eauto.
Qed.

Lemma column_index_scan_witness :
  let t := table_of "" "t" "" 0 [column_of "a" None false] in
  let r := table_of "" "t" "" 0 [column_of "b" None false] in
  descriptor_column (MkDescriptor r (columns (newTableDescriptor t false)) false) "b" <> None.
Proof.
  intros t r H.
  apply (proj1 (proj2 (column_index_scan t false "b") r eq_refl)) in H. discriminate H.
Defined.
