(* ===== verification/QueryValidate.v ===== *)
(** * QueryValidate: [query/validate.go] and [Select.Validate] of
    [query/select.go]

    Expression validation and SELECT validation call each other; the model is
    one mutual fixpoint over expressions and query bodies, with
    [Select.Validate] and the function rules as the open definitions it ties
    together.  The order of the checks is the source's, so the first error is
    the source's first error. *)

From S2P Require Import Prelude GoText SqlScan Schema Query.
Open Scope string_scope.
Open Scope list_scope.
Open Scope nat_scope.

(** ** Scope, context, usage *)
Definition qerr (path format : string) (args : list err_arg) : error :=
  validationError path format args.
Definition fail {A} (path format : string) (args : list err_arg) : result A :=
  Err (qerr path format args).
(** [validationError(path, "%s", err)]. *)
Definition at_path {A} (path : string) (r : result A) : result A :=
  wrap_err (fun e => qerr path "%s" [AErr e]) r.

(** [fmt.Sprintf("%s.field[%d]", path, i)]. *)
Definition item (path field : string) (i : nat) : string :=
  path +:+ field +:+ "[" +:+ NatItoa i +:+ "]".

Record sourceScope := MkScope { keys : gset string; references : list sourceReference }.
Definition empty_scope : sourceScope := MkScope ∅ [].
Definition scope_add (s : sourceScope) (r : relation) : sourceScope :=
  MkScope ({[ key r ]} ∪ keys s) (references s ++ [reference r]).
Definition newSourceScope (r : relation) : sourceScope := scope_add empty_scope r.
Definition in_scope (s : sourceScope) (r : relation) : bool := bool_decide (key r ∈ keys s).

Record expressionContext := MkContext {
  sources : sourceScope; clause : string; allowsAggregate : bool; allowsSubquery : bool;
  aggregateDepth : nat; rowValue : bool; allowsExcluded : bool }.

Definition clauseContext (s : sourceScope) (c : string) := MkContext s c false false 0 false false.
Definition rowValueContext (s : sourceScope) (c : string) := MkContext s c false false 0 true false.
Definition aggregateClauseContext (s : sourceScope) (c : string) := MkContext s c true true 0 false false.
Definition subqueryClauseContext (s : sourceScope) (c : string) := MkContext s c false true 0 false false.
Definition excludedContext (s : sourceScope) (c : string) := MkContext s c false false 0 false true.
Definition projectionContext (s : sourceScope) := aggregateClauseContext s "a SELECT projection".

Definition inAggregate (c : expressionContext) : expressionContext :=
  MkContext (sources c) (clause c) (allowsAggregate c) (allowsSubquery c) (S (aggregateDepth c))
    (rowValue c) (allowsExcluded c).
(** [ctx.allowsAggregate = false; ctx.aggregateDepth = 0], for a FILTER
    predicate and a window. *)
Definition withoutAggregate (c : expressionContext) : expressionContext :=
  MkContext (sources c) (clause c) false (allowsSubquery c) 0 (rowValue c) (allowsExcluded c).

Record expressionUsage := MkUsage { u_aggregate : bool; u_bareColumn : bool }.
Definition no_usage : expressionUsage := MkUsage false false.
Definition merge (u other : expressionUsage) : expressionUsage :=
  MkUsage (u_aggregate u || u_aggregate other) (u_bareColumn u || u_bareColumn other).
Definition column_usage (c : expressionContext) : expressionUsage :=
  MkUsage false (aggregateDepth c =? 0).

(** [for i, x := range l { u, err := f(i, x); ...; usage = usage.merge(u) }]. *)
Definition merge_loop {A} (f : nat -> A -> result expressionUsage) (l : list A) (u : expressionUsage)
  : result expressionUsage :=
  foldi (fun i x acc => do u' <- f i x; Ok (merge acc u')) 0 l u.

(** ** Checks that do not recurse *)
Definition validateAlias (alias : string) : result unit :=
  wrap_err (fun e => Errorf "invalid alias: %w" [AErr e]) (ValidateSimpleIdentifier alias).

Definition validBinaryOperator (op : string) : bool :=
  bool_decide (op ∈ [OperatorEqual; OperatorNotEqual; OperatorGreaterThan; OperatorGreaterThanOrEqual;
    OperatorLessThan; OperatorLessThanOrEqual; OperatorLike; OperatorMatch; OperatorAdd;
    OperatorSubtract; OperatorMultiply; OperatorDivide; OperatorModulo]).

Definition predicateExpression (e : expression) : bool :=
  match e with
  | EBinary _ _ _ | ELogical _ _ | ENot _ | ENullTest _ _ | EMembership _ _ _ _ | EExistence _ _ => true
  | _ => false
  end.

Definition validCastType (target : option ColumnType) : bool :=
  match target with
  | Some OpaqueType | Some (ExternalType _ _) | None => false
  | Some _ => true
  end.

Definition validateFunctionArity (fname : string) (count : nat) (spec : functionSpec) (path : string)
  : result unit :=
  if minimum spec =? maximum spec then
    if negb (count =? minimum spec)
    then fail path "function %q takes exactly %d argument(s), got %d"
           [AStr fname; ANat (minimum spec); ANat count]
    else Ok tt
  else if count <? minimum spec
  then fail path "function %q takes at least %d argument(s), got %d"
         [AStr fname; ANat (minimum spec); ANat count]
  else if (0 <? maximum spec) && (maximum spec <? count)
  then fail path "function %q takes at most %d argument(s), got %d"
         [AStr fname; ANat (maximum spec); ANat count]
  else Ok tt.

Definition lock_source_keys (from : relation) (joins : list JoinClause) : gset string :=
  let add (s : gset string) r := match Table r with Some t => {[ table_key t ]} ∪ s | None => s end in
  fold_left (fun s j => add s (join_source j)) joins (add ∅ from).

Definition validateLock (l : Lock) (from : relation) (joins : list JoinClause) : result unit :=
  if bool_decide (strength l ∉ [LockUpdate; LockNoKeyUpdate; LockShare; LockKeyShare])
  then fail "lock.strength" "unsupported lock strength %d" [AInt (Z.of_N (strength l))]
  else if bool_decide (wait l ∉ [LockWaitDefault; LockWaitNoWait; LockWaitSkipLocked])
  then fail "lock.wait" "unsupported lock wait mode %d" [AInt (Z.of_N (wait l))]
  else
    let srcs := lock_source_keys from joins in
    do _ <- foldi (fun i table (seen : gset string) =>
      let path := item "lock" ".of" i in
      check at_path path (table_validate table);
      if negb (bool_decide (table_key table ∈ srcs))
      then fail path "references a table outside the SELECT sources" []
      else if bool_decide (table_key table ∈ seen)
      then fail path "duplicates table reference %q" [AStr (table_QualifiedName table)]
      else Ok ({[ table_key table ]} ∪ seen)) 0 (lock_of l) ∅;
    Ok tt.

Definition result_count (results : gmap string nat) (n : string) : nat :=
  match results !! n with Some k => k | None => 0 end.

Definition validateOrderResultAlias (p : Projection) (results : gmap string nat) (path : string)
  : result unit :=
  match p with
  | PNil => fail path "must not be nil" []
  | _ =>
    match ResultName p with
    | None => fail path "orders by a projection with no result name; give it one with As, or use Asc on the expression instead" []
    | Some n =>
        check at_path path (validateAlias n);
        match result_count results n with
        | 0 => fail path "orders by the result name %q, which no projection of this statement reports; add the projection to Project before ordering by it" [AStr n]
        | 1 => Ok tt
        | count => fail path "orders by the result name %q, which %d projections report, so the ordering is ambiguous; give one of them a distinct alias" [AStr n; ANat count]
        end
    end
  end.

Definition validateSourceReference (refs : list sourceReference) (source : relation) (path : string)
  : result unit :=
  let candidate := reference source in
  match List.find (fun existing => conflicts existing candidate) refs with
  | None => Ok tt
  | Some existing =>
      fail path "table %q is referred to as %q, which already refers to table %q; give one of them a distinct alias"
        [AStr (ref_descriptor candidate); AStr (qualifier candidate); AStr (ref_descriptor existing)]
  end.

Definition isCorrelatedSource (correlations : list relation) (source : relation) : bool :=
  existsb (fun c => String.eqb (key c) (key source)) correlations.

Definition validateVisibleCTE (source : relation) (l : list CTE) (path : string) : result unit :=
  if String.eqb (CTEName source) "" then Ok tt
  else match l with
       | [] => Ok tt
       | _ => if existsb (fun c => (cte_id c =? cteID source)%N) l then Ok tt
              else fail path "references CTE %q outside its owning SELECT" [AStr (CTEName source)]
       end.

Definition resultNames (ps : list Projection) : gmap string nat :=
  fold_left (fun m p => match ResultName p with
                        | Some n => <[n := S (result_count m n)]> m
                        | None => m end) ps ∅.

(** The checks a column read makes, with the messages of the three cases that
    make them ([ColumnRef], [ExcludedColumn], [TableIdentifier]). *)
Definition outside {A} (path : string) (source : relation) : result A :=
  fail path "references table %q outside the statement" [AStr (rel_QualifiedName source)].
Definition column_read (source : relation) (cname : string) (ctx : expressionContext) (path : string)
  : result expressionUsage :=
  if negb (in_scope (sources ctx) source) then outside path source
  else if negb (hasColumn source cname) then fail path "references unknown column %q" [AStr cname]
  else Ok (column_usage ctx).

Definition validate_column (source : relation) (cname : string) (ctx : expressionContext) (path : string)
  : result expressionUsage :=
  check at_path path (rel_validate source);
  if rowValue ctx && in_scope (sources ctx) source
  then fail path "references column %q of the target table, but an INSERT VALUES row cannot read the target table's columns" [AStr cname]
  else column_read source cname ctx path.

(** ** The recursive part, open in its recursive calls *)
Section Validate.
Variable validateExpression : expression -> expressionContext -> string -> result expressionUsage.
Variable body_Validate : body -> result unit.

(** [validateExpression(projection.ProjectedExpression(), ...)]: a column
    projects itself, so that case is the column's check directly
    ([validateProjected_eq]). *)
Definition validateProjected (p : Projection) (ctx : expressionContext) (path : string)
  : result expressionUsage :=
  match p with
  | PNil => fail path "must not be nil" []
  | PColumn source cname => validate_column source cname ctx path
  | PExpr e _ => validateExpression e ctx path
  end.

Definition drop_usage {A} (r : result A) : result unit := do _ <- r; Ok tt.
Definition validateClauseExpression (e : expression) (s : sourceScope) (c path : string) : result unit :=
  drop_usage (validateExpression e (clauseContext s c) path).
Definition validateExcludedClauseExpression (e : expression) (s : sourceScope) (c path : string) : result unit :=
  drop_usage (validateExpression e (excludedContext s c) path).
Definition validateSubqueryClauseExpression (e : expression) (s : sourceScope) (c path : string) : result unit :=
  drop_usage (validateExpression e (subqueryClauseContext s c) path).
Definition validateRowValueExpression (e : expression) (s : sourceScope) (c path : string) : result unit :=
  drop_usage (validateExpression e (rowValueContext s c) path).

(** The loop over a list of child expressions that merges their usages. *)
Definition validate_list (l : list expression) (ctx : expressionContext) (path field : string)
  (u : expressionUsage) : result expressionUsage :=
  merge_loop (fun i e => validateExpression e ctx (item path field i)) l u.

Definition validateAggregateFunction (fname : string) (arguments : list expression) (star dist : bool)
  (ctx : expressionContext) (path : string) : result expressionUsage :=
  if 0 <? aggregateDepth ctx
  then fail path "calls aggregate function %q inside another aggregate function" [AStr fname]
  else if negb (allowsAggregate ctx)
  then fail path "calls aggregate function %q in %s, but an aggregate is only valid in a SELECT projection, in a HAVING clause, or in the ORDER BY clause of a statement that groups" [AStr fname; AStr (clause ctx)]
  else if star then
    if negb (String.eqb fname FunctionCount) then fail path "function %q does not support *" [AStr fname]
    else if 0 <? length arguments then fail path "COUNT(*) takes no arguments" []
    else if dist then fail path "COUNT(DISTINCT *) is not valid SQL; call Count with a column instead of CountAll" []
    else Ok (MkUsage true false)
  else if negb (length arguments =? 1)
  then fail path "function %q takes exactly one argument, got %d" [AStr fname; ANat (length arguments)]
  else
    do _ <- validate_list arguments (inAggregate ctx) path ".arguments" no_usage;
    Ok (MkUsage true false).

Definition validateScalarFunction (fname : string) (arguments : list expression) (star dist : bool)
  (spec : functionSpec) (ctx : expressionContext) (path : string) : result expressionUsage :=
  if star then fail path "function %q does not support *" [AStr fname]
  else if dist then fail path "function %q does not aggregate, so it does not support DISTINCT" [AStr fname]
  else
    check validateFunctionArity fname (length arguments) spec path;
    validate_list arguments ctx path ".arguments" no_usage.

Definition validateBM25Function (fname : string) (arguments : list expression) (star dist : bool)
  (ctx : expressionContext) (path : string) : result expressionUsage :=
  if star then fail path "function %q does not support *" [AStr fname]
  else if dist then fail path "function %q does not aggregate, so it does not support DISTINCT" [AStr fname]
  else match arguments with
       | [] => fail path "function %q takes the table's own identifier as its first argument, followed by zero or more column weights" [AStr fname]
       | ETableIdentifier _ :: _ => validate_list arguments ctx path ".arguments" no_usage
       | _ => fail (path +:+ ".arguments[0]") "function %q takes a TableIdentifier as its first argument, got %T; build one with TableRef.Identifier" [AStr fname]
       end.

Definition validateCustomFunction (fname : string) (arguments : list expression) (star : bool)
  (ctx : expressionContext) (path : string) : result expressionUsage :=
  if star then fail path "function %q does not support *" [AStr fname]
  else match ValidateSimpleIdentifier fname with
       | Err e => fail (path +:+ ".function") "invalid function name %q: %s" [AStr fname; AErr e]
       | Ok _ => validate_list arguments ctx path ".arguments" no_usage
       end.

Definition validateFunction (fname : string) (arguments : list expression) (star dist unchecked : bool)
  (ctx : expressionContext) (path : string) : result expressionUsage :=
  if unchecked then validateCustomFunction fname arguments star ctx path
  else if String.eqb fname FunctionBM25 then validateBM25Function fname arguments star dist ctx path
  else match find_spec fname with
       | None => fail (path +:+ ".function") "unsupported function %q" [AStr fname]
       | Some spec =>
           if aggregate spec then validateAggregateFunction fname arguments star dist ctx path
           else validateScalarFunction fname arguments star dist spec ctx path
       end.

Definition validate_window_order (ctx : expressionContext) (path : string) (i : nat) (o : Order)
  : result expressionUsage :=
  if order_is_result o then fail (item path ".order" i) "cannot order by a result alias inside a window" []
  else validateExpression (o_expression o) ctx (item path ".order" i).

Definition validateWindow (partition : list expression) (order : list Order)
  (ctx : expressionContext) (path : string) : result expressionUsage :=
  do u <- validate_list partition ctx path ".partition" no_usage;
  merge_loop (validate_window_order ctx path) order u.

(** One branch of a CASE; merging its two usages first is the same as
    merging them one after the other. *)
Definition validate_branch (simple : bool) (ctx : expressionContext) (path : string) (i : nat)
  (branch : expression * expression) : result expressionUsage :=
  let '(predicate, res) := branch in
  let p := item path ".branches" i in
  if is_nil predicate then fail (p +:+ ".predicate") "must not be nil" []
  else if is_nil res then fail (p +:+ ".result") "must not be nil" []
  else if negb simple && negb (predicateExpression predicate)
  then fail (p +:+ ".predicate") "must be a predicate expression" []
  else
    do u1 <- validateExpression predicate ctx (p +:+ ".predicate");
    do u2 <- validateExpression res ctx (p +:+ ".result");
    Ok (merge u1 u2).

Definition validate_part (ctx : expressionContext) (path : string) (i : nat) (part : FragmentPart)
  : result expressionUsage :=
  match part with
  | fragmentHole e => validateExpression e ctx (item path ".parts" i)
  | identifierHole ident => check at_path (item path ".parts" i) (ValidateIdentifier ident); Ok no_usage
  | OtherPart go_type => fail (item path ".parts" i) "unsupported fragment part %T" [AStr go_type]
  end.

Definition validate_value (ctx : expressionContext) (path : string) (i : nat) (value : expression)
  : result expressionUsage :=
  match value with
  | ESubquery _ => fail (item path ".values" i) "puts a subquery in an IN value list; use InSelect or NotInSelect for IN (SELECT …)" []
  | _ => validateExpression value ctx (item path ".values" i)
  end.

(** *** [Select.Validate] *)
Definition validateOrder (o : Order) (s : sourceScope) (ps : expressionUsage) (grouped : bool)
  (results : gmap string nat) (path : string) : result unit :=
  if order_is_result o then validateOrderResultAlias (o_resultProjection o) results path
  else if grouped
  then drop_usage (validateExpression (o_expression o) (aggregateClauseContext s "an ORDER BY clause") path)
  else if negb (u_aggregate ps)
  then validateSubqueryClauseExpression (o_expression o) s "an ORDER BY clause" path
  else
    do usage <- validateExpression (o_expression o) (aggregateClauseContext s "an ORDER BY clause") path;
    if u_bareColumn usage
    then fail path "reads a column outside an aggregate function while the projections aggregate, which requires a GROUP BY clause" []
    else Ok tt.

(** The loop of [validateProjectionSet]; its state is the merged usage and
    the two remembered paths. *)
Definition projection_step (s : sourceScope) (i : nat) (p : Projection)
  (st : expressionUsage * string * string) : result (expressionUsage * string * string) :=
  let '(total, aggregatePath, columnPath) := st in
  let path := item "" "projections" i in
  if proj_is_nil p then fail path "must not be nil" []
  else
    check (if String.eqb (ResultAlias p) "" then Ok tt
           else at_path (path +:+ ".alias") (validateAlias (ResultAlias p)));
    do usage <- validateProjected p (projectionContext s) (path +:+ ".expression");
    Ok (merge total usage,
        if u_aggregate usage && String.eqb aggregatePath "" then path else aggregatePath,
        if u_bareColumn usage && String.eqb columnPath "" then path else columnPath).

Definition validateProjectionSet (ps : list Projection) (s : sourceScope) (grouped : bool)
  : result expressionUsage :=
  do st <- foldi (projection_step s) 0 ps (no_usage, "", "");
  let '(total, aggregatePath, columnPath) := st in
  if negb grouped && u_aggregate total && u_bareColumn total
  then fail (columnPath +:+ ".expression") "reads a column outside an aggregate function while %s aggregates, which requires a GROUP BY clause" [AStr aggregatePath]
  else Ok total.

Definition validate_ctes (l : list CTE) : result unit :=
  do _ <- foldi (fun i c (seen : gset string) =>
    let path := item "" "ctes" i in
    if bool_decide (cte_name c ∈ seen) then fail path "duplicates CTE name %q" [AStr (cte_name c)]
    else check at_path path (body_Validate (rq_body (cte_query c)));
         Ok ({[ cte_name c ]} ∪ seen)) 0 l ∅;
  Ok tt.

Definition validate_correlations (l : list CTE) (cs : list relation) : result sourceScope :=
  foldi (fun i c s =>
    let path := item "" "correlations" i in
    check validateVisibleCTE c l path;
    check at_path path (rel_validate c);
    check validateSourceReference (references s) c path;
    Ok (scope_add s c)) 0 cs empty_scope.

Definition validate_join (l : list CTE) (cs : list relation) (i : nat) (j : JoinClause) (s : sourceScope)
  : result sourceScope :=
  let path := item "" "joins" i in
  let source := join_source j in
  if negb (String.eqb (join_kind j) JoinInner) && negb (String.eqb (join_kind j) JoinLeft)
  then fail (path +:+ ".type") "unsupported join type %q" [AStr (join_kind j)]
  else
    check at_path (path +:+ ".source") (rel_validate source);
    check validateVisibleCTE source l (path +:+ ".source");
    if in_scope s source && negb (isCorrelatedSource cs source)
    then fail (path +:+ ".source") "duplicates table reference %q" [AStr (rel_QualifiedName source)]
    else
      check validateSourceReference (references s) source (path +:+ ".source");
      let s := scope_add s source in
      check validateSubqueryClauseExpression (join_on j) s "a JOIN ON condition" (path +:+ ".on");
      Ok s.

Definition validate_groupBy (l : list expression) (s : sourceScope) : result unit :=
  checki (fun i e =>
    let path := item "" "group_by" i in
    check validateSubqueryClauseExpression e s "a GROUP BY clause" path;
    match e with EValue _ => fail path "must not be a bound value" [] | _ => Ok tt end) 0 l.

Definition validate_having (e : expression) (s : sourceScope) (grouped : bool) (ps : expressionUsage)
  : result unit :=
  if is_nil e then Ok tt
  else if negb grouped && negb (u_aggregate ps)
  then fail "having" "requires a GROUP BY clause or a projection set that aggregates" []
  else
    do usage <- validateExpression e (aggregateClauseContext s "a HAVING clause") "having";
    if negb grouped && u_bareColumn usage
    then fail "having" "reads a column outside an aggregate function while the projections aggregate, which requires a GROUP BY clause" []
    else Ok tt.

(** The scope a statement's clauses read: its correlations, its FROM and
    its joins, each checked as it is added. *)
Definition validate_sources (s : Select) : result sourceScope :=
  do scope <- validate_correlations (ctes s) (correlations s);
  check validateSourceReference (references scope) (from s) "from";
  foldi (validate_join (ctes s) (correlations s)) 0 (joins s) (scope_add scope (from s)).

Definition validate_limits (s : Select) : result unit :=
  if hasLimit s && (limit s <? 0)%Z then fail "limit" "must not be negative" []
  else if hasOffset s && (offset s <? 0)%Z then fail "offset" "must not be negative" []
  else Ok tt.

Definition validate_orders (s : Select) (scope : sourceScope) (grouped : bool) (ps : expressionUsage)
  : result unit :=
  let results := if existsb order_is_result (orderBy s) then resultNames (projections s) else ∅ in
  checki (fun i o =>
    if (NullsLast <? nullPlacement o)%N then fail (item "" "order_by" i) "invalid NULL placement" []
    else validateOrder o scope ps grouped results (item "" "order_by" i)) 0 (orderBy s).

(** Everything [Validate] judges before LIMIT, OFFSET and the lock. *)
Definition validate_clauses (s : Select) : result unit :=
  check validateVisibleCTE (from s) (ctes s) "from";
  check at_path "from" (rel_validate (from s));
  if length (projections s) =? 0 then fail "projections" "must not be empty" []
  else
    check validate_ctes (ctes s);
    do scope <- validate_sources s;
    let grouped := 0 <? length (groupBy s) in
    check validate_groupBy (groupBy s) scope;
    do ps <- validateProjectionSet (projections s) scope grouped;
    check (if is_nil (where_ s) then Ok tt
           else validateSubqueryClauseExpression (where_ s) scope "a WHERE clause" "where");
    check validate_having (having s) scope grouped ps;
    validate_orders s scope grouped ps.

Definition Select_Validate (s : Select) : result unit :=
  if checked s then Ok tt
  else
    check validate_clauses s;
    check validate_limits s;
    if hasLock s then validateLock (lock s) (from s) (joins s) else Ok tt.

Definition validateSubqueryStatement (s : Select) (ctx : expressionContext) (path : string) : result unit :=
  if negb (allowsSubquery ctx)
  then fail path "runs a subquery in %s, but a subquery is only valid in the projections, JOIN ON conditions, WHERE clause, GROUP BY clause, HAVING clause, and ORDER BY clause of a SELECT statement, in the WHERE clause of a DELETE statement, and in the WHERE clause and SET assignments of an UPDATE statement" [AStr (clause ctx)]
  else
    check checki (fun i c =>
      if in_scope (sources ctx) c then Ok tt
      else fail (item path ".statement.correlations" i) "declares a correlation with table %q, which the enclosing statement does not carry" [AStr (rel_QualifiedName c)])
      0 (correlations s);
    at_path (path +:+ ".statement") (Select_Validate s).

Definition validate_scalar_subquery (s : Select) (ctx : expressionContext) (path : string)
  : result expressionUsage :=
  check validateSubqueryStatement s ctx path;
  if negb (length (projections s) =? 1)
  then fail path "a subquery used as an expression must select exactly one expression, got %d" [ANat (length (projections s))]
  else Ok no_usage.
End Validate.

(** ** Tying the knot

    Calling a method of a nil [QueryBody] is a run-time panic, which a zero
    [CTE] can reach; the model reports it as an error of its own kind. *)
Definition nil_dereference : error := MkError (KTyped "runtime.Error") "nil pointer dereference" [].

Definition NativeResult_Validate (n : NativeResult) : result unit :=
  if String.eqb (TrimSpace (engine n)) "" then Err (errors_New "native result engine must not be empty")
  else if String.eqb (TrimSpace (nat_sql n)) "" then Err (errors_New "native result SQL must not be empty")
  else ValidateSelect (nat_sql n) (Some (engine n)).

Fixpoint validateExpression (e : expression) (ctx : expressionContext) (path : string) {struct e}
  : result expressionUsage :=
  match e with
  | ENil => fail path "must not be nil" []
  | EColumn source cname => validate_column source cname ctx path
  | EExcluded source cname =>
      if negb (allowsExcluded ctx)
      then fail path "EXCLUDED is only valid in an upsert conflict-update expression" []
      else check at_path path (rel_validate source); column_read source cname ctx path
  | ETableIdentifier table =>
      check at_path path (rel_validate table);
      if negb (in_scope (sources ctx) table) then outside path table else Ok (column_usage ctx)
  | EValue _ => Ok no_usage
  | EBinary lhs operator rhs =>
      if negb (validBinaryOperator operator)
      then fail (path +:+ ".operator") "unsupported operator %q" [AStr operator]
      else
        do l <- validateExpression lhs ctx (path +:+ ".left");
        do r <- validateExpression rhs ctx (path +:+ ".right");
        Ok (merge l r)
  | ECase op branches fallback hasFallback =>
      if length branches =? 0 then fail path "requires at least one branch" []
      else
        do u <- (if is_nil op then Ok no_usage else validateExpression op ctx (path +:+ ".operand"));
        do u <- merge_loop (validate_branch validateExpression (negb (is_nil op)) ctx path) branches u;
        if hasFallback
        then do f <- validateExpression fallback ctx (path +:+ ".fallback"); Ok (merge u f)
        else Ok u
  | ECast expr target =>
      if negb (validCastType target) then fail (path +:+ ".target") "must be a valid schema type" []
      else validateExpression expr ctx (path +:+ ".expression")
  | EFilter agg predicate =>
      do u <- validateExpression agg ctx (path +:+ ".aggregate");
      if negb (u_aggregate u) then fail (path +:+ ".aggregate") "must contain an aggregate expression" []
      else
        do _ <- validateExpression predicate (withoutAggregate ctx) (path +:+ ".predicate");
        Ok (MkUsage true (u_bareColumn u))
  | EOver expr partition order =>
      match expr with
      | EFunction _ _ _ _ _ | EFilter _ _ =>
          do u <- validateExpression expr ctx (path +:+ ".expression");
          do _ <- validateWindow validateExpression partition order (withoutAggregate ctx) (path +:+ ".window");
          Ok u
      | _ => fail (path +:+ ".expression") "must be a window-capable function or aggregate expression" []
      end
  | EFragment sql parts =>
      if negb (GoText.Count sql "{}" =? length parts)
      then fail path "contains %d fragment markers for %d parts" [ANat (GoText.Count sql "{}"); ANat (length parts)]
      else merge_loop (validate_part validateExpression ctx path) parts no_usage
  | ELogical operator expressions =>
      if negb (String.eqb operator LogicalAnd) && negb (String.eqb operator LogicalOr)
      then fail (path +:+ ".operator") "unsupported operator %q" [AStr operator]
      else if length expressions <? 2 then fail path "requires at least two expressions" []
      else validate_list validateExpression expressions ctx path ".expressions" no_usage
  | ENot expr => validateExpression expr ctx (path +:+ ".expression")
  | ENullTest expr _ => validateExpression expr ctx (path +:+ ".expression")
  | EMembership expr values _ subquery =>
      match subquery with
      | Some s =>
          do u <- validateExpression expr ctx (path +:+ ".expression");
          do u' <- validate_scalar_subquery validateExpression body_Validate s ctx (path +:+ ".subquery");
          Ok (merge u u')
      | None =>
          if length values =? 0 then fail path "requires at least one value" []
          else
            do u <- validateExpression expr ctx (path +:+ ".expression");
            merge_loop (validate_value validateExpression ctx path) values u
      end
  | EFunction fname arguments star dist unchecked =>
      validateFunction validateExpression fname arguments star dist unchecked ctx path
  | ESubquery s => validate_scalar_subquery validateExpression body_Validate s ctx path
  | EExistence s _ =>
      check validateSubqueryStatement validateExpression body_Validate s ctx (path +:+ ".subquery");
      Ok no_usage
  | EDefault | EOther _ => Ok no_usage
  end
with body_Validate (b : body) {struct b} : result unit :=
  match b with
  | BNil => Err nil_dereference
  | BNative n => NativeResult_Validate n
  | BSelect s => Select_Validate validateExpression body_Validate s
  | BCompound lhs rhs _ =>
      if body_is_nil (rq_body lhs) || body_is_nil (rq_body rhs)
      then Err (errors_New "compound operands must not be empty")
      else check body_Validate (rq_body lhs); body_Validate (rq_body rhs)
  end.

Definition Validate (s : Select) : result unit := Select_Validate validateExpression body_Validate s.

(** ** Equations *)
Lemma validateProjected_eq p ctx path :
  validateProjected validateExpression p ctx path = validateExpression (ProjectedExpression p) ctx path.
Proof. by destruct p. Qed.
