(* ===== verification/QueryScope.v ===== *)
(** * QueryScope: what a validated expression may read and aggregate

    Reference functions over the expression tree, written without contexts,
    errors or paths, and the theorem that [validateExpression] enforces them:
    every column read is a column of a source in scope, aggregates are where
    the clause allows them and never inside another aggregate, and the usage
    it reports is what the tree contains. *)

From S2P Require Import Prelude GoText SqlScan Schema Query QueryValidate.
Open Scope string_scope.
Open Scope list_scope.
Open Scope nat_scope.

(** ** Reference functions

    A subquery contributes nothing: it is judged by its own statement's
    scope. *)
Fixpoint reads (e : expression) : list (relation * string) :=
  match e with
  | EColumn r c | EExcluded r c => [(r, c)]
  | EBinary l _ r => reads l ++ reads r
  | ECase op bs f h =>
      (reads op ++ flat_map (fun b => reads b.1 ++ reads b.2) bs) ++ (if h then reads f else [])
  | ECast e _ | ENot e | ENullTest e _ => reads e
  | EFilter a p => reads a ++ reads p
  | EOver e ps os => reads e ++ (flat_map reads ps ++ flat_map (fun o => reads (o_expression o)) os)
  | EFragment _ ps => flat_map (fun p => match p with fragmentHole e => reads e | _ => [] end) ps
  | ELogical _ es => flat_map reads es
  | EMembership e vs _ None => reads e ++ flat_map reads vs
  | EMembership e _ _ (Some _) => reads e
  | EFunction _ es _ _ _ => flat_map reads es
  | _ => []
  end.

(** Whether the value of [e] depends on an aggregate call of this statement. *)
Fixpoint calls_aggregate (e : expression) : bool :=
  match e with
  | EBinary l _ r => calls_aggregate l || calls_aggregate r
  | ECase op bs f h =>
      (calls_aggregate op || existsb (fun b => calls_aggregate b.1 || calls_aggregate b.2) bs)
      || (if h then calls_aggregate f else false)
  | ECast e _ | ENot e | ENullTest e _ | EFilter e _ | EOver e _ _ => calls_aggregate e
  | EFragment _ ps => existsb (fun p => match p with fragmentHole e => calls_aggregate e | _ => false end) ps
  | ELogical _ es => existsb calls_aggregate es
  | EMembership e vs _ None => calls_aggregate e || existsb calls_aggregate vs
  | EMembership e _ _ (Some _) => calls_aggregate e
  | EFunction f es _ _ u => if Aggregates f u then true else existsb calls_aggregate es
  | _ => false
  end.

(** Whether [e] reads a column or a table outside every aggregate call. *)
Fixpoint reads_bare (e : expression) : bool :=
  match e with
  | EColumn _ _ | EExcluded _ _ | ETableIdentifier _ => true
  | EBinary l _ r => reads_bare l || reads_bare r
  | ECase op bs f h =>
      (reads_bare op || existsb (fun b => reads_bare b.1 || reads_bare b.2) bs)
      || (if h then reads_bare f else false)
  | ECast e _ | ENot e | ENullTest e _ | EFilter e _ | EOver e _ _ => reads_bare e
  | EFragment _ ps => existsb (fun p => match p with fragmentHole e => reads_bare e | _ => false end) ps
  | ELogical _ es => existsb reads_bare es
  | EMembership e vs _ None => reads_bare e || existsb reads_bare vs
  | EMembership e _ _ (Some _) => reads_bare e
  | EFunction f es _ _ u => if Aggregates f u then false else existsb reads_bare es
  | _ => false
  end.

(** No aggregate inside an aggregate's argument, a FILTER predicate or a
    window. *)
Fixpoint well_nested (e : expression) : bool :=
  let plain e := well_nested e && negb (calls_aggregate e) in
  match e with
  | EBinary l _ r => well_nested l && well_nested r
  | ECase op bs f h =>
      (well_nested op && forallb (fun b => well_nested b.1 && well_nested b.2) bs)
      && (if h then well_nested f else true)
  | ECast e _ | ENot e | ENullTest e _ => well_nested e
  | EFilter a p => well_nested a && plain p
  | EOver e ps os => well_nested e && (forallb plain ps && forallb (fun o => plain (o_expression o)) os)
  | EFragment _ ps => forallb (fun p => match p with fragmentHole e => well_nested e | _ => true end) ps
  | ELogical _ es => forallb well_nested es
  | EMembership e vs _ None => well_nested e && forallb well_nested vs
  | EMembership e _ _ (Some _) => well_nested e
  | EFunction f es _ _ u => if Aggregates f u then forallb plain es else forallb well_nested es
  | _ => true
  end.

(** ** The facts a successful validation establishes *)
Definition readable (ctx : expressionContext) (rc : relation * string) : Prop :=
  in_scope (sources ctx) rc.1 = true /\ hasColumn rc.1 rc.2 = true.

Record facts (rd : list (relation * string)) (ag ba wn : bool) (ctx : expressionContext)
  (u : expressionUsage) : Prop := {
  f_reads : Forall (readable ctx) rd;
  f_row : rowValue ctx = true -> allowsExcluded ctx = false -> rd = [];
  f_agg : u_aggregate u = ag;
  f_bare : u_bareColumn u = (aggregateDepth ctx =? 0) && ba;
  f_place : ag = true -> allowsAggregate ctx = true /\ aggregateDepth ctx = 0;
  f_nested : wn = true }.

Lemma facts_none ctx : facts [] false false true ctx no_usage.
Proof. split; try done. by rewrite andb_false_r. Qed.

Lemma facts_merge rd1 a1 b1 w1 rd2 a2 b2 w2 ctx u1 u2 :
  facts rd1 a1 b1 w1 ctx u1 -> facts rd2 a2 b2 w2 ctx u2 ->
  facts (rd1 ++ rd2) (a1 || a2) (b1 || b2) (w1 && w2) ctx (merge u1 u2).
Proof.
  intros [R1 W1 A1 B1 P1 N1] [R2 W2 A2 B2 P2 N2]. split; simpl.
  - by apply Forall_app.
  - intros Hr He. by rewrite (W1 Hr He), (W2 Hr He).
  - by rewrite A1, A2.
  - rewrite B1, B2. by destruct (aggregateDepth ctx =? 0).
  - intros [H|H]%orb_true_iff; auto.
  - by rewrite N1, N2.
Qed.

Lemma facts_loop {A} (f : nat -> A -> result expressionUsage) (rd : A -> list (relation * string))
  (ag ba wn : A -> bool) ctx (l : list A) rd0 a0 b0 w0 u0 u :
  Forall (fun x => forall i u', f i x = Ok u' -> facts (rd x) (ag x) (ba x) (wn x) ctx u') l ->
  facts rd0 a0 b0 w0 ctx u0 -> merge_loop f l u0 = Ok u ->
  facts (rd0 ++ flat_map rd l) (a0 || existsb ag l) (b0 || existsb ba l) (w0 && forallb wn l) ctx u.
Proof.
  unfold merge_loop. generalize 0 as i. intros i Hl. revert i rd0 a0 b0 w0 u0.
  induction Hl as [|x l Hx Hl IH]; intros i rd0 a0 b0 w0 u0 H0; simpl.
  - intros [= <-]. by rewrite app_nil_r, !orb_false_r, andb_true_r.
  - destruct (f i x) as [u'|] eqn:E; simpl; [|done]. intros H.
    rewrite !app_assoc, !orb_assoc, !andb_assoc. eapply IH; [|exact H].
    by apply facts_merge; [|by eapply Hx].
Qed.

Lemma facts_loop0 {A} (f : nat -> A -> result expressionUsage) (rd : A -> list (relation * string))
  (ag ba wn : A -> bool) ctx (l : list A) u :
  Forall (fun x => forall i u', f i x = Ok u' -> facts (rd x) (ag x) (ba x) (wn x) ctx u') l ->
  merge_loop f l no_usage = Ok u ->
  facts (flat_map rd l) (existsb ag l) (existsb ba l) (forallb wn l) ctx u.
Proof. intros Hl H. exact (facts_loop f rd ag ba wn ctx l [] false false true _ u Hl (facts_none ctx) H). Qed.

Definition expr_facts (e : expression) (ctx : expressionContext) (u : expressionUsage) : Prop :=
  facts (reads e) (calls_aggregate e) (reads_bare e) (well_nested e) ctx u.

(** Moving facts between contexts that share the scope. *)
Lemma facts_reads rd ag ba wn ctx ctx' u :
  sources ctx' = sources ctx -> facts rd ag ba wn ctx' u -> Forall (readable ctx) rd.
Proof. intros E [R _ _ _ _ _]. unfold readable in *. by rewrite E in R. Qed.

Lemma column_facts source cname ctx path u :
  validate_column source cname ctx path = Ok u -> expr_facts (EColumn source cname) ctx u.
Proof.
  unfold validate_column, column_read. destruct (at_path path (rel_validate source)) as [[]|]; [|done].
  destruct (rowValue ctx) eqn:Hr, (in_scope (sources ctx) source) eqn:Hs; simpl; try done.
  destruct (hasColumn source cname) eqn:Hc; simpl; [|done]. intros [= <-].
  split; try done; simpl; [by repeat constructor|by rewrite Hr|by rewrite andb_true_r].
Qed.

Lemma excluded_facts source cname ctx path u :
  allowsExcluded ctx = true -> column_read source cname ctx path = Ok u ->
  expr_facts (EExcluded source cname) ctx u.
Proof.
  unfold column_read. intros He. destruct (in_scope (sources ctx) source) eqn:Hs; simpl; [|done].
  destruct (hasColumn source cname) eqn:Hc; simpl; [|done]. intros [= <-].
  split; try done; simpl; [by repeat constructor|by rewrite He|by rewrite andb_true_r].
Qed.

Definition PE (e : expression) : Prop :=
  forall ctx path u, validateExpression e ctx path = Ok u -> expr_facts e ctx u.

Lemma list_facts es ctx path field u :
  Forall PE es -> validate_list validateExpression es ctx path field no_usage = Ok u ->
  facts (flat_map reads es) (existsb calls_aggregate es) (existsb reads_bare es)
    (forallb well_nested es) ctx u.
Proof.
  intros Hes. apply facts_loop0. eapply Forall_impl; [exact Hes|]. intros e He i u'. apply He.
Qed.

(** Children walked in a context that forbids aggregates outright. *)
Lemma facts_plain rd ag ba wn ctx u :
  facts rd ag ba wn ctx u -> allowsAggregate ctx = false \/ 0 < aggregateDepth ctx ->
  ag = false /\ wn = true.
Proof.
  intros [_ _ _ _ P N] H. split; [|done]. destruct ag; [|done].
  destruct (P eq_refl) as [P1 P2]. destruct H as [H|H]; [congruence|lia].
Qed.

Lemma forallb_plain {A} (ag wn : A -> bool) l :
  existsb ag l = false -> forallb wn l = true -> forallb (fun x => wn x && negb (ag x)) l = true.
Proof.
  induction l as [|x l IH]; simpl; [done|].
  intros [H1 H2]%orb_false_iff [H3 H4]%andb_true_iff. by rewrite H1, H3, IH.
Qed.

Lemma find_spec_aggregates fname spec :
  find_spec fname = Some spec -> Aggregates fname false = aggregate spec.
Proof. unfold Aggregates. by intros ->. Qed.

Lemma function_facts fname es star dist unchecked ctx path u :
  Forall PE es ->
  validateFunction validateExpression fname es star dist unchecked ctx path = Ok u ->
  expr_facts (EFunction fname es star dist unchecked) ctx u.
Proof.
  intros Hes. unfold validateFunction, expr_facts. cbn [reads calls_aggregate reads_bare well_nested].
  assert (forall u, Aggregates fname unchecked = false ->
    validate_list validateExpression es ctx path ".arguments" no_usage = Ok u ->
    facts (flat_map reads es) (if Aggregates fname unchecked then true else existsb calls_aggregate es)
      (if Aggregates fname unchecked then false else existsb reads_bare es)
      (if Aggregates fname unchecked then forallb (fun e => well_nested e && negb (calls_aggregate e)) es
       else forallb well_nested es) ctx u) as Hscalar.
  { intros u' ->. by apply list_facts. }
  destruct unchecked.
  { unfold validateCustomFunction. destruct star; [done|].
    destruct (ValidateSimpleIdentifier fname) as [[]|]; [|done]. by apply Hscalar. }
  destruct (String.eqb_spec fname FunctionBM25) as [->|_].
  { unfold validateBM25Function. destruct star, dist; try done.
    destruct es as [|[] es]; try done. by apply Hscalar. }
  destruct (find_spec fname) as [spec|] eqn:Es; [|done].
  pose proof (find_spec_aggregates _ _ Es) as Ha. destruct (aggregate spec).
  - unfold validateAggregateFunction. rewrite Ha.
    destruct (Nat.ltb_spec 0 (aggregateDepth ctx)) as [|Hd]; [done|].
    destruct (allowsAggregate ctx) eqn:Hal; simpl; [|done].
    assert (aggregateDepth ctx = 0) as Hd0 by lia.
    destruct star.
    + destruct (String.eqb fname FunctionCount); simpl; [|done].
      destruct es; simpl; [|done]. destruct dist; [done|]. intros [= <-]. split; try done.
      by rewrite andb_false_r.
    + destruct (length es =? 1); simpl; [|done].
      destruct (validate_list _ es (inAggregate ctx) path _ no_usage) as [u'|] eqn:E; [|done].
      intros [= <-]. pose proof (list_facts _ _ _ _ _ Hes E) as F.
      destruct (facts_plain _ _ _ _ _ _ F) as [Hag Hwn]; [right; simpl; lia|]. split; try done.
      * by eapply facts_reads, F.
      * intros Hr He. by apply (f_row _ _ _ _ _ _ F).
      * by rewrite andb_false_r.
      * by apply forallb_plain.
  - unfold validateScalarFunction. destruct star, dist; try done.
    destruct (validateFunctionArity fname (length es) spec path) as [[]|]; [|done].
    by apply Hscalar.
Qed.

Lemma window_facts ps os ctx path u :
  Forall PE ps -> Forall (order_all PE (fun _ => True)) os ->
  validateWindow validateExpression ps os ctx path = Ok u ->
  facts (flat_map reads ps ++ flat_map (fun o => reads (o_expression o)) os)
    (existsb calls_aggregate ps || existsb (fun o => calls_aggregate (o_expression o)) os)
    (existsb reads_bare ps || existsb (fun o => reads_bare (o_expression o)) os)
    (forallb well_nested ps && forallb (fun o => well_nested (o_expression o)) os) ctx u.
Proof.
  intros Hps Hos. unfold validateWindow.
  destruct (validate_list _ ps ctx path ".partition" no_usage) as [u1|] eqn:E; [|done].
  intros H. eapply facts_loop; [|by eapply list_facts|exact H].
  eapply Forall_impl; [exact Hos|]. intros o [Ho _] i u'. unfold validate_window_order.
  destruct (order_is_result o); [done|]. apply Ho.
Qed.

Lemma branch_facts simple ctx path i b u :
  branch_all PE b -> validate_branch validateExpression simple ctx path i b = Ok u ->
  facts (reads b.1 ++ reads b.2) (calls_aggregate b.1 || calls_aggregate b.2)
    (reads_bare b.1 || reads_bare b.2) (well_nested b.1 && well_nested b.2) ctx u.
Proof.
  destruct b as [p r]. intros [Hp Hr]. unfold validate_branch. simpl in *.
  destruct (is_nil p), (is_nil r); try done. destruct (negb simple && _); [done|].
  intros H. inv_ok. apply facts_merge; [by eapply Hp|by eapply Hr].
Qed.

Lemma facts_withoutAggregate rd ag ba wn ctx u :
  facts rd ag ba wn (withoutAggregate ctx) u ->
  Forall (readable ctx) rd /\ (rowValue ctx = true -> allowsExcluded ctx = false -> rd = []) /\
  ag = false /\ wn = true.
Proof.
  intros F. split; [by eapply facts_reads, F|]. split; [apply (f_row _ _ _ _ _ _ F)|].
  apply (facts_plain _ _ _ _ _ _ F). by left.
Qed.

Lemma scalar_usage ve bv s ctx path u :
  validate_scalar_subquery ve bv s ctx path = Ok u -> u = no_usage.
Proof. unfold validate_scalar_subquery. repeat case_match; intros; inv_ok; done. Qed.

Lemma scope_cases : induction_cases PE (fun _ => True) (fun _ => True).
Proof.
  split; try (intros; exact I); unfold PE; cbn [validateExpression].
  - done.
  - intros ctx path u [= <-]. apply facts_none.
  - intros t ctx path u [= <-]. apply facts_none.
  - intros r c _ ctx path u. apply column_facts.
  - intros r c _ ctx path u. destruct (allowsExcluded ctx) eqn:He; simpl; [|done].
    destruct (at_path path (rel_validate r)) as [[]|]; [|done]. by apply excluded_facts.
  - intros r _ ctx path u. destruct (at_path path (rel_validate r)) as [[]|]; [|done].
    destruct (in_scope (sources ctx) r); simpl; [|done]. intros [= <-]. split; try done.
    by rewrite andb_true_r.
  - intros v ctx path u [= <-]. apply facts_none.
  - intros l op r Hl Hr ctx path u. destruct (negb _); [done|]. intros H. inv_ok.
    apply facts_merge; [by eapply Hl|by eapply Hr].
  - intros op bs f h Hop Hbs Hf ctx path u. destruct (length bs =? 0); [done|]. intros H. inv_ok.
    assert (expr_facts op ctx a) as F1.
    { destruct (is_nil op) eqn:En; [|by eapply Hop]. destruct op; simpl in En; try done.
      inv_ok. apply facts_none. }
    assert (Forall (fun b => forall i u', validate_branch validateExpression (negb (is_nil op)) ctx path i b
       = Ok u' -> facts (reads b.1 ++ reads b.2) (calls_aggregate b.1 || calls_aggregate b.2)
       (reads_bare b.1 || reads_bare b.2) (well_nested b.1 && well_nested b.2) ctx u') bs) as Hb.
    { eapply Forall_impl; [exact Hbs|]. intros b Hb' i u'. by apply branch_facts. }
    pose proof (facts_loop _ _ _ _ _ _ _ _ _ _ _ _ _ Hb F1 E0) as F2.
    destruct h; inv_ok.
    + apply facts_merge; [exact F2|by eapply Hf].
    + unfold expr_facts. simpl. by rewrite app_nil_r, !orb_false_r, andb_true_r.
  - intros e t He ctx path u. destruct (negb _); [done|]. apply He.
  - intros e p He Hp ctx path u. intros H. inv_ok. apply He in E.
    destruct (u_aggregate a) eqn:Ha; simpl in H; [|done]. inv_ok. apply Hp in E0.
    destruct (facts_withoutAggregate _ _ _ _ _ _ E0) as (R & W & Ag & Wn).
    destruct E as [R1 W1 A1 B1 P1 N1]. split; simpl.
    + by apply Forall_app.
    + intros Hr Hx. by rewrite (W1 Hr Hx), (W Hr Hx).
    + by rewrite <- A1.
    + done.
    + done.
    + by rewrite N1, Wn, Ag.
  - intros e ps os He Hps Hos ctx path u H.
    assert (exists p, validateExpression e ctx p = Ok u /\ is_ok (validateWindow validateExpression ps os
       (withoutAggregate ctx) (path +:+ ".window")) = true) as (p & H1 & H2).
    { destruct e; try discriminate H; inv_ok; eexists; (split; [eassumption|done]). }
    apply is_ok_true in H2 as [w H2]. apply He in H1. apply window_facts in H2; [|done|done].
    destruct (facts_withoutAggregate _ _ _ _ _ _ H2) as (R & W & Ag & Wn).
    destruct H1 as [R1 W1 A1 B1 P1 N1]. split; simpl; try done.
    + by apply Forall_app.
    + intros Hr Hx. by rewrite (W1 Hr Hx), (W Hr Hx).
    + apply orb_false_iff in Ag as [Ag1 Ag2]. apply andb_true_iff in Wn as [Wn1 Wn2].
      by rewrite N1, !forallb_plain.
  - intros sql ps Hps ctx path u. destruct (negb _); [done|]. apply facts_loop0.
    eapply Forall_impl; [exact Hps|]. intros [e| |] He i u'; simpl.
    + apply He.
    + intros H. inv_ok. apply facts_none.
    + done.
  - intros op es Hes ctx path u. destruct (negb _ && _); [done|]. destruct (length es <? 2); [done|].
    by apply list_facts.
  - intros e He ctx path u. apply He.
  - intros e n He ctx path u. apply He.
  - intros e vs n He Hvs ctx path u. destruct (length vs =? 0); [done|]. intros H. inv_ok.
    apply He in E. eapply facts_loop; [|exact E|exact H].
    eapply Forall_impl; [exact Hvs|]. intros v Hv i u'. unfold validate_value. destruct v; try done; apply Hv.
  - intros e vs n s He _ _ ctx path u H. inv_ok. apply He in E.
    assert (a0 = no_usage) as ->.
    { by eapply scalar_usage. }
    unfold expr_facts in *. cbn [reads calls_aggregate reads_bare well_nested].
    destruct E as [R1 W1 A1 B1 P1 N1]. split; simpl; rewrite ?orb_false_r; done.
  - intros s _ ctx path u ->%scalar_usage. apply facts_none.
  - intros s n _ ctx path u H. inv_ok. apply facts_none.
  - intros f es st d uc Hes ctx path u. by apply function_facts.
Qed.

Lemma validateExpression_facts e : PE e.
Proof. exact (expression_all _ _ _ scope_cases e). Qed.

(** ** Statement scope *)
Definition statement_sources (s : Select) : list relation :=
  correlations s ++ from s :: (join_source <$> joins s).

(** No two sources could be confused by a server, in the order added. *)
Definition distinguishable (l : list relation) : Prop :=
  StronglySorted (fun a b => conflicts (reference a) (reference b) = false) l.

Record scope_of (l : list relation) (s : sourceScope) : Prop := {
  so_keys : forall k, k ∈ keys s <-> k ∈ key <$> l;
  so_refs : references s = reference <$> l;
  so_apart : distinguishable l }.

Lemma scope_of_empty : scope_of [] empty_scope.
Proof. split; [|done|constructor]. intros k. unfold empty_scope. simpl. set_solver. Qed.

Lemma sorted_snoc {A} (R : A -> A -> Prop) l x :
  StronglySorted R l -> Forall (fun y => R y x) l -> StronglySorted R (l ++ [x]).
Proof.
  induction 1 as [|y l Hl IH Hy]; intros Hx; simpl; [by repeat constructor|].
  apply Forall_cons in Hx as [Hyx Hx]. constructor; [by apply IH|].
  apply Forall_app; split; [done|]. by apply Forall_singleton.
Qed.

Lemma scope_of_add l s r path :
  scope_of l s -> validateSourceReference (references s) r path = Ok tt -> scope_of (l ++ [r]) (scope_add s r).
Proof.
  intros [Hk Hr Ha] H. split.
  - intros k. simpl. rewrite fmap_app, elem_of_app, <- Hk. simpl. rewrite list_elem_of_singleton. set_solver.
  - simpl. by rewrite Hr, fmap_app.
  - apply sorted_snoc; [done|]. unfold validateSourceReference in H.
    destruct (List.find _ _) eqn:F; [done|]. apply Forall_forall. intros y Hy.
    apply (List.find_none _ _ F). rewrite Hr. apply list_elem_of_In, list_elem_of_fmap. eauto.
Qed.

Lemma scope_of_keys l s r : scope_of l s -> in_scope s r = true <-> key r ∈ key <$> l.
Proof. intros [Hk _ _]. unfold in_scope. by rewrite bool_decide_eq_true, Hk. Qed.

Lemma at_path_ok {A} path (r : result A) a : at_path path r = Ok a <-> r = Ok a.
Proof. apply wrap_err_ok. Qed.

Lemma correlations_scope l cs i done_ s s' :
  foldi (fun i c s =>
      let path := item "" "correlations" i in
      check validateVisibleCTE c l path;
      check at_path path (rel_validate c);
      check validateSourceReference (references s) c path;
      Ok (scope_add s c)) i cs s = Ok s' ->
  scope_of done_ s -> scope_of (done_ ++ cs) s'.
Proof.
  revert i done_ s. induction cs as [|c cs IH]; intros i done_ s; simpl.
  - intros [= <-]. by rewrite app_nil_r.
  - intros H Hs. inv_ok.
    replace (done_ ++ c :: cs) with ((done_ ++ [c]) ++ cs) by by rewrite <- app_assoc.
    eapply IH; [exact H|]. by eapply scope_of_add.
Qed.

Lemma drop_usage_ok {A} (r : result A) : drop_usage r = Ok tt <-> exists u, r = Ok u.
Proof. unfold drop_usage. destruct r; naive_solver. Qed.

(** An expression read in a clause over the sources [l]. *)
Definition reads_from (l : list relation) (e : expression) : Prop :=
  Forall (fun rc => key rc.1 ∈ key <$> l /\ hasColumn rc.1 rc.2 = true) (reads e).

Lemma expr_reads_from l s ctx e path u :
  scope_of l s -> sources ctx = s -> validateExpression e ctx path = Ok u -> reads_from l e.
Proof.
  intros Hs <- H. apply validateExpression_facts in H. eapply Forall_impl; [apply (f_reads _ _ _ _ _ _ H)|].
  intros [r c] [H1 H2]. split; [|done]. by apply (scope_of_keys _ _ _ Hs) in H1.
Qed.

Lemma no_aggregate ctx e path u :
  allowsAggregate ctx = false -> validateExpression e ctx path = Ok u -> calls_aggregate e = false.
Proof.
  intros Ha H. apply validateExpression_facts in H.
  apply (facts_plain _ _ _ _ _ _ H). by left.
Qed.

Lemma accepted_nested ctx e path u : validateExpression e ctx path = Ok u -> well_nested e = true.
Proof. intros H%validateExpression_facts. by destruct H. Qed.

Definition plain_clause (l : list relation) (e : expression) : Prop :=
  reads_from l e /\ calls_aggregate e = false.

Lemma subquery_clause_plain l s e c path :
  scope_of l s -> validateSubqueryClauseExpression validateExpression e s c path = Ok tt -> plain_clause l e.
Proof.
  intros Hs [u H]%drop_usage_ok. split; [by eapply expr_reads_from; [exact Hs| |exact H]|].
  by eapply no_aggregate; [|exact H].
Qed.

Lemma subquery_clause_nested s e c path :
  validateSubqueryClauseExpression validateExpression e s c path = Ok tt -> well_nested e = true.
Proof. intros [u H]%drop_usage_ok. by eapply accepted_nested. Qed.

Lemma joins_nested l cs js i s s' :
  foldi (validate_join validateExpression l cs) i js s = Ok s' ->
  Forall (fun j => well_nested (join_on j) = true) js.
Proof.
  revert i s. induction js as [|j js IH]; intros i s; simpl; [by constructor|].
  destruct (validate_join _ l cs i j s) as [s1|] eqn:E; [|done]. intros H. constructor; [|by eapply IH].
  unfold validate_join in E. destruct (negb (String.eqb (join_kind j) JoinInner) && _); [done|].
  inv_ok. destruct (in_scope s (join_source j) && _); [done|]. inv_ok.
  by eapply subquery_clause_nested.
Qed.

Lemma sources_nested s scope :
  validate_sources validateExpression s = Ok scope ->
  Forall (fun j => well_nested (join_on j) = true) (joins s).
Proof. unfold validate_sources. intros H. inv_ok. by eapply joins_nested. Qed.

Lemma joins_scope l cs js i done_ s s' :
  foldi (validate_join validateExpression l cs) i js s = Ok s' -> scope_of done_ s ->
  scope_of (done_ ++ (join_source <$> js)) s' /\
  (forall k j, js !! k = Some j ->
     plain_clause (done_ ++ (join_source <$> take (S k) js)) (join_on j) /\
     (join_kind j = JoinInner \/ join_kind j = JoinLeft)).
Proof.
  revert i done_ s. induction js as [|j js IH]; intros i done_ s; simpl.
  - intros [= <-] Hs. by rewrite app_nil_r.
  - destruct (validate_join _ l cs i j s) as [s1|] eqn:E; [|done]. intros H Hs.
    unfold validate_join in E. destruct (negb (String.eqb (join_kind j) JoinInner) && _) eqn:K; [done|].
    inv_ok. destruct (in_scope s (join_source j) && _); [done|]. inv_ok.
    pose proof (scope_of_add _ _ _ _ Hs E2) as Hs1.
    destruct (IH _ _ _ H Hs1) as [H1 H2]. rewrite <- app_assoc in H1. split; [exact H1|].
    intros [|k] j' Hj; simpl in Hj.
    + injection Hj as <-. rewrite take_0. split; [by eapply subquery_clause_plain; [exact Hs1|eassumption]|].
      rewrite andb_false_iff, !negb_false_iff, !String.eqb_eq in K. done.
    + apply H2 in Hj as [Hj1 Hj2]. by rewrite <- app_assoc in Hj1.
Qed.

Lemma sources_scope s scope :
  validate_sources validateExpression s = Ok scope ->
  scope_of (statement_sources s) scope /\
  (forall k j, joins s !! k = Some j ->
     plain_clause (correlations s ++ from s :: (join_source <$> take (S k) (joins s))) (join_on j) /\
     (join_kind j = JoinInner \/ join_kind j = JoinLeft)).
Proof.
  unfold validate_sources, validate_correlations. intros H. inv_ok.
  apply (correlations_scope _ _ _ []) in E; [|apply scope_of_empty]. simpl in E.
  pose proof (scope_of_add _ _ _ _ E E0) as E1.
  apply joins_scope with (done_ := correlations s ++ [from s]) in H; [|done].
  destruct H as [H1 H2]. rewrite <- app_assoc in H1. split; [exact H1|].
  intros k j Hj. apply H2 in Hj as [Hj1 Hj2]. by rewrite <- app_assoc in Hj1.
Qed.

Lemma clause_context_reads l s ctx e path u :
  scope_of l s -> validateExpression e ctx path = Ok u -> sources ctx = s ->
  reads_from l e /\ well_nested e = true /\
  u_aggregate u = calls_aggregate e /\ u_bareColumn u = (aggregateDepth ctx =? 0) && reads_bare e.
Proof.
  intros Hs H Hc. split; [by eapply expr_reads_from|].
  apply validateExpression_facts in H. destruct H. by repeat split.
Qed.

Definition projected (s : Select) : list expression := ProjectedExpression <$> projections s.

Definition projection_ok (l : list relation) (p : Projection) : Prop :=
  reads_from l (ProjectedExpression p) /\ well_nested (ProjectedExpression p) = true.

Lemma projection_loop ps s l i st total ap cp :
  scope_of l s -> foldi (projection_step validateExpression s) i ps st = Ok (total, ap, cp) ->
  Forall (projection_ok l) ps /\
  u_aggregate total = u_aggregate st.1.1 || existsb calls_aggregate (ProjectedExpression <$> ps) /\
  u_bareColumn total = u_bareColumn st.1.1 || existsb reads_bare (ProjectedExpression <$> ps).
Proof.
  intros Hs. revert i st. induction ps as [|p ps IH]; intros i [[u0 a0] c0]; cbn [foldi].
  - intros [= <- _ _]. simpl. by rewrite !orb_false_r.
  - unfold projection_step at 1. destruct (proj_is_nil p) eqn:N; [done|]. intros H. inv_ok.
    apply IH in H as (H1 & H2 & H3). rewrite validateProjected_eq in E1.
    destruct (clause_context_reads _ _ _ _ _ _ Hs E1 eq_refl) as (R & W & A & B).
    split_and!; [constructor; [by split|done]| |].
    + rewrite H2. simpl. by rewrite A, orb_assoc.
    + rewrite H3. simpl. rewrite B. simpl. by rewrite orb_assoc.
Qed.

Lemma projections_scope ps s grouped u l :
  scope_of l s -> validateProjectionSet validateExpression ps s grouped = Ok u ->
  Forall (projection_ok l) ps /\
  u_aggregate u = existsb calls_aggregate (ProjectedExpression <$> ps) /\
  u_bareColumn u = existsb reads_bare (ProjectedExpression <$> ps) /\
  (grouped = false -> u_aggregate u && u_bareColumn u = false).
Proof.
  intros Hs. unfold validateProjectionSet. intros H. inv_ok. destruct a as [[total ap] cp].
  destruct (projection_loop _ _ _ _ _ _ _ _ Hs E) as (HF & HA & HB).
  destruct (negb grouped && u_aggregate total && u_bareColumn total) eqn:G; [done|].
  injection H as <-. split_and!; [done|done|done|].
  intros ->. by rewrite <- G.
Qed.

Lemma validate_clauses_steps s :
  validate_clauses validateExpression body_Validate s = Ok tt ->
  exists scope ps,
    rel_validate (from s) = Ok tt /\ projections s <> [] /\
    validate_sources validateExpression s = Ok scope /\
    validate_groupBy validateExpression (groupBy s) scope = Ok tt /\
    validateProjectionSet validateExpression (projections s) scope (0 <? length (groupBy s)) = Ok ps /\
    (is_nil (where_ s) = false ->
       validateSubqueryClauseExpression validateExpression (where_ s) scope "a WHERE clause" "where" = Ok tt) /\
    validate_having validateExpression (having s) scope (0 <? length (groupBy s)) ps = Ok tt /\
    validate_orders validateExpression s scope (0 <? length (groupBy s)) ps = Ok tt.
Proof.
  unfold validate_clauses. intros H. inv_ok.
  destruct (Nat.eqb_spec (length (projections s)) 0) as [|Hne]; [done|]. inv_ok.
  eexists _, _. split; [by apply at_path_ok in E0|]. split; [by intros Hp; rewrite Hp in Hne|].
  split_and!; try eassumption; [reflexivity|].
  intros Hw. by rewrite Hw in E5.
Qed.

Definition grouped (s : Select) : bool := 0 <? length (groupBy s).

(** What one ORDER BY expression term may do. *)
Lemma order_scope l scope s ps path o results :
  scope_of l scope -> order_is_result o = false ->
  validateOrder validateExpression o scope ps (grouped s) results path = Ok tt ->
  reads_from l (o_expression o) /\ well_nested (o_expression o) = true /\
  (grouped s = false -> u_aggregate ps = false -> calls_aggregate (o_expression o) = false) /\
  (grouped s = false -> u_aggregate ps = true -> reads_bare (o_expression o) = false).
Proof.
  intros Hs Hr. unfold validateOrder. rewrite Hr. destruct (grouped s).
  - intros [u H]%drop_usage_ok. by destruct (clause_context_reads _ _ _ _ _ _ Hs H eq_refl) as (? & ? & _).
  - destruct (u_aggregate ps) eqn:A; simpl.
    + intros H. inv_ok. destruct (u_bareColumn a) eqn:B; [done|].
      destruct (clause_context_reads _ _ _ _ _ _ Hs E eq_refl) as (? & ? & _ & Hb).
      split_and!; try done. intros _ _. by rewrite Hb in B.
    + intros [u H]%drop_usage_ok. destruct (clause_context_reads _ _ _ _ _ _ Hs H eq_refl) as (? & ? & _).
      split_and!; try done. intros _ _. by eapply no_aggregate; [|exact H].
Qed.

(** Everything a full validation establishes about what a SELECT reads. *)
Record well_scoped (s : Select) : Prop := {
  ws_apart : distinguishable (statement_sources s);
  ws_projections : Forall (fun p => reads_from (statement_sources s) (ProjectedExpression p)) (projections s);
  ws_where : plain_clause (statement_sources s) (where_ s);
  ws_groupBy : Forall (plain_clause (statement_sources s)) (groupBy s);
  ws_having : reads_from (statement_sources s) (having s);
  ws_orderBy : Forall (fun o => order_is_result o = true \/
                                reads_from (statement_sources s) (o_expression o)) (orderBy s);
  ws_joins : forall k j, joins s !! k = Some j ->
    plain_clause (correlations s ++ from s :: (join_source <$> take (S k) (joins s))) (join_on j) }.

(** The expressions a statement states itself, clause by clause: an ORDER BY
    term that names a result column has none. *)
Definition clause_expressions (s : Select) : list expression :=
  projected s ++ (join_on <$> joins s) ++ where_ s :: groupBy s ++
  having s :: (o_expression <$> filter (fun o => order_is_result o = false) (orderBy s)).

(** How a statement may aggregate. *)
Record well_grouped (s : Select) : Prop := {
  wg_nested : Forall (fun e => well_nested e = true) (clause_expressions s);
  wg_mixed : grouped s = false ->
    existsb calls_aggregate (projected s) && existsb reads_bare (projected s) = false;
  wg_having : is_nil (having s) = false -> grouped s = false ->
    existsb calls_aggregate (projected s) = true /\ reads_bare (having s) = false;
  wg_order : grouped s = false -> Forall (fun o => order_is_result o = false ->
    if existsb calls_aggregate (projected s) then reads_bare (o_expression o) = false
    else calls_aggregate (o_expression o) = false) (orderBy s) }.

Lemma nil_nested e : is_nil e = true -> well_nested e = true.
Proof. by destruct e. Qed.

Lemma nil_plain l e : is_nil e = true -> plain_clause l e.
Proof. destruct e; try done. intros _. split; [constructor|done]. Qed.

Lemma clauses_scope s :
  validate_clauses validateExpression body_Validate s = Ok tt -> well_scoped s /\ well_grouped s.
Proof.
  intros (scope & ps & _ & _ & Hsrc & Hg & Hp & Hw & Hh & Ho)%validate_clauses_steps.
  pose proof (sources_nested _ _ Hsrc) as HJ.
  apply sources_scope in Hsrc as [Hs Hj]. fold (grouped s) in Hp, Hh, Ho.
  destruct (projections_scope _ _ _ _ _ Hs Hp) as (P1 & P2 & P3 & P4).
  fold (projected s) in P2, P3.
  assert (Forall (fun o => order_is_result o = false ->
    reads_from (statement_sources s) (o_expression o) /\ well_nested (o_expression o) = true /\
    (grouped s = false -> u_aggregate ps = false -> calls_aggregate (o_expression o) = false) /\
    (grouped s = false -> u_aggregate ps = true -> reads_bare (o_expression o) = false)) (orderBy s)) as HO.
  { apply Forall_lookup. intros k o Hk Hr. unfold validate_orders in Ho.
    rewrite checki_ok in Ho. specialize (Ho k o Hk). destruct (_ <? _)%N; [done|].
    by destruct (order_scope _ _ _ _ _ _ _ Hs Hr Ho) as (? & ? & ? & ?). }
  split; split.
  - apply Hs.
  - eapply Forall_impl; [exact P1|]. by intros p [? _].
  - destruct (is_nil (where_ s)) eqn:N; [by apply nil_plain|]. by eapply subquery_clause_plain, Hw.
  - apply Forall_lookup. intros k e Hk. unfold validate_groupBy in Hg. rewrite checki_ok in Hg.
    specialize (Hg k e Hk). inv_ok. by eapply subquery_clause_plain.
  - destruct (is_nil (having s)) eqn:N; [by apply (nil_plain _ _ N)|].
    unfold validate_having in Hh. rewrite N in Hh. destruct (negb _ && negb _); [done|]. inv_ok.
    by eapply expr_reads_from; [exact Hs| |exact E].
  - eapply Forall_impl; [exact HO|]. intros o H. destruct (order_is_result o) eqn:R; [by left|right; by apply H].
  - intros k j Hk. by apply (Hj k j Hk).
  - unfold clause_expressions, projected. rewrite !Forall_app, !Forall_cons, Forall_app, Forall_cons, !Forall_fmap.
    split_and!.
    + eapply Forall_impl; [exact P1|]. by intros p [_ ?].
    + exact HJ.
    + destruct (is_nil (where_ s)) eqn:N; [by apply nil_nested|]. by eapply subquery_clause_nested, Hw.
    + apply Forall_lookup. intros k e Hk. unfold validate_groupBy in Hg. rewrite checki_ok in Hg.
      specialize (Hg k e Hk). inv_ok. by eapply subquery_clause_nested.
    + destruct (is_nil (having s)) eqn:N; [by apply nil_nested|].
      unfold validate_having in Hh. rewrite N in Hh. destruct (negb _ && negb _); [done|]. inv_ok.
      by eapply accepted_nested.
    + rewrite Forall_forall in HO |- *. intros o [Hr Ho']%list_elem_of_filter. by apply (HO o).
  - intros Hng. rewrite <- P2, <- P3. by apply P4.
  - intros N Hng. unfold validate_having in Hh. rewrite N, Hng in Hh. simpl in Hh.
    rewrite P2 in Hh. destruct (existsb calls_aggregate (projected s)); simpl in Hh; [|done].
    inv_ok. destruct (u_bareColumn a) eqn:B; [done|].
    destruct (clause_context_reads _ _ _ _ _ _ Hs E eq_refl) as (_ & _ & _ & Hb).
    split; [done|]. by rewrite Hb in B.
  - intros Hng. eapply Forall_impl; [exact HO|]. intros o H Hr. destruct (H Hr) as (_ & _ & H1 & H2).
    rewrite P2 in H1, H2. destruct (existsb calls_aggregate (projected s)); auto.
Qed.

(** ** Claims *)

(** C9 Scope soundness: in a SELECT that passes the full validation, every
    column any clause reads outside its subqueries exists in a source the
    statement lists (a declared correlation, FROM, or a join; an ON condition
    only sees the joins up to its own), WHERE, GROUP BY and ON call no
    aggregate, and no two sources could answer the same rendered column
    reference. *)
Theorem Validate_scope (s : Select) :
  checked s = false -> Validate s = Ok tt -> well_scoped s.
Proof.
  unfold Validate, Select_Validate. intros -> H. inv_ok. by apply clauses_scope.
Qed.

(** C32 Aggregation rules: in a SELECT that passes the full validation no
    aggregate call of any clause (projections, ON, WHERE, GROUP BY, HAVING,
    ORDER BY expressions) sits inside another aggregate, a FILTER predicate or
    a window (a subquery is a SELECT of its own, which this states of it when
    it is validated), and without GROUP BY the projections never mix an aggregate with a column
    read outside one, HAVING requires an aggregating projection and reads no
    bare column, and ORDER BY reads no bare column over aggregating projections
    and calls no aggregate over the others. *)
Theorem Validate_grouping (s : Select) :
  checked s = false -> Validate s = Ok tt -> well_grouped s.
Proof.
  unfold Validate, Select_Validate. intros -> H. inv_ok. by apply clauses_scope.
Qed.

Definition scope_sample : Select :=
  let t := RelTable (TableRefFrom (table_of "" "users" "" 0 [column_of "id" None false])) in
  MkSelect [PExpr CountAll "n"; PExpr (Max (EColumn t "id")) ""] t [] [] []
    (Equal (OpRef t "id") (OpPlain (any_int 3))) [] (GreaterThan (OpExpression CountAll) (OpPlain (any_int 0)))
    [Desc (OpExpression CountAll)] 0 false 0 false false no_lock false false.

Lemma Validate_scope_witness :
  Validate scope_sample = Ok tt /\ reads (where_ scope_sample) <> [] /\ well_scoped scope_sample.
Proof.
  split; [vm_compute; reflexivity|]. split; [discriminate|].
  apply (Validate_scope scope_sample); vm_compute; reflexivity.
Defined.

Lemma Validate_grouping_witness : Validate scope_sample = Ok tt /\ well_grouped scope_sample.
Proof.
  split; [vm_compute; reflexivity|]. apply (Validate_grouping scope_sample); vm_compute; reflexivity.
Defined.

(** Expression validation reports what the tree contains and enforces
    placement: whenever it accepts, the usage it returns says exactly whether
    the expression calls an aggregate and whether it reads a column outside
    one, an aggregate only occurs where the clause allows it and outside any
    enclosing aggregate, and an INSERT row value reads no column at all. *)
Lemma validateExpression_usage (e : expression) (ctx : expressionContext) (path : string)
  (u : expressionUsage) :
  validateExpression e ctx path = Ok u ->
  u_aggregate u = calls_aggregate e /\
  u_bareColumn u = (aggregateDepth ctx =? 0) && reads_bare e /\
  (calls_aggregate e = true -> allowsAggregate ctx = true /\ aggregateDepth ctx = 0) /\
  (rowValue ctx = true -> allowsExcluded ctx = false -> reads e = []).
Proof. intros H%validateExpression_facts. destruct H. by split_and!. Qed.

Lemma validateExpression_usage_witness :
  exists u, validateExpression CountAll (projectionContext empty_scope) "p" = Ok u /\ u_aggregate u = true.
Proof.
  eexists. split; [reflexivity|].
  exact (proj1 (validateExpression_usage CountAll (projectionContext empty_scope) "p" _ eq_refl)).
Defined.
