(* ===== verification/QuerySelect.v ===== *)
(** * QuerySelect: the SELECT constructors and [With...] methods of
    [query/select.go]

    Every builder returns a validated copy.  [checked] records that a value
    already passed, so that a second [Validate] answers at once, and four
    methods ([WithDistinct], [WithLimit], [WithOffset], [WithLock]) re-validate
    only the clause they touch when the mark is set.  [held] is every value a
    caller can hold: the zero [Select] and what the exported functions
    return. *)

From S2P Require Import Prelude GoText SqlScan Schema Query QueryValidate.
Open Scope string_scope.
Open Scope list_scope.
Open Scope nat_scope.

(** ** Field updates of a copy *)
Definition set_checked (b : bool) (s : Select) : Select :=
  MkSelect (projections s) (from s) (correlations s) (ctes s) (joins s) (where_ s) (groupBy s) (having s)
    (orderBy s) (limit s) (hasLimit s) (offset s) (hasOffset s) (distinct s) (lock s) (hasLock s) b.
Definition set_correlations (l : list relation) (s : Select) : Select :=
  MkSelect (projections s) (from s) l (ctes s) (joins s) (where_ s) (groupBy s) (having s)
    (orderBy s) (limit s) (hasLimit s) (offset s) (hasOffset s) (distinct s) (lock s) (hasLock s) (checked s).
Definition set_ctes (l : list CTE) (s : Select) : Select :=
  MkSelect (projections s) (from s) (correlations s) l (joins s) (where_ s) (groupBy s) (having s)
    (orderBy s) (limit s) (hasLimit s) (offset s) (hasOffset s) (distinct s) (lock s) (hasLock s) (checked s).
Definition set_projections (l : list Projection) (s : Select) : Select :=
  MkSelect l (from s) (correlations s) (ctes s) (joins s) (where_ s) (groupBy s) (having s)
    (orderBy s) (limit s) (hasLimit s) (offset s) (hasOffset s) (distinct s) (lock s) (hasLock s) (checked s).
Definition set_joins (l : list JoinClause) (s : Select) : Select :=
  MkSelect (projections s) (from s) (correlations s) (ctes s) l (where_ s) (groupBy s) (having s)
    (orderBy s) (limit s) (hasLimit s) (offset s) (hasOffset s) (distinct s) (lock s) (hasLock s) (checked s).
Definition set_where (e : expression) (s : Select) : Select :=
  MkSelect (projections s) (from s) (correlations s) (ctes s) (joins s) e (groupBy s) (having s)
    (orderBy s) (limit s) (hasLimit s) (offset s) (hasOffset s) (distinct s) (lock s) (hasLock s) (checked s).
Definition set_groupBy (l : list expression) (s : Select) : Select :=
  MkSelect (projections s) (from s) (correlations s) (ctes s) (joins s) (where_ s) l (having s)
    (orderBy s) (limit s) (hasLimit s) (offset s) (hasOffset s) (distinct s) (lock s) (hasLock s) (checked s).
Definition set_having (e : expression) (s : Select) : Select :=
  MkSelect (projections s) (from s) (correlations s) (ctes s) (joins s) (where_ s) (groupBy s) e
    (orderBy s) (limit s) (hasLimit s) (offset s) (hasOffset s) (distinct s) (lock s) (hasLock s) (checked s).
Definition set_orderBy (l : list Order) (s : Select) : Select :=
  MkSelect (projections s) (from s) (correlations s) (ctes s) (joins s) (where_ s) (groupBy s) (having s)
    l (limit s) (hasLimit s) (offset s) (hasOffset s) (distinct s) (lock s) (hasLock s) (checked s).
Definition set_limit (n : Z) (s : Select) : Select :=
  MkSelect (projections s) (from s) (correlations s) (ctes s) (joins s) (where_ s) (groupBy s) (having s)
    (orderBy s) n true (offset s) (hasOffset s) (distinct s) (lock s) (hasLock s) (checked s).
Definition set_offset (n : Z) (s : Select) : Select :=
  MkSelect (projections s) (from s) (correlations s) (ctes s) (joins s) (where_ s) (groupBy s) (having s)
    (orderBy s) (limit s) (hasLimit s) n true (distinct s) (lock s) (hasLock s) (checked s).
Definition set_distinct (s : Select) : Select :=
  MkSelect (projections s) (from s) (correlations s) (ctes s) (joins s) (where_ s) (groupBy s) (having s)
    (orderBy s) (limit s) (hasLimit s) (offset s) (hasOffset s) true (lock s) (hasLock s) (checked s).
Definition set_lock (l : Lock) (s : Select) : Select :=
  MkSelect (projections s) (from s) (correlations s) (ctes s) (joins s) (where_ s) (groupBy s) (having s)
    (orderBy s) (limit s) (hasLimit s) (offset s) (hasOffset s) (distinct s) l true (checked s).

Definition zero_select : Select :=
  MkSelect [] RelZero [] [] [] ENil [] ENil [] 0 false 0 false false no_lock false false.

(** ** Constructors *)
Definition validated (s : Select) : result Select :=
  let s := set_checked false s in
  check Validate s;
  Ok (set_checked true s).

Definition NewCorrelatedJoinedSelect (source : relation) (correlated : list relation)
  (joined : list JoinClause) (grouping : list expression) (projected : list Projection) : result Select :=
  validated (MkSelect projected source correlated [] joined ENil grouping ENil [] 0 false 0 false false
               no_lock false false).
Definition NewJoinedSelect source joined grouping projected :=
  NewCorrelatedJoinedSelect source [] joined grouping projected.
Definition NewGroupedSelect source grouping projected := NewJoinedSelect source [] grouping projected.
Definition NewCorrelatedSelect source correlated projected :=
  NewCorrelatedJoinedSelect source correlated [] [] projected.
Definition NewSelect source projected := NewJoinedSelect source [] [] projected.

(** ** [With...] methods *)
Definition WithCorrelation (s : Select) (tables : list relation) : result Select :=
  validated (set_correlations (correlations s ++ tables) s).
Definition WithCTEs (s : Select) (l : list CTE) : result Select := validated (set_ctes (ctes s ++ l) s).
Definition WithJoin (s : Select) (j : JoinClause) : result Select := validated (set_joins (joins s ++ [j]) s).
Definition WithWhere (s : Select) (e : expression) : result Select := validated (set_where e s).
Definition WithGroupBy (s : Select) (l : list expression) : result Select :=
  validated (set_groupBy (groupBy s ++ l) s).
Definition WithHaving (s : Select) (e : expression) : result Select := validated (set_having e s).
Definition WithOrder (s : Select) (l : list Order) : result Select :=
  validated (set_orderBy (orderBy s ++ l) s).

Definition WithDistinct (s : Select) : result Select :=
  let copy := set_distinct s in
  if negb (checked s) then validated copy else Ok copy.
Definition WithLimit (s : Select) (n : Z) : result Select :=
  let copy := set_limit n s in
  if negb (checked s) then validated copy
  else if (n <? 0)%Z then fail "limit" "must not be negative" [] else Ok copy.
Definition WithOffset (s : Select) (n : Z) : result Select :=
  let copy := set_offset n s in
  if negb (checked s) then validated copy
  else if (n <? 0)%Z then fail "offset" "must not be negative" [] else Ok copy.
Definition WithLock (s : Select) (l : Lock) : result Select :=
  let copy := set_lock l s in
  if negb (checked s) then validated copy
  else check validateLock (lock copy) (from copy) (joins copy); Ok copy.

(** ** [ResultOf] *)
Definition result_column_check (columns : list ResultColumn) (i : nat) (c : ResultColumn) : result unit :=
  check wrap_err (fun e => Errorf "result column %d: %w" [ANat i; AErr e]) (ValidateIdentifier (rc_Name c));
  check wrap_err (fun e => Errorf "result column %q: %w" [AStr (rc_Name c); AErr e])
          (ValidateColumnType (rc_Type c));
  if existsb (fun existing => String.eqb (rc_Name existing) (rc_Name c)) (take i columns)
  then Err (Errorf "result columns contain duplicate name %q" [AStr (rc_Name c)])
  else Ok tt.

(** The outputs a body states itself: native SQL states none. *)
Definition body_outputs (b : body) : option nat :=
  match b with
  | BSelect s => Some (length (projections s))
  | BCompound l _ _ => Some (length (rq_columns l))
  | BNil | BNative _ => None
  end.
Definition output_mismatch (b : body) (got want : nat) : error :=
  match b with
  | BSelect _ => Errorf "result columns count %d does not match SELECT projection count %d" [ANat got; ANat want]
  | _ => Errorf "result columns count %d does not match compound output count %d" [ANat got; ANat want]
  end.

Definition ResultOf (b : body) (columns : list ResultColumn) : result ResultQuery :=
  if body_is_nil b then Err (errors_New "result query body must not be nil")
  else
    check body_Validate b;
    check checki (result_column_check columns) 0 columns;
    match body_outputs b with
    | Some n => if negb (n =? length columns) then Err (output_mismatch b (length columns) n)
                else Ok (MkResultQuery b columns)
    | None => Ok (MkResultQuery b columns)
    end.

(** ** [Select.ValidateCompilerExpression] *)
Definition out_of_range (c : string) (position : Z) : error :=
  Errorf "query: compiler expression %s position %d is out of range" [AStr c; AInt position].
Definition at_position {A} (c : string) (position : Z) (l : list A) (f : nat -> A -> Select)
  : result Select :=
  if (position <? 0)%Z then Err (out_of_range c position)
  else match l !! Z.to_nat position with
       | None => Err (out_of_range c position)
       | Some x => Ok (f (Z.to_nat position) x)
       end.

Definition ValidateCompilerExpression (s : Select) (e : expression) (c : string) (position : Z)
  : result unit :=
  do copy <-
    (if String.eqb c "projection" then
       at_position c position (projections s) (fun i p =>
         let p' := PExpr e (ResultAlias p) in set_projections (<[i := p']> (projections s)) s)
     else if String.eqb c "join" then
       at_position c position (joins s) (fun i j =>
         set_joins (<[i := MkJoin (join_kind j) (join_source j) e]> (joins s)) s)
     else if String.eqb c "where" then Ok (set_where e s)
     else if String.eqb c "group" then
       at_position c position (groupBy s) (fun i _ => set_groupBy (<[i := e]> (groupBy s)) s)
     else if String.eqb c "having" then Ok (set_having e s)
     else if String.eqb c "order" then
       at_position c position (orderBy s) (fun i o =>
         set_orderBy (<[i := MkOrder e PNil (descending o) NullPlacementDefault]> (orderBy s)) s)
     else Err (Errorf "query: unknown compiler expression clause %q" [AStr c]));
  Validate (set_checked false copy).

(** ** What a caller can hold *)
Inductive held : Select -> Prop :=
| held_zero : held zero_select
| held_new source cs js gs ps s :
    NewCorrelatedJoinedSelect source cs js gs ps = Ok s -> held s
| held_correlation s l s' : held s -> WithCorrelation s l = Ok s' -> held s'
| held_ctes s l s' : held s -> WithCTEs s l = Ok s' -> held s'
| held_join s j s' : held s -> WithJoin s j = Ok s' -> held s'
| held_where s e s' : held s -> WithWhere s e = Ok s' -> held s'
| held_groupBy s l s' : held s -> WithGroupBy s l = Ok s' -> held s'
| held_having s e s' : held s -> WithHaving s e = Ok s' -> held s'
| held_order s l s' : held s -> WithOrder s l = Ok s' -> held s'
| held_distinct s s' : held s -> WithDistinct s = Ok s' -> held s'
| held_limit s n s' : held s -> WithLimit s n = Ok s' -> held s'
| held_offset s n s' : held s -> WithOffset s n = Ok s' -> held s'
| held_lock s l s' : held s -> WithLock s l = Ok s' -> held s'.

(** The mark is honest: a marked statement passes the full walk. *)
Definition passes (s : Select) : Prop := Validate (set_checked false s) = Ok tt.
Definition honest (s : Select) : Prop := checked s = true -> passes s.

Lemma validated_ok s s' :
  validated s = Ok s' <-> passes s /\ s' = set_checked true s.
Proof.
  unfold validated, passes. destruct (Validate (set_checked false s)) as [[]|] eqn:E.
  - split; [intros [= <-]|intros [_ ->]]; done.
  - split; [done|by intros []].
Qed.

(** The full walk, as its three independent parts. *)
Lemma passes_split s :
  passes s <->
  validate_clauses validateExpression body_Validate s = Ok tt /\ validate_limits s = Ok tt /\
  (if hasLock s then validateLock (lock s) (from s) (joins s) else Ok tt) = Ok tt.
Proof.
  unfold passes, Validate, Select_Validate. destruct s. cbn -[validate_clauses validate_limits].
  set (c := validate_clauses _ _ _). change (validate_clauses _ _ _) with c.
  unfold validate_limits. cbn.
  destruct c as [[]|]; [|naive_solver]. repeat case_match; naive_solver.
Qed.

Lemma limits_split s :
  validate_limits s = Ok tt <->
  (hasLimit s = true -> (0 <= limit s)%Z) /\ (hasOffset s = true -> (0 <= offset s)%Z).
Proof.
  unfold validate_limits.
  destruct (hasLimit s), (hasOffset s); cbn [andb];
    repeat match goal with |- context [(?x <? 0)%Z] => destruct (Z.ltb_spec x 0) end;
    split; try done; intros; try (destruct H1 || destruct H0); intuition lia.
Qed.

Lemma passes_marked s : checked (set_checked true s) = true /\ (passes s -> passes (set_checked true s)).
Proof. split; [done|]. intros H. exact H. Qed.

(** The four fast paths agree with the full walk on the copy. *)
Lemma set_distinct_passes s : passes s -> passes (set_distinct s).
Proof. rewrite !passes_split. done. Qed.

Lemma set_limit_passes s n : passes s -> (0 <= n)%Z -> passes (set_limit n s).
Proof. rewrite !passes_split, !limits_split. cbn. intuition. Qed.

Lemma set_offset_passes s n : passes s -> (0 <= n)%Z -> passes (set_offset n s).
Proof. rewrite !passes_split, !limits_split. cbn. intuition. Qed.

Lemma set_lock_passes s l :
  passes s -> validateLock l (from s) (joins s) = Ok tt -> passes (set_lock l s).
Proof. rewrite !passes_split. cbn. intuition. Qed.

Definition good (s : Select) : Prop := checked s = true /\ passes s.

Lemma validated_good s s' : validated s = Ok s' -> good s'.
Proof. intros [H ->]%validated_ok. split; [done|exact H]. Qed.

Lemma honest_good s : honest s -> checked s = true -> good s.
Proof. intros H E. split; [done|by apply H]. Qed.

Lemma WithDistinct_good s s' : honest s -> WithDistinct s = Ok s' -> good s'.
Proof.
  unfold WithDistinct. intros H. destruct (checked s) eqn:E; simpl; [|apply validated_good].
  intros [= <-]. split; [done|]. by apply set_distinct_passes, H.
Qed.

Lemma WithLimit_good s n s' : honest s -> WithLimit s n = Ok s' -> good s'.
Proof.
  unfold WithLimit. intros H. destruct (checked s) eqn:E; simpl; [|apply validated_good].
  destruct (Z.ltb_spec n 0); [done|]. intros [= <-]. split; [done|].
  apply set_limit_passes; [by apply H|done].
Qed.

Lemma WithOffset_good s n s' : honest s -> WithOffset s n = Ok s' -> good s'.
Proof.
  unfold WithOffset. intros H. destruct (checked s) eqn:E; simpl; [|apply validated_good].
  destruct (Z.ltb_spec n 0); [done|]. intros [= <-]. split; [done|].
  apply set_offset_passes; [by apply H|done].
Qed.

Lemma WithLock_good s l s' : honest s -> WithLock s l = Ok s' -> good s'.
Proof.
  unfold WithLock. intros H. destruct (checked s) eqn:E; simpl; [|apply validated_good].
  destruct (validateLock l (from s) (joins s)) as [[]|] eqn:L; [|done]. intros [= <-].
  split; [done|]. apply set_lock_passes; [by apply H|done].
Qed.

Lemma good_honest s : good s -> honest s.
Proof. intros [_ H] _. exact H. Qed.

Lemma held_good s : held s -> s = zero_select \/ good s.
Proof.
  induction 1; [by left|right..];
    try (match goal with H : _ = Ok _ |- _ => by apply validated_good in H end);
    assert (honest s) as Hh by (destruct IHheld as [->|?]; [done|by apply good_honest]).
  - by eapply WithDistinct_good.
  - by eapply WithLimit_good.
  - by eapply WithOffset_good.
  - by eapply WithLock_good.
Qed.

(** ** Claims *)

(** The validation mark is never stale: in every SELECT a caller can hold
    (the zero value, or anything the constructors and [With...] methods return,
    in any order), the remembered answer of [Validate] is the answer of the
    full walk over the statement as it now stands, and every value other than
    the zero one passes it.  The four methods that skip the walk are included. *)
Lemma held_validated (s : Select) :
  held s ->
  Validate s = Validate (set_checked false s) /\
  (s <> zero_select -> Validate (set_checked false s) = Ok tt).
Proof.
  intros [->|[Hc Hp]]%held_good; [done|]. unfold passes in Hp. rewrite Hp. split; [|done].
  unfold Validate, Select_Validate. by rewrite Hc.
Qed.

Definition sample_table : TableRef :=
  TableRefFrom (table_of "" "users" "" 0 [column_of "id" (Some (IntegerType false None false)) false]).
Definition or_zero (r : result Select) : Select := match r with Ok s => s | Err _ => zero_select end.
Definition sample_select : Select :=
  or_zero (NewSelect (RelTable sample_table) [PColumn (RelTable sample_table) "id"]).
Definition sample_limited : Select := or_zero (WithLimit sample_select 10).

Lemma sample_held : held sample_limited.
Proof.
  apply (held_limit sample_select 10); [|vm_compute; reflexivity].
  apply (held_new (RelTable sample_table) [] [] [] [PColumn (RelTable sample_table) "id"]).
  vm_compute; reflexivity.
Qed.

Lemma held_validated_witness :
  held sample_limited /\ Validate (set_checked false sample_limited) = Ok tt.
Proof.
  split; [exact sample_held|].
  apply (proj2 (held_validated sample_limited sample_held)).
  intros H. apply (f_equal hasLimit) in H. vm_compute in H. discriminate H.
Defined.

(** The fast paths decide what the full walk decides: on a marked
    statement that passes, [WithLimit], [WithOffset] and [WithLock] return an
    error exactly when validating the modified copy in full would, and
    [WithDistinct] never does. *)
Lemma fast_paths_complete (s : Select) (n : Z) (l : Lock) :
  checked s = true -> Validate (set_checked false s) = Ok tt ->
  (is_ok (WithLimit s n) = is_ok (validated (set_limit n s))) /\
  (is_ok (WithOffset s n) = is_ok (validated (set_offset n s))) /\
  (is_ok (WithLock s l) = is_ok (validated (set_lock l s))) /\
  is_ok (WithDistinct s) = true.
Proof.
  intros Hc Hp. change (passes s) in Hp. unfold WithLimit, WithOffset, WithLock, WithDistinct. rewrite Hc.
  assert (forall t, is_ok (validated t) = true <-> passes t) as Hv.
  { intros t. rewrite is_ok_true. split; [by intros [? [? _]%validated_ok]|].
    intros H. eexists. by apply validated_ok. }
  assert (forall (b c : bool), (b = true <-> c = true) -> b = c) as Hb.
  { intros [] []; intuition congruence. }
  split_and!; [apply Hb; rewrite Hv..|done]; cbn [negb].
  - destruct (Z.ltb_spec n 0); cbn; split; try done; [|by intros _; apply set_limit_passes].
    rewrite passes_split, limits_split. cbn. intuition lia.
  - destruct (Z.ltb_spec n 0); cbn; split; try done; [|by intros _; apply set_offset_passes].
    rewrite passes_split, limits_split. cbn. intuition lia.
  - cbn. destruct (validateLock l (from s) (joins s)) as [[]|] eqn:E; cbn; split; try done.
    + intros _. by apply set_lock_passes.
    + rewrite passes_split. cbn. rewrite E. by intros (_ & _ & ?).
Qed.

Lemma fast_paths_complete_witness :
  is_ok (WithLimit sample_select (-1)) = is_ok (validated (set_limit (-1) sample_select)).
Proof.
  assert (checked sample_select = true) as H1 by (vm_compute; reflexivity).
  assert (Validate (set_checked false sample_select) = Ok tt) as H2 by (vm_compute; reflexivity).
  exact (proj1 (fast_paths_complete sample_select (-1) no_lock H1 H2)).
Defined.

Lemma result_columns_distinct (columns : list ResultColumn) :
  checki (result_column_check columns) 0 columns = Ok tt ->
  NoDup (rc_Name <$> columns) /\
  Forall (fun c => ValidateIdentifier (rc_Name c) = Ok tt /\ ValidateColumnType (rc_Type c) = Ok tt) columns.
Proof.
  rewrite checki_ok. intros H. split.
  - apply NoDup_alt. intros i j n Hi Hj. apply list_lookup_fmap_Some in Hi as (ci & Hin & Hi).
    apply list_lookup_fmap_Some in Hj as (cj & Hjn & Hj).
    assert (forall i j (ci cj : ResultColumn), columns !! i = Some ci -> columns !! j = Some cj ->
              rc_Name ci = rc_Name cj -> i < j -> False) as K.
    { clear i j ci cj Hi Hj Hin Hjn. intros i j ci cj Hi Hj Hn Hlt. specialize (H j cj Hj). simpl in H.
      unfold result_column_check in H. inv_ok. destruct (existsb _ _) eqn:Ex; [done|].
      assert (existsb (fun existing => String.eqb (rc_Name existing) (rc_Name cj)) (take j columns) = true) as Ex'.
      { apply existsb_exists. exists ci. split; [|by apply String.eqb_eq].
        apply list_elem_of_In, list_elem_of_lookup. exists i. by rewrite lookup_take_lt. }
      congruence. }
    destruct (lt_eq_lt_dec i j) as [[Hlt| ->]|Hlt]; [exfalso; eapply (K i j); eauto; congruence|done|].
    exfalso; eapply (K j i); eauto; congruence.
  - apply Forall_lookup. intros i c Hc. specialize (H i c Hc). unfold result_column_check in H. simpl in H.
    inv_ok. split; by eapply wrap_err_ok.
Qed.

(** Reusable results are well formed: [ResultOf] accepts a body only when
    the body itself validates, and then the result exposes exactly the columns
    given - valid identifiers of valid types, no name twice, as many as the
    body outputs - so every one of them can be read, under its own name, from
    a derived table made of the result. *)
Lemma ResultOf_columns (b : body) (columns : list ResultColumn) (q : ResultQuery) :
  ResultOf b columns = Ok q ->
  q = MkResultQuery b columns /\ body_Validate b = Ok tt /\
  NoDup (rc_Name <$> columns) /\
  Forall (fun c => ValidateIdentifier (rc_Name c) = Ok tt /\ ValidateColumnType (rc_Type c) = Ok tt) columns /\
  (forall n, body_outputs b = Some n -> n = length columns) /\
  forall ptr alias r c, Derived ptr q alias = Ok r -> c ∈ columns -> hasColumn r (rc_Name c) = true.
Proof.
  unfold ResultOf. destruct (body_is_nil b) eqn:N; [done|]. intros H. inv_ok.
  apply result_columns_distinct in E0 as [H1 H2].
  assert (q = MkResultQuery b columns /\ forall n, body_outputs b = Some n -> n = length columns) as [-> Hn].
  { destruct (body_outputs b) as [n|]; [|by injection H as <-].
    destruct (Nat.eqb_spec n (length columns)) as [Hl|]; simpl in H; [|done]. injection H as <-.
    split; [done|]. by intros ? [= <-]. }
  split_and!; try done.
  intros ptr alias r c Hd Hc. unfold Derived in Hd. destruct (ValidateSimpleIdentifier alias); [|done].
  simpl in Hd. rewrite N in Hd. injection Hd as <-. simpl.
  apply existsb_exists. exists c. split; [by apply list_elem_of_In|by apply String.eqb_eq].
Qed.

Definition sample_result : list ResultColumn := [MkResultColumn "id" (Some (IntegerType false None false)) false ""].
Lemma ResultOf_columns_witness :
  exists q, ResultOf (BSelect sample_limited) sample_result = Ok q /\ NoDup (rc_Name <$> sample_result).
Proof.
  eexists. split; [vm_compute; reflexivity|].
  refine (proj1 (proj2 (proj2 (ResultOf_columns (BSelect sample_limited) sample_result _ _)))).
  vm_compute; reflexivity.
Defined.
