(* ===== verification/QueryWrite.v ===== *)
(** * QueryWrite: [query/write.go]

    INSERT, UPDATE, DELETE and upsert statements: their constructors, their
    [With...] methods and their validation. *)

From S2P Require Import Prelude GoText SqlScan Schema Query QueryValidate QueryScope.
Open Scope string_scope.
Open Scope list_scope.
Open Scope nat_scope.

(** ** Data *)
Record ColumnRef := MkColumnRef { cr_source : relation; cr_name : string }.
Record Assignment := MkAssignment { a_column : ColumnRef; a_value : expression; defaultValue : bool }.

Definition Set_ (c : ColumnRef) (v : operand_value) : Assignment := MkAssignment c (operand v) false.
Definition SetDefault (c : ColumnRef) : Assignment := MkAssignment c EDefault true.

Record Insert := MkInsert {
  into : TableRef; i_columns : list ColumnRef; rows : list (list expression); defaultValues : bool;
  selectSource : option ResultQuery; i_returning : list Projection }.

Record Update := MkUpdate {
  u_table : TableRef; u_sets : list Assignment; u_where : expression; u_returning : list Projection;
  u_allowAll : bool }.

Record Delete := MkDelete {
  d_from : TableRef; d_where : expression; d_returning : list Projection; d_allowAll : bool }.

Record Upsert := MkUpsert {
  up_insert : Insert; up_conflict : list ColumnRef; up_assignments : list Assignment;
  up_returning : list Projection; conflictWhere : expression; updateWhere : expression }.

(** ** Shared checks *)
Definition validateWriteTarget (t : TableRef) (path : string) : result sourceScope :=
  check at_path path (table_validate t);
  if negb (String.eqb (table_alias t) "")
  then fail (path +:+ ".alias") "write targets must not use an alias" []
  else Ok (newSourceScope (RelTable t)).

Definition validateTargetColumn (c : ColumnRef) (t : TableRef) (path : string) : result unit :=
  check at_path path (rel_validate (cr_source c));
  if negb (String.eqb (key (cr_source c)) (key (RelTable t)))
  then fail path "belongs to table %q instead of target %q"
         [AStr (rel_QualifiedName (cr_source c)); AStr (table_QualifiedName t)]
  else match table_column t (cr_name c) with
       | None => fail path "references unknown column %q" [AStr (cr_name c)]
       | Some _ => Ok tt
       end.

(** A loop that refuses a repeated name: [pre] runs before the test, [post]
    after the name is recorded. *)
Definition distinct_loop {A} (nm : A -> string) (pre post : nat -> A -> result unit)
  (dup : nat -> A -> error) (l : list A) : result unit :=
  do _ <- foldi (fun i a (seen : gset string) =>
    check pre i a;
    if bool_decide (nm a ∈ seen) then Err (dup i a)
    else check post i a; Ok ({[ nm a ]} ∪ seen)) 0 l ∅;
  Ok tt.

Definition validate_columns (t : TableRef) (field : string) (l : list ColumnRef) : result unit :=
  distinct_loop cr_name
    (fun i c => validateTargetColumn c t (item "" field i)) (fun _ _ => Ok tt)
    (fun i c => qerr (item "" field i) "duplicates column %q" [AStr (cr_name c)]) l.

Definition validateProjections (l : list Projection) (s : sourceScope) (path : string) : result unit :=
  checki (fun i p =>
    let itemPath := item "" path i in
    if proj_is_nil p then fail itemPath "must not be nil" []
    else
      check (if String.eqb (ResultAlias p) "" then Ok tt
             else at_path (itemPath +:+ ".alias") (validateAlias (ResultAlias p)));
      validateClauseExpression validateExpression (ProjectedExpression p) s "a RETURNING projection"
        (itemPath +:+ ".expression")) 0 l.

Definition validate_clause (e : expression) (s : sourceScope) (c path : string) : result unit :=
  if is_nil e then Ok tt else validateSubqueryClauseExpression validateExpression e s c path.

(** ** INSERT *)
Definition row_path (i j : nat) : string := item (item "" "rows" i) ".values" j.

Definition validate_rows (s : Insert) (scope : sourceScope) : result unit :=
  checki (fun i row =>
    if negb (length row =? length (i_columns s))
    then fail (item "" "rows" i) "has %d values for %d columns" [ANat (length row); ANat (length (i_columns s))]
    else checki (fun j value =>
           validateRowValueExpression validateExpression value scope "an INSERT value" (row_path i j)) 0 row)
    0 (rows s).

Definition Insert_Validate (s : Insert) : result unit :=
  do scope <- validateWriteTarget (into s) "into";
  if defaultValues s then
    if 0 <? length (i_columns s) then fail "columns" "must be empty for a default-values insert" []
    else if 0 <? length (rows s) then fail "rows" "must be empty for a default-values insert" []
    else validateProjections (i_returning s) scope "returning"
  else match selectSource s with
  | Some source =>
      if 0 <? length (rows s) then fail "rows" "must be empty for an INSERT SELECT" []
      else if body_is_nil (rq_body source) then fail "select" "source must not be empty" []
      else if length (i_columns s) =? 0 then fail "columns" "must not be empty" []
      else
        check validate_columns (into s) "columns" (i_columns s);
        if negb (length (i_columns s) =? length (rq_columns source))
        then fail "columns" "has %d columns for %d source results"
               [ANat (length (i_columns s)); ANat (length (rq_columns source))]
        else
          check checki (fun i c => validateTargetColumn c (into s) (item "" "columns" i)) 0 (i_columns s);
          validateProjections (i_returning s) scope "returning"
  | None =>
      if length (i_columns s) =? 0 then fail "columns" "must not be empty" []
      else if length (rows s) =? 0 then fail "rows" "must not be empty" []
      else
        check validate_columns (into s) "columns" (i_columns s);
        check validate_rows s scope;
        validateProjections (i_returning s) scope "returning"
  end.

Definition validatedInsert (s : Insert) : result Insert := check Insert_Validate s; Ok s.

(** What [NewInsert] accepts: a [Set] assignment, [Defaults()], or a value of
    neither type. *)
Inductive InsertValues := IVAssignment (a : Assignment) | IVDefaults | IVOther.
Definition Defaults : InsertValues := IVDefaults.

Definition values_path (i : nat) : string := item "" "values" i.

(** The loop of [NewInsert]: [None] is a [Defaults()] standing alone. *)
Definition insert_values (l : list InsertValues)
  : result (option (list ColumnRef * list expression)) :=
  foldi (fun i v st =>
    match v with
    | IVAssignment a =>
        match st with
        | Some (cs, row) => Ok (Some (cs ++ [a_column a], row ++ [a_value a]))
        | None => Ok None
        end
    | IVDefaults =>
        if 1 <? length l
        then fail (values_path i) "Defaults() must be the only argument: an INSERT either names its columns with Set or writes the database default for every column" []
        else Ok None
    | IVOther => fail (values_path i) "must be a Set assignment or Defaults()" []
    end) 0 l (Some ([], [])).

Definition NewInsert (t : TableRef) (values : list InsertValues) : result Insert :=
  if length values =? 0
  then fail "values" "must not be empty; Defaults() writes the database default for every column" []
  else
    do st <- insert_values values;
    match st with
    | None => validatedInsert (MkInsert t [] [] true None [])
    | Some (cs, row) => validatedInsert (MkInsert t cs [row] false None [])
    end.

Definition NewInsertRows (t : TableRef) (cs : list ColumnRef) (l : list (list operand_value)) : result Insert :=
  validatedInsert (MkInsert t cs (map operands l) false None []).
Definition NewInsertSelect (t : TableRef) (cs : list ColumnRef) (source : ResultQuery) : result Insert :=
  validatedInsert (MkInsert t cs [] false (Some source) []).
Definition WithRows (s : Insert) (l : list (list operand_value)) : result Insert :=
  validatedInsert (MkInsert (into s) (i_columns s) (rows s ++ map operands l) (defaultValues s)
                     (selectSource s) (i_returning s)).
Definition Insert_WithReturning (s : Insert) (ps : list Projection) : result Insert :=
  validatedInsert (MkInsert (into s) (i_columns s) (rows s) (defaultValues s) (selectSource s)
                     (i_returning s ++ ps)).

(** ** UPDATE *)
(** The loop over a SET list; [value] judges the assigned value. *)
Definition validate_sets (t : TableRef) (value : Assignment -> string -> result unit)
  (l : list Assignment) : result unit :=
  distinct_loop (fun a => cr_name (a_column a))
    (fun i a => validateTargetColumn (a_column a) t (item "" "assignments" i +:+ ".column"))
    (fun i a => value a (item "" "assignments" i))
    (fun i a => qerr (item "" "assignments" i +:+ ".column") "duplicates column %q" [AStr (cr_name (a_column a))]) l.

Definition update_value (scope : sourceScope) (a : Assignment) (path : string) : result unit :=
  validateSubqueryClauseExpression validateExpression (a_value a) scope "a SET assignment" (path +:+ ".value").

Definition Update_Validate (s : Update) : result unit :=
  do scope <- validateWriteTarget (u_table s) "table";
  if length (u_sets s) =? 0 then fail "assignments" "must not be empty" []
  else
    check validate_sets (u_table s) (update_value scope) (u_sets s);
    check validate_clause (u_where s) scope "a WHERE clause" "where";
    if u_allowAll s && negb (is_nil (u_where s))
    then fail "allowAll" "must not be combined with a WHERE predicate" []
    else validateProjections (u_returning s) scope "returning".

Definition validatedUpdate (s : Update) : result Update := check Update_Validate s; Ok s.
Definition NewUpdate (t : TableRef) (l : list Assignment) : result Update :=
  validatedUpdate (MkUpdate t l ENil [] false).
Definition update_combined : error :=
  errors_New "query: UPDATE AllowAll must not be combined with a WHERE predicate".
Definition Update_WithWhere (s : Update) (e : expression) : result Update :=
  if negb (is_nil e) && u_allowAll s then Err update_combined
  else validatedUpdate (MkUpdate (u_table s) (u_sets s) e (u_returning s) (u_allowAll s)).
Definition Update_AllowAll (s : Update) : result Update :=
  if negb (is_nil (u_where s)) then Err update_combined
  else validatedUpdate (MkUpdate (u_table s) (u_sets s) (u_where s) (u_returning s) true).
Definition Update_WithReturning (s : Update) (ps : list Projection) : result Update :=
  validatedUpdate (MkUpdate (u_table s) (u_sets s) (u_where s) (u_returning s ++ ps) (u_allowAll s)).

(** ** DELETE *)
Definition Delete_Validate (s : Delete) : result unit :=
  do scope <- validateWriteTarget (d_from s) "from";
  check validate_clause (d_where s) scope "a WHERE clause" "where";
  if d_allowAll s && negb (is_nil (d_where s))
  then fail "allowAll" "must not be combined with a WHERE predicate" []
  else validateProjections (d_returning s) scope "returning".

Definition validatedDelete (s : Delete) : result Delete := check Delete_Validate s; Ok s.
Definition NewDelete (t : TableRef) : result Delete := validatedDelete (MkDelete t ENil [] false).
Definition delete_combined : error :=
  errors_New "query: DELETE AllowAll must not be combined with a WHERE predicate".
Definition Delete_WithWhere (s : Delete) (e : expression) : result Delete :=
  if negb (is_nil e) && d_allowAll s then Err delete_combined
  else validatedDelete (MkDelete (d_from s) e (d_returning s) (d_allowAll s)).
Definition Delete_AllowAll (s : Delete) : result Delete :=
  if negb (is_nil (d_where s)) then Err delete_combined
  else validatedDelete (MkDelete (d_from s) (d_where s) (d_returning s) true).
Definition Delete_WithReturning (s : Delete) (ps : list Projection) : result Delete :=
  validatedDelete (MkDelete (d_from s) (d_where s) (d_returning s ++ ps) (d_allowAll s)).

(** ** Upsert *)
Definition upsert_value (scope : sourceScope) (a : Assignment) (path : string) : result unit :=
  if defaultValue a then fail (path +:+ ".value") "DEFAULT assignments are only supported by UPDATE" []
  else validateExcludedClauseExpression validateExpression (a_value a) scope
         "a conflict-update assignment" (path +:+ ".value").

Definition Upsert_Validate (s : Upsert) : result unit :=
  if 0 <? length (i_returning (up_insert s)) then fail "insert.returning" "must be set on the upsert" []
  else
    check at_path "insert" (Insert_Validate (up_insert s));
    if (length (up_conflict s) =? 0) && (length (up_assignments s) =? 0)
    then fail "upsert" "requires conflict columns or assignments" []
    else if negb (is_nil (conflictWhere s)) && (length (up_conflict s) =? 0)
    then fail "conflict_where" "requires conflict columns" []
    else if negb (is_nil (updateWhere s)) && (length (up_assignments s) =? 0)
    then fail "update_where" "requires assignments" []
    else
      let target := into (up_insert s) in
      do scope <- validateWriteTarget target "insert.into";
      check validate_columns target "conflict" (up_conflict s);
      check validate_sets target (upsert_value scope) (up_assignments s);
      check (if is_nil (conflictWhere s) then Ok tt
             else validateClauseExpression validateExpression (conflictWhere s) scope
                    "a conflict target predicate" "conflict_where");
      check (if is_nil (updateWhere s) then Ok tt
             else validateExcludedClauseExpression validateExpression (updateWhere s) scope
                    "a conflict-update predicate" "update_where");
      validateProjections (up_returning s) scope "returning".

Definition validatedUpsert (s : Upsert) : result Upsert := check Upsert_Validate s; Ok s.
Definition NewUpsert (i : Insert) (conflict : list ColumnRef) (l : list Assignment) : result Upsert :=
  validatedUpsert (MkUpsert i conflict l [] ENil ENil).
Definition Upsert_WithReturning (s : Upsert) (ps : list Projection) : result Upsert :=
  validatedUpsert (MkUpsert (up_insert s) (up_conflict s) (up_assignments s) (up_returning s ++ ps)
                     (conflictWhere s) (updateWhere s)).
Definition WithConflictWhere (s : Upsert) (e : expression) : result Upsert :=
  if is_nil e then fail "conflict_where" "must not be nil" []
  else validatedUpsert (MkUpsert (up_insert s) (up_conflict s) (up_assignments s) (up_returning s)
                          e (updateWhere s)).
Definition WithUpdateWhere (s : Upsert) (e : expression) : result Upsert :=
  if is_nil e then fail "update_where" "must not be nil" []
  else validatedUpsert (MkUpsert (up_insert s) (up_conflict s) (up_assignments s) (up_returning s)
                          (conflictWhere s) e).

(** ** Lemmas *)
Definition distinct_step {A} (nm : A -> string) (pre post : nat -> A -> result unit)
  (dup : nat -> A -> error) (i : nat) (a : A) (seen : gset string) : result (gset string) :=
  check pre i a;
  if bool_decide (nm a ∈ seen) then Err (dup i a)
  else check post i a; Ok ({[ nm a ]} ∪ seen).

Lemma distinct_from {A} (nm : A -> string) pre post dup (l : list A) i seen s :
  foldi (distinct_step nm pre post dup) i l seen = Ok s ->
  NoDup (nm <$> l) /\ Forall (fun a => nm a ∉ seen) l /\
  forall k a, l !! k = Some a -> pre (i + k) a = Ok tt /\ post (i + k) a = Ok tt.
Proof.
  revert i seen. induction l as [|x l IH]; intros i seen; cbn [foldi].
  - intros _. split_and!; [constructor|constructor|]. intros k a. by rewrite lookup_nil.
  - unfold distinct_step at 1. intros H. inv_ok.
    destruct (bool_decide_reflect (nm x ∈ seen)) as [|Hns]; [done|]. inv_ok.
    apply IH in H as (H1 & H2 & H3). split_and!.
    + simpl. constructor; [|done]. intros (y & Hy & Hin)%list_elem_of_fmap.
      rewrite Forall_forall in H2. apply (H2 y Hin). set_solver.
    + constructor; [done|]. eapply Forall_impl; [exact H2|]. intros y Hy. set_solver.
    + intros [|k] a; simpl.
      * intros [= <-]. by rewrite Nat.add_0_r.
      * intros Hk. rewrite Nat.add_succ_r. by apply (H3 k).
Qed.

Lemma distinct_loop_ok {A} (nm : A -> string) pre post dup (l : list A) :
  distinct_loop nm pre post dup l = Ok tt ->
  NoDup (nm <$> l) /\ forall i a, l !! i = Some a -> pre i a = Ok tt /\ post i a = Ok tt.
Proof.
  unfold distinct_loop. intros H. inv_ok. clear H.
  apply (distinct_from nm pre post dup l 0 ∅) in E as (H1 & _ & H2). split; [done|].
  intros i x. by apply (H2 i).
Qed.

Lemma write_target_ok t path scope :
  validateWriteTarget t path = Ok scope ->
  table_alias t = "" /\ descriptor t <> None /\ scope_of [RelTable t] scope.
Proof.
  unfold validateWriteTarget. intros H. inv_ok.
  destruct (String.eqb_spec (table_alias t) ""); simpl in H; [|done]. injection H as <-.
  split_and!; [done| |].
  - apply at_path_ok in E. unfold table_validate in E. by destruct (descriptor t).
  - apply (scope_of_add [] empty_scope _ path scope_of_empty). done.
Qed.

(** A column of the target table. *)
Definition target_column (t : TableRef) (c : ColumnRef) : Prop :=
  key (cr_source c) = key (RelTable t) /\ table_column t (cr_name c) <> None.

Lemma validateTargetColumn_ok c t path :
  validateTargetColumn c t path = Ok tt -> target_column t c.
Proof.
  unfold validateTargetColumn. intros H. inv_ok.
  destruct (String.eqb_spec (key (cr_source c)) (key (RelTable t))); simpl in H; [|done].
  split; [done|]. by destruct (table_column t (cr_name c)).
Qed.

Lemma validate_columns_ok t field l :
  validate_columns t field l = Ok tt -> NoDup (cr_name <$> l) /\ Forall (target_column t) l.
Proof.
  intros [H1 H2]%distinct_loop_ok. split; [done|]. apply Forall_lookup. intros i c Hc.
  eapply validateTargetColumn_ok, H2, Hc.
Qed.

Lemma validate_sets_ok t value l :
  validate_sets t value l = Ok tt ->
  NoDup ((fun a => cr_name (a_column a)) <$> l) /\
  Forall (fun a => target_column t (a_column a) /\ exists path, value a path = Ok tt) l.
Proof.
  intros [H1 H2]%distinct_loop_ok. split; [done|]. apply Forall_lookup. intros i a Ha.
  destruct (H2 i a Ha) as [H3 H4]. split; [by eapply validateTargetColumn_ok|eauto].
Qed.

Lemma validateProjections_ok l s ps path :
  scope_of l s -> validateProjections ps s path = Ok tt ->
  Forall (fun p => plain_clause l (ProjectedExpression p)) ps.
Proof.
  unfold validateProjections. intros Hs H. apply Forall_lookup. intros i p Hp.
  rewrite checki_ok in H. specialize (H i p Hp). destruct (proj_is_nil p); [done|]. inv_ok.
  unfold validateClauseExpression in H. apply drop_usage_ok in H as [u H].
  split; [by eapply expr_reads_from; [exact Hs| |exact H]|by eapply no_aggregate; [|exact H]].
Qed.

Lemma validate_clause_ok l s e c path :
  scope_of l s -> validate_clause e s c path = Ok tt -> plain_clause l e.
Proof.
  unfold validate_clause. intros Hs. destruct (is_nil e) eqn:N; [intros _; by apply nil_plain|].
  by apply subquery_clause_plain.
Qed.

(** What each accepted write statement guarantees. *)
Record insert_ok (s : Insert) : Prop := {
  io_target : table_alias (into s) = "" /\ descriptor (into s) <> None;
  io_columns : NoDup (cr_name <$> i_columns s) /\ Forall (target_column (into s)) (i_columns s);
  io_rows : Forall (fun row => length row = length (i_columns s) /\
                               Forall (fun e => reads e = [] /\ calls_aggregate e = false) row) (rows s);
  io_shape : match defaultValues s, selectSource s with
             | true, _ => i_columns s = [] /\ rows s = []
             | false, Some q => rows s = [] /\ i_columns s <> [] /\
                                length (i_columns s) = length (rq_columns q) /\ rq_body q <> BNil
             | false, None => rows s <> [] /\ i_columns s <> []
             end;
  io_returning : Forall (fun p => plain_clause [RelTable (into s)] (ProjectedExpression p)) (i_returning s) }.

Lemma validate_rows_ok s scope :
  validate_rows s scope = Ok tt ->
  Forall (fun row => length row = length (i_columns s) /\
                     Forall (fun e => reads e = [] /\ calls_aggregate e = false) row) (rows s).
Proof.
  unfold validate_rows. intros H. apply Forall_lookup. intros i row Hr. rewrite checki_ok in H.
  specialize (H i row Hr). destruct (Nat.eqb_spec (length row) (length (i_columns s))) as [Hlen|]; simpl in H; [|done].
  split; [done|]. apply Forall_lookup. intros j e He. rewrite checki_ok in H. specialize (H j e He).
  unfold validateRowValueExpression in H. apply drop_usage_ok in H as [u H].
  split; [|by eapply no_aggregate; [|exact H]].
  apply validateExpression_facts in H. by apply (f_row _ _ _ _ _ _ H).
Qed.

Lemma length_zero {A} (l : list A) : length l = 0 -> l = [].
Proof. by destruct l. Qed.

Lemma Insert_Validate_ok s : Insert_Validate s = Ok tt -> insert_ok s.
Proof.
  unfold Insert_Validate. intros H. inv_ok. apply write_target_ok in E as (Ha & Hd & Hs).
  destruct (defaultValues s) eqn:D; [|destruct (selectSource s) as [q|] eqn:Q].
  - destruct (Nat.ltb_spec 0 (length (i_columns s))) as [|Hc]; [done|].
    destruct (Nat.ltb_spec 0 (length (rows s))) as [|Hr]; [done|].
    assert (i_columns s = [] /\ rows s = []) as [Hc' Hr'] by (split; apply length_zero; lia).
    split; rewrite ?D, ?Hc', ?Hr'; try done.
    + split; constructor.
    + by eapply validateProjections_ok.
  - destruct (Nat.ltb_spec 0 (length (rows s))) as [|Hr]; [done|].
    destruct (body_is_nil (rq_body q)) eqn:B; [done|].
    destruct (Nat.eqb_spec (length (i_columns s)) 0) as [|Hc]; [done|]. inv_ok.
    destruct (Nat.eqb_spec (length (i_columns s)) (length (rq_columns q))); simpl in H; [|done]. inv_ok.
    assert (rows s = []) as Hr' by (apply length_zero; lia).
    split; rewrite ?D, ?Q, ?Hr'; try done.
    + by eapply validate_columns_ok.
    + split_and!; try done; [by intros F; rewrite F in Hc|by intros F; rewrite F in B].
    + by eapply validateProjections_ok.
  - destruct (Nat.eqb_spec (length (i_columns s)) 0) as [|Hc]; [done|].
    destruct (Nat.eqb_spec (length (rows s)) 0) as [|Hr]; [done|]. inv_ok.
    split; rewrite ?D, ?Q; try done.
    + by eapply validate_columns_ok.
    + by eapply validate_rows_ok.
    + split; intros F; [by rewrite F in Hr|by rewrite F in Hc].
    + by eapply validateProjections_ok.
Qed.

Record update_ok (s : Update) : Prop := {
  uo_target : table_alias (u_table s) = "" /\ descriptor (u_table s) <> None;
  uo_columns : NoDup ((fun a => cr_name (a_column a)) <$> u_sets s) /\ u_sets s <> [];
  uo_sets : Forall (fun a => target_column (u_table s) (a_column a) /\
                             plain_clause [RelTable (u_table s)] (a_value a)) (u_sets s);
  uo_where : plain_clause [RelTable (u_table s)] (u_where s);
  uo_all : u_allowAll s = true -> u_where s = ENil;
  uo_returning : Forall (fun p => plain_clause [RelTable (u_table s)] (ProjectedExpression p)) (u_returning s) }.

Lemma nil_of e : negb (is_nil e) = false -> e = ENil.
Proof. by destruct e. Qed.

Lemma Update_Validate_ok s : Update_Validate s = Ok tt -> update_ok s.
Proof.
  unfold Update_Validate. intros H. inv_ok. apply write_target_ok in E as (Ha & Hd & Hs).
  destruct (Nat.eqb_spec (length (u_sets s)) 0) as [|Hl]; [done|]. inv_ok.
  destruct (u_allowAll s && negb (is_nil (u_where s))) eqn:A; [done|].
  apply validate_sets_ok in E as [Hn Hf]. split; try done.
  - split; [done|]. intros F. by rewrite F in Hl.
  - eapply Forall_impl; [exact Hf|]. intros x [Hc [p Hv]]. split; [done|].
    by eapply subquery_clause_plain, Hv.
  - by eapply validate_clause_ok.
  - intros Hall. rewrite Hall in A. by apply nil_of.
  - by eapply validateProjections_ok.
Qed.

Record delete_ok (s : Delete) : Prop := {
  do_target : table_alias (d_from s) = "" /\ descriptor (d_from s) <> None;
  do_where : plain_clause [RelTable (d_from s)] (d_where s);
  do_all : d_allowAll s = true -> d_where s = ENil;
  do_returning : Forall (fun p => plain_clause [RelTable (d_from s)] (ProjectedExpression p)) (d_returning s) }.

Lemma Delete_Validate_ok s : Delete_Validate s = Ok tt -> delete_ok s.
Proof.
  unfold Delete_Validate. intros H. inv_ok. apply write_target_ok in E as (Ha & Hd & Hs).
  destruct (d_allowAll s && negb (is_nil (d_where s))) eqn:A; [done|]. split; try done.
  - by eapply validate_clause_ok.
  - intros Hall. rewrite Hall in A. by apply nil_of.
  - by eapply validateProjections_ok.
Qed.

Record upsert_ok (s : Upsert) : Prop := {
  so_insert : insert_ok (up_insert s) /\ i_returning (up_insert s) = [];
  so_work : up_conflict s <> [] \/ up_assignments s <> [];
  so_conflict : NoDup (cr_name <$> up_conflict s) /\
                Forall (target_column (into (up_insert s))) (up_conflict s);
  so_sets : NoDup ((fun a => cr_name (a_column a)) <$> up_assignments s) /\
            Forall (fun a => target_column (into (up_insert s)) (a_column a) /\ defaultValue a = false /\
                             plain_clause [RelTable (into (up_insert s))] (a_value a)) (up_assignments s);
  so_conflictWhere : plain_clause [RelTable (into (up_insert s))] (conflictWhere s) /\
                     (conflictWhere s <> ENil -> up_conflict s <> []);
  so_updateWhere : plain_clause [RelTable (into (up_insert s))] (updateWhere s) /\
                   (updateWhere s <> ENil -> up_assignments s <> []);
  so_returning : Forall (fun p => plain_clause [RelTable (into (up_insert s))] (ProjectedExpression p))
                   (up_returning s) }.

Lemma drop_usage_plain l e ctx path :
  scope_of l (sources ctx) -> allowsAggregate ctx = false ->
  drop_usage (validateExpression e ctx path) = Ok tt -> plain_clause l e.
Proof.
  intros Hs Ha [u H]%drop_usage_ok.
  split; [by eapply expr_reads_from; [exact Hs| |exact H]|by eapply no_aggregate; [|exact H]].
Qed.

Lemma optional_plain l e ctx path :
  scope_of l (sources ctx) -> allowsAggregate ctx = false ->
  (if is_nil e then Ok tt else drop_usage (validateExpression e ctx path)) = Ok tt -> plain_clause l e.
Proof.
  destruct (is_nil e) eqn:N; [intros _ _ _; by apply nil_plain|]. by apply drop_usage_plain.
Qed.

Lemma needs_list {A} e (l : list A) :
  negb (is_nil e) && (length l =? 0) = false -> e <> ENil -> l <> [].
Proof. intros H He ->. rewrite andb_true_r in H. apply He. by apply nil_of. Qed.

Lemma upsert_value_ok l scope a path :
  scope_of l scope -> upsert_value scope a path = Ok tt ->
  defaultValue a = false /\ plain_clause l (a_value a).
Proof.
  unfold upsert_value. intros Hs H. destruct (defaultValue a); [done|]. split; [done|].
  by eapply drop_usage_plain; [| |exact H].
Qed.

Lemma Upsert_Validate_ok s : Upsert_Validate s = Ok tt -> upsert_ok s.
Proof.
  unfold Upsert_Validate. intros H.
  destruct (Nat.ltb_spec 0 (length (i_returning (up_insert s)))) as [|Hr]; [done|].
  assert (i_returning (up_insert s) = []) as Hr' by (apply length_zero; lia). inv_ok.
  destruct (_ && _) eqn:Hwork; [done|].
  destruct (negb (is_nil (conflictWhere s)) && _) eqn:Hc; [done|].
  destruct (negb (is_nil (updateWhere s)) && _) eqn:Hu; [done|]. inv_ok.
  apply at_path_ok, Insert_Validate_ok in E.
  match goal with K : validateWriteTarget _ _ = _ |- _ => apply write_target_ok in K as (_ & _ & Hs) end.
  match goal with K : validate_sets _ _ _ = _ |- _ => apply validate_sets_ok in K as [Hn Hf] end.
  split; [done| |by eapply validate_columns_ok| | | |by eapply validateProjections_ok].
  - destruct (up_conflict s), (up_assignments s); try done; [by right|by left|by left].
  - split; [done|]. eapply Forall_impl; [exact Hf|]. intros x [Ht [p Hv]].
    by apply (upsert_value_ok _ _ _ _ Hs) in Hv.
  - split; [|by apply needs_list]. eapply optional_plain; [| |eassumption]; done.
  - split; [|by apply needs_list]. eapply optional_plain; [| |eassumption]; done.
Qed.

(** ** Claims *)

(** Well-formed inserts: an accepted INSERT writes an unaliased described
    table, names distinct existing columns, has exactly one value per column in
    every row, reads no column and calls no aggregate in a row value, and has
    exactly one of default values, rows, or a source query with one result per
    column; an accepted upsert moreover has distinct existing conflict columns,
    assigns distinct existing columns with plain expressions over the target
    (never DEFAULT), and carries a predicate only beside the clause it
    qualifies. *)
Lemma Insert_Upsert_validated :
  (forall s, Insert_Validate s = Ok tt -> insert_ok s) /\
  (forall s, Upsert_Validate s = Ok tt -> upsert_ok s).
Proof. split; [exact Insert_Validate_ok|exact Upsert_Validate_ok]. Qed.

Definition write_table : TableRef :=
  TableRefFrom (table_of "" "users" "" 0 [column_of "id" None false; column_of "name" None false]).
Definition write_column (n : string) : ColumnRef := MkColumnRef (RelTable write_table) n.
Definition write_insert : Insert :=
  MkInsert write_table [write_column "id"; write_column "name"]
    [operands [OpPlain (any_int 1); OpPlain (any_int 2)]; operands [OpPlain (any_int 3); OpPlain (any_int 4)]]
    false None [].
Definition write_upsert : Upsert :=
  MkUpsert write_insert [write_column "id"]
    [Set_ (write_column "name") (OpPlain (any_int 5))] [] ENil
    (Equal (OpRef (RelTable write_table) "name") (OpPlain (any_int 6))).

Lemma Insert_Upsert_validated_witness : insert_ok write_insert /\ upsert_ok write_upsert.
Proof.
  split; [apply (proj1 Insert_Upsert_validated)|apply (proj2 Insert_Upsert_validated)];
    vm_compute; reflexivity.
Defined.

(** Well-formed updates and deletes: an accepted UPDATE or DELETE writes
    an unaliased described table; its predicate and RETURNING read existing
    columns of that table only and call no aggregate; the UPDATE assigns at
    least one column, each an existing column of the target and none twice;
    and neither combines AllowAll with a predicate. *)
Lemma Update_Delete_validated :
  (forall s, Update_Validate s = Ok tt -> update_ok s) /\
  (forall s, Delete_Validate s = Ok tt -> delete_ok s).
Proof. split; [exact Update_Validate_ok|exact Delete_Validate_ok]. Qed.

Definition write_update : Update :=
  MkUpdate write_table [Set_ (write_column "name") (OpPlain (any_int 1)); SetDefault (write_column "id")]
    (Equal (OpRef (RelTable write_table) "id") (OpPlain (any_int 2))) [PColumn (RelTable write_table) "id"] false.
Definition write_delete : Delete := MkDelete write_table ENil [] true.

Lemma Update_Delete_validated_witness : update_ok write_update /\ delete_ok write_delete.
Proof.
  split; [apply (proj1 Update_Delete_validated)|apply (proj2 Update_Delete_validated)];
    vm_compute; reflexivity.
Defined.
