(* ===== verification/Render.v ===== *)
(** * Render: [render/select.go]

    Rendering SELECT statements and result queries.  The renderer's builder
    and argument list are the threaded state [rstate]; the fields the source
    sets for the duration of a call and restores ([cteScope], [inExcluded],
    [excludedStyle]) are the environment [renv].  A writer [wr] is a function
    of the state, so that [writeExpression] and its companions read like the
    source's sequences of [WriteString] calls and early returns.

    The dialects of this development provide no [dialect.Compiler], so
    [r.compiler()] is nil and the extension hook does nothing; it is not
    modelled. *)

From S2P Require Import Prelude GoText SqlScan Schema Dialect Query QueryValidate QuerySelect.
Open Scope string_scope.
Open Scope list_scope.
Open Scope nat_scope.

(** ** State, environment and writers *)
Record rstate := MkState { builder : string; args : list any }.
Definition wr : Type := rstate -> result rstate.

Record renv := MkEnv {
  dialect : Dialect; excludedStyle : UpsertStyle; inExcluded : bool; cteScope : list CTE }.

Definition skip : wr := fun st => Ok st.
Definition errw (e : error) : wr := fun _ => Err e.
Definition out (s : string) : wr := fun st => Ok (MkState (builder st +:+ s) (args st)).
Definition seqw (a b : wr) : wr := fun st => do st' <- a st; b st'.
Declare Scope wr_scope.
Delimit Scope wr_scope with wr.
Bind Scope wr_scope with wr.
Notation "a ;; b" := (seqw a b) (at level 100, b at level 200, right associativity) : wr_scope.
Open Scope wr_scope.
Definition outr (r : result string) : wr := fun st => do s <- r; out s st.
Definition guard (r : result unit) : wr := fun st => check r; Ok st.
Definition unless (b : bool) (e : error) : wr := if b then skip else errw e.

(** [for i, x := range l { if i > 0 { WriteString(sep) }; f(x) }]. *)
Section Sep.
Context {A : Type} (sep : string) (f : A -> wr).
Fixpoint each_with (first : bool) (l : list A) : wr :=
  match l with
  | [] => skip
  | x :: l' => (if first then skip else out sep) ;; f x ;; each_with false l'
  end.
Definition sep_by (l : list A) : wr := each_with true l.
Fixpoint each (l : list A) : wr :=
  match l with [] => skip | x :: l' => f x ;; each l' end.
End Sep.

(** ** Leaves *)
Definition Error_ (d : Dialect) (e : error) : error :=
  MkError (KTyped "render.Error") "render %s: %s" [AStr (d_Name d); AErr e].

Definition writeArgument (env : renv) (value : any) : wr := fun st =>
  match d_Placeholder (dialect env) (Z.of_nat (length (args st)) + 1) with
  | Err e => Err (Errorf "placeholder: %w" [AErr e])
  | Ok placeholder => Ok (MkState (builder st +:+ placeholder) (args st ++ [value]))
  end.

Definition quoteIdentifier (d : Dialect) (n : string) : result string :=
  wrap_err (fun e => Errorf "identifier %q: %w" [AStr n; AErr e]) (d_QuoteIdentifier d n).

Definition quoteQualified (d : Dialect) (schemaName n : string) : result string :=
  do quotedName <- quoteIdentifier d n;
  if String.eqb schemaName "" then Ok quotedName
  else do quotedSchema <- quoteIdentifier d schemaName; Ok (quotedSchema +:+ "." +:+ quotedName).

Definition writeColumn (env : renv) (source : relation) (cname : string) : wr :=
  outr (do q <- quoteQualified (dialect env) (QualifierSchema source) (Qualifier source);
        do n <- quoteIdentifier (dialect env) cname;
        Ok (q +:+ "." +:+ n)).

Definition writeExcludedColumn (env : renv) (cname : string) : wr :=
  if negb (inExcluded env)
  then errw (Errorf "references the excluded column %q outside an upsert conflict-update assignment" [AStr cname])
  else outr (do n <- quoteIdentifier (dialect env) cname;
             match excludedStyle env with
             | UpsertOnConflict => Ok ("EXCLUDED." +:+ n)
             | UpsertDuplicateKey => Ok ("VALUES(" +:+ n +:+ ")")
             | UpsertUnsupported => Err (errors_New "excluded columns are not supported")
             end).

Definition unsupported_lock (d : Dialect) (c : string) : error :=
  MkError (KTyped "render.UnsupportedSelectLockError") "the %s dialect cannot express SELECT %s"
    [AStr (d_Name d); AStr c].
Definition supports (env : renv) (c : N) : bool := d_Supports (dialect env) c.

(** The capability and the clause of a lock strength, or the refusal. *)
Definition lock_clause (d : Dialect) (s : N) : result (N * string) :=
  let postgres := String.eqb (d_Name d) "postgresql" in
  if (s =? LockNoKeyUpdate)%N then
    if negb postgres then Err (unsupported_lock d "FOR NO KEY UPDATE")
    else Ok (CapabilitySelectForUpdate, "FOR NO KEY UPDATE")
  else if (s =? LockShare)%N then Ok (CapabilitySelectForShare, "FOR SHARE")
  else if (s =? LockKeyShare)%N then
    if negb postgres then Err (unsupported_lock d "FOR KEY SHARE")
    else Ok (CapabilitySelectForShare, "FOR KEY SHARE")
  else Ok (CapabilitySelectForUpdate, "FOR UPDATE").

Definition writeLock (env : renv) (l : Lock) : wr :=
  let d := dialect env in
  match lock_clause d (strength l) with
  | Err e => errw e
  | Ok (baseCapability, c) =>
      let nowait := (wait l =? LockWaitNoWait)%N in
      let skipLocked := (wait l =? LockWaitSkipLocked)%N in
      unless (supports env baseCapability) (unsupported_lock d c) ;;
      unless (negb (0 <? length (lock_of l)) || supports env CapabilitySelectLockOf)
        (unsupported_lock d "FOR ... OF") ;;
      unless (negb nowait || supports env CapabilitySelectLockNoWait)
        (unsupported_lock d "FOR ... NOWAIT") ;;
      unless (negb skipLocked || supports env CapabilitySelectLockSkipLocked)
        (unsupported_lock d "FOR ... SKIP LOCKED") ;;
      out " " ;; out c ;;
      (if 0 <? length (lock_of l)
       then out " OF " ;; sep_by ", " (fun t => outr (quoteIdentifier d (table_Qualifier t))) (lock_of l)
       else skip) ;;
      (if nowait then out " NOWAIT" else if skipLocked then out " SKIP LOCKED" else skip)
  end.

(** *** Native results *)
Definition invalid_placeholder (msg : string) (l : list err_arg) : error :=
  Errorf ("%w: " +:+ msg) (AErr ErrInvalidPlaceholder :: l).

Record native_state := MkNativeState { ns_last : nat; ns_next : nat; ns_used : list bool }.

Definition substring (s : string) (lo hi : nat) : string := stake (hi - lo) (sdrop lo s).

(** One placeholder of the loop of [writeNativeResult]: the argument it
    takes, and the loop state after it. *)
Definition native_argument (n : NativeResult) (ns : native_state) (p : SqlScan.Placeholder)
  : result (any * native_state) :=
  let postgres := String.eqb (engine n) "postgresql" in
  let wantKind := if postgres then Dollar else Question in
  if negb (bool_decide (Ph_Kind p = wantKind)) || Ph_Invalid p
  then Err (invalid_placeholder "native placeholder syntax does not match %s" [AStr (engine n)])
  else if Ph_Start p <? ns_last ns
  then Err (invalid_placeholder "native placeholder scan is out of order" [])
  else if postgres then
    if (Ph_Number p <=? 0)%Z || (Z.of_nat (length (nat_args n)) <? Ph_Number p)%Z
    then Err (invalid_placeholder "native PostgreSQL placeholder $%d is out of range" [AInt (Ph_Number p)])
    else
      let i := Z.to_nat (Ph_Number p - 1) in
      match nat_args n !! i with
      | Some a => Ok (a, MkNativeState (Ph_End p) (ns_next ns) (<[i := true]> (ns_used ns)))
      | None => Err nil_dereference
      end
  else
    match nat_args n !! ns_next ns with
    | None => Err (invalid_placeholder "native placeholder count exceeds argument count" [])
    | Some a => Ok (a, MkNativeState (Ph_End p) (S (ns_next ns)) (ns_used ns))
    end.

Fixpoint native_loop (env : renv) (n : NativeResult) (l : list SqlScan.Placeholder) (ns : native_state)
  (st : rstate) : result (native_state * rstate) :=
  match l with
  | [] => Ok (ns, st)
  | p :: l' =>
      do (a, ns') <- native_argument n ns p;
      do st <- out (substring (nat_sql n) (ns_last ns) (Ph_Start p)) st;
      do st <- writeArgument env a st;
      native_loop env n l' ns' st
  end.

Definition native_finish (n : NativeResult) (ns : native_state) : result unit :=
  if String.eqb (engine n) "postgresql" then
    checki (fun i (referenced : bool) =>
      if referenced then Ok tt
      else Err (invalid_placeholder "native PostgreSQL argument %d is not referenced" [ANat (S i)]))
      0 (ns_used ns)
  else if negb (ns_next ns =? length (nat_args n))
  then Err (invalid_placeholder "native placeholder count %d does not match argument count %d"
              [ANat (ns_next ns); ANat (length (nat_args n))])
  else Ok tt.

Definition writeNativeResult (env : renv) (n : NativeResult) : wr := fun st =>
  if negb (String.eqb (engine n) (d_Name (dialect env)))
  then Err (MkError (KTyped "render.NativeEngineMismatchError") "native SQL uses %s but renderer uses %s"
              [AStr (engine n); AStr (d_Name (dialect env))])
  else
    do scan <- Scan (nat_sql n) (Some (engine n));
    if 0 <? length (Semicolons scan)
    then Err (errors_New "embedded SQL must not contain an executable semicolon")
    else
      do (ns, st) <- native_loop env n (Placeholders scan)
                       (MkNativeState 0 0 (map (fun _ => false) (nat_args n))) st;
      do st <- out (sdrop (ns_last ns) (nat_sql n)) st;
      check native_finish n ns;
      Ok st.

(** *** Sources *)
Record visibleSource := MkVisible { vs_qualifier : string; vs_schema : string; vs_descriptor : string }.
Definition visibleSourceFromTable (r : relation) : visibleSource :=
  MkVisible (Qualifier r) (QualifierSchema r) (QualifiedName (rel_Definition r)).

Definition sourceIdentifiersConflict (d : Dialect) (a b : visibleSource) : bool :=
  if negb (IdentifiersEqual d (vs_qualifier a) (vs_qualifier b)) then false
  else if negb (String.eqb (vs_schema a) "") && negb (String.eqb (vs_schema b) "")
  then IdentifiersEqual d (vs_schema a) (vs_schema b)
  else true.

(** The local CTE names, each compared with the ones before it. *)
Fixpoint cte_names_distinct (d : Dialect) (before l : list CTE) : result unit :=
  match l with
  | [] => Ok tt
  | c :: l' =>
      match List.find (fun b => IdentifiersEqual d (cte_name b) (cte_name c)) before with
      | Some b => Err (Errorf "CTE names %q and %q collide in the %s dialect"
                         [AStr (cte_name b); AStr (cte_name c); AStr (d_Name d)])
      | None => cte_names_distinct d (before ++ [c]) l'
      end
  end.

Definition cte_visible (scope : list CTE) (r : relation) : bool :=
  String.eqb (CTEName r) ""
  || existsb (fun c => String.eqb (cte_name c) (CTEName r) && (cte_id c =? cteID r)%N) scope.

Definition add_source (env : renv) (seen : list visibleSource) (r : relation) : result (list visibleSource) :=
  if negb (cte_visible (cteScope env) r)
  then Err (Errorf "CTE %q is not defined by this SELECT" [AStr (CTEName r)])
  else
    let candidate := visibleSourceFromTable r in
    match List.find (fun existing => sourceIdentifiersConflict (dialect env) existing candidate) seen with
    | Some existing =>
        Err (Errorf "sources %q and %q share the rendered qualifier %q in the %s dialect; use a distinct alias"
               [AStr (vs_descriptor existing); AStr (vs_descriptor candidate);
                AStr (vs_qualifier candidate); AStr (d_Name (dialect env))])
    | None => Ok (seen ++ [candidate])
    end.

(** [env] already holds the statement's own CTEs, as [writeSelect] sets it;
    the source appends them a second time, which changes no membership. *)
Definition validateSelectSources (env : renv) (s : Select) : result unit :=
  check cte_names_distinct (dialect env) [] (ctes s);
  do _ <- foldi (fun _ r seen => add_source env seen r) 0
            (correlations s ++ from s :: map join_source (joins s)) [];
  Ok tt.

Definition writePhysicalTable (env : renv) (t : TableRef) : wr :=
  outr (quoteQualified (dialect env) (table_Schema t) (table_Name t)) ;;
  if String.eqb (table_alias t) "" then skip
  else outr (do a <- quoteIdentifier (dialect env) (table_alias t); Ok (" AS " +:+ a)).

Definition writeAlias (env : renv) (alias : string) : wr :=
  if String.eqb alias "" then skip
  else outr (do a <- quoteIdentifier (dialect env) alias; Ok (" AS " +:+ a)).

Definition unsupported_body : error := Errorf "unsupported query body %T" [].
Definition unsupported_expression : error := Errorf "unsupported expression %T" [].

Definition compound_operator (op : N) : result string :=
  if (op =? Union)%N then Ok "UNION"
  else if (op =? UnionAll)%N then Ok "UNION ALL"
  else if (op =? Intersect)%N then Ok "INTERSECT"
  else if (op =? Except)%N then Ok "EXCEPT"
  else Err (Errorf "unsupported compound operator %d" [AInt (Z.of_N op)]).

Definition null_placement (n : N) : wr :=
  if (n =? NullsFirst)%N then out " NULLS FIRST"
  else if (n =? NullsLast)%N then out " NULLS LAST" else skip.

(** ** The recursive writers, open in their recursive calls *)
Section Writers.
Variable writeExpression : renv -> expression -> wr.
Variable writeTable : renv -> relation -> wr.
Variable writeQueryBody : renv -> body -> wr.

Definition writeProjected (env : renv) (p : Projection) : wr :=
  match p with
  | PNil => errw nil_dereference
  | PColumn source cname => writeColumn env source cname
  | PExpr e _ => writeExpression env e
  end.
Definition writeProjection (env : renv) (p : Projection) : wr :=
  writeProjected env p ;; writeAlias env (ResultAlias p).

Definition writeOrder (env : renv) (o : Order) : wr :=
  (if order_is_result o
   then outr (quoteIdentifier (dialect env)
                (match ResultName (o_resultProjection o) with Some n => n | None => "" end))
   else writeExpression env (o_expression o)) ;;
  (if descending o then out " DESC" else skip) ;;
  null_placement (nullPlacement o).

Definition writeCTE (env : renv) (c : CTE) : wr :=
  outr (quoteIdentifier (dialect env) (cte_name c)) ;; out " AS (" ;;
  writeQueryBody env (rq_body (cte_query c)) ;; out ")".

Definition writeJoin (env : renv) (j : JoinClause) : wr :=
  out " " ;; out (join_kind j) ;; out " JOIN " ;; writeTable env (join_source j) ;;
  out " ON " ;; writeExpression env (join_on j).

Definition writeSelect (env : renv) (s : Select) : wr :=
  let env := MkEnv (dialect env) (excludedStyle env) (inExcluded env) (cteScope env ++ ctes s) in
  guard (validateSelectSources env s) ;;
  (if 0 <? length (ctes s) then out "WITH " ;; sep_by ", " (writeCTE env) (ctes s) ;; out " " else skip) ;;
  out "SELECT " ;;
  (if distinct s then out "DISTINCT " else skip) ;;
  sep_by ", " (writeProjection env) (projections s) ;;
  out " FROM " ;; writeTable env (from s) ;;
  each (writeJoin env) (joins s) ;;
  (if is_nil (where_ s) then skip else out " WHERE " ;; writeExpression env (where_ s)) ;;
  (if 0 <? length (groupBy s)
   then out " GROUP BY " ;; sep_by ", " (writeExpression env) (groupBy s) else skip) ;;
  (if is_nil (having s) then skip else out " HAVING " ;; writeExpression env (having s)) ;;
  (if 0 <? length (orderBy s)
   then out " ORDER BY " ;; sep_by ", " (writeOrder env) (orderBy s) else skip) ;;
  (if hasLimit s then out " LIMIT " ;; writeArgument env (any_int (limit s)) else skip) ;;
  (if hasOffset s then out " OFFSET " ;; writeArgument env (any_int (offset s)) else skip) ;;
  (if hasLock s then writeLock env (lock s) else skip).

Definition writeSubquery (env : renv) (s : Select) : wr := out "(" ;; writeSelect env s ;; out ")".

(** The window's ORDER BY: the renderer writes the direction and nothing
    else of a term. *)
Definition writeWindowOrder (env : renv) (o : Order) : wr :=
  writeExpression env (o_expression o) ;; (if descending o then out " DESC" else skip).

Definition writeWindow (env : renv) (partition : list expression) (order : list Order) : wr :=
  (if 0 <? length partition
   then out "PARTITION BY " ;; sep_by ", " (writeExpression env) partition else skip) ;;
  (if 0 <? length order
   then (if 0 <? length partition then out " " else skip) ;;
        out "ORDER BY " ;; sep_by ", " (writeWindowOrder env) order
   else skip).

Definition writePart (env : renv) (p : FragmentPart) : wr :=
  match p with
  | fragmentHole e => writeExpression env e
  | identifierHole n => outr (quoteIdentifier (dialect env) n)
  | OtherPart t => errw (Errorf "unsupported fragment part %T" [AStr t])
  end.
(** The pieces of the fragment's text, with a part after each while parts
    remain. *)
Fixpoint writeFragments (env : renv) (parts : list FragmentPart) (fragments : list string) : wr :=
  match parts with
  | [] => each out fragments
  | p :: parts' =>
      match fragments with
      | [] => skip
      | f :: fragments' => out f ;; writePart env p ;; writeFragments env parts' fragments'
      end
  end.

Definition writeBranch (env : renv) (b : expression * expression) : wr :=
  out " WHEN " ;; writeExpression env (fst b) ;; out " THEN " ;; writeExpression env (snd b).
End Writers.

Definition sub_limit_refused (env : renv) (s : Select) : bool :=
  (hasLimit s || hasOffset s) && negb (supports env CapabilitySubqueryLimit).

Fixpoint writeExpression (env : renv) (e : expression) {struct e} : wr :=
  match e with
  | EColumn source cname => writeColumn env source cname
  | ETableIdentifier t =>
      outr (quoteIdentifier (dialect env) (match Table t with Some t => table_Qualifier t | None => "" end))
  | EValue v => writeArgument env v
  | EFunction fname arguments star dist _ =>
      out fname ;; out "(" ;;
      (if star then out "*"
       else (if dist then out "DISTINCT " else skip) ;; sep_by ", " (writeExpression env) arguments) ;;
      out ")"
  | EBinary l operator r =>
      unless (negb (String.eqb operator OperatorMatch) || supports env CapabilityMatchOperator)
        (MkError (KTyped "render.UnsupportedMatchOperatorError")
           "the %s dialect cannot express MATCH: it has no full-text search operator"
           [AStr (d_Name (dialect env))]) ;;
      out "(" ;; writeExpression env l ;; out " " ;; out operator ;; out " " ;; writeExpression env r ;; out ")"
  | ECase op branches fallback hasFallback =>
      out "(CASE" ;;
      (if is_nil op then skip else out " " ;; writeExpression env op) ;;
      each (writeBranch writeExpression env) branches ;;
      (if hasFallback then out " ELSE " ;; writeExpression env fallback else skip) ;;
      out " END)"
  | ECast expr target =>
      out "CAST(" ;; writeExpression env expr ;; out " AS " ;;
      outr (d_TypeName (dialect env) (column_of "" target false)) ;; out ")"
  | EFilter agg predicate =>
      unless (supports env CapabilityAggregateFilter)
        (MkError (KTyped "render.UnsupportedAggregateFilterError")
           "the %s dialect cannot express aggregate FILTER" [AStr (d_Name (dialect env))]) ;;
      writeExpression env agg ;; out " FILTER (WHERE " ;; writeExpression env predicate ;; out ")"
  | EOver expr partition order =>
      writeExpression env expr ;; out " OVER (" ;;
      writeWindow writeExpression env partition order ;; out ")"
  | EFragment sql parts => writeFragments writeExpression env parts (Split sql "{}")
  | ELogical operator expressions =>
      out "(" ;; sep_by (" " +:+ operator +:+ " ") (writeExpression env) expressions ;; out ")"
  | ENot expr => out "(NOT " ;; writeExpression env expr ;; out ")"
  | ENullTest expr not =>
      out "(" ;; writeExpression env expr ;; out " IS " ;; (if not then out "NOT " else skip) ;; out "NULL)"
  | EMembership expr values not subquery =>
      match subquery with
      | Some s =>
          unless (negb (sub_limit_refused env s))
            (errors_New "a subquery used with IN must not set LIMIT or OFFSET") ;;
          out "(" ;; writeExpression env expr ;; out (if not then " NOT IN " else " IN ") ;;
          writeSubquery writeExpression writeTable writeQueryBody env s ;; out ")"
      | None =>
          unless (0 <? length values) (errors_New "IN requires at least one value") ;;
          out "(" ;; writeExpression env expr ;; out (if not then " NOT IN (" else " IN (") ;;
          sep_by ", " (writeExpression env) values ;; out "))"
      end
  | ESubquery s => writeSubquery writeExpression writeTable writeQueryBody env s
  | EExistence s not =>
      out (if not then "(NOT EXISTS " else "(EXISTS ") ;;
      writeSubquery writeExpression writeTable writeQueryBody env s ;; out ")"
  | EExcluded _ cname => writeExcludedColumn env cname
  | ENil | EDefault | EOther _ => errw unsupported_expression
  end
with writeTable (env : renv) (r : relation) {struct r} : wr :=
  match r with
  | RelZero => errw (Errorf "relation %q must have an alias" [AStr ""])
  | RelTable t => writePhysicalTable env t
  | RelResult _ q alias =>
      if String.eqb alias "" then errw (Errorf "relation %q must have an alias" [AStr ""])
      else if body_is_nil (rq_body q) then errw (Errorf "unsupported relation %q" [AStr alias])
      else out "(" ;; writeQueryBody env (rq_body q) ;; out ") AS " ;;
           outr (quoteIdentifier (dialect env) alias)
  | RelCTE _ c q alias =>
      if negb (String.eqb (cte_name c) "") then
        outr (quoteIdentifier (dialect env) (cte_name c)) ;;
        (if String.eqb alias (cte_name c) then skip
         else out " AS " ;; outr (quoteIdentifier (dialect env) alias))
      else if String.eqb alias "" then errw (Errorf "relation %q must have an alias" [AStr ""])
      else if body_is_nil (rq_body q) then errw (Errorf "unsupported relation %q" [AStr alias])
      else out "(" ;; writeQueryBody env (rq_body q) ;; out ") AS " ;;
           outr (quoteIdentifier (dialect env) alias)
  end
with writeQueryBody (env : renv) (b : body) {struct b} : wr :=
  match b with
  | BNil => errw unsupported_body
  | BNative n => writeNativeResult env n
  | BSelect s => writeSelect writeExpression writeTable writeQueryBody env s
  | BCompound lhs rhs operator =>
      let parenthesizeOperands := negb (String.eqb (d_Name (dialect env)) "sqlite") in
      (if parenthesizeOperands then out "(" else skip) ;;
      writeQueryBody env (rq_body lhs) ;;
      (if parenthesizeOperands then out ")" else skip) ;;
      out " " ;; outr (compound_operator operator) ;;
      out (if parenthesizeOperands then " (" else " ") ;;
      writeQueryBody env (rq_body rhs) ;;
      (if parenthesizeOperands then out ")" else skip)
  end.

Definition writeStatement (env : renv) (s : Select) : wr :=
  writeSelect writeExpression writeTable writeQueryBody env s.

(** ** Statements *)
Record Statement := MkStatement { sql_text : string; stmt_args : list any }.

Definition initial_env (d : Dialect) : renv := MkEnv d UpsertUnsupported false [].
Definition initial_state : rstate := MkState "" [].

Definition renderStatement (d : Dialect) (operation : string) (validate : result unit)
  (write : renv -> wr) : result Statement :=
  match validate with
  | Err e => Err (Error_ d (Errorf "invalid %s statement: %w" [AStr operation; AErr e]))
  | Ok _ =>
      match write (initial_env d) initial_state with
      | Err e => Err (Error_ d e)
      | Ok st => Ok (MkStatement (builder st) (args st))
      end
  end.

Definition correlated_alone (c : relation) : error :=
  Errorf "the statement declares a correlation with table %q and is rendered on its own; a correlated SELECT is only valid inside the statement it correlates with, as the statement given to query.Exists, query.NotExists, query.Scalar, query.InSelect or query.NotInSelect" [AStr (rel_QualifiedName c)].

Definition Select_ (d : Dialect) (s : Select) : result Statement :=
  renderStatement d "SELECT" (Validate s) (fun env =>
    match correlations s with
    | c :: _ => errw (correlated_alone c)
    | [] => writeStatement env s
    end).

Fixpoint bodyCorrelations (b : body) : list relation :=
  match b with
  | BSelect s => correlations s
  | BCompound l r _ => bodyCorrelations (rq_body l) ++ bodyCorrelations (rq_body r)
  | _ => []
  end.

Definition count_mismatch (what : string) (want got : nat) : error :=
  Errorf what [ANat want; ANat got].

Fixpoint validateResultMetadataBody (b : body) (want : nat) {struct b} : result unit :=
  match b with
  | BNil => Ok tt
  | BNative n => NativeResult_Validate n
  | BSelect s =>
      let source r :=
        match r with
        | RelResult _ q _ | RelCTE _ _ q _ =>
            if body_is_nil (rq_body q) then Ok tt
            else validateResultMetadataBody (rq_body q) (length (rq_columns q))
        | _ => Ok tt
        end in
      check source (from s);
      check checki (fun _ j => source (join_source j)) 0 (joins s);
      check checki (fun _ c => validateResultMetadataBody (rq_body (cte_query c))
                                 (length (rq_columns (cte_query c)))) 0 (ctes s);
      if negb (length (projections s) =? want)
      then Err (count_mismatch "result columns count %d does not match SELECT projection count %d" want (length (projections s)))
      else Ok tt
  | BCompound l r _ =>
      check validateResultMetadataBody (rq_body l) (length (rq_columns l));
      check validateResultMetadataBody (rq_body r) (length (rq_columns r));
      if negb (length (rq_columns l) =? want)
      then Err (count_mismatch "result columns count %d does not match compound output count %d" want (length (rq_columns l)))
      else Ok tt
  end.
Definition validateResultMetadata (q : ResultQuery) : result unit :=
  validateResultMetadataBody (rq_body q) (length (rq_columns q)).

Definition empty_body : error := errors_New "result query body must not be empty".
Definition Result_ (d : Dialect) (q : ResultQuery) : result Statement :=
  renderStatement d "SELECT"
    (if body_is_nil (rq_body q) then Err empty_body
     else check body_Validate (rq_body q); validateResultMetadata q)
    (fun env =>
       match bodyCorrelations (rq_body q) with
       | c :: _ => errw (Errorf "the statement declares a correlation with table %q and is rendered on its own" [AStr (rel_QualifiedName c)])
       | [] => writeQueryBody env (rq_body q)
       end).
