(* ===== verification/RenderWrite.v ===== *)
(** * RenderWrite: [render/write.go]

    Rendering INSERT, UPDATE, DELETE and upsert, and the walk that refuses a
    write whose subquery reads its own target on a dialect that cannot run
    it. *)

From S2P Require Import Prelude GoText SqlScan Schema Dialect Query QueryValidate QueryScope QuerySelect QueryWrite Render.
Open Scope string_scope.
Open Scope list_scope.
Open Scope nat_scope.
Open Scope wr_scope.

(** ** RETURNING *)
Definition writeReturningProjection (env : renv) (p : Projection) : wr :=
  match ProjectedExpression p with
  | EColumn _ cname => outr (quoteIdentifier (dialect env) cname) ;; writeAlias env (ResultAlias p)
  | _ => writeProjection writeExpression env p
  end.

Definition writeReturning (env : renv) (l : list Projection) : wr :=
  match l with
  | [] => skip
  | _ => unless (supports env CapabilityReturning) (errors_New "RETURNING is not supported") ;;
         out " RETURNING " ;; sep_by ", " (writeReturningProjection env) l
  end.

(** ** INSERT *)
Definition writeRow (env : renv) (row : list expression) : wr :=
  out "(" ;; sep_by ", " (writeExpression env) row ;; out ")".

Definition writeColumnNames (env : renv) (l : list ColumnRef) : wr :=
  sep_by ", " (fun c => outr (quoteIdentifier (dialect env) (cr_name c))) l.

Definition writeInsertBase (env : renv) (s : Insert) : wr := fun st =>
  match quoteQualified (dialect env) (table_Schema (into s)) (table_Name (into s)) with
  | Err e => Err e
  | Ok table =>
      (out "INSERT INTO " ;; out table ;;
       if defaultValues s then
         if supports env CapabilityDefaultValues then out " DEFAULT VALUES"
         else if supports env CapabilityEmptyInsert then out " () VALUES ()"
         else errw (errors_New "default-values INSERT is not supported")
       else
         out " (" ;; writeColumnNames env (i_columns s) ;; out ")" ;;
         match selectSource s with
         | Some source => out " " ;; writeQueryBody env (rq_body source)
         | None => out " VALUES " ;; sep_by ", " (writeRow env) (rows s)
         end) st
  end.

Definition writeInsert (env : renv) (s : Insert) : wr :=
  writeInsertBase env s ;; writeReturning env (i_returning s).

(** ** Upsert *)
Definition upsertConflictTargetMessage := "explicit conflict target is not supported: this dialect lacks dialect.CapabilityConflictTarget".
Definition upsertDefaultValuesMessage := "default-values upsert is not supported".
Definition upsertNoAssignmentsMessage := "upsert without assignments is not supported".

Definition unsupported_predicate (d : Dialect) (predicate : string) : error :=
  MkError (KTyped "render.UnsupportedUpsertPredicateError")
    "the %s dialect cannot express an upsert %s predicate" [AStr (d_Name d); AStr predicate].

(** [r.inExcluded = true; r.excludedStyle = style], for the writer under it. *)
Definition excluding (style : UpsertStyle) (env : renv) : renv :=
  MkEnv (dialect env) style true (cteScope env).

Definition writeAssignment (env : renv) (a : Assignment) : wr :=
  outr (quoteIdentifier (dialect env) (cr_name (a_column a))) ;; out " = " ;;
  (if defaultValue a then out "DEFAULT" else writeExpression env (a_value a)).

Definition writeUpsertAssignments (env : renv) (l : list Assignment) (style : UpsertStyle) : wr :=
  sep_by ", " (writeAssignment (excluding style env)) l.

(** The problems that end [writeUpsert] before anything is written. *)
Definition upsert_problem (env : renv) (s : Upsert) : option error :=
  let style := d_UpsertStyle (dialect env) in
  let defaultValuesRejected :=
    defaultValues (up_insert s) && negb (supports env CapabilityDefaultValuesUpsert) in
  let no_assignments := length (up_assignments s) =? 0 in
  if negb (supports env CapabilityUpsert) || bool_decide (style = UpsertUnsupported)
  then Some (errors_New "upsert is not supported")
  else if negb (is_nil (conflictWhere s)) && negb (supports env CapabilityUpsertConflictWhere)
  then Some (unsupported_predicate (dialect env) "conflict-target")
  else if negb (is_nil (updateWhere s)) && negb (supports env CapabilityUpsertUpdateWhere)
  then Some (unsupported_predicate (dialect env) "update")
  else if (0 <? length (up_conflict s)) && negb (supports env CapabilityConflictTarget)
  then Some (errors_New (Join
         ([upsertConflictTargetMessage]
          ++ (if defaultValuesRejected then [upsertDefaultValuesMessage] else [])
          ++ (if bool_decide (style = UpsertDuplicateKey) && no_assignments
              then [upsertNoAssignmentsMessage] else [])) "; "))
  else if defaultValuesRejected then Some (errors_New upsertDefaultValuesMessage)
  else None.

Definition writeOnConflict (env : renv) (s : Upsert) (style : UpsertStyle) : wr :=
  unless (negb ((length (up_conflict s) =? 0) && (0 <? length (up_assignments s))))
    (errors_New "upsert update requires a conflict target") ;;
  out " ON CONFLICT" ;;
  (if 0 <? length (up_conflict s)
   then out " (" ;; writeColumnNames env (up_conflict s) ;; out ")" ;;
        (if is_nil (conflictWhere s) then skip
         else out " WHERE " ;; writeExpression env (conflictWhere s))
   else skip) ;;
  (if length (up_assignments s) =? 0 then out " DO NOTHING"
   else out " DO UPDATE SET " ;; writeUpsertAssignments env (up_assignments s) style ;;
        (if is_nil (updateWhere s) then skip
         else out " WHERE " ;; writeExpression (excluding style env) (updateWhere s))).

Definition writeOnDuplicateKey (env : renv) (s : Upsert) (style : UpsertStyle) : wr :=
  unless (negb (length (up_assignments s) =? 0)) (errors_New upsertNoAssignmentsMessage) ;;
  out " ON DUPLICATE KEY UPDATE " ;; writeUpsertAssignments env (up_assignments s) style.

Definition writeUpsert (env : renv) (s : Upsert) : wr :=
  match upsert_problem env s with
  | Some e => errw e
  | None =>
      let style := d_UpsertStyle (dialect env) in
      writeInsertBase env (up_insert s) ;;
      match style with
      | UpsertOnConflict => writeOnConflict env s style
      | UpsertDuplicateKey => writeOnDuplicateKey env s style
      | UpsertUnsupported => errw (Errorf "unsupported upsert style %d" [AInt 0])
      end ;;
      writeReturning env (up_returning s)
  end.

(** ** The write-target walk *)
Definition sameBaseTable (source target : TableRef) : bool :=
  if negb (String.eqb (table_Name source) (table_Name target)) then false
  else if negb (String.eqb (table_Schema source) "") && negb (String.eqb (table_Schema target) "")
  then String.eqb (table_Schema source) (table_Schema target)
  else true.

Definition source_is (r : relation) (target : TableRef) : bool :=
  match Table r with Some t => sameBaseTable t target | None => false end.

Section ReadsWriteTarget.
Variable expressionReadsWriteTarget : expression -> TableRef -> bool.
Definition projectedReads (p : Projection) (target : TableRef) : bool :=
  match p with PExpr e _ => expressionReadsWriteTarget e target | _ => false end.
Definition selectReadsWriteTarget (s : Select) (target : TableRef) : bool :=
  source_is (from s) target
  || existsb (fun j => source_is (join_source j) target
                       || expressionReadsWriteTarget (join_on j) target) (joins s)
  || existsb (fun p => projectedReads p target) (projections s)
  || (negb (is_nil (where_ s)) && expressionReadsWriteTarget (where_ s) target)
  || existsb (fun k => expressionReadsWriteTarget k target) (groupBy s)
  || (negb (is_nil (having s)) && expressionReadsWriteTarget (having s) target)
  || existsb (fun o => negb (is_nil (o_expression o))
                       && expressionReadsWriteTarget (o_expression o) target) (orderBy s).
End ReadsWriteTarget.

Fixpoint expressionReadsWriteTarget (e : expression) (target : TableRef) {struct e} : bool :=
  match e with
  | ESubquery s => selectReadsWriteTarget expressionReadsWriteTarget s target
  | EExistence s _ => selectReadsWriteTarget expressionReadsWriteTarget s target
  | EBinary l _ r => expressionReadsWriteTarget l target || expressionReadsWriteTarget r target
  | ELogical _ l => existsb (fun child => expressionReadsWriteTarget child target) l
  | ENot e => expressionReadsWriteTarget e target
  | ENullTest e _ => expressionReadsWriteTarget e target
  | EMembership e values _ subquery =>
      (match subquery with
       | Some s => selectReadsWriteTarget expressionReadsWriteTarget s target
       | None => false end)
      || expressionReadsWriteTarget e target
      || existsb (fun v => expressionReadsWriteTarget v target) values
  | EFunction _ arguments _ _ _ => existsb (fun a => expressionReadsWriteTarget a target) arguments
  | _ => false
  end.

Definition reads_target_error (d : Dialect) (operation : string) (t : TableRef) : error :=
  MkError (KTyped "render.SubqueryReadsWriteTargetError")
    "the %s dialect cannot run a %s whose subquery reads the target table %q"
    [AStr (d_Name d); AStr operation; AStr (table_QualifiedName t)].

(** ** UPDATE and DELETE *)
Definition update_reads_target (s : Update) : bool :=
  (negb (is_nil (u_where s)) && expressionReadsWriteTarget (u_where s) (u_table s))
  || existsb (fun a => expressionReadsWriteTarget (a_value a) (u_table s)) (u_sets s).

Definition writeUpdate (env : renv) (s : Update) : wr :=
  unless (negb (is_nil (u_where s) && negb (u_allowAll s)))
    (errors_New "UPDATE requires a WHERE predicate or an explicit AllowAll") ;;
  unless (supports env CapabilityWriteSubqueryTarget || negb (update_reads_target s))
    (reads_target_error (dialect env) "UPDATE" (u_table s)) ;;
  outr (do t <- quoteQualified (dialect env) (table_Schema (u_table s)) (table_Name (u_table s));
        Ok ("UPDATE " +:+ t)) ;;
  out " SET " ;; sep_by ", " (writeAssignment env) (u_sets s) ;;
  (if is_nil (u_where s) then skip else out " WHERE " ;; writeExpression env (u_where s)) ;;
  writeReturning env (u_returning s).

Definition delete_reads_target (s : Delete) : bool :=
  negb (is_nil (d_where s)) && expressionReadsWriteTarget (d_where s) (d_from s).

Definition writeDelete (env : renv) (s : Delete) : wr :=
  unless (negb (is_nil (d_where s) && negb (d_allowAll s)))
    (errors_New "DELETE requires a WHERE predicate or an explicit AllowAll") ;;
  unless (supports env CapabilityWriteSubqueryTarget || negb (delete_reads_target s))
    (reads_target_error (dialect env) "DELETE" (d_from s)) ;;
  outr (do t <- quoteQualified (dialect env) (table_Schema (d_from s)) (table_Name (d_from s));
        Ok ("DELETE FROM " +:+ t)) ;;
  (if is_nil (d_where s) then skip else out " WHERE " ;; writeExpression env (d_where s)) ;;
  writeReturning env (d_returning s).

(** ** Entry points *)
Definition Insert_ (d : Dialect) (s : Insert) : result Statement :=
  renderStatement d "INSERT" (Insert_Validate s) (fun env => writeInsert env s).
Definition Update_ (d : Dialect) (s : Update) : result Statement :=
  renderStatement d "UPDATE" (Update_Validate s) (fun env => writeUpdate env s).
Definition Delete_ (d : Dialect) (s : Delete) : result Statement :=
  renderStatement d "DELETE" (Delete_Validate s) (fun env => writeDelete env s).
Definition Upsert_ (d : Dialect) (s : Upsert) : result Statement :=
  renderStatement d "UPSERT" (Upsert_Validate s) (fun env => writeUpsert env s).

(** [query.WriteStatement]: the four statement types, or nil. *)
Inductive WriteStatement :=
| WInsert (s : Insert) | WUpdate (s : Update) | WDelete (s : Delete) | WUpsert (s : Upsert) | WNil.

Definition Write (d : Dialect) (s : WriteStatement) : result Statement :=
  match s with
  | WInsert s => Insert_ d s
  | WUpdate s => Update_ d s
  | WDelete s => Delete_ d s
  | WUpsert s => Upsert_ d s
  | WNil => Err (MkError (KTyped "render.Error") "render: %s"
                   [AErr (errors_New "write statement must not be nil")])
  end.
