(* ===== verification/RenderLayout.v ===== *)
(** * RenderLayout: what the renderer writes, and which arguments it binds

    A rendered text is a sequence of segments: raw SQL, or the placeholder of
    a bound argument.  [lays w l] says that the writer [w], started in any
    state, writes one fixed sequence of segments after it (numbering
    placeholders from the arguments already bound) and that the arguments it
    binds are [l]; or that it fails whatever the state.  Every writer of the
    renderer is shown to lay out the arguments a reference function collects
    from the statement. *)

From S2P Require Import Prelude GoText SqlScan Schema Dialect Query QueryValidate QueryScope QuerySelect QueryWrite Render RenderWrite.
Open Scope string_scope.
Open Scope list_scope.
Open Scope nat_scope.
Open Scope wr_scope.

(** ** Segments *)
Inductive seg := Raw (s : string) | Arg (v : any).

Fixpoint emit (d : Dialect) (l : list seg) (st : rstate) : result rstate :=
  match l with
  | [] => Ok st
  | Raw s :: l' => emit d l' (MkState (builder st +:+ s) (args st))
  | Arg v :: l' =>
      match d_Placeholder d (Z.of_nat (length (args st)) + 1) with
      | Err e => Err (Errorf "placeholder: %w" [AErr e])
      | Ok p => emit d l' (MkState (builder st +:+ p) (args st ++ [v]))
      end
  end.

Definition args_of (l : list seg) : list any := omap (fun s => match s with Arg v => Some v | Raw _ => None end) l.

Definition fin (o : option error) (st : rstate) : result rstate :=
  match o with None => Ok st | Some e => Err e end.

Definition lays (d : Dialect) (w : wr) (l : list any) : Prop :=
  exists segs o, (forall st, w st = (do st' <- emit d segs st; fin o st')) /\ (o = None -> args_of segs = l).

Lemma emit_app d l1 l2 st : emit d (l1 ++ l2) st = (do st' <- emit d l1 st; emit d l2 st').
Proof.
  revert st. induction l1 as [|[s|v] l1 IH]; intros st; simpl; [done|apply IH|].
  destruct (d_Placeholder d _); [apply IH|done].
Qed.

Lemma args_of_app l1 l2 : args_of (l1 ++ l2) = args_of l1 ++ args_of l2.
Proof. apply omap_app. Qed.

(** ** Closure of [lays] *)
Lemma lays_skip d : lays d skip [].
Proof. by exists [], None. Qed.

Lemma lays_err d e l : lays d (errw e) l.
Proof. by exists [], (Some e). Qed.

Lemma lays_out d s : lays d (out s) [].
Proof. by exists [Raw s], None. Qed.

Lemma lays_outr d r : lays d (outr r) [].
Proof. destruct r as [s|e]; [by exists [Raw s], None|by exists [], (Some e)]. Qed.

Lemma lays_guard d r : lays d (guard r) [].
Proof. destruct r as [[]|e]; [by exists [], None|by exists [], (Some e)]. Qed.

Lemma lays_unless d b e : lays d (unless b e) [].
Proof. destruct b; [apply lays_skip|apply lays_err]. Qed.

Lemma lays_argument env v : lays (dialect env) (writeArgument env v) [v].
Proof.
  exists [Arg v], None. split; [|done]. intros st. unfold writeArgument. simpl.
  by destruct (d_Placeholder (dialect env) _).
Qed.

Lemma lays_seq d w1 w2 l1 l2 : lays d w1 l1 -> lays d w2 l2 -> lays d (w1 ;; w2) (l1 ++ l2).
Proof.
  intros (s1 & o1 & H1 & A1) (s2 & o2 & H2 & A2). unfold seqw. destruct o1 as [e|].
  - exists s1, (Some e). split; [|done]. intros st. rewrite H1. by destruct (emit d s1 st).
  - exists (s1 ++ s2), o2. split.
    + intros st. rewrite H1, emit_app. destruct (emit d s1 st); [apply H2|done].
    + intros Ho. by rewrite args_of_app, A1, A2.
Qed.

Lemma lays_seq0 d w1 w2 l : lays d w1 [] -> lays d w2 l -> lays d (w1 ;; w2) l.
Proof. apply (lays_seq d w1 w2 [] l). Qed.

Lemma lays_seq_r d w1 w2 l : lays d w1 l -> lays d w2 [] -> lays d (w1 ;; w2) l.
Proof. intros H1 H2. rewrite <- (app_nil_r l). by apply lays_seq. Qed.

Lemma lays_if d (b : bool) w1 w2 l1 l2 :
  (b = true -> lays d w1 l1) -> (b = false -> lays d w2 l2) -> lays d (if b then w1 else w2) (if b then l1 else l2).
Proof. destruct b; auto. Qed.

Lemma lays_if0 d (b : bool) w1 w2 : lays d w1 [] -> lays d w2 [] -> lays d (if b then w1 else w2) [].
Proof. by destruct b. Qed.

Lemma lays_each d {A} (f : A -> wr) (g : A -> list any) l :
  Forall (fun x => lays d (f x) (g x)) l -> lays d (each f l) (flat_map g l).
Proof. induction 1; simpl; [apply lays_skip|by apply lays_seq]. Qed.

Lemma lays_sep_by d {A} sep (f : A -> wr) (g : A -> list any) l :
  Forall (fun x => lays d (f x) (g x)) l -> lays d (sep_by sep f l) (flat_map g l).
Proof.
  unfold sep_by. intros H. generalize true. induction H as [|x l Hx _ IH]; intros b; simpl; [apply lays_skip|].
  apply lays_seq0; [destruct b; [apply lays_skip|apply lays_out]|]. by apply lays_seq.
Qed.

(** Lists guarded by a length test. *)
Lemma lays_nonempty d {A} (l : list A) (w : wr) (g : A -> list any) :
  lays d w (flat_map g l) -> lays d (if 0 <? length l then w else skip) (flat_map g l).
Proof. destruct l; [intros; apply lays_skip|done]. Qed.

Lemma flat_map_nil {A} (l : list A) : flat_map (fun _ => @nil any) l = [].
Proof. by induction l. Qed.

(** Writers that bind nothing, one per element. *)
Lemma lays_sep_by0 d {A} sep (f : A -> wr) l : (forall x, lays d (f x) []) -> lays d (sep_by sep f l) [].
Proof.
  intros H. rewrite <- (flat_map_nil l). apply (lays_sep_by d sep f (fun _ => [])). by apply Forall_true.
Qed.

#[local] Opaque sep_by.
Create HintDb lays discriminated.
#[export] Hint Resolve lays_skip lays_err lays_out lays_outr lays_guard lays_unless lays_if0 lays_sep_by0 lays_seq0 : lays.

(** ** The reference collection of bound arguments *)
Definition native_order (n : NativeResult) : list any :=
  if String.eqb (engine n) "postgresql"
  then match Scan (nat_sql n) (Some (engine n)) with
       | Ok scan => omap (fun p => nat_args n !! Z.to_nat (Ph_Number p - 1)) (Placeholders scan)
       | Err _ => []
       end
  else nat_args n.

Section Args.
Variables (EA : expression -> list any) (RA : relation -> list any) (BA : body -> list any).
Definition proj_args (p : Projection) : list any := match p with PExpr e _ => EA e | _ => [] end.
Definition order_args (o : Order) : list any := if order_is_result o then [] else EA (o_expression o).
Definition part_args (p : FragmentPart) : list any := match p with fragmentHole e => EA e | _ => [] end.
Definition select_args (s : Select) : list any :=
  flat_map (fun c => BA (rq_body (cte_query c))) (ctes s)
  ++ flat_map proj_args (projections s)
  ++ RA (from s)
  ++ flat_map (fun j => RA (join_source j) ++ EA (join_on j)) (joins s)
  ++ EA (where_ s)
  ++ flat_map EA (groupBy s)
  ++ EA (having s)
  ++ flat_map order_args (orderBy s)
  ++ (if hasLimit s then [any_int (limit s)] else [])
  ++ (if hasOffset s then [any_int (offset s)] else []).
End Args.

(** The parts of a fragment that its text has room for. *)
Fixpoint parts_args (EA : expression -> list any) (parts : list FragmentPart) (fragments : nat) : list any :=
  match parts, fragments with
  | p :: parts', S n => part_args EA p ++ parts_args EA parts' n
  | _, _ => []
  end.

Fixpoint expr_args (e : expression) : list any :=
  match e with
  | EValue v => [v]
  | EBinary l _ r => expr_args l ++ expr_args r
  | ECase op bs f h =>
      expr_args op ++ flat_map (fun b => expr_args (fst b) ++ expr_args (snd b)) bs
      ++ (if h then expr_args f else [])
  | ECast e _ | ENot e | ENullTest e _ => expr_args e
  | EFilter a p => expr_args a ++ expr_args p
  | EOver e ps os => expr_args e ++ flat_map expr_args ps ++ flat_map (fun o => expr_args (o_expression o)) os
  | EFragment sql ps => parts_args expr_args ps (length (Split sql "{}"))
  | ELogical _ es => flat_map expr_args es
  | EMembership e vs _ None => expr_args e ++ flat_map expr_args vs
  | EMembership e _ _ (Some s) => expr_args e ++ select_args expr_args rel_args body_args s
  | ESubquery s | EExistence s _ => select_args expr_args rel_args body_args s
  | EFunction _ es star _ _ => if star then [] else flat_map expr_args es
  | _ => []
  end
with rel_args (r : relation) : list any :=
  match r with
  | RelResult _ q _ => body_args (rq_body q)
  | RelCTE _ c q _ => if negb (String.eqb (cte_name c) "") then [] else body_args (rq_body q)
  | _ => []
  end
with body_args (b : body) : list any :=
  match b with
  | BNil => []
  | BNative n => native_order n
  | BSelect s => select_args expr_args rel_args body_args s
  | BCompound l r _ => body_args (rq_body l) ++ body_args (rq_body r)
  end.

Definition statement_args (s : Select) : list any := select_args expr_args rel_args body_args s.

(** ** The native body *)
Definition native_takes (n : NativeResult) (l : list SqlScan.Placeholder) (next : nat) : list any :=
  if String.eqb (engine n) "postgresql"
  then omap (fun p => nat_args n !! Z.to_nat (Ph_Number p - 1)) l
  else take (length l) (drop next (nat_args n)).

Lemma native_argument_takes n ns p a ns' l :
  native_argument n ns p = Ok (a, ns') ->
  native_takes n (p :: l) (ns_next ns) = a :: native_takes n l (ns_next ns') /\
  (String.eqb (engine n) "postgresql" = false -> ns_next ns' = S (ns_next ns)).
Proof.
  unfold native_argument, native_takes. destruct (negb _ || _); [done|]. destruct (_ <? _); [done|].
  destruct (String.eqb (engine n) "postgresql").
  - destruct (_ || _); [done|]. cbn [omap list_omap]. destruct (nat_args n !! _) eqn:E; [|done].
    intros [= -> <-]. simpl. by rewrite ?E.
  - destruct (nat_args n !! ns_next ns) as [x|] eqn:E; [|done]. intros [= -> <-]. simpl.
    by rewrite (drop_S _ _ _ E).
Qed.

Lemma native_loop_lays env n l ns :
  exists segs (r : result native_state),
    (forall st, native_loop env n l ns st =
       (do st' <- emit (dialect env) segs st; match r with Ok ns' => Ok (ns', st') | Err e => Err e end)) /\
    (forall ns', r = Ok ns' -> args_of segs = native_takes n l (ns_next ns) /\
       (String.eqb (engine n) "postgresql" = false -> ns_next ns' = ns_next ns + length l)).
Proof.
  revert ns. induction l as [|p l IH]; intros ns; cbn [native_loop].
  - exists [], (Ok ns). split; [done|]. intros ns' [= <-]. split; [|simpl; lia].
    unfold native_takes. by destruct (String.eqb (engine n) "postgresql").
  - destruct (native_argument n ns p) as [[a ns']|e] eqn:E; [|by exists [], (Err e)].
    destruct (IH ns') as (segs & r & H1 & H2). destruct (native_argument_takes _ _ _ _ _ l E) as [T N].
    exists (Raw (substring (nat_sql n) (ns_last ns) (Ph_Start p)) :: Arg a :: segs), r. split.
    + intros st. simpl. unfold writeArgument. cbn [args builder].
      destruct (d_Placeholder (dialect env) _); [apply H1|done].
    + intros ns'' Hr. destruct (H2 ns'' Hr) as [A B]. rewrite T. simpl. rewrite A. split; [done|].
      intros Hp. rewrite (B Hp), (N Hp). lia.
Qed.

Lemma lays_native env n : lays (dialect env) (writeNativeResult env n) (native_order n).
Proof.
  unfold writeNativeResult, native_order.
  destruct (negb _); [by eexists [], (Some _)|].
  destruct (Scan (nat_sql n) (Some (engine n))) as [scan|e]; [|by exists [], (Some e)].
  destruct (0 <? _); [by eexists [], (Some _)|].
  set (ns0 := MkNativeState _ _ _).
  destruct (native_loop_lays env n (Placeholders scan) ns0) as (segs & r & H1 & H2).
  destruct r as [ns|e].
  - destruct (H2 ns eq_refl) as [A B]. destruct (native_finish n ns) as [[]|e] eqn:F.
    + exists (segs ++ [Raw (sdrop (ns_last ns) (nat_sql n))]), None. split.
      * intros st. rewrite H1, emit_app. destruct (emit (dialect env) segs st); [|done]. simpl. by rewrite F.
      * intros _. rewrite args_of_app, A, app_nil_r. unfold native_takes.
        destruct (String.eqb (engine n) "postgresql") eqn:P; [done|].
        unfold native_finish in F. rewrite P in F.
        destruct (Nat.eqb_spec (ns_next ns) (length (nat_args n))) as [Hl|]; [|done].
        rewrite (B eq_refl) in Hl. simpl in Hl. simpl. rewrite drop_0. apply take_ge. lia.
    + exists (segs ++ [Raw (sdrop (ns_last ns) (nat_sql n))]), (Some e). split; [|done].
      intros st. rewrite H1, emit_app. destruct (emit (dialect env) segs st); [|done]. simpl. by rewrite F.
  - exists segs, (Some e). split; [|done]. intros st. rewrite H1. by destruct (emit (dialect env) segs st).
Qed.

(** ** Every writer lays out the reference arguments *)
Definition LE (e : expression) : Prop := forall env, lays (dialect env) (writeExpression env e) (expr_args e).
Definition LR (r : relation) : Prop := forall env, lays (dialect env) (writeTable env r) (rel_args r).
Definition LB (b : body) : Prop := forall env, lays (dialect env) (writeQueryBody env b) (body_args b).

Lemma lays_column env r c : lays (dialect env) (writeColumn env r c) [].
Proof. apply lays_outr. Qed.

Lemma lays_alias env a : lays (dialect env) (writeAlias env a) [].
Proof. unfold writeAlias. destruct (String.eqb a ""); auto with lays. Qed.

Lemma lays_lock env l : lays (dialect env) (writeLock env l) [].
Proof.
  unfold writeLock. destruct (lock_clause (dialect env) (strength l)) as [[c s]|e]; [|apply lays_err].
  auto 20 with lays.
Qed.

Lemma lays_physical env t : lays (dialect env) (writePhysicalTable env t) [].
Proof. unfold writePhysicalTable. auto with lays. Qed.

Lemma lays_excluded env c : lays (dialect env) (writeExcludedColumn env c) [].
Proof. unfold writeExcludedColumn. destruct (negb _); auto with lays. Qed.

Lemma lays_null_placement d n : lays d (null_placement n) [].
Proof. unfold null_placement. auto with lays. Qed.

#[export] Hint Resolve lays_column lays_alias lays_lock lays_physical lays_excluded lays_null_placement : lays.

Lemma lays_optional env e w :
  (is_nil e = false -> lays (dialect env) w (expr_args e)) ->
  lays (dialect env) (if is_nil e then skip else w) (expr_args e).
Proof. destruct (is_nil e) eqn:N; [destruct e; try done; intros _; apply lays_skip|auto]. Qed.

Lemma lays_exprs env es sep :
  Forall LE es -> lays (dialect env) (sep_by sep (writeExpression env) es) (flat_map expr_args es).
Proof. intros H. apply lays_sep_by. eapply Forall_impl; [exact H|]. intros e He. apply He. Qed.

Lemma lays_projection env p :
  proj_all LE LR p -> lays (dialect env) (writeProjection writeExpression env p) (proj_args expr_args p).
Proof.
  intros Hp. unfold writeProjection. apply lays_seq_r; [|apply lays_alias].
  destruct p as [|r c|e a]; simpl; [apply lays_err|apply lays_column|apply Hp].
Qed.

Lemma lays_order env o :
  order_all LE LR o -> lays (dialect env) (writeOrder writeExpression env o) (order_args expr_args o).
Proof.
  intros [He _]. unfold writeOrder, order_args. apply lays_seq_r; [|auto with lays].
  destruct (order_is_result o); [apply lays_outr|apply He].
Qed.

Lemma lays_select s :
  select_all LE LR LB s -> forall env,
  lays (dialect env) (writeSelect writeExpression writeTable writeQueryBody env s) (statement_args s).
Proof.
  intros [Hp Hf _ Hc Hj Hw Hg Hh Ho] env0. unfold writeSelect, statement_args, select_args.
  set (env := MkEnv _ _ _ _). change (dialect env0) with (dialect env).
  apply lays_seq0; [apply lays_guard|]. apply lays_seq.
  { apply lays_nonempty. apply lays_seq0; [apply lays_out|]. apply lays_seq_r; [|apply lays_out].
    apply lays_sep_by. eapply Forall_impl; [exact Hc|]. intros c Hb. unfold writeCTE.
    apply lays_seq0; [apply lays_outr|]. apply lays_seq0; [apply lays_out|].
    apply lays_seq_r; [apply Hb|apply lays_out]. }
  apply lays_seq0; [apply lays_out|]. apply lays_seq0; [auto with lays|]. apply lays_seq.
  { apply lays_sep_by. eapply Forall_impl; [exact Hp|]. intros p. apply lays_projection. }
  apply lays_seq0; [apply lays_out|]. apply lays_seq; [apply Hf|]. apply lays_seq.
  { apply lays_each. eapply Forall_impl; [exact Hj|]. intros j [Hr He]. unfold writeJoin.
    do 3 (apply lays_seq0; [apply lays_out|]). apply lays_seq; [apply Hr|].
    apply lays_seq0; [apply lays_out|]. apply He. }
  apply lays_seq; [apply lays_optional; intros _; apply lays_seq0; [apply lays_out|apply Hw]|].
  apply lays_seq; [apply lays_nonempty, lays_seq0; [apply lays_out|by apply lays_exprs]|].
  apply lays_seq; [apply lays_optional; intros _; apply lays_seq0; [apply lays_out|apply Hh]|].
  apply lays_seq.
  { apply lays_nonempty, lays_seq0; [apply lays_out|]. apply lays_sep_by.
    eapply Forall_impl; [exact Ho|]. intros o. apply lays_order. }
  apply lays_seq; [apply lays_if; [intros _; apply lays_seq0; [apply lays_out|apply lays_argument]|intros _; apply lays_skip]|].
  apply lays_seq_r; [apply lays_if; [intros _; apply lays_seq0; [apply lays_out|apply lays_argument]|intros _; apply lays_skip]|].
  auto with lays.
Qed.

Lemma lays_subquery s env :
  select_all LE LR LB s ->
  lays (dialect env) (writeSubquery writeExpression writeTable writeQueryBody env s) (statement_args s).
Proof.
  intros Hs. unfold writeSubquery. apply lays_seq0; [apply lays_out|].
  apply lays_seq_r; [by apply lays_select|apply lays_out].
Qed.

Lemma lays_fragments env ps fs :
  Forall (part_all LE) ps ->
  lays (dialect env) (writeFragments writeExpression env ps fs) (parts_args expr_args ps (length fs)).
Proof.
  intros H. revert fs. induction H as [|p ps Hp _ IH]; intros [|f fs]; simpl; [apply lays_skip| |apply lays_skip|].
  - apply lays_seq0; [apply lays_out|]. rewrite <- (flat_map_nil fs).
    apply (lays_each _ out (fun _ => [])). apply Forall_true. intros s. apply lays_out.
  - apply lays_seq0; [apply lays_out|]. apply lays_seq; [|apply IH].
    destruct p; simpl; [apply Hp|apply lays_outr|apply lays_err].
Qed.

Lemma lays_window env ps os :
  Forall LE ps -> Forall (order_all LE LR) os ->
  lays (dialect env) (writeWindow writeExpression env ps os)
    (flat_map expr_args ps ++ flat_map (fun o => expr_args (o_expression o)) os).
Proof.
  intros Hp Ho. unfold writeWindow. apply lays_seq.
  - apply lays_nonempty, lays_seq0; [apply lays_out|by apply lays_exprs].
  - apply lays_nonempty, lays_seq0; [auto with lays|]. apply lays_seq0; [apply lays_out|].
    apply (lays_sep_by _ _ _ (fun o => expr_args (o_expression o))).
    eapply Forall_impl; [exact Ho|]. intros o [He _]. unfold writeWindowOrder.
    apply lays_seq_r; [apply He|auto with lays].
Qed.

Lemma lays_derived env q a :
  LB (rq_body q) -> forall m,
  lays (dialect env)
    (if String.eqb a "" then errw m
     else if body_is_nil (rq_body q) then errw (Errorf "unsupported relation %q" [AStr a])
     else out "(" ;; writeQueryBody env (rq_body q) ;; out ") AS " ;; outr (quoteIdentifier (dialect env) a))
    (body_args (rq_body q)).
Proof.
  intros Hb m. destruct (String.eqb a ""); [apply lays_err|].
  destruct (body_is_nil (rq_body q)); [apply lays_err|].
  apply lays_seq0; [apply lays_out|]. apply lays_seq_r; [apply Hb|auto with lays].
Qed.

Ltac lay := repeat first [apply lays_seq0; [solve [auto with lays]|] | apply lays_seq_r; [|solve [auto with lays]]].

#[local] Opaque writeSubquery.
Lemma layout_cases : induction_cases LE LR LB.
Proof.
  split; unfold LE, LR, LB; cbn [writeExpression writeTable writeQueryBody expr_args rel_args body_args];
    try (intros; solve [auto with lays]).
  - intros v env. apply lays_argument.
  - intros l op r Hl Hr env. lay. apply lays_seq; [apply Hl|]. lay. apply Hr.
  - intros op bs f h Hop Hbs Hf env. lay. apply lays_seq.
    { apply lays_optional. intros _. apply lays_seq0; [apply lays_out|apply Hop]. }
    apply lays_seq.
    { apply lays_each. eapply Forall_impl; [exact Hbs|]. intros [p r] [Hp Hr]. unfold writeBranch. simpl in *.
      lay. apply lays_seq; [apply Hp|]. lay. apply Hr. }
    apply lays_seq_r; [|apply lays_out].
    apply lays_if; intros _; [apply lays_seq0; [apply lays_out|apply Hf]|apply lays_skip].
  - intros e t He env. lay. apply He.
  - intros a p Ha Hp env. lay. apply lays_seq; [apply Ha|]. lay. apply Hp.
  - intros e ps os He Hp Ho env. apply lays_seq; [apply He|]. lay. by apply lays_window.
  - intros sql ps Hps env. by apply lays_fragments.
  - intros op es Hes env. lay. by apply lays_exprs.
  - intros e He env. lay. apply He.
  - intros e n He env. lay. apply He.
  - intros e vs n He Hvs env. lay. apply lays_seq; [apply He|]. lay. by apply lays_exprs.
  - intros e vs n s He _ Hs env. lay. apply lays_seq; [apply He|]. lay. by apply lays_subquery.
  - intros s Hs env. by apply lays_subquery.
  - intros s n Hs env. lay. by apply lays_subquery.
  - intros f es st d u Hes env. lay. apply lays_if; intros _; [apply lays_out|]. lay. by apply lays_exprs.
  - intros p q a Hq env. by apply lays_derived.
  - intros p c q a _ Hq env. destruct (negb _); [|by apply lays_derived]. auto 10 with lays.
  - intros n env. apply lays_native.
  - intros s Hs env. by apply lays_select.
  - intros l r op Hl Hr env. lay. apply lays_seq; [apply Hl|]. lay. apply Hr.
Qed.

#[local] Transparent writeSubquery.
Lemma expression_layout e : LE e.
Proof. exact (expression_all _ _ _ layout_cases e). Qed.
Lemma body_layout b : LB b.
Proof. exact (body_all _ _ _ layout_cases b). Qed.
Lemma statement_layout env s : lays (dialect env) (writeStatement env s) (statement_args s).
Proof. exact (body_layout (BSelect s) env). Qed.

(** ** Write statements *)
Definition assignment_args (a : Assignment) : list any := if defaultValue a then [] else expr_args (a_value a).
Definition returning_args (l : list Projection) : list any := flat_map (proj_args expr_args) l.
Definition insert_base_args (s : Insert) : list any :=
  if defaultValues s then []
  else match selectSource s with
       | Some source => body_args (rq_body source)
       | None => flat_map (flat_map expr_args) (rows s)
       end.
Definition upsert_tail_args (style : UpsertStyle) (s : Upsert) : list any :=
  match style with
  | UpsertOnConflict =>
      (if 0 <? length (up_conflict s) then expr_args (conflictWhere s) else [])
      ++ (if length (up_assignments s) =? 0 then []
          else flat_map assignment_args (up_assignments s) ++ expr_args (updateWhere s))
  | _ => flat_map assignment_args (up_assignments s)
  end.
Definition write_args (d : Dialect) (s : WriteStatement) : list any :=
  match s with
  | WInsert s => insert_base_args s ++ returning_args (i_returning s)
  | WUpdate s => flat_map assignment_args (u_sets s) ++ expr_args (u_where s) ++ returning_args (u_returning s)
  | WDelete s => expr_args (d_where s) ++ returning_args (d_returning s)
  | WUpsert s => insert_base_args (up_insert s) ++ upsert_tail_args (d_UpsertStyle d) s
                 ++ returning_args (up_returning s)
  | WNil => []
  end.

Lemma all_exprs es : Forall LE es.
Proof. apply Forall_true, expression_layout. Qed.

Lemma lays_returning env l : lays (dialect env) (writeReturning env l) (returning_args l).
Proof.
  unfold writeReturning. destruct l as [|p l]; [apply lays_skip|]. lay. apply lays_sep_by, Forall_true.
  intros q. unfold writeReturningProjection.
  assert (lays (dialect env) (writeProjection writeExpression env q) (proj_args expr_args q)) as Hq.
  { apply lays_projection. destruct q; simpl; [done| |apply expression_layout].
    intros env'. apply (relation_all _ _ _ layout_cases). }
  assert (forall c, lays (dialect env) (outr (quoteIdentifier (dialect env) c) ;; writeAlias env (ResultAlias q)) [])
    as Hc by (intros c; auto with lays).
  destruct q as [|r c|[] a]; simpl in *; try apply Hq; apply Hc.
Qed.

Lemma lays_assignment env a : lays (dialect env) (writeAssignment env a) (assignment_args a).
Proof.
  unfold writeAssignment, assignment_args. lay.
  apply lays_if; intros _; [apply lays_out|apply expression_layout].
Qed.

Lemma lays_insert_rest env s :
  lays (dialect env)
    (if defaultValues s then
       if supports env CapabilityDefaultValues then out " DEFAULT VALUES"
       else if supports env CapabilityEmptyInsert then out " () VALUES ()"
       else errw (errors_New "default-values INSERT is not supported")
     else
       out " (" ;; writeColumnNames env (i_columns s) ;; out ")" ;;
       match selectSource s with
       | Some source => out " " ;; writeQueryBody env (rq_body source)
       | None => out " VALUES " ;; sep_by ", " (writeRow env) (rows s)
       end) (insert_base_args s).
Proof.
  unfold insert_base_args. apply lays_if; intros _; [auto with lays|].
  apply lays_seq0; [apply lays_out|]. apply lays_seq0; [unfold writeColumnNames; auto with lays|].
  apply lays_seq0; [apply lays_out|]. destruct (selectSource s) as [q|].
  - lay. apply body_layout.
  - lay. apply lays_sep_by, Forall_true. intros row. unfold writeRow. lay. apply lays_exprs, all_exprs.
Qed.
Lemma lays_insert_base env s : lays (dialect env) (writeInsertBase env s) (insert_base_args s).
Proof.
  unfold writeInsertBase. destruct (quoteQualified _ _ _) as [t|e]; [|by exists [], (Some e)].
  apply lays_seq0; [apply lays_out|]. apply lays_seq0; [apply lays_out|]. apply lays_insert_rest.
Qed.

Lemma lays_where env e :
  lays (dialect env) (if is_nil e then skip else out " WHERE " ;; writeExpression env e) (expr_args e).
Proof. apply lays_optional. intros _. lay. apply expression_layout. Qed.

Lemma lays_upsert_assignments env l style :
  lays (dialect env) (writeUpsertAssignments env l style) (flat_map assignment_args l).
Proof.
  unfold writeUpsertAssignments. apply lays_sep_by, Forall_true. intros a.
  exact (lays_assignment (excluding style env) a).
Qed.

Lemma lays_on_conflict env s style :
  lays (dialect env) (writeOnConflict env s style) (upsert_tail_args UpsertOnConflict s).
Proof.
  unfold writeOnConflict, upsert_tail_args. lay. apply lays_seq.
  - apply lays_if; intros _; [|apply lays_skip]. unfold writeColumnNames. lay. apply lays_where.
  - apply lays_if; intros _; [apply lays_out|]. lay. apply lays_seq; [apply lays_upsert_assignments|].
    exact (lays_where (excluding style env) (updateWhere s)).
Qed.

Lemma lays_upsert env s :
  lays (dialect env) (writeUpsert env s) (write_args (dialect env) (WUpsert s)).
Proof.
  unfold writeUpsert. destruct (upsert_problem env s) as [e|]; [apply lays_err|]. simpl.
  apply lays_seq; [apply lays_insert_base|]. apply lays_seq; [|apply lays_returning].
  destruct (d_UpsertStyle (dialect env)); [apply lays_err|apply lays_on_conflict|].
  unfold writeOnDuplicateKey. lay. apply lays_upsert_assignments.
Qed.

Lemma lays_update env s : lays (dialect env) (writeUpdate env s) (write_args (dialect env) (WUpdate s)).
Proof.
  unfold writeUpdate. simpl. do 4 (apply lays_seq0; [auto with lays|]). apply lays_seq.
  - apply lays_sep_by, Forall_true. intros a. apply lays_assignment.
  - apply lays_seq; [apply lays_where|apply lays_returning].
Qed.

Lemma lays_delete env s : lays (dialect env) (writeDelete env s) (write_args (dialect env) (WDelete s)).
Proof.
  unfold writeDelete. simpl. do 3 (apply lays_seq0; [auto with lays|]).
  apply lays_seq; [apply lays_where|apply lays_returning].
Qed.

(** ** Rendered statements *)
Fixpoint text_of (ph : Z -> string) (l : list seg) (bound : nat) : string :=
  match l with
  | [] => ""
  | Raw s :: l' => s +:+ text_of ph l' bound
  | Arg _ :: l' => ph (Z.of_nat (S bound)) +:+ text_of ph l' (S bound)
  end.

(** A finished statement: its text is the segments with placeholders numbered
    from one in order, and its arguments are the bound values in that order. *)
Definition rendered (ph : Z -> string) (l : list any) (stmt : Statement) : Prop :=
  stmt_args stmt = l /\ exists segs, args_of segs = l /\ sql_text stmt = text_of ph segs 0.

Lemma emit_builtin d b segs st :
  d_Placeholder d = Placeholder b ->
  emit d segs st = Ok (MkState (builder st +:+ text_of (placeholder b) segs (length (args st)))
                               (args st ++ args_of segs)).
Proof.
  intros Hd. revert st. induction segs as [|[s|v] segs IH]; intros [bu ar]; simpl.
  - by rewrite sapp_nil_r, app_nil_r.
  - rewrite IH. simpl. by rewrite sapp_assoc.
  - rewrite Hd. unfold Placeholder. destruct (Z.ltb_spec (Z.of_nat (length ar) + 1) 1); [lia|].
    rewrite IH. simpl. rewrite sapp_assoc, length_app, <- app_assoc. simpl.
    by replace (Z.of_nat (length ar) + 1)%Z with (Z.of_nat (S (length ar))) by lia;
       rewrite Nat.add_1_r.
Qed.

Lemma rendered_of d b op v w l stmt :
  d_Placeholder d = Placeholder b -> lays d (w (initial_env d)) l ->
  renderStatement d op v w = Ok stmt -> v = Ok tt /\ rendered (placeholder b) l stmt.
Proof.
  intros Hd (segs & o & H & A). unfold renderStatement. destruct v as [[]|]; [|done].
  rewrite H, (emit_builtin _ _ _ _ Hd). destruct o as [e|]; [done|]. intros [= <-].
  rewrite <- (A eq_refl). split; [done|]. split; [done|]. by exists segs.
Qed.

(** For any dialect: the arguments of a rendered write are its values. *)
Lemma emit_args d segs st st' : emit d segs st = Ok st' -> args st' = args st ++ args_of segs.
Proof.
  revert st. induction segs as [|[s|v] segs IH]; intros st; simpl.
  - intros [= <-]. by rewrite app_nil_r.
  - by intros ->%IH.
  - destruct (d_Placeholder d _); [|done]. intros ->%IH. simpl. by rewrite <- app_assoc.
Qed.
Lemma rendered_args d op v w l stmt : lays d (w (initial_env d)) l -> renderStatement d op v w = Ok stmt -> stmt_args stmt = l.
Proof.
  intros (segs & o & H & A). unfold renderStatement. destruct v as [[]|]; [|done]. rewrite H.
  destruct (emit d segs _) as [st'|] eqn:E; [|done]. destruct o as [e|]; [done|]. intros [= <-]. apply emit_args in E. simpl in *.
  by rewrite E, A.
Qed.
Lemma lays_insert env s : lays (dialect env) (writeInsert env s) (write_args (dialect env) (WInsert s)).
Proof. unfold writeInsert. apply lays_seq; [apply lays_insert_base|apply lays_returning]. Qed.
Lemma write_values d s stmt : Write d s = Ok stmt -> stmt_args stmt = write_args d s.
Proof.
  destruct s; simpl; [..|done]; intros H; (eapply rendered_args in H; [exact H|]).
  - apply (lays_insert (initial_env d)).
  - apply (lays_update (initial_env d)).
  - apply (lays_delete (initial_env d)).
  - apply (lays_upsert (initial_env d)).
Qed.

(** For any dialect: what the text of a rendered write begins with. *)
Definition starts (p : string) (w : wr) : Prop := forall st st', w st = Ok st' -> exists r, builder st' = builder st +:+ p +:+ r.
Lemma starts_lays d w l : lays d w l -> starts "" w.
Proof.
  intros (segs & o & H & _) st st'. rewrite H. intros (st1 & E & F)%do_ok. destruct o; [done|]. injection F as <-. clear H.
  revert st E. induction segs as [|[s|v] segs IH]; intros st; simpl.
  - intros [= <-]. exists "". by rewrite sapp_nil_r.
  - intros (r & E)%IH. simpl in E. exists (s +:+ r). by rewrite E, sapp_assoc.
  - destruct (d_Placeholder d _) as [q|]; [|done]. intros (r & E)%IH. simpl in E. exists (q +:+ r). by rewrite E, sapp_assoc.
Qed.
Lemma starts_seq p a b : starts p a -> starts "" b -> starts p (a ;; b).
Proof.
  intros Ha Hb st st' (st1 & E1 & E2)%do_ok. apply Ha in E1 as [r1 E1]. apply Hb in E2 as [r2 E2]. simpl in E2.
  exists (r1 +:+ r2). by rewrite E2, E1, !sapp_assoc.
Qed.
Lemma starts_out p t : starts p (out (p +:+ t)).
Proof. intros st st' [= <-]. by exists t. Qed.
Lemma starts_unless p b e w : starts p w -> starts p (unless b e ;; w).
Proof. intros H st st'. destruct b; [apply H|done]. Qed.
Lemma starts_insert env s : starts "INSERT INTO " (writeInsertBase env s).
Proof.
  intros st st'. unfold writeInsertBase. destruct (quoteQualified _ _ _) as [t|]; [|done].
  apply (starts_seq "INSERT INTO " (out "INSERT INTO ")); [exact (starts_out "INSERT INTO " "")|].
  eapply (starts_lays (dialect env)), lays_seq0; [apply lays_out|]. apply lays_insert_rest.
Qed.
Lemma starts_named p env (r : result string) w l : lays (dialect env) w l -> starts p (outr (do t <- r; Ok (p +:+ t)) ;; w).
Proof. intros Hw. apply starts_seq; [|by eapply starts_lays]. destruct r as [t|]; [apply starts_out|done]. Qed.
Lemma rendered_starts d op v w p stmt : starts p (w (initial_env d)) -> renderStatement d op v w = Ok stmt -> exists r, sql_text stmt = p +:+ r.
Proof.
  intros H. unfold renderStatement. destruct v as [[]|]; [|done]. destruct (w _ _) as [st|] eqn:E; [|done]. intros [= <-].
  apply H in E as [r E]. by exists r.
Qed.
Definition write_verb (s : WriteStatement) : string :=
  match s with WInsert _ | WUpsert _ => "INSERT INTO " | WUpdate _ => "UPDATE " | WDelete _ => "DELETE FROM " | WNil => "" end.
Lemma write_starts d s stmt : Write d s = Ok stmt -> exists r, sql_text stmt = write_verb s +:+ r.
Proof.
  destruct s; cbn [Write write_verb]; [..|done]; apply rendered_starts.
  - apply starts_seq; [apply starts_insert|]. eapply starts_lays, (lays_returning (initial_env d)).
  - unfold writeUpdate. do 2 apply starts_unless. eapply starts_named. apply lays_seq0; [apply lays_out|]. apply lays_seq.
    + apply lays_sep_by, Forall_true. intros a. apply lays_assignment.
    + apply lays_seq; [apply lays_where|apply lays_returning].
  - unfold writeDelete. do 2 apply starts_unless. eapply starts_named. apply lays_seq; [apply lays_where|apply lays_returning].
  - unfold writeUpsert. destruct (upsert_problem _ _) as [e|]; [done|]. apply starts_seq; [apply starts_insert|].
    eapply (starts_lays d), lays_seq; [|apply (lays_returning (initial_env d))]. instantiate (1 := upsert_tail_args (d_UpsertStyle d) (s : Upsert)).
    cbn [dialect initial_env]. destruct (d_UpsertStyle d); [apply lays_err|apply (lays_on_conflict (initial_env d))|].
    unfold writeOnDuplicateKey. lay. apply (lays_upsert_assignments (initial_env d)).
Qed.

(** ** Claims *)

(** C2 Rendering binds exactly the statement's values: a rendered SELECT
    (or reusable result) carries, in order, the bound values met reading the
    statement left to right - common tables, projections, FROM, joins, WHERE,
    GROUP BY, HAVING, ORDER BY, then LIMIT and OFFSET, subqueries and derived
    tables in place, native bodies in the order of their placeholders - and
    its text is raw SQL with one placeholder per value, numbered 1, 2, ... in
    that order. *)
Theorem Select_arguments (b : builtin) (c : option (string -> string -> bool)) :
  (forall s stmt, Select_ (builtin_dialect b c) s = Ok stmt ->
     rendered (placeholder b) (statement_args s) stmt) /\
  (forall q stmt, Result_ (builtin_dialect b c) q = Ok stmt ->
     rendered (placeholder b) (body_args (rq_body q)) stmt).
Proof.
  split.
  - intros s stmt H. unfold Select_ in H. eapply rendered_of in H; [apply H|done|].
    destruct (correlations s); [apply statement_layout|apply lays_err].
  - intros q stmt H. unfold Result_ in H. eapply rendered_of in H; [apply H|done|].
    destruct (bodyCorrelations (rq_body q)); [apply body_layout|apply lays_err].
Qed.

Lemma Select_arguments_witness :
  exists stmt, Select_ PostgreSQL sample_limited = Ok stmt /\ stmt_args stmt = [any_int 10].
Proof.
  eexists. split; [vm_compute; reflexivity|].
  refine (proj1 (proj1 (Select_arguments postgresql_builtin None) sample_limited _ _)).
  vm_compute; reflexivity.
Defined.

(** C8 The same for writes: a rendered INSERT, UPDATE, DELETE or upsert binds
    the row values, assigned values, predicates and RETURNING values in the
    order the statement states them, one numbered placeholder each; a DEFAULT
    assignment binds nothing. *)
Theorem Write_arguments (b : builtin) (c : option (string -> string -> bool)) (s : WriteStatement)
  (stmt : Statement) :
  Write (builtin_dialect b c) s = Ok stmt ->
  rendered (placeholder b) (write_args (builtin_dialect b c) s) stmt.
Proof.
  destruct s; simpl; [..|done]; intros H; (eapply rendered_of in H; [apply H|done|]).
  - apply (lays_insert (initial_env (builtin_dialect b c))).
  - apply (lays_update (initial_env (builtin_dialect b c))).
  - apply (lays_delete (initial_env (builtin_dialect b c))).
  - apply (lays_upsert (initial_env (builtin_dialect b c))).
Qed.

Definition sample_update : Update :=
  MkUpdate sample_table [Set_ (MkColumnRef (RelTable sample_table) "id") (OpPlain (any_int 1))]
    (Equal (OpRef (RelTable sample_table) "id") (OpPlain (any_int 2))) [] false.

Lemma Write_arguments_witness :
  exists stmt, Write MySQL (WUpdate sample_update) = Ok stmt /\ stmt_args stmt = [any_int 1; any_int 2].
Proof.
  eexists. split; [vm_compute; reflexivity|].
  refine (proj1 (Write_arguments mysql_builtin None (WUpdate sample_update) _ _)).
  vm_compute; reflexivity.
Defined.
