(* ===== verification/RenderSafety.v ===== *)
(** * RenderSafety: what the renderer refuses

    A capability audit over whole statements: nothing a dialect does not
    support is ever rendered for it; writes without a predicate are refused
    unless allowed explicitly; and the write-target walk finds exactly the
    subqueries reachable through the nodes it descends into. *)

From S2P Require Import Prelude GoText SqlScan Schema Dialect Query QueryValidate QueryScope QuerySelect QueryWrite Render RenderWrite RenderLayout.
Open Scope string_scope.
Open Scope list_scope.
Open Scope nat_scope.
Open Scope wr_scope.

(** ** Writers that succeeded *)
Definition succeeds (w : wr) : Prop := exists st st', w st = Ok st'.

Lemma succeeds_seq w1 w2 : succeeds (w1 ;; w2) -> succeeds w1 /\ succeeds w2.
Proof.
  intros (st & st' & H). unfold seqw in H. destruct (w1 st) as [st1|] eqn:E; [|done].
  split; [by exists st, st1|by exists st1, st'].
Qed.
Lemma succeeds_err e : ~ succeeds (errw e).
Proof. by intros (st & st' & H). Qed.
Lemma succeeds_unless b e : succeeds (unless b e) -> b = true.
Proof. destruct b; [done|]. by intros H%succeeds_err. Qed.

Lemma succeeds_each {A} (f : A -> wr) l : succeeds (each f l) -> Forall (fun x => succeeds (f x)) l.
Proof. induction l as [|x l IH]; [constructor|]. intros [H1 H2]%succeeds_seq. constructor; [done|by apply IH]. Qed.
Lemma succeeds_sep_by {A} sep (f : A -> wr) l : succeeds (sep_by sep f l) -> Forall (fun x => succeeds (f x)) l.
Proof.
  unfold sep_by. generalize true. induction l as [|x l IH]; intros b H; [constructor|].
  simpl in H. apply succeeds_seq in H as [_ [H1 H2]%succeeds_seq]. constructor; [done|by eapply IH].
Qed.
Lemma succeeds_nonempty {A} (P : A -> Prop) (l : list A) w :
  (succeeds w -> Forall P l) -> succeeds (if 0 <? length l then w else skip) -> Forall P l.
Proof. destruct l; [constructor|auto]. Qed.

(** Split every sequence in the hypotheses. *)
Ltac split_ok :=
  repeat match goal with
  | H : succeeds (seqw _ _) |- _ => apply succeeds_seq in H as [? ?]
  | H : succeeds (errw _) |- _ => by apply succeeds_err in H
  | H : succeeds (unless _ _) |- _ => apply succeeds_unless in H
  end.

(** ** The audit *)
Definition lock_supported (d : Dialect) (l : Lock) : bool :=
  (match lock_clause d (strength l) with Ok (c, _) => d_Supports d c | Err _ => false end)
  && (negb (0 <? length (lock_of l)) || d_Supports d CapabilitySelectLockOf)
  && (negb (wait l =? LockWaitNoWait)%N || d_Supports d CapabilitySelectLockNoWait)
  && (negb (wait l =? LockWaitSkipLocked)%N || d_Supports d CapabilitySelectLockSkipLocked).

Section Audit.
Variable d : Dialect.
Variables (EA : expression -> bool) (RA : relation -> bool) (BA : body -> bool).
Definition proj_supported (p : Projection) : bool := match p with PExpr e _ => EA e | _ => true end.
Definition order_supported (o : Order) : bool := order_is_result o || EA (o_expression o).
Definition part_supported (p : FragmentPart) : bool := match p with fragmentHole e => EA e | _ => true end.
Definition optional_supported (e : expression) : bool := is_nil e || EA e.
Definition select_supported (s : Select) : bool :=
  forallb (fun c => BA (rq_body (cte_query c))) (ctes s)
  && forallb proj_supported (projections s)
  && RA (from s)
  && forallb (fun j => RA (join_source j) && EA (join_on j)) (joins s)
  && optional_supported (where_ s)
  && forallb EA (groupBy s)
  && optional_supported (having s)
  && forallb order_supported (orderBy s)
  && (negb (hasLock s) || lock_supported d (lock s)).
End Audit.

Fixpoint parts_supported (EA : expression -> bool) (parts : list FragmentPart) (fragments : nat) : bool :=
  match parts, fragments with
  | p :: parts', S n => part_supported EA p && parts_supported EA parts' n
  | _, _ => true
  end.

Fixpoint expr_supported (d : Dialect) (e : expression) : bool :=
  match e with
  | EBinary l op r =>
      (negb (String.eqb op OperatorMatch) || d_Supports d CapabilityMatchOperator)
      && expr_supported d l && expr_supported d r
  | ECase op bs f h =>
      (is_nil op || expr_supported d op)
      && forallb (fun b => expr_supported d (fst b) && expr_supported d (snd b)) bs
      && (negb h || expr_supported d f)
  | ECast e t => expr_supported d e && is_ok (d_TypeName d (column_of "" t false))
  | ENot e | ENullTest e _ => expr_supported d e
  | EFilter a p => d_Supports d CapabilityAggregateFilter && expr_supported d a && expr_supported d p
  | EOver e ps os => expr_supported d e && forallb (expr_supported d) ps
                     && forallb (fun o => expr_supported d (o_expression o)) os
  | EFragment sql ps => parts_supported (expr_supported d) ps (length (Split sql "{}"))
  | ELogical _ es => forallb (expr_supported d) es
  | EMembership e vs _ None => expr_supported d e && forallb (expr_supported d) vs
  | EMembership e _ _ (Some s) =>
      (negb (hasLimit s || hasOffset s) || d_Supports d CapabilitySubqueryLimit)
      && expr_supported d e
      && select_supported d (expr_supported d) (rel_supported d) (body_supported d) s
  | ESubquery s | EExistence s _ =>
      select_supported d (expr_supported d) (rel_supported d) (body_supported d) s
  | EFunction _ es star _ _ => star || forallb (expr_supported d) es
  | ENil | EDefault | EOther _ => false
  | _ => true
  end
with rel_supported (d : Dialect) (r : relation) : bool :=
  match r with
  | RelZero => false
  | RelTable _ => true
  | RelResult _ q _ => body_supported d (rq_body q)
  | RelCTE _ c q _ => negb (String.eqb (cte_name c) "") || body_supported d (rq_body q)
  end
with body_supported (d : Dialect) (b : body) : bool :=
  match b with
  | BNil => false
  | BNative n => String.eqb (engine n) (d_Name d)
  | BSelect s => select_supported d (expr_supported d) (rel_supported d) (body_supported d) s
  | BCompound l r _ => body_supported d (rq_body l) && body_supported d (rq_body r)
  end.

Definition statement_supported (d : Dialect) (s : Select) : bool :=
  select_supported d (expr_supported d) (rel_supported d) (body_supported d) s.

Definition SE (e : expression) : Prop :=
  forall env, succeeds (writeExpression env e) -> expr_supported (dialect env) e = true.
Definition SR (r : relation) : Prop :=
  forall env, succeeds (writeTable env r) -> rel_supported (dialect env) r = true.
Definition SB (b : body) : Prop :=
  forall env, succeeds (writeQueryBody env b) -> body_supported (dialect env) b = true.

Lemma forallb_Forall {A} (p : A -> bool) l : forallb p l = true <-> Forall (fun x => p x = true) l.
Proof.
  induction l as [|x l IH]; simpl; [split; [constructor|done]|].
  rewrite andb_true_iff, Forall_cons, IH. done.
Qed.

Lemma forall_two {A} (P Q R : A -> Prop) l :
  Forall P l -> Forall Q l -> (forall x, P x -> Q x -> R x) -> Forall R l.
Proof. intros HP HQ H. induction HP; inversion HQ; subst; constructor; auto. Qed.

Lemma exprs_supported env es sep :
  Forall SE es -> succeeds (sep_by sep (writeExpression env) es) ->
  forallb (expr_supported (dialect env)) es = true.
Proof.
  intros He Hs%succeeds_sep_by. apply forallb_Forall. eapply forall_two; [exact He|exact Hs|].
  intros e H. apply H.
Qed.

Lemma optional_ok env e w :
  (succeeds w -> expr_supported (dialect env) e = true) -> succeeds (if is_nil e then skip else w) ->
  optional_supported (expr_supported (dialect env)) e = true.
Proof. unfold optional_supported. destruct (is_nil e); [done|auto]. Qed.

Lemma lock_ok env l : succeeds (writeLock env l) -> lock_supported (dialect env) l = true.
Proof.
  unfold writeLock, lock_supported. destruct (lock_clause (dialect env) (strength l)) as [[c s]|e].
  - intros H. split_ok. unfold supports in *. by rewrite !andb_true_iff.
  - by intros H%succeeds_err.
Qed.

Lemma projection_supported env p :
  proj_all SE SR p -> succeeds (writeProjection writeExpression env p) ->
  proj_supported (expr_supported (dialect env)) p = true.
Proof.
  intros Hp H. unfold writeProjection in H. split_ok. destruct p; simpl in *; [done|done|by apply Hp].
Qed.

Lemma order_ok env o :
  order_all SE SR o -> succeeds (writeOrder writeExpression env o) ->
  order_supported (expr_supported (dialect env)) o = true.
Proof.
  intros [He _] H. unfold writeOrder in H. split_ok. unfold order_supported.
  destruct (order_is_result o); [done|by apply He].
Qed.

Lemma select_ok s :
  select_all SE SR SB s -> forall env,
  succeeds (writeSelect writeExpression writeTable writeQueryBody env s) ->
  statement_supported (dialect env) s = true.
Proof.
  intros [Hp Hf _ Hc Hj Hw Hg Hh Ho] env0 H. unfold writeSelect in H. cbv zeta in H.
  set (env := MkEnv _ _ _ _) in H. change (dialect env0) with (dialect env). clearbody env.
  unfold statement_supported, select_supported. split_ok. rewrite !andb_true_iff. split_and!.
  - apply forallb_Forall. eapply succeeds_nonempty; [|eassumption]. intros K. split_ok.
    eapply forall_two; [exact Hc|by eapply succeeds_sep_by|]. intros c Hb Hs. unfold writeCTE in Hs.
    split_ok. by apply Hb.
  - apply forallb_Forall. eapply forall_two; [exact Hp|by eapply succeeds_sep_by|].
    intros p Hp' Hs. by eapply projection_supported.
  - by apply Hf.
  - apply forallb_Forall. eapply forall_two; [exact Hj|by eapply succeeds_each|].
    intros j [Hr He] Hs. unfold writeJoin in Hs. split_ok. rewrite andb_true_iff.
    split; [by apply Hr|by apply He].
  - eapply optional_ok; [|eassumption]. intros K. split_ok. by apply Hw.
  - apply forallb_Forall. eapply succeeds_nonempty; [|eassumption]. intros K. split_ok.
    apply forallb_Forall. by eapply exprs_supported.
  - eapply optional_ok; [|eassumption]. intros K. split_ok. by apply Hh.
  - apply forallb_Forall. eapply succeeds_nonempty; [|eassumption]. intros K. split_ok.
    eapply forall_two; [exact Ho|by eapply succeeds_sep_by|]. intros o Ho' Hs. by eapply order_ok.
  - destruct (hasLock s); [|done]. by apply lock_ok.
Qed.

Lemma subquery_ok s env :
  select_all SE SR SB s -> succeeds (writeSubquery writeExpression writeTable writeQueryBody env s) ->
  statement_supported (dialect env) s = true.
Proof. intros Hs H. unfold writeSubquery in H. split_ok. by apply select_ok. Qed.

Lemma fragments_ok env ps fs :
  Forall (part_all SE) ps -> succeeds (writeFragments writeExpression env ps fs) ->
  parts_supported (expr_supported (dialect env)) ps (length fs) = true.
Proof.
  intros Hp. revert fs. induction Hp as [|p ps Hp _ IH]; intros [|f fs]; simpl; try done.
  intros H. split_ok. rewrite andb_true_iff. split; [|by apply IH].
  destruct p; simpl in *; [by apply Hp|done|done].
Qed.

Lemma window_ok env ps os :
  Forall SE ps -> Forall (order_all SE SR) os -> succeeds (writeWindow writeExpression env ps os) ->
  forallb (expr_supported (dialect env)) ps = true /\
  forallb (fun o => expr_supported (dialect env) (o_expression o)) os = true.
Proof.
  intros Hp Ho H. unfold writeWindow in H. split_ok. split; apply forallb_Forall.
  - eapply succeeds_nonempty; [|eassumption]. intros K. split_ok. apply forallb_Forall.
    by eapply exprs_supported.
  - eapply succeeds_nonempty; [|eassumption]. intros K. split_ok.
    eapply forall_two; [exact Ho|by eapply succeeds_sep_by|]. intros o [He _] Hs.
    unfold writeWindowOrder in Hs. split_ok. by apply He.
Qed.

Lemma derived_ok env q a m :
  SB (rq_body q) ->
  succeeds (if String.eqb a "" then errw m
     else if body_is_nil (rq_body q) then errw (Errorf "unsupported relation %q" [AStr a])
     else out "(" ;; writeQueryBody env (rq_body q) ;; out ") AS " ;; outr (quoteIdentifier (dialect env) a)) ->
  body_supported (dialect env) (rq_body q) = true.
Proof.
  intros Hb H. destruct (String.eqb a ""); [by apply succeeds_err in H|].
  destruct (body_is_nil (rq_body q)); [by apply succeeds_err in H|]. split_ok. by apply Hb.
Qed.

Lemma succeeds_outr r : succeeds (outr r) -> is_ok r = true.
Proof. intros (st & st' & H). unfold outr in H. by destruct r. Qed.

Lemma native_ok env n : succeeds (writeNativeResult env n) -> String.eqb (engine n) (d_Name (dialect env)) = true.
Proof.
  intros (st & st' & H). unfold writeNativeResult in H.
  by destruct (String.eqb (engine n) (d_Name (dialect env))).
Qed.

#[local] Opaque writeSubquery sep_by.
Lemma support_cases : induction_cases SE SR SB.
Proof.
  split; unfold SE, SR, SB; cbn [writeExpression writeTable writeQueryBody expr_supported rel_supported
    body_supported]; try done; try (intros; by split_ok).
  - intros l op r Hl Hr env H. split_ok. unfold supports in *. rewrite !andb_true_iff.
    split_and!; [done|by apply Hl|by apply Hr].
  - intros op bs f h Hop Hbs Hf env H. split_ok. rewrite !andb_true_iff. split_and!.
    + eapply optional_ok; [|eassumption]. intros K. split_ok. by apply Hop.
    + apply forallb_Forall. eapply forall_two; [exact Hbs|by eapply succeeds_each|].
      intros [p r] [Hp Hr] Hs. unfold writeBranch in Hs. split_ok. simpl in *. rewrite andb_true_iff.
      split; [by apply Hp|by apply Hr].
    + destruct h; [|done]. split_ok. by apply Hf.
  - intros e t He env H. split_ok. rewrite andb_true_iff. split; [by apply He|by eapply succeeds_outr].
  - intros a p Ha Hp env H. split_ok. unfold supports in *. rewrite !andb_true_iff.
    split_and!; [done|by apply Ha|by apply Hp].
  - intros e ps os He Hp Ho env H. split_ok. rewrite !andb_true_iff.
    split; [split; [by apply He|]|]; by apply (window_ok env ps os).
  - intros sql ps Hps env H. by apply fragments_ok.
  - intros op es Hes env H. split_ok. by eapply exprs_supported.
  - intros e He env H. split_ok. by apply He.
  - intros e n He env H. split_ok. by apply He.
  - intros e vs n He Hvs env H. split_ok. rewrite andb_true_iff. split; [by apply He|by eapply exprs_supported].
  - intros e vs n s He _ Hs env H. split_ok. unfold sub_limit_refused, supports in *.
    rewrite !andb_true_iff. split_and!; [|by apply He|by apply subquery_ok].
    match goal with K : negb (_ && negb _) = true |- _ => revert K end.
    by destruct (hasLimit s || hasOffset s), (d_Supports _ _).
  - intros s Hs env H. by apply subquery_ok.
  - intros s n Hs env H. split_ok. by apply subquery_ok.
  - intros f es st d u Hes env H. split_ok. destruct st; [done|]. simpl. split_ok. by eapply exprs_supported.
  - intros p q a Hq env H. by eapply derived_ok.
  - intros p c q a _ Hq env H. destruct (negb _); [done|]. by eapply derived_ok.
  - intros n env H. by apply native_ok.
  - intros s Hs env H. by apply select_ok.
  - intros l r op Hl Hr env H. split_ok. rewrite andb_true_iff. split; [by apply Hl|by apply Hr].
Qed.
#[local] Transparent writeSubquery sep_by.

Lemma expression_supported e : SE e.
Proof. exact (expression_all _ _ _ support_cases e). Qed.
Lemma bodies_supported b : SB b.
Proof. exact (body_all _ _ _ support_cases b). Qed.

Lemma renderStatement_ok d op v w stmt :
  renderStatement d op v w = Ok stmt -> v = Ok tt /\ succeeds (w (initial_env d)).
Proof.
  unfold renderStatement. destruct v as [[]|]; [|done]. destruct (w _ _) as [st|] eqn:E; [|done].
  intros _. split; [done|]. by exists initial_state, st.
Qed.

(** ** Write statements *)
Definition returning_supported (d : Dialect) (l : list Projection) : bool :=
  (length l =? 0) || (d_Supports d CapabilityReturning && forallb (proj_supported (expr_supported d)) l).
Definition assignments_supported (d : Dialect) (l : list Assignment) : bool :=
  forallb (fun a => defaultValue a || expr_supported d (a_value a)) l.
Definition insert_supported (d : Dialect) (s : Insert) : bool :=
  if defaultValues s then d_Supports d CapabilityDefaultValues || d_Supports d CapabilityEmptyInsert
  else match selectSource s with
       | Some q => body_supported d (rq_body q)
       | None => forallb (forallb (expr_supported d)) (rows s)
       end.
(** Without a predicate a write must have been allowed explicitly, and a
    predicate whose subqueries read the target needs a dialect that can run
    it. *)
Definition predicate_supported (d : Dialect) (where_ : expression) (allowAll reads_target : bool) : bool :=
  (negb (is_nil where_) || allowAll)
  && (d_Supports d CapabilityWriteSubqueryTarget || negb reads_target)
  && optional_supported (expr_supported d) where_.

Definition upsert_supported (d : Dialect) (s : Upsert) : bool :=
  d_Supports d CapabilityUpsert
  && (negb (0 <? length (up_conflict s)) || d_Supports d CapabilityConflictTarget)
  && (is_nil (conflictWhere s) || d_Supports d CapabilityUpsertConflictWhere)
  && (is_nil (updateWhere s) || d_Supports d CapabilityUpsertUpdateWhere)
  && (negb (defaultValues (up_insert s)) || d_Supports d CapabilityDefaultValuesUpsert)
  && match d_UpsertStyle d with
     | UpsertUnsupported => false
     | UpsertOnConflict =>
         ((length (up_assignments s) =? 0) || (0 <? length (up_conflict s)))
         && ((length (up_conflict s) =? 0) || optional_supported (expr_supported d) (conflictWhere s))
         && ((length (up_assignments s) =? 0) || optional_supported (expr_supported d) (updateWhere s))
     | UpsertDuplicateKey => negb (length (up_assignments s) =? 0)
     end
  && insert_supported d (up_insert s)
  && assignments_supported d (up_assignments s).

Lemma upsert_problem_none env s :
  upsert_problem env s = None ->
  supports env CapabilityUpsert = true /\
  negb (0 <? length (up_conflict s)) || supports env CapabilityConflictTarget = true /\
  is_nil (conflictWhere s) || supports env CapabilityUpsertConflictWhere = true /\
  is_nil (updateWhere s) || supports env CapabilityUpsertUpdateWhere = true /\
  negb (defaultValues (up_insert s)) || supports env CapabilityDefaultValuesUpsert = true.
Proof.
  unfold upsert_problem.
  destruct (supports env CapabilityUpsert); [|done].
  destruct (is_nil (conflictWhere s)), (supports env CapabilityUpsertConflictWhere),
    (is_nil (updateWhere s)), (supports env CapabilityUpsertUpdateWhere),
    (bool_decide _), (0 <? length (up_conflict s)), (supports env CapabilityConflictTarget),
    (defaultValues (up_insert s)), (supports env CapabilityDefaultValuesUpsert); done.
Qed.

Definition write_supported (d : Dialect) (w : WriteStatement) : bool :=
  match w with
  | WInsert s => insert_supported d s && returning_supported d (i_returning s)
  | WUpdate s =>
      predicate_supported d (u_where s) (u_allowAll s) (update_reads_target s)
      && assignments_supported d (u_sets s) && returning_supported d (u_returning s)
  | WDelete s =>
      predicate_supported d (d_where s) (d_allowAll s) (delete_reads_target s)
      && returning_supported d (d_returning s)
  | WUpsert s => upsert_supported d s && returning_supported d (up_returning s)
  | WNil => false
  end.

Lemma returning_ok env l : succeeds (writeReturning env l) -> returning_supported (dialect env) l = true.
Proof.
  unfold writeReturning, returning_supported. destruct l as [|p l]; [done|]. intros H. split_ok.
  unfold supports in *. simpl length. rewrite orb_false_l, andb_true_iff. split; [done|].
  apply forallb_Forall. match goal with K : succeeds (sep_by _ _ _) |- _ => apply succeeds_sep_by in K; rename K into HS end.
  eapply Forall_impl; [exact HS|]. intros p' Hp. unfold writeReturningProjection in Hp.
  assert (succeeds (writeProjection writeExpression env p') ->
          proj_supported (expr_supported (dialect env)) p' = true) as Hpr.
  { apply projection_supported. destruct p'; simpl; [done|exact (relation_all _ _ _ support_cases _)|apply expression_supported]. }
  destruct p' as [|r c|e a]; [by apply Hpr|done|]. simpl in *. destruct e; auto.
Qed.

Lemma exprs_ok env sep l :
  succeeds (sep_by sep (writeExpression env) l) -> forallb (expr_supported (dialect env)) l = true.
Proof. apply exprs_supported. apply Forall_true. intros e. apply expression_supported. Qed.

Lemma where_ok env (w : string) e :
  succeeds (if is_nil e then skip else out w ;; writeExpression env e) ->
  optional_supported (expr_supported (dialect env)) e = true.
Proof. apply optional_ok. intros H. split_ok. by apply expression_supported. Qed.

Lemma assignments_ok env l :
  succeeds (sep_by ", " (writeAssignment env) l) -> assignments_supported (dialect env) l = true.
Proof.
  intros H%succeeds_sep_by. apply forallb_Forall. eapply Forall_impl; [exact H|]. intros a Ha.
  unfold writeAssignment in Ha. split_ok. destruct (defaultValue a); [done|]. by apply expression_supported.
Qed.

Lemma insert_ok_of env s : succeeds (writeInsertBase env s) -> insert_supported (dialect env) s = true.
Proof.
  intros (st & st' & H). unfold writeInsertBase in H.
  destruct (quoteQualified _ _ _) as [t|]; [|done]. match type of H with ?w st = _ => assert (succeeds w) as K by (by exists st, st') end.
  clear H. split_ok. unfold insert_supported, supports in *. destruct (defaultValues s).
  - destruct (d_Supports _ CapabilityDefaultValues); [done|].
    destruct (d_Supports _ CapabilityEmptyInsert); [done|by split_ok].
  - split_ok. destruct (selectSource s) as [q|]; split_ok.
    + by apply bodies_supported.
    + match goal with K : succeeds (sep_by _ _ _) |- _ => apply succeeds_sep_by in K; rename K into HS end.
      apply forallb_Forall. eapply Forall_impl; [exact HS|]. intros row Hr. unfold writeRow in Hr. split_ok.
      by eapply exprs_ok.
Qed.

Lemma on_conflict_ok env s style :
  succeeds (writeOnConflict env s style) ->
  (length (up_assignments s) =? 0) || (0 <? length (up_conflict s)) = true /\
  (length (up_conflict s) =? 0) || optional_supported (expr_supported (dialect env)) (conflictWhere s) = true /\
  (length (up_assignments s) =? 0) || optional_supported (expr_supported (dialect env)) (updateWhere s) = true /\
  assignments_supported (dialect env) (up_assignments s) = true.
Proof.
  unfold writeOnConflict. intros H. split_ok.
  destruct (up_conflict s) as [|c cs], (up_assignments s) as [|a l]; simpl in *; try done; split_ok;
    split_and!; try done.
  - by eapply where_ok.
  - by eapply where_ok.
  - by eapply (where_ok (excluding style env)).
  - by apply (assignments_ok (excluding style env) (a :: l)).
Qed.

Lemma upsert_ok_of env s :
  succeeds (writeUpsert env s) ->
  upsert_supported (dialect env) s = true /\ returning_supported (dialect env) (up_returning s) = true.
Proof.
  unfold writeUpsert. destruct (upsert_problem env s) as [e|] eqn:P; [by intros H%succeeds_err|].
  apply upsert_problem_none in P as (P1 & P2 & P3 & P4 & P5). unfold supports in *.
  intros H. split_ok. split; [|by apply returning_ok].
  apply insert_ok_of in H. unfold upsert_supported. rewrite H, P1, P2, P3, P4, P5.
  destruct (d_UpsertStyle (dialect env)); [by split_ok| |].
  - match goal with K : succeeds (writeOnConflict _ _ _) |- _ => apply on_conflict_ok in K as (-> & -> & -> & ->) end.
    done.
  - unfold writeOnDuplicateKey in *. split_ok. rewrite !andb_true_iff. split_and!; try done.
    by eapply (assignments_ok (excluding UpsertDuplicateKey env)).
Qed.

Lemma predicate_ok env e allow reads (w : string) :
  negb (is_nil e && negb allow) = true ->
  supports env CapabilityWriteSubqueryTarget || negb reads = true ->
  succeeds (if is_nil e then skip else out w ;; writeExpression env e) ->
  predicate_supported (dialect env) e allow reads = true.
Proof.
  intros H1 H2 H3%where_ok. unfold predicate_supported, supports in *.
  rewrite H2, H3, !andb_true_r. by destruct (is_nil e), allow.
Qed.

Lemma write_ok d w stmt : Write d w = Ok stmt -> write_supported d w = true.
Proof.
  destruct w as [s|s|s|s|]; simpl; intros H; [..|done]; apply renderStatement_ok in H as [_ H].
  - unfold writeInsert in H. split_ok. rewrite andb_true_iff.
    split; [by apply (insert_ok_of (initial_env d))|by apply (returning_ok (initial_env d))].
  - unfold writeUpdate in H. split_ok. rewrite !andb_true_iff. split_and!.
    + by eapply (predicate_ok (initial_env d)).
    + by apply (assignments_ok (initial_env d)).
    + by apply (returning_ok (initial_env d)).
  - unfold writeDelete in H. split_ok. rewrite !andb_true_iff. split.
    + by eapply (predicate_ok (initial_env d)).
    + by apply (returning_ok (initial_env d)).
  - apply (upsert_ok_of (initial_env d)) in H as [H1 H2]. by apply andb_true_iff.
Qed.

(** ** What the write-target walk reaches *)

(** The expressions a statement's own clauses hold, joins and ORDER BY
    included. *)
Definition clause_expressions (s : Select) : list expression :=
  (join_on <$> joins s)
  ++ flat_map (fun p => match p with PExpr e _ => [e] | _ => [] end) (projections s)
  ++ [where_ s] ++ groupBy s ++ [having s] ++ (o_expression <$> orderBy s).

(** The subqueries reachable from an expression through the nodes the walk
    names. *)
Inductive reaches : expression -> Select -> Prop :=
| reaches_subquery s : reaches (ESubquery s) s
| reaches_exists s n : reaches (EExistence s n) s
| reaches_in e vs n s : reaches (EMembership e vs n (Some s)) s
| reaches_inside e s s' x : reaches e s -> x ∈ clause_expressions s -> reaches x s' -> reaches e s'
| reaches_left l op r s : reaches l s -> reaches (EBinary l op r) s
| reaches_right l op r s : reaches r s -> reaches (EBinary l op r) s
| reaches_logical op es e s : e ∈ es -> reaches e s -> reaches (ELogical op es) s
| reaches_not e s : reaches e s -> reaches (ENot e) s
| reaches_null e n s : reaches e s -> reaches (ENullTest e n) s
| reaches_member e vs n q s : reaches e s -> reaches (EMembership e vs n q) s
| reaches_value e vs n q v s : v ∈ vs -> reaches v s -> reaches (EMembership e vs n q) s
| reaches_argument f es st di u e s : e ∈ es -> reaches e s -> reaches (EFunction f es st di u) s.

(** FROM or a join of [s] is the table [t]. *)
Definition lists_table (t : TableRef) (s : Select) : Prop :=
  Exists (fun r => source_is r t = true) (from s :: (join_source <$> joins s)).

Definition walk_finds (e : expression) : Prop := forall t,
  expressionReadsWriteTarget e t = true <-> exists s, reaches e s /\ lists_table t s.

Definition select_walk (t : TableRef) (s : Select) : bool :=
  selectReadsWriteTarget expressionReadsWriteTarget s t.

Lemma guard_nil e t : negb (is_nil e) && expressionReadsWriteTarget e t = expressionReadsWriteTarget e t.
Proof. by destruct e. Qed.

Lemma existsb_Exists {A} (p : A -> bool) l : existsb p l = true <-> Exists (fun x => p x = true) l.
Proof.
  induction l as [|x l IH]; simpl; [by rewrite Exists_nil|]. by rewrite orb_true_iff, Exists_cons, IH.
Qed.
Lemma Exists_fmap {A B} (f : A -> B) (P : B -> Prop) l : Exists P (f <$> l) <-> Exists (fun x => P (f x)) l.
Proof. induction l as [|x l IH]; simpl; [by rewrite !Exists_nil|]. by rewrite !Exists_cons, IH. Qed.
Lemma Exists_iff {A} (P Q : A -> Prop) l : (forall x, P x <-> Q x) -> Exists P l <-> Exists Q l.
Proof. intros H. split; intros K; (eapply Exists_impl; [exact K|]); intros x; apply H. Qed.
Lemma Exists_or_split {A} (P Q : A -> Prop) l : Exists (fun x => P x \/ Q x) l <-> Exists P l \/ Exists Q l.
Proof.
  induction l as [|x l IH]; [rewrite !Exists_nil; tauto|]. rewrite !Exists_cons, IH. tauto.
Qed.

Definition projected_expressions (p : Projection) : list expression :=
  match p with PExpr e _ => [e] | _ => [] end.
Lemma projected_exists t ps :
  Exists (fun p => projectedReads expressionReadsWriteTarget p t = true) ps <->
  Exists (fun x => expressionReadsWriteTarget x t = true) (flat_map projected_expressions ps).
Proof.
  induction ps as [|p ps IH]; simpl; [by rewrite !Exists_nil|].
  rewrite Exists_cons, Exists_app, IH. destruct p; simpl; rewrite ?Exists_cons, ?Exists_nil; intuition congruence.
Qed.

Lemma select_walk_iff t s :
  select_walk t s = true <->
  lists_table t s \/ exists x, x ∈ clause_expressions s /\ expressionReadsWriteTarget x t = true.
Proof.
  transitivity (lists_table t s \/ Exists (fun x => expressionReadsWriteTarget x t = true) (clause_expressions s));
    [|by rewrite Exists_exists].
  unfold select_walk, selectReadsWriteTarget, lists_table, clause_expressions.
  fold projected_expressions.
  rewrite !orb_true_iff, !guard_nil, !existsb_Exists, !Exists_app, !Exists_cons, !Exists_nil, !Exists_fmap, projected_exists.
  rewrite (Exists_iff (fun o => negb (is_nil (o_expression o)) && _ = true)
             (fun o => expressionReadsWriteTarget (o_expression o) t = true))
    by (intros o; by rewrite guard_nil).
  rewrite (Exists_iff (fun j => _ || _ = true)
             (fun j => source_is (join_source j) t = true \/ expressionReadsWriteTarget (join_on j) t = true))
    by (intros j; by rewrite orb_true_iff).
  rewrite Exists_or_split. tauto.
Qed.

Definition reads_back (e : expression) : Prop := forall t,
  expressionReadsWriteTarget e t = true -> exists s, reaches e s /\ lists_table t s.

Lemma list_reads_back t l :
  Forall reads_back l -> existsb (fun e => expressionReadsWriteTarget e t) l = true ->
  exists e s, e ∈ l /\ reaches e s /\ lists_table t s.
Proof.
  intros Hl H%existsb_Exists. apply Exists_exists in H as (e & Hin & H).
  rewrite Forall_forall in Hl. destruct (Hl e Hin t H) as (s & ? & ?). eauto.
Qed.

Lemma in_clauses_ok s x :
  select_all reads_back (fun _ => True) (fun _ => True) s -> x ∈ clause_expressions s -> reads_back x.
Proof.
  intros [Hp _ _ _ Hj Hw Hg Hh Ho]. unfold clause_expressions.
  assert (Forall reads_back ((join_on <$> joins s)
    ++ flat_map (fun p => match p with PExpr e _ => [e] | _ => [] end) (projections s)
    ++ [where_ s] ++ groupBy s ++ [having s] ++ (o_expression <$> orderBy s))) as H;
    [|by rewrite Forall_forall in H; apply H].
  rewrite !Forall_app, !Forall_singleton, !Forall_fmap. split_and!; try done.
  - eapply Forall_impl; [exact Hj|]. by intros j [_ ?].
  - apply Forall_flat_map. eapply Forall_impl; [exact Hp|]. intros [| |e a] Hx; constructor; [exact Hx|constructor].
  - eapply Forall_impl; [exact Ho|]. by intros o [? _].
Qed.

Lemma select_back e s t :
  reaches e s -> select_all reads_back (fun _ => True) (fun _ => True) s -> select_walk t s = true ->
  exists s', reaches e s' /\ lists_table t s'.
Proof.
  intros Hr Hs H. apply select_walk_iff in H as [H|(x & Hx & H)]; [eauto|].
  destruct (in_clauses_ok s x Hs Hx t H) as (s' & ? & ?). exists s'. split; [|done]. by eapply reaches_inside.
Qed.

Lemma reads_back_cases : induction_cases reads_back (fun _ => True) (fun _ => True).
Proof.
  split; unfold reads_back; simpl; try done.
  - intros l op r Hl Hr t [H|H]%orb_true_iff; [apply Hl in H as (s & ? & ?)|apply Hr in H as (s & ? & ?)];
      exists s; split; try done; [by apply reaches_left|by apply reaches_right].
  - intros op es Hes t H. apply (list_reads_back _ _ Hes) in H as (e & s & ? & ? & ?).
    exists s. split; [|done]. by eapply reaches_logical.
  - intros e He t H. apply He in H as (s & ? & ?). exists s. split; [|done]. by constructor.
  - intros e n He t H. apply He in H as (s & ? & ?). exists s. split; [|done]. by constructor.
  - intros e vs n He Hvs t [H|H]%orb_true_iff.
    + apply He in H as (s & ? & ?). exists s. split; [|done]. by constructor.
    + apply (list_reads_back _ _ Hvs) in H as (v & s & ? & ? & ?). exists s. split; [|done]. by eapply reaches_value.
  - intros e vs n s He Hvs Hs t [[H|H]%orb_true_iff|H]%orb_true_iff.
    + by apply (select_back _ s t (reaches_in e vs n s)) in H.
    + apply He in H as (s' & ? & ?). exists s'. split; [|done]. by constructor.
    + apply (list_reads_back _ _ Hvs) in H as (v & s' & ? & ? & ?). exists s'. split; [|done]. by eapply reaches_value.
  - intros s Hs t H. by apply (select_back _ s t (reaches_subquery s)) in H.
  - intros s n Hs t H. by apply (select_back _ s t (reaches_exists s n)) in H.
  - intros f es st di u Hes t H. apply (list_reads_back _ _ Hes) in H as (e & s & ? & ? & ?).
    exists s. split; [|done]. by eapply reaches_argument.
Qed.

Lemma existsb_in {A} (p : A -> bool) l x : x ∈ l -> p x = true -> existsb p l = true.
Proof. intros H1 H2. apply existsb_Exists, Exists_exists. eauto. Qed.

Lemma reaches_reads e s t : reaches e s -> select_walk t s = true -> expressionReadsWriteTarget e t = true.
Proof.
  intros H. induction H; intros Ht; simpl; fold (select_walk t); try (by rewrite Ht); try auto.
  - fold (select_walk t s). by rewrite Ht.
  - apply IHreaches1, select_walk_iff. right. exists x. auto.
  - by rewrite IHreaches.
  - rewrite IHreaches by done. apply orb_true_r.
  - by eapply existsb_in; [done|]; auto.
  - rewrite IHreaches by done. by rewrite orb_true_r.
  - rewrite (existsb_in _ _ v) by auto. apply orb_true_r.
  - by eapply existsb_in; [done|]; auto.
Qed.

Lemma walk_exact e : walk_finds e.
Proof.
  intros t. split; [apply (expression_all _ _ _ reads_back_cases e t)|].
  intros (s & Hr & Hl). eapply reaches_reads; [exact Hr|]. apply select_walk_iff. by left.
Qed.

Lemma result_supported d q stmt : Result_ d q = Ok stmt -> body_supported d (rq_body q) = true.
Proof.
  intros H. apply renderStatement_ok in H as [_ H]. destruct (bodyCorrelations (rq_body q)).
  - by apply (bodies_supported (rq_body q) (initial_env d)).
  - by apply succeeds_err in H.
Qed.

(** ** Claims *)

(** Capability soundness of queries: a SELECT or reusable result that
    renders for a dialect uses nothing the dialect does not support, anywhere
    in it - MATCH, FILTER, the lock strength and its OF, NOWAIT and SKIP LOCKED
    options, LIMIT under IN, CAST types, native bodies of its engine only -
    however deeply it is nested. *)
Lemma queries_supported (d : Dialect) :
  (forall s stmt, Select_ d s = Ok stmt -> statement_supported d s = true) /\
  (forall q stmt, Result_ d q = Ok stmt -> body_supported d (rq_body q) = true).
Proof.
  split.
  - intros s stmt H. apply renderStatement_ok in H as [_ H]. destruct (correlations s).
    + by apply (bodies_supported (BSelect s) (initial_env d)).
    + by apply succeeds_err in H.
  - apply result_supported.
Qed.

Definition sample_locked : Select :=
  or_zero (WithLock sample_select (MkLock LockUpdate [] LockWaitSkipLocked)).

Lemma queries_supported_witness :
  is_ok (Select_ MySQL sample_locked) = true /\ is_ok (Select_ SQLite sample_locked) = false /\
  statement_supported MySQL sample_locked = true.
Proof.
  split; [vm_compute; reflexivity|]. split; [vm_compute; reflexivity|].
  destruct (Select_ MySQL sample_locked) as [stmt|e] eqn:E.
  - exact (proj1 (queries_supported MySQL) sample_locked stmt E).
  - exfalso. revert E. vm_compute. discriminate.
Defined.

(** Capability soundness of writes: a write that renders uses RETURNING,
    default values, conflict targets, conflict and update predicates, default
    values in an upsert, and every expression construct only where the dialect
    supports it; an UPDATE or DELETE has a predicate unless all rows were
    allowed explicitly; an upsert is in the dialect's style, with a conflict
    target or assignments where that style needs them. *)
Lemma writes_supported (d : Dialect) (w : WriteStatement) (stmt : Statement) :
  Write d w = Ok stmt -> write_supported d w = true.
Proof. apply write_ok. Qed.

Lemma writes_supported_witness :
  is_ok (Write PostgreSQL (WUpsert write_upsert)) = true /\
  write_supported PostgreSQL (WUpsert write_upsert) = true /\
  is_ok (Write MySQL (WUpsert write_upsert)) = false.
Proof.
  split; [vm_compute; reflexivity|]. split; [|vm_compute; reflexivity].
  destruct (Write PostgreSQL (WUpsert write_upsert)) as [stmt|e] eqn:E.
  - exact (writes_supported PostgreSQL (WUpsert write_upsert) stmt E).
  - exfalso. revert E. vm_compute. discriminate.
Defined.

(** The write-target walk: it answers yes exactly when some subquery
    reachable through the nodes it names lists the target in FROM or a join;
    so an UPDATE or DELETE rendered for a dialect that cannot run such a
    statement contains none in its predicate or, for UPDATE, its values. *)
Lemma write_target_walk (d : Dialect) :
  (forall e t, expressionReadsWriteTarget e t = true <-> exists s, reaches e s /\ lists_table t s) /\
  (d_Supports d CapabilityWriteSubqueryTarget = false ->
   (forall u stmt e q, Write d (WUpdate u) = Ok stmt -> e ∈ u_where u :: (a_value <$> u_sets u) ->
      reaches e q -> ~ lists_table (u_table u) q) /\
   (forall x stmt q, Write d (WDelete x) = Ok stmt -> reaches (d_where x) q -> ~ lists_table (d_from x) q)).
Proof.
  split; [apply walk_exact|]. intros Hd.
  assert (forall e q t, reaches e q -> lists_table t q -> expressionReadsWriteTarget e t = true) as W
    by (intros e q t ? ?; apply walk_exact; eauto).
  split.
  - intros u stmt e q H%write_ok Hin Hr Hl. simpl in H. unfold predicate_supported in H.
    rewrite Hd, !andb_true_iff in H. destruct H as [[[[_ H] _] _] _].
    apply negb_true_iff in H. unfold update_reads_target in H.
    apply orb_false_iff in H as [H1 H2]. rewrite guard_nil in H1.
    apply elem_of_cons in Hin as [->|(a & -> & Ha)%list_elem_of_fmap].
    + by rewrite (W _ _ _ Hr Hl) in H1.
    + by rewrite (existsb_in _ _ a Ha (W _ _ _ Hr Hl)) in H2.
  - intros x stmt q H%write_ok Hr Hl. simpl in H. unfold predicate_supported in H.
    rewrite Hd, !andb_true_iff in H. destruct H as [[[_ H] _] _].
    apply negb_true_iff in H. unfold delete_reads_target in H. rewrite guard_nil in H.
    by rewrite (W _ _ _ Hr Hl) in H.
Qed.

(** [DELETE FROM users WHERE id IN (SELECT id FROM other)] on MySQL, and the
    same reading [users]. *)
Definition sub_select (table : string) : Select :=
  let t := RelTable (TableRefFrom (table_of "" table "" 0 [column_of "id" None false])) in
  or_zero (NewSelect t [PColumn t "id"]).
Definition in_delete (table : string) : Delete :=
  MkDelete write_table (InSelect (OpRef (RelTable write_table) "id") (sub_select table)) [] false.

Lemma write_target_walk_witness :
  is_ok (Write MySQL (WDelete (in_delete "other"))) = true /\
  is_ok (Write MySQL (WDelete (in_delete "users"))) = false /\
  ~ lists_table write_table (sub_select "other").
Proof.
  split; [vm_compute; reflexivity|]. split; [vm_compute; reflexivity|].
  destruct (Write MySQL (WDelete (in_delete "other"))) as [stmt|e] eqn:E.
  - refine (proj2 (proj2 (write_target_walk MySQL) _) (in_delete "other") stmt _ E _).
    + reflexivity.
    + vm_compute. apply reaches_in.
  - exfalso. revert E. vm_compute. discriminate.
Defined.

(** ** What the renderer lets through *)

(** The walk does not descend into CAST: on MySQL a DELETE whose predicate
    casts a subquery over the target is rendered. *)
Definition cast_delete : Delete :=
  MkDelete write_table
    (Equal (OpExpression (ECast (ESubquery (sub_select "users")) (Some (IntegerType false None false)))) (OpPlain (any_int 1)))
    [] false.

Lemma cast_hides_target :
  d_Supports MySQL CapabilityWriteSubqueryTarget = false /\
  is_ok (Write MySQL (WDelete cast_delete)) = true.
Proof. split; vm_compute; reflexivity. Qed.

(** [writeInsertBase] renders its source query's body without the refusal
    [Select] and [Result] make: an INSERT ... SELECT whose SELECT correlates
    with a table outside it renders, reading a table no clause lists. *)
Definition outer_table : TableRef :=
  TableRefFrom (table_of "" "outer_t" "" 0 [column_of "id" None false]).
Definition correlated_source : Select :=
  or_zero (do s <- NewCorrelatedSelect (RelTable write_table) [RelTable outer_table]
                     [PColumn (RelTable write_table) "id"];
           WithWhere s (Equal (OpRef (RelTable write_table) "id") (OpRef (RelTable outer_table) "id"))).
Definition correlated_insert : Insert :=
  MkInsert write_table [write_column "id"] [] false
    (Some (MkResultQuery (BSelect correlated_source) [MkResultColumn "id" (Some (IntegerType false None false)) false ""])) [].

Lemma correlated_insert_renders :
  is_ok (Select_ PostgreSQL correlated_source) = false /\
  is_ok (Write PostgreSQL (WInsert correlated_insert)) = true.
Proof. split; vm_compute; reflexivity. Qed.

(** A window's ORDER BY term renders the same with and without its NULL
    placement. *)
Lemma window_order_drops_nulls env v p :
  writeWindowOrder writeExpression env (AscNulls v p) = writeWindowOrder writeExpression env (Asc v) /\
  writeWindowOrder writeExpression env (DescNulls v p) = writeWindowOrder writeExpression env (Desc v).
Proof. split; reflexivity. Qed.
