(* ===== verification/QueryCompile.v ===== *)
(** * QueryCompile: [internal/querycompile]

    A compiler retains an engine profile and a dialect: what it compiles is
    checked against the profile's capabilities, rendered for the dialect the
    profile constrains, and refused when it binds more values than the
    profile's limit.  [NativeEngines] lists the engines of the native SQL a
    result embeds.  Pointers to statements and expressions are their values. *)

From S2P Require Import Prelude GoText Schema SqlScan Dialect EngineProfile Query QueryValidate QuerySelect QueryWrite Render RenderWrite RenderLayout RenderSafety.
Open Scope string_scope.
Open Scope list_scope.
Open Scope nat_scope.

Definition unsupported (feature : string) : error := ProfileError ErrUnsupportedFeature feature (feature +:+ " is not supported").

(** ** [capabilities.go] *)
Section Capabilities.
Variable p : Profile.
Let caps := p_Capabilities p.
Definition placement_supported (o : Order) : result unit :=
  if negb (N.eqb (nullPlacement o) NullPlacementDefault) && negb (ExplicitNullOrdering caps)
  then Err (unsupported "explicit NULL ordering") else Ok tt.
Section Walk.
Variable expr_caps : expression -> result unit.
Variable rel_caps : relation -> result unit.
Variable body_caps : body -> result unit.
Definition order_caps (o : Order) : result unit := check placement_supported o; expr_caps (o_expression o).
Definition cte_caps (c : CTE) : result unit :=
  if body_is_nil (rq_body (cte_query c)) then Ok tt else body_caps (rq_body (cte_query c)).
Definition projection_caps (x : Projection) : result unit :=
  match x with PExpr e _ => expr_caps e | _ => Ok tt end.
Definition select_caps (s : Select) : result unit :=
  check rel_caps (from s);
  check checki (fun _ c => cte_caps c) 0 (ctes s);
  check checki (fun _ x => projection_caps x) 0 (projections s);
  check expr_caps (where_ s);
  check checki (fun _ e => expr_caps e) 0 (groupBy s);
  check expr_caps (having s);
  check checki (fun _ o => order_caps o) 0 (orderBy s);
  checki (fun _ j => check rel_caps (join_source j); expr_caps (join_on j)) 0 (joins s).
End Walk.
Fixpoint validateExpressionCapabilities (e : expression) {struct e} : result unit :=
  let select := select_caps validateExpressionCapabilities relation_caps validateBodyCapabilities in
  match e with
  | EFragment _ parts => checki (fun _ x => match x with fragmentHole v => validateExpressionCapabilities v | _ => Ok tt end) 0 parts
  | EOver x partition order =>
      if negb (WindowFunctions caps) then Err (unsupported "window functions")
      else
        check validateExpressionCapabilities x;
        check checki (fun _ x => validateExpressionCapabilities x) 0 partition;
        checki (fun _ o => order_caps validateExpressionCapabilities o) 0 order
  | EBinary l _ r => check validateExpressionCapabilities l; validateExpressionCapabilities r
  | ELogical _ l => checki (fun _ x => validateExpressionCapabilities x) 0 l
  | ENot x => validateExpressionCapabilities x
  | ENullTest x _ => validateExpressionCapabilities x
  | EMembership x values _ subquery =>
      check validateExpressionCapabilities x;
      check checki (fun _ x => validateExpressionCapabilities x) 0 values;
      match subquery with Some s => select s | None => Ok tt end
  | ESubquery s => select s
  | EExistence s _ => select s
  | EFunction _ arguments _ _ _ => checki (fun _ x => validateExpressionCapabilities x) 0 arguments
  | EFilter aggregate predicate => check validateExpressionCapabilities aggregate; validateExpressionCapabilities predicate
  | ECast x _ => validateExpressionCapabilities x
  | ECase operand branches fallback hasFallback =>
      check validateExpressionCapabilities operand;
      check checki (fun _ b => match b with (predicate, x) => check validateExpressionCapabilities predicate; validateExpressionCapabilities x end) 0 branches;
      if hasFallback then validateExpressionCapabilities fallback else Ok tt
  | _ => Ok tt
  end
with relation_caps (r : relation) {struct r} : result unit :=
  match r with RelResult _ q _ | RelCTE _ _ q _ => validateBodyCapabilities (rq_body q) | _ => Ok tt end
with validateBodyCapabilities (b : body) {struct b} : result unit :=
  match b with
  | BSelect s => select_caps validateExpressionCapabilities relation_caps validateBodyCapabilities s
  | BCompound l r _ => check validateBodyCapabilities (rq_body l); validateBodyCapabilities (rq_body r)
  | _ => Ok tt
  end.
End Capabilities.
Definition validateResultCapabilities (p : Profile) (q : ResultQuery) : result unit := validateBodyCapabilities p (rq_body q).
Definition validateExpressionList (p : Profile) (l : list expression) : result unit :=
  checki (fun _ e => validateExpressionCapabilities p e) 0 l.

(** The RETURNING check, and whether it is an INSERT that returns. *)
Definition returning_caps (p : Profile) (returning : list Projection) (inserts : bool) : result unit :=
  check checki (fun _ x => projection_caps (validateExpressionCapabilities p) x) 0 returning;
  if length returning =? 0 then Ok tt
  else
    let form := Returning (p_Capabilities p) in
    if negb (N.eqb form ReturningInsert || N.eqb form ReturningInsertUpdateDelete) then Err (unsupported "RETURNING")
    else if negb inserts && negb (N.eqb form ReturningInsertUpdateDelete) then Err (unsupported "RETURNING on this write")
    else Ok tt.
Definition insert_caps (p : Profile) (s : Insert) : result unit :=
  check returning_caps p (i_returning s) true;
  match selectSource s with
  | Some source => validateResultCapabilities p source
  | None => checki (fun _ row => validateExpressionList p row) 0 (rows s)
  end.
Definition validateWriteCapabilities (p : Profile) (s : WriteStatement) : result unit :=
  match s with
  | WNil => Err (errors_New "write statement must not be nil")
  | WInsert s => insert_caps p s
  | WUpdate s =>
      check returning_caps p (u_returning s) false;
      check checki (fun _ a =>
        if defaultValue a && negb (N.eqb (UpdateDefault (p_Capabilities p)) UpdateDefaultExpression) then Err (unsupported "UPDATE DEFAULT")
        else validateExpressionCapabilities p (a_value a)) 0 (u_sets s);
      validateExpressionCapabilities p (u_where s)
  | WDelete s =>
      check returning_caps p (d_returning s) false;
      validateExpressionCapabilities p (d_where s)
  | WUpsert s =>
      check returning_caps p (up_returning s) true;
      check checki (fun _ a => validateExpressionCapabilities p (a_value a)) 0 (up_assignments s);
      check validateExpressionCapabilities p (conflictWhere s);
      check validateExpressionCapabilities p (updateWhere s);
      insert_caps p (up_insert s)
  end.

(** ** [compiler.go] *)
Record Compiler := MkCompiler { profile : Profile; compiler_dialect : Dialect }.
Definition dialectFor (p : Profile) : result Dialect :=
  if N.eqb (Engine p) PostgreSQL_ then Ok PostgreSQL
  else if N.eqb (Engine p) MySQL_ then Ok MySQL
  else if N.eqb (Engine p) SQLite_ then Ok SQLite
  else Err (Errorf "%w: custom profile %q requires an explicit dialect adapter" [AErr (errors_New ErrUnsupportedFeature); AStr (CustomName p)]).
Definition New (p : Profile) : result Compiler :=
  check Validate_profile p;
  do d <- dialectFor p;
  Ok (MkCompiler p (ConstrainDialect p d)).
Definition NewWithDialect (p : Profile) (d : option Dialect) : result Compiler :=
  check Validate_profile p;
  check ValidateDialect d p;
  match d with Some d => Ok (MkCompiler p (ConstrainDialect p d)) | None => Err (invalid "dialect must not be nil") end.
Definition bind_limit (got limit : Z) : error :=
  ProfileError ErrBindLimit "bind parameters" ("got " +:+ Itoa got +:+ ", limit " +:+ Itoa limit).
(** A statement within the profile's limit of bound values. *)
Definition within_limit (c : Compiler) (s : Statement) : result Statement :=
  let got := Z.of_nat (length (stmt_args s)) in
  let limit := MaxBindParameters (profile c) in
  if (limit <? got)%Z then Err (bind_limit got limit) else Ok s.
Definition Compiler_Select (c : Compiler) (q : ResultQuery) : result Statement :=
  check Validate_profile (profile c);
  check validateResultCapabilities (profile c) q;
  do s <- Result_ (compiler_dialect c) q;
  within_limit c s.
Definition Compiler_Write (c : Compiler) (q : WriteStatement) : result Statement :=
  check Validate_profile (profile c);
  check validateWriteCapabilities (profile c) q;
  do s <- Write (compiler_dialect c) q;
  within_limit c s.
Definition Compiler_Native (c : Compiler) (s : Statement) : result Statement :=
  check Validate_profile (profile c);
  if String.eqb (TrimSpace (sql_text s)) "" then Err (errors_New "native statement SQL must not be blank")
  else within_limit c s.

(** ** [native_engines.go] *)
Section Engines.
Variable expr_engines : expression -> list string.
Variable rel_engines : relation -> list string.
Variable body_engines : body -> list string.
Definition collectSelect (s : Select) : list string :=
  rel_engines (from s)
  ++ flat_map (fun j => rel_engines (join_source j) ++ expr_engines (join_on j)) (joins s)
  ++ flat_map (fun c => body_engines (rq_body (cte_query c))) (ctes s)
  ++ flat_map (fun x => match x with PExpr e _ => expr_engines e | _ => [] end) (projections s)
  ++ expr_engines (where_ s)
  ++ flat_map expr_engines (groupBy s)
  ++ expr_engines (having s)
  ++ flat_map (fun o => expr_engines (o_expression o)) (orderBy s).
End Engines.
Fixpoint collectExpression (e : expression) {struct e} : list string :=
  let select := collectSelect collectExpression relation_engines collectBody in
  match e with
  | EFragment _ parts => flat_map (fun x => match x with fragmentHole v => collectExpression v | _ => [] end) parts
  | EOver x partition order => collectExpression x ++ flat_map collectExpression partition ++ flat_map (fun o => collectExpression (o_expression o)) order
  | EBinary l _ r => collectExpression l ++ collectExpression r
  | ELogical _ l => flat_map collectExpression l
  | ENot x => collectExpression x
  | ENullTest x _ => collectExpression x
  | EMembership x values _ subquery =>
      collectExpression x ++ flat_map collectExpression values ++ match subquery with Some s => select s | None => [] end
  | ESubquery s => select s
  | EExistence s _ => select s
  | EFunction _ arguments _ _ _ => flat_map collectExpression arguments
  | EFilter aggregate predicate => collectExpression aggregate ++ collectExpression predicate
  | ECast x _ => collectExpression x
  | ECase operand branches fallback hasFallback =>
      collectExpression operand
      ++ flat_map (fun b => match b with (predicate, x) => collectExpression predicate ++ collectExpression x end) branches
      ++ (if hasFallback then collectExpression fallback else [])
  | _ => []
  end
with relation_engines (r : relation) {struct r} : list string :=
  match r with RelResult _ q _ | RelCTE _ _ q _ => collectBody (rq_body q) | _ => [] end
with collectBody (b : body) {struct b} : list string :=
  match b with
  | BNative n => [engine n]
  | BSelect s => collectSelect collectExpression relation_engines collectBody s
  | BCompound l r _ => collectBody (rq_body l) ++ collectBody (rq_body r)
  | BNil => []
  end.
Definition NativeEngines (q : ResultQuery) : list string := collectBody (rq_body q).

(** ** What a query contains

    The nodes of a query and those directly below one: what its text is made
    of, not the relations its columns refer to. *)
Inductive node := NExpr (e : expression) | NOrder (o : Order) | NBody (b : body) | NSelect (s : Select).
Definition rel_nodes (r : relation) : list node :=
  match r with RelResult _ q _ | RelCTE _ _ q _ => [NBody (rq_body q)] | _ => [] end.
Definition projection_nodes (x : Projection) : list node := match x with PExpr e _ => [NExpr e] | _ => [] end.
Definition select_nodes (s : Select) : list node :=
  rel_nodes (from s)
  ++ map (fun c => NBody (rq_body (cte_query c))) (ctes s)
  ++ flat_map projection_nodes (projections s)
  ++ NExpr (where_ s) :: map NExpr (groupBy s)
  ++ NExpr (having s) :: map NOrder (orderBy s)
  ++ flat_map (fun j => rel_nodes (join_source j) ++ [NExpr (join_on j)]) (joins s).
Definition children (n : node) : list node :=
  match n with
  | NExpr e =>
      match e with
      | EFragment _ parts => flat_map (fun x => match x with fragmentHole v => [NExpr v] | _ => [] end) parts
      | EOver x partition order => NExpr x :: map NExpr partition ++ map NOrder order
      | EBinary l _ r => [NExpr l; NExpr r]
      | ELogical _ l => map NExpr l
      | ENot x | ENullTest x _ | ECast x _ => [NExpr x]
      | EMembership x values _ subquery => NExpr x :: map NExpr values ++ match subquery with Some s => [NSelect s] | None => [] end
      | ESubquery s | EExistence s _ => [NSelect s]
      | EFunction _ arguments _ _ _ => map NExpr arguments
      | EFilter aggregate predicate => [NExpr aggregate; NExpr predicate]
      | ECase operand branches fallback hasFallback =>
          NExpr operand :: flat_map (fun b => [NExpr b.1; NExpr b.2]) branches ++ (if hasFallback then [NExpr fallback] else [])
      | _ => []
      end
  | NOrder o => [NExpr (o_expression o)]
  | NBody b =>
      match b with
      | BSelect s => [NSelect s]
      | BCompound l r _ => [NBody (rq_body l); NBody (rq_body r)]
      | _ => []
      end
  | NSelect s => select_nodes s
  end.
Definition within : node -> node -> Prop := rtc (fun n m => m ∈ children n).

(** What holds of a node when it holds below it, holds of every node. *)
Section NodeInduction.
Variable P : node -> Prop.
Hypothesis step : forall n, Forall P (children n) -> P n.
Let PR (r : relation) : Prop := Forall P (rel_nodes r).
Lemma order_node o : order_all (fun e => P (NExpr e)) PR o -> P (NOrder o).
Proof. intros [H _]. apply step. by constructor. Qed.
Lemma Forall_flat {A B} (Q : B -> Prop) (f : A -> list B) l : Forall (fun a => Forall Q (f a)) l -> Forall Q (flat_map f l).
Proof. induction 1; simpl; [done|]. by apply Forall_app. Qed.
Lemma select_node s : select_all (fun e => P (NExpr e)) PR (fun b => P (NBody b)) s -> P (NSelect s).
Proof.
  intros [Hp Hf _ Hc Hj Hw Hg Hh Ho]. apply step. cbn [children]. unfold select_nodes.
  repeat first [apply Forall_app; split | constructor].
  all: try done; try (by apply Forall_fmap).
  - apply Forall_flat. eapply Forall_impl; [exact Hp|]. intros [|r c|e a]; simpl; [done..|]. by constructor.
  - apply Forall_fmap. eapply Forall_impl; [exact Ho|]. intros o. apply order_node.
  - apply Forall_flat. eapply Forall_impl; [exact Hj|]. intros j [H1 H2]. apply Forall_app. split; [done|]. by constructor.
Qed.
Lemma node_cases : induction_cases (fun e => P (NExpr e)) PR (fun b => P (NBody b)).
Proof.
  constructor; intros; try (by apply step); try (apply step; cbn [children]); unfold PR; cbn [rel_nodes];
    repeat first [assumption | apply Forall_app; split | constructor | by apply Forall_fmap | by apply select_node].
  - apply Forall_flat. eapply Forall_impl; [eassumption|]. intros [p r] [? ?]. by repeat constructor.
  - by destruct h; repeat constructor.
  - apply Forall_fmap. eapply Forall_impl; [eassumption|]. intros o. apply order_node.
  - apply Forall_flat. eapply Forall_impl; [eassumption|]. intros [e| |] ?; by repeat constructor.
Qed.
Lemma every_node n : P n.
Proof.
  pose proof (expression_all _ _ _ node_cases) as He. pose proof (relation_all _ _ _ node_cases) as Hr. pose proof (body_all _ _ _ node_cases) as Hb.
  destruct n as [e|o|b|s]; [apply He| |apply Hb|].
  - apply step. constructor; [apply He|done].
  - apply select_node. constructor; try apply Hr; try apply He; apply Forall_forall; intros x _; try (split; [apply Hr || apply He|try apply He]).
    + destruct x; simpl; [done|apply Hr|apply He].
    + apply Hr.
    + apply Hb.
    + apply He.
    + destruct (o_resultProjection x); simpl; [done|apply Hr|apply He].
Qed.
End NodeInduction.

(** ** The capabilities, exactly *)
Section Exact.
Variable p : Profile.
Let caps := p_Capabilities p.
(** What a node needs of the profile. *)
Definition node_supported (n : node) : Prop :=
  match n with
  | NExpr (EOver _ _ _) => WindowFunctions caps = true
  | NOrder o => nullPlacement o = NullPlacementDefault \/ ExplicitNullOrdering caps = true
  | _ => True
  end.
Definition node_caps (n : node) : result unit :=
  match n with
  | NExpr e => validateExpressionCapabilities p e
  | NOrder o => order_caps p (validateExpressionCapabilities p) o
  | NBody b => validateBodyCapabilities p b
  | NSelect s => select_caps p (validateExpressionCapabilities p) (relation_caps p) (validateBodyCapabilities p) s
  end.
Definition ok (n : node) : Prop := node_caps n = Ok tt.
Lemma check_then (x y : result unit) : (check x; y) = Ok tt <-> x = Ok tt /\ y = Ok tt.
Proof. destruct x as [[]|]; naive_solver. Qed.
Lemma rel_ok r : relation_caps p r = Ok tt <-> Forall ok (rel_nodes r).
Proof. destruct r; simpl; rewrite ?Forall_singleton; done || by split. Qed.
Lemma checki_nodes {A} (f : A -> result unit) (g : A -> list node) l :
  (forall x, f x = Ok tt <-> Forall ok (g x)) -> checki (fun _ x => f x) 0 l = Ok tt <-> Forall ok (flat_map g l).
Proof.
  intros H. rewrite (checki_Forall _ (fun x => Forall ok (g x))) by (intros _; apply H).
  induction l as [|x l IH]; simpl; [done|]. by rewrite Forall_cons, Forall_app, IH.
Qed.
Lemma checki_map {A} (f : A -> result unit) (g : A -> node) l :
  (forall x, f x = Ok tt <-> ok (g x)) -> checki (fun _ x => f x) 0 l = Ok tt <-> Forall ok (map g l).
Proof. intros H. rewrite (checki_Forall _ (fun x => ok (g x))) by (intros _; apply H). by rewrite Forall_fmap. Qed.
Lemma caps_select_ok s : ok (NSelect s) <-> Forall ok (select_nodes s).
Proof.
  unfold ok at 1. cbn [node_caps]. unfold select_caps, select_nodes. rewrite !check_then, !Forall_app, !Forall_cons, !Forall_app, !Forall_cons, !Forall_app.
  rewrite rel_ok, (checki_map _ (fun c => NBody (rq_body (cte_query c)))), (checki_nodes _ projection_nodes), (checki_map _ NExpr), (checki_map _ NOrder),
    (checki_nodes _ (fun j => rel_nodes (join_source j) ++ [NExpr (join_on j)])).
  - unfold ok. cbn [node_caps]. tauto.
  - intros j. by rewrite check_then, rel_ok, Forall_app, Forall_singleton.
  - done.
  - done.
  - intros [|r c|e a]; simpl; rewrite ?Forall_singleton; split; done.
  - intros c. unfold cte_caps, ok. cbn [node_caps]. by destruct (rq_body (cte_query c)).
Qed.
Lemma ok_step n : ok n <-> node_supported n /\ Forall ok (children n).
Proof.
  destruct n as [e|o|b|s].
  - destruct e; unfold ok at 1; cbn [node_caps validateExpressionCapabilities children node_supported];
      rewrite ?check_then, ?Forall_cons, ?Forall_app, ?Forall_cons, ?Forall_nil; try (unfold ok; cbn [node_caps]; tauto).
    + rewrite (checki_nodes _ (fun b => [NExpr b.1; NExpr b.2])).
      * destruct hasFallback; rewrite ?Forall_singleton, ?Forall_nil; unfold ok; cbn [node_caps]; tauto.
      * intros [x y]. rewrite check_then, !Forall_cons. unfold ok. cbn [node_caps fst snd]. rewrite Forall_nil. tauto.
    + fold caps. destruct (WindowFunctions caps); cbn [negb]; [|naive_solver]. rewrite !check_then, (checki_map _ NExpr), (checki_map _ NOrder) by done.
      unfold ok at 2. cbn [node_caps]. tauto.
    + rewrite (checki_nodes _ (fun x => match x with fragmentHole v => [NExpr v] | _ => [] end)); [tauto|].
      intros [x| |]; rewrite ?Forall_singleton, ?Forall_nil; split; done.
    + rewrite (checki_map _ NExpr) by done. tauto.
    + rewrite (checki_map _ NExpr) by done. destruct subquery as [s|]; rewrite ?Forall_singleton, ?Forall_nil; unfold ok; cbn [node_caps]; tauto.
    + rewrite (checki_map _ NExpr) by done. tauto.
  - unfold ok at 1. cbn [node_caps children node_supported]. unfold order_caps. rewrite check_then, Forall_singleton. unfold placement_supported. fold caps.
    destruct (N.eqb_spec (nullPlacement o) NullPlacementDefault), (ExplicitNullOrdering caps); cbn [negb andb]; unfold ok; cbn [node_caps]; naive_solver.
  - destruct b; unfold ok at 1; cbn [node_caps validateBodyCapabilities children node_supported]; rewrite ?check_then, ?Forall_cons, ?Forall_nil;
      try (unfold ok; cbn [node_caps]; tauto).
  - rewrite caps_select_ok. cbn [node_supported children]. tauto.
Qed.
(** A query passes exactly when every node of it is supported. *)
Lemma ok_exact n : ok n <-> forall m, within n m -> node_supported m.
Proof.
  split.
  - intros H m Hm. induction Hm as [n|n c m Hc _ IH].
    + by apply ok_step in H as [H _].
    + apply IH. apply ok_step in H as [_ H]. by eapply Forall_forall in H.
  - apply (every_node (fun n => (forall m, within n m -> node_supported m) -> ok n)). clear n. intros n IH H. apply ok_step.
    split; [apply H; apply rtc_refl|]. apply Forall_forall. intros c Hc. rewrite Forall_forall in IH. apply IH; [done|].
    intros m Hm. apply H. by eapply rtc_l.
Qed.
End Exact.

(** ** The native engines, exactly *)
Definition node_engines (n : node) : list string :=
  match n with
  | NExpr e => collectExpression e
  | NOrder o => collectExpression (o_expression o)
  | NBody b => collectBody b
  | NSelect s => collectSelect collectExpression relation_engines collectBody s
  end.
Definition own_engines (n : node) : list string := match n with NBody (BNative x) => [engine x] | _ => [] end.
(** A node of a list embeds the engine. *)
Definition finds (x : string) (l : list node) : Prop := exists c, c ∈ l /\ x ∈ node_engines c.
Lemma finds_nil x : finds x [] <-> False.
Proof. unfold finds. set_solver. Qed.
Lemma finds_cons x n l : finds x (n :: l) <-> x ∈ node_engines n \/ finds x l.
Proof. unfold finds. set_solver. Qed.
Lemma finds_app x l l' : finds x (l ++ l') <-> finds x l \/ finds x l'.
Proof. unfold finds. set_solver. Qed.
Lemma engines_rel x r : x ∈ relation_engines r <-> finds x (rel_nodes r).
Proof. destruct r; cbn [relation_engines rel_nodes]; rewrite ?finds_cons, ?finds_nil; cbn [node_engines]; set_solver. Qed.
Lemma engines_flat {A} x (f : A -> list string) (g : A -> list node) l :
  (forall a, x ∈ f a <-> finds x (g a)) -> x ∈ flat_map f l <-> finds x (flat_map g l).
Proof. intros H. induction l as [|a l IH]; simpl; [rewrite finds_nil; set_solver|]. by rewrite elem_of_app, finds_app, H, IH. Qed.
Lemma engines_map {A} x (f : A -> list string) (g : A -> node) l :
  (forall a, f a = node_engines (g a)) -> x ∈ flat_map f l <-> finds x (map g l).
Proof. intros H. induction l as [|a l IH]; simpl; [rewrite finds_nil; set_solver|]. by rewrite elem_of_app, finds_cons, H, IH. Qed.
Ltac engines := rewrite ?elem_of_app, ?finds_app, ?finds_cons, ?finds_app, ?finds_cons, ?finds_app, ?finds_nil, ?elem_of_nil; cbn [node_engines]; try tauto.
Lemma engines_select x s : x ∈ node_engines (NSelect s) <-> finds x (select_nodes s).
Proof.
  cbn [node_engines]. unfold collectSelect, select_nodes. engines.
  rewrite engines_rel, (engines_flat x _ (fun j => rel_nodes (join_source j) ++ [NExpr (join_on j)])),
    (engines_map x _ (fun c => NBody (rq_body (cte_query c)))), (engines_flat x _ projection_nodes), (engines_map x _ NExpr), (engines_map x _ NOrder); try done.
  - tauto.
  - intros [|r c|e a]; simpl; engines.
  - intros j. rewrite elem_of_app, engines_rel. engines.
Qed.
Lemma engines_step x n : x ∈ node_engines n <-> x ∈ own_engines n \/ finds x (children n).
Proof.
  destruct n as [e|o|b|s].
  - cbn [own_engines]. destruct e; cbn [node_engines collectExpression children]; engines.
    + rewrite (engines_flat x _ (fun b => [NExpr b.1; NExpr b.2])).
      * destruct hasFallback; engines.
      * intros [y z]. engines.
    + rewrite (engines_map x _ NExpr), (engines_map x _ NOrder) by done. tauto.
    + rewrite (engines_flat x _ (fun x => match x with fragmentHole v => [NExpr v] | _ => [] end)); [tauto|]. intros [y| |]; engines.
    + rewrite (engines_map x _ NExpr) by done. tauto.
    + rewrite (engines_map x _ NExpr) by done. destruct subquery; engines.
    + rewrite (engines_map x _ NExpr) by done. tauto.
  - cbn [own_engines children node_engines]. engines.
  - destruct b; cbn [own_engines children node_engines collectBody]; engines.
  - rewrite engines_select. cbn [own_engines children]. rewrite elem_of_nil. tauto.
Qed.
Lemma engines_exact x n : x ∈ node_engines n <-> exists m, within n m /\ x ∈ own_engines m.
Proof.
  split.
  - revert n. apply (every_node (fun n => x ∈ node_engines n -> exists m, within n m /\ x ∈ own_engines m)). intros n IH [H|(c & Hc & H)]%engines_step.
    + exists n. split; [apply rtc_refl|done].
    + rewrite Forall_forall in IH. destruct (IH c Hc H) as (m & Hm & Hx). exists m. split; [by eapply rtc_l|done].
  - intros (m & Hm & Hx). induction Hm as [n|n c m Hc _ IH]; apply engines_step; [by left|]. right. exists c. auto.
Qed.

(** ** What compiles *)
(** The expressions and queries a write is made of. *)
Definition row_nodes (l : list (list expression)) : list node := flat_map (map NExpr) l.
Definition insert_nodes (s : Insert) : list node :=
  flat_map projection_nodes (i_returning s)
  ++ match selectSource s with Some source => [NBody (rq_body source)] | None => row_nodes (rows s) end.
Definition write_nodes (s : WriteStatement) : list node :=
  match s with
  | WNil => []
  | WInsert s => insert_nodes s
  | WUpdate s => flat_map projection_nodes (u_returning s) ++ map (fun a => NExpr (a_value a)) (u_sets s) ++ [NExpr (u_where s)]
  | WDelete s => flat_map projection_nodes (d_returning s) ++ [NExpr (d_where s)]
  | WUpsert s =>
      flat_map projection_nodes (up_returning s) ++ map (fun a => NExpr (a_value a)) (up_assignments s)
      ++ [NExpr (conflictWhere s); NExpr (updateWhere s)] ++ insert_nodes (up_insert s)
  end.
(** The profile has the form of RETURNING the write needs. *)
Definition returning_supported (p : Profile) (returning : list Projection) (inserts : bool) : Prop :=
  returning = [] \/ Returning (p_Capabilities p) = ReturningInsertUpdateDelete \/ (inserts = true /\ Returning (p_Capabilities p) = ReturningInsert).
Definition write_supported (p : Profile) (s : WriteStatement) : Prop :=
  match s with
  | WNil => False
  | WInsert s => returning_supported p (i_returning s) true
  | WUpdate s => returning_supported p (u_returning s) false /\
                 (Exists (fun a => defaultValue a = true) (u_sets s) -> UpdateDefault (p_Capabilities p) = UpdateDefaultExpression)
  | WDelete s => returning_supported p (d_returning s) false
  | WUpsert s => returning_supported p (up_returning s) true /\ returning_supported p (i_returning (up_insert s)) true
  end.
Definition allowed (p : Profile) (l : list node) : Prop := forall n m, n ∈ l -> within n m -> node_supported p m.

Section Compiles.
Variable p : Profile.
Abbreviation ok := (ok p).
Lemma allowed_ok l : allowed p l <-> Forall ok l.
Proof. unfold allowed. rewrite Forall_forall. setoid_rewrite ok_exact. naive_solver. Qed.
Lemma projection_ok x : projection_caps (validateExpressionCapabilities p) x = Ok tt <-> Forall ok (projection_nodes x).
Proof. destruct x; simpl; rewrite ?Forall_singleton; split; done. Qed.
Lemma caps_returning_ok l inserts : returning_caps p l inserts = Ok tt <-> returning_supported p l inserts /\ Forall ok (flat_map projection_nodes l).
Proof.
  unfold returning_caps, returning_supported. rewrite check_then, (checki_nodes p _ projection_nodes) by apply projection_ok.
  destruct l as [|x l]; [naive_solver|]. cbn [length Nat.eqb].
  generalize (Returning (p_Capabilities p)) as form. intros form.
  destruct (N.eqb_spec form ReturningInsert), (N.eqb_spec form ReturningInsertUpdateDelete), inserts; cbn [negb orb andb]; naive_solver.
Qed.
Lemma list_ok l : validateExpressionList p l = Ok tt <-> Forall ok (map NExpr l).
Proof. by apply checki_map. Qed.
Lemma insert_ok s : insert_caps p s = Ok tt <-> returning_supported p (i_returning s) true /\ Forall ok (insert_nodes s).
Proof.
  unfold insert_caps, insert_nodes. rewrite check_then, caps_returning_ok, Forall_app. destruct (selectSource s) as [q|].
  - rewrite Forall_singleton. unfold QueryCompile.ok at 3. cbn [node_caps]. unfold validateResultCapabilities. tauto.
  - rewrite (checki_nodes p (validateExpressionList p) (map NExpr)) by apply list_ok. tauto.
Qed.
Lemma caps_write_ok s : validateWriteCapabilities p s = Ok tt <-> write_supported p s /\ Forall ok (write_nodes s).
Proof.
  destruct s as [s|s|s|s|]; cbn [validateWriteCapabilities write_supported write_nodes].
  - apply insert_ok.
  - rewrite !check_then, caps_returning_ok, !Forall_app, Forall_singleton. unfold QueryCompile.ok at 4. cbn [node_caps].
    assert (checki (fun _ a => if defaultValue a && negb (N.eqb (UpdateDefault (p_Capabilities p)) UpdateDefaultExpression)
              then Err (unsupported "UPDATE DEFAULT") else validateExpressionCapabilities p (a_value a)) 0 (u_sets s) = Ok tt <->
            Forall ok (map (fun a => NExpr (a_value a)) (u_sets s)) /\
            (Exists (fun a => defaultValue a = true) (u_sets s) -> UpdateDefault (p_Capabilities p) = UpdateDefaultExpression)) as ->; [|tauto].
    rewrite (checki_Forall _ (fun a => (defaultValue a = true -> UpdateDefault (p_Capabilities p) = UpdateDefaultExpression) /\ ok (NExpr (a_value a)))).
    + rewrite Forall_fmap, Exists_exists, !Forall_forall. naive_solver.
    + intros _ a. destruct (defaultValue a), (N.eqb_spec (UpdateDefault (p_Capabilities p)) UpdateDefaultExpression); cbn [andb negb];
        unfold QueryCompile.ok; cbn [node_caps]; naive_solver.
  - rewrite check_then, caps_returning_ok, Forall_app, Forall_singleton. unfold QueryCompile.ok at 3. cbn [node_caps]. tauto.
  - rewrite !check_then, caps_returning_ok, insert_ok, !Forall_app, !Forall_cons, (checki_map p _ (fun a => NExpr (a_value a))) by done.
    unfold QueryCompile.ok at 5 6. cbn [node_caps]. rewrite Forall_nil. tauto.
  - naive_solver.
Qed.
End Compiles.

(** A compiler that [New] or [NewWithDialect] returned. *)
Definition compiler_of (p : Profile) (c : Compiler) : Prop := New p = Ok c \/ exists d, NewWithDialect p d = Ok c.
Lemma compiler_of_valid p c : compiler_of p c -> profile c = p /\ Validate_profile p = Ok tt.
Proof.
  unfold compiler_of, New, NewWithDialect. destruct (Validate_profile p) as [[]|]; [|naive_solver].
  intros [H|(d & H)].
  - destruct (dialectFor p); [|done]. by injection H as <-.
  - destruct (ValidateDialect d p) as [[]|]; [|done]. destruct d; [|done]. by injection H as <-.
Qed.
Lemma within_limit_ok c r s :
  (do s <- r; within_limit c s) = Ok s <-> r = Ok s /\ (Z.of_nat (length (stmt_args s)) <= MaxBindParameters (profile c))%Z.
Proof.
  destruct r as [s'|e]; [|naive_solver]. unfold within_limit.
  destruct (Z.ltb_spec (MaxBindParameters (profile c)) (Z.of_nat (length (stmt_args s')))); split; intros H0; try done;
    try (by injection H0 as <-); destruct H0 as [[= ->] H0]; [lia|done].
Qed.

(** C16 What a compiler hands out is within its profile: a query or a write
    compiles to a statement exactly when every window function, explicit NULL
    placement, RETURNING clause and UPDATE DEFAULT in it, however deeply it is
    nested, is one the profile has, it renders for the dialect the profile
    constrains to that statement, and the statement binds no more values than
    the profile's limit. The error of a statement that only binds too many is
    the bind limit, and native SQL is held to the same limit. *)
Theorem compiled_within_profile p c : compiler_of p c ->
  (forall q s, Compiler_Select c q = Ok s <->
     allowed p [NBody (rq_body q)] /\ Result_ (compiler_dialect c) q = Ok s /\ (Z.of_nat (length (stmt_args s)) <= MaxBindParameters p)%Z) /\
  (forall w s, Compiler_Write c w = Ok s <->
     write_supported p w /\ allowed p (write_nodes w) /\ Write (compiler_dialect c) w = Ok s /\ (Z.of_nat (length (stmt_args s)) <= MaxBindParameters p)%Z) /\
  (forall n s, Compiler_Native c n = Ok s <->
     s = n /\ TrimSpace (sql_text n) <> "" /\ (Z.of_nat (length (stmt_args n)) <= MaxBindParameters p)%Z) /\
  (forall w s, write_supported p w -> allowed p (write_nodes w) -> Write (compiler_dialect c) w = Ok s ->
     (MaxBindParameters p < Z.of_nat (length (stmt_args s)))%Z ->
     Compiler_Write c w = Err (bind_limit (Z.of_nat (length (stmt_args s))) (MaxBindParameters p))) /\
  (forall q s, Compiler_Select c q = Ok s -> body_supported (compiler_dialect c) (rq_body q) = true).
Proof.
  intros [Hp Hv]%compiler_of_valid.
  assert (forall q s, Compiler_Select c q = Ok s <->
     allowed p [NBody (rq_body q)] /\ Result_ (compiler_dialect c) q = Ok s /\ (Z.of_nat (length (stmt_args s)) <= MaxBindParameters p)%Z) as Hsel.
  { intros q s. unfold Compiler_Select. rewrite Hp, Hv, allowed_ok, Forall_singleton. unfold ok. cbn [node_caps]. unfold validateResultCapabilities.
    destruct (validateBodyCapabilities p (rq_body q)) as [[]|]; [|naive_solver]. rewrite within_limit_ok, Hp. tauto. }
  split; [done|]. split; [|split; [|split]].
  - intros w s. unfold Compiler_Write. rewrite Hp, Hv, allowed_ok. pose proof (caps_write_ok p w) as Hw.
    destruct (validateWriteCapabilities p w) as [[]|]; [|naive_solver]. rewrite within_limit_ok, Hp. tauto.
  - intros n s. unfold Compiler_Native. rewrite Hp, Hv. destruct (String.eqb_spec (TrimSpace (sql_text n)) ""); [naive_solver|].
    pose proof (within_limit_ok c (Ok n) s) as H. cbn beta iota in H. rewrite H, Hp. naive_solver.
  - intros w s H1 H2 Hr Hl. unfold Compiler_Write. rewrite Hp, Hv. rewrite allowed_ok in H2. rewrite (proj2 (caps_write_ok p w) (conj H1 H2)), Hr.
    unfold within_limit. rewrite Hp. by destruct (Z.ltb_spec (MaxBindParameters p) (Z.of_nat (length (stmt_args s)))); [|lia].
  - intros q s H. apply Hsel in H as (_ & H & _). by eapply result_supported.
Qed.

(** *** SQLite at 3.45 and a profile of its own *)
Definition tiny_profile (binds : Z) : Profile := MkProfile "sqlite-tiny" Custom "sqlite" (MkVersion true 3 45 0) caps_s binds.
Definition tiny_compiler (binds : Z) : Compiler := MkCompiler (tiny_profile binds) (ConstrainDialect (tiny_profile binds) SQLite).
Lemma tiny_compiler_of : compiler_of (tiny_profile 1) (tiny_compiler 1) /\ compiler_of (tiny_profile 2) (tiny_compiler 2).
Proof.
  split; right; exists (Some SQLite); unfold NewWithDialect, tiny_compiler;
    match goal with |- context [Validate_profile ?p] =>
      assert (Validate_profile p = Ok tt) as -> by (vm_compute; reflexivity);
      assert (ValidateDialect (Some SQLite) p = Ok tt) as -> by (vm_compute; reflexivity)
    end; reflexivity.
Qed.
Lemma compiled_within_profile_witness :
  (exists s, Compiler_Write (tiny_compiler 2) (WUpdate sample_update) = Ok s /\ (Z.of_nat (length (stmt_args s)) <= 2)%Z) /\
  (forall s, Compiler_Native (tiny_compiler 1) (MkStatement "SELECT ?, ?" [any_int 1; any_int 2]) <> Ok s).
Proof.
  destruct (compiled_within_profile _ _ (proj2 tiny_compiler_of)) as (_ & Hw & _).
  destruct (compiled_within_profile _ _ (proj1 tiny_compiler_of)) as (_ & _ & Hn & _). split.
  - destruct (Compiler_Write (tiny_compiler 2) (WUpdate sample_update)) as [s|e] eqn:E.
    + exists s. split; [reflexivity|]. exact (proj2 (proj2 (proj2 (proj1 (Hw _ _) E)))).
    + exfalso. revert E. vm_compute. discriminate.
  - intros s H. apply Hn in H as (_ & _ & H). revert H. vm_compute. intros H. exact (H eq_refl).
Defined.

(** [NativeEngines] lists exactly the engines of the native SQL a result
    embeds: an engine is in the list when, and only when, some node of the
    result, however deeply it is nested, is native SQL of that engine. *)
Lemma native_engines_exact q x :
  x ∈ NativeEngines q <-> exists n, within (NBody (rq_body q)) (NBody (BNative n)) /\ engine n = x.
Proof.
  unfold NativeEngines. change (collectBody (rq_body q)) with (node_engines (NBody (rq_body q))). rewrite engines_exact. split.
  - intros (m & Hm & Hx). destruct m as [| |b|]; try (by apply elem_of_nil in Hx). destruct b as [|n| |]; try (by apply elem_of_nil in Hx).
    exists n. split; [done|]. by apply list_elem_of_singleton in Hx.
  - intros (n & Hm & <-). exists (NBody (BNative n)). split; [done|]. by apply list_elem_of_singleton.
Qed.
