(* ===== verification/RenderSchema.v ===== *)
(** * RenderSchema: [render/schema.go]

    [CREATE TABLE] and [CREATE INDEX] for a table descriptor.  A DDL statement
    has no arguments, so the renderer's builder is the text it returns. *)

From S2P Require Import Prelude GoText Schema TableValidate Dialect Render.
Open Scope string_scope.
Open Scope list_scope.
Open Scope nat_scope.

(** ** The errors of facts that can be described but not rendered *)
Definition map_arg (m : list (string * string)) : err_arg := AList (map (fun p => AList [AStr p.1; AStr p.2]) m).
Definition keys_arg (keys : list IndexKeyDef) : err_arg :=
  AList (map (fun k => AList [AStr (ik_Expression k); AStr (if Descending k then "true" else "false"); AStr (ik_Collation k);
                              AStr (OperatorClass k); AInt (PrefixLength k); AStr (ik_NullsOrder k)]) keys).
Definition ErrUnsupportedNativeType (dialect : string) (table : string) (column : string) (native : NativeTypeDef) : error :=
  MkError (KTyped "render.ErrUnsupportedNativeType") "dialect %s cannot render native type %q for table %q column %q"
    [AStr dialect; AStr (Native_Name native); AStr table; AStr column].
Definition UnsupportedIndexMethodError (index : string) (method : string) : error :=
  MkError (KTyped "render.UnsupportedIndexMethodError") "index %q uses method %q, which rasql can describe but not yet render"
    [AStr index; AStr method].
Definition UnsupportedPartialIndexError (index : string) (predicate : string) (dialect : string) : error :=
  MkError (KTyped "render.UnsupportedPartialIndexError") "index %q has predicate %q, which the %s dialect cannot express: it has no partial index feature"
    [AStr index; AStr predicate; AStr dialect].
Definition UnsupportedExpressionIndexError (index : string) (expressions : list string) : error :=
  MkError (KTyped "render.UnsupportedExpressionIndexError") "index %q has expression keys %q, which rasql can describe but not yet render"
    [AStr index; AList (map AStr expressions)].
Definition UnsupportedIndexIncludeColumnsError (index : string) (includeColumns : list string) : error :=
  MkError (KTyped "render.UnsupportedIndexIncludeColumnsError") "index %q includes columns %q, which rasql can describe but not yet render"
    [AStr index; AList (map AStr includeColumns)].
Definition UnsupportedIndexInvisibleError (index : string) : error :=
  MkError (KTyped "render.UnsupportedIndexInvisibleError") "index %q is invisible, which rasql can describe but not yet render"
    [AStr index].
Definition UnsupportedIndexKeyDetailsError (index : string) (keys : list IndexKeyDef) : error :=
  MkError (KTyped "render.UnsupportedIndexKeyDetailsError") "index %q has per-key details %+v, which rasql can describe but not yet render"
    [AStr index; keys_arg keys].
Definition UnsupportedIndexNotValidError (index : string) : error :=
  MkError (KTyped "render.UnsupportedIndexNotValidError") "index %q is not valid, which rasql can describe but not yet render"
    [AStr index].
Definition UnsupportedIndexStorageParametersError (index : string) (storageParameters : list (string * string)) : error :=
  MkError (KTyped "render.UnsupportedIndexStorageParametersError") "index %q has storage parameters %v, which rasql can describe but not yet render"
    [AStr index; map_arg storageParameters].
Definition UnsupportedIndexTablespaceError (index : string) (tablespace : string) : error :=
  MkError (KTyped "render.UnsupportedIndexTablespaceError") "index %q uses tablespace %q, which rasql can describe but not yet render"
    [AStr index; AStr tablespace].
Definition UnsupportedIndexReplicaIdentityError (index : string) : error :=
  MkError (KTyped "render.UnsupportedIndexReplicaIdentityError") "index %q is the replica identity, which rasql can describe but not yet render"
    [AStr index].
Definition UnsupportedIndexNullsNotDistinctError (index : string) : error :=
  MkError (KTyped "render.UnsupportedIndexNullsNotDistinctError") "index %q uses NULLS NOT DISTINCT, which rasql can describe but not yet render"
    [AStr index].
Definition UnsupportedForeignKeyMatchError (foreignKey : string) (match_ : string) : error :=
  MkError (KTyped "render.UnsupportedForeignKeyMatchError") "foreign key %q uses MATCH %s, which rasql can describe but not yet render"
    [AStr foreignKey; AStr match_].
Definition UnsupportedForeignKeyDeferrabilityError (foreignKey : string) (deferrable : string) : error :=
  MkError (KTyped "render.UnsupportedForeignKeyDeferrabilityError") "foreign key %q is %s, which rasql can describe but not yet render"
    [AStr foreignKey; AStr deferrable].
Definition UnsupportedCheckNoInheritError (checkName : string) : error :=
  MkError (KTyped "render.UnsupportedCheckNoInheritError") "check constraint %q is NO INHERIT, which rasql can describe but not yet render"
    [AStr checkName].
Definition UnsupportedCheckNotValidError (checkName : string) : error :=
  MkError (KTyped "render.UnsupportedCheckNotValidError") "check constraint %q is NOT VALID, which rasql can describe but not yet render"
    [AStr checkName].
Definition UnsupportedCheckNotEnforcedError (checkName : string) : error :=
  MkError (KTyped "render.UnsupportedCheckNotEnforcedError") "check constraint %q is NOT ENFORCED, which rasql can describe but not yet render"
    [AStr checkName].
Definition UnsupportedForeignKeyNotValidError (foreignKey : string) : error :=
  MkError (KTyped "render.UnsupportedForeignKeyNotValidError") "foreign key %q is NOT VALID, which rasql can describe but not yet render"
    [AStr foreignKey].
Definition UnsupportedForeignKeyNotEnforcedError (foreignKey : string) : error :=
  MkError (KTyped "render.UnsupportedForeignKeyNotEnforcedError") "foreign key %q is NOT ENFORCED, which rasql can describe but not yet render"
    [AStr foreignKey].
Definition UnsupportedForeignKeyTemporalError (foreignKey : string) : error :=
  MkError (KTyped "render.UnsupportedForeignKeyTemporalError") "foreign key %q is temporal, which rasql can describe but not yet render"
    [AStr foreignKey].
Definition UnsupportedForeignKeyDeleteSetColumnsError (foreignKey : string) (deleteSetColumns : list string) : error :=
  MkError (KTyped "render.UnsupportedForeignKeyDeleteSetColumnsError") "foreign key %q names ON DELETE SET columns %v, which rasql can describe but not yet render"
    [AStr foreignKey; AList (map AStr deleteSetColumns)].
Definition UnsupportedUniqueDeferrabilityError (unique : string) (deferrable : string) : error :=
  MkError (KTyped "render.UnsupportedUniqueDeferrabilityError") "unique constraint %q is %s, which rasql can describe but not yet render"
    [AStr unique; AStr deferrable].
Definition UnsupportedUniqueNullsNotDistinctError (unique : string) : error :=
  MkError (KTyped "render.UnsupportedUniqueNullsNotDistinctError") "unique constraint %q uses NULLS NOT DISTINCT, which rasql can describe but not yet render"
    [AStr unique].
Definition UnsupportedUniqueIncludeColumnsError (unique : string) (includeColumns : list string) : error :=
  MkError (KTyped "render.UnsupportedUniqueIncludeColumnsError") "unique constraint %q includes columns %q, which rasql can describe but not yet render"
    [AStr unique; AList (map AStr includeColumns)].
Definition UnsupportedUniqueConflictResolutionError (unique : string) (onConflict : string) : error :=
  MkError (KTyped "render.UnsupportedUniqueConflictResolutionError") "unique constraint %q uses ON CONFLICT %s, which rasql can describe but not yet render"
    [AStr unique; AStr onConflict].
Definition UnsupportedUniqueKeyDetailsError (unique : string) (keys : list IndexKeyDef) : error :=
  MkError (KTyped "render.UnsupportedUniqueKeyDetailsError") "unique constraint %q has per-key details %+v, which rasql can describe but not yet render"
    [AStr unique; keys_arg keys].
Definition UnsupportedUniqueTemporalError (unique : string) : error :=
  MkError (KTyped "render.UnsupportedUniqueTemporalError") "unique constraint %q is temporal, which rasql can describe but not yet render"
    [AStr unique].
Definition UnsupportedUniqueStorageParametersError (unique : string) (storageParameters : list (string * string)) : error :=
  MkError (KTyped "render.UnsupportedUniqueStorageParametersError") "unique constraint %q has storage parameters %v, which rasql can describe but not yet render"
    [AStr unique; map_arg storageParameters].
Definition UnsupportedUniqueTablespaceError (unique : string) (tablespace : string) : error :=
  MkError (KTyped "render.UnsupportedUniqueTablespaceError") "unique constraint %q uses tablespace %q, which rasql can describe but not yet render"
    [AStr unique; AStr tablespace].
Definition UnsupportedUniqueReplicaIdentityError (unique : string) : error :=
  MkError (KTyped "render.UnsupportedUniqueReplicaIdentityError") "unique constraint %q is the replica identity, which rasql can describe but not yet render"
    [AStr unique].
Definition UnsupportedUniqueCollationsError (unique : string) (collations : list (string * string)) : error :=
  MkError (KTyped "render.UnsupportedUniqueCollationsError") "unique constraint %q has column collations %v, which rasql can describe but not yet render"
    [AStr unique; map_arg collations].
Definition UnsupportedTableStrictError (table : string) : error :=
  MkError (KTyped "render.UnsupportedTableStrictError") "table %q is STRICT, which rasql can describe but not yet render"
    [AStr table].
Definition UnsupportedTableWithoutRowIDError (table : string) : error :=
  MkError (KTyped "render.UnsupportedTableWithoutRowIDError") "table %q is WITHOUT ROWID, which rasql can describe but not yet render"
    [AStr table].
Definition UnsupportedVirtualTableError (table : string) (module : string) : error :=
  MkError (KTyped "render.UnsupportedVirtualTableError") "table %q is a virtual table using module %q, which rasql can describe but not yet render"
    [AStr table; AStr module].
Definition UnsupportedPrimaryKeyAutoincrementError (table : string) : error :=
  MkError (KTyped "render.UnsupportedPrimaryKeyAutoincrementError") "table %q's primary key is AUTOINCREMENT, which rasql can describe but not yet render"
    [AStr table].
Definition UnsupportedPrimaryKeyConflictResolutionError (table : string) (onConflict : string) : error :=
  MkError (KTyped "render.UnsupportedPrimaryKeyConflictResolutionError") "table %q's primary key uses ON CONFLICT %s, which rasql can describe but not yet render"
    [AStr table; AStr onConflict].
Definition UnsupportedGeneratedColumnError (column : string) (expression : string) (storage : string) : error :=
  MkError (KTyped "render.UnsupportedGeneratedColumnError") "column %q is generated as %s (%s), which rasql can describe but not yet render"
    [AStr column; AStr expression; AStr storage].
Definition UnsupportedIdentityColumnError (column : string) (identity : string) (dialect : string) (reason : string) : error :=
  MkError (KTyped "render.UnsupportedIdentityColumnError") "column %q is %s IDENTITY, which the %s dialect cannot render: %s"
    [AStr column; AStr identity; AStr dialect; AStr reason].
Definition UnsupportedIntegerDisplayWidthError (column : string) (width : Z) : error :=
  MkError (KTyped "render.UnsupportedIntegerDisplayWidthError") "column %q states an integer display width of %d, which rasql can describe but not yet render"
    [AStr column; AInt width].
Definition UnsupportedIntegerZeroFillError (column : string) : error :=
  MkError (KTyped "render.UnsupportedIntegerZeroFillError") "column %q carries ZEROFILL, which rasql can describe but not yet render"
    [AStr column].
Definition UnsupportedDecimalUnsignedError (column : string) : error :=
  MkError (KTyped "render.UnsupportedDecimalUnsignedError") "column %q carries UNSIGNED, which rasql can describe but not yet render"
    [AStr column].
Definition UnsupportedDecimalZeroFillError (column : string) : error :=
  MkError (KTyped "render.UnsupportedDecimalZeroFillError") "column %q carries ZEROFILL, which rasql can describe but not yet render"
    [AStr column].
Definition UnsupportedExclusionConstraintError (exclusion : string) : error :=
  MkError (KTyped "render.UnsupportedExclusionConstraintError") "exclusion constraint %q is an EXCLUDE constraint, which rasql can describe but not yet render"
    [AStr exclusion].

(** [Unwrap]: the sentinel behind each of them. *)
Definition sentinels : gmap string string := list_to_map
  [("render.UnsupportedIndexMethodError", "render: unsupported index method");
   ("render.UnsupportedPartialIndexError", "render: unsupported partial index");
   ("render.UnsupportedExpressionIndexError", "render: unsupported expression index");
   ("render.UnsupportedIndexIncludeColumnsError", "render: unsupported index include columns");
   ("render.UnsupportedIndexInvisibleError", "render: unsupported invisible index");
   ("render.UnsupportedIndexKeyDetailsError", "render: unsupported index key details");
   ("render.UnsupportedIndexNotValidError", "render: unsupported invalid index");
   ("render.UnsupportedIndexStorageParametersError", "render: unsupported index storage parameters");
   ("render.UnsupportedIndexTablespaceError", "render: unsupported index tablespace");
   ("render.UnsupportedIndexReplicaIdentityError", "render: unsupported index replica identity");
   ("render.UnsupportedIndexNullsNotDistinctError", "render: unsupported index nulls-not-distinct");
   ("render.UnsupportedForeignKeyMatchError", "render: unsupported foreign key match type");
   ("render.UnsupportedForeignKeyDeferrabilityError", "render: unsupported foreign key deferrability");
   ("render.UnsupportedCheckNoInheritError", "render: unsupported check constraint NO INHERIT");
   ("render.UnsupportedCheckNotValidError", "render: unsupported check constraint NOT VALID");
   ("render.UnsupportedCheckNotEnforcedError", "render: unsupported check constraint NOT ENFORCED");
   ("render.UnsupportedForeignKeyNotValidError", "render: unsupported foreign key NOT VALID");
   ("render.UnsupportedForeignKeyNotEnforcedError", "render: unsupported foreign key NOT ENFORCED");
   ("render.UnsupportedForeignKeyTemporalError", "render: unsupported temporal foreign key");
   ("render.UnsupportedForeignKeyDeleteSetColumnsError", "render: unsupported foreign key delete set columns");
   ("render.UnsupportedUniqueDeferrabilityError", "render: unsupported unique constraint deferrability");
   ("render.UnsupportedUniqueNullsNotDistinctError", "render: unsupported unique constraint nulls-not-distinct");
   ("render.UnsupportedUniqueIncludeColumnsError", "render: unsupported unique constraint include columns");
   ("render.UnsupportedUniqueConflictResolutionError", "render: unsupported unique constraint conflict resolution");
   ("render.UnsupportedUniqueKeyDetailsError", "render: unsupported unique constraint key details");
   ("render.UnsupportedUniqueTemporalError", "render: unsupported temporal unique constraint");
   ("render.UnsupportedUniqueStorageParametersError", "render: unsupported unique constraint storage parameters");
   ("render.UnsupportedUniqueTablespaceError", "render: unsupported unique constraint tablespace");
   ("render.UnsupportedUniqueReplicaIdentityError", "render: unsupported unique constraint replica identity");
   ("render.UnsupportedUniqueCollationsError", "render: unsupported unique constraint column collations");
   ("render.UnsupportedTableStrictError", "render: unsupported STRICT table");
   ("render.UnsupportedTableWithoutRowIDError", "render: unsupported WITHOUT ROWID table");
   ("render.UnsupportedVirtualTableError", "render: unsupported SQLite virtual table");
   ("render.UnsupportedPrimaryKeyAutoincrementError", "render: unsupported primary key AUTOINCREMENT");
   ("render.UnsupportedPrimaryKeyConflictResolutionError", "render: unsupported primary key conflict resolution");
   ("render.UnsupportedGeneratedColumnError", "render: unsupported generated column");
   ("render.UnsupportedIdentityColumnError", "render: unsupported identity column");
   ("render.UnsupportedIntegerDisplayWidthError", "render: unsupported integer display width");
   ("render.UnsupportedIntegerZeroFillError", "render: unsupported integer zerofill");
   ("render.UnsupportedDecimalUnsignedError", "render: unsupported decimal unsigned");
   ("render.UnsupportedDecimalZeroFillError", "render: unsupported decimal zerofill");
   ("render.UnsupportedExclusionConstraintError", "render: unsupported exclusion constraint")].
Definition Unwrap_sentinel (e : error) : option string :=
  match e with MkError (KTyped n) _ _ => sentinels !! n | _ => None end.

(** ** Pieces *)
Definition quotedNames (d : Dialect) (names : list string) : result (list string) :=
  foldi (fun _ name quoted => do value <- quoteIdentifier d name; Ok (quoted ++ [value])) 0 names [].
(** [CONSTRAINT name ] in front of a definition, when it is named. *)
Definition constraint_named (d : Dialect) (name definition : string) : result string :=
  if unset name then Ok definition
  else do quoted <- quoteIdentifier d name; Ok ("CONSTRAINT " +:+ quoted +:+ " " +:+ definition).

Definition mysql (d : Dialect) : bool := String.eqb (d_Name d) "mysql".
Definition sqlite (d : Dialect) : bool := String.eqb (d_Name d) "sqlite".
Definition postgresql (d : Dialect) : bool := String.eqb (d_Name d) "postgresql".

Definition unbounded_text (t : TableDef) (name : string) : bool :=
  match Column t name with
  | Some c => match Column_Type c with Some (TextType None _) => true | _ => false end
  | None => false
  end.
Definition rejectUnboundedMySQLText (d : Dialect) (t : TableDef) (names : list string) (context : string) : result unit :=
  if negb (mysql d) then Ok tt
  else checki (fun _ name =>
    refuse_if (unbounded_text t name)
      (Errorf "dialect %s: column %q has no stated width: state one with schema.Width to use it in %s, since MySQL cannot build a key over an unbounded text column"
         [AStr (d_Name d); AStr name; AStr context])) 0 names.

Definition sqliteAutoincrementColumn (d : Dialect) (t : TableDef) : result string :=
  let unsupported := Err (UnsupportedPrimaryKeyAutoincrementError (Name t)) in
  if negb (sqlite d) || negb (length (PrimaryKey t) =? 1) || negb (unset (PrimaryKeyOnConflict t)) then unsupported
  else match PrimaryKey t with
  | name :: _ =>
      match Column t name with
      | None => unsupported
      | Some c =>
          match Column_Type c with
          | Some (IntegerType false None false) =>
              if Column_Nullable c || negb (unset (Column_Default c))
                 || match NativeType c with Some _ => true | None => false end
                 || negb (unset (Identity c)) || negb (unset (GeneratedExpression c)) || negb (unset (Column_Collation c))
              then unsupported else Ok name
          | _ => unsupported
          end
      end
  | [] => unsupported
  end.

Definition mysqlIdentityColumnLeadsAKey (t : TableDef) (name : string) : bool :=
  let leads l := match l with n :: _ => String.eqb n name | [] => false end in
  leads (PrimaryKey t) || existsb (fun c => leads (uq_Columns c)) (UniqueConstraints t).
Definition identity_columns (t : TableDef) : list ColumnDef :=
  List.filter (fun c => negb (unset (Identity c))) (Columns t).
Definition checkMySQLIdentityKeyness (d : Dialect) (t : TableDef) : result unit :=
  match identity_columns t with
  | [] => Ok tt
  | [c] =>
      refuse_if (negb (mysqlIdentityColumnLeadsAKey t (Column_Name c)))
        (UnsupportedIdentityColumnError (Column_Name c) (Identity c) (d_Name d)
           "MySQL requires an auto-increment column to be the leading column of a key")
  | _ :: second :: _ =>
      Err (UnsupportedIdentityColumnError (Column_Name second) (Identity second) (d_Name d)
             "MySQL allows only one auto-increment column per table")
  end.

(** ** Columns *)
Definition identityClause (d : Dialect) (c : ColumnDef) : result string :=
  let no_feature := Err (UnsupportedIdentityColumnError (Column_Name c) (Identity c) (d_Name d)
                           "this dialect has no identity column feature") in
  if postgresql d then
    if String.eqb (Identity c) IdentityAlways then Ok " GENERATED ALWAYS AS IDENTITY"
    else if String.eqb (Identity c) IdentityByDefault then Ok " GENERATED BY DEFAULT AS IDENTITY"
    else no_feature
  else if mysql d then
    if String.eqb (Identity c) IdentityByDefault then Ok " AUTO_INCREMENT"
    else Err (UnsupportedIdentityColumnError (Column_Name c) (Identity c) (d_Name d)
                "MySQL's AUTO_INCREMENT has no form that rejects an explicit value")
  else no_feature.

(** What a type states that no dialect renders. *)
Definition type_refusal (c : ColumnDef) : result unit :=
  match Column_Type c with
  | Some (IntegerType _ width zerofill) =>
      match width with
      | Some w => Err (UnsupportedIntegerDisplayWidthError (Column_Name c) w)
      | None => refuse_if zerofill (UnsupportedIntegerZeroFillError (Column_Name c))
      end
  | Some (DecimalType _ _ unsigned zerofill) =>
      check refuse_if zerofill (UnsupportedDecimalZeroFillError (Column_Name c));
      refuse_if unsigned (UnsupportedDecimalUnsignedError (Column_Name c))
  | _ => Ok tt
  end.
Definition column_type_name (d : Dialect) (tableName : string) (c : ColumnDef) : result string :=
  match NativeType c with
  | Some native =>
      let unsupported := Err (ErrUnsupportedNativeType (d_Name d) tableName (Column_Name c) native) in
      match d_NativeTypeName d with
      | None => unsupported
      | Some namer =>
          do r <- namer native;
          if r.2 then Ok r.1 else unsupported
      end
  | None => wrap_err (fun e => Errorf "column %q: %w" [AStr (Column_Name c); AErr e]) (d_TypeName d c)
  end.
Definition columnDefinition (d : Dialect) (tableName : string) (c : ColumnDef) : result string :=
  check refuse_if (negb (unset (GeneratedExpression c)))
    (UnsupportedGeneratedColumnError (Column_Name c) (GeneratedExpression c) (Column_GeneratedStorage c));
  check type_refusal c;
  do name <- quoteIdentifier d (Column_Name c);
  do typeName <- column_type_name d tableName c;
  do collate <- (if unset (Column_Collation c) then Ok ""
                 else do collation <- quoteIdentifier d (Column_Collation c); Ok (" COLLATE " +:+ collation));
  do identity <- (if unset (Identity c) then Ok "" else identityClause d c);
  Ok (name +:+ " " +:+ typeName +:+ collate
      +:+ (if Column_Nullable c then "" else " NOT NULL")
      +:+ (if unset (Column_Default c) then "" else " DEFAULT " +:+ Column_Default c) +:+ identity).

(** ** Constraints *)
Definition unique_refusal (c : UniqueDef) : result unit :=
  let n := uq_Name c in
  check refuse_if (negb (unset (uq_Deferrable c))) (UnsupportedUniqueDeferrabilityError n (uq_Deferrable c));
  check refuse_if (uq_NullsNotDistinct c) (UnsupportedUniqueNullsNotDistinctError n);
  check refuse_if (0 <? length (uq_IncludeColumns c)) (UnsupportedUniqueIncludeColumnsError n (uq_IncludeColumns c));
  check refuse_if (negb (unset (OnConflict c))) (UnsupportedUniqueConflictResolutionError n (OnConflict c));
  check refuse_if (0 <? length (uq_Keys c)) (UnsupportedUniqueKeyDetailsError n (uq_Keys c));
  check refuse_if (uq_Temporal c) (UnsupportedUniqueTemporalError n);
  check refuse_if (0 <? length (uq_StorageParameters c)) (UnsupportedUniqueStorageParametersError n (uq_StorageParameters c));
  check refuse_if (negb (unset (uq_Tablespace c))) (UnsupportedUniqueTablespaceError n (uq_Tablespace c));
  check refuse_if (uq_ReplicaIdentity c) (UnsupportedUniqueReplicaIdentityError n);
  refuse_if (0 <? length (Collations c)) (UnsupportedUniqueCollationsError n (Collations c)).
Definition unique_definition (d : Dialect) (t : TableDef) (c : UniqueDef) : result string :=
  check unique_refusal c;
  check rejectUnboundedMySQLText d t (uq_Columns c) "a unique constraint";
  do columns <- quotedNames d (uq_Columns c);
  constraint_named d (uq_Name c) ("UNIQUE (" +:+ Join columns ", " +:+ ")").
Definition check_definition (d : Dialect) (c : CheckDef) : result string :=
  check refuse_if (NoInherit c) (UnsupportedCheckNoInheritError (ck_Name c));
  check refuse_if (ck_NotValid c) (UnsupportedCheckNotValidError (ck_Name c));
  check refuse_if (ck_NotEnforced c) (UnsupportedCheckNotEnforcedError (ck_Name c));
  constraint_named d (ck_Name c) ("CHECK (" +:+ ck_Expression c +:+ ")").

Definition qualifiedReferencedTable (d : Dialect) (t : TableDef) (k : ForeignKeyDef) : result string :=
  if unset (ReferencedSchema k) then quoteIdentifier d (ReferencedTable k)
  else if d_Supports d CapabilityQualifiedReference then quoteQualified d (ReferencedSchema k) (ReferencedTable k)
  else if String.eqb (ReferencedSchema k) (Schema t) then quoteIdentifier d (ReferencedTable k)
  else Err (Errorf "dialect %s: foreign key on table %q references table %q in schema %q: this dialect lacks dialect.CapabilityQualifiedReference and can only reference table %q's own schema %q"
              [AStr (d_Name d); AStr (Name t); AStr (ReferencedTable k); AStr (ReferencedSchema k); AStr (Name t); AStr (Schema t)]).
Definition foreign_key_refusal (k : ForeignKeyDef) : result unit :=
  let n := fk_Name k in
  check refuse_if (negb (unset (Match k))) (UnsupportedForeignKeyMatchError n (Match k));
  check refuse_if (negb (unset (fk_Deferrable k))) (UnsupportedForeignKeyDeferrabilityError n (fk_Deferrable k));
  check refuse_if (fk_NotValid k) (UnsupportedForeignKeyNotValidError n);
  check refuse_if (fk_NotEnforced k) (UnsupportedForeignKeyNotEnforcedError n);
  check refuse_if (fk_Temporal k) (UnsupportedForeignKeyTemporalError n);
  refuse_if (0 <? length (DeleteSetColumns k)) (UnsupportedForeignKeyDeleteSetColumnsError n (DeleteSetColumns k)).
(** SQLite is given no [NO ACTION], its default. *)
Definition action_clause (d : Dialect) (keyword action : string) : string :=
  if negb (unset action) && (negb (String.eqb action NoAction) || negb (sqlite d)) then keyword +:+ action else "".
Definition foreignKeyDefinition (d : Dialect) (t : TableDef) (k : ForeignKeyDef) : result string :=
  check foreign_key_refusal k;
  do columns <- quotedNames d (fk_Columns k);
  do referencedTable <- qualifiedReferencedTable d t k;
  do referencedColumns <- quotedNames d (ReferencedColumns k);
  do definition <- constraint_named d (fk_Name k)
    ("FOREIGN KEY (" +:+ Join columns ", " +:+ ") REFERENCES " +:+ referencedTable +:+ " (" +:+ Join referencedColumns ", " +:+ ")");
  Ok (definition +:+ action_clause d " ON DELETE " (OnDelete k) +:+ action_clause d " ON UPDATE " (OnUpdate k)).

(** ** [CREATE TABLE] *)
Definition column_definition (d : Dialect) (t : TableDef) (autoColumn : string) (c : ColumnDef) : result string :=
  do definition <- columnDefinition d (Name t) c;
  Ok (if String.eqb (Column_Name c) autoColumn then definition +:+ " PRIMARY KEY AUTOINCREMENT" else definition).
Definition primary_key_definition (d : Dialect) (t : TableDef) (autoColumn : string) : result (list string) :=
  if length (PrimaryKey t) =? 0 then Ok []
  else
    check refuse_if (negb (unset (PrimaryKeyOnConflict t)))
      (UnsupportedPrimaryKeyConflictResolutionError (Name t) (PrimaryKeyOnConflict t));
    check rejectUnboundedMySQLText d t (PrimaryKey t) "a primary key";
    if negb (unset autoColumn) then Ok []
    else do columns <- quotedNames d (PrimaryKey t); Ok ["PRIMARY KEY (" +:+ Join columns ", " +:+ ")"].
Definition definitions_of {A} (f : A -> result string) (l : list A) (definitions : list string) : result (list string) :=
  foldi (fun _ x definitions => do definition <- f x; Ok (definitions ++ [definition])) 0 l definitions.

Definition writeCreateTable (d : Dialect) (t : TableDef) : result string :=
  check refuse_if (negb (unset (VirtualTableModule t))) (UnsupportedVirtualTableError (Name t) (VirtualTableModule t));
  check refuse_if (Strict t) (UnsupportedTableStrictError (Name t));
  check refuse_if (WithoutRowID t) (UnsupportedTableWithoutRowIDError (Name t));
  check refuse_if (PrimaryKeyAutoincrement t && negb (unset (PrimaryKeyOnConflict t)))
    (UnsupportedPrimaryKeyConflictResolutionError (Name t) (PrimaryKeyOnConflict t));
  check (if mysql d then checkMySQLIdentityKeyness d t else Ok tt);
  do autoColumn <- (if PrimaryKeyAutoincrement t then sqliteAutoincrementColumn d t else Ok "");
  do name <- quoteQualified d (Schema t) (Name t);
  do definitions <- definitions_of (column_definition d t autoColumn) (Columns t) [];
  do primaryKey <- primary_key_definition d t autoColumn;
  do definitions <- definitions_of (unique_definition d t) (UniqueConstraints t) (definitions ++ primaryKey);
  do definitions <- definitions_of (check_definition d) (Checks t) definitions;
  check (match ExclusionConstraints t with
         | exclusion :: _ => Err (UnsupportedExclusionConstraintError (ex_Name exclusion)) | [] => Ok tt end);
  do definitions <- definitions_of (foreignKeyDefinition d t) (ForeignKeys t) definitions;
  Ok ("CREATE TABLE " +:+ name +:+ " (" +:+ Join definitions ", " +:+ ")").

(** ** [CREATE INDEX] *)
Definition qualifiedIndexNames (d : Dialect) (t : TableDef) (index : IndexDef) : result (string * string) :=
  if unset (Schema t) then
    do indexName <- quoteIdentifier d (ix_Name index); do tableName <- quoteIdentifier d (Name t); Ok (indexName, tableName)
  else if d_Supports d CapabilityQualifiedIndexTarget then
    do indexName <- quoteIdentifier d (ix_Name index); do tableName <- quoteQualified d (Schema t) (Name t); Ok (indexName, tableName)
  else if d_Supports d CapabilityQualifiedIndexName then
    do indexName <- quoteQualified d (Schema t) (ix_Name index); do tableName <- quoteIdentifier d (Name t); Ok (indexName, tableName)
  else Err (Errorf "dialect %s: cannot create an index on table %q in schema %q: this dialect lacks both dialect.CapabilityQualifiedIndexTarget and dialect.CapabilityQualifiedIndexName"
              [AStr (d_Name d); AStr (Name t); AStr (Schema t)]).
Definition index_refusal (d : Dialect) (index : IndexDef) : result unit :=
  let n := ix_Name index in
  check refuse_if (negb (unset (ix_Method index))) (UnsupportedIndexMethodError n (ix_Method index));
  check refuse_if (negb (unset (Predicate index)) && negb (d_Supports d CapabilityPartialIndex))
    (UnsupportedPartialIndexError n (Predicate index) (d_Name d));
  check refuse_if (0 <? length (Expressions index)) (UnsupportedExpressionIndexError n (Expressions index));
  check refuse_if (0 <? length (ix_IncludeColumns index)) (UnsupportedIndexIncludeColumnsError n (ix_IncludeColumns index));
  check refuse_if (Invisible index) (UnsupportedIndexInvisibleError n);
  check refuse_if (0 <? length (ix_Keys index)) (UnsupportedIndexKeyDetailsError n (ix_Keys index));
  check refuse_if (ix_NotValid index) (UnsupportedIndexNotValidError n);
  check refuse_if (0 <? length (ix_StorageParameters index)) (UnsupportedIndexStorageParametersError n (ix_StorageParameters index));
  check refuse_if (negb (unset (ix_Tablespace index))) (UnsupportedIndexTablespaceError n (ix_Tablespace index));
  check refuse_if (ix_ReplicaIdentity index) (UnsupportedIndexReplicaIdentityError n);
  refuse_if (ix_NullsNotDistinct index) (UnsupportedIndexNullsNotDistinctError n).
Definition writeCreateIndex (d : Dialect) (t : TableDef) (index : IndexDef) : result string :=
  check index_refusal d index;
  check rejectUnboundedMySQLText d t (ix_Columns index) "an index";
  do names <- qualifiedIndexNames d t index;
  do columns <- quotedNames d (ix_Columns index);
  Ok ("CREATE " +:+ (if ix_Unique index then "UNIQUE " else "") +:+ "INDEX " +:+ names.1 +:+ " ON " +:+ names.2
      +:+ " (" +:+ Join columns ", " +:+ ")"
      +:+ (if unset (Predicate index) then "" else " WHERE " +:+ Predicate index)).

Section Statements.
Context {unicode : Unicode}.

(** A nil dialect is not a value here. *)
Definition CreateTable (d : Dialect) (t : TableDef) : result Statement :=
  match Table_Validate t with
  | Err e => Err (Error_ d (Errorf "invalid table: %w" [AErr e]))
  | Ok _ => do sql <- wrap_err (Error_ d) (writeCreateTable d t); Ok (MkStatement sql [])
  end.
Definition CreateIndexes (d : Dialect) (t : TableDef) : result (list Statement) :=
  match Table_Validate t with
  | Err e => Err (Error_ d (Errorf "invalid table: %w" [AErr e]))
  | Ok _ =>
      foldi (fun _ index statements =>
        do sql <- wrap_err (Error_ d) (writeCreateIndex d t index); Ok (statements ++ [MkStatement sql []])) 0 (Indexes t) []
  end.
End Statements.

(** ** What can be rendered, and its text *)
Section Exact.
Context {unicode : Unicode} (d : Dialect) (quoted : string -> string).
(** The dialect quotes every legal identifier. *)
Hypothesis quotes : forall n, ident n -> d_QuoteIdentifier d n = Ok (quoted n).

Definition names_sql (names : list string) : string := Join (map quoted names) ", ".
Definition qualified_sql (schema n : string) : string :=
  if unset schema then quoted n else quoted schema +:+ "." +:+ quoted n.
Definition constraint_sql (name definition : string) : string :=
  if unset name then definition else "CONSTRAINT " +:+ quoted name +:+ " " +:+ definition.

(** A column states nothing a dialect cannot render, and the dialect has its
    type and its identity form. *)
Definition identity_renderable (c : ColumnDef) : Prop :=
  Identity c = "" \/ postgresql d = true \/ (mysql d = true /\ Identity c = IdentityByDefault).
Definition column_renderable (t : TableDef) (c : ColumnDef) : Prop :=
  GeneratedExpression c = "" /\
  match Column_Type c with
  | Some (IntegerType _ width zerofill) => width = None /\ zerofill = false
  | Some (DecimalType _ _ unsigned zerofill) => unsigned = false /\ zerofill = false
  | _ => True
  end /\
  is_ok (column_type_name d (Name t) c) = true /\ identity_renderable c.
Definition type_sql (t : TableDef) (c : ColumnDef) : string :=
  match column_type_name d (Name t) c with Ok s => s | Err _ => "" end.
Definition identity_sql (c : ColumnDef) : string :=
  if unset (Identity c) then ""
  else if mysql d then " AUTO_INCREMENT"
  else if String.eqb (Identity c) IdentityAlways then " GENERATED ALWAYS AS IDENTITY"
  else " GENERATED BY DEFAULT AS IDENTITY".
Definition column_sql (t : TableDef) (c : ColumnDef) : string :=
  quoted (Column_Name c) +:+ " " +:+ type_sql t c
    +:+ (if unset (Column_Collation c) then "" else " COLLATE " +:+ quoted (Column_Collation c))
    +:+ (if Column_Nullable c then "" else " NOT NULL")
    +:+ (if unset (Column_Default c) then "" else " DEFAULT " +:+ Column_Default c) +:+ identity_sql c.

(** MySQL builds no key over text of unbounded width. *)
Definition keyable (t : TableDef) (names : list string) : Prop :=
  mysql d = true -> Forall (fun n => unbounded_text t n = false) names.
Definition unique_renderable (t : TableDef) (c : UniqueDef) : Prop :=
  uq_Deferrable c = "" /\ uq_NullsNotDistinct c = false /\ uq_IncludeColumns c = [] /\ OnConflict c = "" /\
  uq_Keys c = [] /\ uq_Temporal c = false /\ uq_StorageParameters c = [] /\ uq_Tablespace c = "" /\
  uq_ReplicaIdentity c = false /\ Collations c = [] /\ keyable t (uq_Columns c).
Definition unique_sql (c : UniqueDef) : string :=
  constraint_sql (uq_Name c) ("UNIQUE (" +:+ names_sql (uq_Columns c) +:+ ")").
Definition check_renderable (c : CheckDef) : Prop :=
  NoInherit c = false /\ ck_NotValid c = false /\ ck_NotEnforced c = false.
Definition check_sql (c : CheckDef) : string := constraint_sql (ck_Name c) ("CHECK (" +:+ ck_Expression c +:+ ")").
Definition foreign_key_renderable (t : TableDef) (k : ForeignKeyDef) : Prop :=
  Match k = "" /\ fk_Deferrable k = "" /\ fk_NotValid k = false /\ fk_NotEnforced k = false /\
  fk_Temporal k = false /\ DeleteSetColumns k = [] /\
  (ReferencedSchema k = "" \/ d_Supports d CapabilityQualifiedReference = true \/ ReferencedSchema k = Schema t).
Definition foreign_key_sql (k : ForeignKeyDef) : string :=
  constraint_sql (fk_Name k)
    ("FOREIGN KEY (" +:+ names_sql (fk_Columns k) +:+ ") REFERENCES "
     +:+ qualified_sql (if d_Supports d CapabilityQualifiedReference then ReferencedSchema k else "") (ReferencedTable k)
     +:+ " (" +:+ names_sql (ReferencedColumns k) +:+ ")")
    +:+ action_clause d " ON DELETE " (OnDelete k) +:+ action_clause d " ON UPDATE " (OnUpdate k).

(** MySQL wants one identity column at most, at the head of a key. *)
Definition identity_keyed (t : TableDef) : Prop :=
  match identity_columns t with
  | [] => True
  | [c] => mysqlIdentityColumnLeadsAKey t (Column_Name c) = true
  | _ => False
  end.
(** SQLite's [AUTOINCREMENT]: the one plain integer primary-key column. *)
Definition autoincrement_plain (t : TableDef) (name : string) : Prop :=
  sqlite d = true /\ PrimaryKey t = [name] /\ PrimaryKeyOnConflict t = "" /\
  exists c, Column t name = Some c /\ Column_Type c = Some (IntegerType false None false) /\
    Column_Nullable c = false /\ Column_Default c = "" /\ NativeType c = None /\ Identity c = "" /\
    GeneratedExpression c = "" /\ Column_Collation c = "".
Definition table_renderable (t : TableDef) : Prop :=
  VirtualTableModule t = "" /\ Strict t = false /\ WithoutRowID t = false /\ PrimaryKeyOnConflict t = "" /\
  (mysql d = true -> identity_keyed t) /\
  (PrimaryKeyAutoincrement t = true -> exists name, autoincrement_plain t name) /\
  Forall (column_renderable t) (Columns t) /\ keyable t (PrimaryKey t) /\
  Forall (unique_renderable t) (UniqueConstraints t) /\ Forall check_renderable (Checks t) /\
  ExclusionConstraints t = [] /\ Forall (foreign_key_renderable t) (ForeignKeys t).

(** With [AUTOINCREMENT] the key is declared by its column. *)
Definition table_column_sql (t : TableDef) (c : ColumnDef) : string :=
  column_sql t c +:+
  (if PrimaryKeyAutoincrement t && bool_decide (PrimaryKey t = [Column_Name c]) then " PRIMARY KEY AUTOINCREMENT" else "").
Definition primary_key_sql (t : TableDef) : list string :=
  if PrimaryKeyAutoincrement t || bool_decide (PrimaryKey t = []) then []
  else ["PRIMARY KEY (" +:+ names_sql (PrimaryKey t) +:+ ")"].
Definition table_sql (t : TableDef) : string :=
  "CREATE TABLE " +:+ qualified_sql (Schema t) (Name t) +:+ " (" +:+
  Join (map (table_column_sql t) (Columns t) ++ primary_key_sql t ++ map unique_sql (UniqueConstraints t) ++
        map check_sql (Checks t) ++ map foreign_key_sql (ForeignKeys t)) ", " +:+ ")".

Definition index_renderable (t : TableDef) (i : IndexDef) : Prop :=
  ix_Method i = "" /\ (Predicate i = "" \/ d_Supports d CapabilityPartialIndex = true) /\ Expressions i = [] /\
  ix_IncludeColumns i = [] /\ Invisible i = false /\ ix_Keys i = [] /\ ix_NotValid i = false /\
  ix_StorageParameters i = [] /\ ix_Tablespace i = "" /\ ix_ReplicaIdentity i = false /\
  ix_NullsNotDistinct i = false /\ keyable t (ix_Columns i) /\
  (Schema t = "" \/ d_Supports d CapabilityQualifiedIndexTarget = true \/ d_Supports d CapabilityQualifiedIndexName = true).
(** One of the two names carries the schema. *)
Definition index_sql (t : TableDef) (i : IndexDef) : string :=
  let on_table := d_Supports d CapabilityQualifiedIndexTarget in
  "CREATE " +:+ (if ix_Unique i then "UNIQUE " else "") +:+ "INDEX "
    +:+ qualified_sql (if on_table then "" else Schema t) (ix_Name i) +:+ " ON "
    +:+ qualified_sql (if on_table then Schema t else "") (Name t)
    +:+ " (" +:+ names_sql (ix_Columns i) +:+ ")"
    +:+ (if unset (Predicate i) then "" else " WHERE " +:+ Predicate i).


(** *** Names *)
Lemma quote_ok n : ident n -> quoteIdentifier d n = Ok (quoted n).
Proof. intros H. unfold quoteIdentifier. by rewrite (quotes n H). Qed.
Lemma qualified_ok schema n : optional_ident schema -> ident n -> quoteQualified d schema n = Ok (qualified_sql schema n).
Proof.
  intros Hs Hn. unfold quoteQualified, qualified_sql, unset. rewrite (quote_ok n Hn).
  destruct (String.eqb_spec schema ""); [done|]. destruct Hs as [|Hs]; [done|]. by rewrite (quote_ok schema Hs).
Qed.
Lemma quotedNames_ok names : Forall ident names -> quotedNames d names = Ok (map quoted names).
Proof.
  intros H. unfold quotedNames. apply foldi_collected. exists (map quoted names). split; [done|].
  induction H; constructor; [by apply quote_ok|done].
Qed.
Lemma constraint_ok n definition : optional_ident n -> constraint_named d n definition = Ok (constraint_sql n definition).
Proof.
  intros Hn. unfold constraint_named, constraint_sql, unset. destruct (String.eqb_spec n ""); [done|].
  destruct Hn as [|Hn]; [done|]. by rewrite (quote_ok n Hn).
Qed.
Lemma keyable_ok t names context : rejectUnboundedMySQLText d t names context = Ok tt <-> keyable t names.
Proof.
  unfold rejectUnboundedMySQLText, keyable. destruct (mysql d); simpl; [|naive_solver].
  rewrite (checki_Forall _ (fun n => unbounded_text t n = false)); [naive_solver|]. intros _ n. apply refuse_if_ok.
Qed.
Lemma negb_unset s : negb (unset s) = false <-> s = "".
Proof. by rewrite negb_false_iff, unset_true. Qed.

(** *** Definitions *)
Lemma unique_definition_ok t c sql : optional_ident (uq_Name c) -> Forall ident (uq_Columns c) ->
  unique_definition d t c = Ok sql <-> unique_renderable t c /\ sql = unique_sql c.
Proof.
  intros Hn Hc. unfold unique_definition, unique_refusal, unique_renderable.
  rewrite !check_ok, !refuse_if_ok, !length_pos, !negb_unset, keyable_ok, (quotedNames_ok _ Hc), (constraint_ok _ _ Hn).
  unfold unique_sql, names_sql. naive_solver.
Qed.
Lemma check_definition_ok c sql : optional_ident (ck_Name c) ->
  check_definition d c = Ok sql <-> check_renderable c /\ sql = check_sql c.
Proof.
  intros Hn. unfold check_definition, check_renderable. rewrite !check_ok, !refuse_if_ok, (constraint_ok _ _ Hn).
  unfold check_sql. naive_solver.
Qed.
Lemma referenced_ok t k sql : optional_ident (ReferencedSchema k) -> ident (ReferencedTable k) ->
  qualifiedReferencedTable d t k = Ok sql <->
  (ReferencedSchema k = "" \/ d_Supports d CapabilityQualifiedReference = true \/ ReferencedSchema k = Schema t) /\
  sql = qualified_sql (if d_Supports d CapabilityQualifiedReference then ReferencedSchema k else "") (ReferencedTable k).
Proof.
  intros Hs Ht. unfold qualifiedReferencedTable. rewrite (quote_ok _ Ht), (qualified_ok _ _ Hs Ht). unfold unset.
  destruct (String.eqb_spec (ReferencedSchema k) "") as [E|E].
  { rewrite E. destruct (d_Supports d CapabilityQualifiedReference); unfold qualified_sql; simpl; naive_solver. }
  destruct (d_Supports d CapabilityQualifiedReference); [naive_solver|].
  destruct (String.eqb_spec (ReferencedSchema k) (Schema t)); unfold qualified_sql; simpl; naive_solver.
Qed.
Lemma foreign_key_definition_ok t k sql : optional_ident (fk_Name k) -> Forall ident (fk_Columns k) ->
  Forall ident (ReferencedColumns k) -> optional_ident (ReferencedSchema k) -> ident (ReferencedTable k) ->
  foreignKeyDefinition d t k = Ok sql <-> foreign_key_renderable t k /\ sql = foreign_key_sql k.
Proof.
  intros Hn Hc Hr Hs Ht. unfold foreignKeyDefinition, foreign_key_refusal, foreign_key_renderable.
  rewrite !check_ok, !refuse_if_ok, !length_pos, !negb_unset, (quotedNames_ok _ Hc).
  rewrite do_ok. setoid_rewrite (referenced_ok t k _ Hs Ht). rewrite (quotedNames_ok _ Hr).
  setoid_rewrite (constraint_ok _ _ Hn). unfold foreign_key_sql, names_sql. naive_solver.
Qed.
Lemma type_refusal_ok c : type_refusal c = Ok tt <->
  match Column_Type c with
  | Some (IntegerType _ width zerofill) => width = None /\ zerofill = false
  | Some (DecimalType _ _ unsigned zerofill) => unsigned = false /\ zerofill = false
  | _ => True
  end.
Proof.
  unfold type_refusal. destruct (Column_Type c) as [[]|]; try done.
  - destruct DisplayWidth; [naive_solver|]. rewrite refuse_if_ok. naive_solver.
  - rewrite check_ok, !refuse_if_ok. naive_solver.
Qed.
Lemma names_apart : postgresql d && mysql d = false.
Proof. unfold postgresql, mysql. by destruct (String.eqb_spec (d_Name d) "postgresql") as [->|]. Qed.
Lemma identity_ok c sql : IdentityGeneration_valid (Identity c) = true ->
  (if unset (Identity c) then Ok "" else identityClause d c) = Ok sql <->
  identity_renderable c /\ sql = identity_sql c.
Proof.
  intros Hv. pose proof names_apart as Hd. unfold identity_renderable, identity_sql, identityClause, unset.
  assert (Identity c = "" \/ Identity c = IdentityAlways \/ Identity c = IdentityByDefault) as Hi.
  { unfold IdentityGeneration_valid, one_of in Hv. simpl in Hv. rewrite orb_false_r, !orb_true_iff, !String.eqb_eq in Hv. done. }
  destruct Hi as [E|[E|E]]; rewrite E; simpl; [naive_solver|..];
    destruct (postgresql d), (mysql d); simpl in Hd |- *; naive_solver.
Qed.
Lemma column_definition_ok t auto c sql : ident (Column_Name c) -> optional_ident (Column_Collation c) ->
  IdentityGeneration_valid (Identity c) = true ->
  column_definition d t auto c = Ok sql <->
  column_renderable t c /\
  sql = column_sql t c +:+ (if String.eqb (Column_Name c) auto then " PRIMARY KEY AUTOINCREMENT" else "").
Proof.
  intros Hn Hc Hv. unfold column_definition, columnDefinition, column_renderable.
  rewrite do_ok. setoid_rewrite check_ok. setoid_rewrite check_ok. rewrite (quote_ok _ Hn).
  unfold column_sql, type_sql.
  destruct (column_type_name d (Name t) c) as [ty|e]; [|naive_solver].
  assert ((if unset (Column_Collation c) then Ok "" else do collation <- quoteIdentifier d (Column_Collation c); Ok (" COLLATE " +:+ collation)) =
    Ok (if unset (Column_Collation c) then "" else " COLLATE " +:+ quoted (Column_Collation c))) as ->.
  { unfold unset. destruct (String.eqb_spec (Column_Collation c) ""); [done|]. destruct Hc as [|Hc]; [done|]. by rewrite (quote_ok _ Hc). }
  setoid_rewrite refuse_if_ok. setoid_rewrite negb_unset. setoid_rewrite type_refusal_ok. setoid_rewrite do_ok.
  setoid_rewrite (identity_ok c _ Hv).
  match goal with |- context [match Column_Type c with _ => _ end] => set (Q := match Column_Type c with _ => _ end) end.
  destruct (String.eqb (Column_Name c) auto); split.
  - intros (x & (H1 & H2 & y & (H3 & ->) & [= <-]) & [= <-]). done.
  - intros ((H1 & H2 & _ & H3) & ->). eexists. split; [|reflexivity]. eauto 10.
  - intros (x & (H1 & H2 & y & (H3 & ->) & [= <-]) & [= <-]). by rewrite sapp_nil_r.
  - intros ((H1 & H2 & _ & H3) & ->). rewrite sapp_nil_r. eexists. split; [|reflexivity]. eauto 10.
Qed.

Lemma definitions_ok {A} (f : A -> result string) (P : A -> Prop) (sql : A -> string) l acc out :
  (forall x, x ∈ l -> forall s, f x = Ok s <-> P x /\ s = sql x) ->
  definitions_of f l acc = Ok out <-> Forall P l /\ out = acc ++ map sql l.
Proof.
  intros H. unfold definitions_of. rewrite foldi_collected.
  assert (forall vs, Forall2 (fun x v => f x = Ok v) l vs <-> Forall P l /\ vs = map sql l) as E.
  2:{ setoid_rewrite E. naive_solver. }
  induction l as [|x l IH]; intros vs; simpl.
  { split; [intros ->%Forall2_nil_inv_l; split; [constructor|done]|intros [_ ->]; constructor]. }
  rewrite Forall_cons. assert (forall vs, Forall2 (fun x v => f x = Ok v) l vs <-> Forall P l /\ vs = map sql l) as IH'.
  { apply IH. intros y Hy. apply H. by right. }
  split.
  - intros (v & vs' & Hv & Hvs & ->)%Forall2_cons_inv_l. apply IH' in Hvs as [? ->].
    apply (H x ltac:(left)) in Hv as [? ->]. done.
  - intros [[Hx Hl] ->]. constructor; [by apply (H x ltac:(left))|by apply IH'].
Qed.

Lemma collected {A B} (f : A -> result string) (g : string -> B) (P : A -> Prop) (sql : A -> string) l vs :
  (forall x, x ∈ l -> forall s, f x = Ok s <-> P x /\ s = sql x) ->
  Forall2 (fun x v => (do s <- wrap_err (Error_ d) (f x); Ok (g s)) = Ok v) l vs <->
  Forall P l /\ vs = map (fun x => g (sql x)) l.
Proof.
  revert vs. induction l as [|x l IH]; intros vs H; simpl.
  { split; [intros ->%Forall2_nil_inv_l; split; [constructor|done]|intros [_ ->]; constructor]. }
  assert (forall y, y ∈ l -> forall s, f y = Ok s <-> P y /\ s = sql y) as H' by (intros y Hy; apply H; by right).
  rewrite Forall_cons. split.
  - intros (v & vs' & Hv & Hvs & ->)%Forall2_cons_inv_l. apply (IH vs' H') in Hvs as [? ->].
    apply do_ok in Hv as (s & Hs & [= <-]). apply wrap_err_ok, (H x ltac:(left)) in Hs as [? ->]. done.
  - intros [[Hx Hl] ->]. constructor; [|by apply IH].
    apply do_ok. exists (sql x). split; [|done]. apply wrap_err_ok. by apply (H x ltac:(left)).
Qed.
Lemma statements_ok (f : IndexDef -> result string) (P : IndexDef -> Prop) sql l acc out :
  (forall x, x ∈ l -> forall s, f x = Ok s <-> P x /\ s = sql x) ->
  foldi (fun _ x statements => do s <- wrap_err (Error_ d) (f x); Ok (statements ++ [MkStatement s []])) 0 l acc = Ok out <->
  Forall P l /\ out = acc ++ map (fun x => MkStatement (sql x) []) l.
Proof.
  intros H. pose proof (foldi_collected (fun x => do s <- wrap_err (Error_ d) (f x); Ok (MkStatement s [])) 0 l acc out) as E.
  rewrite (foldi_ext _ (fun _ x l => do v <- (do s <- wrap_err (Error_ d) (f x); Ok (MkStatement s [])); Ok (l ++ [v]))).
  2:{ intros i x u. by destruct (wrap_err (Error_ d) (f x)). }
  rewrite E. setoid_rewrite (collected f (fun s => MkStatement s []) P sql l _ H). naive_solver.
Qed.

(** *** The key *)
Lemma identity_keyed_ok t : checkMySQLIdentityKeyness d t = Ok tt <-> identity_keyed t.
Proof.
  unfold checkMySQLIdentityKeyness, identity_keyed. destruct (identity_columns t) as [|c [|c' l]]; [done| |done].
  by rewrite refuse_if_ok, negb_false_iff.
Qed.
Lemma autoincrement_ok t name : sqliteAutoincrementColumn d t = Ok name <-> autoincrement_plain t name.
Proof.
  unfold sqliteAutoincrementColumn, autoincrement_plain.
  destruct (sqlite d); simpl; [|naive_solver]. destruct (PrimaryKey t) as [|n [|]]; simpl; [naive_solver| |naive_solver].
  unfold unset at 1. destruct (String.eqb_spec (PrimaryKeyOnConflict t) ""); simpl; [|naive_solver].
  destruct (Column t n) as [c|] eqn:Ec; [|naive_solver].
  split.
  - intros H. destruct (Column_Type c) as [[| [] [] []| | | | | | | | |]|] eqn:Et; try discriminate H.
    destruct (_ || _) eqn:E in H; [discriminate H|]. injection H as <-.
    rewrite !orb_false_iff, !negb_unset in E. destruct E as (((((E1 & E2) & E3) & E4) & E5) & E6).
    split; [done|]. split; [done|]. split; [done|]. exists c. destruct (NativeType c); [done|]. naive_solver.
  - intros (_ & [= ->] & _ & c' & Hc' & Ht & H1 & H2 & H3 & H4 & H5 & H6). rewrite Ec in Hc'. injection Hc' as <-.
    by rewrite Ht, H1, H2, H3, H4, H5, H6.
Qed.
Lemma primary_key_ok t auto l : Forall ident (PrimaryKey t) ->
  primary_key_definition d t auto = Ok l <->
  (PrimaryKey t = [] \/ (PrimaryKeyOnConflict t = "" /\ keyable t (PrimaryKey t))) /\
  l = if negb (unset auto) || bool_decide (PrimaryKey t = []) then [] else ["PRIMARY KEY (" +:+ names_sql (PrimaryKey t) +:+ ")"].
Proof.
  intros Hk. unfold primary_key_definition. destruct (Nat.eqb_spec (length (PrimaryKey t)) 0) as [E|E].
  { destruct (PrimaryKey t); [|done]. rewrite bool_decide_eq_true_2, orb_true_r by done. naive_solver. }
  assert (PrimaryKey t <> []) as Hne by (intros H; by rewrite H in E).
  rewrite !check_ok, refuse_if_ok, negb_unset, keyable_ok, (quotedNames_ok _ Hk), bool_decide_eq_false_2, orb_false_r by done.
  unfold names_sql. destruct (negb (unset auto)); naive_solver.
Qed.

(** *** Legal names of a well-formed table *)
Lemma column_names_ident t : table_wf t -> Forall ident (column_names t).
Proof.
  intros (_ & _ & _ & _ & _ & _ & _ & H & _). unfold column_names. apply Forall_fmap.
  eapply Forall_impl; [exact H|]. intros c Hc. apply Hc.
Qed.
Lemma listed_ident t names : table_wf t -> listed (column_names t) names -> Forall ident names.
Proof.
  intros Hw [_ H]. eapply Forall_impl; [exact H|]. intros n Hn.
  pose proof (column_names_ident t Hw) as Hi. rewrite Forall_forall in Hi. by apply Hi.
Qed.
Lemma stated_ident names n : Forall ident (stated names) -> n ∈ names -> optional_ident n.
Proof.
  intros H Hn. destruct (decide (n = "")); [by left|]. right. rewrite Forall_forall in H. apply H.
  unfold stated. by apply list_elem_of_filter.
Qed.
Lemma constraint_ident t n : table_wf t ->
  n ∈ (uq_Name <$> UniqueConstraints t) ++ (ck_Name <$> Checks t) ++ (ex_Name <$> ExclusionConstraints t) ++
      (fk_Name <$> ForeignKeys t) -> optional_ident n.
Proof.
  intros (_ & _ & _ & _ & _ & _ & _ & _ & _ & _ & _ & H & _) Hn. by eapply stated_ident.
Qed.
Lemma unique_columns_ident t c : table_wf t -> c ∈ UniqueConstraints t -> Forall ident (uq_Columns c).
Proof.
  intros Hw Hc. pose proof Hw as (_ & _ & _ & _ & _ & _ & _ & _ & _ & _ & _ & _ & H & _).
  rewrite Forall_forall in H. destruct (H c Hc) as [Hk _]. destruct (decide (uq_Keys c = [])) as [E|E].
  - destruct Hk as [_ Hk]. by eapply listed_ident.
  - destruct Hk as [-> _]. constructor.
Qed.

Definition auto_column (t : TableDef) (auto : string) : Prop :=
  if PrimaryKeyAutoincrement t then autoincrement_plain t auto else auto = "".
Lemma auto_ok t auto :
  (if PrimaryKeyAutoincrement t then sqliteAutoincrementColumn d t else Ok "") = Ok auto <-> auto_column t auto.
Proof. unfold auto_column. destruct (PrimaryKeyAutoincrement t); [apply autoincrement_ok|naive_solver]. Qed.
Lemma auto_suffix t auto c : auto_column t auto -> ident (Column_Name c) ->
  String.eqb (Column_Name c) auto = PrimaryKeyAutoincrement t && bool_decide (PrimaryKey t = [Column_Name c]).
Proof.
  unfold auto_column. destruct (PrimaryKeyAutoincrement t); simpl.
  - intros (_ & -> & _) _. destruct (String.eqb_spec (Column_Name c) auto) as [->|E].
    + by rewrite bool_decide_eq_true_2.
    + rewrite bool_decide_eq_false_2; [done|]. congruence.
  - intros -> (Hn & _). by apply String.eqb_neq.
Qed.
Lemma auto_unset t auto : table_wf t -> auto_column t auto -> unset auto = negb (PrimaryKeyAutoincrement t).
Proof.
  intros Hw. unfold auto_column. destruct (PrimaryKeyAutoincrement t); [|by intros ->].
  intros (_ & Hk & _). apply unset_false.
  pose proof Hw as (_ & _ & _ & _ & _ & _ & _ & _ & Hl & _). apply (listed_ident t) in Hl; [|done].
  rewrite Hk in Hl. apply Forall_inv in Hl. apply Hl.
Qed.

Lemma columns_ok t auto out : table_wf t -> auto_column t auto ->
  definitions_of (column_definition d t auto) (Columns t) [] = Ok out <->
  Forall (column_renderable t) (Columns t) /\ out = map (table_column_sql t) (Columns t).
Proof.
  intros Hw Ha.
  assert (forall c, c ∈ Columns t -> column_wf (VirtualTableModule t) c) as Hc.
  { pose proof Hw as (_ & _ & _ & _ & _ & _ & _ & H & _). by rewrite Forall_forall in H. }
  apply (definitions_ok _ (column_renderable t) (table_column_sql t) _ []). intros c Hin sql. destruct (Hc c Hin) as (Hn & _ & _ & Hcol & _ & _ & Hi & _).
  rewrite column_definition_ok by done. unfold table_column_sql. by rewrite (auto_suffix t auto c Ha Hn).
Qed.

Lemma uniques_ok t acc out : table_wf t ->
  definitions_of (unique_definition d t) (UniqueConstraints t) acc = Ok out <->
  Forall (unique_renderable t) (UniqueConstraints t) /\ out = acc ++ map unique_sql (UniqueConstraints t).
Proof.
  intros Hw. apply definitions_ok. intros c Hin s. apply unique_definition_ok; [|by apply (unique_columns_ident t)].
  apply (constraint_ident t); [done|]. apply elem_of_app. left. by apply list_elem_of_fmap_2.
Qed.
Lemma checks_ok t acc out : table_wf t ->
  definitions_of (check_definition d) (Checks t) acc = Ok out <->
  Forall check_renderable (Checks t) /\ out = acc ++ map check_sql (Checks t).
Proof.
  intros Hw. apply definitions_ok. intros c Hin s. apply check_definition_ok.
  apply (constraint_ident t); [done|]. rewrite !elem_of_app. right. left. by apply list_elem_of_fmap_2.
Qed.
Lemma foreign_keys_ok t acc out : table_wf t ->
  definitions_of (foreignKeyDefinition d t) (ForeignKeys t) acc = Ok out <->
  Forall (foreign_key_renderable t) (ForeignKeys t) /\ out = acc ++ map foreign_key_sql (ForeignKeys t).
Proof.
  intros Hw. pose proof Hw as (_ & _ & _ & _ & _ & _ & _ & _ & _ & _ & _ & _ & _ & _ & _ & _ & _ & Hf).
  rewrite Forall_forall in Hf. apply definitions_ok. intros k Hin s.
  destruct (Hf k Hin) as (_ & Hl & Hs & Ht & _ & Hr & _).
  apply foreign_key_definition_ok; [|by eapply listed_ident|done..].
  apply (constraint_ident t); [done|]. rewrite !elem_of_app. do 3 right. by apply list_elem_of_fmap_2.
Qed.
Lemma writeCreateTable_ok t sql : table_wf t ->
  writeCreateTable d t = Ok sql <-> table_renderable t /\ sql = table_sql t.
Proof.
  intros Hw. pose proof Hw as (_ & _ & Hs & Hn & _ & _ & _ & _ & Hpk & (_ & Hopt & _) & _).
  apply (listed_ident t _ Hw) in Hpk.
  assert ((if mysql d then checkMySQLIdentityKeyness d t else Ok tt) = Ok tt <-> (mysql d = true -> identity_keyed t)) as Hid.
  { destruct (mysql d); [rewrite identity_keyed_ok|]; naive_solver. }
  unfold writeCreateTable. rewrite !check_ok, !refuse_if_ok, negb_unset, Hid. clear Hid.
  rewrite do_ok. setoid_rewrite auto_ok. rewrite (qualified_ok _ _ Hs Hn).
  split.
  - intros (H1 & H2 & H3 & H4 & H5 & auto & Hauto & H).
    apply do_ok in H as (cols & Hcols & H). apply columns_ok in Hcols as [Hcr ->]; [|done..].
    apply do_ok in H as (pk & Hpks & H). apply primary_key_ok in Hpks as [Hpr ->]; [|done].
    apply do_ok in H as (us & Hus & H). apply uniques_ok in Hus as [Hur ->]; [|done].
    apply do_ok in H as (cs & Hcs & H). apply checks_ok in Hcs as [Hckr ->]; [|done].
    apply check_ok in H as [Hex H].
    apply do_ok in H as (fs & Hfs & H). apply foreign_keys_ok in Hfs as [Hfr ->]; [|done].
    apply Ok_inj in H as <-. split; [|rewrite (auto_unset t auto Hw Hauto), negb_involutive, <- !app_assoc; reflexivity].
    assert (PrimaryKeyOnConflict t = "" /\ keyable t (PrimaryKey t)) as [Hcon Hkey].
    { destruct Hpr as [E|[? ?]]; [|done]. split; [by apply Hopt|]. rewrite E. intros _. constructor. }
    unfold table_renderable. split_and!; try done.
    + intros Hp. exists auto. unfold auto_column in Hauto. by rewrite Hp in Hauto.
    + by destruct (ExclusionConstraints t).
  - intros ((H1 & H2 & H3 & H4 & H5 & H6 & Hcr & Hkey & Hur & Hckr & Hex & Hfr) & ->).
    assert (exists auto, auto_column t auto) as [auto Hauto].
    { unfold auto_column. destruct (PrimaryKeyAutoincrement t); [by apply H6|by exists ""]. }
    split_and!; try done; [rewrite H4; by rewrite andb_false_r|].
    exists auto. split; [done|].
    rewrite (proj2 (columns_ok t auto _ Hw Hauto) (conj Hcr eq_refl)).
    rewrite (proj2 (primary_key_ok t auto _ Hpk) (conj (or_intror (conj H4 Hkey)) eq_refl)).
    rewrite (proj2 (uniques_ok t _ _ Hw) (conj Hur eq_refl)), (proj2 (checks_ok t _ _ Hw) (conj Hckr eq_refl)), Hex.
    rewrite (proj2 (foreign_keys_ok t _ _ Hw) (conj Hfr eq_refl)).
    rewrite (auto_unset t auto Hw Hauto), negb_involutive, <- !app_assoc. reflexivity.
Qed.

(** *** Indexes *)
Lemma index_names_ok t i names : table_wf t -> ident (ix_Name i) ->
  qualifiedIndexNames d t i = Ok names <->
  (Schema t = "" \/ d_Supports d CapabilityQualifiedIndexTarget = true \/ d_Supports d CapabilityQualifiedIndexName = true) /\
  names = (qualified_sql (if d_Supports d CapabilityQualifiedIndexTarget then "" else Schema t) (ix_Name i),
           qualified_sql (if d_Supports d CapabilityQualifiedIndexTarget then Schema t else "") (Name t)).
Proof.
  intros (_ & _ & Hs & Hn & _) Hi. unfold qualifiedIndexNames.
  rewrite (quote_ok _ Hi), (quote_ok _ Hn), (qualified_ok _ _ Hs Hi), (qualified_ok _ _ Hs Hn). unfold unset.
  destruct (String.eqb_spec (Schema t) "") as [E|E].
  { rewrite E. unfold qualified_sql. destruct (d_Supports d CapabilityQualifiedIndexTarget); simpl; naive_solver. }
  destruct (d_Supports d CapabilityQualifiedIndexTarget); [naive_solver|].
  destruct (d_Supports d CapabilityQualifiedIndexName); unfold qualified_sql; simpl; naive_solver.
Qed.
Lemma writeCreateIndex_ok t i sql : table_wf t -> i ∈ Indexes t ->
  writeCreateIndex d t i = Ok sql <-> index_renderable t i /\ sql = index_sql t i.
Proof.
  intros Hw Hin. pose proof Hw as (_ & _ & _ & _ & _ & _ & _ & _ & _ & _ & _ & _ & _ & _ & _ & _ & Hi & _).
  rewrite Forall_forall in Hi. destruct (Hi i Hin) as (Hn & Hk & _).
  assert (Forall ident (ix_Columns i)) as Hc.
  { destruct (decide (ix_Keys i = [])), (decide (Expressions i = [])); destruct Hk as [Hk1 Hk2];
      [by eapply listed_ident|by rewrite Hk1; constructor..]. }
  unfold writeCreateIndex, index_refusal, index_renderable.
  rewrite !check_ok, !refuse_if_ok, !length_pos, keyable_ok, do_ok. setoid_rewrite (index_names_ok t i _ Hw Hn).
  rewrite !negb_unset, (quotedNames_ok _ Hc), andb_false_iff, negb_unset, negb_false_iff.
  unfold index_sql, names_sql. naive_solver.
Qed.

(** C28 Schema DDL. For a dialect that quotes legal identifiers, [CreateTable]
    succeeds exactly on the well-formed descriptors with none of the facts the
    package can describe but not yet render, no generated or untranslatable
    column, and within MySQL's and SQLite's rules for identity, AUTOINCREMENT
    and unbounded text keys; and then the text is the
    [CREATE TABLE] with one definition per column, key, unique constraint,
    check and foreign key, in order; [CreateIndexes] likewise, with the schema
    on the one of the two names the dialect qualifies. The table's kind is not
    rendered (a view comes out as a table), nor is a column's portable type
    when it has a native one. *)
Theorem ddl_exact :
  (forall t s, CreateTable d t = Ok s <->
     table_wf t /\ table_renderable t /\ s = MkStatement (table_sql t) []) /\
  (forall t l, CreateIndexes d t = Ok l <->
     table_wf t /\ Forall (index_renderable t) (Indexes t) /\
     l = map (fun i => MkStatement (index_sql t i) []) (Indexes t)).
Proof.
  split.
  - intros t s. unfold CreateTable. pose proof (Table_Validate_ok t) as Hv.
    destruct (Table_Validate t) as [[]|e]; [|naive_solver]. destruct Hv as [Hw _]. specialize (Hw eq_refl).
    rewrite do_ok. setoid_rewrite wrap_err_ok. setoid_rewrite (writeCreateTable_ok t _ Hw). naive_solver.
  - intros t l. unfold CreateIndexes. pose proof (Table_Validate_ok t) as Hv.
    destruct (Table_Validate t) as [[]|e]; [|naive_solver]. destruct Hv as [Hw _]. specialize (Hw eq_refl).
    pose proof (statements_ok (writeCreateIndex d t) (index_renderable t) (index_sql t) (Indexes t) [] l
      (fun i Hin s => writeCreateIndex_ok t i s Hw Hin)) as E. rewrite E. naive_solver.
Qed.
End Exact.

(** The built-in dialects quote every legal identifier. *)
Definition builtin_quoted (b : builtin) (n : string) : string :=
  str1 (quote b) +:+ ReplaceAll n (str1 (quote b)) (str1 (quote b) +:+ str1 (quote b)) +:+ str1 (quote b).
Lemma builtin_quotes b c n : ident n -> d_QuoteIdentifier (builtin_dialect b c) n = Ok (builtin_quoted b n).
Proof. intros H. simpl. unfold QuoteIdentifier. by rewrite (proj2 (ident_ok n) H). Qed.

Definition sample_table : TableDef :=
  match NewTableDef "users" [Some (InSchema "app"); Some (Integer "id" [Some (Identity_ IdentityByDefault)]);
          Some (Text "email" [Some (Width_ 120); Some Fixed_]); Some (PrimaryKey_ ["id"]);
          Some (UniqueNamed "email_key" ["email"]); Some (Index_ "email_idx" ["email"]);
          Some (ForeignKey "id" [Some (ReferencesIn "hr" "people" ["id"]); Some (OnDelete_ Cascade)])] with
  | Ok t => t | Err _ => table_of "" "" "" 0 [] end.
Lemma ddl_exact_witness :
  (exists sql, CreateTable MySQL sample_table = Ok (MkStatement sql []) /\
     sql = "CREATE TABLE `app`.`users` (`id` BIGINT NOT NULL AUTO_INCREMENT, `email` CHAR(120) NOT NULL, PRIMARY KEY (`id`), CONSTRAINT `email_key` UNIQUE (`email`), FOREIGN KEY (`id`) REFERENCES `hr`.`people` (`id`) ON DELETE CASCADE)") /\
  table_renderable MySQL sample_table /\ ~ table_renderable SQLite sample_table.
Proof.
  pose proof (proj1 (ddl_exact MySQL (builtin_quoted mysql_builtin) (builtin_quotes mysql_builtin None)) sample_table) as My.
  pose proof (proj1 (ddl_exact SQLite (builtin_quoted sqlite_builtin) (builtin_quotes sqlite_builtin (Some sqliteIdentifiersEqual))) sample_table) as Lite.
  destruct (CreateTable MySQL sample_table) as [s|e] eqn:E; [|vm_compute in E; discriminate E].
  destruct (proj1 (My s) eq_refl) as (Hw & Hr & Hs). split; [|split; [exact Hr|]].
  - exists (table_sql MySQL (builtin_quoted mysql_builtin) sample_table). split; [rewrite Hs; reflexivity|vm_compute; reflexivity].
  - intros H. pose proof (proj2 (Lite _) (conj Hw (conj H eq_refl))) as X. vm_compute in X. discriminate X.
Defined.
