(* ===== verification/NamedSql.v ===== *)
(** * NamedSql: [namedsql/namedsql.go]

    Templates with [{{bind "name"}}] actions: parsing, compiling to a
    dialect's placeholders, and binding values.  The stored copies Go makes of
    its slices are not visible through these values.  Parsing is compared with
    a grammar of templates that does not use the parser. *)

From S2P Require Import Prelude GoText SqlScan Schema Dialect Query Render.
Open Scope string_scope.
Open Scope list_scope.
Open Scope nat_scope.

(** ** Data *)
Record columnRef := MkRef { ref_schema : string; ref_table : string; ref_column : string }.
#[export] Instance columnRef_eq_dec : EqDecision columnRef.
Proof. solve_decision. Defined.
Definition no_ref : columnRef := MkRef "" "" "".
Definition stated (r : columnRef) : bool := negb (String.eqb (ref_column r) "").
Definition ref_String (r : columnRef) : string :=
  if negb (String.eqb (ref_schema r) "")
  then ref_schema r +:+ "." +:+ ref_table r +:+ "." +:+ ref_column r
  else ref_table r +:+ "." +:+ ref_column r.
Definition columnRefDescription (r : columnRef) : string :=
  if negb (stated r) then "no column" else "column " +:+ ref_String r.

Record templatePart := MkPart { part_text : string; bindIndex : nat; isBindPart : bool }.
Record Template := MkTemplate {
  t_name : string; t_parts : list templatePart; t_parameters : list string;
  t_uniqueNames : list string; t_columnRefs : list columnRef }.
Record Compiled := MkCompiled {
  c_name : string; c_sql : string; c_parameters : list string; c_uniqueNames : list string;
  c_columnRefs : list columnRef }.
Record BindDef := MkBindDef { bd_Name : string; bd_Schema : string; bd_Table : string; bd_Column : string }.
Record QueryDef := MkQueryDef {
  qd_Name : string; qd_SQL : string; qd_Parameters : list string; qd_Binds : list BindDef }.

(** ** Parsing one action *)
Definition parseColumnRef (text : string) : result columnRef :=
  if HasPrefix text (str1 dquote)
  then Err (errors_New "column reference must not be quoted; write table.column, not a Go type name")
  else
    let parts := Split text "." in
    if negb (length parts =? 2) && negb (length parts =? 3)
    then Err (Errorf "invalid column reference %q: must be table.column or schema.table.column" [AStr text])
    else
      check checki (fun _ part =>
        wrap_err (fun e => Errorf "invalid column reference %q: %w" [AStr text; AErr e])
          (ValidateSimpleIdentifier part)) 0 parts;
      match parts with
      | [t; c] => Ok (MkRef "" t c)
      | [s; t; c] => Ok (MkRef s t c)
      | _ => Ok no_ref
      end.

Definition bad_action : error :=
  errors_New "actions must use bind with one quoted parameter name, optionally followed by a column reference".

Definition bind_name (field : string) : result string :=
  match Unquote field with
  | None => Err (errors_New "parameter name must be quoted")
  | Some name =>
      check wrap_err (fun e => Errorf "invalid parameter name: %w" [AErr e]) (ValidateSimpleIdentifier name);
      Ok name
  end.

Definition parseBindAction (action : string) : result (string * columnRef) :=
  match Fields action with
  | [w; field] =>
      if negb (String.eqb w "bind") then Err bad_action
      else do name <- bind_name field; Ok (name, no_ref)
  | [w; field; reference] =>
      if negb (String.eqb w "bind") then Err bad_action
      else do name <- bind_name field; do ref <- parseColumnRef reference; Ok (name, ref)
  | _ => Err bad_action
  end.

(** ** [Parse] *)
Record parse_state := MkParse {
  ps_parts : list templatePart; ps_parameters : list string; ps_uniqueNames : list string;
  ps_columnRefs : list columnRef; ps_seen : gmap string columnRef }.
Definition parse_start : parse_state := MkParse [] [] [] [] ∅.

Definition add_literal (literal : string) (st : parse_state) : parse_state :=
  if String.eqb literal "" then st
  else MkParse (ps_parts st ++ [MkPart literal 0 false]) (ps_parameters st) (ps_uniqueNames st)
         (ps_columnRefs st) (ps_seen st).

Definition named_error (name format : string) (l : list err_arg) : error :=
  Errorf ("namedsql %q: " +:+ format) (AStr name :: l).

(** The rest of an iteration, once the action parsed. *)
Definition add_bind (name parameter : string) (ref : columnRef) (st : parse_state) : result parse_state :=
  let parts := ps_parts st ++ [MkPart "" (length (ps_parameters st)) true] in
  let parameters := ps_parameters st ++ [parameter] in
  match ps_seen st !! parameter with
  | None =>
      Ok (MkParse parts parameters (ps_uniqueNames st ++ [parameter]) (ps_columnRefs st ++ [ref])
            (<[parameter := ref]> (ps_seen st)))
  | Some existing =>
      if bool_decide (existing = ref)
      then Ok (MkParse parts parameters (ps_uniqueNames st) (ps_columnRefs st) (ps_seen st))
      else if stated existing && stated ref
      then Err (named_error name "bind %q names column %s here and %s earlier; one parameter cannot stand for two columns"
                  [AStr parameter; AStr (ref_String ref); AStr (ref_String existing)])
      else Err (named_error name "bind %q names %s here and %s earlier; every use of a name must name the same column or none"
                  [AStr parameter; AStr (columnRefDescription ref); AStr (columnRefDescription existing)])
  end.

(** [for remaining != ""]: every iteration that continues drops at least the
    four bytes of the delimiters, so the length of the source is fuel enough
    ([parse_fuel] below). *)
Fixpoint parse_loop (fuel : nat) (name remaining : string) (st : parse_state) : result parse_state :=
  match fuel with
  | 0 => Err (errors_New "out of fuel")
  | S fuel' =>
      if String.eqb remaining "" then Ok st
      else match Index remaining "{{" with
      | None => Ok (MkParse (ps_parts st ++ [MkPart remaining 0 false]) (ps_parameters st)
                      (ps_uniqueNames st) (ps_columnRefs st) (ps_seen st))
      | Some start =>
          let st := add_literal (stake start remaining) st in
          let remaining := sdrop (start + 2) remaining in
          match Index remaining "}}" with
          | None => Err (named_error name "unclosed action" [])
          | Some end_ =>
              do pr <- wrap_err (fun e => named_error name "%w" [AErr e])
                         (parseBindAction (TrimSpace (stake end_ remaining)));
              do st <- add_bind name pr.1 pr.2 st;
              parse_loop fuel' name (sdrop (end_ + 2) remaining) st
          end
      end
  end.

Definition Parse (name source : string) : result Template :=
  if String.eqb name "" then Err (errors_New "namedsql: name must not be empty")
  else if String.eqb (TrimSpace source) "" then Err (named_error name "source must not be empty" [])
  else
    do st <- parse_loop (S (String.length source)) name source parse_start;
    Ok (MkTemplate name (ps_parts st) (ps_parameters st) (ps_uniqueNames st) (ps_columnRefs st)).

(** ** [Template.Compile] *)
Definition index_out_of_range : error := MkError (KTyped "runtime.Error") "index out of range" [].

Fixpoint renderTemplateParts (parts : list templatePart) (placeholders : list string) : result string :=
  match parts with
  | [] => Ok ""
  | part :: parts' =>
      do text <- (if isBindPart part
                  then match placeholders !! bindIndex part with
                       | Some p => Ok p
                       | None => Err index_out_of_range
                       end
                  else Ok (part_text part));
      do rest <- renderTemplateParts parts' placeholders;
      Ok (text +:+ rest)
  end.

(** The loop that asks the dialect for placeholder [index + 1] of each
    parameter. *)
Definition template_placeholders (d : Dialect) (t : Template) : result (list string) :=
  foldi (fun index _ placeholders =>
    do p <- wrap_err (fun e => named_error (t_name t) "placeholder %d: %w" [ANat (index + 1); AErr e])
              (d_Placeholder d (Z.of_nat index + 1));
    Ok (placeholders ++ [p])) 0 (t_parameters t) [].

Definition Compile (t : Template) (d : option Dialect) : result Compiled :=
  match d with
  | None => Err (named_error (t_name t) "dialect must not be nil" [])
  | Some d =>
      if String.eqb (t_name t) "" || (length (t_parts t) =? 0)
      then Err (errors_New "namedsql: invalid template")
      else
        do placeholders <- template_placeholders d t;
        do sql <- renderTemplateParts (t_parts t) placeholders;
        Ok (MkCompiled (t_name t) sql (t_parameters t) (t_uniqueNames t) (t_columnRefs t))
  end.

Definition ParameterNames (c : Compiled) : list string := c_uniqueNames c.

Definition bind_def (c : Compiled) (index : nat) (name : string) : result BindDef :=
  match c_columnRefs c !! index with
  | Some ref => Ok (MkBindDef name (ref_schema ref) (ref_table ref) (ref_column ref))
  | None => Err index_out_of_range
  end.
Definition query_def (c : Compiled) : result QueryDef :=
  do binds <- foldi (fun index name binds => do b <- bind_def c index name; Ok (binds ++ [b]))
                0 (c_uniqueNames c) [];
  Ok (MkQueryDef (c_name c) (c_sql c) (c_parameters c) binds).

(** ** [Compiled.Bind] *)
Section Bind.
(** The order in which [for name := range values] visits the keys, which Go
    leaves open. *)
Variable range_keys : gmap string any -> list string.

Definition contains (values : list string) (target : string) : bool :=
  existsb (fun value => String.eqb value target) values.

Definition bind_args (c : Compiled) (values : gmap string any) : result (list any) :=
  foldi (fun _ name l =>
    match values !! name with
    | None => Err (named_error (c_name c) "missing value for %q" [AStr name])
    | Some v => Ok (l ++ [v])
    end) 0 (c_parameters c) [].

Definition Bind_ (c : Compiled) (values : gmap string any) : result Statement :=
  if String.eqb (c_name c) "" || String.eqb (TrimSpace (c_sql c)) ""
  then Err (errors_New "namedsql: invalid compiled template")
  else
    do l <- bind_args c values;
    check checki (fun _ name =>
      if contains (c_uniqueNames c) name then Ok tt
      else Err (named_error (c_name c) "unused value %q" [AStr name])) 0 (range_keys values);
    Ok (MkStatement (c_sql c) l).
End Bind.

Definition id_template : string :=
  "SELECT * FROM t WHERE id = {{bind " +:+ str1 dquote +:+ "id" +:+ str1 dquote +:+ " t.id}} OR x = {{bind "
    +:+ str1 dquote +:+ "x" +:+ str1 dquote +:+ "}}".
Example id_compiles :
  (do t <- Parse "q" id_template; Compile t (Some PostgreSQL))
  = Ok (MkCompiled "q" "SELECT * FROM t WHERE id = $1 OR x = $2" ["id"; "x"] ["id"; "x"]
          [MkRef "" "t" "id"; no_ref]).
Proof. vm_compute. reflexivity. Qed.

(** ** Specification: the grammar of a template

    A source text as literals and actions.  A literal runs to the first [{{]
    or to the end, an action to the first [}}] after it. *)
Inductive piece := Lit (s : string) | Act (s : string).
Definition piece_text (p : piece) : string := match p with Lit s => s | Act a => "{{" +:+ a +:+ "}}" end.
Definition source_of (l : list piece) : string := fold_right (fun p s => piece_text p +:+ s) "" l.
Definition actions (l : list piece) : list string := omap (fun p => match p with Act a => Some a | Lit _ => None end) l.
Inductive pieces_of : string -> list piece -> Prop :=
| pieces_end : pieces_of "" []
| pieces_literal s : s <> "" -> absent "{{" s -> pieces_of s [Lit s]
| pieces_action s t a rest l :
    first_split "{{" s "" t -> first_split "}}" t a rest -> pieces_of rest l -> pieces_of s (Act a :: l)
| pieces_both s literal t a rest l :
    literal <> "" -> first_split "{{" s literal t -> first_split "}}" t a rest -> pieces_of rest l ->
    pieces_of s (Lit literal :: Act a :: l).

(** What an action says: the word bind, a quoted parameter name and, if it
    likes, the column it stands for; the name and the parts of the column are
    simple identifiers. *)
Inductive column_reference : string -> columnRef -> Prop :=
| column_of_table t c : simple_name t -> simple_name c -> column_reference (t +:+ "." +:+ c) (MkRef "" t c)
| column_of_schema s t c : simple_name s -> simple_name t -> simple_name c ->
    column_reference (s +:+ "." +:+ t +:+ "." +:+ c) (MkRef s t c).
Inductive bind_action (a : string) : string * columnRef -> Prop :=
| bind_name_only quoted n :
    Fields a = ["bind"; quoted] -> Unquote quoted = Some n -> simple_name n -> bind_action a (n, no_ref)
| bind_name_column quoted reference n ref :
    Fields a = ["bind"; quoted; reference] -> Unquote quoted = Some n -> simple_name n ->
    column_reference reference ref -> bind_action a (n, ref).
(** One name, one column. *)
Definition consistent (l : list (string * columnRef)) : Prop :=
  forall p r r', (p, r) ∈ l -> (p, r') ∈ l -> r = r'.

(** The text with the [k]-th action and those after it replaced. *)
Fixpoint fill (ph : nat -> string) (k : nat) (l : list piece) : string :=
  match l with
  | [] => ""
  | Lit s :: l' => s +:+ fill ph k l'
  | Act _ :: l' => ph k +:+ fill ph (S k) l'
  end.
Fixpoint number (k : nat) (l : list piece) : list templatePart :=
  match l with
  | [] => []
  | Lit s :: l' => MkPart s 0 false :: number k l'
  | Act _ :: l' => MkPart "" k true :: number (S k) l'
  end.

(** The first use of each name, in order. *)
Definition first_use (acc : list (string * columnRef)) (b : string * columnRef) : list (string * columnRef) :=
  if bool_decide (b.1 ∈ acc.*1) then acc else acc ++ [b].
Definition first_uses (l : list (string * columnRef)) : list (string * columnRef) := foldl first_use [] l.

Definition action_binds (a : string) (b : string * columnRef) : Prop := bind_action (TrimSpace a) b.

(** ** Lemmas *)
Lemma first_uses_snoc l b : first_uses (l ++ [b]) = first_use (first_uses l) b.
Proof. unfold first_uses. by rewrite foldl_app. Qed.

Lemma first_uses_names l p : p ∈ (first_uses l).*1 <-> p ∈ l.*1.
Proof.
  induction l as [|b l IH] using rev_ind; [done|].
  rewrite first_uses_snoc, fmap_app, elem_of_app, <- IH. unfold first_use.
  case_bool_decide as E; [|rewrite fmap_app, elem_of_app]; simpl; set_solver.
Qed.

Lemma first_uses_nodup l : NoDup (first_uses l).*1.
Proof.
  induction l as [|b l IH] using rev_ind; [constructor|]. rewrite first_uses_snoc. unfold first_use.
  case_bool_decide as E; [done|]. rewrite fmap_app. apply NoDup_app. split; [done|]. simpl.
  split; [set_solver|]. apply NoDup_singleton.
Qed.

(** What the state holds after the uses [l]. *)
Record uses (l : list (string * columnRef)) (st : parse_state) : Prop := {
  us_parameters : ps_parameters st = l.*1;
  us_first : ps_uniqueNames st = (first_uses l).*1 /\ ps_columnRefs st = (first_uses l).*2;
  us_seen : forall p r, (p, r) ∈ l <-> ps_seen st !! p = Some r }.

Lemma uses_start : uses [] parse_start.
Proof. split; [done|done|]. intros p r. simpl. rewrite lookup_empty. set_solver. Qed.

Lemma uses_literal l s st : uses l st -> uses l (add_literal s st).
Proof. unfold add_literal. destruct (String.eqb s ""); [done|]. intros []. by split. Qed.

Lemma uses_seen_name l st p : uses l st -> p ∈ l.*1 <-> is_Some (ps_seen st !! p).
Proof.
  intros [_ _ H]. split.
  - intros ([p' r] & -> & Hin)%list_elem_of_fmap. exists r. by apply H.
  - intros [r Hr%H]. apply list_elem_of_fmap. by exists (p, r).
Qed.

Lemma uses_bind name l st p r st' :
  uses l st -> add_bind name p r st = Ok st' ->
  uses (l ++ [(p, r)]) st' /\ ps_parts st' = ps_parts st ++ [MkPart "" (length l) true].
Proof.
  intros Hu. pose proof (uses_seen_name l st p Hu) as Hp. destruct Hu as [H1 [H2 H3] H4]. unfold add_bind.
  assert (length (ps_parameters st) = length l) as Hl by (by rewrite H1, length_fmap).
  destruct (ps_seen st !! p) as [ex|] eqn:E.
  - case_bool_decide as Heq; [|by destruct (_ && _)]. subst ex. intros [= <-]. rewrite Hl. split; [|done].
    assert (p ∈ (first_uses l).*1) as Hin by (apply first_uses_names, Hp; eauto).
    split; simpl.
    + by rewrite fmap_app, H1.
    + rewrite first_uses_snoc. unfold first_use. simpl. by rewrite bool_decide_true.
    + intros p' r'. rewrite elem_of_app, H4, list_elem_of_singleton. split; [|by left].
      intros [?|[= -> ->]]; done.
  - intros [= <-]. rewrite Hl. split; [|done].
    assert (p ∉ (first_uses l).*1) as Hin.
    { rewrite first_uses_names. intros [x Hx]%Hp. congruence. }
    split; simpl.
    + by rewrite fmap_app, H1.
    + rewrite first_uses_snoc. unfold first_use. simpl. rewrite bool_decide_false by done.
      by rewrite !fmap_app, H2, H3.
    + intros p' r'. rewrite elem_of_app, H4, list_elem_of_singleton.
      destruct (decide (p' = p)) as [->|Hne].
      * rewrite lookup_insert_eq, E. naive_solver.
      * rewrite lookup_insert_ne by done. naive_solver.
Qed.

(** *** One action *)
Lemma simple_name_chars s : simple_name s -> str_forallb simple_char s = true.
Proof. intros H%ValidateSimpleIdentifier_exact. by apply ValidateSimpleIdentifier_chars in H as [_ ?]. Qed.
Lemma simple_name_lacks c s : simple_char c = false -> simple_name s -> lacks c s = true.
Proof.
  intros Hc H%simple_name_chars. unfold lacks. induction s as [|x s IH]; [done|]. cbn [str_forallb] in *.
  apply andb_true_iff in H as [H1 H2]. rewrite (IH H2), andb_true_r. destruct (Ascii.eqb_spec x c) as [->|]; [congruence|done].
Qed.
Lemma simple_name_unquoted s r : simple_name s -> HasPrefix (s +:+ r) (str1 dquote) = false.
Proof.
  intros H. destruct (HasPrefix _ _) eqn:E; [|done]. apply HasPrefix_spec in E as [r' E].
  destruct H as [c s Hc _]. injection E as -> _. apply name_start_iff in Hc. done.
Qed.

Lemma parts_checked text parts :
  (checki (fun _ part => wrap_err (fun e => Errorf "invalid column reference %q: %w" [AStr text; AErr e])
             (ValidateSimpleIdentifier part)) 0 parts = Ok tt) <-> Forall simple_name parts.
Proof.
  rewrite checki_ok, Forall_lookup. setoid_rewrite wrap_err_ok. setoid_rewrite ValidateSimpleIdentifier_exact. done.
Qed.

Lemma parseColumnRef_exact text ref : parseColumnRef text = Ok ref <-> column_reference text ref.
Proof.
  split.
  - unfold parseColumnRef. destruct (HasPrefix _ _); [done|].
    destruct (Split_spec "." text) as (_ & _ & Hj). change (str1 ".") with "." in Hj.
    destruct (negb _ && negb _) eqn:L; [done|]. intros H. inv_ok. apply parts_checked in E.
    destruct (Split text ".") as [|s [|t [|c [|d l]]]]; try done; cbn [Join fold_left] in Hj; subst text; simplify_eq.
    + inversion_clear E as [|? ? ? E']. inversion_clear E'. by apply (column_of_table s t).
    + inversion_clear E as [|? ? ? E']. inversion_clear E' as [|? ? ? E]. inversion_clear E. rewrite sapp_assoc. by apply (column_of_schema s t c).
  - assert (forall x, simple_name x -> lacks "." x = true) as Hd by (intros x; by apply simple_name_lacks).
    assert (forall l, l <> [] -> Forall simple_name l -> Split (Join l ".") "." = l) as Hs.
    { intros l Hl Hf. apply (Split_Join "." l Hl). by eapply Forall_impl. }
    unfold parseColumnRef. intros [t c Ht Hc|s t c Hsn Ht Hc]; rewrite simple_name_unquoted by done.
    + assert (Forall simple_name [t; c]) as Hf by (by repeat constructor).
      pose proof (Hs [t; c] ltac:(done) Hf) as E. cbn [Join fold_left] in E. rewrite E. simpl.
      by rewrite (proj2 (parts_checked _ [t; c]) Hf).
    + assert (Forall simple_name [s; t; c]) as Hf by (by repeat constructor).
      pose proof (Hs [s; t; c] ltac:(done) Hf) as E. cbn [Join fold_left] in E. rewrite !sapp_assoc in E. rewrite E. simpl.
      by rewrite (proj2 (parts_checked _ [s; t; c]) Hf).
Qed.

Lemma bind_name_exact field n : bind_name field = Ok n <-> Unquote field = Some n /\ simple_name n.
Proof.
  unfold bind_name. destruct (Unquote field) as [m|]; [|naive_solver].
  rewrite <- ValidateSimpleIdentifier_exact. split.
  - intros H. inv_ok. apply wrap_err_ok in E. done.
  - intros [[= ->] E]. by rewrite E.
Qed.

Lemma parseBindAction_exact a b : parseBindAction a = Ok b <-> bind_action a b.
Proof.
  split.
  - unfold parseBindAction. destruct (Fields a) as [|w [|field [|reference [|]]]] eqn:F; try done;
      (destruct (String.eqb_spec w "bind") as [->|]; [|done]); intros H; cbn [negb] in H; inv_ok.
    + apply bind_name_exact in E as [??]. by econstructor.
    + apply bind_name_exact in E as [??]. apply parseColumnRef_exact in E0. by eapply bind_name_column.
  - unfold parseBindAction. intros [q n -> Hu Hn|q t n ref -> Hu Hn Ht]; simpl;
      rewrite (proj2 (bind_name_exact q n)) by done; [done|].
    by rewrite (proj2 (parseColumnRef_exact t ref)).
Qed.

(** *** The loop *)
Lemma pieces_source s l : pieces_of s l -> source_of l = s.
Proof.
  induction 1 as [|s|s t a rest l [-> _] [-> _] _ IH|s x t a rest l _ [-> _] [-> _] _ IH]; simpl.
  - done.
  - apply sapp_nil_r.
  - by rewrite IH, !sapp_assoc.
  - by rewrite IH, !sapp_assoc.
Qed.

Lemma uses_add l st p r :
  uses l st -> consistent (l ++ [(p, r)]) -> exists st', add_bind "" p r st = Ok st'.
Proof.
  intros [_ _ H] Hc. unfold add_bind. destruct (ps_seen st !! p) as [r'|] eqn:E; [|by eexists].
  apply H in E. rewrite bool_decide_true; [by eexists|]. apply (Hc p); set_solver.
Qed.
Lemma add_bind_name name name' p r st st' : add_bind name p r st = Ok st' -> add_bind name' p r st = Ok st'.
Proof.
  unfold add_bind. destruct (ps_seen st !! p) as [r'|]; [|done]. case_bool_decide; [done|]. by destruct (_ && _).
Qed.

(** One iteration that takes an action, after a literal that may be empty. *)
Definition literal (s : string) : list piece := if String.eqb s "" then [] else [Lit s].
Lemma add_literal_parts s st : ps_parts (add_literal s st) = ps_parts st ++ number 0 (literal s).
Proof. unfold add_literal, literal. destruct (String.eqb s ""); simpl; [by rewrite app_nil_r|done]. Qed.
Lemma number_literal k s l : number k (literal s ++ l) = number 0 (literal s) ++ number k l.
Proof. unfold literal. by destruct (String.eqb s ""). Qed.
Lemma actions_literal s l : actions (literal s ++ l) = actions l.
Proof. unfold literal. by destruct (String.eqb s ""). Qed.
Lemma pieces_step s x t a rest l :
  first_split "{{" s x t -> first_split "}}" t a rest -> pieces_of rest l -> pieces_of s (literal x ++ Act a :: l).
Proof.
  intros H1 H2 H3. unfold literal. destruct (String.eqb_spec x "") as [->|Hx]; simpl; by econstructor.
Qed.

Lemma parse_loop_pieces fuel name r st l st' :
  uses l st -> parse_loop fuel name r st = Ok st' ->
  exists pieces bs, pieces_of r pieces /\ Forall2 action_binds (actions pieces) bs /\
    uses (l ++ bs) st' /\ ps_parts st' = ps_parts st ++ number (length l) pieces.
Proof.
  revert r st l. induction fuel as [|fuel IH]; intros r st l Hu; cbn [parse_loop]; [done|].
  destruct (String.eqb_spec r "") as [->|Hr].
  { intros [= <-]. exists [], []. rewrite !app_nil_r. split_and!; try done; constructor. }
  destruct (Index r "{{") as [k|] eqn:Ei.
  2:{ intros [= <-]. exists [Lit r], []. rewrite !app_nil_r. split_and!; [|constructor|destruct Hu; by split|done].
      constructor; [done|]. by apply Index_absent. }
  destruct (Index (sdrop (k + 2) r) "}}") as [e|] eqn:Ee; [|done]. intros H. inv_ok.
  apply wrap_err_ok, parseBindAction_exact in E. destruct a as [p ref].
  apply (uses_bind name l) in E0 as [Hu' Hparts]; [|by apply uses_literal].
  apply (IH _ _ _ Hu') in H as (pieces & bs & H1 & H2 & H3 & H4).
  apply Index_first_split in Ei, Ee.
  exists (literal (stake k r) ++ Act (stake e (sdrop (k + 2) r)) :: pieces), ((p, ref) :: bs). split_and!.
  - by eapply pieces_step.
  - rewrite actions_literal. by constructor.
  - by rewrite <- app_assoc in H3.
  - rewrite H4, Hparts, add_literal_parts, number_literal, length_app, <- !app_assoc. simpl. by rewrite Nat.add_1_r.
Qed.

(** A grammatical text is read through. *)
Lemma parse_loop_step fuel name r x t a rest st l p ref :
  first_split "{{" r x t -> first_split "}}" t a rest -> action_binds a (p, ref) ->
  uses l st -> consistent (l ++ [(p, ref)]) ->
  exists st', uses (l ++ [(p, ref)]) st' /\
    parse_loop (S fuel) name r st = parse_loop fuel name rest st'.
Proof.
  intros Hx Ha Hb Hu Hc. destruct (uses_add _ (add_literal x st) p ref (uses_literal _ _ _ Hu) Hc) as [st' Hs].
  apply (add_bind_name _ name) in Hs. exists st'. split; [by eapply uses_bind; [by apply uses_literal|]|].
  cbn [parse_loop]. assert (String.eqb r "" = false) as ->.
  { destruct Hx as [-> _]. by destruct x. }
  apply first_split_index in Hx as (-> & -> & E). cbn [String.length] in E. rewrite E.
  apply first_split_index in Ha as (-> & -> & E'). cbn [String.length] in E'. rewrite E'.
  apply parseBindAction_exact in Hb. rewrite Hb. simpl. by rewrite Hs.
Qed.
Lemma pieces_parse r pieces : pieces_of r pieces -> forall fuel name st l bs,
  String.length r < fuel -> uses l st -> Forall2 action_binds (actions pieces) bs -> consistent (l ++ bs) ->
  exists st', parse_loop fuel name r st = Ok st'.
Proof.
  assert (forall s x t a rest, first_split "{{" s x t -> first_split "}}" t a rest -> String.length rest < String.length s) as Hl.
  { intros s x t a rest [-> _] [-> _]. rewrite !slength_app. simpl. lia. }
  induction 1 as [|s Hs Ha|s t a rest l Hx Ha _ IH|s x t a rest l _ Hx Ha _ IH]; intros [|fuel] name st l0 bs Hf Hu HF Hc; try lia.
  - by eexists.
  - cbn [parse_loop]. destruct (String.eqb_spec s ""); [done|]. apply Index_absent in Ha. rewrite Ha. by eexists.
  - simpl in HF. apply Forall2_cons_inv_l in HF as ([p ref] & bs' & Hb & HF & ->).
    rewrite cons_middle, app_assoc in Hc.
    destruct (parse_loop_step fuel name s "" t a rest st l0 p ref Hx Ha Hb Hu) as (st' & Hu' & ->).
    { intros q r1 r2 H1 H2. apply (Hc q); set_solver. }
    specialize (Hl _ _ _ _ _ Hx Ha). eapply IH; [lia|exact Hu'|done|done].
  - simpl in HF. apply Forall2_cons_inv_l in HF as ([p ref] & bs' & Hb & HF & ->).
    rewrite cons_middle, app_assoc in Hc.
    destruct (parse_loop_step fuel name s x t a rest st l0 p ref Hx Ha Hb Hu) as (st' & Hu' & ->).
    { intros q r1 r2 H1 H2. apply (Hc q); set_solver. }
    specialize (Hl _ _ _ _ _ Hx Ha). eapply IH; [lia|exact Hu'|done|done].
Qed.

(** The grammar is unambiguous. *)
Lemma pieces_unique s l l' : pieces_of s l -> pieces_of s l' -> l = l'.
Proof.
  intros H. revert l'.
  assert (forall p s a b, first_split p s a b -> ~ absent p s) as Hno.
  { intros p x a b [-> _] H'. by eapply H'. }
  induction H as [|s Hs Ha|s t a rest l Hx Ha H IH|s x t a rest l Hne Hx Ha H IH]; intros l' Hl'; inversion Hl'; subst; try done;
    repeat match goal with
      | A : first_split ?p ?x _ _, B : first_split ?p ?x _ _ |- _ =>
          destruct (first_split_unique _ _ _ _ _ _ A B); clear B; subst
      | A : first_split ?p ?x _ _, B : absent ?p ?x |- _ => by destruct (Hno _ _ _ _ A)
      | A : first_split _ "" ?x _, B : ?x <> "" |- _ => destruct A as [A _]; by destruct x
      | A : first_split _ "" _ _ |- _ => by destruct A as [A _]
      end; try done; try (by f_equal; auto); try (by do 2 f_equal; auto).
Qed.
Lemma parseBindAction_fun a b b' : bind_action a b -> bind_action a b' -> b = b'.
Proof. rewrite <- !parseBindAction_exact. congruence. Qed.

Lemma parse_fuel name f1 f2 r st :
  String.length r < f1 -> String.length r < f2 -> parse_loop f1 name r st = parse_loop f2 name r st.
Proof.
  revert f2 r st. induction f1 as [|f1 IH]; intros [|f2] r st H1 H2; try lia. cbn [parse_loop].
  destruct (String.eqb_spec r "") as [->|Hr]; [done|]. assert (0 < String.length r) by (destruct r; simpl; [done|lia]).
  destruct (Index r "{{") as [k|]; [|done]. destruct (Index _ "}}") as [e|]; [|done].
  destruct (wrap_err _ _) as [pr|]; [|done]. destruct (add_bind _ _ _ _) as [st'|]; [|done].
  apply IH; rewrite !slength_sdrop; lia.
Qed.

(** The placeholder of the [k]-th bind, counted from zero. *)
Definition nth_placeholder (b : builtin) (k : nat) : string := placeholder b (Z.of_nat k + 1).

Lemma foldi_collect {A B} (f : nat -> A -> B) (l : list A) i acc :
  foldi (fun i x acc => Ok (acc ++ [f i x])) i l acc = Ok (acc ++ imap (fun j x => f (i + j) x) l).
Proof.
  revert i acc. induction l as [|x l IH]; intros i acc; simpl; [by rewrite app_nil_r|].
  rewrite IH, <- app_assoc. simpl. rewrite Nat.add_0_r. do 3 f_equal. apply imap_ext.
  intros j y _. simpl. by rewrite Nat.add_succ_r.
Qed.

Lemma builtin_placeholders b c t :
  template_placeholders (builtin_dialect b c) t = Ok (imap (fun k _ => nth_placeholder b k) (t_parameters t)).
Proof.
  unfold template_placeholders.
  rewrite (foldi_ext _ (fun i _ acc => Ok (acc ++ [nth_placeholder b i]))).
  - exact (foldi_collect (fun i _ => nth_placeholder b i) (t_parameters t) 0 []).
  - intros i x s. simpl. unfold Placeholder. destruct (Z.ltb_spec (Z.of_nat i + 1) 1); [lia|done].
Qed.

Lemma render_pieces (phs : list string) (ph : nat -> string) k l :
  (forall j, k <= j < k + length (actions l) -> phs !! j = Some (ph j)) ->
  renderTemplateParts (number k l) phs = Ok (fill ph k l).
Proof.
  revert k. induction l as [|[s|a] l IH]; intros k H; simpl; [done| |].
  - by rewrite IH.
  - simpl in H. rewrite (H k) by lia. rewrite IH; [done|]. intros j Hj. apply H. lia.
Qed.

Lemma actions_length l bs : Forall2 action_binds (actions l) bs -> length (actions l) = length bs.
Proof. apply Forall2_length. Qed.

Lemma bind_args_spec c values l :
  bind_args c values = Ok l <-> Forall2 (fun name v => values !! name = Some v) (c_parameters c) l.
Proof.
  unfold bind_args. generalize 0. intros i.
  assert (forall acc, foldi (fun _ name l => match values !! name with
      | None => Err (named_error (c_name c) "missing value for %q" [AStr name])
      | Some v => Ok (l ++ [v]) end) i (c_parameters c) acc = Ok l <->
    exists l', l = acc ++ l' /\ Forall2 (fun name v => values !! name = Some v) (c_parameters c) l') as H.
  { revert i. induction (c_parameters c) as [|p ps IH]; intros i acc; simpl.
    - split; [intros [= <-]; exists []; rewrite app_nil_r; by split; [|constructor]|].
      intros (l' & -> & H%Forall2_nil_inv_l). by rewrite H, app_nil_r.
    - destruct (values !! p) as [v|] eqn:E; simpl.
      + rewrite IH. split.
        * intros (l' & -> & H). exists (v :: l'). rewrite <- app_assoc. split; [done|by constructor].
        * intros (l' & -> & (y & ys & Hy & H & ->)%Forall2_cons_inv_l). exists ys.
          rewrite <- app_assoc. split; [|done]. simpl. congruence.
      + split; [done|]. intros (l' & _ & (y & ys & Hy & _)%Forall2_cons_inv_l). congruence. }
  rewrite H. split; [by intros (l' & -> & ?)|]. intros K. by exists l.
Qed.

Lemma contains_true l x : contains l x = true <-> x ∈ l.
Proof.
  unfold contains. rewrite existsb_exists. split.
  - intros (y & Hy & ->%String.eqb_eq). by apply list_elem_of_In.
  - intros H. exists x. split; [by apply list_elem_of_In|apply String.eqb_refl].
Qed.

(** The keys of a map, each once, in whatever order [range] takes. *)
Definition ranges (range_keys : gmap string any -> list string) : Prop :=
  forall m, range_keys m ≡ₚ (map_to_list m).*1.

Lemma Bind_spec range_keys c values stmt :
  ranges range_keys ->
  Bind_ range_keys c values = Ok stmt <->
  c_name c <> "" /\ TrimSpace (c_sql c) <> "" /\ sql_text stmt = c_sql c /\
  Forall2 (fun name v => values !! name = Some v) (c_parameters c) (stmt_args stmt) /\
  (forall name, is_Some (values !! name) -> name ∈ c_uniqueNames c).
Proof.
  intros Hr. assert (forall name, name ∈ range_keys values <-> is_Some (values !! name)) as Hk.
  { intros name. rewrite (Hr values), list_elem_of_fmap. split.
    - intros ([k v] & -> & H%elem_of_map_to_list). by exists v.
    - intros [v Hv]. exists (name, v). by rewrite elem_of_map_to_list. }
  unfold Bind_. destruct (String.eqb_spec (c_name c) "") as [|Hn]; [naive_solver|].
  destruct (String.eqb_spec (TrimSpace (c_sql c)) "") as [|Ht]; [naive_solver|]. simpl.
  set (unused := checki _ 0 (range_keys values)).
  assert (unused = Ok tt <-> (forall name, is_Some (values !! name) -> name ∈ c_uniqueNames c)) as Hu.
  { unfold unused. rewrite checki_ok. split.
    - intros H name Hv%Hk. apply list_elem_of_lookup in Hv as [j Hj]. specialize (H j name Hj). simpl in H.
      apply contains_true. by destruct (contains _ _).
    - intros H j name Hj. simpl. assert (contains (c_uniqueNames c) name = true) as ->; [|done].
      apply contains_true, H, Hk. by apply list_elem_of_lookup; exists j. }
  destruct (bind_args c values) as [l|] eqn:E.
  - apply bind_args_spec in E. destruct unused as [[]|] eqn:U.
    + split; [intros [= <-]|intros (_ & _ & H1 & H2 & _)]; [split_and!; auto; by apply Hu|].
      destruct stmt as [sql l']. simpl in *. subst sql. f_equal. f_equal.
      apply bind_args_spec in E, H2. congruence.
    + split; [done|]. intros (_ & _ & _ & _ & H%Hu). done.
  - split; [done|]. intros (_ & _ & _ & H%bind_args_spec & _). congruence.
Qed.

Lemma Parse_uses name source t :
  Parse name source = Ok t ->
  name <> "" /\ t_name t = name /\ TrimSpace source <> "" /\
  exists pieces bs, pieces_of source pieces /\ Forall2 action_binds (actions pieces) bs /\
    t_parts t = number 0 pieces /\ t_parameters t = bs.*1 /\
    t_uniqueNames t = (first_uses bs).*1 /\ t_columnRefs t = (first_uses bs).*2 /\ consistent bs.
Proof.
  unfold Parse. destruct (String.eqb_spec name ""); [done|].
  destruct (String.eqb_spec (TrimSpace source) ""); [done|]. intros H. inv_ok.
  apply (parse_loop_pieces _ _ _ _ [] _ uses_start) in E as (ps & bs & H1 & H2 & [H3 [H4 H5] H6] & H7).
  split_and!; try done. exists ps, bs. split_and!; try done.
  intros p r r' Hr%H6 Hr'%H6. congruence.
Qed.

(** ** Claims *)

(** C38 Parsing a named template is exact.  A template is returned exactly
    when its name is not empty, its source is not blank, the source is a
    sequence of literals and [{{...}}] actions (a literal runs to the first
    [{{], an action to the first [}}] after it), every action is the word bind
    and a quoted parameter name, a simple identifier, with at most a
    [table.column] or [schema.table.column] of simple identifiers after it,
    and no name is used with two different columns.  The template is then the
    pieces with the binds numbered from zero, the names bound at each action
    as its parameters, and the names and columns of the first uses in order;
    and the loop never runs out of fuel. *)
Theorem Parse_exact (name source : string) :
  (forall t, Parse name source = Ok t <->
     name <> "" /\ TrimSpace source <> "" /\
     exists pieces bs, pieces_of source pieces /\ Forall2 action_binds (actions pieces) bs /\ consistent bs /\
       t = MkTemplate name (number 0 pieces) bs.*1 (first_uses bs).*1 (first_uses bs).*2) /\
  (forall fuel st, String.length source < fuel ->
     parse_loop fuel name source st = parse_loop (S (String.length source)) name source st).
Proof.
  split; [|intros fuel st H; apply parse_fuel; lia]. intros t. split.
  - intros (Hn & Ht & Hs & ps & bs & H1 & H2 & H3 & H4 & H5 & H6 & H7)%Parse_uses. split_and!; [done|done|].
    exists ps, bs. split_and!; [done..|]. destruct t. simpl in *. by subst.
  - intros (Hn & Hs & ps & bs & H1 & H2 & H3 & ->).
    assert (exists t, Parse name source = Ok t) as [t Ht].
    { unfold Parse. destruct (String.eqb_spec name ""); [done|]. destruct (String.eqb_spec (TrimSpace source) ""); [done|].
      destruct (pieces_parse _ _ H1 (S (String.length source)) name parse_start [] bs) as [st' ->];
        [lia|exact uses_start|done|done|]. by eexists. }
    rewrite Ht. destruct (Parse_uses _ _ _ Ht) as (_ & T & _ & ps' & bs' & K1 & K2 & K3 & K4 & K5 & K6 & _).
    rewrite <- (pieces_unique _ _ _ H1 K1) in *.
    assert (bs = bs') as <-.
    { clear - H2 K2. revert bs' K2. induction H2 as [|a b l l' Hb _ IH]; intros bs' K2; inversion_clear K2; [done|].
      f_equal; [by eapply parseBindAction_fun|by apply IH]. }
    destruct t. simpl in *. by subst.
Qed.

Definition parsed_sample : Template := match Parse "q" id_template with Ok t => t | Err _ => MkTemplate "" [] [] [] [] end.
Lemma Parse_exact_witness :
  Parse "q" id_template = Ok parsed_sample /\ t_parameters parsed_sample = ["id"; "x"] /\
  exists pieces, pieces_of id_template pieces.
Proof.
  split; [vm_compute; reflexivity|]. split; [vm_compute; reflexivity|].
  assert (Parse "q" id_template = Ok parsed_sample) as E by (vm_compute; reflexivity).
  destruct (proj1 (proj1 (Parse_exact "q" id_template) parsed_sample) E) as (_ & _ & ps & bs & H & _).
  exists ps. exact H.
Defined.

(** C39 Named parameters end to end: a parsed template always compiles for a
    built-in dialect; binding then succeeds exactly for a map with one value
    for every name and no other, and the statement it returns is the source
    with its k-th action replaced by placeholder k and, as argument k, the
    value of the name bound there. *)
Theorem named_query (b : builtin) (c : option (string -> string -> bool)) (name source : string)
  (t : Template) (range_keys : gmap string any -> list string) :
  Parse name source = Ok t -> ranges range_keys ->
  exists co, Compile t (Some (builtin_dialect b c)) = Ok co /\
  exists pieces bs, source_of pieces = source /\ Forall2 action_binds (actions pieces) bs /\
    c_sql co = fill (nth_placeholder b) 0 pieces /\
    forall values stmt, TrimSpace (c_sql co) <> "" ->
      (Bind_ range_keys co values = Ok stmt <->
       sql_text stmt = c_sql co /\ Forall2 (fun n v => values !! n = Some v) bs.*1 (stmt_args stmt) /\
       (forall n, is_Some (values !! n) <-> n ∈ bs.*1)).
Proof.
  intros (Hn & Ht & Hs & ps & bs & H1%pieces_source & H3 & H4 & H5 & H6 & _)%Parse_uses Hr.
  unfold Compile. rewrite Ht, builtin_placeholders.
  destruct (String.eqb_spec name ""); [done|]. simpl.
  assert ((length (t_parts t) =? 0) = false) as ->.
  { rewrite H4. destruct ps as [|[s|a] ps]; try done. by rewrite <- H1 in Hs. }
  rewrite H4, (render_pieces _ (nth_placeholder b)); simpl.
  2:{ intros j Hj. rewrite list_lookup_imap. apply actions_length in H3.
      destruct (t_parameters t !! j) eqn:E; [done|]. apply lookup_ge_None in E. rewrite H5, length_fmap in E. lia. }
  eexists. split; [done|]. exists ps, bs. split_and!; try done. intros values stmt Htr.
  rewrite (Bind_spec _ _ _ _ Hr). simpl. rewrite H5, H6. split.
  - intros (_ & _ & K1 & K2 & K3). split_and!; try done. intros k. split; [intros H; apply first_uses_names, K3, H|].
    intros Hin. apply list_elem_of_lookup in Hin as [i Hi].
    destruct (Forall2_lookup_l _ _ _ _ _ K2 Hi) as (v & _ & Hv). by exists v.
  - intros (K1 & K2 & K3). split_and!; try done. intros k Hv%K3. by apply first_uses_names.
Qed.

Definition map_keys (m : gmap string any) : list string := (map_to_list m).*1.
Lemma map_keys_ranges : ranges map_keys.
Proof. intros m. reflexivity. Qed.

Lemma named_query_witness :
  exists co, Compile parsed_sample (Some MySQL) = Ok co /\
             c_sql co = "SELECT * FROM t WHERE id = ? OR x = ?" /\
             is_ok (Bind_ map_keys co {[ "id" := any_int 1; "x" := any_int 2 ]}) = true.
Proof.
  destruct (named_query mysql_builtin None "q" id_template parsed_sample map_keys) as (co & H & _).
  - vm_compute. reflexivity.
  - exact map_keys_ranges.
  - exists co. split; [exact H|].
    assert (Compile parsed_sample (Some MySQL)
      = Ok (MkCompiled "q" "SELECT * FROM t WHERE id = ? OR x = ?" ["id"; "x"] ["id"; "x"]
              [MkRef "" "t" "id"; no_ref])) as E by (vm_compute; reflexivity).
    unfold MySQL in E. rewrite E in H. injection H as <-. split; [reflexivity|vm_compute; reflexivity].
Defined.
