(* ===== verification/Sha256.v ===== *)
(** * Sha256: [crypto/sha256] and [encoding/hex] of the Go standard library

    The hash behind a migration's checksum, executable, over strings as byte
    sequences.  Words are [N] below 2^32 with their wrap-around written out. *)

From S2P Require Import Prelude GoText.
Open Scope string_scope.
Open Scope list_scope.
Open Scope N_scope.

Definition w32 (x : N) : N := N.land x 4294967295.
Definition add32 (x y : N) : N := w32 (x + y).
Definition rotr (x k : N) : N := w32 (N.lor (N.shiftr x k) (N.shiftl x (32 - k))).
Definition not32 (x : N) : N := N.lxor x 4294967295.

Definition ch (x y z : N) : N := N.lxor (N.land x y) (N.land (not32 x) z).
Definition maj (x y z : N) : N := N.lxor (N.lxor (N.land x y) (N.land x z)) (N.land y z).
Definition big_sigma0 (x : N) : N := N.lxor (N.lxor (rotr x 2) (rotr x 13)) (rotr x 22).
Definition big_sigma1 (x : N) : N := N.lxor (N.lxor (rotr x 6) (rotr x 11)) (rotr x 25).
Definition small_sigma0 (x : N) : N := N.lxor (N.lxor (rotr x 7) (rotr x 18)) (N.shiftr x 3).
Definition small_sigma1 (x : N) : N := N.lxor (N.lxor (rotr x 17) (rotr x 19)) (N.shiftr x 10).

Definition round_constants : list N :=
  [1116352408; 1899447441; 3049323471; 3921009573; 961987163; 1508970993; 2453635748; 2870763221;
   3624381080; 310598401; 607225278; 1426881987; 1925078388; 2162078206; 2614888103; 3248222580;
   3835390401; 4022224774; 264347078; 604807628; 770255983; 1249150122; 1555081692; 1996064986;
   2554220882; 2821834349; 2952996808; 3210313671; 3336571891; 3584528711; 113926993; 338241895;
   666307205; 773529912; 1294757372; 1396182291; 1695183700; 1986661051; 2177026350; 2456956037;
   2730485921; 2820302411; 3259730800; 3345764771; 3516065817; 3600352804; 4094571909; 275423344;
   430227734; 506948616; 659060556; 883997877; 958139571; 1322822218; 1537002063; 1747873779;
   1955562222; 2024104815; 2227730452; 2361852424; 2428436474; 2756734187; 3204031479; 3329325298].

Definition initial_hash : list N :=
  [1779033703; 3144134277; 1013904242; 2773480762; 1359893119; 2600822924; 528734635; 1541459225].

(** The padded message, as bytes. *)
Fixpoint bytes_of (s : string) : list N :=
  match s with "" => [] | String c s' => code c :: bytes_of s' end.

Definition big_endian (n : nat) (v : N) : list N :=
  map (fun i => N.land (N.shiftr v (8 * N.of_nat i)) 255) (rev (seq 0 n)).

Definition pad (l : list N) : list N :=
  let len := length l in
  let zeros := ((119 - (len mod 64)) mod 64)%nat in
  l ++ 128 :: replicate zeros 0 ++ big_endian 8 (8 * N.of_nat len).

Definition word_of (l : list N) : N := fold_left (fun acc b => N.lor (N.shiftl acc 8) b) l 0.

(** The message schedule, newest word first. *)
Fixpoint schedule (n : nat) (l : list N) : list N :=
  match n with
  | O => l
  | S n' =>
      match l !! 1%nat, l !! 6%nat, l !! 14%nat, l !! 15%nat with
      | Some w2, Some w7, Some w15, Some w16 =>
          schedule n' (add32 (add32 (small_sigma1 w2) w7) (add32 (small_sigma0 w15) w16) :: l)
      | _, _, _, _ => l
      end
  end.

Definition round (st : list N) (kw : N * N) : list N :=
  match st with
  | [a; b; c; d; e; f; g; h] =>
      let t1 := add32 (add32 h (big_sigma1 e)) (add32 (ch e f g) (add32 kw.1 kw.2)) in
      let t2 := add32 (big_sigma0 a) (maj a b c) in
      [add32 t1 t2; a; b; c; add32 d t1; e; f; g]
  | _ => st
  end.

Fixpoint chunks (fuel n : nat) (l : list N) : list (list N) :=
  match fuel, l with
  | S fuel', _ :: _ => firstn n l :: chunks fuel' n (skipn n l)
  | _, _ => []
  end.

Definition compress (st : list N) (block : list N) : list N :=
  let words := rev (schedule 48 (rev (map word_of (chunks 16 4 block)))) in
  let st' := fold_left round (combine round_constants words) st in
  map (fun p => add32 p.1 p.2) (combine st st').

Definition Sum (s : string) : list N :=
  let l := pad (bytes_of s) in
  flat_map (big_endian 4) (fold_left compress (chunks (length l) 64 l) initial_hash).

(** [hex.EncodeToString]. *)
Definition hex_digit (n : N) : ascii := chr (if n <? 10 then 48 + n else 87 + n).
Definition EncodeToString (l : list N) : string :=
  fold_right (fun b s => String (hex_digit (N.shiftr b 4)) (String (hex_digit (N.land b 15)) s)) "" l.

(** Test vectors. *)
Example sha_empty :
  EncodeToString (Sum "") = "e3b0c44298fc1c149afbf4c8996fb92427ae41e4649b934ca495991b7852b855".
Proof. vm_compute. reflexivity. Qed.
Example sha_abc :
  EncodeToString (Sum "abc") = "ba7816bf8f01cfea414140de5dae2223b00361a396177a9cb410ff61f20015ad".
Proof. vm_compute. reflexivity. Qed.
Example sha_two_blocks :
  EncodeToString (Sum "abcdbcdecdefdefgefghfghighijhijkijkljklmklmnlmnomnopnopq")
  = "248d6a61d20638b8e5c026930c3e6039a33ce45964ff2167f6ecedd419db06c1".
Proof. vm_compute. reflexivity. Qed.

Lemma EncodeToString_length l : String.length (EncodeToString l) = (2 * length l)%nat.
Proof. induction l as [|b l IH]; simpl in *; [done|]. rewrite IH. lia. Qed.

(** The hash has 32 bytes. *)
Open Scope nat_scope.
Lemma round_length st kw : length (round st kw) = length st.
Proof. by destruct st as [|? [|? [|? [|? [|? [|? [|? [|? [|? ?]]]]]]]]]. Qed.
Lemma rounds_length l st : length (fold_left round l st) = length st.
Proof. revert st. induction l as [|kw l IH]; intros st; simpl; [done|]. by rewrite IH, round_length. Qed.
Lemma compress_length st block : length (compress st block) = length st.
Proof. unfold compress. rewrite length_map, length_combine, rounds_length. lia. Qed.
Lemma compresses_length l st : length (fold_left compress l st) = length st.
Proof. revert st. induction l as [|b l IH]; intros st; simpl; [done|]. by rewrite IH, compress_length. Qed.
Lemma words_length l : length (flat_map (big_endian 4) l) = 4 * length l.
Proof. induction l as [|w l IH]; [done|]. cbn [flat_map]. rewrite length_app, IH. cbn. lia. Qed.
Lemma Sum_length s : length (Sum s) = 32.
Proof. unfold Sum. by rewrite words_length, compresses_length. Qed.
