(* ===== verification/Migration.v ===== *)
(** * Migration: [migrate/migration.go] and the pure parts of
    [migrate/runner.go], [apply.go], [revert.go] and [status.go]

    Migrations and their validation and checksum, the preparation of a set of
    migrations, and how a target is resolved against the recorded history.
    The history is the map Go builds from the history table. *)

From S2P Require Import Prelude GoText Sha256.
Open Scope string_scope.
Open Scope list_scope.
Open Scope nat_scope.

(** ** Data *)
Definition ExecutionModeAtomic : string := "".
Definition ExecutionModeNonTransactional : string := "nontransactional".

Record SqlSource := MkSource { Source : string; SQL : string }.
Record Migration := MkMigration {
  ID : string; Mode : string; Statements : list SqlSource; Down : list SqlSource }.
#[export] Instance SqlSource_eq_dec : EqDecision SqlSource.
Proof. solve_decision. Defined.

Record preparedMigration := MkPrepared {
  id : string; mode : string; statements : list SqlSource; down : list SqlSource; pm_checksum : string }.

(** ** Validation *)
Definition NUL : string := str1 (chr 0).

Definition validateMigrationID (i : string) : result unit :=
  if String.eqb i "" then Err (errors_New "migrate: migration ID must not be empty")
  else if negb (ValidString i) || (255 <? String.length i) || Contains i NUL
  then Err (Errorf "migrate: migration ID %q is invalid" [AStr i])
  else Ok tt.

Definition validateStatements (m : Migration) (l : list SqlSource) : result unit :=
  do _ <- foldi (fun index s (sources : gset string) =>
    if String.eqb (Source s) "" || negb (ValidString (Source s)) || Contains (Source s) NUL
    then Err (Errorf "migrate: migration %q SQL source %d is invalid" [AStr (ID m); ANat (index + 1)])
    else if bool_decide (Source s ∈ sources)
    then Err (Errorf "migrate: migration %q contains duplicate SQL source %q" [AStr (ID m); AStr (Source s)])
    else if String.eqb (TrimSpace (SQL s)) ""
    then Err (Errorf "migrate: migration %q SQL source %q is empty" [AStr (ID m); AStr (Source s)])
    else Ok ({[ Source s ]} ∪ sources)) 0 l ∅;
  Ok tt.

Definition validate (m : Migration) : result unit :=
  if negb (String.eqb (Mode m) ExecutionModeAtomic) && negb (String.eqb (Mode m) ExecutionModeNonTransactional)
  then Err (Errorf "migrate: migration %q has invalid execution mode %q" [AStr (ID m); AStr (Mode m)])
  else
    check validateMigrationID (ID m);
    if length (Statements m) =? 0
    then Err (Errorf "migrate: migration %q must contain at least one SQL source" [AStr (ID m)])
    else
      check validateStatements m (Statements m);
      validateStatements m (Down m).

(** ** Checksum: the bytes written to the hash, and their digest *)
Definition mode_bytes (md : string) : string :=
  if String.eqb md ExecutionModeNonTransactional
  then "rasql-execution-mode" +:+ NUL +:+ "nontransactional" +:+ NUL else "".
Fixpoint statement_bytes (l : list SqlSource) : string :=
  match l with
  | [] => ""
  | s :: l' => Source s +:+ NUL +:+ SQL s +:+ NUL +:+ statement_bytes l'
  end.
Definition checksum_bytes (md : string) (l : list SqlSource) : string := mode_bytes md +:+ statement_bytes l.
Definition checksumMode (md : string) (l : list SqlSource) : string :=
  EncodeToString (Sum (checksum_bytes md l)).
Definition checksum (l : list SqlSource) : string := checksumMode ExecutionModeAtomic l.
Definition Checksum (m : Migration) : result string :=
  check validate m; Ok (checksumMode (Mode m) (Statements m)).

(** ** [prepareMigrations] and [exportMigrations] *)
Definition prepare (m : Migration) : preparedMigration :=
  MkPrepared (ID m) (Mode m) (Statements m) (Down m) (checksumMode (Mode m) (Statements m)).
Definition export (p : preparedMigration) : Migration := MkMigration (id p) (mode p) (statements p) (down p).
Definition exportMigrations (l : list preparedMigration) : list Migration := map export l.

Definition id_le (p q : preparedMigration) : Prop := str_le (id p) (id q).
#[export] Instance id_le_dec : RelDecision id_le.
Proof. intros p q. unfold id_le. apply _. Defined.

(** [sort.Slice] by ID; the identifiers are distinct by then, so the order is
    the only sorted one. *)
Definition prepareMigrations (l : list Migration) : result (list preparedMigration) :=
  do st <- foldi (fun _ m (st : list preparedMigration * gset string) =>
    if bool_decide (ID m ∈ st.2) then Err (Errorf "migrate: duplicate migration ID %q" [AStr (ID m)])
    else check validate m; Ok (st.1 ++ [prepare m], {[ ID m ]} ∪ st.2)) 0 l ([], ∅);
  Ok (merge_sort id_le st.1).

(** ** Targets *)
Inductive ApplyTarget := applyEverything | applyThrough (target_id : string).
Definition AllPending : ApplyTarget := applyEverything.
Definition ApplyThrough (i : string) : ApplyTarget := applyThrough i.
Inductive RevertTarget := revertNothing | revertThrough (target_id : string) | revertSteps (steps : Z).
Definition Through (i : string) : RevertTarget := revertThrough i.
Definition Steps (n : Z) : RevertTarget := revertSteps n.

(** [id >= target], the predicate both binary searches use. *)
Definition id_reaches (l : list preparedMigration) (target : string) (position : nat) : bool :=
  match l !! position with Some p => negb (str_ltb (id p) target) | None => true end.
Definition search_id (l : list preparedMigration) (target : string) : nat :=
  sort_Search (length l) (id_reaches l target).
Definition id_at (l : list preparedMigration) (position : nat) (target : string) : bool :=
  match l !! position with Some p => String.eqb (id p) target | None => false end.

Definition applyLimit (l : list preparedMigration) (target : ApplyTarget) : result nat :=
  match target with
  | applyThrough t =>
      let index := search_id l t in
      if (index =? length l) || negb (id_at l index t)
      then Err (Errorf "migrate: migration %q was not supplied, so nothing can be applied through it" [AStr t])
      else Ok (index + 1)
  | applyEverything => Ok (length l)
  end.

Definition mismatch (i : string) : error :=
  Errorf "migrate: migration %q checksum does not match recorded migration" [AStr i].
Definition after_missing (i : string) : error :=
  Errorf "migrate: migration %q is recorded after a missing migration" [AStr i].
Definition not_supplied (i : string) : error :=
  Errorf "migrate: recorded migration %q was not supplied" [AStr i].

Section Select.
(** The order in which [for id := range applied] visits the history, which Go
    leaves open: it decides which unknown ID an error names. *)
Variable range_ids : gmap string string -> list string.

(** The loop refusing a recorded migration that was not supplied. *)
Definition check_supplied (applied : gmap string string) (l : list preparedMigration) : result unit :=
  checki (fun _ i => if existsb (fun p => String.eqb (id p) i) l then Ok tt else Err (not_supplied i)) 0
    (range_ids applied).

Definition apply_step (applied : gmap string string) (limit index : nat) (p : preparedMigration)
  (st : list preparedMigration * bool) : result (list preparedMigration * bool) :=
  match applied !! id p with
  | Some recorded =>
      if negb (String.eqb recorded (pm_checksum p)) then Err (mismatch (id p))
      else if st.2 then Err (after_missing (id p))
      else Ok st
  | None => if limit <=? index then Ok (st.1, true) else Ok (st.1 ++ [p], true)
  end.
Definition selectApplies (applied : gmap string string) (l : list preparedMigration) (target : ApplyTarget)
  : result (list preparedMigration) :=
  check check_supplied applied l;
  do limit <- applyLimit l target;
  do st <- foldi (apply_step applied limit) 0 l ([], false);
  Ok st.1.

(** The loop collecting the recorded migrations, refusing a gap. *)
Definition collect_applied (applied : gmap string string) (l : list preparedMigration)
  : result (list preparedMigration) :=
  do st <- foldi (fun _ p (st : list preparedMigration * bool) =>
    match applied !! id p with
    | None => Ok (st.1, true)
    | Some _ => if st.2 then Err (after_missing (id p)) else Ok (st.1 ++ [p], st.2)
    end) 0 l ([], false);
  Ok st.1.

Definition revertCount (appliedInOrder : list preparedMigration) (target : RevertTarget) : result nat :=
  match target with
  | revertThrough t =>
      let index := search_id appliedInOrder t in
      if (index =? length appliedInOrder) || negb (id_at appliedInOrder index t)
      then Err (Errorf "migrate: migration %q is not applied, so nothing can be reverted through it" [AStr t])
      else Ok (length appliedInOrder - index - 1)
  | revertSteps steps =>
      if (steps <=? 0)%Z then Err (Errorf "migrate: revert step count %d must be positive" [AInt steps])
      else if (Z.of_nat (length appliedInOrder) <? steps)%Z
      then Err (Errorf "migrate: cannot revert %d migrations; %d are applied" [AInt steps; ANat (length appliedInOrder)])
      else Ok (Z.to_nat steps)
  | revertNothing => Err (errors_New "migrate: revert requires a target; build one with Through or Steps")
  end.

(** The countdown [for index := len-1; index >= len-count; index--]: the last
    [count] migrations, newest first. *)
Definition newest (count : nat) (l : list preparedMigration) : list preparedMigration :=
  rev (skipn (length l - count) l).
Definition revert_step (applied : gmap string string) (_ : nat) (p : preparedMigration)
  (selected : list preparedMigration) : result (list preparedMigration) :=
  if negb (bool_decide (applied !! id p = Some (pm_checksum p))) then Err (mismatch (id p))
  else if length (down p) =? 0
  then Err (Errorf "migrate: migration %q has no reverse SQL source" [AStr (id p)])
  else Ok (selected ++ [p]).
Definition selectReverts (applied : gmap string string) (l : list preparedMigration) (target : RevertTarget)
  : result (list preparedMigration) :=
  check check_supplied applied l;
  do appliedInOrder <- collect_applied applied l;
  do count <- revertCount appliedInOrder target;
  foldi (revert_step applied) 0 (newest count appliedInOrder) [].
End Select.

(** ** Status *)
Inductive StatusState := StatusApplied | StatusPending | StatusChanged | StatusOutOfOrder | StatusUnknown.
#[export] Instance StatusState_eq_dec : EqDecision StatusState.
Proof. solve_decision. Defined.
Record StatusEntry := MkEntry { se_ID : string; State : StatusState; Reversible : bool }.

Definition unknown_ids (applied : gmap string string) (l : list preparedMigration) : list string :=
  sort_Strings (filter (fun i => existsb (fun p => String.eqb (id p) i) l = false) (map_to_list applied).*1).

Fixpoint status_loop (applied : gmap string string) (pending : bool) (l : list preparedMigration)
  : list StatusEntry :=
  match l with
  | [] => []
  | p :: l' =>
      let reversible := 0 <? length (down p) in
      match applied !! id p with
      | None => MkEntry (id p) StatusPending reversible :: status_loop applied true l'
      | Some recorded =>
          let state := if negb (String.eqb recorded (pm_checksum p)) then StatusChanged
                       else if pending then StatusOutOfOrder else StatusApplied in
          MkEntry (id p) state reversible :: status_loop applied pending l'
      end
  end.
Definition statusEntries (applied : gmap string string) (l : list preparedMigration) : list StatusEntry :=
  map (fun i => MkEntry i StatusUnknown false) (unknown_ids applied l) ++ status_loop applied false l.
