(* ===== verification/MigrateSelect.v ===== *)
(** * MigrateSelect: what the migration planner selects

    The histories [selectApplies] and [selectReverts] accept are exactly the
    prefixes of the supplied migrations in ID order; the theorems say which
    migrations each target then selects, and that [Status] agrees. *)

From S2P Require Import Prelude GoText Sha256 Migration.
Open Scope string_scope.
Open Scope list_scope.
Open Scope nat_scope.

(** ** Sorted sets of migrations *)
Definition before_id (p q : preparedMigration) : Prop := str_ltb (id p) (id q) = true.
Definition SortedIds (l : list preparedMigration) : Prop :=
  forall i j p q, l !! i = Some p -> l !! j = Some q -> i < j -> before_id p q.

Lemma SortedIds_nodup l : SortedIds l -> NoDup (id <$> l).
Proof.
  intros H. apply NoDup_alt. intros i j x Hi Hj.
  apply list_lookup_fmap_Some in Hi as (p & -> & Hi). apply list_lookup_fmap_Some in Hj as (q & Hpq & Hj).
  destruct (lt_eq_lt_dec i j) as [[Hlt| ->]|Hlt]; [|done|].
  - pose proof (H i j p q Hi Hj Hlt) as K. unfold before_id in K. rewrite Hpq, str_ltb_irrefl in K. done.
  - pose proof (H j i q p Hj Hi Hlt) as K. unfold before_id in K. rewrite Hpq, str_ltb_irrefl in K. done.
Qed.

Lemma SortedIds_take k l : SortedIds l -> SortedIds (take k l).
Proof.
  intros H i j p q Hi Hj. apply lookup_take_Some in Hi as [Hi _]. apply lookup_take_Some in Hj as [Hj _].
  by apply (H i j).
Qed.

(** ** What [prepareMigrations] returns *)
Lemma prepare_loop l i acc seen acc' seen' :
  foldi (fun _ m (st : list preparedMigration * gset string) =>
    if bool_decide (ID m ∈ st.2) then Err (Errorf "migrate: duplicate migration ID %q" [AStr (ID m)])
    else check validate m; Ok (st.1 ++ [prepare m], {[ ID m ]} ∪ st.2)) i l (acc, seen) = Ok (acc', seen') ->
  acc' = acc ++ map prepare l /\ NoDup (ID <$> l) /\ Forall (fun m => ID m ∉ seen) l /\
  Forall (fun m => validate m = Ok tt) l.
Proof.
  revert i acc seen. induction l as [|m l IH]; intros i acc seen; simpl.
  - intros [= <- <-]. rewrite app_nil_r. split_and!; try done; constructor.
  - case_bool_decide as Hm; [done|]. intros H. inv_ok.
    apply IH in H as (-> & H2 & H3 & H4). rewrite Forall_forall in H3. split_and!.
    + by rewrite <- app_assoc.
    + constructor; [|done]. intros (m' & Hm' & Hin)%list_elem_of_fmap. specialize (H3 m' Hin). set_solver.
    + constructor; [done|]. apply Forall_forall. intros x Hx. specialize (H3 x Hx). set_solver.
    + by constructor.
Qed.

Lemma sorted_strict l : StronglySorted id_le l -> NoDup (id <$> l) -> SortedIds l.
Proof.
  induction 1 as [|p l Hs IH Hp]; intros Hn; [done|]. inversion Hn as [|? ? Hni Hn']; subst.
  intros [|i] [|j] q r Hq Hr Hlt; simpl in *; try lia.
  - injection Hq as <-. rewrite Forall_forall in Hp.
    pose proof (Hp r (list_elem_of_lookup_2 _ _ _ Hr)) as Hle. unfold id_le, str_le in Hle.
    unfold before_id. destruct (str_ltb (id p) (id r)) eqn:E; [done|].
    exfalso. apply Hni. rewrite (str_ltb_total _ _ E Hle). apply list_elem_of_fmap.
    exists r. split; [done|]. by eapply list_elem_of_lookup_2.
  - apply (IH Hn' i j); [done|done|lia].
Qed.

#[export] Instance id_le_total : Total id_le.
Proof. intros p q. unfold id_le. apply (total str_le). Qed.
#[export] Instance id_le_trans : Transitive id_le.
Proof. intros p q r. unfold id_le. apply transitivity. Qed.

Lemma prepareMigrations_ok l ps :
  prepareMigrations l = Ok ps ->
  SortedIds ps /\ ps ≡ₚ map prepare l /\ Forall (fun m => validate m = Ok tt) l.
Proof.
  unfold prepareMigrations. intros H. inv_ok. destruct a as [acc seen].
  apply prepare_loop in E as (-> & Hn & _ & Hv). simpl.
  assert (merge_sort id_le (map prepare l) ≡ₚ map prepare l) as Hp by apply merge_sort_Permutation.
  split_and!; [|done|done].
  apply sorted_strict; [apply Sorted_StronglySorted; [apply _|apply Sorted_merge_sort; apply _]|].
  rewrite Hp. replace (id <$> map prepare l) with (ID <$> l); [done|].
  clear. induction l as [|m l IH]; [done|]. simpl. f_equal. exact IH.
Qed.

(** ** Binary search *)
Lemma id_at_lookup l i t : id_at l i t = true <-> exists p, l !! i = Some p /\ id p = t.
Proof.
  unfold id_at. destruct (l !! i) as [p|]; [|naive_solver].
  rewrite String.eqb_eq. split; [intros <-; by exists p|]. intros (q & [= <-] & ?). done.
Qed.

Lemma search_id_spec l t :
  SortedIds l ->
  (forall p i, l !! i = Some p -> id p = t -> search_id l t = i) /\
  (search_id l t = length l \/ id_at l (search_id l t) t = false ->
   forall p i, l !! i = Some p -> id p <> t).
Proof.
  intros Hs. unfold search_id.
  assert (forall a b, a <= b < length l -> id_reaches l t a = true -> id_reaches l t b = true) as Hm.
  { intros a b Hab. unfold id_reaches. destruct (lookup_lt_is_Some_2 l b) as [q Hq]; [lia|].
    destruct (lookup_lt_is_Some_2 l a) as [p Hp]; [lia|]. rewrite Hp, Hq, !negb_true_iff. intros Ha.
    destruct (decide (a = b)) as [->|Hne]; [congruence|].
    pose proof (Hs a b p q Hp Hq) as Hpq. destruct (str_ltb (id q) t) eqn:E; [|done].
    exfalso. unfold before_id in Hpq. pose proof (str_ltb_trans _ _ _ (Hpq ltac:(lia)) E). congruence. }
  pose proof (sort_Search_spec (length l) (id_reaches l t) Hm) as (Hr & Hlo & Hhi).
  set (r := sort_Search _ _) in *.
  assert (forall p i, l !! i = Some p -> id p = t -> r = i) as Hfound.
  { intros p i Hi Ht. destruct (lt_eq_lt_dec r i) as [[Hlt|?]|Hlt]; [|done|].
    - specialize (Hhi r). apply lookup_lt_Some in Hi as Hil.
      destruct (lookup_lt_is_Some_2 l r) as [q Hq]; [lia|]. unfold id_reaches in Hhi. rewrite Hq in Hhi.
      specialize (Hhi ltac:(lia)). pose proof (Hs r i q p Hq Hi Hlt) as K. unfold before_id in K.
      rewrite Ht in K. by rewrite K in Hhi.
    - specialize (Hlo i Hlt). unfold id_reaches in Hlo. rewrite Hi, Ht, str_ltb_irrefl in Hlo. done. }
  split; [done|]. intros Hmiss p i Hi Ht. pose proof (Hfound p i Hi Ht) as Hri.
  destruct Hmiss as [Hl|Hl].
  - apply lookup_lt_Some in Hi. lia.
  - rewrite Hri in Hl. assert (id_at l i t = true) as K by (apply id_at_lookup; eauto). congruence.
Qed.

(** How far a target reaches: the number of migrations up to and including
    it. *)
Definition reaches_target (l : list preparedMigration) (target : ApplyTarget) (limit : nat) : Prop :=
  match target with
  | applyEverything => limit = length l
  | applyThrough t => exists i p, l !! i = Some p /\ id p = t /\ limit = i + 1
  end.

Lemma search_test l t :
  SortedIds l ->
  (search_id l t =? length l) || negb (id_at l (search_id l t) t) = false <->
  exists p, l !! search_id l t = Some p /\ id p = t.
Proof.
  intros Hs. rewrite orb_false_iff, Nat.eqb_neq, negb_false_iff, id_at_lookup. split; [by intros [_ ?]|].
  intros (p & Hp & Ht). split; [|by exists p]. apply lookup_lt_Some in Hp. lia.
Qed.

Lemma applyLimit_spec l target limit :
  SortedIds l -> applyLimit l target = Ok limit <-> reaches_target l target limit.
Proof.
  intros Hs. destruct target as [|t]; simpl; [naive_solver|].
  pose proof (search_test l t Hs) as Hst. destruct (_ || _) eqn:E.
  - split; [done|]. intros (i & p & Hi & Ht & _). exfalso.
    assert (search_id l t = i) as Hi' by (eapply search_id_spec; eauto).
    enough (true = false) by done. apply Hst. rewrite Hi'. eauto.
  - destruct (proj1 Hst eq_refl) as (p & Hp & Ht). split.
    + intros [= <-]. exists (search_id l t), p. done.
    + intros (i & q & Hi & Hq & ->). do 2 f_equal. by eapply search_id_spec.
Qed.

(** ** Histories *)
Definition recorded (l : list preparedMigration) : gmap string string :=
  list_to_map ((fun p => (id p, pm_checksum p)) <$> l).
Definition rec_ok (applied : gmap string string) (p : preparedMigration) : Prop :=
  applied !! id p = Some (pm_checksum p).
Definition unrec (applied : gmap string string) (p : preparedMigration) : Prop := applied !! id p = None.
(** The IDs of a map, each once, in whatever order [range] takes. *)
Definition ranges_ids (range_ids : gmap string string -> list string) : Prop :=
  forall m, range_ids m ≡ₚ (map_to_list m).*1.

Lemma recorded_lookup l i c :
  NoDup (id <$> l) -> recorded l !! i = Some c <-> exists p, p ∈ l /\ id p = i /\ pm_checksum p = c.
Proof.
  intros Hn. unfold recorded. rewrite <- elem_of_list_to_map.
  - rewrite list_elem_of_fmap. split; [intros (p & [= -> ->] & ?); by exists p|].
    intros (p & ? & <- & <-). by exists p.
  - rewrite <- list_fmap_compose. exact Hn.
Qed.

Lemma recorded_none l i : recorded l !! i = None <-> i ∉ id <$> l.
Proof. unfold recorded. rewrite <- not_elem_of_list_to_map, <- list_fmap_compose. done. Qed.

Lemma range_ids_elem range_ids m i :
  ranges_ids range_ids -> i ∈ range_ids m <-> is_Some (m !! i).
Proof.
  intros Hr. rewrite (Hr m), list_elem_of_fmap. split.
  - intros ([k v] & -> & H%elem_of_map_to_list). by exists v.
  - intros [v Hv]. exists (i, v). by rewrite elem_of_map_to_list.
Qed.

Lemma existsb_id l i : existsb (fun p => String.eqb (id p) i) l = true <-> i ∈ id <$> l.
Proof.
  rewrite existsb_exists, list_elem_of_fmap. split.
  - intros (p & Hp & <-%String.eqb_eq). exists p. by rewrite list_elem_of_In.
  - intros (p & -> & Hp). exists p. by rewrite <- list_elem_of_In, String.eqb_eq.
Qed.

Lemma check_supplied_spec range_ids applied l :
  ranges_ids range_ids ->
  check_supplied range_ids applied l = Ok tt <-> forall i, is_Some (applied !! i) -> i ∈ id <$> l.
Proof.
  intros Hr. unfold check_supplied. rewrite checki_ok. split.
  - intros H i Hi. apply (range_ids_elem _ _ _ Hr) in Hi. apply list_elem_of_lookup in Hi as [j Hj].
    specialize (H j i Hj). simpl in H. apply existsb_id. by destruct (existsb _ _).
  - intros H j i Hj. simpl. assert (existsb (fun p => String.eqb (id p) i) l = true) as ->; [|done].
    apply existsb_id, H. apply (range_ids_elem _ _ _ Hr). by eapply list_elem_of_lookup_2.
Qed.

(** A history whose records cover exactly the first [k] migrations. *)
Lemma history_prefix applied l k :
  NoDup (id <$> l) ->
  (forall i, is_Some (applied !! i) -> i ∈ id <$> l) ->
  Forall (rec_ok applied) (take k l) -> Forall (unrec applied) (drop k l) ->
  applied = recorded (take k l).
Proof.
  intros Hn Hsup Hrec Hun. rewrite Forall_forall in Hrec, Hun. apply map_eq. intros i.
  assert (NoDup (id <$> take k l)) as Hnk.
  { rewrite <- (take_drop k l), fmap_app in Hn. by apply NoDup_app in Hn as [? _]. }
  destruct (applied !! i) as [c|] eqn:E.
  - symmetry. apply recorded_lookup; [done|].
    specialize (Hsup i ltac:(eauto)). apply list_elem_of_fmap in Hsup as (p & -> & Hp).
    rewrite <- (take_drop k l), elem_of_app in Hp. destruct Hp as [Hp|Hp].
    + exists p. split_and!; try done. specialize (Hrec p Hp). unfold rec_ok in Hrec. congruence.
    + specialize (Hun p Hp). unfold unrec in Hun. congruence.
  - symmetry. apply recorded_none. intros (p & -> & Hp)%list_elem_of_fmap.
    specialize (Hrec p Hp). unfold rec_ok in Hrec. congruence.
Qed.

Lemma recorded_prefix l k :
  NoDup (id <$> l) ->
  Forall (rec_ok (recorded (take k l))) (take k l) /\ Forall (unrec (recorded (take k l))) (drop k l) /\
  (forall i, is_Some (recorded (take k l) !! i) -> i ∈ id <$> take k l).
Proof.
  intros Hn. pose proof Hn as Hn'. rewrite <- (take_drop k l), fmap_app in Hn'.
  apply NoDup_app in Hn' as (Hnk & Hdis & _). split_and!.
  - apply Forall_forall. intros p Hp. apply recorded_lookup; [done|]. by exists p.
  - apply Forall_forall. intros p Hp. apply recorded_none. intros Hin. eapply Hdis; [exact Hin|].
    apply list_elem_of_fmap. by exists p.
  - intros i [c (p & Hp & <- & _)%recorded_lookup]; [|done]. apply list_elem_of_fmap. by exists p.
Qed.

(** ** [selectApplies] *)
Section ApplyLoop.
Variables (applied : gmap string string) (limit : nat).

Lemma apply_pending i l acc st :
  foldi (apply_step applied limit) i l (acc, true) = Ok st <->
  Forall (unrec applied) l /\ st = (acc ++ take (limit - i) l, true).
Proof.
  revert i acc. induction l as [|p l IH]; intros i acc; simpl.
  - rewrite take_nil, app_nil_r. naive_solver.
  - rewrite Forall_cons. unfold apply_step at 1. unfold unrec at 1.
    destruct (applied !! id p) as [c|]; simpl.
    + destruct (negb _); simpl; naive_solver.
    + destruct (Nat.leb_spec limit i); simpl; rewrite IH.
      * replace (limit - i) with 0 by lia. replace (limit - S i) with 0 by lia. simpl. naive_solver.
      * replace (limit - i) with (S (limit - S i)) by lia. simpl. rewrite <- app_assoc. simpl. naive_solver.
Qed.

Lemma apply_loop i l acc st :
  foldi (apply_step applied limit) i l (acc, false) = Ok st <->
  exists k, k <= length l /\ Forall (rec_ok applied) (take k l) /\ Forall (unrec applied) (drop k l) /\
            st = (acc ++ drop k (take (limit - i) l), k <? length l).
Proof.
  revert i acc. induction l as [|p l IH]; intros i acc; simpl.
  - rewrite take_nil. split.
    + intros [= <-]. exists 0. simpl. rewrite app_nil_r. split_and!; by try constructor.
    + intros (k & Hk & _ & _ & ->). assert (k = 0) as -> by (simpl in Hk; lia). simpl.
      by rewrite app_nil_r.
  - unfold apply_step at 1. destruct (applied !! id p) as [c|] eqn:E; simpl.
    + destruct (String.eqb_spec c (pm_checksum p)) as [->|Hc]; simpl.
      * rewrite IH. split.
        -- intros (k & Hk & H1 & H2 & ->). exists (S k). simpl. split_and!; [lia|by constructor|done|].
           f_equal. f_equal. destruct (limit - i) as [|m] eqn:Em; simpl.
           ++ replace (limit - S i) with 0 by lia. by rewrite take_0, drop_nil.
           ++ by replace (limit - S i) with m by lia.
        -- intros (k & Hk & H1 & H2 & ->). destruct k as [|k].
           { simpl in H2. apply Forall_cons in H2 as [H2 _]. unfold unrec in H2. congruence. }
           exists k. simpl in *. apply Forall_cons in H1 as [_ H1]. split_and!; [lia|done|done|].
           f_equal. f_equal. destruct (limit - i) as [|m] eqn:Em; simpl.
           ++ replace (limit - S i) with 0 by lia. by rewrite take_0, drop_nil.
           ++ by replace (limit - S i) with m by lia.
      * split; [done|]. intros (k & Hk & H1 & H2 & _). destruct k as [|k]; simpl in *.
        -- apply Forall_cons in H2 as [H2 _]. unfold unrec in H2. congruence.
        -- apply Forall_cons in H1 as [H1 _]. unfold rec_ok in H1. congruence.
    + assert (forall acc', foldi (apply_step applied limit) (S i) l (acc', true) = Ok st <->
                Forall (unrec applied) (p :: l) /\ st = (acc' ++ take (limit - S i) l, true)) as Hp.
      { intros acc'. rewrite apply_pending, Forall_cons. unfold unrec at 2. naive_solver. }
      assert (forall k, Forall (rec_ok applied) (take k (p :: l)) -> k = 0) as Hk0.
      { intros [|k]; [done|]. simpl. rewrite Forall_cons. unfold rec_ok at 1. naive_solver congruence. }
      destruct (Nat.leb_spec limit i); simpl; rewrite Hp.
      * replace (limit - i) with 0 by lia. replace (limit - S i) with 0 by lia. split.
        -- intros [H1 ->]. exists 0. simpl. split_and!; [lia|constructor|done|done].
        -- intros (k & _ & ->%Hk0 & H2 & ->). done.
      * replace (limit - i) with (S (limit - S i)) by lia. rewrite <- app_assoc. split.
        -- intros [H1 ->]. exists 0. simpl. split_and!; [lia|constructor|done|done].
        -- intros (k & _ & ->%Hk0 & H2 & ->). done.
Qed.
End ApplyLoop.

Lemma selectApplies_spec range_ids applied l target sel :
  SortedIds l -> ranges_ids range_ids ->
  selectApplies range_ids applied l target = Ok sel <->
  exists k limit, k <= length l /\ applied = recorded (take k l) /\ reaches_target l target limit /\
                  sel = drop k (take limit l).
Proof.
  intros Hs Hr. pose proof (SortedIds_nodup l Hs) as Hn. unfold selectApplies. split.
  - intros H. inv_ok. subst.
    pose proof (proj1 (check_supplied_spec _ _ _ Hr) E) as Hsup.
    apply (applyLimit_spec _ _ _ Hs) in E0 as Hlim.
    apply apply_loop in E1 as (k & Hk & H1 & H2 & ->).
    exists k, a. simpl. rewrite Nat.sub_0_r. split_and!; try done. by apply history_prefix.
  - intros (k & limit & Hk & -> & Hlim & ->). destruct (recorded_prefix l k Hn) as (R1 & R2 & R3).
    assert (check_supplied range_ids (recorded (take k l)) l = Ok tt) as ->.
    { apply check_supplied_spec; [done|]. intros i Hi%R3. rewrite <- (take_drop k l), fmap_app, elem_of_app. by left. }
    apply applyLimit_spec in Hlim; [|done]. rewrite Hlim.
    assert (foldi (apply_step (recorded (take k l)) limit) 0 l ([], false)
            = Ok (drop k (take limit l), k <? length l)) as ->; [|done].
    apply apply_loop. exists k. rewrite Nat.sub_0_r. done.
Qed.

(** ** [selectReverts] *)
Definition is_recorded (applied : gmap string string) (p : preparedMigration) : Prop := is_Some (applied !! id p).

(** The history names exactly the first [k] migrations. *)
Definition covers (applied : gmap string string) (l : list preparedMigration) (k : nat) : Prop :=
  k <= length l /\ forall i, is_Some (applied !! i) <-> i ∈ id <$> take k l.

Lemma collect_pending applied i l acc st :
  foldi (fun _ p (st : list preparedMigration * bool) =>
    match applied !! id p with
    | None => Ok (st.1, true)
    | Some _ => if st.2 then Err (after_missing (id p)) else Ok (st.1 ++ [p], st.2)
    end) i l (acc, true) = Ok st <-> Forall (unrec applied) l /\ st = (acc, true).
Proof.
  revert i. induction l as [|p l IH]; intros i; simpl; [naive_solver|].
  rewrite Forall_cons. unfold unrec at 1. destruct (applied !! id p) as [c|]; simpl; [naive_solver|].
  rewrite IH. naive_solver.
Qed.

Lemma collect_loop applied i l acc st :
  foldi (fun _ p (st : list preparedMigration * bool) =>
    match applied !! id p with
    | None => Ok (st.1, true)
    | Some _ => if st.2 then Err (after_missing (id p)) else Ok (st.1 ++ [p], st.2)
    end) i l (acc, false) = Ok st <->
  exists k, k <= length l /\ Forall (is_recorded applied) (take k l) /\ Forall (unrec applied) (drop k l) /\
            st = (acc ++ take k l, k <? length l).
Proof.
  revert i acc. induction l as [|p l IH]; intros i acc; simpl.
  - split.
    + intros [= <-]. exists 0. simpl. rewrite app_nil_r. split_and!; by try constructor.
    + intros (k & Hk & _ & _ & ->). assert (k = 0) as -> by (simpl in Hk; lia). by rewrite take_nil, app_nil_r.
  - destruct (applied !! id p) as [c|] eqn:E; simpl.
    + rewrite IH. split.
      * intros (k & Hk & H1 & H2 & ->). exists (S k). simpl. rewrite <- app_assoc.
        split_and!; [lia|constructor; [by exists c|done]|done|done].
      * intros ([|k] & Hk & H1 & H2 & ->); simpl in *.
        -- apply Forall_cons in H2 as [H2 _]. unfold unrec in H2. congruence.
        -- apply Forall_cons in H1 as [_ H1]. exists k. rewrite <- app_assoc. split_and!; [lia|done|done|done].
    + rewrite collect_pending. split.
      * intros [H1 ->]. exists 0. simpl. rewrite app_nil_r. split_and!; [lia|constructor|by constructor|done].
      * intros ([|k] & Hk & H1 & H2 & ->); simpl in *.
        -- apply Forall_cons in H2 as [_ H2]. by rewrite app_nil_r.
        -- apply Forall_cons in H1 as [[x Hx] _]. congruence.
Qed.

Lemma collect_spec applied l ps :
  NoDup (id <$> l) -> (forall i, is_Some (applied !! i) -> i ∈ id <$> l) ->
  collect_applied applied l = Ok ps <-> exists k, covers applied l k /\ ps = take k l.
Proof.
  intros Hn Hsup. unfold collect_applied. split.
  - intros H. inv_ok. apply collect_loop in E as (k & Hk & H1 & H2 & ->). exists k. simpl. split; [|done].
    split; [done|]. rewrite Forall_forall in H1, H2. intros i. split.
    + intros Hi. specialize (Hsup i Hi). apply list_elem_of_fmap in Hsup as (p & -> & Hp).
      rewrite <- (take_drop k l), elem_of_app in Hp. destruct Hp as [Hp|Hp%H2]; [by apply list_elem_of_fmap_2|].
      unfold unrec in Hp. destruct Hi as [c Hc]. congruence.
    + intros (p & -> & Hp)%list_elem_of_fmap. by apply H1.
  - intros (k & [Hk Hc] & ->).
    pose proof Hn as Hn'. rewrite <- (take_drop k l), fmap_app in Hn'. apply NoDup_app in Hn' as (_ & Hdis & _).
    assert (foldi (fun _ p (st : list preparedMigration * bool) =>
      match applied !! id p with
      | None => Ok (st.1, true)
      | Some _ => if st.2 then Err (after_missing (id p)) else Ok (st.1 ++ [p], st.2)
      end) 0 l ([], false) = Ok (take k l, k <? length l)) as ->; [|done].
    apply collect_loop. exists k. split_and!; try done.
    + apply Forall_forall. intros p Hp. apply Hc. by apply list_elem_of_fmap_2.
    + apply Forall_forall. intros p Hp. unfold unrec. destruct (applied !! id p) as [c|] eqn:E; [|done].
      exfalso. apply (Hdis (id p)); [apply Hc; eauto|by apply list_elem_of_fmap_2].
Qed.

Definition reverts_target (ps : list preparedMigration) (target : RevertTarget) (n : nat) : Prop :=
  match target with
  | revertNothing => False
  | revertThrough t => exists i p, ps !! i = Some p /\ id p = t /\ n = length ps - i - 1
  | revertSteps z => (0 < z <= Z.of_nat (length ps))%Z /\ n = Z.to_nat z
  end.

Lemma revertCount_spec ps target n :
  SortedIds ps -> revertCount ps target = Ok n <-> reverts_target ps target n.
Proof.
  intros Hs. destruct target as [|t|z]; simpl; [done| |].
  - pose proof (search_test ps t Hs) as Hst. destruct (_ || _) eqn:E.
    + split; [done|]. intros (i & p & Hi & Ht & _). exfalso.
      assert (search_id ps t = i) as Hi' by (eapply search_id_spec; eauto).
      enough (true = false) by done. apply Hst. rewrite Hi'. eauto.
    + destruct (proj1 Hst eq_refl) as (p & Hp & Ht). split.
      * intros [= <-]. exists (search_id ps t), p. done.
      * intros (i & q & Hi & Hq & ->). do 2 f_equal.
        assert (search_id ps t = i) as -> by (eapply search_id_spec; eauto). done.
  - destruct (Z.leb_spec z 0); [split; [done|lia]|].
    destruct (Z.ltb_spec (Z.of_nat (length ps)) z); [split; [done|lia]|].
    split; [intros [= <-]; split; [lia|done]|by intros [_ ->]].
Qed.

Definition revertible (applied : gmap string string) (p : preparedMigration) : Prop :=
  rec_ok applied p /\ down p <> [].

Lemma revert_loop applied i l acc sel :
  foldi (revert_step applied) i l acc = Ok sel <-> Forall (revertible applied) l /\ sel = acc ++ l.
Proof.
  revert i acc. induction l as [|p l IH]; intros i acc; simpl.
  - rewrite app_nil_r. naive_solver.
  - rewrite Forall_cons. unfold revert_step at 1, revertible at 1, rec_ok.
    case_bool_decide as Hc; simpl; [|naive_solver].
    destruct (down p) as [|d ds]; simpl; [naive_solver|]. rewrite IH, <- app_assoc. simpl. naive_solver.
Qed.

Lemma selectReverts_spec range_ids applied l target sel :
  SortedIds l -> ranges_ids range_ids ->
  selectReverts range_ids applied l target = Ok sel <->
  exists k n, covers applied l k /\ reverts_target (take k l) target n /\
              sel = newest n (take k l) /\ Forall (revertible applied) sel.
Proof.
  intros Hs Hr. pose proof (SortedIds_nodup l Hs) as Hn. unfold selectReverts. split.
  - intros H. inv_ok. pose proof (proj1 (check_supplied_spec _ _ _ Hr) E) as Hsup.
    apply (collect_spec _ _ _ Hn Hsup) in E0 as (k & Hc & ->).
    apply (revertCount_spec _ _ _ (SortedIds_take k l Hs)) in E1.
    apply revert_loop in H as [H1 ->]. simpl. by exists k, a0.
  - intros (k & n & Hc & Ht & -> & Hf).
    assert (forall i, is_Some (applied !! i) -> i ∈ id <$> l) as Hsup.
    { intros i Hi%Hc. rewrite <- (take_drop k l), fmap_app, elem_of_app. by left. }
    rewrite (proj2 (check_supplied_spec _ _ _ Hr) Hsup).
    rewrite (proj2 (collect_spec _ _ _ Hn Hsup) (ex_intro _ k (conj Hc eq_refl))).
    rewrite (proj2 (revertCount_spec _ _ _ (SortedIds_take k l Hs)) Ht).
    by apply revert_loop.
Qed.

(** ** [Status] *)
Definition healthy (e : StatusEntry) : Prop := State e = StatusApplied \/ State e = StatusPending.

Lemma unknown_ids_elem applied l i :
  i ∈ unknown_ids applied l <-> is_Some (applied !! i) /\ i ∉ id <$> l.
Proof.
  unfold unknown_ids. rewrite sort_Strings_perm, list_elem_of_filter.
  assert (existsb (fun p => String.eqb (id p) i) l = false <-> i ∉ id <$> l) as ->.
  { rewrite <- existsb_id. by destruct (existsb _ _). }
  rewrite (list_elem_of_fmap fst). split.
  - intros [? ([k v] & -> & H%elem_of_map_to_list)]. by split; [exists v|].
  - intros [[v Hv] ?]. split; [done|]. exists (i, v). by rewrite elem_of_map_to_list.
Qed.

Lemma status_loop_pending applied l :
  Forall healthy (status_loop applied true l) <-> Forall (unrec applied) l.
Proof.
  induction l as [|p l IH]; simpl; [by split; constructor|].
  rewrite Forall_cons. unfold unrec at 1. destruct (applied !! id p) as [c|]; rewrite Forall_cons, IH.
  - unfold healthy. simpl. destruct (negb _); naive_solver.
  - unfold healthy. simpl. naive_solver.
Qed.

Lemma status_loop_healthy applied l :
  Forall healthy (status_loop applied false l) <->
  exists k, k <= length l /\ Forall (rec_ok applied) (take k l) /\ Forall (unrec applied) (drop k l).
Proof.
  induction l as [|p l IH]; simpl.
  - split; [intros _; exists 0; split_and!; [done|constructor|constructor]|by constructor].
  - destruct (applied !! id p) as [c|] eqn:E; rewrite Forall_cons.
    + unfold healthy at 1. simpl. destruct (String.eqb_spec c (pm_checksum p)) as [->|Hc]; simpl.
      * rewrite IH. split.
        -- intros [_ (k & Hk & H1 & H2)]. exists (S k). simpl. split_and!; [lia|by constructor|done].
        -- intros ([|k] & Hk & H1 & H2); simpl in *.
           ++ apply Forall_cons in H2 as [H2 _]. unfold unrec in H2. congruence.
           ++ apply Forall_cons in H1 as [_ H1]. split; [by left|]. exists k. split_and!; [lia|done|done].
      * split; [naive_solver|]. intros ([|k] & Hk & H1 & H2); simpl in *.
        -- apply Forall_cons in H2 as [H2 _]. unfold unrec in H2. congruence.
        -- apply Forall_cons in H1 as [H1 _]. unfold rec_ok in H1. congruence.
    + rewrite status_loop_pending. unfold healthy. simpl. split.
      * intros [_ H]. exists 0. simpl. split_and!; [lia|constructor|by constructor].
      * intros ([|k] & Hk & H1 & H2); simpl in *; [apply Forall_cons in H2 as [_ H2]; by split; [right|]|].
        apply Forall_cons in H1 as [H1 _]. unfold rec_ok in H1. congruence.
Qed.

(** ** The checksum's input *)
Definition clean (s : SqlSource) : Prop := Contains (Source s) NUL = false /\ Contains (SQL s) NUL = false.

Lemma Contains_nul_cons c s : Contains (String c s) NUL = Ascii.eqb (chr 0) c || Contains s NUL.
Proof.
  unfold Contains. cbn [Index]. unfold NUL, str1 at 1. cbn [HasPrefix].
  destruct (Ascii.eqb (chr 0) c) eqn:E; simpl.
  - by destruct s.
  - by destruct (Index s _).
Qed.

Lemma nul_cut a b x y :
  Contains a NUL = false -> Contains b NUL = false -> a +:+ NUL +:+ x = b +:+ NUL +:+ y -> a = b /\ x = y.
Proof.
  revert b. induction a as [|c a IH]; intros [|d b]; rewrite ?Contains_nul_cons, ?orb_false_iff.
  - intros _ _ H. simpl in H. by injection H.
  - intros _ [Hd _] H. simpl in H. injection H as Hc _. subst d. done.
  - intros [Hc _] _ H. simpl in H. injection H as Hd _. subst c. done.
  - intros [_ Ha] [_ Hb] H. simpl in H. injection H as -> H. destruct (IH b Ha Hb H) as [-> ->]. done.
Qed.

Lemma statement_bytes_inj l l' :
  Forall clean l -> Forall clean l' -> statement_bytes l = statement_bytes l' -> l = l'.
Proof.
  intros Hl. revert l'. induction Hl as [|[so q] l [Hs Hq] Hl IH]; intros l' Hl'; destruct Hl' as [|[so' q'] l' [Hs' Hq'] Hl'].
  - done.
  - simpl. intros H. apply (f_equal String.length) in H. rewrite !slength_app in H. simpl in H. lia.
  - simpl. intros H. apply (f_equal String.length) in H. rewrite !slength_app in H. simpl in H. lia.
  - simpl in *. intros H. apply nul_cut in H as [-> H]; [|done|done].
    apply nul_cut in H as [-> H]; [|done|done]. by rewrite (IH l' Hl' H).
Qed.

(** ** Claims *)

(** What apply selects: for migrations in ID order, [selectApplies]
    accepts a history exactly when it records the first k supplied migrations,
    each with its current checksum, and nothing else, and the target names a
    supplied migration; it then selects the migrations after those k up to and
    including the target, oldest first. Preparing a set of migrations yields
    that order, a permutation of the input whose members all validate. *)
Lemma selectApplies_exact (range_ids : gmap string string -> list string) :
  ranges_ids range_ids ->
  (forall l ps, prepareMigrations l = Ok ps ->
     SortedIds ps /\ ps ≡ₚ map prepare l /\ Forall (fun m => validate m = Ok tt) l) /\
  (forall applied l target sel, SortedIds l ->
     selectApplies range_ids applied l target = Ok sel <->
     exists k limit, k <= length l /\ applied = recorded (take k l) /\ reaches_target l target limit /\
                     sel = drop k (take limit l)).
Proof.
  intros Hr. split; [intros; by apply prepareMigrations_ok|]. intros. by apply selectApplies_spec.
Qed.

(** What revert selects: for migrations in ID order, [selectReverts]
    accepts exactly when the history names the first k supplied migrations and
    nothing else, the target counts n of them (those after the named one, or
    the given positive number, at most k), and each of the newest n has its
    checksum recorded and reverse sources; it selects those n, newest first. *)
Lemma selectReverts_exact (range_ids : gmap string string -> list string)
  (applied : gmap string string) (l : list preparedMigration) (target : RevertTarget)
  (sel : list preparedMigration) :
  SortedIds l -> ranges_ids range_ids ->
  selectReverts range_ids applied l target = Ok sel <->
  exists k n, covers applied l k /\ reverts_target (take k l) target n /\
              sel = newest n (take k l) /\ Forall (revertible applied) sel.
Proof. apply selectReverts_spec. Qed.

(** Status tells what apply would do: it lists the recorded migrations
    that were not supplied, sorted, then every supplied migration in order, and
    every entry is applied or pending exactly when applying all pending
    migrations would be accepted; the pending entries are then the migrations
    it selects. *)
Lemma statusEntries_apply (range_ids : gmap string string -> list string)
  (applied : gmap string string) (l : list preparedMigration) :
  SortedIds l -> ranges_ids range_ids ->
  se_ID <$> statusEntries applied l = unknown_ids applied l ++ (id <$> l) /\
  (Forall healthy (statusEntries applied l) <->
   is_ok (selectApplies range_ids applied l applyEverything) = true) /\
  (forall sel, selectApplies range_ids applied l applyEverything = Ok sel ->
     id <$> sel = se_ID <$> filter (fun e => State e = StatusPending) (statusEntries applied l)).
Proof.
  intros Hs Hr. pose proof (SortedIds_nodup l Hs) as Hn. split_and!.
  - unfold statusEntries. rewrite fmap_app. f_equal.
    + induction (unknown_ids applied l) as [|i us IH]; [done|]. simpl. f_equal. exact IH.
    + generalize false. clear. induction l as [|p l IH]; intros b; [done|]. simpl.
      destruct (applied !! id p); simpl; f_equal; apply IH.
  - rewrite is_ok_true. unfold statusEntries. rewrite Forall_app, status_loop_healthy. split.
    + intros [Hu (k & Hk & H1 & H2)]. exists (drop k (take (length l) l)).
      apply selectApplies_spec; [done|done|]. exists k, (length l). split_and!; try done.
      apply history_prefix; [done| |done|done]. intros i Hi. destruct (decide (i ∈ id <$> l)) as [|Hni]; [done|].
      exfalso. assert (i ∈ unknown_ids applied l) as Hin by (by apply unknown_ids_elem).
      rewrite Forall_forall in Hu. specialize (Hu (MkEntry i StatusUnknown false)).
      destruct Hu as [Hu|Hu]; [|done|done]. apply list_elem_of_fmap. by exists i.
    + intros [sel H]. apply selectApplies_spec in H as (k & limit & Hk & -> & _ & _); [|done|done].
      destruct (recorded_prefix l k Hn) as (R1 & R2 & R3). split; [|by exists k].
      apply Forall_forall. intros e (i & -> & [Hi Hni]%unknown_ids_elem)%list_elem_of_fmap.
      exfalso. apply Hni. apply R3 in Hi. rewrite <- (take_drop k l), fmap_app, elem_of_app. by left.
  - intros sel H. apply selectApplies_spec in H as (k & limit & Hk & -> & Hlim & ->); [|done|done].
    simpl in Hlim. subst limit. rewrite (take_ge l (length l)) by lia. destruct (recorded_prefix l k Hn) as (R1 & R2 & _).
    unfold statusEntries. rewrite filter_app, fmap_app.
    assert (filter (fun e => State e = StatusPending)
      (map (fun i => MkEntry i StatusUnknown false) (unknown_ids (recorded (take k l)) l)) = []) as ->.
    { generalize (unknown_ids (recorded (take k l)) l). intros us. by induction us. }
    simpl. clear Hs Hr Hn. revert R1 R2. generalize (recorded (take k l)). intros m. generalize false.
    revert k Hk. induction l as [|p l IH]; intros k Hk b R1 R2; [by rewrite drop_nil|].
    destruct k as [|k]; simpl in *.
    + apply Forall_cons in R2 as [H1 R2]. unfold unrec in H1. rewrite H1. simpl. f_equal.
      apply (IH 0 ltac:(lia)); [constructor|by rewrite drop_0].
    + apply Forall_cons in R1 as [H1 R1]. unfold rec_ok in H1. rewrite H1, String.eqb_refl. simpl.
      rewrite filter_cons_False by (simpl; by destruct b). apply IH; [lia|done|done].
Qed.

(** The checksum: it is always 64 hexadecimal digits, so it fits the
    CHAR(64) column MySQL stores it in; and it covers the sources: two lists of
    sources without NUL bytes feed the hash the same bytes, in the same mode,
    only when they are the same list. *)
Lemma checksum_covers :
  (forall md l, String.length (checksumMode md l) = 64) /\
  (forall md l l', Forall clean l -> Forall clean l' -> checksum_bytes md l = checksum_bytes md l' -> l = l').
Proof.
  split.
  - intros md l. unfold checksumMode. by rewrite EncodeToString_length, Sum_length.
  - intros md l l' Hl Hl' H. unfold checksum_bytes in H. apply statement_bytes_inj; [done|done|].
    apply (f_equal (sdrop (String.length (mode_bytes md)))) in H. by rewrite !sdrop_app in H.
Qed.

(** ** Witnesses *)
Definition source_a : SqlSource := MkSource "a.up.sql" "CREATE TABLE a (id INTEGER)".
Definition source_b : SqlSource := MkSource "b.up.sql" "CREATE TABLE b (id INTEGER)".
Definition undo_a : SqlSource := MkSource "a.down.sql" "DROP TABLE a".
Definition sample_migrations : list Migration :=
  [MkMigration "002" "" [source_b] []; MkMigration "001" "" [source_a] [undo_a]].
Definition sample_prepared : list preparedMigration :=
  match prepareMigrations sample_migrations with Ok l => l | Err _ => [] end.
Definition map_ids (m : gmap string string) : list string := (map_to_list m).*1.
Lemma map_ids_ranges : ranges_ids map_ids.
Proof. intros m. reflexivity. Qed.
Lemma sample_prepared_ok : prepareMigrations sample_migrations = Ok sample_prepared.
Proof. vm_compute. reflexivity. Qed.
Lemma sample_sorted : SortedIds sample_prepared.
Proof. exact (proj1 (prepareMigrations_ok _ _ sample_prepared_ok)). Qed.

Lemma selectApplies_exact_witness :
  selectApplies map_ids (recorded (take 1 sample_prepared)) sample_prepared AllPending
  = Ok (drop 1 sample_prepared) /\ id <$> drop 1 sample_prepared = ["002"].
Proof.
  split; [|vm_compute; reflexivity].
  apply (proj2 (selectApplies_exact map_ids map_ids_ranges)); [exact sample_sorted|].
  exists 1, 2. split; [apply Nat.leb_le; vm_compute; reflexivity|]. split; [reflexivity|]. split; vm_compute; reflexivity.
Defined.

Lemma selectReverts_exact_witness :
  selectReverts map_ids (recorded (take 1 sample_prepared)) sample_prepared (Steps 1)
  = Ok (take 1 sample_prepared) /\ id <$> take 1 sample_prepared = ["001"].
Proof.
  split; [|vm_compute; reflexivity].
  apply (proj2 (selectReverts_exact map_ids (recorded (take 1 sample_prepared)) sample_prepared (Steps 1)
                  (take 1 sample_prepared) sample_sorted map_ids_ranges)).
  exists 1, 1. split; [split|split_and!].
  - apply Nat.leb_le. vm_compute. reflexivity.
  - intros i. pose proof (recorded_prefix sample_prepared 1 (SortedIds_nodup _ sample_sorted)) as (R1 & _ & R3).
    split; [apply R3|]. intros (p & -> & Hp)%list_elem_of_fmap. rewrite Forall_forall in R1.
    specialize (R1 p Hp). by exists (pm_checksum p).
  - simpl. split; [vm_compute; split; [reflexivity|discriminate]|reflexivity].
  - vm_compute. reflexivity.
  - vm_compute. constructor; [split; [reflexivity|discriminate]|constructor].
Defined.

Lemma statusEntries_apply_witness :
  Forall healthy (statusEntries (recorded (take 1 sample_prepared)) sample_prepared) /\
  is_ok (selectApplies map_ids (recorded (take 1 sample_prepared)) sample_prepared applyEverything) = true.
Proof.
  assert (is_ok (selectApplies map_ids (recorded (take 1 sample_prepared)) sample_prepared applyEverything) = true)
    as H by (vm_compute; reflexivity).
  split; [|exact H].
  refine (proj2 (proj1 (proj2 (statusEntries_apply map_ids (recorded (take 1 sample_prepared)) sample_prepared
    sample_sorted map_ids_ranges))) _). exact H.
Defined.

(** The checksum does not tell every pair of migrations apart: SQL text may
    hold a NUL byte, and a source may be named like the mode's own prefix. *)
Definition joined : list SqlSource := [MkSource "a" ("x" +:+ NUL +:+ "b" +:+ NUL +:+ "y")].
Definition apart : list SqlSource := [MkSource "a" "x"; MkSource "b" "y"].
Definition prefixed : list SqlSource := [MkSource "rasql-execution-mode" "nontransactional"; MkSource "a" "x"].
Lemma checksums_collide :
  validate (MkMigration "1" "" joined []) = Ok tt /\ validate (MkMigration "1" "" apart []) = Ok tt /\
  checksum joined = checksum apart /\
  validate (MkMigration "1" "" prefixed []) = Ok tt /\
  checksum prefixed = checksumMode ExecutionModeNonTransactional [MkSource "a" "x"].
Proof. split_and!; vm_compute; reflexivity. Qed.
