(* ===== verification/MigrateRun.v ===== *)
(** * MigrateRun: [migrate/runner.go], [apply.go], [revert.go], [status.go],
    [postgresql_lock.go], [mysql_already_applied.go] and
    [internal/mysqlerrno]

    The runner as a program over a database session.  What the server does
    with the SQL of a migration is a parameter ([exec_sql]); what it does with
    the runner's own statements on the history table, with transactions and
    with the advisory lock is their documented behaviour, written out as the
    operations on [world].  Every call to the driver may fail, before or after
    the server did the work: [fault] decides. *)

From S2P Require Import Prelude GoText Schema Dialect Migration.
Open Scope string_scope.
Open Scope list_scope.
Open Scope nat_scope.

(** ** The session *)
Definition rows_t : Type := list (string * string).

Record world (Data : Type) := MkWorld {
  data : Data;                            (* what this session sees of the schema and its rows *)
  history : option rows_t;                (* the history table, once it exists *)
  saved : option (Data * option rows_t);  (* what a rollback returns to, inside a transaction *)
  locked : bool;                          (* the session holds the migration lock *)
  bad : bool;                             (* the connection was marked bad *)
  tick : nat;                             (* calls made so far *)
  sent : list string;                     (* the SQL sent, in order *)
  notices : list error }.                 (* formatted messages, written out like errors *)
Arguments MkWorld {Data}.
Arguments data {Data}.
Arguments history {Data}.
Arguments saved {Data}.
Arguments locked {Data}.
Arguments bad {Data}.
Arguments tick {Data}.
Arguments sent {Data}.
Arguments notices {Data}.

(** ** [internal/mysqlerrno] *)
Definition mysql_error : string := "mysql.MySQLError".
Fixpoint Number (e : error) : option Z :=
  match e with
  | MkError kind format args =>
      match kind, args with
      | KTyped n, AInt z :: _ =>
          if String.eqb n mysql_error then Some z else None
      | _, _ =>
          if wraps kind format then
            (fix wrapped (l : list err_arg) : option Z :=
               match l with
               | [] => None
               | AErr e' :: l' => match Number e' with Some z => Some z | None => wrapped l' end
               | _ :: l' => wrapped l'
               end) args
          else None
      end
  end.
Definition AlreadyApplied (number : Z) : bool :=
  existsb (Z.eqb number) [1050; 1060; 1061; 1091; 3821; 3940]%Z.

(** [errors.Is(err, driver.ErrBadConn)]. *)
Definition ErrBadConn : error := errors_New "driver: bad connection".
Definition IsBadConn (e : error) : bool := errors_Is "driver: bad connection" e.

(** ** The runner *)
Record Runner := MkRunner {
  r_database : bool;                      (* the handle is not nil *)
  r_dialect : option Dialect;
  historyTable : string; historySQL : string; idSQL : string; checksumSQL : string; appliedAtSQL : string }.
Definition defaultHistoryTable : string := "rasql_schema_migrations".

Definition wrapf (format : string) (e : error) : error := Errorf format [AErr e].

Definition NewWithHistoryTable (database : bool) (d : option Dialect) (table : string) : result Runner :=
  if negb database then Err (errors_New "migrate: database must not be nil")
  else match d with
  | None => Err (errors_New "migrate: dialect must not be nil")
  | Some d =>
      check wrap_err (wrapf "migrate: history table: %w") (ValidateSimpleIdentifier table);
      if negb (existsb (String.eqb (d_Name d)) ["postgresql"; "mysql"; "sqlite"])
      then Err (Errorf "migrate: dialect %q is not supported" [AStr (d_Name d)])
      else
        do h <- wrap_err (wrapf "migrate: quote history table: %w") (d_QuoteIdentifier d table);
        do i <- wrap_err (wrapf "migrate: quote migration ID column: %w") (d_QuoteIdentifier d "id");
        do c <- wrap_err (wrapf "migrate: quote migration checksum column: %w") (d_QuoteIdentifier d "checksum");
        do a <- wrap_err (wrapf "migrate: quote migration applied-at column: %w") (d_QuoteIdentifier d "applied_at");
        Ok (MkRunner true (Some d) table h i c a)
  end.
Definition New (database : bool) (d : option Dialect) : result Runner :=
  NewWithHistoryTable database d defaultHistoryTable.

(** [Runner.validate], which also hands on the dialect. *)
Definition runner_validate (r : Runner) : result Dialect :=
  match r_dialect r with
  | Some d =>
      if negb (r_database r) || String.eqb (historyTable r) "" || String.eqb (historySQL r) ""
         || String.eqb (idSQL r) "" || String.eqb (checksumSQL r) "" || String.eqb (appliedAtSQL r) ""
      then Err (errors_New "migrate: invalid runner") else Ok d
  | None => Err (errors_New "migrate: invalid runner")
  end.

Definition historyTableDDL (r : Runner) (d : Dialect) : result string :=
  let ddl id_type checksum_type at_type :=
    Ok ("CREATE TABLE IF NOT EXISTS " +:+ historySQL r +:+ " (" +:+ idSQL r +:+ id_type
          +:+ " NOT NULL PRIMARY KEY, " +:+ checksumSQL r +:+ checksum_type +:+ " NOT NULL, "
          +:+ appliedAtSQL r +:+ at_type +:+ " NOT NULL DEFAULT CURRENT_TIMESTAMP)") in
  if String.eqb (d_Name d) "postgresql" then ddl " TEXT" " TEXT" " TIMESTAMPTZ"
  else if String.eqb (d_Name d) "mysql" then ddl " VARCHAR(255)" " CHAR(64)" " TIMESTAMP"
  else if String.eqb (d_Name d) "sqlite" then ddl " TEXT" " TEXT" " TEXT"
  else Err (Errorf "migrate: dialect %q is not supported" [AStr (d_Name d)]).

Definition duplicate_key : error := MkError (KTyped "driver.Error") "duplicate key" [].
Definition no_such_table : error := MkError (KTyped "driver.Error") "no such table" [].

(** What a run returns: the migrations done and an error, both meaningful. *)
Definition outcome : Type := list Migration * option error.

(** ** Calls *)
Declare Scope run_scope.
Delimit Scope run_scope with run.

(** The server and the connection to it. *)
Class Server (Data : Type) := {
  (* what the server does with one statement of a migration: the new contents,
     and the error it reports, if any *)
  exec_sql : string -> Data -> Data * option error;
  (* whether the server commits the open transaction before running it *)
  implicit_commit : string -> bool;
  (* the call with this number fails, after the server did the work or before
     it reached the server *)
  fault : nat -> option (bool * error);
  (* the answer to GET_LOCK at a call: None is NULL *)
  get_lock : nat -> option Z;
  (* the order in which Go's range visits the history map *)
  range_ids : gmap string string -> list string }.

Section Run.
Context {Data : Type} {server : Server Data}.

Definition M (A : Type) : Type := world Data -> A * world Data.
Definition ret {A} (a : A) : M A := fun w => (a, w).
Definition bind {A B} (m : M A) (k : A -> M B) : M B := fun w => let '(a, w') := m w in k a w'.

Local Notation "x <~ m ;; k" := (bind m (fun x => k)) (at level 100, m at next level, right associativity).

(** One call to the driver sending [text] (or a parenthesised word for a call
    that sends none): [work] is what the server does. *)
Definition called (text : string) (w : world Data) : world Data :=
  MkWorld (data w) (history w) (saved w) (locked w) (bad w) (S (tick w)) (sent w ++ [text]) (notices w).
Definition call {A} (text : string) (work : M (result A)) : M (result A) := fun w =>
  let w1 := called text w in
  match fault (tick w) with
  | None => work w1
  | Some (true, e) => (Err e, snd (work w1))
  | Some (false, e) => (Err e, w1)
  end.

(** *** Transactions *)
Definition work_begin : M (result unit) := fun w =>
  (Ok tt, MkWorld (data w) (history w) (Some (data w, history w)) (locked w) (bad w) (tick w) (sent w) (notices w)).
Definition end_transaction (w : world Data) : world Data :=
  MkWorld (data w) (history w) None (locked w) (bad w) (tick w) (sent w) (notices w).
Definition work_commit : M (result unit) := fun w => (Ok tt, end_transaction w).
Definition restore (w : world Data) : world Data :=
  match saved w with
  | Some (d, h) => MkWorld d h None (locked w) (bad w) (tick w) (sent w) (notices w)
  | None => w
  end.
Definition work_rollback : M (result unit) := fun w => (Ok tt, restore w).

Definition begin_tx : M (result unit) := call "BEGIN" work_begin.
Definition commit_tx : M (result unit) := call "COMMIT" work_commit.
Definition rollback_tx : M (result unit) := call "ROLLBACK" work_rollback.

(** *** Statements *)
Definition set_data (d : Data) (w : world Data) : world Data :=
  MkWorld d (history w) (saved w) (locked w) (bad w) (tick w) (sent w) (notices w).
Definition set_history (h : option rows_t) (w : world Data) : world Data :=
  MkWorld (data w) h (saved w) (locked w) (bad w) (tick w) (sent w) (notices w).
Definition set_locked (b : bool) (w : world Data) : world Data :=
  MkWorld (data w) (history w) (saved w) b (bad w) (tick w) (sent w) (notices w).

Definition work_sql (sql : string) : M (result unit) := fun w =>
  let w := if implicit_commit sql then end_transaction w else w in
  let '(d, e) := exec_sql sql (data w) in
  (match e with Some e => Err e | None => Ok tt end, set_data d w).
Definition exec_source (sql : string) : M (result unit) := call sql (work_sql sql).

Definition work_ddl : M (result unit) := fun w =>
  (Ok tt, set_history (Some (default [] (history w))) w).
Definition work_select : M (result rows_t) := fun w =>
  (match history w with Some rows => Ok rows | None => Err no_such_table end, w).
Definition work_insert (i c : string) : M (result unit) := fun w =>
  match history w with
  | None => (Err no_such_table, w)
  | Some rows =>
      if existsb (fun row => String.eqb (fst row) i) rows then (Err duplicate_key, w)
      else (Ok tt, set_history (Some (rows ++ [(i, c)])) w)
  end.
Definition work_delete (i : string) : M (result unit) := fun w =>
  match history w with
  | None => (Err no_such_table, w)
  | Some rows => (Ok tt, set_history (Some (filter (fun row => fst row <> i) rows)) w)
  end.

(** ** [runner.go]: the history table *)
Definition ensureHistory (r : Runner) (d : Dialect) : M (result unit) :=
  match historyTableDDL r d with
  | Err e => ret (Err e)
  | Ok statement =>
      res <~ call statement work_ddl ;;
      ret (wrap_err (wrapf "migrate: create migration history: %w") res)
  end.

(** The map [applied] builds from the rows. *)
Definition history_map (rows : rows_t) : result (gmap string string) :=
  foldi (fun _ row (m : gmap string string) =>
    match m !! fst row with
    | Some _ => Err (Errorf "migrate: migration history contains duplicate ID %q" [AStr (fst row)])
    | None => Ok (<[fst row := snd row]> m)
    end) 0 rows ∅.
Definition applied (r : Runner) : M (result (gmap string string)) :=
  res <~ call ("SELECT " +:+ idSQL r +:+ ", " +:+ checksumSQL r +:+ " FROM " +:+ historySQL r
                 +:+ " ORDER BY " +:+ idSQL r) work_select ;;
  ret (do rows <- wrap_err (wrapf "migrate: read applied migrations: %w") res; history_map rows).

Definition record (r : Runner) (d : Dialect) (p : preparedMigration) : M (result unit) :=
  match (do a <- wrap_err (wrapf "migrate: render migration history insert: %w") (d_Placeholder d 1);
         do b <- wrap_err (wrapf "migrate: render migration history insert: %w") (d_Placeholder d 2);
         Ok ("INSERT INTO " +:+ historySQL r +:+ " (" +:+ idSQL r +:+ ", " +:+ checksumSQL r +:+ ") VALUES ("
               +:+ a +:+ ", " +:+ b +:+ ")")) with
  | Err e => ret (Err e)
  | Ok statement =>
      res <~ call statement (work_insert (id p) (pm_checksum p)) ;;
      ret (wrap_err (fun e => Errorf "migrate: record migration %q: %w" [AStr (id p); AErr e]) res)
  end.

Definition forget (r : Runner) (d : Dialect) (i : string) : M (result unit) :=
  match (do a <- wrap_err (wrapf "migrate: render migration history delete: %w") (d_Placeholder d 1);
         Ok ("DELETE FROM " +:+ historySQL r +:+ " WHERE " +:+ idSQL r +:+ " = " +:+ a)) with
  | Err e => ret (Err e)
  | Ok statement =>
      res <~ call statement (work_delete i) ;;
      ret (wrap_err (fun e => Errorf "migrate: remove migration record %q: %w" [AStr i; AErr e]) res)
  end.

(** ** [mysql_already_applied.go] *)
Definition appliedNoticeFormat : string := "migrate: warning: migration %q SQL source %q was already applied: %v" +:+ str1 (chr 10).
Definition revertedNoticeFormat : string := "migrate: warning: migration %q reverse SQL source %q was already reverted: %v" +:+ str1 (chr 10).
Definition notice (text : error) : M unit := fun w =>
  (tt, MkWorld (data w) (history w) (saved w) (locked w) (bad w) (tick w) (sent w) (notices w ++ [text])).
Definition tolerateAlreadyDone (d : Dialect) (noticeFormat i source : string) (e : error) : M bool :=
  if negb (String.eqb (d_Name d) "mysql") then ret false
  else match Number e with
  | Some n =>
      if AlreadyApplied n
      then _ <~ notice (Errorf noticeFormat [AStr i; AStr source; AErr e]) ;; ret true
      else ret false
  | None => ret false
  end.
Definition toleratedAsApplied (d : Dialect) : string -> string -> error -> M bool :=
  tolerateAlreadyDone d appliedNoticeFormat.
Definition toleratedAsReverted (d : Dialect) : string -> string -> error -> M bool :=
  tolerateAlreadyDone d revertedNoticeFormat.
(** Where the source tolerates nothing. *)
Definition never (_ _ : string) (_ : error) : M bool := ret false.

(** A loop over sources: the first error that is not tolerated ends it. *)
Definition source_error (what : string) (p : preparedMigration) (s : SqlSource) (e : error) : error :=
  Errorf ("migrate: execute migration %q " +:+ what +:+ " %q: %w") [AStr (id p); AStr (Source s); AErr e].
Fixpoint run_sources (what : string) (tolerated : string -> string -> error -> M bool)
  (p : preparedMigration) (l : list SqlSource) : M (result unit) :=
  match l with
  | [] => ret (Ok tt)
  | s :: l' =>
      res <~ exec_source (SQL s) ;;
      match res with
      | Ok _ => run_sources what tolerated p l'
      | Err e =>
          ok <~ tolerated (id p) (Source s) e ;;
          if ok : bool then run_sources what tolerated p l' else ret (Err (source_error what p s e))
      end
  end.

(** ** Locks *)
Definition release_text (engine : string) : string := "migrate: release " +:+ engine +:+ " migration lock: ".
(** What follows a failed release: the connection is marked bad, which ends
    the session at the server. *)
Definition work_raw : M (result unit) := fun w =>
  let w := restore w in
  (Err ErrBadConn, MkWorld (data w) (history w) (saved w) false true (tick w) (sent w) (notices w)).
Definition mark_bad (engine : string) (releaseErr : error) : M (option error) :=
  res <~ call "(raw)" work_raw ;;
  ret (match res with
       | Err e =>
           if IsBadConn e
           then errors_Join [Some releaseErr; Some (wrapf ("migrate: marked " +:+ engine +:+ " migration connection bad: %w") e)]
           else errors_Join [Some releaseErr; Some (wrapf ("migrate: could not mark " +:+ engine +:+ " migration connection bad: %w") e)]
       | Ok _ => Some (Errorf ("%w; " +:+ engine +:+ " migration connection marked bad") [AErr releaseErr])
       end).

Definition work_unlock : M (result bool) := fun w => (Ok (locked w), set_locked false w).
Definition releasePostgreSQLLock : M (option error) :=
  res <~ call "SELECT pg_advisory_unlock(hashtextextended($1, 0))" work_unlock ;;
  match res with
  | Ok true => ret None
  | Ok false => mark_bad "PostgreSQL" (errors_New (release_text "PostgreSQL" +:+ "lock was not held"))
  | Err e => mark_bad "PostgreSQL" (wrapf (release_text "PostgreSQL" +:+ "%w") e)
  end.
(** [zero] is the value returned when the lock was not acquired. *)
Definition withPostgreSQLLock {V} (zero : V) (run : M (V * option error)) : M (V * option error) :=
  res <~ call "SELECT pg_advisory_lock(hashtextextended($1, 0))" (fun w => (Ok tt, set_locked true w)) ;;
  match res with
  | Err e => ret (zero, Some (wrapf "migrate: acquire PostgreSQL migration lock: %w" e))
  | Ok _ =>
      out <~ run ;;
      cleanup <~ releasePostgreSQLLock ;;
      ret (fst out, errors_Join [snd out; cleanup])
  end.

(** [RELEASE_LOCK] answers 1, or NULL when there is no such lock. *)
Definition work_release : M (result (option Z)) := fun w =>
  (Ok (if locked w then Some 1%Z else None), set_locked false w).
Definition releaseMySQLLock : M (option error) :=
  res <~ call "SELECT RELEASE_LOCK(?)" work_release ;;
  match res with
  | Ok (Some 1%Z) => ret None
  | Ok (Some n) => mark_bad "MySQL" (Errorf (release_text "MySQL" +:+ "unexpected release result %d") [AInt n])
  | Ok None => mark_bad "MySQL" (errors_New (release_text "MySQL" +:+ "unexpected release result NULL"))
  | Err e => mark_bad "MySQL" (wrapf (release_text "MySQL" +:+ "%w") e)
  end.
Definition null_scan : error := errors_New "sql: Scan error: converting NULL to int is unsupported".
Definition work_get_lock : M (result Z) := fun w =>
  match get_lock (tick w) with
  | None => (Err null_scan, w)
  | Some n => (Ok n, if Z.eqb n 1 then set_locked true w else w)
  end.
Definition withMySQLLock {V} (zero : V) (run : M (V * option error)) : M (V * option error) :=
  res <~ call "SELECT GET_LOCK(?, ?)" work_get_lock ;;
  match res with
  | Err e => ret (zero, Some (wrapf "migrate: acquire MySQL migration lock: %w" e))
  | Ok n =>
      if negb (Z.eqb n 1) then ret (zero, Some (errors_New "migrate: acquire MySQL migration lock: timed out"))
      else
        out <~ run ;;
        cleanup <~ releaseMySQLLock ;;
        ret (fst out, errors_Join [snd out; cleanup])
  end.

(** ** Directions: apply and revert run the same steps over different
    sources, finishing with a record or its removal *)
Inductive recheck := Proceed | Skip | Refuse (e : error).
Record direction := MkDirection {
  dir_what : string;
  dir_sources : preparedMigration -> list SqlSource;
  dir_tolerated : Dialect -> string -> string -> error -> M bool;
  dir_finish : Runner -> Dialect -> preparedMigration -> M (result unit);
  dir_recheck : gmap string string -> preparedMigration -> recheck;
  dir_sqlite : string }.

Definition up : direction :=
  MkDirection "SQL source" statements toleratedAsApplied record
    (fun applied p =>
       match applied !! id p with
       | Some c => if negb (String.eqb c (pm_checksum p)) then Refuse (mismatch (id p)) else Skip
       | None => Proceed
       end) "migration".
Definition down_ : direction :=
  MkDirection "reverse SQL source" down toleratedAsReverted (fun r d p => forget r d (id p))
    (fun applied p =>
       match applied !! id p with
       | None => Refuse (Errorf "migrate: migration %q is not recorded" [AStr (id p)])
       | Some c => if negb (String.eqb c (pm_checksum p)) then Refuse (mismatch (id p)) else Proceed
       end) "revert".

Section Steps.
Variables (dir : direction) (r : Runner) (d : Dialect).

(** The sources of one migration, then its history write. *)
Definition run_migration (tolerated : string -> string -> error -> M bool) (p : preparedMigration) : M (result unit) :=
  res <~ run_sources (dir_what dir) tolerated p (dir_sources dir p) ;;
  match res with
  | Err e => ret (Err e)
  | Ok _ => dir_finish dir r d p
  end.

Definition nontransactional (p : preparedMigration) : M outcome :=
  res <~ run_migration (dir_tolerated dir d) p ;;
  match res with
  | Err e => ret ([], Some e)
  | Ok _ => ret ([export p], None)
  end.

(** One atomic migration on PostgreSQL. [Tx.Rollback] after [Tx.Commit] was
    tried does not reach the server. *)
Definition atomic_postgres (p : preparedMigration) : M outcome :=
  b <~ begin_tx ;;
  match b with
  | Err e => ret ([], Some (wrapf "migrate: begin PostgreSQL transaction: %w" e))
  | Ok _ =>
      res <~ run_migration never p ;;
      match res with
      | Err e => _ <~ rollback_tx ;; ret ([], Some e)
      | Ok _ =>
          c <~ commit_tx ;;
          match c with
          | Err e => ret ([], Some e)
          | Ok _ => ret ([export p], None)
          end
      end
  end.

Definition atomic_mysql (p : preparedMigration) : M outcome :=
  b <~ begin_tx ;;
  match b with
  | Err e => ret ([], Some (wrapf "migrate: begin MySQL transaction: %w" e))
  | Ok _ =>
      seen <~ applied r ;;
      match seen with
      | Err e => _ <~ rollback_tx ;; ret ([], Some e)
      | Ok seen =>
          match dir_recheck dir seen p with
          | Refuse e => _ <~ rollback_tx ;; ret ([], Some e)
          | Skip => _ <~ rollback_tx ;; ret ([], None)
          | Proceed =>
              res <~ run_migration (dir_tolerated dir d) p ;;
              match res with
              | Err e => _ <~ rollback_tx ;; ret ([], Some e)
              | Ok _ =>
                  c <~ commit_tx ;;
                  match c with
                  | Err e => ret ([], Some (wrapf "migrate: commit MySQL transaction: %w" e))
                  | Ok _ => ret ([export p], None)
                  end
              end
          end
      end
  end.

Fixpoint migrations_loop (step : preparedMigration -> M outcome) (selected : list preparedMigration)
  (completed : list Migration) : M outcome :=
  match selected with
  | [] => ret (completed, None)
  | p :: selected' =>
      out <~ step p ;;
      match snd out with
      | Some e => ret (completed ++ fst out, Some e)
      | None => migrations_loop step selected' (completed ++ fst out)
      end
  end.

Definition step (atomic : preparedMigration -> M outcome) (p : preparedMigration) : M outcome :=
  if String.eqb (mode p) ExecutionModeNonTransactional then nontransactional p else atomic p.

(** The common start of a run: the history table, its rows, the selection. *)
Definition select_from (select : gmap string string -> result (list preparedMigration))
  : M (result (list preparedMigration)) :=
  h <~ ensureHistory r d ;;
  match h with
  | Err e => ret (Err e)
  | Ok _ => seen <~ applied r ;; ret (do m <- seen; select m)
  end.

Definition run_locked (atomic : preparedMigration -> M outcome)
  (select : gmap string string -> result (list preparedMigration)) : M outcome :=
  selected <~ select_from select ;;
  match selected with
  | Err e => ret ([], Some e)
  | Ok selected => migrations_loop (step atomic) selected []
  end.

Definition run_postgres (select : gmap string string -> result (list preparedMigration)) : M outcome :=
  withPostgreSQLLock [] (run_locked atomic_postgres select).
Definition run_mysql (select : gmap string string -> result (list preparedMigration)) : M outcome :=
  withMySQLLock [] (run_locked atomic_mysql select).

(** SQLite runs the whole selection in one transaction. *)
Fixpoint prepared_loop (selected : list preparedMigration) : M (result unit) :=
  match selected with
  | [] => ret (Ok tt)
  | p :: selected' =>
      res <~ run_migration never p ;;
      match res with Err e => ret (Err e) | Ok _ => prepared_loop selected' end
  end.
Definition run_prepared (select : gmap string string -> result (list preparedMigration))
  : M (result (list Migration)) :=
  seen <~ applied r ;;
  match (do m <- seen; select m) with
  | Err e => ret (Err e)
  | Ok selected =>
      res <~ prepared_loop selected ;;
      ret (do _ <- res; Ok (exportMigrations selected))
  end.
Definition sqlite_body (select : gmap string string -> result (list preparedMigration))
  : M (result (list Migration)) :=
  h <~ ensureHistory r d ;;
  match h with
  | Err e => ret (Err e)
  | Ok _ =>
      res <~ run_prepared select ;;
      match res with
      | Err e => ret (Err e)
      | Ok out =>
          c <~ commit_tx ;;
          ret (do _ <- wrap_err (wrapf ("migrate: commit SQLite " +:+ dir_sqlite dir +:+ " transaction: %w")) c; Ok out)
      end
  end.
Definition run_sqlite (select : gmap string string -> result (list preparedMigration)) : M outcome :=
  b <~ call "BEGIN IMMEDIATE" work_begin ;;
  match b with
  | Err e => ret ([], Some (wrapf ("migrate: begin SQLite " +:+ dir_sqlite dir +:+ " transaction: %w") e))
  | Ok _ =>
      res <~ sqlite_body select ;;
      match res with
      | Ok out => ret (out, None)
      | Err e => _ <~ rollback_tx ;; ret ([], Some e)
      end
  end.

(** The dialect's engine. *)
Definition by_engine (postgres mysql sqlite : M outcome) : M outcome :=
  if String.eqb (d_Name d) "postgresql" then postgres
  else if String.eqb (d_Name d) "mysql" then mysql
  else if String.eqb (d_Name d) "sqlite" then sqlite
  else ret ([], Some (Errorf "migrate: dialect %q is not supported" [AStr (d_Name d)])).
Definition run_engine (select : gmap string string -> result (list preparedMigration)) : M outcome :=
  by_engine (run_postgres select) (run_mysql select) (run_sqlite select).
End Steps.

(** ** Entry points *)
Definition with_connection {A} (r : Runner) (l : list Migration) (failed : error -> A)
  (run : Dialect -> list preparedMigration -> M A) : M A :=
  match runner_validate r with
  | Err e => ret (failed e)
  | Ok d =>
      match prepareMigrations l with
      | Err e => ret (failed e)
      | Ok prepared =>
          c <~ call "(connect)" (fun w => (Ok tt, w)) ;;
          match c with
          | Err e => ret (failed (wrapf "migrate: open database connection: %w" e))
          | Ok _ => run d prepared
          end
      end
  end.
Definition failed_run (e : error) : outcome := ([], Some e).

Section Entry.
Variables (r : Runner) (d : Dialect) (prepared : list preparedMigration).
Definition applyPostgreSQL (target : ApplyTarget) : M outcome :=
  run_postgres up r d (fun m => selectApplies range_ids m prepared target).
Definition applyMySQL (target : ApplyTarget) : M outcome :=
  run_mysql up r d (fun m => selectApplies range_ids m prepared target).
Definition applySQLite (target : ApplyTarget) : M outcome :=
  run_sqlite up r d (fun m => selectApplies range_ids m prepared target).
Definition revertPostgreSQL (target : RevertTarget) : M outcome :=
  run_postgres down_ r d (fun m => selectReverts range_ids m prepared target).
Definition revertMySQL (target : RevertTarget) : M outcome :=
  run_mysql down_ r d (fun m => selectReverts range_ids m prepared target).
Definition revertSQLite (target : RevertTarget) : M outcome :=
  run_sqlite down_ r d (fun m => selectReverts range_ids m prepared target).
End Entry.

Definition Apply (r : Runner) (target : ApplyTarget) (l : list Migration) : M outcome :=
  with_connection r l failed_run (fun d prepared =>
    by_engine d (applyPostgreSQL r d prepared target) (applyMySQL r d prepared target)
      (applySQLite r d prepared target)).
Definition Revert (r : Runner) (target : RevertTarget) (l : list Migration) : M outcome :=
  with_connection r l failed_run (fun d prepared =>
    by_engine d (revertPostgreSQL r d prepared target) (revertMySQL r d prepared target)
      (revertSQLite r d prepared target)).

(** Reading under the engine's lock: the plans and the status.  [observe]
    assigns the result the caller returns when nothing failed. *)
Definition read_locked {A} (d : Dialect) (zero : A) (observe : M (result A)) : M (result A) :=
  let run : M (A * option error) :=
    res <~ observe ;;
    ret (match res with Err e => (zero, Some e) | Ok a => (a, None) end) in
  let finish (o : A * option error) : result A := match snd o with Some e => Err e | None => Ok (fst o) end in
  if String.eqb (d_Name d) "mysql" then o <~ withMySQLLock zero run ;; ret (finish o)
  else if String.eqb (d_Name d) "postgresql" then o <~ withPostgreSQLLock zero run ;; ret (finish o)
  else observe.

Definition plan (r : Runner) (l : list Migration)
  (select : list preparedMigration -> gmap string string -> result (list preparedMigration))
  : M (result (list Migration)) :=
  with_connection r l Err (fun d prepared =>
    read_locked d [] (
      selected <~ select_from r d (select prepared) ;;
      ret (do selected <- selected; Ok (exportMigrations selected)))).
Definition ApplyPlan (r : Runner) (target : ApplyTarget) (l : list Migration) : M (result (list Migration)) :=
  plan r l (fun prepared m => selectApplies range_ids m prepared target).
Definition RevertPlan (r : Runner) (target : RevertTarget) (l : list Migration) : M (result (list Migration)) :=
  plan r l (fun prepared m => selectReverts range_ids m prepared target).

Definition Status (r : Runner) (l : list Migration) : M (result (list StatusEntry)) :=
  with_connection r l Err (fun d prepared =>
    read_locked d [] (
      h <~ ensureHistory r d ;;
      match h with
      | Err e => ret (Err e)
      | Ok _ => seen <~ applied r ;; ret (do m <- seen; Ok (statusEntries m prepared))
      end)).

End Run.
