(* ===== verification/MigrateSafety.v ===== *)
(** * MigrateSafety: what apply and revert leave behind, whatever fails

    Every call to the driver may fail before or after the server did the work.
    The theorems say what the history table and, on the engines with
    transactional DDL, the schema hold after a run however it ended. *)

From S2P Require Import Prelude GoText Schema Dialect Migration MigrateSelect MigrateRun.
Open Scope string_scope.
Open Scope list_scope.
Open Scope nat_scope.

Section Safety.
Context {Data : Type} {server : Server Data}.
#[local] Abbreviation M := (MigrateRun.M (Data := Data)).
#[local] Abbreviation direction := (MigrateRun.direction (Data := Data)).

(** ** What a call can do *)
Definition core (w : world Data) : Data * option rows_t * option (Data * option rows_t) :=
  (data w, history w, saved w).
(** What survives the end of the session: inside a transaction, what a
    rollback returns to. *)
Definition durable (w : world Data) : Data * option rows_t := default (data w, history w) (saved w).

Lemma bind_inv {A B} (m : M A) (k : A -> M B) w b w2 :
  bind m k w = (b, w2) -> exists a w1, m w = (a, w1) /\ k a w1 = (b, w2).
Proof. unfold bind. destruct (m w) as [a w1]. eauto. Qed.

Lemma core_called text w : core (called text w) = core w.
Proof. done. Qed.

Lemma call_inv {A} text (work : M (result A)) w r w' :
  call text work w = (r, w') ->
  work (called text w) = (r, w') \/
  (exists e, r = Err e) /\ (w' = snd (work (called text w)) \/ w' = called text w).
Proof.
  unfold call. destruct (fault (tick w)) as [[[] e]|].
  - intros [= <- <-]. right. split; [by exists e|by left].
  - intros [= <- <-]. right. split; [by exists e|by right].
  - by left.
Qed.

Ltac run_inv :=
  repeat match goal with
  | H : bind _ _ _ = (_, _) |- _ => apply bind_inv in H as (? & ? & ? & H)
  | H : ret _ _ = (_, _) |- _ => unfold ret in H; injection H; clear H; intros; try subst
  end.

(** The three ways the call in the context went. *)
Ltac call_cases HC :=
  match goal with K : call _ _ _ = _ |- _ => rename K into HC end;
  apply call_inv in HC as [HC|[[e ->] [->| ->]]].

Lemma durable_core w w' : core w = core w' -> durable w = durable w'.
Proof. unfold core, durable. intros [= -> -> ->]. done. Qed.

Lemma durable_restore w : durable (restore w) = durable w.
Proof. unfold restore, durable. by destruct (saved w) as [[d h]|] eqn:E; rewrite ?E. Qed.

Lemma begin_inv text w r w' :
  call text work_begin w = (r, w') -> data w' = data w /\ history w' = history w /\
  ((saved w' = saved w /\ exists e, r = Err e) \/ saved w' = Some (data w, history w)).
Proof. intros [[= <- <-]|[[e ->] [->| ->]]]%call_inv; simpl; split_and!; eauto. Qed.

Lemma commit_inv w r w' :
  commit_tx w = (r, w') -> data w' = data w /\ history w' = history w /\
  (saved w' = None \/ (saved w' = saved w /\ exists e, r = Err e)).
Proof. intros [[= <- <-]|[[e ->] [->| ->]]]%call_inv; simpl; split_and!; eauto. Qed.

Lemma rollback_inv w r w' : rollback_tx w = (r, w') -> durable w' = durable w.
Proof.
  intros [[= <- <-]|[[e ->] [->| ->]]]%call_inv; simpl; [|apply (durable_restore (called "ROLLBACK" w))|done].
  apply (durable_restore (called "ROLLBACK" w)).
Qed.

(** The saved copy stays, or an implicit commit dropped it. *)
Definition kept (w w' : world Data) : Prop :=
  saved w' = saved w \/ (saved w' = None /\ exists sql, implicit_commit sql = true).

Lemma kept_refl w : kept w w.
Proof. by left. Qed.
Lemma kept_trans w1 w2 w3 : kept w1 w2 -> kept w2 w3 -> kept w1 w3.
Proof. intros [H1|[H1 H1']] [H2|[H2 H2']]; unfold kept; rewrite ?H2, ?H1; eauto. Qed.

Lemma exec_inv sql w r w' :
  exec_source sql w = (r, w') ->
  history w' = history w /\ kept w w' /\
  (r = Ok tt -> exec_sql sql (data w) = (data w', None)).
Proof.
  unfold exec_source.
  assert (forall r w', work_sql sql (called sql w) = (r, w') ->
    history w' = history w /\ kept w w' /\ (r = Ok tt -> exec_sql sql (data w) = (data w', None))) as K.
  { clear. intros r w'. unfold work_sql, kept. destruct (implicit_commit sql) eqn:E; simpl;
      destruct (exec_sql sql (data w)) as [d [e|]]; intros [= <- <-]; simpl; split_and!; eauto; done. }
  intros [H|[[e ->] [->| ->]]]%call_inv; [by apply K| |].
  - destruct (work_sql sql (called sql w)) as [r' w'']. destruct (K _ _ eq_refl) as (H1 & H2 & _).
    simpl. by split_and!.
  - split_and!; [done|by left|done].
Qed.

Lemma tolerate_inv d f i s e w b w' :
  tolerateAlreadyDone d f i s e w = (b, w') -> core w' = core w.
Proof.
  unfold tolerateAlreadyDone. destruct (negb _); [by intros [= <- <-]|].
  destruct (Number e); [|by intros [= <- <-]]. destruct (AlreadyApplied z); [|by intros [= <- <-]].
  intros H. run_inv. unfold notice in *. by simplify_eq.
Qed.

(** Tolerating looks at nothing but the error and writes only notices. *)
Definition quiet (tolerated : string -> string -> error -> M bool) : Prop :=
  forall i s e w b w', tolerated i s e w = (b, w') -> core w' = core w.
Lemma quiet_never : quiet never.
Proof. intros i s e w b w'. unfold never, ret. by intros [= <- <-]. Qed.
Lemma quiet_tolerate d f : quiet (tolerateAlreadyDone d f).
Proof. intros i s e w b w'. apply tolerate_inv. Qed.

Lemma sources_inv what tolerated p l w r w' :
  quiet tolerated -> run_sources what tolerated p l w = (r, w') ->
  history w' = history w /\ kept w w'.
Proof.
  intros Hq. revert w. induction l as [|s l IH]; intros w H; cbn [run_sources] in H.
  - run_inv. split; [done|apply kept_refl].
  - run_inv. match goal with K : exec_source _ _ = _ |- _ => apply exec_inv in K as (E1 & E2 & _) end.
    destruct x as [[]|e].
    + apply IH in H as [H1 H2]. split; [congruence|by eapply kept_trans].
    + run_inv. match goal with K : tolerated _ _ _ _ = _ |- _ => apply Hq in K; injection K as K1 K2 K3 end.
      destruct x.
      * apply IH in H as [H1 H2]. split; [congruence|]. eapply kept_trans; [exact E2|].
        eapply kept_trans; [|exact H2]. left. congruence.
      * run_inv. split; [congruence|]. eapply kept_trans; [exact E2|]. left. congruence.
Qed.

(** ** Directions: what finishing a migration does to the rows *)
Definition row_of (p : preparedMigration) : string * string := (id p, pm_checksum p).

(** [fin p rows] are the rows once [p] is finished. *)
Definition finishes (dir : direction) (fin : preparedMigration -> rows_t -> rows_t) : Prop :=
  forall r d p w res w' rows,
    dir_finish dir r d p w = (res, w') -> history w = Some rows ->
    data w' = data w /\ saved w' = saved w /\
    (history w' = Some (fin p rows) \/ (history w' = Some rows /\ exists e, res = Err e)).

Definition add_row (p : preparedMigration) (rows : rows_t) : rows_t := rows ++ [row_of p].
Definition remove_row (p : preparedMigration) (rows : rows_t) : rows_t :=
  filter (fun row => fst row <> id p) rows.

Lemma wrap_err_is {A} f (x : result A) e : x = Err e -> exists e', wrap_err f x = Err e'.
Proof. intros ->. by eexists. Qed.

Lemma finishes_up : finishes up add_row.
Proof.
  intros r d p w res w' rows H Hr. simpl in H. unfold record in H.
  destruct (do a <- wrap_err _ (d_Placeholder d 1); _) as [text|e]; run_inv; [|by split_and!; eauto].
  assert (work_insert (id p) (pm_checksum p) (called text w)
    = if existsb (fun row => String.eqb (fst row) (id p)) rows then (Err duplicate_key, called text w)
      else (Ok tt, set_history (Some (rows ++ [(id p, pm_checksum p)])) (called text w))) as E.
  { unfold work_insert. simpl. by rewrite Hr. }
  call_cases HC.
  - rewrite E in *. destruct (existsb _ _); simplify_eq; simpl; split_and!; eauto.
  - rewrite E. destruct (existsb _ _); simpl; split_and!; eauto.
  - simpl. split_and!; eauto.
Qed.

Lemma finishes_down : finishes down_ remove_row.
Proof.
  intros r d p w res w' rows H Hr. simpl in H. unfold forget in H.
  destruct (do a <- wrap_err _ (d_Placeholder d 1); _) as [text|e]; run_inv; [|by split_and!; eauto].
  assert (work_delete (id p) (called text w)
    = (Ok tt, set_history (Some (remove_row p rows)) (called text w))) as E.
  { unfold work_delete. simpl. by rewrite Hr. }
  call_cases HC.
  - rewrite E in *. simplify_eq. simpl. split_and!; eauto.
  - rewrite E. simpl. split_and!; eauto.
  - simpl. split_and!; eauto.
Qed.

(** ** Reading the history *)
Lemma applied_inv r w res w' :
  applied r w = (res, w') ->
  core w' = core w /\
  (forall m, res = Ok m -> exists rows, history w = Some rows /\ history_map rows = Ok m).
Proof.
  unfold applied. intros H. run_inv.
  call_cases HC.
  - unfold work_select in HC. simplify_eq. split; [done|]. simpl. intros m.
    destruct (history w) as [rows|]; [|done]. simpl. eauto.
  - done.
  - done.
Qed.

Lemma ensure_inv r d w res w' :
  ensureHistory r d w = (res, w') ->
  data w' = data w /\ saved w' = saved w /\
  (history w' = Some (default [] (history w)) \/ (history w' = history w /\ exists e, res = Err e)).
Proof.
  unfold ensureHistory. destruct (historyTableDDL r d) as [text|e]; intros H; run_inv; [|by split_and!; eauto].
  call_cases HC.
  - unfold work_ddl in HC. simplify_eq. simpl. split_and!; eauto.
  - simpl. split_and!; eauto.
  - simpl. split_and!; eauto.
Qed.

(** ** Running the sources of one migration *)
(** Every source succeeds, one after the other. *)
Fixpoint run_all (l : list SqlSource) (d : Data) : option Data :=
  match l with
  | [] => Some d
  | s :: l' => match exec_sql (SQL s) d with (d', None) => run_all l' d' | (_, Some _) => None end
  end.

Definition strict (tolerated : string -> string -> error -> M bool) : Prop :=
  forall i s e w, tolerated i s e w = (false, w).

Lemma strict_never : strict never.
Proof. done. Qed.
Lemma strict_tolerate d f : d_Name d <> "mysql" -> strict (tolerateAlreadyDone d f).
Proof.
  intros H i s e w. unfold tolerateAlreadyDone.
  destruct (String.eqb_spec (d_Name d) "mysql"); [done|done].
Qed.

Lemma sources_run what tolerated p l w r w' :
  strict tolerated -> run_sources what tolerated p l w = (r, w') -> r = Ok tt ->
  run_all l (data w) = Some (data w').
Proof.
  intros Hs. revert w. induction l as [|s l IH]; intros w H ->; cbn [run_sources] in H.
  - unfold ret in H. by injection H as <-.
  - apply bind_inv in H as (x & w1 & H1 & H). destruct x as [[]|e].
    + apply exec_inv in H1 as (_ & _ & H1). simpl. rewrite (H1 eq_refl). by apply IH.
    + apply bind_inv in H as (b & w2 & H2 & H). rewrite Hs in H2. by simplify_eq.
Qed.

Section Direction.
Variables (dir : direction) (fin : preparedMigration -> rows_t -> rows_t).
Hypothesis dir_finishes : finishes dir fin.
Hypothesis dir_quiet : forall d, quiet (dir_tolerated dir d).

Definition completes (tolerated : string -> string -> error -> M bool) (p : preparedMigration) (d d' : Data) : Prop :=
  strict tolerated -> run_all (dir_sources dir p) d = Some d'.

Lemma migration_inv r d tolerated p w res w' rows :
  quiet tolerated -> run_migration dir r d tolerated p w = (res, w') -> history w = Some rows ->
  kept w w' /\
  ((history w' = Some (fin p rows) /\ completes tolerated p (data w) (data w')) \/
   (history w' = Some rows /\ exists e, res = Err e)).
Proof.
  intros Hq H Hr. unfold run_migration in H. apply bind_inv in H as (x & w1 & H1 & H).
  pose proof (sources_inv _ _ _ _ _ _ _ Hq H1) as [E1 E2].
  destruct x as [[]|e].
  - destruct (dir_finishes _ _ _ _ _ _ rows H) as (F1 & F2 & F3); [congruence|].
    split; [eapply kept_trans; [exact E2|]; left; congruence|].
    destruct F3 as [F3|F3]; [left|by right]. split; [done|]. intros Hs. rewrite F1.
    by apply (sources_run _ _ _ _ _ _ _ Hs H1).
  - unfold ret in H. injection H as <- <-. split; [done|]. right. split; [congruence|by exists e].
Qed.

(** What one migration's step may leave: it is done and reported done, or an
    error is reported and it is durably done ([C]) or not ([P]). *)
Definition step_spec (good : preparedMigration -> rows_t -> Prop)
  (C P : preparedMigration -> Data -> Data -> Prop) (stp : preparedMigration -> M outcome) : Prop :=
  forall p w rows out w',
    stp p w = (out, w') -> saved w = None -> history w = Some rows -> good p rows ->
    (out = ([export p], None) /\ saved w' = None /\ history w' = Some (fin p rows) /\ C p (data w) (data w')) \/
    ((exists e, out = ([], Some e)) /\ exists d',
      ((durable w' = (d', Some rows) /\ P p (data w) d') \/
       (durable w' = (d', Some (fin p rows)) /\ C p (data w) d'))).

Definition any_good (_ : preparedMigration) (_ : rows_t) : Prop := True.
Definition any_data (_ : preparedMigration) (_ _ : Data) : Prop := True.

Lemma durable_unsaved w : saved w = None -> durable w = (data w, history w).
Proof. unfold durable. by intros ->. Qed.
Lemma durable_saved w x : saved w = Some x -> durable w = x.
Proof. unfold durable. by intros ->. Qed.

Lemma nontransactional_step r d :
  step_spec any_good (completes (dir_tolerated dir d)) any_data (nontransactional dir r d).
Proof.
  intros p w rows out w' H Hs Hr _. unfold nontransactional in H. apply bind_inv in H as (x & w1 & H1 & H).
  destruct (migration_inv _ _ _ _ _ _ _ _ (dir_quiet d) H1 Hr) as [K E].
  assert (saved w1 = None) as Hs1 by (destruct K as [?|[? _]]; congruence).
  assert (w' = w1) as -> by (destruct x as [[]|]; unfold ret in H; by injection H).
  destruct E as [[E1 E2]|[E1 [e ->]]].
  - destruct x as [[]|e]; unfold ret in H; injection H as <-.
    + left. by split_and!.
    + right. split; [by exists e|]. exists (data w1). right. by rewrite durable_unsaved, E1.
  - unfold ret in H. injection H as <-. right. split; [by exists e|]. exists (data w1). left.
    by rewrite durable_unsaved, E1.
Qed.

Definition no_implicit_commit : Prop := forall sql, implicit_commit sql = false.
Definition untouched (_ : preparedMigration) (d d' : Data) : Prop := no_implicit_commit -> d' = d.

(** The end of an atomic step, once the transaction is open on [(d, rows)]. *)
Lemma aborted d rows p w w1 u w2 :
  kept w w1 -> saved w = Some (d, Some rows) -> history w1 = Some rows -> rollback_tx w1 = (u, w2) ->
  exists d', durable w2 = (d', Some rows) /\ untouched p d d'.
Proof.
  intros K Hs Hr E%rollback_inv. rewrite E. destruct K as [K|[K [sql Hi]]].
  - exists d. split; [|done]. apply durable_saved. congruence.
  - exists (data w1). rewrite durable_unsaved, Hr by done. split; [done|]. intros Hn. by rewrite Hn in Hi.
Qed.

(** The end of an atomic step, once the sources and the history write ran
    inside the transaction opened on [(d, rows)]. *)
Lemma finished tolerated d rows p w w1 c w2 :
  kept w w1 -> saved w = Some (d, Some rows) -> history w1 = Some (fin p rows) ->
  completes tolerated p d (data w1) -> commit_tx w1 = (c, w2) ->
  (exists d', (durable w2 = (d', Some rows) /\ untouched p d d') \/
              (durable w2 = (d', Some (fin p rows)) /\ completes tolerated p d d')) /\
  (c = Ok tt -> saved w2 = None /\ history w2 = Some (fin p rows) /\ completes tolerated p d (data w2)).
Proof.
  intros K Hs Hr Hc (E1 & E2 & E3)%commit_inv. split.
  - destruct E3 as [E3|[E3 _]].
    + exists (data w2). right. rewrite durable_unsaved, E2, Hr, E1 by done. by split.
    + destruct K as [K|[K [sql Hi]]].
      * exists d. left. rewrite (durable_saved _ (d, Some rows)) by congruence. split; [done|by intros _].
      * exists (data w2). right. rewrite durable_unsaved, E2, Hr, E1 by congruence. by split.
  - intros ->. destruct E3 as [E3|[_ [e E3]]]; [|done]. rewrite E1, E2. by split_and!.
Qed.

Lemma begun text w b w1 :
  call text work_begin w = (b, w1) -> saved w = None ->
  (b = Ok tt /\ saved w1 = Some (data w, history w) /\ data w1 = data w /\ history w1 = history w) \/
  ((exists e, b = Err e) /\ durable w1 = (data w, history w)).
Proof.
  intros (E1 & E2 & E3)%begin_inv Hs. destruct b as [[]|e].
  - left. destruct E3 as [[_ [e E3]]|E3]; [done|]. by split_and!.
  - right. split; [by exists e|]. destruct E3 as [[E3 _]|E3]; [|by apply durable_saved].
    rewrite durable_unsaved by congruence. congruence.
Qed.

Lemma postgres_step r d :
  step_spec any_good (completes never) untouched (atomic_postgres dir r d).
Proof.
  intros p w rows out w' H Hs Hr _. unfold atomic_postgres in H. apply bind_inv in H as (b & w1 & H1 & H).
  destruct (begun _ _ _ _ H1 Hs) as [(-> & B1 & B2 & B3)|[[e ->] B]].
  2:{ unfold ret in H. injection H as <- <-. right. split; [by eexists|]. exists (data w). left.
      by rewrite B, Hr. }
  rewrite Hr in B1, B3. apply bind_inv in H as (x & w2 & H2 & H).
  destruct (migration_inv _ _ _ _ _ _ _ _ quiet_never H2 B3) as [K E]. rewrite B2 in E.
  destruct x as [[]|e]; apply bind_inv in H as (c & w3 & H3 & H).
  - destruct E as [[E1 E2]|[_ [e ?]]]; [|done].
    destruct (finished never _ _ _ _ _ _ _ K B1 E1 E2 H3) as [F1 F2].
    destruct c as [[]|e]; unfold ret in H; injection H as <- <-.
    + left. destruct (F2 eq_refl) as (? & ? & ?). by split_and!.
    + right. split; [by eexists|]. exact F1.
  - unfold ret in H. injection H as <- <-. right. split; [by eexists|].
    destruct E as [[E1 E2]|[E1 _]].
    + apply rollback_inv in H3. rewrite H3. destruct K as [K|[K [sql Hi]]].
      * exists (data w). left. rewrite (durable_saved _ (data w, Some rows)) by congruence. split; [done|by intros _].
      * exists (data w2). right. rewrite durable_unsaved, E1 by done. by split.
    + destruct (aborted _ _ p _ _ _ _ K B1 E1 H3) as (d' & D1 & D2). exists d'. left. by split.
Qed.

Definition not_skipped (p : preparedMigration) (rows : rows_t) : Prop :=
  forall m, history_map rows = Ok m -> dir_recheck dir m p <> Skip.

Lemma kept_core w w1 w2 : core w1 = core w -> kept w1 w2 -> kept w w2.
Proof. unfold core, kept. intros [= _ _ ->]. done. Qed.

Lemma rolled_back d rows p w u w2 :
  saved w = Some (d, Some rows) -> rollback_tx w = (u, w2) ->
  exists d', durable w2 = (d', Some rows) /\ untouched p d d'.
Proof. intros Hs E%rollback_inv. exists d. rewrite E. split; [by apply durable_saved|by intros _]. Qed.

Lemma mysql_step r d :
  step_spec not_skipped (completes (dir_tolerated dir d)) untouched (atomic_mysql dir r d).
Proof.
  intros p w rows out w' H Hs Hr Hg. unfold atomic_mysql in H. apply bind_inv in H as (b & w1 & H1 & H).
  destruct (begun _ _ _ _ H1 Hs) as [(-> & B1 & B2 & B3)|[[e ->] B]].
  2:{ unfold ret in H. injection H as <- <-. right. split; [by eexists|]. exists (data w). left.
      by rewrite B, Hr. }
  rewrite Hr in B1, B3. apply bind_inv in H as (seen & w2 & H2 & H).
  apply applied_inv in H2 as [Hc Hm]. injection Hc as C1 C2 C3.
  destruct seen as [m|e].
  2:{ apply bind_inv in H as (u & w3 & H3 & H). unfold ret in H. injection H as <- <-. right.
      split; [by eexists|]. destruct (rolled_back (data w) rows p w2 u w3) as (d' & D1 & D2); [congruence|done|].
      exists d'. left. by split. }
  destruct (Hm m eq_refl) as (rows' & Hr' & Hm'). rewrite B3 in Hr'. injection Hr' as <-.
  destruct (dir_recheck dir m p) as [| |e] eqn:Hre.
  2:{ by specialize (Hg m Hm'). }
  2:{ apply bind_inv in H as (u & w3 & H3 & H). unfold ret in H. injection H as <- <-. right.
      split; [by eexists|]. destruct (rolled_back (data w) rows p w2 u w3) as (d' & D1 & D2); [congruence|done|].
      exists d'. left. by split. }
  apply bind_inv in H as (x & w3 & H3 & H).
  destruct (migration_inv _ _ _ _ _ _ _ rows (dir_quiet d) H3) as [K E]; [congruence|].
  rewrite C1, B2 in E. assert (saved w2 = Some (data w, Some rows)) as S2 by congruence.
  destruct x as [[]|e]; apply bind_inv in H as (c & w4 & H4 & H).
  - destruct E as [[E1 E2]|[_ [e ?]]]; [|done].
    destruct (finished (dir_tolerated dir d) _ _ _ _ _ _ _ K S2 E1 E2 H4) as [F1 F2].
    destruct c as [[]|e]; unfold ret in H; injection H as <- <-.
    + left. destruct (F2 eq_refl) as (? & ? & ?). by split_and!.
    + right. split; [by eexists|]. exact F1.
  - unfold ret in H. injection H as <- <-. right. split; [by eexists|].
    destruct E as [[E1 E2]|[E1 _]].
    + apply rollback_inv in H4. rewrite H4. destruct K as [K|[K [sql Hi]]].
      * exists (data w). left. rewrite (durable_saved _ (data w, Some rows)) by congruence. split; [done|by intros _].
      * exists (data w3). right. rewrite durable_unsaved, E1 by done. by split.
    + destruct (aborted _ _ p _ _ _ _ K S2 E1 H4) as (d' & D1 & D2). exists d'. left. by split.
Qed.

(** ** A whole selection *)
Fixpoint fins (l : list preparedMigration) (rows : rows_t) : rows_t :=
  match l with [] => rows | p :: l' => fins l' (fin p rows) end.
Fixpoint chain (C : preparedMigration -> Data -> Data -> Prop) (l : list preparedMigration) (d d' : Data) : Prop :=
  match l with [] => d' = d | p :: l' => exists d1, C p d d1 /\ chain C l' d1 d' end.
Fixpoint good_all (good : preparedMigration -> rows_t -> Prop) (l : list preparedMigration) (rows : rows_t) : Prop :=
  match l with [] => True | p :: l' => good p rows /\ good_all good l' (fin p rows) end.

(** The loop stopped at the migration after the first [m]; that one may be
    durably done all the same. *)
Definition stopped (C P : preparedMigration -> Data -> Data -> Prop) (l : list preparedMigration) (m : nat)
  (d : Data) (rows : rows_t) (w' : world Data) : Prop :=
  exists p d1 d', l !! m = Some p /\ chain C (take m l) d d1 /\
    ((durable w' = (d', Some (fins (take m l) rows)) /\ P p d1 d') \/
     (durable w' = (d', Some (fins (take (S m) l) rows)) /\ C p d1 d')).

Lemma loop_spec good C P stp l completed w rows out w' :
  step_spec good C P stp ->
  migrations_loop stp l completed w = (out, w') -> saved w = None -> history w = Some rows ->
  good_all good l rows ->
  (out = (completed ++ exportMigrations l, None) /\ saved w' = None /\ history w' = Some (fins l rows) /\
   chain C l (data w) (data w')) \/
  (exists e m, out = (completed ++ exportMigrations (take m l), Some e) /\ stopped C P l m (data w) rows w').
Proof.
  intros Hstep. revert completed w rows. induction l as [|p l IH]; intros completed w rows H Hs Hr Hg;
    cbn [migrations_loop] in H.
  - unfold ret in H. injection H as <- <-. left. simpl. rewrite app_nil_r. by split_and!.
  - apply bind_inv in H as (o & w1 & H1 & H). destruct Hg as [Hg Hgs].
    destruct (Hstep _ _ _ _ _ H1 Hs Hr Hg) as [(-> & S1 & S2 & S3)|[[e ->] (d' & D)]].
    + simpl in H. destruct (IH _ _ _ H S1 S2 Hgs) as [(-> & E1 & E2 & E3)|(e & m & -> & p' & d1 & d' & Q1 & Q2 & Q3)].
      * left. rewrite <- app_assoc. split_and!; try done. by exists (data w1).
      * right. exists e, (S m). rewrite <- app_assoc. split; [done|]. exists p', d1, d'. simpl.
        split_and!; [done| |done]. by exists (data w1).
    + simpl in H. unfold ret in H. injection H as <- <-. right. exists e, 0. simpl. rewrite app_nil_r.
      split; [done|]. exists p, (data w), d'. simpl. split_and!; done.
Qed.

(** Whichever way a step is taken, by its mode. *)
Lemma step_either good C P C' P' atomic r d :
  step_spec good C P atomic -> step_spec good C' P' (nontransactional dir r d) ->
  step_spec good (fun p x y => if String.eqb (mode p) ExecutionModeNonTransactional then C' p x y else C p x y)
    (fun p x y => if String.eqb (mode p) ExecutionModeNonTransactional then P' p x y else P p x y)
    (step dir r d atomic).
Proof.
  intros H1 H2 p w rows out w' H Hs Hr Hg. unfold step in H.
  destruct (String.eqb (mode p) ExecutionModeNonTransactional); [by apply H2|by apply H1].
Qed.
Lemma step_weaken (good good' : preparedMigration -> rows_t -> Prop) C P stp :
  (forall p rows, good' p rows -> good p rows) -> step_spec good C P stp -> step_spec good' C P stp.
Proof. intros Hg H p w rows out w' E Hs Hr Hg'. eapply H; eauto. Qed.
End Direction.

(** ** Locks *)
Lemma mark_bad_inv engine e w x w' : mark_bad engine e w = (x, w') -> durable w' = durable w /\ x <> None.
Proof.
  unfold mark_bad. intros H. apply bind_inv in H as (res & w1 & H1 & H). unfold ret in H.
  injection H as <- <-. split.
  - apply call_inv in H1 as [H1|[[e' ->] [->| ->]]]; [|exact (durable_restore (called "(raw)" w))|done].
    unfold work_raw in H1. injection H1 as _ <-. exact (durable_restore (called "(raw)" w)).
  - destruct res as [[]|e']; [done|]. by destruct (IsBadConn e').
Qed.

(** A release either succeeds, leaving the session as it is, or reports an
    error; what is durable stays. *)
Definition releases (release : M (option error)) : Prop :=
  forall w x w', release w = (x, w') -> durable w' = durable w /\ (x = None -> core w' = core w /\ locked w' = false).

Lemma releases_postgres : releases releasePostgreSQLLock.
Proof.
  intros w x w' H. unfold releasePostgreSQLLock in H. apply bind_inv in H as (res & w1 & H1 & H).
  assert (core w1 = core w /\ forall b, res = Ok b -> locked w1 = false) as [Hc Hl].
  { apply call_inv in H1 as [H1|[[e ->] [->| ->]]]; [|done|done].
    unfold work_unlock in H1. by injection H1 as <- <-. }
  destruct res as [[]|e].
  - unfold ret in H. injection H as <- <-. split; [by apply durable_core|]. intros _. by split; [|eapply Hl].
  - apply mark_bad_inv in H as [-> H]. split; [by apply durable_core|done].
  - apply mark_bad_inv in H as [-> H]. split; [by apply durable_core|done].
Qed.

Lemma releases_mysql : releases releaseMySQLLock.
Proof.
  intros w x w' H. unfold releaseMySQLLock in H. apply bind_inv in H as (res & w1 & H1 & H).
  assert (core w1 = core w /\ forall b, res = Ok b -> locked w1 = false) as [Hc Hl].
  { apply call_inv in H1 as [H1|[[e ->] [->| ->]]]; [|done|done].
    unfold work_release in H1. by injection H1 as <- <-. }
  assert (forall e, mark_bad "MySQL" e w1 = (x, w') ->
    durable w' = durable w /\ (x = None -> core w' = core w /\ locked w' = false)) as Hbad.
  { intros e [-> K]%mark_bad_inv. split; [by apply durable_core|done]. }
  destruct res as [[n|]|e]; [|by apply Hbad in H|by apply Hbad in H].
  destruct n as [|[n|n|]|n]; try by apply Hbad in H.
  unfold ret in H. injection H as <- <-. split; [by apply durable_core|]. intros _. by split; [|eapply Hl].
Qed.

(** A run under a lock: it was not acquired, or the run took place on the same
    session state, and its errors and the release's are reported together. *)
Definition under_lock {V} (zero : V) (run : M (V * option error)) (w : world Data)
  (o : V * option error) (w' : world Data) : Prop :=
  (exists e, o = (zero, Some e) /\ core w' = core w) \/
  (exists w1 o1 w2, run w1 = (o1, w2) /\ core w1 = core w /\ durable w' = durable w2 /\ fst o = fst o1 /\
     (snd o = None -> snd o1 = None /\ core w' = core w2 /\ locked w' = false) /\
     (snd o1 <> None -> snd o <> None)).

Lemma locked_run {V} (run : M (V * option error)) (release : M (option error)) w1 o w' :
  releases release ->
  bind run (fun out => bind release (fun cleanup => ret (fst out, errors_Join [snd out; cleanup]))) w1 = (o, w') ->
  exists o1 w2, run w1 = (o1, w2) /\ durable w' = durable w2 /\ fst o = fst o1 /\
    (snd o = None -> snd o1 = None /\ core w' = core w2 /\ locked w' = false) /\ (snd o1 <> None -> snd o <> None).
Proof.
  intros Hr H. apply bind_inv in H as (o1 & w2 & H1 & H). apply bind_inv in H as (x & w3 & H2 & H).
  unfold ret in H. injection H as <- <-. destruct (Hr _ _ _ H2) as [D1 D2]. exists o1, w2. cbn [fst snd].
  split_and!; try done.
  - intros [H3 H4]%errors_Join_none. split; [done|]. by apply D2.
  - intros Hn [H3 H4]%errors_Join_none. done.
Qed.

Lemma postgres_lock {V} (zero : V) (run : M (V * option error)) w o w' :
  withPostgreSQLLock zero run w = (o, w') -> under_lock zero run w o w'.
Proof.
  unfold withPostgreSQLLock. intros H. apply bind_inv in H as (res & w1 & H1 & H).
  assert (core w1 = core w) as Hc.
  { apply call_inv in H1 as [H1|[[e ->] [->| ->]]]; [by injection H1 as _ <-|done|done]. }
  destruct res as [[]|e].
  - right. apply locked_run in H as (o1 & w2 & L1 & L2 & L3 & L4 & L5); [|exact releases_postgres].
    exists w1, o1, w2. by split_and!.
  - left. unfold ret in H. injection H as <- <-. by eexists.
Qed.

Lemma mysql_lock {V} (zero : V) (run : M (V * option error)) w o w' :
  withMySQLLock zero run w = (o, w') -> under_lock zero run w o w'.
Proof.
  unfold withMySQLLock. intros H. apply bind_inv in H as (res & w1 & H1 & H).
  assert (core w1 = core w) as Hc.
  { apply call_inv in H1 as [H1|[[e ->] [->| ->]]]; [| |done]; revert H1 || idtac; unfold work_get_lock;
      destruct (get_lock _) as [n|]; simpl; try (by intros [= _ <-]); try done;
      destruct (Z.eqb n 1); simpl; try (by intros [= _ <-]); done. }
  destruct res as [n|e].
  - destruct (Z.eqb n 1); simpl in H.
    + right. apply locked_run in H as (o1 & w2 & L1 & L2 & L3 & L4 & L5); [|exact releases_mysql].
      exists w1, o1, w2. by split_and!.
    + left. unfold ret in H. injection H as <- <-. by eexists.
  - left. unfold ret in H. injection H as <- <-. by eexists.
Qed.

(** ** Whole runs *)
Lemma history_loop rows i acc m :
  foldi (fun _ row (m : gmap string string) =>
    match m !! fst row with
    | Some _ => Err (Errorf "migrate: migration history contains duplicate ID %q" [AStr (fst row)])
    | None => Ok (<[fst row := snd row]> m)
    end) i rows acc = Ok m ->
  NoDup rows.*1 /\ (forall row, row ∈ rows -> acc !! fst row = None) /\ m = list_to_map rows ∪ acc.
Proof.
  revert i acc. induction rows as [|[k v] rows IH]; intros i acc; simpl.
  - intros [= <-]. split_and!; [constructor|by intros ? ?%not_elem_of_nil|by rewrite (left_id_L ∅ (∪))].
  - destruct (acc !! k) as [|] eqn:E; [done|]. intros (H1 & H2 & ->)%IH. split_and!.
    + constructor; [|done]. intros ([k' v'] & Hk & Hin)%list_elem_of_fmap. simpl in Hk. subst k'.
      specialize (H2 _ Hin). simpl in H2. by rewrite lookup_insert_eq in H2.
    + intros row [->|Hin]%elem_of_cons; [done|]. specialize (H2 _ Hin).
      by apply lookup_insert_None in H2 as [? _].
    + rewrite <- insert_union_l. symmetry. apply insert_union_r. apply not_elem_of_list_to_map_1.
      intros ([k' v'] & Hk & Hin)%list_elem_of_fmap. simpl in Hk. subst k'.
      specialize (H2 _ Hin). simpl in H2. by rewrite lookup_insert_eq in H2.
Qed.

Lemma history_map_ok rows m : history_map rows = Ok m -> NoDup rows.*1 /\ m = list_to_map rows.
Proof. intros (H1 & _ & ->)%history_loop. by rewrite (right_id_L ∅ (∪)). Qed.

(** The rows of the history table, which a run creates when it is missing. *)
Definition rows_of (w : world Data) : rows_t := default [] (history w).

Lemma select_from_inv r d select w res w' :
  select_from r d select w = (res, w') ->
  data w' = data w /\ saved w' = saved w /\ (history w' = history w \/ history w' = Some (rows_of w)) /\
  (forall sel, res = Ok sel -> history w' = Some (rows_of w) /\
     exists m, history_map (rows_of w) = Ok m /\ select m = Ok sel).
Proof.
  intros H. unfold select_from in H. apply bind_inv in H as (h & w1 & H1 & H).
  apply ensure_inv in H1 as (E1 & E2 & E3). destruct h as [[]|e].
  - destruct E3 as [E3|[_ [e E3]]]; [|done]. apply bind_inv in H as (seen & w2 & H2 & H).
    apply applied_inv in H2 as [Hc Hm]. injection Hc as C1 C2 C3. unfold ret in H. injection H as <- <-.
    split_and!; [congruence|congruence|right; by rewrite C2, E3|].
    intros sel Hsel. split; [by rewrite C2, E3|]. destruct seen as [m|e]; [|done].
    destruct (Hm m eq_refl) as (rows & Hr & Hm'). exists m. split; [|done]. rewrite E3 in Hr. injection Hr as Hr. by rewrite <- Hr in Hm'.
  - unfold ret in H. injection H as <- <-. split_and!; try done. destruct E3 as [->|[-> _]]; [by right|by left].
Qed.

(** The first [n] selected migrations are durably done, [C] relating the
    contents before and after each of them; the contents may also hold what
    [P] allows of the next one; the first [j] are reported done. Without an
    error, all of them are. *)
Definition progressed (fin : preparedMigration -> rows_t -> rows_t)
  (C P : preparedMigration -> Data -> Data -> Prop) (sel : list preparedMigration)
  (d : Data) (rows : rows_t) (o : outcome) (w' : world Data) : Prop :=
  exists j n d1 d', j <= n <= length sel /\ fst o = exportMigrations (take j sel) /\
    durable w' = (d', Some (fins fin (take n sel) rows)) /\ chain C (take n sel) d d1 /\
    (d' = d1 \/ exists p, sel !! n = Some p /\ P p d1 d') /\
    (snd o = None -> j = length sel /\ d' = d1).

Lemma chain_snoc C l p d d1 d2 : chain C l d d1 -> C p d1 d2 -> chain C (l ++ [p]) d d2.
Proof.
  revert d. induction l as [|q l IH]; intros d; simpl.
  - intros -> H. by exists d2.
  - intros (d0 & H1 & H2) H. exists d0. split; [done|]. by apply IH.
Qed.

Lemma loop_progressed fin good C P stp sel w rows o w' :
  step_spec fin good C P stp -> migrations_loop stp sel [] w = (o, w') ->
  saved w = None -> history w = Some rows -> good_all fin good sel rows ->
  progressed fin C P sel (data w) rows o w'.
Proof.
  intros Hstep H Hs Hr Hg.
  destruct (loop_spec _ _ _ _ _ _ _ _ _ _ _ Hstep H Hs Hr Hg)
    as [(-> & E1 & E2 & E3)|(e & m & -> & p & d1 & d' & Hp & Hch & Hd)].
  - exists (length sel), (length sel), (data w'), (data w'). rewrite (take_ge sel (length sel)) by lia. simpl.
    split_and!; try done; [by rewrite durable_unsaved, E2|by left].
  - apply lookup_lt_Some in Hp as Hm. destruct Hd as [[Hd HP]|[Hd HC]].
    + exists m, m, d1, d'. simpl. split_and!; try done; try lia. right. by exists p.
    + exists m, (S m), d', d'. simpl. rewrite (take_S_r _ _ _ Hp) in Hd |- *.
      split_and!; try done; try lia; [by eapply chain_snoc|by left].
Qed.

(** How a run may end: refused before any migration ran, or progressed. *)
Definition ended (fin : preparedMigration -> rows_t -> rows_t)
  (C P : preparedMigration -> Data -> Data -> Prop)
  (select : gmap string string -> result (list preparedMigration)) (w : world Data)
  (o : outcome) (w' : world Data) : Prop :=
  (exists e, o = ([], Some e) /\ fst (durable w') = data w /\
     (snd (durable w') = history w \/ snd (durable w') = Some (rows_of w))) \/
  (exists m sel, history_map (rows_of w) = Ok m /\ select m = Ok sel /\
     progressed fin C P sel (data w) (rows_of w) o w').

Lemma run_locked_ended dir fin good C P r d atomic select w o w' :
  step_spec fin good C P (step dir r d atomic) ->
  (forall m sel, history_map (rows_of w) = Ok m -> select m = Ok sel -> good_all fin good sel (rows_of w)) ->
  run_locked dir r d atomic select w = (o, w') -> saved w = None ->
  ended fin C P select w o w'.
Proof.
  intros Hstep Hgood H Hs. unfold run_locked in H. apply bind_inv in H as (res & w1 & H1 & H).
  apply select_from_inv in H1 as (E1 & E2 & E3 & E4). destruct res as [sel|e].
  - right. destruct (E4 sel eq_refl) as (E5 & m & Hm & Hsel). exists m, sel. split_and!; try done.
    rewrite <- E1. eapply loop_progressed; [exact Hstep|exact H|congruence|done|by eapply Hgood].
  - left. unfold ret in H. injection H as <- <-. exists e. rewrite durable_unsaved by congruence.
    by split_and!.
Qed.

Lemma under_lock_ended fin C P select run w o w' :
  saved w = None -> under_lock [] run w o w' ->
  (forall w1 o1 w2, run w1 = (o1, w2) -> saved w1 = None -> history w1 = history w ->
     ended fin C P select w1 o1 w2) ->
  ended fin C P select w o w'.
Proof.
  intros Hs [(e & -> & Hc)|(w1 & o1 & w2 & H1 & Hc & Hd & Hf & Hn & He)] Hrun.
  - left. exists e. injection Hc as C1 C2 C3. rewrite durable_unsaved by congruence. simpl.
    split_and!; [done|done|left; congruence].
  - injection Hc as C1 C2 C3.
    destruct (Hrun _ _ _ H1 ltac:(congruence) C2) as [(e & -> & R1 & R2)|(m & sel & Hm & Hsel & j & n & d1 & d' & P1 & P2 & P3 & P4 & P5 & P6)].
    + left. destruct o as [out [e'|]]; cbn [fst snd] in *; [|exfalso; by destruct Hn as [Hn _]].
      exists e'. rewrite Hf, Hd. unfold rows_of in *. rewrite <- C1, <- C2. by split_and!.
    + right. exists m, sel. unfold rows_of in *. rewrite C2 in *. split_and!; try done.
      exists j, n, d1, d'. rewrite Hd, Hf, <- C1. split_and!; try done; try lia. intros H. by apply P6, Hn.
Qed.

(** ** SQLite: one transaction around everything *)
Lemma prepared_inv dir fin r d sel w res w' rows :
  finishes dir fin -> no_implicit_commit -> prepared_loop dir r d sel w = (res, w') -> history w = Some rows ->
  saved w' = saved w /\
  (res = Ok tt -> history w' = Some (fins fin sel rows) /\ chain (completes dir never) sel (data w) (data w')).
Proof.
  intros Hf Hn. revert w rows. induction sel as [|p sel IH]; intros w rows H Hr; cbn [prepared_loop] in H.
  - unfold ret in H. injection H as <- <-. by split.
  - apply bind_inv in H as (x & w1 & H1 & H).
    destruct (migration_inv dir fin Hf _ _ _ _ _ _ _ _ quiet_never H1 Hr) as [K E].
    assert (saved w1 = saved w) as Hs.
    { destruct K as [K|[_ [sql K]]]; [done|]. by rewrite Hn in K. }
    destruct x as [[]|e].
    + destruct E as [[E1 E2]|[_ [e E1]]]; [|done]. destruct (IH _ _ H E1) as [F1 F2].
      split; [congruence|]. intros Hok. destruct (F2 Hok) as [F3 F4]. split; [done|]. by exists (data w1).
    + unfold ret in H. injection H as <- <-. split; [done|discriminate].
Qed.

(** The body of the transaction: it fails with the transaction still open, or
    its commit took effect. *)
Lemma sqlite_body_inv dir fin r d select w res w' s :
  finishes dir fin -> no_implicit_commit -> sqlite_body dir r d select w = (res, w') -> saved w = Some s ->
  (saved w' = Some s /\ exists e, res = Err e) \/
  (saved w' = None /\ exists m sel, history_map (rows_of w) = Ok m /\ select m = Ok sel /\
     history w' = Some (fins fin sel (rows_of w)) /\ chain (completes dir never) sel (data w) (data w') /\
     (res = Ok (exportMigrations sel) \/ exists e, res = Err e)).
Proof.
  intros Hf Hn H Hs. unfold sqlite_body in H. apply bind_inv in H as (h & w1 & H1 & H).
  apply ensure_inv in H1 as (E1 & E2 & E3). destruct h as [[]|e].
  2:{ unfold ret in H. injection H as <- <-. left. split; [congruence|by eexists]. }
  destruct E3 as [E3|[_ [e E3]]]; [|done]. apply bind_inv in H as (x & w2 & H2 & H).
  unfold run_prepared in H2. apply bind_inv in H2 as (seen & w3 & H3 & H2).
  apply applied_inv in H3 as [Hc Hm]. injection Hc as C1 C2 C3.
  destruct (do m <- seen; select m) as [sel|e] eqn:Esel.
  2:{ unfold ret in H2. injection H2 as <- <-. unfold ret in H. injection H as <- <-. left.
      split; [congruence|by eexists]. }
  apply bind_inv in H2 as (y & w4 & H4 & H2).
  assert (history w3 = Some (rows_of w)) as Hr3 by (by rewrite C2, E3).
  destruct (prepared_inv _ _ _ _ _ _ _ _ _ Hf Hn H4 Hr3) as [P1 P2].
  unfold ret in H2. injection H2 as <- <-. destruct y as [[]|e].
  2:{ unfold ret in H. injection H as <- <-. left. split; [congruence|by eexists]. }
  destruct (P2 eq_refl) as [P3 P4]. apply bind_inv in H as (c & w5 & H5 & H).
  apply commit_inv in H5 as (F1 & F2 & F3). unfold ret in H. injection H as <- <-.
  destruct F3 as [F3|[F3 [e ->]]].
  - right. split; [done|]. destruct seen as [m|e]; [|done]. destruct (Hm m eq_refl) as (rows & Hrows & Hm').
    rewrite E3 in Hrows. injection Hrows as Hrows. exists m, sel. rewrite F1, F2. rewrite <- E1, <- C1.
    unfold rows_of in *. split_and!; try done; [by rewrite Hrows|].
    destruct c as [[]|e]; simpl; [by left|right; by eexists].
  - left. split; [congruence|by eexists].
Qed.

Lemma sqlite_ended dir fin r d select w o w' :
  finishes dir fin -> no_implicit_commit -> run_sqlite dir r d select w = (o, w') -> saved w = None ->
  ended fin (completes dir never) untouched select w o w'.
Proof.
  intros Hf Hn H Hs. unfold run_sqlite in H. apply bind_inv in H as (b & w1 & H1 & H).
  destruct (begun _ _ _ _ H1 Hs) as [(-> & B1 & B2 & B3)|[[e ->] B]].
  2:{ unfold ret in H. injection H as <- <-. left. eexists. rewrite B. split_and!; [done|done|by left]. }
  apply bind_inv in H as (x & w2 & H2 & H).
  destruct (sqlite_body_inv _ _ _ _ _ _ _ _ _ Hf Hn H2 B1)
    as [[S1 [e ->]]|(S1 & m & sel & Q1 & Q2 & Q3 & Q4 & Q5)].
  - apply bind_inv in H as (u & w3 & H3 & H). unfold ret in H. injection H as <- <-. left. exists e.
    apply rollback_inv in H3. rewrite H3, (durable_saved _ _ S1). simpl. split_and!; [done|done|by left].
  - right. exists m, sel. unfold rows_of in *. rewrite B3, B2 in *. split_and!; try done.
    assert (durable w' = durable w2 /\ (o = (exportMigrations sel, None) \/ exists e, o = ([], Some e))) as [Hd Ho].
    { destruct Q5 as [->|[e ->]].
      - unfold ret in H. injection H as <- <-. split; [done|by left].
      - apply bind_inv in H as (u & w3 & H3 & H). unfold ret in H. injection H as <- <-.
        apply rollback_inv in H3. split; [done|right; by eexists]. }
    rewrite (durable_unsaved w2), Q3 in Hd by done.
    destruct Ho as [->|[e ->]].
    + exists (length sel), (length sel), (data w2), (data w2). rewrite (take_ge sel (length sel)) by lia.
      split_and!; try done; try lia. by left.
    + exists 0, (length sel), (data w2), (data w2). rewrite (take_ge sel (length sel)) by lia.
      split_and!; try done; try lia. by left.
Qed.

(** ** Engines *)
Lemma step_mono fin good (C C' P P' : preparedMigration -> Data -> Data -> Prop) stp :
  (forall p x y, C p x y -> C' p x y) -> (forall p x y, P p x y -> P' p x y) ->
  step_spec fin good C P stp -> step_spec fin good C' P' stp.
Proof.
  intros HC HP H p w rows out w' E Hs Hr Hg.
  destruct (H _ _ _ _ _ E Hs Hr Hg) as [(H1 & H2 & H3 & H4)|[He (d' & [[H1 H2]|[H1 H2]])]].
  - left. split_and!; auto.
  - right. split; [done|]. exists d'. left. auto.
  - right. split; [done|]. exists d'. right. auto.
Qed.

Lemma chain_mono (C C' : preparedMigration -> Data -> Data -> Prop) l d d' :
  (forall p x y, C p x y -> C' p x y) -> chain C l d d' -> chain C' l d d'.
Proof.
  intros HC. revert d. induction l as [|p l IH]; intros d; simpl; [done|].
  intros (d1 & H1 & H2). exists d1. auto.
Qed.

Lemma ended_mono fin (C C' P P' : preparedMigration -> Data -> Data -> Prop) select w o w' :
  (forall p x y, C p x y -> C' p x y) -> (forall p x y, P p x y -> P' p x y) ->
  ended fin C P select w o w' -> ended fin C' P' select w o w'.
Proof.
  intros HC HP [H|(m & sel & H1 & H2 & j & n & d1 & d' & Q1 & Q2 & Q3 & Q4 & Q5 & Q6)]; [by left|].
  right. exists m, sel. split_and!; try done. exists j, n, d1, d'. split_and!; try done; try lia.
  - by eapply chain_mono.
  - destruct Q5 as [?|(p & ? & ?)]; [by left|right; exists p; auto].
Qed.

(** The sources of a migration all succeed, in order. *)
Definition ran (dir : direction) (p : preparedMigration) (d d' : Data) : Prop :=
  run_all (dir_sources dir p) d = Some d'.
(** What an unfinished migration may leave: nothing when it is atomic. *)
Definition leftover (p : preparedMigration) (d d' : Data) : Prop :=
  mode p <> ExecutionModeNonTransactional -> d' = d.

Section Engines.
Variables (dir : direction) (fin : preparedMigration -> rows_t -> rows_t).
Hypothesis dir_finishes : finishes dir fin.
Hypothesis dir_quiet : forall d, quiet (dir_tolerated dir d).
Hypothesis dir_strict : forall d, d_Name d <> "mysql" -> strict (dir_tolerated dir d).

(** PostgreSQL and SQLite: transactional DDL. *)
Lemma transactional_ended r d select w o w' :
  no_implicit_commit -> d_Name d = "postgresql" \/ d_Name d = "sqlite" ->
  run_engine dir r d select w = (o, w') -> saved w = None ->
  ended fin (ran dir) leftover select w o w'.
Proof.
  intros Hn Hd H Hs. unfold run_engine, by_engine in H. destruct Hd as [Hd|Hd]; rewrite Hd in H; simpl in H.
  - apply postgres_lock in H. eapply under_lock_ended; [done|exact H|].
    intros w1 o1 w2 H1 Hs1 Hh1. eapply (run_locked_ended dir fin any_good); [| |exact H1|done].
    2:{ intros m sel _ _. clear. generalize (rows_of w1). induction sel as [|p sel IH]; intros rows; simpl; auto.
        split; [done|apply IH]. }
    eapply step_mono; [| |eapply step_either; [apply (postgres_step dir fin dir_finishes)|
                                                apply (nontransactional_step dir fin dir_finishes dir_quiet)]].
    + intros p x y. cbv beta. destruct (String.eqb (mode p) _); intros K; apply K; [|apply strict_never].
      apply dir_strict. by rewrite Hd.
    + intros p x y. cbv beta. unfold leftover. destruct (String.eqb_spec (mode p) ExecutionModeNonTransactional).
      * done.
      * intros K _. by apply K.
  - eapply ended_mono; [| |eapply sqlite_ended; done].
    + intros p x y K. apply K, strict_never.
    + intros p x y K _. by apply K.
Qed.

(** Every engine: the history alone. *)
Lemma engine_ended r d select w o w' :
  no_implicit_commit \/ d_Name d <> "sqlite" ->
  (forall m sel, history_map (rows_of w) = Ok m -> select m = Ok sel ->
     good_all fin (not_skipped dir) sel (rows_of w)) ->
  run_engine dir r d select w = (o, w') -> saved w = None ->
  ended fin any_data any_data select w o w'.
Proof.
  intros Hn Hgood H Hs. unfold run_engine, by_engine in H. 
  destruct (String.eqb (d_Name d) "postgresql"); [|destruct (String.eqb (d_Name d) "mysql");
    [|destruct (String.eqb_spec (d_Name d) "sqlite") as [E|E]]].
  - apply postgres_lock in H. eapply under_lock_ended; [done|exact H|].
    intros w1 o1 w2 H1 Hs1 Hh1. eapply (run_locked_ended dir fin any_good); [| |exact H1|done].
    2:{ intros m sel _ _. clear. generalize (rows_of w1). induction sel as [|p sel IH]; intros rows; simpl; auto.
        split; [done|apply IH]. }
    eapply step_mono; [| |eapply step_either; [apply (postgres_step dir fin dir_finishes)|
                                                apply (nontransactional_step dir fin dir_finishes dir_quiet)]]; done.
  - apply mysql_lock in H. eapply under_lock_ended; [done|exact H|].
    intros w1 o1 w2 H1 Hs1 Hh1. eapply (run_locked_ended dir fin (not_skipped dir)); [| |exact H1|done].
    + eapply step_mono; [| |eapply step_either; [apply (mysql_step dir fin dir_finishes dir_quiet)|
        eapply step_weaken; [|apply (nontransactional_step dir fin dir_finishes dir_quiet)]]]; done.
    + unfold rows_of in *. by rewrite Hh1.
  - destruct Hn as [Hn|Hn]; [|done]. eapply ended_mono; [| |eapply sqlite_ended; done]; done.
  - left. unfold ret in H. injection H as <- <-. eexists. rewrite durable_unsaved by done.
    split_and!; [done|done|by left].
Qed.
End Engines.

Lemma quiet_up d : quiet (dir_tolerated up d).
Proof. intros i src e w b w'. apply (tolerate_inv d appliedNoticeFormat). Qed.
Lemma quiet_down d : quiet (dir_tolerated down_ d).
Proof. intros i src e w b w'. apply (tolerate_inv d revertedNoticeFormat). Qed.
Lemma strict_up d : d_Name d <> "mysql" -> strict (dir_tolerated up d).
Proof. apply (strict_tolerate d appliedNoticeFormat). Qed.
Lemma strict_down d : d_Name d <> "mysql" -> strict (dir_tolerated down_ d).
Proof. apply (strict_tolerate d revertedNoticeFormat). Qed.

(** ** The rows a run leaves *)
Lemma history_map_intro rows : NoDup rows.*1 -> history_map rows = Ok (list_to_map rows).
Proof.
  unfold history_map. intros Hn.
  enough (forall i acc, (forall row, row ∈ rows -> acc !! fst row = None) ->
    foldi (fun _ row (m : gmap string string) =>
      match m !! fst row with
      | Some _ => Err (Errorf "migrate: migration history contains duplicate ID %q" [AStr (fst row)])
      | None => Ok (<[fst row := snd row]> m)
      end) i rows acc = Ok (list_to_map rows ∪ acc)) as H.
  { rewrite H; [by rewrite (right_id_L ∅ (∪))|]. intros row _. apply lookup_empty. }
  induction rows as [|[k v] rows IH]; intros i acc Hacc; simpl.
  - by rewrite (left_id_L ∅ (∪)).
  - inversion Hn as [|? ? Hk Hn']; subst.
    pose proof (Hacc (k, v) ltac:(by left)) as Hk0. simpl in Hk0. rewrite Hk0. rewrite IH.
    + f_equal. rewrite <- insert_union_l. symmetry. apply insert_union_r. by apply not_elem_of_list_to_map_1.
    + done.
    + intros [k' v'] Hin. simpl. rewrite lookup_insert_ne; [by apply (Hacc (k', v')); right|].
      intros <-. apply Hk. apply list_elem_of_fmap. by exists (k, v').
Qed.

Lemma fins_up l rows : fins add_row l rows = rows ++ (row_of <$> l).
Proof.
  revert rows. induction l as [|p l IH]; intros rows; simpl; [by rewrite app_nil_r|].
  rewrite IH. unfold add_row. by rewrite <- app_assoc.
Qed.

Lemma fins_down l rows : fins remove_row l rows = filter (fun row => fst row ∉ id <$> l) rows.
Proof.
  revert rows. induction l as [|p l IH]; intros rows.
  - simpl. induction rows as [|row rows IHr]; [done|].
    exact (f_equal (cons row) IHr).
  - simpl fins. rewrite IH. unfold remove_row.
    etrans; [apply (list_filter_filter (A:=string * string))|]. apply (list_filter_iff (A:=string * string)).
    intros row. rewrite fmap_cons, not_elem_of_cons. tauto.
Qed.

Lemma keys_recorded ps : (row_of <$> ps).*1 = id <$> ps.
Proof. rewrite <- list_fmap_compose. done. Qed.

Lemma recorded_row ps i c : NoDup (id <$> ps) -> recorded ps !! i = Some c <-> (i, c) ∈ row_of <$> ps.
Proof.
  intros Hn. rewrite (recorded_lookup _ _ _ Hn), list_elem_of_fmap. split.
  - intros (p & ? & <- & <-). by exists p.
  - intros (p & [= -> ->] & ?). by exists p.
Qed.

Lemma row_lookup rows i c : NoDup rows.*1 -> (i, c) ∈ rows <-> (list_to_map rows : gmap string string) !! i = Some c.
Proof. intros Hn. by apply elem_of_list_to_map. Qed.

(** After an apply of [n] of the selected migrations. *)
Lemma rows_after_apply ps k limit n rows :
  SortedIds ps -> k <= length ps -> history_map rows = Ok (recorded (take k ps)) ->
  n <= length (drop k (take limit ps)) ->
  history_map (rows ++ (row_of <$> take n (drop k (take limit ps)))) = Ok (recorded (take (k + n) ps)).
Proof.
  intros Hs Hk Hm Hn. apply history_map_ok in Hm as [Hnd Hm]. pose proof (SortedIds_nodup _ Hs) as Hps.
  assert (take (k + n) ps = take k ps ++ take n (drop k (take limit ps))) as Htake.
  { rewrite length_drop, length_take in Hn. rewrite skipn_firstn_comm, take_take, Nat.min_l by lia.
    by rewrite take_take_drop. }
  set (l1 := take k ps) in *. set (l2 := take n (drop k (take limit ps))) in *.
  assert (NoDup (id <$> l1 ++ l2)) as Hn12.
  { rewrite <- Htake. pose proof Hps as Hps'.
    rewrite <- (take_drop (k + n) ps), fmap_app in Hps'. by apply NoDup_app in Hps' as [? _]. }
  pose proof Hn12 as Hn12'. rewrite fmap_app in Hn12'. apply NoDup_app in Hn12' as (Hn1 & Hdis & Hn2).
  assert (forall i c, (i, c) ∈ rows <-> (i, c) ∈ row_of <$> l1) as Hrows.
  { intros i c. rewrite (row_lookup _ _ _ Hnd), <- Hm. by apply recorded_row. }
  assert (NoDup (rows ++ (row_of <$> l2)).*1) as Hnd'.
  { rewrite fmap_app, keys_recorded. apply NoDup_app. split_and!; [done| |done].
    intros i ([i' c] & -> & Hin)%list_elem_of_fmap. apply Hrows in Hin.
    apply list_elem_of_fmap in Hin as (p & [= -> ->] & Hin). simpl. apply Hdis. by apply list_elem_of_fmap_2. }
  rewrite (history_map_intro _ Hnd'), Htake. f_equal. apply map_eq. intros i. apply option_eq. intros c.
  rewrite <- (row_lookup _ _ _ Hnd'), (recorded_row _ _ _ Hn12), fmap_app, !elem_of_app, Hrows. done.
Qed.

(** Selected migrations are new to the table, so none is skipped. *)
Definition fresh (p : preparedMigration) (rows : rows_t) : Prop := NoDup rows.*1 /\ id p ∉ rows.*1.

Lemma good_all_mono fin (good good' : preparedMigration -> rows_t -> Prop) l rows :
  (forall p rows, p ∈ l -> good p rows -> good' p rows) -> good_all fin good l rows -> good_all fin good' l rows.
Proof.
  revert rows. induction l as [|p l IH]; intros rows Hg; simpl; [done|]. intros [H1 H2]. split.
  - apply Hg; [by left|done].
  - apply IH; [|done]. intros q rows' Hq. apply Hg. by right.
Qed.

Lemma fresh_all l rows :
  NoDup rows.*1 -> NoDup (id <$> l) -> (forall p, p ∈ l -> id p ∉ rows.*1) -> good_all add_row fresh l rows.
Proof.
  revert rows. induction l as [|p l IH]; intros rows Hnd Hn Hd; simpl; [done|]. inversion Hn as [|? ? Hp Hn']; subst.
  split; [split; [done|apply Hd; by left]|]. apply IH; [| done|].
  - unfold add_row. rewrite fmap_app. apply NoDup_app. split_and!; [done| |by apply NoDup_singleton].
    simpl. intros i Hi ->%list_elem_of_singleton. by apply (Hd p); [left|].
  - intros q Hq. unfold add_row. rewrite fmap_app, not_elem_of_app. split; [apply Hd; by right|].
    simpl. intros Heq%list_elem_of_singleton. apply Hp. rewrite <- Heq. by apply list_elem_of_fmap_2.
Qed.

Lemma fresh_up ps k limit rows :
  SortedIds ps -> k <= length ps -> history_map rows = Ok (recorded (take k ps)) ->
  good_all add_row fresh (drop k (take limit ps)) rows.
Proof.
  intros Hs Hk Hm. pose proof (SortedIds_nodup _ Hs) as Hps. apply history_map_ok in Hm as [Hnd Hm].
  rewrite <- (take_drop k ps), fmap_app in Hps. apply NoDup_app in Hps as (Hn1 & Hdis & Hn2).
  rewrite skipn_firstn_comm. apply fresh_all; [done| |].
  - rewrite <- (take_drop (limit - k) (drop k ps)), fmap_app in Hn2. by apply NoDup_app in Hn2 as [? _].
  - intros p (i & Hp & _)%elem_of_take ([i' c] & Hi & Hin)%list_elem_of_fmap. simpl in Hi. subst i'.
    apply list_elem_of_lookup_2 in Hp.
    apply (row_lookup _ _ _ Hnd) in Hin. rewrite <- Hm in Hin. apply (recorded_row _ _ _ Hn1) in Hin.
    apply list_elem_of_fmap in Hin as (q & [= Hq _] & Hin). apply (Hdis (id p)).
    + rewrite Hq. by apply list_elem_of_fmap_2.
    + by apply list_elem_of_fmap_2.
Qed.

Lemma fresh_proceeds p rows m : fresh p rows -> history_map rows = Ok m -> m !! id p = None.
Proof. intros [_ Hp] [_ ->]%history_map_ok. by apply not_elem_of_list_to_map_1. Qed.

Lemma good_up ps k limit rows :
  SortedIds ps -> k <= length ps -> history_map rows = Ok (recorded (take k ps)) ->
  good_all add_row (not_skipped up) (drop k (take limit ps)) rows.
Proof.
  intros Hs Hk Hm. eapply good_all_mono; [|by apply (fresh_up _ _ _ _ Hs Hk Hm)].
  intros p rows' _ Hf m Hm'. simpl. by rewrite (fresh_proceeds _ _ _ Hf Hm').
Qed.

Lemma good_down l rows : good_all remove_row (not_skipped down_) l rows.
Proof.
  revert rows. induction l as [|p l IH]; intros rows; simpl; [done|]. split; [|apply IH].
  intros m _. simpl. destruct (m !! id p) as [c|]; [|done]. by destruct (negb _).
Qed.

(** ** Runs *)
(** A run that got as far as the connection is the engine's run on the same
    session state; one that did not changed nothing. *)
Lemma with_connection_inv r d l ps run w o w' :
  runner_validate r = Ok d -> prepareMigrations l = Ok ps ->
  with_connection r l failed_run run w = (o, w') ->
  (exists e, o = ([], Some e) /\ core w' = core w) \/
  (exists w1, run d ps w1 = (o, w') /\ core w1 = core w).
Proof.
  intros Hr Hp H. unfold with_connection in H. rewrite Hr, Hp in H. apply bind_inv in H as (c & w1 & H1 & H).
  assert (core w1 = core w) as Hc by (apply call_inv in H1 as [[= _ <-]|[_ [->| ->]]]; done).
  destruct c as [[]|e]; [right; by exists w1|].
  left. unfold ret in H. injection H as <- <-. by eexists.
Qed.

Lemma connected_ended fin C P select r d l ps run w o w' :
  runner_validate r = Ok d -> prepareMigrations l = Ok ps -> saved w = None ->
  with_connection r l failed_run run w = (o, w') ->
  (forall w1, run d ps w1 = (o, w') -> saved w1 = None -> history w1 = history w ->
     ended fin C P select w1 o w') ->
  ended fin C P select w o w'.
Proof.
  intros Hr Hp Hs H Hrun. destruct (with_connection_inv _ _ _ _ _ _ _ _ Hr Hp H) as [(e & -> & Hc)|(w1 & H1 & Hc)];
    injection Hc as C1 C2 C3.
  - left. exists e. rewrite durable_unsaved by congruence. simpl. split_and!; [done|done|left; congruence].
  - specialize (Hrun w1 H1 ltac:(congruence) ltac:(congruence)).
    unfold ended, rows_of in *. by rewrite <- C1, <- C2.
Qed.

(** C6 Transactional engines. On PostgreSQL and SQLite, with a server that does
    not commit on its own, every run of Apply and of Revert, whatever calls
    failed and however the connection broke, either is refused with nothing
    changed but the creation of an empty history table, or ends with the effect
    of a prefix of the selected migrations, each of them complete and with
    exactly their history rows written; only a migration that declares itself
    nontransactional can leave something of its sources behind without its
    row; and a run that reports no error has done all of the selection and
    reports exactly that. *)
Theorem transactional_runs (r : Runner) (d : Dialect) (l : list Migration) (ps : list preparedMigration) :
  no_implicit_commit -> d_Name d = "postgresql" \/ d_Name d = "sqlite" ->
  runner_validate r = Ok d -> prepareMigrations l = Ok ps ->
  (forall target w o w', Apply r target l w = (o, w') -> saved w = None ->
     ended add_row (ran up) leftover (fun m => selectApplies range_ids m ps target) w o w') /\
  (forall target w o w', Revert r target l w = (o, w') -> saved w = None ->
     ended remove_row (ran down_) leftover (fun m => selectReverts range_ids m ps target) w o w').
Proof.
  intros Hn Hd Hr Hp. split; intros target w o w' H Hs; eapply connected_ended; try done;
    intros w1 H1 Hs1 _.
  - eapply (transactional_ended up); [apply finishes_up|apply quiet_up|apply strict_up|done..|exact H1|done].
  - eapply (transactional_ended down_); [apply finishes_down|apply quiet_down|apply strict_down|done..|exact H1|done].
Qed.

(** Which servers a run's history can be followed on. *)
Definition followed (d : Dialect) : Prop := no_implicit_commit \/ d_Name d <> "sqlite".

(** C7 Apply can always be run again. On every engine, whatever calls failed and
    even when the server commits behind the runner's back, a run of Apply that
    is not refused with the history rows as they were started from a history
    recording exactly the first migrations, reports a prefix of the selected
    ones, and leaves a history that again records exactly the first migrations,
    at least the reported ones and all of the selection when no error is
    reported; so the next Apply accepts that history and selects exactly what
    is still missing. *)
Theorem apply_resumes (r : Runner) (d : Dialect) (l : list Migration) (ps : list preparedMigration)
  (target : ApplyTarget) (w : world Data) (o : outcome) (w' : world Data) :
  ranges_ids range_ids -> followed d -> runner_validate r = Ok d -> prepareMigrations l = Ok ps ->
  Apply r target l w = (o, w') -> saved w = None ->
  (exists e, o = ([], Some e) /\ (snd (durable w') = history w \/ snd (durable w') = Some (rows_of w))) \/
  (exists k limit j n rows,
     history_map (rows_of w) = Ok (recorded (take k ps)) /\ reaches_target ps target limit /\
     j <= n <= length (drop k (take limit ps)) /\
     fst o = exportMigrations (take j (drop k (take limit ps))) /\
     (snd o = None -> j = length (drop k (take limit ps))) /\
     snd (durable w') = Some rows /\ history_map rows = Ok (recorded (take (k + n) ps)) /\
     selectApplies range_ids (recorded (take (k + n) ps)) ps AllPending = Ok (drop (k + n) ps)).
Proof.
  intros Hrg Hf Hr Hp H Hs. pose proof (proj1 (prepareMigrations_ok _ _ Hp)) as Hsort.
  assert (ended add_row any_data any_data (fun m => selectApplies range_ids m ps target) w o w') as He.
  { eapply connected_ended; try done. intros w1 H1 Hs1 _.
    eapply (engine_ended up); [apply finishes_up|apply quiet_up|exact Hf| |exact H1|done].
    intros m sel Hm Hsel. apply (selectApplies_spec _ _ _ _ _ Hsort Hrg) in Hsel
      as (k & limit & Hk & -> & _ & ->). by apply good_up. }
  destruct He as [(e & -> & _ & He)|(m & sel & Hm & Hsel & He)]; [left; by exists e|right].
  apply (selectApplies_spec _ _ _ _ _ Hsort Hrg) in Hsel as (k & limit & Hk & -> & Hlim & ->).
  destruct He as (j & n & d1 & d' & Hjn & Hout & Hdur & _ & _ & Hnone).
  exists k, limit, j, n, (rows_of w ++ (row_of <$> take n (drop k (take limit ps)))).
  pose proof (proj2 Hjn) as Hn. rewrite length_drop, length_take in Hn.
  split_and!; try done; try lia.
  - intros E. by destruct (Hnone E).
  - rewrite Hdur. simpl. by rewrite fins_up.
  - apply rows_after_apply; [done|done|done|exact (proj2 Hjn)].
  - apply (selectApplies_spec _ _ _ _ _ Hsort Hrg). exists (k + n), (length ps).
    split_and!; try done; [lia|by rewrite take_ge by lia].
Qed.

(** *** The rows a revert leaves *)
Lemma newest_take n n' (l : list preparedMigration) :
  n' <= n -> n <= length l -> take n' (newest n l) = newest n' l.
Proof.
  intros H1 H2. unfold newest. rewrite firstn_rev, length_drop, drop_drop. do 2 f_equal. lia.
Qed.

Lemma newest_id n l i :
  NoDup (id <$> l) -> n <= length l -> i ∈ id <$> l ->
  i ∉ id <$> newest n l <-> i ∈ id <$> take (length l - n) l.
Proof.
  intros Hn Hle Hi. unfold newest.
  assert (forall l' : list preparedMigration, i ∈ id <$> rev l' <-> i ∈ id <$> l') as ->.
  { intros l'. rewrite !list_elem_of_fmap. setoid_rewrite list_elem_of_In. by setoid_rewrite <- in_rev. }
  rewrite <- (take_drop (length l - n) l), fmap_app in Hn, Hi. apply NoDup_app in Hn as (_ & Hdis & _).
  apply elem_of_app in Hi as [Hi|Hi]; split; try done; intros K; [by apply Hdis|].
  by apply Hdis in K.
Qed.

Lemma history_filter rows m keep `{forall i, Decision (keep i)} :
  history_map rows = Ok m ->
  exists m', history_map (filter (fun row => keep (fst row)) rows) = Ok m' /\
    forall i c, m' !! i = Some c <-> keep i /\ m !! i = Some c.
Proof.
  intros [Hn ->]%history_map_ok.
  assert (NoDup (filter (fun row => keep (fst row)) rows).*1) as Hn'.
  { revert Hn. clear. induction rows as [|row rows IH]; intros Hn; [constructor|].
    inversion Hn as [|? ? Hr Hn']; subst. destruct (decide (keep (fst row))) as [Hk|Hk].
    - rewrite (filter_cons_True (fun row => keep (fst row)) row rows Hk). constructor; [|by apply IH].
      intros (row' & He & [_ Hin]%list_elem_of_filter)%list_elem_of_fmap. apply Hr. rewrite He.
      by apply list_elem_of_fmap_2.
    - rewrite (filter_cons_False (fun row => keep (fst row)) row rows Hk). by apply IH. }
  eexists. split; [by apply history_map_intro|]. intros i c.
  rewrite <- (row_lookup _ _ _ Hn'), <- (row_lookup _ _ _ Hn). by rewrite list_elem_of_filter.
Qed.

Lemma reverts_target_le l target n : reverts_target l target n -> n <= length l.
Proof. destruct target as [|t|z]; simpl; [done| |]; [intros (i & p & _ & _ & ->); lia|lia]. Qed.

Lemma newest_length n (l : list preparedMigration) : n <= length l -> length (newest n l) = n.
Proof. intros H. unfold newest. rewrite length_rev, length_drop. lia. Qed.

(** The history after the [n] newest of the first [k] were removed. *)
Lemma rows_after_revert ps k n rows m :
  SortedIds ps -> covers m ps k -> n <= k -> history_map rows = Ok m ->
  exists m', history_map (fins remove_row (newest n (take k ps)) rows) = Ok m' /\ covers m' ps (k - n) /\
    forall i c, m' !! i = Some c <-> i ∈ id <$> take (k - n) ps /\ m !! i = Some c.
Proof.
  intros Hs [Hk Hc] Hn Hm. rewrite fins_down.
  pose proof (SortedIds_nodup _ (SortedIds_take k _ Hs)) as Hnd.
  destruct (history_filter rows m (fun i => i ∉ id <$> newest n (take k ps)) Hm) as (m' & H1 & H2).
  assert (forall i, i ∈ id <$> take k ps -> i ∉ id <$> newest n (take k ps) <-> i ∈ id <$> take (k - n) ps) as Hi.
  { intros i Hi. rewrite newest_id by (done || rewrite length_take; lia).
    rewrite length_take, Nat.min_l, take_take, Nat.min_l by lia. done. }
  assert (forall i c, m' !! i = Some c <-> i ∈ id <$> take (k - n) ps /\ m !! i = Some c) as H3.
  { intros i c. rewrite H2. split; intros [Ha Hb]; split; try done; (apply Hi; [|done]); apply Hc; by eexists. }
  exists m'. split_and!; [done| |done]. split; [lia|]. intros i. split.
  - intros [c Hic]. by apply H3 in Hic as [? _].
  - intros Hin. destruct (proj2 (Hc i)) as [c Hic]; [|by exists c; apply H3].
    replace k with ((k - n) + n) by lia. rewrite <- take_take_drop, fmap_app, elem_of_app. by left.
Qed.

(** C31 Revert undoes the newest migrations and nothing else. On every engine,
    whatever calls failed, a run of Revert that is not refused with the history
    rows as they were started from a history naming exactly the first
    migrations, reports a prefix of the newest ones its target asks for, newest
    first, and leaves a history that names exactly the first migrations again:
    at least the reported ones are gone, all of the target's when no error is
    reported, and every other record is unchanged. *)
Theorem revert_resumes (r : Runner) (d : Dialect) (l : list Migration) (ps : list preparedMigration)
  (target : RevertTarget) (w : world Data) (o : outcome) (w' : world Data) :
  ranges_ids range_ids -> followed d -> runner_validate r = Ok d -> prepareMigrations l = Ok ps ->
  Revert r target l w = (o, w') -> saved w = None ->
  (exists e, o = ([], Some e) /\ (snd (durable w') = history w \/ snd (durable w') = Some (rows_of w))) \/
  (exists m k n j n' rows m',
     history_map (rows_of w) = Ok m /\ covers m ps k /\ reverts_target (take k ps) target n /\ j <= n' <= n /\
     fst o = exportMigrations (take j (newest n (take k ps))) /\ (snd o = None -> j = n) /\
     snd (durable w') = Some rows /\ history_map rows = Ok m' /\ covers m' ps (k - n') /\
     forall i c, m' !! i = Some c <-> i ∈ id <$> take (k - n') ps /\ m !! i = Some c).
Proof.
  intros Hrg Hf Hr Hp H Hs. pose proof (proj1 (prepareMigrations_ok _ _ Hp)) as Hsort.
  assert (ended remove_row any_data any_data (fun m => selectReverts range_ids m ps target) w o w') as He.
  { eapply connected_ended; try done. intros w1 H1 Hs1 _.
    eapply (engine_ended down_); [apply finishes_down|apply quiet_down|exact Hf| |exact H1|done].
    intros m sel _ _. apply good_down. }
  destruct He as [(e & -> & _ & He)|(m & sel & Hm & Hsel & He)]; [left; by exists e|right].
  apply (selectReverts_spec _ _ _ _ _ Hsort Hrg) in Hsel as (k & n & Hcov & Hn & -> & _).
  pose proof (reverts_target_le _ _ _ Hn) as Hle. rewrite length_take in Hle.
  destruct He as (j & n' & d1 & d' & Hjn & Hout & Hdur & _ & _ & Hnone).
  rewrite newest_length in Hjn, Hnone by (rewrite length_take; lia).
  rewrite newest_take in Hdur by (rewrite ?length_take; lia).
  destruct (rows_after_revert ps k n' (rows_of w) m Hsort Hcov ltac:(lia) Hm) as (m' & H1 & H2 & H3).
  exists m, k, n, j, n', (fins remove_row (newest n' (take k ps)) (rows_of w)), m'.
  rewrite Hdur. split_and!; try done; try lia. intros E. by destruct (Hnone E).
Qed.
End Safety.

(** ** Samples: a server that appends every statement to a log *)
(** It commits implicitly before each one when [commits] is set. *)
Definition lost : error := errors_New "connection reset".
(** [lose n] fails call [n], before it reached the server ([false]) or after
    the server did the work ([true]). *)
Definition log_server (commits : bool) (lose : nat -> option bool) : Server (list string) :=
  {| exec_sql sql log := (log ++ [sql], None);
     implicit_commit _ := commits;
     fault n := match lose n with Some b => Some (b, lost) | None => None end;
     get_lock _ := Some 1%Z;
     range_ids := map_ids |}.
Definition steady : nat -> option bool := fun _ => None.
Definition lose_call (at_call : nat) (after : bool) : nat -> option bool :=
  fun n => if Nat.eqb n at_call then Some after else None.
Definition sample_runner (d : Dialect) : Runner :=
  match New true (Some d) with Ok r => r | Err _ => MkRunner false None "" "" "" "" "" end.
Definition start (h : option rows_t) : world (list string) := MkWorld [] h None false false 0 [] [].


(** The commit of the second migration is sent, the server commits, and the
    answer is lost: the run reports the first migration and an error. *)
Section LostCommit.
#[local] Instance lost_commit : Server (list string) := log_server false (lose_call 11 true).
Lemma transactional_runs_witness :
  let run := Apply (sample_runner PostgreSQL) AllPending sample_migrations (start None) in
  map ID (fst (fst run)) = ["001"] /\ snd (fst run) = errors_Join [Some lost] /\ length (data (snd run)) = 2 /\
  ended add_row (ran up) leftover (fun m => selectApplies map_ids m sample_prepared AllPending) (start None)
    (fst run) (snd run).
Proof.
  intros run. split; [vm_compute; reflexivity|]. split; [vm_compute; reflexivity|].
  split; [vm_compute; reflexivity|].
  apply (proj1 (transactional_runs (server := lost_commit) (sample_runner PostgreSQL) PostgreSQL sample_migrations sample_prepared
    (fun _ => eq_refl) (or_introl eq_refl) eq_refl sample_prepared_ok)).
  - apply surjective_pairing.
  - reflexivity.
Defined.
End LostCommit.

(** On MySQL, which commits each statement of the schema on its own, the
    connection breaks before the second migration is recorded. *)
Section LostRecord.
#[local] Instance lost_record : Server (list string) := log_server true (lose_call 12 false).
Lemma apply_resumes_witness :
  let run := Apply (sample_runner MySQL) AllPending sample_migrations (start None) in
  map ID (fst (fst run)) = ["001"] /\ length (fst (durable (snd run))) = 2 /\
  exists rows n, snd (durable (snd run)) = Some rows /\ history_map rows = Ok (recorded (take n sample_prepared)) /\
    selectApplies map_ids (recorded (take n sample_prepared)) sample_prepared AllPending = Ok (drop n sample_prepared).
Proof.
  intros run. split; [vm_compute; reflexivity|]. split; [vm_compute; reflexivity|].
  assert (d_Name MySQL <> "sqlite") as Hd by discriminate.
  destruct (apply_resumes (server := lost_record) (sample_runner MySQL) MySQL sample_migrations sample_prepared AllPending (start None)
    (fst run) (snd run) map_ids_ranges (or_intror Hd) eq_refl sample_prepared_ok (surjective_pairing _) eq_refl)
    as [(e & H & _)|(k & limit & j & n & rows & H)].
  - exfalso. assert (fst (fst run) <> []) as K by (vm_compute; discriminate). apply K. rewrite H. reflexivity.
  - destruct H as (_ & _ & _ & _ & _ & H1 & H2 & H3). exists rows, (k + n). split; [exact H1|]. split; [exact H2|exact H3].
Defined.
End LostRecord.

(** A revert of the one applied migration, undisturbed. *)
Section Reverting.
#[local] Instance reverting : Server (list string) := log_server false steady.
Lemma revert_resumes_witness :
  let run := Revert (sample_runner SQLite) (Steps 1) sample_migrations (start (Some (row_of <$> take 1 sample_prepared))) in
  map ID (fst (fst run)) = ["001"] /\ snd (fst run) = None /\ data (snd run) = ["DROP TABLE a"] /\
  exists k n' rows m', snd (durable (snd run)) = Some rows /\ history_map rows = Ok m' /\
    covers m' sample_prepared (k - n').
Proof.
  intros run. split; [vm_compute; reflexivity|]. split; [vm_compute; reflexivity|].
  split; [vm_compute; reflexivity|].
  destruct (revert_resumes (server := reverting) (sample_runner SQLite) SQLite sample_migrations sample_prepared (Steps 1)
    (start (Some (row_of <$> take 1 sample_prepared))) (fst run) (snd run) map_ids_ranges
    (or_introl (fun _ => eq_refl)) eq_refl sample_prepared_ok (surjective_pairing _) eq_refl)
    as [(e & H & _)|(m & k & n & j & n' & rows & m' & H)].
  - exfalso. assert (fst (fst run) <> []) as K by (vm_compute; discriminate). apply K. rewrite H. reflexivity.
  - destruct H as (_ & _ & _ & _ & _ & _ & H1 & H2 & H3 & _). exists k, n', rows, m'.
    split; [exact H1|]. split; [exact H2|exact H3].
Defined.
End Reverting.
