(* ===== verification/MigrateProgress.v ===== *)
(** * MigrateProgress: a run that nothing disturbs does its work

    The counterpart of MigrateSafety: when no call fails, the lock is granted
    and the server accepts the sources, Apply and Revert succeed on every
    engine, and leave what the selected migrations leave. *)

From S2P Require Import Prelude GoText Schema Dialect Migration MigrateSelect MigrateRun MigrateSafety.
Open Scope string_scope.
Open Scope list_scope.
Open Scope nat_scope.

Section Progress.
Context {Data : Type} {server : Server Data}.
Hypothesis no_faults : forall t, fault t = None.
Hypothesis lock_granted : forall t, get_lock t = Some 1%Z.

Lemma call_ok {A} text (work : M (Data:=Data) (result A)) w : call text work w = work (called text w).
Proof. unfold call. by rewrite no_faults. Qed.

Lemma bind_ok {A B} (m : M (Data:=Data) A) (k : A -> M B) w a w1 : m w = (a, w1) -> bind m k w = k a w1.
Proof. unfold bind. by intros ->. Qed.

(** The parts of the session the rest of a run depends on. *)
Definition at_ (d : Data) (h : option rows_t) (l : bool) (w : world Data) : Prop :=
  data w = d /\ history w = h /\ locked w = l.
(** Inside a transaction or outside of one. *)
Definition outside (w : world Data) : Prop := saved w = None.

Lemma exec_ok sql d d' h l w :
  exec_sql sql d = (d', None) -> at_ d h l w ->
  exists w', exec_source sql w = (Ok tt, w') /\ at_ d' h l w' /\ (outside w -> outside w').
Proof.
  intros H (Hd & Hh & Hl). unfold exec_source. rewrite call_ok. unfold work_sql, outside.
  destruct (implicit_commit sql); simpl; rewrite Hd, H; eexists; (split; [done|]); split; try done.
Qed.

Lemma sources_ok what tolerated p ss d d' h l w :
  run_all ss d = Some d' -> at_ d h l w ->
  exists w', run_sources what tolerated p ss w = (Ok tt, w') /\ at_ d' h l w' /\ (outside w -> outside w').
Proof.
  revert d w. induction ss as [|s ss IH]; intros d w; simpl.
  - intros [= ->] H. by exists w.
  - destruct (exec_sql (SQL s) d) as [d1 [e|]] eqn:E; [done|]. intros Hr H.
    destruct (exec_ok _ _ _ _ _ _ E H) as (w1 & E1 & A1 & O1).
    destruct (IH d1 w1 Hr A1) as (w2 & E2 & A2 & O2).
    exists w2. rewrite (bind_ok _ _ _ _ _ E1). split; [done|]. split; [done|]. intros K. by apply O2, O1.
Qed.

(** ** Finishing *)
Definition supported (d : Dialect) : Prop := d = PostgreSQL \/ d = MySQL \/ d = SQLite.

Lemma placeholder_ok d n : supported d -> n = 1%Z \/ n = 2%Z -> exists s, d_Placeholder d n = Ok s.
Proof. by intros [-> |[-> | ->]] [-> | ->]; eexists. Qed.

(** What [dir_finish] does when nothing fails, on rows where it is due. *)
Definition due (dir : direction (Data:=Data)) (p : preparedMigration) (rows : rows_t) : Prop :=
  exists m, history_map rows = Ok m /\ dir_recheck dir m p = Proceed.
Definition finishes_ok (dir : direction (Data:=Data)) (fin : preparedMigration -> rows_t -> rows_t) : Prop :=
  forall r d p x rows l w, supported d -> due dir p rows -> at_ x (Some rows) l w ->
    exists w', dir_finish dir r d p w = (Ok tt, w') /\ at_ x (Some (fin p rows)) l w' /\ (outside w -> outside w').

Lemma finishes_ok_up : finishes_ok up add_row.
Proof.
  intros r d p x rows l w Hd (m & Hm & Hp) (Hx & Hh & Hl). simpl. unfold record.
  destruct (placeholder_ok d 1 Hd ltac:(auto)) as [a ->]. destruct (placeholder_ok d 2 Hd ltac:(auto)) as [b ->].
  simpl. unfold bind. rewrite call_ok. unfold work_insert. simpl. rewrite Hh.
  assert (m !! id p = None) as Hn by (simpl in Hp; destruct (m !! id p); [by destruct (negb _)|done]).
  apply history_map_ok in Hm as [Hnd ->].
  destruct (existsb _ rows) eqn:E.
  - exfalso. apply existsb_exists in E as ([i c] & Hin & Heq). simpl in Heq. apply String.eqb_eq in Heq as ->.
    apply list_elem_of_In in Hin.
    apply (elem_of_list_to_map_1 _ _ _ Hnd) in Hin. simpl in Hn. congruence.
  - eexists. split; [done|]. done.
Qed.

Lemma finishes_ok_down : finishes_ok down_ remove_row.
Proof.
  intros r d p x rows l w Hd _ (Hx & Hh & Hl). simpl. unfold forget.
  destruct (placeholder_ok d 1 Hd ltac:(auto)) as [a ->]. simpl. unfold bind. rewrite call_ok.
  unfold work_delete. simpl. rewrite Hh. eexists. split; [done|]. done.
Qed.

(** ** One migration *)
Section Direction.
Variables (dir : direction (Data:=Data)) (fin : preparedMigration -> rows_t -> rows_t).
Hypothesis dir_finishes : finishes_ok dir fin.

Lemma migration_ok r d tolerated p x x' rows l w :
  supported d -> due dir p rows -> ran dir p x x' -> at_ x (Some rows) l w ->
  exists w', run_migration dir r d tolerated p w = (Ok tt, w') /\ at_ x' (Some (fin p rows)) l w' /\
    (outside w -> outside w').
Proof.
  intros Hd Hp Hr H. unfold run_migration.
  destruct (sources_ok (dir_what dir) tolerated p _ _ _ _ _ _ Hr H) as (w1 & E1 & A1 & O1).
  rewrite (bind_ok _ _ _ _ _ E1). destruct (dir_finishes r d p _ _ _ _ Hd Hp A1) as (w2 & E2 & A2 & O2).
  exists w2. split; [done|]. split; [done|]. auto.
Qed.

(** A step that does its migration and reports it. *)
Definition does (stp : preparedMigration -> M outcome) : Prop :=
  forall p x x' rows l w, due dir p rows -> ran dir p x x' -> at_ x (Some rows) l w -> outside w ->
    exists w', stp p w = (([export p], None), w') /\ at_ x' (Some (fin p rows)) l w' /\ outside w'.

Lemma nontransactional_does r d : supported d -> does (nontransactional dir r d).
Proof.
  intros Hd p x x' rows l w Hp Hr H Ho. unfold nontransactional.
  destruct (migration_ok r d (dir_tolerated dir d) p _ _ _ _ _ Hd Hp Hr H) as (w1 & E1 & A1 & O1).
  rewrite (bind_ok _ _ _ _ _ E1). exists w1. auto.
Qed.

Lemma begin_ok text x h l w :
  at_ x h l w -> exists w', call text work_begin w = (Ok tt, w') /\ at_ x h l w'.
Proof. intros (? & ? & ?). rewrite call_ok. by eexists. Qed.

Lemma commit_ok x h l w :
  at_ x h l w -> exists w', commit_tx w = (Ok tt, w') /\ at_ x h l w' /\ outside w'.
Proof. intros (? & ? & ?). unfold commit_tx. rewrite call_ok. by eexists. Qed.

Lemma postgres_does r d : supported d -> does (atomic_postgres dir r d).
Proof.
  intros Hd p x x' rows l w Hp Hr H Ho. unfold atomic_postgres.
  destruct (begin_ok "BEGIN" _ _ _ _ H) as (w1 & E1 & A1). rewrite (bind_ok _ _ _ _ _ E1).
  destruct (migration_ok r d never p _ _ _ _ _ Hd Hp Hr A1) as (w2 & E2 & A2 & _).
  rewrite (bind_ok _ _ _ _ _ E2). destruct (commit_ok _ _ _ _ A2) as (w3 & E3 & A3 & O3).
  rewrite (bind_ok _ _ _ _ _ E3). by exists w3.
Qed.

Lemma applied_ok r x rows m l w :
  history_map rows = Ok m -> at_ x (Some rows) l w ->
  exists w', applied r w = (Ok m, w') /\ at_ x (Some rows) l w' /\ (outside w -> outside w').
Proof.
  intros Hm (Hx & Hh & Hl). unfold applied, bind. rewrite call_ok. unfold work_select. simpl. rewrite Hh.
  simpl. rewrite Hm. eexists. split; [done|]. done.
Qed.

Lemma mysql_does r d : supported d -> does (atomic_mysql dir r d).
Proof.
  intros Hd p x x' rows l w Hp Hr H Ho. unfold atomic_mysql. pose proof Hp as (m & Hm & Hrc).
  destruct (begin_ok "BEGIN" _ _ _ _ H) as (w1 & E1 & A1). rewrite (bind_ok _ _ _ _ _ E1).
  destruct (applied_ok r _ _ _ _ _ Hm A1) as (w2 & E2 & A2 & _). rewrite (bind_ok _ _ _ _ _ E2).
  cbv beta iota. rewrite Hrc.
  destruct (migration_ok r d (dir_tolerated dir d) p _ _ _ _ _ Hd Hp Hr A2) as (w3 & E3 & A3 & _).
  rewrite (bind_ok _ _ _ _ _ E3). destruct (commit_ok _ _ _ _ A3) as (w4 & E4 & A4 & O4).
  rewrite (bind_ok _ _ _ _ _ E4). by exists w4.
Qed.

Lemma step_does r d atomic : supported d -> does atomic -> does (step dir r d atomic).
Proof.
  intros Hd Ha p x x' rows l w. unfold step. destruct (String.eqb _ _); [by apply nontransactional_does|by apply Ha].
Qed.

Lemma loop_does stp sel acc x x' rows l w :
  does stp -> good_all fin (due dir) sel rows -> chain (ran dir) sel x x' ->
  at_ x (Some rows) l w -> outside w ->
  exists w', migrations_loop stp sel acc w = ((acc ++ exportMigrations sel, None), w') /\
    at_ x' (Some (fins fin sel rows)) l w' /\ outside w'.
Proof.
  intros Hstp. revert acc x rows w. induction sel as [|p sel IH]; intros acc x rows w; simpl.
  - intros _ -> H Ho. exists w. by rewrite app_nil_r.
  - intros [Hp Hg] (x1 & Hr & Hc) H Ho.
    destruct (Hstp p _ _ _ _ _ Hp Hr H Ho) as (w1 & E1 & A1 & O1). rewrite (bind_ok _ _ _ _ _ E1). simpl.
    destruct (IH (acc ++ [export p]) _ _ _ Hg Hc A1 O1) as (w2 & E2 & A2 & O2).
    exists w2. rewrite E2, <- app_assoc. by split.
Qed.

Lemma prepared_ok r d sel x x' rows l w :
  supported d -> good_all fin (due dir) sel rows -> chain (ran dir) sel x x' -> at_ x (Some rows) l w ->
  exists w', prepared_loop dir r d sel w = (Ok tt, w') /\ at_ x' (Some (fins fin sel rows)) l w'.
Proof.
  intros Hd. revert x rows w. induction sel as [|p sel IH]; intros x rows w; simpl.
  - intros _ -> H. by exists w.
  - intros [Hp Hg] (x1 & Hr & Hc) H.
    destruct (migration_ok r d never p _ _ _ _ _ Hd Hp Hr H) as (w1 & E1 & A1 & _).
    rewrite (bind_ok _ _ _ _ _ E1). by apply (IH _ _ _ Hg Hc A1).
Qed.

(** ** A whole run *)
Lemma ensure_ok r d x h l w :
  supported d -> at_ x h l w ->
  exists w', ensureHistory r d w = (Ok tt, w') /\ at_ x (Some (default [] h)) l w' /\ (outside w -> outside w').
Proof.
  intros Hd (Hx & Hh & Hl). unfold ensureHistory.
  assert (exists s, historyTableDDL r d = Ok s) as [s ->] by (destruct Hd as [-> |[-> | ->]]; by eexists).
  unfold bind. rewrite call_ok. unfold work_ddl. simpl. rewrite Hh. eexists. split; [done|]. done.
Qed.

Lemma selection_ok r d (select : gmap string string -> result (list preparedMigration)) x h l w m sel :
  supported d -> at_ x h l w -> history_map (default [] h) = Ok m -> select m = Ok sel ->
  exists w', select_from r d select w = (Ok sel, w') /\ at_ x (Some (default [] h)) l w' /\ (outside w -> outside w').
Proof.
  intros Hd H Hm Hs. unfold select_from.
  destruct (ensure_ok r d _ _ _ _ Hd H) as (w1 & E1 & A1 & O1). rewrite (bind_ok _ _ _ _ _ E1).
  destruct (applied_ok r _ _ _ _ _ Hm A1) as (w2 & E2 & A2 & O2). rewrite (bind_ok _ _ _ _ _ E2).
  exists w2. simpl. rewrite Hs. auto.
Qed.

(** What a run that did its work returns and leaves, the lock released. *)
Definition done_ (sel : list preparedMigration) (x' : Data) (rows : rows_t) (o : outcome) (w' : world Data) : Prop :=
  o = (exportMigrations sel, None) /\ at_ x' (Some (fins fin sel rows)) false w' /\ outside w'.

Lemma locked_ok r d atomic (select : gmap string string -> result (list preparedMigration)) x x' h w m sel :
  supported d -> does atomic -> at_ x h true w -> outside w ->
  history_map (default [] h) = Ok m -> select m = Ok sel ->
  good_all fin (due dir) sel (default [] h) -> chain (ran dir) sel x x' ->
  exists w', run_locked dir r d atomic select w = ((exportMigrations sel, None), w') /\
    at_ x' (Some (fins fin sel (default [] h))) true w' /\ outside w'.
Proof.
  intros Hd Ha H Ho Hm Hs Hg Hc. unfold run_locked.
  destruct (selection_ok r d select _ _ _ _ _ _ Hd H Hm Hs) as (w1 & E1 & A1 & O1). rewrite (bind_ok _ _ _ _ _ E1).
  apply (loop_does _ _ [] _ _ _ _ _ (step_does r d atomic Hd Ha) Hg Hc A1 (O1 Ho)).
Qed.

Lemma postgres_lock_ok {V} (zero v : V) run x h w x' h' :
  at_ x h false w -> outside w ->
  (forall w1, at_ x h true w1 -> outside w1 ->
     exists w2, run w1 = ((v, None), w2) /\ at_ x' h' true w2 /\ outside w2) ->
  exists w', withPostgreSQLLock zero run w = ((v, None), w') /\ at_ x' h' false w' /\ outside w'.
Proof.
  intros (Hx & Hh & _) Ho Hrun. unfold withPostgreSQLLock. unfold bind at 1. rewrite call_ok.
  destruct (Hrun (set_locked true (called "SELECT pg_advisory_lock(hashtextextended($1, 0))" w)))
    as (w2 & E2 & (Ax & Ah & Al) & O2); [done|done|].
  cbv beta iota. rewrite (bind_ok _ _ _ _ _ E2). unfold releasePostgreSQLLock, bind, ret. rewrite call_ok.
  unfold work_unlock. simpl. rewrite Al. by eexists.
Qed.

Lemma mysql_lock_ok {V} (zero v : V) run x h w x' h' :
  at_ x h false w -> outside w ->
  (forall w1, at_ x h true w1 -> outside w1 ->
     exists w2, run w1 = ((v, None), w2) /\ at_ x' h' true w2 /\ outside w2) ->
  exists w', withMySQLLock zero run w = ((v, None), w') /\ at_ x' h' false w' /\ outside w'.
Proof.
  intros (Hx & Hh & _) Ho Hrun. unfold withMySQLLock. unfold bind at 1. rewrite call_ok.
  unfold work_get_lock. rewrite lock_granted.
  destruct (Hrun (set_locked true (called "SELECT GET_LOCK(?, ?)" w)))
    as (w2 & E2 & (Ax & Ah & Al) & O2); [done|done|].
  cbv beta iota. simpl. rewrite (bind_ok _ _ _ _ _ E2). unfold releaseMySQLLock, bind, ret. rewrite call_ok.
  unfold work_release. simpl. rewrite Al. by eexists.
Qed.

Lemma sqlite_ok r d (select : gmap string string -> result (list preparedMigration)) x x' h w m sel :
  supported d -> at_ x h false w -> history_map (default [] h) = Ok m -> select m = Ok sel ->
  good_all fin (due dir) sel (default [] h) -> chain (ran dir) sel x x' ->
  exists w', run_sqlite dir r d select w = ((exportMigrations sel, None), w') /\
    at_ x' (Some (fins fin sel (default [] h))) false w' /\ outside w'.
Proof.
  intros Hd H Hm Hs Hg Hc. unfold run_sqlite.
  destruct (begin_ok "BEGIN IMMEDIATE" _ _ _ _ H) as (w1 & E1 & A1). rewrite (bind_ok _ _ _ _ _ E1).
  cbv beta iota.
  destruct (ensure_ok r d _ _ _ _ Hd A1) as (w2 & E2 & A2 & _).
  destruct (applied_ok r _ _ _ _ _ Hm A2) as (w3 & E3 & A3 & _).
  destruct (prepared_ok r d sel _ _ _ _ _ Hd Hg Hc A3) as (w4 & E4 & A4).
  destruct (commit_ok _ _ _ _ A4) as (w5 & E5 & A5 & O5).
  assert (sqlite_body dir r d select w1 = (Ok (exportMigrations sel), w5)) as E.
  { unfold sqlite_body. rewrite (bind_ok _ _ _ _ _ E2). unfold run_prepared. cbv beta iota.
    assert (run_prepared dir r d select w2 = (Ok (exportMigrations sel), w4)) as E'.
    { unfold run_prepared. rewrite (bind_ok _ _ _ _ _ E3). simpl. rewrite Hs.
      rewrite (bind_ok _ _ _ _ _ E4). done. }
    rewrite (bind_ok _ _ _ _ _ E'). cbv beta iota. rewrite (bind_ok _ _ _ _ _ E5). done. }
  rewrite (bind_ok _ _ _ _ _ E). by exists w5.
Qed.

Lemma engine_ok r d (select : gmap string string -> result (list preparedMigration)) x x' h w m sel :
  supported d -> at_ x h false w -> outside w -> history_map (default [] h) = Ok m -> select m = Ok sel ->
  good_all fin (due dir) sel (default [] h) -> chain (ran dir) sel x x' ->
  exists w', run_engine dir r d select w = ((exportMigrations sel, None), w') /\
    at_ x' (Some (fins fin sel (default [] h))) false w' /\ outside w'.
Proof.
  intros Hd H Ho Hm Hs Hg Hc. unfold run_engine, by_engine.
  assert (forall atomic, does atomic -> forall w1, at_ x h true w1 -> outside w1 ->
    exists w2, run_locked dir r d atomic select w1 = ((exportMigrations sel, None), w2) /\
      at_ x' (Some (fins fin sel (default [] h))) true w2 /\ outside w2) as L.
  { intros atomic Ha w1 H1 Ho1. by eapply locked_ok. }
  destruct Hd as [-> |[-> | ->]]; cbn [d_Name String.eqb].
  - change (d_Name PostgreSQL) with "postgresql". simpl.
    apply (postgres_lock_ok _ _ _ _ _ _ _ _ H Ho). apply L, postgres_does. by left.
  - change (d_Name MySQL) with "mysql". simpl.
    apply (mysql_lock_ok _ _ _ _ _ _ _ _ H Ho). apply L, mysql_does. right; by left.
  - change (d_Name SQLite) with "sqlite". simpl. eapply sqlite_ok; eauto. right; by right.
Qed.
End Direction.

(** ** The selections are due *)
Lemma due_up ps k limit rows :
  SortedIds ps -> k <= length ps -> history_map rows = Ok (recorded (take k ps)) ->
  good_all add_row (due up) (drop k (take limit ps)) rows.
Proof.
  intros Hs Hk Hm. eapply good_all_mono; [|by apply (fresh_up _ _ _ _ Hs Hk Hm)].
  intros p rows' _ Hf. eexists. split; [apply history_map_intro, Hf|]. simpl.
  by rewrite (fresh_proceeds _ _ _ Hf (history_map_intro _ (proj1 Hf))).
Qed.

Lemma due_down_all sel rows :
  NoDup rows.*1 -> NoDup (id <$> sel) -> (forall p, p ∈ sel -> row_of p ∈ rows) ->
  good_all remove_row (due down_) sel rows.
Proof.
  revert rows. induction sel as [|p sel IH]; intros rows Hnd Hn Hin; simpl; [done|].
  inversion Hn as [|? ? Hp Hn']; subst.
  assert (forall i c, (i, c) ∈ remove_row p rows <-> i <> id p /\ (i, c) ∈ rows) as Hrow.
  { intros i c. unfold remove_row. by rewrite (list_elem_of_filter (A:=string * string)). }
  split.
  - eexists. split; [by apply history_map_intro|]. simpl.
    rewrite (elem_of_list_to_map_1 _ _ (pm_checksum p) Hnd) by (apply Hin; by left).
    by rewrite String.eqb_refl.
  - apply IH; [|done|].
    + destruct (history_filter rows _ (fun i => i <> id p) (history_map_intro _ Hnd)) as (m' & Hm' & _).
      by apply history_map_ok in Hm' as [? _].
    + intros q Hq. apply Hrow. split; [|by apply Hin; right].
      intros He. apply Hp. rewrite <- He. by apply list_elem_of_fmap_2.
Qed.

Lemma rev_ids (l : list preparedMigration) : NoDup (id <$> l) -> NoDup (id <$> rev l).
Proof.
  intros Hn%NoDup_ListNoDup. apply NoDup_ListNoDup. change (List.NoDup (map id (rev l))).
  rewrite map_rev. by apply List.NoDup_rev.
Qed.

Lemma due_down ps k n rows m :
  SortedIds ps -> history_map rows = Ok m -> Forall (revertible m) (newest n (take k ps)) ->
  good_all remove_row (due down_) (newest n (take k ps)) rows.
Proof.
  intros Hs [Hnd ->]%history_map_ok Hf. apply due_down_all; [done| |].
  - pose proof (SortedIds_nodup _ (SortedIds_take k _ Hs)) as Hn. unfold newest.
    rewrite <- (take_drop (length (take k ps) - n) (take k ps)), fmap_app in Hn.
    apply NoDup_app in Hn as (_ & _ & Hn). by apply rev_ids.
  - intros p Hp. rewrite Forall_forall in Hf. destruct (Hf p Hp) as [Hrec _].
    by apply (row_lookup _ _ _ Hnd).
Qed.

Lemma connection_ok {A} r d l ps (failed : error -> A) run x h lk w :
  runner_validate r = Ok d -> prepareMigrations l = Ok ps -> at_ x h lk w -> outside w ->
  exists w1, with_connection r l failed run w = run d ps w1 /\ at_ x h lk w1 /\ outside w1.
Proof.
  intros Hr Hp H Ho. unfold with_connection. rewrite Hr, Hp. unfold bind. rewrite call_ok. by eexists.
Qed.

(** C11 A run that nothing disturbs does its work. When no call fails, the lock
    is granted and the history is one the target can be selected from, Apply
    and Revert on each of the three engines terminate without an error as soon
    as the server accepts the sources of the selected migrations: they report
    exactly the selection, leave what its sources leave one after the other,
    have added or removed exactly its history rows, have no transaction open
    and hold no lock. *)
Theorem undisturbed_runs (r : Runner) (d : Dialect) (l : list Migration) (ps : list preparedMigration)
  (w : world Data) (m : gmap string string) :
  ranges_ids range_ids -> supported d -> runner_validate r = Ok d -> prepareMigrations l = Ok ps ->
  saved w = None -> locked w = false -> history_map (rows_of w) = Ok m ->
  (forall target sel x', selectApplies range_ids m ps target = Ok sel -> chain (ran up) sel (data w) x' ->
     exists w', Apply r target l w = ((exportMigrations sel, None), w') /\
       data w' = x' /\ history w' = Some (rows_of w ++ (row_of <$> sel)) /\ locked w' = false /\ saved w' = None) /\
  (forall target sel x', selectReverts range_ids m ps target = Ok sel -> chain (ran down_) sel (data w) x' ->
     exists w', Revert r target l w = ((exportMigrations sel, None), w') /\
       data w' = x' /\ history w' = Some (filter (fun row => fst row ∉ id <$> sel) (rows_of w)) /\
       locked w' = false /\ saved w' = None).
Proof.
  intros Hrg Hd Hr Hp Hs Hl Hm. pose proof (proj1 (prepareMigrations_ok _ _ Hp)) as Hsort.
  assert (at_ (data w) (history w) false w) as H by done.
  split; intros target sel x' Hsel Hc.
  - pose proof Hsel as (k & limit & Hk & -> & _ & ->)%(selectApplies_spec _ _ _ _ _ Hsort Hrg).
    destruct (connection_ok r d l ps failed_run (fun d prepared =>
      run_engine up r d (fun m => selectApplies range_ids m prepared target)) _ _ _ _ Hr Hp H Hs) as (w1 & E1 & A1 & O1).
    destruct (engine_ok up add_row finishes_ok_up r d (fun m => selectApplies range_ids m ps target)
      _ x' _ _ _ _ Hd A1 O1 Hm Hsel (due_up _ _ _ _ Hsort Hk Hm) Hc) as (w' & E & (? & Hh & ?) & ?).
    exists w'. split; [exact (eq_trans E1 E)|]. rewrite Hh. by rewrite fins_up.
  - pose proof Hsel as (k & n & Hcov & _ & -> & Hf)%(selectReverts_spec _ _ _ _ _ Hsort Hrg).
    destruct (connection_ok r d l ps failed_run (fun d prepared =>
      run_engine down_ r d (fun m => selectReverts range_ids m prepared target)) _ _ _ _ Hr Hp H Hs) as (w1 & E1 & A1 & O1).
    destruct (engine_ok down_ remove_row finishes_ok_down r d (fun m => selectReverts range_ids m ps target)
      _ x' _ _ _ _ Hd A1 O1 Hm Hsel (due_down _ _ _ _ _ Hsort Hm Hf) Hc) as (w' & E & (? & Hh & ?) & ?).
    exists w'. split; [exact (eq_trans E1 E)|]. rewrite Hh. by rewrite fins_down.
Qed.
End Progress.

Section Steady.
#[local] Instance steady_server : Server (list string) := log_server true steady.
Lemma undisturbed_runs_witness :
  exists w', Apply (sample_runner MySQL) AllPending sample_migrations (start None)
      = ((exportMigrations sample_prepared, None), w') /\
    data w' = ["CREATE TABLE a (id INTEGER)"; "CREATE TABLE b (id INTEGER)"] /\
    history w' = Some (row_of <$> sample_prepared) /\ locked w' = false.
Proof.
  destruct (proj1 (undisturbed_runs (server := steady_server) (fun _ => eq_refl) (fun _ => eq_refl) (sample_runner MySQL) MySQL sample_migrations
    sample_prepared (start None) ∅ map_ids_ranges (or_intror (or_introl eq_refl)) eq_refl sample_prepared_ok
    eq_refl eq_refl eq_refl) AllPending sample_prepared ["CREATE TABLE a (id INTEGER)"; "CREATE TABLE b (id INTEGER)"])
    as (w' & H1 & H2 & H3 & H4 & _).
  - vm_compute. reflexivity.
  - vm_compute. eexists. split; [reflexivity|]. eexists. split; reflexivity.
  - exists w'. split; [exact H1|]. split; [exact H2|]. split; [exact H3|exact H4].
Defined.
End Steady.
