(* ===== verification/MigrationOrder.v ===== *)
(** * MigrationOrder: [internal/migrationorder/tables.go]

    The creation order of newly added tables: Kahn's algorithm over their
    foreign keys, always taking the smallest key that is ready.  Go visits its
    maps in an unspecified order; the orders are parameters, and the theorems
    show that the result does not depend on them. *)

From S2P Require Import Prelude GoText.
Open Scope string_scope.
Open Scope list_scope.
Open Scope nat_scope.

(** ** The code *)
Record TableDependency := MkDependency { Key : string; Display : string; DependsOn : list string }.

(** [byKey], refusing empty and repeated keys. *)
Definition index_tables (tables : list TableDependency) : result (gmap string TableDependency) :=
  foldi (fun _ t (byKey : gmap string TableDependency) =>
    if String.eqb (Key t) "" then Err (errors_New "migration order: table key must not be empty")
    else match byKey !! Key t with
    | Some _ => Err (Errorf "migration order: duplicate table key %q" [AStr (Key t)])
    | None => Ok (<[Key t := t]> byKey)
    end) 0 tables ∅.

(** The two maps the loops fill. *)
Record graph := MkGraph { indegree : gmap string Z; dependents : gmap string (gset string) }.
Definition degree (m : gmap string Z) (k : string) : Z := default 0%Z (m !! k).
Definition start_graph (tables : list TableDependency) : graph :=
  fold_left (fun g t => MkGraph (<[Key t := 0%Z]> (indegree g)) (<[Key t := ∅]> (dependents g)))
    tables (MkGraph ∅ ∅).
Definition add_edge (dependency key : string) (g : graph) : graph :=
  MkGraph (<[key := (degree (indegree g) key + 1)%Z]> (indegree g))
          (<[dependency := {[ key ]} ∪ default ∅ (dependents g !! dependency)]> (dependents g)).
Definition dependency_step (byKey : gmap string TableDependency) (key : string)
  (st : graph * gset string) (dependency : string) : graph * gset string :=
  if String.eqb dependency key then st
  else match byKey !! dependency with
  | None => st
  | Some _ =>
      if bool_decide (dependency ∈ st.2) then st
      else (add_edge dependency key st.1, {[ dependency ]} ∪ st.2)
  end.
Definition add_table (byKey : gmap string TableDependency) (g : graph) (t : TableDependency) : graph :=
  fst (fold_left (dependency_step byKey (Key t)) (DependsOn t) (g, ∅)).
Definition build_graph (byKey : gmap string TableDependency) (tables : list TableDependency) : graph :=
  fold_left (add_table byKey) tables (start_graph tables).

Section Order.
(** The orders in which Go visits a set and a map of degrees. *)
Variable range_set : gset string -> list string.
Variable range_degrees : gmap string Z -> list (string * Z).

(** The inner loop: the tables waiting for the one just taken. *)
Definition release_step (st : gmap string Z * list string) (dependent : string) : gmap string Z * list string :=
  let n := (degree st.1 dependent - 1)%Z in
  (<[dependent := n]> st.1, if Z.eqb n 0 then st.2 ++ [dependent] else st.2).
Definition release (waiting : gset string) (degrees : gmap string Z) (ready : list string)
  : gmap string Z * list string :=
  fold_left release_step (range_set waiting) (degrees, ready).

(** [for len(ready) > 0]; each turn appends to [ordered].  [None]: out of fuel. *)
Fixpoint order_loop (fuel : nat) (waits : gmap string (gset string)) (degrees : gmap string Z)
  (ready ordered : list string) : option (gmap string Z * list string) :=
  match ready with
  | [] => Some (degrees, ordered)
  | key :: ready' =>
      match fuel with
      | 0 => None
      | S fuel' =>
          let st := release (default ∅ (waits !! key)) degrees ready' in
          order_loop fuel' waits st.1 (sort_Strings st.2) (ordered ++ [key])
      end
  end.

Definition ready_keys (degrees : gmap string Z) : list string :=
  sort_Strings (omap (fun kd : string * Z => if Z.eqb kd.2 0 then Some kd.1 else None) (range_degrees degrees)).
Definition display_of (byKey : gmap string TableDependency) (k : string) : string :=
  match byKey !! k with Some t => Display t | None => "" end.
Definition remaining_displays (byKey : gmap string TableDependency) (degrees : gmap string Z) : list string :=
  sort_Strings (omap (fun kd : string * Z => if (0 <? kd.2)%Z then Some (display_of byKey kd.1) else None)
    (range_degrees degrees)).
Definition cycle_error (displays : list string) : error :=
  Errorf "migration order: tables %s form a foreign-key cycle; no CREATE TABLE order can satisfy the foreign keys"
    [AStr (Join displays ", ")].

Definition OrderTables (tables : list TableDependency) : option (result (list string)) :=
  match index_tables tables with
  | Err e => Some (Err e)
  | Ok byKey =>
      let g := build_graph byKey tables in
      match order_loop (length tables) (dependents g) (indegree g) (ready_keys (indegree g)) [] with
      | None => None
      | Some (degrees, ordered) =>
          Some (if length ordered =? length tables then Ok ordered
                else Err (cycle_error (remaining_displays byKey degrees)))
      end
  end.
End Order.

(** ** What an order is *)
Definition keys (tables : list TableDependency) : list string := Key <$> tables.
(** A dependency that counts: on another table of the set. *)
Definition depends (tables : list TableDependency) (k d : string) : Prop :=
  exists t, t ∈ tables /\ Key t = k /\ d ∈ DependsOn t /\ d <> k /\ d ∈ keys tables.

(** Every table of the set once, each after the tables it depends on. *)
Definition creation_order (tables : list TableDependency) (l : list string) : Prop :=
  l ≡ₚ keys tables /\ forall i k d, l !! i = Some k -> depends tables k d -> d ∈ take i l.
(** No smaller table could have come earlier. *)
Definition smallest_first (tables : list TableDependency) (l : list string) : Prop :=
  forall i k k', l !! i = Some k -> k' ∈ keys tables -> k' ∉ take i l ->
    (forall d, depends tables k' d -> d ∈ take i l) -> str_le k k'.
(** Tables none of which can be created first. *)
Definition blocked (tables : list TableDependency) (k : string) : Prop :=
  exists B : gset string, k ∈ B /\ forall b, b ∈ B -> b ∈ keys tables /\ exists d, d ∈ B /\ depends tables b d.

Lemma index_tables_loop tables i acc byKey :
  foldi (fun _ t (byKey : gmap string TableDependency) =>
    if String.eqb (Key t) "" then Err (errors_New "migration order: table key must not be empty")
    else match byKey !! Key t with
    | Some _ => Err (Errorf "migration order: duplicate table key %q" [AStr (Key t)])
    | None => Ok (<[Key t := t]> byKey)
    end) i tables acc = Ok byKey <->
  (forall t, t ∈ tables -> Key t <> "" /\ acc !! Key t = None) /\ NoDup (keys tables) /\
  byKey = list_to_map ((fun t => (Key t, t)) <$> tables) ∪ acc.
Proof.
  revert i acc. induction tables as [|t tables IH]; intros i acc; simpl.
  - rewrite (left_id_L ∅ (∪)). split; [intros [= ->]|intros (_ & _ & ->); done].
    split_and!; [by intros ? ?%not_elem_of_nil|constructor|done].
  - destruct (String.eqb_spec (Key t) "") as [He|He].
    { split; [done|]. intros (H & _). by destruct (H t ltac:(by left)). }
    destruct (acc !! Key t) eqn:Ea.
    { split; [done|]. intros (H & _). destruct (H t ltac:(by left)). congruence. }
    rewrite IH. clear IH. change (keys (t :: tables)) with (Key t :: keys tables).
    rewrite NoDup_cons. unfold keys. split.
    + intros (H1 & H2 & ->). split_and!.
      * intros u [->|Hu]%elem_of_cons; [done|]. destruct (H1 u Hu) as [K1 K2].
        split; [done|]. apply lookup_insert_None in K2 as [? _]. done.
      * intros (u & Hu & Hin)%list_elem_of_fmap. destruct (H1 u Hin) as [_ K].
        rewrite <- Hu, lookup_insert_eq in K. done.
      * done.
      * rewrite <- insert_union_l. symmetry. apply insert_union_r. apply not_elem_of_list_to_map_1.
        rewrite <- list_fmap_compose. intros (u & Hu & Hin)%list_elem_of_fmap. simpl in Hu.
        destruct (H1 u Hin) as [_ K]. rewrite <- Hu, lookup_insert_eq in K. done.
    + intros (H1 & [H2 H3] & ->). split_and!; [|done|].
      * intros u Hu. destruct (H1 u ltac:(by right)) as [K1 K2]. split; [done|].
        rewrite lookup_insert_ne; [done|]. intros E. apply H2. rewrite E. by apply list_elem_of_fmap_2.
      * rewrite <- insert_union_l. apply insert_union_r. apply not_elem_of_list_to_map_1.
        by rewrite <- list_fmap_compose.
Qed.

Lemma index_tables_ok tables byKey :
  index_tables tables = Ok byKey ->
  NoDup (keys tables) /\ (forall t, t ∈ tables -> Key t <> "") /\ (forall k, is_Some (byKey !! k) <-> k ∈ keys tables).
Proof.
  unfold index_tables. intros (H1 & H2 & ->)%index_tables_loop. rewrite (right_id_L ∅ (∪)).
  split_and!; [done|by intros t [? _]%H1|]. intros k.
  assert (keys tables = ((fun t => (Key t, t)) <$> tables).*1) as E by (by rewrite <- list_fmap_compose).
  split.
  - intros [t Ht%elem_of_list_to_map_2]. rewrite E. by apply (list_elem_of_fmap_2 fst) in Ht.
  - intros Hk. apply not_eq_None_Some. intros Hn%not_elem_of_list_to_map. by rewrite <- E in Hn.
Qed.

(** ** The graph *)
(** [N k] are the dependencies recorded for [k]. *)
Definition graph_is (tables : list TableDependency) (N : string -> gset string) (g : graph) : Prop :=
  (forall k, k ∈ keys tables -> indegree g !! k = Some (Z.of_nat (size (N k)))) /\
  (forall k, k ∉ keys tables -> indegree g !! k = None) /\
  (forall d, d ∈ keys tables -> exists s, dependents g !! d = Some s /\ forall k, k ∈ s <-> d ∈ N k).

Lemma start_lookup ts g :
  let g' := fold_left (fun g t => MkGraph (<[Key t := 0%Z]> (indegree g)) (<[Key t := ∅]> (dependents g))) ts g in
  (forall k, k ∈ keys ts -> indegree g' !! k = Some 0%Z /\ dependents g' !! k = Some ∅) /\
  (forall k, k ∉ keys ts -> indegree g' !! k = indegree g !! k /\ dependents g' !! k = dependents g !! k).
Proof.
  revert g. induction ts as [|t ts IH]; intros g; simpl; [by split; [intros k ?%not_elem_of_nil|]|].
  destruct (IH (MkGraph (<[Key t := 0%Z]> (indegree g)) (<[Key t := ∅]> (dependents g)))) as [H1 H2].
  change (keys (t :: ts)) with (Key t :: keys ts). split.
  - intros k Hk. destruct (decide (k ∈ keys ts)) as [Hin|Hin]; [by apply H1|].
    apply elem_of_cons in Hk as [-> |Hk]; [|done]. destruct (H2 _ Hin) as [-> ->]. simpl. by rewrite !lookup_insert_eq.
  - intros k [Hne Hin]%not_elem_of_cons. destruct (H2 _ Hin) as [-> ->]. simpl. by rewrite !lookup_insert_ne.
Qed.

Lemma start_graph_is tables : graph_is tables (fun _ => ∅) (start_graph tables).
Proof.
  destruct (start_lookup tables (MkGraph ∅ ∅)) as [H1 H2]. split_and!.
  - intros k Hk. by apply H1.
  - intros k Hk. exact (proj1 (H2 k Hk)).
  - intros d Hd. exists ∅. split; [by apply H1|]. intros k. by rewrite !elem_of_empty.
Qed.

Lemma size_insert_new (d : string) (X : gset string) : d ∉ X -> size ({[ d ]} ∪ X) = S (size X).
Proof. intros H. rewrite size_union by set_solver. by rewrite size_singleton. Qed.

Lemma add_edge_is tables N g d k :
  graph_is tables N g -> d ∈ keys tables -> k ∈ keys tables -> d ∉ N k ->
  graph_is tables (fun j => if decide (j = k) then {[ d ]} ∪ N k else N j) (add_edge d k g).
Proof.
  intros (H1 & H2 & H3) Hd Hk Hn. split_and!; simpl.
  - intros j Hj. destruct (decide (j = k)) as [-> |Hne].
    + rewrite lookup_insert_eq. unfold degree. rewrite (H1 k Hk). simpl. f_equal.
      rewrite size_insert_new by set_solver. lia.
    + rewrite lookup_insert_ne by done. by apply H1.
  - intros j Hj. rewrite lookup_insert_ne by (intros ->; done). by apply H2.
  - intros e He. destruct (H3 e He) as (s & Hs & Hin). destruct (decide (e = d)) as [-> |Hne].
    + rewrite lookup_insert_eq, Hs. eexists. split; [done|]. intros j. simpl.
      rewrite elem_of_union, elem_of_singleton, Hin. destruct (decide (j = k)) as [-> |]; set_solver.
    + rewrite lookup_insert_ne by done. exists s. split; [done|]. intros j. rewrite Hin.
      destruct (decide (j = k)) as [-> |]; set_solver.
Qed.

Section Built.
Variables (tables : list TableDependency) (byKey : gmap string TableDependency).
Hypothesis byKey_keys : forall k, is_Some (byKey !! k) <-> k ∈ keys tables.

Lemma dependency_steps k ds N g seen :
  k ∈ keys tables -> graph_is tables N g -> N k = seen ->
  exists N', graph_is tables N' (fst (fold_left (dependency_step byKey k) ds (g, seen))) /\
    (forall j, j <> k -> N' j = N j) /\
    forall d, d ∈ N' k <-> d ∈ seen \/ (d ∈ ds /\ d <> k /\ d ∈ keys tables).
Proof.
  intros Hk. revert N g seen. induction ds as [|d ds IH]; intros N g seen Hg Hs; simpl.
  - exists N. split_and!; [done|done|]. intros d. rewrite Hs. split; [by left|]. intros [?|(?%not_elem_of_nil & _)]; done.
  - unfold dependency_step at 2. destruct (String.eqb_spec d k) as [-> |Hne].
    { destruct (IH N g seen Hg Hs) as (N' & H1 & H2 & H3). exists N'. split_and!; [done|done|].
      intros e. rewrite H3, elem_of_cons. naive_solver. }
    destruct (byKey !! d) as [t|] eqn:E.
    2:{ assert (d ∉ keys tables) as Hd by (intros Hd%byKey_keys; rewrite E in Hd; by destruct Hd).
        destruct (IH N g seen Hg Hs) as (N' & H1 & H2 & H3). exists N'. split_and!; [done|done|].
      intros e. rewrite H3, elem_of_cons. naive_solver. }
    assert (d ∈ keys tables) as Hd by (apply byKey_keys; by eexists). simpl.
    case_bool_decide as Hin.
    { destruct (IH N g seen Hg Hs) as (N' & H1 & H2 & H3). exists N'. split_and!; [done|done|].
      intros e. rewrite H3, elem_of_cons. naive_solver. }
    destruct (IH _ _ ({[ d ]} ∪ seen) (add_edge_is _ _ _ d k Hg Hd Hk ltac:(by rewrite Hs))) as (N' & H1 & H2 & H3).
    { rewrite decide_True by done. by rewrite Hs. }
    exists N'. split_and!; [done| |].
    + intros j Hj. by rewrite H2, decide_False by done.
    + intros e. rewrite H3, elem_of_cons, elem_of_union, elem_of_singleton. naive_solver.
Qed.

Lemma tables_steps ts N g :
  NoDup (keys ts) -> (forall t, t ∈ ts -> Key t ∈ keys tables /\ N (Key t) = ∅) -> graph_is tables N g ->
  exists N', graph_is tables N' (fold_left (add_table byKey) ts g) /\
    forall k d, d ∈ N' k <-> d ∈ N k \/ exists t, t ∈ ts /\ Key t = k /\ d ∈ DependsOn t /\ d <> k /\ d ∈ keys tables.
Proof.
  revert N g. induction ts as [|t ts IH]; intros N g Hn Ht Hg; simpl.
  - exists N. split; [done|]. intros k d. split; [by left|]. intros [?|(t & Hin & _)]; [done|by apply not_elem_of_nil in Hin].
  - change (keys (t :: ts)) with (Key t :: keys ts) in Hn. apply NoDup_cons in Hn as [Hni Hn].
    destruct (Ht t ltac:(by left)) as [Hk He].
    destruct (dependency_steps (Key t) (DependsOn t) N g ∅ Hk Hg He) as (N1 & H1 & H2 & H3).
    destruct (IH N1 (add_table byKey g t) Hn) as (N2 & H4 & H5); [|exact H1|].
    + intros u Hu. destruct (Ht u ltac:(by right)) as [Hu1 Hu2]. split; [done|]. rewrite H2; [done|].
      intros E. apply Hni. rewrite <- E. by apply list_elem_of_fmap_2.
    + exists N2. split; [exact H4|]. intros k d. rewrite H5.
      assert (forall u, u ∈ t :: ts <-> u = t \/ u ∈ ts) as Hc by (intros u; apply elem_of_cons). setoid_rewrite Hc.
      destruct (decide (k = Key t)) as [-> |Hne].
      * rewrite H3, He. split.
        -- intros [[?|(? & ? & ?)]|(u & ? & ?)]; [set_solver|right; exists t; naive_solver|right; exists u; naive_solver].
        -- intros [?|(u & [-> |Hu] & ?)]; [set_solver|left; right; naive_solver|right; by exists u].
      * rewrite (H2 k Hne). split; [naive_solver|].
        intros [?|(u & [-> |Hu] & ?)]; [by left|naive_solver|right; by exists u].
Qed.
End Built.

(** The graph records exactly the dependencies that count. *)
Lemma build_graph_is tables byKey :
  index_tables tables = Ok byKey ->
  exists N, graph_is tables N (build_graph byKey tables) /\ forall k d, d ∈ N k <-> depends tables k d.
Proof.
  intros (Hn & _ & Hb)%index_tables_ok. unfold build_graph.
  destruct (tables_steps tables byKey Hb tables (fun _ => ∅) (start_graph tables) Hn) as (N & H1 & H2).
  - intros t Ht. split; [by apply list_elem_of_fmap_2|done].
  - apply start_graph_is.
  - exists N. split; [done|]. intros k d. rewrite H2. unfold depends. split; [|by right]. intros [?%elem_of_empty|?]; done.
Qed.

(** ** The loop *)
Lemma degree_insert_ne m j k z : k <> j -> degree (<[k := z]> m) j = degree m j.
Proof. intros H. unfold degree. by rewrite lookup_insert_ne. Qed.

Lemma release_fold l degrees ready :
  NoDup l ->
  (forall k, k ∈ l -> (fold_left release_step l (degrees, ready)).1 !! k = Some (degree degrees k - 1)%Z) /\
  (forall k, k ∉ l -> (fold_left release_step l (degrees, ready)).1 !! k = degrees !! k) /\
  (fold_left release_step l (degrees, ready)).2 = ready ++ filter (fun k => degree degrees k = 1%Z) l.
Proof.
  revert degrees ready. induction l as [|k l IH]; intros degrees ready Hn; simpl.
  { rewrite app_nil_r. split_and!; [by intros k ?%not_elem_of_nil|done|done]. }
  apply NoDup_cons in Hn as [Hk Hn]. unfold release_step at 2 4 6. simpl.
  destruct (IH (<[k := (degree degrees k - 1)%Z]> degrees)
    (if Z.eqb (degree degrees k - 1) 0 then ready ++ [k] else ready) Hn) as (H1 & H2 & H3).
  split_and!.
  - intros j [-> |Hj]%elem_of_cons; [by rewrite (H2 k Hk), lookup_insert_eq|].
    rewrite (H1 j Hj). by rewrite degree_insert_ne by (intros ->; done).
  - intros j [Hne Hj]%not_elem_of_cons. rewrite (H2 j Hj). by rewrite lookup_insert_ne by done.
  - rewrite H3. assert (filter (fun j => degree (<[k := (degree degrees k - 1)%Z]> degrees) j = 1%Z) l
                        = filter (fun j => degree degrees j = 1%Z) l) as ->.
    { clear H1 H2 H3 IH Hn. induction l as [|j l IHl]; [done|]. apply not_elem_of_cons in Hk as [Hne Hk].
      rewrite !filter_cons. rewrite (IHl Hk). by rewrite degree_insert_ne by done. }
    rewrite filter_cons. destruct (decide (degree degrees k = 1%Z)) as [E|E].
    + rewrite E. simpl. by rewrite <- app_assoc.
    + destruct (Z.eqb_spec (degree degrees k - 1) 0); [lia|done].
Qed.

Section Loop.
Variables (range_set : gset string -> list string) (tables : list TableDependency) (N : string -> gset string)
  (waits : gmap string (gset string)).
Hypothesis range_set_elements : forall s, range_set s ≡ₚ elements s.
Hypothesis N_keys : forall k d, d ∈ N k -> k ∈ keys tables /\ d ∈ keys tables.
Hypothesis waits_is : forall d, d ∈ keys tables -> exists s, waits !! d = Some s /\ (forall k, k ∈ s <-> d ∈ N k).

(** [k] can be created once [made] exists. *)
Definition free (made : list string) (k : string) : Prop :=
  k ∈ keys tables /\ ~ (k ∈ made) /\ (forall d, d ∈ N k -> d ∈ made).
(** Each key of [l] was the smallest free one when it was taken. *)
Definition taken (l : list string) : Prop :=
  forall i k, l !! i = Some k -> free (take i l) k /\ forall k', free (take i l) k' -> str_le k k'.

Record loop_inv (degrees : gmap string Z) (ready ordered : list string) : Prop := {
  inv_degrees : forall k, k ∈ keys tables ->
    degrees !! k = Some (Z.of_nat (size (N k ∖ list_to_set ordered)));
  inv_none : forall k, k ∉ keys tables -> degrees !! k = None;
  inv_ready : forall k, k ∈ ready <-> free ordered k;
  inv_nodup : NoDup ready;
  inv_sorted : StronglySorted str_le ready;
  inv_ordered : NoDup ordered;
  inv_taken : taken ordered }.

Lemma size_after (k key : string) (ordered : list string) :
  key ∉ ordered ->
  Z.of_nat (size (N k ∖ list_to_set (ordered ++ [key]))) =
  (Z.of_nat (size (N k ∖ list_to_set ordered)) - if decide (key ∈ N k) then 1 else 0)%Z.
Proof.
  intros Hk. rewrite list_to_set_app_L. simpl. rewrite (right_id_L ∅ (∪)).
  destruct (decide (key ∈ N k)) as [Hin|Hin].
  - assert (N k ∖ list_to_set ordered = {[ key ]} ∪ N k ∖ (list_to_set ordered ∪ {[ key ]})) as ->.
    { apply set_eq. intros x. rewrite elem_of_union, !elem_of_difference, elem_of_union, elem_of_singleton,
        elem_of_list_to_set. destruct (decide (x = key)) as [-> |]; naive_solver. }
    rewrite size_insert_new by set_solver. lia.
  - replace (N k ∖ (list_to_set ordered ∪ {[ key ]})) with (N k ∖ list_to_set ordered); [lia|].
    apply set_eq. intros x. rewrite !elem_of_difference, elem_of_union, elem_of_singleton. naive_solver.
Qed.

Lemma size_zero (k : string) (ordered : list string) :
  size (N k ∖ list_to_set ordered) = 0 <-> forall d, d ∈ N k -> d ∈ ordered.
Proof.
  rewrite size_empty_iff. split.
  - intros H d Hd. destruct (decide (d ∈ ordered)) as [|Hn]; [done|].
    exfalso. apply (not_elem_of_empty (C:=gset string) d), H. by rewrite elem_of_difference, elem_of_list_to_set.
  - intros H d. rewrite elem_of_difference, elem_of_list_to_set. split; [intros [Hd Hn]; by destruct Hn; apply H|].
    by intros ?%elem_of_empty.
Qed.

Lemma taken_snoc ordered key :
  taken ordered -> free ordered key -> (forall k, free ordered k -> str_le key k) -> taken (ordered ++ [key]).
Proof.
  intros Ht Hf Hs i k Hi. apply lookup_app_Some in Hi as [Hi|[Hle Hi]].
  - pose proof (lookup_lt_Some _ _ _ Hi). rewrite take_app_le by lia. by apply Ht.
  - apply list_lookup_singleton_Some in Hi as [Hi <-]. replace i with (length ordered) by lia.
    by rewrite take_app_length.
Qed.

Lemma loop_step degrees key ready ordered :
  loop_inv degrees (key :: ready) ordered ->
  let st := release range_set (default ∅ (waits !! key)) degrees ready in
  loop_inv st.1 (sort_Strings st.2) (ordered ++ [key]).
Proof.
  intros [Hdeg Hnone Hrdy Hnd Hso Hno Htk]. pose proof (proj1 (Hrdy key) ltac:(by left)) as (Hk & Hko & Hkd).
  destruct (waits_is key Hk) as (s & -> & Hs). simpl. unfold release.
  assert (NoDup (range_set s)) as Hns by (rewrite range_set_elements; apply NoDup_elements).
  assert (forall k, k ∈ range_set s <-> key ∈ N k) as Hin.
  { intros k. rewrite range_set_elements, elem_of_elements. apply Hs. }
  destruct (release_fold (range_set s) degrees ready Hns) as (R1 & R2 & R3).
  apply NoDup_cons in Hnd as [Hkr Hnr].
  assert (forall k, k ∈ keys tables -> degree degrees k = Z.of_nat (size (N k ∖ list_to_set ordered))) as Hd.
  { intros k Hkk. unfold degree. by rewrite (Hdeg k Hkk). }
  assert (forall k, k ∈ filter (fun k => degree degrees k = 1%Z) (range_set s) <->
            key ∈ N k /\ free (ordered ++ [key]) k) as Hnew.
  { intros k. rewrite list_elem_of_filter, Hin. split.
    - intros [H1 HkN]. destruct (N_keys _ _ HkN) as [Hkk _]. rewrite (Hd k Hkk) in H1.
      pose proof (size_after k key ordered Hko) as Hz. rewrite decide_True in Hz by done.
      assert (size (N k ∖ list_to_set (ordered ++ [key])) = 0) as Hz0 by lia. split; [done|].
      split_and!; [done| |by apply size_zero].
      rewrite elem_of_app, list_elem_of_singleton. intros [Hko'|E]; [|by subst k; apply Hko, Hkd].
      apply list_elem_of_lookup in Hko' as [i Hi]. destruct (Htk i k Hi) as [(_ & _ & Hfree) _].
      apply Hko. apply Hfree, elem_of_take in HkN as (? & HkN & _). by apply list_elem_of_lookup_2 in HkN.
    - intros [HkN (Hkk & _ & Hfree)]. split; [|done]. rewrite (Hd k Hkk).
      pose proof (size_after k key ordered Hko) as Hz. rewrite decide_True in Hz by done.
      apply size_zero in Hfree. lia. }
  split.
  - intros k Hkk. rewrite (size_after k key ordered Hko). destruct (decide (key ∈ N k)) as [HkN|HkN].
    + rewrite R1 by (by apply Hin). by rewrite (Hd k Hkk).
    + rewrite R2 by (by rewrite Hin). rewrite (Hdeg k Hkk). f_equal. lia.
  - intros k Hkk. rewrite R2; [by apply Hnone|]. rewrite Hin. intros [? _]%N_keys. done.
  - intros k. rewrite sort_Strings_perm, R3, elem_of_app, Hnew. split.
    + intros [Hr|[_ Hf]]; [|done]. destruct (proj1 (Hrdy k) ltac:(by right)) as (Ha & Hb & Hc).
      split_and!; [done| |intros d Hdd; rewrite elem_of_app; left; by apply Hc].
      rewrite elem_of_app, list_elem_of_singleton. intros [?|E]; [done|]. by subst k.
    + intros (Ha & Hb & Hc). rewrite elem_of_app, list_elem_of_singleton in Hb.
      destruct (decide (key ∈ N k)) as [HkN|HkN].
      * right. split; [done|]. split_and!; [done| |done]. rewrite elem_of_app, list_elem_of_singleton. naive_solver.
      * left. assert (k ∈ key :: ready) as Hr.
        { apply Hrdy. split_and!; [done|naive_solver|]. intros d Hdd. pose proof (Hc d Hdd) as Hdo.
          rewrite elem_of_app, list_elem_of_singleton in Hdo. destruct Hdo as [?|E]; [done|]. by subst d. }
        apply elem_of_cons in Hr as [E|?]; [|done]. naive_solver.
  - rewrite sort_Strings_perm, R3. apply NoDup_app. split_and!; [done| |by apply NoDup_filter].
    intros k Hr [HkN (_ & Hno' & _)]%Hnew. destruct (proj1 (Hrdy k) ltac:(by right)) as (_ & _ & Hc).
    by apply Hko, Hc.
  - apply sort_Strings_sorted.
  - apply NoDup_app. split_and!; [done| |by apply NoDup_singleton].
    intros k Hko' E%list_elem_of_singleton. by subst k.
  - apply taken_snoc; [done|by apply Hrdy; left|]. intros k Hf%Hrdy.
    apply elem_of_cons in Hf as [-> |Hf]; [apply (reflexivity (R:=str_le))|].
    inversion Hso as [|? ? _ Hall]; subst. rewrite Forall_forall in Hall. by apply Hall.
Qed.

Lemma taken_keys l k : taken l -> k ∈ l -> k ∈ keys tables.
Proof. intros Ht [i Hi]%list_elem_of_lookup. by destruct (Ht i k Hi) as [[? _] _]. Qed.

Lemma NoDup_length (l l' : list string) : NoDup l -> (forall k, k ∈ l -> k ∈ l') -> length l <= length l'.
Proof. intros Hn Hs. by apply submseteq_length, NoDup_submseteq. Qed.

(** Every turn takes a new key, so as many turns as there are tables suffice. *)
Lemma order_loop_total fuel degrees ready ordered :
  loop_inv degrees ready ordered -> length (keys tables) <= fuel + length ordered ->
  exists degrees' ordered', order_loop range_set fuel waits degrees ready ordered = Some (degrees', ordered') /\
    loop_inv degrees' [] ordered'.
Proof.
  revert degrees ready ordered. induction fuel as [|fuel IH]; intros degrees [|key ready] ordered Hi Hle; simpl.
  - by exists degrees, ordered.
  - exfalso. destruct (proj1 (inv_ready _ _ _ Hi key) ltac:(by left)) as (Hk & Hko & _).
    assert (length (key :: ordered) <= length (keys tables)) as Hl; [|simpl in *; lia].
    apply NoDup_length; [apply NoDup_cons; split; [done|by apply (inv_ordered _ _ _ Hi)]|].
    intros k [-> |Hin]%elem_of_cons; [done|]. by apply (taken_keys ordered); [apply (inv_taken _ _ _ Hi)|].
  - by exists degrees, ordered.
  - apply IH; [by apply loop_step|]. rewrite length_app. simpl. lia.
Qed.

(** What is left when nothing is ready waits for what is left. *)
Lemma left_over degrees ordered k :
  loop_inv degrees [] ordered -> k ∈ keys tables -> k ∉ ordered -> exists d, d ∈ N k /\ d ∈ keys tables /\ d ∉ ordered.
Proof.
  intros Hi Hk Hko. destruct (decide (set_Forall (fun d => d ∈ ordered) (N k))) as [Hall|Hex].
  - exfalso. apply (not_elem_of_nil k). apply (inv_ready _ _ _ Hi). split_and!; [done|done|exact Hall].
  - apply not_set_Forall_Exists in Hex; [|apply _]. destruct Hex as (d & Hd & Hdo). exists d.
    split_and!; [done| |done]. by apply (N_keys k).
Qed.

Lemma left_degree degrees ordered k :
  loop_inv degrees [] ordered -> k ∈ keys tables -> (0 < degree degrees k)%Z <-> k ∉ ordered.
Proof.
  intros Hi Hk. unfold degree. rewrite (inv_degrees _ _ _ Hi k Hk). simpl. split.
  - intros Hp Hin. apply list_elem_of_lookup in Hin as [i Hl].
    destruct (inv_taken _ _ _ Hi i k Hl) as [(_ & _ & Hf) _].
    assert (size (N k ∖ list_to_set ordered) = 0) as Hz; [|lia]. apply size_zero.
    intros d Hd. apply Hf, elem_of_take in Hd as (j & Hd & _). by apply list_elem_of_lookup_2 in Hd.
  - intros Hn. destruct (left_over _ _ _ Hi Hk Hn) as (d & Hd & _ & Hdo).
    destruct (decide (size (N k ∖ list_to_set ordered) = 0)) as [Hz|Hz]; [|lia].
    exfalso. apply Hdo. by apply (proj1 (size_zero k ordered) Hz).
Qed.
End Loop.

(** ** Orders in the abstract *)
Section Abstract.
Variable tables : list TableDependency.

Lemma depends_keys k d : depends tables k d -> k ∈ keys tables /\ d ∈ keys tables.
Proof. intros (t & Ht & <- & _ & _ & Hd). split; [by apply list_elem_of_fmap_2|done]. Qed.

(** A list where each element follows its dependencies holds nothing blocked. *)
Lemma blocked_never l k :
  (forall i k d, l !! i = Some k -> depends tables k d -> d ∈ take i l) -> k ∈ l -> ~ blocked tables k.
Proof.
  intros Hl [i Hi]%list_elem_of_lookup (B & HB & Hb). revert k Hi HB.
  induction (lt_wf i) as [i _ IH]. intros k Hi HB. destruct (Hb k HB) as (_ & d & Hd & Hkd).
  pose proof (Hl i k d Hi Hkd) as (j & Hj & Hlt)%elem_of_take. by apply (IH j Hlt d).
Qed.

(** The smallest-first order is unique. *)
Lemma smallest_first_unique l l' :
  NoDup (keys tables) -> creation_order tables l -> smallest_first tables l ->
  creation_order tables l' -> smallest_first tables l' -> l = l'.
Proof.
  intros Hn [Hp Hd] Hs [Hp' Hd'] Hs'.
  assert (NoDup l) as Hnl by (by rewrite Hp). assert (NoDup l') as Hnl' by (by rewrite Hp').
  assert (length l = length l') as Hlen by (by rewrite Hp, Hp').
  assert (forall (m : list string) i k, NoDup m -> m !! i = Some k -> k ∉ take i m) as Hfresh.
  { clear. intros m i k Hn Hi (j & Hj & Hlt)%elem_of_take. pose proof (NoDup_lookup _ _ _ _ Hn Hi Hj). lia. }
  assert (forall i, i <= length l -> take i l = take i l') as H.
  { induction i as [|i IH]; intros Hi; [done|]. pose proof (IH ltac:(lia)) as E.
    destruct (lookup_lt_is_Some_2 l i ltac:(lia)) as [k Hk].
    destruct (lookup_lt_is_Some_2 l' i ltac:(lia)) as [k' Hk'].
    rewrite (take_S_r _ _ _ Hk), (take_S_r _ _ _ Hk'), E. do 2 f_equal.
    apply (anti_symm str_le).
    - apply (Hs i k k' Hk).
      + rewrite <- Hp'. by apply list_elem_of_lookup_2 in Hk'.
      + rewrite E. by apply Hfresh.
      + intros d Hkd. rewrite E. by apply (Hd' i k').
    - apply (Hs' i k' k Hk').
      + rewrite <- Hp. by apply list_elem_of_lookup_2 in Hk.
      + rewrite <- E. by apply Hfresh.
      + intros d Hkd. rewrite <- E. by apply (Hd i k). }
  specialize (H (length l) (le_n _)). rewrite Hlen in H at 2. by rewrite !firstn_all in H.
Qed.
End Abstract.

(** ** The result *)
Section Result.
Variables (range_set : gset string -> list string) (range_degrees : gmap string Z -> list (string * Z)).
Hypothesis range_set_elements : forall s, range_set s ≡ₚ elements s.
Hypothesis range_degrees_entries : forall m, range_degrees m ≡ₚ map_to_list m.

Definition valid_keys (tables : list TableDependency) : Prop :=
  NoDup (keys tables) /\ forall t, t ∈ tables -> Key t <> "".

Lemma index_tables_valid tables : (exists byKey, index_tables tables = Ok byKey) <-> valid_keys tables.
Proof.
  split; [by intros [byKey (H1 & H2 & _)%index_tables_ok]|]. intros [H1 H2]. eexists.
  unfold index_tables. apply index_tables_loop. split_and!; [|done|done].
  intros t Ht. split; [by apply H2|by rewrite lookup_empty].
Qed.

Lemma find_table tables byKey t : index_tables tables = Ok byKey -> t ∈ tables -> byKey !! Key t = Some t.
Proof.
  unfold index_tables. intros (_ & Hn & ->)%index_tables_loop Ht. rewrite (right_id_L ∅ (∪)).
  apply elem_of_list_to_map_1; [by rewrite <- list_fmap_compose|]. by apply (list_elem_of_fmap_2 (fun t => (Key t, t))).
Qed.

Lemma entries_of tables byKey N waits degrees ordered :
  index_tables tables = Ok byKey -> loop_inv tables N degrees [] ordered -> waits = dependents (build_graph byKey tables) ->
  range_degrees degrees ≡ₚ (fun t => (Key t, degree degrees (Key t))) <$> tables.
Proof.
  intros Hix Hi _. apply index_tables_ok in Hix as (Hn & _ & _). rewrite range_degrees_entries.
  apply NoDup_Permutation; [apply NoDup_map_to_list| |].
  - apply (NoDup_fmap_1 fst). by rewrite <- list_fmap_compose.
  - intros [k z]. rewrite elem_of_map_to_list, list_elem_of_fmap. split.
    + intros Hk. destruct (decide (k ∈ keys tables)) as [Hin|Hout].
      * apply list_elem_of_fmap in Hin as (t & -> & Ht). exists t. unfold degree. by rewrite Hk.
      * by rewrite (inv_none _ _ _ _ _ Hi k Hout) in Hk.
    + intros (t & [= -> ->] & Ht). unfold degree.
      rewrite (inv_degrees _ _ _ _ _ Hi (Key t)); [done|by apply list_elem_of_fmap_2].
Qed.

(** The run of [OrderTables] on valid tables. *)
Lemma OrderTables_run tables byKey :
  index_tables tables = Ok byKey ->
  exists N degrees ordered,
    (forall k d, d ∈ N k <-> depends tables k d) /\ loop_inv tables N degrees [] ordered /\
    OrderTables range_set range_degrees tables =
      Some (if length ordered =? length tables then Ok ordered
            else Err (cycle_error (remaining_displays range_degrees byKey degrees))).
Proof.
  intros Hix. destruct (build_graph_is tables byKey Hix) as (N & (G1 & G2 & G3) & HN).
  pose proof (index_tables_ok _ _ Hix) as (Hn & _ & _).
  assert (forall k d, d ∈ N k -> k ∈ keys tables /\ d ∈ keys tables) as HNk.
  { intros k d H%HN. by apply depends_keys in H. }
  set (g := build_graph byKey tables) in *.
  assert (loop_inv tables N (indegree g) (ready_keys range_degrees (indegree g)) []) as Hi.
  { assert (forall k, k ∈ omap (fun kd : string * Z => if Z.eqb kd.2 0 then Some kd.1 else None)
              (range_degrees (indegree g)) <-> indegree g !! k = Some 0%Z) as Hz.
    { intros k. rewrite range_degrees_entries, list_elem_of_omap. split.
      - intros ([j z] & Hj%elem_of_map_to_list & E). simpl in E. destruct (Z.eqb_spec z 0); [|done].
        by simplify_eq.
      - intros Hk. exists (k, 0%Z). by rewrite elem_of_map_to_list. }
    split.
    - intros k Hk. rewrite (G1 k Hk). do 3 f_equal. apply set_eq. intros d.
      rewrite elem_of_difference. simpl. set_solver.
    - exact G2.
    - intros k. unfold ready_keys. rewrite sort_Strings_perm, Hz. split.
      + intros Hk. destruct (decide (k ∈ keys tables)) as [Hin|Hout]; [|by rewrite (G2 k Hout) in Hk].
        rewrite (G1 k Hin) in Hk. split_and!; [done|apply not_elem_of_nil|]. intros d Hd. exfalso.
        assert (size (N k) = 0) as Hs by (injection Hk as Hk; lia). apply size_empty_inv in Hs.
        by apply (not_elem_of_empty (C:=gset string) d), Hs.
      + intros (Hin & _ & Hf). rewrite (G1 k Hin). do 2 f_equal.
        assert (N k = ∅) as ->; [|by rewrite size_empty].
        apply set_eq. intros d. split; [intros Hd%Hf; by apply not_elem_of_nil in Hd|by intros ?%elem_of_empty].
    - unfold ready_keys. rewrite sort_Strings_perm. clear -range_degrees_entries.
      pose proof (NoDup_fst_map_to_list (indegree g)) as Hn. rewrite <- range_degrees_entries in Hn.
      induction (range_degrees (indegree g)) as [|[k z] l IH]; [constructor|].
      apply NoDup_cons in Hn as [Hk Hn]. simpl. destruct (Z.eqb z 0); [|by apply IH].
      apply NoDup_cons. split; [|by apply IH]. intros ([j y] & Hj & E)%list_elem_of_omap. simpl in E.
      destruct (Z.eqb y 0); [|done]. simplify_eq. apply Hk. by apply (list_elem_of_fmap_2 fst) in Hj.
    - apply sort_Strings_sorted.
    - constructor.
    - intros i k Hk. by rewrite lookup_nil in Hk. }
  destruct (order_loop_total range_set tables N (dependents g) range_set_elements HNk G3
    (length tables) (indegree g) (ready_keys range_degrees (indegree g)) [] Hi) as (degrees & ordered & Ho & Hi').
  { unfold keys. rewrite length_fmap. lia. }
  exists N, degrees, ordered. split_and!; [exact HN|exact Hi'|].
  unfold OrderTables. rewrite Hix. fold g. by rewrite Ho.
Qed.

Lemma remaining_blocked tables byKey N degrees ordered :
  index_tables tables = Ok byKey -> (forall k d, d ∈ N k <-> depends tables k d) ->
  loop_inv tables N degrees [] ordered ->
  (forall k, k ∈ keys tables -> k ∉ ordered <-> blocked tables k) /\
  remaining_displays range_degrees byKey degrees ≡ₚ Display <$> filter (fun t => Key t ∉ ordered) tables.
Proof.
  intros Hix HN Hi. assert (forall k d, d ∈ N k -> k ∈ keys tables /\ d ∈ keys tables) as HNk.
  { intros k d H%HN. by apply depends_keys in H. }
  split.
  - intros k Hk. split.
    + intros Ho. exists (filter (fun k => k ∉ ordered) (list_to_set (keys tables))). split.
      * rewrite elem_of_filter, elem_of_list_to_set. done.
      * intros b [Hbo Hb%elem_of_list_to_set]%elem_of_filter. split; [done|].
        destruct (left_over tables N HNk degrees ordered b Hi Hb Hbo) as (d & Hd & Hdk & Hdo).
        exists d. rewrite elem_of_filter, elem_of_list_to_set. split; [done|]. by apply HN.
    + intros Hb Ho. revert Hb. apply (blocked_never tables ordered); [|done]. intros i j d Hj Hd.
      destruct (inv_taken _ _ _ _ _ Hi i j Hj) as [(_ & _ & Hf) _]. by apply Hf, HN.
  - unfold remaining_displays. rewrite sort_Strings_perm, (entries_of tables byKey N _ degrees ordered Hix Hi eq_refl).
    assert (forall ts : list TableDependency, (forall t, t ∈ ts -> t ∈ tables) ->
      omap (fun kd : string * Z => if (0 <? kd.2)%Z then Some (display_of byKey kd.1) else None)
        ((fun t => (Key t, degree degrees (Key t))) <$> ts) = Display <$> filter (fun t => Key t ∉ ordered) ts) as H.
    { induction ts as [|t ts IH]; intros Hts; [done|]. rewrite filter_cons. simpl.
      pose proof (Hts t ltac:(by left)) as Ht.
      pose proof (left_degree tables N HNk degrees ordered (Key t) Hi (list_elem_of_fmap_2 _ _ _ Ht)) as Hd.
      destruct (Z.ltb_spec 0 (degree degrees (Key t))) as [Hlt|Hge].
      - rewrite decide_True by (by apply Hd). simpl.
        assert (display_of byKey (Key t) = Display t) as -> by (unfold display_of; by rewrite (find_table _ _ _ Hix Ht)).
        f_equal. apply IH. intros u Hu. apply Hts. by right.
      - rewrite decide_False by (rewrite <- Hd; lia). apply IH. intros u Hu. apply Hts. by right. }
    by rewrite (H tables).
Qed.

(** C40 The creation order. [OrderTables] always answers, whatever order Go
    visits its maps in. It returns a list exactly when the keys are distinct
    and not empty, and that list is the one order that names every table once,
    puts each table after the tables of the set its foreign keys refer to, and
    always takes the smallest table that is ready, so it does not depend on
    the order of the input. It finds an order whenever there is one, and otherwise
    names, in sorted order, exactly the tables that no order can reach. *)
Theorem OrderTables_exact (tables : list TableDependency) :
  exists r, OrderTables range_set range_degrees tables = Some r /\
    (forall l, r = Ok l <-> valid_keys tables /\ creation_order tables l /\ smallest_first tables l) /\
    (valid_keys tables -> (exists l, creation_order tables l) -> is_ok r = true) /\
    (forall e, valid_keys tables -> r = Err e ->
       exists rest, rest <> [] /\ (forall t, t ∈ rest <-> t ∈ tables /\ blocked tables (Key t)) /\
         e = cycle_error (sort_Strings (Display <$> rest))).
Proof.
  destruct (index_tables tables) as [byKey|e0] eqn:Hix.
  2:{ assert (~ valid_keys tables) as Hv by (intros [b Hb]%index_tables_valid; congruence).
      exists (Err e0). split; [unfold OrderTables; by rewrite Hix|]. split_and!; [|done|done]. intros l. naive_solver. }
  destruct (OrderTables_run tables byKey Hix) as (N & degrees & ordered & HN & Hi & ->).
  pose proof (index_tables_ok _ _ Hix) as (Hn & _ & _).
  assert (valid_keys tables) as Hv by (apply index_tables_valid; by exists byKey).
  destruct (remaining_blocked tables byKey N degrees ordered Hix HN Hi) as [Hb Hrem].
  pose proof (inv_taken _ _ _ _ _ Hi) as Htk. pose proof (inv_ordered _ _ _ _ _ Hi) as Hno.
  assert (forall k, k ∈ ordered -> k ∈ keys tables) as Hok by (intros k; by apply (taken_keys tables N)).
  assert (length ordered = length tables <-> forall k, k ∈ keys tables -> k ∈ ordered) as Hall.
  { unfold keys. rewrite <- (length_fmap Key tables). fold (keys tables). split.
    - intros Hl k Hk. assert (ordered ≡ₚ keys tables) as ->; [|done].
      apply submseteq_length_Permutation; [by apply NoDup_submseteq|lia].
    - intros Hs. apply Nat.le_antisymm; by apply NoDup_length. }
  assert (length ordered = length tables -> creation_order tables ordered /\ smallest_first tables ordered) as Hco.
  { intros Hl. pose proof (proj1 Hall Hl) as Hs. split; [split|].
    - apply NoDup_Permutation; [done|done|]. intros k. split; [apply Hok|apply Hs].
    - intros i k d Hk Hd. destruct (Htk i k Hk) as [(_ & _ & Hf) _]. by apply Hf, HN.
    - intros i k k' Hk Hk' Hno' Hd. destruct (Htk i k Hk) as [_ Hmin]. apply Hmin. split_and!; [done|done|].
      intros d Hd'. by apply Hd, HN. }
  eexists. split; [done|]. destruct (Nat.eqb_spec (length ordered) (length tables)) as [El|El].
  - split_and!; [|done|done]. intros l. split; [intros [= <-]; by split; [|apply Hco]|].
    intros (_ & H1 & H2). f_equal. destruct (Hco El). by apply (smallest_first_unique tables).
  - assert (forall l, ~ creation_order tables l) as Hnone.
    { intros l [Hp Hd]. apply El, Hall. intros k Hk. destruct (decide (k ∈ ordered)) as [|Hko]; [done|].
      exfalso. apply (blocked_never tables l k Hd); [by rewrite Hp|by apply Hb]. }
    split_and!.
    + intros l. split; [done|]. intros (_ & H & _). by apply Hnone in H.
    + intros _ [l H]. by apply Hnone in H.
    + intros e _ [= <-]. exists (filter (fun t => Key t ∉ ordered) tables). split_and!.
      * intros Hnil. apply El, Hall. intros k (t & -> & Ht)%list_elem_of_fmap.
        destruct (decide (Key t ∈ ordered)) as [|Hko]; [done|]. exfalso.
        apply (not_elem_of_nil t). rewrite <- Hnil. by rewrite list_elem_of_filter.
      * intros t. rewrite list_elem_of_filter. split; intros [H1 H2].
        -- split; [done|]. apply Hb; [by apply list_elem_of_fmap_2|done].
        -- split; [|done]. apply Hb; [by apply list_elem_of_fmap_2|done].
      * f_equal. apply (StronglySorted_unique str_le); [apply sort_Strings_sorted|apply sort_Strings_sorted|].
        by rewrite Hrem, sort_Strings_perm.
Qed.
End Result.

Definition sample_tables : list TableDependency :=
  [MkDependency "posts" "public.posts" ["users"; "tags"; "posts"]; MkDependency "users" "public.users" ["teams"];
   MkDependency "tags" "public.tags" []].
Lemma OrderTables_exact_witness :
  OrderTables elements map_to_list sample_tables = Some (Ok ["tags"; "users"; "posts"]) /\
  creation_order sample_tables ["tags"; "users"; "posts"] /\ smallest_first sample_tables ["tags"; "users"; "posts"].
Proof.
  assert (OrderTables elements map_to_list sample_tables = Some (Ok ["tags"; "users"; "posts"])) as E
    by (vm_compute; reflexivity).
  split; [exact E|].
  destruct (OrderTables_exact elements map_to_list (fun _ => reflexivity _) (fun _ => reflexivity _) sample_tables)
    as (r & Hr & H & _).
  rewrite E in Hr. injection Hr as <-. exact (proj2 (proj1 (H _) eq_refl)).
Defined.

(** The message calls every table it names part of a cycle, also one that only
    refers to a cycle. *)
Lemma cycle_names_dependents :
  OrderTables elements map_to_list
    [MkDependency "a" "a" ["b"]; MkDependency "b" "b" ["a"]; MkDependency "c" "c" ["a"]]
  = Some (Err (cycle_error ["a"; "b"; "c"])).
Proof. vm_compute. reflexivity. Qed.
