(* ===== verification/Bytes.v ===== *)
(** * Bytes: [encoding/binary] (big endian) and [encoding/base64]
    (RawURLEncoding) of the Go standard library, over strings as byte
    sequences, with their round trips and the order of their results. *)

From S2P Require Import Prelude GoText.
Open Scope string_scope.
Open Scope list_scope.
Open Scope nat_scope.

(** ** Big-endian words: [PutUint32], [PutUint64], [Uint32], [Uint64] *)
Fixpoint put_be (n : nat) (v : N) : string :=
  match n with
  | 0 => ""
  | S n' => String (chr (N.shiftr v (8 * N.of_nat n') mod 256)) (put_be n' v)
  end.
Fixpoint get_be_from (acc : N) (s : string) : N :=
  match s with "" => acc | String c s' => get_be_from (256 * acc + code c) s' end.
Definition get_be (s : string) : N := get_be_from 0 s.

Definition width (n : nat) : N := 2 ^ (8 * N.of_nat n).

Lemma width_S n : width (S n) = (256 * width n)%N.
Proof. unfold width. rewrite <- (N.pow_add_r 2 8). f_equal. lia. Qed.
Lemma width_pos n : (0 < width n)%N.
Proof. unfold width. apply N.neq_0_lt_0, N.pow_nonzero. done. Qed.

Lemma put_be_length n v : String.length (put_be n v) = n.
Proof. induction n as [|n IH]; simpl; [done|]. by rewrite IH. Qed.

Lemma put_be_S n v : put_be (S n) v = String (chr (v / width n mod 256)) (put_be n v).
Proof. cbn [put_be]. by rewrite N.shiftr_div_pow2. Qed.

Lemma put_be_add n v q : put_be n (v + q * width n) = put_be n v.
Proof.
  revert q. induction n as [|n IH]; intros q; [done|]. rewrite !put_be_S, width_S.
  pose proof (width_pos n). replace (v + q * (256 * width n))%N with (v + q * 256 * width n)%N by lia.
  rewrite N.div_add, N.Div0.mod_add by lia. by rewrite IH.
Qed.
Lemma put_be_mod n v : put_be n (v mod width n) = put_be n v.
Proof.
  pose proof (width_pos n). rewrite (N.div_mod v (width n)) at 2 by lia.
  by rewrite N.add_comm, (N.mul_comm (width n)), put_be_add.
Qed.

Lemma get_be_from_app acc s : get_be_from acc s = (acc * width (String.length s) + get_be s)%N.
Proof.
  unfold get_be. revert acc. induction s as [|c s IH]; intros acc; cbn [get_be_from String.length].
  - change (width 0) with 1%N. lia.
  - rewrite IH, (IH (256 * 0 + code c)%N), width_S. lia.
Qed.
Lemma get_be_cons c s : get_be (String c s) = (code c * width (String.length s) + get_be s)%N.
Proof. unfold get_be at 1. cbn [get_be_from]. rewrite get_be_from_app. lia. Qed.

Lemma get_be_bound s : (get_be s < width (String.length s))%N.
Proof.
  induction s as [|c s IH]; [done|]. rewrite get_be_cons. cbn [String.length]. rewrite width_S.
  pose proof (code_bound c). nia.
Qed.

Lemma get_put_be n v : get_be (put_be n v) = (v mod width n)%N.
Proof.
  induction n as [|n IH].
  - change (width 0) with 1%N. by rewrite N.mod_1_r.
  - rewrite put_be_S, get_be_cons, put_be_length, IH, code_chr by (apply N.mod_lt; done).
    rewrite width_S, (N.mul_comm 256), N.Div0.mod_mul_r. lia.
Qed.

Lemma put_get_be s : put_be (String.length s) (get_be s) = s.
Proof.
  induction s as [|c s IH]; [done|]. cbn [String.length]. rewrite put_be_S, get_be_cons.
  pose proof (get_be_bound s). pose proof (width_pos (String.length s)). pose proof (code_bound c).
  rewrite N.div_add_l, (N.div_small (get_be s)), N.add_0_r, N.mod_small, chr_code by lia.
  rewrite <- put_be_mod, N.add_comm, N.Div0.mod_add, N.mod_small, IH by done. done.
Qed.

Lemma put_be_inj n v v' : (v < width n)%N -> (v' < width n)%N -> put_be n v = put_be n v' -> v = v'.
Proof.
  intros H H' E. apply (f_equal get_be) in E. rewrite !get_put_be, !N.mod_small in E by done. done.
Qed.

(** Big-endian words of one width compare like their values. *)
Lemma put_be_order n v v' :
  (v < width n)%N -> (v' < width n)%N -> str_ltb (put_be n v) (put_be n v') = (v <? v')%N.
Proof.
  revert v v'. induction n as [|n IH]; intros v v' Hv Hv'.
  - change (width 0) with 1%N in *. simpl. symmetry. apply N.ltb_ge. lia.
  - rewrite width_S in *. rewrite !put_be_S, <- (put_be_mod n v), <- (put_be_mod n v'). cbn [str_ltb].
    pose proof (width_pos n) as Hw.
    pose proof (N.div_mod v (width n) ltac:(lia)) as D. pose proof (N.div_mod v' (width n) ltac:(lia)) as D'.
    pose proof (N.mod_lt v (width n) ltac:(lia)) as M. pose proof (N.mod_lt v' (width n) ltac:(lia)) as M'.
    rewrite IH by done.
    assert (v / width n < 256)%N by (apply N.Div0.div_lt_upper_bound; lia).
    assert (v' / width n < 256)%N by (apply N.Div0.div_lt_upper_bound; lia).
    rewrite !(N.mod_small (_ / _)), !code_chr by done.
    set (q := (v / width n)%N) in *. set (q' := (v' / width n)%N) in *.
    set (r := (v mod width n)%N) in *. set (r' := (v' mod width n)%N) in *. clearbody q q' r r'.
    apply eq_true_iff_eq. rewrite orb_true_iff, andb_true_iff, !N.ltb_lt, N.eqb_eq.
    assert (forall x y, (x < y)%N -> (width n * x + width n <= width n * y)%N) as Hm.
    { intros x y Hxy. rewrite <- N.mul_succ_r. apply N.mul_le_mono_l. lia. }
    split.
    + intros [K|[E K]]; [pose proof (Hm _ _ K); lia|rewrite E in *; lia].
    + intros Hlt. destruct (N.lt_trichotomy q q') as [?|[E|K]]; [by left| |pose proof (Hm _ _ K); lia].
      right. rewrite E in *. split; [done|lia].
Qed.

(** ** [base64.RawURLEncoding] *)
Definition b64_alphabet : string := "ABCDEFGHIJKLMNOPQRSTUVWXYZabcdefghijklmnopqrstuvwxyz0123456789-_".
Definition b64_digit (n : N) : ascii := default "A"%char (String.get (N.to_nat n) b64_alphabet).
Definition b64_value (c : ascii) : option N :=
  let n := code c in
  if in_range 65 90 n then Some (n - 65)%N
  else if in_range 97 122 n then Some (n - 71)%N
  else if in_range 48 57 n then Some (n + 4)%N
  else if (n =? 45)%N then Some 62%N
  else if (n =? 95)%N then Some 63%N
  else None.

Fixpoint b64_encode (s : string) : string :=
  match s with
  | String a (String b (String c s')) =>
      String (b64_digit (code a / 4)%N) (String (b64_digit ((code a mod 4) * 16 + code b / 16)%N)
        (String (b64_digit ((code b mod 16) * 4 + code c / 64)%N) (String (b64_digit (code c mod 64)%N) (b64_encode s'))))
  | String a (String b "") =>
      String (b64_digit (code a / 4)%N) (String (b64_digit ((code a mod 4) * 16 + code b / 16)%N)
        (String (b64_digit ((code b mod 16) * 4)%N) ""))
  | String a "" => String (b64_digit (code a / 4)%N) (String (b64_digit ((code a mod 4) * 16)%N) "")
  | "" => ""
  end.

(** The decoder skips line breaks and, not being strict, ignores the bits
    left over in a final partial group. *)
Definition line_break (c : ascii) : bool := (code c =? 10)%N || (code c =? 13)%N.
Fixpoint b64_values (s : string) : option (list N) :=
  match s with
  | "" => Some []
  | String c s' =>
      if line_break c then b64_values s'
      else match b64_value c, b64_values s' with
      | Some v, Some l => Some (v :: l)
      | _, _ => None
      end
  end.
Fixpoint b64_groups (l : list N) : option string :=
  match l with
  | a :: b :: c :: d :: l' =>
      match b64_groups l' with
      | Some s => Some (String (chr (a * 4 + b / 16)%N) (String (chr ((b mod 16) * 16 + c / 4)%N)
                          (String (chr ((c mod 4) * 64 + d)%N) s)))
      | None => None
      end
  | [a; b; c] => Some (String (chr (a * 4 + b / 16)%N) (String (chr ((b mod 16) * 16 + c / 4)%N) ""))
  | [a; b] => Some (String (chr (a * 4 + b / 16)%N) "")
  | [_] => None
  | [] => Some ""
  end.
Definition b64_decode (s : string) : option string :=
  match b64_values s with Some l => b64_groups l | None => None end.

Lemma b64_digit_value n : (n < 64)%N -> b64_value (b64_digit n) = Some n /\ line_break (b64_digit n) = false.
Proof.
  intros H. assert (forall m : nat, m < 64 -> b64_value (b64_digit (N.of_nat m)) = Some (N.of_nat m) /\
                                    line_break (b64_digit (N.of_nat m)) = false) as K.
  { intros m Hm. do 64 (destruct m as [|m]; [by vm_compute|]). lia. }
  rewrite <- (N2Nat.id n). apply K. lia.
Qed.

Lemma b64_values_digit n s : (n < 64)%N -> b64_values (String (b64_digit n) s) =
  match b64_values s with Some l => Some (n :: l) | None => None end.
Proof. intros H. cbn [b64_values]. by destruct (b64_digit_value n H) as [-> ->]. Qed.

Lemma three_bytes_ind (P : string -> Prop) :
  P "" -> (forall a, P (String a "")) -> (forall a b, P (String a (String b ""))) ->
  (forall a b c s, P s -> P (String a (String b (String c s)))) -> forall s, P s.
Proof.
  intros H0 H1 H2 H3 s. induction s as [s IH] using string_len_ind.
  destruct s as [|a [|b [|c s]]]; [done|done|done|]. apply H3, IH. simpl. lia.
Qed.

Lemma byte_parts c : (code c / 4 < 64 /\ code c / 16 < 16 /\ code c / 64 < 4 /\ code c mod 64 < 64 /\
  code c mod 4 < 4 /\ code c mod 16 < 16)%N.
Proof.
  pose proof (code_bound c).
  split_and!; first [apply N.mod_lt; done|apply N.Div0.div_lt_upper_bound; lia].
Qed.

Lemma first_byte a b : ((code a / 4) * 4 + (((code a mod 4) * 16 + code b / 16)) / 16 = code a)%N.
Proof.
  destruct (byte_parts b) as (_ & Hb & _). rewrite N.div_add_l, (N.div_small (code b / 16)) by lia.
  pose proof (N.div_mod (code a) 4 ltac:(lia)). lia.
Qed.
Lemma second_byte a b c :
  ((((code a mod 4) * 16 + code b / 16) mod 16) * 16 + ((code b mod 16) * 4 + code c / 64) / 4 = code b)%N.
Proof.
  destruct (byte_parts b) as (_ & Hb & _). destruct (byte_parts c) as (_ & _ & Hc & _).
  rewrite N.add_comm, (N.add_comm (_ * 16)), N.Div0.mod_add, (N.mod_small (code b / 16)) by lia.
  rewrite N.div_add_l, (N.div_small (code c / 64)) by lia. pose proof (N.div_mod (code b) 16 ltac:(lia)). lia.
Qed.
Lemma third_byte b c : ((((code b mod 16) * 4 + code c / 64) mod 4) * 64 + code c mod 64 = code c)%N.
Proof.
  destruct (byte_parts c) as (_ & _ & Hc & _).
  rewrite (N.add_comm (_ * 4)), N.Div0.mod_add, (N.mod_small (code c / 64)) by lia.
  pose proof (N.div_mod (code c) 64 ltac:(lia)). lia.
Qed.

Theorem b64_roundtrip s : b64_decode (b64_encode s) = Some s.
Proof.
  unfold b64_decode. induction s as [|a|a b|a b c s IH] using three_bytes_ind; [done| | |].
  - cbn [b64_encode]. destruct (byte_parts a) as (Ha & _ & _ & _ & Ha4 & _).
    rewrite !b64_values_digit by lia. cbn [b64_values b64_groups].
    rewrite N.div_mul by done. pose proof (N.div_mod (code a) 4 ltac:(lia)).
    replace (code a / 4 * 4 + code a mod 4)%N with (code a) by lia. by rewrite chr_code.
  - cbn [b64_encode]. destruct (byte_parts a) as (Ha & _ & _ & _ & Ha4 & _).
    destruct (byte_parts b) as (_ & Hb & _ & _ & _ & Hb16).
    rewrite !b64_values_digit by lia. cbn [b64_values b64_groups].
    rewrite first_byte, chr_code. do 3 f_equal.
    rewrite N.div_mul, N.add_comm, (N.add_comm (_ * 16)), N.Div0.mod_add, (N.mod_small (code b / 16)) by lia.
    pose proof (N.div_mod (code b) 16 ltac:(lia)).
    replace (code b mod 16 + code b / 16 * 16)%N with (code b) by lia. by rewrite chr_code.
  - cbn [b64_encode]. destruct (byte_parts a) as (Ha & _ & _ & _ & Ha4 & _).
    destruct (byte_parts b) as (_ & Hb & _ & _ & _ & Hb16). destruct (byte_parts c) as (_ & _ & Hc & Hc64 & _).
    rewrite !b64_values_digit by lia.
    destruct (b64_values (b64_encode s)) as [l|]; [|done]. cbn [b64_groups]. rewrite IH.
    by rewrite first_byte, second_byte, third_byte, !chr_code.
Qed.
