(* ===== verification/CursorCodec.v ===== *)
(** * CursorCodec: [internal/cursorcodec/envelope.go] and [value.go]

    The byte format of keyset cursors: the envelope that frames the key values
    and the encoding of the built-in value types.  Bytes are strings; a
    [float64] is its 64 bits and a [time.Time] the instant it stands for, as
    seconds and nanoseconds. *)

From S2P Require Import Prelude GoText Bytes.
Open Scope string_scope.
Open Scope list_scope.
Open Scope nat_scope.

(** ** Envelopes *)
Definition Version : N := 1.
Definition MaxEnvelopeBytes : N := 64 * 1024.
Definition headerBytes : nat := 1 + 32 + 1.

Record Field := MkField { Direction : N; Nullable : bool; Nulls : N; Codec : string }.
Record Value := MkValue { Present : bool; Data : string }.
Record Envelope := MkEnvelope { Fingerprint : string; Fields : list Field; Values : list Value }.

Definition byte_of (n : N) : string := str1 (chr n).
Definition marker (b : bool) : string := byte_of (if b then 1 else 0)%N.

(** The bytes one field and its value are written as. *)
Definition field_bytes (f : Field) (v : Value) : string :=
  byte_of (Direction f) +:+ marker (Nullable f) +:+ byte_of (Nulls f)
    +:+ byte_of (N.of_nat (String.length (Codec f))) +:+ Codec f +:+ marker (Present v)
    +:+ put_be 4 (N.of_nat (String.length (Data v))) +:+ Data v.

Definition encode_step (_ : nat) (fv : Field * Value) (b : string) : result string :=
  let '(field, value) := fv in
  if (255 <? N.of_nat (String.length (Codec field)))%N || (65535 <? N.of_nat (String.length (Data value)))%N
  then Err (errors_New "cursor envelope field is too large")
  else if negb (Present value) && negb (String.length (Data value) =? 0)
  then Err (errors_New "absent cursor value has a payload")
  else Ok (b +:+ field_bytes field value).
Definition envelope_bytes (fingerprint : string) (fields : list Field) (values : list Value) : result string :=
  if (255 <? length fields) || negb (length values =? length fields)
  then Err (errors_New "cursor envelope key count is out of range")
  else foldi encode_step 0 (combine fields values)
         (byte_of Version +:+ fingerprint +:+ byte_of (N.of_nat (length fields))).
Definition EncodeEnvelope (fingerprint : string) (fields : list Field) (values : list Value) : result string :=
  do b <- envelope_bytes fingerprint fields values;
  if (MaxEnvelopeBytes <? N.of_nat (String.length b))%N
  then Err (errors_New "cursor envelope exceeds 64 KiB")
  else Ok (b64_encode b).

(** [raw[offset]], and the bytes the source reads at [raw[offset+k]], once it
    has checked that they are there. *)
Definition byte_at (s : string) (k : nat) : N := match String.get k s with Some c => code c | None => 0 end.

(** One turn of the decoder's loop, on the unread bytes. *)
Definition decode_field (rest : string) : result ((Field * Value) * string) :=
  if String.length rest <? 4 then Err (errors_New "truncated cursor")
  else
    let nullableMarker := byte_at rest 1 in
    let codecLen := N.to_nat (byte_at rest 3) in
    if (1 <? nullableMarker)%N then Err (errors_New "invalid cursor metadata marker")
    else
      let rest1 := sdrop 4 rest in
      if String.length rest1 <? codecLen + 5 then Err (errors_New "truncated cursor metadata")
      else
        let field := MkField (byte_at rest 0) (N.eqb nullableMarker 1) (byte_at rest 2) (stake codecLen rest1) in
        let rest2 := sdrop codecLen rest1 in
        let presenceMarker := byte_at rest2 0 in
        if (1 <? presenceMarker)%N then Err (errors_New "invalid cursor presence marker")
        else
          let len := get_be (stake 4 (sdrop 1 rest2)) in
          let rest3 := sdrop 5 rest2 in
          if (N.of_nat (String.length rest3) <? len)%N then Err (errors_New "invalid cursor length")
          else
            let present := N.eqb presenceMarker 1 in
            if negb present && negb (N.eqb len 0) then Err (errors_New "absent cursor value has a payload")
            else Ok ((field, MkValue present (stake (N.to_nat len) rest3)), sdrop (N.to_nat len) rest3).
Fixpoint decode_fields (count : nat) (rest : string) : result (list (Field * Value) * string) :=
  match count with
  | 0 => Ok ([], rest)
  | S count' =>
      do r <- decode_field rest;
      do l <- decode_fields count' r.2;
      Ok (r.1 :: l.1, l.2)
  end.
Definition decode_raw (raw : string) : result Envelope :=
  if (String.length raw <? headerBytes) || negb (N.eqb (byte_at raw 0) Version)
  then Err (errors_New "invalid cursor version")
  else
    do l <- decode_fields (N.to_nat (byte_at raw 33)) (sdrop headerBytes raw);
    if negb (String.length l.2 =? 0) then Err (errors_New "trailing cursor data")
    else Ok (MkEnvelope (stake 32 (sdrop 1 raw)) l.1.*1 l.1.*2).
Definition DecodeEnvelope (encoded : string) : result Envelope :=
  match b64_decode encoded with
  | Some raw =>
      if (MaxEnvelopeBytes <? N.of_nat (String.length raw))%N
      then Err (errors_New "invalid base64 cursor") else decode_raw raw
  | None => Err (errors_New "invalid base64 cursor")
  end.

(** ** Values *)
(** The Go types the codec knows; [bits] is [reflect.Type.Bits]. *)
Inductive go_type :=
| TTime | TFloat (bits : N) | TBool | TInt (bits : N) | TUint (bits : N) | TString | TBytes | TOther.
Inductive go_value :=
| VNil
| VTime (seconds nanos : Z)
| VFloat (bits : N) (float64 : N)
| VBool (b : bool)
| VInt (bits : N) (z : Z)
| VUint (bits : N) (n : N)
| VString (s : string)
| VBytes (s : string)
| VOther (id : Z).

Definition uint64 (z : Z) : N := Z.to_N (z mod 2 ^ 64).
Definition int64 (n : N) : Z := if (n <? 2 ^ 63)%N then Z.of_N n else (Z.of_N n - 2 ^ 64)%Z.
Definition sign_bit : N := 2 ^ 63.
Definition not64 (n : N) : N := N.lxor n (2 ^ 64 - 1).

(** [math.Float64bits], read by its fields: NaN, and [f >= 0] (true of both
    zeros, false of NaN). *)
Definition float_exponent (n : N) : N := N.land (N.shiftr n 52) 2047.
Definition float_mantissa (n : N) : N := N.land n (2 ^ 52 - 1).
Definition is_nan (n : N) : bool := N.eqb (float_exponent n) 2047 && negb (N.eqb (float_mantissa n) 0).
Definition negative_zero : N := sign_bit.
Definition float_nonneg (n : N) : bool := negb (is_nan n) && (negb (N.testbit n 63) || N.eqb n negative_zero).
(** [float64(float32(value)) == value]: the value is a float32. *)
Definition float32_exact (n : N) : bool :=
  let e := Z.of_N (float_exponent n) in
  let m := float_mantissa n in
  if (e =? 0)%Z then N.eqb m 0
  else if (e =? 2047)%Z then N.eqb m 0
  else if (1150 <? e)%Z then false
  else if (897 <=? e)%Z then N.eqb (N.land m (2 ^ 29 - 1)) 0
  else if (874 <=? e)%Z then N.eqb (N.land m (2 ^ (29 + Z.to_N (897 - e)) - 1)) 0
  else false.

Definition EncodeValue (value : go_value) : result string :=
  match value with
  | VNil => Err (errors_New "nil cursor value")
  | VTime seconds nanos => Ok (put_be 8 (uint64 seconds) +:+ put_be 4 (Z.to_N nanos))
  | VFloat _ bits =>
      if is_nan bits then Err (errors_New "NaN is not a cursor value")
      else Ok (put_be 8 (if float_nonneg bits then N.lxor bits sign_bit else not64 bits))
  | VBool b => Ok (marker b)
  | VInt _ z => Ok (put_be 8 (N.lxor (uint64 z) sign_bit))
  | VUint _ n => Ok (put_be 8 n)
  | VString s | VBytes s => Ok s
  | VOther id => Err (Errorf "unsupported cursor value %T" [AInt id])
  end.

Definition DecodeValue (data : string) (typ : go_type) : result go_value :=
  match typ with
  | TTime =>
      if negb (String.length data =? 12) then Err (errors_New "invalid time cursor")
      else
        let seconds := int64 (get_be (stake 8 data)) in
        let nanos := get_be (sdrop 8 data) in
        if (1000000000 <=? nanos)%N then Err (errors_New "invalid time cursor")
        else Ok (VTime seconds (Z.of_N nanos))
  | TFloat width =>
      if negb (String.length data =? 8) then Err (errors_New "invalid float cursor")
      else
        let word := get_be data in
        let bits := if N.testbit word 63 then N.lxor word sign_bit else not64 word in
        if is_nan bits then Err (errors_New "NaN is not a cursor value")
        else if N.eqb width 32 && negb (float32_exact bits)
        then Err (errors_New "float cursor overflows destination type")
        else Ok (VFloat width bits)
  | TBool =>
      if negb (String.length data =? 1) || (1 <? byte_at data 0)%N then Err (errors_New "invalid bool cursor")
      else Ok (VBool (N.eqb (byte_at data 0) 1))
  | TInt width =>
      if negb (String.length data =? 8) then Err (errors_New "invalid integer cursor")
      else
        let v := int64 (N.lxor (get_be data) sign_bit) in
        let limit := (2 ^ (Z.of_N width - 1))%Z in
        if (width <? 64)%N && ((v <? - limit)%Z || (limit - 1 <? v)%Z)
        then Err (errors_New "integer cursor overflows destination type")
        else Ok (VInt width v)
  | TUint width =>
      if negb (String.length data =? 8) then Err (errors_New "invalid integer cursor")
      else
        let value := get_be data in
        if (width <? 64)%N && (2 ^ width - 1 <? value)%N
        then Err (errors_New "unsigned cursor overflows destination type")
        else Ok (VUint width value)
  | TString => Ok (VString data)
  | TBytes => Ok (VBytes data)
  | TOther => Err (Errorf "unsupported cursor type %s" [])
  end.

(** ** Framing *)
Lemma byte_of_length n : String.length (byte_of n) = 1.
Proof. done. Qed.
Lemma byte_at_0 c s : byte_at (String c s) 0 = code c.
Proof. done. Qed.
Lemma byte_at_S c s k : byte_at (String c s) (S k) = byte_at s k.
Proof. done. Qed.

Definition field_fits (f : Field) (v : Value) : Prop :=
  (N.of_nat (String.length (Codec f)) <= 255)%N /\ (N.of_nat (String.length (Data v)) <= 65535)%N /\
  (Present v = false -> Data v = "").
(** What the Go types of the fields guarantee: [uint8]. *)
Definition field_typed (f : Field) : Prop := (Direction f < 256 /\ Nulls f < 256)%N.

Lemma field_bytes_length f v :
  String.length (field_bytes f v) = 9 + String.length (Codec f) + String.length (Data v).
Proof. unfold field_bytes. rewrite !slength_app, put_be_length. simpl. lia. Qed.

Lemma sdrop_cons n c s : sdrop (S n) (String c s) = sdrop n s.
Proof. done. Qed.
Lemma sdrop_add n a b : sdrop (String.length a + n) (a +:+ b) = sdrop n b.
Proof. induction a as [|c a IH]; [done|]. simpl. by rewrite IH. Qed.

Lemma code_marker (b : bool) : code (chr (if b then 1 else 0)%N) = (if b then 1 else 0)%N.
Proof. by destruct b. Qed.

(** The decoder past its four leading bytes. *)
Definition decode_payload (a b c : N) (codecLen : nat) (rest1 : string) : result ((Field * Value) * string) :=
  if (1 <? b)%N then Err (errors_New "invalid cursor metadata marker")
  else if String.length rest1 <? codecLen + 5 then Err (errors_New "truncated cursor metadata")
  else
    let rest2 := sdrop codecLen rest1 in
    if (1 <? byte_at rest2 0)%N then Err (errors_New "invalid cursor presence marker")
    else
      let len := get_be (stake 4 (sdrop 1 rest2)) in
      let rest3 := sdrop 5 rest2 in
      if (N.of_nat (String.length rest3) <? len)%N then Err (errors_New "invalid cursor length")
      else
        let present := N.eqb (byte_at rest2 0) 1 in
        if negb present && negb (N.eqb len 0) then Err (errors_New "absent cursor value has a payload")
        else Ok ((MkField a (N.eqb b 1) c (stake codecLen rest1),
                  MkValue present (stake (N.to_nat len) rest3)), sdrop (N.to_nat len) rest3).
Lemma decode_field_cons a b c d rest1 :
  decode_field (String a (String b (String c (String d rest1)))) =
  decode_payload (code a) (code b) (code c) (N.to_nat (code d)) rest1.
Proof. reflexivity. Qed.

Lemma stake_be n v s : stake n (put_be n v +:+ s) = put_be n v.
Proof. rewrite <- (put_be_length n v) at 1. apply stake_app. Qed.
Lemma sdrop_be n v s : sdrop n (put_be n v +:+ s) = s.
Proof. rewrite <- (put_be_length n v) at 1. apply sdrop_app. Qed.

Lemma decode_field_bytes f v rest :
  field_typed f -> field_fits f v -> decode_field (field_bytes f v +:+ rest) = Ok ((f, v), rest).
Proof.
  destruct f as [dir nul nls codec], v as [pre dat]. intros [Hd Hn] (Hc & Hl & Hp).
  cbn [Direction Nulls Codec Data Present] in Hd, Hn, Hc, Hl, Hp.
  unfold field_bytes, marker, byte_of, str1. cbn [Direction Nullable Nulls Codec Present Data].
  rewrite !sapp_assoc. cbn [String.append]. rewrite decode_field_cons, code_marker, !code_chr, Nat2N.id by lia.
  set (tail := put_be 4 (N.of_nat (String.length dat)) +:+ dat +:+ rest).
  assert (String.length tail = 4 + String.length dat + String.length rest) as Ht.
  { unfold tail. rewrite !slength_app, put_be_length. lia. }
  unfold decode_payload. rewrite sdrop_app, stake_app, byte_at_0, code_marker. cbv zeta.
  change (sdrop 1 (String (chr (if pre then 1%N else 0%N)) tail)) with tail.
  change (sdrop 5 (String (chr (if pre then 1%N else 0%N)) tail)) with (sdrop 4 tail).
  assert (stake 4 tail = put_be 4 (N.of_nat (String.length dat))) as -> by apply stake_be.
  assert (sdrop 4 tail = dat +:+ rest) as -> by apply sdrop_be.
  rewrite get_put_be, N.mod_small by (change (width 4) with 4294967296%N; lia).
  replace (1 <? (if nul then 1 else 0)%N)%N with false by (by destruct nul).
  replace (String.length (codec +:+ _) <? _) with false
    by (symmetry; apply Nat.ltb_ge; rewrite slength_app; cbn [String.length]; lia).
  replace (1 <? (if pre then 1 else 0)%N)%N with false by (by destruct pre).
  replace (N.of_nat (String.length (dat +:+ rest)) <? _)%N with false
    by (symmetry; apply N.ltb_ge; rewrite slength_app; lia).
  rewrite Nat2N.id, stake_app, sdrop_app.
  replace (N.eqb (if nul then 1 else 0)%N 1) with nul by (by destruct nul).
  replace (N.eqb (if pre then 1 else 0)%N 1) with pre by (by destruct pre).
  destruct pre; [done|]. by rewrite (Hp eq_refl).
Qed.

Lemma stake_byte s : 0 < String.length s -> s = String (chr (byte_at s 0)) (sdrop 1 s).
Proof. destruct s as [|c s]; simpl; [lia|]. intros _. unfold byte_at. simpl. by rewrite chr_code. Qed.
Lemma byte_at_bound s k : (byte_at s k < 256)%N.
Proof. unfold byte_at. destruct (String.get k s); [apply code_bound|done]. Qed.
Lemma marker_back n : (1 <? n)%N = false -> marker (N.eqb n 1) = byte_of n.
Proof. intros H%N.ltb_ge. assert (n = 0 \/ n = 1)%N as [-> | ->] by lia; done. Qed.

Lemma decode_field_inv rest f v rest' :
  decode_field rest = Ok ((f, v), rest') ->
  rest = field_bytes f v +:+ rest' /\ field_typed f /\
  (N.of_nat (String.length (Codec f)) <= 255)%N /\ (Present v = false -> Data v = "").
Proof.
  unfold decode_field. destruct (Nat.ltb_spec (String.length rest) 4) as [|H4]; [done|].
  destruct (1 <? byte_at rest 1)%N eqn:Hnul; [done|].
  destruct (Nat.ltb_spec (String.length (sdrop 4 rest)) (N.to_nat (byte_at rest 3) + 5)) as [|H5]; [done|].
  set (r1 := sdrop 4 rest) in *. set (n := N.to_nat (byte_at rest 3)) in *.
  set (r2 := sdrop n r1). destruct (1 <? byte_at r2 0)%N eqn:Hpre; [done|].
  set (len := get_be (stake 4 (sdrop 1 r2))). remember (sdrop 5 r2) as r3 eqn:Er3.
  destruct (N.ltb_spec (N.of_nat (String.length r3)) len) as [|Hlen]; [done|].
  destruct (negb (N.eqb (byte_at r2 0) 1) && negb (N.eqb len 0)) eqn:Habs; [done|].
  intros [= <- <- <-]. cbn [Direction Nullable Nulls Codec Present Data].
  assert (String.length r2 = String.length r1 - n) as Hr2 by apply slength_sdrop.
  assert (String.length (stake n r1) = n) as Hn by (rewrite slength_stake; lia).
  assert (n < 256) as Hn256 by (pose proof (byte_at_bound rest 3); lia).
  assert (String.length r3 = String.length r2 - 5) as Hr3 by (rewrite Er3; apply slength_sdrop).
  assert (String.length (stake (N.to_nat len) r3) = N.to_nat len) as Hd by (rewrite slength_stake; lia).
  split_and!.
  - unfold field_bytes. cbn [Direction Nullable Nulls Codec Present Data]. rewrite Hn, Hd.
    rewrite !marker_back by done. unfold n at 1. rewrite !N2Nat.id.
    assert (put_be 4 len = stake 4 (sdrop 1 r2)) as ->.
    { unfold len. rewrite <- (put_get_be (stake 4 (sdrop 1 r2))) at 2. f_equal.
      rewrite slength_stake, slength_sdrop. lia. }
    rewrite !sapp_assoc, stake_sdrop.
    rewrite Er3. assert (sdrop 5 r2 = sdrop 4 (sdrop 1 r2)) as -> by (by rewrite sdrop_sdrop).
    rewrite stake_sdrop.
    assert (byte_of (byte_at r2 0) +:+ sdrop 1 r2 = r2) as ->.
    { symmetry. apply stake_byte. lia. }
    unfold r2. rewrite stake_sdrop. unfold r1.
    destruct rest as [|a [|b [|c [|d rest]]]]; simpl in H4; try lia. cbn [sdrop]. rewrite !byte_at_S, !byte_at_0.
    unfold byte_of, str1. rewrite !chr_code. done.
  - split; apply byte_at_bound.
  - rewrite Hn. lia.
  - intros Hp. rewrite Hp in Habs. simpl in Habs. apply negb_false_iff, N.eqb_eq in Habs. by rewrite Habs.
Qed.

Definition frame (fvs : list (Field * Value)) : string :=
  fold_right (fun fv s => field_bytes fv.1 fv.2 +:+ s) "" fvs.

Lemma encode_step_ok i f v b b' :
  encode_step i (f, v) b = Ok b' <-> field_fits f v /\ b' = b +:+ field_bytes f v.
Proof.
  unfold encode_step, field_fits.
  destruct (N.ltb_spec 255 (N.of_nat (String.length (Codec f)))) as [H1|H1]; cbn [orb].
  { split; [discriminate|intros [[? _] _]; lia]. }
  destruct (N.ltb_spec 65535 (N.of_nat (String.length (Data v)))) as [H2|H2].
  { split; [discriminate|intros [[_ [? _]] _]; lia]. }
  destruct (Present v) eqn:Ep; cbn [negb andb].
  - split; [intros [= <-]; by split_and!|by intros [_ ->]].
  - destruct (Nat.eqb_spec (String.length (Data v)) 0) as [E|E]; cbn [negb].
    + split; [intros [= <-]|by intros [_ ->]]. split_and!; [done|done| |done]. intros _. by destruct (Data v).
    + split; [discriminate|]. intros [(_ & _ & H3) _]. by rewrite (H3 eq_refl) in E.
Qed.

Lemma encode_steps i fvs b b' :
  foldi encode_step i fvs b = Ok b' <-> Forall (fun fv => field_fits fv.1 fv.2) fvs /\ b' = b +:+ frame fvs.
Proof.
  revert i b. induction fvs as [|[f v] fvs IH]; intros i b; cbn [foldi].
  - cbn [frame fold_right]. rewrite sapp_nil_r. split; [intros [= <-]; by split|by intros [_ ->]].
  - rewrite Forall_cons. cbn [frame fold_right fst snd]. fold (frame fvs). rewrite <- sapp_assoc.
    destruct (encode_step i (f, v) b) as [b1|e] eqn:E.
    + apply encode_step_ok in E as [H1 ->]. rewrite IH. tauto.
    + split; [discriminate|]. intros [[H1 _] _].
      pose proof (proj2 (encode_step_ok i f v b _) (conj H1 eq_refl)) as K. congruence.
Qed.

Lemma decode_frame fvs rest :
  Forall (fun fv => field_typed fv.1 /\ field_fits fv.1 fv.2) fvs ->
  decode_fields (length fvs) (frame fvs +:+ rest) = Ok (fvs, rest).
Proof.
  induction 1 as [|[f v] fvs [H1 H2] _ IH]; [done|]. cbn [length decode_fields frame fold_right fst snd].
  fold (frame fvs). rewrite sapp_assoc, (decode_field_bytes f v) by done. cbn [snd fst]. by rewrite IH.
Qed.

Lemma decode_frame_inv count rest fvs rest' :
  decode_fields count rest = Ok (fvs, rest') ->
  length fvs = count /\ rest = frame fvs +:+ rest' /\
  Forall (fun fv => field_typed fv.1 /\ (N.of_nat (String.length (Codec fv.1)) <= 255)%N /\
                    (Present fv.2 = false -> Data fv.2 = "")) fvs.
Proof.
  revert rest fvs. induction count as [|count IH]; intros rest fvs; cbn [decode_fields].
  - intros [= <- <-]. by split_and!.
  - destruct (decode_field rest) as [[[f v] rest1]|] eqn:E; [|done]. cbn [snd fst].
    destruct (decode_fields count rest1) as [[l rest2]|] eqn:E2; [|done]. intros [= <- <-].
    apply decode_field_inv in E as (-> & Ht & Hc & Hp). apply IH in E2 as (<- & -> & Hf).
    cbn [frame fold_right fst snd length]. fold (frame l). rewrite sapp_assoc. split_and!; [done|done|].
    apply Forall_cons. by split.
Qed.

Lemma frame_data_bound fvs : Forall (fun fv => String.length (Data fv.2) <= String.length (frame fvs)) fvs.
Proof.
  induction fvs as [|[f v] fvs IH]; [constructor|]. cbn [frame fold_right fst snd]. fold (frame fvs).
  constructor.
  - cbn [snd]. rewrite slength_app, field_bytes_length. lia.
  - eapply Forall_impl; [exact IH|]. intros x Hx. cbv beta in *. rewrite slength_app. lia.
Qed.

Lemma combine_fst_snd (fvs : list (Field * Value)) : combine fvs.*1 fvs.*2 = fvs.
Proof. induction fvs as [|[f v] fvs IH]; [done|]. exact (f_equal (cons (f, v)) IH). Qed.
Lemma combine_split (fields : list Field) (values : list Value) :
  length values = length fields -> (combine fields values).*1 = fields /\ (combine fields values).*2 = values.
Proof.
  revert values. induction fields as [|f fields IH]; intros [|v values]; simpl; try done.
  intros [= H]. destruct (IH values H) as [H1 H2].
  split; [exact (f_equal (cons f) H1)|exact (f_equal (cons v) H2)].
Qed.

Definition header (fingerprint : string) (count : nat) : string :=
  byte_of Version +:+ fingerprint +:+ byte_of (N.of_nat count).
Definition envelope_fits (fingerprint : string) (fields : list Field) (values : list Value) : Prop :=
  length fields <= 255 /\ length values = length fields /\
  Forall (fun fv => field_fits fv.1 fv.2) (combine fields values) /\
  (N.of_nat (2 + String.length fingerprint + String.length (frame (combine fields values))) <= MaxEnvelopeBytes)%N.

Lemma EncodeEnvelope_ok fingerprint fields values encoded :
  EncodeEnvelope fingerprint fields values = Ok encoded <->
  envelope_fits fingerprint fields values /\
  encoded = b64_encode (header fingerprint (length fields) +:+ frame (combine fields values)).
Proof.
  unfold EncodeEnvelope, envelope_bytes, envelope_fits. fold (header fingerprint (length fields)).
  destruct (Nat.ltb_spec 255 (length fields)) as [H1|H1]; cbn [orb]; [split; [discriminate|intros [[? _] _]; lia]|].
  destruct (Nat.eqb_spec (length values) (length fields)) as [H2|H2]; cbn [negb];
    [|split; [discriminate|intros [(_ & ? & _) _]; done]].
  assert (forall fvs, String.length (header fingerprint (length fields) +:+ frame fvs) =
            2 + String.length fingerprint + String.length (frame fvs)) as Hl.
  { intros fvs. unfold header. rewrite !slength_app. simpl. lia. }
  destruct (foldi encode_step 0 (combine fields values) (header fingerprint (length fields))) as [b|e] eqn:E.
  - apply encode_steps in E as [Hf ->]. rewrite Hl.
    destruct (N.ltb_spec MaxEnvelopeBytes
      (N.of_nat (2 + String.length fingerprint + String.length (frame (combine fields values))))) as [H3|H3].
    + split; [discriminate|intros [(_ & _ & _ & ?) _]; lia].
    + split; [intros [= <-]; by split_and!|by intros [_ ->]].
  - split; [discriminate|]. intros [(_ & _ & Hf & _) _].
    pose proof (proj2 (encode_steps 0 (combine fields values) (header fingerprint (length fields)) _) (conj Hf eq_refl)).
    congruence.
Qed.

Lemma decode_header fingerprint count rest :
  String.length fingerprint = 32 -> count <= 255 ->
  decode_raw (header fingerprint count +:+ rest) =
  (do l <- decode_fields count rest;
   if negb (String.length l.2 =? 0) then Err (errors_New "trailing cursor data")
   else Ok (MkEnvelope fingerprint l.1.*1 l.1.*2)).
Proof.
  intros Hf Hc. unfold header. rewrite !sapp_assoc. unfold byte_of, str1. cbn [String.append].
  unfold decode_raw. rewrite byte_at_0, code_chr by done.
  replace (_ <? headerBytes) with false
    by (symmetry; apply Nat.ltb_ge; cbn [String.length]; rewrite slength_app, Hf; unfold headerBytes; simpl; lia).
  change (negb (N.eqb Version Version)) with false. cbn [orb].
  assert (forall k s, byte_at (String (chr Version) (fingerprint +:+ s)) (S (String.length fingerprint + k)) = byte_at s k) as Hb.
  { intros k s. rewrite byte_at_S. clear. unfold byte_at.
    induction fingerprint as [|c f IH]; [done|]. cbn [String.append String.length plus]. exact IH. }
  replace 33 with (S (String.length fingerprint + 0)) by lia. rewrite Hb, byte_at_0, code_chr, Nat2N.id by lia.
  unfold headerBytes. replace (1 + 32 + 1) with (S (String.length fingerprint + 1)) by lia.
  rewrite sdrop_cons, sdrop_add. cbn [sdrop].
  rewrite <- Hf, stake_app. by destruct (decode_fields count rest) as [[fvs r]|].
Qed.

Lemma decode_raw_inv raw env :
  decode_raw raw = Ok env ->
  String.length (Fingerprint env) = 32 /\ length (Fields env) <= 255 /\ length (Values env) = length (Fields env) /\
  raw = header (Fingerprint env) (length (Fields env)) +:+ frame (combine (Fields env) (Values env)) /\
  Forall (fun fv => field_typed fv.1 /\ (N.of_nat (String.length (Codec fv.1)) <= 255)%N /\
                    (Present fv.2 = false -> Data fv.2 = "")) (combine (Fields env) (Values env)).
Proof.
  unfold decode_raw. destruct (Nat.ltb_spec (String.length raw) headerBytes) as [|Hlen]; cbn [orb]; [done|].
  destruct (N.eqb_spec (byte_at raw 0) Version) as [Hv|]; cbn [negb]; [|done].
  destruct (decode_fields _ _) as [[fvs rest]|] eqn:E; [|done]. cbn [fst snd].
  destruct (Nat.eqb_spec (String.length rest) 0) as [Hr|]; cbn [negb]; [|done].
  remember (stake 32 (sdrop 1 raw)) as fp eqn:Efp. intros [= <-].
  cbn [Fingerprint Fields Values]. apply decode_frame_inv in E as (Hc & Hraw & Hf).
  assert (rest = "") as -> by (by destruct rest). rewrite sapp_nil_r in Hraw.
  rewrite combine_fst_snd, !length_fmap, Hc. unfold headerBytes in *. split_and!; [| | | |done].
  - rewrite Efp, slength_stake, slength_sdrop. lia.
  - pose proof (byte_at_bound raw 33). lia.
  - done.
  - unfold header. rewrite !sapp_assoc, <- Hraw, N2Nat.id.
    rewrite (stake_byte raw) at 1 by lia. unfold byte_of at 1, str1. rewrite Hv. cbn [String.append]. f_equal.
    assert (byte_of (byte_at raw 33) +:+ sdrop (1 + 32 + 1) raw = sdrop 33 raw) as ->.
    { replace (byte_at raw 33) with (byte_at (sdrop 33 raw) 0).
      - replace (sdrop (1 + 32 + 1) raw) with (sdrop 1 (sdrop 33 raw)) by (by rewrite sdrop_sdrop).
        symmetry. apply stake_byte. rewrite slength_sdrop. lia.
      - clear. generalize 33. intros n. revert raw. induction n as [|n IH]; intros raw; [done|].
        destruct raw as [|c raw]; [done|]. rewrite byte_at_S. apply IH. }
    replace (sdrop 33 raw) with (sdrop 32 (sdrop 1 raw)) by (by rewrite sdrop_sdrop). rewrite Efp. symmetry. apply stake_sdrop.
Qed.

Lemma DecodeEnvelope_encoded fp fields values encoded :
  String.length fp = 32 -> Forall field_typed fields ->
  EncodeEnvelope fp fields values = Ok encoded ->
  DecodeEnvelope encoded = Ok (MkEnvelope fp fields values).
Proof.
  intros Hf Ht [(Hn & Hl & Hfit & Hsz) ->]%EncodeEnvelope_ok.
  destruct (combine_split fields values Hl) as [C1 C2].
  unfold DecodeEnvelope. rewrite b64_roundtrip.
  assert (String.length (header fp (length fields) +:+ frame (combine fields values)) =
            2 + String.length fp + String.length (frame (combine fields values))) as ->.
  { unfold header. rewrite !slength_app. simpl. lia. }
  destruct (N.ltb_spec MaxEnvelopeBytes
    (N.of_nat (2 + String.length fp + String.length (frame (combine fields values))))) as [|_]; [lia|].
  rewrite decode_header by done.
  replace (length fields) with (length (combine fields values)) by (rewrite length_combine; lia).
  rewrite <- (sapp_nil_r (frame (combine fields values))), decode_frame.
  + cbn [fst snd]. by rewrite C1, C2.
  + rewrite <- C1 in Ht. rewrite Forall_fmap in Ht. by apply Forall_and.
Qed.

(** C34 The cursor envelope. What [EncodeEnvelope] writes, [DecodeEnvelope]
    reads back unchanged; whatever text [DecodeEnvelope] accepts, its contents
    encode again to the canonical base64 text of the same bytes, so two
    envelopes never share a byte string; and encoding succeeds exactly within
    the format's limits: 255 keys, 255 codec bytes, 65535 data bytes, no
    payload for an absent value, 64 KiB in all. *)
Theorem envelope_roundtrip :
  (forall fingerprint fields values encoded,
     String.length fingerprint = 32 -> Forall field_typed fields ->
     EncodeEnvelope fingerprint fields values = Ok encoded ->
     DecodeEnvelope encoded = Ok (MkEnvelope fingerprint fields values)) /\
  (forall encoded env, DecodeEnvelope encoded = Ok env ->
     exists raw, b64_decode encoded = Some raw /\
       EncodeEnvelope (Fingerprint env) (Fields env) (Values env) = Ok (b64_encode raw)) /\
  (forall fingerprint fields values,
     is_ok (EncodeEnvelope fingerprint fields values) = true <-> envelope_fits fingerprint fields values).
Proof.
  split_and!.
  - intros fp fields values encoded. apply DecodeEnvelope_encoded.
  - intros encoded env. unfold DecodeEnvelope. destruct (b64_decode encoded) as [raw|]; [|done].
    destruct (N.ltb_spec MaxEnvelopeBytes (N.of_nat (String.length raw))) as [|Hsz]; [done|].
    intros (Hf & Hn & Hl & Hraw & Hall)%decode_raw_inv. exists raw. split; [done|].
    apply EncodeEnvelope_ok. rewrite <- Hraw. split; [|done].
    assert (String.length raw = 2 + 32 + String.length (frame (combine (Fields env) (Values env)))) as Hlen.
    { rewrite Hraw at 1. unfold header. rewrite !slength_app, Hf. simpl. lia. }
    split_and!; [done|done| |by rewrite Hf, <- Hlen].
    pose proof (frame_data_bound (combine (Fields env) (Values env))) as Hb.
    rewrite Forall_forall in Hall, Hb |- *. intros fv Hin. destruct (Hall fv Hin) as (_ & Hc & Hp).
    pose proof (Hb fv Hin). split_and!; [done| |done]. unfold MaxEnvelopeBytes in Hsz. lia.
  - intros fp fields values. rewrite is_ok_true. split.
    + by intros [e [? _]%EncodeEnvelope_ok].
    + intros H. eexists. by apply EncodeEnvelope_ok.
Qed.

(** ** 64-bit words *)
(** Case analysis on the comparisons in the goal. *)
Ltac compare_cases :=
  repeat match goal with
  | |- context [(?a <? ?b)%N] => destruct (N.ltb_spec a b)
  | |- context [(?a <=? ?b)%Z] => destruct (Z.leb_spec a b)
  end; try lia.
Lemma width_8 : width 8 = (2 ^ 64)%N.
Proof. done. Qed.

Lemma sign_testbit n : (n < 2 ^ 64)%N -> N.testbit n 63 = (2 ^ 63 <=? n)%N.
Proof.
  intros H. rewrite N.testbit_eqb. destruct (N.leb_spec (2 ^ 63) n) as [Hn|Hn].
  - replace (n / 2 ^ 63)%N with 1%N; [done|]. apply (N.div_unique _ _ _ (n - 2 ^ 63)); lia.
  - by rewrite N.div_small.
Qed.

Lemma land_sign n : (n < 2 ^ 63)%N -> N.land n sign_bit = 0%N.
Proof.
  intros H. apply N.bits_inj_0. intros i. rewrite N.land_spec. unfold sign_bit. rewrite N.pow2_bits_eqb.
  destruct (N.eqb_spec 63 i) as [<-|]; [|apply andb_false_r]. rewrite sign_testbit by lia.
  rewrite andb_true_r. apply N.leb_gt. lia.
Qed.

(** Flipping the sign bit moves a word by half the range. *)
Lemma flip_sign n : (n < 2 ^ 64)%N ->
  N.lxor n sign_bit = (if (n <? 2 ^ 63)%N then n + 2 ^ 63 else n - 2 ^ 63)%N.
Proof.
  intros H. destruct (N.ltb_spec n (2 ^ 63)) as [Hn|Hn].
  - rewrite N.add_nocarry_lxor by (by apply land_sign). done.
  - assert (n = N.lxor (n - 2 ^ 63) sign_bit) as E.
    { rewrite <- N.add_nocarry_lxor by (apply land_sign; lia). unfold sign_bit. lia. }
    rewrite E at 1. by rewrite N.lxor_assoc, N.lxor_nilpotent, N.lxor_0_r.
Qed.

Lemma not64_sub n : (n < 2 ^ 64)%N -> not64 n = (2 ^ 64 - 1 - n)%N.
Proof.
  intros H. unfold not64. change (2 ^ 64 - 1)%N with (N.ones 64). fold (N.lnot n 64).
  destruct (N.eq_0_gt_0_cases n) as [-> |Hp]; [done|]. apply N.lnot_sub_low. by apply N.log2_lt_pow2.
Qed.

Lemma flip_sign_bound n : (n < 2 ^ 64)%N -> (N.lxor n sign_bit < 2 ^ 64)%N.
Proof. intros H. rewrite flip_sign by done. destruct (N.ltb_spec n (2 ^ 63)); lia. Qed.
Lemma flip_sign_twice n : N.lxor (N.lxor n sign_bit) sign_bit = n.
Proof. by rewrite N.lxor_assoc, N.lxor_nilpotent, N.lxor_0_r. Qed.
Lemma not64_twice n : not64 (not64 n) = n.
Proof. unfold not64. by rewrite N.lxor_assoc, N.lxor_nilpotent, N.lxor_0_r. Qed.
Lemma not64_bound n : (n < 2 ^ 64)%N -> (not64 n < 2 ^ 64)%N.
Proof. intros H. rewrite not64_sub by done. lia. Qed.

Lemma uint64_bound z : (uint64 z < 2 ^ 64)%N.
Proof. unfold uint64. pose proof (Z.mod_pos_bound z (2 ^ 64) ltac:(done)). lia. Qed.
Lemma uint64_signed z : (- 2 ^ 63 <= z < 2 ^ 63)%Z ->
  uint64 z = if (0 <=? z)%Z then Z.to_N z else Z.to_N (z + 2 ^ 64).
Proof.
  intros H. unfold uint64. f_equal. destruct (Z.leb_spec 0 z); f_equal.
  - apply Z.mod_small. lia.
  - symmetry. apply (Z.mod_unique _ _ (-1)); lia.
Qed.
Lemma int64_uint64 z : (- 2 ^ 63 <= z < 2 ^ 63)%Z -> int64 (uint64 z) = z.
Proof.
  intros H. rewrite uint64_signed by done. unfold int64.
  compare_cases.
Qed.
Lemma int64_range n : (n < 2 ^ 64)%N -> (- 2 ^ 63 <= int64 n < 2 ^ 63)%Z.
Proof. intros H. unfold int64. destruct (N.ltb_spec n (2 ^ 63)); lia. Qed.
Lemma uint64_int64 n : (n < 2 ^ 64)%N -> uint64 (int64 n) = n.
Proof.
  intros H. rewrite uint64_signed by (by apply int64_range). unfold int64.
  compare_cases.
Qed.
(** The biased word of a signed integer. *)
Lemma bias_int z : (- 2 ^ 63 <= z < 2 ^ 63)%Z -> N.lxor (uint64 z) sign_bit = Z.to_N (z + 2 ^ 63).
Proof.
  intros H. rewrite flip_sign by apply uint64_bound. rewrite uint64_signed by done.
  compare_cases.
Qed.

(** ** Values *)
Definition type_of (v : go_value) : go_type :=
  match v with
  | VNil | VOther _ => TOther
  | VTime _ _ => TTime
  | VFloat w _ => TFloat w
  | VBool _ => TBool
  | VInt w _ => TInt w
  | VUint w _ => TUint w
  | VString _ => TString
  | VBytes _ => TBytes
  end.
(** Values of their Go type. *)
Definition typed (v : go_value) : Prop :=
  match v with
  | VNil | VOther _ | VBool _ | VString _ | VBytes _ => True
  | VTime s n => (- 2 ^ 63 <= s < 2 ^ 63)%Z /\ (0 <= n < 1000000000)%Z
  | VFloat w b => (b < 2 ^ 64)%N /\ (w = 32%N -> float32_exact b = true)
  | VInt w z => (1 <= w <= 64)%N /\ (- 2 ^ (Z.of_N w - 1) <= z < 2 ^ (Z.of_N w - 1))%Z
  | VUint w n => (w <= 64)%N /\ (n < 2 ^ w)%N
  end.
Definition typed_as (t : go_type) : Prop :=
  match t with TInt w => (1 <= w <= 64)%N | TUint w => (w <= 64)%N | _ => True end.
Definition is_negative_zero (v : go_value) : bool :=
  match v with VFloat _ b => N.eqb b negative_zero | _ => false end.

Lemma int_range w z : (1 <= w <= 64)%N -> (- 2 ^ (Z.of_N w - 1) <= z < 2 ^ (Z.of_N w - 1))%Z -> (- 2 ^ 63 <= z < 2 ^ 63)%Z.
Proof.
  intros Hw Hz. assert (2 ^ (Z.of_N w - 1) <= 2 ^ 63)%Z by (apply Z.pow_le_mono_r; lia). lia.
Qed.
Lemma uint_range w n : (w <= 64)%N -> (n < 2 ^ w)%N -> (n < 2 ^ 64)%N.
Proof. intros Hw Hn. assert (2 ^ w <= 2 ^ 64)%N by (apply N.pow_le_mono_r; lia). lia. Qed.

Lemma get_put_64 n : (n < 2 ^ 64)%N -> get_be (put_be 8 n) = n.
Proof. intros H. rewrite get_put_be, width_8. by apply N.mod_small. Qed.
Lemma put_get_64 s : String.length s = 8 -> put_be 8 (get_be s) = s.
Proof. intros H. rewrite <- H. apply put_get_be. Qed.
Lemma get_64_bound s : String.length s = 8 -> (get_be s < 2 ^ 64)%N.
Proof. intros H. pose proof (get_be_bound s) as B. by rewrite H in B. Qed.

(** The word a float is written as, read back by its leading bit. *)
Definition float_word (b : N) : N := if float_nonneg b then N.lxor b sign_bit else not64 b.
Definition word_float (w : N) : N := if N.testbit w 63 then N.lxor w sign_bit else not64 w.

Lemma float_word_sign b : (b < 2 ^ 64)%N -> is_nan b = false -> b <> negative_zero ->
  float_word b = (if N.testbit b 63 then 2 ^ 64 - 1 - b else b + 2 ^ 63)%N /\ (float_word b < 2 ^ 64)%N.
Proof.
  intros Hb Hn Hz. unfold float_word, float_nonneg. rewrite Hn. cbn [negb andb].
  rewrite (proj2 (N.eqb_neq b negative_zero) Hz), orb_false_r, sign_testbit by done.
  destruct (N.leb_spec (2 ^ 63) b); cbn [negb].
  - rewrite not64_sub by done. lia.
  - rewrite flip_sign by done. destruct (N.ltb_spec b (2 ^ 63)); lia.
Qed.

Lemma word_float_word b : (b < 2 ^ 64)%N -> is_nan b = false -> b <> negative_zero -> word_float (float_word b) = b.
Proof.
  intros Hb Hn Hz. destruct (float_word_sign b Hb Hn Hz) as [E B]. unfold word_float. rewrite sign_testbit by done.
  unfold float_word, float_nonneg in *. rewrite Hn in *. cbn [negb andb] in *.
  rewrite (proj2 (N.eqb_neq b negative_zero) Hz), orb_false_r, sign_testbit in * by done.
  destruct (N.leb_spec (2 ^ 63) b); cbn [negb] in *.
  - replace (2 ^ 63 <=? not64 b)%N with false by (symmetry; apply N.leb_gt; lia). apply not64_twice.
  - replace (2 ^ 63 <=? N.lxor b sign_bit)%N with true by (symmetry; apply N.leb_le; lia). apply flip_sign_twice.
Qed.

Lemma float_word_float w : (w < 2 ^ 64)%N -> is_nan (word_float w) = false -> word_float w <> negative_zero ->
  float_word (word_float w) = w /\ (word_float w < 2 ^ 64)%N.
Proof.
  intros Hw Hn Hz. unfold float_word, float_nonneg. rewrite Hn. cbn [negb andb].
  rewrite (proj2 (N.eqb_neq _ negative_zero) Hz), orb_false_r. unfold word_float in *.
  rewrite (sign_testbit w) in * by done. destruct (N.leb_spec (2 ^ 63) w) as [H|H].
  - assert (N.lxor w sign_bit < 2 ^ 63)%N as B.
    { rewrite flip_sign by done. destruct (N.ltb_spec w (2 ^ 63)); lia. }
    rewrite sign_testbit by lia. destruct (N.leb_spec (2 ^ 63) (N.lxor w sign_bit)); [lia|]. cbn [negb].
    split; [apply flip_sign_twice|lia].
  - assert (2 ^ 63 <= not64 w < 2 ^ 64)%N as B by (rewrite not64_sub by done; lia).
    rewrite sign_testbit by lia. destruct (N.leb_spec (2 ^ 63) (not64 w)); [|lia]. cbn [negb].
    split; [apply not64_twice|lia].
Qed.

(** Injectivity of [Ok] that leaves its argument alone. *)
Lemma Ok_eq {A} (a b : A) : Ok a = Ok b -> a = b.
Proof. by intros [= ->]. Qed.

Lemma encode_decode v data :
  typed v -> is_negative_zero v = false -> EncodeValue v = Ok data -> DecodeValue data (type_of v) = Ok v.
Proof.
  destruct v as [|s n|w b|b|w z|w n|s|s|i]; cbn [typed is_negative_zero EncodeValue type_of]; try discriminate.
  - intros [Hs Hn] _ <-%Ok_eq. unfold DecodeValue. rewrite slength_app, !put_be_length. cbn [Nat.eqb negb plus].
    rewrite stake_be, sdrop_be, get_put_64 by apply uint64_bound.
    rewrite get_put_be, N.mod_small by (change (width 4) with 4294967296%N; lia).
    rewrite int64_uint64 by done. destruct (N.leb_spec 1000000000 (Z.to_N n)); [lia|]. by rewrite Z2N.id by lia.
  - intros [Hb Hw] Hz%N.eqb_neq. destruct (is_nan b) eqn:En; [discriminate|]. intros <-%Ok_eq.
    fold (float_word b). destruct (float_word_sign b Hb En Hz) as [_ Hfw].
    unfold DecodeValue. rewrite put_be_length. cbn [Nat.eqb negb]. rewrite get_put_64 by done.
    fold (word_float (float_word b)). rewrite word_float_word, En by done.
    destruct (N.eqb_spec w 32) as [-> |]; [by rewrite Hw|done].
  - intros _ _ <-%Ok_eq. by destruct b.
  - intros [Hw Hz] _ <-%Ok_eq. pose proof (int_range w z Hw Hz) as H. unfold DecodeValue. rewrite put_be_length.
    cbn [Nat.eqb negb]. rewrite get_put_64 by (apply flip_sign_bound, uint64_bound).
    rewrite flip_sign_twice, int64_uint64 by done.
    destruct (Z.ltb_spec z (- 2 ^ (Z.of_N w - 1))); [lia|].
    destruct (Z.ltb_spec (2 ^ (Z.of_N w - 1) - 1) z); [lia|]. by rewrite andb_false_r.
  - intros [Hw Hn] _ <-%Ok_eq. unfold DecodeValue. rewrite put_be_length. cbn [Nat.eqb negb].
    rewrite get_put_64 by (by apply (uint_range w)).
    destruct (N.ltb_spec (2 ^ w - 1) n); [lia|]. by rewrite andb_false_r.
  - by intros _ _ <-%Ok_eq.
  - by intros _ _ <-%Ok_eq.
Qed.

Lemma decode_encode data typ v :
  typed_as typ -> DecodeValue data typ = Ok v ->
  type_of v = typ /\ typed v /\ (is_negative_zero v = false -> EncodeValue v = Ok data).
Proof.
  intros Ht. destruct typ as [|w| |w|w| | |]; unfold DecodeValue; cbv zeta.
  - destruct (Nat.eqb_spec (String.length data) 12) as [Hl|]; cbn [negb]; [|discriminate].
    destruct (N.leb_spec 1000000000 (get_be (sdrop 8 data))) as [|Hn]; [discriminate|]. intros <-%Ok_eq.
    assert (String.length (stake 8 data) = 8) as H8 by (rewrite slength_stake; lia).
    pose proof (get_64_bound _ H8) as Hb. split_and!; [done|split; [by apply int64_range|lia]|]. intros _.
    cbn [EncodeValue]. rewrite uint64_int64, put_get_64, N2Z.id by done.
    assert (put_be 4 (get_be (sdrop 8 data)) = sdrop 8 data) as ->; [|by rewrite stake_sdrop].
    rewrite <- (put_get_be (sdrop 8 data)) at 2. by rewrite slength_sdrop, Hl.
  - destruct (Nat.eqb_spec (String.length data) 8) as [Hl|]; cbn [negb]; [|discriminate].
    fold (word_float (get_be data)). destruct (is_nan (word_float (get_be data))) eqn:En; [discriminate|].
    pose proof (get_64_bound _ Hl) as Hb.
    assert (word_float (get_be data) < 2 ^ 64)%N as Hb'.
    { unfold word_float. destruct (N.testbit _ _); [by apply flip_sign_bound|by apply not64_bound]. }
    destruct (N.eqb_spec w 32) as [-> |Hw]; cbn [andb].
    + destruct (float32_exact _) eqn:Ef; cbn [negb]; [|discriminate]. intros <-%Ok_eq.
      split_and!; [done|by split|]. cbn [is_negative_zero]. intros Hz%N.eqb_neq. cbn [EncodeValue]. rewrite En.
      fold (float_word (word_float (get_be data))).
      destruct (float_word_float _ Hb En Hz) as [-> _]. by rewrite put_get_64.
    + intros <-%Ok_eq. split_and!; [done|by split|]. cbn [is_negative_zero]. intros Hz%N.eqb_neq.
      cbn [EncodeValue]. rewrite En. fold (float_word (word_float (get_be data))).
      destruct (float_word_float _ Hb En Hz) as [-> _]. by rewrite put_get_64.
  - destruct (Nat.eqb_spec (String.length data) 1) as [Hl|]; cbn [negb orb]; [|discriminate].
    destruct (1 <? byte_at data 0)%N eqn:Hb; [discriminate|]. intros <-%Ok_eq. split_and!; [done|done|]. intros _.
    cbn [EncodeValue]. rewrite marker_back by done. f_equal. symmetry.
    rewrite (stake_byte data) at 1 by lia. destruct data as [|c [|? ?]]; done.
  - destruct (Nat.eqb_spec (String.length data) 8) as [Hl|]; cbn [negb]; [|discriminate].
    pose proof (get_64_bound _ Hl) as Hb. pose proof (flip_sign_bound _ Hb) as Hf.
    pose proof (int64_range _ Hf) as Hr. simpl in Ht.
    destruct ((w <? 64)%N && _) eqn:Ec; [discriminate|]. intros <-%Ok_eq. split_and!; [done| |].
    + split; [done|]. destruct (N.ltb_spec w 64) as [Hw|Hw]; cbn [andb] in Ec.
      * apply orb_false_iff in Ec as [E1%Z.ltb_ge E2%Z.ltb_ge]. lia.
      * assert (w = 64)%N as -> by lia. exact Hr.
    + intros _. cbn [EncodeValue]. by rewrite uint64_int64, flip_sign_twice, put_get_64.
  - destruct (Nat.eqb_spec (String.length data) 8) as [Hl|]; cbn [negb]; [|discriminate].
    pose proof (get_64_bound _ Hl) as Hb. simpl in Ht.
    destruct ((w <? 64)%N && _) eqn:Ec; [discriminate|]. intros <-%Ok_eq. split_and!; [done| |].
    + split; [done|]. destruct (N.ltb_spec w 64) as [Hw|Hw]; cbn [andb] in Ec.
      * apply N.ltb_ge in Ec. pose proof (N.pow_nonzero 2 w ltac:(done)). lia.
      * assert (w = 64)%N as -> by lia. exact Hb.
    + intros _. cbn [EncodeValue]. by rewrite put_get_64.
  - by intros <-%Ok_eq.
  - by intros <-%Ok_eq.
  - discriminate.
Qed.

(** *** Order *)
(** The value of a float's bits, up to scale: [math] compares floats that are
    not NaN by sign and magnitude, both zeros being equal. *)
Definition float_key (b : N) : Z := if N.testbit b 63 then (2 ^ 63 - Z.of_N b)%Z else Z.of_N b.
Definition value_ltb (v v' : go_value) : bool :=
  match v, v' with
  | VTime s n, VTime s' n' => (s <? s')%Z || ((s =? s')%Z && (n <? n')%Z)
  | VFloat _ b, VFloat _ b' => (float_key b <? float_key b')%Z
  | VBool b, VBool b' => negb b && b'
  | VInt _ z, VInt _ z' => (z <? z')%Z
  | VUint _ n, VUint _ n' => (n <? n')%N
  | VString s, VString s' | VBytes s, VBytes s' => str_ltb s s'
  | _, _ => false
  end.

Lemma put_64_order n n' : (n < 2 ^ 64)%N -> (n' < 2 ^ 64)%N -> str_ltb (put_be 8 n) (put_be 8 n') = (n <? n')%N.
Proof. apply (put_be_order 8). Qed.

Lemma float_word_order b b' :
  (b < 2 ^ 64)%N -> is_nan b = false -> b <> negative_zero ->
  (b' < 2 ^ 64)%N -> is_nan b' = false -> b' <> negative_zero ->
  (float_word b <? float_word b')%N = (float_key b <? float_key b')%Z.
Proof.
  intros Hb Hn Hz Hb' Hn' Hz'. destruct (float_word_sign b Hb Hn Hz) as [-> _].
  destruct (float_word_sign b' Hb' Hn' Hz') as [-> _]. unfold float_key. rewrite !sign_testbit by done.
  unfold negative_zero, sign_bit in *.
  destruct (N.leb_spec (2 ^ 63) b), (N.leb_spec (2 ^ 63) b'); apply eq_true_iff_eq;
    rewrite N.ltb_lt, Z.ltb_lt; lia.
Qed.

Lemma encode_order v v' data data' :
  typed v -> typed v' -> type_of v = type_of v' -> type_of v <> TTime ->
  is_negative_zero v = false -> is_negative_zero v' = false ->
  EncodeValue v = Ok data -> EncodeValue v' = Ok data' -> str_ltb data data' = value_ltb v v'.
Proof.
  destruct v as [|s n|w b|b|w z|w n|s|s|i], v' as [|s' n'|w' b'|b'|w' z'|w' n'|s'|s'|i'];
    cbn [typed type_of is_negative_zero EncodeValue value_ltb]; try discriminate; try done.
  - intros [Hb _] [Hb' _] _ _ Hz%N.eqb_neq Hz'%N.eqb_neq.
    destruct (is_nan b) eqn:En; [discriminate|]. destruct (is_nan b') eqn:En'; [discriminate|].
    intros <-%Ok_eq <-%Ok_eq. fold (float_word b) (float_word b').
    rewrite put_64_order by (by apply float_word_sign). by apply float_word_order.
  - intros _ _ _ _ _ _ <-%Ok_eq <-%Ok_eq. by destruct b, b'.
  - intros [Hw Hz] [Hw' Hz'] _ _ _ _ <-%Ok_eq <-%Ok_eq. pose proof (int_range w z Hw Hz).
    pose proof (int_range w' z' Hw' Hz'). rewrite put_64_order by apply flip_sign_bound, uint64_bound.
    rewrite !bias_int by done. apply eq_true_iff_eq. rewrite N.ltb_lt, Z.ltb_lt. lia.
  - intros [Hw Hn] [Hw' Hn'] _ _ _ _ <-%Ok_eq <-%Ok_eq. apply put_64_order; [by apply (uint_range w)|by apply (uint_range w')].
  - by intros _ _ _ _ _ _ <-%Ok_eq <-%Ok_eq.
  - by intros _ _ _ _ _ _ <-%Ok_eq <-%Ok_eq.
Qed.

(** C35 Cursor values. A value of a built-in type, negative zero excepted,
    decodes from its encoding as exactly that value; whatever bytes decode at a
    type give a value of that type and in its range, which encodes to the same
    bytes; and the bytes of two values of one type other than time compare like
    the values: signed, unsigned, floating point, boolean or text. *)
Theorem value_codec :
  (forall v data, typed v -> is_negative_zero v = false -> EncodeValue v = Ok data ->
     DecodeValue data (type_of v) = Ok v) /\
  (forall data typ v, typed_as typ -> DecodeValue data typ = Ok v ->
     type_of v = typ /\ typed v /\ (is_negative_zero v = false -> EncodeValue v = Ok data)) /\
  (forall v v' data data',
     typed v -> typed v' -> type_of v = type_of v' -> type_of v <> TTime ->
     is_negative_zero v = false -> is_negative_zero v' = false ->
     EncodeValue v = Ok data -> EncodeValue v' = Ok data' -> str_ltb data data' = value_ltb v v').
Proof. split_and!; [exact encode_decode|exact decode_encode|exact encode_order]. Qed.

(** -2.5 and 1 as float64 bits. *)
Definition minus_two_and_a_half : N := 13836184216308252672.
Definition one : N := 4607182418800017408.
Lemma value_codec_witness :
  exists data data', EncodeValue (VFloat 64 minus_two_and_a_half) = Ok data /\ EncodeValue (VFloat 64 one) = Ok data' /\
    DecodeValue data (TFloat 64) = Ok (VFloat 64 minus_two_and_a_half) /\ str_ltb data data' = true.
Proof.
  destruct (EncodeValue (VFloat 64 minus_two_and_a_half)) as [data|] eqn:E; [|discriminate E].
  destruct (EncodeValue (VFloat 64 one)) as [data'|] eqn:E'; [|discriminate E'].
  assert (forall b, (b <? 2 ^ 64)%N = true -> typed (VFloat 64 b)) as T.
  { intros b Hb. split; [exact (proj1 (N.ltb_lt _ _) Hb)|discriminate]. }
  exists data, data'. split; [reflexivity|]. split; [reflexivity|]. split.
  - apply (proj1 value_codec (VFloat 64 minus_two_and_a_half)); [apply T; reflexivity|reflexivity|exact E].
  - rewrite (proj2 (proj2 value_codec) (VFloat 64 minus_two_and_a_half) (VFloat 64 one) data data'
      (T minus_two_and_a_half eq_refl) (T one eq_refl) eq_refl ltac:(discriminate) eq_refl eq_refl E E'). reflexivity.
Defined.

Definition sample_fields : list Field := [MkField 1 false 0 ""; MkField 2 true 2 "money"].
Definition sample_values : list Value := [MkValue true "abc"; MkValue false ""].
Definition sample_fingerprint : string := "0123456789abcdef0123456789abcdef".
Lemma envelope_roundtrip_witness :
  exists encoded, EncodeEnvelope sample_fingerprint sample_fields sample_values = Ok encoded /\
    DecodeEnvelope encoded = Ok (MkEnvelope sample_fingerprint sample_fields sample_values).
Proof.
  destruct (EncodeEnvelope sample_fingerprint sample_fields sample_values) as [encoded|] eqn:E; [|discriminate E].
  exists encoded. split; [reflexivity|].
  apply (proj1 envelope_roundtrip sample_fingerprint sample_fields sample_values encoded); [reflexivity| |exact E].
  repeat (constructor; [split; reflexivity|]). constructor.
Defined.

(** Negative zero is biased like a positive number, to the word zero, which
    reads back as a NaN: a cursor that carries it is refused. *)
Lemma negative_zero_undecodable :
  exists data, EncodeValue (VFloat 64 negative_zero) = Ok data /\
    DecodeValue data (TFloat 64) = Err (errors_New "NaN is not a cursor value").
Proof. eexists. split; vm_compute; reflexivity. Qed.
(** The seconds of a time are not biased: an instant before 1970 sorts after
    one that follows it. *)
Lemma time_order_broken :
  exists before after, EncodeValue (VTime (-1) 0) = Ok before /\ EncodeValue (VTime 1 0) = Ok after /\
    str_ltb before after = false /\ value_ltb (VTime (-1) 0) (VTime 1 0) = true.
Proof. do 2 eexists. split_and!; vm_compute; reflexivity. Qed.
