(* ===== verification/Page.v ===== *)
(** * Page: [cursor.go] and [page.go]

    Keyset pagination: page keys and specifications, the cursor they are
    written into, the predicate that resumes after a cursor, and the loop that
    cuts a page.  Compiling the query is not modelled: the fingerprint of the
    compiled query and the rows the database returns are parameters.  A row is
    of an arbitrary type, as the Go code is generic in it. *)

From S2P Require Import Prelude GoText Bytes CursorCodec Query.
Open Scope string_scope.
Open Scope list_scope.
Open Scope nat_scope.

Definition planError (code path detail : string) : error :=
  MkError (KTyped "planerr.Error") code [AStr path; AStr detail].

(** [planerr.Wrap] with the cause's message as its detail. *)
Definition planWrap (code path : string) (cause : error) : error :=
  MkError (KTyped "planerr.Error") code [AStr path; AErr cause].

(** ** Keys *)
Definition NullOrderDefault : N := 0.
Definition NullsFirst : N := 1.
Definition NullsLast : N := 2.
Definition PageAscending : N := 1.
Definition PageDescending : N := 2.

(** A key and its order term; [k_ptr] is its address, which two values share
    only when they are the same key. *)
Record pageKey (R : Type) := MkKey {
  k_ptr : string;
  k_node : expression; k_source : string; k_descending : bool; k_nulls : N;
  k_direction : N; k_nullable : bool; k_codec : string; k_typ : go_type;
  k_extract : R -> result (bool * go_value) }.
Arguments MkKey {R}.
Arguments k_ptr {R}.
Arguments k_node {R}.
Arguments k_source {R}.
Arguments k_descending {R}.
Arguments k_nulls {R}.
Arguments k_direction {R}.
Arguments k_nullable {R}.
Arguments k_codec {R}.
Arguments k_typ {R}.
Arguments k_extract {R}.

(** Codecs registered under an identifier, which can write cursor values. *)
Record CursorValueCodec := MkCodec {
  EncodeCursor : go_value -> result string; DecodeCursor : string -> result go_value }.

Record PagePolicy := MkPolicy { DefaultLimit : Z; MaxLimit : Z }.
Definition DefaultPagePolicy : PagePolicy := MkPolicy 50 1000.
Record PageRequest := MkRequest { r_Limit : Z; After : string }.
Definition max_int : Z := 2 ^ 63 - 1.

Record decodedCursor := MkDecoded { d_present : bool; d_value : go_value }.
Definition ErrInvalidCursor : error := errors_New "rasql: invalid cursor".
Definition invalidCursor (cause : error) : error := Errorf "%w: %w" [AErr ErrInvalidCursor; AErr cause].

Section Page.
Context {R : Type}.

(** *** Constructors: a copy error of [adoptBind] is part of [extract] *)
Definition AscKey (ptr : string) (node : expression) (source codec : string) (typ : go_type)
  (extract : R -> result go_value) : pageKey R :=
  MkKey ptr node source false NullOrderDefault PageAscending false codec typ
    (fun row => do owned <- extract row; Ok (true, owned)).
Definition DescKey (ptr : string) (node : expression) (source codec : string) (typ : go_type)
  (extract : R -> result go_value) : pageKey R :=
  MkKey ptr node source true NullOrderDefault PageDescending false codec typ
    (fun row => do owned <- extract row; Ok (true, owned)).
Definition newNullPageKey (ptr : string) (node : expression) (source codec : string) (typ : go_type)
  (extract : R -> result (option go_value)) (direction nulls : N) : pageKey R :=
  MkKey ptr node source (N.eqb direction PageDescending) nulls direction true codec typ
    (fun row => do value <- extract row;
                match value with None => Ok (false, VNil) | Some owned => Ok (true, owned) end).

(** An argument that is not a page key, or a nil one, is [None]. *)
Definition NewPageSpec (order uniqueSuffix : list (option (pageKey R))) : result (list (pageKey R)) :=
  if length order =? 0 then Err (planError "invalid_page_spec" "order" "must not be empty")
  else if length uniqueSuffix =? 0 then Err (planError "order_not_unique" "uniqueSuffix" "must not be empty")
  else if 255 <? length order then Err (planError "invalid_page_spec" "order" "must contain at most 255 keys")
  else
    do keys <- foldi (fun i item keys =>
      match item with
      | Some key =>
          if is_nil (k_node key)
          then Err (planError "invalid_page_spec" ("order[" +:+ pretty i +:+ "]") "must be a valid page key")
          else if k_nullable key && N.eqb (k_nulls key) NullOrderDefault
          then Err (planError "invalid_page_spec" ("order[" +:+ pretty i +:+ "]") "nullable keys require explicit NULL order")
          else Ok (keys ++ [key])
      | None => Err (planError "invalid_page_spec" ("order[" +:+ pretty i +:+ "]") "must be a valid page key")
      end) 0 order [];
    check checki (fun i item =>
      match item with
      | Some key =>
          let at_ := (Z.of_nat (length keys) - Z.of_nat (length uniqueSuffix) + Z.of_nat i)%Z in
          if (at_ <? 0)%Z || negb (match keys !! Z.to_nat at_ with
                                   | Some k => String.eqb (k_ptr k) (k_ptr key) | None => false end)
          then Err (planError "order_not_unique" "uniqueSuffix" "must match the terminal page keys")
          else Ok tt
      | None => Err (planError "invalid_page_spec" ("uniqueSuffix[" +:+ pretty i +:+ "]") "must be a valid page key")
      end) 0 uniqueSuffix;
    Ok keys.

(** [pageKeyFields]: the metadata of the keys in a cursor. *)
Definition pageKeyFields (keys : list (pageKey R)) : list Field :=
  map (fun key => MkField (k_direction key) (k_nullable key) (k_nulls key) (k_codec key)) keys.

(** The page size: the policy's checks and defaults. *)
Definition page_limit (policy : PagePolicy) (request : PageRequest) : result Z :=
  let policy := if Z.eqb (DefaultLimit policy) 0 && Z.eqb (MaxLimit policy) 0 then DefaultPagePolicy else policy in
  if (DefaultLimit policy <? 1)%Z || (MaxLimit policy <? DefaultLimit policy)%Z || (max_int - 1 <? MaxLimit policy)%Z
  then Err (planError "invalid_page_policy" "policy" "limits are invalid")
  else
    let limit := if Z.eqb (r_Limit request) 0 then DefaultLimit policy else r_Limit request in
    if (limit <? 0)%Z || (MaxLimit policy <? limit)%Z
    then Err (planError "invalid_page_limit" "request.limit" "limit is outside policy")
    else Ok limit.

(** ** Cursor values *)
Section Codecs.
(** The registry of the executor; a registered codec may lack the cursor methods. *)
Variable Lookup : string -> option (option CursorValueCodec).

Definition cursorCodecFrom (id : string) : result CursorValueCodec :=
  match Lookup id with
  | None => Err (Errorf "codec %q unavailable" [AStr id])
  | Some None => Err (Errorf "codec %q does not support cursors" [AStr id])
  | Some (Some cursor) => Ok cursor
  end.
Definition encodePageValue (key : pageKey R) (value : go_value) : result string :=
  if negb (k_nullable key) && match value with VNil => true | _ => false end then Err (errors_New "nil cursor value")
  else if String.eqb (k_codec key) "" then EncodeValue value
  else do codec <- cursorCodecFrom (k_codec key); EncodeCursor codec value.
Definition decodePageValue (key : pageKey R) (data : string) : result go_value :=
  if String.eqb (k_codec key) "" then DecodeValue data (k_typ key)
  else do codec <- cursorCodecFrom (k_codec key); DecodeCursor codec data.

#[local] Instance Field_eq_dec : EqDecision Field.
Proof. solve_decision. Defined.

(* [PageOrder.DecodeEnvelope_lengths]: an envelope has a value per field, so
   the last branch is never taken. *)
Definition decode_key (fields : list Field) (envelope : Envelope) (i : nat) (key : pageKey R)
  (values : list decodedCursor) : result (list decodedCursor) :=
  if negb (bool_decide (Fields envelope !! i = fields !! i))
  then Err (invalidCursor (errors_New "cursor metadata mismatch"))
  else match Values envelope !! i with
  | Some value =>
      if negb (Present value)
      then if negb (k_nullable key) then Err (invalidCursor (errors_New "invalid absent cursor value"))
           else Ok (values ++ [MkDecoded false VNil])
      else match decodePageValue key (Data value) with
           | Err e => Err (invalidCursor e)
           | Ok decoded => Ok (values ++ [MkDecoded true decoded])
           end
  | None => Ok values
  end.
Definition decodePageCursor (cursor : string) (keys : list (pageKey R)) : result (list decodedCursor * string) :=
  do envelope <- wrap_err invalidCursor (DecodeEnvelope cursor);
  if negb (length (Fields envelope) =? length keys) then Err (invalidCursor (errors_New "cursor arity mismatch"))
  else
    do values <- foldi (decode_key (pageKeyFields keys) envelope) 0 keys [];
    Ok (values, Fingerprint envelope).
End Codecs.

(** ** The predicate *)
Section Predicate.
(** [bindToken]: a bound value and its codec as an argument of the query. *)
Variable bindToken : go_value -> string -> any.
Definition cursorBind (value : go_value) (codec : string) : expression := Bind (bindToken value codec).

Definition absent : decodedCursor := MkDecoded false VNil.
Definition cursor_at (cursors : list decodedCursor) (i : nat) : decodedCursor := default absent (cursors !! i).

(** A key before the compared one holds the cursor's value. *)
Definition prior_part (prior : pageKey R) (c : decodedCursor) : expression :=
  if negb (d_present c) then IsNull (k_node prior)
  else And [IsNotNull (k_node prior);
            Equal (OpExpression (k_node prior)) (OpExpression (cursorBind (d_value c) (k_codec prior)))].
(** The compared key comes after the cursor's value; [None]: it cannot. *)
Definition current_part (key : pageKey R) (c : decodedCursor) : option expression :=
  let current := k_node key in
  if negb (d_present c) then
    if N.eqb (k_nulls key) NullsFirst then Some (IsNotNull current) else None
  else
    let bound := OpExpression (cursorBind (d_value c) (k_codec key)) in
    let comparison := if N.eqb (k_direction key) PageDescending then LessThan (OpExpression current) bound
                      else GreaterThan (OpExpression current) bound in
    let branch := And [IsNotNull current; comparison] in
    Some (if N.eqb (k_nulls key) NullsLast then Or [IsNull current; branch] else branch).
Definition and_parts (parts : list expression) : expression :=
  match parts with [part] => part | _ => And parts end.

Definition keyset_branch (keys : list (pageKey R)) (cursors : list decodedCursor) (i : nat) (key : pageKey R)
  (branches : list expression) : result (list expression) :=
  let c := cursor_at cursors i in
  if negb (d_present c) && negb (k_nullable key)
  then Err (invalidCursor (errors_New "missing non-null cursor value"))
  else
    let prior := map (fun j => match keys !! j with Some p => prior_part p (cursor_at cursors j) | None => ENil end)
                     (seq 0 i) in
    match current_part key c with
    | None => Ok branches
    | Some part => Ok (branches ++ [and_parts (prior ++ [part])])
    end.

(** A predicate, none to add, or none that any row satisfies. *)
Inductive keyset := NoPredicate | Impossible | After_ (predicate : expression).
Definition keysetPredicate (keys : list (pageKey R)) (cursors : list decodedCursor) : result keyset :=
  if length cursors =? 0 then Ok NoPredicate
  else
    do branches <- foldi (keyset_branch keys cursors) 0 keys [];
    Ok (match branches with
        | [] => Impossible
        | [branch] => After_ branch
        | _ => After_ (Or branches)
        end).
End Predicate.

(** ** Cutting a page *)
Record Page_ := MkPage { p_Values : list R; p_Next : string; HasMore : bool }.

(** The loop over the rows: [limit] are kept, one more shows there are more. *)
Fixpoint consume_rows (limit : nat) (rows : list (result R)) (values : list R) : result (list R * bool) :=
  match rows with
  | [] => Ok (values, false)
  | Err e :: _ => Err e
  | Ok row :: rows' =>
      if length values <? limit then consume_rows limit rows' (values ++ [row])
      else if length values =? limit then Ok (values, true)
      else consume_rows limit rows' values
  end.

Definition cursor_value (Lookup : string -> option (option CursorValueCodec)) (last : R) (key : pageKey R) : result Value :=
  do extracted <- k_extract key last;
  if extracted.1
  then do data <- encodePageValue Lookup key extracted.2; Ok (MkValue true data)
  else Ok (MkValue false "").
(** The cursor after a row. *)
Definition page_cursor (Lookup : string -> option (option CursorValueCodec)) (keys : list (pageKey R))
  (fingerprint : string) (last : R) : result string :=
  do values <- foldi (fun _ key values => do v <- cursor_value Lookup last key; Ok (values ++ [v])) 0 keys [];
  EncodeEnvelope fingerprint (pageKeyFields keys) values.
Definition consumePreparedPage (Lookup : string -> option (option CursorValueCodec)) (keys : list (pageKey R))
  (limit : nat) (fingerprint : string) (rows : list (result R)) : result Page_ :=
  do consumed <- consume_rows limit rows [];
  if negb consumed.2 then Ok (MkPage consumed.1 "" false)
  else match List.last (map Some consumed.1) None with
  | None => Ok (MkPage consumed.1 "" true)
  | Some last =>
      do next <- page_cursor Lookup keys fingerprint last;
      Ok (MkPage consumed.1 next true)
  end.

(** The keys' codecs have to be registered and able to write cursors. *)
Definition page_codecs (Lookup : string -> option (option CursorValueCodec)) (keys : list (pageKey R)) : result unit :=
  checki (fun i key =>
    if String.eqb (k_codec key) "" then Ok tt
    else match cursorCodecFrom Lookup (k_codec key) with
         | Ok _ => Ok tt
         | Err e => Err (planWrap "codec_unavailable" ("page.order[" +:+ pretty i +:+ "].codec") e)
         end) 0 keys.
(** [PageAfter] around the compiled query: [fetch] runs it with the predicate
    added and a limit, [fingerprint] is the compiled query's. *)
Definition PageAfter (Lookup : string -> option (option CursorValueCodec)) (bindToken : go_value -> string -> any)
  (fetch : option expression -> Z -> list (result R)) (fingerprint : string)
  (keys : list (pageKey R)) (policy : PagePolicy) (request : PageRequest) : result Page_ :=
  if length keys =? 0 then Err (planError "invalid_page_spec" "order" "must not be empty")
  else
    do limit <- page_limit policy request;
    check page_codecs Lookup keys;
    do cursor <- (if String.eqb (After request) "" then Ok ([], "") else decodePageCursor Lookup (After request) keys);
    do predicate <- keysetPredicate bindToken keys cursor.1;
    match predicate with
    | Impossible => Ok (MkPage [] "" false)
    | _ =>
        let final := match predicate with After_ e => Some e | _ => None end in
        let rows := fetch final (limit + 1)%Z in
        if negb (String.eqb (After request) "") && negb (String.eqb fingerprint cursor.2)
        then Err (invalidCursor (errors_New "cursor fingerprint does not match query"))
        else consumePreparedPage Lookup keys (Z.to_nat limit) fingerprint rows
    end.
End Page.
