(* ===== verification/PageOrder.v ===== *)
(** * PageOrder: what keyset pagination returns

    The predicate of [page.go] read in SQL's three-valued logic, compared with
    the order the query sorts by; and the pages a client sees when it follows
    the cursors to the end. *)

From S2P Require Import Prelude GoText Bytes CursorCodec Query Page.
Open Scope string_scope.
Open Scope list_scope.
Open Scope nat_scope.

(** ** Three-valued logic *)
Definition and3 (a b : option bool) : option bool :=
  match a, b with
  | Some false, _ | _, Some false => Some false
  | Some true, Some true => Some true
  | _, _ => None
  end.
Definition or3 (a b : option bool) : option bool :=
  match a, b with
  | Some true, _ | _, Some true => Some true
  | Some false, Some false => Some false
  | _, _ => None
  end.

Lemma filter_all {A} (f : A -> bool) l : Forall (fun x => f x = true) l -> List.filter f l = l.
Proof. induction 1 as [|x l Hx _ IH]; simpl; [done|]. by rewrite Hx, IH. Qed.
Lemma filter_none {A} (f : A -> bool) l : Forall (fun x => f x = false) l -> List.filter f l = [].
Proof. induction 1 as [|x l Hx _ IH]; simpl; [done|]. by rewrite Hx, IH. Qed.

Lemma last_map_Some {A} (l : list A) : List.last (map Some l) None = last l.
Proof. induction l as [|x [|y l] IH]; [done..|]. exact IH. Qed.
Lemma consume_rows_ok {A} k (l acc : list A) : length acc <= k ->
  consume_rows k (map Ok l) acc = Ok (acc ++ take (k - length acc) l, k <? length acc + length l).
Proof.
  revert acc. induction l as [|x l IH]; intros acc Hk; simpl.
  - rewrite take_nil, app_nil_r, Nat.add_0_r. by rewrite (proj2 (Nat.ltb_ge _ _)).
  - destruct (Nat.ltb_spec (length acc) k) as [Hlt|Hge].
    + rewrite IH by (rewrite length_app; simpl; lia). rewrite length_app, <- app_assoc. simpl.
      replace (k - length acc) with (S (k - (length acc + 1))) by lia. simpl.
      by replace (length acc + 1 + length l) with (length acc + S (length l)) by lia.
    + assert (length acc = k) as <- by lia. rewrite Nat.eqb_refl, Nat.sub_diag, app_nil_r.
      destruct (Nat.ltb_spec (length acc) (length acc + S (length l))); [done|lia].
Qed.

Definition codec_ready {R} (Lookup : string -> option (option CursorValueCodec)) (key : pageKey R) : Prop :=
  k_codec key = "" \/ is_ok (cursorCodecFrom Lookup (k_codec key)) = true.
Lemma page_codecs_ok {R} Lookup (keys : list (pageKey R)) :
  Forall (codec_ready Lookup) keys -> page_codecs Lookup keys = Ok tt.
Proof.
  intros H. apply checki_ok. intros j key Hk. destruct (Forall_lookup_1 _ _ _ _ H Hk) as [->|Hc]; [done|].
  destruct (String.eqb _ _); [done|]. by destruct (cursorCodecFrom _ _).
Qed.

Section Order.
(** Rows, the values of the database, and how it orders them. *)
Context {R V : Type} `{!EqDecision V} (lt : V -> V -> Prop) `{!RelDecision lt}.
(** The value of an expression in a row: [None] is NULL. *)
Variable value : expression -> R -> option V.

Definition compare3 (operator : string) (a b : option V) : option bool :=
  match a, b with
  | Some x, Some y =>
      if String.eqb operator OperatorEqual then Some (bool_decide (x = y))
      else if String.eqb operator OperatorLessThan then Some (bool_decide (lt x y))
      else if String.eqb operator OperatorGreaterThan then Some (bool_decide (lt y x))
      else None
  | _, _ => None
  end.

(** The truth of the predicates pagination builds. *)
Fixpoint truth (row : R) (e : expression) : option bool :=
  match e with
  | ELogical operator es =>
      if String.eqb operator LogicalAnd then foldr and3 (Some true) (map (truth row) es)
      else if String.eqb operator LogicalOr then foldr or3 (Some false) (map (truth row) es)
      else None
  | ENullTest e not => Some (xorb not (bool_decide (value e row = None)))
  | EBinary l operator r => compare3 operator (value l row) (value r row)
  | _ => None
  end.
(** [WHERE] keeps the rows of which the predicate is true. *)
Definition satisfied (row : R) (e : expression) : bool := bool_decide (truth row e = Some true).

Lemma satisfied_And row es : satisfied row (And es) = forallb (satisfied row) es.
Proof.
  unfold satisfied. simpl. induction es as [|e es IH]; [done|]. simpl. rewrite <- IH.
  destruct (truth row e) as [[]|], (foldr and3 (Some true) (map (truth row) es)) as [[]|]; done.
Qed.
Lemma satisfied_Or row es : satisfied row (Or es) = existsb (satisfied row) es.
Proof.
  unfold satisfied. simpl. induction es as [|e es IH]; [done|]. simpl. rewrite <- IH.
  destruct (truth row e) as [[]|], (foldr or3 (Some false) (map (truth row) es)) as [[]|]; done.
Qed.
Lemma satisfied_and_parts row es : satisfied row (and_parts es) = forallb (satisfied row) es.
Proof.
  destruct es as [|e [|e' es]]; simpl; try apply satisfied_And. by rewrite andb_true_r.
Qed.

(** ** The order of the query: [ORDER BY] the keys, with their NULL order *)
Definition key_after (key : pageKey R) (v c : option V) : bool :=
  match c, v with
  | None, None => false
  | None, Some _ => N.eqb (k_nulls key) NullsFirst
  | Some _, None => N.eqb (k_nulls key) NullsLast
  | Some x, Some y =>
      if N.eqb (k_direction key) PageDescending then bool_decide (lt y x) else bool_decide (lt x y)
  end.
Fixpoint after (keys : list (pageKey R)) (vs cs : list (option V)) : bool :=
  match keys, vs, cs with
  | key :: keys', v :: vs', c :: cs' => key_after key v c || (bool_decide (v = c) && after keys' vs' cs')
  | _, _, _ => false
  end.
Definition key_values (keys : list (pageKey R)) (row : R) : list (option V) :=
  map (fun key => value (k_node key) row) keys.

Section StrictOrder.
Context `{!StrictOrder lt}.

Lemma key_after_irrefl key v : key_after key v v = false.
Proof.
  destruct v as [x|]; [|done]. simpl. destruct (N.eqb _ _); apply bool_decide_eq_false; apply irreflexivity, _.
Qed.
Lemma key_after_asym key v c : key_after key v c = true -> key_after key c v = false.
Proof.
  destruct v as [x|], c as [y|]; simpl; try done.
  - assert (forall a b, bool_decide (lt a b) = true -> bool_decide (lt b a) = false) as H; [|destruct (N.eqb _ _); apply H].
    intros a b Hab%bool_decide_eq_true. apply bool_decide_eq_false. intros Hba.
    apply (irreflexivity lt a). by transitivity b.
  - intros H%N.eqb_eq. rewrite H. done.
  - intros H%N.eqb_eq. rewrite H. done.
Qed.
Lemma after_irrefl keys vs : after keys vs vs = false.
Proof.
  revert vs. induction keys as [|key keys IH]; intros [|v vs]; try done. simpl.
  rewrite key_after_irrefl, IH. by rewrite andb_false_r.
Qed.
Lemma after_asym keys vs cs : after keys vs cs = true -> after keys cs vs = false.
Proof.
  revert vs cs. induction keys as [|key keys IH]; intros [|v vs] [|c cs]; try done. simpl.
  intros [H|[->%bool_decide_eq_true H]%andb_true_iff]%orb_true_iff.
  - rewrite (key_after_asym _ _ _ H). simpl. destruct (bool_decide (c = v)) eqn:E; [|done].
    apply bool_decide_eq_true in E as ->. by rewrite key_after_irrefl in H.
  - rewrite key_after_irrefl, (IH _ _ H). by rewrite andb_false_r.
Qed.
End StrictOrder.

(** ** The predicate *)
Section Predicate.
Variable bindToken : go_value -> string -> any.
(** The value the driver sends for an argument, and that a placeholder has it. *)
Variable bound : any -> option V.
Hypothesis value_Bind : forall a row, value (Bind a) row = bound a.

Lemma Some_true b : bool_decide (Some b = Some true) = b.
Proof. by destruct b. Qed.

(** The value of a cursor for a key, and cursors that bind no NULL. *)
Definition cursor_val (key : pageKey R) (c : decodedCursor) : option V :=
  if d_present c then bound (bindToken (d_value c) (k_codec key)) else None.
Definition cursor_vals (keys : list (pageKey R)) (cs : list decodedCursor) : list (option V) :=
  zip_with cursor_val keys cs.
Definition cursor_fits (key : pageKey R) (c : decodedCursor) : Prop :=
  if d_present c then is_Some (bound (bindToken (d_value c) (k_codec key))) else k_nullable key = true.

Lemma satisfied_prior row key c : cursor_fits key c ->
  satisfied row (prior_part bindToken key c) = bool_decide (value (k_node key) row = cursor_val key c).
Proof.
  unfold cursor_fits, prior_part, cursor_val. destruct (d_present c); intros H; simpl.
  - rewrite satisfied_And. unfold satisfied. simpl. unfold cursorBind. rewrite value_Bind.
    destruct H as [x ->]. destruct (value (k_node key) row) as [y|]; simpl; [|done].
    rewrite andb_true_r. apply bool_decide_ext. split; [intros [= ->%bool_decide_eq_true]; done|].
    intros [= ->]. by rewrite bool_decide_eq_true_2.
  - unfold satisfied. simpl. destruct (value (k_node key) row); done.
Qed.
Lemma satisfied_current row key c : cursor_fits key c ->
  match current_part bindToken key c with Some e => satisfied row e | None => false end =
  key_after key (value (k_node key) row) (cursor_val key c).
Proof.
  unfold cursor_fits, current_part, cursor_val. destruct (d_present c); intros H; simpl.
  - set (cmp := if N.eqb (k_direction key) PageDescending then _ else _).
    assert (satisfied row (And [IsNotNull (k_node key); cmp]) =
            match value (k_node key) row, bound (bindToken (d_value c) (k_codec key)) with
            | Some y, Some x => key_after key (Some y) (Some x) | _, _ => false end) as E.
    { rewrite satisfied_And. subst cmp. destruct H as [x Hx]. rewrite Hx.
      unfold satisfied. simpl. destruct (N.eqb _ _); simpl; unfold cursorBind; rewrite value_Bind, Hx;
        destruct (value (k_node key) row) as [y|]; simpl; try done;
        rewrite andb_true_r; apply Some_true. }
    destruct H as [x Hx]. rewrite Hx in E |- *. destruct (N.eqb (k_nulls key) NullsLast) eqn:L.
    + rewrite satisfied_Or. simpl. rewrite E, orb_false_r. unfold satisfied. simpl.
      destruct (value (k_node key) row); simpl; [done|]. by rewrite L.
    + rewrite E. simpl. destruct (value (k_node key) row); simpl; [done|]. by rewrite L.
  - destruct (N.eqb _ _) eqn:E; unfold satisfied; simpl; destruct (value (k_node key) row); simpl; try done; by rewrite E.
Qed.

(** The predicates a row has to satisfy to equal the cursor in [keys]. *)
Definition priors (keys : list (pageKey R)) (cs : list decodedCursor) : list expression :=
  zip_with (prior_part bindToken) keys cs.

Lemma priors_seq keys cs n : n <= length keys -> length keys = length cs ->
  map (fun j => match keys !! j with Some p => prior_part bindToken p (cursor_at cs j) | None => ENil end) (seq 0 n) =
  priors (take n keys) (take n cs).
Proof.
  intros Hn Hl. apply list_eq. intros i. unfold priors. rewrite lookup_zip_with.
  rewrite list_lookup_fmap. destruct (decide (i < n)) as [Hi|Hi].
  - rewrite lookup_seq_lt by lia. simpl. rewrite !lookup_take_lt by lia.
    destruct (lookup_lt_is_Some_2 keys i) as [k Ek]; [lia|]. destruct (lookup_lt_is_Some_2 cs i) as [c Ec]; [lia|].
    unfold cursor_at. rewrite Ek, Ec. done.
  - rewrite lookup_seq_ge by lia. simpl. rewrite (lookup_take_ge keys) by lia. done.
Qed.

Lemma foldi_branches keys cs pre suf i branches :
  keys = pre ++ suf -> length pre = i -> Forall2 cursor_fits keys cs ->
  exists branches', foldi (keyset_branch bindToken keys cs) i suf branches = Ok branches' /\
    forall row, existsb (satisfied row) branches' =
      existsb (satisfied row) branches ||
      (forallb (satisfied row) (priors pre (take i cs)) &&
       after suf (key_values suf row) (cursor_vals suf (drop i cs))).
Proof.
  revert pre i branches. induction suf as [|key suf IH]; intros pre i branches Hk Hi Hf.
  - exists branches. split; [done|]. intros row. simpl. by rewrite andb_false_r, orb_false_r.
  - pose proof (Forall2_length _ _ _ Hf) as Hl.
    assert (i < length keys) as Hlt by (subst keys; rewrite length_app; simpl; lia).
    destruct (lookup_lt_is_Some_2 cs i) as [c Ec]; [lia|].
    assert (keys !! i = Some key) as Ek by (subst; by rewrite list_lookup_middle).
    assert (cursor_fits key c) as Hfc by (by eapply Forall2_lookup_lr).
    assert (exists bs, keyset_branch bindToken keys cs i key branches = Ok bs /\
      forall row, existsb (satisfied row) bs = existsb (satisfied row) branches ||
        (forallb (satisfied row) (priors pre (take i cs)) &&
         key_after key (value (k_node key) row) (cursor_val key c))) as (bs & Hbs & Hsat).
    { unfold keyset_branch. rewrite priors_seq by lia.
      replace (take i keys) with pre by (subst; by rewrite take_app_length).
      unfold cursor_at. rewrite Ec. simpl.
      assert (negb (d_present c) && negb (k_nullable key) = false) as ->.
      { unfold cursor_fits in Hfc. destruct (d_present c); [done|]. by rewrite Hfc. }
      pose proof (fun row => satisfied_current row key c Hfc) as Hcur.
      destruct (current_part bindToken key c) as [part|].
      - eexists. split; [done|]. intros row. rewrite <- Hcur, existsb_app. simpl. rewrite satisfied_and_parts, forallb_app. simpl.
        by rewrite andb_true_r, orb_false_r.
      - exists branches. split; [done|]. intros row. by rewrite <- Hcur, andb_false_r, orb_false_r. }
    simpl. rewrite Hbs. destruct (IH (pre ++ [key]) (S i) bs) as (bs' & Hbs' & Hsat').
    { by rewrite <- app_assoc. } { rewrite length_app. simpl. lia. } { done. }
    exists bs'. split; [exact Hbs'|]. intros row. rewrite Hsat', Hsat.
    rewrite (take_S_r _ _ c) by done. unfold priors. rewrite zip_with_app by (rewrite length_take; lia).
    rewrite forallb_app. simpl. rewrite andb_true_r, (satisfied_prior row key c) by done.
    rewrite (drop_S _ c i) by done. simpl.
    by destruct (existsb _ branches), (forallb _ _), (key_after _ _ _), (bool_decide _), (after _ _ _).
Qed.

(** The rows a resumed query returns. *)
Definition accepts (p : keyset) (row : R) : bool :=
  match p with NoPredicate => true | Impossible => false | After_ e => satisfied row e end.

Lemma keysetPredicate_after keys cs : keys <> [] -> Forall2 cursor_fits keys cs ->
  exists p, keysetPredicate bindToken keys cs = Ok p /\ p <> NoPredicate /\
    forall row, accepts p row = after keys (key_values keys row) (cursor_vals keys cs).
Proof.
  intros Hk Hf. pose proof (Forall2_length _ _ _ Hf) as Hl. unfold keysetPredicate.
  destruct (Nat.eqb_spec (length cs) 0) as [E|E]; [destruct keys; simpl in *; [done|lia]|].
  destruct (foldi_branches keys cs [] keys 0 []) as (bs & -> & Hs); [done..|]. simpl.
  eexists. split; [done|]. split; [by destruct bs as [|? []]|]. intros row.
  rewrite <- (Hs row : _ = after keys (key_values keys row) (cursor_vals keys cs)).
  destruct bs as [|b [|b' bs]]; simpl; [done|by rewrite orb_false_r|by rewrite satisfied_Or].
Qed.

Lemma keysetPredicate_error (keys : list (pageKey R)) cs key c i : keys !! i = Some key -> cs !! i = Some c ->
  d_present c = false -> k_nullable key = false ->
  keysetPredicate bindToken keys cs = Err (invalidCursor (errors_New "missing non-null cursor value")).
Proof.
  intros Hk Hc Hp Hn. unfold keysetPredicate.
  destruct (Nat.eqb_spec (length cs) 0) as [E|_]; [destruct cs; [done|discriminate E]|].
  rewrite <- (take_drop_middle keys i key Hk) at 2. rewrite foldi_app, length_take_le by (apply lookup_lt_Some in Hk; lia).
  destruct (foldi _ 0 (take i keys) []) as [bs|e] eqn:Eb; simpl.
  - unfold keyset_branch at 1, cursor_at. by rewrite Hc; simpl; rewrite Hp, Hn.
  - assert (e = invalidCursor (errors_New "missing non-null cursor value")) as ->; [|done].
    revert Eb. generalize (@nil expression) 0. generalize (take i keys).
    intros l. clear Hk. induction l as [|k l IH]; intros bs n; [done|]. simpl. unfold keyset_branch at 1.
    destruct (negb _ && negb _); [congruence|]. destruct (current_part _ _ _); apply IH.
Qed.

(** C17 Where a page resumes. For the cursor values of every key — absent only
    for nullable keys — [keysetPredicate] succeeds, and the rows it lets
    through, in SQL's three-valued logic, are exactly those that follow the
    cursor in the lexicographic order of the keys, with each key's direction
    and the place it gives to NULL; when it finds the predicate impossible no
    row follows. A missing value for a key that is not nullable is refused. *)
Theorem keyset_is_lexicographic (keys : list (pageKey R)) (cs : list decodedCursor) :
  keys <> [] -> length cs = length keys ->
  (forall i key c, keys !! i = Some key -> cs !! i = Some c -> d_present c = true ->
     is_Some (bound (bindToken (d_value c) (k_codec key)))) ->
  ((exists i key c, keys !! i = Some key /\ cs !! i = Some c /\ d_present c = false /\ k_nullable key = false) ->
   keysetPredicate bindToken keys cs = Err (invalidCursor (errors_New "missing non-null cursor value"))) /\
  ((forall i key c, keys !! i = Some key -> cs !! i = Some c -> d_present c = false -> k_nullable key = true) ->
   exists p, keysetPredicate bindToken keys cs = Ok p /\ p <> NoPredicate /\
     forall row, accepts p row = after keys (key_values keys row) (cursor_vals keys cs)).
Proof.
  intros Hk Hl Hb. split.
  - intros (i & key & c & H1 & H2 & H3 & H4). by eapply keysetPredicate_error.
  - intros Hn. apply keysetPredicate_after; [done|]. apply Forall2_same_length_lookup. split; [done|].
    intros i key c Ek Ec. unfold cursor_fits. destruct (d_present c) eqn:E; eauto.
Qed.

(** ** Following the cursors *)
Section Paging.
Context `{!StrictOrder lt}.
Variable Lookup : string -> option (option CursorValueCodec).
Variables (fingerprint : string) (keys : list (pageKey R)) (policy : PagePolicy) (rows : list R) (limit : Z).

(** A key whose values cursors carry: extracting one succeeds on the rows of
    the query, the value read back from the cursor is the column's, and only a
    nullable key has NULLs. *)
Definition pageable (key : pageKey R) : Prop :=
  codec_ready Lookup key /\
  (k_direction key < 256 /\ k_nulls key < 256)%N /\
  Forall (fun row => match k_extract key row with
    | Ok (false, _) => k_nullable key = true /\ value (k_node key) row = None
    | Ok (true, v) => exists data v', encodePageValue Lookup key v = Ok data /\
        decodePageValue Lookup key data = Ok v' /\
        is_Some (value (k_node key) row) /\ value (k_node key) row = bound (bindToken v' (k_codec key))
    | Err _ => False
    end) rows.

(** The database: [ORDER BY] the keys, [WHERE] and [LIMIT]. *)
Definition query_rows (predicate : option expression) (n : Z) : list (result R) :=
  map Ok (take (Z.to_nat n)
    (List.filter (fun row => match predicate with Some e => satisfied row e | None => true end) rows)).
Definition sorted_rows : Prop :=
  StronglySorted (fun a b => after keys (key_values keys b) (key_values keys a) = true) rows.

Definition page_after (cursor : string) : result Page_ :=
  PageAfter Lookup bindToken query_rows fingerprint keys policy (MkRequest limit cursor).
(** A client that asks for the first page and then for each next one. *)
Fixpoint drain (fuel : nat) (cursor : string) : result (list R) :=
  match fuel with
  | 0 => Err (errors_New "more pages than the fuel")
  | S fuel' =>
      do page <- page_after cursor;
      if HasMore page then do rest <- drain fuel' (p_Next page); Ok (p_Values page ++ rest)
      else Ok (p_Values page)
  end.

Hypothesis Hpageable : Forall pageable keys.

Lemma decode_key_ok i key row v acc env : keys !! i = Some key -> row ∈ rows ->
  Fields env = pageKeyFields keys -> Values env !! i = Some v -> cursor_value Lookup row key = Ok v ->
  exists c, decode_key Lookup (pageKeyFields keys) env i key acc = Ok (acc ++ [c]) /\
    cursor_fits key c /\ cursor_val key c = value (k_node key) row.
Proof.
  intros Hk Hrow Hf Hv. pose proof (Forall_lookup_1 _ _ _ _ Hpageable Hk) as (_ & _ & Hp).
  rewrite Forall_forall in Hp. specialize (Hp row Hrow).
  unfold cursor_value, decode_key. rewrite Hf, bool_decide_eq_true_2, Hv by done. simpl.
  destruct (k_extract key row) as [[[] x]|] eqn:Ex; [| |done]; simpl.
  - destruct Hp as (data & x' & He & Hd & Hs & Hb). rewrite He. intros [= <-]. simpl. rewrite Hd.
    eexists. split; [done|]. unfold cursor_fits, cursor_val. simpl. by rewrite <- Hb.
  - destruct Hp as [Hn Hval]. intros [= <-]. simpl. rewrite Hn. by eexists.
Qed.

Lemma decode_keys_ok row vs env suf : row ∈ rows -> Fields env = pageKeyFields keys -> Values env = vs ->
  Forall2 (fun key v => cursor_value Lookup row key = Ok v) keys vs ->
  forall pre acc, keys = pre ++ suf ->
  exists cs, foldi (decode_key Lookup (pageKeyFields keys) env) (length pre) suf acc = Ok (acc ++ cs) /\
    Forall2 cursor_fits suf cs /\ cursor_vals suf cs = key_values suf row.
Proof.
  intros Hrow Hf Hvs Hall. induction suf as [|key suf IH]; intros pre acc Hk.
  - exists []. by rewrite app_nil_r.
  - assert (keys !! length pre = Some key) as Ek by (rewrite Hk; by apply list_lookup_middle).
    destruct (Forall2_lookup_l _ _ _ _ _ Hall Ek) as (v & Ev & Hv). rewrite <- Hvs in Ev.
    destruct (decode_key_ok (length pre) key row v acc env Ek Hrow Hf Ev Hv) as (c & Hc & Hfit & Hval).
    simpl. rewrite Hc.
    destruct (IH (pre ++ [key]) (acc ++ [c])) as (cs & Hcs & Hfits & Hvals); [by rewrite <- app_assoc|].
    rewrite length_app, Nat.add_comm in Hcs. simpl in Hcs.
    exists (c :: cs). rewrite Hcs, <- app_assoc. split; [done|]. split; [by constructor|].
    simpl. by rewrite Hval, <- Hvals.
Qed.

Lemma page_cursor_decodes row next : row ∈ rows -> String.length fingerprint = 32 ->
  page_cursor Lookup keys fingerprint row = Ok next ->
  next <> "" /\ exists cs, decodePageCursor Lookup next keys = Ok (cs, fingerprint) /\
    Forall2 cursor_fits keys cs /\ cursor_vals keys cs = key_values keys row.
Proof.
  intros Hrow Hfp. unfold page_cursor. destruct (foldi _ 0 keys []) as [vs|] eqn:E; [|done]. simpl. intros Henc.
  apply foldi_collected in E as (vs' & -> & Hvs). simpl in Henc.
  apply DecodeEnvelope_encoded in Henc as Hdec; [|done|].
  - split; [intros ->; by vm_compute in Hdec|].
    unfold decodePageCursor. rewrite Hdec. cbn [wrap_err Fields Values Fingerprint].
    unfold pageKeyFields at 1. rewrite length_map, Nat.eqb_refl. simpl.
    destruct (decode_keys_ok row vs' (MkEnvelope fingerprint (pageKeyFields keys) vs') keys) with (pre := @nil (pageKey R)) (acc := @nil decodedCursor)
      as (cs & Hcs & H1 & H2); [done..|].
    simpl in Hcs. rewrite Hcs. by exists cs.
  - unfold pageKeyFields. apply Forall_fmap. eapply Forall_impl; [exact Hpageable|]. intros k (_ & H & _). exact H.
Qed.

Hypothesis Hkeys : keys <> [].
Hypothesis Hfp : String.length fingerprint = 32.
Hypothesis Hsorted : sorted_rows.
Hypothesis Hcursors : Forall (fun row => is_ok (page_cursor Lookup keys fingerprint row) = true) rows.
Variable lim : Z.
Hypothesis Hlim : page_limit policy (MkRequest limit "") = Ok lim.

(** The cursor of a page that starts at row [n]. *)
Definition starts_at (n : nat) (cursor : string) : Prop :=
  match n with
  | 0 => cursor = ""
  | S i => exists row, rows !! i = Some row /\ page_cursor Lookup keys fingerprint row = Ok cursor
  end.

Lemma filter_after_drop i row : rows !! i = Some row ->
  List.filter (fun r => after keys (key_values keys r) (key_values keys row)) rows = drop (S i) rows.
Proof.
  intros Hi. rewrite <- (take_drop_middle rows i row Hi) at 1.
  pose proof Hsorted as Hs. unfold sorted_rows in Hs. rewrite <- (take_drop_middle rows i row Hi) in Hs.
  apply StronglySorted_app in Hs as (Hpre & _ & Hpost).
  apply StronglySorted_inv in Hpost as [_ Hpost].
  rewrite List.filter_app. simpl. rewrite after_irrefl by exact _.
  rewrite (filter_none _ (take i rows)), (filter_all _ (drop (S i) rows)); [done| |].
  - exact Hpost.
  - apply Forall_forall. intros r Hr. apply after_asym. apply Hpre; [done|]. by left.
Qed.

Lemma page_fetch n cursor : starts_at n cursor ->
  page_after cursor = consumePreparedPage Lookup keys (Z.to_nat lim) fingerprint
    (map Ok (take (Z.to_nat (lim + 1)) (drop n rows))) \/
  (drop n rows = [] /\ page_after cursor = Ok (MkPage [] "" false)).
Proof.
  intros Hn. unfold page_after, PageAfter.
  destruct (Nat.eqb_spec (length keys) 0) as [E|_]; [by destruct keys|].
  change (page_limit policy (MkRequest limit cursor)) with (page_limit policy (MkRequest limit "")).
  rewrite Hlim. simpl.
  rewrite page_codecs_ok by (eapply Forall_impl; [exact Hpageable|]; intros key (H & _); exact H). simpl.
  destruct n as [|i]; simpl in Hn.
  - subst cursor. left. simpl. unfold query_rows. f_equal. f_equal. f_equal. apply filter_all. by apply Forall_true.
  - destruct Hn as (row & Hi & Hc). apply list_elem_of_lookup_2 in Hi as Hin.
    destruct (page_cursor_decodes row cursor Hin Hfp Hc) as (Hne & cs & Hd & Hfits & Hvals).
    destruct (String.eqb_spec cursor "") as [|_]; [done|]. rewrite Hd. simpl.
    destruct (keysetPredicate_after keys cs Hkeys Hfits) as (p & -> & Hp & Hacc). simpl.
    rewrite String.eqb_refl. simpl.
    assert (List.filter (accepts p) rows = drop (S i) rows) as Hfilter.
    { rewrite <- (filter_after_drop i row Hi). apply List.filter_ext. intros r. by rewrite Hacc, Hvals. }
    destruct p as [| |e]; [done| |].
    + right. split; [|done]. rewrite <- Hfilter. by apply filter_none, Forall_true.
    + left. unfold query_rows. rewrite <- Hfilter. done.
Qed.

Lemma lim_pos : (1 <= lim)%Z.
Proof.
  pose proof Hlim as H. unfold page_limit in H. simpl in H.
  set (policy' := if _ && _ then _ else _) in H. clearbody policy'.
  destruct (Z.ltb_spec (DefaultLimit policy') 1); [done|].
  destruct (_ || _); [done|]. destruct (Z.eqb_spec limit 0).
  - destruct ((_ <? _)%Z || _); [done|]. injection H as <-. lia.
  - destruct (Z.ltb_spec limit 0); [done|]. destruct (_ <? _)%Z; [done|]. injection H as <-. lia.
Qed.

(** The page that starts at row [n]. *)
Lemma page_at n cursor : n <= length rows -> starts_at n cursor ->
  exists next, page_after cursor = Ok (MkPage (take (Z.to_nat lim) (drop n rows)) next
                                         (Z.to_nat lim <? length rows - n)) /\
    (Z.to_nat lim < length rows - n -> starts_at (n + Z.to_nat lim) next).
Proof.
  intros Hlen Hn. pose proof lim_pos as Hpos.
  destruct (page_fetch n cursor Hn) as [->|[Hnil ->]].
  2:{ exists "". rewrite Hnil, take_nil. apply (f_equal length) in Hnil. rewrite length_drop in Hnil. simpl in Hnil.
      rewrite Hnil. split; [|intros; exfalso; lia]. by rewrite (proj2 (Nat.ltb_ge _ _)) by lia. }
  unfold consumePreparedPage. rewrite consume_rows_ok by (simpl; lia). simpl.
  rewrite Z2Nat.inj_add, take_take, length_take, length_drop, Nat.sub_0_r by lia.
  change (Z.to_nat 1) with 1. rewrite (Nat.min_l (Z.to_nat lim) (Z.to_nat lim + 1)) by lia.
  destruct (Nat.ltb_spec (Z.to_nat lim) ((Z.to_nat lim + 1) `min` (length rows - n))) as [Hmore|Hmore]; simpl.
  - destruct (Nat.ltb_spec (Z.to_nat lim) (length rows - n)) as [_|]; [|lia].
    rewrite last_map_Some, last_lookup, length_take, length_drop, Nat.min_l by lia.
    rewrite lookup_take_lt, lookup_drop by lia.
    replace (n + Z.to_nat lim) with (S (n + Nat.pred (Z.to_nat lim))) by lia.
    destruct (lookup_lt_is_Some_2 rows (n + Nat.pred (Z.to_nat lim))) as [row Hrow]; [lia|].
    rewrite Hrow. pose proof (Forall_lookup_1 _ _ _ _ Hcursors Hrow) as Hok. simpl in Hok.
    destruct (page_cursor Lookup keys fingerprint row) as [next|] eqn:Enext; [|done].
    exists next. split; [done|]. intros _. by exists row.
  - destruct (Nat.ltb_spec (Z.to_nat lim) (length rows - n)) as [|_]; [lia|].
    exists "". split; [done|intros; exfalso; lia].
Qed.

Lemma drain_from fuel n cursor : n <= length rows -> starts_at n cursor -> length rows - n < fuel ->
  drain fuel cursor = Ok (drop n rows).
Proof.
  revert n cursor. induction fuel as [|fuel IH]; intros n cursor Hlen Hn Hfuel; [lia|].
  simpl. destruct (page_at n cursor Hlen Hn) as (next & -> & Hnext). simpl. pose proof lim_pos.
  destruct (Nat.ltb_spec (Z.to_nat lim) (length rows - n)) as [Hmore|Hmore].
  - rewrite (IH (n + Z.to_nat lim)) by (auto; lia). simpl. by rewrite <- drop_drop, take_drop.
  - by rewrite take_ge by (rewrite length_drop; lia).
Qed.
End Paging.

(** C14 Following the cursors. Take a query whose rows the keys order strictly
    (the unique suffix), a database that honours [ORDER BY], [WHERE] and
    [LIMIT], and key values that a cursor carries faithfully. Then the page
    after row [n] is the next [limit] rows, never more, its [HasMore] tells
    whether rows are left, and its [Next] is the cursor of its last row; and a
    client that follows [Next] from the first page reads every row exactly
    once, in order, and stops after at most one page more than there are rows. *)
Theorem pages_visit_every_row_once Lookup fingerprint (keys : list (pageKey R)) policy rows limit lim :
  StrictOrder lt -> keys <> [] -> String.length fingerprint = 32 ->
  Forall (pageable Lookup rows) keys -> sorted_rows keys rows ->
  Forall (fun row => is_ok (page_cursor Lookup keys fingerprint row) = true) rows ->
  page_limit policy (MkRequest limit "") = Ok lim ->
  (forall n cursor, n <= length rows -> starts_at Lookup fingerprint keys rows n cursor ->
     exists next, page_after Lookup fingerprint keys policy rows limit cursor =
         Ok (MkPage (take (Z.to_nat lim) (drop n rows)) next (Z.to_nat lim <? length rows - n)) /\
       (Z.to_nat lim < length rows - n ->
          starts_at Lookup fingerprint keys rows (n + Z.to_nat lim) next)) /\
  drain Lookup fingerprint keys policy rows limit (S (length rows)) "" = Ok rows.
Proof.
  intros HS Hk Hf Hp Hs Hc Hl. split.
  - intros n cursor. by apply page_at.
  - rewrite (drain_from Lookup fingerprint keys policy rows limit Hp Hk Hf Hs Hc lim Hl _ 0 ""); [done|lia|done|lia].
Qed.
End Predicate.
End Order.

(** ** Cursors that are refused *)
Section Refused.
Context {R : Type}.
Variables (Lookup : string -> option (option CursorValueCodec)) (bindToken : go_value -> string -> any).
Variables (fetch : option expression -> Z -> list (result R)) (fingerprint : string).
Variables (keys : list (pageKey R)) (policy : PagePolicy).

Definition is_invalid_cursor {A} (r : result A) : Prop := exists cause, r = Err (invalidCursor cause).

(** The loop over the keys either refuses the cursor or has compared the
    metadata of every key and decoded a value for each. *)
Lemma decode_keys_refuse env fields (suf : list (pageKey R)) : forall i acc,
  i + length suf <= length (Values env) ->
  is_invalid_cursor (foldi (decode_key Lookup fields env) i suf acc) \/
  exists cs, foldi (decode_key Lookup fields env) i suf acc = Ok cs /\ length cs = length acc + length suf /\
    forall j, j < length suf -> Fields env !! (i + j) = fields !! (i + j).
Proof.
  induction suf as [|key suf IH]; intros i acc Hlen; simpl in *.
  { right. exists acc. split; [done|]. split; [lia|]. intros j Hj. lia. }
  unfold decode_key at 1 3. case_bool_decide as E; simpl; [|left; by eexists].
  assert (forall c, is_invalid_cursor (foldi (decode_key Lookup fields env) (S i) suf (acc ++ [c])) \/
    exists cs, foldi (decode_key Lookup fields env) (S i) suf (acc ++ [c]) = Ok cs /\
      length cs = length acc + S (length suf) /\
      forall j, j < S (length suf) -> Fields env !! (i + j) = fields !! (i + j)) as IH'.
  { intros c. destruct (IH (S i) (acc ++ [c])) as [H|(cs & H1 & H2 & H3)]; [lia|by left|].
    right. exists cs. split; [done|]. rewrite length_app in H2. simpl in H2. split; [lia|].
    intros [|j] Hj; [by rewrite Nat.add_0_r|]. rewrite <- Nat.add_succ_comm. apply H3. lia. }
  destruct (lookup_lt_is_Some_2 (Values env) i) as [v ->]; [lia|]. destruct (Present v); simpl.
  - destruct (decodePageValue Lookup key (Data v)); simpl; [apply IH'|left; by eexists].
  - destruct (k_nullable key); simpl; [apply IH'|left; by eexists].
Qed.

Lemma DecodeEnvelope_lengths cursor env : DecodeEnvelope cursor = Ok env -> length (Values env) = length (Fields env).
Proof.
  unfold DecodeEnvelope. destruct (b64_decode cursor) as [raw|]; [|done].
  destruct (_ <? _)%N; [done|]. unfold decode_raw. destruct (_ || _); [done|].
  destruct (decode_fields _ _) as [l|]; simpl; [|done]. destruct (negb _); [done|].
  intros <-%Ok_eq. simpl. by rewrite !length_fmap.
Qed.

Lemma decodePageCursor_cases cursor :
  is_invalid_cursor (decodePageCursor Lookup cursor keys) \/
  exists env cs, DecodeEnvelope cursor = Ok env /\ Fields env = pageKeyFields keys /\ length cs = length keys /\
    decodePageCursor Lookup cursor keys = Ok (cs, Fingerprint env).
Proof.
  unfold decodePageCursor. destruct (DecodeEnvelope cursor) as [env|e] eqn:Ee; simpl; [|left; by eexists].
  apply DecodeEnvelope_lengths in Ee.
  destruct (Nat.eqb_spec (length (Fields env)) (length keys)) as [Hl|_]; simpl; [|left; by eexists].
  destruct (decode_keys_refuse env (pageKeyFields keys) keys 0 []) as [[cause H]|(cs & H1 & H2 & H3)]; [lia| |].
  - left. exists cause. by rewrite H.
  - right. exists env, cs. rewrite H1. split; [done|]. split; [|done].
    apply list_eq. intros j. destruct (decide (j < length keys)) as [Hj|Hj]; [by apply H3|].
    rewrite !lookup_ge_None_2; [done| |lia]. unfold pageKeyFields. rewrite length_map. lia.
Qed.

Lemma keysetPredicate_refuse cs :
  is_invalid_cursor (keysetPredicate bindToken keys cs) \/ is_ok (keysetPredicate bindToken keys cs) = true.
Proof.
  unfold keysetPredicate. destruct (length cs =? 0); [by right|].
  assert (forall l i bs, is_invalid_cursor (foldi (keyset_branch bindToken keys cs) i l bs) \/
    is_ok (foldi (keyset_branch bindToken keys cs) i l bs) = true) as H.
  { intros l. induction l as [|k l IH]; intros i bs; [by right|]. simpl. unfold keyset_branch at 1 3.
    destruct (_ && _); simpl; [left; by eexists|]. destruct (current_part _ _ _); apply IH. }
  destruct (H keys 0 []) as [[cause ->]|H']; [left; by eexists|]. right. by destruct (foldi _ 0 keys []).
Qed.

Lemma consume_rows_bound limit (rows : list (result R)) : forall acc out, length acc <= limit ->
  consume_rows limit rows acc = Ok out -> length out.1 <= limit.
Proof.
  induction rows as [|[row|e] rows IH]; intros acc out Hacc; simpl; [by intros [= <-]| |done].
  destruct (Nat.ltb_spec (length acc) limit).
  - apply IH. rewrite length_app. simpl. lia.
  - destruct (_ =? _); [by intros [= <-]|by apply IH].
Qed.
Lemma consumePreparedPage_bound limit rows p :
  consumePreparedPage Lookup keys limit fingerprint rows = Ok p -> length (p_Values p) <= limit.
Proof.
  unfold consumePreparedPage. destruct (consume_rows limit rows []) as [out|] eqn:E; [|done]. simpl.
  apply consume_rows_bound in E; [|simpl; lia].
  destruct out.2; simpl; [|by intros [= <-]]. destruct (List.last _ _) as [row|]; [|by intros [= <-]].
  destruct (page_cursor _ _ _ _); simpl; [by intros [= <-]|done].
Qed.

(** C33 Cursors that are refused. Once the page size and the keys' codecs have
    been accepted, a request that carries a cursor either fails with
    [ErrInvalidCursor], or the cursor decodes, describes exactly the keys of the
    specification, and — unless the predicate shows that no row follows, when
    the page is empty — was made for this very query: a page with rows is only
    ever resumed from a cursor with the query's fingerprint, with a predicate.
    The page holds no more rows than the accepted size. *)
Theorem cursor_of_this_query request limit :
  keys <> [] -> page_limit policy request = Ok limit -> After request <> "" ->
  Forall (codec_ready Lookup) keys ->
  let page := PageAfter Lookup bindToken fetch fingerprint keys policy request in
  (is_invalid_cursor page \/
   exists env, DecodeEnvelope (After request) = Ok env /\ Fields env = pageKeyFields keys /\
     (page = Ok (MkPage [] "" false) \/
      Fingerprint env = fingerprint /\ exists predicate,
        page = consumePreparedPage Lookup keys (Z.to_nat limit) fingerprint (fetch (Some predicate) (limit + 1)%Z))) /\
  (forall p, page = Ok p -> length (p_Values p) <= Z.to_nat limit).
Proof.
  intros Hk Hl Ha Hc page.
  match goal with |- ?A /\ _ => assert A as H end.
  2:{ split; [done|]. intros p Hp. destruct H as [[cause H]|(env & _ & _ & [H|(_ & pred & H)])]; rewrite H in Hp;
        [done|injection Hp as <-; simpl; lia|by eapply consumePreparedPage_bound]. }
  subst page. unfold PageAfter.
  destruct (Nat.eqb_spec (length keys) 0) as [E|_]; [by destruct keys|]. rewrite Hl. simpl.
  rewrite (page_codecs_ok Lookup keys Hc). simpl.
  destruct (String.eqb_spec (After request) "") as [|_]; [done|].
  destruct (decodePageCursor_cases (After request)) as [[cause ->]|(env & cs & He & Hf & Hlen & ->)]; [left; by eexists|].
  simpl. destruct (keysetPredicate_refuse cs) as [[cause ->]|Hok]; [left; by eexists|].
  destruct (keysetPredicate bindToken keys cs) as [p|] eqn:Ep; [|done]. simpl.
  destruct p as [| |e]; simpl.
  - exfalso. unfold keysetPredicate in Ep. destruct (Nat.eqb_spec (length cs) 0); [destruct keys; simpl in *; [done|lia]|].
    destruct (foldi _ 0 keys []) as [[|? []]|]; done.
  - right. exists env. by eauto.
  - destruct (String.eqb_spec fingerprint (Fingerprint env)) as [Hfp|_]; simpl; [|left; by eexists].
    right. exists env. split; [done|]. split; [done|]. right. split; [done|]. by exists e.
Qed.
End Refused.

(** ** A concrete query: a nullable column, then a unique one *)
Definition sample_row : Type := option Z * Z.
Definition sample_source : Query.relation := RelZero.
Definition sample_value (e : expression) (row : sample_row) : option Z :=
  match e with
  | EColumn _ "rank" => row.1
  | EColumn _ _ => Some row.2
  | EValue (any_int z) => Some z
  | _ => None
  end.
Definition sample_bound (a : any) : option Z := match a with any_int z => Some z | _ => None end.
Definition sample_token (v : go_value) (_ : string) : any := match v with VInt _ z => any_int z | _ => any_nil end.
Definition sample_keys : list (pageKey sample_row) :=
  [newNullPageKey "rank" (EColumn sample_source "rank") "q.rank" "" (TInt 64)
     (fun row => Ok (match row.1 with Some z => Some (VInt 64 z) | None => None end)) PageAscending NullsLast;
   DescKey "id" (EColumn sample_source "id") "q.id" "" (TInt 64) (fun row => Ok (VInt 64 row.2))].
Definition sample_rows : list sample_row :=
  [(Some (-1), 9); (Some 1, 4); (Some 1, 2); (None, 8); (None, 3)]%Z.
Definition sample_lookup (_ : string) : option (option CursorValueCodec) := None.

Lemma sample_value_Bind a row : sample_value (Bind a) row = sample_bound a.
Proof. by destruct a. Qed.
Definition sample_cursor : list decodedCursor := [MkDecoded true (VInt 64 1); MkDecoded true (VInt 64 4)].

Lemma keyset_is_lexicographic_witness :
  exists p, keysetPredicate sample_token sample_keys sample_cursor = Ok p /\
    map (accepts Z.lt sample_value p) sample_rows = [false; false; true; true; true].
Proof.
  destruct (keyset_is_lexicographic Z.lt sample_value sample_token sample_bound sample_value_Bind sample_keys sample_cursor)
    as [_ H].
  - discriminate.
  - reflexivity.
  - intros [|[|[|i]]] key c [= <-] [= <-] _; eexists; reflexivity.
  - destruct H as (p & Hp & _ & Hrows).
    + intros [|[|[|i]]] key c [= <-] [= <-]; discriminate.
    + exists p. split; [exact Hp|]. unfold sample_rows. cbn [map]. rewrite !Hrows. vm_compute. reflexivity.
Defined.

Ltac page_data := split; [vm_compute; reflexivity|]; split; [vm_compute; reflexivity|]; split; [eexists; reflexivity|reflexivity].
Lemma sample_pageable : Forall (pageable sample_value sample_token sample_bound sample_lookup sample_rows) sample_keys.
Proof.
  repeat constructor; simpl; try done.
  all: try (do 2 eexists; page_data).
Qed.

Lemma pages_visit_every_row_once_witness :
  drain Z.lt sample_value sample_token sample_lookup sample_fingerprint sample_keys DefaultPagePolicy sample_rows 2 6 "" =
    Ok sample_rows.
Proof.
  refine (proj2 (pages_visit_every_row_once Z.lt sample_value sample_token sample_bound sample_value_Bind
    sample_lookup sample_fingerprint sample_keys DefaultPagePolicy sample_rows 2 2 _ _ _ sample_pageable _ _ _)).
  - discriminate.
  - reflexivity.
  - repeat constructor.
  - repeat constructor.
  - reflexivity.
Defined.

Lemma cursor_of_this_query_witness :
  let page := PageAfter sample_lookup sample_token (fun _ _ => []) sample_fingerprint sample_keys DefaultPagePolicy (MkRequest 2 "!") in
  is_invalid_cursor page.
Proof.
  destruct (cursor_of_this_query sample_lookup sample_token (fun _ _ => []) sample_fingerprint sample_keys DefaultPagePolicy
    (MkRequest 2 "!") 2) as [[H|(env & H & _)] _].
  - discriminate.
  - reflexivity.
  - discriminate.
  - repeat (constructor; [left; reflexivity|]). constructor.
  - exact H.
  - vm_compute in H. discriminate H.
Defined.
