(* ===== verification/Typed.v ===== *)
(** * Typed: [expression.go] and [expression_operators.go]

    The typed expression handles of the root package: bound columns, values
    with their codecs, predicates, group keys and order terms, over the nodes
    of the package [query].  Type parameters are erased: [Expr[T]] and
    [NullExpr[T]] are one record, as are [Column] and [NullColumn].

    A value is bound through [internal/bindplan]: the identity the atomic
    counter hands out and the outcome of copying the value ([bindplan.Adopt])
    are arguments of the definitions that bind one. *)

From S2P Require Import Prelude GoText Schema Query QueryWrite Page.
Open Scope string_scope.
Open Scope list_scope.
Open Scope nat_scope.

Record Expr := MkExpr { x_node : expression; x_codec : string; x_source : string; x_bindErr : option error }.
Record Predicate := MkPredicate { p_node : expression; p_source : string; p_source2 : string; p_bindErr : option error }.
Record column := MkColumn { tc_ref : ColumnRef; tc_codec : string }.
Definition col_expr (c : ColumnRef) : expression := EColumn (cr_source c) (cr_name c).
Definition source_name (c : ColumnRef) : string := rel_QualifiedName (cr_source c).

(** ** Codec identifiers ([bindplan.CodecPattern]): a letter and up to 127
    letters, digits, [_], [.] or [-] *)
Definition ascii_letter (c : ascii) : bool := in_range 65 90 (code c) || in_range 97 122 (code c).
Definition codec_char (c : ascii) : bool :=
  ascii_letter c || is_digit c || Ascii.eqb c "_"%char || Ascii.eqb c "."%char || Ascii.eqb c "-"%char.
Definition CodecPattern_MatchString (s : string) : bool :=
  match s with
  | "" => false
  | String c s' => ascii_letter c && (String.length s' <=? 127) && str_forallb codec_char s'
  end.
Definition malformed_codec (codec : string) : bool :=
  negb (String.eqb codec "") && negb (CodecPattern_MatchString codec).

(** ** Binding columns *)
Definition not_a_member : error := planError "invalid_source" "column" "column is not a member of source".
Definition nullability_differs : error := planError "invalid_source" "column" "nullability does not match handle".
(** [planError(code, path, err.Error())]. *)
Definition planErr (code path : string) (e : error) : error := MkError (KTyped "planerr.Error") code [AStr path; AErr e].

Definition find_column (r : relation) (name : string) : option ResultColumn :=
  find (fun c => String.eqb (rc_Name c) name) (rel_Columns r).

Definition validateBoundColumn (r : relation) (name codec : string) : result unit :=
  if String.eqb (rel_QualifiedName r) "" then Err (planError "invalid_source" "relation" "source is zero")
  else match ValidateIdentifier name with
  | Err e => Err (planErr "invalid_source" "column" e)
  | Ok _ =>
      if malformed_codec codec then Err (planError "invalid_schema" "codec" "malformed codec identifier")
      else match find_column r name with
      | None => Err not_a_member
      | Some c =>
          match ValidateColumnType (rc_Type c) with
          | Err e => Err (planErr "invalid_schema" "column.type" e)
          | Ok _ => Ok tt
          end
      end
  end.
Definition bindColumn (r : relation) (name codec : string) (nullable : bool) : result column :=
  check validateBoundColumn r name codec;
  match find_column r name with
  | None => Err not_a_member
  | Some c => if negb (Bool.eqb (rc_Nullable c) nullable) then Err nullability_differs
              else Ok (MkColumn (MkColumnRef r name) codec)
  end.
Definition BindColumn (r : relation) (name codec : string) : result column := bindColumn r name codec false.
Definition BindNullColumn (r : relation) (name codec : string) : result column :=
  check validateBoundColumn r name codec;
  match find_column r name with
  | None => Err not_a_member
  | Some c => if negb (rc_Nullable c) then Err nullability_differs else Ok (MkColumn (MkColumnRef r name) codec)
  end.
Definition BindOptionalColumn (r : relation) (name codec : string) : result column :=
  if String.eqb (rel_QualifiedName r) "" then Err (planError "invalid_source" "relation" "source is zero")
  else check validateBoundColumn r name codec; Ok (MkColumn (MkColumnRef r name) codec).
Definition BindResultColumn (r : relation) (name : string) : result column :=
  match find_column r name with
  | None => Err not_a_member
  | Some c => if rc_Nullable c then Err nullability_differs else bindColumn r name (rc_Codec c) false
  end.
Definition BindNullResultColumn (r : relation) (name : string) : result column :=
  check validateBoundColumn r name "";
  match find_column r name with
  | None => Err not_a_member
  | Some c => if negb (rc_Nullable c) then Err nullability_differs else Ok (MkColumn (MkColumnRef r name) (rc_Codec c))
  end.
Definition lookupBoundColumn (ref : ColumnRef) : result ResultColumn :=
  if String.eqb (source_name ref) "" then Err (planError "invalid_source" "relation" "source is zero")
  else match find_column (cr_source ref) (cr_name ref) with
  | None => Err not_a_member
  | Some c => Ok c
  end.
Definition BindTypedColumn (ref : ColumnRef) : result column :=
  do definition <- lookupBoundColumn ref;
  if rc_Nullable definition then Err nullability_differs else Ok (MkColumn ref (rc_Codec definition)).
Definition BindNullTypedColumn (ref : ColumnRef) : result column :=
  do definition <- lookupBoundColumn ref;
  if negb (rc_Nullable definition) then Err nullability_differs else Ok (MkColumn ref (rc_Codec definition)).

(** [Column.Expr] and [NullColumn.NullExpr]. *)
Definition Column_Expr (c : column) : Expr := MkExpr (col_expr (tc_ref c)) (tc_codec c) (source_name (tc_ref c)) None.

(** ** Binding values *)

(** The token of a value: [adopted] is the snapshot, or why there is none. *)
Definition value_token (id : N) (codec : string) (adopted : result any) : any :=
  match adopted with
  | Ok snapshot => any_token id snapshot codec None (Some (Ok snapshot)) false false
  | Err e => any_token id any_nil codec (Some e) None false false
  end.
Definition bind_error (adopted : result any) : option error := match adopted with Ok _ => None | Err e => Some e end.
Definition bind_value (id : N) (codec : string) (adopted : result any) : expression := Bind (value_token id codec adopted).

Definition Value_ (id : N) (adopted : result any) : Expr := MkExpr (bind_value id "" adopted) "" "" (bind_error adopted).
Definition ValueWithCodec (id : N) (adopted : result any) (codec : string) : result Expr :=
  if malformed_codec codec then Err (planError "invalid_schema" "codec" "malformed codec identifier")
  else do snapshot <- adopted; Ok (MkExpr (bind_value id codec (Ok snapshot)) codec "" None).

(** [graphEncodedBind]: a value that is already encoded; [valid] is the check
    that the driver can carry it. *)
Definition graphEncodedBind (id : N) (adopted : result any) (valid : result unit) (codec : string) : result expression :=
  if malformed_codec codec then Err (planError "internal_plan" "bind" "malformed codec identifier")
  else match valid with
  | Err e => Err (planErr "internal_plan" "bind" e)
  | Ok _ =>
      do snapshot <- adopted;
      Ok (Bind (any_token id snapshot codec None (Some (Ok snapshot)) true false))
  end.

(** *** Parameters: values that arrive with each run *)
Record Parameter_handle := MkParameter { pm_id : N; pm_codec : string }.
Definition NewParameter (id : N) : Parameter_handle := MkParameter id "".
Definition NewParameterWithCodec (id : N) (codec : string) : result Parameter_handle :=
  if malformed_codec codec then Err (planError "invalid_schema" "codec" "malformed codec identifier")
  else Ok (MkParameter id codec).
Definition Parameter_Expr (p : Parameter_handle) : Expr :=
  if N.eqb (pm_id p) 0 then
    let err := planError "invalid_parameter" "parameter" "parameter must be built with NewParameter or NewParameterWithCodec" in
    MkExpr (Bind (any_token 0 any_nil "" (Some err) None false false)) "" "" (Some err)
  else MkExpr (Bind (any_token (pm_id p) any_nil (pm_codec p) None (Some (Ok any_nil)) false true)) (pm_codec p) "" None.
Record ParameterValue := MkParameterValue { pv_id : N; pv_snapshot : any; pv_err : option error }.
Definition Parameter_Value (p : Parameter_handle) (adopted : result any) : ParameterValue :=
  MkParameterValue (pm_id p) (match adopted with Ok v => v | Err _ => any_nil end) (bind_error adopted).

(** ** Predicates *)
Abbreviation builder := (operand_value -> operand_value -> expression).
Definition comparisonValue (left : Expr) (id : N) (adopted : result any) (build : builder) : Predicate :=
  MkPredicate (build (OpExpression (x_node left)) (OpExpression (bind_value id (x_codec left) adopted)))
              (x_source left) "" (bind_error adopted).
Definition comparisonExpr (left right : Expr) (build : builder) : Predicate :=
  MkPredicate (build (OpExpression (x_node left)) (OpExpression (x_node right))) (x_source left) (x_source right) None.

Definition EqualExpr left right := comparisonExpr left right Equal.
Definition EqualValue left id adopted := comparisonValue left id adopted Equal.
Definition EqualNullable left right := comparisonExpr left right Equal.
Definition EqualOptional left right := comparisonExpr left right Equal.
Definition GreaterExpr left right := comparisonExpr left right GreaterThan.
Definition GreaterValue left id adopted := comparisonValue left id adopted GreaterThan.
Definition GreaterOrEqualExpr left right := comparisonExpr left right GreaterThanOrEqual.
Definition GreaterOrEqualValue left id adopted := comparisonValue left id adopted GreaterThanOrEqual.
Definition LessExpr left right := comparisonExpr left right LessThan.
Definition LessValue left id adopted := comparisonValue left id adopted LessThan.
Definition LessOrEqualExpr left right := comparisonExpr left right LessThanOrEqual.
Definition LessOrEqualValue left id adopted := comparisonValue left id adopted LessThanOrEqual.
Definition LikeExpr left pattern := comparisonExpr left pattern Like.
Definition LikeValue left id adopted := comparisonValue left id adopted Like.
Definition IsNull_ (value : Expr) : Predicate := MkPredicate (IsNull (x_node value)) (x_source value) "" None.
Definition IsNotNull_ (value : Expr) : Predicate := MkPredicate (IsNotNull (x_node value)) (x_source value) "" None.
Definition And_ (l : list Predicate) : Predicate := MkPredicate (And (map p_node l)) "" "" None.
Definition Or_ (l : list Predicate) : Predicate := MkPredicate (Or (map p_node l)) "" "" None.
Definition Not_ (p : Predicate) : Predicate := MkPredicate (Negate (p_node p)) "" "" None.

(** The first value is an argument of its own, so the list is not empty. *)
Definition InValues (left : Expr) (first : N * result any) (rest : list (N * result any)) : Predicate :=
  let values := first :: rest in
  MkPredicate (In_ (OpExpression (x_node left))
                   (map (fun v => OpExpression (bind_value v.1 (x_codec left) v.2)) values))
              (x_source left) ""
              (fold_left (fun err v => match err with None => bind_error v.2 | Some _ => err end) values None).

(** ** Functions and aggregates *)
Definition with_node (f : expression -> expression) (x : Expr) : Expr :=
  MkExpr (f (x_node x)) (x_codec x) (x_source x) (x_bindErr x).
Definition LowerExpr (x : Expr) : Expr := with_node (fun e => Lower (OpExpression e)) x.
Definition UpperExpr (x : Expr) : Expr := with_node Upper x.
Definition LowerNullExpr (x : Expr) : Expr := with_node (fun e => Lower (OpExpression e)) x.
Definition UpperNullExpr (x : Expr) : Expr := with_node Upper x.
Definition SumExpr (x : Expr) : Expr := with_node Sum x.
Definition SumNullExpr (x : Expr) : Expr := with_node Sum x.
Definition MaxExpr (x : Expr) : Expr := with_node Max x.
Definition MaxNullExpr (x : Expr) : Expr := with_node Max x.
(** [MinExpr] does not carry the bind error on. *)
Definition MinExpr (x : Expr) : Expr := MkExpr (Min (x_node x)) (x_codec x) (x_source x) None.
Definition MinNullExpr (x : Expr) : Expr := MkExpr (Min (x_node x)) (x_codec x) (x_source x) None.
(** An average is a new value: no codec. *)
Definition AvgExpr (x : Expr) : Expr := MkExpr (Avg (OpExpression (x_node x))) "" (x_source x) (x_bindErr x).
Definition AvgNullExpr (x : Expr) : Expr := MkExpr (Avg (OpExpression (x_node x))) "" (x_source x) (x_bindErr x).
Definition CountRows : Expr := MkExpr CountAll "" "" None.
Definition CountExpr (x : Expr) : Expr := MkExpr (Count (x_node x)) "" "" None.
Definition CountNullExpr (x : Expr) : Expr := MkExpr (Count (x_node x)) "" "" None.
Definition CoalesceExpr (value fallback : Expr) : Expr :=
  MkExpr (Coalesce [OpExpression (x_node value); OpExpression (x_node fallback)]) (x_codec value) (x_source value)
         (match x_bindErr value with None => x_bindErr fallback | e => e end).

(** ** Group keys, projections and order terms *)
Record GroupKey := MkGroup { g_node : expression; g_source : string }.
Definition Group (x : Expr) : GroupKey := MkGroup (x_node x) (x_source x).
Definition GroupNull (x : Expr) : GroupKey := MkGroup (x_node x) (x_source x).

Record ProjectionItem := MkItem {
  pi_expression : expression; pi_column : ResultColumn; pi_source : string; pi_bindErr : option error }.
Definition Item (name : string) (value : Expr) (logical : option ColumnType) (codec : string) : ProjectionItem :=
  MkItem (x_node value) (MkResultColumn name logical false codec) (x_source value) (x_bindErr value).
Definition NullItem (name : string) (value : Expr) (logical : option ColumnType) (codec : string) : ProjectionItem :=
  MkItem (x_node value) (MkResultColumn name logical true codec) (x_source value) (x_bindErr value).

Record OrderTerm := MkTerm {
  ot_node : expression; ot_source : string; ot_descending : bool; ot_nulls : N; ot_result : option ProjectionItem }.
Definition AscExpr (x : Expr) : OrderTerm := MkTerm (x_node x) (x_source x) false NullOrderDefault None.
Definition DescExpr (x : Expr) : OrderTerm := MkTerm (x_node x) (x_source x) true NullOrderDefault None.
Definition AscNull (x : Expr) (nulls : N) : OrderTerm := MkTerm (x_node x) (x_source x) false nulls None.
Definition DescNull (x : Expr) (nulls : N) : OrderTerm := MkTerm (x_node x) (x_source x) true nulls None.
Definition AscResult_ (item : ProjectionItem) : OrderTerm := MkTerm ENil "" false NullOrderDefault (Some item).
Definition DescResult_ (item : ProjectionItem) : OrderTerm := MkTerm ENil "" true NullOrderDefault (Some item).

(** ** Lemmas *)

(** A bound column is a column of its relation, with the nullability of the
    handle. *)
Lemma find_column_ok r name c : find_column r name = Some c -> c ∈ rel_Columns r /\ rc_Name c = name.
Proof. intros [Hi E%String.eqb_eq]%find_some. split; [by apply list_elem_of_In|done]. Qed.
Lemma bindColumn_ok r name codec nullable col :
  bindColumn r name codec nullable = Ok col ->
  col = MkColumn (MkColumnRef r name) codec /\
  exists c, find_column r name = Some c /\ rc_Nullable c = nullable /\ ValidateColumnType (rc_Type c) = Ok tt.
Proof.
  unfold bindColumn. destruct (validateBoundColumn r name codec) as [[]|] eqn:Ev; [|done].
  destruct (find_column r name) as [c|] eqn:Ef; [|done].
  destruct (Bool.eqb (rc_Nullable c) nullable) eqn:En; [|done]. intros [= <-]. split; [done|].
  apply eqb_prop in En. exists c. split_and!; [done..|]. unfold validateBoundColumn in Ev.
  destruct (String.eqb (rel_QualifiedName r) ""); [done|]. destruct (ValidateIdentifier name); [|done].
  destruct (malformed_codec codec); [done|]. rewrite Ef in Ev. by destruct (ValidateColumnType (rc_Type c)) as [[]|].
Qed.
