(* ===== verification/GraphKey.v ===== *)
(** * GraphKey: [internal/graphkey/value.go], [internal/graphkey/spec.go],
    [relation_value.go]

    The keys a graph load groups rows by: the values a key is read as, the
    bytes that identify it, and the specifications that read it from a row.
    A key's identity is equal to another's exactly when their values are
    ([Tuple_identity]).

    A Go value is what [database/sql/driver] distinguishes in it; a row is of
    an arbitrary type.  The codec registry is a parameter ([Encoder]). *)

From S2P Require Import Prelude GoText GoTime Bytes Schema Query QueryWrite CursorCodec Page Typed.
Open Scope string_scope.
Open Scope list_scope.
Open Scope nat_scope.

(** ** Driver values ([database/sql/driver]) *)
Inductive driver_value :=
| DNil
| DInt64 (z : Z)
| DFloat64 (bits : N)
| DBool (b : bool)
| DBytes (s : string)
| DString (s : string)
| DTime (seconds nanos : Z)
| DDecimal (id : Z)                        (* implements decimalDecompose *)
| DOther (go_type : string).               (* not a legal driver value *)
#[export] Instance driver_value_eq_dec : EqDecision driver_value.
Proof. solve_decision. Defined.

(** [driver.IsValue]. *)
Definition IsValue (v : driver_value) : bool := match v with DOther _ => false | _ => true end.

(** A Go value by what the default converter does with it: its kind, or the
    value a [driver.Valuer] returns. *)
Inductive go_any :=
| GNil
| GPointer (target : option go_any)
| GTime (seconds nanos : Z)
| GFloat (bits : N)
| GBool (b : bool)
| GInt (z : Z)
| GUint (n : N)                            (* uint, uint8, uint16, uint32 *)
| GUint64 (n : N)
| GBytes (s : string)
| GString (s : string)
| GValuer (r : result driver_value)
| GDecimal (id : Z)
| GUnsupported (go_type : string).

(** [driver.DefaultParameterConverter.ConvertValue]. *)
Fixpoint ConvertValue (v : go_any) : result driver_value :=
  match v with
  | GNil => Ok DNil
  | GPointer None => Ok DNil
  | GPointer (Some target) => ConvertValue target
  | GTime s n => Ok (DTime s n)
  | GFloat bits => Ok (DFloat64 bits)
  | GBool b => Ok (DBool b)
  | GInt z => Ok (DInt64 z)
  | GUint n => Ok (DInt64 (int64 n))
  | GUint64 n =>
      if (2 ^ 63 <=? n)%N then Err (errors_New "uint64 values with high bit set are not supported")
      else Ok (DInt64 (Z.of_N n))
  | GBytes s => Ok (DBytes s)
  | GString s => Ok (DString s)
  | GValuer r =>
      do sv <- r;
      if IsValue sv then Ok sv else Err (Errorf "non-Value type %T returned from Value" [])
  | GDecimal id => Ok (DDecimal id)
  | GUnsupported t => Err (Errorf "unsupported type %T, a %s" [AStr t])
  end.

(** ** [internal/graphkey/value.go] *)
Definition tagNull : N := 0.
Definition tagInt64 : N := 1.
Definition tagFloat64 : N := 2.
Definition tagBool : N := 3.
Definition tagBytes : N := 4.
Definition tagString : N := 5.
Definition tagTime : N := 6.

Definition ValidateDriverValue (value : driver_value) : result unit :=
  match value with
  | DNil => Ok tt
  | _ => if IsValue value then Ok tt else Err (Errorf "value %T is not a legal driver value" [])
  end.
Definition Normalize (value : go_any) : result driver_value :=
  match value with
  | GNil => Ok DNil
  | _ =>
      do converted <- ConvertValue value;
      check ValidateDriverValue converted;
      Ok converted
  end.

(** The tag and the payload of a value. *)
Definition frame_parts (value : driver_value) (allowNaN : bool) : result (N * string) :=
  match value with
  | DNil => Ok (tagNull, "")
  | DInt64 v => Ok (tagInt64, put_be 8 (uint64 v))
  | DFloat64 v =>
      if negb allowNaN && is_nan v then Err (errors_New "NaN is not a graph key")
      else Ok (tagFloat64, put_be 8 v)
  | DBool v => Ok (tagBool, byte_of (if v then 1 else 0)%N)
  | DBytes v => Ok (tagBytes, v)
  | DString v => Ok (tagString, v)
  | DTime seconds nanos => Ok (tagTime, FormatRFC3339Nano seconds nanos)
  | DDecimal _ | DOther _ => Err (Errorf "unsupported graph key value %T" [])
  end.
Definition frame (value : driver_value) (allowNaN : bool) : result string :=
  do tp <- frame_parts value allowNaN;
  Ok (byte_of tp.1 +:+ put_be 8 (N.of_nat (String.length tp.2)) +:+ tp.2).
Definition Frame (value : driver_value) : result string := frame value false.
Definition FrameAllowingNaN (value : driver_value) : result string := frame value true.

(** ** [internal/graphkey/spec.go] *)

(** [ColumnRef.Validate]. *)
Definition ColumnRef_Validate (c : ColumnRef) : result unit :=
  match rel_validate (cr_source c) with
  | Err e => Err (Errorf "query column: %q: %w" [AStr (cr_name c); AErr e])
  | Ok _ =>
      if hasColumn (cr_source c) (cr_name c) then Ok tt
      else Err (Errorf "query column: table %q has no column %q" [AStr (rel_QualifiedName (cr_source c)); AStr (cr_name c)])
  end.

Record Component := MkComponent { c_Value : driver_value; c_Encoded : string; c_Codec : string }.
Record tuple := MkTuple { Components : list Component; Identity : string }.

(** The codecs of the registry, by identifier. *)
Class Encoder := EncodeCodec : string -> option (go_any -> result driver_value).
Definition EncodeGraphKey `{Encoder} (codec : string) (value : go_any) : result driver_value :=
  match EncodeCodec codec with
  | None => Err (planError "codec_unavailable" "graph.key" codec)
  | Some encode => encode value
  end.

Section Spec.
Context {Row : Type}.

(** One column of a key; a part without [Extract] is the zero part. *)
Record PartSpec := MkPart {
  pt_Column : ColumnRef; pt_Codec : string; pt_Type : string; pt_Nullable : bool;
  pt_ColumnType : option ColumnType; pt_Source : string; pt_Extract : Row -> go_any * bool }.

Definition graph_ColumnType (column : ColumnRef) : option ColumnType :=
  match find_column (cr_source column) (cr_name column) with
  | Some value => rc_Type value
  | None => None
  end.

Definition at_part (i : nat) : string := "parts[" +:+ pretty i +:+ "]".
Definition duplicates_column (prior : list (option PartSpec)) (part : PartSpec) : bool :=
  existsb (fun p => match p with
                    | Some p => String.eqb (cr_name (pt_Column p)) (cr_name (pt_Column part))
                    | None => false end) prior.
Definition validate_part (parts : list (option PartSpec)) (i : nat) (part : option PartSpec) (source : string)
  : result string :=
  match part with
  | None => Err (planError "invalid_graph_key" (at_part i) "must not be zero")
  | Some part =>
      match ColumnRef_Validate (pt_Column part) with
      | Err e => Err (planErr "invalid_graph_key" (at_part i) e)
      | Ok _ =>
          if malformed_codec (pt_Codec part)
          then Err (planError "invalid_graph_key" (at_part i) "malformed codec")
          else
            let current := rel_QualifiedName (cr_source (pt_Column part)) in
            if negb (String.eqb source "") && negb (String.eqb source current)
            then Err (planError "invalid_graph_key" "parts" "mixed relation sources")
            else if duplicates_column (take i parts) part
            then Err (planError "invalid_graph_key" "parts" "duplicate column")
            else Ok (if String.eqb source "" then current else source)
      end
  end.
Definition ValidateParts (parts : list (option PartSpec)) : result unit :=
  if length parts =? 0 then Err (planError "invalid_graph_key" "parts" "must not be empty")
  else do _ <- foldi (validate_part parts) 0 parts ""; Ok tt.

(** One turn of [Spec.Tuple]: [None] when the part is absent. *)
Definition read_part `{Encoder} (part : PartSpec) (row : Row) : result (option (driver_value * string)) :=
  let '(value, present) := pt_Extract part row in
  if negb present then Ok None
  else
    do driverValue <- Normalize value;
    do driverValue <- (if negb (String.eqb (pt_Codec part) "") then EncodeGraphKey (pt_Codec part) value else Ok driverValue);
    do f <- Frame driverValue;
    Ok (Some (driverValue, f)).
Fixpoint tuple_loop `{Encoder} (parts : list PartSpec) (row : Row) (result_ : tuple) : result (option tuple) :=
  match parts with
  | [] => Ok (Some result_)
  | part :: parts' =>
      do r <- read_part part row;
      match r with
      | None => Ok None
      | Some (v, f) =>
          tuple_loop parts' row (MkTuple (Components result_ ++ [MkComponent v f (pt_Codec part)]) (Identity result_ +:+ f))
      end
  end.
(** [Spec.Tuple]; a nil [*Spec] has no parts. *)
Definition Tuple `{Encoder} (parts : list PartSpec) (row : Row) : result (option tuple) :=
  if length parts =? 0 then Err (planError "invalid_graph_key" "key" "must not be zero")
  else tuple_loop parts row (MkTuple [] (byte_of (N.of_nat (length parts)))).

(** [graphTupleValues]: the key whose parts' values are given. *)
Fixpoint values_loop `{Encoder} (parts : list PartSpec) (values : list go_any) (result_ : tuple) : result (option tuple) :=
  match parts, values with
  | part :: parts', value :: values' =>
      do normalized <- Normalize value;
      match normalized with
      | DNil => Ok None
      | _ =>
          do normalized <- (if negb (String.eqb (pt_Codec part) "") then EncodeGraphKey (pt_Codec part) value else Ok normalized);
          do f <- Frame normalized;
          values_loop parts' values'
            (MkTuple (Components result_ ++ [MkComponent normalized f (pt_Codec part)]) (Identity result_ +:+ f))
      end
  | _, _ => Ok (Some result_)
  end.
Definition graphTupleValues `{Encoder} (parts : list PartSpec) (values : list go_any) : result (option tuple) :=
  if negb (length parts =? length values) then Err (planError "internal_plan" "graph.key" "tuple width mismatch")
  else values_loop parts values (MkTuple [] (byte_of (N.of_nat (length parts)))).

(** ** [relation_value.go]: the typed constructors *)

Definition KeyPart (column : column) (typ : string) (extract : option (Row -> go_any)) : option PartSpec :=
  match extract with
  | None => None
  | Some extract =>
      if String.eqb (cr_name (tc_ref column)) "" then None
      else Some (MkPart (tc_ref column) (tc_codec column) typ false (graph_ColumnType (tc_ref column))
                        (rel_QualifiedName (cr_source (tc_ref column))) (fun row => (extract row, true)))
  end.
(** [Nullable[T]]: a value and whether it is valid. *)
Definition NullKeyPart (column : column) (typ : string) (extract : option (Row -> go_any * bool)) : option PartSpec :=
  match extract with
  | None => None
  | Some extract =>
      if String.eqb (cr_name (tc_ref column)) "" then None
      else Some (MkPart (tc_ref column) (tc_codec column) typ true (graph_ColumnType (tc_ref column))
                        (rel_QualifiedName (cr_source (tc_ref column))) extract)
  end.
Definition NewGraphKey (parts : list (option PartSpec)) : result (list PartSpec) :=
  check ValidateParts parts;
  Ok (omap id parts).
End Spec.
Arguments PartSpec : clear implicits.

(** ** Frames delimit themselves *)

(** The ranges Go's types give a driver value, and payloads whose length
    fits the length word. *)
Definition driver_typed (v : driver_value) : Prop :=
  match v with
  | DInt64 z => (- 2 ^ 63 <= z < 2 ^ 63)%Z
  | DFloat64 bits => (bits < 2 ^ 64)%N
  | DBytes s | DString s => (N.of_nat (String.length s) < 2 ^ 64)%N
  | DTime seconds nanos => (- 2 ^ 63 <= seconds < 2 ^ 63)%Z /\ (0 <= nanos < 1000000000)%Z
  | _ => True
  end.

Lemma uint64_inj x y : (- 2 ^ 63 <= x < 2 ^ 63)%Z -> (- 2 ^ 63 <= y < 2 ^ 63)%Z -> uint64 x = uint64 y -> x = y.
Proof.
  unfold uint64. intros Hx Hy E. assert (x mod 2 ^ 64 = y mod 2 ^ 64)%Z as Em.
  { pose proof (Z.mod_pos_bound x (2 ^ 64) eq_refl). pose proof (Z.mod_pos_bound y (2 ^ 64) eq_refl). lia. }
  zdiv.
Qed.

(** A value by its tag and its payload, which determine it. *)
Definition tag_of (v : driver_value) : N :=
  match v with
  | DNil => tagNull | DInt64 _ => tagInt64 | DFloat64 _ => tagFloat64 | DBool _ => tagBool
  | DBytes _ => tagBytes | DString _ => tagString | DTime _ _ => tagTime | _ => 255
  end.
Definition payload_of (v : driver_value) : string :=
  match v with
  | DInt64 z => put_be 8 (uint64 z) | DFloat64 bits => put_be 8 bits
  | DBool b => byte_of (if b then 1 else 0)%N | DBytes s | DString s => s
  | DTime seconds nanos => FormatRFC3339Nano seconds nanos | _ => ""
  end.
Lemma frame_parts_eq v n tp : frame_parts v n = Ok tp -> tp = (tag_of v, payload_of v) /\ tag_of v <> 255%N.
Proof.
  destruct v; cbn [frame_parts]; try (destruct (negb n && is_nan bits); [discriminate|]); try discriminate;
    intros <-%Ok_inj; (split; [reflexivity|discriminate]).
Qed.
Lemma payload_inj v w :
  driver_typed v -> driver_typed w -> tag_of v <> 255%N -> tag_of v = tag_of w -> payload_of v = payload_of w -> v = w.
Proof.
  intros Hv Hw Hn Et. destruct v, w; try discriminate Et; try (exfalso; by apply Hn);
    cbn [payload_of driver_typed] in *; clear Et Hn; intros E; try done; try congruence.
  - apply put_be_inj, uint64_inj in E; [congruence|done|done|apply uint64_bound..].
  - apply put_be_inj in E; [congruence|done..].
  - by destruct b, b0.
  - destruct Hv, Hw. by apply FormatRFC3339Nano_inj in E as [-> ->].
Qed.

(** The frame of a value is a prefix code. *)
Lemma Frame_ok v f :
  Frame v = Ok f -> tag_of v <> 255%N /\
  f = byte_of (tag_of v) +:+ put_be 8 (N.of_nat (String.length (payload_of v))) +:+ payload_of v.
Proof.
  unfold Frame, frame. destruct (frame_parts v false) as [tp|] eqn:E; [|done].
  apply frame_parts_eq in E as [-> Hn]. intros <-%Ok_inj. split; [done|reflexivity].
Qed.
Lemma payload_length v : driver_typed v -> (N.of_nat (String.length (payload_of v)) < 2 ^ 64)%N.
Proof.
  destruct v; cbn [payload_of driver_typed]; rewrite ?put_be_length; try (cbn; lia).
  intros [Hs _]. pose proof (FormatRFC3339Nano_length seconds nanos Hs). lia.
Qed.
Lemma tag_bound v : (tag_of v < 256)%N.
Proof. by destruct v. Qed.
Lemma Frame_prefix v w f g x y :
  driver_typed v -> driver_typed w -> Frame v = Ok f -> Frame w = Ok g -> f +:+ x = g +:+ y -> v = w /\ x = y.
Proof.
  intros Hv Hw [Hn ->]%Frame_ok [_ ->]%Frame_ok. rewrite !sapp_assoc.
  intros [Et E]%sapp_inj_length; [|done].
  apply sapp_inj_length in E as [El E]; [|by rewrite !put_be_length].
  apply put_be_inj in El; [|by apply payload_length..]. apply Nat2N.inj in El.
  apply sapp_inj_length in E as [Ep ->]; [|done]. split; [|done].
  apply payload_inj; [done..| |done]. unfold byte_of, str1 in Et.
  assert (chr (tag_of v) = chr (tag_of w)) as Ec%(f_equal code) by congruence.
  rewrite !code_chr in Ec by apply tag_bound. done.
Qed.
Lemma Frame_nonempty v f : Frame v = Ok f -> f <> "".
Proof. by intros [_ ->]%Frame_ok. Qed.
Lemma frames_inj vs ws fs gs :
  Forall driver_typed vs -> Forall driver_typed ws ->
  Forall2 (fun v f => Frame v = Ok f) vs fs -> Forall2 (fun v f => Frame v = Ok f) ws gs ->
  fold_right String.append "" fs = fold_right String.append "" gs -> vs = ws.
Proof.
  intros Hv. revert ws fs gs. induction Hv as [|v vs Hv Hvs IH]; intros ws fs gs Hw Hf Hg E.
  - apply Forall2_nil_inv_l in Hf as ->. destruct Hg as [|w g ws gs Hg _]; [done|].
    apply Frame_nonempty in Hg. destruct g; [done|discriminate].
  - apply Forall2_cons_inv_l in Hf as (f & fs' & Hf & Hfs & ->). destruct Hg as [|w g ws gs Hg Hgs].
    + apply Frame_nonempty in Hf. destruct f; [done|discriminate].
    + inversion Hw as [|? ? Hw1 Hws]; subst. cbn [fold_right] in E.
      destruct (Frame_prefix v w f g _ _ Hv Hw1 Hf Hg E) as [-> E']. f_equal. by apply (IH ws fs' gs).
Qed.

(** ** What a key reads *)
Definition values_of (t : tuple) : list driver_value := c_Value <$> Components t.

Section Tuples.
Context {Row : Type} `{Encoder}.

(** A tuple holds its values' frames behind the width. *)
Definition tuple_wf (width : nat) (t : tuple) : Prop :=
  Forall (fun c => Frame (c_Value c) = Ok (c_Encoded c)) (Components t) /\
  Identity t = byte_of (N.of_nat width) +:+ fold_right String.append "" (c_Encoded <$> Components t).

Lemma tuple_wf_snoc width t v f codec :
  tuple_wf width t -> Frame v = Ok f ->
  tuple_wf width (MkTuple (Components t ++ [MkComponent v f codec]) (Identity t +:+ f)).
Proof.
  intros [Hc Hi] Hf. split; simpl.
  - apply Forall_app. split; [done|]. by constructor.
  - rewrite Hi, sapp_assoc, fmap_app, fold_right_app. simpl. f_equal.
    generalize (c_Encoded <$> Components t) as l. intros l. induction l as [|a l IH]; simpl; [by rewrite sapp_nil_r|].
    by rewrite sapp_assoc, IH.
Qed.

Lemma read_part_frame (part : PartSpec Row) row v f : read_part part row = Ok (Some (v, f)) -> Frame v = Ok f.
Proof.
  unfold read_part. destruct (pt_Extract part row) as [value []]; cbn [negb]; [|done].
  destruct (Normalize value) as [d|]; [|done]. set (r := if negb _ then _ else _). destruct r as [d'|]; [|done].
  destruct (Frame d') as [f'|] eqn:E; [|done]. intros [= <- <-]. done.
Qed.

(** The values the parts read, in their order. *)
Lemma tuple_loop_ok (parts : list (PartSpec Row)) row width acc t :
  tuple_wf width acc -> tuple_loop parts row acc = Ok (Some t) ->
  tuple_wf width t /\ exists vs, values_of t = values_of acc ++ vs /\
    Forall2 (fun part v => exists f, read_part part row = Ok (Some (v, f))) parts vs.
Proof.
  revert acc. induction parts as [|part parts IH]; intros acc Hw; cbn [tuple_loop].
  - intros [= <-]. split; [done|]. exists []. by rewrite app_nil_r.
  - destruct (read_part part row) as [[[v f]|]|] eqn:E; [|done..].
    intros Ht. apply IH in Ht as (Hwt & vs & Ev & Hvs); [|by eapply tuple_wf_snoc, read_part_frame].
    split; [done|]. exists (v :: vs). unfold values_of in *. simpl in Ev. rewrite fmap_app, <- app_assoc in Ev.
    split; [done|]. constructor; [by exists f|done].
Qed.
Lemma values_loop_ok (parts : list (PartSpec Row)) values width acc t :
  tuple_wf width acc -> values_loop parts values acc = Ok (Some t) -> tuple_wf width t.
Proof.
  revert values acc. induction parts as [|part parts IH]; intros [|value values] acc Hw; cbn [values_loop];
    try (by intros [= <-]).
  destruct (Normalize value) as [d|] eqn:En; [|done].
  set (r := if negb _ then _ else _).
  assert (forall d', r = Ok d' -> (do f <- Frame d';
    values_loop parts values (MkTuple (Components acc ++ [MkComponent d' f (pt_Codec part)]) (Identity acc +:+ f))) = Ok (Some t) ->
    tuple_wf width t) as Hgo.
  { intros d' _. destruct (Frame d') as [f|] eqn:Ef; [|done]. apply IH. by apply tuple_wf_snoc. }
  destruct d; try done; destruct r as [d'|] eqn:Er; try done; by apply Hgo.
Qed.
End Tuples.

Lemma tuple_wf_start width : tuple_wf width (MkTuple [] (byte_of (N.of_nat width))).
Proof. split; [constructor|]. simpl. done. Qed.

Lemma identity_values t t' width :
  Forall driver_typed (values_of t) -> Forall driver_typed (values_of t') -> tuple_wf width t -> tuple_wf width t' ->
  (Identity t = Identity t' <-> values_of t = values_of t').
Proof.
  intros Hv Hv' [Hc Hi] [Hc' Hi']. rewrite Hi, Hi'.
  assert (forall l, Forall (fun c => Frame (c_Value c) = Ok (c_Encoded c)) l ->
                    Forall2 (fun v f => Frame v = Ok f) (c_Value <$> l) (c_Encoded <$> l)) as Hl.
  { intros l Hf. induction Hf; simpl; constructor; done. }
  split.
  - intros [_ E]%sapp_inj_length; [|done]. by eapply frames_inj; eauto.
  - intros E. f_equal. f_equal. unfold values_of in E. pose proof (Hl _ Hc) as H1. pose proof (Hl _ Hc') as H2.
    rewrite E in H1. clear -H1 H2. revert H1 H2. generalize (c_Encoded <$> Components t) as a, (c_Encoded <$> Components t') as b.
    generalize (c_Value <$> Components t') as vs. induction vs as [|v vs IH]; intros a b Ha Hb.
    + by apply Forall2_nil_inv_l in Ha as ->, Hb as ->.
    + apply Forall2_cons_inv_l in Ha as (? & ? & ? & ? & ->), Hb as (? & ? & ? & ? & ->). f_equal; [congruence|by apply IH].
Qed.

Lemma Tuple_wf {Row} `{Encoder} (parts : list (PartSpec Row)) row t :
  Tuple parts row = Ok (Some t) ->
  tuple_wf (length parts) t /\
  Forall2 (fun part v => exists f, read_part part row = Ok (Some (v, f))) parts (values_of t).
Proof.
  unfold Tuple. destruct (length parts =? 0); [done|]. intros Ht.
  apply (tuple_loop_ok _ _ (length parts)) in Ht as (Hw & vs & Ev & Hvs); [|apply tuple_wf_start].
  split; [done|]. by rewrite Ev.
Qed.
Lemma graphTupleValues_wf {Row} `{Encoder} (parts : list (PartSpec Row)) values t :
  graphTupleValues parts values = Ok (Some t) -> tuple_wf (length parts) t.
Proof.
  unfold graphTupleValues. destruct (negb _); [done|]. apply values_loop_ok, tuple_wf_start.
Qed.

(** A row without a key: a part before which every part is present is absent. *)
Lemma Tuple_absent {Row} `{Encoder} (parts : list (PartSpec Row)) row :
  Tuple parts row = Ok None -> Exists (fun part => read_part part row = Ok None) parts.
Proof.
  unfold Tuple. destruct (length parts =? 0); [done|]. generalize (MkTuple [] (byte_of (N.of_nat (length parts)))).
  induction parts as [|part parts IH]; intros acc; cbn [tuple_loop]; [done|].
  destruct (read_part part row) as [[[v f]|]|] eqn:E; [|by constructor|done]. intros Ht. right. by eapply IH.
Qed.

(** ** Valid keys: one relation's distinct columns.  A relation without a name
    is not told apart from another. *)
Lemma NewGraphKey_ok {Row} (parts : list (option (PartSpec Row))) key :
  NewGraphKey parts = Ok key ->
  parts = Some <$> key /\ key <> [] /\
  NoDup ((fun p => cr_name (pt_Column p)) <$> key) /\
  (exists source, forall p, p ∈ key ->
     rel_QualifiedName (cr_source (pt_Column p)) = source \/ rel_QualifiedName (cr_source (pt_Column p)) = "") /\
  Forall (fun p => ColumnRef_Validate (pt_Column p) = Ok tt /\
                   (pt_Codec p = "" \/ CodecPattern_MatchString (pt_Codec p) = true)) key.
Proof.
  unfold NewGraphKey, ValidateParts. destruct (length parts =? 0) eqn:E0; [done|]. apply length_nil in E0.
  destruct (foldi (validate_part parts) 0 parts "") as [source|] eqn:Ef; [|done]. intros [= <-].
  set (Inv := fun (i : nat) (s : string) => exists l, take i parts = Some <$> l /\
    NoDup ((fun p => cr_name (pt_Column p)) <$> l) /\
    (forall p, p ∈ l -> rel_QualifiedName (cr_source (pt_Column p)) = s \/ rel_QualifiedName (cr_source (pt_Column p)) = "") /\
    Forall (fun p => ColumnRef_Validate (pt_Column p) = Ok tt /\
                   (pt_Codec p = "" \/ CodecPattern_MatchString (pt_Codec p) = true)) l).
  assert (Inv (0 + length parts) source) as (l & Hl & Hn & Hs & Hv).
  { eapply (foldi_inv (validate_part parts) Inv 0 parts "" source); [|exists []; split_and!; [done|constructor|set_solver|constructor]|exact Ef].
    clear. intros j x s s' Hj (l & Hl & Hn & Hs & Hv) Hstep. simpl in Hl, Hstep |- *. unfold validate_part in Hstep.
    destruct x as [p|]; [|done]. destruct (ColumnRef_Validate (pt_Column p)) as [[]|] eqn:Ec; [|done].
    destruct (malformed_codec (pt_Codec p)) eqn:Eco; [done|].
    set (cur := rel_QualifiedName (cr_source (pt_Column p))) in *.
    destruct (negb (String.eqb s "") && negb (String.eqb s cur)) eqn:Es; [done|].
    destruct (duplicates_column (take j parts) p) eqn:Ed; [done|]. injection Hstep as <-.
    assert (cr_name (pt_Column p) ∉ ((fun p => cr_name (pt_Column p)) <$> l)) as Hfresh.
    { intros (q & Eq & Hq)%list_elem_of_fmap. rewrite Hl in Ed. unfold duplicates_column in Ed.
      apply not_true_iff_false in Ed. apply Ed, existsb_exists. exists (Some q). split.
      - apply list_elem_of_In, list_elem_of_fmap. by exists q.
      - simpl. by apply String.eqb_eq. }
    assert ((if String.eqb s "" then cur else s) = cur) as ->.
    { destruct (String.eqb_spec s ""); [done|]. simpl in Es. by destruct (String.eqb_spec s cur). }
    exists (l ++ [p]). split_and!.
    - rewrite (take_S_r _ _ (Some p)) by done. by rewrite Hl, fmap_app.
    - rewrite fmap_app. apply NoDup_app. split_and!; [done| |apply NoDup_singleton]. set_solver.
    - intros q [Hq| ->%list_elem_of_singleton]%elem_of_app; [|by left].
      destruct (Hs q Hq) as [E|E]; [|by right]. rewrite E.
      destruct (String.eqb_spec s cur); [by left|]. destruct (String.eqb_spec s "") as [->|]; [by right|done].
    - apply Forall_app. split; [done|]. constructor; [|constructor]. split; [done|].
      unfold malformed_codec in Eco. destruct (String.eqb_spec (pt_Codec p) ""); [by left|]. right. simpl in Eco. by apply negb_false_iff in Eco. }
  simpl in Hl. rewrite firstn_all in Hl. assert (omap id parts = l) as ->.
  { rewrite Hl. clear. induction l as [|a l IH]; [done|]. cbn. f_equal. exact IH. }
  split_and!; try done; [|by exists source]. intros ->. by rewrite Hl in E0.
Qed.
