(* ===== verification/Graph.v ===== *)
(** * Graph: [graph.go] and the validation half of [graph_execute.go]

    Graph plans: a root query and, per node, the edges whose child queries
    load related rows.  Nodes are shared by pointer, so a plan is a store of
    nodes; [graphValidate] walks it depth first with an explicit stack before
    anything runs.

    A node's query is an interface in the source ([graphQueryOps]); here it is
    the class [QueryOps].  Row and graph types are erased: every row of every
    node has one type, and the type assertions the generic constructors make
    safe are not modelled. *)

From S2P Require Import Prelude GoText Schema Dialect EngineProfile Query QueryWrite CursorCodec Page Typed GraphKey.
Open Scope string_scope.
Open Scope list_scope.
Open Scope nat_scope.

#[export] Instance ColumnType_eq_dec : EqDecision ColumnType.
Proof. solve_decision. Defined.

(** [fmt.Sprintf("%s[%d]", path, i)]. *)
Definition at_index (path : string) (i : nat) : string := path +:+ "[" +:+ pretty i +:+ "]".

(** ** Plans *)
Record EdgeOptions := MkOptions {
  o_Where : Predicate; o_Order : list OrderTerm; PerParentLimit_ : Z; BindLimit : Z }.
Definition no_predicate : Predicate := MkPredicate ENil "" "" None.
Definition no_options : EdgeOptions := MkOptions no_predicate [] 0 0.

Inductive graphEdgeKind := graphHasMany | graphHasOne | graphManyThrough.
#[export] Instance graphEdgeKind_eq_dec : EqDecision graphEdgeKind.
Proof. solve_decision. Defined.

(** The pointer to a node is its identity. *)
Abbreviation node_ptr := positive.

(** [LoadedMany] and [LoadedOne] as the attach functions receive them. *)
Record LoadedMany (V : Type) := MkLoadedMany { lm_Loaded : bool; lm_Values : list V }.
Record LoadedOne (V : Type) := MkLoadedOne { lo_Loaded : bool; lo_Present : bool; lo_Value : option V }.
Arguments MkLoadedMany {V}.
Arguments lm_Loaded {V}.
Arguments lm_Values {V}.
Arguments MkLoadedOne {V}.
Arguments lo_Loaded {V}.
Arguments lo_Present {V}.
Arguments lo_Value {V}.

(** An attach function writes to the parent it is given a pointer to. *)
Inductive graphAttachOps (V : Type) :=
| AttachMany (fn : V -> LoadedMany V -> V)
| AttachOne (fn : V -> LoadedOne V -> V).
Arguments AttachMany {V}.
Arguments AttachOne {V}.

Section Plans.
Context {Row V Q : Type}.

Record graphEdgeSpec := MkEdge {
  e_ptr : positive;
  e_kind : graphEdgeKind; e_name : string;
  parentKey : option (list (PartSpec Row)); childKey : option (list (PartSpec Row));
  junctionParent : option (list (PartSpec Row)); junctionChild : option (list (PartSpec Row));
  junction : relation; e_child : option node_ptr; e_options : EdgeOptions; e_attach : option (graphAttachOps V) }.
Record graphPlanNode := MkNode { n_query : Q; n_mapRow : Row -> V; n_edges : list (option graphEdgeSpec) }.
Definition plan_store : Type := gmap node_ptr graphPlanNode.

(** ** Edges *)
Definition edge_zero (what : string) (detail : string) : error := planError "invalid_graph_edge" what detail.
Definition HasMany (ptr : positive) (name : string) (parent child : option (list (PartSpec Row)))
  (children : option node_ptr) (options : EdgeOptions) (attach : option (V -> LoadedMany V -> V)) : result graphEdgeSpec :=
  match attach with
  | None => Err (edge_zero "attach" "must not be nil")
  | Some attach =>
      match children, parent, child with
      | Some _, Some _, Some _ =>
          Ok (MkEdge ptr graphHasMany name parent child None None RelZero children options (Some (AttachMany attach)))
      | _, _, _ => Err (edge_zero "edge" "must not be zero")
      end
  end.
Definition HasOne (ptr : positive) (name : string) (parent child : option (list (PartSpec Row)))
  (children : option node_ptr) (options : EdgeOptions) (attach : option (V -> LoadedOne V -> V)) : result graphEdgeSpec :=
  match attach with
  | None => Err (edge_zero "attach" "must not be nil")
  | Some attach =>
      match children, parent, child with
      | Some _, Some _, Some _ =>
          if negb (PerParentLimit_ options =? 0)%Z && negb (PerParentLimit_ options =? 2)%Z
          then Err (edge_zero "limit" "has-one limit must be zero or two")
          else Ok (MkEdge ptr graphHasOne name parent child None None RelZero children options (Some (AttachOne attach)))
      | _, _, _ => Err (edge_zero "edge" "must not be zero")
      end
  end.
Definition ManyThrough (ptr : positive) (name : string) (parent jparent jchild child : option (list (PartSpec Row)))
  (through : relation) (children : option node_ptr) (options : EdgeOptions) (attach : option (V -> LoadedMany V -> V))
  : result graphEdgeSpec :=
  match attach, children, parent, jparent, jchild, child with
  | Some attach, Some _, Some p, Some jp, Some jc, Some c =>
      if String.eqb (rel_QualifiedName through) "" then Err (edge_zero "edge" "is incomplete")
      else if negb (length jp =? length p) || negb (length jc =? length c)
      then Err (edge_zero "edge" "key widths differ")
      else Ok (MkEdge ptr graphManyThrough name parent child jparent jchild through children options (Some (AttachMany attach)))
  | _, _, _, _, _, _ => Err (edge_zero "edge" "is incomplete")
  end.

(** ** [NewGraphPlan] *)
Definition plan_invalid (path detail : string) : error := planError "invalid_graph_plan" path detail.
Definition key_mismatch (path detail : string) : error := planError "graph_key_mismatch" path detail.

Definition matchParts (lhs rhs : list (PartSpec Row)) (path : string) : result unit :=
  if negb (length lhs =? length rhs) then Err (key_mismatch path "key widths differ")
  else checki (fun i lr =>
    let '(l, r) := lr in
    if negb (String.eqb (pt_Type l) (pt_Type r)) || negb (String.eqb (pt_Codec l) (pt_Codec r))
       || negb (bool_decide (pt_ColumnType l = pt_ColumnType r))
    then Err (key_mismatch (at_index path i) "key component types differ") else Ok tt) 0 (combine lhs rhs).
Definition sources_are (source : string) (parts : list (PartSpec Row)) (path detail : string) : result unit :=
  checki (fun _ part => if negb (String.eqb (pt_Source part) source) then Err (key_mismatch path detail) else Ok tt) 0 parts.

Definition is_zero_relation (r : relation) : bool := match r with RelZero => true | _ => false end.
(** An option's source, when it names one, is the source the options filter. *)
Definition option_source_ok (source optionSource : string) : bool :=
  String.eqb source "" || String.eqb optionSource "" || String.eqb source optionSource.

Section NewPlan.
(** [spec.child.query.sourceName()] of the children, which exist. *)
Variable source_of : node_ptr -> string.

(** The checks on one edge of a plan that reads [source]. *)
Definition check_options (spec : graphEdgeSpec) (optionSource : string) : result unit :=
  let w := o_Where (e_options spec) in
  if negb (option_source_ok (p_source w) optionSource) || negb (option_source_ok (p_source2 w) optionSource)
  then Err (plan_invalid "edge.where" "predicate source differs from child source")
  else checki (fun _ term =>
    if negb (option_source_ok (ot_source term) optionSource)
    then Err (plan_invalid "edge.order" "order source differs from child source") else Ok tt) 0 (o_Order (e_options spec)).
Definition check_edge (source : string) (spec : graphEdgeSpec) : result unit :=
  match e_child spec, parentKey spec, childKey spec, e_attach spec with
  | Some child, Some pk, Some ck, Some _ =>
      if (PerParentLimit_ (e_options spec) <? 0)%Z || (BindLimit (e_options spec) <? 0)%Z
      then Err (plan_invalid "edges" "limits must not be negative")
      else match e_kind spec with
      | graphManyThrough =>
          match is_zero_relation (junction spec), junctionParent spec, junctionChild spec with
          | false, Some jp, Some jc =>
              check matchParts pk jp "junction_parent";
              check matchParts ck jc "junction_child";
              check sources_are source pk "parent_key" "key source differs from graph stage";
              check sources_are (source_of child) ck "child_key" "key source differs from graph stage";
              check sources_are (rel_QualifiedName (junction spec)) jp "junction" "junction key source differs from junction";
              check sources_are (rel_QualifiedName (junction spec)) jc "junction" "junction key source differs from junction";
              check_options spec (rel_QualifiedName (junction spec))
          | _, _, _ => Err (plan_invalid "edges" "through metadata is incomplete")
          end
      | _ =>
          check matchParts pk ck "edges";
          check sources_are source pk "parent_key" "key source differs from graph stage";
          check sources_are (source_of child) ck "child_key" "key source differs from graph stage";
          check_options spec (source_of child)
      end
  | _, _, _, _ => Err (plan_invalid "edges" "edge is incomplete")
  end.
(** An edge argument: the nil interface, one holding a nil spec, or a spec. *)
Definition new_plan_edge (source : string) (i : nat) (edge : option (option graphEdgeSpec))
  (st : gset string * list (option graphEdgeSpec)) : result (gset string * list (option graphEdgeSpec)) :=
  match edge with
  | None => Err (plan_invalid (at_index "edges" i) "must not be nil")
  | Some None => Err (plan_invalid (at_index "edges" i) "must not be zero")
  | Some (Some spec) =>
      if String.eqb (e_name spec) "" then Err (plan_invalid (at_index "edges" i) "name must not be empty")
      else if bool_decide (e_name spec ∈ st.1) then Err (plan_invalid "edges" "duplicate edge name")
      else
        check check_edge source spec;
        Ok ({[ e_name spec ]} ∪ st.1, st.2 ++ [Some spec])
  end.
(** The node; the caller's store gives it its pointer. *)
Definition NewGraphPlan (validate : Q -> result unit) (sourceName : Q -> string) (q : Q) (mapper : option (Row -> V))
  (edges : list (option (option graphEdgeSpec))) : result graphPlanNode :=
  check validate q;
  match mapper with
  | None => Err (plan_invalid "mapper" "must not be nil")
  | Some mapper =>
      do st <- foldi (new_plan_edge (sourceName q)) 0 edges (∅, []);
      Ok (MkNode q mapper st.2)
  end.
End NewPlan.
End Plans.
Arguments graphEdgeSpec : clear implicits.
Arguments graphPlanNode : clear implicits.
Arguments plan_store : clear implicits.

(** ** [graphQueryOps]: what a graph load asks of a query

    [rows q c n] are the rows the [n]-th query of the load yields, up to the
    error that ends them, when the compiled query [c] runs with [q]'s
    projection. *)
Class QueryOps (Q Row C : Type) := {
  q_validate : Q -> result unit;
  q_compile : Q -> result C;
  q_validateCompiled : Q -> C -> result unit;
  q_prepare : Q -> C -> result unit;
  q_rows : Q -> C -> nat -> list (result Row);
  q_sourceName : Q -> string;
  q_hasPredicates : Q -> bool;
  q_withMembership : Q -> Predicate -> Q;
  q_withOptions : Q -> EdgeOptions -> list ColumnRef -> Z -> result Q }.

(** What a load reads from the executor: its codecs and, when it retained a
    compiler, its engine profile. *)
Record Executor := MkExecutor { x_codecs : result Encoder; x_profile : option Profile }.
Definition zero_caps : Capabilities :=
  MkCapabilities 0 0 false false false false false false false false false false false false
    false false false false false false false false false false false false false 0 0.
Definition zero_profile : Profile := MkProfile "" 0 "" (MkVersion false 0 0 0) zero_caps 0.
Definition executorCompilerProfile (x : Executor) : Profile := default zero_profile (x_profile x).
Definition key_columns {Row} (key : list (PartSpec Row)) : list ColumnRef := map pt_Column key.

Section Validation.
Context {Row V Q C JQ : Type} `{!QueryOps Q Row C} `{!QueryOps JQ (list go_any) C}.
(** The number of bind slots of a compiled query. *)
Variable Slots : C -> nat.
(** [graphJunctionQuery]: the query of a junction's key columns. *)
Variable graphJunctionQuery : relation -> list (PartSpec Row) -> list (PartSpec Row) -> result JQ.
Variable store : plan_store Row V Q.
Variable executor : Executor.
Abbreviation edge := (graphEdgeSpec Row V).

(** ** Edges *)
Definition bind_budget (e : edge) : Z :=
  let limit := MaxBindParameters (executorCompilerProfile executor) in
  let budget := BindLimit (e_options e) in
  if (budget =? 0)%Z || (limit <? budget)%Z then limit else budget.
Definition validate_probe {Q' R'} `{!QueryOps Q' R' C} (q probe : Q') : result nat :=
  do compiled <- q_compile probe;
  check q_validateCompiled q compiled;
  Ok (Slots compiled).
Definition fits (budget : Z) (slots width : nat) : bool := (Z.of_nat width <=? budget - Z.of_nat slots)%Z.

Definition validateManyThroughEdge (e : edge) (child : Q) (ck : list (PartSpec Row)) (path : string) : result unit :=
  let budget := bind_budget e in
  match junctionParent e, junctionChild e with
  | Some jp, Some jc =>
      do junctionQ <- graphJunctionQuery (junction e) jp jc;
      do junctionBase <- q_withOptions junctionQ (e_options e) (key_columns jp) (PerParentLimit_ (e_options e));
      do slots <- validate_probe junctionBase junctionBase;
      if negb (fits budget slots (length jp)) then Err (planError "bind_limit" path "bind budget cannot fit one junction key")
      else
        do target <- q_withOptions child no_options (key_columns ck) 0;
        do slots <- validate_probe target target;
        if negb (fits budget slots (length ck)) then Err (planError "bind_limit" path "bind budget cannot fit one target key")
        else Ok tt
  | _, _ => Err (plan_invalid path "edge is incomplete")
  end.
Definition probe_limit (e : edge) : Z :=
  if bool_decide (e_kind e = graphHasOne) then 2 else PerParentLimit_ (e_options e).
Definition per_parent_refused (e : edge) : bool :=
  let caps := p_Capabilities (executorCompilerProfile executor) in
  (0 <? PerParentLimit_ (e_options e))%Z
  && (negb (N.eqb (PerParentLimit caps) PerParentLimitWindow) || negb (WindowFunctions caps)).
Definition validateGraphEdge (e : edge) (path : string) : result unit :=
  match e_child e ≫= (store !!.) with
  | None => Err (plan_invalid path "edge is incomplete")
  | Some child =>
      if per_parent_refused e
      then Err (planError "per_parent_limit_unsupported" path "engine does not support SQL partition limits")
      else match childKey e with
      | None | Some [] => Err (plan_invalid path "child key is empty")
      | Some ck =>
          match e_kind e with
          | graphManyThrough => validateManyThroughEdge e (n_query child) ck path
          | _ =>
              do probe <- q_withOptions (n_query child) (e_options e) (key_columns ck) (probe_limit e);
              do slots <- validate_probe (n_query child) probe;
              let budget := bind_budget e in
              if (budget <=? 0)%Z || negb (fits budget slots (length ck))
              then Err (planError "bind_limit" path "bind budget cannot fit one key") else Ok tt
          end
      end
  end.

(** ** Nodes *)
Definition edge_keys (e : edge) : list (list (PartSpec Row)) :=
  omap id [parentKey e; childKey e; junctionParent e; junctionChild e].
Definition validateGraphKeys (node : graphPlanNode Row V Q) : result unit :=
  do codecs <- x_codecs executor;
  checki (fun _ part =>
    if String.eqb (pt_Codec part) "" then Ok tt
    else match codecs (pt_Codec part) with
    | None => Err (planError "codec_unavailable" "graph.key" (pt_Codec part))
    | Some _ => Ok tt
    end) 0 (concat (flat_map edge_keys (omap id (n_edges node)))).
(** What is checked when a node is entered; the compiled query is the root's. *)
Definition enter_node (node : graphPlanNode Row V Q) : result C :=
  check q_validate (n_query node);
  do compiled <- q_compile (n_query node);
  check q_validateCompiled (n_query node) compiled;
  check validateGraphKeys node;
  Ok compiled.

(** ** The walk *)
Record vframe := MkFrame { f_node : node_ptr; f_path : string; f_next : nat }.
Record vstate := MkVState { stack : list vframe; active : gset node_ptr; finished : gset node_ptr; compiled_root : option C }.
Definition pop_done (f : vframe) (rest : list vframe) (s : vstate) : vstate :=
  MkVState rest (active s ∖ {[ f_node f ]}) ({[ f_node f ]} ∪ finished s) (compiled_root s).
Definition graph_cycle (path : string) : error := planError "graph_cycle" path "graph plan identity is active".

(** The rest of a turn, once the node on top has been entered. *)
Definition next_edge (node : graphPlanNode Row V Q) (f : vframe) (rest : list vframe) (s : vstate) : result vstate :=
  match n_edges node !! f_next f with
  | None => Ok (pop_done f rest s)
  | Some e =>
      let path := f_path f +:+ at_index ".edges" (f_next f) in
      match e with
      | None => Err (plan_invalid path "edge is incomplete")
      | Some e =>
          match e_child e with
          | None => Err (plan_invalid path "edge is incomplete")
          | Some child =>
              if bool_decide (child ∈ active s) then Err (graph_cycle path)
              else
                check validateGraphEdge e path;
                let advanced := MkFrame (f_node f) (f_path f) (S (f_next f)) :: rest in
                if bool_decide (child ∈ finished s) then Ok (MkVState advanced (active s) (finished s) (compiled_root s))
                else Ok (MkVState (MkFrame child (f_path f +:+ "." +:+ e_name e) 0 :: advanced)
                                  (active s) (finished s) (compiled_root s))
          end
      end
  end.
(** One turn of the loop, on a frame that is on top of the stack. *)
Definition validate_step (root : node_ptr) (f : vframe) (rest : list vframe) (s : vstate) : result vstate :=
  match store !! f_node f with
  | None => Err (plan_invalid (f_path f) "node is zero")
  | Some node =>
      if f_next f =? 0 then
        if bool_decide (f_node f ∈ active s) then Err (graph_cycle (f_path f))
        else if bool_decide (f_node f ∈ finished s) then Ok (MkVState rest (active s) (finished s) (compiled_root s))
        else
          do compiled <- enter_node node;
          next_edge node f rest
            (MkVState (stack s) ({[ f_node f ]} ∪ active s) (finished s)
                      (if bool_decide (f_node f = root) then Some compiled else compiled_root s))
      else next_edge node f rest s
  end.
(** [None]: out of fuel. *)
Fixpoint validate_loop (fuel : nat) (root : node_ptr) (s : vstate) : option (result (option C)) :=
  match stack s with
  | [] => Some (Ok (compiled_root s))
  | f :: rest =>
      match fuel with
      | 0 => None
      | S fuel' =>
          match validate_step root f rest s with
          | Err e => Some (Err e)
          | Ok s' => validate_loop fuel' root s'
          end
      end
  end.
(** Every node is entered once and every edge of it takes at most two turns. *)
Definition node_turns (node : graphPlanNode Row V Q) : nat := 2 + 2 * length (n_edges node).
Definition validate_fuel : nat := S (sum_list_with (fun pn => node_turns pn.2) (map_to_list store)).
Definition graphValidate (root : option node_ptr) : option (result (option C)) :=
  match root with
  | None => Some (Err (plan_invalid "graph" "must not be zero"))
  | Some root => validate_loop validate_fuel root (MkVState [MkFrame root "graph" 0] ∅ ∅ None)
  end.
End Validation.
