(* ===== verification/GraphValid.v ===== *)
(** * GraphValid: what the plan walk accepts

    [graphValidate] stops, and accepts a plan exactly when every node the root
    reaches is well formed with valid edges and no path returns to a node it
    left ([graphValidate_exact]). *)

From S2P Require Import Prelude GoText EngineProfile Query QueryWrite Page Typed GraphKey Graph.
Open Scope string_scope.
Open Scope list_scope.
Open Scope nat_scope.

(** ** Sums over a store with one entry changed *)
Section Sums.
Context {A : Type}.
Lemma sum_list_with_le (w w' : A -> nat) l :
  (forall x, x ∈ l -> w' x <= w x) -> sum_list_with w' l <= sum_list_with w l.
Proof.
  induction l as [|x l IH]; simpl; intros H; [done|].
  pose proof (H x (list_elem_of_here _ _)). assert (sum_list_with w' l <= sum_list_with w l) by (apply IH; set_solver). lia.
Qed.
Lemma sum_list_with_drop (w w' : A -> nat) l x d :
  x ∈ l -> w' x + d <= w x -> (forall y, y ∈ l -> w' y <= w y) -> sum_list_with w' l + d <= sum_list_with w l.
Proof.
  induction l as [|y l IH]; simpl; [set_solver|]. intros Hx Hd H.
  pose proof (H y (list_elem_of_here _ _)). assert (forall z, z ∈ l -> w' z <= w z) as Hl by set_solver.
  pose proof (sum_list_with_le w w' l Hl). apply elem_of_cons in Hx as [->|Hx]; [lia|].
  specialize (IH Hx Hd Hl). lia.
Qed.
Lemma sum_list_with_at (w : A -> nat) l x : x ∈ l -> w x <= sum_list_with w l.
Proof. induction l as [|y l IH]; simpl; [set_solver|]. intros [->|Hx]%elem_of_cons; [lia|]. specialize (IH Hx). lia. Qed.
End Sums.

Section Walk.
Context {Row V Q C JQ : Type} `{!QueryOps Q Row C} `{!QueryOps JQ (list go_any) C}.
Variable Slots : C -> nat.
Variable graphJunctionQuery : relation -> list (PartSpec Row) -> list (PartSpec Row) -> result JQ.
Variable store : plan_store Row V Q.
Variable executor : Executor.
Abbreviation node_of n := (store !! n).
Abbreviation valid_edge := (validateGraphEdge Slots graphJunctionQuery store executor).
Abbreviation enter := (enter_node (Row := Row) (C := C) executor).
Abbreviation step := (validate_step Slots graphJunctionQuery store executor).
Abbreviation loop := (validate_loop Slots graphJunctionQuery store executor).

(** The check of an edge does not depend on the path it reports. *)
Lemma validateGraphEdge_path e p p' : valid_edge e p = Ok tt -> valid_edge e p' = Ok tt.
Proof.
  unfold validateGraphEdge. destruct (e_child e ≫= (store !!.)) as [child|]; [|done].
  destruct (per_parent_refused executor e); [done|]. destruct (childKey e) as [[|part ck]|]; [done| |done].
  destruct (e_kind e).
  1,2: repeat (case_match; try done).
  unfold validateManyThroughEdge. repeat (case_match; try done).
Qed.

(** ** The specification *)
Definition child_of (n m : node_ptr) : Prop :=
  exists node e, node_of n = Some node /\ Some e ∈ n_edges node /\ e_child e = Some m.
Definition edge_valid (e : option (graphEdgeSpec Row V)) : Prop :=
  exists e' m, e = Some e' /\ e_child e' = Some m /\ valid_edge e' "" = Ok tt.
Definition node_valid (n : node_ptr) : Prop :=
  exists node, node_of n = Some node /\ is_ok (enter node) = true /\ Forall edge_valid (n_edges node).
(** Every node the root reaches is valid, and ranks fall along the edges. *)
Definition valid_plan (root : node_ptr) : Prop :=
  (forall n, rtc child_of root n -> node_valid n) /\
  exists rank : node_ptr -> nat, forall n m, rtc child_of root n -> child_of n m -> rank m < rank n.

(** ** The invariant of the walk *)
Record frame_ok (fin : gset node_ptr) (above : option node_ptr) (f : vframe) : Prop := {
  fo_node : exists node, node_of (f_node f) = Some node /\ is_ok (enter node) = true /\
    f_next f <= length (n_edges node) /\
    forall j e, j < f_next f -> n_edges node !! j = Some e -> edge_valid e /\
      forall e' m, e = Some e' -> e_child e' = Some m -> m ∈ fin \/ above = Some m;
  fo_above : forall a, above = Some a -> 0 < f_next f /\ child_of (f_node f) a }.
Fixpoint frames_ok (fin : gset node_ptr) (above : option node_ptr) (fs : list vframe) : Prop :=
  match fs with [] => True | f :: fs' => frame_ok fin above f /\ frames_ok fin (Some (f_node f)) fs' end.

Definition ranked (fin : gset node_ptr) : Prop :=
  exists (rank : node_ptr -> nat) k, forall n, n ∈ fin ->
    node_valid n /\ rank n < k /\ forall m, child_of n m -> m ∈ fin /\ rank m < rank n.
Definition compiled_ok (root : node_ptr) (c : option C) : Prop :=
  exists node c', node_of root = Some node /\ q_compile (n_query node) = Ok c' /\ c = Some c'.

(** The entered frames [fs], below the node about to be entered, if any. *)
Record Core (root : node_ptr) (above : option node_ptr) (fs : list vframe) (s : vstate (C := C)) : Prop := {
  co_active : active s = list_to_set (f_node <$> fs);
  co_nodup : NoDup (f_node <$> fs);
  co_disjoint : forall f, f ∈ fs -> f_node f ∉ finished s;
  co_frames : frames_ok (finished s) above fs;
  co_ranked : ranked (finished s);
  co_root : (fs = [] /\ above = None /\ root ∈ finished s) \/ (exists f, last fs = Some f /\ f_node f = root) \/ (fs = [] /\ above = Some root);
  co_compiled : root ∈ finished s \/ root ∈ active s -> compiled_ok root (compiled_root s) }.
Inductive Inv (root : node_ptr) (s : vstate (C := C)) : Prop :=
| inv_entered : Core root None (stack s) s -> (forall f, head (stack s) = Some f -> 0 < f_next f) -> Inv root s
| inv_pending f fs : stack s = f :: fs -> f_next f = 0 -> Core root (Some (f_node f)) fs s ->
    f_node f ∉ active s -> f_node f ∉ finished s -> Inv root s.

Lemma enter_compile (node : graphPlanNode Row V Q) c : enter node = Ok c -> q_compile (n_query node) = Ok c.
Proof.
  unfold enter_node. destruct (q_validate (n_query node)) as [[]|]; [|done].
  destruct (q_compile (n_query node)) as [c'|]; [|done]. destruct (q_validateCompiled _ _) as [[]|]; [|done].
  destruct (validateGraphKeys executor node) as [[]|]; [|done]. done.
Qed.

Lemma frames_ok_finished fin a f fs :
  frames_ok fin (Some a) (f :: fs) -> frames_ok ({[ a ]} ∪ fin) None (f :: fs).
Proof.
  simpl. intros [[(node & Hn & He & Hl & Hj) Ha] Hfs]. split.
  - split; [|done]. exists node. split_and!; [done..|]. intros j e Hjn Hje.
    destruct (Hj j e Hjn Hje) as [Hv Hm]. split; [done|]. intros e' m -> Hc. left.
    destruct (Hm e' m eq_refl Hc) as [?|[= ->]]; set_solver.
  - revert Hfs. generalize (Some (f_node f)). induction fs as [|g fs IH]; simpl; [done|].
    intros above [[(node' & Hn' & He' & Hl' & Hj') Ha'] Hfs]. split; [|by apply IH]. split; [|done].
    exists node'. split_and!; [done..|]. intros j e Hjn Hje. destruct (Hj' j e Hjn Hje) as [Hv Hm]. split; [done|].
    intros e' m -> Hc. destruct (Hm e' m eq_refl Hc); [left; set_solver|by right].
Qed.

Lemma ranked_add fin n :
  ranked fin -> n ∉ fin -> node_valid n -> (forall m, child_of n m -> m ∈ fin) -> ranked ({[ n ]} ∪ fin).
Proof.
  intros (rank & k & H) Hn Hv Hc. exists (fun x => if bool_decide (x = n) then k else rank x), (S k).
  intros x [->%elem_of_singleton|Hx]%elem_of_union.
  - rewrite bool_decide_true by done. split_and!; [done|lia|]. intros m Hm. pose proof (Hc m Hm) as Hf.
    destruct (H m Hf) as (_ & ? & _). split; [set_solver|]. rewrite bool_decide_false by set_solver. done.
  - destruct (H x Hx) as (Hvx & Hk & Hm). rewrite bool_decide_false by set_solver. split_and!; [done|lia|].
    intros m Hmx. destruct (Hm m Hmx) as [Hf ?]. split; [set_solver|]. by rewrite bool_decide_false by set_solver.
Qed.

(** Entering the pending node. *)
Lemma enter_core root f fs node (s : vstate (C := C)) c st :
  Core root (Some (f_node f)) fs s -> f_next f = 0 -> f_node f ∉ active s -> f_node f ∉ finished s ->
  node_of (f_node f) = Some node -> enter node = Ok c ->
  Core root None (f :: fs) (MkVState st ({[ f_node f ]} ∪ active s) (finished s)
                      (if bool_decide (f_node f = root) then Some c else compiled_root s)).
Proof.
  intros [Ha Hnd Hd Hfr Hr Hro Hco] Hnext Hna Hnf Hnode Hen. split; simpl.
  - by rewrite Ha.
  - constructor; [|done]. intros Hin. apply Hna. rewrite Ha. by apply elem_of_list_to_set.
  - intros g [->|Hg]%elem_of_cons; [done|by apply Hd].
  - split; [|exact Hfr]. split; [|done]. exists node. rewrite Hnext, Hen. split_and!; [done|done|lia|]. intros; lia.
  - done.
  - destruct Hro as [(_ & ? & _)|[(g & Hg & Er)|[-> [= Er]]]]; [done| |].
    + right; left. exists g. split; [|done]. destruct fs; [done|exact Hg].
    + right; left. by exists f.
  - case_bool_decide as Er.
    + intros _. exists node, c. subst root. split_and!; [done|by apply enter_compile|done].
    + intros [?|H]; apply Hco; [by left|set_solver].
Qed.

(** Finishing the node on top. *)
Lemma pop_core root f fs node (s : vstate (C := C)) :
  Core root None (f :: fs) s -> node_of (f_node f) = Some node -> length (n_edges node) <= f_next f ->
  Core root None fs (pop_done f fs s) /\ (forall g, head fs = Some g -> 0 < f_next g).
Proof.
  intros [Ha Hnd Hd Hfr Hr Hro Hco] Hnode Hlen. simpl in Hnd. apply NoDup_cons in Hnd as [Hni Hnd].
  destruct Hfr as [[(node' & Hn' & He & Hl & Hj) _] Hfs]. rewrite Hnode in Hn'. injection Hn' as <-.
  assert (f_next f = length (n_edges node)) as Hn by lia.
  assert (forall j e, n_edges node !! j = Some e -> edge_valid e /\
            forall e' m, e = Some e' -> e_child e' = Some m -> m ∈ finished s) as Hall.
  { intros j e Hje. destruct (Hj j e) as [Hv Hm]; [rewrite Hn; by eapply lookup_lt_Some|done|]. split; [done|].
    intros e' m -> Hc. by destruct (Hm e' m eq_refl Hc). }
  split; [split; simpl|].
  - rewrite Ha. simpl. set_solver.
  - done.
  - intros g Hg. pose proof (Hd g ltac:(set_solver)). assert (f_node g <> f_node f); [|set_solver].
    intros E. apply Hni, list_elem_of_fmap. by exists g.
  - destruct fs as [|g fs]; [done|]. apply (frames_ok_finished (finished s) (f_node f) g fs). exact Hfs.
  - apply ranked_add; [done|apply Hd; set_solver| |].
    + exists node. split_and!; [done..|]. apply Forall_lookup. intros j e Hje. by destruct (Hall j e Hje).
    + intros m (node' & e & Hn' & Hin & Hc). rewrite Hnode in Hn'. injection Hn' as <-.
      apply list_elem_of_lookup in Hin as [j Hje]. destruct (Hall j _ Hje) as [_ Hm]. by apply (Hm e).
  - destruct Hro as [(? & _)|[(g & Hg & Er)|[? _]]]; [done| |done].
    destruct fs as [|h fs]; simpl in Hg; [injection Hg as ->; left; set_solver|right; left; by exists g].
  - intros [H|H]; apply Hco; [|right; set_solver]. rewrite Ha. simpl. set_solver.
  - intros g Hg. destruct fs as [|h fs]; [done|]. injection Hg as ->. destruct Hfs as [[_ Hab] _].
    by destruct (Hab (f_node f) eq_refl).
Qed.

(** Handling the next edge of the node on top. *)
Lemma advance_core root f fs node e m (s : vstate (C := C)) above :
  Core root None (f :: fs) s -> node_of (f_node f) = Some node -> n_edges node !! f_next f = Some (Some e) ->
  e_child e = Some m -> valid_edge e "" = Ok tt -> (m ∈ finished s \/ above = Some m) ->
  (forall a, above = Some a -> a = m) ->
  forall st, Core root above (MkFrame (f_node f) (f_path f) (S (f_next f)) :: fs) (MkVState st (active s) (finished s) (compiled_root s)).
Proof.
  intros [Ha Hnd Hd Hfr Hr Hro Hco] Hnode Hedge Hc Hv Hm Hab st.
  destruct Hfr as [[(node' & Hn' & He & Hl & Hj) _] Hfs]. rewrite Hnode in Hn'. injection Hn' as <-.
  split; simpl; try done.
  - intros g [->|Hg]%elem_of_cons; simpl; apply Hd; set_solver.
  - split; [|exact Hfs]. split; simpl.
    + exists node. split_and!; [done..|apply lookup_lt_Some in Hedge; lia|]. intros j e0 Hlt Hje.
      destruct (decide (j = f_next f)) as [->|].
      * rewrite Hedge in Hje. injection Hje as <-. split; [by exists e, m|]. intros e' m' [= <-] Hc'.
        rewrite Hc in Hc'. injection Hc' as <-. exact Hm.
      * destruct (Hj j e0 ltac:(lia) Hje) as [Hve Hme]. split; [done|]. intros e' m' -> Hc'. left.
        by destruct (Hme e' m' eq_refl Hc').
    + intros a Ea. rewrite (Hab a Ea). split; [lia|]. exists node, e. split_and!; [done| |done].
      by eapply list_elem_of_lookup_2.
  - destruct Hro as [(? & _)|[(g & Hg & Er)|[? _]]]; [done| |done]. right; left.
    destruct fs as [|h fs]; simpl in *; [injection Hg as ->; by eexists|by exists g].
Qed.

(** ** Turns *)
Definition used (fs : list vframe) (n : node_ptr) : nat :=
  match find (fun f => bool_decide (f_node f = n)) fs with Some f => 2 * f_next f | None => 0 end.
Definition turns_left (s : vstate (C := C)) (pn : node_ptr * graphPlanNode Row V Q) : nat :=
  if bool_decide (pn.1 ∈ finished s) then 0 else node_turns pn.2 - used (stack s) pn.1.
Definition pending (s : vstate (C := C)) : nat :=
  match stack s with f :: _ => if f_next f =? 0 then 1 else 0 | [] => 0 end.
Definition measure (s : vstate (C := C)) : nat := sum_list_with (turns_left s) (map_to_list store) + pending s.

Lemma used_head f fs : used (f :: fs) (f_node f) = 2 * f_next f.
Proof. unfold used. simpl. by rewrite bool_decide_true. Qed.
Lemma used_other f fs n : f_node f <> n -> used (f :: fs) n = used fs n.
Proof. intros H. unfold used. simpl. by rewrite bool_decide_false. Qed.

Lemma store_entry (n : node_ptr) node : node_of n = Some node -> (n, node) ∈ map_to_list store.
Proof. exact (proj2 (elem_of_map_to_list (M := gmap node_ptr) store n node)). Qed.

(** A turn on an entered node keeps the invariant and uses up a turn. *)
Lemma next_edge_ok root f fs node (s s' : vstate (C := C)) :
  Core root None (f :: fs) s -> stack s = f :: fs -> node_of (f_node f) = Some node ->
  next_edge Slots graphJunctionQuery store executor node f fs s = Ok s' ->
  Inv root s' /\ S (measure s') <= measure s.
Proof.
  intros HC Hst Hnode. unfold next_edge. pose proof (co_disjoint _ _ _ _ HC f (list_elem_of_here _ _)) as Hnf.
  destruct (n_edges node !! f_next f) as [[e|]|] eqn:Hedge; [|done|].
  - destruct (e_child e) as [m|] eqn:Hc; [|done]. case_bool_decide as Hact; [done|].
    destruct (valid_edge e _) as [[]|] eqn:Hv; [|done]. apply (validateGraphEdge_path _ _ "") in Hv.
    assert (m <> f_node f) as Hm.
    { intros ->. apply Hact. rewrite (co_active _ _ _ _ HC). simpl. set_solver. }
    assert (f_next f < length (n_edges node)) as Hlt by (by eapply lookup_lt_Some).
    set (f' := MkFrame (f_node f) (f_path f) (S (f_next f))).
    assert (forall st, (forall n, used st n = used (f' :: fs) n) ->
      sum_list_with (turns_left (MkVState st (active s) (finished s) (compiled_root s))) (map_to_list store) + 2
      <= sum_list_with (turns_left s) (map_to_list store)) as Hsum.
    { intros st Hst'. apply (sum_list_with_drop _ _ _ (f_node f, node)); [by apply store_entry| |].
      - unfold turns_left. simpl. rewrite bool_decide_false by done. rewrite Hst', Hst.
        pose proof (used_head f fs). pose proof (used_head f' fs) as Hu. change (f_node f') with (f_node f) in Hu.
        simpl in Hu. unfold node_turns. lia.
      - intros [n nd] _. unfold turns_left. simpl. case_bool_decide; [done|]. rewrite Hst', Hst.
        destruct (decide (f_node f = n)) as [<-|Hne].
        + pose proof (used_head f fs). pose proof (used_head f' fs) as Hu. change (f_node f') with (f_node f) in Hu.
          simpl in Hu. lia.
        + rewrite !used_other by done. done. }
    case_bool_decide as Hfin; intros [= <-].
    + split.
      * apply inv_entered; simpl; [|intros g [= <-]; simpl; lia].
        eapply (advance_core root f fs node e m s None); eauto; done.
      * unfold measure. pose proof (Hsum (f' :: fs) ltac:(done)). unfold pending. simpl.
        change (MkFrame (f_node f) (f_path f) (S (f_next f))) with f'. destruct (stack s); lia.
    + split.
      * eapply inv_pending; simpl; [done|done| |done|done]. simpl.
        eapply (advance_core root f fs node e m s (Some m)); eauto. by intros a [= ->].
      * unfold measure. set (g := MkFrame m _ 0). pose proof (Hsum (g :: f' :: fs)) as Hs. unfold pending at 1. simpl.
        change (MkFrame (f_node f) (f_path f) (S (f_next f))) with f'. enough (forall n, used (g :: f' :: fs) n = used (f' :: fs) n) as Hu.
        { specialize (Hs Hu). lia. }
        intros n. unfold used at 1. simpl. case_bool_decide as En; [|done]. subst n.
        rewrite used_other by (simpl; congruence). unfold used. destruct (find _ fs) as [h|] eqn:Hh; [|done].
        apply find_some in Hh as [Hin Eh]. exfalso. apply Hact. rewrite (co_active _ _ _ _ HC).
        apply elem_of_list_to_set, list_elem_of_fmap. exists h. split; [|right; by apply list_elem_of_In].
        symmetry. by apply bool_decide_eq_true in Eh.
  - intros [= <-]. apply lookup_ge_None in Hedge. destruct (pop_core root f fs node s HC Hnode Hedge) as [HC' Hh]. split.
    + apply inv_entered; done.
    + assert (pending (pop_done f fs s) = 0) as Hp.
      { unfold pending. simpl. destruct fs as [|g fs']; [done|]. pose proof (Hh g eq_refl). destruct (Nat.eqb_spec (f_next g) 0); lia. }
      unfold measure. rewrite Hp.
      pose proof (sum_list_with_drop (turns_left s) (turns_left (pop_done f fs s)) (map_to_list store) (f_node f, node) 2) as Hs.
      enough (sum_list_with (turns_left (pop_done f fs s)) (map_to_list store) + 2 <= sum_list_with (turns_left s) (map_to_list store)) by lia.
      apply Hs; [by apply store_entry| |].
      * unfold turns_left. simpl. rewrite bool_decide_true by set_solver. rewrite bool_decide_false by done.
        rewrite Hst, used_head. unfold node_turns.
        destruct (co_frames _ _ _ _ HC) as [[(node' & Hn' & _ & Hl & _) _] _]. rewrite Hnode in Hn'. injection Hn' as <-. lia.
      * intros [n nd] _. unfold turns_left. simpl. case_bool_decide as H1; [lia|].
        rewrite bool_decide_false by set_solver. rewrite Hst, used_other by set_solver. done.
Qed.

Lemma step_ok root f fs (s s' : vstate (C := C)) :
  Inv root s -> stack s = f :: fs -> step root f fs s = Ok s' -> Inv root s' /\ S (measure s') <= measure s.
Proof.
  intros HI Hst. unfold validate_step. destruct HI as [HC Hh|f' fs' Hst' Hz HC Hna Hnf]; rewrite Hst in *.
  - pose proof (Hh f eq_refl) as Hpos. destruct (co_frames _ _ _ _ HC) as [[(node & Hn & _) _] _]. rewrite Hn.
    destruct (Nat.eqb_spec (f_next f) 0); [lia|]. by apply next_edge_ok.
  - injection Hst' as <- <-. destruct (node_of (f_node f)) as [node|] eqn:Hn; [|done]. rewrite Hz. simpl.
    rewrite !bool_decide_false by done. destruct (enter node) as [c|] eqn:He; [|done].
    set (s1 := MkVState _ _ _ _). intros H.
    pose proof (enter_core root f fs node s c (f :: fs) HC Hz Hna Hnf Hn He) as HC1. fold s1 in HC1.
    eapply next_edge_ok in H; [|exact HC1|done|exact Hn]. destruct H as [? Hm]. split; [done|].
    enough (measure s1 = measure s) by lia. unfold measure. f_equal; [|unfold pending, s1; simpl; by rewrite Hst].
    unfold turns_left, s1. simpl. by rewrite Hst.
Qed.

Lemma measure_pos root f fs (s : vstate (C := C)) : Inv root s -> stack s = f :: fs -> 0 < measure s.
Proof.
  intros HI Hst. destruct HI as [HC Hh|f' fs' Hst' Hz HC Hna Hnf]; rewrite Hst in *.
  - pose proof (Hh f eq_refl) as Hpos. destruct (co_frames _ _ _ _ HC) as [[(node & Hn & _ & Hl & _) _] _].
    pose proof (co_disjoint _ _ _ _ HC f (list_elem_of_here _ _)) as Hnf.
    pose proof (sum_list_with_at (turns_left s) _ _ (store_entry _ _ Hn)) as Hs.
    unfold turns_left at 1 in Hs. simpl in Hs. rewrite bool_decide_false in Hs by done.
    rewrite Hst, used_head in Hs. unfold node_turns in Hs. unfold measure. lia.
  - injection Hst' as <- <-. unfold measure, pending. rewrite Hst, Hz. simpl. lia.
Qed.

(** The walk ends, in an error or with the invariant and an empty stack. *)
Lemma loop_ends fuel root (s : vstate (C := C)) :
  Inv root s -> measure s <= fuel ->
  exists r, loop fuel root s = Some r /\
    forall c, r = Ok c -> exists s', Inv root s' /\ stack s' = [] /\ c = compiled_root s'.
Proof.
  revert s. induction fuel as [|fuel IH]; intros s HI Hm; simpl; destruct (stack s) as [|f fs] eqn:Hst.
  - eexists. split; [done|]. intros c [= <-]. by exists s.
  - pose proof (measure_pos root f fs s HI Hst). lia.
  - eexists. split; [done|]. intros c [= <-]. by exists s.
  - destruct (step root f fs s) as [s'|e] eqn:E; [|by exists (Err e)].
    apply step_ok in E as [HI' Hm']; [|done..]. by apply IH; [|lia].
Qed.

(** ** Soundness *)
Lemma closed_valid root (s : vstate (C := C)) : Inv root s -> stack s = [] -> valid_plan root /\ compiled_ok root (compiled_root s).
Proof.
  intros [HC _|f fs Hst]; intros E; [|by rewrite Hst in E]. rewrite E in HC.
  destruct (co_root _ _ _ _ HC) as [(_ & _ & Hr)|[(f & Hf & _)|[_ Hf]]]; [|done..].
  destruct (co_ranked _ _ _ _ HC) as (rank & k & H). split; [|apply (co_compiled _ _ _ _ HC); by left].
  assert (forall n, rtc child_of root n -> n ∈ finished s) as Hreach.
  { refine (rtc_ind_r _ root Hr _). intros y z _ Hyz IH. by apply (H y IH). }
  split.
  - intros n Hn. by apply (H n (Hreach n Hn)).
  - exists rank. intros n m Hn Hm. by apply (H n (Hreach n Hn)).
Qed.

(** ** Completeness *)
Lemma frames_reach root above fs (s : vstate (C := C)) :
  Core root above fs s ->
  (forall f, f ∈ fs -> rtc child_of root (f_node f)) /\ (forall a, above = Some a -> rtc child_of root a).
Proof.
  intros HC. pose proof (co_frames _ _ _ _ HC) as Hfr. pose proof (co_root _ _ _ _ HC) as Hro. clear HC.
  revert above Hfr Hro. induction fs as [|f fs IH]; intros above Hfr Hro.
  - split; [set_solver|]. intros a ->. destruct Hro as [(_ & ? & _)|[(f & ? & _)|[_ [= ->]]]]; [done..|constructor].
  - destruct Hfr as [[_ Hab] Hfs].
    assert (rtc child_of root (f_node f) /\ forall g, g ∈ fs -> rtc child_of root (f_node g)) as [Hf Hg].
    { destruct (IH (Some (f_node f)) Hfs) as [H1 H2].
      - destruct Hro as [(? & _)|[(h & Hh & Er)|[? _]]]; [done| |done].
        destruct fs as [|g fs]; simpl in Hh; [injection Hh as ->; right; right; by subst|right; left; by exists h].
      - split; [by apply H2|done]. }
    split; [set_solver|]. intros a Ha. eapply rtc_r; [exact Hf|by apply Hab].
Qed.
Lemma frames_rank (rank : node_ptr -> nat) root fin above fs :
  (forall n m, rtc child_of root n -> child_of n m -> rank m < rank n) ->
  frames_ok fin above fs -> (forall f, f ∈ fs -> rtc child_of root (f_node f)) ->
  forall a f, above = Some a -> f ∈ fs -> rank a < rank (f_node f).
Proof.
  intros Hr. revert above. induction fs as [|g fs IH]; intros above; [set_solver|].
  intros [[_ Hab] Hfs] Hreach a f Ha [->|Hf]%elem_of_cons.
  - apply Hr; [apply Hreach; set_solver|by apply Hab].
  - transitivity (rank (f_node g)).
    + apply Hr; [apply Hreach; set_solver|by apply Hab].
    + apply (IH (Some (f_node g)) Hfs); [set_solver|done|done].
Qed.

Lemma next_edge_accepts root f fs node (s : vstate (C := C)) :
  valid_plan root -> Core root None (f :: fs) s -> node_of (f_node f) = Some node ->
  exists s', next_edge Slots graphJunctionQuery store executor node f fs s = Ok s'.
Proof.
  intros [Hv (rank & Hr)] HC Hnode. destruct (frames_reach _ _ _ _ HC) as [Hreach _].
  pose proof (Hreach f (list_elem_of_here _ _)) as Hf. destruct (Hv _ Hf) as (node' & Hn' & _ & He).
  rewrite Hnode in Hn'. injection Hn' as <-. unfold next_edge.
  destruct (n_edges node !! f_next f) as [e|] eqn:Hedge; [|by eexists].
  pose proof (proj1 (Forall_lookup _ _) He _ _ Hedge) as (e' & m & -> & Hc & Hve). rewrite Hc.
  assert (child_of (f_node f) m) as Hch.
  { exists node, e'. split_and!; [done| |done]. by eapply list_elem_of_lookup_2. }
  rewrite bool_decide_false.
  - rewrite (validateGraphEdge_path _ _ _ Hve). case_bool_decide; by eexists.
  - rewrite (co_active _ _ _ _ HC), elem_of_list_to_set, list_elem_of_fmap. intros (g & -> & Hg).
    assert (rank (f_node g) < rank (f_node g)); [|lia].
    apply Nat.lt_le_trans with (rank (f_node f)); [by apply Hr|].
    apply elem_of_cons in Hg as [->|Hg]; [done|]. apply Nat.lt_le_incl.
    destruct (co_frames _ _ _ _ HC) as [_ Hfs]. eapply (frames_rank rank root _ _ fs); [exact Hr|exact Hfs| |done|done].
    intros h Hh. apply Hreach. set_solver.
Qed.
Lemma step_accepts root f fs (s : vstate (C := C)) :
  valid_plan root -> Inv root s -> stack s = f :: fs -> exists s', step root f fs s = Ok s'.
Proof.
  intros Hv HI Hst. unfold validate_step. destruct HI as [HC Hh|f' fs' Hst' Hz HC Hna Hnf]; rewrite Hst in *.
  - pose proof (Hh f eq_refl) as Hpos. destruct (co_frames _ _ _ _ HC) as [[(node & Hn & _) _] _]. rewrite Hn.
    destruct (Nat.eqb_spec (f_next f) 0); [lia|]. by eapply next_edge_accepts.
  - injection Hst' as <- <-. destruct (frames_reach _ _ _ _ HC) as [_ Hreach].
    destruct (proj1 Hv _ (Hreach _ eq_refl)) as (node & Hn & He & _). rewrite Hn, Hz. simpl.
    rewrite !bool_decide_false by done. destruct (enter node) as [c|] eqn:Hen; [|done].
    eapply next_edge_accepts; [exact Hv|by apply (enter_core _ _ _ node)|exact Hn].
Qed.
Lemma loop_accepts fuel root (s : vstate (C := C)) :
  valid_plan root -> Inv root s -> measure s <= fuel -> exists c, loop fuel root s = Some (Ok c).
Proof.
  intros Hv. revert s. induction fuel as [|fuel IH]; intros s HI Hm; simpl; destruct (stack s) as [|f fs] eqn:Hst.
  - by eexists.
  - pose proof (measure_pos root f fs s HI Hst). lia.
  - by eexists.
  - destruct (step_accepts root f fs s Hv HI Hst) as [s' E]. rewrite E.
    apply step_ok in E as [HI' Hm']; [|done..]. by apply IH; [|lia].
Qed.

(** In a valid plan no path is longer than the store. *)
Lemma path_bound root d n : valid_plan root -> nsteps child_of d root n -> d < size store.
Proof.
  intros [Hv (rank & Hr)] Hp. assert (rtc child_of root n /\ exists l, length l = S d /\ NoDup l /\ forall x, x ∈ l -> x ∈ dom store /\ rank n <= rank x)
    as [_ (l & Hl & Hnd & Hx)].
  { revert n Hp. induction d as [|d IH]; intros m Hp.
    - inversion Hp; subst; clear Hp. split; [constructor|]. exists [m]. split_and!; [done|apply NoDup_singleton|].
      intros y ->%list_elem_of_singleton. destruct (Hv m) as (node & Hn & _); [constructor|]. split; [by apply (elem_of_dom_2 (M := gmap node_ptr)) in Hn|done].
    - apply nsteps_inv_r in Hp as (n & Hp & Hc). destruct (IH n Hp) as (Hreach & l & Hl & Hnd & Hx). assert (rtc child_of root m) as Hm by by eapply rtc_r.
      split; [done|]. pose proof (Hr _ _ Hreach Hc) as Hlt. exists (m :: l). split_and!; [simpl; by rewrite Hl| |].
      + apply NoDup_cons. split; [|done]. intros Hin. destruct (Hx m Hin). lia.
      + intros x [->|Hin]%elem_of_cons; [|destruct (Hx x Hin); split; [done|lia]].
        destruct (Hv m Hm) as (node & Hn & _). split; [by apply (elem_of_dom_2 (M := gmap node_ptr)) in Hn|done]. }
  assert (size (list_to_set l : gset node_ptr) = length l) as Hsize by by apply size_list_to_set.
  assert ((list_to_set l : gset node_ptr) ⊆ dom store) as Hsub by (intros x ?%elem_of_list_to_set; by apply Hx).
  apply subseteq_size in Hsub. pose proof (size_dom (D := gset node_ptr) (store : gmap node_ptr _)) as Hdom. rewrite Hsize, Hl in Hsub.
  exact (Nat.le_trans _ _ _ Hsub (Nat.eq_le_incl _ _ Hdom)).
Qed.

(** ** The walk from the root *)
Lemma Inv_start root : Inv root (MkVState [MkFrame root "graph" 0] ∅ ∅ None).
Proof.
  eapply inv_pending; [done|done| |set_solver|set_solver]. split; simpl; try done; [..|by right; right|intros [H|H]; by apply not_elem_of_empty in H].
  - constructor.
  - exists (fun _ => 0), 0. intros n Hn. by apply not_elem_of_empty in Hn.
Qed.
Lemma measure_start root :
  measure (MkVState [MkFrame root "graph" 0] ∅ ∅ None) <= validate_fuel store.
Proof.
  unfold measure, validate_fuel. simpl. rewrite Nat.add_1_r. apply le_n_S, sum_list_with_le. intros [n node] _.
  unfold turns_left. simpl. case_bool_decide; lia.
Qed.

(** What an accepted walk has established. *)
Lemma graphValidate_accepted root c :
  graphValidate Slots graphJunctionQuery store executor (Some root) = Some (Ok c) -> valid_plan root /\ compiled_ok root c.
Proof.
  unfold graphValidate. intros E. destruct (loop_ends _ root _ (Inv_start root) (measure_start root)) as (r & E' & Hr).
  rewrite E in E'. injection E' as <-. destruct (Hr c eq_refl) as (s & HI' & Hs & ->). by apply (closed_valid root s).
Qed.
Lemma graphValidate_ends root : graphValidate Slots graphJunctionQuery store executor root <> None.
Proof.
  destruct root as [root|]; [|done]. unfold graphValidate. destruct (loop_ends _ root _ (Inv_start root) (measure_start root)) as (r & -> & _). done.
Qed.

(** C12 Validating a graph plan always ends, within two turns per edge and node
    of the plan: it accepts exactly the plans in which every node the root
    reaches has a query its engine compiles and admits, keys whose codecs exist
    and valid edges, and from which no path leads back to a node it left; the
    query it then hands to the load is the root's. *)
Theorem graphValidate_exact root :
  exists r, graphValidate Slots graphJunctionQuery store executor (Some root) = Some r /\
    (is_ok r = true <-> valid_plan root) /\ forall c, r = Ok c -> compiled_ok root c.
Proof.
  unfold graphValidate. pose proof (Inv_start root) as HI. pose proof (measure_start root) as Hm.
  destruct (loop_ends _ root _ HI Hm) as (r & E & Hr). exists r. split; [done|]. split; [split|].
  - destruct r as [c|]; [|done]. intros _. by apply (graphValidate_accepted root c).
  - intros Hv. destruct (loop_accepts _ root _ Hv HI Hm) as [c Ec]. rewrite E in Ec. by injection Ec as ->.
  - intros c ->. by apply graphValidate_accepted.
Qed.
End Walk.
