(* ===== verification/GraphLoad.v ===== *)
(** * GraphLoad: the loading half of [graph_execute.go]

    A load runs the root query and then, level by level, the child query of
    every edge in batches of keys that fit the bind budget, groups the rows by
    key and attaches them to their parents.  Attaching is in two steps: while
    loading, every child gets a cell of its own; when everything is loaded,
    the attach functions run from the deepest level up, each writing its
    parent's cell.

    The heap of cells is a list, a pointer an index.  Values are immutable
    here, so [graphCloneValue] is the identity.  What the database answers is
    [q_rows] of the query; the number of queries already run is its argument,
    so two runs of one query need not answer alike.  A nil dereference is an
    error. *)

From S2P Require Import Prelude GoText Schema Dialect EngineProfile Query QueryWrite CursorCodec Page Typed GraphKey Graph.
Open Scope string_scope.
Open Scope list_scope.
Open Scope nat_scope.

(** ** Membership predicates *)
Section Membership.
(** [bindplan.Adopt] of a driver value. *)
Variable adopt : driver_value -> result any.

Definition column_expression (c : ColumnRef) : expression := EColumn (cr_source c) (cr_name c).
(** One branch: the key's columns equal the tuple's values.  [id] is the
    number of bind identities handed out. *)
Definition membership_part {Row} (part : PartSpec Row) (component : Component) (id : N) : result expression :=
  do e <- graphEncodedBind (id + 1) (adopt (c_Value component)) (ValidateDriverValue (c_Value component)) (pt_Codec part);
  Ok (Equal (OpExpression (column_expression (pt_Column part))) (OpExpression e)).
Fixpoint membership_parts {Row} (key : list (PartSpec Row)) (components : list Component) (id : N) : result (list expression * N) :=
  match key, components with
  | [], _ => Ok ([], id)
  | _, [] => Err (errors_New "index out of range")
  | part :: key', component :: components' =>
      do e <- membership_part part component id;
      do r <- membership_parts key' components' (id + 1);
      Ok (e :: r.1, r.2)
  end.
Definition branch (parts : list expression) : expression :=
  match parts with [part] => part | _ => And parts end.
Fixpoint membership_branches {Row} (key : list (PartSpec Row)) (tuples : list tuple) (id : N) : result (list expression * N) :=
  match tuples with
  | [] => Ok ([], id)
  | t :: tuples' =>
      do ps <- membership_parts key (Components t) id;
      do r <- membership_branches key tuples' ps.2;
      Ok (branch ps.1 :: r.1, r.2)
  end.
(** One round of joining neighbours, and the rounds until one is left. *)
Fixpoint or_pairs (branches : list expression) : list expression :=
  match branches with
  | a :: b :: rest => Or [a; b] :: or_pairs rest
  | _ => branches
  end.
Fixpoint or_tree (fuel : nat) (branches : list expression) : expression :=
  match branches with
  | [e] => e
  | [] => ENil
  | _ => match fuel with 0 => ENil | S fuel' => or_tree fuel' (or_pairs branches) end
  end.
Definition predicate_of (node : expression) : Predicate := MkPredicate node "" "" None.
Definition buildGraphMembership {Row} (key : list (PartSpec Row)) (tuples : list tuple) (id : N) : result (Predicate * N) :=
  do r <- membership_branches key tuples id;
  match r.1 with
  | [] => Err (planError "invalid_graph_key" "membership" "must not be empty")
  | _ => Ok (predicate_of (or_tree (length r.1) r.1), r.2)
  end.
End Membership.

(** [for start := 0; start < len(l); start += size]: the batches. *)
Fixpoint batches {A} (fuel size : nat) (l : list A) : list (list A) :=
  match fuel with
  | 0 => []
  | S fuel' => match l with [] => [] | _ => take size l :: batches fuel' size (drop size l) end
  end.

Section Load.
Context {Row V Q C JQ : Type} `{!QueryOps Q Row C} `{!QueryOps JQ (list go_any) C}.
Variable Slots : C -> nat.
Variable graphJunctionQuery : relation -> list (PartSpec Row) -> list (PartSpec Row) -> result JQ.
Variable adopt : driver_value -> result any.
Variable store : plan_store Row V Q.
Variable executor : Executor.
Abbreviation edge := (graphEdgeSpec Row V).

(** ** State *)

(** A deferred attach callback: the parent's cell and its children's. *)
Record graphDeferred := MkDeferred { df_depth : nat; df_attach : graphAttachOps V; df_parent : nat; df_children : list nat }.
Record graphWork := MkWork { w_node : node_ptr; w_parent : nat; w_row : Row; w_depth : nat }.
Record lstate := MkLState {
  rowCount : Z; queries : nat; bind_ids : N; cells : list V; deferred : list graphDeferred }.

(** [prepared.run]: every row read is counted; an error ends the run. *)
Fixpoint run_rows {R} (rows : list (result R)) (count : Z) : result (list R * Z) :=
  match rows with
  | [] => Ok ([], count)
  | Err e :: _ => Err e
  | Ok r :: rows' => do rest <- run_rows rows' (count + 1)%Z; Ok (r :: rest.1, rest.2)
  end.
Definition run_query {Q' R} `{!QueryOps Q' R C} (q : Q') (compiled : C) (st : lstate) : result (list R * lstate) :=
  do r <- run_rows (q_rows q compiled (queries st)) (rowCount st);
  Ok (r.1, MkLState r.2 (S (queries st)) (bind_ids st) (cells st) (deferred st)).

(** ** Attaching *)
Inductive attach_value := ManyValues (vs : list V) | OneValue (v : option V).
(** [attach]: the children's cells and the callback. *)
Definition attach (ops : graphAttachOps V) (parent depth : nat) (value : attach_value) (present : bool) (st : lstate)
  : result (list nat * lstate) :=
  let defer ptrs := deferred st ++ [MkDeferred depth ops parent ptrs] in
  let next := length (cells st) in
  match ops, value with
  | AttachMany _, ManyValues vs =>
      let ptrs := seq next (length vs) in
      Ok (ptrs, MkLState (rowCount st) (queries st) (bind_ids st) (cells st ++ vs) (defer ptrs))
  | AttachOne _, value =>
      if negb present then Ok ([], MkLState (rowCount st) (queries st) (bind_ids st) (cells st) (defer []))
      else match value with
      | OneValue (Some v) => Ok ([next], MkLState (rowCount st) (queries st) (bind_ids st) (cells st ++ [v]) (defer [next]))
      | _ => Err (planError "internal_plan" "attach" "child type mismatch")
      end
  | AttachMany _, _ => Err (planError "internal_plan" "attach" "child type mismatch")
  end.
(** What a callback hands the attach function: the children as they are when
    it runs. *)
Definition apply_attach (ops : graphAttachOps V) (parent : V) (children : list V) : V :=
  match ops with
  | AttachMany fn => fn parent (MkLoadedMany true children)
  | AttachOne fn =>
      match children with
      | [] => fn parent (MkLoadedOne true false None)
      | child :: _ => fn parent (MkLoadedOne true true (Some child))
      end
  end.
Definition run_deferred (heap : list V) (d : graphDeferred) : list V :=
  alter (fun v => apply_attach (df_attach d) v (omap (heap !!.) (df_children d))) (df_parent d) heap.

(** ** Parent keys *)
Record parent_keys := MkParentKeys { k_tuples : list tuple; k_of_parent : list (option tuple); k_seen : gset string }.
Definition codecs : result Encoder := x_codecs executor.
Definition collect_key (enc : Encoder) (pk : list (PartSpec Row)) (parent : graphWork) (ks : parent_keys) : result parent_keys :=
  do t <- Tuple pk (w_row parent);
  match t with
  | None => Ok (MkParentKeys (k_tuples ks) (k_of_parent ks ++ [None]) (k_seen ks))
  | Some t =>
      Ok (MkParentKeys (if bool_decide (Identity t ∈ k_seen ks) then k_tuples ks else k_tuples ks ++ [t])
                       (k_of_parent ks ++ [Some t]) ({[ Identity t ]} ∪ k_seen ks))
  end.
Definition collect_keys (enc : Encoder) (pk : list (PartSpec Row)) (parents : list graphWork) : result parent_keys :=
  foldi (fun _ => collect_key enc pk) 0 parents (MkParentKeys [] [] ∅).

(** ** One batch: its query, checked against the budget, and its rows *)
Definition exceeds (budget : Z) (slots : nat) : bool :=
  let limit := MaxBindParameters (executorCompilerProfile executor) in
  (budget <? Z.of_nat slots)%Z || ((0 <? limit)%Z && (limit <? Z.of_nat slots)%Z).
Definition run_batch {Q' R} `{!QueryOps Q' R C} (runner base : Q') (key : list (PartSpec Row)) (budget : Z) (path detail : string)
  (batch : list tuple) (st : lstate) : result (list R * lstate) :=
  do m <- buildGraphMembership adopt key batch (bind_ids st);
  do compiled <- q_compile (q_withMembership base m.1);
  if exceeds budget (Slots compiled) then Err (planError "bind_limit" path detail)
  else
    check q_prepare runner compiled;
    run_query runner compiled (MkLState (rowCount st) (queries st) m.2 (cells st) (deferred st)).
Definition foreign (path detail : string) : error := planError "foreign_key_result" path detail.

(** ** Has-many and has-one edges *)
Definition add_child (enc : Encoder) (ck : list (PartSpec Row)) (path : string) (requested : gset string) (row : Row)
  (loaded : gmap string (list Row)) : result (gmap string (list Row)) :=
  do t <- Tuple ck row;
  match t with
  | None => Err (foreign path "child key is absent")
  | Some t =>
      if negb (bool_decide (Identity t ∈ requested)) then Err (foreign path "child key was not requested")
      else Ok (<[ Identity t := default [] (loaded !! Identity t) ++ [row] ]> loaded)
  end.
Definition load_children_batch (enc : Encoder) (child probe : Q) (ck : list (PartSpec Row)) (budget : Z) (path : string)
  (requested : gset string) (batch : list tuple) (s : gmap string (list Row) * lstate)
  : result (gmap string (list Row) * lstate) :=
  do r <- run_batch child probe ck budget path "compiled query exceeds bind budget" batch s.2;
  do loaded <- foldi (fun _ => add_child enc ck path requested) 0 r.1 s.1;
  Ok (loaded, r.2).

Definition child_works (child : node_ptr) (depth : nat) (ptrs : list nat) (rows : list Row) : list graphWork :=
  zip_with (fun ptr row => MkWork child ptr row (S depth)) ptrs rows.
(** The parents, each with the rows of its key. *)
Definition attach_children (kind : graphEdgeKind) (ops : graphAttachOps V) (path : string) (child : node_ptr)
  (childNode : graphPlanNode Row V Q) (parent : graphWork) (children : list Row) (s : list graphWork * lstate)
  : result (list graphWork * lstate) :=
  let values := map (n_mapRow childNode) children in
  match kind with
  | graphHasOne =>
      if 1 <? length children then Err (planError "cardinality" path "has-one returned multiple rows")
      else
        do a <- attach ops (w_parent parent) (w_depth parent) (OneValue (head values)) (0 <? length values) s.2;
        Ok (s.1 ++ child_works child (w_depth parent) a.1 children, a.2)
  | _ =>
      do a <- attach ops (w_parent parent) (w_depth parent) (ManyValues values) true s.2;
      Ok (s.1 ++ child_works child (w_depth parent) a.1 children, a.2)
  end.
(** No parent has a key: every parent is given nothing. *)
Definition attach_nothing (kind : graphEdgeKind) (ops : graphAttachOps V) (parent : graphWork) (st : lstate) : result lstate :=
  do a <- attach ops (w_parent parent) (w_depth parent)
            (match kind with graphHasOne => OneValue None | _ => ManyValues [] end) false st;
  Ok a.2.
Definition parent_rows (loaded : gmap string (list Row)) (key : option tuple) : list Row :=
  match key with Some t => default [] (loaded !! Identity t) | None => [] end.

Definition executeDirect (e : edge) (parents : list graphWork) (st : lstate) : result (list graphWork * lstate) :=
  let path := "graph." +:+ e_name e in
  match e_child e, e_child e ≫= (store !!.), parentKey e, childKey e, e_attach e with
  | Some child, Some childNode, Some pk, Some ck, Some ops =>
      do enc <- codecs;
      do ks <- collect_keys enc pk parents;
      match k_tuples ks with
      | [] => do st' <- foldi (fun _ => attach_nothing (e_kind e) ops) 0 parents st; Ok ([], st')
      | _ =>
          do probe <- q_withOptions (n_query childNode) (e_options e) (key_columns ck) (probe_limit e);
          do compiled <- q_compile probe;
          let fixed := Z.of_nat (Slots compiled) in
          let budget := bind_budget executor e in
          let width := Z.of_nat (length ck) in
          if (budget <=? fixed)%Z || (Z.quot (budget - fixed) width =? 0)%Z
          then Err (planError "bind_limit" path "bind budget cannot fit one key")
          else
            let batchSize := Z.to_nat (Z.quot (budget - fixed) width) in
            do r <- foldi (fun _ => load_children_batch enc (n_query childNode) probe ck budget path (k_seen ks)) 0
                      (batches (length (k_tuples ks)) batchSize (k_tuples ks)) (∅, st);
            foldi (fun _ pk => attach_children (e_kind e) ops path child childNode pk.1 (parent_rows r.1 pk.2)) 0
              (combine parents (k_of_parent ks)) ([], r.2)
      end
  | _, _, _, _, _ => Err (errors_New "nil pointer dereference")
  end.

(** ** Many-through edges *)
Record junctions := MkJunctions { byParent : gmap string (list tuple); targetOrder : list tuple; targetSeen : gset string }.
(** A junction row's keys, both present and the parent's requested. *)
Definition junction_keys (enc : Encoder) (jp jc : list (PartSpec Row)) (path : string) (requested : gset string)
  (values : list go_any) : result (tuple * tuple) :=
  do p <- graphTupleValues jp (take (length jp) values);
  match p with
  | None => Err (foreign path "junction parent is absent")
  | Some p =>
      if negb (bool_decide (Identity p ∈ requested)) then Err (foreign path "junction parent was not requested")
      else
        do t <- graphTupleValues jc (drop (length jp) values);
        match t with
        | None => Err (foreign path "junction target is absent")
        | Some t => Ok (p, t)
        end
  end.
(** [addJunctionRows] on one row. *)
Definition add_junction (path : string) (requested : gset string) (pt : tuple * tuple) (j : junctions) : result junctions :=
  let '(p, t) := pt in
  if length (Components p) =? 0 then Err (foreign path "junction parent is absent")
  else if negb (bool_decide (Identity p ∈ requested)) then Err (foreign path "junction parent was not requested")
  else if length (Components t) =? 0 then Err (foreign path "junction target is absent")
  else
    let prior := default [] (byParent j !! Identity p) in
    if existsb (fun p => String.eqb (Identity p) (Identity t)) prior then Ok j
    else Ok (MkJunctions (<[ Identity p := prior ++ [t] ]> (byParent j))
               (if bool_decide (Identity t ∈ targetSeen j) then targetOrder j else targetOrder j ++ [t])
               ({[ Identity t ]} ∪ targetSeen j)).
Definition load_junction_batch (enc : Encoder) (junctionPlan junctionBase : JQ) (jp jc : list (PartSpec Row)) (budget : Z)
  (path : string) (requested : gset string) (batch : list tuple) (s : junctions * lstate) : result (junctions * lstate) :=
  do r <- run_batch junctionPlan junctionBase jp budget path "compiled junction query exceeds bind budget" batch s.2;
  do keys <- foldi (fun _ values acc => do pt <- junction_keys enc jp jc path requested values; Ok (acc ++ [pt])) 0 r.1 [];
  do j <- foldi (fun _ => add_junction path requested) 0 keys s.1;
  Ok (j, r.2).
Definition add_target (enc : Encoder) (ck : list (PartSpec Row)) (path : string) (seen : gset string) (row : Row)
  (targets : gmap string Row) : result (gmap string Row) :=
  do t <- Tuple ck row;
  match t with
  | None => Err (foreign path "target key is absent")
  | Some t =>
      if negb (bool_decide (Identity t ∈ seen)) then Err (foreign path "target key was not requested")
      else match targets !! Identity t with
      | Some _ => Err (planError "cardinality" path "target returned duplicate rows")
      | None => Ok (<[ Identity t := row ]> targets)
      end
  end.
Definition load_target_batch (enc : Encoder) (child targetBase : Q) (ck : list (PartSpec Row)) (budget : Z) (path : string)
  (seen : gset string) (batch : list tuple) (s : gmap string Row * lstate) : result (gmap string Row * lstate) :=
  do r <- run_batch child targetBase ck budget path "compiled target query exceeds bind budget" batch s.2;
  do targets <- foldi (fun _ => add_target enc ck path seen) 0 r.1 s.1;
  Ok (targets, r.2).
Definition batch_size (budget : Z) (slots width : nat) : Z := Z.quot (budget - Z.of_nat slots) (Z.of_nat width).
Definition load_targets (enc : Encoder) (child : Q) (ck : list (PartSpec Row)) (budget : Z) (path : string) (j : junctions)
  (st : lstate) : result (gmap string Row * lstate) :=
  match targetOrder j with
  | [] => Ok (∅, st)
  | _ =>
      do targetBase <- q_withOptions child no_options (key_columns ck) 0;
      do compiled <- q_compile targetBase;
      let batchSize := batch_size budget (Slots compiled) (length ck) in
      if (batchSize <=? 0)%Z then Err (planError "bind_limit" path "bind budget cannot fit target key")
      else foldi (fun _ => load_target_batch enc child targetBase ck budget path (targetSeen j)) 0
             (batches (length (targetOrder j)) (Z.to_nat batchSize) (targetOrder j)) (∅, st)
  end.
(** A parent's targets: the missing ones are skipped when the child query
    filters its rows. *)
Definition parent_targets (path : string) (filtered : bool) (targets : gmap string Row) (ts : list tuple) : result (list Row) :=
  foldi (fun _ t acc =>
    match targets !! Identity t with
    | Some row => Ok (acc ++ [row])
    | None => if negb filtered then Err (foreign path "junction target is missing") else Ok acc
    end) 0 ts [].
Definition attach_targets (ops : graphAttachOps V) (path : string) (child : node_ptr) (childNode : graphPlanNode Row V Q)
  (j : junctions) (targets : gmap string Row) (parent : graphWork) (key : option tuple) (s : list graphWork * lstate)
  : result (list graphWork * lstate) :=
  match key with
  | None => do st' <- attach_nothing graphManyThrough ops parent s.2; Ok (s.1, st')
  | Some t =>
      do rows <- parent_targets path (q_hasPredicates (n_query childNode)) targets (default [] (byParent j !! Identity t));
      attach_children graphManyThrough ops path child childNode parent rows s
  end.
Definition executeManyThrough (e : edge) (parents : list graphWork) (st : lstate) : result (list graphWork * lstate) :=
  let path := "graph." +:+ e_name e in
  match e_child e, e_child e ≫= (store !!.), parentKey e, childKey e, junctionParent e, junctionChild e, e_attach e with
  | Some child, Some childNode, Some pk, Some ck, Some jp, Some jc, Some ops =>
      do enc <- codecs;
      do ks <- collect_keys enc pk parents;
      match k_tuples ks with
      | [] => do st' <- foldi (fun _ => attach_nothing graphManyThrough ops) 0 parents st; Ok ([], st')
      | _ =>
          do junctionPlan <- graphJunctionQuery (junction e) jp jc;
          do junctionBase <- q_withOptions junctionPlan (e_options e) (key_columns jp) (PerParentLimit_ (e_options e));
          do compiled <- q_compile junctionBase;
          let budget := bind_budget executor e in
          let batchSize := batch_size budget (Slots compiled) (length jp) in
          if (batchSize <=? 0)%Z then Err (planError "bind_limit" path "bind budget cannot fit one key")
          else
            do r <- foldi (fun _ => load_junction_batch enc junctionPlan junctionBase jp jc budget path (k_seen ks)) 0
                      (batches (length (k_tuples ks)) (Z.to_nat batchSize) (k_tuples ks)) (MkJunctions ∅ [] ∅, st);
            do t <- load_targets enc (n_query childNode) ck budget path r.1 r.2;
            foldi (fun _ pk => attach_targets ops path child childNode r.1 t.1 pk.1 pk.2) 0
              (combine parents (k_of_parent ks)) ([], t.2)
      end
  | _, _, _, _, _, _, _ => Err (errors_New "nil pointer dereference")
  end.
Definition executeGraphEdge (e : edge) (parents : list graphWork) (st : lstate) : result (list graphWork * lstate) :=
  match e_kind e with
  | graphManyThrough => executeManyThrough e parents st
  | _ => executeDirect e parents st
  end.

(** ** Levels *)
Record edge_work := MkEdgeWork { ew_edge : edge; ew_parents : list graphWork }.
Fixpoint add_edge_work (e : edge) (item : graphWork) (result_ : list edge_work) : list edge_work :=
  match result_ with
  | [] => [MkEdgeWork e [item]]
  | w :: rest =>
      if bool_decide (e_ptr (ew_edge w) = e_ptr e) then MkEdgeWork (ew_edge w) (ew_parents w ++ [item]) :: rest
      else w :: add_edge_work e item rest
  end.
Definition item_edges (item : graphWork) : list edge :=
  match store !! w_node item with Some node => omap id (n_edges node) | None => [] end.
Definition planEdges (items : list graphWork) : list edge_work :=
  fold_left (fun result_ item => fold_left (fun result_ e => add_edge_work e item result_) (item_edges item) result_) items [].
Definition run_edge (w : edge_work) (s : list graphWork * lstate) : result (list graphWork * lstate) :=
  do r <- executeGraphEdge (ew_edge w) (ew_parents w) s.2;
  Ok (s.1 ++ r.1, r.2).
(** [None]: out of fuel; a level uses up one. *)
Fixpoint expand_levels (fuel : nat) (queue : list graphWork) (st : lstate) : option (result lstate) :=
  match queue with
  | [] => Some (Ok st)
  | _ =>
      match fuel with
      | 0 => None
      | S fuel' =>
          match foldi (fun _ => run_edge) 0 (planEdges queue) ([], st) with
          | Err e => Some (Err e)
          | Ok (next, st') => expand_levels fuel' next st'
          end
      end
  end.
(** [slices.SortStableFunc], deepest first: insertion from the back keeps the
    order of equal depths. *)
Fixpoint insert_deferred (d : graphDeferred) (l : list graphDeferred) : list graphDeferred :=
  match l with
  | [] => [d]
  | d' :: l' => if df_depth d <? df_depth d' then d' :: insert_deferred d l' else d :: l
  end.
Definition sort_deferred (l : list graphDeferred) : list graphDeferred := fold_right insert_deferred [] l.

(** The roots are the first cells. *)
Definition root_works (root : node_ptr) (rows : list Row) : list graphWork :=
  imap (fun i row => MkWork root i row 0) rows.
Definition level_fuel : nat := size store.
Definition expandGraphRoots (root : node_ptr) (node : graphPlanNode Row V Q) (rows : list Row) (st : lstate) : option (result (list V)) :=
  let start := MkLState (rowCount st) (queries st) (bind_ids st) (map (n_mapRow node) rows) [] in
  match expand_levels level_fuel (root_works root rows) start with
  | None => None
  | Some (Err e) => Some (Err e)
  | Some (Ok st') => Some (Ok (take (length rows) (fold_left run_deferred (sort_deferred (deferred st')) (cells st'))))
  end.

(** ** [LoadGraph] *)
Definition prepareGraphPlan (root : option node_ptr) : option (result C) :=
  match graphValidate Slots graphJunctionQuery store executor root with
  | None => None
  | Some (Err e) => Some (Err e)
  | Some (Ok None) => Some (Err (errors_New "nil pointer dereference"))
  | Some (Ok (Some c)) => Some (Ok c)
  end.
Definition run_root (node : graphPlanNode Row V Q) (compiled : C) : result (list Row * lstate) :=
  check q_prepare (n_query node) compiled;
  match x_profile executor with
  | None => Err (planError "engine_profile_unavailable" "executor" "compiler unavailable")
  | Some _ => run_query (n_query node) compiled (MkLState 0 0 0 [] [])
  end.
Definition LoadGraph (root : option node_ptr) : option (result (list V)) :=
  match prepareGraphPlan root with
  | None => None
  | Some (Err e) => Some (Err e)
  | Some (Ok compiled) =>
      match root, root ≫= (store !!.) with
      | Some root, Some node =>
          match run_root node compiled with
          | Err e => Some (Err e)
          | Ok (rows, st) => expandGraphRoots root node rows st
          end
      | _, _ => Some (Err (errors_New "nil pointer dereference"))
      end
  end.
End Load.
