(* ===== verification/GraphBatch.v ===== *)
(** * GraphBatch: what one batch of keys fetches

    The pieces a graph load's proof rests on: the meaning of a membership
    predicate, the rows a batch yields under the laws of the query engine
    ([answers]), and the grouping of the rows of all batches by key. *)

From S2P Require Import Prelude GoText EngineProfile Query QueryWrite CursorCodec Page Typed GraphKey Graph GraphLoad.
Open Scope string_scope.
Open Scope list_scope.
Open Scope nat_scope.

(** ** Loops that ignore the index *)
Lemma foldi_at {A T} (f : A -> T -> result T) i j l s : foldi (fun _ => f) i l s = foldi (fun _ => f) j l s.
Proof. revert i j s. induction l as [|x l IH]; intros i j s; simpl; [done|]. destruct (f x s); [apply IH|done]. Qed.
Lemma foldi_cons {A T} (f : A -> T -> result T) i x l s s' :
  foldi (fun _ => f) i (x :: l) s = Ok s' <-> exists t, f x s = Ok t /\ foldi (fun _ => f) 0 l t = Ok s'.
Proof. simpl. rewrite do_ok. by setoid_rewrite (foldi_at f (S i) 0). Qed.
Lemma foldi_app_ok {A T} (f : A -> T -> result T) i l1 l2 s s' :
  foldi (fun _ => f) i (l1 ++ l2) s = Ok s' <-> exists t, foldi (fun _ => f) 0 l1 s = Ok t /\ foldi (fun _ => f) 0 l2 t = Ok s'.
Proof. rewrite (foldi_at f i 0), foldi_app, do_ok. by setoid_rewrite (foldi_at f (0 + length l1) 0). Qed.

(** ** Batches *)
Lemma batches_concat {A} fuel size (l : list A) : 0 < size -> length l <= fuel -> concat (batches fuel size l) = l.
Proof.
  intros Hs. revert l. induction fuel as [|fuel IH]; intros l Hl; simpl; [by destruct l; simpl in *; [|lia]|].
  destruct l as [|x l]; [done|]. simpl. rewrite IH; [apply (take_drop size (x :: l))|].
  rewrite length_drop. simpl in *. lia.
Qed.

Lemma list_filter_none {A} (P : A -> Prop) `{!forall x, Decision (P x)} l : (forall x, x ∈ l -> ~ P x) -> filter P l = [].
Proof.
  induction l as [|x l IH]; intros Hn; [done|]. rewrite filter_cons_False by (apply Hn; set_solver). apply IH. set_solver.
Qed.

Lemma list_filter_ext {A} (P P' : A -> Prop) `{!forall x, Decision (P x)} `{!forall x, Decision (P' x)} (l : list A) :
  (forall x, x ∈ l -> P x <-> P' x) -> filter P l = filter P' l.
Proof.
  induction l as [|x l IH]; intros Hp; [done|]. pose proof (Hp x (list_elem_of_here _ _)). assert (filter P l = filter P' l) as E by (apply IH; set_solver).
  rewrite !filter_cons, E. destruct (decide (P x)), (decide (P' x)); naive_solver.
Qed.

(** Rows fetched batch by batch, regrouped by key. *)
Section Regroup.
Context {R K : Type} `{!EqDecision K}.
Variable key : R -> option K.
Definition fetched (rows : list R) (b : list K) : list R := filter (fun r => key r ∈ Some <$> b) rows.
Lemma regroup_in rows b k : k ∈ b -> filter (fun r => key r = Some k) (fetched rows b) = filter (fun r => key r = Some k) rows.
Proof.
  intros Hk. apply list_filter_filter_l. intros r E. rewrite E. by apply list_elem_of_fmap_2.
Qed.
Lemma regroup_out rows b k : k ∉ b -> filter (fun r => key r = Some k) (fetched rows b) = [].
Proof.
  intros Hk. apply list_filter_none. intros r [Hin Hr]%list_elem_of_filter E. rewrite E in Hin.
  by apply list_elem_of_fmap in Hin as (? & [= <-] & ?).
Qed.
Lemma regroup rows bs k :
  NoDup (concat bs) -> k ∈ concat bs ->
  filter (fun r => key r = Some k) (flat_map (fetched rows) bs) = filter (fun r => key r = Some k) rows.
Proof.
  assert (forall bs, k ∉ concat bs -> filter (fun r => key r = Some k) (flat_map (fetched rows) bs) = []) as Hout.
  { induction bs0 as [|b bs' IH]; [done|]. simpl. intros [Hb Hbs]%not_elem_of_app.
    by rewrite filter_app, regroup_out, IH. }
  induction bs as [|b bs IH]; simpl; [by intros _ ?%elem_of_nil|].
  intros (Hb & Hd & Hbs)%NoDup_app Hk. rewrite filter_app. destruct (decide (k ∈ b)) as [Hin|Hnin].
  - rewrite regroup_in, Hout, app_nil_r by auto. done.
  - rewrite regroup_out, IH by (done || set_solver). done.
Qed.
End Regroup.

(** ** Readings: the values of a key in a row *)
Section Readings.
Context {R : Type}.
Definition reader : Type := R -> result (option (driver_value * string)).
Definition reading (rd : reader) (r : R) : option driver_value :=
  match rd r with Ok (Some (v, _)) => Some v | _ => None end.
Definition reads (rds : list reader) (r : R) : option (list driver_value) := mapM (fun rd => reading rd r) rds.
Lemma reading_Some rd r v : reading rd r = Some v <-> exists f, rd r = Ok (Some (v, f)).
Proof. unfold reading. destruct (rd r) as [[[v' f]|]|]; naive_solver. Qed.
Lemma reads_Some rds r vs : reads rds r = Some vs <-> Forall2 (fun rd v => exists f, rd r = Ok (Some (v, f))) rds vs.
Proof.
  unfold reads. rewrite mapM_Some. split; intros Hf; (eapply Forall2_impl; [exact Hf|]); intros rd v; by rewrite reading_Some.
Qed.
End Readings.
Arguments reader : clear implicits.

(** ** What a membership predicate means *)
Section Truth.
Variable adopt : driver_value -> result any.
Context {R : Type}.
Variable truth : R -> expression -> bool.
Record connectives : Prop := {
  truth_and : forall r l, truth r (And l) = forallb (truth r) l;
  truth_or : forall r a b, truth r (Or [a; b]) = truth r a || truth r b }.
(** On the rows [rows], an encoded bind equals the part's column exactly when
    the part reads that value. *)
Definition compares {Row} (rows : list R) (part : PartSpec Row) (rd : reader R) : Prop :=
  forall v id b, graphEncodedBind id (adopt v) (ValidateDriverValue v) (pt_Codec part) = Ok b ->
  forall r, r ∈ rows ->
    truth r (Equal (OpExpression (column_expression (pt_Column part))) (OpExpression b)) = true <->
    exists f, rd r = Ok (Some (v, f)).

Hypothesis Hc : connectives.

Lemma or_pairs_truth r l : existsb (truth r) (or_pairs l) = existsb (truth r) l.
Proof.
  enough (forall n l, length l <= n -> existsb (truth r) (or_pairs l) = existsb (truth r) l) as H by by eapply H.
  induction n as [|n IH]; intros [|a [|b l']] Hn; try done; simpl in *; [lia|].
  rewrite (truth_or Hc), IH by lia. by rewrite orb_assoc.
Qed.
Lemma or_pairs_length l : 2 <= length l -> length (or_pairs l) < length l /\ or_pairs l <> [].
Proof.
  enough (forall n l, length l <= n -> length (or_pairs l) <= length l /\ (2 <= length l -> length (or_pairs l) < length l /\ or_pairs l <> [])) as H by by eapply H.
  induction n as [|n IH]; intros [|a [|b l']] Hn; simpl in *; try (split; [lia|intros; lia]).
  destruct (IH l' ltac:(lia)) as [Hl _]. split; [lia|]. split; [lia|done].
Qed.
Lemma or_tree_truth r fuel l : l <> [] -> length l <= fuel -> truth r (or_tree fuel l) = existsb (truth r) l.
Proof.
  revert l. induction fuel as [|fuel IH]; intros [|a [|b l]] Hne Hl; try done; simpl in Hl; try lia.
  - simpl. by rewrite orb_false_r.
  - change (truth r (or_tree fuel (or_pairs (a :: b :: l))) = existsb (truth r) (a :: b :: l)).
    destruct (or_pairs_length (a :: b :: l)) as [Hlt Hn]; [simpl; lia|]. rewrite IH; [apply or_pairs_truth|done|].
    simpl in Hlt |- *. lia.
Qed.

Lemma membership_parts_truth {Row} rows (key : list (PartSpec Row)) rds cs id es id' r :
  Forall2 (compares rows) key rds -> r ∈ rows -> length cs = length key ->
  membership_parts adopt key cs id = Ok (es, id') ->
  length es = length key /\ (forallb (truth r) es = true <-> reads rds r = Some (c_Value <$> cs)).
Proof.
  intros Hk Hr. setoid_rewrite reads_Some. revert cs id es id'.
  induction Hk as [|part rd key rds Hp Hk IH]; intros [|c cs] id es id' Hl; try done; simpl.
  { intros [= <- <-]. split; [done|]. split; [by constructor|done]. }
  destruct (membership_part adopt part c id) as [e|] eqn:Ee; [|done].
  destruct (membership_parts adopt key cs (id + 1)) as [[es' id'']|] eqn:Er; [|done].
  intros [= <- <-]. apply IH in Er as [Hle Her]; [|by injection Hl]. simpl. split; [by rewrite Hle|].
  rewrite andb_true_iff, Her, Forall2_cons. unfold membership_part in Ee.
  destruct (graphEncodedBind _ _ _ _) as [b|] eqn:Eb; [|done]. injection Ee as <-. by rewrite (Hp _ _ _ Eb r Hr).
Qed.
Lemma branch_truth r es : es <> [] -> truth r (branch es) = forallb (truth r) es.
Proof. destruct es as [|a [|b es]]; [done| |]; intros _; simpl; [by rewrite andb_true_r|apply (truth_and Hc)]. Qed.
Lemma membership_branches_truth {Row} rows (key : list (PartSpec Row)) rds ts id bs id' r :
  Forall2 (compares rows) key rds -> r ∈ rows -> key <> [] -> Forall (fun t => length (Components t) = length key) ts ->
  membership_branches adopt key ts id = Ok (bs, id') ->
  length bs = length ts /\ (existsb (truth r) bs = true <-> reads rds r ∈ Some <$> (values_of <$> ts)).
Proof.
  intros Hk Hr Hne Hts. revert id bs id'. induction Hts as [|t ts Ht Hts IH]; intros id bs id'; simpl.
  { intros [= <- <-]. split; [done|]. simpl. set_solver. }
  destruct (membership_parts adopt key (Components t) id) as [[es id1]|] eqn:Ee; [|done].
  destruct (membership_branches adopt key ts _) as [[bs' id2]|] eqn:Eb; [|done]. intros [= <- <-].
  apply IH in Eb as [Hl Hb]. simpl. split; [by rewrite Hl|].
  eapply membership_parts_truth in Ee as [Hle He]; [|done..].
  rewrite orb_true_iff, Hb, branch_truth, He, elem_of_cons; [done|]. intros ->. by destruct key.
Qed.
(** A membership predicate holds on the rows that read one of its tuples. *)
Lemma buildGraphMembership_truth {Row} rows (key : list (PartSpec Row)) rds ts id p id' r :
  Forall2 (compares rows) key rds -> r ∈ rows -> key <> [] -> Forall (fun t => length (Components t) = length key) ts ->
  buildGraphMembership adopt key ts id = Ok (p, id') ->
  truth r (p_node p) = true <-> reads rds r ∈ Some <$> (values_of <$> ts).
Proof.
  intros Hk Hr Hne Hts. unfold buildGraphMembership. destruct (membership_branches adopt key ts id) as [[bs id1]|] eqn:Eb; [|done].
  eapply membership_branches_truth in Eb as [Hl Hb]; [|done..]. cbn [fst snd].
  destruct (decide (bs = [])) as [->|Hbs]; [done|]. rewrite <- Hb, <- (or_tree_truth r (length bs) bs); [|done..].
  by destruct bs; [|intros [= <- <-]].
Qed.
End Truth.

(** ** Keys read from a row, and from a junction row *)
Definition readers {Row} `{Encoder} (key : list (PartSpec Row)) : list (reader Row) := map read_part key.
Definition key_of {Row} `{Encoder} (key : list (PartSpec Row)) (row : Row) : option (list driver_value) := reads (readers key) row.
(** One turn of [graphTupleValues]. *)
Definition read_value {Row} `{Encoder} (part : PartSpec Row) (value : go_any) : result (option (driver_value * string)) :=
  do normalized <- Normalize value;
  match normalized with
  | DNil => Ok None
  | _ =>
      do normalized <- (if negb (String.eqb (pt_Codec part) "") then EncodeGraphKey (pt_Codec part) value else Ok normalized);
      do f <- Frame normalized;
      Ok (Some (normalized, f))
  end.
(** The parts' values are at [offset] on. *)
Fixpoint value_readers {Row} `{Encoder} (offset : nat) (key : list (PartSpec Row)) : list (reader (list go_any)) :=
  match key with
  | [] => []
  | part :: key' => (fun values => read_value part (nth offset values GNil)) :: value_readers (S offset) key'
  end.
Definition values_key {Row} `{Encoder} (offset : nat) (key : list (PartSpec Row)) (values : list go_any) : option (list driver_value) :=
  reads (value_readers offset key) values.

Section Keys.
Context {Row : Type} `{Encoder}.
Implicit Types key : list (PartSpec Row).

Lemma reads_Some_length {R} (rds : list (reader R)) r vs : reads rds r = Some vs -> length vs = length rds.
Proof. rewrite reads_Some. intros Hf. symmetry. by eapply Forall2_length. Qed.
Lemma Tuple_key_of key row t : Tuple key row = Ok (Some t) -> key_of key row = Some (values_of t) /\ tuple_wf (length key) t /\ key <> [].
Proof.
  intros Ht. destruct (Tuple_wf _ _ _ Ht) as [Hw Hf]. split_and!; [|done|by intros ->].
  unfold key_of. rewrite reads_Some. unfold readers. by rewrite Forall2_fmap_l.
Qed.
Lemma Tuple_no_key key row : Tuple key row = Ok None -> key_of key row = None.
Proof.
  intros He%Tuple_absent. destruct (key_of key row) as [vs|] eqn:E; [|done].
  unfold key_of in E. rewrite reads_Some in E. unfold readers in E. rewrite Forall2_fmap_l in E. exfalso.
  clear -He E. induction E as [|part v key vs [f Hp] E IH]; inversion He; subst; [congruence|by apply IH].
Qed.

Lemma values_loop_reads key values acc t :
  values_loop key values acc = Ok (Some t) -> length values = length key ->
  exists vs, values_of t = values_of acc ++ vs /\
    Forall2 (fun pv v => exists f, read_value pv.1 pv.2 = Ok (Some (v, f))) (combine key values) vs.
Proof.
  revert values acc. induction key as [|part key IH]; intros [|value values] acc; cbn [values_loop combine]; try done.
  { intros [= <-] _. exists []. by rewrite app_nil_r. }
  intros Ht [= Hl]. destruct (Normalize value) as [d|] eqn:En; [|done].
  assert (exists d' f, read_value part value = Ok (Some (d', f)) /\
    values_loop key values (MkTuple (Components acc ++ [MkComponent d' f (pt_Codec part)]) (Identity acc +:+ f)) = Ok (Some t))
    as (d' & f & Hr & Hgo).
  { unfold read_value. rewrite En. destruct d; try done;
      (destruct (if negb _ then _ else _) as [d'|]; [|done]; destruct (Frame d') as [f|]; [|done]; by exists d', f). }
  apply IH in Hgo as (vs & Ev & Hvs); [|done]. exists (d' :: vs). unfold values_of in *. cbn [Components] in Ev.
  rewrite fmap_app, <- app_assoc in Ev. split; [done|]. constructor; [by exists f|done].
Qed.
Lemma combine_readers key values offset vs :
  length values = length key ->
  Forall2 (fun pv v => exists f, read_value pv.1 pv.2 = Ok (Some (v, f))) (combine key values) vs ->
  forall all, (forall i v, values !! i = Some v -> all !! (offset + i) = Some v) ->
  Forall2 (fun rd v => exists f, rd all = Ok (Some (v, f))) (value_readers offset key) vs.
Proof.
  revert values offset vs. induction key as [|part key IH]; intros [|value values] offset vs Hl Hf all Hall; try done;
    cbn [combine value_readers] in *.
  { by inversion Hf. }
  inversion Hf as [|? v ? vs' [f Hv] Hvs]; subst. constructor.
  - exists f. specialize (Hall 0 value eq_refl). rewrite Nat.add_0_r in Hall.
    by rewrite (nth_lookup_Some _ _ _ _ Hall).
  - apply (IH values); [by injection Hl|done|]. intros i v' Hi. specialize (Hall (S i) v' Hi). by rewrite Nat.add_succ_r in Hall.
Qed.
Lemma graphTupleValues_key key offset values sub t :
  graphTupleValues key sub = Ok (Some t) -> (forall i v, sub !! i = Some v -> values !! (offset + i) = Some v) ->
  values_key offset key values = Some (values_of t) /\ tuple_wf (length key) t.
Proof.
  intros Ht Hsub. split; [|by apply (graphTupleValues_wf _ _ _ Ht)]. unfold graphTupleValues in Ht.
  destruct (Nat.eqb_spec (length key) (length sub)) as [Hl|]; [|done]. simpl in Ht.
  apply values_loop_reads in Ht as (vs & Ev & Hvs); [|done]. unfold values_key. rewrite reads_Some, Ev.
  eapply combine_readers; done.
Qed.
End Keys.

(** ** The laws of the query engine

    [rows_of q] are the rows of [q] without a membership.  A run that succeeds
    yields the rows of the query it compiled, in order, and a membership
    filters them: the predicate is ANDed to the query's own. *)
Record answers {Q R C : Type} `{!QueryOps Q R C} (truth : R -> expression -> bool) (rows_of : Q -> list R) : Prop := {
  ans_all : forall q c n k rs k', q_compile q = Ok c -> q_prepare q c = Ok tt ->
    run_rows (q_rows q c n) k = Ok (rs, k') -> rs = rows_of q;
  ans_where : forall q options columns limit base m c n k rs k',
    q_withOptions q options columns limit = Ok base -> q_compile (q_withMembership base m) = Ok c ->
    q_prepare q c = Ok tt -> run_rows (q_rows q c n) k = Ok (rs, k') ->
    rs = filter (fun r => truth r (p_node m) = true) (rows_of base) }.

Section Batch.
Context {V C : Type}.
Variable Slots : C -> nat.
Variable adopt : driver_value -> result any.
Variable executor : Executor.
Implicit Types st : lstate (V := V).
(** Loading leaves the cells and the callbacks alone. *)
Definition same_heap st st' : Prop := cells st' = cells st /\ GraphLoad.deferred st' = GraphLoad.deferred st.

Section Run.
Context {Q R Row : Type} `{!QueryOps Q R C}.
Variable truth : R -> expression -> bool.
Variable rows_of : Q -> list R.
Hypothesis Hans : answers truth rows_of.
Hypothesis Hcon : connectives truth.
Variables (runner base : Q) (options : EdgeOptions) (columns : list ColumnRef) (limit : Z).
Hypothesis Hbase : q_withOptions runner options columns limit = Ok base.
Variables (key : list (PartSpec Row)) (rds : list (reader R)).
Hypothesis Hkey : Forall2 (compares adopt truth (rows_of base)) key rds.
Hypothesis Hne : key <> [].
Definition of_width (n : nat) (t : tuple) : Prop := length (Components t) = n.
Definition batch_rows (batch : list tuple) : list R := fetched (reads rds) (rows_of base) (values_of <$> batch).

Lemma run_batch_ok budget path detail batch st rs st' :
  Forall (of_width (length key)) batch ->
  run_batch Slots adopt executor runner base key budget path detail batch st = Ok (rs, st') ->
  rs = batch_rows batch /\ same_heap st st'.
Proof.
  intros Hb. unfold run_batch. destruct (buildGraphMembership adopt key batch (bind_ids st)) as [[m id]|] eqn:Em; [|done].
  destruct (q_compile _) as [compiled|] eqn:Ec; [|done]. destruct (exceeds _ _ _); [done|].
  destruct (q_prepare runner compiled) as [[]|] eqn:Ep; [|done]. unfold run_query.
  destruct (run_rows _ _) as [[rs' k]|] eqn:Er; [|done]. intros [= <- <-]. split; [|done].
  rewrite (ans_where truth rows_of Hans _ _ _ _ _ _ _ _ _ _ _ Hbase Ec Ep Er). unfold batch_rows, fetched.
  apply list_filter_ext. intros r Hr. by eapply buildGraphMembership_truth.
Qed.

(** The rows of all batches, one after the other. *)
Lemma load_batches_ok {M} (P : M -> list R -> Prop) (load : list tuple -> M * lstate -> result (M * lstate)) bs m st m' st' all :
  (forall b m st m' st' all, Forall (of_width (length key)) b -> P m all -> load b (m, st) = Ok (m', st') ->
     P m' (all ++ batch_rows b) /\ same_heap st st') ->
  Forall (of_width (length key)) (concat bs) -> P m all -> foldi (fun _ => load) 0 bs (m, st) = Ok (m', st') ->
  P m' (all ++ flat_map batch_rows bs) /\ same_heap st st'.
Proof.
  intros Hload. revert m st all. induction bs as [|b bs IH]; intros m st all Hb HP.
  { simpl. intros [= <- <-]. by rewrite app_nil_r. }
  intros ([m1 st1] & H1 & Hr)%foldi_cons. simpl in Hb. apply Forall_app in Hb as [Hb Hbs].
  apply (Hload _ _ _ _ _ all) in H1 as [HP1 [Hc1 Hd1]]; [|done..].
  apply IH with (all := all ++ batch_rows b) in Hr as [HP' [Hc Hd]]; [|done..].
  simpl. rewrite app_assoc. split; [done|]. split; congruence.
Qed.
End Run.

(** ** Rows grouped by the identity of their key *)
Section Group.
Context {R : Type}.
Variable enc : Encoder.
Variable ck : list (PartSpec R).
Definition row_id (r : R) : option string :=
  match Tuple (H := enc) ck r with Ok (Some t) => Some (Identity t) | _ => None end.
Definition keyed (requested : gset string) (r : R) : Prop :=
  exists t, Tuple (H := enc) ck r = Ok (Some t) /\ Identity t ∈ requested.
Definition grouped {M} (view : M -> string -> list R) (requested : gset string) (m : M) (all : list R) : Prop :=
  (forall id, view m id = filter (fun r => row_id r = Some id) all) /\ Forall (keyed requested) all.
Lemma foldi_grouped {M} (view : M -> string -> list R) requested (add : R -> M -> result M) i rs m m' all :
  (forall r m m', add r m = Ok m' -> exists t, Tuple (H := enc) ck r = Ok (Some t) /\ Identity t ∈ requested /\
     forall id, view m' id = view m id ++ (if decide (Identity t = id) then [r] else [])) ->
  grouped view requested m all -> foldi (fun _ => add) i rs m = Ok m' -> grouped view requested m' (all ++ rs).
Proof.
  intros Hadd. revert i m all. induction rs as [|r rs IH]; intros i m all HP.
  { simpl. intros [= <-]. by rewrite app_nil_r. }
  intros (m1 & (t & Ht & Hin & Hv)%Hadd & Hr)%foldi_cons.
  apply (IH 0 m1 (all ++ [r])) in Hr; [by rewrite <- app_assoc in Hr|]. destruct HP as [Hview Hall]. split.
  - intros id. rewrite Hv, Hview, filter_app, filter_cons, filter_nil. f_equal.
    assert (row_id r = Some (Identity t)) as E by (unfold row_id; by rewrite Ht).
    destruct (decide (Identity t = id)), (decide (row_id r = Some id)); congruence.
  - apply Forall_app. split; [done|]. constructor; [by exists t|constructor].
Qed.

Definition loaded_view (m : gmap string (list R)) (id : string) : list R := default [] (m !! id).
Lemma add_child_ok path requested r (m m' : gmap string (list R)) :
  add_child enc ck path requested r m = Ok m' -> exists t, Tuple (H := enc) ck r = Ok (Some t) /\ Identity t ∈ requested /\
    forall id, loaded_view m' id = loaded_view m id ++ (if decide (Identity t = id) then [r] else []).
Proof.
  unfold add_child. destruct (Tuple ck r) as [[t|]|] eqn:Et; [|done..]. case_bool_decide as Hin; [|done]. intros [= <-].
  exists t. split_and!; [done..|]. intros id. unfold loaded_view. destruct (decide (Identity t = id)) as [<-|Hneq].
  - by rewrite lookup_insert_eq.
  - by rewrite lookup_insert_ne, app_nil_r.
Qed.
Definition target_view (m : gmap string R) (id : string) : list R := option_list (m !! id).
Lemma add_target_ok path requested r (m m' : gmap string R) :
  add_target enc ck path requested r m = Ok m' -> exists t, Tuple (H := enc) ck r = Ok (Some t) /\ Identity t ∈ requested /\
    forall id, target_view m' id = target_view m id ++ (if decide (Identity t = id) then [r] else []).
Proof.
  unfold add_target. destruct (Tuple ck r) as [[t|]|] eqn:Et; [|done..]. case_bool_decide as Hin; [|done].
  destruct (m !! Identity t) eqn:Em; [done|]. intros [= <-].
  exists t. split_and!; [done..|]. intros id. unfold target_view. destruct (decide (Identity t = id)) as [<-|Hneq].
  - by rewrite lookup_insert_eq, Em.
  - by rewrite lookup_insert_ne, app_nil_r.
Qed.
End Group.
End Batch.
