(* ===== verification/GraphEdges.v ===== *)
(** * GraphEdges: executing one edge of a graph load

    [executeGraphEdge] gives every parent of the edge exactly the rows the
    edge's description selects for it ([children]), in order: one callback per
    parent, a cell per child, and a work item per child for the next level
    ([executeGraphEdge_ok]). *)

From Stdlib Require Import Zquot.
From S2P Require Import Prelude GoText EngineProfile Query QueryWrite CursorCodec Page Typed GraphKey Graph GraphLoad GraphBatch.
Open Scope string_scope.
Open Scope list_scope.
Open Scope nat_scope.

(** ** First occurrences *)
Section Nub.
Context {A K : Type} `{!EqDecision K}.
Definition nub_add (f : A -> K) (acc : list A) (x : A) : list A :=
  if bool_decide (f x ∈ f <$> acc) then acc else acc ++ [x].
(** The elements whose [f] no earlier element has. *)
Definition nub_by (f : A -> K) (l : list A) : list A := fold_left (nub_add f) l [].
Lemma nub_by_snoc f l x : nub_by f (l ++ [x]) = nub_add f (nub_by f l) x.
Proof. unfold nub_by. by rewrite fold_left_app. Qed.
Lemma nub_by_mem f l k : k ∈ f <$> nub_by f l <-> k ∈ f <$> l.
Proof.
  induction l as [|x l IH] using rev_ind; [done|]. rewrite nub_by_snoc. unfold nub_add.
  rewrite fmap_app. case_bool_decide; rewrite ?fmap_app; set_solver.
Qed.
Lemma nub_by_sub f l x : x ∈ nub_by f l -> x ∈ l.
Proof.
  induction l as [|y l IH] using rev_ind; [done|]. rewrite nub_by_snoc. unfold nub_add. case_bool_decide; set_solver.
Qed.
Lemma nub_by_NoDup f l : NoDup (f <$> nub_by f l).
Proof.
  induction l as [|x l IH] using rev_ind; [constructor|]. rewrite nub_by_snoc. unfold nub_add.
  case_bool_decide; [done|]. rewrite fmap_app. apply NoDup_app. split_and!; [done| |apply NoDup_singleton]. set_solver.
Qed.
End Nub.
(** Keeping first occurrences commutes with a change of representation. *)
Lemma nub_by_fmap {A B K K'} `{!EqDecision K, !EqDecision K'} (g : A -> B) (f : A -> K) (f' : B -> K') l :
  (forall x y, x ∈ l -> y ∈ l -> f x = f y <-> f' (g x) = f' (g y)) -> g <$> nub_by f l = nub_by f' (g <$> l).
Proof.
  induction l as [|x l IH] using rev_ind; intros He; [done|].
  rewrite fmap_app. simpl. rewrite !nub_by_snoc, <- IH by (intros; apply He; set_solver).
  unfold nub_add. assert (f x ∈ f <$> nub_by f l <-> f' (g x) ∈ f' <$> (g <$> nub_by f l)) as Hx.
  { rewrite !list_elem_of_fmap. setoid_rewrite list_elem_of_fmap. split.
    - intros (y & E & Hy). exists (g y). split; [|by exists y]. apply He; [set_solver| |done]. pose proof (nub_by_sub _ _ _ Hy). set_solver.
    - intros (? & E & y & -> & Hy). exists y. split; [|done]. apply He; [set_solver| |done]. pose proof (nub_by_sub _ _ _ Hy). set_solver. }
  rewrite (bool_decide_ext _ _ Hx). case_bool_decide; [done|]. by rewrite fmap_app.
Qed.

Lemma seen_snoc {A} (f : A -> string) l x :
  {[ f x ]} ∪ list_to_set (f <$> l) =@{gset string}
  list_to_set (f <$> (if bool_decide (f x ∈ (list_to_set (f <$> l) : gset string)) then l else l ++ [x])).
Proof.
  case_bool_decide as Hin; [set_solver|]. rewrite fmap_app, list_to_set_app_L. simpl. set_solver.
Qed.

Lemma quot_nonneg a n : (0 <= a)%Z -> (0 <= Z.quot a (Z.of_nat n))%Z.
Proof. intros Ha. destruct n as [|n]; [by rewrite Zquot_0_r|]. apply Z.quot_pos; lia. Qed.
Lemma bind_key_nonempty {A} a (key : list A) : Z.quot a (Z.of_nat (length key)) <> 0%Z -> key <> [].
Proof. intros Hq ->. apply Hq, Zquot_0_r. Qed.

Section Edges.
Context {Row V Q C JQ : Type} `{!QueryOps Q Row C} `{!QueryOps JQ (list go_any) C}.
Variable Slots : C -> nat.
Variable graphJunctionQuery : relation -> list (PartSpec Row) -> list (PartSpec Row) -> result JQ.
Variable adopt : driver_value -> result any.
Variable store : plan_store Row V Q.
Variable executor : Executor.
Variable enc : Encoder.
Hypothesis Henc : x_codecs executor = Ok enc.
Existing Instance enc.

(** The engine: the rows of the queries, and when a row satisfies an
    expression. *)
Variable rows_of : Q -> list Row.
Variable junction_rows_of : JQ -> list (list go_any).
Variable truth : Row -> expression -> bool.
Variable jtruth : list go_any -> expression -> bool.
Hypothesis Hans : answers (C := C) truth rows_of.
Hypothesis Hjans : answers (C := C) jtruth junction_rows_of.
Hypothesis Hcon : connectives truth.
Hypothesis Hjcon : connectives jtruth.

Abbreviation edge := (graphEdgeSpec Row V).
Abbreviation work := (graphWork (Row := Row)).
Implicit Types st : lstate (V := V).

(** ** The specification *)
Definition from_db (row : Row) : Prop := exists q, row ∈ rows_of q.
Definition edge_node (e : edge) : option (graphPlanNode Row V Q) := e_child e ≫= (store !!.).
Definition probe_rows (e : edge) (node : graphPlanNode Row V Q) (ck : list (PartSpec Row)) : list Row :=
  match q_withOptions (n_query node) (e_options e) (key_columns ck) (probe_limit e) with
  | Ok probe => rows_of probe
  | Err _ => []
  end.
Definition direct_children (e : edge) (row : Row) : list Row :=
  match edge_node e, parentKey e, childKey e with
  | Some node, Some pk, Some ck =>
      match key_of pk row with
      | None => []
      | Some vs => filter (fun r => key_of ck r = Some vs) (probe_rows e node ck)
      end
  | _, _, _ => []
  end.
Definition junction_rows (e : edge) (jp jc : list (PartSpec Row)) : list (list go_any) :=
  match graphJunctionQuery (junction e) jp jc with
  | Err _ => []
  | Ok q =>
      match q_withOptions q (e_options e) (key_columns jp) (PerParentLimit_ (e_options e)) with
      | Ok base => junction_rows_of base
      | Err _ => []
      end
  end.
Definition target_rows (node : graphPlanNode Row V Q) (ck : list (PartSpec Row)) : list Row :=
  match q_withOptions (n_query node) no_options (key_columns ck) 0 with
  | Ok base => rows_of base
  | Err _ => []
  end.
(** The distinct targets a junction names for a parent key, in order. *)
Definition junction_targets (e : edge) (jp jc : list (PartSpec Row)) (vs : list driver_value) : list (list driver_value) :=
  nub_by id (omap (values_key (length jp) jc) (filter (fun r => values_key 0 jp r = Some vs) (junction_rows e jp jc))).
Definition through_children (e : edge) (row : Row) : list Row :=
  match edge_node e, parentKey e, childKey e, junctionParent e, junctionChild e with
  | Some node, Some pk, Some ck, Some jp, Some jc =>
      match key_of pk row with
      | None => []
      | Some vs =>
          omap (fun target => head (filter (fun r => key_of ck r = Some target) (target_rows node ck)))
               (junction_targets e jp jc vs)
      end
  | _, _, _, _, _ => []
  end.
Definition children (e : edge) (row : Row) : list Row :=
  match e_kind e with graphManyThrough => through_children e row | _ => direct_children e row end.

(** ** What is asked of an edge *)
Definition typed_rows {R} (rows : list R) (key : R -> option (list driver_value)) : Prop :=
  forall r vs, r ∈ rows -> key r = Some vs -> Forall driver_typed vs.
Record edge_laws (e : edge) : Prop := {
  el_direct : e_kind e <> graphManyThrough -> forall pk ck, parentKey e = Some pk -> childKey e = Some ck -> length pk = length ck;
  el_through : e_kind e = graphManyThrough -> forall pk ck jp jc, parentKey e = Some pk -> childKey e = Some ck ->
    junctionParent e = Some jp -> junctionChild e = Some jc -> length pk = length jp /\ length ck = length jc;
  el_typed : forall key q, parentKey e = Some key \/ childKey e = Some key -> typed_rows (rows_of q) (key_of key);
  el_jtyped : forall jp jc q, junctionParent e = Some jp -> junctionChild e = Some jc ->
    typed_rows (junction_rows_of q) (values_key 0 jp) /\ typed_rows (junction_rows_of q) (values_key (length jp) jc);
  el_compares : forall ck q, childKey e = Some ck -> Forall2 (compares adopt truth (rows_of q)) ck (readers ck);
  el_jcompares : forall jp q, junctionParent e = Some jp ->
    Forall2 (compares adopt jtruth (junction_rows_of q)) jp (value_readers 0 jp) }.

(** ** Parent keys *)
Record keys_ok (pk : list (PartSpec Row)) (parents : list work) (ks : parent_keys) : Prop := {
  ko_of : Forall2 (fun w k => Tuple pk (w_row w) = Ok k) parents (k_of_parent ks);
  ko_tuples : k_tuples ks = nub_by Identity (omap id (k_of_parent ks));
  ko_seen : k_seen ks = list_to_set (Identity <$> k_tuples ks) }.
Lemma omap_id_snoc {A} (l : list (option A)) o : omap id (l ++ [o]) = omap id l ++ option_list o.
Proof. rewrite omap_app. by destruct o. Qed.
Lemma collect_keys_ok pk parents ks : collect_keys enc pk parents = Ok ks -> keys_ok pk parents ks.
Proof.
  unfold collect_keys. assert (forall done ks0, keys_ok pk done ks0 ->
    foldi (fun _ => collect_key enc pk) 0 parents ks0 = Ok ks -> keys_ok pk (done ++ parents) ks) as Hgo.
  { induction parents as [|w parents IH]; intros done ks0 H0.
    { simpl. intros [= <-]. by rewrite app_nil_r. }
    intros (ks1 & H1 & Hr)%foldi_cons. apply (IH (done ++ [w]) ks1) in Hr; [by rewrite <- app_assoc in Hr|].
    destruct H0 as [Ho Ht Hs]. unfold collect_key in H1. destruct (Tuple pk (w_row w)) as [[t|]|] eqn:Et; [| |done].
    - injection H1 as <-. split; simpl.
      + apply Forall2_app; [done|]. by constructor.
      + rewrite omap_id_snoc. simpl. rewrite nub_by_snoc, <- Ht. unfold nub_add.
        rewrite Hs. by rewrite (bool_decide_ext _ _ (elem_of_list_to_set (C := gset string) _ _)).
      + rewrite Hs. apply seen_snoc.
    - injection H1 as <-. split; simpl; [apply Forall2_app; [done|by constructor]| |done].
      rewrite omap_id_snoc. simpl. by rewrite app_nil_r. }
  intros Hk. apply (Hgo [] _) in Hk; [done|]. split; [constructor|done|done].
Qed.

(** The requested keys, and the identity of a key against its values. *)
Lemma keys_requested pk parents ks t : keys_ok pk parents ks -> Some t ∈ k_of_parent ks -> Identity t ∈ Identity <$> k_tuples ks.
Proof.
  intros [_ Ht _] Hin. rewrite Ht, nub_by_mem. apply list_elem_of_fmap. exists t. split; [done|].
  apply list_elem_of_omap. by exists (Some t).
Qed.
Lemma keys_read pk parents ks t : keys_ok pk parents ks -> t ∈ k_tuples ks ->
  exists w, w ∈ parents /\ Tuple pk (w_row w) = Ok (Some t).
Proof.
  intros [Hk Ht _] Hin. rewrite Ht in Hin. apply nub_by_sub, list_elem_of_omap in Hin as (o & Hin & Eo).
  cbv [id] in Eo. subst o. apply list_elem_of_lookup in Hin as [i Hi]. destruct (Forall2_lookup_r _ _ _ _ _ Hk Hi) as (w & Hw & Et).
  exists w. split; [by eapply list_elem_of_lookup_2|done].
Qed.
(** A tuple as a row's key: what [identity_values] needs of it. *)
Definition good_tuple (width : nat) (t : tuple) : Prop := tuple_wf width t /\ Forall driver_typed (values_of t).
Lemma good_identity width t t' : good_tuple width t -> good_tuple width t' -> Identity t = Identity t' <-> values_of t = values_of t'.
Proof. intros [Hw Ht] [Hw' Ht']. by apply (identity_values t t' width). Qed.
Lemma row_good (rows : list Row) key row t :
  typed_rows rows (key_of key) -> row ∈ rows -> Tuple key row = Ok (Some t) -> good_tuple (length key) t.
Proof. intros Hty Hin Ht. destruct (Tuple_key_of _ _ _ Ht) as (Hk & Hw & _). split; [done|]. by eapply Hty. Qed.
Lemma Tuple_width (key : list (PartSpec Row)) row t : Tuple key row = Ok (Some t) -> of_width (length key) t.
Proof.
  intros Ht. destruct (Tuple_key_of _ _ _ Ht) as (Hk & _ & _). apply reads_Some_length in Hk.
  unfold of_width, values_of in *. rewrite length_fmap in Hk. rewrite Hk. apply length_map.
Qed.

(** ** Attaching *)
Fixpoint callbacks (ops : graphAttachOps V) (offset : nat) (pcs : list (work * list Row)) : list (graphDeferred (V := V)) :=
  match pcs with
  | [] => []
  | (w, rows) :: pcs' =>
      MkDeferred (w_depth w) ops (w_parent w) (seq offset (length rows)) :: callbacks ops (offset + length rows) pcs'
  end.
Fixpoint next_works (child : node_ptr) (offset : nat) (pcs : list (work * list Row)) : list work :=
  match pcs with
  | [] => []
  | (w, rows) :: pcs' => child_works child (w_depth w) (seq offset (length rows)) rows ++ next_works child (offset + length rows) pcs'
  end.
(** The parents were each given their rows. *)
Definition attached (child : node_ptr) (node : graphPlanNode Row V Q) (ops : graphAttachOps V) (pcs : list (work * list Row))
  (st st' : lstate) (next : list work) : Prop :=
  cells st' = cells st ++ flat_map (fun pc => map (n_mapRow node) pc.2) pcs /\
  GraphLoad.deferred st' = GraphLoad.deferred st ++ callbacks ops (length (cells st)) pcs /\
  next = next_works child (length (cells st)) pcs.
Lemma attached_nil child node ops st : attached child node ops [] st st [].
Proof. unfold attached. simpl. by rewrite !app_nil_r. Qed.
Lemma attached_cons child node ops w rows pcs st st1 st' next next' :
  attached child node ops [(w, rows)] st st1 next -> attached child node ops pcs st1 st' next' ->
  attached child node ops ((w, rows) :: pcs) st st' (next ++ next').
Proof.
  intros (Hc & Hd & Hn) (Hc' & Hd' & Hn'). simpl in *. rewrite app_nil_r in *. unfold attached. simpl.
  assert (length (cells st1) = length (cells st) + length rows) as Hl by (by rewrite Hc, length_app, length_map).
  rewrite Hc', Hc, Hd', Hd, Hn, Hn', Hl, <- !app_assoc. done.
Qed.
Lemma attached_same child node ops pcs st st1 st' next :
  same_heap st st1 -> attached child node ops pcs st1 st' next -> attached child node ops pcs st st' next.
Proof. intros [Hc Hd] (H1 & H2 & H3). unfold attached. by rewrite <- Hc, <- Hd. Qed.

Lemma attach_children_ok kind ops path child node w rows s next st' :
  attach_children kind ops path child node w rows s = Ok (next, st') ->
  exists new, next = s.1 ++ new /\ attached child node ops [(w, rows)] s.2 st' new.
Proof.
  unfold attach_children, attached. destruct s as [next0 st]. simpl. rewrite !app_nil_r.
  intros Ha. exists (child_works child (w_depth w) (seq (length (cells st)) (length rows)) rows). revert Ha.
  destruct kind; try (destruct ops; simpl; [|done]; intros [= <- <-]; by rewrite length_map).
  destruct rows as [|r [|]]; [| |done]; destruct ops; simpl; try done; intros [= <- <-]; simpl; by rewrite ?app_nil_r.
Qed.
Lemma attach_nothing_ok kind ops child node w st st' :
  attach_nothing kind ops w st = Ok st' -> attached child node ops [(w, [])] st st' [].
Proof.
  unfold attach_nothing, attached. destruct kind, ops; simpl; try done; intros [= <-]; simpl; rewrite ?app_nil_r; done.
Qed.
(** A loop over the parents. *)
Lemma foldi_attached {K} child node ops (f : work * K -> list work * lstate -> result (list work * lstate))
  (rows : work -> list Row) pks s next st' :
  (forall w k s next st', (w, k) ∈ pks -> f (w, k) s = Ok (next, st') ->
     exists new, next = s.1 ++ new /\ attached child node ops [(w, rows w)] s.2 st' new) ->
  foldi (fun _ => f) 0 pks s = Ok (next, st') ->
  exists new, next = s.1 ++ new /\ attached child node ops (map (fun w => (w, rows w)) (fst <$> pks)) s.2 st' new.
Proof.
  revert s. induction pks as [|[w k] pks IH]; intros s Hf.
  { simpl. intros [= ->]. exists []. rewrite app_nil_r. split; [done|apply attached_nil]. }
  intros ([next1 st1] & H1 & Hr)%foldi_cons. apply Hf in H1 as (new & -> & Ha); [|by constructor].
  apply IH in Hr as (new' & -> & Ha'); [|intros; eapply Hf; [by constructor|done]].
  exists (new ++ new'). simpl. rewrite <- app_assoc. split; [done|]. by eapply attached_cons.
Qed.
Lemma foldi_nothing child node kind ops parents st st' :
  foldi (fun _ => attach_nothing kind ops) 0 parents st = Ok st' ->
  attached child node ops (map (fun w => (w, [])) parents) st st' [].
Proof.
  revert st. induction parents as [|w parents IH]; intros st.
  { simpl. intros [= ->]. apply attached_nil. }
  intros (st1 & H1 & Hr)%foldi_cons. eapply (attach_nothing_ok _ _ child node) in H1.
  apply (attached_cons _ _ _ _ _ _ _ _ _ _ _ H1). by apply IH.
Qed.

(** ** Has-many and has-one *)
Lemma load_children_ok runner options columns limit probe ck budget path requested bs m st m' st' all :
  q_withOptions runner options columns limit = Ok probe -> ck <> [] ->
  Forall2 (compares adopt truth (rows_of probe)) ck (readers ck) ->
  Forall (of_width (length ck)) (concat bs) -> grouped enc ck loaded_view requested m all ->
  foldi (fun _ => load_children_batch Slots adopt executor enc runner probe ck budget path requested) 0 bs (m, st) = Ok (m', st') ->
  grouped enc ck loaded_view requested m' (all ++ flat_map (batch_rows rows_of probe (readers ck)) bs) /\ same_heap st st'.
Proof.
  intros Hb Hne Hcmp Hw Hg. eapply load_batches_ok with (key := ck); [|done|exact Hg].
  clear m st m' st' all Hg Hw bs. intros b m st m' st' all Hw Hg. unfold load_children_batch.
  destruct (run_batch _ _ _ _ _ _ _ _ _ _ _) as [[rs st1]|] eqn:Er; [|done].
  eapply run_batch_ok in Er as [-> Hs]; [|done..]. simpl.
  destruct (foldi _ 0 _ m) as [m1|] eqn:Ef; [|done]. intros [= <- <-]. split; [|done].
  eapply foldi_grouped in Ef; [exact Ef| |exact Hg]. apply add_child_ok.
Qed.

Lemma values_NoDup width ts : Forall (good_tuple width) ts -> NoDup (Identity <$> ts) -> NoDup (values_of <$> ts).
Proof.
  induction 1 as [|t ts Ht Hts IH]; [constructor|]. intros [Hn Hd]%NoDup_cons. apply NoDup_cons. split; [|by apply IH].
  intros (t' & E & Hin)%list_elem_of_fmap. apply Hn, list_elem_of_fmap. exists t'. split; [|done].
  apply (good_identity width); [done| |done]. by eapply (proj1 (Forall_forall _ _)).
Qed.
Lemma fetched_sub {R} (rds : list (reader R)) (rows : list R) bs r :
  r ∈ flat_map (fetched (reads rds) rows) bs -> r ∈ rows.
Proof.
  intros (b & _ & Hr)%list_elem_of_In%in_flat_map. apply list_elem_of_In in Hr. unfold fetched in Hr.
  by apply list_elem_of_filter in Hr as [_ ?].
Qed.
Lemma batch_rows_flat {R} (rows : list R) (rds : list (reader R)) (bs : list (list tuple)) :
  flat_map (fun b => fetched (reads rds) rows (map values_of b)) bs = flat_map (fetched (reads rds) rows) (map values_of <$> bs).
Proof. induction bs as [|b bs IH]; simpl; [done|]. by rewrite IH. Qed.
Lemma concat_fmap {A B} (f : A -> B) (bs : list (list A)) : concat (map f <$> bs) = f <$> concat bs.
Proof. induction bs as [|b bs IH]; [done|]. rewrite fmap_cons. cbn [concat]. by rewrite IH, fmap_app. Qed.
(** What a grouping holds for a requested key: the rows with its values. *)
Lemma grouped_rows {M} (view : M -> string -> list Row) requested m q ck bs t :
  grouped enc ck view requested m (flat_map (batch_rows rows_of q (readers ck)) bs) ->
  typed_rows (rows_of q) (key_of ck) -> Forall (good_tuple (length ck)) (concat bs) -> NoDup (Identity <$> concat bs) ->
  t ∈ concat bs ->
  view m (Identity t) = filter (fun r => key_of ck r = Some (values_of t)) (rows_of q).
Proof.
  intros [Hv Hk] Hty Hgood Hnd Hin. rewrite Hv. unfold batch_rows in *. rewrite batch_rows_flat in *.
  unfold key_of. rewrite <- (regroup (reads (readers ck)) (rows_of q) (map values_of <$> bs) (values_of t)).
  - apply list_filter_ext. intros r Hr. destruct (proj1 (Forall_forall _ _) Hk r Hr) as (t' & Ht' & _).
    destruct (Tuple_key_of _ _ _ Ht') as (Hkey & _). unfold row_id. rewrite Ht'. unfold key_of in Hkey. rewrite Hkey.
    assert (good_tuple (length ck) t') by (eapply row_good; [exact Hty|by eapply fetched_sub|done]).
    assert (good_tuple (length ck) t) by by eapply (proj1 (Forall_forall _ _)).
    transitivity (Identity t' = Identity t); [split; congruence|]. rewrite (good_identity (length ck)) by done.
    split; congruence.
  - rewrite concat_fmap. by eapply values_NoDup.
  - rewrite concat_fmap. by apply list_elem_of_fmap_2.
Qed.

Lemma keys_good pk parents ks : keys_ok pk parents ks -> Forall (fun w => from_db (w_row w)) parents ->
  (forall q, typed_rows (rows_of q) (key_of pk)) ->
  Forall (good_tuple (length pk)) (k_tuples ks) /\ Forall (of_width (length pk)) (k_tuples ks) /\ NoDup (Identity <$> k_tuples ks).
Proof.
  intros Hk Hp Hty. split_and!; [| |rewrite (ko_tuples _ _ _ Hk); apply nub_by_NoDup].
  - apply Forall_forall. intros t (w & Hw & Ht)%(keys_read _ _ _ _ Hk).
    destruct (proj1 (Forall_forall _ _) Hp w Hw) as [q Hq]. eapply row_good; [apply Hty|exact Hq|exact Ht].
  - apply Forall_forall. intros t (w & Hw & Ht)%(keys_read _ _ _ _ Hk). by eapply Tuple_width.
Qed.
(** A parent's key among the requested ones. *)
Lemma parent_key pk parents ks w k : keys_ok pk parents ks -> (w, k) ∈ combine parents (k_of_parent ks) ->
  Tuple pk (w_row w) = Ok k /\ w ∈ parents /\ k ∈ k_of_parent ks.
Proof.
  intros Hk Hin. apply list_elem_of_In in Hin. split_and!.
  - destruct Hk as [Hf _ _]. clear -Hf Hin. induction Hf; simpl in Hin; [done|]. destruct Hin as [[= -> ->]|?]; auto.
  - apply list_elem_of_In. by eapply in_combine_l.
  - apply list_elem_of_In. by eapply in_combine_r.
Qed.
Lemma combine_parents pk parents ks : keys_ok pk parents ks -> fst <$> combine parents (k_of_parent ks) = parents.
Proof. intros [Hf _ _]. clear -Hf. induction Hf; simpl; [done|]. by f_equal. Qed.
Lemma no_keys pk parents ks : keys_ok pk parents ks -> k_tuples ks = [] -> forall w, w ∈ parents -> key_of pk (w_row w) = None.
Proof.
  intros Hk E w [i Hi]%list_elem_of_lookup.
  destruct (Forall2_lookup_l _ _ _ _ _ (ko_of _ _ _ Hk) Hi) as (k & Hki & Hkt). destruct k as [t|]; [|by apply Tuple_no_key].
  pose proof (keys_requested pk parents ks t Hk (list_elem_of_lookup_2 _ _ _ Hki)) as Hin. rewrite E in Hin. by apply elem_of_nil in Hin.
Qed.
Lemma requested_tuple width t ts : Forall (good_tuple width) ts -> good_tuple width t -> Identity t ∈ Identity <$> ts ->
  exists t', t' ∈ ts /\ Identity t' = Identity t /\ values_of t' = values_of t.
Proof.
  intros Hg Ht (t' & E & Hin)%list_elem_of_fmap. exists t'. split_and!; [done..|].
  apply (good_identity width); [|done|done]. by eapply (proj1 (Forall_forall _ _)).
Qed.

Definition given (e : edge) (parents : list work) : list (work * list Row) := map (fun w => (w, children e (w_row w))) parents.
(** What executing an edge does. *)
Definition edge_done (e : edge) (parents : list work) (st st' : lstate) (next : list work) : Prop :=
  exists child node ops, e_child e = Some child /\ store !! child = Some node /\ e_attach e = Some ops /\
    attached child node ops (given e parents) st st' next.
Lemma given_ext e parents (rows : work -> list Row) :
  (forall w, w ∈ parents -> rows w = children e (w_row w)) -> map (fun w => (w, rows w)) parents = given e parents.
Proof.
  intros Hw. unfold given. induction parents as [|w parents IH]; simpl; [done|].
  rewrite Hw by by constructor. rewrite IH; [done|]. intros w' Hw'. apply Hw. by constructor.
Qed.

Lemma executeDirect_ok e parents st next st' :
  e_kind e <> graphManyThrough -> edge_laws e -> Forall (fun w => from_db (w_row w)) parents ->
  executeDirect Slots adopt store executor e parents st = Ok (next, st') -> edge_done e parents st st' next.
Proof.
  intros Hkind Hlaws Hp. unfold executeDirect.
  destruct (e_child e) as [child|] eqn:Ec; [|done]. destruct (Some child ≫= (store !!.)) as [node|] eqn:En; [|done].
  destruct (parentKey e) as [pk|] eqn:Epk; [|done]. destruct (childKey e) as [ck|] eqn:Eck; [|done].
  destruct (e_attach e) as [ops|] eqn:Eo; [|done]. unfold codecs. rewrite Henc.
  destruct (collect_keys enc pk parents) as [ks|] eqn:Ek; [|done]. apply collect_keys_ok in Ek.
  assert (forall w, w ∈ parents -> children e (w_row w) =
    match key_of pk (w_row w) with None => [] | Some vs => filter (fun r => key_of ck r = Some vs) (probe_rows e node ck) end) as Hch.
  { intros w _. unfold children. transitivity (direct_children e (w_row w)); [by destruct (e_kind e)|].
    unfold direct_children, edge_node. by rewrite Ec, En, Epk, Eck. }
  intros Hrun. exists child, node, ops. split_and!; [done..|].
  destruct (k_tuples ks) as [|t0 ts] eqn:Ets.
  { destruct (foldi _ 0 parents st) as [st1|] eqn:Ef; [|done]. injection Hrun as <- <-.
    eapply foldi_nothing in Ef. rewrite (given_ext e parents (fun _ => [])) in Ef; [exact Ef|].
    intros w Hw. by rewrite (Hch w Hw), (no_keys _ _ _ Ek Ets w Hw). }
  rewrite <- Ets in Hrun. clear Ets t0 ts.
  destruct (q_withOptions (n_query node) (e_options e) (key_columns ck) (probe_limit e)) as [probe|] eqn:Epr; [|done].
  destruct (q_compile probe) as [compiled|]; [|done].
  set (budget := bind_budget executor e) in *. set (size := Z.quot _ _) in Hrun.
  destruct ((budget <=? Z.of_nat (Slots compiled))%Z || (size =? 0)%Z) eqn:Eb; [done|].
  destruct (foldi _ 0 _ (∅, st)) as [[m st1]|] eqn:El; [|done]. cbn [fst snd] in Hrun.
  apply orb_false_iff in Eb as [Eb1 Eb2]. apply Z.leb_gt in Eb1. apply Z.eqb_neq in Eb2.
  assert (0 < Z.to_nat size) as Hsize.
  { pose proof (quot_nonneg (budget - Z.of_nat (Slots compiled)) (length ck)) as Hq. fold size in Hq. lia. }
  assert (forall q, typed_rows (rows_of q) (key_of pk)) as Htpk by (intros q; apply (el_typed _ Hlaws); by left).
  assert (forall q, typed_rows (rows_of q) (key_of ck)) as Htck by (intros q; apply (el_typed _ Hlaws); by right).
  destruct (keys_good _ _ _ Ek Hp Htpk) as (Hgood & Hwid & Hnd).
  rewrite (el_direct _ Hlaws Hkind _ _ Epk Eck) in Hgood, Hwid.
  pose proof (batches_concat (length (k_tuples ks)) (Z.to_nat size) (k_tuples ks) Hsize (le_n _)) as Hcat.
  eapply load_children_ok with (all := []) in El as [Hg Hs];
    [|exact Epr|eapply bind_key_nonempty; exact Eb2|by apply (el_compares _ Hlaws)|by rewrite Hcat|split; [done|constructor]].
  eapply foldi_attached with (rows := fun w => children e (w_row w)) in Hrun as (new & -> & Ha).
  - rewrite (combine_parents _ _ _ Ek) in Ha. by eapply attached_same.
  - intros w k s0 next' st2 (Ht & Hw & Hk)%(parent_key _ _ _ _ _ Ek) Hatt. cbn [fst snd] in Hatt.
    apply attach_children_ok in Hatt as (new & -> & Ha). exists new. split; [done|].
    enough (parent_rows m k = children e (w_row w)) as <- by done. rewrite (Hch w Hw). unfold parent_rows.
    destruct k as [t|]; [|by rewrite (Tuple_no_key _ _ Ht)]. destruct (Tuple_key_of _ _ _ Ht) as (-> & _).
    assert (good_tuple (length ck) t) as Hgt.
    { rewrite <- (el_direct _ Hlaws Hkind _ _ Epk Eck). destruct (proj1 (Forall_forall _ _) Hp w Hw) as [q Hq]. by eapply row_good. }
    destruct (requested_tuple _ _ _ Hgood Hgt (keys_requested _ _ _ _ Ek Hk)) as (t' & Hin & <- & <-).
    unfold probe_rows. rewrite Epr. rewrite <- (grouped_rows _ _ _ _ _ _ _ Hg); [done|done|by rewrite Hcat..].
Qed.

(** ** Many-through *)
Record pair_of (jp jc : list (PartSpec Row)) (values : list go_any) (pt : tuple * tuple) : Prop := {
  pair_parent : values_key 0 jp values = Some (values_of pt.1);
  pair_target : values_key (length jp) jc values = Some (values_of pt.2);
  pair_parent_wf : tuple_wf (length jp) pt.1;
  pair_target_wf : tuple_wf (length jc) pt.2 }.
Lemma junction_keys_ok jp jc path requested values pt :
  junction_keys enc jp jc path requested values = Ok pt -> pair_of jp jc values pt.
Proof.
  unfold junction_keys. destruct (graphTupleValues jp _) as [[p|]|] eqn:Ep; [|done..].
  case_bool_decide; [|done]. simpl. destruct (graphTupleValues jc _) as [[t|]|] eqn:Et; [|done..]. intros [= <-].
  apply (graphTupleValues_key _ 0 values) in Ep as [Hp Hpw]; [|by intros i v [Hi _]%lookup_take_Some].
  apply (graphTupleValues_key _ (length jp) values) in Et as [Ht Htw]; [|intros i v; by rewrite lookup_drop].
  by split.
Qed.
Record junction_inv (j : junctions) (pairs : list (tuple * tuple)) : Prop := {
  ji_by : forall id, default [] (byParent j !! id) = nub_by Identity (snd <$> filter (fun pt => Identity pt.1 = id) pairs);
  ji_order : targetOrder j = nub_by Identity (snd <$> pairs);
  ji_seen : targetSeen j = list_to_set (Identity <$> targetOrder j) }.
Lemma existsb_identity ts t :
  existsb (fun p => String.eqb (Identity p) (Identity t)) ts = bool_decide (Identity t ∈ Identity <$> ts).
Proof.
  apply eq_true_iff_eq. rewrite bool_decide_eq_true, existsb_exists, list_elem_of_fmap.
  setoid_rewrite String.eqb_eq. setoid_rewrite list_elem_of_In. split; intros (x & H1 & H2); by exists x.
Qed.
Lemma add_junction_ok path requested pt j j' pairs :
  junction_inv j pairs -> add_junction path requested pt j = Ok j' -> junction_inv j' (pairs ++ [pt]).
Proof.
  intros [Hb Ho Hs]. destruct pt as [p t]. unfold add_junction.
  destruct (length (Components p) =? 0); [done|]. destruct (negb _); [done|]. destruct (length (Components t) =? 0); [done|].
  rewrite existsb_identity. set (prior := default [] (byParent j !! Identity p)).
  assert (prior = nub_by Identity (snd <$> filter (fun pt => Identity pt.1 = Identity p) pairs)) as Hprior by apply Hb.
  assert (forall id, nub_by Identity (snd <$> filter (fun pt => Identity pt.1 = id) (pairs ++ [(p, t)])) =
    if decide (Identity p = id) then nub_add Identity prior t else nub_by Identity (snd <$> filter (fun pt => Identity pt.1 = id) pairs)) as Hnew.
  { intros i. rewrite filter_app, filter_cons, filter_nil. simpl. destruct (decide (Identity p = i)) as [<-|].
    - rewrite fmap_app. simpl. by rewrite nub_by_snoc, <- Hprior.
    - by rewrite app_nil_r. }
  assert (nub_by Identity (snd <$> (pairs ++ [(p, t)])) = nub_add Identity (targetOrder j) t) as Hall.
  { rewrite fmap_app. simpl. by rewrite nub_by_snoc, <- Ho. }
  case_bool_decide as Hin; intros [= <-].
  - assert (Identity t ∈ Identity <$> targetOrder j) as Hin'.
    { rewrite Ho, nub_by_mem. rewrite Hprior, nub_by_mem in Hin. clear -Hin.
      apply list_elem_of_fmap in Hin as (u & -> & (pu & -> & [_ Hpu]%list_elem_of_filter)%list_elem_of_fmap).
      apply list_elem_of_fmap. exists pu.2. split; [done|]. apply list_elem_of_fmap. by exists pu. }
    split.
    + intros i. rewrite Hnew. destruct (decide (Identity p = i)) as [<-|]; [|apply Hb].
      unfold nub_add. by rewrite bool_decide_true.
    + rewrite Hall. unfold nub_add. by rewrite bool_decide_true.
    + done.
  - split; simpl.
    + intros i. rewrite Hnew. destruct (decide (Identity p = i)) as [<-|Hne].
      * rewrite lookup_insert_eq. unfold nub_add. by rewrite bool_decide_false.
      * rewrite lookup_insert_ne by done. apply Hb.
    + rewrite Hall, Hs. unfold nub_add. by rewrite (bool_decide_ext _ _ (elem_of_list_to_set (C := gset string) _ _)).
    + rewrite Hs. apply seen_snoc.
Qed.
Definition junctions_ok (jp jc : list (PartSpec Row)) (j : junctions) (all : list (list go_any)) : Prop :=
  exists pairs, Forall2 (pair_of jp jc) all pairs /\ junction_inv j pairs.
Lemma load_junctions_ok plan options columns limit base jp jc budget path requested bs m st m' st' all :
  q_withOptions plan options columns limit = Ok base -> jp <> [] ->
  Forall2 (compares adopt jtruth (junction_rows_of base)) jp (value_readers 0 jp) ->
  Forall (of_width (length jp)) (concat bs) -> junctions_ok jp jc m all ->
  foldi (fun _ => load_junction_batch Slots adopt executor enc plan base jp jc budget path requested) 0 bs (m, st) = Ok (m', st') ->
  junctions_ok jp jc m' (all ++ flat_map (batch_rows junction_rows_of base (value_readers 0 jp)) bs) /\ same_heap st st'.
Proof.
  intros Hb Hne Hcmp Hw Hg. eapply load_batches_ok with (key := jp); [|done|exact Hg].
  clear m st m' st' all Hg Hw bs. intros b m st m' st' all Hw (pairs & Hpairs & Hj). unfold load_junction_batch.
  destruct (run_batch _ _ _ _ _ _ _ _ _ _ _) as [[rs st1]|] eqn:Er; [|done].
  eapply run_batch_ok in Er as [-> Hs]; [|done..]. cbn [fst snd].
  destruct (foldi _ 0 _ []) as [keys|] eqn:Ek; [|done]. apply foldi_collected in Ek as (keys' & -> & Hkeys). simpl.
  destruct (foldi _ 0 keys' m) as [m1|] eqn:Ef; [|done]. intros [= <- <-]. split; [|done].
  exists (pairs ++ keys'). split.
  - apply Forall2_app; [done|]. eapply Forall2_impl; [exact Hkeys|]. intros values pt. apply junction_keys_ok.
  - clear -Hj Ef. revert m pairs Hj Ef. induction keys' as [|pt keys IH]; intros m pairs Hj.
    { simpl. intros [= <-]. by rewrite app_nil_r. }
    intros (m2 & H2 & Hr)%foldi_cons. eapply add_junction_ok in H2; [|exact Hj].
    eapply IH in Hr; [|exact H2]. by rewrite <- app_assoc in Hr.
Qed.

Lemma value_readers_length offset (key : list (PartSpec Row)) : length (value_readers offset key) = length key.
Proof. revert offset. induction key as [|part key IH]; intros offset; simpl; [done|]. by rewrite IH. Qed.
Section Through.
Variables (e : edge) (jp jc : list (PartSpec Row)) (base : JQ) (bs : list (list tuple)) (j : junctions).
Abbreviation all := (flat_map (batch_rows junction_rows_of base (value_readers 0 jp)) bs).
Hypothesis Hj : junctions_ok jp jc j all.
Hypothesis Hjp : typed_rows (junction_rows_of base) (values_key 0 jp).
Hypothesis Hjc : typed_rows (junction_rows_of base) (values_key (length jp) jc).
Hypothesis Hgood : Forall (good_tuple (length jp)) (concat bs).
Hypothesis Hnd : NoDup (Identity <$> concat bs).

Lemma junction_pairs : exists pairs, junction_inv j pairs /\ Forall2 (pair_of jp jc) all pairs /\
  Forall (fun pt => good_tuple (length jp) pt.1 /\ good_tuple (length jc) pt.2 /\ of_width (length jc) pt.2) pairs.
Proof.
  destruct Hj as (pairs & Hp & Hi). exists pairs. split_and!; [done..|]. apply Forall_forall. intros pt [i Hpt]%list_elem_of_lookup.
  destruct (Forall2_lookup_r _ _ _ _ _ Hp Hpt) as (values & Hv & [H1 H2 H3 H4]).
  apply list_elem_of_lookup_2 in Hv. unfold batch_rows in Hv. rewrite batch_rows_flat in Hv. apply fetched_sub in Hv.
  split_and!; [split; [done|by eapply Hjp]|split; [done|by eapply Hjc]|].
  apply reads_Some_length in H2. unfold of_width, values_of in *. rewrite length_fmap in H2. rewrite H2. apply value_readers_length.
Qed.
Lemma junction_orders : Forall (good_tuple (length jc)) (targetOrder j) /\ Forall (of_width (length jc)) (targetOrder j) /\
  NoDup (Identity <$> targetOrder j) /\
  forall id t, t ∈ default [] (byParent j !! id) -> good_tuple (length jc) t /\ Identity t ∈ Identity <$> targetOrder j.
Proof.
  destruct junction_pairs as (pairs & [Hb Ho Hs] & Hp & Hg).
  assert (Forall (good_tuple (length jc)) (snd <$> pairs)) as Hgs.
  { apply Forall_fmap. eapply Forall_impl; [exact Hg|]. by intros ? (_ & ? & _). }
  assert (Forall (of_width (length jc)) (snd <$> pairs)) as Hgw.
  { apply Forall_fmap. eapply Forall_impl; [exact Hg|]. by intros ? (_ & _ & ?). }
  rewrite Ho. split_and!.
  - apply Forall_forall. intros t Ht%nub_by_sub. by eapply (proj1 (Forall_forall _ _)).
  - apply Forall_forall. intros t Ht%nub_by_sub. by eapply (proj1 (Forall_forall _ _)).
  - apply nub_by_NoDup.
  - intros i t. rewrite Hb. intros (pt & -> & [_ Hin]%list_elem_of_filter)%nub_by_sub%list_elem_of_fmap.
    assert (pt.2 ∈ snd <$> pairs) as Hin2 by (apply list_elem_of_fmap; by exists pt).
    split; [by eapply (proj1 (Forall_forall _ _))|]. rewrite nub_by_mem. by apply list_elem_of_fmap_2.
Qed.
Lemma junction_values t : t ∈ concat bs ->
  values_of <$> default [] (byParent j !! Identity t) =
  nub_by id (omap (values_key (length jp) jc) (filter (fun r => values_key 0 jp r = Some (values_of t)) (junction_rows_of base))).
Proof.
  intros Hin. destruct junction_pairs as (pairs & [Hb Ho Hs] & Hp & Hg). rewrite Hb.
  assert (good_tuple (length jp) t) as Hgt by by eapply (proj1 (Forall_forall _ _)).
  rewrite (nub_by_fmap values_of Identity id).
  - f_equal. unfold values_key. rewrite <- (regroup (reads (value_readers 0 jp)) (junction_rows_of base) (map values_of <$> bs) (values_of t));
      [|rewrite concat_fmap; by eapply values_NoDup|rewrite concat_fmap; by apply list_elem_of_fmap_2].
    rewrite <- batch_rows_flat. change (flat_map _ bs) with all. clear Hb Ho Hs. revert Hp Hg. generalize all as rows.
    induction 1 as [|values pt rows pairs' [H1 H2 _ _] Hp' IH]; intros Hg; [done|].
    inversion Hg as [|? ? (Hgp & _) Hg']; subst. rewrite !filter_cons. specialize (IH Hg').
    unfold values_key in H1, H2. rewrite H1.
    assert (Identity pt.1 = Identity t <-> Some (values_of pt.1) = Some (values_of t)) as Hiff.
    { rewrite (good_identity (length jp)) by done. split; congruence. }
    destruct (decide (Identity pt.1 = Identity t)), (decide (Some (values_of pt.1) = Some (values_of t))); try tauto.
    cbn [fmap list_fmap omap list_omap]. rewrite H2. f_equal. exact IH.
  - intros x y (px & -> & [_ Hx]%list_elem_of_filter)%list_elem_of_fmap (py & -> & [_ Hy]%list_elem_of_filter)%list_elem_of_fmap.
    apply (good_identity (length jc)); [by destruct (proj1 (Forall_forall _ _) Hg px Hx) as (_ & ? & _)|by destruct (proj1 (Forall_forall _ _) Hg py Hy) as (_ & ? & _)].
Qed.
End Through.

(** The targets loaded for the junctions' keys. *)
Lemma load_targets_ok node ck budget path j st m st' width :
  load_targets Slots adopt executor enc (n_query node) ck budget path j st = Ok (m, st') ->
  length ck = width -> Forall (of_width width) (targetOrder j) -> Forall (good_tuple width) (targetOrder j) -> NoDup (Identity <$> targetOrder j) ->
  (forall q, typed_rows (rows_of q) (key_of ck)) -> (forall q, Forall2 (compares adopt truth (rows_of q)) ck (readers ck)) ->
  same_heap st st' /\
  forall t, good_tuple width t -> Identity t ∈ Identity <$> targetOrder j ->
    m !! Identity t = head (filter (fun r => key_of ck r = Some (values_of t)) (target_rows node ck)).
Proof.
  intros Hrun Hw Hwid Hgood Hnd Hty Hcmp. unfold load_targets in Hrun.
  destruct (targetOrder j) as [|t0 ts] eqn:Ets.
  { injection Hrun as <- <-. split; [done|]. intros t _ Hin. by apply elem_of_nil in Hin. }
  rewrite <- Ets in *. clear Ets t0 ts.
  destruct (q_withOptions (n_query node) no_options (key_columns ck) 0) as [base|] eqn:Eb; [|done].
  destruct (q_compile base) as [compiled|]; [|done]. set (size := batch_size _ _ _) in *.
  destruct (Z.leb_spec size 0) as [|Hpos]; [done|].
  pose proof (batches_concat (length (targetOrder j)) (Z.to_nat size) (targetOrder j) ltac:(lia) (le_n _)) as Hcat.
  assert (ck <> []) as Hne by (apply (bind_key_nonempty (budget - Z.of_nat (Slots compiled))); unfold size, batch_size in Hpos; lia).
  eapply load_batches_ok with (key := ck) (P := grouped enc ck target_view (targetSeen j)) (all := [])
    (rows_of := rows_of) (base := base) (rds := readers ck) in Hrun as [Hg Hs]; [| |rewrite Hcat|split; [done|constructor]].
  - split; [done|]. intros t Hgt Hin. destruct (requested_tuple _ _ _ Hgood Hgt Hin) as (t' & Hin' & <- & <-).
    unfold target_rows. rewrite Eb. simpl in Hg. rewrite <- Hw in Hgood.
    eapply (grouped_rows target_view) in Hg; [|apply Hty|by rewrite Hcat..]. rewrite <- Hg.
    unfold target_view. by destruct (m !! Identity t').
  - intros b m1 st1 m2 st2 all Hwb Hgb. unfold load_target_batch.
    destruct (run_batch _ _ _ _ _ _ _ _ _ _ _) as [[rs st3]|] eqn:Er; [|done].
    eapply run_batch_ok in Er as [-> Hs]; [|done..]. cbn [fst snd].
    destruct (foldi _ 0 _ m1) as [m3|] eqn:Ef; [|done]. intros [= <- <-]. split; [|done].
    eapply foldi_grouped in Ef; [exact Ef| |exact Hgb]. apply add_target_ok.
  - by rewrite Hw.
Qed.

Lemma parent_targets_ok path filtered (targets : gmap string Row) ts rows :
  parent_targets path filtered targets ts = Ok rows -> rows = omap (fun t => targets !! Identity t) ts.
Proof.
  unfold parent_targets. intros Hrun. assert (forall acc, foldi (fun _ t acc =>
    match targets !! Identity t with Some row => Ok (acc ++ [row]) | None => if negb filtered then Err (foreign path "junction target is missing") else Ok acc end) 0 ts acc = Ok rows ->
    rows = acc ++ omap (fun t => targets !! Identity t) ts) as Hgo; [|by apply (Hgo [])].
  clear Hrun. induction ts as [|t ts IH]; intros acc.
  { simpl. intros [= <-]. by rewrite app_nil_r. }
  intros (acc' & Ha & Hr)%foldi_cons. apply IH in Hr as ->. cbn [omap list_omap].
  destruct (targets !! Identity t) as [row|]; [|destruct filtered; [|done]]; injection Ha as <-; [by rewrite <- app_assoc|done].
Qed.
Lemma omap_values_ext {A B K} (g : A -> K) (f : A -> option B) (h : K -> option B) (l : list A) :
  (forall x, x ∈ l -> f x = h (g x)) -> omap f l = omap h (g <$> l).
Proof.
  induction l as [|x l IH]; intros Hf; [done|]. rewrite fmap_cons. cbn [omap list_omap].
  rewrite <- (Hf x), <- IH; [done|intros; apply Hf; by constructor|by constructor].
Qed.

Lemma executeManyThrough_ok e parents st next st' :
  e_kind e = graphManyThrough -> edge_laws e -> Forall (fun w => from_db (w_row w)) parents ->
  executeManyThrough Slots graphJunctionQuery adopt store executor e parents st = Ok (next, st') -> edge_done e parents st st' next.
Proof.
  intros Hkind Hlaws Hp. unfold executeManyThrough.
  destruct (e_child e) as [child|] eqn:Ec; [|done]. destruct (Some child ≫= (store !!.)) as [node|] eqn:En; [|done].
  destruct (parentKey e) as [pk|] eqn:Epk; [|done]. destruct (childKey e) as [ck|] eqn:Eck; [|done].
  destruct (junctionParent e) as [jp|] eqn:Ejp; [|done]. destruct (junctionChild e) as [jc|] eqn:Ejc; [|done].
  destruct (e_attach e) as [ops|] eqn:Eo; [|done]. unfold codecs. rewrite Henc.
  destruct (collect_keys enc pk parents) as [ks|] eqn:Ek; [|done]. apply collect_keys_ok in Ek.
  assert (forall w, w ∈ parents -> children e (w_row w) =
    match key_of pk (w_row w) with None => [] | Some vs =>
      omap (fun target => head (filter (fun r => key_of ck r = Some target) (target_rows node ck))) (junction_targets e jp jc vs) end) as Hch.
  { intros w _. unfold children, through_children, edge_node. by rewrite Hkind, Ec, En, Epk, Eck, Ejp, Ejc. }
  intros Hrun. exists child, node, ops. split_and!; [done..|].
  destruct (k_tuples ks) as [|t0 ts] eqn:Ets.
  { destruct (foldi _ 0 parents st) as [st1|] eqn:Ef; [|done]. injection Hrun as <- <-.
    eapply foldi_nothing in Ef. rewrite (given_ext e parents (fun _ => [])) in Ef; [exact Ef|].
    intros w Hw. by rewrite (Hch w Hw), (no_keys _ _ _ Ek Ets w Hw). }
  rewrite <- Ets in Hrun. clear Ets t0 ts.
  destruct (graphJunctionQuery (junction e) jp jc) as [plan|] eqn:Eplan; [|done].
  destruct (q_withOptions plan (e_options e) (key_columns jp) (PerParentLimit_ (e_options e))) as [base|] eqn:Ebase; [|done].
  destruct (q_compile base) as [compiled|]; [|done].
  set (budget := bind_budget executor e) in *. set (size := batch_size _ _ _) in Hrun.
  destruct (Z.leb_spec size 0) as [|Hpos]; [done|].
  destruct (foldi _ 0 _ (MkJunctions ∅ [] ∅, st)) as [[j st1]|] eqn:Ej; [|done]. cbn [fst snd] in Hrun.
  destruct (load_targets _ _ _ _ _ _ _ _ j st1) as [[m st2]|] eqn:Et; [|done]. cbn [fst snd] in Hrun.
  destruct (el_through _ Hlaws Hkind _ _ _ _ Epk Eck Ejp Ejc) as [Hwp Hwc].
  assert (forall q, typed_rows (rows_of q) (key_of pk)) as Htpk by (intros q; apply (el_typed _ Hlaws); by left).
  assert (forall q, typed_rows (rows_of q) (key_of ck)) as Htck by (intros q; apply (el_typed _ Hlaws); by right).
  destruct (el_jtyped _ Hlaws jp jc base Ejp Ejc) as [Htjp Htjc].
  destruct (keys_good _ _ _ Ek Hp Htpk) as (Hgood & Hwid & Hnd). rewrite Hwp in Hgood, Hwid.
  pose proof (batches_concat (length (k_tuples ks)) (Z.to_nat size) (k_tuples ks) ltac:(lia) (le_n _)) as Hcat.
  assert (jp <> []) as Hne by (apply (bind_key_nonempty (budget - Z.of_nat (Slots compiled))); unfold size, batch_size in Hpos; lia).
  eapply load_junctions_ok with (all := []) in Ej as [Hj Hs1];
    [|exact Ebase|exact Hne|by apply (el_jcompares _ Hlaws)|by rewrite Hcat|exists []; split; [constructor|done]]. simpl in Hj.
  destruct (junction_orders jp jc base _ j Hj Htjp Htjc) as (Hgt & Hwt & Hndt & Hby).
  eapply load_targets_ok in Et as [Hs2 Hm]; [|exact Hwc|exact Hwt|exact Hgt|exact Hndt|exact Htck|intros; by apply (el_compares _ Hlaws)].
  assert (same_heap st st2) as Hs by (destruct Hs1, Hs2; split; congruence).
  eapply foldi_attached with (f := fun pk => attach_targets ops _ child node j m pk.1 pk.2) (rows := fun w => children e (w_row w)) in Hrun as (new & -> & Ha).
  - rewrite (combine_parents _ _ _ Ek) in Ha. by eapply attached_same.
  - intros w k s0 next' st3 (Ht & Hw & Hk)%(parent_key _ _ _ _ _ Ek) Hatt. cbn [fst snd] in Hatt. unfold attach_targets in Hatt.
    rewrite (Hch w Hw). destruct k as [t|].
    + destruct (parent_targets _ _ _ _) as [rows|] eqn:Er; [|done]. apply parent_targets_ok in Er as ->.
      apply attach_children_ok in Hatt as (new & -> & Ha). exists new. split; [done|].
      destruct (Tuple_key_of _ _ _ Ht) as (-> & _).
      assert (good_tuple (length jp) t) as Hgt'.
      { rewrite <- Hwp. destruct (proj1 (Forall_forall _ _) Hp w Hw) as [q Hq]. by eapply row_good. }
      destruct (requested_tuple _ _ _ Hgood Hgt' (keys_requested _ _ _ _ Ek Hk)) as (t' & Hin & Eid & Ev).
      enough (omap (fun t => m !! Identity t) (default [] (byParent j !! Identity t)) =
              omap (fun target => head (filter (fun r => key_of ck r = Some target) (target_rows node ck))) (junction_targets e jp jc (values_of t))) as <- by done.
      unfold junction_targets, junction_rows. rewrite Eplan, Ebase, <- Ev, <- Eid.
      rewrite <- (junction_values jp jc base _ j Hj Htjp Htjc ltac:(by rewrite Hcat) ltac:(by rewrite Hcat) t' ltac:(by rewrite Hcat)).
      apply omap_values_ext. intros u [Hgu Hu]%Hby. by apply Hm.
    + destruct (attach_nothing _ _ _ _) as [st4|] eqn:En'; [|done]. injection Hatt as <- <-. exists []. rewrite app_nil_r.
      split; [done|]. rewrite (Tuple_no_key _ _ Ht). by eapply attach_nothing_ok.
Qed.

Lemma executeGraphEdge_ok e parents st next st' :
  edge_laws e -> Forall (fun w => from_db (w_row w)) parents ->
  executeGraphEdge Slots graphJunctionQuery adopt store executor e parents st = Ok (next, st') -> edge_done e parents st st' next.
Proof.
  intros Hlaws Hp. unfold executeGraphEdge. destruct (e_kind e) eqn:Ek.
  1,2: apply executeDirect_ok; [by rewrite Ek|done..].
  by apply executeManyThrough_ok.
Qed.
End Edges.
