(* ===== verification/GraphSound.v ===== *)
(** * GraphSound: a load returns the graphs its plan describes

    The reference is [graph_of]: a row's graph is the row mapped and then, for
    every edge of its node in order, handed the graphs of the edge's
    [children] of the row.  [LoadGraph] gets there by levels, batches, cells
    and deferred callbacks; [LoadGraph_graphs] is the equality. *)

From S2P Require Import Prelude GoText EngineProfile Query QueryWrite CursorCodec Page Typed GraphKey Graph GraphValid GraphLoad GraphBatch GraphEdges.
Open Scope string_scope.
Open Scope list_scope.
Open Scope nat_scope.

(** ** The order the callbacks run in *)
Section Callbacks.
Context {V : Type}.
Implicit Types d : graphDeferred (V := V).

Lemma insert_deferred_after d (deep level : list (graphDeferred (V := V))) :
  Forall (fun d' => df_depth d < df_depth d') deep -> Forall (fun d' => df_depth d' = df_depth d) level ->
  insert_deferred d (deep ++ level) = deep ++ d :: level.
Proof.
  intros Hd Hl. induction Hd as [|d' deep Hlt Hd IH]; simpl.
  - destruct Hl as [|d' level Heq Hl]; simpl; [done|]. destruct (Nat.ltb_spec (df_depth d) (df_depth d')); [lia|done].
  - destruct (Nat.ltb_spec (df_depth d) (df_depth d')); [|lia]. by rewrite IH.
Qed.
Lemma insert_deferred_elem d (l : list (graphDeferred (V := V))) x : x ∈ insert_deferred d l <-> x = d \/ x ∈ l.
Proof.
  induction l as [|d' l IH]; simpl; [set_solver|]. destruct (df_depth d <? df_depth d'); set_solver.
Qed.
Lemma sort_deferred_elem (l : list (graphDeferred (V := V))) x : x ∈ sort_deferred l <-> x ∈ l.
Proof. induction l as [|d l IH]; simpl; [done|]. rewrite insert_deferred_elem. set_solver. Qed.
(** A level's callbacks run after everything deeper, in their order. *)
Lemma sort_deferred_level n (level deep : list (graphDeferred (V := V))) :
  Forall (fun d => df_depth d = n) level -> Forall (fun d => n < df_depth d) deep ->
  sort_deferred (level ++ deep) = sort_deferred deep ++ level.
Proof.
  intros Hl Hd. induction Hl as [|d level Hn Hl IH]; simpl; [by rewrite app_nil_r|].
  fold (sort_deferred (level ++ deep)). rewrite IH. apply insert_deferred_after.
  - apply Forall_forall. intros x. rewrite sort_deferred_elem, Hn. by apply (proj1 (Forall_forall _ _) Hd).
  - rewrite Hn. done.
Qed.

(** ** Running callbacks whose children are not parents *)
Definition given_children (h : list V) (v : V) d : V := apply_attach (df_attach d) v (omap (h !!.) (df_children d)).
Lemma fold_left_ext_in {A B} (f g : B -> A -> B) l b : (forall b x, x ∈ l -> f b x = g b x) -> fold_left f l b = fold_left g l b.
Proof.
  revert b. induction l as [|x l IH]; intros b Hf; simpl; [done|]. rewrite Hf by by left.
  apply IH. intros b' y Hy. apply Hf. by right.
Qed.
Lemma omap_lookup_ext (h h' : list V) (l : list nat) : (forall i, i ∈ l -> h !! i = h' !! i) -> omap (h !!.) l = omap (h' !!.) l.
Proof.
  induction l as [|i l IH]; intros Hi; [done|]. cbn [omap list_omap]. rewrite (Hi i) by constructor.
  by rewrite IH by (intros; apply Hi; by constructor).
Qed.
Lemma run_deferreds_lookup ds (h : list V) c :
  (forall d d' p, d ∈ ds -> d' ∈ ds -> p ∈ df_children d -> p <> df_parent d') ->
  fold_left run_deferred ds h !! c = (fun v => fold_left (given_children h) (filter (fun d => df_parent d = c) ds) v) <$> (h !! c).
Proof.
  revert h. induction ds as [|d ds IH]; intros h Hdis; simpl; [by destruct (h !! c)|].
  rewrite IH by (intros d1 d2 p H1 H2; apply (Hdis d1 d2 p); by right).
  assert (forall v d', d' ∈ ds -> given_children (run_deferred h d) v d' = given_children h v d') as Hsame.
  { intros v d' Hd'. unfold given_children. f_equal. apply omap_lookup_ext. intros i Hi. unfold run_deferred.
    rewrite list_lookup_alter_ne; [done|]. intros E. eapply (Hdis d' d i); [by right|by left|done|done]. }
  assert (forall v, fold_left (given_children (run_deferred h d)) (filter (fun d => df_parent d = c) ds) v =
                    fold_left (given_children h) (filter (fun d => df_parent d = c) ds) v) as Hfold.
  { assert (forall x, x ∈ filter (fun d => df_parent d = c) ds -> x ∈ ds) as Hsub by (intros x [_ ?]%list_elem_of_filter; done).
    intros v. apply fold_left_ext_in. intros u x Hx. by apply Hsame, Hsub. }
  assert (run_deferred h d !! c = (fun v => if decide (df_parent d = c) then given_children h v d else v) <$> (h !! c)) as ->.
  { unfold run_deferred. destruct (decide (df_parent d = c)) as [<-|Hne]; [by rewrite list_lookup_alter_eq|].
    rewrite list_lookup_alter_ne by done. by destruct (h !! c). }
  rewrite filter_cons. destruct (h !! c) as [v|]; simpl; [|done]. rewrite Hfold. by destruct (decide (df_parent d = c)).
Qed.
End Callbacks.

Section Sound.
Context {Row V Q C JQ : Type} `{!QueryOps Q Row C} `{!QueryOps JQ (list go_any) C}.
Variable Slots : C -> nat.
Variable graphJunctionQuery : relation -> list (PartSpec Row) -> list (PartSpec Row) -> result JQ.
Variable adopt : driver_value -> result any.
Variable store : plan_store Row V Q.
Variable executor : Executor.
Variable enc : Encoder.
Hypothesis Henc : x_codecs executor = Ok enc.
Variable rows_of : Q -> list Row.
Variable junction_rows_of : JQ -> list (list go_any).
Variable truth : Row -> expression -> bool.
Variable jtruth : list go_any -> expression -> bool.
Hypothesis Hans : answers (C := C) truth rows_of.
Hypothesis Hjans : answers (C := C) jtruth junction_rows_of.
Hypothesis Hcon : connectives truth.
Hypothesis Hjcon : connectives jtruth.

Abbreviation edge := (graphEdgeSpec Row V).
Abbreviation work := (graphWork (Row := Row)).
Abbreviation children := (children graphJunctionQuery store enc rows_of junction_rows_of).
Implicit Types st : lstate (V := V).
Implicit Types w : work.

(** ** The specification *)
Fixpoint graph_of (fuel : nat) (n : node_ptr) (row : Row) : option V :=
  match fuel with
  | 0 => None
  | S fuel' =>
      node ← store !! n;
      fold_left (fun graph (e : edge) =>
        v ← graph; child ← e_child e; ops ← e_attach e;
        vs ← mapM (graph_of fuel' child) (children e row);
        Some (apply_attach ops v vs)) (omap id (n_edges node)) (Some (n_mapRow node row))
  end.

(** Every edge of the store obeys the laws, and belongs to one node. *)
Definition store_edge (e : edge) : Prop := exists n node, store !! n = Some node /\ Some e ∈ n_edges node.
Hypothesis Hlaws : forall e, store_edge e -> edge_laws adopt enc rows_of junction_rows_of truth jtruth e.
Definition edges_owned : Prop := forall n n' node node' i j e e',
  store !! n = Some node -> store !! n' = Some node' -> n_edges node !! i = Some (Some e) -> n_edges node' !! j = Some (Some e') ->
  e_ptr e = e_ptr e' -> n = n' /\ i = j.
Hypothesis Hown : edges_owned.

(** ** [planEdges] *)
Abbreviation ework := (edge_work (Row := Row) (V := V)).
Abbreviation ptr ew := (e_ptr (ew_edge ew)).
Abbreviation eptr := (fun e : edge => e_ptr e).
Lemma item_edges_store w e : e ∈ item_edges store w -> store_edge e.
Proof.
  unfold item_edges. destruct (store !! w_node w) as [node|] eqn:En; [|by intros ?%elem_of_nil].
  intros (o & Ho & Eo)%list_elem_of_omap. cbv [id] in Eo. subst o. by exists (w_node w), node.
Qed.
Lemma omap_id_lookup {A} (l : list (option A)) x : x ∈ omap id l -> exists i, l !! i = Some (Some x).
Proof. intros (o & Ho & Eo)%list_elem_of_omap. cbv [id] in Eo. subst o. by apply list_elem_of_lookup. Qed.
Lemma same_edge w w' e e' : e ∈ item_edges store w -> e' ∈ item_edges store w' -> e_ptr e = e_ptr e' -> w_node w = w_node w' /\ e = e'.
Proof.
  unfold item_edges. destruct (store !! w_node w) as [node|] eqn:En; [|by intros ?%elem_of_nil].
  destruct (store !! w_node w') as [node'|] eqn:En'; [|by intros _ ?%elem_of_nil].
  intros [i Hi]%omap_id_lookup [j Hj]%omap_id_lookup E. destruct (Hown _ _ _ _ _ _ _ _ En En' Hi Hj E) as [Hnode <-]. rewrite Hnode in En.
  split; [done|]. congruence.
Qed.
Lemma item_edges_NoDup w : NoDup (eptr <$> item_edges store w).
Proof.
  unfold item_edges. destruct (store !! w_node w) as [node|] eqn:En; [|constructor].
  assert (forall k l, (forall i o, l !! i = Some o -> n_edges node !! (k + i) = Some o) -> NoDup (eptr <$> omap id l)) as Hgo.
  { intros k l. revert k. induction l as [|o l IH]; intros k Hl; [constructor|].
    assert (NoDup (eptr <$> omap id l)) as Hnd.
    { apply (IH (S k)). intros i o' Hi. rewrite Nat.add_succ_comm. by apply Hl. }
    destruct o as [e|]; [|done]. cbn [omap list_omap id]. rewrite fmap_cons. apply NoDup_cons. split; [|done].
    intros (e' & E & [i Hi]%omap_id_lookup)%list_elem_of_fmap.
    destruct (Hown _ _ _ _ _ _ _ _ En En (Hl 0 _ eq_refl) (Hl (S i) _ Hi) E). lia. }
  by apply (Hgo 0).
Qed.

Definition upd (es : list edge) (w : work) (ew : ework) : ework :=
  if decide (ptr ew ∈ eptr <$> es) then MkEdgeWork (ew_edge ew) (ew_parents ew ++ [w]) else ew.
Abbreviation ptrs result := (fmap (M := list) (fun ew : ework => ptr ew) result).
Lemma add_edge_old e w (l : list ework) : NoDup (ptrs l) -> e_ptr e ∈ ptrs l -> add_edge_work e w l = map (upd [e] w) l.
Proof.
  induction l as [|ew l IH]; simpl; [by intros _ ?%elem_of_nil|]. intros [Hn Hnd]%NoDup_cons Hin.
  unfold upd at 1. case_bool_decide as E.
  - rewrite decide_True by (rewrite E; by left). f_equal. clear -Hn E.
    induction l as [|x l IH]; simpl; [done|]. rewrite fmap_cons in Hn. apply not_elem_of_cons in Hn as [Hx Hn].
    rewrite <- IH by done. unfold upd. rewrite decide_False; [done|]. intros [?|?%elem_of_nil]%elem_of_cons; [congruence|done].
  - rewrite decide_False by (intros [?|?%elem_of_nil]%elem_of_cons; [done|done]). f_equal. apply IH; [done|].
    apply elem_of_cons in Hin as [Hin|Hin]; [by rewrite Hin in E|done].
Qed.
Lemma add_edge_new e w (l : list ework) : e_ptr e ∉ ptrs l -> add_edge_work e w l = l ++ [MkEdgeWork e [w]].
Proof.
  induction l as [|ew l IH]; simpl; [done|]. intros [Hn Hl]%not_elem_of_cons.
  rewrite bool_decide_false by congruence. by rewrite IH.
Qed.
Lemma upd_ptrs es w (l : list ework) : ptrs (map (upd es w) l) = ptrs l.
Proof. induction l as [|ew l IH]; [done|]. cbn [map]. rewrite !fmap_cons, IH. f_equal. unfold upd. by case_decide. Qed.
Lemma add_edges_old es w (l : list ework) : NoDup (ptrs l) -> NoDup (eptr <$> es) -> (forall e, e ∈ es -> e_ptr e ∈ ptrs l) ->
  fold_left (fun r e => add_edge_work e w r) es l = map (upd es w) l.
Proof.
  revert l. induction es as [|e es IH]; intros l Hl Hes Hin; simpl.
  - induction l as [|ew l IHl]; simpl; [done|]. apply NoDup_cons in Hl as [_ Hl]. rewrite <- IHl; [done|done|].
    intros e He. by apply elem_of_nil in He.
  - apply NoDup_cons in Hes as [Hne Hes]. rewrite add_edge_old by (done || (apply Hin; by left)).
    rewrite IH; [|by rewrite upd_ptrs|done|intros x Hx; rewrite upd_ptrs; apply Hin; by right].
    rewrite map_map. apply map_ext. intros ew. unfold upd at 2 3. 
    destruct (decide (ptr ew ∈ eptr <$> [e])) as [Hd|Hd].
    + rewrite decide_True by (rewrite fmap_cons; apply elem_of_cons; left; by apply list_elem_of_singleton in Hd).
      unfold upd. rewrite decide_False; [done|]. simpl. by apply list_elem_of_singleton in Hd as ->.
    + unfold upd. destruct (decide (ptr ew ∈ eptr <$> es)) as [Hx|Hx].
      * rewrite decide_True; [done|]. rewrite fmap_cons. by right.
      * rewrite decide_False; [done|]. rewrite fmap_cons. intros [E|?]%elem_of_cons; [|done].
        apply Hd. rewrite E. by left.
Qed.
Lemma add_edges_new es w (l : list ework) : NoDup (eptr <$> es) -> (forall e, e ∈ es -> e_ptr e ∉ ptrs l) ->
  fold_left (fun r e => add_edge_work e w r) es l = l ++ map (fun e => MkEdgeWork e [w]) es.
Proof.
  revert l. induction es as [|e es IH]; intros l Hes Hin; simpl; [by rewrite app_nil_r|].
  apply NoDup_cons in Hes as [Hne Hes]. rewrite add_edge_new by (apply Hin; by left).
  rewrite IH; [by rewrite <- app_assoc|done|]. intros x Hx. rewrite fmap_app. intros [H1|H1]%elem_of_app.
  - apply (Hin x); [by right|done].
  - apply list_elem_of_singleton in H1. cbn in H1. apply Hne. rewrite <- H1. apply list_elem_of_fmap. by exists x.
Qed.

(** Every item is under exactly its node's edges, in order. *)
Definition works_on (w : work) (ew : ework) : Prop := w_parent w ∈ w_parent <$> ew_parents ew.
#[local] Instance works_on_dec w ew : Decision (works_on w ew).
Proof. unfold works_on. apply _. Defined.
Record planned (items : list work) (ews : list ework) : Prop := {
  pl_ptrs : NoDup (ptrs ews);
  pl_edges : forall w, w ∈ items -> ew_edge <$> filter (works_on w) ews = item_edges store w;
  pl_parents : forall ew w, ew ∈ ews -> w ∈ ew_parents ew -> w ∈ items /\ ew_edge ew ∈ item_edges store w;
  pl_distinct : forall ew, ew ∈ ews -> NoDup (w_parent <$> ew_parents ew) /\ ew_parents ew <> [] }.
Definition cells_distinct (items : list work) : Prop := NoDup (w_parent <$> items).
Lemma cells_inj items w w' : cells_distinct items -> w ∈ items -> w' ∈ items -> w_parent w = w_parent w' -> w = w'.
Proof.
  unfold cells_distinct. intros Hn [i Hi]%list_elem_of_lookup [j Hj]%list_elem_of_lookup E.
  assert (i = j) as ->; [|congruence]. eapply NoDup_lookup; [exact Hn| |]; rewrite list_lookup_fmap; [by rewrite Hi|rewrite Hj; simpl; congruence].
Qed.

Section Snoc.
Variables (items : list work) (w : work) (ews : list ework).
Hypothesis Hd : cells_distinct (items ++ [w]).
Hypothesis Hp : planned items ews.
Lemma snoc_distinct : cells_distinct items.
Proof. unfold cells_distinct in *. rewrite fmap_app in Hd. by apply NoDup_app in Hd as (? & _). Qed.
Lemma snoc_fresh w' : w' ∈ items -> w_parent w' <> w_parent w.
Proof.
  unfold cells_distinct in Hd. rewrite fmap_app in Hd. apply NoDup_app in Hd as (_ & Hx & _). intros Hin E.
  apply (Hx (w_parent w')); [by apply list_elem_of_fmap_2|]. rewrite E. by left.
Qed.
Lemma snoc_not_under ew : ew ∈ ews -> ~ works_on w ew.
Proof.
  intros Hew (w' & E & Hin)%list_elem_of_fmap. destruct (pl_parents _ _ Hp _ _ Hew Hin) as [Hi _].
  by apply (snoc_fresh w' Hi).
Qed.

Definition own_works (es : list edge) : list ework := map (fun e => MkEdgeWork e [w]) es.
Lemma own_ptrs es : ptrs (own_works es) = eptr <$> es.
Proof. induction es as [|e es IH]; [done|]. cbn [own_works map]. rewrite !fmap_cons. by f_equal. Qed.
Lemma own_edges es : ew_edge <$> own_works es = es.
Proof. induction es as [|e es IH]; [done|]. cbn [own_works map]. rewrite !fmap_cons. by f_equal. Qed.
Lemma own_elem es ew : ew ∈ own_works es -> exists e, e ∈ es /\ ew = MkEdgeWork e [w].
Proof. intros (e & <- & He)%list_elem_of_In%in_map_iff. exists e. split; [by apply list_elem_of_In|done]. Qed.
Lemma list_filter_all {A} (P : A -> Prop) `{!forall x, Decision (P x)} (l : list A) : (forall x, x ∈ l -> P x) -> filter P l = l.
Proof.
  induction l as [|x l IH]; intros Hl; [done|]. rewrite filter_cons, decide_True by (apply Hl; by left).
  f_equal. apply IH. intros y Hy. apply Hl. by right.
Qed.

(** No earlier item has the node. *)
Lemma fresh_edges : w_node w ∉ w_node <$> items -> forall e, e ∈ item_edges store w -> e_ptr e ∉ ptrs ews.
Proof.
  intros Hnew e He (ew & E & Hew)%list_elem_of_fmap. destruct (pl_distinct _ _ Hp _ Hew) as [_ Hne].
  destruct (ew_parents ew) as [|w0 ws] eqn:Ews; [done|].
  destruct (pl_parents _ _ Hp ew w0 Hew ltac:(rewrite Ews; by left)) as [Hi Hin].
  destruct (same_edge _ _ _ _ He Hin E) as [Hnode _]. apply Hnew. rewrite Hnode. by apply list_elem_of_fmap_2.
Qed.
Lemma planned_new : w_node w ∉ w_node <$> items -> planned (items ++ [w]) (ews ++ own_works (item_edges store w)).
Proof.
  intros Hnew. pose proof (fresh_edges Hnew) as Hfresh. split.
  - rewrite fmap_app. apply NoDup_app. split_and!; [apply Hp| |rewrite own_ptrs; apply item_edges_NoDup].
    intros p Hpin (ew & -> & (e & He & ->)%own_elem)%list_elem_of_fmap. by apply (Hfresh e He).
  - intros w' Hw'. rewrite filter_app, fmap_app. apply elem_of_app in Hw' as [Hw'|Hw'].
    + rewrite (pl_edges _ _ Hp _ Hw'). rewrite (list_filter_none _ (own_works _)); [by rewrite app_nil_r|].
      intros ew (e & _ & ->)%own_elem Hon. unfold works_on in Hon. cbn in Hon. apply list_elem_of_singleton in Hon.
      by apply (snoc_fresh w' Hw').
    + apply list_elem_of_singleton in Hw' as ->. rewrite (list_filter_none _ ews) by apply snoc_not_under.
      rewrite list_filter_all; [by rewrite own_edges|]. intros ew (e & _ & ->)%own_elem. unfold works_on. cbn. by left.
  - intros ew w' [Hew|(e & He & ->)%own_elem]%elem_of_app Hin.
    + destruct (pl_parents _ _ Hp _ _ Hew Hin). split; [apply elem_of_app; by left|done].
    + apply list_elem_of_singleton in Hin as ->. split; [apply elem_of_app; right; by left|done].
  - intros ew [Hew|(e & He & ->)%own_elem]%elem_of_app; [by apply Hp|]. split; [apply NoDup_singleton|done].
Qed.

(** An earlier item has it. *)
Lemma planned_old w0 : w0 ∈ items -> w_node w0 = w_node w ->
  planned (items ++ [w]) (map (upd (item_edges store w) w) ews) /\ forall e, e ∈ item_edges store w -> e_ptr e ∈ ptrs ews.
Proof.
  intros Hw0 Hnode. set (es := item_edges store w). assert (item_edges store w0 = es) as Hes by (unfold es, item_edges; by rewrite Hnode).
  pose proof (pl_edges _ _ Hp _ Hw0) as He0. rewrite Hes in He0.
  assert (forall ew, ew ∈ ews -> ptr ew ∈ eptr <$> es <-> works_on w0 ew) as Hiff.
  { intros ew Hew. split.
    - rewrite <- He0. intros (e & E & (ew' & -> & [Hon Hew']%list_elem_of_filter)%list_elem_of_fmap)%list_elem_of_fmap.
      assert (ew = ew') as ->; [|done]. pose proof (pl_ptrs _ _ Hp) as Hnd.
      apply list_elem_of_lookup in Hew as [i Hi], Hew' as [j Hj].
      assert (i = j) as ->; [|congruence]. eapply NoDup_lookup; [exact Hnd| |]; rewrite list_lookup_fmap; [by rewrite Hi|rewrite Hj; simpl; congruence].
    - intros Hon. rewrite <- He0. apply list_elem_of_fmap. exists (ew_edge ew). split; [done|]. apply list_elem_of_fmap. exists ew.
      split; [done|]. by apply list_elem_of_filter. }
  assert (forall e, e ∈ es -> e_ptr e ∈ ptrs ews) as Hold.
  { rewrite <- He0. intros e (ew & -> & [_ Hew]%list_elem_of_filter)%list_elem_of_fmap. by apply (list_elem_of_fmap_2 (fun ew : ework => ptr ew)). }
  split; [|exact Hold].
  assert (forall ew, ew ∈ map (upd es w) ews -> exists ew0, ew0 ∈ ews /\ ew = upd es w ew0) as Hmap.
  { intros ew (ew0 & <- & H0)%list_elem_of_In%in_map_iff. exists ew0. split; [by apply list_elem_of_In|done]. }
  assert (forall (P P' : ework -> Prop) `{!forall x, Decision (P x)} `{!forall x, Decision (P' x)},
    (forall ew, ew ∈ ews -> P (upd es w ew) <-> P' ew) -> ew_edge <$> filter P (map (upd es w) ews) = ew_edge <$> filter P' ews) as Hfilter.
  { clear. intros P P' ? ? HPP. induction ews as [|ew l IH]; [done|]. cbn [map]. rewrite !filter_cons.
    specialize (IH ltac:(intros; apply HPP; by right)). pose proof (HPP ew ltac:(by left)) as Hew.
    destruct (decide (P (upd es w ew))), (decide (P' ew)); try tauto. rewrite !fmap_cons, IH. f_equal. unfold upd. by case_decide. }
  split.
  - rewrite upd_ptrs. apply Hp.
  - intros w' [Hw'|Hw'%list_elem_of_singleton]%elem_of_app.
    + rewrite <- (pl_edges _ _ Hp _ Hw'). apply (Hfilter (works_on w') (works_on w') _ _). intros ew Hew. unfold upd. case_decide; [|done].
      unfold works_on. cbn [ew_parents]. rewrite fmap_app, elem_of_app. split; [|by left].
      intros [?|Hx%list_elem_of_singleton]; [done|]. by destruct (snoc_fresh w' Hw').
    + subst w'. fold es. rewrite <- He0 at 2. apply (Hfilter (works_on w) (works_on w0) _ _). intros ew Hew. rewrite <- (Hiff ew Hew). unfold upd.
      case_decide as Hin; [|split; [intros Hx; by destruct (snoc_not_under ew Hew)|done]].
      split; [done|]. intros _. unfold works_on. cbn [ew_parents]. rewrite fmap_app, elem_of_app. right. by left.
  - intros ew w' (ew0 & Hew0 & ->)%Hmap. unfold upd. case_decide as Hin; cbn [ew_parents ew_edge].
    + intros [Hw'|Hw'%list_elem_of_singleton]%elem_of_app.
      * destruct (pl_parents _ _ Hp _ _ Hew0 Hw'). split; [apply elem_of_app; by left|done].
      * subst w'. split; [apply elem_of_app; right; by left|]. apply (Hiff ew0 Hew0) in Hin as (w1 & E1 & Hw1)%list_elem_of_fmap.
        destruct (pl_parents _ _ Hp _ _ Hew0 Hw1) as [Hw1i Hin1]. rewrite <- (cells_inj _ _ _ snoc_distinct Hw0 Hw1i E1), Hes in Hin1. done.
    + intros Hw'. destruct (pl_parents _ _ Hp _ _ Hew0 Hw'). split; [apply elem_of_app; by left|done].
  - intros ew (ew0 & Hew0 & ->)%Hmap. destruct (pl_distinct _ _ Hp _ Hew0) as [Hnd Hne]. unfold upd. case_decide as Hin; [|done].
    cbn [ew_parents]. split; [|by intros [_ ?]%app_nil]. rewrite fmap_app. apply NoDup_app. split_and!; [done| |apply NoDup_singleton].
    intros p Hpin Hx%list_elem_of_singleton. subst p. by apply (snoc_not_under ew0 Hew0).
Qed.
End Snoc.

Lemma planEdges_planned items : cells_distinct items -> planned items (planEdges store items).
Proof.
  induction items as [|w items IH] using rev_ind; intros Hd.
  { split; [constructor|intros w Hw; by apply elem_of_nil in Hw|intros ew w Hw; by apply elem_of_nil in Hw|intros ew Hw; by apply elem_of_nil in Hw]. }
  specialize (IH (snoc_distinct _ _ Hd)). unfold planEdges. rewrite fold_left_app. cbn [fold_left]. fold (planEdges store items).
  destruct (decide (w_node w ∈ w_node <$> items)) as [(w0 & E & Hw0)%list_elem_of_fmap|Hnew].
  - destruct (planned_old _ _ _ Hd IH w0 Hw0 (eq_sym E)) as [Hp Hold].
    rewrite add_edges_old; [done|apply IH|apply item_edges_NoDup|exact Hold].
  - rewrite add_edges_new; [by apply planned_new|apply item_edges_NoDup|by eapply fresh_edges].
Qed.

(** ** One level *)
Definition init_of (w : work) : option V := (fun node => n_mapRow node (w_row w)) <$> (store !! w_node w).
(** The callback of a parent under an edge: its children are work items of
    the next level, in the order of the rows. *)
Definition callback_of (next : list work) (w : work) (e : edge) (d : graphDeferred (V := V)) : Prop :=
  exists child ops ptrs, e_child e = Some child /\ e_attach e = Some ops /\
    d = MkDeferred (w_depth w) ops (w_parent w) ptrs /\
    Forall2 (fun ptr row => MkWork child ptr row (S (w_depth w)) ∈ next) ptrs (children e (w_row w)).
Lemma callback_of_mono next next' w e d : (forall x, x ∈ next -> x ∈ next') -> callback_of next w e d -> callback_of next' w e d.
Proof.
  intros Hs (child & ops & ptrs & H1 & H2 & H3 & H4). exists child, ops, ptrs. split_and!; [done..|].
  eapply Forall2_impl; [exact H4|]. intros ptr row. apply Hs.
Qed.
(** Work items, a cell each from [off] on, that hold the rows mapped. *)
Record fresh_works (depth off : nat) (next : list work) (new : list V) : Prop := {
  fw_cells : w_parent <$> next = seq off (length next);
  fw_init : Forall2 (fun w v => init_of w = Some v) next new;
  fw_rows : Forall (fun w => w_depth w = depth /\ from_db rows_of (w_row w)) next }.
Lemma fresh_works_nil depth off : fresh_works depth off [] [].
Proof. by split. Qed.
Lemma fresh_works_length depth off next new : fresh_works depth off next new -> length next = length new.
Proof. intros [_ Hi _]. by eapply Forall2_length. Qed.
Lemma fresh_works_app depth off next new next' new' :
  fresh_works depth off next new -> fresh_works depth (off + length new) next' new' -> fresh_works depth off (next ++ next') (new ++ new').
Proof.
  intros H1 H2. pose proof (fresh_works_length _ _ _ _ H1) as Hl. destruct H1 as [Hc Hi Hr], H2 as [Hc' Hi' Hr']. split.
  - rewrite fmap_app, length_app, seq_app, Hc, Hc', Hl. done.
  - by apply Forall2_app.
  - by apply Forall_app.
Qed.

Lemma children_from_db e row r : r ∈ children e row -> from_db rows_of r.
Proof.
  unfold GraphEdges.children, through_children, direct_children. intros Hr.
  assert (forall (node : graphPlanNode Row V Q) ck P `{!forall x, Decision (P x)} x,
            x ∈ filter P (probe_rows rows_of e node ck) \/ x ∈ filter P (target_rows rows_of node ck) -> from_db rows_of x) as Hgo.
  { intros node ck P ? x [[_ Hx]%list_elem_of_filter|[_ Hx]%list_elem_of_filter]; revert Hx; unfold probe_rows, target_rows;
      destruct (q_withOptions _ _ _ _) as [q|]; intros Hx; first [by exists q|by apply elem_of_nil in Hx]. }
  destruct (e_kind e).
  1,2: destruct (edge_node store e), (parentKey e) as [pk|], (childKey e) as [ck|]; try by apply elem_of_nil in Hr.
  1,2: destruct (key_of pk row); [|by apply elem_of_nil in Hr]; eapply Hgo; by left.
  destruct (edge_node store e) as [node|], (parentKey e) as [pk|], (childKey e) as [ck|], (junctionParent e) as [jp|], (junctionChild e) as [jc|];
    try by apply elem_of_nil in Hr.
  destruct (key_of pk row); [|by apply elem_of_nil in Hr]. apply list_elem_of_omap in Hr as (target & _ & Hr).
  eapply Hgo. right. by apply head_Some_elem_of in Hr.
Qed.

(** The cells, work items and callbacks of one edge. *)
Lemma edge_done_fresh e parents st st' next depth :
  edge_done graphJunctionQuery store enc rows_of junction_rows_of e parents st st' next ->
  Forall (fun w => w_depth w = depth) parents ->
  exists new ds, cells st' = cells st ++ new /\ GraphLoad.deferred st' = GraphLoad.deferred st ++ ds /\
    fresh_works (S depth) (length (cells st)) next new /\ Forall2 (fun w d => callback_of next w e d) parents ds.
Proof.
  intros (child & node & ops & Ec & En & Eo & Hc & Hd & Hn) Hdepth.
  eexists _, _. split_and!; [exact Hc|exact Hd| |]; subst next; clear Hc Hd; generalize (length (cells st)) as off; unfold given;
    (induction Hdepth as [|w parents Hw Hdepth IH]; intros off; cbn [map next_works callbacks flat_map]; [try apply fresh_works_nil; constructor|]).
  - assert (length (map (n_mapRow node) (children e (w_row w))) = length (children e (w_row w))) as Hl by apply length_map.
    apply fresh_works_app; [|cbn [snd]; rewrite Hl; apply IH]. cbn [snd]. rewrite Hw. clear IH Hl.
    assert (forall r, r ∈ children e (w_row w) -> from_db rows_of r) as Hdb by apply children_from_db.
    revert off Hdb. generalize (children e (w_row w)) as rows. induction rows as [|r rows IH]; intros off Hdb; [apply fresh_works_nil|].
    apply (fresh_works_app _ _ [MkWork child off r (S depth)] [n_mapRow node r]).
    + split; [done| |].
      * constructor; [|constructor]. unfold init_of. cbn [w_node w_row]. by rewrite En.
      * constructor; [|constructor]. split; [done|]. apply Hdb. by left.
    + cbn [length]. rewrite Nat.add_1_r. apply IH. intros x Hx. apply Hdb. by right.
  - constructor.
    + exists child, ops, (seq off (length (children e (w_row w)))). split_and!; [done..|].
      eapply Forall2_impl; [|intros p r Hx; apply elem_of_app; left; exact Hx].
      unfold child_works. generalize (children e (w_row w)) as rows. clear. intros rows. revert off.
      induction rows as [|r rows IH]; intros off; cbn [length seq zip_with]; constructor; [by left|].
      eapply Forall2_impl; [apply IH|]. intros p x Hx. by right.
    + eapply Forall2_impl; [apply IH|]. intros x d. apply callback_of_mono. intros y Hy. apply elem_of_app. by right.
Qed.

Lemma level_done ews : forall items st st' acc next depth,
  (forall ew, ew ∈ ews -> store_edge (ew_edge ew) /\ forall w, w ∈ ew_parents ew -> w ∈ items) ->
  Forall (fun w => w_depth w = depth /\ from_db rows_of (w_row w)) items ->
  foldi (fun _ => run_edge Slots graphJunctionQuery adopt store executor) 0 ews (acc, st) = Ok (next, st') ->
  exists next' new dss, next = acc ++ next' /\ cells st' = cells st ++ new /\
    GraphLoad.deferred st' = GraphLoad.deferred st ++ concat dss /\ fresh_works (S depth) (length (cells st)) next' new /\
    Forall2 (fun ew ds => Forall2 (fun w d => callback_of next' w (ew_edge ew) d) (ew_parents ew) ds) ews dss.
Proof.
  induction ews as [|ew ews IH]; intros items st st' acc next depth Hews Hitems.
  { simpl. intros [= <- <-]. exists [], [], []. rewrite !app_nil_r. split_and!; [done..|apply fresh_works_nil|constructor]. }
  intros ([acc1 st1] & H1 & Hr)%foldi_cons. unfold run_edge in H1.
  destruct (executeGraphEdge _ _ _ _ _ _ _ _) as [[next1 st1']|] eqn:Ee; [|done]. injection H1 as <- <-. cbn [fst snd] in *.
  destruct (Hews ew ltac:(by left)) as [Hst Hpar].
  assert (Forall (fun w => w_depth w = depth /\ from_db rows_of (w_row w)) (ew_parents ew)) as Hparents.
  { apply Forall_forall. intros w Hw. apply (proj1 (Forall_forall _ _) Hitems). by apply Hpar. }
  eapply executeGraphEdge_ok in Ee; [|done..|by apply Hlaws|eapply Forall_impl; [exact Hparents|by intros ? []]].
  eapply edge_done_fresh in Ee as (new1 & ds1 & Hc1 & Hd1 & Hf1 & Hcb1); [|eapply Forall_impl; [exact Hparents|by intros ? []]].
  eapply IH in Hr as (next2 & new2 & dss & -> & Hc2 & Hd2 & Hf2 & Hcb2); [|intros; apply Hews; by right|exact Hitems].
  exists (next1 ++ next2), (new1 ++ new2), (ds1 :: dss). split_and!.
  - by rewrite <- app_assoc.
  - by rewrite Hc2, Hc1, <- app_assoc.
  - cbn [concat]. by rewrite Hd2, Hd1, <- app_assoc.
  - apply fresh_works_app; [done|]. by rewrite Hc1, length_app in Hf2.
  - constructor.
    + eapply Forall2_impl; [exact Hcb1|]. intros w d. apply callback_of_mono. intros x Hx. apply elem_of_app. by left.
    + eapply Forall2_impl; [exact Hcb2|]. intros ew' ds Hds. eapply Forall2_impl; [exact Hds|].
      intros w d. apply callback_of_mono. intros x Hx. apply elem_of_app. by right.
Qed.

(** ** A parent's callbacks are its edges', in order *)
Lemma callbacks_of_edge next ew ds w :
  Forall2 (fun w d => callback_of next w (ew_edge ew) d) (ew_parents ew) ds -> NoDup (w_parent <$> ew_parents ew) ->
  (forall w', w' ∈ ew_parents ew -> w_parent w' = w_parent w -> w' = w) ->
  (works_on w ew -> exists d, filter (fun d => df_parent d = w_parent w) ds = [d] /\ callback_of next w (ew_edge ew) d) /\
  (~ works_on w ew -> filter (fun d => df_parent d = w_parent w) ds = []).
Proof.
  unfold works_on. induction 1 as [|w' d ws ds Hd Hds IH]; intros Hnd Hinj.
  { split; [intros Hin; by apply elem_of_nil in Hin|done]. }
  rewrite fmap_cons in *. apply NoDup_cons in Hnd as [Hni Hnd].
  specialize (IH Hnd ltac:(intros; apply Hinj; [by right|done])) as [IH1 IH2].
  assert (df_parent d = w_parent w') as Hpar by (by destruct Hd as (? & ? & ? & _ & _ & -> & _)).
  rewrite filter_cons, Hpar. destruct (decide (w_parent w' = w_parent w)) as [E|E].
  - split; [|intros Hn; by destruct (Hn ltac:(rewrite <- E; by left))]. intros _. exists d.
    rewrite IH2 by (by rewrite <- E). split; [done|]. by rewrite <- (Hinj w' ltac:(by left) E).
  - split; intros Hin; [apply IH1|apply IH2; by intros ?; apply Hin; right]. by apply elem_of_cons in Hin as [?|?].
Qed.
Lemma callbacks_of_item items ews dss next w :
  planned items ews -> cells_distinct items -> w ∈ items ->
  Forall2 (fun ew ds => Forall2 (fun w d => callback_of next w (ew_edge ew) d) (ew_parents ew) ds) ews dss ->
  Forall2 (fun e d => callback_of next w e d) (item_edges store w) (filter (fun d => df_parent d = w_parent w) (concat dss)).
Proof.
  intros Hp Hdist Hw Hf. rewrite <- (pl_edges _ _ Hp w Hw).
  assert (forall ew, ew ∈ ews -> NoDup (w_parent <$> ew_parents ew) /\ forall w', w' ∈ ew_parents ew -> w_parent w' = w_parent w -> w' = w) as Hews.
  { intros ew Hew. split; [by apply Hp|]. intros w' Hw' E. destruct (pl_parents _ _ Hp _ _ Hew Hw') as [Hi _]. by eapply cells_inj. }
  clear Hp Hdist Hw. induction Hf as [|ew ds ews dss Hd Hf IH]; [constructor|].
  cbn [concat]. rewrite filter_app, filter_cons. destruct (Hews ew ltac:(by left)) as [Hnd Hinj].
  destruct (callbacks_of_edge _ _ _ w Hd Hnd Hinj) as [H1 H2]. specialize (IH ltac:(intros; apply Hews; by right)).
  destruct (decide (works_on w ew)) as [Hon|Hon].
  - destruct (H1 Hon) as (d & -> & Hcb). rewrite fmap_cons. by constructor.
  - by rewrite (H2 Hon).
Qed.

(** ** Running a level's callbacks on a heap in which the children are done *)
Lemma run_item fuel next h w es ds v0 :
  (forall w', w' ∈ next -> exists v, graph_of fuel (w_node w') (w_row w') = Some v /\ h !! w_parent w' = Some v) ->
  Forall2 (fun e d => callback_of next w e d) es ds ->
  fold_left (fun graph (e : edge) =>
        v ← graph; child ← e_child e; ops ← e_attach e;
        vs ← mapM (graph_of fuel child) (children e (w_row w));
        Some (apply_attach ops v vs)) es (Some v0) = Some (fold_left (given_children h) ds v0).
Proof.
  intros Hnext. intros Hf. revert v0. induction Hf as [|e d es ds Hcb Hf IH]; intros v0; [done|]. cbn [fold_left].
  destruct Hcb as (child & ops & ptrs & Ec & Eo & -> & Hptrs). rewrite <- IH. f_equal. simpl. rewrite Ec. simpl. rewrite Eo. simpl.
  unfold given_children. cbn [df_attach df_children].
  assert (mapM (graph_of fuel child) (children e (w_row w)) = Some (omap (h !!.) ptrs)) as ->; [|done].
  induction Hptrs as [|p r ptrs rows Hin Hptrs IHp]; [done|]. destruct (Hnext _ Hin) as (v & Hg & Hh). cbn [w_node w_row w_parent] in *.
  cbn [omap list_omap]. rewrite Hh. simpl. rewrite Hg. simpl. by rewrite IHp.
Qed.

Record ready (depth : nat) (queue : list work) (st : lstate) : Prop := {
  rd_distinct : cells_distinct queue;
  rd_works : Forall (fun w => w_depth w = depth /\ from_db rows_of (w_row w)) queue;
  rd_cells : Forall (fun w => exists v, init_of w = Some v /\ cells st !! w_parent w = Some v) queue }.
(** The level below is ready. *)
Lemma fresh_ready depth st next new :
  fresh_works depth (length (cells st)) next new -> forall st', cells st' = cells st ++ new -> ready depth next st'.
Proof.
  intros [Hc Hi Hr] st' Ecells. split; [unfold cells_distinct; rewrite Hc; apply NoDup_seq|done|].
  apply Forall_lookup. intros i w Hw. destruct (Forall2_lookup_l _ _ _ _ _ Hi Hw) as (v & Hv & Hinit). exists v. split; [done|].
  assert (w_parent w = length (cells st) + i) as ->.
  { assert ((w_parent <$> next) !! i = Some (w_parent w)) as E by (by rewrite list_lookup_fmap, Hw). rewrite Hc in E.
    by apply lookup_seq in E as [-> _]. }
  by rewrite Ecells, lookup_app_r, Nat.add_sub' by lia.
Qed.

(** Where a level's callbacks point. *)
Lemma level_callbacks items ews dss next off d :
  planned items ews -> w_parent <$> next = seq off (length next) ->
  Forall2 (fun ew ds => Forall2 (fun w d => callback_of next w (ew_edge ew) d) (ew_parents ew) ds) ews dss ->
  d ∈ concat dss -> exists w, w ∈ items /\ df_parent d = w_parent w /\ df_depth d = w_depth w /\ forall p, p ∈ df_children d -> off <= p.
Proof.
  intros Hp Hnext Hcb (ds & Hds & Hd)%list_elem_of_In%in_concat. apply list_elem_of_In in Hd, Hds.
  apply list_elem_of_lookup in Hds as [j Hj]. destruct (Forall2_lookup_r _ _ _ _ _ Hcb Hj) as (ew & Hew & Hf).
  apply list_elem_of_lookup in Hd as [k Hk]. destruct (Forall2_lookup_r _ _ _ _ _ Hf Hk) as (w & Hw & (child & ops & ptrs & _ & _ & -> & Hptrs)).
  apply list_elem_of_lookup_2 in Hew, Hw. destruct (pl_parents _ _ Hp _ _ Hew Hw) as [Hi _].
  exists w. split_and!; [done..|]. cbn [df_children]. intros p [m Hm]%list_elem_of_lookup.
  destruct (Forall2_lookup_l _ _ _ _ _ Hptrs Hm) as (r & _ & Hin).
  apply (list_elem_of_fmap_2 w_parent) in Hin. rewrite Hnext in Hin. apply elem_of_seq in Hin. cbn in Hin. lia.
Qed.

Lemma expand_ok fuel : forall queue st st' depth,
  ready depth queue st -> expand_levels Slots graphJunctionQuery adopt store executor fuel queue st = Some (Ok st') ->
  exists new ds, cells st' = cells st ++ new /\ GraphLoad.deferred st' = GraphLoad.deferred st ++ ds /\
    Forall (fun d => depth <= df_depth d) ds /\
    let h := fold_left run_deferred (sort_deferred ds) (cells st') in
    (forall w, w ∈ queue -> exists v, graph_of fuel (w_node w) (w_row w) = Some v /\ h !! w_parent w = Some v) /\
    (forall c, c < length (cells st) -> c ∉ w_parent <$> queue -> h !! c = cells st' !! c).
Proof.
  induction fuel as [|fuel IH]; intros queue st st' depth Hready Hrun.
  { destruct queue; [|done]. injection Hrun as <-. exists [], []. rewrite !app_nil_r. simpl.
    split_and!; [done|done|constructor|intros w Hw; by apply elem_of_nil in Hw|done]. }
  destruct queue as [|w0 queue0] eqn:Eq.
  { injection Hrun as <-. exists [], []. rewrite !app_nil_r. simpl. split_and!; [done|done|constructor|intros w Hw; by apply elem_of_nil in Hw|done]. }
  rewrite <- Eq in *. assert (expand_levels Slots graphJunctionQuery adopt store executor (S fuel) queue st =
    match foldi (fun _ => run_edge Slots graphJunctionQuery adopt store executor) 0 (planEdges store queue) ([], st) with
    | Err e => Some (Err e) | Ok (next, st') => expand_levels Slots graphJunctionQuery adopt store executor fuel next st' end) as E by (by rewrite Eq).
  rewrite E in Hrun. clear E Eq w0 queue0.
  destruct (foldi _ 0 (planEdges store queue) ([], st)) as [[next st1]|] eqn:El; [|done].
  destruct Hready as [Hdist Hworks Hcells]. pose proof (planEdges_planned _ Hdist) as Hp.
  eapply (level_done _ queue) in El as (next' & new1 & dss & -> & Hc1 & Hd1 & Hf1 & Hcb); [| |exact Hworks].
  2:{ intros ew Hew. split; [|intros w Hw; by destruct (pl_parents _ _ Hp _ _ Hew Hw)].
      destruct (pl_distinct _ _ Hp _ Hew) as [_ Hne]. destruct (ew_parents ew) as [|w ws] eqn:Ew; [done|].
      destruct (pl_parents _ _ Hp ew w Hew ltac:(rewrite Ew; by left)) as [_ He]. by eapply item_edges_store. }
  simpl in Hrun. destruct (IH _ _ _ _ (fresh_ready _ _ _ _ Hf1 _ Hc1) Hrun) as (new2 & ds2 & Hc2 & Hd2 & Hdepth2 & Hq2 & Hk2).
  assert (Forall (fun d => df_depth d = depth) (concat dss)) as Hlevel.
  { apply Forall_forall. intros d Hd. destruct (level_callbacks _ _ _ _ _ _ Hp (fw_cells _ _ _ _ Hf1) Hcb Hd) as (w & Hw & _ & -> & _).
    by apply (proj1 (Forall_forall _ _) Hworks). }
  exists (new1 ++ new2), (concat dss ++ ds2). split_and!.
  - by rewrite Hc2, Hc1, app_assoc.
  - by rewrite Hd2, Hd1, app_assoc.
  - apply Forall_app. split; [eapply Forall_impl; [exact Hlevel|]; simpl; intros; lia|].
    eapply Forall_impl; [exact Hdepth2|]. simpl. intros; lia.
  - rewrite (sort_deferred_level depth) by (done || (eapply Forall_impl; [exact Hdepth2|]; simpl; intros; lia)).
    rewrite fold_left_app. set (h1 := fold_left run_deferred (sort_deferred ds2) (cells st')) in *.
    pose proof (fresh_works_length _ _ _ _ Hf1) as Hl1.
    assert (forall c, c < length (cells st) -> h1 !! c = cells st' !! c) as Hold.
    { intros c Hlt. apply Hk2; [rewrite Hc1, length_app; lia|]. rewrite (fw_cells _ _ _ _ Hf1), elem_of_seq. lia. }
    assert (forall w, w ∈ queue -> w_parent w < length (cells st)) as Hin.
    { intros w Hw. destruct (proj1 (Forall_forall _ _) Hcells w Hw) as (v & _ & Hv). by apply lookup_lt_Some in Hv. }
    assert (forall d, d ∈ concat dss -> exists w, w ∈ queue /\ df_parent d = w_parent w /\ forall p, p ∈ df_children d -> length (cells st) <= p) as Hdss.
    { intros d Hd. destruct (level_callbacks _ _ _ _ _ _ Hp (fw_cells _ _ _ _ Hf1) Hcb Hd) as (w & Hw & Epar & _ & Hch). by exists w. }
    assert (forall c, fold_left run_deferred (concat dss) h1 !! c =
      (fun v => fold_left (given_children h1) (filter (fun d => df_parent d = c) (concat dss)) v) <$> (h1 !! c)) as Hrun1.
    { intros c. apply run_deferreds_lookup. intros d d' p (_ & _ & _ & Hch)%Hdss (w & Hw & Epar & _)%Hdss Hpd. rewrite Epar.
      pose proof (Hin w Hw). specialize (Hch p Hpd). lia. }
    split.
    + intros w Hw. destruct (proj1 (Forall_forall _ _) Hcells w Hw) as (v & Hinit & Hv).
      exists (fold_left (given_children h1) (filter (fun d => df_parent d = w_parent w) (concat dss)) v). split.
      * cbn [graph_of]. unfold init_of in Hinit. destruct (store !! w_node w) as [node|] eqn:En; [|done]. injection Hinit as <-. simpl.
        rewrite <- (run_item fuel next' h1 w (item_edges store w) _ _ Hq2 (callbacks_of_item _ _ _ _ _ Hp Hdist Hw Hcb)).
        unfold item_edges. by rewrite En.
      * rewrite Hrun1, Hold by by apply Hin. rewrite Hc2, Hc1, <- app_assoc, lookup_app_l by by apply Hin. by rewrite Hv.
    + intros c Hlt Hnot. rewrite Hrun1, <- Hold by done. rewrite list_filter_none; [by destruct (h1 !! c)|].
      intros d (w & Hw & Epar & _)%Hdss E. apply Hnot. rewrite <- E, Epar. by apply list_elem_of_fmap_2.
Qed.

(** ** The load *)
Lemma mapM_ready fuel root rows (h : list V) :
  (forall i r, rows !! i = Some r -> exists v, graph_of fuel root r = Some v /\ h !! i = Some v) ->
  mapM (graph_of fuel root) rows = Some (take (length rows) h).
Proof.
  revert h. induction rows as [|r rows IH]; intros h Hh; [done|]. destruct (Hh 0 r eq_refl) as (v & Hg & Hv).
  destruct h as [|x h]; [done|]. injection Hv as ->. simpl. rewrite Hg. simpl. rewrite (IH h); [done|].
  intros i r' Hi. apply (Hh (S i) r' Hi).
Qed.
Lemma expandGraphRoots_ok root node rows st gs :
  store !! root = Some node -> Forall (from_db rows_of) rows ->
  expandGraphRoots Slots graphJunctionQuery adopt store executor root node rows st = Some (Ok gs) ->
  mapM (graph_of (level_fuel store) root) rows = Some gs.
Proof.
  intros Hnode Hrows. unfold expandGraphRoots. set (st0 := MkLState _ _ _ _ _).
  destruct (expand_levels _ _ _ _ _ _ _ st0) as [[st'|]|] eqn:Ee; [|done..]. intros [= <-].
  assert (forall k, fresh_works 0 k (imap (fun i row => MkWork root (k + i) row 0) rows) (map (n_mapRow node) rows)) as Hroots.
  { subst st0. clear Ee. induction Hrows as [|r rows Hr Hrows IH]; intros k; [apply fresh_works_nil|].
    rewrite imap_cons. apply (fresh_works_app _ _ [_] [n_mapRow node r]).
    - split; [simpl; by rewrite Nat.add_0_r| |].
      + constructor; [|constructor]. unfold init_of. simpl. by rewrite Hnode.
      + constructor; [|constructor]. done.
    - specialize (IH (k + 1)). erewrite imap_ext; [exact IH|]. intros i x _. simpl. f_equal. lia. }
  specialize (Hroots 0). change (fresh_works 0 0 (root_works root rows) (map (n_mapRow node) rows)) in Hroots.
  assert (ready 0 (root_works root rows) st0) as Hready.
  { apply (fresh_ready 0 (MkLState 0 0 0 [] []) _ (map (n_mapRow node) rows)); [exact Hroots|done]. }
  destruct (expand_ok _ _ _ _ _ Hready Ee) as (new & ds & Hc & Hd & _ & Hq & _). apply mapM_ready.
  intros i r Hi. simpl in Hd. rewrite Hd.
  destruct (Hq (MkWork root i r 0)) as (v & Hg & Hv); [|by exists v].
  apply list_elem_of_lookup. exists i. unfold root_works. rewrite list_lookup_imap, Hi. done.
Qed.

Lemma LoadGraph_graphs root gs :
  LoadGraph Slots graphJunctionQuery adopt store executor (Some root) = Some (Ok gs) ->
  exists node, store !! root = Some node /\ mapM (graph_of (level_fuel store) root) (rows_of (n_query node)) = Some gs.
Proof.
  unfold LoadGraph, prepareGraphPlan.
  destruct (graphValidate _ _ _ _ _) as [[[compiled|]|]|] eqn:Ep; [|done..].
  apply graphValidate_accepted in Ep as [_ (node & c & Hnode & Hc & [= <-])]. simpl. rewrite Hnode.
  destruct (run_root executor node compiled) as [[rows st]|] eqn:Er; [|done]. intros Hx. exists node. split; [done|].
  unfold run_root in Er. destruct (q_prepare _ _) as [[]|] eqn:Epr; [|done]. destruct (x_profile executor); [|done].
  unfold run_query in Er. destruct (run_rows _ _) as [[rs k]|] eqn:Err; [|done]. injection Er as <- <-.
  apply (ans_all _ _ Hans _ _ _ _ _ _ Hc Epr) in Err as ->.
  eapply expandGraphRoots_ok; [exact Hnode| |exact Hx]. apply Forall_forall. intros r Hr. by exists (n_query node).
Qed.
End Sound.

(** ** The levels end *)
Section Ends.
Context {Row V Q C JQ : Type} `{!QueryOps Q Row C} `{!QueryOps JQ (list go_any) C}.
Variable Slots : C -> nat.
Variable graphJunctionQuery : relation -> list (PartSpec Row) -> list (PartSpec Row) -> result JQ.
Variable adopt : driver_value -> result any.
Variable store : plan_store Row V Q.
Variable executor : Executor.
Abbreviation edge := (graphEdgeSpec Row V).
Abbreviation work := (graphWork (Row := Row)).

(** An edge's work items are on its child. *)
Lemma foldi_items {A} (P : work -> Prop) (f : A -> list work * lstate (V := V) -> result (list work * lstate (V := V))) l s s' :
  (forall x s s', f x s = Ok s' -> Forall P s.1 -> Forall P s'.1) -> Forall P s.1 -> foldi (fun _ => f) 0 l s = Ok s' -> Forall P s'.1.
Proof.
  intros Hf. revert s. induction l as [|x l IH]; intros s Hs; [by intros [= <-]|].
  intros (s1 & H1 & Hr)%foldi_cons. eapply IH; [|exact Hr]. by eapply Hf.
Qed.
Lemma attach_children_items kind ops path child (node : graphPlanNode Row V Q) w rows s s' :
  attach_children kind ops path child node w rows s = Ok s' ->
  Forall (fun w => w_node w = child) s.1 -> Forall (fun w => w_node w = child) s'.1.
Proof.
  intros Ha Hs. destruct s' as [next st']. apply attach_children_ok in Ha as (new & -> & (_ & _ & ->)). apply Forall_app. split; [done|].
  simpl. rewrite app_nil_r. generalize (length (cells s.2)) as off. induction rows as [|r rows IH]; intros off; simpl; constructor; [done|apply IH].
Qed.
Lemma executeGraphEdge_items e parents st next st' :
  executeGraphEdge Slots graphJunctionQuery adopt store executor e parents st = Ok (next, st') ->
  Forall (fun w => e_child e = Some (w_node w)) next.
Proof.
  intros Hrun. enough (forall child, e_child e = Some child -> Forall (fun w => w_node w = child) next) as Hgo.
  { destruct (e_child e) as [child|] eqn:Ec; [eapply Forall_impl; [by apply Hgo|]; simpl; congruence|].
    unfold executeGraphEdge, executeDirect, executeManyThrough in Hrun. rewrite Ec in Hrun. by destruct (e_kind e). }
  intros child Ec. change next with ((next, st').1). revert Hrun.
  unfold executeGraphEdge, executeDirect, executeManyThrough. rewrite Ec.
  destruct (e_kind e).
  1,2: repeat (case_match; try done); try (intros [= <- <-]; constructor); apply foldi_items; [|constructor]; intros [w k] s s'; apply attach_children_items.
  repeat (case_match; try done); try (intros [= <- <-]; constructor); apply foldi_items; [|constructor]; intros [w k] s s'; unfold attach_targets; cbn [fst snd].
  destruct k; [destruct (parent_targets _ _ _ _); [apply attach_children_items|done]|]. destruct (attach_nothing _ _ _ _); [|done]. by intros [= <-].
Qed.
Lemma planEdges_item items (ew : edge_work (Row := Row) (V := V)) : ew ∈ planEdges store items -> exists w, w ∈ items /\ ew_edge ew ∈ item_edges store w.
Proof.
  assert (forall w es (l : list (edge_work (Row := Row) (V := V))) ew, ew ∈ fold_left (fun r e => add_edge_work e w r) es l ->
    (exists ew', ew' ∈ l /\ ew_edge ew' = ew_edge ew) \/ ew_edge ew ∈ es) as Hone.
  { intros w. induction es as [|e es IH]; intros l x Hx; [left; by exists x|]. apply IH in Hx as [(x' & Hx' & E)|Hx]; [|right; by right].
    clear IH. assert (x' ∈ add_edge_work e w l -> (exists y, y ∈ l /\ ew_edge y = ew_edge x') \/ ew_edge x' = e) as Hadd.
    { clear. induction l as [|y l IH]; simpl.
      - intros ->%list_elem_of_singleton. by right.
      - case_bool_decide; intros [->|Hin]%elem_of_cons; [left; exists y; split; [by left|done]|left; exists x'; split; [by right|done]|left; exists y; split; [by left|done]|].
        destruct (IH Hin) as [(z & Hz & Ez)|?]; [|by right]. left. exists z. split; [by right|done]. }
    destruct (Hadd Hx') as [(y & Hy & Ey)|Ee]; [left; exists y; split; [done|congruence]|right; rewrite <- E, Ee; by left]. }
  unfold planEdges. revert ew. induction items as [|w items IH] using rev_ind; intros ew; [by intros ?%elem_of_nil|].
  rewrite fold_left_app. cbn [fold_left]. intros [(ew' & H1 & E)|Hin]%Hone.
  - apply IH in H1 as (w' & Hw' & He'). exists w'. rewrite <- E. split; [apply elem_of_app; by left|done].
  - exists w. split; [apply elem_of_app; right; by left|done].
Qed.
Lemma level_items items acc st next st' :
  foldi (fun _ => run_edge Slots graphJunctionQuery adopt store executor) 0 (planEdges store items) (acc, st) = Ok (next, st') ->
  Forall (fun w' => w' ∈ acc \/ exists w, w ∈ items /\ child_of store (w_node w) (w_node w')) next.
Proof.
  assert (forall ews acc st next st', (forall ew, ew ∈ ews -> ew ∈ planEdges store items) ->
    foldi (fun _ => run_edge Slots graphJunctionQuery adopt store executor) 0 ews (acc, st) = Ok (next, st') ->
    Forall (fun w' => w' ∈ acc \/ exists w, w ∈ items /\ child_of store (w_node w) (w_node w')) next) as Hgo; [|by apply Hgo].
  clear acc st next st'. induction ews as [|ew ews IH]; intros acc st next st' Hews.
  { simpl. intros [= <- <-]. apply Forall_forall. intros w Hw. by left. }
  intros ([acc1 st1] & H1 & Hr)%foldi_cons. unfold run_edge in H1.
  destruct (executeGraphEdge _ _ _ _ _ _ _ _) as [[next1 st1']|] eqn:Ee; [|done]. injection H1 as <- <-. cbn [fst snd] in *.
  apply IH in Hr; [|intros; apply Hews; by right]. eapply Forall_impl; [exact Hr|]. intros w' [[Hw'|Hw']%elem_of_app|Hw']; [by left| |by right].
  right. apply executeGraphEdge_items in Ee. apply (proj1 (Forall_forall _ _) Ee) in Hw'.
  destruct (planEdges_item _ _ (Hews ew ltac:(by left))) as (w & Hw & He). exists w. split; [done|].
  unfold item_edges in He. destruct (store !! w_node w) as [node|] eqn:En; [|by apply elem_of_nil in He].
  exists node, (ew_edge ew). split_and!; [done| |done]. apply omap_id_lookup in He as [i Hi]. by eapply list_elem_of_lookup_2.
Qed.
Lemma expand_ends root fuel : forall queue st depth,
  valid_plan Slots graphJunctionQuery store executor root ->
  Forall (fun w => nsteps (child_of store) depth root (w_node w)) queue -> size store <= fuel + depth ->
  expand_levels Slots graphJunctionQuery adopt store executor fuel queue st <> None.
Proof.
  induction fuel as [|fuel IH]; intros queue st depth Hv Hq Hsize; destruct queue as [|w queue]; [done| |done|].
  - inversion Hq as [|? ? Hw _]; subst. apply (path_bound _ _ _ _ _ _ _ Hv) in Hw. lia.
  - cbn [expand_levels]. destruct (foldi _ 0 (planEdges store (w :: queue)) _) as [[next st']|] eqn:El; [|done].
    apply (IH next st' (S depth) Hv); [|lia]. apply level_items in El. eapply Forall_impl; [exact El|].
    intros w' [Hw'%elem_of_nil|(w1 & Hw1 & Hc)]; [done|]. eapply nsteps_r; [|exact Hc]. by apply (proj1 (Forall_forall _ _) Hq).
Qed.
Lemma LoadGraph_returns root : LoadGraph Slots graphJunctionQuery adopt store executor root <> None.
Proof.
  unfold LoadGraph, prepareGraphPlan. destruct (graphValidate _ _ _ _ root) as [[[compiled|]|]|] eqn:Ep; [|done..|by apply graphValidate_ends in Ep].
  destruct root as [root|]; [|done]. apply graphValidate_accepted in Ep as [Hv (node & c & Hnode & _)]. simpl. rewrite Hnode.
  destruct (run_root _ _ _) as [[rows st]|]; [|done]. unfold expandGraphRoots.
  destruct (expand_levels _ _ _ _ _ _ _ _) as [[]|] eqn:Ee; [done..|]. intros _. revert Ee.
  apply (expand_ends root _ _ _ 0 Hv); [|unfold level_fuel; lia]. apply Forall_forall. intros w [i Hi]%list_elem_of_lookup.
  unfold root_works in Hi. rewrite list_lookup_imap in Hi. destruct (rows !! i); [|done]. injection Hi as <-. constructor.
Qed.
End Ends.
