(* ===== verification/GraphCorrect.v ===== *)
(** * GraphCorrect: graph loads, from accepted plans to returned graphs

    The theorems about [LoadGraph] for plans [NewGraphPlan] built, and an
    engine of three tables on which they are evaluated. *)

From S2P Require Import Prelude GoText Bytes Schema Dialect EngineProfile Query QueryWrite CursorCodec Page Typed GraphKey Graph GraphValid GraphLoad GraphBatch GraphEdges GraphSound.
Open Scope string_scope.
Open Scope list_scope.
Open Scope nat_scope.

(** ** Built plans *)
Section Built.
Context {Row V Q C JQ : Type} `{!QueryOps Q Row C} `{!QueryOps JQ (list go_any) C}.
Variable adopt : driver_value -> result any.
Variable enc : Encoder.
Variable rows_of : Q -> list Row.
Variable junction_rows_of : JQ -> list (list go_any).
Variable truth : Row -> expression -> bool.
Variable jtruth : list go_any -> expression -> bool.
Abbreviation edge := (graphEdgeSpec Row V).
Existing Instance enc.

(** An edge [NewGraphPlan] let into a plan. *)
Definition accepted_edge (e : edge) : Prop := exists source_of source, check_edge source_of source e = Ok tt.
Definition built (store : plan_store Row V Q) : Prop := forall e, store_edge store e -> accepted_edge e.

(** What the engine owes an edge's keys: it compares their columns with the
    driver values as the keys do, and rows hold values of their Go types. *)
Record key_laws (e : edge) : Prop := {
  kl_typed : forall key q, parentKey e = Some key \/ childKey e = Some key -> typed_rows (rows_of q) (key_of key);
  kl_jtyped : forall jp jc q, junctionParent e = Some jp -> junctionChild e = Some jc ->
    typed_rows (junction_rows_of q) (values_key 0 jp) /\ typed_rows (junction_rows_of q) (values_key (length jp) jc);
  kl_compares : forall ck q, childKey e = Some ck -> Forall2 (compares adopt truth (rows_of q)) ck (readers ck);
  kl_jcompares : forall jp q, junctionParent e = Some jp ->
    Forall2 (compares adopt jtruth (junction_rows_of q)) jp (value_readers 0 jp) }.

Lemma matchParts_length (l r : list (PartSpec Row)) path : matchParts l r path = Ok tt -> length l = length r.
Proof. unfold matchParts. by destruct (Nat.eqb_spec (length l) (length r)). Qed.
Lemma accepted_laws e : accepted_edge e -> key_laws e -> edge_laws adopt enc rows_of junction_rows_of truth jtruth e.
Proof.
  intros (source_of & source & Hc) [H1 H2 H3 H4]. unfold check_edge in Hc.
  destruct (e_child e) as [child|]; [|done]. destruct (parentKey e) as [pk|] eqn:Epk; [|done].
  destruct (childKey e) as [ck|] eqn:Eck; [|done]. destruct (e_attach e); [|done].
  destruct (_ || _) in Hc; [done|]. split; try done.
  - intros Hkind pk' ck' E1 E2. rewrite Epk in E1. rewrite Eck in E2. injection E1 as <-. injection E2 as <-. destruct (e_kind e); try done;
      apply check_ok in Hc as [Hm _]; by eapply matchParts_length.
  - intros Hkind pk' ck' jp jc E1 E2 Ejp Ejc. rewrite Epk in E1. rewrite Eck in E2. injection E1 as <-. injection E2 as <-. rewrite Hkind, Ejp, Ejc in Hc. destruct (is_zero_relation _); [done|].
    apply check_ok in Hc as [Hm1 Hc]. apply check_ok in Hc as [Hm2 _]. split; by eapply matchParts_length.
  - by rewrite Epk, Eck.
  - by rewrite Eck.
Qed.
End Built.

(** C3 A load that succeeds returns the graphs its plan describes: for a plan
    built by [NewGraphPlan] whose edges belong to one node each, run by an
    engine that answers a compiled query with its rows, in order, filtered by
    the membership predicate, and that compares key columns as the keys do,
    the result is, row by row of the root query, the row mapped and handed, for
    every edge in order, the graphs of exactly the rows with its key - however
    the keys were batched, levels interleaved and callbacks deferred. *)
Theorem LoadGraph_sound {Row V Q C JQ : Type} `{!QueryOps Q Row C} `{!QueryOps JQ (list go_any) C}
  (Slots : C -> nat) graphJunctionQuery adopt (store : plan_store Row V Q) executor enc rows_of junction_rows_of truth jtruth root gs :
  x_codecs executor = Ok enc ->
  answers (C := C) truth rows_of -> answers (C := C) jtruth junction_rows_of -> connectives truth -> connectives jtruth ->
  built store -> edges_owned store ->
  (forall e, store_edge store e -> key_laws adopt enc rows_of junction_rows_of truth jtruth e) ->
  LoadGraph Slots graphJunctionQuery adopt store executor (Some root) = Some (Ok gs) ->
  exists node, store !! root = Some node /\
    mapM (graph_of graphJunctionQuery store enc rows_of junction_rows_of (level_fuel store) root) (rows_of (n_query node)) = Some gs.
Proof.
  intros Henc Hans Hjans Hcon Hjcon Hbuilt Hown Hkeys.
  eapply LoadGraph_graphs; try done. intros e He. apply accepted_laws; [by apply Hbuilt|by apply Hkeys].
Qed.

(** C13 A load ends: it returns graphs or an error whatever the plan, the
    executor and the rows are, after at most one level per node of the plan. *)
Theorem LoadGraph_ends {Row V Q C JQ : Type} `{!QueryOps Q Row C} `{!QueryOps JQ (list go_any) C}
  (Slots : C -> nat) graphJunctionQuery adopt (store : plan_store Row V Q) executor root :
  exists r, LoadGraph Slots graphJunctionQuery adopt store executor root = Some r.
Proof.
  pose proof (LoadGraph_returns Slots graphJunctionQuery adopt store executor root) as H.
  destruct (LoadGraph _ _ _ _ _ _) as [r|]; [by exists r|done].
Qed.

(** C23 Two rows' keys have the same identity bytes exactly when the keys read
    the same driver values: tags, lengths and the width keep values of
    different types, and neighbours, apart. *)
Theorem Tuple_identity {Row Row' : Type} `{Encoder} (parts : list (PartSpec Row)) (parts' : list (PartSpec Row')) row row' t t' :
  Tuple parts row = Ok (Some t) -> Tuple parts' row' = Ok (Some t') -> length parts = length parts' ->
  Forall driver_typed (values_of t) -> Forall driver_typed (values_of t') ->
  Identity t = Identity t' <-> values_of t = values_of t'.
Proof.
  intros Ht Ht' Hl Hv Hv'. apply Tuple_wf in Ht as [Hw _], Ht' as [Hw' _]. rewrite <- Hl in Hw'.
  by apply (identity_values t t' (length parts)).
Qed.

(** ** A small engine: three tables of integer pairs *)
Inductive toy_table := Users | Memberships | Groups.
Record toy_query := MkToy { toy_from : toy_table; toy_where : list expression }.
Definition toy_rows (t : toy_table) : list (list go_any) :=
  let pair a b := [GInt a; GInt b] in
  match t with
  | Users => [pair 1 0; pair 2 0; pair 11 0]
  | Memberships => [pair 1 7; pair 2 8; pair 1 8; pair 11 7; pair 1 7]
  | Groups => [pair 7 70; pair 8 80]
  end%Z.
Definition toy_column (name : string) (row : list go_any) : go_any := nth (if String.eqb name "a" then 0 else 1) row GNil.
Section Engine.
(** When a column's integer equals a bound one. *)
Variable same : Z -> Z -> bool.
Fixpoint toy_truth (row : list go_any) (e : expression) : bool :=
  match e with
  | ELogical op l => if bool_decide (op = LogicalAnd) then forallb (toy_truth row) l else existsb (toy_truth row) l
  | EBinary (EColumn _ name) _ (EValue (any_token _ (any_int z) _ _ _ _ _)) =>
      match toy_column name row with GInt z' => same z' z | _ => false end
  | _ => false
  end.
Definition toy_result (q : toy_query) : list (list go_any) :=
  filter (fun row => forallb (toy_truth row) (toy_where q) = true) (toy_rows (toy_from q)).
#[export] Instance toy_ops : QueryOps toy_query (list go_any) toy_query := {|
  q_validate := fun _ => Ok tt; q_compile := fun q => Ok q; q_validateCompiled := fun _ _ => Ok tt;
  q_prepare := fun _ _ => Ok tt; q_rows := fun _ q _ => Ok <$> toy_result q; q_sourceName := fun _ => "t";
  q_hasPredicates := fun _ => false;
  q_withMembership := fun q p => MkToy (toy_from q) (p_node p :: toy_where q);
  q_withOptions := fun q _ _ _ => Ok q |}.
End Engine.

Inductive toy_graph := Leaf (id : Z) | Tree (id : Z) (children : list toy_graph).
Definition toy_id (row : list go_any) : Z := match nth 0 row GNil with GInt z => z | _ => 0%Z end.
Definition toy_attach : graphAttachOps toy_graph := AttachMany (fun g loaded =>
  match g with Leaf id => Tree id (lm_Values loaded) | Tree id old => Tree id (old ++ lm_Values loaded) end).
Definition toy_part (name : string) : PartSpec (list go_any) :=
  MkPart (MkColumnRef RelZero name) "" "int64" false None "t" (fun row => (toy_column name row, true)).
Definition toy_options : EdgeOptions := MkOptions no_predicate [] 0 1.
(** Users have groups through their memberships; groups have memberships. *)
Definition toy_groups : graphEdgeSpec (list go_any) toy_graph :=
  MkEdge 1 graphManyThrough "groups" (Some [toy_part "a"]) (Some [toy_part "a"]) (Some [toy_part "a"]) (Some [toy_part "b"])
         (RelTable (MkTableRef None "t")) (Some 2%positive) toy_options (Some toy_attach).
Definition toy_members : graphEdgeSpec (list go_any) toy_graph :=
  MkEdge 2 graphHasMany "members" (Some [toy_part "a"]) (Some [toy_part "b"]) None None RelZero (Some 3%positive) toy_options (Some toy_attach).
Definition toy_node (from : toy_table) (edges : list (option (graphEdgeSpec (list go_any) toy_graph))) : graphPlanNode (list go_any) toy_graph toy_query :=
  MkNode (MkToy from []) (fun row => Leaf (toy_id row)) edges.
Definition toy_store : gmap node_ptr (graphPlanNode (list go_any) toy_graph toy_query) :=
  <[1%positive := toy_node Users [Some toy_groups]]> (<[2%positive := toy_node Groups [Some toy_members]]>
    (<[3%positive := toy_node Memberships []]> ∅)).
Definition toy_codecs : Encoder := fun _ => None.
Definition toy_executor : Executor := MkExecutor (Ok toy_codecs) (Some (MkProfile "" 0 "" (MkVersion false 0 0 0) zero_caps 10)).
Definition toy_adopt (v : driver_value) : result any := match v with DInt64 z => Ok (any_int z) | _ => Err (errors_New "not a key") end.
Definition toy_junction (_ : relation) (_ _ : list (PartSpec (list go_any))) : result toy_query := Ok (MkToy Memberships []).
Fixpoint toy_slots_of (e : expression) : nat :=
  match e with
  | ELogical _ l => fold_right (fun e n => toy_slots_of e + n) 0 l
  | EBinary _ _ (EValue _) => 1
  | _ => 0
  end.
Definition toy_slots (q : toy_query) : nat := fold_right (fun e n => toy_slots_of e + n) 0 (toy_where q).
Definition toy_load (same : Z -> Z -> bool) (store : plan_store (list go_any) toy_graph toy_query) : option (result (list toy_graph)) :=
  LoadGraph (QueryOps0 := toy_ops same) (QueryOps1 := toy_ops same) toy_slots toy_junction toy_adopt store toy_executor (Some 1%positive).

Example toy_loaded : toy_load Z.eqb toy_store = Some (Ok [
  Tree 1 [Tree 7 [Leaf 1; Leaf 11; Leaf 1]; Tree 8 [Leaf 2; Leaf 1]]; Tree 2 [Tree 8 [Leaf 2; Leaf 1]];
  Tree 11 [Tree 7 [Leaf 1; Leaf 11; Leaf 1]]]%Z).
Proof. vm_compute. reflexivity. Qed.

(** ** A collation under which distinct keys compare equal

    The rows of a batch are checked against the keys of all parents, not
    against the batch's own.  When the engine's equality is coarser than the
    keys' (a case-insensitive collation), a row whose key was requested comes
    back with every batch that holds an equal key, and its parent gets it once
    per batch. *)
Definition toy_own (limit : Z) : graphEdgeSpec (list go_any) toy_graph :=
  MkEdge 2 graphHasMany "members" (Some [toy_part "a"]) (Some [toy_part "a"]) None None RelZero (Some 3%positive)
         (MkOptions no_predicate [] 0 limit) (Some toy_attach).
Definition toy_own_store (limit : Z) : plan_store (list go_any) toy_graph toy_query :=
  <[1%positive := toy_node Users [Some (toy_own limit)]]> (<[3%positive := toy_node Memberships []]> ∅).
Definition toy_collation (x y : Z) : bool := (x mod 10 =? y mod 10)%Z.
Lemma collation_duplicates :
  toy_load toy_collation (toy_own_store 0) = Some (Ok [Tree 1 [Leaf 1; Leaf 1; Leaf 1]; Tree 2 [Leaf 2]; Tree 11 [Leaf 11]])%Z /\
  toy_load toy_collation (toy_own_store 1) =
    Some (Ok [Tree 1 [Leaf 1; Leaf 1; Leaf 1; Leaf 1; Leaf 1; Leaf 1]; Tree 2 [Leaf 2]; Tree 11 [Leaf 11; Leaf 11]])%Z.
Proof. split; vm_compute; reflexivity. Qed.

(** ** The small engine obeys the laws *)
Lemma toy_connectives : connectives (toy_truth Z.eqb).
Proof.
  split; [done|]. intros r a b. unfold Or. simpl. by rewrite orb_false_r.
Qed.
Lemma run_rows_all {R} (rows : list R) k rs k' : run_rows (Ok <$> rows) k = Ok (rs, k') -> rs = rows.
Proof.
  revert k rs k'. induction rows as [|r rows IH]; intros k rs k'; simpl; [by intros [= <- _]|].
  destruct (run_rows _ _) as [[rs1 k1]|] eqn:E; [|done]. apply IH in E as ->. by intros [= <- _].
Qed.
Lemma toy_answers : answers (QueryOps0 := toy_ops Z.eqb) (C := toy_query) (toy_truth Z.eqb) (toy_result Z.eqb).
Proof.
  split.
  - intros q c n k rs k' [= <-] _ E. by apply run_rows_all in E.
  - intros q options columns limit base m c n k rs k' [= <-] [= <-] _ E. apply run_rows_all in E as ->.
    unfold toy_result. rewrite list_filter_filter. apply list_filter_ext. intros r _. simpl. by rewrite andb_true_iff.
Qed.
Lemma toy_result_rows q r : r ∈ toy_result Z.eqb q -> r ∈ toy_rows Users ++ toy_rows Memberships ++ toy_rows Groups.
Proof. intros [_ Hr]%list_elem_of_filter. destruct (toy_from q); set_solver. Qed.
(** Every cell is a small integer. *)
Definition toy_small (r : list go_any) : bool :=
  match r with [GInt a; GInt b] => (0 <=? a)%Z && (a <? 100)%Z && (0 <=? b)%Z && (b <? 100)%Z | _ => false end.
Lemma toy_result_small q r : r ∈ toy_result Z.eqb q ->
  exists a b, r = [GInt a; GInt b] /\ (0 <= a < 100)%Z /\ (0 <= b < 100)%Z.
Proof.
  intros Hr%toy_result_rows. assert (forallb toy_small (toy_rows Users ++ toy_rows Memberships ++ toy_rows Groups) = true) as H by reflexivity.
  rewrite forallb_forall in H. specialize (H r ltac:(by apply list_elem_of_In)).
  destruct r as [|[] [|[] [|]]]; try done. exists z, z0. unfold toy_small in H. rewrite !andb_true_iff in H. split; [done|]. lia.
Qed.
Lemma toy_cell q r name : r ∈ toy_result Z.eqb q -> exists z, toy_column name r = GInt z /\ (0 <= z < 100)%Z.
Proof.
  intros (a & b & -> & Ha & Hb)%toy_result_small. unfold toy_column. destruct (String.eqb name "a"); [by exists a|by exists b].
Qed.
Lemma toy_read name r z : toy_column name r = GInt z -> read_part (H := toy_codecs) (toy_part name) r = Ok (Some (DInt64 z, byte_of tagInt64 +:+ put_be 8 8 +:+ put_be 8 (uint64 z))).
Proof. intros E. unfold read_part. cbn [toy_part pt_Extract]. rewrite E. reflexivity. Qed.
Lemma toy_read_value name z : read_value (H := toy_codecs) (toy_part name) (GInt z) = Ok (Some (DInt64 z, byte_of tagInt64 +:+ put_be 8 8 +:+ put_be 8 (uint64 z))).
Proof. reflexivity. Qed.
Lemma toy_compares name rd q :
  (forall r z, r ∈ toy_result Z.eqb q -> toy_column name r = GInt z -> exists f, rd r = Ok (Some (DInt64 z, f))) ->
  compares toy_adopt (toy_truth Z.eqb) (toy_result Z.eqb q) (toy_part name) rd.
Proof.
  intros Hrd v i b Hb r Hr. destruct (toy_cell _ _ name Hr) as (z & Ez & _). destruct (Hrd r z Hr Ez) as [f Ef]. rewrite Ef.
  destruct v; try done. injection Hb as <-. simpl. rewrite Ez. rewrite Z.eqb_eq. split; [intros ->; by exists f|]. by intros [f' [= -> _]].
Qed.
Lemma toy_compares_part name q : Forall2 (compares toy_adopt (toy_truth Z.eqb) (toy_result Z.eqb q)) [toy_part name] (readers (H := toy_codecs) [toy_part name]).
Proof. constructor; [|constructor]. apply toy_compares. intros r z _ E. eexists. by apply toy_read. Qed.
Lemma toy_typed_part name q : typed_rows (toy_result Z.eqb q) (key_of (H := toy_codecs) [toy_part name]).
Proof.
  intros r vs Hr. destruct (toy_cell _ _ name Hr) as (z & Ez & Hz). unfold key_of, reads, readers, reading. simpl.
  rewrite (toy_read _ _ _ Ez). simpl. intros [= <-]. constructor; [|constructor]. unfold driver_typed. lia.
Qed.
Lemma toy_typed_values name i q : i < 2 -> typed_rows (toy_result Z.eqb q) (values_key (H := toy_codecs) i [toy_part name]).
Proof.
  intros Hi r vs (a & b & -> & Ha & Hb)%toy_result_small. unfold values_key, reads, reading. destruct i as [|[|]]; [| |lia];
    cbn [value_readers nth mapM option_bind]; simpl; intros [= <-]; (constructor; [|constructor]); unfold driver_typed; lia.
Qed.
Lemma toy_nodes (n : node_ptr) node : toy_store !! n = Some node ->
  n = 1%positive /\ n_edges node = [Some toy_groups] \/ n = 2%positive /\ n_edges node = [Some toy_members] \/ n_edges node = [].
Proof.
  unfold toy_store. rewrite !lookup_insert. intros Hn. repeat (case_decide; [injection Hn as <-; auto|]). by rewrite lookup_empty in Hn.
Qed.
Lemma toy_edges e : store_edge toy_store e -> e = toy_groups \/ e = toy_members.
Proof.
  intros (n & node & Hn & He). destruct (toy_nodes n node Hn) as [[_ E]|[[_ E]|E]]; rewrite E in He; set_solver.
Qed.
Lemma toy_keys e : store_edge toy_store e ->
  key_laws toy_adopt toy_codecs (toy_result Z.eqb) (toy_result Z.eqb) (toy_truth Z.eqb) (toy_truth Z.eqb) e.
Proof.
  intros [-> | ->]%toy_edges; (split; [intros key q [[= <-]|[= <-]]; apply toy_typed_part| |intros key q [= <-]; apply toy_compares_part|]); try done.
  - intros jp jc q [= <-] [= <-]. split; apply toy_typed_values; simpl; lia.
  - intros jp q [= <-]. constructor; [|constructor]. apply toy_compares. intros r z (a & b & -> & _)%toy_result_small [= ->]. eexists. apply toy_read_value.
Qed.

(** The load of [toy_loaded] satisfies every hypothesis. *)
Lemma LoadGraph_sound_witness :
  built toy_store /\ exists gs, toy_load Z.eqb toy_store = Some (Ok gs) /\ length gs = 3 /\
  exists node, toy_store !! 1%positive = Some node /\
    mapM (graph_of (QueryOps0 := toy_ops Z.eqb) (QueryOps1 := toy_ops Z.eqb) toy_junction toy_store toy_codecs (toy_result Z.eqb) (toy_result Z.eqb)
            (level_fuel toy_store) 1%positive) (toy_result Z.eqb (n_query node)) = Some gs.
Proof.
  assert (built toy_store) as Hb.
  { intros e [-> | ->]%toy_edges; exists (fun _ => "t"), "t"; reflexivity. }
  split; [exact Hb|]. eexists. split; [exact toy_loaded|]. split; [done|].
  eapply (LoadGraph_sound (QueryOps0 := toy_ops Z.eqb) (QueryOps1 := toy_ops Z.eqb) toy_slots toy_junction toy_adopt toy_store toy_executor toy_codecs).
  - reflexivity.
  - exact toy_answers.
  - exact toy_answers.
  - exact toy_connectives.
  - exact toy_connectives.
  - exact Hb.
  - intros n n' node node' i j e e' Hn Hn' He He' Ep. destruct (toy_nodes n node Hn) as [[-> E]|[[-> E]|E]];
      destruct (toy_nodes n' node' Hn') as [[-> E']|[[-> E']|E']]; rewrite E in He; rewrite E' in He'; destruct i as [|[]], j as [|[]]; try done;
      injection He as <-; injection He' as <-; done.
  - exact toy_keys.
  - exact toy_loaded.
Defined.

(** Keys of one width over typed values; the same row, and another. *)
Lemma Tuple_identity_witness :
  exists t t', Tuple (H := toy_codecs) [toy_part "a"] [GInt 1; GInt 2]%Z = Ok (Some t) /\
    Tuple (H := toy_codecs) [toy_part "b"] [GInt 3; GInt 1]%Z = Ok (Some t') /\ Identity t = Identity t'.
Proof.
  eexists _, _. split; [reflexivity|]. split; [reflexivity|].
  apply (Tuple_identity (H := toy_codecs) [toy_part "a"] [toy_part "b"] [GInt 1; GInt 2]%Z [GInt 3; GInt 1]%Z _ _ eq_refl eq_refl eq_refl).
  - repeat constructor; unfold driver_typed; lia.
  - repeat constructor; unfold driver_typed; lia.
  - reflexivity.
Defined.
