(* ===== verification/Files.v ===== *)
(** * Files: what the repository uses of [os], [io/fs] and [path/filepath]

    A path is the list of its components.  A directory keeps its entries in
    name order, the order [os.ReadDir] and [filepath.WalkDir] give them in.
    Every call to the operating system is numbered, and any of them may fail:
    [refused] decides. *)

From S2P Require Import Prelude GoText.
Open Scope string_scope.
Open Scope list_scope.
Open Scope nat_scope.

Definition path : Type := list string.
Inductive node : Type :=
| File (data : string)
| Dir (children : list (string * node)).

(** A property of every node, the entries of a directory first. *)
Lemma node_entries_ind (P : node -> Prop) :
  (forall data, P (File data)) -> (forall l, Forall (fun c => P (snd c)) l -> P (Dir l)) -> forall n, P n.
Proof.
  intros HF HD. fix IH 1. intros [data|l]; [apply HF|]. apply HD.
  induction l as [|[name x] l IHl]; constructor; [apply IH|exact IHl].
Qed.

(** ** Directories *)
Fixpoint child (name : string) (l : list (string * node)) : option node :=
  match l with
  | [] => None
  | (n, x) :: l' => if String.eqb n name then Some x else child name l'
  end.
Fixpoint replace_child (name : string) (x : node) (l : list (string * node)) : list (string * node) :=
  match l with
  | [] => []
  | (n, y) :: l' => if String.eqb n name then (name, x) :: l' else (n, y) :: replace_child name x l'
  end.
Fixpoint insert_child (name : string) (x : node) (l : list (string * node)) : list (string * node) :=
  match l with
  | [] => [(name, x)]
  | (n, y) :: l' => if str_ltb name n then (name, x) :: l else (n, y) :: insert_child name x l'
  end.
Definition set_child (name : string) (x : node) (l : list (string * node)) : list (string * node) :=
  match child name l with Some _ => replace_child name x l | None => insert_child name x l end.
Fixpoint remove_child (name : string) (l : list (string * node)) : list (string * node) :=
  match l with
  | [] => []
  | (n, y) :: l' => if String.eqb n name then l' else (n, y) :: remove_child name l'
  end.

Fixpoint find (n : node) (p : path) : option node :=
  match p with
  | [] => Some n
  | name :: p' =>
      match n with
      | Dir l => match child name l with Some c => find c p' | None => None end
      | File _ => None
      end
  end.
(** Replace what is at a path, or remove it; the directory holding it must
    exist. *)
Fixpoint put (p : path) (x : option node) (n : node) : node :=
  match p, n with
  | name :: p', Dir l =>
      match p' with
      | [] => Dir (match x with Some y => set_child name y l | None => remove_child name l end)
      | _ => match child name l with Some c => Dir (set_child name (put p' x c) l) | None => n end
      end
  | _, _ => n
  end.
Definition is_dir (n : option node) : bool := match n with Some (Dir _) => true | _ => false end.

Definition Parent (p : path) : path := removelast p.      (* filepath.Dir *)
Definition Base (p : path) : string := List.last p "".    (* filepath.Base *)
Definition show (p : path) : string := Join p "/".

(** ** Names *)
(** [filepath.Base(name) == name], for a name that is not empty: a single
    component. *)
Definition is_base (name : string) : bool := negb (Contains name "/") || String.eqb name "/".
(** [filepath.Ext]: from the last dot on; a slash ends the search. *)
Fixpoint ext_from (r acc : string) : string :=
  match r with
  | "" => ""
  | String c r' =>
      if Ascii.eqb c "/"%char then ""
      else if Ascii.eqb c "."%char then String c acc
      else ext_from r' (String c acc)
  end.
Definition Ext (name : string) : string := ext_from (str_rev name) "".

(** ** Calls *)
Class OS := {
  refused : nat -> option error;      (* the call with this number fails *)
  torn : nat -> string;               (* what a failing write left in its file *)
  nextRandom : nat -> nat -> string }. (* the suffixes a call tries, in order *)

Record world := MkWorld { tree : node; calls : nat }.
Definition io (A : Type) : Type := world -> result A * world.
Definition ret {A} (r : result A) : io A := fun w => (r, w).
Definition bind {A B} (m : io A) (k : A -> io B) : io B := fun w =>
  match m w with
  | (Ok a, w') => k a w'
  | (Err e, w') => (Err e, w')
  end.
(** [if err != nil { return f(err) }] around a call. *)
Definition wrap_io {A} (f : error -> error) (m : io A) : io A := fun w =>
  let '(r, w') := m w in (wrap_err f r, w').
Declare Scope io_scope.
Delimit Scope io_scope with io.
Notation "'let!' x := m 'in' k" := (bind m (fun x => k)) (at level 10, x pattern, m at level 100, k at level 200) : io_scope.
Notation "m ;; k" := (bind m (fun _ : unit => k)) (at level 100, k at level 200, right associativity) : io_scope.

Fixpoint for_io {A S} (body : A -> S -> io S) (l : list A) (s : S) : io S :=
  match l with
  | [] => ret (Ok s)
  | x :: l' => bind (body x s) (for_io body l')
  end.

Section Calls.
Context {os : OS}.

Definition PathError (op : string) (p : path) (what : string) : error :=
  MkError (KTyped "fs.PathError") what [AStr op; AStr (show p)].
(** A call: [work] when it succeeds, [broken] on the tree when it is refused. *)
Definition call {A} (broken : nat -> node -> node) (work : nat -> node -> result A * node) : io A := fun w =>
  match refused (calls w) with
  | Some e => (Err e, MkWorld (broken (calls w) (tree w)) (S (calls w)))
  | None => let '(r, t) := work (calls w) (tree w) in (r, MkWorld t (S (calls w)))
  end.
Definition unchanged (_ : nat) (t : node) : node := t.
Definition has_nul (p : path) : bool := existsb (fun name => Contains name (str1 (chr 0))) p.

Definition ReadDir (p : path) : io (list (string * node)) :=
  call unchanged (fun _ t => (match find t p with
                              | Some (Dir l) => Ok l
                              | Some (File _) => Err (PathError "readdir" p "not a directory")
                              | None => Err (PathError "open" p "no such file or directory")
                              end, t)).
Definition ReadFile (p : path) : io string :=
  call unchanged (fun _ t => (match find t p with
                              | Some (File data) => Ok data
                              | Some (Dir _) => Err (PathError "read" p "is a directory")
                              | None => Err (PathError "open" p "no such file or directory")
                              end, t)).
(** A file can be put at a path whose directory exists and that is not itself
    a directory. *)
Definition writable (t : node) (p : path) : bool :=
  negb (has_nul p) && is_dir (find t (Parent p)) && negb (is_dir (find t p)).
Definition WriteFile (p : path) (data : string) : io unit :=
  call (fun n t => if writable t p then put p (Some (File (torn n))) t else t)
       (fun _ t => if writable t p then (Ok tt, put p (Some (File data)) t)
                   else (Err (PathError "open" p "cannot be written"), t)).

(** [os.MkdirAll]: every missing directory on the way. *)
Fixpoint make_all (p : path) (n : node) : option node :=
  match p, n with
  | [], Dir _ => Some n
  | _, File _ => None
  | name :: p', Dir l =>
      match make_all p' (default (Dir []) (child name l)) with
      | Some c => Some (Dir (set_child name c l))
      | None => None
      end
  end.
Definition MkdirAll (p : path) : io unit :=
  call unchanged (fun _ t => if has_nul p then (Err (PathError "mkdir" p "invalid argument"), t)
                             else match make_all p t with
                                  | Some t' => (Ok tt, t')
                                  | None => (Err (PathError "mkdir" p "not a directory"), t)
                                  end).
(** [os.MkdirTemp]: up to 10000 names are tried. *)
Fixpoint first_free (fuel try : nat) (t : node) (dir : path) (prefix : string) (suffix : nat -> string) : option path :=
  match fuel with
  | 0 => None
  | S fuel' =>
      let p := dir ++ [prefix +:+ suffix try] in
      match find t p with None => Some p | Some _ => first_free fuel' (S try) t dir prefix suffix end
  end.
Definition MkdirTemp (dir : path) (prefix : string) : io path :=
  call unchanged (fun n t =>
    match find t dir with
    | Some (Dir _) =>
        if Contains prefix (str1 (chr 0)) then (Err (PathError "mkdirtemp" dir "invalid argument"), t)
        else match first_free 10000 0 t dir prefix (nextRandom n) with
             | Some p => (Ok p, put p (Some (Dir [])) t)
             | None => (Err (PathError "mkdirtemp" (dir ++ [prefix]) "file exists"), t)
             end
    | _ => (Err (PathError "mkdirtemp" dir "no such file or directory"), t)
    end).
(** [os.Rename] of a directory: nothing may be at the new path. *)
Definition Rename (old new : path) : io unit :=
  call unchanged (fun _ t =>
    match find t old, find t new with
    | Some x, None =>
        if is_dir (find t (Parent new)) && negb (has_nul new)
        then (Ok tt, put new (Some x) (put old None t))
        else (Err (PathError "rename" new "no such file or directory"), t)
    | Some _, Some _ => (Err (PathError "rename" new "file exists"), t)
    | None, _ => (Err (PathError "rename" old "no such file or directory"), t)
    end).
Definition RemoveAll (p : path) : io unit :=
  call unchanged (fun _ t => (Ok tt, match find t p with Some _ => put p None t | None => t end)).
End Calls.

(** ** Laws of directories *)
Lemma child_set_child name x l m :
  child m (set_child name x l) = if String.eqb name m then Some x else child m l.
Proof.
  unfold set_child. destruct (child name l) as [c|] eqn:E.
  - revert E. induction l as [|[n y] l IH]; simpl; [done|].
    destruct (String.eqb_spec n name) as [->|Ne]; simpl; [by destruct (String.eqb_spec name m)|].
    intros E. rewrite IH by done. destruct (String.eqb_spec n m), (String.eqb_spec name m); congruence.
  - revert E. induction l as [|[n y] l IH]; simpl; [done|].
    destruct (String.eqb_spec n name) as [->|Ne]; [done|]. intros E.
    destruct (str_ltb name n); simpl; [done|]. rewrite IH by done.
    destruct (String.eqb_spec n m), (String.eqb_spec name m); congruence.
Qed.
Lemma set_child_same name x l : child name l = Some x -> set_child name x l = l.
Proof.
  intros E. unfold set_child. rewrite E. revert E. induction l as [|[n y] l IH]; simpl; [done|].
  destruct (String.eqb_spec n name) as [->|Ne]; [by intros [= ->]|]. intros E. by rewrite IH.
Qed.
Lemma set_set_child name x y l : set_child name y (set_child name x l) = set_child name y l.
Proof.
  unfold set_child at 1. rewrite child_set_child, String.eqb_refl. unfold set_child.
  destruct (child name l) as [c|] eqn:E; revert E; induction l as [|[n z] l IH]; simpl; try done.
  - destruct (String.eqb_spec n name) as [->|Ne]; simpl; [by rewrite String.eqb_refl|].
    intros E. destruct (String.eqb_spec n name); [done|]. by rewrite IH.
  - by rewrite String.eqb_refl.
  - destruct (String.eqb_spec n name) as [->|Ne]; [done|]. intros E.
    destruct (str_ltb name n); simpl; [by rewrite String.eqb_refl|]. destruct (String.eqb_spec n name); [done|]. by rewrite IH.
Qed.
Lemma remove_set_child name x l : child name l = None -> remove_child name (set_child name x l) = l.
Proof.
  intros E. unfold set_child. rewrite E. revert E. induction l as [|[n y] l IH]; simpl; [by rewrite String.eqb_refl|].
  destruct (String.eqb_spec n name) as [->|Ne]; [done|]. intros H.
  destruct (str_ltb name n); simpl; [by rewrite String.eqb_refl|].
  destruct (String.eqb_spec n name); [done|]. by rewrite IH.
Qed.
Lemma child_remove_other name l m : m <> name -> child m (remove_child name l) = child m l.
Proof.
  intros Ne. induction l as [|[n y] l IH]; simpl; [done|].
  destruct (String.eqb_spec n name) as [->|]; simpl.
  - by destruct (String.eqb_spec name m).
  - by rewrite IH.
Qed.
Lemma set_child_perm name x l : child name l = None -> set_child name x l ≡ₚ (name, x) :: l.
Proof.
  intros E. unfold set_child. rewrite E. clear E. induction l as [|[n y] l IH]; simpl; [done|].
  destruct (str_ltb name n); [done|]. rewrite IH. apply Permutation_swap.
Qed.
Lemma child_elem name x l : NoDup (fst <$> l) -> child name l = Some x <-> (name, x) ∈ l.
Proof.
  induction l as [|[n y] l IH]; simpl; [set_solver|]. intros [Hn H]%NoDup_cons.
  rewrite elem_of_cons. destruct (String.eqb_spec n name) as [->|Ne].
  - split; [intros [= ->]; by left|]. intros [[= ->]|Hx]; [done|]. destruct Hn. apply list_elem_of_fmap. by exists (name, x).
  - rewrite IH by done. split; [by right|]. by intros [[= -> ->]|].
Qed.

(** ** Laws of paths *)
Lemma find_app n p q : find n (p ++ q) = match find n p with Some x => find x q | None => None end.
Proof.
  revert n. induction p as [|name p IH]; intros n; simpl; [done|].
  destruct n as [|l]; [done|]. destruct (child name l); [apply IH|done].
Qed.
Lemma put_cons name c p x l : child name l = Some c -> p <> [] ->
  put (name :: p) x (Dir l) = Dir (set_child name (put p x c) l).
Proof. intros H Ne. destruct p; [done|]. simpl. by rewrite H. Qed.
(** Below a directory, [put] is what happens in that directory. *)
Lemma find_put_below n p q x l : find n p = Some (Dir l) -> q <> [] ->
  find (put (p ++ q) x n) p = Some (put q x (Dir l)).
Proof.
  revert n. induction p as [|name p IH]; intros n; simpl find at 1; [by intros [= ->]|].
  destruct n as [|l']; [done|]. destruct (child name l') as [c|] eqn:E; [|done]. intros H Ne.
  change ((name :: p) ++ q) with (name :: (p ++ q)).
  rewrite (put_cons name c) by (done || by destruct p, q). simpl.
  rewrite child_set_child, String.eqb_refl. by apply IH.
Qed.
Lemma find_parent n p : p <> [] -> is_dir (find n (Parent p)) = true ->
  exists l, find n (Parent p) = Some (Dir l) /\ p = Parent p ++ [Base p].
Proof.
  intros Ne H. unfold is_dir in H. destruct (find n (Parent p)) as [[|l]|]; try done.
  exists l. split; [done|]. by apply app_removelast_last.
Qed.
Lemma find_put_child n p name x l : find n p = Some (Dir l) -> find (put (p ++ [name]) (Some x) n) (p ++ [name]) = Some x.
Proof.
  intros Hl. rewrite find_app, (find_put_below _ _ _ _ l) by done. simpl. by rewrite child_set_child, String.eqb_refl.
Qed.
Lemma find_put_same n p x : p <> [] -> is_dir (find n (Parent p)) = true -> find (put p (Some x) n) p = Some x.
Proof.
  intros Ne H. destruct (find_parent _ _ Ne H) as (l & Hl & E). rewrite E. by eapply find_put_child.
Qed.
Lemma put_put p x y n : put p (Some y) (put p (Some x) n) = put p (Some y) n.
Proof.
  revert n. induction p as [|name p IH]; intros n; [done|]. destruct n as [|l]; [by destruct p|].
  destruct p as [|name' p]; [simpl; by rewrite set_set_child|].
  destruct (child name l) as [c|] eqn:E; [|simpl; by rewrite !E].
  rewrite !(put_cons name c (name' :: p) _ l) by done.
  rewrite (put_cons name (put (name' :: p) (Some x) c)) by (done || by rewrite child_set_child, String.eqb_refl).
  by rewrite set_set_child, IH.
Qed.
Lemma put_below p q x n l : p <> [] -> q <> [] -> is_dir (find n (Parent p)) = true ->
  put (p ++ q) x (put p (Some (Dir l)) n) = put p (Some (put q x (Dir l))) n.
Proof.
  intros Np Nq. revert n Np. induction p as [|name p IH]; intros n Np H; [done|]. destruct n as [|l0]; [by destruct p|].
  change ((name :: p) ++ q) with (name :: (p ++ q)). destruct p as [|name' p].
  - simpl app. simpl (put [name] _ _). rewrite (put_cons name (Dir l)) by (done || by rewrite child_set_child, String.eqb_refl).
    by rewrite set_set_child.
  - change (Parent (name :: name' :: p)) with (name :: Parent (name' :: p)) in H. simpl find in H.
    destruct (child name l0) as [c|] eqn:E; [|done].
    rewrite !(put_cons name c (name' :: p) _ l0) by done.
    rewrite (put_cons name (put (name' :: p) (Some (Dir l)) c)) by (done || by rewrite child_set_child, String.eqb_refl).
    by rewrite set_set_child, IH.
Qed.
(** What was put where nothing was is removed without a trace. *)
Lemma put_undo p x n : find n p = None -> put p None (put p (Some x) n) = n.
Proof.
  revert n. induction p as [|name p IH]; intros n; [done|]. destruct n as [|l]; [by destruct p|].
  destruct p as [|name' p].
  - simpl. destruct (child name l) eqn:E; [done|]. intros _. by rewrite remove_set_child.
  - change (find (Dir l) (name :: name' :: p)) with (match child name l with Some c => find c (name' :: p) | None => None end).
    destruct (child name l) as [c|] eqn:E; [|simpl; by rewrite !E]. intros H.
    rewrite (put_cons name c) by done.
    rewrite (put_cons name (put (name' :: p) (Some x) c)) by (done || by rewrite child_set_child, String.eqb_refl).
    by rewrite set_set_child, IH, set_child_same.
Qed.
(** Elsewhere, nothing happens. *)
Definition apart (p q : path) : Prop := ~ (exists r, q = p ++ r) /\ ~ (exists r, p = q ++ r).
Lemma find_put_apart n p q x : apart p q -> find (put p x n) q = find n q.
Proof.
  revert n q. induction p as [|name p IH]; intros n q [Hp Hq].
  - by destruct Hp; exists q.
  - destruct q as [|m q]; [by destruct Hq; exists (name :: p)|].
    destruct n as [|l]; [done|]. destruct p as [|name' p].
    + assert (m <> name) as Ne by (intros ->; destruct Hp; by exists q). simpl.
      destruct x as [y|]; [rewrite child_set_child; by destruct (String.eqb_spec name m)|].
      by rewrite child_remove_other.
    + destruct (child name l) as [c|] eqn:E; [|simpl; by rewrite E].
      rewrite (put_cons name c) by done. simpl find. rewrite child_set_child.
      destruct (String.eqb_spec name m) as [->|Ne]; [|done]. rewrite E. apply IH.
      split; [intros [r ->]; destruct Hp|intros [r Hr]; destruct Hq]; exists r; [done|]. by rewrite Hr.
Qed.

(** The data of the file at a path. *)
Definition file_at (n : node) (p : path) : option string :=
  match find n p with Some (File data) => Some data | _ => None end.
Lemma file_at_put n p q x : p <> [] -> ~ (exists r, q = p ++ r) -> file_at (put p x n) q = file_at n q.
Proof.
  unfold file_at. revert n q. induction p as [|name p IH]; intros n q Ne Hp; [done|].
  destruct n as [|l]; [done|]. destruct q as [|m q]; [simpl; by destruct p, (child name l)|].
  destruct p as [|name' p].
  - assert (m <> name) as Ne' by (intros ->; destruct Hp; by exists q). simpl.
    destruct x as [y|]; [rewrite child_set_child; by destruct (String.eqb_spec name m)|].
    by rewrite child_remove_other.
  - destruct (child name l) as [c|] eqn:E; [|simpl; by rewrite E].
    rewrite (put_cons name c) by done. simpl find. rewrite child_set_child.
    destruct (String.eqb_spec name m) as [->|]; [|done]. rewrite E. apply IH; [done|].
    intros [r Hr]. destruct Hp. exists r. simpl. by f_equal.
Qed.
Lemma file_at_make_all n p n' q : make_all p n = Some n' -> file_at n' q = file_at n q.
Proof.
  unfold file_at. revert n n' q. induction p as [|name p IH]; intros [|l] n' q; simpl; try done; [by intros [= <-]|].
  destruct (make_all p _) as [c|] eqn:E; [|done]. intros [= <-]. destruct q as [|m q]; [done|]. simpl.
  rewrite child_set_child. destruct (String.eqb_spec name m) as [->|]; [|done].
  rewrite (IH _ _ q E). destruct (child m l) as [c'|]; [done|]. by destruct q.
Qed.
Lemma find_make_all n p n' : make_all p n = Some n' -> is_dir (find n' p) = true.
Proof.
  revert n n'. induction p as [|name p IH]; intros [|l] n'; simpl; try done; [by intros [= <-]|].
  destruct (make_all p _) as [c|] eqn:E; [|done]. intros [= <-]. simpl.
  rewrite child_set_child, String.eqb_refl. by apply (IH _ _ E).
Qed.

(** ** Laws of programs *)
Lemma io_bind_ok {A B} (m : io A) (k : A -> io B) w b w' :
  bind m k w = (Ok b, w') <-> exists a w1, m w = (Ok a, w1) /\ k a w1 = (Ok b, w').
Proof. unfold bind. destruct (m w) as [[a|e] w1]; naive_solver. Qed.
Lemma wrap_io_ok {A} (f : error -> error) (m : io A) w a w' : wrap_io f m w = (Ok a, w') <-> m w = (Ok a, w').
Proof. unfold wrap_io. destruct (m w) as [[x|e] w1]; simpl; naive_solver. Qed.
