(* ===== verification/MigrationDir.v ===== *)
(** * MigrationDir: [internal/migrationdir]

    A directory tree of SQL sources read back into migrations: one directory
    per migration, its sources told apart by their suffixes, forward sources
    in ascending name order and reverse sources in descending name order. *)

From S2P Require Import Prelude GoText Migration Files.
Open Scope string_scope.
Open Scope list_scope.
Open Scope nat_scope.
Open Scope io_scope.

Definition upSuffix : string := ".up.sql".
Definition downSuffix : string := ".down.sql".
Definition modeFile : string := ".rasql-mode".

(** [sort.Sort(sort.Reverse(...))]. *)
Definition sort_Reverse (l : list string) : list string := rev (sort_Strings l).

(** What the loop over the entries of a migration directory collects. *)
Record listing := MkListing { upFiles : list string; downFiles : list string; l_mode : string; stems : gset string }.
Definition empty_listing : listing := MkListing [] [] ExecutionModeAtomic ∅.

Section Load.
Context {os : OS}.

Definition invalid_mode (data : string) : bool :=
  (4096 <? String.length data) || negb (ValidString data)
  || negb (String.eqb (TrimSpace data) ExecutionModeNonTransactional).
Definition list_entry (directory : path) (i : string) (entry : string * node) (st : listing) : io listing :=
  let '(name, x) := entry in
  if String.eqb name modeFile then
    if is_dir (Some x) then ret (Err (Errorf "migration %q execution mode is a directory" [AStr i]))
    else
      let! data := wrap_io (fun e => Errorf "read migration %q execution mode: %w" [AStr i; AErr e])
                     (ReadFile (directory ++ [name])) in
      if invalid_mode data then ret (Err (Errorf "migration %q has an invalid execution mode" [AStr i]))
      else ret (Ok (MkListing (upFiles st) (downFiles st) ExecutionModeNonTransactional (stems st)))
  else if HasPrefix name "." then ret (Ok st)
  else if is_dir (Some x) then ret (Err (Errorf "migration %q contains subdirectory %q" [AStr i; AStr name]))
  else if HasSuffix name upSuffix
  then ret (Ok (MkListing (upFiles st ++ [name]) (downFiles st) (l_mode st) ({[ TrimSuffix name upSuffix ]} ∪ stems st)))
  else if HasSuffix name downSuffix
  then ret (Ok (MkListing (upFiles st) (downFiles st ++ [name]) (l_mode st) (stems st)))
  else ret (Err (Errorf "migration %q contains %q, which is neither a %s nor a %s source"
                   [AStr i; AStr name; AStr upSuffix; AStr downSuffix])).

Definition readStatements (directory : path) (i : string) (filenames : list string) : io (list SqlSource) :=
  for_io (fun filename statements =>
    let! data := wrap_io (fun e => Errorf "read migration %q SQL source %q: %w" [AStr i; AStr filename; AErr e])
                   (ReadFile (directory ++ [filename])) in
    ret (Ok (statements ++ [MkSource filename data]))) filenames [].

Definition validated_migration (m : Migration) : io Migration := ret (check validate m; Ok m).
(** Every reverse source undoes a forward source of the same stem. *)
Definition check_stems (i : string) (st : listing) : result unit :=
  checki (fun _ name =>
    if bool_decide (TrimSuffix name downSuffix ∈ stems st) then Ok tt
    else Err (Errorf "migration %q reverse source %q matches no %s source" [AStr i; AStr name; AStr upSuffix]))
    0 (sort_Reverse (downFiles st)).

Definition loadMigration (directory : path) (i : string) : io Migration :=
  let! entries := wrap_io (fun e => Errorf "read migration %q: %w" [AStr i; AErr e]) (ReadDir directory) in
  let! st := for_io (list_entry directory i) entries empty_listing in
  let ups := sort_Strings (upFiles st) in
  let downs := sort_Reverse (downFiles st) in
  if length ups =? 0 then ret (Err (Errorf "migration %q has no %s source" [AStr i; AStr upSuffix]))
  else if length downs =? 0 then
    let! statements := readStatements directory i ups in
    validated_migration (MkMigration i (l_mode st) statements [])
  else
    ret (check_stems i st) ;;
    let! statements := readStatements directory i ups in
    let! down := readStatements directory i downs in
    validated_migration (MkMigration i (l_mode st) statements down).

Definition Load (directory : path) : io (list Migration) :=
  let! entries := wrap_io (fun e => Errorf "read migration directory: %w" [AErr e]) (ReadDir directory) in
  let! directories := ret (foldi (fun _ entry directories =>
    if HasPrefix (fst entry) "." then Ok directories
    else if negb (is_dir (Some (snd entry)))
    then Err (Errorf "migration directory %q contains non-directory entry %q" [AStr (show directory); AStr (fst entry)])
    else Ok (directories ++ [fst entry])) 0 entries []) in
  if length directories =? 0
  then ret (Err (Errorf "migration directory %q has no migration directories" [AStr (show directory)]))
  else for_io (fun name migrations =>
         let! migration := loadMigration (directory ++ [name]) name in
         ret (Ok (migrations ++ [migration]))) (sort_Strings directories) [].
End Load.

(** ** Reading a directory of sources *)
Record source_name (stem suffix name : string) : Prop := {
  sn_name : name = stem +:+ suffix; sn_visible : HasPrefix name "." = false; sn_not_mode : String.eqb name modeFile = false }.
Lemma source_name_intro stem suffix : HasPrefix stem "." = false -> stem <> "" -> source_name stem suffix (stem +:+ suffix).
Proof.
  intros Hd Ne. assert (HasPrefix (stem +:+ suffix) "." = false) as Hv by (by destruct stem).
  split; [done..|]. apply String.eqb_neq. intros E. by rewrite E in Hv.
Qed.
Lemma down_not_up stem : HasSuffix (stem +:+ downSuffix) upSuffix = false.
Proof. unfold HasSuffix. by rewrite str_rev_app_rev. Qed.
Lemma up_not_down stem : HasSuffix (stem +:+ upSuffix) downSuffix = false.
Proof. unfold HasSuffix. by rewrite str_rev_app_rev. Qed.

Definition is_up (name : string) : bool := HasSuffix name upSuffix.
Definition is_down (name : string) : bool := HasSuffix name downSuffix.
(** An entry the loader accepts: the mode file with the mode, or a source. *)
Inductive entry_ok : string * node -> Prop :=
| entry_mode data : invalid_mode data = false -> entry_ok (modeFile, File data)
| entry_up stem name data : source_name stem upSuffix name -> entry_ok (name, File data)
| entry_down stem name data : source_name stem downSuffix name -> entry_ok (name, File data).

(** What it then collects. *)
Definition listed_as (st : listing) (names : list string) : listing :=
  MkListing (upFiles st ++ List.filter is_up names) (downFiles st ++ List.filter is_down names)
    (if existsb (String.eqb modeFile) names then ExecutionModeNonTransactional else l_mode st)
    (stems st ∪ list_to_set (map (fun n => TrimSuffix n upSuffix) (List.filter is_up names))).

Section Reading.
Context {os : OS}.

(** No call from this point on is refused. *)
Definition readable (from : nat) : Prop := forall n, from <= n -> refused n = None.
Definition holds (directory : path) (t : node) (name data : string) : Prop := find t (directory ++ [name]) = Some (File data).

Lemma ReadFile_run directory name data w : readable (calls w) -> holds directory (tree w) name data ->
  ReadFile (directory ++ [name]) w = (Ok data, MkWorld (tree w) (S (calls w))).
Proof. intros H Hd. unfold ReadFile, call. rewrite H by done. unfold holds in Hd. by rewrite Hd. Qed.

Lemma list_entry_run directory i name x st w : readable (calls w) -> entry_ok (name, x) ->
  find (tree w) (directory ++ [name]) = Some x ->
  exists k, list_entry directory i (name, x) st w = (Ok (listed_as st [name]), MkWorld (tree w) k) /\ calls w <= k.
Proof.
  intros Hr He Hf. inversion He as [data Hm|stem name' data Hn|stem name' data Hn]; subst.
  - exists (S (calls w)). split; [|lia]. unfold list_entry. rewrite String.eqb_refl. cbn [is_dir].
    unfold bind, wrap_io. rewrite (ReadFile_run _ _ data) by done. simpl wrap_err. cbv beta iota.
    rewrite Hm. unfold listed_as, ret. simpl. by rewrite !app_nil_r, union_empty_r_L.
  - exists (calls w). split; [|lia]. destruct w as [t k]. unfold list_entry. rewrite (sn_not_mode _ _ _ Hn), (sn_visible _ _ _ Hn).
    cbn [is_dir]. pose proof (sn_name _ _ _ Hn) as ->. rewrite HasSuffix_app. unfold listed_as, is_up, is_down. cbn [List.filter map existsb].
    rewrite HasSuffix_app, up_not_down, String.eqb_sym, (sn_not_mode _ _ _ Hn), app_nil_r. cbn [orb map list_to_set foldr].
    unfold ret. by rewrite union_empty_r_L, union_comm_L.
  - exists (calls w). split; [|lia]. destruct w as [t k]. unfold list_entry. rewrite (sn_not_mode _ _ _ Hn), (sn_visible _ _ _ Hn).
    cbn [is_dir]. pose proof (sn_name _ _ _ Hn) as ->. rewrite HasSuffix_app, down_not_up. unfold listed_as, is_up, is_down. cbn [List.filter map existsb].
    rewrite HasSuffix_app, down_not_up, String.eqb_sym, (sn_not_mode _ _ _ Hn), app_nil_r. cbn [orb map list_to_set foldr].
    unfold ret. by rewrite union_empty_r_L.
Qed.
Lemma listed_as_cons st n names : listed_as (listed_as st [n]) names = listed_as st (n :: names).
Proof.
  unfold listed_as. cbn [upFiles downFiles l_mode stems List.filter existsb].
  f_equal.
  - destruct (is_up n); by rewrite <- ?app_assoc, ?app_nil_r.
  - destruct (is_down n); by rewrite <- ?app_assoc, ?app_nil_r.
  - rewrite orb_false_r. by destruct (String.eqb modeFile n), (existsb _ names).
  - destruct (is_up n); cbn [map list_to_set foldr]; set_solver.
Qed.
Lemma list_entries_run directory i es st w : readable (calls w) -> Forall entry_ok es ->
  (forall n x, (n, x) ∈ es -> find (tree w) (directory ++ [n]) = Some x) ->
  exists k, for_io (list_entry directory i) es st w = (Ok (listed_as st (map fst es)), MkWorld (tree w) k) /\ calls w <= k.
Proof.
  revert st w. induction es as [|[n x] es IH]; intros st w Hr He Hf.
  - exists (calls w). split; [|done]. destruct w. unfold listed_as. simpl. unfold ret. rewrite !app_nil_r, union_empty_r_L. by destruct st.
  - inversion He as [|e es' H1 H2]; subst.
    destruct (list_entry_run directory i n x st w Hr H1) as (k & Hk & Hle); [apply Hf; by left|].
    destruct (IH (listed_as st [n]) (MkWorld (tree w) k)) as (k' & Hk' & Hle'); [|done|intros; apply Hf; by right|].
    { intros m Hm. apply Hr. simpl in Hm. lia. }
    exists k'. split; [|simpl in Hle'; lia]. cbn [for_io map fst]. unfold bind. rewrite Hk, Hk'. by rewrite listed_as_cons.
Qed.
Lemma readStatements_run directory i (contents : string -> string) names w : readable (calls w) ->
  Forall (fun n => holds directory (tree w) n (contents n)) names ->
  exists k, readStatements directory i names w = (Ok (map (fun n => MkSource n (contents n)) names), MkWorld (tree w) k) /\ calls w <= k.
Proof.
  unfold readStatements. set (body := fun filename statements => _).
  assert (forall acc w, readable (calls w) -> Forall (fun n => holds directory (tree w) n (contents n)) names ->
    exists k, for_io body names acc w = (Ok (acc ++ map (fun n => MkSource n (contents n)) names), MkWorld (tree w) k) /\ calls w <= k)
    as H; [|apply (H [])].
  clear w. induction names as [|n names IH]; intros acc w Hr HF.
  - exists (calls w). split; [|done]. destruct w. simpl. unfold ret. by rewrite app_nil_r.
  - inversion HF as [|n' names' H1 H2]; subst.
    destruct (IH (acc ++ [MkSource n (contents n)]) (MkWorld (tree w) (S (calls w)))) as (k & Hk & Hle);
      [intros m Hm; apply Hr; simpl in Hm; lia|done|].
    exists k. split; [|simpl in Hle; lia]. cbn [for_io map]. unfold bind at 1. unfold body at 1. unfold bind at 1, wrap_io.
    rewrite (ReadFile_run _ _ (contents n)) by done. simpl wrap_err. cbv beta iota. unfold ret at 1. rewrite Hk. by rewrite <- app_assoc.
Qed.
End Reading.
