(* ===== verification/NativeSql.v ===== *)
(** * NativeSql: [migrate/diff/native_sql.go]

    The check that a caller's SQL is one statement of a dialect.  The parsers
    of the three dialects are other modules, so what they answer is a
    parameter; an UPDATE they reject is checked here, byte by byte, and that
    check is shown to accept exactly what a grammar of tokens and a shape describe.

    A position in the source is written as the text from it on. *)

From S2P Require Import Prelude GoText Schema.
Open Scope string_scope.
Open Scope list_scope.
Open Scope nat_scope.

(** ** Bytes *)
Definition isNativeSpace (ch : ascii) : bool := (in_range 9 10 (code ch) || (code ch =? 13) || (code ch =? 32))%N.
Definition nativeWordStart (ch : ascii) : bool :=
  Ascii.eqb ch "_" || in_range 65 90 (code ch) || in_range 97 122 (code ch).
Definition nativeWordPart (ch : ascii) : bool := nativeWordStart ch || in_range 48 57 (code ch).
(** [strings.EqualFold] of a word, which is ASCII, and a lower case keyword. *)
Definition is_word (word keyword : string) : bool := String.eqb (ToLower word) keyword.

(** ** Comments, quotes and words *)
Fixpoint skipNativeLineComment (s : string) : string :=
  match s with
  | "" => ""
  | String c s' => if Ascii.eqb c newline then s else skipNativeLineComment s'
  end.
Fixpoint nativeBlockEnd (s : string) : option string :=
  match s with
  | "" => None
  | String _ s' => if HasPrefix s "*/" then Some (sdrop 2 s) else nativeBlockEnd s'
  end.
Definition skipNativeBlockComment (s : string) : string := default "" (nativeBlockEnd s).

(** The longest word at the start, and what follows it. *)
Fixpoint take_word (s : string) : string * string :=
  match s with
  | String c s' =>
      if nativeWordPart c then let '(w, r) := take_word s' in (String c w, r) else ("", s)
  | "" => ("", "")
  end.
(** [s] follows the opening dollar. *)
Definition nativeDollarEnd (s : string) : option string :=
  let '(word, r) := take_word s in
  match r with
  | String c body =>
      if Ascii.eqb c "$" then
        let tag := "$" +:+ word +:+ "$" in
        match Index body tag with
        | Some close => Some (sdrop (close + String.length tag) body)
        | None => None
        end
      else None
  | "" => None
  end.
(** [s] follows the opening quote; [skip] bytes of it were passed already. *)
Fixpoint quoted_end (escapes : bool) (close : ascii) (skip : bool) (s : string) : option string :=
  match s with
  | "" => None
  | String c s' =>
      if skip then quoted_end escapes close false s'
      else if escapes && Ascii.eqb c backslash then quoted_end escapes close true s'
      else if negb (Ascii.eqb c close) then quoted_end escapes close false s'
      else match s' with
           | String c2 _ => if Ascii.eqb c2 close then quoted_end escapes close true s' else Some s'
           | "" => Some s'
           end
  end.
Definition nativeQuotedEndDialect (dialect : string) (open : ascii) (s : string) : option string :=
  let close := if Ascii.eqb open "[" then "]"%char else open in
  quoted_end (String.eqb dialect "mysql" && negb (Ascii.eqb close backquote)) close false s.
Definition opens_quote (dialect : string) (c : ascii) : bool :=
  Ascii.eqb c squote || Ascii.eqb c dquote
  || (Ascii.eqb c backquote && negb (String.eqb dialect "postgresql"))
  || (Ascii.eqb c "[" && String.eqb dialect "sqlite").

(** ** Errors *)
Definition native_label (dialect : string) : option string :=
  if String.eqb dialect "postgresql" then Some "PostgreSQL"
  else if String.eqb dialect "mysql" then Some "MySQL"
  else if String.eqb dialect "sqlite" then Some "SQLite" else None.
Definition nativeEnvelopeError (dialect message : string) : error :=
  Errorf "invalid %s SQL: %s" [AStr (default "SQL" (native_label dialect)); AStr message].
Definition wrapDialectParseError (dialect : string) (e : error) : error :=
  match native_label dialect with
  | None => Errorf "invalid SQL: %w" [AErr e]
  | Some label => Errorf "invalid %s SQL: %w" [AStr label; AErr e]
  end.

(** ** The UPDATE check *)
Record envelope := MkEnvelope {
  depth : nat; tokenCount : Z; setAt : Z; equalsAt : Z; terminated : bool }.
Definition no_envelope : envelope := MkEnvelope 0 0 (-1) (-1) false.
(** One more token, at a given depth. *)
Definition count_at (d : nat) (st : envelope) : envelope :=
  MkEnvelope d (tokenCount st + 1) (setAt st) (equalsAt st) (terminated st).
Definition envelope_word (dialect word : string) (st : envelope) : result envelope :=
  let count := (tokenCount st + 1)%Z in
  if (count =? 1)%Z && negb (is_word word "update")
  then Err (nativeEnvelopeError dialect "statement must start with UPDATE")
  else
    let set := if is_word word "set" && (depth st =? 0) && (setAt st <? 0)%Z then count else setAt st in
    if (0 <=? set)%Z && (depth st =? 0)
       && (is_word word "from" || is_word word "returning" || is_word word "order" || is_word word "limit")
    then Err (nativeEnvelopeError dialect ("unsupported UPDATE clause " +:+ word))
    else Ok (MkEnvelope (depth st) count set (equalsAt st) (terminated st)).

Fixpoint envelope_loop (fuel : nat) (dialect s : string) (st : envelope) : result envelope :=
  match fuel, s with
  | 0, _ | _, "" => Ok st
  | S fuel', String c s' =>
      let next := envelope_loop fuel' dialect in
      let line_comment := HasPrefix s "--" in
      let block_comment := HasPrefix s "/*" in
      let hash := String.eqb dialect "mysql" && Ascii.eqb c "#" in
      let unterminated_comment := Err (nativeEnvelopeError dialect "unterminated block comment") in
      if terminated st then
        if isNativeSpace c then next s' st
        else if line_comment then next (skipNativeLineComment (sdrop 2 s)) st
        else if block_comment then
          match nativeBlockEnd (sdrop 2 s) with Some r => next r st | None => unterminated_comment end
        else if hash then next (skipNativeLineComment s') st
        else Err (nativeEnvelopeError dialect "multiple statements")
      else if isNativeSpace c then next s' st
      else if line_comment then next (skipNativeLineComment (sdrop 2 s)) st
      else if hash then next (skipNativeLineComment s') st
      else if block_comment then
        match nativeBlockEnd (sdrop 2 s) with Some r => next r st | None => unterminated_comment end
      else if String.eqb dialect "postgresql" && Ascii.eqb c "$" then
        match nativeDollarEnd s' with
        | Some r => next r (count_at (depth st) st)
        | None => Err (nativeEnvelopeError dialect "unterminated dollar-quoted value")
        end
      else if opens_quote dialect c then
        match nativeQuotedEndDialect dialect c s' with
        | Some r => next r (count_at (depth st) st)
        | None => Err (nativeEnvelopeError dialect "unterminated quoted value")
        end
      else if Ascii.eqb c "(" then next s' (count_at (S (depth st)) st)
      else if Ascii.eqb c ")" then
        if depth st =? 0 then Err (nativeEnvelopeError dialect "unexpected closing parenthesis")
        else next s' (count_at (depth st - 1) st)
      else if Ascii.eqb c ";" then
        if negb (depth st =? 0) then Err (nativeEnvelopeError dialect "semicolon inside parentheses")
        else next s' (MkEnvelope (depth st) (tokenCount st) (setAt st) (equalsAt st) true)
      else if Ascii.eqb c "=" && (depth st =? 0) && (0 <=? setAt st)%Z then
        if (0 <=? equalsAt st)%Z then Err (nativeEnvelopeError dialect "multiple assignments are unsupported")
        else next s' (MkEnvelope (depth st) (tokenCount st + 1) (setAt st) (tokenCount st + 1) (terminated st))
      else if Ascii.eqb c "," && (depth st =? 0)
      then Err (nativeEnvelopeError dialect "multiple assignments are unsupported")
      else if nativeWordStart c then
        let '(word, r) := take_word s in
        do st' <- envelope_word dialect word st; next r st'
      else next s' (count_at (depth st) st)
  end.
Definition envelope_end (dialect : string) (st : envelope) : result unit :=
  if negb (depth st =? 0) then Err (nativeEnvelopeError dialect "unbalanced parentheses")
  else if ((tokenCount st <? 3) || (setAt st <? 3) || (setAt st =? tokenCount st)
           || (equalsAt st <? setAt st + 2) || (tokenCount st <=? equalsAt st))%Z
  then Err (nativeEnvelopeError dialect "UPDATE requires a target and assignment expression")
  else Ok tt.
Definition validateNativeUpdateEnvelope (dialect source : string) : result unit :=
  do st <- envelope_loop (S (String.length source)) dialect source no_envelope;
  envelope_end dialect st.

(** ** Which statements reach it *)
Fixpoint first_word (fuel : nat) (s : string) : option string :=
  match fuel, s with
  | 0, _ | _, "" => None
  | S fuel', String c s' =>
      if is_space c then first_word fuel' s'
      else if HasPrefix s "--" then first_word fuel' (skipNativeLineComment (sdrop 2 s))
      else if HasPrefix s "/*" then first_word fuel' (skipNativeBlockComment (sdrop 2 s))
      else let '(word, _) := take_word s in if String.eqb word "" then None else Some word
  end.
Definition firstNativeWord (source : string) : option string := first_word (S (String.length source)) source.
Definition starts_update (source : string) : bool :=
  match firstNativeWord source with Some w => is_word w "update" | None => false end.

Fixpoint skip_spaces (s : string) : string :=
  match s with String c s' => if isNativeSpace c then skip_spaces s' else s | "" => "" end.
Fixpoint strip_comments (fuel : nat) (source : string) : string :=
  match fuel with
  | 0 => source
  | S fuel' =>
      let s := skip_spaces source in
      if HasPrefix s "--" then strip_comments fuel' (skipNativeLineComment (sdrop 2 s))
      else if HasPrefix s "/*" then
        match nativeBlockEnd (sdrop 2 s) with
        | None => source
        | Some r => strip_comments fuel' r
        end
      else s
  end.
Definition stripLeadingNativeComments (source : string) : string := strip_comments (S (String.length source)) source.

(** The parsers: how many statements a source has, or the parser's error. *)
Class NativeParsers := {
  pgquery_Parse : string -> result nat;
  mysqlquery_Parse : string -> result nat;
  sqlitequery_Parse : string -> result nat }.

Definition pg_error : string := "pgquery.ParseError".
Definition mysql_parse_error : string := "mysqlquery.ParseError".
Definition sqlite_error : string := "sqlitequery.ParseError".
Definition unsupported_statement : string := "unsupported statement".
(** A parse error: its message, and its offset. *)
Definition ParseError (kind : string) (offset : Z) (message : string) : error :=
  MkError (KTyped kind) message [AInt offset].
(** [errors.As]: the parse error an error is or wraps. *)
Fixpoint As_ParseError (kind : string) (e : error) : option (Z * string) :=
  match e with
  | MkError k message args =>
      match k, args with
      | KTyped n, AInt offset :: _ => if String.eqb n kind then Some (offset, message) else None
      | _, _ =>
          if Contains message "%w" then
            (fix wrapped (l : list err_arg) : option (Z * string) :=
               match l with
               | [] => None
               | AErr e' :: l' => match As_ParseError kind e' with Some r => Some r | None => wrapped l' end
               | _ :: l' => wrapped l'
               end) args
          else None
      end
  end.

Section Native.
Context {parsers : NativeParsers}.

Definition parse_with (parse : string -> result nat) (kind source parsed : string) : result nat :=
  match parse parsed with
  | Ok count => Ok count
  | Err e => if starts_update source then Err (ParseError kind 0 unsupported_statement) else Err e
  end.
Definition parseSupportedNativeSQL (dialect source : string) : result nat :=
  if String.eqb dialect "postgresql" then parse_with pgquery_Parse pg_error source source
  else if String.eqb dialect "mysql" then parse_with mysqlquery_Parse mysql_parse_error source source
  else if String.eqb dialect "sqlite"
  then parse_with sqlitequery_Parse sqlite_error source (stripLeadingNativeComments source)
  else Err (Errorf "unsupported SQL dialect %q" [AStr dialect]).

Definition requireOneStatement (count : nat) : result unit :=
  if count =? 1 then Ok tt
  else Err (Errorf "source must contain exactly one statement, got %d" [ANat count]).

Definition isUnsupportedNativeUpdate (dialect : string) (e : error) (source : string) : bool :=
  let kind := if String.eqb dialect "postgresql" then Some pg_error
              else if String.eqb dialect "mysql" then Some mysql_parse_error
              else if String.eqb dialect "sqlite" then Some sqlite_error else None in
  match kind with
  | None => false
  | Some k =>
      match As_ParseError k e with
      | None => false
      | Some (offset, message) =>
          starts_update source && (offset =? 0)%Z && String.eqb message unsupported_statement
      end
  end.

Definition validateNativeSQLSource (dialect source : string) : result unit :=
  let trimmed := TrimSpace source in
  if String.eqb trimmed "" then Err (errors_New "source is empty")
  else match parseSupportedNativeSQL dialect (stripLeadingNativeComments trimmed) with
       | Ok count => requireOneStatement count
       | Err e =>
           if negb (isUnsupportedNativeUpdate dialect e trimmed) then Err (wrapDialectParseError dialect e)
           else validateNativeUpdateEnvelope dialect trimmed
       end.
End Native.

Example update_accepted : validateNativeUpdateEnvelope "postgresql" "UPDATE t SET a = (SELECT 1, 2) WHERE b > 1; -- done" = Ok tt.
Proof. vm_compute. reflexivity. Qed.
Example two_refused : is_ok (validateNativeUpdateEnvelope "postgresql" "UPDATE t SET a = 1; DELETE FROM t") = false.
Proof. vm_compute. reflexivity. Qed.
Example two_equals : is_ok (validateNativeUpdateEnvelope "postgresql" "UPDATE t SET a = 1 WHERE b = 1") = false.
Proof. vm_compute. reflexivity. Qed.
(** PostgreSQL reads the quoted text up to [a\'']: the validator reads on, and takes
    the second statement for text. *)
Example escape_string_hides : validateNativeUpdateEnvelope "postgresql"
  (Join ["UPDATE t SET a = E"; "a\"; ""; "; DELETE FROM t; --"; ""] "'") = Ok tt.
Proof. vm_compute. reflexivity. Qed.
Example dashes_hide : validateNativeUpdateEnvelope "mysql" "UPDATE t SET a = 1 --1; DELETE FROM t" = Ok tt.
Proof. vm_compute. reflexivity. Qed.

(** ** The tokens of a source

    What blank text, comments, words, quoted text and the other tokens are,
    independently of the scan above.  A comment to the end of its line stops
    before the line break, a block comment at the first [*/]. *)
Inductive lexeme : Type :=
| Word (word : string) | Value | Open | Close | Semicolon | Equals | Comma | Other.
Definition blank (c : ascii) : Prop := c ∈ [chr 9; chr 10; chr 13; chr 32].
Inductive after_line : string -> string -> Prop :=
| after_line_end x : lacks newline x = true -> after_line x ""
| after_line_break x r : lacks newline x = true -> after_line (x +:+ String newline r) (String newline r).
Inductive gap (dialect : string) : string -> string -> Prop :=
| gap_blank c r : blank c -> gap dialect (String c r) r
| gap_line x r : after_line x r -> gap dialect ("--" +:+ x) r
| gap_hash x r : dialect = "mysql" -> after_line x r -> gap dialect ("#" +:+ x) r
| gap_block x body r : first_split "*/" x body r -> gap dialect ("/*" +:+ x) r.
(** A word is as long as it can be. *)
Definition word_ends (r : string) : Prop := forall c r', r = String c r' -> ~ name_part c.
(** The quotes of the dialects: how they open and close, and whether a
    backslash escapes what follows it.  A doubled closing quote stands for
    itself. *)
Inductive quotes : string -> ascii -> ascii -> bool -> Prop :=
| postgresql_text : quotes "postgresql" squote squote false
| postgresql_name : quotes "postgresql" dquote dquote false
| mysql_text : quotes "mysql" squote squote true
| mysql_text' : quotes "mysql" dquote dquote true
| mysql_name : quotes "mysql" backquote backquote false
| sqlite_text : quotes "sqlite" squote squote false
| sqlite_name : quotes "sqlite" dquote dquote false
| sqlite_name' : quotes "sqlite" backquote backquote false
| sqlite_name'' : quotes "sqlite" "[" "]" false.
Inductive quoted (close : ascii) (escapes : bool) : string -> string -> Prop :=
| quoted_close r : (forall r', r <> String close r') -> quoted close escapes (String close r) r
| quoted_doubled s r : quoted close escapes s r -> quoted close escapes (String close (String close s)) r
| quoted_escape c s r : escapes = true -> quoted close escapes s r -> quoted close escapes (String backslash (String c s)) r
| quoted_char c s r : c <> close -> (escapes = true -> c <> backslash) -> quoted close escapes s r -> quoted close escapes (String c s) r.
Definition opens (dialect : string) (c : ascii) : Prop := exists close escapes, quotes dialect c close escapes.
(** What a token that is a byte of its own may not be. *)
Record plain (dialect : string) (c : ascii) (s : string) : Prop := {
  pl_char : ~ blank c /\ ~ name_start c /\ c ∉ ["("; ")"; ";"; "="; ","]%char;
  pl_opens : ~ opens dialect c /\ (dialect = "postgresql" -> c <> "$"%char);
  pl_comment : HasPrefix (String c s) "--" = false /\ HasPrefix (String c s) "/*" = false /\ (dialect = "mysql" -> c <> "#"%char) }.
Inductive token_at (dialect : string) : string -> lexeme -> string -> Prop :=
| token_word word r : simple_name word -> word_ends r -> token_at dialect (word +:+ r) (Word word) r
| token_dollar word s body r :
    dialect = "postgresql" -> name_rest word -> first_split ("$" +:+ word +:+ "$") s body r ->
    token_at dialect ("$" +:+ word +:+ "$" +:+ s) Value r
| token_quoted opening closing escapes s r :
    quotes dialect opening closing escapes -> quoted closing escapes s r -> token_at dialect (String opening s) Value r
| token_open r : token_at dialect ("(" +:+ r) Open r
| token_close r : token_at dialect (")" +:+ r) Close r
| token_semicolon r : token_at dialect (";" +:+ r) Semicolon r
| token_equals r : token_at dialect ("=" +:+ r) Equals r
| token_comma r : token_at dialect ("," +:+ r) Comma r
| token_other c r : plain dialect c r -> token_at dialect (String c r) Other r.
Inductive tokens (dialect : string) : string -> list lexeme -> Prop :=
| tokens_end : tokens dialect "" []
| tokens_gap s r l : gap dialect s r -> tokens dialect r l -> tokens dialect s l
| tokens_token s t r l : token_at dialect s t r -> tokens dialect r l -> tokens dialect s (t :: l).
(** The first word, after white space and comments, is UPDATE. *)
Inductive begins_update : string -> Prop :=
| begins_word word r : name_rest word -> word_ends r -> ToLower word = "update" -> begins_update (word +:+ r)
| begins_space c s : is_space c = true -> begins_update s -> begins_update (String c s)
| begins_line x r : after_line x r -> begins_update r -> begins_update ("--" +:+ x)
| begins_block x body r : first_split "*/" x body r -> begins_update r -> begins_update ("/*" +:+ x).
(** The text without the blank text and comments it starts with; a block
    comment without an end stays, with the blank text before it. *)
Inductive blanks : string -> Prop :=
| blanks_end : blanks ""
| blanks_more c s : blank c -> blanks s -> blanks (String c s).
Inductive stripped : string -> string -> Prop :=
| stripped_bare b s : blanks b -> (forall c s', s = String c s' -> ~ blank c) ->
    HasPrefix s "--" = false -> HasPrefix s "/*" = false -> stripped (b +:+ s) s
| stripped_line b x r out : blanks b -> after_line x r -> stripped r out -> stripped (b +:+ "--" +:+ x) out
| stripped_block b x body r out : blanks b -> first_split "*/" x body r -> stripped r out -> stripped (b +:+ "/*" +:+ x) out
| stripped_open b x : blanks b -> absent "*/" x -> stripped (b +:+ "/*" +:+ x) (b +:+ "/*" +:+ x).

(** ** One token, as the scan finds it *)

(** What starts at a byte: a token, or blank text, and what follows it. *)
Definition token_after (t : lexeme) (r : option string) : option (option lexeme * string) :=
  match r with Some r => Some (Some t, r) | None => None end.
Definition lex1 (dialect : string) (c : ascii) (s' : string) : option (option lexeme * string) :=
  let s := String c s' in
  if isNativeSpace c then Some (None, s')
  else if HasPrefix s "--" then Some (None, skipNativeLineComment (sdrop 2 s))
  else if String.eqb dialect "mysql" && Ascii.eqb c "#" then Some (None, skipNativeLineComment s')
  else if HasPrefix s "/*" then
    match nativeBlockEnd (sdrop 2 s) with Some r => Some (None, r) | None => None end
  else if String.eqb dialect "postgresql" && Ascii.eqb c "$" then token_after Value (nativeDollarEnd s')
  else if opens_quote dialect c then token_after Value (nativeQuotedEndDialect dialect c s')
  else if Ascii.eqb c "(" then Some (Some Open, s')
  else if Ascii.eqb c ")" then Some (Some Close, s')
  else if Ascii.eqb c ";" then Some (Some Semicolon, s')
  else if Ascii.eqb c "=" then Some (Some Equals, s')
  else if Ascii.eqb c "," then Some (Some Comma, s')
  else if nativeWordStart c then let '(word, r) := take_word s in Some (Some (Word word), r)
  else Some (Some Other, s').
Inductive Lexed (dialect : string) : string -> list lexeme -> Prop :=
| lexed_end : Lexed dialect "" []
| lexed_blank c s r l : lex1 dialect c s = Some (None, r) -> Lexed dialect r l -> Lexed dialect (String c s) l
| lexed_token c s t r l :
    lex1 dialect c s = Some (Some t, r) -> Lexed dialect r l -> Lexed dialect (String c s) (t :: l).

(** ** The shape of an UPDATE with one assignment *)
(** The depth after some tokens: the parentheses match so far, no semicolon
    occurs, and [p] holds of every token outside the parentheses. *)
Fixpoint nested (p : lexeme -> bool) (d : nat) (l : list lexeme) : option nat :=
  match l with
  | [] => Some d
  | Semicolon :: _ => None
  | Open :: l' => nested p (S d) l'
  | Close :: l' => match d with 0 => None | S d' => nested p d' l' end
  | t :: l' => if (d =? 0) && negb (p t) then None else nested p d l'
  end.
Definition target_token (t : lexeme) : bool :=
  match t with Comma => false | Word w => negb (is_word w "set") | _ => true end.
Definition clause_keyword (w : string) : bool :=
  is_word w "from" || is_word w "returning" || is_word w "order" || is_word w "limit".
Definition clause_token (t : lexeme) : bool :=
  match t with Comma | Equals => false | Word w => negb (clause_keyword w) | _ => true end.
Record one_assignment (target : list lexeme) (set : string) (column value : list lexeme) : Prop := {
  oa_update : forall w, head target = Some (Word w) -> is_word w "update" = true;
  oa_target : nested target_token 0 target = Some 0 /\ 2 <= length target;
  oa_set : is_word set "set" = true;
  oa_column : nested clause_token 0 column = Some 0 /\ column <> [];
  oa_value : nested clause_token 0 value = Some 0 /\ value <> [] }.
Definition update_shape (l : list lexeme) : Prop :=
  exists target set column value,
    l = target ++ Word set :: column ++ Equals :: value /\ one_assignment target set column value.

(** ** The check as a run over tokens *)
Definition step (dialect : string) (t : lexeme) (st : envelope) : option envelope :=
  if terminated st then None
  else match t with
  | Value | Other => Some (count_at (depth st) st)
  | Open => Some (count_at (S (depth st)) st)
  | Close => if depth st =? 0 then None else Some (count_at (depth st - 1) st)
  | Semicolon => if depth st =? 0 then Some (MkEnvelope (depth st) (tokenCount st) (setAt st) (equalsAt st) true) else None
  | Equals =>
      if (depth st =? 0) && (0 <=? setAt st)%Z then
        if (0 <=? equalsAt st)%Z then None
        else Some (MkEnvelope (depth st) (tokenCount st + 1) (setAt st) (tokenCount st + 1) (terminated st))
      else Some (count_at (depth st) st)
  | Comma => if depth st =? 0 then None else Some (count_at (depth st) st)
  | Word w => match envelope_word dialect w st with Ok st' => Some st' | Err _ => None end
  end.
Fixpoint run (dialect : string) (l : list lexeme) (st : envelope) : option envelope :=
  match l with
  | [] => Some st
  | t :: l' => match step dialect t st with Some st' => run dialect l' st' | None => None end
  end.

(** *** Lengths *)
Lemma skip_line_length s : String.length (skipNativeLineComment s) <= String.length s.
Proof. induction s as [|c s IH]; simpl; [done|]. destruct (Ascii.eqb c newline); simpl; lia. Qed.
Lemma block_end_length s r : nativeBlockEnd s = Some r -> String.length r <= String.length s.
Proof.
  induction s as [|c s IH]; [done|]. cbn [nativeBlockEnd]. destruct (HasPrefix (String c s) "*/").
  - intros H. assert (r = sdrop 2 (String c s)) as -> by congruence. rewrite slength_sdrop. simpl. lia.
  - intros H%IH. simpl. lia.
Qed.
Lemma take_word_length s w r : take_word s = (w, r) -> String.length r <= String.length s.
Proof.
  revert w r. induction s as [|c s IH]; simpl; intros w r; [by intros [= <- <-]|].
  destruct (nativeWordPart c); [|by intros [= <- <-]].
  destruct (take_word s) as [w' r'] eqn:E. intros [= <- <-]. pose proof (IH _ _ eq_refl). lia.
Qed.
Lemma dollar_end_length s r : nativeDollarEnd s = Some r -> String.length r <= String.length s.
Proof.
  unfold nativeDollarEnd. destruct (take_word s) as [w b] eqn:E. apply take_word_length in E.
  destruct b as [|c b]; [done|]. destruct (Ascii.eqb c "$"); [|done].
  destruct (Index b _); [|done]. intros [= <-]. rewrite slength_sdrop. simpl in E. lia.
Qed.
Lemma quoted_end_length e q k s r : quoted_end e q k s = Some r -> String.length r <= String.length s.
Proof.
  revert k. induction s as [|c s IH]; intros k; simpl; [done|].
  destruct k; [intros H%IH; lia|]. destruct (e && _); [intros H%IH; lia|].
  destruct (negb _); [intros H%IH; lia|].
  destruct s as [|c2 s]; [intros H; simplify_eq/=; lia|]. destruct (Ascii.eqb c2 q); [intros H; specialize (IH true H)|intros H; simplify_eq]; simpl in *; lia.
Qed.
Lemma lex1_length dialect c s t r : lex1 dialect c s = Some (t, r) -> String.length r <= String.length s.
Proof.
  unfold lex1, token_after, nativeQuotedEndDialect.
  repeat case_match; intros [= <- <-]; try done;
    try (etrans; [apply skip_line_length|]; destruct s; simpl; lia).
  - match goal with H : nativeBlockEnd _ = _ |- _ => apply block_end_length in H end. destruct s; simpl in *; lia.
  - by eapply dollar_end_length.
  - by eapply quoted_end_length.
  - by eapply quoted_end_length.
  - match goal with H : take_word _ = _ |- _ => simpl in H; rename H into T end.
    assert (nativeWordPart c = true) as E by (unfold nativeWordPart; match goal with H : nativeWordStart c = true |- _ => by rewrite H end).
    rewrite E in T. destruct (take_word s) as [w' r'] eqn:T'. simplify_eq. by eapply take_word_length.
Qed.

(** *** The loop is a run over the tokens *)
(** One turn of the loop, by what [lex1] finds. *)
Lemma hash_not_comment c s : Ascii.eqb c "#" && HasPrefix (String c s) "/*" = false.
Proof. destruct (Ascii.eqb_spec c "#") as [->|]; done. Qed.
Lemma equals_plain c : Ascii.eqb c "=" && (Ascii.eqb c "," || nativeWordStart c) = false.
Proof. destruct (Ascii.eqb_spec c "=") as [->|]; done. Qed.
Lemma comma_plain c : Ascii.eqb c "," && nativeWordStart c = false.
Proof. destruct (Ascii.eqb_spec c ",") as [->|]; done. Qed.
(** The tests on the source, as booleans of no known value. *)
Ltac forget_source :=
  match goal with |- context [HasPrefix (String ?c ?s) "--"] =>
    pose proof (hash_not_comment c s); pose proof (equals_plain c); pose proof (comma_plain c);
    generalize dependent (HasPrefix (String c s) "--"); generalize dependent (HasPrefix (String c s) "/*");
    generalize dependent (nativeWordStart c); generalize dependent (sdrop 2 (String c s)); generalize dependent (take_word (String c s)); intros
  end;
  repeat match goal with |- context [Ascii.eqb ?c ?d] => generalize dependent (Ascii.eqb c d); intros end.
Definition turn (fuel : nat) (dialect : string) (st : envelope) (next : option (option lexeme * string)) (o : result envelope) : Prop :=
  match next with
  | Some (None, r) => o = envelope_loop fuel dialect r st
  | Some (Some t, r) =>
      match step dialect t st with
      | Some st' => o = envelope_loop fuel dialect r st'
      | None => is_ok o = false
      end
  | None => is_ok o = false
  end.
Lemma loop_turn fuel dialect c s st :
  turn fuel dialect st (lex1 dialect c s) (envelope_loop (S fuel) dialect (String c s) st).
Proof.
  unfold turn, lex1, token_after, step. cbn [envelope_loop]. forget_source.
  destruct st as [d n a e []]; cbn [terminated depth setAt equalsAt tokenCount] in *.
  all: generalize dependent (d =? 0); generalize dependent (0 <=? a)%Z; generalize dependent (0 <=? e)%Z; intros.
  all: repeat (case_match; simplify_eq); try done.
  all: repeat match goal with H : _ && _ = true |- _ => apply andb_true_iff in H as [? ?]; simplify_eq end.
  all: repeat match goal with b : bool |- _ => destruct b end; simpl in *; congruence.
Qed.
(** The loop reads the whole source, and its outcome is that of the tokens. *)
Lemma loop_lexed fuel dialect s st st' : String.length s < fuel ->
  envelope_loop fuel dialect s st = Ok st' <-> exists l, Lexed dialect s l /\ run dialect l st = Some st'.
Proof.
  revert s st. induction fuel as [|fuel IH]; intros s st Hf; [lia|]. destruct s as [|c s].
  - simpl. split; [intros [= <-]; exists []; by repeat constructor|].
    intros (l & HL & Hr). inversion HL; subst. simpl in Hr. congruence.
  - pose proof (loop_turn fuel dialect c s st) as T. unfold turn in T. simpl in Hf.
    destruct (lex1 dialect c s) as [[[t|] r]|] eqn:L; [destruct (step dialect t st) as [st1|] eqn:S| |];
      try (pose proof (lex1_length _ _ _ _ _ L)).
    + rewrite T, IH by lia. split.
      * intros (l & HL & Hr). exists (t :: l). simpl. rewrite S. split; [by eapply lexed_token|done].
      * intros (l & HL & Hr). inversion HL; simplify_eq. simpl in Hr. rewrite S in Hr. eauto.
    + split; [intros H'; by rewrite H' in T|]. intros (l & HL & Hr). inversion HL; simplify_eq.
      simpl in Hr. by rewrite S in Hr.
    + rewrite T, IH by lia. split; [intros (l & HL & Hr); exists l; by split; [eapply lexed_blank|]|].
      intros (l & HL & Hr). inversion HL; simplify_eq. eauto.
    + split; [intros H'; by rewrite H' in T|]. intros (l & HL & Hr). inversion HL; simplify_eq.
Qed.

(** *** What a run means *)
Section Runs.
Variable dialect : string.

Lemma run_app l1 l2 st :
  run dialect (l1 ++ l2) st = match run dialect l1 st with Some st' => run dialect l2 st' | None => None end.
Proof. revert st. induction l1 as [|t l1 IH]; intros st; simpl; [done|]. by destruct (step dialect t st). Qed.

(** Nothing follows the semicolon. *)
Lemma run_terminated t l st : terminated st = true -> run dialect (t :: l) st = None.
Proof. intros T. cbn [run]. unfold step. by rewrite T. Qed.
Lemma run_stopped l st st' : terminated st = false -> run dialect l st = Some st' ->
  terminated st' = false \/
  exists l' st1, l = l' ++ [Semicolon] /\ run dialect l' st = Some st1 /\ terminated st1 = false /\ depth st1 = 0
    /\ st' = MkEnvelope 0 (tokenCount st1) (setAt st1) (equalsAt st1) true.
Proof.
  revert st. induction l as [|t l IH]; intros st T; simpl; [intros [= <-]; by left|].
  destruct (step dialect t st) as [st1|] eqn:S; [|done]. intros Hr.
  destruct (terminated st1) eqn:T1.
  - assert (t = Semicolon /\ depth st = 0 /\ st1 = MkEnvelope 0 (tokenCount st) (setAt st) (equalsAt st) true) as (-> & D & ->).
    { unfold step, envelope_word, count_at in S. rewrite T in S. destruct t; repeat (case_match; simplify_eq); simplify_eq/=; try done.
      match goal with H : (depth st =? 0) = true |- _ => apply Nat.eqb_eq in H; by rewrite H end. }
    destruct l as [|t l]; [|by rewrite run_terminated in Hr]. right. exists [], st. simpl in *. split_and!; try done. congruence.
  - destruct (IH _ T1 Hr) as [H|(l' & st2 & -> & H & H2 & H3 & H4)]; [by left|]. right. exists (t :: l'), st2. simpl.
    rewrite S. done.
Qed.

(** Before SET: a run reads a target, up to the SET if there is one. *)
Definition before_set (d : nat) (n : Z) : envelope := MkEnvelope d n (-1) (-1) false.
Definition after_set (d : nat) (n a e : Z) : envelope := MkEnvelope d n a e false.
Definition longer (n : Z) (l : list lexeme) : Z := (n + Z.of_nat (length l))%Z.
Lemma longer_cons n t l : longer n (t :: l) = longer (n + 1) l.
Proof. unfold longer. simpl. lia. Qed.
Lemma longer_nil n : longer n [] = n.
Proof. unfold longer. simpl. lia. Qed.

Ltac run_word w :=
  unfold envelope_word; cbn [tokenCount depth setAt equalsAt terminated];
  destruct (is_word w "set"), (clause_keyword w); simpl.

Lemma run_target d n l d' : (1 <= n)%Z -> nested target_token d l = Some d' ->
  run dialect l (before_set d n) = Some (before_set d' (longer n l)).
Proof.
  revert d n. induction l as [|t l IH]; intros d n Hn; cbn [nested run]; [intros [= <-]; by rewrite longer_nil|].
  intros Hl. rewrite longer_cons.
  assert (forall d1, nested target_token d1 l = Some d' -> run dialect l (before_set d1 (n + 1)) = Some (before_set d' (longer (n + 1) l)))
    as IH' by (intros d1; apply IH; lia).
  destruct t as [w| | | | | | |]; unfold step, before_set, count_at; cbn [terminated depth tokenCount setAt equalsAt]; try done.
  - unfold envelope_word. cbn [tokenCount depth setAt equalsAt terminated].
    rewrite (proj2 (Z.eqb_neq (n + 1) 1)) by lia. simpl in Hl.
    destruct d as [|d], (is_word w "set"); simpl in *; try done; by apply IH'.
  - destruct d; apply IH'; done.
  - by apply IH'.
  - destruct d as [|d]; [done|]. simpl. rewrite Nat.sub_0_r. by apply IH'.
  - rewrite andb_false_r. destruct d; by apply IH'.
  - destruct d as [|d]; [done|]. by apply IH'.
  - destruct d; by apply IH'.
Qed.
Lemma run_clause d n a e l d' : (1 <= n)%Z -> (0 <= a)%Z -> nested clause_token d l = Some d' ->
  run dialect l (after_set d n a e) = Some (after_set d' (longer n l) a e).
Proof.
  intros Hn Ha. revert d n Hn. induction l as [|t l IH]; intros d n Hn; cbn [nested run]; [intros [= <-]; by rewrite longer_nil|].
  intros Hl. rewrite longer_cons.
  assert (forall d1, nested clause_token d1 l = Some d' -> run dialect l (after_set d1 (n + 1) a e) = Some (after_set d' (longer (n + 1) l) a e))
    as IH' by (intros d1; apply IH; lia).
  assert (E0 : (0 <=? a)%Z = true) by lia. assert (E1 : (a <? 0)%Z = false) by lia.
  destruct t as [w| | | | | | |]; unfold step, after_set, count_at; cbn [terminated depth tokenCount setAt equalsAt]; try done.
  - unfold envelope_word. cbn [tokenCount depth setAt equalsAt terminated].
    rewrite (proj2 (Z.eqb_neq (n + 1) 1)) by lia. rewrite E1, andb_false_r. simpl in Hl. fold (clause_keyword w).
    rewrite E0. destruct d as [|d], (clause_keyword w); simpl in *; try done; by apply IH'.
  - destruct d; apply IH'; done.
  - by apply IH'.
  - destruct d as [|d]; [done|]. simpl. rewrite Nat.sub_0_r. by apply IH'.
  - destruct d as [|d]; [done|]. by apply IH'.
  - destruct d as [|d]; [done|]. by apply IH'.
  - destruct d; by apply IH'.
Qed.

(** Conversely, a run that is not stopped has read a target, with or without
    a SET and what follows it; *)
Definition target_read (d : nat) (n : Z) (l : list lexeme) (st : envelope) : Prop :=
  nested target_token d l = Some (depth st) /\ setAt st = (-1)%Z \/
  exists a w b, l = a ++ Word w :: b /\ is_word w "set" = true /\ nested target_token d a = Some 0 /\
    run dialect b (after_set 0 (longer n a + 1) (longer n a + 1) (-1)) = Some st.
Lemma target_read_cons t d d1 n l st :
  (forall a d', nested target_token d1 a = Some d' -> nested target_token d (t :: a) = Some d') ->
  target_read d1 (n + 1) l st -> target_read d n (t :: l) st.
Proof.
  intros Hd [[H1 H2]|(a & w & b & -> & W & Ha & Hr)]; [left; by split; [apply Hd|]|].
  right. exists (t :: a), w, b. rewrite longer_cons. split_and!; try done. by apply Hd.
Qed.
Lemma target_run d n l st : (1 <= n)%Z -> run dialect l (before_set d n) = Some st -> terminated st = false ->
  target_read d n l st.
Proof.
  revert d n. induction l as [|t l IH]; intros d n Hn; cbn [run]; [intros [= <-] _; by left|]. intros Hr T.
  assert (forall d1, run dialect l (before_set d1 (n + 1)) = Some st -> target_read d1 (n + 1) l st) as IH'
    by (intros; apply IH; (lia || done)).
  assert (E : (n + 1 =? 1)%Z = false) by lia. assert (E0 : (0 <=? n + 1)%Z = true) by lia.
  destruct t as [w| | | | | | |]; unfold step, before_set, count_at in Hr; cbn [terminated depth tokenCount setAt equalsAt] in Hr.
  - unfold envelope_word in Hr. cbn [tokenCount depth setAt equalsAt terminated] in Hr. rewrite E in Hr. fold (clause_keyword w) in Hr.
    destruct d as [|d]; [destruct (is_word w "set") eqn:W|].
    + right. exists [], w, l. rewrite longer_nil. split_and!; try done. simpl in Hr. rewrite E0 in Hr. by destruct (clause_keyword w).
    + apply (target_read_cons _ _ 0); [intros a d' H; simpl; by rewrite W|]. by apply IH'.
    + apply (target_read_cons _ _ (S d)); [done|]. apply IH'. by rewrite !andb_false_r in Hr.
  - apply (target_read_cons _ _ d); [by destruct d|]. by apply IH'.
  - apply (target_read_cons _ _ (S d)); [done|]. by apply IH'.
  - destruct d as [|d]; [done|]. simpl in Hr. rewrite Nat.sub_0_r in Hr. apply (target_read_cons _ _ d); [done|]. by apply IH'.
  - destruct d as [|d]; [|done]. cbn [Nat.eqb] in Hr. destruct l as [|t l]; [by simplify_eq/=|by rewrite run_terminated in Hr].
  - rewrite andb_false_r in Hr. apply (target_read_cons _ _ d); [by destruct d|]. by apply IH'.
  - destruct d as [|d]; [done|]. apply (target_read_cons _ _ (S d)); [done|]. by apply IH'.
  - apply (target_read_cons _ _ d); [by destruct d|]. by apply IH'.
Qed.
(** after the SET, a clause, up to the first equals sign if none was read. *)
Definition clause_read (d : nat) (n a e : Z) (l : list lexeme) (st : envelope) : Prop :=
  nested clause_token d l = Some (depth st) /\ st = after_set (depth st) (longer n l) a e \/
  (e < 0)%Z /\ exists x b, l = x ++ Equals :: b /\ nested clause_token d x = Some 0 /\
    run dialect b (after_set 0 (longer n x + 1) a (longer n x + 1)) = Some st.
Lemma clause_read_cons t d d1 n a e l st :
  (forall x d', nested clause_token d1 x = Some d' -> nested clause_token d (t :: x) = Some d') ->
  clause_read d1 (n + 1) a e l st -> clause_read d n a e (t :: l) st.
Proof.
  intros Hd [[H1 H2]|(He & x & b & -> & Hx & Hr)]; [left; rewrite longer_cons; by split; [apply Hd|]|].
  right. split; [done|]. exists (t :: x), b. rewrite longer_cons. split_and!; try done. by apply Hd.
Qed.
Lemma clause_run d n a e l st : (1 <= n)%Z -> (0 <= a)%Z ->
  run dialect l (after_set d n a e) = Some st -> terminated st = false -> clause_read d n a e l st.
Proof.
  intros Hn Ha. revert d n Hn. induction l as [|t l IH]; intros d n Hn; cbn [run].
  { intros [= <-] _. left. by rewrite longer_nil. }
  intros Hr T.
  assert (forall d1, run dialect l (after_set d1 (n + 1) a e) = Some st -> clause_read d1 (n + 1) a e l st) as IH'
    by (intros; apply IH; (lia || done)).
  assert (E : (n + 1 =? 1)%Z = false) by lia. assert (E0 : (0 <=? a)%Z = true) by lia. assert (E1 : (a <? 0)%Z = false) by lia.
  destruct t as [w| | | | | | |]; unfold step, after_set, count_at in Hr; cbn [terminated depth tokenCount setAt equalsAt] in Hr.
  - unfold envelope_word in Hr. cbn [tokenCount depth setAt equalsAt terminated] in Hr. fold (clause_keyword w) in Hr.
    rewrite E, E1, andb_false_r, E0 in Hr. destruct d as [|d].
    + simpl in Hr. destruct (clause_keyword w) eqn:W; [done|].
      apply (clause_read_cons _ _ 0); [intros x d' H; simpl; by rewrite W|]. by apply IH'.
    + apply (clause_read_cons _ _ (S d)); [done|]. by apply IH'.
  - apply (clause_read_cons _ _ d); [by destruct d|]. by apply IH'.
  - apply (clause_read_cons _ _ (S d)); [done|]. by apply IH'.
  - destruct d as [|d]; [done|]. simpl in Hr. rewrite Nat.sub_0_r in Hr. apply (clause_read_cons _ _ d); [done|]. by apply IH'.
  - destruct d as [|d]; [|done]. cbn [Nat.eqb] in Hr. destruct l as [|t l]; [by simplify_eq/=|by rewrite run_terminated in Hr].
  - rewrite E0 in Hr. destruct d as [|d]; simpl in Hr.
    + destruct (0 <=? e)%Z eqn:Ee; [done|]. right. split; [lia|]. exists [], l. by rewrite longer_nil.
    + apply (clause_read_cons _ _ (S d)); [done|]. by apply IH'.
  - destruct d as [|d]; [done|]. apply (clause_read_cons _ _ (S d)); [done|]. by apply IH'.
  - apply (clause_read_cons _ _ d); [by destruct d|]. by apply IH'.
Qed.

(** *** The tokens the check accepts *)
Definition starts_with_update (t : lexeme) : Prop := forall w, t = Word w -> is_word w "update" = true.
Lemma update_not_set w : is_word w "update" = true -> is_word w "set" = false.
Proof. unfold is_word. by intros ->%String.eqb_eq. Qed.
Lemma first_step t st : step dialect t (before_set 0 0) = Some st -> terminated st = false ->
  starts_with_update t /\
  exists d, st = before_set d 1 /\ forall a d', nested target_token d a = Some d' -> nested target_token 0 (t :: a) = Some d'.
Proof.
  intros S T. unfold step, before_set, count_at in S. destruct t as [w| | | | | | |]; simpl in S; simplify_eq; simpl in *; try done.
  - unfold envelope_word in S. simpl in S. destruct (is_word w "update") eqn:U; [|done].
    rewrite (update_not_set _ U) in S. simpl in S. simplify_eq. split; [by intros w' [= <-]|].
    exists 0. split; [done|]. intros a d' H. by rewrite (update_not_set _ U).
  - split; [done|]. by exists 0.
  - split; [done|]. by exists 1.
  - split; [done|]. by exists 0.
  - split; [done|]. by exists 0.
Qed.
Lemma run_first_target t l d' : starts_with_update t -> nested target_token 0 (t :: l) = Some d' ->
  run dialect (t :: l) no_envelope = Some (before_set d' (longer 0 (t :: l))).
Proof.
  intros U H. rewrite longer_cons. change no_envelope with (before_set 0 0). cbn [run]. simpl in H.
  destruct t as [w| | | | | | |]; try done; simpl in *; try (by apply run_target).
  unfold step, envelope_word. simpl. specialize (U w eq_refl). rewrite U, (update_not_set _ U) in *. simpl in *.
  by apply run_target.
Qed.

Lemma end_ok d n a e t : envelope_end dialect (MkEnvelope d n a e t) = Ok tt <->
  d = 0 /\ (3 <= n /\ 3 <= a /\ a <> n /\ a + 2 <= e /\ e < n)%Z.
Proof.
  unfold envelope_end. simpl. destruct (Nat.eqb_spec d 0) as [->|]; simpl; [|naive_solver].
  destruct (_ || _) eqn:B; (split; [|intros []]); try done; intros; lia.
Qed.

Lemma shape_run body : update_shape body ->
  exists n a e, run dialect body no_envelope = Some (after_set 0 n a e) /\ envelope_end dialect (after_set 0 n a e) = Ok tt.
Proof.
  intros (target & set & column & value & -> & [U [Ht Lt] W [Hc Nc] [Hv Nv]]).
  destruct target as [|t target]; [simpl in Lt; lia|].
  rewrite run_app, (run_first_target _ _ 0) by (done || by intros w ->; apply U). cbn [run].
  assert (step dialect (Word set) (before_set 0 (longer 0 (t :: target))) =
          Some (after_set 0 (longer 0 (t :: target) + 1) (longer 0 (t :: target) + 1) (-1))) as ->.
  { unfold step, envelope_word, before_set, longer. cbn [terminated depth tokenCount setAt equalsAt].
    rewrite W, (proj2 (Z.eqb_neq _ _)) by (simpl; lia). cbn [Nat.eqb andb]. change (-1 <? 0)%Z with true. cbv match.
    rewrite (proj2 (Z.leb_le 0 _)) by lia. apply String.eqb_eq in W. unfold is_word. by rewrite W. }
  set (n := longer 0 (t :: target)). assert (2 <= n)%Z as Hn by (unfold n, longer; lia).
  rewrite run_app, (run_clause _ _ _ _ _ 0) by (done || lia). cbn [run].
  assert (step dialect Equals (after_set 0 (longer (n + 1) column) (n + 1) (-1)) =
          Some (after_set 0 (longer (n + 1) column + 1) (n + 1) (longer (n + 1) column + 1))) as ->.
  { unfold step, after_set. cbn [terminated depth tokenCount setAt equalsAt]. by rewrite (proj2 (Z.leb_le 0 (n + 1))) by lia. }
  assert (0 <= longer (n + 1) column)%Z by (unfold longer; lia).
  rewrite (run_clause _ _ _ _ _ 0) by (done || lia). do 3 eexists. split; [done|].
  apply end_ok. destruct column; [done|]. destruct value; [done|]. rewrite !longer_cons. unfold longer. lia.
Qed.
Lemma run_shape body st : run dialect body no_envelope = Some st -> terminated st = false ->
  envelope_end dialect st = Ok tt -> update_shape body.
Proof.
  intros Hr T He. destruct body as [|t l]; [by simplify_eq/=|]. cbn [run] in Hr.
  destruct (step dialect t no_envelope) as [st1|] eqn:S; [|done].
  assert (terminated st1 = false) as T1 by (destruct (terminated st1) eqn:T1; [|done]; destruct l; [simpl in Hr; congruence|by rewrite run_terminated in Hr]).
  destruct (first_step _ _ S T1) as (U & d & -> & Hd). destruct st as [d' n' a' e' t']. apply end_ok in He as (-> & He).
  apply target_run in Hr as [[_ H]|(a & w & b & -> & W & Ha & Hb)]; [simpl in H; lia| |lia|done].
  apply clause_run in Hb as [[_ H]|(_ & x & v & -> & Hx & Hv)];
    [unfold after_set in H; simplify_eq; lia| |unfold longer; lia..|done].
  apply clause_run in Hv as [[Nv H]|(Hneg & _)]; [|unfold longer in Hneg; lia|unfold longer; lia..|done].
  unfold after_set, longer in H. simplify_eq. simpl in Nv.
  exists (t :: a), w, x, v. split; [done|]. unfold longer in He. simpl in He.
  split; [by intros w' [= ->]; apply U|split; [by apply Hd|simpl; lia]|done| |].
  - split; [done|]. destruct x; simpl in He; [lia|done].
  - split; [done|]. destruct v; simpl in He; [lia|done].
Qed.
End Runs.

(** ** The scan finds the tokens *)
Lemma isNativeSpace_blank c : isNativeSpace c = true <-> blank c.
Proof.
  unfold blank. rewrite !elem_of_cons, elem_of_nil. split.
  - intros H. rewrite <- (chr_code c). unfold isNativeSpace in H. rewrite !orb_true_iff, in_range_true, !N.eqb_eq in H.
    destruct H as [[H| ->]| ->]; [|auto..]. assert (code c = 9 \/ code c = 10)%N as [-> | ->] by lia; auto.
  - by intros [->|[->|[->|[->|[]]]]].
Qed.
Lemma nativeWordStart_iff c : nativeWordStart c = true <-> name_start c.
Proof. unfold nativeWordStart, name_start. rewrite !orb_true_iff, Ascii.eqb_eq, !in_range_true. tauto. Qed.
Lemma nativeWordPart_iff c : nativeWordPart c = true <-> name_part c.
Proof. unfold nativeWordPart, name_part. by rewrite orb_true_iff, nativeWordStart_iff, in_range_true. Qed.
Lemma skip_line_exact s r : skipNativeLineComment s = r <-> after_line s r.
Proof.
  split.
  - revert r. induction s as [|c s IH]; intros r; cbn [skipNativeLineComment]; [intros <-; by constructor|].
    destruct (Ascii.eqb_spec c newline) as [->|Hc]; [intros <-; by apply (after_line_break "")|].
    assert (forall x, lacks newline x = true -> lacks newline (String c x) = true) as Hl.
    { intros x Hx. unfold lacks in *. cbn [str_forallb]. rewrite Hx. by destruct (Ascii.eqb_spec c newline). }
    intros [x Hx|x r' Hx]%IH; [constructor; auto|]. apply (after_line_break (String c x)). auto.
  - assert (forall x r, lacks newline x = true -> skipNativeLineComment (x +:+ r) = skipNativeLineComment r) as H.
    { clear. induction x as [|c x IH]; intros r; [done|]. unfold lacks. cbn [str_forallb]. intros [Hc%negb_true_iff Hx]%andb_true_iff.
      change (String c x +:+ r) with (String c (x +:+ r)). cbn [skipNativeLineComment]. rewrite Hc. by apply IH. }
    intros [x Hx|x r' Hx]; [rewrite <- (sapp_nil_r x) at 1|]; by rewrite H.
Qed.
Lemma block_end_index s : nativeBlockEnd s = match Index s "*/" with Some k => Some (sdrop (k + 2) s) | None => None end.
Proof.
  induction s as [|c s IH]; [done|]. cbn [nativeBlockEnd Index]. destruct (HasPrefix (String c s) "*/"); [done|].
  rewrite IH. by destruct (Index s "*/").
Qed.
Lemma block_end_exact s r : nativeBlockEnd s = Some r <-> exists body, first_split "*/" s body r.
Proof.
  rewrite block_end_index. split.
  - destruct (Index s "*/") as [k|] eqn:E; [|done]. intros [= <-]. exists (stake k s). by apply (Index_first_split s "*/").
  - intros (body & (-> & _ & H)%first_split_index). cbn [String.length] in H. by rewrite H.
Qed.
Lemma block_end_none s : nativeBlockEnd s = None <-> absent "*/" s.
Proof. rewrite block_end_index, <- Index_absent. by destruct (Index s "*/"). Qed.
Lemma take_word_exact s w r : take_word s = (w, r) <-> s = w +:+ r /\ name_rest w /\ word_ends r.
Proof.
  revert w r. induction s as [|c s IH]; intros w r; cbn [take_word].
  - split; [intros [= <- <-]; by split_and!; [|constructor|]|]. intros (E & _ & _). by destruct w, r.
  - destruct (nativeWordPart c) eqn:P.
    + destruct (take_word s) as [w' r'] eqn:T. apply nativeWordPart_iff in P. destruct (proj1 (IH w' r') eq_refl) as (E & Hw & Hr). split.
      * intros [= <- <-]. split_and!; [by rewrite E|by constructor|done].
      * intros (E' & Hw' & Hr'). destruct Hw' as [|d w Hd Hw'].
        { by destruct (Hr' _ _ (eq_sym E')). }
        injection E' as <- E'. assert ((w', r') = (w, r)) as [= -> ->] by (apply IH; by split_and!). done.
    + split.
      * intros [= <- <-]. split_and!; [done|constructor|]. intros d r' [= <- <-]. by rewrite <- nativeWordPart_iff, P.
      * intros (E & Hw & Hr). destruct Hw as [|d w Hd Hw]; [by rewrite E|]. injection E as <- E.
        apply nativeWordPart_iff in Hd. congruence.
Qed.
Lemma dollar_not_part : ~ name_part "$".
Proof. rewrite <- nativeWordPart_iff. done. Qed.
Lemma dollar_end_exact s r : nativeDollarEnd s = Some r <-> exists word t body,
  s = word +:+ "$" +:+ t /\ name_rest word /\ first_split ("$" +:+ word +:+ "$") t body r.
Proof.
  unfold nativeDollarEnd. split.
  - destruct (take_word s) as [word t] eqn:T. apply take_word_exact in T as (-> & Hw & _).
    destruct t as [|c t]; [done|]. destruct (Ascii.eqb_spec c "$") as [->|]; [|done].
    destruct (Index t _) as [k|] eqn:E; [|done]. intros [= <-]. exists word, t, (stake k t). split_and!; [done|done|].
    by apply Index_first_split.
  - intros (word & t & body & -> & Hw & H). assert (take_word (word +:+ "$" +:+ t) = (word, String "$" t)) as ->.
    { apply take_word_exact. split_and!; [done|done|]. intros c r' [= <- _]. apply dollar_not_part. }
    rewrite Ascii.eqb_refl. apply first_split_index in H as (-> & _ & ->). done.
Qed.
Lemma quoted_end_exact escapes close s r : close <> backslash ->
  quoted_end escapes close false s = Some r <-> quoted close escapes s r.
Proof.
  intros Hcl. split.
  - remember (String.length s) as n eqn:Hn. revert s Hn. induction (Nat.lt_wf_0 n) as [n _ IH]. intros [|c s] -> H; [done|].
    cbn [quoted_end] in H. destruct (escapes && Ascii.eqb c backslash) eqn:Hb.
    { apply andb_true_iff in Hb as [He ->%Ascii.eqb_eq]. destruct s as [|c' s]; [done|]. cbn [quoted_end] in H.
      apply quoted_escape; [done|]. eapply IH; [|reflexivity|exact H]. simpl. lia. }
    destruct (Ascii.eqb_spec c close) as [->|Hc]; cbn [negb] in H.
    + destruct s as [|c2 s]; [injection H as <-; by constructor|]. destruct (Ascii.eqb_spec c2 close) as [->|Hc2].
      * cbn [quoted_end] in H. apply quoted_doubled. eapply IH; [|reflexivity|exact H]. simpl. lia.
      * injection H as <-. apply quoted_close. by intros r' [= ? _].
    + apply quoted_char; [done| |eapply IH; [|reflexivity|exact H]; simpl; lia]. intros -> ->. by rewrite Ascii.eqb_refl in Hb.
  - assert (escapes && Ascii.eqb close backslash = false) as Hcb by (destruct (Ascii.eqb_spec close backslash); [done|apply andb_false_r]).
    induction 1 as [r Hr|s r _ IH|c s r He _ IH|c s r Hc Hb _ IH]; cbn [quoted_end].
    + rewrite Hcb, Ascii.eqb_refl. cbn [negb]. destruct r as [|c2 r]; [done|]. destruct (Ascii.eqb_spec c2 close) as [->|]; [|done]. by destruct (Hr r).
    + by rewrite Hcb, Ascii.eqb_refl.
    + by subst escapes.
    + assert (escapes && Ascii.eqb c backslash = false) as ->.
      { destruct escapes; [|done]. destruct (Ascii.eqb_spec c backslash) as [->|]; [by destruct Hb|done]. }
      by destruct (Ascii.eqb_spec c close).
Qed.

(** *** Of a known dialect *)
Definition known_dialect (dialect : string) : Prop := dialect = "postgresql" \/ dialect = "mysql" \/ dialect = "sqlite".
Lemma opens_quote_exact dialect c : known_dialect dialect -> opens_quote dialect c = true <-> opens dialect c.
Proof.
  intros Hk. unfold opens. split.
  - unfold opens_quote. destruct (Ascii.eqb_spec c squote) as [->|_].
    { intros _. destruct Hk as [->|[->| ->]]; eexists _, _; constructor. }
    destruct (Ascii.eqb_spec c dquote) as [->|_]. { intros _. destruct Hk as [->|[->| ->]]; eexists _, _; constructor. }
    destruct (Ascii.eqb_spec c backquote) as [->|_]. { destruct Hk as [->|[->| ->]]; [done|intros _..]; eexists _, _; constructor. }
    destruct (Ascii.eqb_spec c "[") as [->|_]; [|done]. destruct Hk as [->|[->| ->]]; [done|done|]. intros _. eexists _, _. constructor.
  - by intros (close & escapes & []).
Qed.
Lemma quotes_close dialect c close escapes s r : quotes dialect c close escapes ->
  nativeQuotedEndDialect dialect c s = Some r <-> quoted close escapes s r.
Proof.
  intros H. rewrite <- quoted_end_exact by (by destruct H). by destruct H.
Qed.
Lemma quotes_unique dialect c close escapes close' escapes' :
  quotes dialect c close escapes -> quotes dialect c close' escapes' -> close = close' /\ escapes = escapes'.
Proof. intros [] H; inversion H; done. Qed.
Lemma word_start_plain c : name_start c ->
  isNativeSpace c || Ascii.eqb "-" c || Ascii.eqb "/" c || Ascii.eqb c "#" || Ascii.eqb c "$" || Ascii.eqb c squote || Ascii.eqb c dquote
  || Ascii.eqb c backquote || Ascii.eqb c "[" || Ascii.eqb c "(" || Ascii.eqb c ")" || Ascii.eqb c ";" || Ascii.eqb c "=" || Ascii.eqb c "," = false.
Proof. rewrite <- nativeWordStart_iff. by destruct c as [[] [] [] [] [] [] [] []]. Qed.

Section Scan.
Variable dialect : string.
Hypothesis Hknown : known_dialect dialect.
Lemma gap_scanned s r : gap dialect s r -> exists c s', s = String c s' /\ lex1 dialect c s' = Some (None, r).
Proof.
  intros [c r' Hc%isNativeSpace_blank|x r' Hx%skip_line_exact|x r' Hd Hx%skip_line_exact|x body r' H].
  - exists c, r'. split; [done|]. unfold lex1. by rewrite Hc.
  - eexists _, _. split; [reflexivity|]. rewrite <- Hx. done.
  - eexists _, _. split; [reflexivity|]. rewrite <- Hx, Hd. done.
  - eexists _, _. split; [reflexivity|]. assert (nativeBlockEnd x = Some r') as E by (apply block_end_exact; by exists body).
    unfold lex1. simpl. rewrite andb_false_r. change (sdrop 0 x) with x. by rewrite E.
Qed.
Lemma word_scanned word r : simple_name word -> word_ends r -> exists c s', word +:+ r = String c s' /\ lex1 dialect c s' = Some (Some (Word word), r).
Proof.
  intros [c w Hc Hw] Hr. exists c, (w +:+ r). split; [done|]. pose proof (word_start_plain c Hc) as Hp.
  rewrite !orb_false_iff in Hp. destruct_and!.
  assert (take_word (String c (w +:+ r)) = (String c w, r)) as E.
  { apply take_word_exact. split_and!; [done|constructor; [by left|done]|done]. }
  unfold lex1, opens_quote. rewrite E. cbn [HasPrefix].
  repeat match goal with H : _ = false |- _ => rewrite H; clear H end. rewrite !andb_false_r. cbn [andb orb].
  apply nativeWordStart_iff in Hc. by rewrite Hc.
Qed.
Lemma plain_scanned c s : plain dialect c s -> lex1 dialect c s = Some (Some Other, s).
Proof.
  intros [(H1 & H2 & H3) (H4 & H5) (H6 & H7 & H8)]. rewrite <- isNativeSpace_blank in H1. rewrite <- nativeWordStart_iff in H2.
  rewrite <- opens_quote_exact in H4 by done. rewrite !not_elem_of_cons in H3. destruct H3 as (N1 & N2 & N3 & N4 & N5 & _).
  unfold lex1. rewrite H6, H7. apply Ascii.eqb_neq in N1, N2, N3, N4, N5. rewrite N1, N2, N3, N4, N5.
  apply not_true_is_false in H1, H2, H4. rewrite H1, H2, H4.
  assert (String.eqb dialect "mysql" && Ascii.eqb c "#" = false) as ->.
  { destruct (String.eqb_spec dialect "mysql"); [|done]. simpl. apply Ascii.eqb_neq. auto. }
  assert (String.eqb dialect "postgresql" && Ascii.eqb c "$" = false) as ->; [|done].
  destruct (String.eqb_spec dialect "postgresql"); [|done]. simpl. apply Ascii.eqb_neq. auto.
Qed.
Lemma token_scanned s t r : token_at dialect s t r -> exists c s', s = String c s' /\ lex1 dialect c s' = Some (Some t, r).
Proof.
  intros [word r' Hw Hr|word x body r' Hd Hw H|o cl e x r' Ho Hq|r'|r'|r'|r'|r'|c r' Hp];
    try (eexists _, _; split; [reflexivity|]; by destruct Hknown as [->|[->| ->]]).
  - by apply word_scanned.
  - eexists _, _. split; [reflexivity|]. rewrite Hd.
    assert (nativeDollarEnd (word +:+ "$" +:+ x) = Some r') as E by (apply dollar_end_exact; by exists word, x, body).
    change (lex1 "postgresql" "$" (word +:+ "$" +:+ x)) with (token_after Value (nativeDollarEnd (word +:+ "$" +:+ x))). by rewrite E.
  - eexists _, _. split; [reflexivity|]. apply (quotes_close _ _ _ _ x r' Ho) in Hq.
    assert (lex1 dialect o x = token_after Value (nativeQuotedEndDialect dialect o x)) as -> by (by destruct Ho). by rewrite Hq.
  - eexists _, _. split; [reflexivity|]. by apply plain_scanned.
Qed.
Lemma scanned c s t r : lex1 dialect c s = Some (t, r) ->
  match t with None => gap dialect (String c s) r | Some t => token_at dialect (String c s) t r end.
Proof.
  unfold lex1. destruct (isNativeSpace c) eqn:E1. { intros [= <- <-]. constructor. by apply isNativeSpace_blank. }
  destruct (HasPrefix (String c s) "--") eqn:E2.
  { apply HasPrefix_spec in E2 as [x E2]. injection E2 as -> ->. intros [= <- <-]. apply (gap_line dialect x). by apply skip_line_exact. }
  destruct (String.eqb_spec dialect "mysql" ) as [Hd|Hd]; [destruct (Ascii.eqb_spec c "#") as [->|Hc]|]; cbn [andb].
  { intros [= <- <-]. apply (gap_hash dialect s); [done|]. by apply skip_line_exact. }
  all: destruct (HasPrefix (String c s) "/*") eqn:E3.
  1,3: apply HasPrefix_spec in E3 as [x ->]; change (sdrop 2 ("/*" +:+ x)) with x; destruct (nativeBlockEnd x) as [r'|] eqn:E; [|done];
       intros [= <- <-]; apply block_end_exact in E as [body E]; by eapply gap_block.
  all: destruct (String.eqb dialect "postgresql" && Ascii.eqb c "$") eqn:E4.
  1,3: apply andb_true_iff in E4 as [Hp%String.eqb_eq ->%Ascii.eqb_eq]; unfold token_after; destruct (nativeDollarEnd s) as [r'|] eqn:E; [|done];
       intros [= <- <-]; apply dollar_end_exact in E as (word & x & body & -> & Hw & Hb); by eapply token_dollar.
  all: destruct (opens_quote dialect c) eqn:E5.
  1,3: apply opens_quote_exact in E5 as (cl & e & Ho); [|done]; unfold token_after; destruct (nativeQuotedEndDialect dialect c s) as [r'|] eqn:E; [|done];
       intros [= <- <-]; apply (quotes_close _ _ _ _ _ _ Ho) in E; by eapply token_quoted.
  all: destruct (Ascii.eqb_spec c "(") as [->|N1]; [intros [= <- <-]; constructor|].
  all: destruct (Ascii.eqb_spec c ")") as [->|N2]; [intros [= <- <-]; constructor|].
  all: destruct (Ascii.eqb_spec c ";") as [->|N3]; [intros [= <- <-]; constructor|].
  all: destruct (Ascii.eqb_spec c "=") as [->|N4]; [intros [= <- <-]; constructor|].
  all: destruct (Ascii.eqb_spec c ",") as [->|N5]; [intros [= <- <-]; constructor|].
  all: destruct (nativeWordStart c) eqn:E6.
  1,3: destruct (take_word (String c s)) as [w r'] eqn:E; intros [= <- <-]; apply take_word_exact in E as (E & Hw & Hr); rewrite E;
       apply token_word; [|done]; destruct Hw as [|d w Hd' Hw];
       [exfalso; eapply (Hr c s); [by rewrite E|left; by apply nativeWordStart_iff]|injection E as <- _; constructor; [by apply nativeWordStart_iff|done]].
  all: intros [= <- <-]; apply token_other; split;
    [split_and!; [by rewrite <- isNativeSpace_blank, E1|by rewrite <- nativeWordStart_iff, E6|by rewrite !not_elem_of_cons; split_and!; [..|apply not_elem_of_nil]]
    |split; [by rewrite <- opens_quote_exact, E5|intros Hp -> ; by rewrite Hp in E4]|split_and!; [done..|by intros ?]].
Qed.
Lemma tokens_exact s l : tokens dialect s l <-> Lexed dialect s l.
Proof.
  split.
  - induction 1 as [|s r l (c & s' & -> & E)%gap_scanned _ IH|s t r l (c & s' & -> & E)%token_scanned _ IH]; [constructor|by eapply lexed_blank|by eapply lexed_token].
  - induction 1 as [|c s r l E%scanned _ IH|c s t r l E%scanned _ IH]; [constructor|by eapply tokens_gap|by eapply tokens_token].
Qed.
End Scan.

(** The UPDATE check accepts exactly the sources whose tokens are an UPDATE
    with one assignment, and at most a closing semicolon. *)
Definition single_update (dialect source : string) : Prop :=
  exists body stop, tokens dialect source (body ++ stop) /\ (stop = [] \/ stop = [Semicolon]) /\ update_shape body.
Lemma envelope_exact dialect source : known_dialect dialect ->
  validateNativeUpdateEnvelope dialect source = Ok tt <-> single_update dialect source.
Proof.
  intros Hk. unfold validateNativeUpdateEnvelope, single_update. setoid_rewrite (tokens_exact dialect Hk). split.
  - destruct (envelope_loop _ _ _ _) as [st|] eqn:E; [|done]. intros He.
    apply loop_lexed in E as (l & HL & Hr); [|lia].
    destruct (run_stopped _ _ no_envelope _ eq_refl Hr) as [T|(l' & st1 & -> & Hr1 & T1 & D1 & ->)].
    + exists l, []. rewrite app_nil_r. split; [done|]. split; [by left|]. by eapply run_shape.
    + exists l', [Semicolon]. split; [done|]. split; [by right|]. eapply run_shape; [done|done|].
      apply end_ok in He. destruct st1. simpl in *. subst. by apply end_ok.
  - intros (body & stop & HL & Hs & Hb). destruct (shape_run dialect _ Hb) as (n & a & e & Hr & He).
    assert (exists st, envelope_loop (S (String.length source)) dialect source no_envelope = Ok st /\ envelope_end dialect st = Ok tt)
      as (st & -> & Hst); [|done].
    destruct Hs as [->| ->].
    + exists (after_set 0 n a e). split; [|done]. apply loop_lexed; [lia|]. exists body. by rewrite app_nil_r in HL.
    + exists (MkEnvelope 0 n a e true). split; [|by apply end_ok; apply end_ok in He].
      apply loop_lexed; [lia|]. exists (body ++ [Semicolon]). split; [done|]. rewrite run_app, Hr. done.
Qed.

(** ** The whole check *)
Lemma first_word_fuel f1 f2 s : String.length s < f1 -> String.length s < f2 -> first_word f1 s = first_word f2 s.
Proof.
  revert f2 s. induction f1 as [|f1 IH]; intros [|f2] s H1 H2; [lia..|]. destruct s as [|c s]; [done|].
  cbn [String.length] in *. cbn [first_word].
  pose proof (skip_line_length (sdrop 2 (String c s))). pose proof (slength_sdrop 2 (String c s)).
  cbn [String.length] in *. unfold skipNativeBlockComment.
  destruct (is_space c); [apply IH; lia|]. destruct (HasPrefix _ "--"); [apply IH; lia|].
  destruct (HasPrefix _ "/*"); [|done]. destruct (nativeBlockEnd _) as [r|] eqn:E; [|apply IH; simpl; lia].
  apply block_end_length in E. apply IH; simpl; lia.
Qed.
Lemma firstNativeWord_blank c s r : first_word (S (String.length (String c s))) (String c s) = first_word (String.length (String c s)) r ->
  String.length r <= String.length s -> firstNativeWord (String c s) = firstNativeWord r.
Proof. unfold firstNativeWord. intros -> H. apply first_word_fuel; simpl; lia. Qed.
Lemma firstNativeWord_space c s : isNativeSpace c = true -> firstNativeWord (String c s) = firstNativeWord s.
Proof.
  intros H. apply firstNativeWord_blank; [|lia]. cbn [first_word].
  assert (is_space c = true) as ->; [|done]. destruct c as [[] [] [] [] [] [] [] []]; done.
Qed.
Lemma firstNativeWord_spaces s : firstNativeWord (skip_spaces s) = firstNativeWord s.
Proof.
  induction s as [|c s IH]; simpl; [done|]. destruct (isNativeSpace c) eqn:E; [|done]. by rewrite firstNativeWord_space.
Qed.
Lemma not_space c s : HasPrefix (String c s) "--" || HasPrefix (String c s) "/*" = true -> is_space c = false.
Proof. destruct (is_space c) eqn:E; [|done]. destruct c as [[] [] [] [] [] [] [] []]; done. Qed.
Lemma firstNativeWord_line s : HasPrefix s "--" = true -> firstNativeWord (skipNativeLineComment (sdrop 2 s)) = firstNativeWord s.
Proof.
  destruct s as [|c s]; [done|]. intros H. symmetry. apply firstNativeWord_blank.
  - cbn [first_word]. rewrite (not_space c s) by (by rewrite H). by rewrite H.
  - etrans; [apply skip_line_length|]. rewrite slength_sdrop. simpl. lia.
Qed.
Lemma firstNativeWord_block s r : HasPrefix s "/*" = true -> nativeBlockEnd (sdrop 2 s) = Some r ->
  firstNativeWord r = firstNativeWord s.
Proof.
  destruct s as [|c s]; [done|]. intros H E. symmetry. apply firstNativeWord_blank.
  - cbn [first_word]. rewrite (not_space c s) by (by rewrite H, orb_true_r).
    assert (HasPrefix (String c s) "--" = false) as ->.
    { destruct (HasPrefix (String c s) "--") eqn:D; [|done]. apply HasPrefix_spec in D as [r1 D], H as [r2 H]. rewrite H in D. done. }
    rewrite H. unfold skipNativeBlockComment. by rewrite E.
  - apply block_end_length in E. rewrite slength_sdrop in E. simpl in E. lia.
Qed.
(** Stripping the leading comments keeps the first word. *)
Lemma firstNativeWord_strip s : firstNativeWord (stripLeadingNativeComments s) = firstNativeWord s.
Proof.
  unfold stripLeadingNativeComments. generalize (S (String.length s)) as fuel. intros fuel. revert s.
  induction fuel as [|fuel IH]; intros s; cbn [strip_comments]; [done|].
  destruct (HasPrefix (skip_spaces s) "--") eqn:D; [by rewrite IH, firstNativeWord_line, firstNativeWord_spaces|].
  destruct (HasPrefix (skip_spaces s) "/*") eqn:B; [|apply firstNativeWord_spaces].
  destruct (nativeBlockEnd _) as [r|] eqn:E; [|done].
  by rewrite IH, (firstNativeWord_block _ _ B E), firstNativeWord_spaces.
Qed.

(** *** The first word *)
Lemma firstNativeWord_white c s : is_space c = true -> firstNativeWord (String c s) = firstNativeWord s.
Proof. intros H. apply firstNativeWord_blank; [|lia]. cbn [first_word]. by rewrite H. Qed.
Lemma update_word word : ToLower word = "update" -> exists c w, word = String c w /\ nativeWordStart c = true /\ is_space c = false.
Proof.
  destruct word as [|c w]; [done|]. intros [= H _]. exists c, w. split; [done|].
  by destruct c as [[] [] [] [] [] [] [] []].
Qed.
Lemma starts_update_exact s : starts_update s = true <-> begins_update s.
Proof.
  unfold starts_update. split.
  - unfold firstNativeWord. generalize (S (String.length s)) as fuel. intros fuel. revert s.
    induction fuel as [|fuel IH]; intros s; cbn [first_word]; [done|]. destruct s as [|c s]; [done|].
    destruct (is_space c) eqn:Es; [intros H; apply begins_space; auto|].
    destruct (HasPrefix (String c s) "--") eqn:E2.
    { apply HasPrefix_spec in E2 as [x E2]. injection E2 as -> ->. intros H%IH. eapply (begins_line x); [by apply skip_line_exact|done]. }
    destruct (HasPrefix (String c s) "/*") eqn:E3.
    { apply HasPrefix_spec in E3 as [x E3]. injection E3 as -> ->. change (sdrop 2 _) with x. unfold skipNativeBlockComment.
      destruct (nativeBlockEnd x) as [r|] eqn:E; [|by destruct fuel]. intros H%IH. apply block_end_exact in E as [body E].
      by eapply (begins_block x). }
    destruct (take_word (String c s)) as [w r] eqn:E. apply take_word_exact in E as (-> & Hw & Hr).
    destruct (String.eqb_spec w ""); [done|]. unfold is_word. intros H%String.eqb_eq. by constructor.
  - induction 1 as [word r Hw Hr Hu|c s Hc _ IH|x r Hx _ IH|x body r Hx _ IH].
    + destruct (update_word _ Hu) as (c & w & E & Hc & Hs). pose proof (word_start_plain c (proj1 (nativeWordStart_iff c) Hc)) as Hp.
      rewrite !orb_false_iff in Hp. destruct_and!.
      assert (take_word (word +:+ r) = (word, r)) as ET by (by apply take_word_exact).
      assert (firstNativeWord (word +:+ r) = Some word) as ->; [|unfold is_word; by rewrite Hu].
      rewrite E in ET |- *. unfold firstNativeWord. change (String c w +:+ r) with (String c (w +:+ r)) in *.
      cbn [first_word String.length]. rewrite Hs, ET. cbn [HasPrefix].
      repeat match goal with H : Ascii.eqb _ c = false |- _ => rewrite H; clear H end. done.
    + by rewrite firstNativeWord_white.
    + apply skip_line_exact in Hx. rewrite <- (firstNativeWord_line ("--" +:+ x)) by done. change (sdrop 2 _) with x. by rewrite Hx.
    + rewrite <- (firstNativeWord_block ("/*" +:+ x) r); [done|done|]. apply block_end_exact. by exists body.
Qed.

(** *** Leading comments *)
Lemma skip_spaces_split s : exists b, blanks b /\ s = b +:+ skip_spaces s /\ forall c s', skip_spaces s = String c s' -> ~ blank c.
Proof.
  induction s as [|c s (b & Hb & E & Hc)]; cbn [skip_spaces]; [exists ""; split; [constructor|by split]|].
  destruct (isNativeSpace c) eqn:Es.
  - exists (String c b). split_and!; [constructor; [by apply isNativeSpace_blank|done]|by rewrite E at 1|done].
  - exists "". split_and!; [constructor|done|]. intros d s' [= <- <-]. by rewrite <- isNativeSpace_blank, Es.
Qed.
Lemma skip_spaces_app b s : blanks b -> (forall c s', s = String c s' -> ~ blank c) -> skip_spaces (b +:+ s) = s.
Proof.
  intros Hb Hs. induction Hb as [|c b Hc _ IH].
  - change ("" +:+ s) with s. destruct s as [|c s]; [done|]. cbn [skip_spaces]. destruct (isNativeSpace c) eqn:E; [|done].
    apply isNativeSpace_blank in E. by destruct (Hs c s eq_refl).
  - change (String c b +:+ s) with (String c (b +:+ s)). cbn [skip_spaces]. apply isNativeSpace_blank in Hc. by rewrite Hc.
Qed.
Lemma after_line_length s r : after_line s r -> String.length r <= String.length s.
Proof. intros <-%skip_line_exact. apply skip_line_length. Qed.
Lemma comment_not_blank p s c s' : p = "--" \/ p = "/*" -> p +:+ s = String c s' -> ~ blank c.
Proof. rewrite <- isNativeSpace_blank. by intros [->| ->] [= <- _]. Qed.
Lemma strip_exact s out : stripLeadingNativeComments s = out <-> stripped s out.
Proof.
  unfold stripLeadingNativeComments. split.
  - intros <-. generalize (Nat.lt_succ_diag_r (String.length s)). generalize (S (String.length s)) as fuel. intros fuel. revert s.
    induction fuel as [|fuel IH]; intros s Hl; [lia|]. cbn [strip_comments].
    destruct (skip_spaces_split s) as (b & Hb & E & Hn). rewrite E at 1. assert (String.length (skip_spaces s) <= String.length s) as Hls
      by (rewrite E at 2; rewrite slength_app; lia).
    destruct (HasPrefix (skip_spaces s) "--") eqn:E2.
    { apply HasPrefix_spec in E2 as [x E2]. rewrite E2 in *. change (sdrop 2 _) with x. eapply stripped_line; [done|by apply skip_line_exact|].
      apply IH. pose proof (skip_line_length x). simpl in Hls. lia. }
    destruct (HasPrefix (skip_spaces s) "/*") eqn:E3; [|by apply stripped_bare].
    apply HasPrefix_spec in E3 as [x E3]. rewrite E3 in *. change (sdrop 2 _) with x.
    destruct (nativeBlockEnd x) as [r|] eqn:Er.
    + pose proof (block_end_length _ _ Er). apply block_end_exact in Er as [body Er]. eapply stripped_block; [done|exact Er|]. apply IH. simpl in Hls. lia.
    + rewrite E. apply stripped_open; [done|]. by apply block_end_none.
  - intros H. generalize (Nat.lt_succ_diag_r (String.length s)). generalize (S (String.length s)) as fuel.
    induction H as [b s Hb Hn H1 H2|b x r out Hb Hx _ IH|b x body r out Hb Hx _ IH|b x Hb Hx]; intros [|fuel] Hl; try lia; cbn [strip_comments].
    + by rewrite skip_spaces_app, H1, H2.
    + rewrite skip_spaces_app by (done || intros ? ?; apply comment_not_blank; auto). simpl HasPrefix. cbv match.
      change (sdrop 2 _) with x. rewrite (proj2 (skip_line_exact x r) Hx). apply IH. apply after_line_length in Hx. rewrite !slength_app in Hl. simpl in Hl. lia.
    + rewrite skip_spaces_app by (done || intros ? ?; apply comment_not_blank; auto). simpl HasPrefix. cbv match.
      change (sdrop 2 _) with x. assert (nativeBlockEnd x = Some r) as E by (apply block_end_exact; by exists body). rewrite E.
      apply IH. apply block_end_length in E. rewrite !slength_app in Hl. simpl in Hl. lia.
    + rewrite skip_spaces_app by (done || intros ? ?; apply comment_not_blank; auto). simpl HasPrefix. cbv match.
      change (sdrop 2 _) with x. apply block_end_none in Hx. by rewrite Hx.
Qed.
(** Stripping twice is stripping once. *)
Lemma stripped_again s out : stripped s out -> stripped out out.
Proof. induction 1 as [b s Hb Hn H1 H2| | |]; [by apply (stripped_bare "" s); [constructor|..]|done|done|by apply stripped_open]. Qed.

Section Whole.
Context {parsers : NativeParsers}.

(** The parser of each dialect. *)
Inductive parser_of : string -> (string -> result nat) -> Prop :=
| parser_postgresql : parser_of "postgresql" pgquery_Parse
| parser_mysql : parser_of "mysql" mysqlquery_Parse
| parser_sqlite : parser_of "sqlite" sqlitequery_Parse.
Lemma parsed_with dialect parse bare source : parser_of dialect parse -> stripped bare bare ->
  starts_update bare = starts_update source ->
  match parseSupportedNativeSQL dialect bare with
  | Ok count => requireOneStatement count
  | Err e => if negb (isUnsupportedNativeUpdate dialect e source) then Err (wrapDialectParseError dialect e)
             else validateNativeUpdateEnvelope dialect source
  end = Ok tt <->
  parse bare = Ok 1 \/ is_ok (parse bare) = false /\ starts_update source = true /\ validateNativeUpdateEnvelope dialect source = Ok tt.
Proof.
  intros Hp Hb%strip_exact HS.
  assert (exists kind, parseSupportedNativeSQL dialect bare = parse_with parse kind bare bare /\
    forall e, isUnsupportedNativeUpdate dialect e source =
      match As_ParseError kind e with
      | Some (offset, message) => starts_update source && (offset =? 0)%Z && String.eqb message unsupported_statement
      | None => false
      end) as (kind & -> & Hu).
  { destruct Hp; [exists pg_error|exists mysql_parse_error|exists sqlite_error; unfold parseSupportedNativeSQL; simpl; rewrite Hb];
      (split; [done|]); intros e; reflexivity. }
  unfold parse_with, requireOneStatement. rewrite HS. destruct (parse bare) as [n|e]; simpl.
  - destruct (Nat.eqb_spec n 1) as [->|]; naive_solver.
  - destruct (starts_update source) eqn:U; rewrite Hu.
    + cbn [ParseError As_ParseError]. rewrite String.eqb_refl. simpl. naive_solver.
    + destruct (As_ParseError kind e) as [[]|]; naive_solver.
Qed.

(** C29 Which SQL a caller may supply for a decision.  A source is accepted
    when it is not blank and its dialect's parser, given it without the
    comments it starts with, finds exactly one statement in it, or the parser
    refuses it and its first word is UPDATE and its tokens are those of one
    UPDATE: a target, SET, a column, one equals sign and a value, with
    matching parentheses, no other assignment, no FROM, RETURNING, ORDER or
    LIMIT outside them, and nothing but blank text after a closing semicolon.
    Nothing else is accepted.  The tokens are those the grammar above gives a
    dialect, which is not all of its lexical rules: PostgreSQL's escape
    strings end at the first quote that is not doubled, and two dashes begin a
    comment on MySQL whatever follows them, so that text the server would read
    as a second statement can be part of a string or a comment here. *)
Theorem native_sql_accepted dialect source :
  let text := TrimSpace source in
  validateNativeSQLSource dialect source = Ok tt <->
  text <> "" /\
  exists parse bare, parser_of dialect parse /\ stripped text bare /\
    (parse bare = Ok 1 \/
     is_ok (parse bare) = false /\ begins_update text /\ single_update dialect text).
Proof.
  intros text. unfold validateNativeSQLSource. fold text. destruct (String.eqb_spec text "") as [->|Ne]; [naive_solver|].
  pose proof (proj1 (strip_exact text _) eq_refl) as Hst. pose proof (stripped_again _ _ Hst) as Hag.
  assert (starts_update (stripLeadingNativeComments text) = starts_update text) as HS
    by (unfold starts_update; by rewrite firstNativeWord_strip).
  assert (forall bare, stripped text bare -> bare = stripLeadingNativeComments text) as Hfun by (by intros bare <-%strip_exact).
  assert (forall parse, parser_of dialect parse -> known_dialect dialect) as Hk.
  { intros parse []; unfold known_dialect; auto. }
  split.
  - intros H. split; [done|].
    assert ((exists parse, parser_of dialect parse) \/ dialect <> "postgresql" /\ dialect <> "mysql" /\ dialect <> "sqlite") as [[parse Hp]|(N1 & N2 & N3)].
    { destruct (decide (dialect = "postgresql")) as [->|]; [left; eexists; constructor|]. destruct (decide (dialect = "mysql")) as [->|]; [left; eexists; constructor|].
      destruct (decide (dialect = "sqlite")) as [->|]; [left; eexists; constructor|by right]. }
    + exists parse, (stripLeadingNativeComments text). split; [done|]. split; [done|].
      pose proof (proj1 (parsed_with _ _ _ _ Hp Hag HS) H) as [H'|(H1 & H2 & H3)]; [by left|right]. split; [done|].
      split; [by apply starts_update_exact|]. apply envelope_exact; [by eapply Hk|done].
    + apply String.eqb_neq in N1, N2, N3. unfold parseSupportedNativeSQL, isUnsupportedNativeUpdate in H. rewrite N1, N2, N3 in H. done.
  - intros (_ & parse & bare & Hp & ->%Hfun & H). apply (parsed_with _ _ _ _ Hp Hag HS).
    destruct H as [H|(H1 & H2 & H3)]; [by left|right]. split; [done|]. split; [by apply starts_update_exact|].
    apply envelope_exact; [by eapply Hk|done].
Qed.
End Whole.
