(* ===== verification/Diff.v ===== *)
(** * Diff: [migrate/diff/diff.go] without its file output

    Comparing two parsed schemas object by object, and the plan a comparison
    becomes: its operations, the decisions it leaves to the caller, the
    answers to them, and what makes it valid.  Values are immutable here, so
    the copies the source makes ([clone], [cloneOperations]) are the values
    themselves. *)

From S2P Require Import Prelude GoText Migration NativeSql Files.
Open Scope string_scope.
Open Scope list_scope.
Open Scope nat_scope.

(** ** Comparing schemas *)
Record Schema_ (Table Index : Type) := MkSchema { Tables : gmap string Table; Indexes_ : gmap string Index }.
Arguments MkSchema {Table Index}.
Arguments Tables {Table Index}.
Arguments Indexes_ {Table Index}.
Record SchemaEntry (T : Type) := MkEntry { se_Key : string; se_Value : T }.
Arguments MkEntry {T}.
Arguments se_Key {T}.
Arguments se_Value {T}.
Record SchemaPair (T : Type) := MkPair { sp_Key : string; Baseline : T; Target : T; Equal : bool }.
Arguments MkPair {T}.
Arguments sp_Key {T}.
Arguments Baseline {T}.
Arguments Target {T}.
Arguments Equal {T}.
Record SchemaChanges (T : Type) := MkChanges {
  Added : list (SchemaEntry T); Removed : list (SchemaEntry T); Matched : list (SchemaPair T) }.
Arguments MkChanges {T}.
Arguments Added {T}.
Arguments Removed {T}.
Arguments Matched {T}.

(** The keys of a map, sorted. *)
Definition sorted_keys {T} (m : gmap string T) : list string := sort_Strings (map fst (map_to_list m)).

Definition compare_target {T} (baseline target : gmap string T) (equal : option (T -> T -> bool))
  (changes : SchemaChanges T) (key : string) : SchemaChanges T :=
  match target !! key with
  | None => changes                         (* the keys are those of target *)
  | Some targetValue =>
      match baseline !! key with
      | None => MkChanges (Added changes ++ [MkEntry key targetValue]) (Removed changes) (Matched changes)
      | Some baselineValue =>
          MkChanges (Added changes) (Removed changes)
            (Matched changes ++ [MkPair key baselineValue targetValue
              (match equal with None => true | Some eq => eq baselineValue targetValue end)])
      end
  end.
Definition compare_baseline {T} (baseline : gmap string T) (changes : SchemaChanges T) (key : string) : SchemaChanges T :=
  match baseline !! key with
  | None => changes
  | Some v => MkChanges (Added changes) (Removed changes ++ [MkEntry key v]) (Matched changes)
  end.
Definition compareSchemaObjects {T} (baseline target : gmap string T) (equal : option (T -> T -> bool)) : SchemaChanges T :=
  let changes := fold_left (compare_target baseline target equal) (sorted_keys target) (MkChanges [] [] []) in
  let keys := sort_Strings (List.filter (fun key => negb (bool_decide (is_Some (target !! key)))) (map fst (map_to_list baseline))) in
  fold_left (compare_baseline baseline) keys changes.
Definition CompareSchemas {Table Index} (baseline target : Schema_ Table Index)
  (tableEqual : option (Table -> Table -> bool)) (indexEqual : option (Index -> Index -> bool))
  : SchemaChanges Table * SchemaChanges Index :=
  (compareSchemaObjects (Tables baseline) (Tables target) tableEqual,
   compareSchemaObjects (Indexes_ baseline) (Indexes_ target) indexEqual).

(** ** Plans *)
Record PlannedStatement := MkPlanned { p_Source : string; p_SQL : string; ReverseSQL : string; p_Summary : string }.
Definition OperationKind : Type := string.
Definition OperationCreateTable : OperationKind := "create_table".
Definition OperationAddColumn : OperationKind := "add_column".
Definition OperationAlterNullability : OperationKind := "alter_nullability".
Definition OperationReplaceConstraint : OperationKind := "replace_constraint".
Definition OperationRebuildTable : OperationKind := "rebuild_table".
Record ProposedOperation := MkOperation {
  op_ID : string; op_Table : string; op_Column : string; op_Constraint : string; op_Summary : string;
  op_Kind : OperationKind; Forward : list PlannedStatement; Reverse : list PlannedStatement }.
Definition DecisionKind : Type := string.
Definition DecisionBackfill : DecisionKind := "backfill".
Definition DecisionRename : DecisionKind := "rename".
Record RequiredDecision := MkDecision {
  dn_ID : string; dn_Table : string; dn_Column : string; dn_Baseline : string; dn_Target : string;
  dn_Reason : string; dn_Kind : DecisionKind }.
Record Resolution := MkResolution { DecisionID_ : string; BackfillSQL : string; RenameFrom : string }.

Record LoweringResult := MkLowering {
  lr_Operations : list ProposedOperation; lr_Mode : string; lr_Statements : list PlannedStatement;
  lr_IrreversibleReason : string }.
(** A lowerer is handed the answers by decision ID. *)
Definition Lowerer : Type := gmap string Resolution -> result LoweringResult.
Record Plan := MkPlan {
  pl_Dialect : string; Operations : list ProposedOperation; Decisions : list RequiredDecision;
  pl_Mode : string; pl_Statements : list PlannedStatement; IrreversibleReason : string;
  lowerer : option Lowerer }.

Definition OperationID (kind : OperationKind) (dialect table column constraint : string) : string :=
  Join ([kind; ToLower dialect; ToLower table]
        ++ (if String.eqb column "" then [] else [ToLower column])
        ++ (if String.eqb constraint "" then [] else [ToLower constraint])) "_".
Definition DecisionID (kind : DecisionKind) (dialect table column : string) : string :=
  Join [kind; ToLower dialect; ToLower table; ToLower column] "_".

(** ** [Plan.Validate] *)
Definition valid_source (source : string) : bool :=
  negb (String.eqb source "") && is_base source && negb (HasPrefix source ".") && String.eqb (Ext source) ".sql".

Definition validate_decisions (l : list RequiredDecision) : result unit :=
  do _ <- foldi (fun _ d (ids : gset string) =>
    if String.eqb (dn_ID d) "" || String.eqb (dn_Table d) "" || String.eqb (dn_Column d) "" || String.eqb (dn_Kind d) ""
    then Err (errors_New "migrate diff: decision metadata is incomplete")
    else if bool_decide (dn_ID d ∈ ids) then Err (Errorf "migrate diff: duplicate decision ID %q" [AStr (dn_ID d)])
    else Ok ({[ dn_ID d ]} ∪ ids)) 0 l ∅;
  Ok tt.
Definition validate_operations (l : list ProposedOperation) : result unit :=
  do _ <- foldi (fun _ o (ids : gset string) =>
    if String.eqb (op_ID o) "" || String.eqb (op_Kind o) "" || String.eqb (op_Table o) ""
    then Err (errors_New "migrate diff: operation metadata is incomplete")
    else if bool_decide (op_ID o ∈ ids) then Err (Errorf "migrate diff: duplicate operation ID %q" [AStr (op_ID o)])
    else
      check checki (fun _ s => if valid_source (p_Source s) then Ok tt
                               else Err (Errorf "migrate diff: operation %q contains invalid SQL source" [AStr (op_ID o)]))
              0 (Forward o ++ Reverse o);
      Ok ({[ op_ID o ]} ∪ ids)) 0 l ∅;
  Ok tt.
Definition summary_at (l : list PlannedStatement) (index : nat) : string :=
  match l !! index with Some s => p_Summary s | None => "" end.
Definition validate_planned (l : list PlannedStatement) : result unit :=
  do _ <- foldi (fun index s (sources : gmap string nat) =>
    if negb (valid_source (p_Source s)) then Err (Errorf "migrate diff: generated SQL source %d is invalid" [ANat (index + 1)])
    else if String.eqb (TrimSpace (p_SQL s)) ""
    then Err (Errorf "migrate diff: generated SQL source %q is empty" [AStr (p_Source s)])
    else match sources !! p_Source s with
         | Some previous => Err (Errorf "migrate diff: duplicate generated SQL source %q for %q and %q"
                                   [AStr (p_Source s); AStr (summary_at l previous); AStr (p_Summary s)])
         | None => Ok (<[p_Source s := index]> sources)
         end) 0 l ∅;
  Ok tt.
Definition validate_reverse (l : list PlannedStatement) : result unit :=
  checki (fun _ s =>
    if String.eqb (TrimSpace (ReverseSQL s)) ""
    then Err (Errorf "migrate diff: generated SQL source %q has no reverse SQL" [AStr (p_Source s)])
    else if negb (ValidString (ReverseSQL s))
    then Err (Errorf "migrate diff: generated SQL source %q has invalid reverse SQL" [AStr (p_Source s)])
    else Ok tt) 0 l.
Definition Plan_Validate (p : Plan) : result unit :=
  if String.eqb (pl_Dialect p) "" then Err (errors_New "migrate diff: plan dialect must not be empty")
  else if (length (pl_Statements p) =? 0) && (length (Operations p) =? 0) && (length (Decisions p) =? 0)
  then Err (errors_New "migrate diff: plan has no SQL sources")
  else
    check validate_decisions (Decisions p);
    check validate_operations (Operations p);
    if negb (String.eqb (pl_Mode p) ExecutionModeAtomic) && negb (String.eqb (pl_Mode p) ExecutionModeNonTransactional)
    then Err (Errorf "migrate diff: invalid execution mode %q" [AStr (pl_Mode p)])
    else
      check validate_planned (pl_Statements p);
      if negb (String.eqb (TrimSpace (IrreversibleReason p)) "") then
        if negb (String.eqb (TrimSpace (IrreversibleReason p)) (IrreversibleReason p))
        then Err (errors_New "migrate diff: irreversible reason must be trimmed")
        else Ok tt
      else validate_reverse (pl_Statements p).

Definition Executable (p : Plan) : bool := (length (Decisions p) =? 0) && (0 <? length (pl_Statements p)).
Definition Empty (p : Plan) : bool :=
  (length (pl_Statements p) =? 0) && (length (Operations p) =? 0) && (length (Decisions p) =? 0).

(** ** [NewPlan] *)
Definition lowered_plan (p : Plan) (r : LoweringResult) : Plan :=
  MkPlan (pl_Dialect p) (lr_Operations r) (Decisions p) (lr_Mode r) (lr_Statements r) (lr_IrreversibleReason r) (lowerer p).
Definition NewPlan (dialect : string) (operations : list ProposedOperation) (decisions : list RequiredDecision)
  (low : option Lowerer) : result Plan :=
  let plan := MkPlan dialect operations decisions "" [] "" low in
  match decisions, low with
  | [], Some f =>
      do r <- wrap_err (fun e => Errorf "migrate diff: lower plan: %w" [AErr e]) (f ∅);
      let plan := lowered_plan plan r in
      check wrap_err (fun e => Errorf "migrate diff: lowered plan: %w" [AErr e]) (Plan_Validate plan);
      Ok plan
  | _, _ => check Plan_Validate plan; Ok plan
  end.

(** ** [NumberSources] *)
(** [n], which has at most [width] digits, padded to them with zeros. *)
Fixpoint padded (width n : nat) : string :=
  match width with
  | 0 => ""
  | S width' => padded width' (n / 10) +:+ str1 (chr (N.of_nat (48 + n mod 10)))
  end.
(** How many digits [n] is written with. *)
Fixpoint digits_of (fuel n : nat) : nat :=
  match fuel with 0 => 1 | S fuel' => if n <? 10 then 1 else S (digits_of fuel' (n / 10)) end.
Definition digits (n : nat) : nat := digits_of n n.
Definition number_source (width index : nat) (s : PlannedStatement) : PlannedStatement :=
  MkPlanned (padded width (index + 1) +:+ "_" +:+ p_Source s) (p_SQL s) (ReverseSQL s) (p_Summary s).
Definition NumberSources (l : list PlannedStatement) : list PlannedStatement :=
  imap (number_source (Nat.max 3 (digits (length l)))) l.

(** ** [Plan.Resolve] *)
Section Resolve.
Context {parsers : NativeParsers}.

Definition decisions_by_ID (l : list RequiredDecision) : result (gmap string RequiredDecision) :=
  foldi (fun _ d (byID : gmap string RequiredDecision) =>
    if String.eqb (dn_ID d) "" || String.eqb (dn_Kind d) "" then Err (errors_New "migrate diff: invalid decision metadata")
    else Ok (<[dn_ID d := d]> byID)) 0 l ∅.
Definition check_answer (dialect : string) (d : RequiredDecision) (r : Resolution) : result unit :=
  let backfill := TrimSpace (BackfillSQL r) in
  let from := TrimSpace (RenameFrom r) in
  if String.eqb (dn_Kind d) DecisionBackfill then
    if String.eqb backfill "" || negb (String.eqb from "")
    then Err (Errorf "migrate diff: backfill resolution %q is empty" [AStr (dn_ID d)])
    else wrap_err (fun e => Errorf "migrate diff: backfill resolution %q: %w" [AStr (dn_ID d); AErr e])
           (validateNativeSQLSource dialect (BackfillSQL r))
  else if String.eqb (dn_Kind d) DecisionRename then
    if String.eqb from "" || negb (String.eqb backfill "")
    then Err (Errorf "migrate diff: rename resolution %q is empty" [AStr (dn_ID d)])
    else if negb (String.eqb (RenameFrom r) (dn_Baseline d))
    then Err (Errorf "migrate diff: rename resolution %q names non-candidate column %q" [AStr (dn_ID d); AStr (RenameFrom r)])
    else Ok tt
  else Err (Errorf "migrate diff: unsupported decision kind %q" [AStr (dn_Kind d)]).
Definition check_answers (dialect : string) (byID : gmap string RequiredDecision) (l : list Resolution) : result (gset string) :=
  foldi (fun _ r (seen : gset string) =>
    match byID !! DecisionID_ r with
    | None => Err (Errorf "migrate diff: unknown decision %q" [AStr (DecisionID_ r)])
    | Some d =>
        if bool_decide (DecisionID_ r ∈ seen)
        then Err (Errorf "migrate diff: duplicate resolution for %q" [AStr (DecisionID_ r)])
        else check check_answer dialect d r; Ok ({[ DecisionID_ r ]} ∪ seen)
    end) 0 l ∅.

Definition answersFor (l : list Resolution) (i : string) : Resolution :=
  match List.find (fun r => String.eqb (DecisionID_ r) i) l with Some r => r | None => MkResolution "" "" "" end.

(** Without a lowerer: statements of the plan's own for each decision. *)
Definition rename_statement (d : RequiredDecision) : PlannedStatement :=
  let alter a b := "ALTER TABLE " +:+ dn_Table d +:+ " RENAME COLUMN " +:+ a +:+ " TO " +:+ b +:+ ";" +:+ str1 newline in
  MkPlanned ("000_rename_" +:+ dn_ID d +:+ ".sql") (alter (dn_Baseline d) (dn_Target d)) (alter (dn_Target d) (dn_Baseline d))
    ("rename " +:+ dn_Table d +:+ "." +:+ dn_Baseline d).
Definition no_reverse : string := "caller-supplied backfill has no inferred reverse".
Definition backfill_statement (d : RequiredDecision) (r : Resolution) : PlannedStatement :=
  MkPlanned ("000_backfill_" +:+ dn_ID d +:+ ".sql") (TrimSpace (BackfillSQL r) +:+ str1 newline)
    ("-- caller-supplied backfill has no inferred reverse" +:+ str1 newline)
    ("backfill " +:+ dn_Table d +:+ "." +:+ dn_Column d).
(** A backfill goes in front of the first statement of the first operation,
    if there is one. *)
Definition prepend_sql (sql : string) (s : PlannedStatement) : PlannedStatement :=
  MkPlanned (p_Source s) (sql +:+ p_SQL s) (ReverseSQL s) (p_Summary s).
Definition fall_back (resolutions : list Resolution) (p : Plan) (d : RequiredDecision) : Plan :=
  if String.eqb (dn_Kind d) DecisionRename then
    MkPlan (pl_Dialect p) (Operations p) (Decisions p) (pl_Mode p) (pl_Statements p ++ [rename_statement d])
      (IrreversibleReason p) (lowerer p)
  else if negb (String.eqb (dn_Kind d) DecisionBackfill) then p
  else
    let statement := backfill_statement d (answersFor resolutions (dn_ID d)) in
    match Operations p with
    | MkOperation i t c k s kind (first :: forward) reverse :: operations =>
        MkPlan (pl_Dialect p)
          (MkOperation i t c k s kind (prepend_sql (p_SQL statement) first :: forward) reverse :: operations)
          (Decisions p) (pl_Mode p) [] no_reverse (lowerer p)
    | _ => MkPlan (pl_Dialect p) (Operations p) (Decisions p) (pl_Mode p) (statement :: pl_Statements p) no_reverse (lowerer p)
    end.
Definition fallen_back (p : Plan) (resolutions : list Resolution) (copyPlan : Plan) : Plan :=
  let copyPlan := fold_left (fall_back resolutions) (Decisions p) copyPlan in
  let statements := pl_Statements copyPlan ++ concat (map Forward (Operations copyPlan)) in
  MkPlan (pl_Dialect copyPlan) (Operations copyPlan) (Decisions copyPlan) (pl_Mode copyPlan)
    (if length statements =? 0 then pl_Statements p else statements) (IrreversibleReason copyPlan) (lowerer copyPlan).

Definition Resolve (p : Plan) (resolutions : list Resolution) : result Plan :=
  if negb (length resolutions =? length (Decisions p))
  then Err (Errorf "migrate diff: expected one resolution for each decision, got %d for %d"
              [ANat (length resolutions); ANat (length (Decisions p))])
  else
    do byID <- decisions_by_ID (Decisions p);
    let copyPlan := MkPlan (pl_Dialect p) (Operations p) [] (pl_Mode p) [] (IrreversibleReason p) (lowerer p) in
    do seen <- check_answers (pl_Dialect p) byID resolutions;
    if negb (size seen =? size byID) then Err (errors_New "migrate diff: unresolved decision IDs remain")
    else
      do copyPlan <- (match lowerer p with
                      | Some f =>
                          let answers := fold_left (fun (m : gmap string Resolution) r => <[DecisionID_ r := r]> m) resolutions ∅ in
                          do r <- wrap_err (fun e => Errorf "migrate diff: lower resolved plan: %w" [AErr e]) (f answers);
                          Ok (lowered_plan copyPlan r)
                      | None => Ok (fallen_back p resolutions copyPlan)
                      end);
      check Plan_Validate copyPlan;
      Ok copyPlan.
End Resolve.

(** ** What a valid plan is *)
Record planned_ok (s : PlannedStatement) : Prop := {
  po_source : valid_source (p_Source s) = true; po_sql : TrimSpace (p_SQL s) <> "" }.
(** A loop that records distinct names in a map. *)
Lemma foldi_recorded {A V} (nm : A -> string) (P : A -> Prop) (v : nat -> A -> V)
  (body : nat -> A -> gmap string V -> result (gmap string V)) :
  (forall i x m m', body i x m = Ok m' <-> P x /\ m !! nm x = None /\ m' = <[nm x := v i x]> m) ->
  forall l i m, (exists m', foldi body i l m = Ok m') <->
    Forall P l /\ NoDup (nm <$> l) /\ forall x, x ∈ l -> m !! nm x = None.
Proof.
  intros HP l. induction l as [|x l IH]; intros i m; simpl.
  { split; [intros _|eauto]. split; [constructor|]. split; [constructor|set_solver]. }
  rewrite Forall_cons, NoDup_cons.
  transitivity (exists m1, body i x m = Ok m1 /\ exists m', foldi body (S i) l m1 = Ok m').
  { destruct (body i x m); naive_solver. }
  split.
  - intros (m1 & (Hx & Hm & ->)%HP & (H1 & H2 & H3)%IH). split_and!; try done.
    + intros (y & E & Hy)%list_elem_of_fmap. specialize (H3 y Hy). by rewrite <- E, lookup_insert_eq in H3.
    + intros y [->|Hy]%elem_of_cons; [done|]. specialize (H3 y Hy). by apply lookup_insert_None in H3 as [].
  - intros ([Hx H1] & [Hn H2] & H3). exists (<[nm x := v i x]> m). split; [apply HP; split_and!; try done; apply H3; by left|].
    apply IH. split_and!; try done. intros y Hy. apply lookup_insert_None. split; [apply H3; by right|].
    intros E. apply Hn. apply list_elem_of_fmap. by exists y.
Qed.
Lemma validate_planned_ok l : validate_planned l = Ok tt <-> Forall planned_ok l /\ NoDup (p_Source <$> l).
Proof.
  unfold validate_planned. rewrite do_ok. transitivity (Forall planned_ok l /\ NoDup (p_Source <$> l) /\
    forall s, s ∈ l -> (∅ : gmap string nat) !! p_Source s = None).
  2:{ split; [naive_solver|]. intros []. split_and!; try done.  }
  erewrite <- (foldi_recorded p_Source planned_ok (fun i _ => i)); [naive_solver|].
  intros i s m m'. cbv beta. destruct (valid_source (p_Source s)) eqn:V; simpl; [|split; [intros ?; discriminate|intros [[H _] _]; congruence]].
  destruct (String.eqb_spec (TrimSpace (p_SQL s)) ""); [split; [intros ?; discriminate|intros [[_ H] _]; congruence]|].
  destruct (m !! p_Source s); [naive_solver|]. split; [intros [= <-]; by split_and!|]. by intros (_ & _ & ->).
Qed.
(** *** Source names *)
Inductive sql_file : string -> Prop :=
| sql_file_of stem : stem <> "" -> HasPrefix stem "." = false -> lacks "/" stem = true -> sql_file (stem +:+ ".sql").
Lemma ext_from_shape r acc e : ext_from r acc = e -> e = "" \/ exists m r', r = m +:+ String "." r' /\ e = String "." (str_rev m +:+ acc).
Proof.
  revert acc. induction r as [|c r IH]; intros acc; cbn [ext_from]; [by left|].
  destruct (Ascii.eqb c "/"); [by left|]. destruct (Ascii.eqb_spec c ".") as [->|].
  - intros <-. right. by exists "", r.
  - intros [->|(m & r' & -> & ->)]%IH; [by left|]. right. exists (String c m), r'. split; [done|]. by rewrite str_rev_cons, sapp_assoc.
Qed.
Lemma Ext_sql name : Ext name = ".sql" <-> exists stem, name = stem +:+ ".sql".
Proof.
  unfold Ext. split.
  - intros [H|(m & r & Hr & H)]%ext_from_shape; [done|]. rewrite sapp_nil_r in H. injection H as Hm.
    exists (str_rev r). rewrite <- (str_rev_involutive name), Hr, str_rev_app_rev. change (String "." r) with ("." +:+ r).
    rewrite str_rev_app_rev, <- Hm, sapp_assoc. done.
  - intros [stem ->]. by rewrite str_rev_app_rev.
Qed.
Lemma HasPrefix_dot stem rest : stem <> "" -> HasPrefix (stem +:+ rest) "." = HasPrefix stem ".".
Proof. by destruct stem. Qed.
Lemma valid_source_ok source : valid_source source = true <-> sql_file source.
Proof.
  unfold valid_source, is_base. change "/" with (str1 "/"). rewrite Contains_lacks, negb_involutive, !andb_true_iff, !negb_true_iff, orb_true_iff, !String.eqb_eq, Ext_sql. split.
  - intros (((Hne%String.eqb_neq & [Hl|E]) & Hp) & stem & ->).
    + assert (stem <> "") as Hs by (by intros ->). rewrite HasPrefix_dot in Hp by done.
      rewrite lacks_app in Hl. apply andb_true_iff in Hl as [Hl _]. by constructor.
    + by destruct stem as [|? [|]].
  - intros [stem Hs Hp Hl]. rewrite lacks_app, Hl, HasPrefix_dot by done. split; [|by exists stem].
    split; [|done]. split; [|by left]. by destruct stem.
Qed.

(** *** A plan that may be written out *)
Record statement_complete (s : PlannedStatement) : Prop := {
  sc_source : sql_file (p_Source s); sc_sql : TrimSpace (p_SQL s) <> "" }.
Definition decision_complete (d : RequiredDecision) : Prop :=
  dn_ID d <> "" /\ dn_Table d <> "" /\ dn_Column d <> "" /\ dn_Kind d <> "".
Record operation_complete (o : ProposedOperation) : Prop := {
  oc_fields : op_ID o <> "" /\ op_Kind o <> "" /\ op_Table o <> "";
  oc_sources : Forall (fun s => sql_file (p_Source s)) (Forward o ++ Reverse o) }.
Record plan_wf (p : Plan) : Prop := {
  pw_dialect : pl_Dialect p <> "";
  pw_content : pl_Statements p <> [] \/ Operations p <> [] \/ Decisions p <> [];
  pw_decisions : Forall decision_complete (Decisions p) /\ NoDup (dn_ID <$> Decisions p);
  pw_operations : Forall operation_complete (Operations p) /\ NoDup (op_ID <$> Operations p);
  pw_mode : pl_Mode p = ExecutionModeAtomic \/ pl_Mode p = ExecutionModeNonTransactional;
  pw_statements : Forall statement_complete (pl_Statements p) /\ NoDup (p_Source <$> pl_Statements p);
  pw_reverse : (TrimSpace (IrreversibleReason p) <> "" /\ TrimSpace (IrreversibleReason p) = IrreversibleReason p) \/
    TrimSpace (IrreversibleReason p) = "" /\
    Forall (fun s => TrimSpace (ReverseSQL s) <> "" /\ ValidString (ReverseSQL s) = true) (pl_Statements p) }.

Lemma none_seen {A} (nm : A -> string) l : Forall (fun x => nm x ∉ (∅ : gset string)) l.
Proof. apply Forall_forall. set_solver. Qed.
Lemma distinct_ok {A} (nm : A -> string) (P : A -> Prop) (body : nat -> A -> gset string -> result (gset string)) l :
  (forall i x seen s, body i x seen = Ok s <-> P x /\ (nm x ∉ seen) /\ s = {[ nm x ]} ∪ seen) ->
  (do _ <- foldi body 0 l ∅; Ok tt) = Ok tt <-> Forall P l /\ NoDup (nm <$> l).
Proof.
  intros Hb. rewrite do_ok. setoid_rewrite (foldi_distinct nm P body Hb l 0 ∅).
  pose proof (none_seen nm l). naive_solver.
Qed.
Lemma validate_decisions_ok l : validate_decisions l = Ok tt <-> Forall decision_complete l /\ NoDup (dn_ID <$> l).
Proof.
  unfold validate_decisions. apply distinct_ok. intros _ d seen s. unfold decision_complete.
  destruct (String.eqb_spec (dn_ID d) ""), (String.eqb_spec (dn_Table d) ""), (String.eqb_spec (dn_Column d) ""), (String.eqb_spec (dn_Kind d) "");
    simpl; try naive_solver. case_bool_decide; naive_solver.
Qed.
Lemma validate_operations_ok l : validate_operations l = Ok tt <-> Forall operation_complete l /\ NoDup (op_ID <$> l).
Proof.
  unfold validate_operations. apply distinct_ok. intros _ o seen s.
  assert (forall f, (checki (fun _ s => if valid_source (p_Source s) then Ok tt else Err (f s)) 0 (Forward o ++ Reverse o) = Ok tt) <->
            Forall (fun s => sql_file (p_Source s)) (Forward o ++ Reverse o)) as Hs.
  { intros f. apply checki_Forall. intros _ s'. rewrite <- valid_source_ok. destruct (valid_source _); naive_solver. }
  assert (operation_complete o <-> (op_ID o <> "" /\ op_Kind o <> "" /\ op_Table o <> "") /\ Forall (fun s => sql_file (p_Source s)) (Forward o ++ Reverse o)) as ->
    by (split; [by intros []|by intros []; split]).
  destruct (String.eqb_spec (op_ID o) ""), (String.eqb_spec (op_Kind o) ""), (String.eqb_spec (op_Table o) ""); simpl; try naive_solver.
  case_bool_decide; [naive_solver|]. rewrite check_ok, Hs. naive_solver.
Qed.
Lemma planned_complete s : planned_ok s <-> statement_complete s.
Proof. split; intros [H1 H2]; (split; [|done]); by apply valid_source_ok. Qed.
Lemma Plan_Validate_exact p : Plan_Validate p = Ok tt <-> plan_wf p.
Proof.
  unfold Plan_Validate. destruct (String.eqb_spec (pl_Dialect p) "") as [Hd|Hd].
  { split; [done|]. by intros []. }
  assert ((length (pl_Statements p) =? 0) && (length (Operations p) =? 0) && (length (Decisions p) =? 0) = false <->
          (pl_Statements p <> [] \/ Operations p <> [] \/ Decisions p <> [])) as Hc.
  { destruct (pl_Statements p), (Operations p), (Decisions p); naive_solver. }
  destruct (_ && _) eqn:C. { split; [done|]. intros [_ H%Hc _ _ _ _ _]. done. }
  rewrite !check_ok, validate_decisions_ok, validate_operations_ok.
  assert (negb (String.eqb (pl_Mode p) ExecutionModeAtomic) && negb (String.eqb (pl_Mode p) ExecutionModeNonTransactional) = false <->
          (pl_Mode p = ExecutionModeAtomic \/ pl_Mode p = ExecutionModeNonTransactional)) as Hm.
  { rewrite andb_false_iff, !negb_false_iff, !String.eqb_eq. done. }
  destruct (negb (String.eqb (pl_Mode p) _) && _) eqn:M. { split; [by intros (_ & _ & ?)|]. intros [_ _ _ _ H%Hm _ _]. done. }
  rewrite check_ok, validate_planned_ok, (Forall_iff _ _ _ planned_complete).
  assert ((if negb (String.eqb (TrimSpace (IrreversibleReason p)) "")
           then if negb (String.eqb (TrimSpace (IrreversibleReason p)) (IrreversibleReason p))
                then Err (errors_New "migrate diff: irreversible reason must be trimmed") else Ok tt
           else validate_reverse (pl_Statements p)) = Ok tt <->
    (TrimSpace (IrreversibleReason p) <> "" /\ TrimSpace (IrreversibleReason p) = IrreversibleReason p) \/
    TrimSpace (IrreversibleReason p) = "" /\
    Forall (fun s => TrimSpace (ReverseSQL s) <> "" /\ ValidString (ReverseSQL s) = true) (pl_Statements p)) as ->.
  { destruct (String.eqb_spec (TrimSpace (IrreversibleReason p)) "") as [E|E]; simpl.
    - unfold validate_reverse. rewrite (checki_Forall _ (fun s => TrimSpace (ReverseSQL s) <> "" /\ ValidString (ReverseSQL s) = true)); [naive_solver|].
      intros _ s. destruct (String.eqb_spec (TrimSpace (ReverseSQL s)) ""); [naive_solver|]. destruct (ValidString (ReverseSQL s)); naive_solver.
    - destruct (String.eqb_spec (TrimSpace (IrreversibleReason p)) (IrreversibleReason p)); naive_solver. }
  split; [intros (? & ? & ? & ?); split; try done; [by apply Hc|by apply Hm]|by intros []].
Qed.
Definition reversible (p : Plan) : bool := String.eqb (TrimSpace (IrreversibleReason p)) "".
Record valid_plan (p : Plan) : Prop := {
  vp_dialect : pl_Dialect p <> "";
  vp_mode : pl_Mode p = ExecutionModeAtomic \/ pl_Mode p = ExecutionModeNonTransactional;
  vp_statements : Forall planned_ok (pl_Statements p) /\ NoDup (p_Source <$> pl_Statements p);
  vp_reverse : reversible p = true -> Forall (fun s => TrimSpace (ReverseSQL s) <> "" /\ ValidString (ReverseSQL s) = true) (pl_Statements p) }.
Lemma Plan_Validate_ok p : Plan_Validate p = Ok tt -> valid_plan p.
Proof.
  unfold Plan_Validate. destruct (String.eqb_spec (pl_Dialect p) "") as [|Hd]; [done|].
  destruct (_ && _); [done|]. rewrite !check_ok. intros (_ & _ & H).
  destruct (negb (String.eqb (pl_Mode p) ExecutionModeAtomic) && _) eqn:M; [done|].
  rewrite check_ok, validate_planned_ok in H. destruct H as [HS H]. split; [done| |done|].
  - destruct (String.eqb_spec (pl_Mode p) ExecutionModeAtomic); [by left|].
    destruct (String.eqb_spec (pl_Mode p) ExecutionModeNonTransactional); [by right|done].
  - unfold reversible. intros R. rewrite R in H. simpl in H.
    apply (checki_Forall _ (fun s => TrimSpace (ReverseSQL s) <> "" /\ ValidString (ReverseSQL s) = true)) in H; [done|].
    intros _ s. destruct (String.eqb_spec (TrimSpace (ReverseSQL s)) ""); [naive_solver|].
    destruct (ValidString (ReverseSQL s)); naive_solver.
Qed.

(** ** Numbered sources are in plan order *)
Lemma padded_length w n : String.length (padded w n) = w.
Proof. revert n. induction w as [|w IH]; intros n; [done|]. cbn [padded]. rewrite slength_app, IH. simpl. lia. Qed.
Lemma digit_code n : code (chr (N.of_nat (48 + n mod 10))) = N.of_nat (48 + n mod 10).
Proof. apply code_chr. pose proof (Nat.mod_upper_bound n 10 ltac:(lia)). lia. Qed.
Lemma padded_lt w n m : n < m -> m < 10 ^ w -> str_ltb (padded w n) (padded w m) = true.
Proof.
  revert n m. induction w as [|w IH]; intros n m Hn Hm; [simpl in Hm; lia|].
  cbn [padded]. rewrite Nat.pow_succ_r' in Hm.
  pose proof (Nat.div_mod_eq n 10) as En. pose proof (Nat.div_mod_eq m 10) as Em.
  pose proof (Nat.mod_upper_bound n 10 ltac:(lia)). pose proof (Nat.mod_upper_bound m 10 ltac:(lia)).
  destruct (decide (n / 10 = m / 10)) as [E|Ne].
  - rewrite E, str_ltb_prefix. unfold str1. cbn [str_ltb]. rewrite !digit_code.
    rewrite (proj2 (N.ltb_lt _ _)) by lia. done.
  - apply str_ltb_app; [by rewrite !padded_length|]. apply IH; [lia|]. lia.
Qed.
Lemma digits_of_bound fuel n : n <= fuel -> n < 10 ^ digits_of fuel n.
Proof.
  revert n. induction fuel as [|fuel IH]; intros n H; cbn [digits_of]; [simpl; lia|].
  destruct (Nat.ltb_spec n 10) as [L|L]; [simpl; lia|].
  rewrite Nat.pow_succ_r'. specialize (IH (n / 10)). pose proof (Nat.div_mod_eq n 10).
  pose proof (Nat.mod_upper_bound n 10 ltac:(lia)). lia.
Qed.
Definition number_width (n : nat) : nat := Nat.max 3 (digits n).
Lemma number_width_bound n : n < 10 ^ number_width n.
Proof.
  unfold number_width. eapply Nat.lt_le_trans; [by apply digits_of_bound|]. apply Nat.pow_le_mono_r; unfold digits; lia.
Qed.
(** The number a source gets, and its underscore. *)
Definition number_prefix (width i : nat) : string := padded width (i + 1) +:+ "_".
Lemma NumberSources_lookup l i s : NumberSources l !! i = Some s ->
  exists s0, l !! i = Some s0 /\ p_Source s = number_prefix (number_width (length l)) i +:+ p_Source s0.
Proof.
  unfold NumberSources. rewrite list_lookup_imap. destruct (l !! i) as [s0|]; [|done]. intros [= <-].
  exists s0. split; [done|]. unfold number_prefix. by rewrite sapp_assoc.
Qed.
Lemma number_prefix_lt width i j x y : i < j -> j + 1 < 10 ^ width ->
  str_ltb (number_prefix width i +:+ x) (number_prefix width j +:+ y) = true.
Proof.
  intros H Hb. unfold number_prefix. rewrite !sapp_assoc. apply str_ltb_app; [by rewrite !padded_length|].
  apply padded_lt; lia.
Qed.

(** ** What resolves a plan *)
Definition by_ID (l : list RequiredDecision) (m : gmap string RequiredDecision) : gmap string RequiredDecision :=
  fold_left (fun (m : gmap string RequiredDecision) d => <[dn_ID d := d]> m) l m.
Definition named (d : RequiredDecision) : Prop := dn_ID d <> "" /\ dn_Kind d <> "".
Lemma decisions_by_ID_ok l m : decisions_by_ID l = Ok m <-> Forall named l /\ m = by_ID l ∅.
Proof.
  unfold decisions_by_ID. generalize (∅ : gmap string RequiredDecision) as m0, 0. induction l as [|d l IH]; intros m0 i; simpl.
  { split; [intros [= <-]; by split|by intros [_ ->]]. }
  rewrite Forall_cons. unfold named at 1.
  destruct (String.eqb_spec (dn_ID d) ""); simpl; [split; [intros ?; discriminate|naive_solver]|].
  destruct (String.eqb_spec (dn_Kind d) ""); simpl; [split; [intros ?; discriminate|naive_solver]|].
  rewrite IH. naive_solver.
Qed.
Lemma by_ID_dom l m : dom (by_ID l m) = dom m ∪ list_to_set (dn_ID <$> l).
Proof. revert m. induction l as [|d l IH]; intros m; simpl; [set_solver|]. rewrite IH, dom_insert_L. set_solver. Qed.
Lemma by_ID_lookup l m i d : by_ID l m !! i = Some d -> m !! i = Some d \/ d ∈ l /\ dn_ID d = i.
Proof.
  revert m. induction l as [|e l IH]; intros m; simpl; [by left|]. intros [H|[H1 H2]]%IH.
  - destruct (decide (dn_ID e = i)) as [<-|Ne].
    + rewrite lookup_insert_eq in H. simplify_eq. right. split; [by left|done].
    + rewrite lookup_insert_ne in H by done. by left.
  - right. split; [by right|done].
Qed.
Lemma size_list_to_set_le (l : list string) : size (list_to_set l : gset string) <= length l.
Proof.
  induction l as [|x l IH]; [done|]. rewrite list_to_set_cons.
  pose proof (size_union_alt {[x]} (list_to_set l : gset string)) as H. rewrite size_singleton in H.
  pose proof (subseteq_size ((list_to_set l : gset string) ∖ {[x]}) (list_to_set l) ltac:(set_solver)). simpl. lia.
Qed.
Lemma size_list_to_set_NoDup (l : list string) : size (list_to_set l : gset string) = length l -> NoDup l.
Proof.
  induction l as [|x l IH]; simpl; [constructor|]. intros H.
  destruct (decide (x ∈ l)) as [Hx|Hx].
  - assert ({[x]} ∪ list_to_set l = (list_to_set l : gset string)) as E by set_solver.
    rewrite E in H. pose proof (size_list_to_set_le l). lia.
  - rewrite size_union, size_singleton in H by set_solver. constructor; [done|]. apply IH. lia.
Qed.

Section Resolved.
Context {parsers : NativeParsers}.

(** Every decision is answered once, in the way its kind asks for. *)
Definition fits (dialect : string) (d : RequiredDecision) (r : Resolution) : Prop :=
  (dn_Kind d = DecisionBackfill /\ TrimSpace (RenameFrom r) = "" /\ TrimSpace (BackfillSQL r) <> ""
     /\ validateNativeSQLSource dialect (BackfillSQL r) = Ok tt) \/
  (dn_Kind d = DecisionRename /\ TrimSpace (BackfillSQL r) = "" /\ TrimSpace (RenameFrom r) <> ""
     /\ RenameFrom r = dn_Baseline d).
Lemma check_answer_ok dialect d r : check_answer dialect d r = Ok tt <-> fits dialect d r.
Proof.
  unfold check_answer, fits. destruct (String.eqb_spec (dn_Kind d) DecisionBackfill) as [E|E].
  - destruct (String.eqb_spec (TrimSpace (BackfillSQL r)) ""), (String.eqb_spec (TrimSpace (RenameFrom r)) ""); simpl;
      rewrite ?wrap_err_ok; rewrite E; naive_solver.
  - destruct (String.eqb_spec (dn_Kind d) DecisionRename); [|naive_solver].
    destruct (String.eqb_spec (TrimSpace (RenameFrom r)) ""), (String.eqb_spec (TrimSpace (BackfillSQL r)) ""); simpl; try naive_solver.
    destruct (String.eqb_spec (RenameFrom r) (dn_Baseline d)); naive_solver.
Qed.
Definition answers_each (p : Plan) (l : list Resolution) : Prop :=
  Forall named (Decisions p) /\ NoDup (dn_ID <$> Decisions p) /\
  (DecisionID_ <$> l) ≡ₚ (dn_ID <$> Decisions p) /\
  forall r d, r ∈ l -> d ∈ Decisions p -> dn_ID d = DecisionID_ r -> fits (pl_Dialect p) d r.

(** *** What the answers make of the plan

    With a lowerer, what it makes of the answers by decision ID. *)
Definition lowered_by (f : Lowerer) (p : Plan) (l : list Resolution) (q : Plan) : Prop :=
  exists (answers : gmap string Resolution) r,
    (forall i x, answers !! i = Some x <-> x ∈ l /\ DecisionID_ x = i) /\ f answers = Ok r /\
    q = MkPlan (pl_Dialect p) (lr_Operations r) [] (lr_Mode r) (lr_Statements r) (lr_IrreversibleReason r) (Some f).
(** Without one, a statement for each decision: a rename is an ALTER TABLE
    and its reverse, a backfill the SQL of its answer. *)
Definition rename_sql (table from to : string) : string :=
  "ALTER TABLE " +:+ table +:+ " RENAME COLUMN " +:+ from +:+ " TO " +:+ to +:+ ";" +:+ str1 newline.
Definition is_backfill (d : RequiredDecision) : Prop := dn_Kind d = DecisionBackfill.
Definition is_rename (d : RequiredDecision) : Prop := dn_Kind d = DecisionRename.
#[local] Instance is_backfill_dec d : Decision (is_backfill d).
Proof. unfold is_backfill. apply _. Defined.
#[local] Instance is_rename_dec d : Decision (is_rename d).
Proof. unfold is_rename. apply _. Defined.
Record renames (d : RequiredDecision) (s : PlannedStatement) : Prop := {
  rn_source : p_Source s = "000_rename_" +:+ dn_ID d +:+ ".sql";
  rn_sql : p_SQL s = rename_sql (dn_Table d) (dn_Baseline d) (dn_Target d);
  rn_reverse : ReverseSQL s = rename_sql (dn_Table d) (dn_Target d) (dn_Baseline d);
  rn_summary : p_Summary s = "rename " +:+ dn_Table d +:+ "." +:+ dn_Baseline d }.
(** The SQL that answers a backfill, on a line of its own. *)
Definition backfill_text (l : list Resolution) (d : RequiredDecision) (text : string) : Prop :=
  exists r, r ∈ l /\ DecisionID_ r = dn_ID d /\ text = TrimSpace (BackfillSQL r) +:+ str1 newline.
Record backfills (l : list Resolution) (d : RequiredDecision) (s : PlannedStatement) : Prop := {
  bf_source : p_Source s = "000_backfill_" +:+ dn_ID d +:+ ".sql";
  bf_sql : backfill_text l d (p_SQL s);
  bf_reverse : ReverseSQL s = "-- caller-supplied backfill has no inferred reverse" +:+ str1 newline;
  bf_summary : p_Summary s = "backfill " +:+ dn_Table d +:+ "." +:+ dn_Column d }.
(** Where they go.  If the first operation has a statement, the backfills go
    in front of its SQL, a later one before an earlier, and only the renames
    after the last of them stay; else they are statements of their own, again
    a later one before an earlier, in front of the renames. *)
Inductive placed (l : list Resolution) (ds : list RequiredDecision) :
    list ProposedOperation -> list ProposedOperation -> list PlannedStatement -> Prop :=
| placed_inside o first forward operations before after texts own :
    Forward o = first :: forward -> ds = before ++ after ->
    (before = [] \/ exists pre d, before = pre ++ [d] /\ is_backfill d) -> Forall is_rename after ->
    Forall2 (backfill_text l) (reverse (filter is_backfill ds)) texts -> Forall2 renames after own ->
    placed l ds (o :: operations)
      (MkOperation (op_ID o) (op_Table o) (op_Column o) (op_Constraint o) (op_Summary o) (op_Kind o)
         (MkPlanned (p_Source first) (String.concat "" texts +:+ p_SQL first) (ReverseSQL first) (p_Summary first) :: forward)
         (Reverse o) :: operations) own
| placed_in_front operations bs rs :
    (operations = [] \/ exists o rest, operations = o :: rest /\ Forward o = []) ->
    Forall2 (backfills l) (reverse (filter is_backfill ds)) bs -> Forall2 renames (filter is_rename ds) rs ->
    placed l ds operations operations (bs ++ rs).
(** The statements are these and those of the operations or, if there are
    none, the plan's; a backfill makes the plan irreversible. *)
Record filled_in (p : Plan) (l : list Resolution) (q : Plan) : Prop := {
  fi_kept : pl_Dialect q = pl_Dialect p /\ pl_Mode q = pl_Mode p /\ lowerer q = None /\ Decisions q = [];
  fi_statements : exists own, placed l (Decisions p) (Operations p) (Operations q) own /\
    let statements := own ++ concat (map Forward (Operations q)) in
    (statements <> [] /\ pl_Statements q = statements \/ statements = [] /\ pl_Statements q = pl_Statements p);
  fi_reason : IrreversibleReason q =
    if decide (Exists is_backfill (Decisions p)) then "caller-supplied backfill has no inferred reverse" else IrreversibleReason p }.
Definition resolved_to (p : Plan) (l : list Resolution) (q : Plan) : Prop :=
  match lowerer p with Some f => lowered_by f p l q | None => filled_in p l q end.

Lemma NoDup_ID l d e : NoDup (dn_ID <$> l) -> d ∈ l -> e ∈ l -> dn_ID d = dn_ID e -> d = e.
Proof.
  induction l as [|x l IH]; [set_solver|]. rewrite fmap_cons, NoDup_cons. intros [Hn H].
  intros [->|Hd]%elem_of_cons [->|He]%elem_of_cons E; [done| | |by apply IH];
    destruct Hn; apply list_elem_of_fmap; eauto.
Qed.
Lemma check_answers_ok dialect byID l seen : check_answers dialect byID l = Ok seen <->
  (Forall (fun r => exists d, byID !! DecisionID_ r = Some d /\ fits dialect d r) l /\ NoDup (DecisionID_ <$> l)) /\
  seen = list_to_set (DecisionID_ <$> l).
Proof.
  unfold check_answers.
  rewrite (foldi_distinct DecisionID_ (fun r => exists d, byID !! DecisionID_ r = Some d /\ fits dialect d r)), union_empty_r_L.
  - assert (Forall (fun r => DecisionID_ r ∉ (∅ : gset string)) l) by (apply Forall_forall; set_solver). naive_solver.
  - intros i r seen0 s. setoid_rewrite <- check_answer_ok. destruct (byID !! DecisionID_ r) as [d|]; [|naive_solver].
    assert ((exists d0, Some d = Some d0 /\ check_answer dialect d0 r = Ok tt) <-> check_answer dialect d r = Ok tt) as -> by naive_solver.
    case_bool_decide; [naive_solver|]. destruct (check_answer dialect d r) as [[]|]; naive_solver.
Qed.
Lemma answers_each_ok p l : length l = length (Decisions p) ->
  (exists byID seen, decisions_by_ID (Decisions p) = Ok byID /\ check_answers (pl_Dialect p) byID l = Ok seen /\ size seen = size byID) <->
  answers_each p l.
Proof.
  intros Hlen. unfold answers_each. set (ds := Decisions p) in *. split.
  - intros (byID & seen & [Hd ->]%decisions_by_ID_ok & [[HF HN] ->]%check_answers_ok & Hsize).
    rewrite size_list_to_set, <- size_dom, by_ID_dom, dom_empty_L, union_empty_l_L, length_fmap in Hsize by done.
    assert (NoDup (dn_ID <$> ds)) as HND by (apply size_list_to_set_NoDup; rewrite length_fmap; lia).
    rewrite Forall_forall in HF. split_and!; try done.
    + apply submseteq_length_Permutation; [|by rewrite !length_fmap, Hlen].
      apply NoDup_submseteq; [done|]. intros i (r & -> & Hr)%list_elem_of_fmap. destruct (HF r Hr) as (d & H & _).
      apply by_ID_lookup in H as [H|[H1 H2]]; [by rewrite lookup_empty in H|]. apply list_elem_of_fmap. by exists d.
    + intros r d Hr Hdin E. destruct (HF r Hr) as (d' & H & Hf). apply by_ID_lookup in H as [H|[H1 H2]]; [by rewrite lookup_empty in H|].
      by rewrite (NoDup_ID ds d d') by (done || congruence).
  - intros (Hd & HND & HP & Hf).
    exists (by_ID ds ∅), (list_to_set (DecisionID_ <$> l)). split_and!.
    + by apply decisions_by_ID_ok.
    + apply check_answers_ok. split; [|done]. split; [|by rewrite HP].
      apply Forall_forall. intros r Hr. assert (DecisionID_ r ∈ dn_ID <$> ds) as Hin by (rewrite <- HP; apply list_elem_of_fmap; by exists r).
      assert (is_Some (by_ID ds ∅ !! DecisionID_ r)) as [d Hl].
      { apply elem_of_dom. rewrite by_ID_dom. set_solver. }
      exists d. split; [done|]. apply by_ID_lookup in Hl as [H|[H1 H2]]; [by rewrite lookup_empty in H|]. by apply Hf.
    + rewrite size_list_to_set, <- size_dom, by_ID_dom, dom_empty_L, union_empty_l_L, size_list_to_set by (done || by rewrite HP).
      by rewrite HP.
Qed.

(** *** The plan the answers make *)
Definition answers_by_ID (l : list Resolution) : gmap string Resolution :=
  fold_left (fun (m : gmap string Resolution) r => <[DecisionID_ r := r]> m) l ∅.
Definition unresolved_copy (p : Plan) : Plan :=
  MkPlan (pl_Dialect p) (Operations p) [] (pl_Mode p) [] (IrreversibleReason p) (lowerer p).
Definition answered (p : Plan) (l : list Resolution) : option Plan :=
  match lowerer p with
  | Some f => match f (answers_by_ID l) with Ok r => Some (lowered_plan (unresolved_copy p) r) | Err _ => None end
  | None => Some (fallen_back p l (unresolved_copy p))
  end.
Lemma answers_by_ID_lookup l i x : NoDup (DecisionID_ <$> l) -> answers_by_ID l !! i = Some x <-> x ∈ l /\ DecisionID_ x = i.
Proof.
  unfold answers_by_ID. intros Hn.
  assert (forall m : gmap string Resolution, (forall r, r ∈ l -> m !! DecisionID_ r = None) ->
    fold_left (fun (m : gmap string Resolution) r => <[DecisionID_ r := r]> m) l m !! i = Some x <-> m !! i = Some x \/ x ∈ l /\ DecisionID_ x = i) as H.
  { induction l as [|r l IH]; intros m Hm; simpl; [set_solver|]. rewrite fmap_cons, NoDup_cons in Hn. destruct Hn as [Hr Hn].
    rewrite IH; [|done|].
    2:{ intros r' Hr'. rewrite lookup_insert_ne; [apply Hm; by right|]. intros E. apply Hr. rewrite E. apply list_elem_of_fmap. eauto. }
    specialize (Hm r (list_elem_of_here _ _)). destruct (decide (DecisionID_ r = i)) as [<-|Ne].
    - rewrite lookup_insert_eq. split; [intros [[= <-]|[H1 H2]]; right; set_solver|].
      intros [E|[[->|H1]%elem_of_cons H2]]; [congruence|by left|by right].
    - rewrite lookup_insert_ne by done. split; [intros [?|[??]]; [by left|right; set_solver]|].
      intros [E|[[->|H1]%elem_of_cons H2]]; [by left|done|by right]. }
  rewrite H by (intros; apply lookup_empty). rewrite lookup_empty. naive_solver.
Qed.
Lemma answersFor_in l r : NoDup (DecisionID_ <$> l) -> r ∈ l -> answersFor l (DecisionID_ r) = r.
Proof.
  intros Hn Hr. unfold answersFor. destruct (List.find _ l) as [r'|] eqn:E.
  - apply List.find_some in E as [Hr'%list_elem_of_In E%String.eqb_eq].
    apply list_elem_of_lookup in Hr as [i Hi], Hr' as [j Hj].
    assert (i = j) as ->; [|congruence]. eapply NoDup_lookup; [exact Hn| |]; rewrite list_lookup_fmap, ?Hi, ?Hj; simpl; [done|by rewrite E].
  - apply list_elem_of_In in Hr. pose proof (List.find_none _ _ E r Hr) as H. cbn beta in H. by rewrite String.eqb_refl in H.
Qed.

Section Fallback.
Variable l : list Resolution.
Abbreviation fold_back ds c := (fold_left (fall_back l) ds c).
Definition text_of (d : RequiredDecision) : string := p_SQL (backfill_statement d (answersFor l (dn_ID d))).
Definition texts_of (ds : list RequiredDecision) : list string := text_of <$> reverse (filter is_backfill ds).
Definition known (d : RequiredDecision) : Prop := is_backfill d \/ is_rename d.
Lemma backfill_not_rename d : is_backfill d -> is_rename d -> False.
Proof. unfold is_backfill, is_rename. by intros ->. Qed.
Lemma filter_backfill_snoc ds d : filter is_backfill (ds ++ [d]) = filter is_backfill ds ++ (if decide (is_backfill d) then [d] else []).
Proof. rewrite list.filter_app, filter_cons, filter_nil. done. Qed.
Lemma filter_rename_snoc ds d : filter is_rename (ds ++ [d]) = filter is_rename ds ++ (if decide (is_rename d) then [d] else []).
Proof. rewrite list.filter_app, filter_cons, filter_nil. done. Qed.
Lemma fall_back_rename p d : is_rename d -> fall_back l p d =
  MkPlan (pl_Dialect p) (Operations p) (Decisions p) (pl_Mode p) (pl_Statements p ++ [rename_statement d]) (IrreversibleReason p) (lowerer p).
Proof. unfold fall_back. intros ->. done. Qed.
Definition reason (ds : list RequiredDecision) (r : string) : string := if decide (Exists is_backfill ds) then no_reverse else r.
Lemma reason_snoc ds d r : reason (ds ++ [d]) r = if decide (is_backfill d) then no_reverse else reason ds r.
Proof.
  unfold reason. destruct (decide (is_backfill d)) as [Hd|Hd].
  - rewrite decide_True; [done|]. apply Exists_app. right. by constructor.
  - destruct (decide (Exists is_backfill ds)) as [He|He]; [rewrite decide_True; [done|apply Exists_app; by left]|].
    rewrite decide_False; [done|]. intros [?|[?|H%Exists_nil]%Exists_cons]%Exists_app; done.
Qed.

(** The plan after the decisions [ds], the first operation having a
    statement. *)
Definition inside (o : ProposedOperation) first forward operations (texts : list string) : list ProposedOperation :=
  MkOperation (op_ID o) (op_Table o) (op_Column o) (op_Constraint o) (op_Summary o) (op_Kind o)
    (MkPlanned (p_Source first) (String.concat "" texts +:+ p_SQL first) (ReverseSQL first) (p_Summary first) :: forward) (Reverse o) :: operations.
Lemma concat_cons x xs : String.concat "" (x :: xs) = x +:+ String.concat "" xs.
Proof. destruct xs as [|y xs]; [simpl; by rewrite sapp_nil_r|done]. Qed.
Lemma fold_inside p o first forward operations ds : Operations p = o :: operations -> Forward o = first :: forward -> Forall known ds ->
  exists own, fold_back ds p = MkPlan (pl_Dialect p) (inside o first forward operations (texts_of ds)) (Decisions p) (pl_Mode p) own
    (reason ds (IrreversibleReason p)) (lowerer p) /\
  (ds = [] -> own = pl_Statements p) /\
  (forall pre d, ds = pre ++ [d] -> is_backfill d -> own = []).
Proof.
  intros Ho Hf. induction ds as [|d ds IH] using rev_ind; intros Hk.
  - exists (pl_Statements p). split; [|split; [done|by intros []]]. destruct p as [? ops ? ? ? ? ?], o, first. simpl in *. subst. done.
  - apply Forall_app in Hk as [Hk Hd]. rewrite Forall_singleton in Hd. destruct (IH Hk) as (own & E & _ & _).
    rewrite fold_left_app, E, reason_snoc. simpl. unfold texts_of. rewrite filter_backfill_snoc. destruct Hd as [Hd|Hd].
    + rewrite !decide_True by done. exists []. split; [|split; [by destruct ds|done]].
      rewrite reverse_snoc, fmap_cons. unfold inside. rewrite concat_cons, sapp_assoc. unfold fall_back. rewrite Hd. reflexivity.
    + rewrite !decide_False by (intros H; by eapply backfill_not_rename). exists (own ++ [rename_statement d]).
      rewrite app_nil_r, fall_back_rename by done. split; [done|]. split; [by destruct ds|].
      intros pre d' [-> [= ->]]%app_inj_tail Hb. by destruct (backfill_not_rename d').
Qed.
Lemma fold_renames p ds : Forall is_rename ds -> fold_back ds p =
  MkPlan (pl_Dialect p) (Operations p) (Decisions p) (pl_Mode p) (pl_Statements p ++ map rename_statement ds) (IrreversibleReason p) (lowerer p).
Proof.
  intros H. revert p. induction H as [|d ds Hd _ IH]; intros p; simpl; [rewrite app_nil_r; by destruct p|].
  rewrite fall_back_rename, IH by done. simpl. by rewrite <- app_assoc.
Qed.
Lemma fold_front p ds : (Operations p = [] \/ exists o rest, Operations p = o :: rest /\ Forward o = []) -> Forall known ds ->
  pl_Statements p = [] ->
  fold_back ds p = MkPlan (pl_Dialect p) (Operations p) (Decisions p) (pl_Mode p)
    (map (fun d => backfill_statement d (answersFor l (dn_ID d))) (reverse (filter is_backfill ds)) ++ map rename_statement (filter is_rename ds))
    (reason ds (IrreversibleReason p)) (lowerer p).
Proof.
  intros Ho Hk Hs. induction ds as [|d ds IH] using rev_ind; [destruct p; simpl in *; by subst|].
  apply Forall_app in Hk as [Hk Hd]. rewrite Forall_singleton in Hd.
  rewrite fold_left_app, (IH Hk), reason_snoc, filter_backfill_snoc, filter_rename_snoc. simpl. destruct Hd as [Hd|Hd].
  - rewrite !(decide_True (P := is_backfill d)) by done. rewrite decide_False by (intros H; by eapply backfill_not_rename).
    rewrite reverse_snoc, app_nil_r. unfold fall_back. rewrite Hd. simpl.
    destruct Ho as [->|(o & rest & -> & Hf)]; [done|]. destruct o. simpl in *. by subst.
  - rewrite !(decide_False (P := is_backfill d)) by (intros H; by eapply backfill_not_rename).
    rewrite decide_True, app_nil_r by done. rewrite fall_back_rename by done. simpl. by rewrite map_app, <- app_assoc.
Qed.
(** The decisions up to the last backfill, and the renames after it. *)
Lemma last_backfill ds : Forall known ds -> exists before after, ds = before ++ after /\
  (before = [] \/ exists pre d, before = pre ++ [d] /\ is_backfill d) /\ Forall is_rename after.
Proof.
  induction ds as [|d ds IH] using rev_ind; intros Hk; [by exists [], []; split_and!; [|left|constructor]|].
  apply Forall_app in Hk as [Hk Hd]. rewrite Forall_singleton in Hd. destruct Hd as [Hd|Hd].
  - exists (ds ++ [d]), []. split_and!; [by rewrite app_nil_r|right; by exists ds, d|constructor].
  - destruct (IH Hk) as (before & after & -> & Hb & Ha). exists before, (after ++ [d]). split_and!; [by rewrite <- app_assoc|done|].
    apply Forall_app. split; [done|by rewrite Forall_singleton].
Qed.
Lemma fold_last p o first forward operations before after :
  Operations p = o :: operations -> Forward o = first :: forward -> Forall known (before ++ after) -> pl_Statements p = [] ->
  (before = [] \/ exists pre d, before = pre ++ [d] /\ is_backfill d) -> Forall is_rename after ->
  fold_back (before ++ after) p = MkPlan (pl_Dialect p) (inside o first forward operations (texts_of (before ++ after))) (Decisions p) (pl_Mode p)
    (map rename_statement after) (reason (before ++ after) (IrreversibleReason p)) (lowerer p).
Proof.
  intros Ho Hf Hk Hs Hb Ha. destruct (fold_inside p o first forward operations _ Ho Hf Hk) as (own & E & _).
  rewrite E. f_equal. apply Forall_app in Hk as [Hk _].
  destruct (fold_inside p o first forward operations _ Ho Hf Hk) as (own' & E' & H1 & H2).
  rewrite fold_left_app, E', fold_renames in E by done. simpl in E. injection E as _ E _. rewrite <- E.
  destruct Hb as [->|(pre & d & -> & Hd)]; [by rewrite (H1 eq_refl), Hs|]. by rewrite (H2 pre d eq_refl Hd).
Qed.
End Fallback.

(** *** The code's fallback is the one described *)
Lemma Forall2_function {A B} (R : A -> B -> Prop) (f : A -> B) xs ys :
  (forall x y, x ∈ xs -> R x y <-> y = f x) -> Forall2 R xs ys <-> ys = map f xs.
Proof.
  revert ys. induction xs as [|x xs IH]; intros ys H.
  { split; [by intros ->%Forall2_nil_inv_l|]. intros ->. constructor. }
  split.
  - intros (y & ys' & Hy & Hr & ->)%Forall2_cons_inv_l. simpl. f_equal; [apply H; [by left|done]|].
    apply IH; [|done]. intros. apply H. by right.
  - intros ->. simpl. constructor; [apply H; [by left|done]|]. apply IH; [|done]. intros. apply H. by right.
Qed.
Lemma renames_exact d s : renames d s <-> s = rename_statement d.
Proof. split; [|by intros ->]. intros [H1 H2 H3 H4]. destruct s. simpl in *. by subst. Qed.
Lemma answers_each_unique p l : answers_each p l -> NoDup (DecisionID_ <$> l).
Proof. intros (_ & H & HP & _). by rewrite HP. Qed.
Lemma answers_each_answer p l d : answers_each p l -> d ∈ Decisions p ->
  exists r, r ∈ l /\ DecisionID_ r = dn_ID d /\ fits (pl_Dialect p) d r.
Proof.
  intros (_ & _ & HP & Hf) Hd. assert (dn_ID d ∈ DecisionID_ <$> l) as (r & E & Hr)%list_elem_of_fmap.
  { rewrite HP. apply list_elem_of_fmap. by exists d. }
  exists r. split_and!; [done|done|]. by apply Hf.
Qed.
Lemma answers_each_known p l : answers_each p l -> Forall known (Decisions p).
Proof.
  intros H. apply Forall_forall. intros d Hd. destruct (answers_each_answer _ _ _ H Hd) as (r & _ & _ & [[? _]|[? _]]); [by left|by right].
Qed.
Lemma backfill_text_exact p l d text : answers_each p l -> d ∈ Decisions p -> backfill_text l d text <-> text = text_of l d.
Proof.
  intros H Hd. pose proof (answers_each_unique _ _ H) as Hn. unfold text_of, backfill_text. simpl. split.
  - intros (r & Hr & E & ->). by rewrite <- E, answersFor_in.
  - intros ->. destruct (answers_each_answer _ _ _ H Hd) as (r & Hr & E & _). exists r. by rewrite <- E, answersFor_in.
Qed.
Lemma backfills_exact p l d s : answers_each p l -> d ∈ Decisions p ->
  backfills l d s <-> s = backfill_statement d (answersFor l (dn_ID d)).
Proof.
  intros H Hd. split.
  - intros [H1 H2 H3 H4]. apply (backfill_text_exact p) in H2; [|done..]. destruct s. simpl in *. by subst.
  - intros ->. split; [done| |done|done]. by apply (backfill_text_exact p).
Qed.
Lemma in_backfills (ds : list RequiredDecision) d : d ∈ reverse (filter is_backfill ds) -> d ∈ ds.
Proof. rewrite elem_of_reverse, list_elem_of_filter. by intros []. Qed.
Lemma placed_fold p l ops own : answers_each p l -> placed l (Decisions p) (Operations p) ops own ->
  fold_left (fall_back l) (Decisions p) (unresolved_copy p) =
  MkPlan (pl_Dialect p) ops [] (pl_Mode p) own (reason (Decisions p) (IrreversibleReason p)) (lowerer p).
Proof.
  intros H Hp. pose proof (answers_each_known _ _ H) as Hk.
  inversion Hp as [o first forward operations before after texts own' Hf Hds Hb Ha Ht Hr E|operations bs rs Ho Hb Hr E]; subst.
  - apply (Forall2_function _ (text_of l)) in Ht; [|by intros d t Hd%in_backfills; apply (backfill_text_exact p)].
    apply (Forall2_function _ rename_statement) in Hr; [|by intros; apply renames_exact].
    rewrite Hds in Hk |- *. rewrite (fold_last l (unresolved_copy p) o first forward operations before after) by done.
    unfold inside, texts_of. by rewrite <- Hds, Ht, Hr.
  - apply (Forall2_function _ (fun d => backfill_statement d (answersFor l (dn_ID d)))) in Hb;
      [|by intros d t Hd%in_backfills; apply (backfills_exact p)].
    apply (Forall2_function _ rename_statement) in Hr; [|by intros; apply renames_exact].
    rewrite (fold_front l (unresolved_copy p)) by done. by rewrite Hb, Hr.
Qed.
Lemma placed_exists p l : answers_each p l -> exists ops own, placed l (Decisions p) (Operations p) ops own.
Proof.
  intros H. pose proof (answers_each_known _ _ H) as Hk.
  assert (forall ds, Forall2 renames ds (map rename_statement ds)) as Hr
    by (intros ds; apply (Forall2_function _ rename_statement); [by intros; apply renames_exact|done]).
  assert ((Operations p = [] \/ exists o rest, Operations p = o :: rest /\ Forward o = []) \/
          exists o first forward rest, Operations p = o :: rest /\ Forward o = first :: forward) as [Ho|(o & first & forward & rest & -> & Hf)].
  { destruct (Operations p) as [|o rest]; [by left; left|]. destruct (Forward o) as [|first forward] eqn:Hf; [left; right; by exists o, rest|right; by exists o, first, forward, rest]. }
  - eexists _, _. eapply placed_in_front; [done| |apply Hr].
    apply (Forall2_function _ (fun d => backfill_statement d (answersFor l (dn_ID d)))); [|done].
    by intros d t Hd%in_backfills; apply (backfills_exact p).
  - destruct (last_backfill _ Hk) as (before & after & E & Hb & Ha). eexists _, _. eapply placed_inside; [done|exact E|done|done| |apply Hr].
    apply (Forall2_function _ (text_of l)); [|done]. by intros d t Hd%in_backfills; apply (backfill_text_exact p).
Qed.
Lemma fallen_back_exact p l q : answers_each p l -> lowerer p = None ->
  fallen_back p l (unresolved_copy p) = q <-> filled_in p l q.
Proof.
  intros H Hl. unfold fallen_back. split.
  - intros <-. destruct (placed_exists p l H) as (ops & own & Hp). rewrite (placed_fold _ _ _ _ H Hp). simpl. split; simpl; [done| |done].
    exists own. split; [done|]. destruct (own ++ _); [by right|by left].
  - intros [(E1 & E2 & E3 & E4) (own & Hp & Hs) Hr]. rewrite (placed_fold _ _ _ _ H Hp). simpl. rewrite Hl.
    destruct q as [? ops ? ? st ? ?]. simpl in *. subst. f_equal. by destruct Hs as [[Hs ->]|[-> ->]]; [destruct (own ++ _)|].
Qed.
Lemma answered_exact p l q : answers_each p l -> answered p l = Some q <-> resolved_to p l q.
Proof.
  intros H. pose proof (answers_each_unique _ _ H) as Hn. unfold answered, resolved_to. destruct (lowerer p) as [f|] eqn:Hl.
  - unfold lowered_by. split.
    + destruct (f (answers_by_ID l)) as [r|] eqn:E; [|done]. intros [= <-]. exists (answers_by_ID l), r.
      split_and!; [by intros; apply answers_by_ID_lookup|done|]. unfold lowered_plan, unresolved_copy. simpl. by rewrite Hl.
    + intros (answers & r & Ha & E & ->). assert (answers = answers_by_ID l) as ->.
      { apply map_eq. intros i. apply option_eq. intros x. by rewrite Ha, answers_by_ID_lookup. }
      rewrite E. unfold lowered_plan, unresolved_copy. simpl. by rewrite Hl.
  - rewrite <- fallen_back_exact by done. naive_solver.
Qed.

End Resolved.

(** ** What a comparison finds *)
Section Compared.
Context {T : Type} (baseline target : gmap string T) (equal : option (T -> T -> bool)).

Definition added_at (key : string) : option (SchemaEntry T) :=
  match target !! key, baseline !! key with Some v, None => Some (MkEntry key v) | _, _ => None end.
Definition matched_at (key : string) : option (SchemaPair T) :=
  match target !! key, baseline !! key with
  | Some v, Some b => Some (MkPair key b v (match equal with None => true | Some eq => eq b v end))
  | _, _ => None
  end.
Definition removed_at (key : string) : option (SchemaEntry T) :=
  match baseline !! key with Some b => Some (MkEntry key b) | None => None end.
Lemma sorted_keys_elem {V} (m : gmap string V) key : key ∈ sorted_keys m <-> is_Some (m !! key).
Proof.
  unfold sorted_keys. rewrite sort_Strings_perm, list_elem_of_fmap. split.
  - intros ([k v] & -> & H%elem_of_map_to_list). by exists v.
  - intros [v H]. exists (key, v). split; [done|]. by apply elem_of_map_to_list.
Qed.
Lemma compare_target_all keys c :
  fold_left (compare_target baseline target equal) keys c =
  MkChanges (Added c ++ omap added_at keys) (Removed c) (Matched c ++ omap matched_at keys).
Proof.
  revert c. induction keys as [|key keys IH]; intros c; [destruct c; simpl; by rewrite !app_nil_r|].
  simpl fold_left. rewrite IH. unfold compare_target, added_at, matched_at. simpl.
  destruct (target !! key), (baseline !! key); simpl; by rewrite <- ?app_assoc.
Qed.
Lemma compare_baseline_all keys c :
  fold_left (compare_baseline baseline) keys c = MkChanges (Added c) (Removed c ++ omap removed_at keys) (Matched c).
Proof.
  revert c. induction keys as [|key keys IH]; intros c; [destruct c; simpl; by rewrite !app_nil_r|].
  simpl fold_left. rewrite IH. unfold compare_baseline, removed_at. simpl.
  destruct (baseline !! key); simpl; by rewrite <- ?app_assoc.
Qed.
(** Every object of the two schemas is in exactly the list it belongs to. *)
Lemma compareSchemaObjects_exact :
  let c := compareSchemaObjects baseline target equal in
  (forall key v, MkEntry key v ∈ Added c <-> target !! key = Some v /\ baseline !! key = None) /\
  (forall key v, MkEntry key v ∈ Removed c <-> baseline !! key = Some v /\ target !! key = None) /\
  (forall key b v e, MkPair key b v e ∈ Matched c <->
    baseline !! key = Some b /\ target !! key = Some v /\ e = (match equal with None => true | Some eq => eq b v end)).
Proof.
  unfold compareSchemaObjects. rewrite compare_target_all, compare_baseline_all. simpl.
  setoid_rewrite list_elem_of_omap. split_and!.
  - intros key v. setoid_rewrite sorted_keys_elem. unfold added_at. split.
    + intros (k & _ & H). destruct (target !! k) eqn:E1, (baseline !! k) eqn:E2; naive_solver.
    + intros [H1 H2]. exists key. rewrite H1, H2. eauto.
  - intros key v. setoid_rewrite sort_Strings_perm. setoid_rewrite list_elem_of_In. setoid_rewrite filter_In.
    setoid_rewrite <- list_elem_of_In. setoid_rewrite negb_true_iff. setoid_rewrite bool_decide_eq_false.
    unfold removed_at. split.
    + intros (k & [_ Hk] & H). destruct (baseline !! k) eqn:E; [|done]. simplify_eq. split; [done|]. by apply eq_None_not_Some.
    + intros [H1 H2]. exists key. rewrite H1. split; [|done]. split; [|by rewrite H2; intros []].
      apply list_elem_of_fmap. exists (key, v). split; [done|]. by apply elem_of_map_to_list.
  - intros key b v e. setoid_rewrite sorted_keys_elem. unfold matched_at. split.
    + intros (k & _ & H). destruct (target !! k) eqn:E1, (baseline !! k) eqn:E2; naive_solver.
    + intros (H1 & H2 & ->). exists key. rewrite H1, H2. eauto.
Qed.
End Compared.

(** Without a lowerer, a backfill that goes into an operation drops the rename
    statements made before it. *)
Definition any_parsers : NativeParsers :=
  {| pgquery_Parse := fun _ => Ok 1; mysqlquery_Parse := fun _ => Ok 1; sqlitequery_Parse := fun _ => Ok 1 |}.
Definition renaming_plan : Plan :=
  MkPlan "sqlite"
    [MkOperation "o" "t" "c" "" "" OperationAddColumn [MkPlanned "001.sql" "ALTER TABLE t ADD c" "" ""] []]
    [MkDecision "r" "t" "b" "a" "b" "" DecisionRename; MkDecision "f" "t" "c" "" "c" "" DecisionBackfill]
    "" [] "" None.
Example rename_dropped :
  match Resolve (parsers := any_parsers) renaming_plan [MkResolution "r" "" "a"; MkResolution "f" "UPDATE t SET c = 1" ""] with
  | Ok q => map p_SQL (pl_Statements q) = ["UPDATE t SET c = 1" +:+ str1 newline +:+ "ALTER TABLE t ADD c"]
  | Err _ => False
  end.
Proof. vm_compute. reflexivity. Qed.
