(* ===== verification/DiffWrite.v ===== *)
(** * DiffWrite: [WriteMigration] of [migrate/diff/diff.go]

    A plan written out as a migration directory, built under a temporary name
    and renamed, and read back by [internal/migrationdir]. *)

From S2P Require Import Prelude GoText Migration Files MigrationDir NativeSql Diff.
Open Scope string_scope.
Open Scope list_scope.
Open Scope nat_scope.
Open Scope io_scope.

Section Write.
Context {os : OS}.

Definition up_name (s : PlannedStatement) : string := TrimSuffix (p_Source s) ".sql" +:+ upSuffix.
Definition down_name (s : PlannedStatement) : string := TrimSuffix (p_Source s) ".sql" +:+ downSuffix.
Definition mode_text : string := "nontransactional" +:+ str1 newline.

Definition write_sources (temporary : path) (name sql : PlannedStatement -> string) (format : string)
  (l : list PlannedStatement) : io unit :=
  for_io (fun s _ => wrap_io (fun e => Errorf format [AStr (p_Source s); AErr e])
                       (WriteFile (temporary ++ [name s]) (sql s))) l tt.
Definition write_files (temporary directory : path) (p : Plan) : io unit :=
  write_sources temporary up_name p_SQL "migrate diff: write generated SQL source %q: %w" (pl_Statements p) ;;
  (if String.eqb (pl_Mode p) ExecutionModeNonTransactional
   then wrap_io (fun e => Errorf "migrate diff: write execution mode: %w" [AErr e])
          (WriteFile (temporary ++ [modeFile]) mode_text)
   else ret (Ok tt)) ;;
  (if reversible p
   then write_sources temporary down_name ReverseSQL "migrate diff: write reverse SQL source %q: %w" (pl_Statements p)
   else ret (Ok tt)) ;;
  wrap_io (fun e => Errorf "migrate diff: create migration directory %q: %w" [AStr (show directory); AErr e])
    (Rename temporary directory).
(** The deferred [os.RemoveAll], whose error is dropped. *)
Definition or_remove (temporary : path) (m : io unit) : io unit := fun w =>
  match m w with
  | (Ok a, w') => (Ok a, w')
  | (Err e, w') => (Err e, snd (RemoveAll temporary w'))
  end.
Definition WriteMigration (directory : path) (p : Plan) : io unit :=
  if length directory =? 0 then ret (Err (errors_New "migrate diff: output directory must not be empty"))
  else
    ret (Plan_Validate p) ;;
    if negb (length (Decisions p) =? 0)
    then ret (Err (Errorf "migrate diff: unresolved decisions: %s" [AStr (Join (sort_Strings (map dn_ID (Decisions p))) ", ")]))
    else if negb (Executable p) then ret (Err (errors_New "migrate diff: plan is not executable"))
    else
      let parent := Parent directory in
      wrap_io (fun e => Errorf "migrate diff: create migration parent directory: %w" [AErr e]) (MkdirAll parent) ;;
      let! temporary := wrap_io (fun e => Errorf "migrate diff: create temporary migration directory: %w" [AErr e])
                          (MkdirTemp parent ("." +:+ Base directory +:+ ".tmp-")) in
      or_remove temporary (write_files temporary directory p).
End Write.

(** ** Names *)
Lemma ext_from_suffix r acc e : ext_from r acc = e -> e <> "" -> exists x, str_rev_app r acc = x +:+ e.
Proof.
  revert acc. induction r as [|c r IH]; intros acc; simpl; [by intros <-|].
  destruct (Ascii.eqb c "/"); [by intros <-|]. destruct (Ascii.eqb c "."); [|apply IH].
  intros <- _. exists (str_rev r). by rewrite str_rev_app_acc.
Qed.
Lemma valid_source_stem s : valid_source s = true -> exists stem, s = stem +:+ ".sql" /\ HasPrefix stem "." = false /\ stem <> "".
Proof.
  unfold valid_source. rewrite !andb_true_iff, !negb_true_iff. intros [[[H1 H2] H3] H4%String.eqb_eq].
  apply ext_from_suffix in H4 as [x Hx]; [|done].
  assert (s = x +:+ ".sql") as ->. { rewrite <- Hx. change (str_rev_app (str_rev s) "") with (str_rev (str_rev s)). by rewrite str_rev_involutive. }
  exists x. split; [done|]. destruct x as [|c x]; [done|]. split; [|done]. by destruct x.
Qed.

Lemma up_name_stem s stem : p_Source s = stem +:+ ".sql" -> up_name s = stem +:+ upSuffix.
Proof. unfold up_name. intros ->. by rewrite TrimSuffix_app. Qed.
Lemma down_name_stem s stem : p_Source s = stem +:+ ".sql" -> down_name s = stem +:+ downSuffix.
Proof. unfold down_name. intros ->. by rewrite TrimSuffix_app. Qed.
Lemma source_names s : valid_source (p_Source s) = true -> exists stem,
  p_Source s = stem +:+ ".sql" /\ source_name stem upSuffix (up_name s) /\ source_name stem downSuffix (down_name s).
Proof.
  intros (stem & E & Hd & Hn)%valid_source_stem. exists stem. split; [done|].
  rewrite (up_name_stem _ _ E), (down_name_stem _ _ E). split; by apply source_name_intro.
Qed.
(** ** What the writes leave in the temporary directory *)
Definition file_of (f : string * string) : string * node := (f.1, File f.2).
Definition write_all (files : list (string * string)) (l : list (string * node)) : list (string * node) :=
  fold_left (fun l f => set_child f.1 (File f.2) l) files l.
Lemma write_all_app a b l : write_all (a ++ b) l = write_all b (write_all a l).
Proof. apply fold_left_app. Qed.
Lemma write_all_perm files l : NoDup (files.*1) -> (forall n, n ∈ files.*1 -> child n l = None) ->
  write_all files l ≡ₚ (file_of <$> files) ++ l.
Proof.
  revert l. induction files as [|[n d] files IH]; intros l; simpl; [done|]. intros [Hn H]%NoDup_cons Hl.
  rewrite IH; [|done|].
  - rewrite set_child_perm by (apply Hl; by left). by rewrite <- Permutation_middle.
  - intros m Hin. rewrite child_set_child. destruct (String.eqb_spec n m) as [->|]; [done|]. apply Hl. by right.
Qed.
Definition up_file (s : PlannedStatement) : string * string := (up_name s, p_SQL s).
Definition down_file (s : PlannedStatement) : string * string := (down_name s, ReverseSQL s).
Definition plan_files (p : Plan) : list (string * string) :=
  map up_file (pl_Statements p)
  ++ (if String.eqb (pl_Mode p) ExecutionModeNonTransactional then [(modeFile, mode_text)] else [])
  ++ (if reversible p then map down_file (pl_Statements p) else []).

Section Written.
Context {os : OS}.

(** [t'] is [t] but for what is below [p]. *)
Definition same_outside (p : path) (t t' : node) : Prop := forall q, ~ (exists r, q = p ++ r) -> file_at t' q = file_at t q.
Lemma same_outside_refl p t : same_outside p t t.
Proof. done. Qed.
Lemma same_outside_trans p t1 t2 t3 : same_outside p t1 t2 -> same_outside p t2 t3 -> same_outside p t1 t3.
Proof. intros H1 H2 q Hq. by rewrite H2, H1. Qed.
Lemma same_outside_put p t name x : p <> [] -> same_outside p t (put (p ++ [name]) x t).
Proof.
  intros Ne q Hq. apply file_at_put; [by destruct p|]. intros [r ->]. destruct Hq. exists ([name] ++ r). by rewrite app_assoc.
Qed.
Lemma same_outside_put_self p t x : p <> [] -> same_outside p t (put p x t).
Proof. intros Ne q Hq. by apply file_at_put. Qed.

Lemma WriteFile_outside temporary name data w r w' : temporary <> [] ->
  WriteFile (temporary ++ [name]) data w = (r, w') -> same_outside temporary (tree w) (tree w').
Proof.
  intros Ne. unfold WriteFile, call. destruct (refused (calls w)); destruct (writable (tree w) _); intros [= <- <-];
    simpl; try apply same_outside_refl; by apply same_outside_put.
Qed.
Lemma RemoveAll_outside temporary w : temporary <> [] -> same_outside temporary (tree w) (tree (snd (RemoveAll temporary w))).
Proof.
  intros Ne. unfold RemoveAll, call. destruct (refused (calls w)); [apply same_outside_refl|]. simpl.
  destruct (find _ _); [by apply same_outside_put_self|apply same_outside_refl].
Qed.
Lemma write_sources_outside temporary name sql format l w r w' : temporary <> [] ->
  write_sources temporary name sql format l w = (r, w') -> same_outside temporary (tree w) (tree w').
Proof.
  intros Ne. unfold write_sources. revert w. induction l as [|s l IH]; intros w; simpl; [intros [= <- <-]; apply same_outside_refl|].
  unfold bind, wrap_io. destruct (WriteFile _ _ w) as [r1 w1] eqn:E. apply (WriteFile_outside _ _ _ _ _ _ Ne) in E.
  destruct r1; simpl; [|by intros [= <- <-]]. destruct a. intros H. eapply same_outside_trans; [done|by apply IH].
Qed.

Lemma WriteFile_ok temporary name data w u w' l : temporary <> [] ->
  forall t, tree w = put temporary (Some (Dir l)) t -> is_dir (find t (Parent temporary)) = true ->
  WriteFile (temporary ++ [name]) data w = (Ok u, w') ->
  Contains name NUL = false /\ tree w' = put temporary (Some (Dir (set_child name (File data) l))) t.
Proof.
  intros Ne t Ht Hp. unfold WriteFile, call, writable, has_nul. rewrite existsb_app. cbn [existsb].
  destruct (refused (calls w)); [done|]. change (str1 (chr 0)) with NUL. destruct (Contains name NUL) eqn:N.
  { cbn [orb]. by rewrite orb_true_r. }
  destruct (_ && _ && _); [|done]. intros [= _ <-]. split; [done|]. simpl.
  by rewrite Ht, put_below.
Qed.
Lemma write_sources_ok temporary name sql format l w u w' c t : temporary <> [] ->
  is_dir (find t (Parent temporary)) = true -> tree w = put temporary (Some (Dir c)) t ->
  write_sources temporary name sql format l w = (Ok u, w') ->
  Forall (fun s => Contains (name s) NUL = false) l /\
  tree w' = put temporary (Some (Dir (write_all (map (fun s => (name s, sql s)) l) c))) t.
Proof.
  intros Ne Hp. unfold write_sources. revert w c. induction l as [|s l IH]; intros w c Ht; simpl.
  { intros [= _ <-]. split; [constructor|done]. }
  rewrite io_bind_ok. intros (u1 & w1 & H1 & H2). apply wrap_io_ok in H1.
  destruct (WriteFile_ok _ _ _ _ _ _ c Ne t Ht Hp H1) as [Hn Ht1].
  destruct u1. destruct (IH _ _ Ht1 H2) as [HF Ht2]. split; [by constructor|done].
Qed.

Definition plain_names (p : Plan) : Prop := forall n, n ∈ (plan_files p).*1 -> n = modeFile \/ Contains n NUL = false.
Lemma write_files_ok temporary directory p w u w' t : temporary <> [] -> is_dir (find t (Parent temporary)) = true ->
  tree w = put temporary (Some (Dir [])) t -> find t temporary = None ->
  write_files temporary directory p w = (Ok u, w') ->
  plain_names p /\ tree w' = put directory (Some (Dir (write_all (plan_files p) []))) t.
Proof.
  intros Ne Hp Ht Hnone. unfold write_files. rewrite io_bind_ok. intros (u1 & w1 & H1 & H2).
  destruct (write_sources_ok _ _ _ _ _ _ _ _ _ _ Ne Hp Ht H1) as [N1 Ht1]. clear H1.
  rewrite io_bind_ok in H2. destruct H2 as (u2 & w2 & H2 & H3).
  assert (tree w2 = put temporary (Some (Dir (write_all (if String.eqb (pl_Mode p) ExecutionModeNonTransactional then [(modeFile, mode_text)] else [])
            (write_all (map up_file (pl_Statements p)) [])))) t) as Ht2.
  { destruct (String.eqb (pl_Mode p) _); [|by injection H2 as _ <-]. apply wrap_io_ok in H2.
    by destruct (WriteFile_ok _ _ _ _ _ _ _ Ne t Ht1 Hp H2) as [_ ->]. }
  rewrite io_bind_ok in H3. destruct H3 as (u3 & w3 & H3 & H4).
  assert (Forall (fun s => Contains (down_name s) NUL = false) (if reversible p then pl_Statements p else []) /\
          tree w3 = put temporary (Some (Dir (write_all (plan_files p) []))) t) as [N3 Ht3].
  { unfold plan_files. rewrite !write_all_app. destruct (reversible p); [|by injection H3 as _ <-].
    by destruct (write_sources_ok _ _ _ _ _ _ _ _ _ _ Ne Hp Ht2 H3) as [? ->]. }
  split.
  - intros n. unfold plan_files. rewrite !fmap_app, !elem_of_app. rewrite Forall_forall in N1, N3.
    intros [Hn|[Hn|Hn]].
    + right. apply list_elem_of_fmap in Hn as (f & -> & (s & -> & Hs)%list_elem_of_fmap). by apply N1.
    + left. destruct (String.eqb _ _); simpl in Hn; [set_solver|by apply not_elem_of_nil in Hn].
    + right. destruct (reversible p); simpl in Hn; [|by apply not_elem_of_nil in Hn].
      apply list_elem_of_fmap in Hn as (f & -> & (s & -> & Hs)%list_elem_of_fmap). by apply N3.
  - apply wrap_io_ok in H4. unfold Rename, call in H4. destruct (refused (calls w3)); [done|].
    rewrite Ht3, find_put_same in H4 by done.
    destruct (find _ directory); [done|]. destruct (_ && _); [|done]. injection H4 as _ <-. simpl. by rewrite put_undo.
Qed.

(** A path next to [directory] whose name hides it from the loader. *)
Definition temporary_of (directory temporary : path) : Prop :=
  exists name, temporary = Parent directory ++ [name] /\ HasPrefix name "." = true.
Lemma first_free_ok fuel i t dir prefix suffix p : first_free fuel i t dir prefix suffix = Some p ->
  find t p = None /\ exists n, p = dir ++ [prefix +:+ n].
Proof.
  revert i. induction fuel as [|fuel IH]; intros i; [done|]. cbn [first_free].
  destruct (find t (dir ++ _)) eqn:E; [apply IH|]. intros [= <-]. split; [done|]. by eexists.
Qed.
Lemma MkdirTemp_ok dir prefix w p w' : MkdirTemp dir prefix w = (Ok p, w') ->
  is_dir (find (tree w) dir) = true /\ find (tree w) p = None /\ tree w' = put p (Some (Dir [])) (tree w) /\
  exists n, p = dir ++ [prefix +:+ n].
Proof.
  unfold MkdirTemp, call. destruct (refused (calls w)); [done|].
  destruct (find (tree w) dir) as [[|l]|]; [done| |done]. destruct (Contains prefix _); [done|].
  destruct (first_free _ _ _ _ _ _) as [q|] eqn:E; [|done]. apply first_free_ok in E as [H1 H2].
  intros [= <- <-]. done.
Qed.

Lemma MkdirTemp_err dir prefix w e w' : MkdirTemp dir prefix w = (Err e, w') -> tree w' = tree w.
Proof.
  unfold MkdirTemp, call. destruct (refused (calls w)); [by intros [= _ <-]|].
  destruct (find (tree w) dir) as [[|l]|]; [by intros [= _ <-]| |by intros [= _ <-]].
  destruct (Contains prefix _); [by intros [= _ <-]|].
  destruct (first_free _ _ _ _ _ _) as [q|]; [done|by intros [= _ <-]].
Qed.

Lemma WriteMigration_ok directory p w u w' : WriteMigration directory p w = (Ok u, w') ->
  directory <> [] /\ Plan_Validate p = Ok tt /\ Executable p = true /\ plain_names p /\
  exists t, (forall q, file_at t q = file_at (tree w) q) /\ is_dir (find t (Parent directory)) = true /\
    tree w' = put directory (Some (Dir (write_all (plan_files p) []))) t.
Proof.
  unfold WriteMigration. destruct (Nat.eqb_spec (length directory) 0) as [|L]; [done|].
  assert (directory <> []) as Hne by (by intros ->). rewrite io_bind_ok. intros (u1 & w1 & H1 & H).
  injection H1 as Hv <-. destruct u1. destruct (negb (length (Decisions p) =? 0)); [done|].
  destruct (Executable p) eqn:X; [|done]. cbn [negb] in H. cbv zeta in H.
  rewrite io_bind_ok in H. destruct H as (u2 & w2 & H2%wrap_io_ok & H).
  rewrite io_bind_ok in H. destruct H as (temporary & w3 & H3%wrap_io_ok & H).
  assert (forall q, file_at (tree w2) q = file_at (tree w) q) as Hsame.
  { intros q. unfold MkdirAll, call in H2. destruct (refused (calls w)); [done|]. destruct (has_nul _); [done|].
    destruct (make_all _ _) as [t'|] eqn:E; [|done]. injection H2 as _ <-. by eapply file_at_make_all. }
  apply MkdirTemp_ok in H3 as (Hd & Hn & Ht & name & Etmp).
  assert (Parent temporary = Parent directory) as Hpar by (rewrite Etmp; apply removelast_last).
  assert (temporary <> []) as Ne by (rewrite Etmp; by destruct (Parent directory)).
  unfold or_remove in H. destruct (write_files temporary directory p w3) as [[u3|e] w4] eqn:E; [|done].
  injection H as _ <-. apply (write_files_ok _ _ _ _ _ _ (tree w2)) in E as [Hnames Htree]; [|done|by rewrite Hpar|done|done].
  split_and!; try done. by exists (tree w2).
Qed.

(** A program that changes nothing outside [p], or nothing when it fails. *)
Definition stays {A} (p : path) (m : io A) : Prop := forall w r w', m w = (r, w') -> same_outside p (tree w) (tree w').
Definition stays_failing {A} (p : path) (m : io A) : Prop := forall w e w', m w = (Err e, w') -> same_outside p (tree w) (tree w').
Lemma stays_ret {A} p (r : result A) : stays p (ret r).
Proof. intros w r' w' [= <- <-]. apply same_outside_refl. Qed.
Lemma stays_wrap {A} p f (m : io A) : stays p m -> stays p (wrap_io f m).
Proof. intros H w r w'. unfold wrap_io. destruct (m w) as [r1 w1] eqn:E. intros [= _ <-]. by eapply H. Qed.
Lemma stays_failing_bind {A B} p (m : io A) (k : A -> io B) :
  stays p m -> (forall a, stays_failing p (k a)) -> stays_failing p (bind m k).
Proof.
  intros Hm Hk w e w'. unfold bind. destruct (m w) as [[a|e1] w1] eqn:E; apply Hm in E; [|by intros [= <- <-]].
  intros H. eapply same_outside_trans; [done|by eapply Hk].
Qed.
Lemma write_files_err temporary directory p : temporary <> [] -> stays_failing temporary (write_files temporary directory p).
Proof.
  intros Ne. unfold write_files. apply stays_failing_bind; [intros w r w'; by apply write_sources_outside|]. intros _.
  apply stays_failing_bind.
  { destruct (String.eqb _ _); [|apply stays_ret]. apply stays_wrap. intros w r w'. by apply WriteFile_outside. }
  intros _. apply stays_failing_bind.
  { destruct (reversible p); [|apply stays_ret]. intros w r w'. by apply write_sources_outside. }
  intros _ w e w'. unfold wrap_io, Rename, call. destruct (refused (calls w)); [by intros [= <- <-]|].
  destruct (find (tree w) temporary), (find (tree w) directory); try (by intros [= <- <-]).
  destruct (_ && _); [done|by intros [= <- <-]].
Qed.
(** A failing call leaves every file as it was, but for what it left under a
    hidden name next to [directory]. *)
Definition only_temporary (directory : path) (t t' : node) : Prop :=
  (forall q, file_at t' q = file_at t q) \/
  exists temporary, temporary_of directory temporary /\ (forall r, file_at t (temporary ++ r) = None) /\
    same_outside temporary t t'.
Lemma WriteMigration_err directory p w e w' : WriteMigration directory p w = (Err e, w') ->
  only_temporary directory (tree w) (tree w').
Proof.
  unfold WriteMigration. destruct (length directory =? 0); [intros [= <- <-]; by left|].
  unfold bind at 1, ret. destruct (Plan_Validate p) as [[]|]; [|intros [= <- <-]; by left].
  destruct (negb (length (Decisions p) =? 0)); [intros [= <- <-]; by left|].
  destruct (Executable p); [|intros [= <- <-]; by left]. cbn [negb]. cbv zeta.
  unfold bind at 1. destruct (wrap_io _ (MkdirAll _) w) as [r1 w1] eqn:E1.
  assert (forall q, file_at (tree w1) q = file_at (tree w) q) as Hsame.
  { intros q. unfold wrap_io, MkdirAll, call in E1. destruct (refused (calls w)); [by injection E1 as _ <-|].
    destruct (has_nul _); [by injection E1 as _ <-|].
    destruct (make_all _ _) as [t'|] eqn:E; injection E1 as _ <-; [|done]. by eapply file_at_make_all. }
  destruct r1 as [[]|e1]; [|intros [= <- <-]; by left].
  unfold bind at 1. destruct (wrap_io _ (MkdirTemp _ _) w1) as [r2 w2] eqn:E2. destruct r2 as [temporary|e2].
  2:{ intros [= <- <-]. left. intros q. rewrite <- Hsame. unfold wrap_io in E2.
      destruct (MkdirTemp _ _ w1) as [[q1|e1] w3] eqn:E3; [done|]. injection E2 as _ <-. by rewrite (MkdirTemp_err _ _ _ _ _ E3). }
  apply wrap_io_ok, MkdirTemp_ok in E2 as (Hd & Hn & Ht & name & Etmp).
  assert (temporary <> []) as Ne by (rewrite Etmp; by destruct (Parent directory)).
  unfold or_remove. destruct (write_files temporary directory p w2) as [[u3|e3] w3] eqn:E3; [done|].
  intros [= _ <-]. apply write_files_err in E3; [|done]. right. exists temporary. split_and!.
  - exists ("." +:+ Base directory +:+ ".tmp-" +:+ name). split; [by rewrite Etmp, !sapp_assoc|done].
  - intros r. rewrite <- Hsame. unfold file_at. by rewrite find_app, Hn.
  - eapply same_outside_trans; [|by apply RemoveAll_outside]. eapply same_outside_trans; [|done].
    rewrite Ht. intros q Hq. rewrite <- Hsame. by apply file_at_put.
Qed.
End Written.

(** ** Reading it back *)
Definition name_le (a b : SqlSource) : Prop := str_le (Source a) (Source b).
#[export] Instance name_le_dec : RelDecision name_le.
Proof. intros a b. unfold name_le. apply _. Defined.
#[export] Instance name_le_trans : Transitive name_le.
Proof. intros a b c. unfold name_le. apply str_le_total_order. Qed.
#[export] Instance name_le_total : Total name_le.
Proof. intros a b. unfold name_le. destruct (str_ltb (Source a) (Source b)) eqn:E; [left|right]; unfold str_le; [by apply str_ltb_asym|done]. Qed.
(** Sources by name. *)
Definition by_name (l : list SqlSource) : list SqlSource := merge_sort name_le l.
Definition source_of (f : string * string) : SqlSource := MkSource f.1 f.2.

Lemma sort_Strings_of l k : l ≡ₚ k -> StronglySorted str_le k -> sort_Strings l = k.
Proof.
  intros H HS. apply (StronglySorted_unique str_le); [apply sort_Strings_sorted|done|]. by rewrite sort_Strings_perm.
Qed.
Lemma by_name_sources l : map Source (by_name l) = sort_Strings (map Source l).
Proof.
  symmetry. apply sort_Strings_of.
  - unfold by_name. by rewrite merge_sort_Permutation.
  - unfold by_name. pose proof (StronglySorted_merge_sort name_le l) as H.
    induction H as [|x k H IH HF]; simpl; constructor; [done|]. by apply Forall_fmap.
Qed.
Lemma by_name_contents (contents : string -> string) files :
  (forall f, f ∈ files -> contents f.1 = f.2) ->
  map (fun n => MkSource n (contents n)) (sort_Strings files.*1) = by_name (map source_of files).
Proof.
  intros H. replace (files.*1) with (map Source (map source_of files)) by (rewrite map_map; by apply map_ext).
  rewrite <- by_name_sources, map_map. rewrite <- (map_id (by_name (map source_of files))) at 2.
  apply map_ext_in. intros s Hs%list_elem_of_In. unfold by_name in Hs. rewrite merge_sort_Permutation in Hs.
  apply list_elem_of_fmap in Hs as (f & -> & Hf). simpl. rewrite H by done. done.
Qed.

(** The names of the files of a valid plan. *)
Lemma sources_NoDup (name : PlannedStatement -> string) suffix l :
  (forall s, s ∈ l -> exists stem, p_Source s = stem +:+ ".sql" /\ name s = stem +:+ suffix) ->
  NoDup (p_Source <$> l) -> NoDup (name <$> l).
Proof.
  induction l as [|s l IH]; intros H; [constructor|]. rewrite !fmap_cons, !NoDup_cons. intros [Hn Hl].
  split; [|apply IH; [|done]; intros; apply H; by right]. intros (s' & E & Hs)%list_elem_of_fmap. destruct Hn.
  destruct (H s) as (a & Ea & Na); [by left|]. destruct (H s') as (b & Eb & Nb); [by right|].
  rewrite Na, Nb in E. apply sapp_cancel_r in E. apply list_elem_of_fmap. exists s'. split; [congruence|done].
Qed.

Section Loaded.
Context (p : Plan) (Hvalid : valid_plan p).
Abbreviation statements := (pl_Statements p).

Definition mode_files : list (string * string) :=
  if String.eqb (pl_Mode p) ExecutionModeNonTransactional then [(modeFile, mode_text)] else [].
Definition down_files : list (string * string) := if reversible p then map down_file statements else [].
Lemma plan_files_eq : plan_files p = map up_file statements ++ mode_files ++ down_files.
Proof. done. Qed.

Lemma statement_names s : s ∈ statements -> exists stem,
  p_Source s = stem +:+ ".sql" /\ source_name stem upSuffix (up_name s) /\ source_name stem downSuffix (down_name s).
Proof.
  intros Hs. destruct (vp_statements _ Hvalid) as [HF _]. rewrite Forall_forall in HF. by apply source_names, HF.
Qed.
Lemma up_class f : f ∈ map up_file statements -> exists stem, source_name stem upSuffix f.1.
Proof. intros (s & -> & Hs)%list_elem_of_fmap. destruct (statement_names s Hs) as (stem & _ & H & _). by exists stem. Qed.
Lemma down_class f : f ∈ down_files -> exists stem, source_name stem downSuffix f.1.
Proof.
  unfold down_files. destruct (reversible p); [|by intros ?%not_elem_of_nil].
  intros (s & -> & Hs)%list_elem_of_fmap. destruct (statement_names s Hs) as (stem & _ & _ & H). by exists stem.
Qed.
Lemma mode_class f : f ∈ mode_files -> f = (modeFile, mode_text).
Proof. unfold mode_files. destruct (String.eqb _ _); [by intros ->%list_elem_of_singleton|by intros ?%not_elem_of_nil]. Qed.

Lemma up_names_NoDup : NoDup ((map up_file statements).*1).
Proof.
  replace ((map up_file statements).*1) with (up_name <$> statements) by (rewrite <- list_fmap_compose; by apply list_fmap_ext).
  apply (sources_NoDup _ upSuffix); [|apply (vp_statements _ Hvalid)].
  intros s Hs. destruct (statement_names s Hs) as (stem & E & H & _). exists stem. split; [done|apply H].
Qed.
Lemma down_names_NoDup : NoDup (down_files.*1).
Proof.
  unfold down_files. destruct (reversible p); [|constructor].
  replace ((map down_file statements).*1) with (down_name <$> statements) by (rewrite <- list_fmap_compose; by apply list_fmap_ext).
  apply (sources_NoDup _ downSuffix); [|apply (vp_statements _ Hvalid)].
  intros s Hs. destruct (statement_names s Hs) as (stem & E & _ & H). exists stem. split; [done|apply H].
Qed.
Lemma mode_is_not_source stem suffix : ~ source_name stem suffix modeFile.
Proof. intros [_ _ H]. by rewrite String.eqb_refl in H. Qed.
Lemma plan_files_NoDup : NoDup ((plan_files p).*1).
Proof.
  rewrite plan_files_eq, !fmap_app, !NoDup_app. split_and!.
  - apply up_names_NoDup.
  - intros n (f & -> & Hf)%list_elem_of_fmap. destruct (up_class f Hf) as [stem Hn].
    intros [(g & E & ->%mode_class)%list_elem_of_fmap|(g & E & Hg)%list_elem_of_fmap]%elem_of_app.
    + rewrite E in Hn. by apply mode_is_not_source in Hn.
    + destruct (down_class g Hg) as [stem' Hn']. rewrite E in Hn. pose proof (up_not_down stem) as U.
      rewrite <- (sn_name _ _ _ Hn), (sn_name _ _ _ Hn'), HasSuffix_app in U. done.
  - unfold mode_files. destruct (String.eqb _ _); [apply NoDup_singleton|constructor].
  - intros n (f & -> & ->%mode_class)%list_elem_of_fmap (g & E & Hg)%list_elem_of_fmap.
    destruct (down_class g Hg) as [stem Hn]. rewrite <- E in Hn. by apply mode_is_not_source in Hn.
  - apply down_names_NoDup.
Qed.
Lemma plan_file_entry f : f ∈ plan_files p -> entry_ok (file_of f).
Proof.
  rewrite plan_files_eq, !elem_of_app. unfold file_of. intros [Hf|[->%mode_class|Hf]].
  - destruct (up_class f Hf) as [stem H]. by eapply entry_up.
  - apply entry_mode. vm_compute. done.
  - destruct (down_class f Hf) as [stem H]. by eapply entry_down.
Qed.
Lemma is_up_name stem suffix name : source_name stem suffix name -> suffix = upSuffix \/ suffix = downSuffix ->
  is_up name = String.eqb suffix upSuffix /\ is_down name = String.eqb suffix downSuffix.
Proof.
  intros [-> _ _] [->| ->]; unfold is_up, is_down; by rewrite HasSuffix_app, ?up_not_down, ?down_not_up.
Qed.
Lemma filter_every {A} (b : A -> bool) l : (forall x, x ∈ l -> b x = true) -> List.filter b l = l.
Proof. induction l as [|x l IH]; intros H; simpl; [done|]. rewrite H by (by left). f_equal. apply IH. intros. apply H. by right. Qed.
Lemma filter_nothing {A} (b : A -> bool) l : (forall x, x ∈ l -> b x = false) -> List.filter b l = [].
Proof. induction l as [|x l IH]; intros H; simpl; [done|]. rewrite H by (by left). apply IH. intros. apply H. by right. Qed.
Lemma plan_files_filtered :
  List.filter is_up ((plan_files p).*1) = (map up_file statements).*1 /\
  List.filter is_down ((plan_files p).*1) = down_files.*1.
Proof.
  rewrite plan_files_eq, !fmap_app, !List.filter_app.
  rewrite (filter_every is_up (map up_file _).*1), (filter_nothing is_up mode_files.*1), (filter_nothing is_up down_files.*1), (filter_nothing is_down (map up_file _).*1),
    (filter_nothing is_down mode_files.*1), (filter_every is_down down_files.*1).
  { by rewrite !app_nil_r. }
  - intros n (f & -> & Hf)%list_elem_of_fmap. destruct (down_class f Hf) as [stem H]. apply is_up_name in H as [_ ->]; [done|by right].
  - intros n (f & -> & ->%mode_class)%list_elem_of_fmap. done.
  - intros n (f & -> & Hf)%list_elem_of_fmap. destruct (up_class f Hf) as [stem H]. apply is_up_name in H as [_ ->]; [done|by left].
  - intros n (f & -> & Hf)%list_elem_of_fmap. destruct (down_class f Hf) as [stem H]. apply is_up_name in H as [-> _]; [done|by right].
  - intros n (f & -> & ->%mode_class)%list_elem_of_fmap. done.
  - intros n (f & -> & Hf)%list_elem_of_fmap. destruct (up_class f Hf) as [stem H]. apply is_up_name in H as [-> _]; [done|by left].
Qed.
Lemma plan_mode : (if existsb (String.eqb modeFile) ((plan_files p).*1) then ExecutionModeNonTransactional else ExecutionModeAtomic) = pl_Mode p.
Proof.
  assert (existsb (String.eqb modeFile) ((plan_files p).*1) = String.eqb (pl_Mode p) ExecutionModeNonTransactional) as ->.
  2:{ destruct (vp_mode _ Hvalid) as [->| ->]; done. }
  rewrite plan_files_eq, !fmap_app, !existsb_app.
  assert (forall l : list (string * string), (forall f, f ∈ l -> exists stem suffix, source_name stem suffix f.1) ->
    existsb (String.eqb modeFile) (l.*1) = false) as HN.
  { induction l as [|f l IH]; intros H; [done|]. rewrite fmap_cons. cbn [existsb]. rewrite IH by (intros; apply H; by right).
    destruct (H f) as (stem & suffix & Hn); [by left|]. rewrite String.eqb_sym, (sn_not_mode _ _ _ Hn). done. }
  rewrite (HN (map up_file _)), (HN down_files).
  - unfold mode_files. by destruct (String.eqb (pl_Mode p) _).
  - intros f Hf. destruct (down_class f Hf) as [stem H]. eauto.
  - intros f Hf. destruct (up_class f Hf) as [stem H]. eauto.
Qed.

(** What the loader makes of the plan. *)
Definition loaded_migration (i : string) : Migration :=
  MkMigration i (pl_Mode p) (by_name (map source_of (map up_file statements)))
    (if reversible p then rev (by_name (map source_of (map down_file statements))) else []).

Lemma by_name_perm l : by_name l ≡ₚ l.
Proof. apply merge_sort_Permutation. Qed.
Lemma statements_valid m (files : list (string * string)) l : l ≡ₚ map source_of files ->
  Forall (fun f => f.1 <> "" /\ ValidString f.1 = true /\ Contains f.1 NUL = false /\ TrimSpace f.2 <> "") files ->
  NoDup (files.*1) -> validateStatements m l = Ok tt.
Proof.
  intros Hl HF HN. unfold validateStatements. apply do_ok. exists (list_to_set (Source <$> l) ∪ ∅). split; [|done].
  apply (foldi_distinct Source (fun s => Source s <> "" /\ ValidString (Source s) = true /\ Contains (Source s) NUL = false /\ TrimSpace (SQL s) <> "")).
  - intros i s seen st. destruct (String.eqb_spec (Source s) ""); simpl; [split; [intros ?; discriminate|naive_solver]|].
    destruct (ValidString (Source s)); simpl; [|split; [intros ?; discriminate|naive_solver]].
    destruct (Contains (Source s) NUL); [split; [intros ?; discriminate|naive_solver]|].
    case_bool_decide; [split; [intros ?; discriminate|naive_solver]|].
    destruct (String.eqb_spec (TrimSpace (SQL s)) ""); [split; [intros ?; discriminate|naive_solver]|]. naive_solver.
  - split; [|done]. rewrite Hl. split_and!.
    + rewrite Forall_map. done.
    + replace (Source <$> map source_of files) with (files.*1) by (rewrite <- list_fmap_compose; by apply list_fmap_ext). done.
    + apply Forall_forall. set_solver.
Qed.
Lemma loaded_valid i : Executable p = true -> plain_names p -> (forall n, n ∈ (plan_files p).*1 -> ValidString n = true) ->
  validateMigrationID i = Ok tt -> validate (loaded_migration i) = Ok tt.
Proof.
  intros Hx Hplain Hutf Hi. unfold validate, loaded_migration. cbn [Mode ID Statements Down]. rewrite Hi.
  assert (negb (String.eqb (pl_Mode p) ExecutionModeAtomic) && negb (String.eqb (pl_Mode p) ExecutionModeNonTransactional) = false) as ->
    by (by destruct (vp_mode _ Hvalid) as [->| ->]).
  destruct (Nat.eqb_spec (length (by_name (map source_of (map up_file statements)))) 0) as [L|L].
  { rewrite by_name_perm, !length_map in L. unfold Executable in Hx. rewrite L in Hx. by destruct (length (Decisions p) =? 0). }
  assert (forall f, f ∈ map up_file statements ++ down_files -> f.1 <> "" /\ ValidString f.1 = true /\ Contains f.1 NUL = false) as Hnames.
  { intros f Hf. assert (f ∈ plan_files p) as Hp by (rewrite plan_files_eq, !elem_of_app in *; tauto).
    assert (exists stem suffix, source_name stem suffix f.1) as (stem & suffix & Hn).
    { apply elem_of_app in Hf as [Hf|Hf]; [destruct (up_class f Hf) as [stem H]|destruct (down_class f Hf) as [stem H]]; eauto. }
    assert (f.1 ∈ (plan_files p).*1) as Hin by (apply list_elem_of_fmap; by exists f). split_and!.
    - intros E. clear Hn.
      apply elem_of_app in Hf as [Hf|Hf]; [destruct (up_class f Hf) as [stem' [H' _ _]]|destruct (down_class f Hf) as [stem' [H' _ _]]];
        rewrite E in H'; by destruct stem'.
    - by apply Hutf.
    - destruct (Hplain _ Hin) as [E|]; [|done]. rewrite E in Hn. by apply mode_is_not_source in Hn. }
  assert (check_ok : forall a b : result unit, a = Ok tt -> b = Ok tt -> (check a; b) = Ok tt) by (by intros a b -> ->).
  apply check_ok.
  - eapply (statements_valid _ (map up_file statements)); [|apply Forall_forall; intros f Hf|apply up_names_NoDup].
    + by rewrite by_name_perm.
    + destruct (Hnames f) as (H1 & H2 & H3); [apply elem_of_app; by left|]. split_and!; try done.
      apply list_elem_of_fmap in Hf as (s & -> & Hs). destruct (vp_statements _ Hvalid) as [HF _].
      rewrite Forall_forall in HF. apply HF in Hs. apply Hs.
  - eapply (statements_valid _ down_files); [|apply Forall_forall; intros f Hf|apply down_names_NoDup].
    + unfold down_files. destruct (reversible p); [|done]. by rewrite <- Permutation_rev, by_name_perm.
    + destruct (Hnames f) as (H1 & H2 & H3); [apply elem_of_app; by right|]. split_and!; try done.
      unfold down_files in Hf. destruct (reversible p) eqn:R; [|by apply not_elem_of_nil in Hf].
      apply list_elem_of_fmap in Hf as (s & -> & Hs). pose proof (vp_reverse _ Hvalid R) as HF.
      rewrite Forall_forall in HF. by apply HF in Hs as [].
Qed.
End Loaded.

(** *** Numbered sources *)
Lemma StronglySorted_lookup_intro {A} (R : relation A) l :
  (forall i j x y, i < j -> l !! i = Some x -> l !! j = Some y -> R x y) -> StronglySorted R l.
Proof.
  induction l as [|x l IH]; intros H; constructor.
  - apply IH. intros i j y z Hij Hi Hj. apply (H (S i) (S j)); [lia|done..].
  - apply Forall_lookup. intros j y Hj. by apply (H 0 (S j)); [lia| |].
Qed.
Definition name_lt (a b : SqlSource) : Prop := str_ltb (Source a) (Source b) = true.
Lemma by_name_sorted l : StronglySorted name_lt l -> by_name l = l.
Proof.
  intros H. apply (StronglySorted_unique_strong name_le).
  - intros a b Ha Hb. unfold name_le, str_le. intros L1 L2.
    unfold by_name in Ha. rewrite merge_sort_Permutation in Ha.
    apply list_elem_of_lookup in Ha as [i Hi], Hb as [j Hj]. clear - H Hi Hj L1 L2. revert i j Hi Hj.
    induction H as [|x l H IH HF]; intros i j Hi Hj; [done|]. rewrite Forall_lookup in HF.
    destruct i as [|i], j as [|j]; simplify_eq/=; [done| | |by eapply IH].
    + specialize (HF j b Hj). unfold name_lt in HF. congruence.
    + specialize (HF i a Hi). unfold name_lt in HF. congruence.
  - apply StronglySorted_merge_sort; apply _.
  - induction H as [|x l H IH HF]; constructor; [done|]. eapply Forall_impl; [done|]. intros y Hy. by apply str_ltb_asym.
  - apply merge_sort_Permutation.
Qed.
Lemma numbered_sorted (file : PlannedStatement -> string * string) suffix l :
  (forall s stem, p_Source s = stem +:+ ".sql" -> (file s).1 = stem +:+ suffix) ->
  Forall (fun s => valid_source (p_Source s) = true) l ->
  StronglySorted name_lt (map source_of (map file (NumberSources l))).
Proof.
  intros Hfile HF. apply StronglySorted_lookup_intro. intros i j x y Hij Hi Hj.
  assert (forall i x, map source_of (map file (NumberSources l)) !! i = Some x ->
    i < length l /\ exists rest, Source x = number_prefix (number_width (length l)) i +:+ rest) as H.
  { clear - Hfile HF. intros i x Hi. rewrite map_map in Hi. apply list_lookup_fmap_Some in Hi as (s & -> & Hi).
    apply NumberSources_lookup in Hi as (s0 & H0 & E). split; [by eapply lookup_lt_Some|].
    rewrite Forall_lookup in HF. apply HF, valid_source_stem in H0 as (stem & E0 & _).
    exists (stem +:+ suffix). simpl. rewrite <- sapp_assoc. apply Hfile. by rewrite E, E0, sapp_assoc. }
  destruct (H _ _ Hi) as (Li & ri & Ei), (H _ _ Hj) as (Lj & rj & Ej). unfold name_lt. rewrite Ei, Ej.
  apply number_prefix_lt; [done|]. pose proof (number_width_bound (length l)). lia.
Qed.
Lemma loaded_numbered p i l : Forall (fun s => valid_source (p_Source s) = true) l -> pl_Statements p = NumberSources l ->
  Statements (loaded_migration p i) = map source_of (map up_file (pl_Statements p)) /\
  Down (loaded_migration p i) = if reversible p then rev (map source_of (map down_file (pl_Statements p))) else [].
Proof.
  intros HF E. unfold loaded_migration. simpl. rewrite E, !by_name_sorted; [done| |].
  - apply (numbered_sorted _ downSuffix); [|done]. intros s stem Hs. by apply down_name_stem.
  - apply (numbered_sorted _ upSuffix); [|done]. intros s stem Hs. by apply up_name_stem.
Qed.

Section Roundtrip.
Context {os : OS}.

Lemma sort_Strings_Permutation l k : l ≡ₚ k -> sort_Strings l = sort_Strings k.
Proof. intros H. apply sort_Strings_of; [by rewrite sort_Strings_perm|apply sort_Strings_sorted]. Qed.
Lemma filter_Permutation_list {A} (b : A -> bool) l k : l ≡ₚ k -> List.filter b l ≡ₚ List.filter b k.
Proof.
  induction 1 as [|x l k H IH|x y l|]; simpl; [done| | |by etrans]; repeat case_match; try done; by constructor.
Qed.
Lemma existsb_Permutation {A} (b : A -> bool) l k : l ≡ₚ k -> existsb b l = existsb b k.
Proof. induction 1; simpl; try congruence. by destruct (b x), (b y). Qed.

Lemma written_contents p directory t f : valid_plan p -> directory <> [] -> is_dir (find t (Parent directory)) = true ->
  f ∈ plan_files p ->
  find (put directory (Some (Dir (write_all (plan_files p) []))) t) (directory ++ [f.1]) = Some (File f.2).
Proof.
  intros Hv Ne Hd Hf. rewrite find_app, find_put_same by done. simpl.
  pose proof (write_all_perm (plan_files p) [] (plan_files_NoDup p Hv) ltac:(done)) as HP. rewrite app_nil_r in HP.
  assert (child f.1 (write_all (plan_files p) []) = Some (File f.2)) as ->; [|done].
  apply child_elem.
  - rewrite HP, <- list_fmap_compose. apply (plan_files_NoDup p Hv).
  - rewrite HP. apply list_elem_of_fmap. by exists f.
Qed.
Lemma stems_found (l : list (string * string)) (downs : list (string * string)) i m :
  (forall f, f ∈ downs -> exists g, g ∈ l /\ TrimSuffix g.1 upSuffix = TrimSuffix f.1 downSuffix) ->
  stems m = list_to_set (map (fun n => TrimSuffix n upSuffix) l.*1) -> downFiles m ≡ₚ downs.*1 ->
  check_stems i m = Ok tt.
Proof.
  intros H HS HD. unfold check_stems. apply (checki_Forall _ (fun n => TrimSuffix n downSuffix ∈ stems m)).
  - intros _ n. case_bool_decide; naive_solver.
  - apply Forall_forall. intros n Hn. unfold sort_Reverse in Hn. rewrite <- Permutation_rev, sort_Strings_perm, HD in Hn.
    apply list_elem_of_fmap in Hn as (f & -> & Hf). destruct (H f Hf) as (g & Hg & <-). rewrite HS.
    apply elem_of_list_to_set, list_elem_of_fmap. exists g.1. split; [done|]. apply list_elem_of_fmap. by exists g.
Qed.

Lemma loadMigration_run p directory i w t : valid_plan p -> Executable p = true -> plain_names p ->
  (forall n, n ∈ (plan_files p).*1 -> ValidString n = true) -> validateMigrationID i = Ok tt ->
  directory <> [] -> is_dir (find t (Parent directory)) = true ->
  tree w = put directory (Some (Dir (write_all (plan_files p) []))) t -> readable (calls w) ->
  fst (loadMigration directory i w) = Ok (loaded_migration p i).
Proof.
  intros Hv Hx Hplain Hutf Hi Ne Hd Ht Hr. set (l := write_all (plan_files p) []) in *.
  pose proof (write_all_perm (plan_files p) [] (plan_files_NoDup p Hv) ltac:(done)) as HP. rewrite app_nil_r in HP. fold l in HP.
  assert (map fst l ≡ₚ (plan_files p).*1) as Hnames.
  { change (map fst l) with (fst <$> l). rewrite HP, <- list_fmap_compose. done. }
  unfold loadMigration, bind at 1, wrap_io, ReadDir, call. rewrite Hr by done. rewrite Ht at 1. rewrite find_put_same by done.
  cbn [wrap_err]. set (w1 := MkWorld _ _). assert (tree w1 = tree w) as Hw1 by done.
  destruct (list_entries_run directory i l empty_listing w1) as (k & Hk & Hle).
  { intros n Hn. apply Hr. simpl in Hn. lia. }
  { rewrite HP. apply Forall_forall. intros e (f & -> & Hf)%list_elem_of_fmap. by apply (plan_file_entry p Hv). }
  { intros n x Hin. rewrite HP in Hin. apply list_elem_of_fmap in Hin as (f & [= -> ->] & Hf). rewrite Hw1, Ht. by apply written_contents. }
  unfold bind at 1. rewrite Hk. clear Hk. destruct (plan_files_filtered p Hv) as [Hup Hdown].
  set (m := listed_as empty_listing (map fst l)).
  assert (upFiles m ≡ₚ (map up_file (pl_Statements p)).*1) as HU by (rewrite <- Hup; simpl; by apply filter_Permutation_list).
  assert (downFiles m ≡ₚ (down_files p).*1) as HD by (rewrite <- Hdown; simpl; by apply filter_Permutation_list).
  assert (l_mode m = pl_Mode p) as HM by (rewrite <- (plan_mode p Hv); simpl; by rewrite (existsb_Permutation _ _ _ Hnames)).
  assert (stems m = list_to_set (map (fun n => TrimSuffix n upSuffix) (List.filter is_up (map fst l)))) as HS by (simpl; set_solver).
  clearbody m. rewrite (sort_Strings_Permutation _ _ HU).
  assert (sort_Reverse (downFiles m) = rev (sort_Strings (down_files p).*1)) as ->
    by (unfold sort_Reverse; by rewrite (sort_Strings_Permutation _ _ HD)).
  set (w2 := MkWorld (tree w1) k). set (contents := fun n => default "" (file_at (tree w) (directory ++ [n]))).
  assert (forall f, f ∈ plan_files p -> holds directory (tree w) f.1 f.2 /\ contents f.1 = f.2) as Hc.
  { intros f Hf. assert (holds directory (tree w) f.1 f.2) as H by (unfold holds; rewrite Ht; by apply written_contents).
    split; [done|]. unfold contents, file_at. unfold holds in H. by rewrite H. }
  assert (forall names files w', names ≡ₚ files.*1 -> (forall f, f ∈ files -> f ∈ plan_files p) -> tree w' = tree w -> calls w <= calls w' ->
    exists k', readStatements directory i names w' = (Ok (map (fun n => MkSource n (contents n)) names), MkWorld (tree w) k') /\ calls w <= k')
    as HR.
  { intros names files w' Hp Hf Hw' Hcalls. destruct (readStatements_run directory i contents names w') as (k' & Hk' & Hle').
    - intros n Hn. apply Hr. lia.
    - rewrite Hp. apply Forall_forall. intros n (f & -> & Hin)%list_elem_of_fmap.
      destruct (Hc f) as [H1 H2]; [by apply Hf|]. by rewrite Hw', H2.
    - exists k'. rewrite Hk', Hw'. split; [done|lia]. }
  assert (Hups : forall f, f ∈ map up_file (pl_Statements p) -> f ∈ plan_files p) by (intros f Hf; rewrite plan_files_eq, elem_of_app; by left).
  assert (Hdowns : forall f, f ∈ down_files p -> f ∈ plan_files p) by (intros f Hf; rewrite plan_files_eq, !elem_of_app; right; by right).
  assert (calls w <= calls w2) as Hw2 by (simpl in *; lia).
  pose proof (loaded_valid p Hv i Hx Hplain Hutf Hi) as HV. unfold loaded_migration in HV |- *.
  assert (length (pl_Statements p) <> 0) as Hlen by (unfold Executable in Hx; apply andb_true_iff in Hx as [_ Hx%Nat.ltb_lt]; lia).
  assert (Hlen' : forall g : PlannedStatement -> string * string, length (sort_Strings (map g (pl_Statements p)).*1) <> 0)
    by (intros g; by rewrite sort_Strings_perm, length_fmap, length_map).
  cbv zeta. rewrite (proj2 (Nat.eqb_neq _ _) (Hlen' up_file)). rewrite length_rev.
  destruct (HR _ _ w2 (sort_Strings_perm _) Hups eq_refl Hw2) as (k3 & H3 & Hle3).
  rewrite by_name_contents in H3 by (intros f Hf; by apply Hc, Hups).
  unfold down_files in *. rewrite <- HM in *.
  destruct (reversible p) eqn:R.
  - rewrite (proj2 (Nat.eqb_neq _ _) (Hlen' down_file)). unfold bind at 1, ret at 1.
    rewrite (stems_found (map up_file (pl_Statements p)) (map down_file (pl_Statements p)));
      [|intros f Hf| |done].
    + destruct (HR (rev (sort_Strings (map down_file (pl_Statements p)).*1)) _ (MkWorld (tree w) k3)
        ltac:(by rewrite <- Permutation_rev, sort_Strings_perm) Hdowns eq_refl Hle3) as (k4 & H4 & _).
      rewrite map_rev, by_name_contents in H4 by (intros f Hf; by apply Hc, Hdowns).
      unfold bind at 1. rewrite H3. unfold bind at 1. rewrite H4. unfold validated_migration, ret. cbn [fst]. by rewrite HV.
    + apply list_elem_of_fmap in Hf as (s & -> & Hin). exists (up_file s). split; [apply list_elem_of_fmap; by exists s|].
      destruct (statement_names p Hv s Hin) as (stem & _ & [E1 _ _] & [E2 _ _]). simpl. by rewrite E1, E2, !TrimSuffix_app.
    + rewrite HS. apply list_to_set_perm_L, Permutation_map. rewrite <- Hup. by apply filter_Permutation_list.
  - simpl. unfold bind at 1. rewrite H3. unfold validated_migration, ret. simpl. by rewrite HV.
Qed.

(** C18 A plan written out is the migration read back.  When [WriteMigration]
    succeeds, nothing outside the new directory has changed, and the loader,
    given a valid migration ID and when the plan's file names are UTF-8, finds
    in it the migration whose forward statements are the plan's in name
    order, whose reverse statements are the plan's in descending name order
    (none, when the plan gives a reason it is irreversible), and whose mode is
    the plan's; for a plan whose sources were numbered by [NumberSources],
    name order is plan order.  Whatever call of the operating system fails,
    [WriteMigration] then leaves every file as it was, but for files below a
    hidden name next to the directory, where there was none. *)
Theorem written_migration_loads directory p w outcome w' :
  WriteMigration directory p w = (outcome, w') ->
  match outcome with
  | Err _ => only_temporary directory (tree w) (tree w')
  | Ok _ =>
      (forall q, ~ (exists r, q = directory ++ r) -> file_at (tree w') q = file_at (tree w) q) /\
      (forall i, validateMigrationID i = Ok tt -> (forall n, n ∈ (plan_files p).*1 -> ValidString n = true) ->
        readable (calls w') -> fst (loadMigration directory i w') = Ok (loaded_migration p i)) /\
      (forall i l, Forall (fun s => valid_source (p_Source s) = true) l -> pl_Statements p = NumberSources l ->
        Statements (loaded_migration p i) = map source_of (map up_file (pl_Statements p)) /\
        Down (loaded_migration p i) = if reversible p then rev (map source_of (map down_file (pl_Statements p))) else [])
  end.
Proof.
  intros H. destruct outcome as [u|e]; [|by eapply WriteMigration_err].
  apply WriteMigration_ok in H as (Ne & Hv & Hx & Hn & t & Hsame & Hd & Ht). split_and!.
  - intros q Hq. rewrite Ht, <- Hsame. by apply file_at_put.
  - intros i Hi Hutf Hr. apply Plan_Validate_ok in Hv. by eapply loadMigration_run.
  - intros i l. apply loaded_numbered.
Qed.
End Roundtrip.

(** *** On a file system with nothing in it *)
Definition quiet_os : OS := {| refused := fun _ => None; torn := fun _ => ""; nextRandom := fun _ _ => "1" |}.
Definition sample_statements : list PlannedStatement :=
  [MkPlanned "create_users.sql" "CREATE TABLE users (id int)" "DROP TABLE users" "create users";
   MkPlanned "add_index.sql" "CREATE INDEX i ON users (id)" "DROP INDEX i" "create index"].
Definition sample_plan : Plan := MkPlan "postgresql" [] [] "" (NumberSources sample_statements) "" None.
Lemma written_migration_loads_witness :
  let w' := snd (WriteMigration (os := quiet_os) ["db"; "001"] sample_plan (MkWorld (Dir []) 0)) in
  fst (loadMigration (os := quiet_os) ["db"; "001"] "001" w') =
    Ok (MkMigration "001" ""
         [MkSource "001_create_users.up.sql" "CREATE TABLE users (id int)"; MkSource "002_add_index.up.sql" "CREATE INDEX i ON users (id)"]
         [MkSource "002_add_index.down.sql" "DROP INDEX i"; MkSource "001_create_users.down.sql" "DROP TABLE users"]).
Proof.
  destruct (WriteMigration (os := quiet_os) ["db"; "001"] sample_plan (MkWorld (Dir []) 0)) as [r w'] eqn:E.
  assert (r = Ok tt) as ->.
  { apply (f_equal fst) in E. cbn [fst] in E. rewrite <- E. vm_compute. reflexivity. }
  cbv zeta. cbn [snd]. destruct (written_migration_loads (os := quiet_os) _ _ _ _ _ E) as (_ & H & _).
  rewrite (H "001"); [vm_compute; reflexivity|vm_compute; reflexivity| |intros n _; reflexivity].
  assert (forallb ValidString (plan_files sample_plan).*1 = true) as Hv by (vm_compute; reflexivity).
  rewrite forallb_forall in Hv. intros n Hn. apply Hv. by apply list_elem_of_In.
Defined.
