(* ===== verification/DiffSource.v ===== *)
(** * DiffSource: [migrate/diff/source.go]

    The desired schema as SQL sources: rendered from a table, or read from a
    directory tree. *)

From S2P Require Import Prelude GoText Schema TableValidate Dialect Query Render RenderSchema Files.
Open Scope string_scope.
Open Scope list_scope.
Open Scope nat_scope.
Open Scope io_scope.

Record SourceFile := MkFile { Path : string; src_SQL : string }.
#[export] Instance SourceFile_eq_dec : EqDecision SourceFile.
Proof. solve_decision. Defined.

Definition maxSourceFileBytes : Z := Z.shiftl 8 20.
Definition maxSourceBytes : Z := Z.shiftl 64 20.
Definition maxSourceCount : nat := 1024.

Section Sources.
Context {unicode : Unicode}.
Definition statement_text (s : Statement) : string := sql_text s +:+ ";" +:+ str1 newline.
Definition SourcesFromTable (d : Dialect) (t : TableDef) : result (list SourceFile) :=
  do created <- wrap_err (fun e => Errorf "render inspected table %q: %w" [AStr (QualifiedName t); AErr e]) (CreateTable d t);
  do indexes <- wrap_err (fun e => Errorf "render indexes for inspected table %q: %w" [AStr (QualifiedName t); AErr e]) (CreateIndexes d t);
  Ok (MkFile ("live/" +:+ Name t +:+ ".sql") (statement_text created)
      :: imap (fun index s => MkFile ("live/index_" +:+ NatItoa (index + 1) +:+ ".sql") (statement_text s)) indexes).
End Sources.

Section Load.
Context {os : OS}.

(** [io.LimitReader] of [limit + 1] bytes. *)
Definition limited (limit : Z) (data : string) : string :=
  if (Z.of_nat (String.length data) <=? limit)%Z then data else stake (Z.to_nat (limit + 1)) data.
Definition readSource (p : path) (remainingBytes : Z) : io string :=
  let readLimit := if (remainingBytes <? maxSourceFileBytes)%Z then remainingBytes else maxSourceFileBytes in
  let! data := ReadFile p in
  let data := limited readLimit data in
  if (maxSourceFileBytes <? Z.of_nat (String.length data))%Z
  then ret (Err (Errorf "source exceeds per-file limit of %d bytes" [AInt maxSourceFileBytes]))
  else ret (Ok data).

(** The sources so far and their bytes. *)
Definition walked : Type := list SourceFile * Z.
Definition visit_file (directory rel : path) (name : string) (st : walked) : io walked :=
  let p := directory ++ rel in
  if negb (String.eqb (Ext name) ".sql")
  then ret (Err (Errorf "schema directory %q contains non-SQL source %q" [AStr (show directory); AStr (show p)]))
  else if maxSourceCount <=? length (fst st)
  then ret (Err (Errorf "schema directory %q exceeds source count limit of %d" [AStr (show directory); ANat maxSourceCount]))
  else
    let! data := wrap_io (fun e => Errorf "read schema source %q: %w" [AStr (show p); AErr e])
                   (readSource p (maxSourceBytes - snd st)) in
    if (maxSourceBytes <? snd st + Z.of_nat (String.length data))%Z
    then ret (Err (Errorf "schema directory %q exceeds aggregate byte limit of %d bytes" [AStr (show directory); AInt maxSourceBytes]))
    else ret (Ok (fst st ++ [MkFile (Join rel "/") data], (snd st + Z.of_nat (String.length data))%Z)).
(** [filepath.WalkDir] below a directory: its entries in name order, the
    hidden ones left out.  Reading a directory is one call. *)
Definition read_entries : io unit := call unchanged (fun _ t => (Ok tt, t)).
Fixpoint walk (directory rel : path) (n : node) (st : walked) : io walked :=
  match n with
  | File _ => ret (Ok st)
  | Dir l =>
      read_entries ;;
      (fix entries (l : list (string * node)) (st : walked) : io walked :=
         match l with
         | [] => ret (Ok st)
         | (name, x) :: l' =>
             let! st' :=
               (if HasPrefix name "." then ret (Ok st)
                else match x with
                     | Dir _ => walk directory (rel ++ [name]) x st
                     | File _ => visit_file directory (rel ++ [name]) name st
                     end) in
             entries l' st'
         end) l st
  end.

Definition path_le (a b : SourceFile) : Prop := str_le (Path a) (Path b).
#[export] Instance path_le_dec : RelDecision path_le.
Proof. intros a b. unfold path_le. apply _. Defined.

(** The tree is that of the call; reading it does not change it. *)
Definition walk_root (directory : path) : io walked := fun w =>
  match find (tree w) directory with
  | None => (Err (PathError "lstat" directory "no such file or directory"), w)
  | Some n => walk directory [] n ([], 0%Z) w
  end.
Definition LoadSources (directory : path) : io (list SourceFile) :=
  if length directory =? 0 then ret (Err (errors_New "migrate diff: schema directory must not be empty"))
  else
    let! st := wrap_io (fun e => Errorf "migrate diff: load schema sources: %w" [AErr e]) (walk_root directory) in
    if length (fst st) =? 0
    then ret (Err (Errorf "migrate diff: schema directory %q has no SQL sources" [AStr (show directory)]))
    else ret (Ok (merge_sort path_le (fst st))).

(** ** The limits hold of whatever is loaded *)
Definition bytes_of (l : list SourceFile) : Z := fold_right (fun s n => (Z.of_nat (String.length (src_SQL s)) + n)%Z) 0%Z l.
Definition within (st : walked) : Prop :=
  length (fst st) <= maxSourceCount /\ (bytes_of (fst st) = snd st)%Z /\ (snd st <= maxSourceBytes)%Z /\
  Forall (fun s => (Z.of_nat (String.length (src_SQL s)) <= maxSourceFileBytes)%Z) (fst st).
Lemma bytes_of_app a b : bytes_of (a ++ b) = (bytes_of a + bytes_of b)%Z.
Proof. induction a as [|s a IH]; [done|]. change (bytes_of ((s :: a) ++ b)) with (Z.of_nat (String.length (src_SQL s)) + bytes_of (a ++ b))%Z.
  rewrite IH. simpl. lia. Qed.
Lemma visit_within directory rel name st w st' w' : within st ->
  visit_file directory rel name st w = (Ok st', w') -> within st'.
Proof.
  intros (H1 & H2 & H3 & H4). unfold visit_file. destruct (negb _); [done|].
  destruct (Nat.leb_spec maxSourceCount (length (fst st))) as [|L]; [done|]. rewrite io_bind_ok.
  intros (data & w1 & Hd%wrap_io_ok & H). destruct (Z.ltb_spec maxSourceBytes (snd st + Z.of_nat (String.length data))) as [|L2]; [done|].
  injection H as <- _. unfold readSource in Hd. rewrite io_bind_ok in Hd. destruct Hd as (data0 & w0 & _ & Hd). cbv zeta in Hd.
  destruct (Z.ltb_spec maxSourceFileBytes (Z.of_nat (String.length (limited (if (maxSourceBytes - snd st <? maxSourceFileBytes)%Z then (maxSourceBytes - snd st)%Z else maxSourceFileBytes) data0)))) as [|L3]; [done|].
  injection Hd as <- _. unfold within. cbn [fst snd]. rewrite length_app, bytes_of_app. simpl. split_and!; [lia..|].
  apply Forall_app. split; [done|]. by constructor.
Qed.
Lemma walk_within directory : forall n rel st w st' w', within st -> walk directory rel n st w = (Ok st', w') -> within st'.
Proof.
  intros n. induction n as [data|l IH] using node_entries_ind; intros rel st w st' w' Hst; cbn [walk]; [by intros [= <- <-]|].
  rewrite io_bind_ok. intros (u & w1 & _ & H). clear u w. revert st w1 Hst H.
  induction IH as [|[name x] l Hx HF IHl]; intros st w1 Hst; [by intros [= <- _]|].
  rewrite io_bind_ok. intros (st1 & w2 & H1 & H2). refine (IHl st1 w2 _ H2). clear IHl H2.
  destruct (HasPrefix name "."); [by injection H1 as <- _|].
  destruct x as [data|l']; [by eapply visit_within|by eapply Hx].
Qed.
Lemma LoadSources_within directory w l w' : LoadSources directory w = (Ok l, w') ->
  0 < length l <= maxSourceCount /\ (bytes_of l <= maxSourceBytes)%Z /\
  Forall (fun s => (Z.of_nat (String.length (src_SQL s)) <= maxSourceFileBytes)%Z) l.
Proof.
  unfold LoadSources. destruct (length directory =? 0); [done|]. rewrite io_bind_ok. intros (st & w1 & H1%wrap_io_ok & H2).
  unfold walk_root in H1. destruct (find (tree w) directory) as [n|]; [|done].
  assert (within st) as (Hl & Hb & Hm & HF).
  { eapply walk_within; [|done]. unfold within. simpl. split_and!; [lia|done|done|constructor]. }
  destruct (Nat.eqb_spec (length (fst st)) 0); [done|]. injection H2 as <- _.
  assert (forall a b, a ≡ₚ b -> bytes_of a = bytes_of b) as HB by (induction 1; simpl; lia).
  rewrite (HB _ _ (merge_sort_Permutation path_le (fst st))), merge_sort_Permutation. split_and!; [lia..|]. done.
Qed.
End Load.
