(* ===== verification/GoSort.v ===== *)
(** * GoSort: the standard library's sorts and the order of map iteration

    [sort.SliceStable] is a function: the stable insertion sort.  [sort.Slice]
    promises a sorted permutation and nothing about equal elements, and a
    range over a map visits every entry once in no particular order: both are
    classes that hold those promises, with an instance for evaluation. *)

From S2P Require Import Prelude GoText.
Open Scope list_scope.
Open Scope nat_scope.

(** [less] as [sort.Interface] asks for it: a strict weak order. *)
Record strict_weak {A} (less : A -> A -> bool) : Prop := {
  less_irrefl : forall x, less x x = false;
  less_trans : forall x y z, less x y = true -> less y z = true -> less x z = true;
  less_total : forall x y z, less x y = true -> less x z = true \/ less z y = true }.
Definition not_after {A} (less : A -> A -> bool) (x y : A) : Prop := less y x = false.

Section Stable.
Context {A : Type} (less : A -> A -> bool).
Fixpoint insert_stable (x : A) (l : list A) : list A :=
  match l with
  | [] => [x]
  | y :: l' => if less y x then y :: insert_stable x l' else x :: l
  end.
Definition sort_SliceStable (l : list A) : list A := fold_right insert_stable [] l.

Lemma insert_stable_perm x l : insert_stable x l ≡ₚ x :: l.
Proof.
  induction l as [|y l IH]; simpl; [done|]. destruct (less y x); [|done]. rewrite IH. constructor.
Qed.
Lemma sort_SliceStable_perm l : sort_SliceStable l ≡ₚ l.
Proof. induction l as [|x l IH]; simpl; [done|]. by rewrite insert_stable_perm, IH. Qed.
Lemma sort_SliceStable_elem x l : x ∈ sort_SliceStable l <-> x ∈ l.
Proof. by rewrite sort_SliceStable_perm. Qed.

Context (H : strict_weak less).
Lemma not_after_trans x y z : not_after less x y -> not_after less y z -> not_after less x z.
Proof.
  unfold not_after. intros H1 H2. destruct (less z x) eqn:E; [|done].
  destruct (less_total _ H _ _ y E); congruence.
Qed.
Lemma insert_stable_sorted x l :
  StronglySorted (not_after less) l -> StronglySorted (not_after less) (insert_stable x l).
Proof.
  induction 1 as [|y l Hs IH Hy]; simpl; [repeat constructor|].
  destruct (less y x) eqn:E.
  - constructor; [done|]. apply Forall_forall. intros z Hz. rewrite insert_stable_perm in Hz.
    rewrite Forall_forall in Hy. apply elem_of_cons in Hz as [->|Hz]; [|auto].
    unfold not_after. destruct (less x y) eqn:E2; [|done].
    pose proof (less_trans _ H _ _ _ E E2) as E3. by rewrite (less_irrefl _ H) in E3.
  - constructor; [by constructor|]. constructor; [done|].
    eapply Forall_impl; [exact Hy|]. intros z Hz. by apply (not_after_trans x y).
Qed.
Lemma sort_SliceStable_sorted l : StronglySorted (not_after less) (sort_SliceStable l).
Proof. induction l as [|x l IH]; simpl; [constructor|by apply insert_stable_sorted]. Qed.
End Stable.

(** ** [sort.Slice] *)
Class SliceSort := {
  sort_Slice : forall {A}, (A -> A -> bool) -> list A -> list A;
  sort_Slice_perm : forall A (less : A -> A -> bool) l, sort_Slice less l ≡ₚ l;
  sort_Slice_sorted : forall A (less : A -> A -> bool) l,
    strict_weak less -> StronglySorted (not_after less) (sort_Slice less l) }.
#[export] Instance slice_sort_stable : SliceSort := {
  sort_Slice := @sort_SliceStable;
  sort_Slice_perm := @sort_SliceStable_perm;
  sort_Slice_sorted A less l H := sort_SliceStable_sorted less H l }.

Lemma sort_Slice_elem {sort : SliceSort} {A} (less : A -> A -> bool) x (l : list A) :
  x ∈ sort_Slice less l <-> x ∈ l.
Proof. by rewrite sort_Slice_perm. Qed.
Lemma sort_Slice_nil {sort : SliceSort} {A} (less : A -> A -> bool) : sort_Slice less [] = [].
Proof. apply Permutation_nil_r, sort_Slice_perm. Qed.
Lemma sort_Slice_empty {sort : SliceSort} {A} (less : A -> A -> bool) (l : list A) :
  sort_Slice less l = [] <-> l = [].
Proof.
  split; [|intros ->; apply sort_Slice_nil]. intros E. apply Permutation_nil_r. by rewrite <- E, sort_Slice_perm.
Qed.

(** Comparing by a first key and, where it ties, by the next. *)
Definition then_by {A} (key : A -> string) (less : A -> A -> bool) (x y : A) : bool :=
  if String.eqb (key x) (key y) then less x y else str_ltb (key x) (key y).
Definition by_key {A} (key : A -> string) (x y : A) : bool := str_ltb (key x) (key y).

Lemma str_ltb_weak a b c : str_ltb a b = true -> str_ltb a c = true \/ str_ltb c b = true.
Proof.
  intros H. destruct (str_ltb a c) eqn:E1; [by left|]. destruct (str_ltb c b) eqn:E2; [by right|].
  destruct (str_ltb c a) eqn:E3.
  - pose proof (str_ltb_trans _ _ _ E3 H). congruence.
  - pose proof (str_ltb_total _ _ E1 E3) as ->. congruence.
Qed.
Lemma by_key_weak {A} (key : A -> string) : strict_weak (by_key key).
Proof.
  split; unfold by_key; intros; [apply str_ltb_irrefl|by eapply str_ltb_trans|by apply str_ltb_weak].
Qed.
Lemma then_by_weak {A} (key : A -> string) less : strict_weak less -> strict_weak (then_by key less).
Proof.
  intros [H1 H2 H3]. unfold then_by. split; intros x.
  - by rewrite String.eqb_refl.
  - intros y z. destruct (String.eqb_spec (key x) (key y)) as [E|N1].
    + rewrite E. destruct (String.eqb_spec (key y) (key z)); [apply H2|auto].
    + destruct (String.eqb_spec (key y) (key z)) as [E|N2].
      * rewrite <- E. destruct (String.eqb_spec (key x) (key y)); [done|]. auto.
      * intros L1 L2. pose proof (str_ltb_trans _ _ _ L1 L2) as L.
        destruct (String.eqb_spec (key x) (key z)) as [E|]; [|done]. rewrite E, str_ltb_irrefl in L. done.
  - intros y z. destruct (String.eqb_spec (key x) (key y)) as [E|N1].
    + rewrite E, (String.eqb_sym (key z) (key y)). destruct (String.eqb_spec (key y) (key z)) as [_|N2]; [apply H3|].
      intros _. destruct (str_ltb (key y) (key z)) eqn:L; [by left|right].
      destruct (str_ltb (key z) (key y)) eqn:L2; [done|]. by pose proof (str_ltb_total _ _ L L2).
    + intros L. destruct (String.eqb_spec (key x) (key z)) as [E|N2].
      * right. rewrite <- E. by destruct (String.eqb_spec (key x) (key y)).
      * destruct (String.eqb_spec (key z) (key y)) as [E2|N3]; [left; by rewrite E2|]. by apply str_ltb_weak.
Qed.

(** Without ties, a sorted permutation is determined. *)
Lemma sorted_unique {A} (less : A -> A -> bool) (l1 l2 : list A) :
  (forall x y, x ∈ l1 -> y ∈ l1 -> less x y = false -> less y x = false -> x = y) ->
  StronglySorted (not_after less) l1 -> StronglySorted (not_after less) l2 -> l1 ≡ₚ l2 -> l1 = l2.
Proof.
  revert l2. induction l1 as [|x l1 IH]; intros l2 Ht H1 H2 P.
  { symmetry. apply Permutation_nil_r. by symmetry. }
  destruct l2 as [|y l2]; [by apply Permutation_nil_r in P|].
  inversion H1 as [|? ? S1 F1]; subst. inversion H2 as [|? ? S2 F2]; subst.
  rewrite Forall_forall in F1, F2.
  assert (x = y) as <-.
  { assert (x ∈ y :: l2) as Hx by (rewrite <- P; apply list_elem_of_here).
    assert (y ∈ x :: l1) as Hy by (rewrite P; apply list_elem_of_here).
    apply elem_of_cons in Hx as [->|Hx]; [done|]. apply elem_of_cons in Hy as [->|Hy]; [done|].
    apply Ht; [apply list_elem_of_here|by apply list_elem_of_further|by apply F2|by apply F1]. }
  f_equal. apply IH; [|done|done|by apply (Permutation_cons_inv P)].
  intros a b Ha Hb. apply Ht; by apply list_elem_of_further.
Qed.

(** ** Ranging over a map *)
Class MapRange := {
  range_map : forall {K} `{Countable K} {V}, gmap K V -> list (K * V);
  range_map_perm : forall K `{Countable K} V (m : gmap K V), range_map m ≡ₚ map_to_list m }.
#[export] Instance range_in_order : MapRange := {
  range_map K _ _ V m := map_to_list m;
  range_map_perm K _ _ V m := Permutation_refl _ }.

Lemma elem_of_range `{Countable K} {range : MapRange} {V} (m : gmap K V) k v : (k, v) ∈ range_map m <-> m !! k = Some v.
Proof. by rewrite range_map_perm, elem_of_map_to_list. Qed.
Lemma NoDup_range `{Countable K} {range : MapRange} {V} (m : gmap K V) : NoDup (range_map m).*1.
Proof. rewrite range_map_perm. apply NoDup_fst_map_to_list. Qed.

(** ** Recording what has been seen in a set *)
Lemma Forall_fresh {A B} `{Countable B} (f : A -> B) x (l : list A) (X : gset B) :
  Forall (fun y => f y ∉ {[ f x ]} ∪ X) l <-> (f x ∉ map f l) /\ Forall (fun y => f y ∉ X) l.
Proof.
  rewrite !Forall_forall, list_elem_of_fmap. setoid_rewrite not_elem_of_union. setoid_rewrite not_elem_of_singleton. split.
  - intros H'. split; [|intros y Hy; by apply H']. intros (y & E & Hy). by destruct (H' y Hy).
  - intros [H1 H2] y Hy. split; [|by apply H2]. intros E. apply H1. by exists y.
Qed.

(** ** Indexing a slice by a key *)
Definition index_by `{Countable K} {A V} (key : A -> K) (value : A -> V) (l : list A) (m : gmap K V) : gmap K V :=
  fold_left (fun m x => <[key x := value x]> m) l m.
Lemma index_by_from `{Countable K} {A V} (key : A -> K) (value : A -> V) l m k v :
  NoDup (map key l) ->
  index_by key value l m !! k = Some v <->
  (exists x, x ∈ l /\ k = key x /\ v = value x) \/ ((k ∉ map key l) /\ m !! k = Some v).
Proof.
  unfold index_by. revert m. induction l as [|x l IH]; intros m; simpl.
  - intros _. split; [|intros [(x & Hx & _)|[_ ?]]; [by apply not_elem_of_nil in Hx|done]].
    intros E. right. split; [apply not_elem_of_nil|done].
  - intros [Hn Hd]%NoDup_cons. rewrite IH by done. setoid_rewrite elem_of_cons. split.
    + intros [(y & Hy & E)|[Hk E]]; [left; eauto|]. destruct (decide (k = key x)) as [->|N].
      * rewrite lookup_insert_eq in E. left. exists x. split_and!; [by left|done|congruence].
      * rewrite lookup_insert_ne in E by done. right. split; [by intros [?|?]|done].
    + intros [(y & [->|Hy] & -> & ->)|[Hk E]]; [right|left; eauto|right].
      * by rewrite lookup_insert_eq.
      * split; [tauto|]. by rewrite lookup_insert_ne by (intros E'; apply Hk; left; congruence).
Qed.
Lemma index_by_lookup `{Countable K} {A V} (key : A -> K) (value : A -> V) l k v :
  NoDup (map key l) -> index_by key value l ∅ !! k = Some v <-> exists x, x ∈ l /\ k = key x /\ v = value x.
Proof. intros Hd. rewrite index_by_from by done. rewrite lookup_empty. naive_solver. Qed.

(** ** Flattened and mapped slices *)
(** A slice mapped to at most one element each, those that satisfy [q]. *)
Lemma flat_imap {A B C} (q : A -> Prop) `{forall x, Decision (q x)} (l : list A) (f : nat -> A -> list B * list C)
    (P : nat -> A -> B -> Prop) :
  (forall i x, l !! i = Some x ->
     (q x /\ exists b, f i x = ([b], []) /\ forall b', P i x b' <-> b' = b) \/
     (~ q x /\ f i x = ([], []) /\ forall b, ~ P i x b)) ->
  flat_map snd (imap f l) = [] /\
  (forall b, b ∈ flat_map fst (imap f l) <-> exists i x, l !! i = Some x /\ P i x b) /\
  length (flat_map fst (imap f l)) = length (base.filter q l).
Proof.
  revert f P. induction l as [|x l IH]; intros f P Hf.
  { split; [done|]. split; [|done]. intros b. split; [by intros ?%not_elem_of_nil|]. intros (i & x & Hi & _). by rewrite lookup_nil in Hi. }
  destruct (IH (f ∘ S) (fun i => P (S i))) as (H1 & H2 & H3); [intros i y Hy; by apply (Hf (S i))|]. clear IH.
  simpl. rewrite filter_cons.
  assert (forall b, (exists i y, (x :: l) !! i = Some y /\ P i y b) <-> P 0 x b \/ exists i y, l !! i = Some y /\ P (S i) y b) as Hs.
  { intros b. split.
    - intros ([|i] & y & Hi & Hb); simpl in Hi; [left; congruence|right; eauto].
    - intros [Hb|(i & y & Hi & Hb)]; [by exists 0, x|by exists (S i), y]. }
  destruct (Hf 0 x eq_refl) as [(Hq & b & -> & Hb)|(Hq & -> & Hb)]; simpl.
  - rewrite decide_True by done. simpl. rewrite H1, H3. split; [done|]. split; [|done]. intros b'.
    by rewrite Hs, elem_of_cons, H2, Hb.
  - rewrite decide_False by done. rewrite H1, H3. split; [done|]. split; [|done]. intros b'. rewrite Hs, H2. specialize (Hb b'). tauto.
Qed.
Lemma NoDup_map_inj {A B} (f : A -> B) (l : list A) x y : NoDup (map f l) -> x ∈ l -> y ∈ l -> f y = f x -> y = x.
Proof.
  intros Hd Hx Hy E. apply list_elem_of_lookup in Hx as [i Hx]. apply list_elem_of_lookup in Hy as [j Hy].
  assert (i = j) as ->; [|congruence].
  apply (NoDup_lookup (map f l) _ _ (f x)); [done| |]; rewrite list_lookup_fmap, ?Hx, ?Hy; simpl; congruence.
Qed.

Lemma elem_of_flat_map {A B} (f : A -> list B) (l : list A) y : y ∈ flat_map f l <-> exists x, y ∈ f x /\ x ∈ l.
Proof.
  rewrite list_elem_of_In, in_flat_map. setoid_rewrite <- list_elem_of_In. naive_solver.
Qed.
Lemma flat_map_nil_iff {A B} (f : A -> list B) (l : list A) : flat_map f l = [] <-> forall x, x ∈ l -> f x = [].
Proof.
  induction l as [|x l IH]; simpl; [split; [intros _ x Hx; by apply not_elem_of_nil in Hx|done]|]. split.
  - intros [E1 E2]%app_nil. intros y [->|Hy]%elem_of_cons; [done|by apply IH].
  - intros H. rewrite (H x (list_elem_of_here _ _)). simpl. apply IH. intros y Hy. apply H. by apply list_elem_of_further.
Qed.
