(* ===== verification/GoPath.v ===== *)
(** * GoPath: the package [path] of Go's standard library, and the case
    mapping of runes

    [Base] and [Clean] over slash-separated paths.  [Clean] works on the
    elements between slashes: an empty element and "." vanish, ".." removes
    the element before it, or stays at the front of a relative path. *)

From S2P Require Import Prelude GoText.
Open Scope string_scope.
Open Scope list_scope.
Open Scope nat_scope.

Fixpoint trim_slashes (s : string) : string :=
  match s with String c s' => if Ascii.eqb c "/"%char then trim_slashes s' else s | "" => "" end.
(** [path.Base]: the last element, "." for an empty path and "/" for one of
    slashes only. *)
Definition path_Base (p : string) : string :=
  if String.eqb p "" then "."
  else let stripped := str_rev (trim_slashes (str_rev p)) in
       if String.eqb stripped "" then "/" else default "" (last (Split stripped "/")).

(** The elements kept so far, the last one first. *)
Definition clean_step (rooted : bool) (kept : list string) (element : string) : list string :=
  if String.eqb element "" || String.eqb element "." then kept
  else if String.eqb element ".." then
    match kept with
    | [] => if rooted then [] else [".."]
    | k :: kept' => if String.eqb k ".." then ".." :: kept else kept'
    end
  else element :: kept.
Definition path_Clean (p : string) : string :=
  if String.eqb p "" then "."
  else
    let rooted := HasPrefix p "/" in
    let kept := rev (fold_left (clean_step rooted) (Split p "/") []) in
    let joined := Join kept "/" in
    if rooted then "/" +:+ joined else if String.eqb joined "" then "." else joined.

Example clean_1 : map path_Clean [""; "a/b"; "a//b/"; "./a"; "a/.."; "../a"; "/.."; "a/../../b"; "/a/./b"]
  = ["."; "a/b"; "a/b"; "a"; "."; "../a"; "/"; "../b"; "/a/b"].
Proof. vm_compute. reflexivity. Qed.
Example base_1 : map path_Base [""; "/"; "a"; "github.com/x/rasql"; "a/b/"] = ["."; "/"; "a"; "rasql"; "b"].
Proof. vm_compute. reflexivity. Qed.

(** ** [unicode.ToUpper] and [ToLower]: the case tables are a parameter *)
Class CaseMap := { rune_upper : N -> N; rune_lower : N -> N }.
#[export] Instance ascii_case : CaseMap := {
  rune_upper r := if in_range 97 122 r then (r - 32)%N else r;
  rune_lower r := if in_range 65 90 r then (r + 32)%N else r }.
(** [for _, r := range s]: the runes, an invalid byte being U+FFFD. *)
Fixpoint runes_from (fuel : nat) (s : string) : list N :=
  match fuel, s with
  | _, "" => []
  | 0, _ => []
  | S fuel', _ => let '(r, w) := DecodeRune s in r :: runes_from fuel' (sdrop w s)
  end.
Definition runes (s : string) : list N := runes_from (String.length s) s.
Definition string_of_runes (l : list N) : string := fold_right (fun r s => EncodeRune r +:+ s) "" l.
(** [strings.ToLower]. *)
Definition strings_ToLower {case : CaseMap} (s : string) : string := string_of_runes (map rune_lower (runes s)).

Example lower_1 : strings_ToLower "Api_ID9" = "api_id9".
Proof. vm_compute. reflexivity. Qed.
