(* ===== verification/CompilerIR.v ===== *)
(** * CompilerIR: [internal/compilerir/physical.go]

    The physical catalog the schema compiler works on: its data, the
    conversion from the public table descriptors ([PhysicalFromTableDefs]) and
    back ([TableDefsFromPhysical]), and the assignment of object identities
    ([AssignObjectIDs]).

    As in [Schema], a nil slice and an empty one are the same list, a map is
    its entries, and a stated-or-not integer is an [option Z]; cloning a value
    therefore is the value.  A diagnostic's message is a text or the text of an
    error ([err_arg]). *)

From S2P Require Import Prelude GoText GoSort Schema TableValidate Sha256.
Open Scope string_scope.
Open Scope list_scope.
Open Scope nat_scope.

(** ** Data *)
Abbreviation ObjectID := string (only parsing).
Abbreviation QueryID := string (only parsing).
(** [QualifiedName{Schema, Name}]. *)
Abbreviation QName := (string * string)%type (only parsing).

Definition DiagnosticError : string := "error".
Definition DiagnosticWarning : string := "warning".
Definition CertaintyKnown : string := "known".
Definition CertaintyDeclared : string := "declared".
Definition CertaintyUnknown : string := "unknown".

Record Diagnostic := MkDiagnostic { dg_Level : string; dg_Code : string; dg_Path : string; dg_Message : err_arg }.
Definition diagnostic_error (code path message : string) : Diagnostic :=
  MkDiagnostic DiagnosticError code path (AStr message).

Record EngineIdentity := MkEngine { en_Dialect : string; en_Version : string; en_Profile : string }.
Record IntegerTypeFacts := MkIntegerFacts { if_Unsigned : bool; if_DisplayWidth : option Z; if_ZeroFill : bool }.
Record TextTypeFacts := MkTextFacts { tf_Width : option Z; tf_Fixed : bool }.
Record DecimalTypeFacts := MkDecimalFacts {
  df_Precision : Z; df_Scale : option Z; df_Unsigned : bool; df_ZeroFill : bool }.
Inductive PhysicalNative := MkPhysicalNative {
  pn_Dialect : string; pn_Schema : string; pn_Name : string; pn_Kind : string;
  pn_Arguments : list string; pn_Element : option PhysicalNative }.
Record PhysicalColumn := MkPhysicalColumn {
  pc_Name : string; pc_Ordinal : Z; LogicalKind : string; pc_Native : option PhysicalNative;
  pc_Nullable : bool; DefaultSQL : string; GeneratedSQL : string; pc_GeneratedStorage : string;
  pc_Identity : string; pc_Collation : string; pc_Hidden : bool;
  pc_Integer : option IntegerTypeFacts; pc_Text : option TextTypeFacts; pc_Decimal : option DecimalTypeFacts }.
Record IndexPart := MkIndexPart {
  ip_Column : string; ip_ExpressionSQL : string; ip_Direction : string; ip_Nulls : string;
  ip_Collation : string; ip_OperatorClass : string; ip_PrefixLength : Z }.
Record ForeignReference := MkReference { rf_Schema : string; rf_Object : string; rf_Columns : list string }.
Record PhysicalConstraint := MkConstraint {
  pk_Name : string; pk_Kind : string; pk_Columns : list string; Reference : option ForeignReference;
  pk_ExpressionSQL : string; pk_Deferrable : bool; pk_InitiallyDeferred : bool;
  pk_OnUpdate : string; pk_OnDelete : string; pk_Deferrability : string; pk_Match : string;
  pk_NullsNotDistinct : bool; pk_IncludeColumns : list string; pk_OnConflict : string;
  pk_Keys : list IndexPart; pk_Temporal : bool; pk_StorageParameters : list (string * string);
  pk_Tablespace : string; pk_ReplicaIdentity : bool; pk_Collations : list (string * string);
  pk_NoInherit : bool; pk_NotValid : bool; pk_NotEnforced : bool; pk_DeleteSetColumns : list string }.
Record PhysicalIndex := MkPhysicalIndex {
  pi_Name : string; pi_Unique : bool; pi_Method : string; KeyForm : string; Parts : list IndexPart;
  PredicateSQL : string; pi_IncludeColumns : list string; pi_Invisible : bool; pi_NotValid : bool;
  pi_NullsNotDistinct : bool; pi_StorageParameters : list (string * string); pi_Tablespace : string;
  pi_ReplicaIdentity : bool }.
Record ExclusionElement := MkPhysicalElement { pe_ExpressionSQL : string; pe_Operator : string }.
Record PhysicalExclusionConstraint := MkPhysicalExclusion {
  px_Name : string; px_Method : string; px_Elements : list ExclusionElement; px_PredicateSQL : string;
  px_Deferrability : string }.
Record PhysicalObject := MkObject {
  po_ID : ObjectID; po_Kind : string; po_Schema : string; po_Name : string; po_Operations : N;
  po_Columns : list PhysicalColumn; Constraints : list PhysicalConstraint; po_Indexes : list PhysicalIndex;
  po_Exclusions : list PhysicalExclusionConstraint; po_Strict : bool; po_WithoutRowID : bool;
  po_Autoincrement : bool; po_OnConflict : string; po_Module : string; po_ModuleArguments : list string }.
Record PhysicalCatalog := MkCatalog { Engine : EngineIdentity; Objects : list PhysicalObject }.

(** An empty constraint of a kind: the zero value the literals start from. *)
Definition constraint_of (kind name : string) (columns : list string) : PhysicalConstraint :=
  MkConstraint name kind columns None "" false false "" "" "" "" false [] "" [] false [] "" false [] false false false [].

(** ** From descriptors to the catalog *)
Fixpoint nativeType (n : NativeTypeDef) : PhysicalNative :=
  match n with
  | MkNative dialect schema name kind arguments element =>
      MkPhysicalNative dialect schema name kind arguments
        match element with Some e => Some (nativeType e) | None => None end
  end.
Definition indexDirection (desc : bool) : string := if desc then "DESC" else "".

Definition physical_column (i : nat) (col : ColumnDef) : PhysicalColumn :=
  MkPhysicalColumn (Column_Name col) (Z.of_nat i) (match Column_Type col with Some t => Kind t | None => "" end)
    (option_map nativeType (NativeType col)) (Column_Nullable col) (Column_Default col) (GeneratedExpression col)
    (Column_GeneratedStorage col) (Identity col) (Column_Collation col) (Hidden col)
    (match Column_Type col with
     | Some (IntegerType unsigned width zerofill) => Some (MkIntegerFacts unsigned width zerofill)
     | _ => None end)
    (match Column_Type col with Some (TextType width fixed) => Some (MkTextFacts width fixed) | _ => None end)
    (match Column_Type col with
     | Some (DecimalType precision scale unsigned zerofill) => Some (MkDecimalFacts precision scale unsigned zerofill)
     | _ => None end).

Definition key_part (key : IndexKeyDef) : IndexPart :=
  MkIndexPart "" (ik_Expression key) (indexDirection (Descending key)) (ik_NullsOrder key) (ik_Collation key)
    (OperatorClass key) (PrefixLength key).
Definition column_part (column : string) : IndexPart := MkIndexPart column "" "" "" "" "" 0.
Definition expression_part (expression : string) : IndexPart := MkIndexPart "" expression "" "" "" "" 0.

Definition primary_constraint (columns : list string) : PhysicalConstraint := constraint_of "primary_key" "" columns.
Definition unique_constraint (u : UniqueDef) : PhysicalConstraint :=
  MkConstraint (uq_Name u) "unique" (uq_Columns u) None "" false false "" "" (uq_Deferrable u) ""
    (uq_NullsNotDistinct u) (uq_IncludeColumns u) (OnConflict u) (map key_part (uq_Keys u)) (uq_Temporal u)
    (uq_StorageParameters u) (uq_Tablespace u) (uq_ReplicaIdentity u) (Collations u) false false false [].
Definition foreign_constraint (f : ForeignKeyDef) : PhysicalConstraint :=
  MkConstraint (fk_Name f) "foreign_key" (fk_Columns f)
    (Some (MkReference (ReferencedSchema f) (ReferencedTable f) (ReferencedColumns f))) ""
    (negb (unset (fk_Deferrable f))) (String.eqb (fk_Deferrable f) DeferrableInitiallyDeferred)
    (OnUpdate f) (OnDelete f) (fk_Deferrable f) (Match f) false [] "" [] (fk_Temporal f) [] "" false []
    false (fk_NotValid f) (fk_NotEnforced f) (DeleteSetColumns f).
Definition check_constraint (c : CheckDef) : PhysicalConstraint :=
  MkConstraint (ck_Name c) "check" [] None (ck_Expression c) false false "" "" "" "" false [] "" [] false [] "" false []
    (NoInherit c) (ck_NotValid c) (ck_NotEnforced c) [].
Definition physical_constraints (t : TableDef) : list PhysicalConstraint :=
  (if 0 <? length (PrimaryKey t) then [primary_constraint (PrimaryKey t)] else []) ++
  map unique_constraint (UniqueConstraints t) ++ map foreign_constraint (ForeignKeys t) ++
  map check_constraint (Checks t).

Definition stated {A} (l : list A) : nat := if 0 <? length l then 1 else 0.
Definition index_forms (i : IndexDef) : nat := stated (ix_Columns i) + stated (Expressions i) + stated (ix_Keys i).
Definition key_form (i : IndexDef) : string :=
  if 0 <? length (ix_Keys i) then "keys" else if 0 <? length (Expressions i) then "expressions" else "columns".
Definition physical_index (i : IndexDef) : PhysicalIndex :=
  MkPhysicalIndex (ix_Name i) (ix_Unique i) (ix_Method i) (key_form i)
    (map column_part (ix_Columns i) ++ map expression_part (Expressions i) ++ map key_part (ix_Keys i))
    (Predicate i) (ix_IncludeColumns i) (Invisible i) (ix_NotValid i) (ix_NullsNotDistinct i)
    (ix_StorageParameters i) (ix_Tablespace i) (ix_ReplicaIdentity i).
(** The loop over a table's indexes: those converted and the diagnostics. *)
Definition physical_indexes (t : TableDef) : list PhysicalIndex * list Diagnostic :=
  fold_left (fun acc i =>
    if 1 <? index_forms i
    then (acc.1, acc.2 ++ [diagnostic_error "index_key_form_conflict" (QualifiedName t +:+ ".indexes." +:+ ix_Name i)
                             "index columns, expressions, and keys cannot be combined"])
    else (acc.1 ++ [physical_index i], acc.2)) (Indexes t) ([], []).

Definition physical_exclusion (e : ExclusionDef) : PhysicalExclusionConstraint :=
  MkPhysicalExclusion (ex_Name e) (ex_Method e)
    (map (fun el => MkPhysicalElement (el_Expression el) (el_Operator el)) (Elements e)) (ex_Predicate e) (ex_Deferrable e).

Definition physical_object (t : TableDef) : PhysicalObject * list Diagnostic :=
  let '(indexes, diagnostics) := physical_indexes t in
  (MkObject "" (EffectiveKind t) (Schema t) (Name t) (Operations t) (imap physical_column (Columns t))
     (physical_constraints t) indexes (map physical_exclusion (ExclusionConstraints t)) (Strict t) (WithoutRowID t)
     (PrimaryKeyAutoincrement t) (PrimaryKeyOnConflict t) (VirtualTableModule t) (VirtualTableModuleArguments t),
   diagnostics).

Definition object_less : PhysicalObject -> PhysicalObject -> bool := then_by po_Kind (then_by po_Schema (by_key po_Name)).
Definition diagnostic_less : Diagnostic -> Diagnostic -> bool := then_by dg_Code (by_key dg_Path).

Section Sorted.
Context {sort : SliceSort} {unicode : Unicode}.

Definition sortDiagnostics (d : list Diagnostic) : list Diagnostic := sort_Slice diagnostic_less d.

Definition convert_table (acc : list PhysicalObject * list Diagnostic) (t : TableDef) : list PhysicalObject * list Diagnostic :=
  match Table_Validate t with
  | Err e => (acc.1, acc.2 ++ [MkDiagnostic DiagnosticError "invalid_table" (QualifiedName t) (AErr e)])
  | Ok _ => let '(o, diagnostics) := physical_object t in (acc.1 ++ [o], acc.2 ++ diagnostics)
  end.
Definition PhysicalFromTableDefs (engine : EngineIdentity) (tables : list TableDef) : PhysicalCatalog * list Diagnostic :=
  let '(objects, diagnostics) := fold_left convert_table tables ([], []) in
  (MkCatalog engine (sort_Slice object_less objects), sortDiagnostics diagnostics).

(** ** Object identities *)
Record PriorObject := MkPrior { pr_ID : ObjectID; pr_Kind : string; pr_Name : QName }.
Record ObjectRename := MkRename { rn_ID : ObjectID; To : QName }.
Record IdentityInput := MkIdentity { SourceIdentity : string; Prior : list PriorObject; Renames : list ObjectRename }.

Definition nl : string := str1 newline.
Definition hashID (source kind schemaName name : string) : ObjectID :=
  EncodeToString (Sum (source +:+ nl +:+ kind +:+ nl +:+ schemaName +:+ nl +:+ name)).

(** The loop over the prior objects: the identities and the names seen, and
    the diagnostics. *)
Definition subject (list_name : string) (i : nat) (field : string) : string :=
  list_name +:+ "[" +:+ NatItoa i +:+ "]" +:+ field.
Definition diagnose (b : bool) (code path message : string) : list Diagnostic :=
  if b then [diagnostic_error code path message] else [].
Definition prior_step (i : nat) (p : PriorObject) (st : gset ObjectID * gset QName * list Diagnostic) :
    gset ObjectID * gset QName * list Diagnostic :=
  let '(ids, names, ds) := st in
  ({[ pr_ID p ]} ∪ ids, {[ pr_Name p ]} ∪ names,
   ds ++ diagnose (unset (pr_ID p)) "prior_id_empty" (subject "prior" i ".id") "prior object ID must not be empty"
      ++ diagnose (bool_decide (pr_ID p ∈ ids)) "prior_id_duplicate" (subject "prior" i ".id") "prior object ID is duplicated"
      ++ diagnose (bool_decide (pr_Name p ∈ names)) "prior_name_duplicate" (subject "prior" i ".name")
           "prior object name is duplicated").
Fixpoint prior_loop (i : nat) (l : list PriorObject) (st : gset ObjectID * gset QName * list Diagnostic) :=
  match l with [] => st | p :: l' => prior_loop (S i) l' (prior_step i p st) end.

(** The loop over the renames: the identities and destinations seen, the
    renames by identity, and the diagnostics. *)
Record rename_state := MkRenameState {
  rs_ids : gset ObjectID; rs_dests : gset QName; rs_renamed : gmap ObjectID QName; rs_diagnostics : list Diagnostic }.
Definition rename_step (prior : gset ObjectID) (i : nat) (r : ObjectRename) (st : rename_state) : rename_state :=
  MkRenameState ({[ rn_ID r ]} ∪ rs_ids st) ({[ To r ]} ∪ rs_dests st) (<[rn_ID r := To r]> (rs_renamed st))
    (rs_diagnostics st
     ++ diagnose (bool_decide (rn_ID r ∈ rs_ids st)) "rename_id_duplicate" (subject "renames" i ".id") "rename ID is duplicated"
     ++ diagnose (negb (bool_decide (rn_ID r ∈ prior))) "rename_id_missing" (subject "renames" i ".id")
          "rename ID is absent from prior objects"
     ++ diagnose (bool_decide (To r ∈ rs_dests st)) "rename_destination_duplicate" (subject "renames" i ".to")
          "rename destination is duplicated").
Fixpoint rename_loop (prior : gset ObjectID) (i : nat) (l : list ObjectRename) (st : rename_state) : rename_state :=
  match l with [] => st | r :: l' => rename_loop prior (S i) l' (rename_step prior i r st) end.

Definition set_ID (id : ObjectID) (o : PhysicalObject) : PhysicalObject :=
  MkObject id (po_Kind o) (po_Schema o) (po_Name o) (po_Operations o) (po_Columns o) (Constraints o) (po_Indexes o)
    (po_Exclusions o) (po_Strict o) (po_WithoutRowID o) (po_Autoincrement o) (po_OnConflict o) (po_Module o)
    (po_ModuleArguments o).
Definition po_QName (o : PhysicalObject) : QName := (po_Schema o, po_Name o).
Definition hashed (source : string) (o : PhysicalObject) : PhysicalObject :=
  set_ID (hashID source (po_Kind o) (po_Schema o) (po_Name o)) o.
(** The name a prior object has now. *)
Definition current_name (renamed : gmap ObjectID QName) (p : PriorObject) : QName :=
  match renamed !! pr_ID p with Some name => name | None => pr_Name p end.
Definition carried (renamed : gmap ObjectID QName) (p : PriorObject) (o : PhysicalObject) : PhysicalObject :=
  if String.eqb (po_Kind o) (pr_Kind p) && bool_decide (po_QName o = current_name renamed p) then set_ID (pr_ID p) o else o.
Definition carry_all (renamed : gmap ObjectID QName) (prior : list PriorObject) (objects : list PhysicalObject) :
    list PhysicalObject :=
  fold_left (fun objects p => map (carried renamed p) objects) prior objects.

(** The last loop: where each identity was seen first. *)
Definition collision_step (i : nat) (o : PhysicalObject) (st : gmap ObjectID nat * list Diagnostic) :
    gmap ObjectID nat * list Diagnostic :=
  match st.1 !! po_ID o with
  | Some previous => (st.1, st.2 ++ [diagnostic_error "object_id_collision" (subject "objects" i ".id")
                                       ("object ID collides with objects[" +:+ NatItoa previous +:+ "]")])
  | None => (<[po_ID o := i]> st.1, st.2)
  end.
Fixpoint collision_loop (i : nat) (l : list PhysicalObject) (st : gmap ObjectID nat * list Diagnostic) :=
  match l with [] => st | o :: l' => collision_loop (S i) l' (collision_step i o st) end.

Definition AssignObjectIDs (c : PhysicalCatalog) (in_ : IdentityInput) : PhysicalCatalog * list Diagnostic :=
  let ds0 := diagnose (unset (SourceIdentity in_)) "identity_source_empty" "source_identity"
               "source identity must not be empty" in
  let '(ids, _, ds1) := prior_loop 0 (Prior in_) (∅, ∅, ds0) in
  let renames := rename_loop ids 0 (Renames in_) (MkRenameState ∅ ∅ ∅ ds1) in
  let objects := carry_all (rs_renamed renames) (Prior in_) (map (hashed (SourceIdentity in_)) (Objects c)) in
  let '(_, ds) := collision_loop 0 objects (∅, rs_diagnostics renames) in
  (MkCatalog (Engine c) objects, sortDiagnostics ds).

(** ** Back to descriptors *)
Fixpoint nativeDef (n : PhysicalNative) : NativeTypeDef :=
  match n with
  | MkPhysicalNative dialect schema name kind arguments element =>
      MkNative dialect schema name kind arguments
        match element with Some e => Some (nativeDef e) | None => None end
  end.
(** The [switch] over the logical kind: the type and the diagnostics. *)
Definition column_type_of (object : string) (col : PhysicalColumn) : ColumnType * list Diagnostic :=
  if String.eqb (LogicalKind col) "boolean" then (BooleanType, [])
  else if String.eqb (LogicalKind col) "integer" then
    (match pc_Integer col with
     | Some f => IntegerType (if_Unsigned f) (if_DisplayWidth f) (if_ZeroFill f)
     | None => IntegerType false None false end, [])
  else if String.eqb (LogicalKind col) "float" then (FloatType, [])
  else if String.eqb (LogicalKind col) "text" then
    (match pc_Text col with Some f => TextType (tf_Width f) (tf_Fixed f) | None => TextType None false end, [])
  else if String.eqb (LogicalKind col) "bytes" then (BytesType, [])
  else if String.eqb (LogicalKind col) "time" then (TimeType, [])
  else if String.eqb (LogicalKind col) "json" then (JSONType, [])
  else if String.eqb (LogicalKind col) "uuid" then (UUIDType, [])
  else if String.eqb (LogicalKind col) "decimal" then
    match pc_Decimal col with
    | Some (MkDecimalFacts precision (Some scale) unsigned zerofill) =>
        (DecimalType precision (Some scale) unsigned zerofill, [])
    | _ => (DecimalType 0 None false false,
            [diagnostic_error "decimal_facts_missing" (object +:+ "." +:+ pc_Name col)
               "decimal precision and stated scale are required"])
    end
  else (OpaqueType,
        match pc_Native col with
        | Some _ => []
        | None => [MkDiagnostic DiagnosticWarning "opaque_type" (object +:+ "." +:+ pc_Name col)
                     (AStr "native type has no legacy schema equivalent")]
        end).
Definition column_def (object : string) (col : PhysicalColumn) : ColumnDef :=
  MkColumn (pc_Name col) (Some (column_type_of object col).1) (pc_Nullable col) (DefaultSQL col) None (pc_Collation col)
    (GeneratedSQL col) (pc_GeneratedStorage col) (pc_Identity col) (pc_Hidden col) (option_map nativeDef (pc_Native col)).

Definition unique_key (key : IndexPart) : IndexKeyDef :=
  MkIndexKey (if unset (ip_ExpressionSQL key) then ip_Column key else ip_ExpressionSQL key)
    (String.eqb (ip_Direction key) "DESC") (ip_Collation key) (ip_OperatorClass key) (ip_PrefixLength key) (ip_Nulls key).
Definition unique_def (c : PhysicalConstraint) : UniqueDef :=
  MkUnique (pk_Name c) (pk_Columns c) (pk_Deferrability c) (pk_NullsNotDistinct c) (pk_IncludeColumns c) (pk_OnConflict c)
    (map unique_key (pk_Keys c)) (pk_Temporal c) (pk_StorageParameters c) (pk_Tablespace c) (pk_ReplicaIdentity c)
    (pk_Collations c).
Definition check_def (c : PhysicalConstraint) : CheckDef :=
  MkCheck (pk_Name c) (pk_ExpressionSQL c) (pk_NoInherit c) (pk_NotValid c) (pk_NotEnforced c).
Definition foreign_def (c : PhysicalConstraint) (r : ForeignReference) : ForeignKeyDef :=
  MkForeignKey (pk_Name c) (pk_Columns c) (rf_Schema r) (rf_Object r) (rf_Columns r) (pk_Match c) (pk_OnDelete c)
    (pk_OnUpdate c) (pk_Deferrability c) (pk_NotValid c) (pk_NotEnforced c) (pk_Temporal c) (pk_DeleteSetColumns c).
Record table_constraints := MkTableConstraints {
  tc_primary : list string; tc_unique : list UniqueDef; tc_checks : list CheckDef; tc_foreign : list ForeignKeyDef }.
Definition constraint_step (acc : table_constraints) (c : PhysicalConstraint) : table_constraints :=
  let '(MkTableConstraints p u k f) := acc in
  if String.eqb (pk_Kind c) "primary_key" then MkTableConstraints (pk_Columns c) u k f
  else if String.eqb (pk_Kind c) "unique" then MkTableConstraints p (u ++ [unique_def c]) k f
  else if String.eqb (pk_Kind c) "check" then MkTableConstraints p u (k ++ [check_def c]) f
  else if String.eqb (pk_Kind c) "foreign_key" then
    match Reference c with Some r => MkTableConstraints p u k (f ++ [foreign_def c r]) | None => acc end
  else acc.
Definition table_constraints_of (l : list PhysicalConstraint) : table_constraints :=
  fold_left constraint_step l (MkTableConstraints [] [] [] []).

(** The parts of an index whose form is none of "keys" and "expressions". *)
Definition index_part (acc : list string * list string) (part : IndexPart) : list string * list string :=
  if unset (ip_ExpressionSQL part) then (acc.1 ++ [ip_Column part], acc.2) else (acc.1, acc.2 ++ [ip_ExpressionSQL part]).
Definition index_def (i : PhysicalIndex) : IndexDef :=
  let '(columns, expressions, keys) :=
    if String.eqb (KeyForm i) "keys" then ([], [], map unique_key (Parts i))
    else if String.eqb (KeyForm i) "expressions" then ([], map ip_ExpressionSQL (Parts i), [])
    else let '(c, e) := fold_left index_part (Parts i) ([], []) in (c, e, []) in
  MkIndex (pi_Name i) columns (pi_Unique i) (pi_Method i) expressions (PredicateSQL i) (pi_IncludeColumns i)
    (pi_Invisible i) (pi_NotValid i) (pi_StorageParameters i) (pi_Tablespace i) (pi_ReplicaIdentity i) keys
    (pi_NullsNotDistinct i).
Definition exclusion_def (e : PhysicalExclusionConstraint) : ExclusionDef :=
  MkExclusion (px_Name e) (px_Method e) (map (fun el => MkElement (pe_ExpressionSQL el) (pe_Operator el)) (px_Elements e))
    (px_PredicateSQL e) (px_Deferrability e).
Definition table_def (o : PhysicalObject) : TableDef :=
  let cs := table_constraints_of (Constraints o) in
  MkTable (po_Schema o) (po_Name o) (po_Kind o) (po_Operations o) "" (map (column_def (po_Name o)) (po_Columns o))
    (tc_primary cs) (po_Strict o) (po_WithoutRowID o) (po_Autoincrement o) (po_OnConflict o) (po_Module o)
    (po_ModuleArguments o) (tc_unique cs) (tc_checks cs) (map exclusion_def (po_Exclusions o))
    (map index_def (po_Indexes o)) (tc_foreign cs).
Definition TableDefsFromPhysical (c : PhysicalCatalog) : list TableDef * list Diagnostic :=
  (map table_def (Objects c),
   sortDiagnostics (flat_map (fun o => flat_map (fun col => (column_type_of (po_Name o) col).2) (po_Columns o)) (Objects c))).
End Sorted.
