(* ===== verification/CompilerPhysical.v ===== *)
(** * CompilerPhysical: [ValidatePhysical] of [internal/compilerir/validate.go]

    The validation of a physical catalog, what a valid catalog is, and what
    becomes of table descriptors on their way through the catalog. *)

From S2P Require Import Prelude GoText GoSort Schema TableValidate Sha256 CompilerIR.
Open Scope string_scope.
Open Scope list_scope.
Open Scope nat_scope.

Definition invalid (path format : string) (args : list err_arg) : error :=
  Errorf "compilerir: %s: %s" [AStr path; AErr (Errorf format args)].
(** [fmt.Sprintf("objects[%d]...", i)] and [fmt.Sprintf("objects[%d].columns[%d]...", i, j)]. *)
Definition at_object (i : nat) (suffix : string) : string := "objects[" +:+ NatItoa i +:+ "]" +:+ suffix.
Definition at_member (i : nat) (member : string) (j : nat) (suffix : string) : string :=
  at_object i ("." +:+ member +:+ "[" +:+ NatItoa j +:+ "]" +:+ suffix).

Definition dialects : list string := ["postgresql"; "mysql"; "sqlite"].
Definition logical_kinds : list string :=
  ["boolean"; "integer"; "float"; "text"; "bytes"; "time"; "json"; "uuid"; "decimal"; "native"].
Definition physical_native_kinds : list string := ["builtin"; "domain"; "enum"; "set"; "array"; "other"].
Definition constraint_kinds : list string := ["primary_key"; "unique"; "foreign_key"; "check"].
Definition is_some {A} (o : option A) : bool := match o with Some _ => true | None => false end.
(** [value.Set && p(value.Value)]. *)
Definition set_and (p : Z -> bool) (o : option Z) : bool := match o with Some z => p z | None => false end.

Fixpoint validateNative (n : PhysicalNative) (p : string) : result unit :=
  match n with
  | MkPhysicalNative dialect _ name kind _ element =>
      check refuse_if (negb (one_of dialects dialect)) (invalid (p +:+ ".dialect") "unsupported dialect" []);
      check refuse_if (unset name) (invalid (p +:+ ".name") "must not be empty" []);
      check refuse_if (negb (one_of physical_native_kinds kind)) (invalid (p +:+ ".kind") "unsupported native kind" []);
      check refuse_if (String.eqb kind "array" && negb (is_some element))
              (invalid (p +:+ ".element") "array native type requires an element" []);
      check refuse_if (unset dialect) (invalid (p +:+ ".dialect") "must not be empty" []);
      match element with Some e => validateNative e (p +:+ ".element") | None => Ok tt end
  end.

(** ** Columns *)
(** The inner loop over the columns after [j]: the index of a namesake. *)
Fixpoint namesake (name : string) (k : nat) (later : list PhysicalColumn) : option nat :=
  match later with
  | [] => None
  | c :: later' => if String.eqb (pc_Name c) name then Some k else namesake name (S k) later'
  end.
Definition validate_physical_column (i j : nat) (col : PhysicalColumn) (later : list PhysicalColumn) : result unit :=
  let p := at_member i "columns" j in
  check refuse_if (negb (pc_Ordinal col =? Z.of_nat j)%Z) (invalid (p ".ordinal") "must be contiguous" []);
  check refuse_if (unset (pc_Name col)) (invalid (p ".name") "must not be empty" []);
  check refuse_if (negb (one_of logical_kinds (LogicalKind col))) (invalid (p ".logical_kind") "unsupported logical kind" []);
  check match namesake (pc_Name col) (S j) later with
        | Some k => Err (invalid (at_member i "columns" k ".name") "duplicate column" [])
        | None => Ok tt end;
  check match pc_Native col with
        | Some n => refuse_if (negb (unset (pn_Name n)) && unset (pn_Dialect n))
                      (invalid (p ".native.dialect") "must not be empty" [])
        | None => Ok tt end;
  check match pc_Native col with Some n => validateNative n (p ".native") | None => Ok tt end;
  check refuse_if (is_some (pc_Integer col) && negb (String.eqb (LogicalKind col) "integer"))
          (invalid (p ".integer") "facts do not match logical kind" []);
  check refuse_if (is_some (pc_Text col) && negb (String.eqb (LogicalKind col) "text"))
          (invalid (p ".text") "facts do not match logical kind" []);
  check refuse_if (is_some (pc_Decimal col) && negb (String.eqb (LogicalKind col) "decimal"))
          (invalid (p ".decimal") "facts do not match logical kind" []);
  check refuse_if match pc_Integer col with Some f => set_and (fun z => z <? 0)%Z (if_DisplayWidth f) | None => false end
          (invalid (p ".integer.display_width") "must not be negative" []);
  check refuse_if match pc_Text col with Some f => set_and (fun z => z <? 0)%Z (tf_Width f) | None => false end
          (invalid (p ".text.width") "must not be negative" []);
  check refuse_if match pc_Decimal col with
                  | Some f => (df_Precision f <=? 0)%Z
                              || set_and (fun z => (z <? 0) || (df_Precision f <? z))%Z (df_Scale f)
                  | None => false end
          (invalid (p ".decimal") "invalid precision or scale" []);
  check refuse_if (negb (one_of [""; "ALWAYS"; "BY DEFAULT"] (pc_Identity col)))
          (invalid (p ".identity") "unsupported identity generation" []);
  refuse_if (negb (one_of [""; "STORED"; "VIRTUAL"] (pc_GeneratedStorage col)))
    (invalid (p ".generated_storage") "unsupported generated storage" []).
Fixpoint validate_physical_columns (i j : nat) (l : list PhysicalColumn) : result unit :=
  match l with
  | [] => Ok tt
  | col :: l' => check validate_physical_column i j col l'; validate_physical_columns i (S j) l'
  end.
Definition column_set (l : list PhysicalColumn) : gset string := list_to_set (map pc_Name l).

(** ** Foreign references *)
(** The loop over all objects for one named [name], refusing a second. *)
Fixpoint sole_named (name : string) (l : list (QName * gset string)) (found : option (QName * gset string)) :
    option (QName * gset string) :=
  match l with
  | [] => found
  | (q, columns) :: l' =>
      if negb (String.eqb q.2 name) then sole_named name l' found
      else match found with Some _ => None | None => sole_named name l' (Some (q, columns)) end
  end.

Section Range.
Context {range : MapRange}.

(** The name the reference resolves to, and its columns when it does. *)
Definition resolveForeignReference (engine : EngineIdentity) (sourceSchema : string) (ref : ForeignReference)
    (objects : gmap QName (gset string)) : QName * option (gset string) :=
  let sqlite := String.eqb (en_Dialect engine) "sqlite" in
  let schema := if unset (rf_Schema ref) && sqlite
                then (if unset sourceSchema then "main" else sourceSchema) else rf_Schema ref in
  let q := (schema, rf_Object ref) in
  match objects !! q with
  | Some columns => (q, Some columns)
  | None =>
      match (if sqlite && String.eqb schema "main" then objects !! ("", rf_Object ref) else None) with
      | Some columns => (("", rf_Object ref), Some columns)
      | None =>
          if negb (unset (rf_Schema ref)) then (q, None)
          else if sqlite then (q, None)
          else match sole_named (rf_Object ref) (range_map objects) None with
               | Some (found, columns) => (found, Some columns)
               | None => (q, None)
               end
      end
  end.

(** ** Constraints *)
Definition known_columns (columns : gset string) (names : list string) : bool :=
  forallb (fun n => bool_decide (n ∈ columns)) names.
Definition validate_reference (engine : EngineIdentity) (i j : nat) (o : PhysicalObject)
    (objects : gmap QName (gset string)) (c : PhysicalConstraint) (r : ForeignReference) : result unit :=
  let p := at_member i "constraints" j in
  check refuse_if (unset (rf_Object r) || (length (rf_Columns r) =? 0))
          (invalid (p ".reference") "incomplete foreign reference" []);
  match (resolveForeignReference engine (po_Schema o) r objects).2 with
  | None => Err (invalid (p ".reference") "references unknown object" [])
  | Some targetColumns =>
      check refuse_if (negb (length (pk_Columns c) =? length (rf_Columns r)))
              (invalid (p ".reference.columns") "column count does not match foreign key" []);
      refuse_if (negb (known_columns targetColumns (rf_Columns r))) (invalid (p ".reference") "references unknown column" [])
  end.
Definition validate_constraint (engine : EngineIdentity) (i : nat) (o : PhysicalObject) (columns : gset string)
    (objects : gmap QName (gset string)) (j : nat) (c : PhysicalConstraint) (counts : gmap QName nat) :
    result (gmap QName nat) :=
  let p := at_member i "constraints" j in
  check refuse_if (negb (one_of constraint_kinds (pk_Kind c))) (invalid (p ".kind") "unsupported constraint kind" []);
  check refuse_if (negb (known_columns columns (pk_Columns c))) (invalid (p "") "references unknown column" []);
  let counts := if String.eqb (pk_Kind c) "primary_key"
                then <[po_QName o := S (default 0 (counts !! po_QName o))]> counts else counts in
  check refuse_if (String.eqb (pk_Kind c) "foreign_key" && negb (is_some (Reference c)))
          (invalid (p ".reference") "foreign key reference is required" []);
  check match Reference c with Some r => validate_reference engine i j o objects c r | None => Ok tt end;
  Ok counts.
Definition validate_constraint_name (i j : nat) (c : PhysicalConstraint) (names : gset string) : result (gset string) :=
  if unset (pk_Name c) then Ok names
  else check refuse_if (bool_decide (pk_Name c ∈ names))
               (invalid (at_member i "constraints" j ".name") "duplicate constraint name" []);
       Ok ({[ pk_Name c ]} ∪ names).

(** ** Indexes and exclusion constraints *)
Definition plain_part (part : IndexPart) : bool :=
  unset (ip_Direction part) && unset (ip_Nulls part) && unset (ip_Collation part) && unset (ip_OperatorClass part)
  && (ip_PrefixLength part =? 0)%Z.
Definition validate_part (p : string) (columns : gset string) (form : string) (part : IndexPart) : result unit :=
  check refuse_if (negb (unset (ip_Column part)) && negb (unset (ip_ExpressionSQL part)))
          (invalid p "column and expression are mutually exclusive" []);
  if String.eqb form "columns" then
    check refuse_if (unset (ip_Column part) || negb (unset (ip_ExpressionSQL part)) || negb (plain_part part))
            (invalid p "columns form requires plain column parts" []);
    refuse_if (negb (bool_decide (ip_Column part ∈ columns))) (invalid (p +:+ ".column") "references unknown column" [])
  else if String.eqb form "expressions" then
    refuse_if (unset (ip_ExpressionSQL part) || negb (plain_part part))
      (invalid p "expressions form requires plain expression parts" [])
  else if String.eqb form "keys" then
    check refuse_if (unset (ip_Column part) && unset (ip_ExpressionSQL part))
            (invalid p "key part must have column or expression" []);
    check refuse_if (negb (one_of [""; "ASC"; "DESC"] (ip_Direction part)))
            (invalid (p +:+ ".direction") "must be ASC or DESC" []);
    check refuse_if (negb (one_of [""; "FIRST"; "LAST"] (ip_Nulls part)))
            (invalid (p +:+ ".nulls") "must be FIRST or LAST" []);
    check refuse_if (ip_PrefixLength part <? 0)%Z (invalid (p +:+ ".prefix_length") "must not be negative" []);
    refuse_if (negb (unset (ip_Column part)) && negb (bool_decide (ip_Column part ∈ columns)))
      (invalid (p +:+ ".column") "references unknown column" [])
  else Ok tt.
Definition validate_physical_index (i : nat) (columns : gset string) (j : nat) (index : PhysicalIndex)
    (names : gset string) : result (gset string) :=
  let p := at_member i "indexes" j in
  check refuse_if (unset (pi_Name index)) (invalid (p ".name") "must not be empty" []);
  check refuse_if (negb (one_of ["columns"; "expressions"; "keys"] (KeyForm index)))
          (invalid (p ".key_form") "must be columns, expressions, or keys" []);
  check refuse_if (bool_decide (pi_Name index ∈ names)) (invalid (p ".name") "duplicate index name" []);
  check refuse_if (length (Parts index) =? 0) (invalid (p ".parts") "must not be empty" []);
  check checki (fun k part => validate_part (p (".parts[" +:+ NatItoa k +:+ "]")) columns (KeyForm index) part) 0 (Parts index);
  Ok ({[ pi_Name index ]} ∪ names).
Definition validate_physical_exclusion (i j : nat) (e : PhysicalExclusionConstraint) : result unit :=
  let p := at_member i "exclusion_constraints" j in
  check refuse_if (unset (px_Name e)) (invalid (p ".name") "must not be empty" []);
  check refuse_if (length (px_Elements e) =? 0) (invalid (p ".elements") "must not be empty" []);
  checki (fun k el => refuse_if (unset (pe_ExpressionSQL el))
                        (invalid (p (".elements[" +:+ NatItoa k +:+ "].expression_sql")) "must not be empty" []))
    0 (px_Elements e).

(** ** Objects *)
Record physical_state := MkPhysicalState {
  ps_seen : gset ObjectID; ps_names : gset QName; ps_columns : gmap QName (gset string); ps_counts : gmap QName nat }.
Definition validate_object (engine : EngineIdentity) (i : nat) (o : PhysicalObject) (st : physical_state) :
    result physical_state :=
  check refuse_if (unset (po_ID o)) (invalid (at_object i ".id") "must not be empty" []);
  check refuse_if (bool_decide (po_ID o ∈ ps_seen st)) (invalid (at_object i ".id") "duplicate object ID" []);
  check refuse_if (negb (one_of ["table"; "view"] (po_Kind o))) (invalid (at_object i ".kind") "must be table or view" []);
  check refuse_if (unset (po_Name o)) (invalid (at_object i ".name") "must not be empty" []);
  check refuse_if (bool_decide (po_QName o ∈ ps_names st)) (invalid (at_object i "") "duplicate qualified name" []);
  check validate_physical_columns i 0 (po_Columns o);
  let columns := column_set (po_Columns o) in
  let objectColumns := <[po_QName o := columns]> (ps_columns st) in
  do counts <- foldi (validate_constraint engine i o columns objectColumns) 0 (Constraints o) (ps_counts st);
  do _ <- foldi (validate_constraint_name i) 0 (Constraints o) ∅;
  do _ <- foldi (validate_physical_index i columns) 0 (po_Indexes o) ∅;
  check checki (validate_physical_exclusion i) 0 (po_Exclusions o);
  Ok (MkPhysicalState ({[ po_ID o ]} ∪ ps_seen st) ({[ po_QName o ]} ∪ ps_names st) objectColumns counts).
(** The first pass: the columns of every object, by name. *)
Definition object_columns (l : list PhysicalObject) : gmap QName (gset string) :=
  index_by po_QName (fun o => column_set (po_Columns o)) l ∅.
Definition validate_counts (counts : gmap QName nat) : result unit :=
  checki (fun _ e => refuse_if (1 <? e.2) (invalid "objects" "multiple primary keys for %s.%s" [AStr e.1.1; AStr e.1.2]))
    0 (range_map counts).
Definition ValidatePhysical (c : PhysicalCatalog) : result unit :=
  check refuse_if (negb (one_of dialects (en_Dialect (Engine c))))
          (invalid "engine.dialect" "unsupported dialect %q" [AStr (en_Dialect (Engine c))]);
  do st <- foldi (validate_object (Engine c)) 0 (Objects c) (MkPhysicalState ∅ ∅ (object_columns (Objects c)) ∅);
  validate_counts (ps_counts st).
End Range.

(** ** What a valid catalog is *)
Fixpoint physical_native_wf (n : PhysicalNative) : Prop :=
  match n with
  | MkPhysicalNative dialect _ name kind _ element =>
      dialect ∈ dialects /\ name <> "" /\ kind ∈ physical_native_kinds /\ (kind = "array" -> element <> None) /\
      match element with Some e => physical_native_wf e | None => True end
  end.
(** The facts about a column's type belong to its kind and are in range. *)
Definition facts_wf (col : PhysicalColumn) : Prop :=
  (forall f, pc_Integer col = Some f -> LogicalKind col = "integer" /\ forall z, if_DisplayWidth f = Some z -> (0 <= z)%Z) /\
  (forall f, pc_Text col = Some f -> LogicalKind col = "text" /\ forall z, tf_Width f = Some z -> (0 <= z)%Z) /\
  (forall f, pc_Decimal col = Some f -> LogicalKind col = "decimal" /\ (0 < df_Precision f)%Z /\
     forall z, df_Scale f = Some z -> (0 <= z <= df_Precision f)%Z).
Definition physical_column_wf (col : PhysicalColumn) : Prop :=
  pc_Name col <> "" /\ LogicalKind col ∈ logical_kinds /\ (forall n, pc_Native col = Some n -> physical_native_wf n) /\
  facts_wf col /\ pc_Identity col ∈ [""; "ALWAYS"; "BY DEFAULT"] /\ pc_GeneratedStorage col ∈ [""; "STORED"; "VIRTUAL"].

(** The object a reference names. SQLite defaults the schema to the source's
    and to "main", which unqualified objects are in; the other engines take the
    reference as it is or, without a schema, the only object of that name. *)
Definition reference_schema (engine : EngineIdentity) (sourceSchema : string) (ref : ForeignReference) : string :=
  if decide (rf_Schema ref = "" /\ en_Dialect engine = "sqlite")
  then (if decide (sourceSchema = "") then "main" else sourceSchema) else rf_Schema ref.
Definition targets (engine : EngineIdentity) (sourceSchema : string) (ref : ForeignReference) (names : list QName)
    (q : QName) : Prop :=
  let exact := (reference_schema engine sourceSchema ref, rf_Object ref) in
  q ∈ names /\
  (q = exact \/
   (exact ∉ names) /\
   (if decide (en_Dialect engine = "sqlite")
    then exact.1 = "main" /\ q = ("", rf_Object ref)
    else rf_Schema ref = "" /\ q.2 = rf_Object ref /\ (forall q', q' ∈ names -> q'.2 = rf_Object ref -> q' = q))).
Definition reference_wf (c : PhysicalCatalog) (o : PhysicalObject) (k : PhysicalConstraint) (r : ForeignReference) : Prop :=
  rf_Object r <> "" /\ rf_Columns r <> [] /\ length (pk_Columns k) = length (rf_Columns r) /\
  exists target, target ∈ Objects c /\
    targets (Engine c) (po_Schema o) r (map po_QName (Objects c)) (po_QName target) /\
    forall n, n ∈ rf_Columns r -> n ∈ map pc_Name (po_Columns target).
Definition physical_constraint_wf (c : PhysicalCatalog) (o : PhysicalObject) (k : PhysicalConstraint) : Prop :=
  pk_Kind k ∈ constraint_kinds /\ (forall n, n ∈ pk_Columns k -> n ∈ map pc_Name (po_Columns o)) /\
  (pk_Kind k = "foreign_key" -> Reference k <> None) /\ (forall r, Reference k = Some r -> reference_wf c o k r).
Definition part_wf (columns : list string) (form : string) (part : IndexPart) : Prop :=
  (ip_Column part = "" \/ ip_ExpressionSQL part = "") /\
  (form = "columns" -> ip_Column part <> "" /\ ip_ExpressionSQL part = "" /\ plain_part part = true /\ ip_Column part ∈ columns) /\
  (form = "expressions" -> ip_ExpressionSQL part <> "" /\ plain_part part = true) /\
  (form = "keys" -> (ip_Column part <> "" \/ ip_ExpressionSQL part <> "") /\
     ip_Direction part ∈ [""; "ASC"; "DESC"] /\ ip_Nulls part ∈ [""; "FIRST"; "LAST"] /\ (0 <= ip_PrefixLength part)%Z /\
     (ip_Column part <> "" -> ip_Column part ∈ columns)).
Definition physical_index_wf (columns : list string) (i : PhysicalIndex) : Prop :=
  pi_Name i <> "" /\ KeyForm i ∈ ["columns"; "expressions"; "keys"] /\ Parts i <> [] /\
  Forall (part_wf columns (KeyForm i)) (Parts i).
Definition physical_exclusion_wf (e : PhysicalExclusionConstraint) : Prop :=
  px_Name e <> "" /\ px_Elements e <> [] /\ Forall (fun el => pe_ExpressionSQL el <> "") (px_Elements e).
Definition stated_names (l : list PhysicalConstraint) : list string := base.filter (fun n => n <> "") (map pk_Name l).
Definition primary_keys (l : list PhysicalConstraint) : list PhysicalConstraint :=
  base.filter (fun k => pk_Kind k = "primary_key") l.
Definition object_wf (c : PhysicalCatalog) (o : PhysicalObject) : Prop :=
  po_ID o <> "" /\ po_Kind o ∈ ["table"; "view"] /\ po_Name o <> "" /\
  (forall j col, po_Columns o !! j = Some col -> pc_Ordinal col = Z.of_nat j) /\
  NoDup (map pc_Name (po_Columns o)) /\ Forall physical_column_wf (po_Columns o) /\
  Forall (physical_constraint_wf c o) (Constraints o) /\ NoDup (stated_names (Constraints o)) /\
  length (primary_keys (Constraints o)) <= 1 /\
  NoDup (map pi_Name (po_Indexes o)) /\ Forall (physical_index_wf (map pc_Name (po_Columns o))) (po_Indexes o) /\
  Forall physical_exclusion_wf (po_Exclusions o).
Definition physical_wf (c : PhysicalCatalog) : Prop :=
  en_Dialect (Engine c) ∈ dialects /\ NoDup (map po_ID (Objects c)) /\ NoDup (map po_QName (Objects c)) /\
  Forall (object_wf c) (Objects c).

(** ** Lemmas *)
Lemma one_of_in l s : one_of l s = true <-> s ∈ l.
Proof.
  unfold one_of. rewrite existsb_exists. setoid_rewrite String.eqb_eq. setoid_rewrite <- list_elem_of_In. naive_solver.
Qed.
Lemma none_of l s : negb (one_of l s) = false <-> s ∈ l.
Proof. rewrite negb_false_iff. apply one_of_in. Qed.
Lemma known_columns_ok columns names :
  negb (known_columns (list_to_set columns) names) = false <-> forall n, n ∈ names -> n ∈ columns.
Proof.
  rewrite negb_false_iff. unfold known_columns. rewrite forallb_forall. setoid_rewrite bool_decide_eq_true.
  setoid_rewrite <- list_elem_of_In. set_solver.
Qed.
Lemma set_and_false p o : set_and p o = false <-> forall z, o = Some z -> p z = false.
Proof. destruct o; naive_solver. Qed.
Lemma is_some_neq {A} (o : option A) : negb (is_some o) = false <-> o <> None.
Proof. destruct o; naive_solver. Qed.
Lemma physical_native_ind (P : PhysicalNative -> Prop) :
  (forall dialect schema name kind args element, (forall e, element = Some e -> P e) ->
     P (MkPhysicalNative dialect schema name kind args element)) ->
  forall n, P n.
Proof.
  intros H. fix IH 1. intros [dialect schema name kind args [e|]]; apply H; [intros e' [= <-]; apply IH|discriminate].
Qed.
Lemma validateNative_ok n p : validateNative n p = Ok tt <-> physical_native_wf n.
Proof.
  revert p. induction n as [dialect schema name kind args element IH] using physical_native_ind. intros p.
  cbn [validateNative physical_native_wf]. rewrite !check_ok, !refuse_if_ok, !none_of, !unset_false, andb_false_iff, is_some_neq, String.eqb_neq.
  assert (match element with Some e => validateNative e (p +:+ ".element") | None => Ok tt end = Ok tt <->
          match element with Some e => physical_native_wf e | None => True end) as ->.
  { destruct element as [e|]; [by apply IH|done]. }
  assert (dialect ∈ dialects -> dialect <> "") as Hd by (intros H ->; by apply one_of_in in H).
  destruct (decide (kind = "array")); tauto.
Qed.

Lemma namesake_none name k later : namesake name k later = None <-> name ∉ map pc_Name later.
Proof.
  revert k. induction later as [|c later IH]; intros k; simpl; [split; [intros _; apply not_elem_of_nil|done]|].
  destruct (String.eqb_spec (pc_Name c) name) as [<-|N]; [split; [done|]|rewrite IH].
  - intros H. destruct H. apply list_elem_of_here.
  - rewrite not_elem_of_cons. naive_solver.
Qed.
Lemma belongs {A} (o : option A) kind k :
  is_some o && negb (String.eqb k kind) = false <-> (forall f, o = Some f -> k = kind).
Proof. rewrite andb_false_iff, negb_false_iff, String.eqb_eq. destruct o; naive_solver. Qed.
Lemma validate_physical_column_ok i j col later :
  validate_physical_column i j col later = Ok tt <->
  pc_Ordinal col = Z.of_nat j /\ (pc_Name col ∉ map pc_Name later) /\ physical_column_wf col.
Proof.
  unfold validate_physical_column, physical_column_wf, facts_wf.
  rewrite !check_ok, !refuse_if_ok, !none_of, !belongs, negb_false_iff, unset_false, Z.eqb_eq.
  rewrite <- (namesake_none (pc_Name col) (S j) later).
  assert (match namesake (pc_Name col) (S j) later with
          | Some k => Err (invalid (at_member i "columns" k ".name") "duplicate column" []) | None => Ok tt end = Ok tt <->
          namesake (pc_Name col) (S j) later = None) as -> by (destruct (namesake _ _ _); naive_solver).
  assert (match pc_Native col with
     | Some n => refuse_if (negb (unset (pn_Name n)) && unset (pn_Dialect n))
                      (invalid (at_member i "columns" j ".native.dialect") "must not be empty" [])
     | None => Ok tt end = Ok tt /\
     match pc_Native col with Some n => validateNative n (at_member i "columns" j ".native") | None => Ok tt end = Ok tt <->
     (forall n, pc_Native col = Some n -> physical_native_wf n)) as Hn.
  { destruct (pc_Native col) as [n|]; [|naive_solver]. rewrite refuse_if_ok, validateNative_ok.
    split; [naive_solver|]. intros H. specialize (H n eq_refl). split; [|done].
    destruct n; simpl in *. destruct H as (Hd & _). apply andb_false_iff. right. apply unset_false. intros ->.
    by apply one_of_in in Hd. }
  assert (forall (o : option IntegerTypeFacts), match o with Some f => set_and (fun z => z <? 0)%Z (if_DisplayWidth f) | None => false end = false <->
     (forall f, o = Some f -> forall z, if_DisplayWidth f = Some z -> (0 <= z)%Z)) as ->.
  { intros [f|]; [rewrite set_and_false; setoid_rewrite Z.ltb_ge; naive_solver|naive_solver]. }
  assert (forall (o : option TextTypeFacts), match o with Some f => set_and (fun z => z <? 0)%Z (tf_Width f) | None => false end = false <->
     (forall f, o = Some f -> forall z, tf_Width f = Some z -> (0 <= z)%Z)) as ->.
  { intros [f|]; [rewrite set_and_false; setoid_rewrite Z.ltb_ge; naive_solver|naive_solver]. }
  assert (forall (o : option DecimalTypeFacts), match o with
       | Some f => (df_Precision f <=? 0)%Z || set_and (fun z => (z <? 0) || (df_Precision f <? z))%Z (df_Scale f)
       | None => false end = false <->
     (forall f, o = Some f -> (0 < df_Precision f)%Z /\ forall z, df_Scale f = Some z -> (0 <= z <= df_Precision f)%Z)) as ->.
  { intros [f|]; [|naive_solver]. rewrite orb_false_iff, Z.leb_gt, set_and_false.
    setoid_rewrite orb_false_iff. setoid_rewrite Z.ltb_ge. naive_solver. }
  rewrite <- Hn. clear. intuition eauto; naive_solver.
Qed.
Lemma validate_physical_columns_ok i j l :
  validate_physical_columns i j l = Ok tt <->
  (forall k col, l !! k = Some col -> pc_Ordinal col = Z.of_nat (j + k)) /\ NoDup (map pc_Name l) /\ Forall physical_column_wf l.
Proof.
  revert j. induction l as [|col l IH]; intros j; simpl.
  { split; [intros _|done]. split; [done|]. split; constructor. }
  rewrite check_ok, IH, validate_physical_column_ok, NoDup_cons, Forall_cons. split.
  - intros ((Ho & Hn & Hw) & H1 & H2 & H3). split_and!; try done. intros [|k] c; simpl.
    + intros [= <-]. by rewrite Nat.add_0_r.
    + rewrite <- Nat.add_succ_comm. apply H1.
  - intros (H1 & (Hn & H2) & Hw & H3). split_and!; try done.
    + rewrite <- (Nat.add_0_r j). by apply (H1 0).
    + intros k c Hk. rewrite Nat.add_succ_comm. by apply (H1 (S k)).
Qed.

(** ** References *)
Section Range2.
Context {range : MapRange}.

Lemma sole_named_found name (l : list (QName * gset string)) e :
  sole_named name l (Some e) = match base.filter (fun e => e.1.2 = name) l with [] => Some e | _ => None end.
Proof.
  induction l as [|[q columns] l IH]; simpl; [done|]. rewrite filter_cons. simpl.
  destruct (String.eqb_spec q.2 name), (decide (q.2 = name)); try done.
Qed.
Lemma sole_named_none name (l : list (QName * gset string)) :
  sole_named name l None = match base.filter (fun e => e.1.2 = name) l with [e] => Some e | _ => None end.
Proof.
  induction l as [|[q columns] l IH]; simpl; [done|]. rewrite filter_cons. simpl.
  destruct (String.eqb_spec q.2 name), (decide (q.2 = name)); simpl; try done.
  rewrite sole_named_found. by destruct (base.filter _ l).
Qed.
(** Which of two entries comes first does not matter: only a lone namesake is
    found, whatever the order of the range. *)
Lemma sole_named_ok (name : string) (m : gmap QName (gset string)) (q : QName) (columns : gset string) :
  sole_named name (range_map m) None = Some (q, columns) <->
  m !! q = Some columns /\ q.2 = name /\ (forall q', q' ∈ dom m -> q'.2 = name -> q' = q).
Proof.
  rewrite sole_named_none.
  assert (forall e, e ∈ base.filter (fun e : QName * gset string => e.1.2 = name) (range_map m) <->
                    e.1.2 = name /\ m !! e.1 = Some e.2) as Hf.
  { intros [q1 c1]. by rewrite list_elem_of_filter, elem_of_range. }
  assert (NoDup (base.filter (fun e : QName * gset string => e.1.2 = name) (range_map m))) as Hd.
  { apply NoDup_filter. eapply NoDup_fmap_1, NoDup_range. }
  destruct (base.filter _ _) as [|e [|e' l]].
  - split; [done|]. intros (H & E & _). assert ((q, columns) ∈ []) as Hx by (apply Hf; done). by apply not_elem_of_nil in Hx.
  - split.
    + intros [= ->]. destruct (proj1 (Hf (q, columns)) (list_elem_of_here _ _)) as [E H]. simpl in *. split_and!; [done..|].
      intros q' [c' Hq']%elem_of_dom E'. assert ((q', c') ∈ [(q, columns)]) as Hx by (apply Hf; done).
      apply list_elem_of_singleton in Hx. congruence.
    + intros (H & E & U). f_equal. assert ((q, columns) ∈ [e]) as Hx by (apply Hf; done). by apply list_elem_of_singleton in Hx.
  - split; [done|]. intros (H & E & U). exfalso.
    destruct (proj1 (Hf e) (list_elem_of_here _ _)) as [E1 H1].
    destruct (proj1 (Hf e') (list_elem_of_further _ _ _ (list_elem_of_here _ _))) as [E2 H2].
    assert (e.1 = q) as X1 by (apply U; [apply elem_of_dom; eauto|done]).
    assert (e'.1 = q) as X2 by (apply U; [apply elem_of_dom; eauto|done]).
    apply NoDup_cons in Hd as [Hd _]. apply Hd. destruct e, e'. simpl in *. subst. rewrite H1 in H2. injection H2 as ->.
    apply list_elem_of_here.
Qed.

Lemma resolve_sqlite (engine : EngineIdentity) (source : string) (ref : ForeignReference) (m : gmap QName (gset string)) (q : QName)
    (columns : gset string) :
  en_Dialect engine = "sqlite" ->
  resolveForeignReference engine source ref m = (q, Some columns) <->
  let exact := (reference_schema engine source ref, rf_Object ref) in
  m !! q = Some columns /\ (q = exact \/ m !! exact = None /\ exact.1 = "main" /\ q = ("", rf_Object ref)).
Proof.
  intros Ed. unfold resolveForeignReference. rewrite Ed, andb_true_r. simpl.
  assert ((if unset (rf_Schema ref) then if unset source then "main" else source else rf_Schema ref) = reference_schema engine source ref) as ->.
  { unfold reference_schema, unset. destruct (decide (rf_Schema ref = "" /\ en_Dialect engine = "sqlite")) as [[-> _]|N].
    - simpl. destruct (decide (source = "")), (String.eqb_spec source ""); congruence.
    - destruct (String.eqb_spec (rf_Schema ref) ""); [by destruct N|done]. }
  set (schema := reference_schema engine source ref).
  destruct (m !! (schema, rf_Object ref)) as [c|] eqn:E.
  { split; [intros [= <- <-]; split; [done|by left]|intros [Hq [->|[? _]]]; congruence]. }
  destruct (String.eqb_spec schema "main") as [Es|N].
  - destruct (m !! ("", rf_Object ref)) as [c|] eqn:E2.
    + split; [intros [= <- <-]; split; [done|by right]|intros [Hq [->|(_ & _ & ->)]]; congruence].
    + destruct (negb (unset (rf_Schema ref))); (split; [done|intros [Hq [->|(_ & _ & ->)]]; congruence]).
  - destruct (negb (unset (rf_Schema ref))); (split; [done|intros [Hq [->|(_ & ? & ->)]]; congruence]).
Qed.
Lemma resolve_other (engine : EngineIdentity) (source : string) (ref : ForeignReference) (m : gmap QName (gset string)) (q : QName)
    (columns : gset string) :
  en_Dialect engine <> "sqlite" ->
  resolveForeignReference engine source ref m = (q, Some columns) <->
  let exact := (reference_schema engine source ref, rf_Object ref) in
  m !! q = Some columns /\
  (q = exact \/ m !! exact = None /\ rf_Schema ref = "" /\ q.2 = rf_Object ref /\
                (forall q', q' ∈ dom m -> q'.2 = rf_Object ref -> q' = q)).
Proof.
  intros Nd. unfold resolveForeignReference. rewrite (proj2 (String.eqb_neq _ _) Nd), andb_false_r. simpl.
  assert (reference_schema engine source ref = rf_Schema ref) as ->.
  { unfold reference_schema. by destruct (decide (rf_Schema ref = "" /\ en_Dialect engine = "sqlite")) as [[_ ?]|_]. }
  destruct (m !! (rf_Schema ref, rf_Object ref)) as [c|] eqn:E.
  { split; [intros [= <- <-]; split; [done|by left]|intros [Hq [->|[? _]]]; congruence]. }
  destruct (unset (rf_Schema ref)) eqn:Eu; simpl.
  - apply unset_true in Eu. destruct (sole_named (rf_Object ref) (range_map m) None) as [[found c]|] eqn:Ef.
    + apply sole_named_ok in Ef as (H & E2 & U). split; [intros [= <- <-]; split; [done|by right]|].
      intros [Hq [->|(_ & _ & E3 & _)]]; [congruence|]. assert (q = found) as -> by (apply U; [apply elem_of_dom; eauto|done]). congruence.
    + split; [done|]. intros [Hq [->|(_ & _ & E3 & U)]]; [congruence|].
      assert (sole_named (rf_Object ref) (range_map m) None = Some (q, columns)); [by apply sole_named_ok|congruence].
  - apply unset_false in Eu. split; [done|]. intros [Hq [->|(_ & ? & _)]]; congruence.
Qed.
Lemma resolve_exact (engine : EngineIdentity) (source : string) (ref : ForeignReference) (m : gmap QName (gset string))
    (names : list QName) (q : QName) (columns : gset string) :
  (forall q : QName, q ∈ names <-> q ∈ dom m) ->
  resolveForeignReference engine source ref m = (q, Some columns) <->
  targets engine source ref names q /\ m !! q = Some columns.
Proof.
  intros Hm. unfold targets.
  assert (forall q : QName, (q ∉ names) <-> m !! q = None) as Hn by (intros x; by rewrite Hm, not_elem_of_dom).
  assert (m !! q = Some columns -> q ∈ names) as Hq by (intros E; apply Hm, elem_of_dom; eauto).
  destruct (decide (en_Dialect engine = "sqlite")) as [Ed|Nd].
  - rewrite (resolve_sqlite _ _ _ _ _ _ Ed), Hn. cbv zeta. tauto.
  - rewrite (resolve_other _ _ _ _ _ _ Nd), Hn. cbv zeta. setoid_rewrite Hm in Hq. setoid_rewrite Hm. tauto.
Qed.
Lemma resolveForeignReference_ok (engine : EngineIdentity) (source : string) (ref : ForeignReference) (m : gmap QName (gset string))
    (names : list QName) (columns : gset string) :
  (forall q : QName, q ∈ names <-> q ∈ dom m) ->
  (resolveForeignReference engine source ref m).2 = Some columns <->
  exists q, targets engine source ref names q /\ m !! q = Some columns.
Proof.
  intros Hm. setoid_rewrite <- (resolve_exact engine source ref m names _ _ Hm).
  destruct (resolveForeignReference engine source ref m) as [q c]. simpl. split; [intros ->; eauto|by intros (q' & [= _ ->])].
Qed.
End Range2.

(** ** Objects *)
Lemma foldi_named {A} (name : A -> string) (stated : A -> bool) (dup : nat -> A -> error) i (l : list A) (seen s : gset string) :
  foldi (fun i x names => if stated x then check refuse_if (bool_decide (name x ∈ names)) (dup i x); Ok ({[ name x ]} ∪ names)
                          else Ok names) i l seen = Ok s <->
  (NoDup (map name (base.filter (fun x => stated x = true) l)) /\
   Forall (fun x => stated x = true -> name x ∉ seen) l) /\
  s = list_to_set (map name (base.filter (fun x => stated x = true) l)) ∪ seen.
Proof.
  revert i seen. induction l as [|x l IH]; intros i seen; simpl.
  { split; [intros [= <-]; split; [split; constructor|set_solver]|intros (_ & ->); f_equal; set_solver]. }
  rewrite filter_cons. destruct (stated x) eqn:E; simpl.
  - rewrite Forall_cons, NoDup_cons. unfold refuse_if. case_bool_decide as Hin; simpl; [naive_solver|].
    rewrite IH, !Forall_forall, list_elem_of_In, in_map_iff. setoid_rewrite <- list_elem_of_In.
    setoid_rewrite list_elem_of_filter. split.
    + intros [[H1 H2] ->]. split; [|set_solver]. split_and!; [|done|done|].
      * intros (y & Ey & Hs & Hy). specialize (H2 y Hy Hs). set_solver.
      * intros y Hy Hs. specialize (H2 y Hy Hs). set_solver.
    + intros [([Hn H1] & _ & H2) ->]. split; [|set_solver]. split; [done|]. intros y Hy Hs.
      specialize (H2 y Hy Hs). assert (name y <> name x) by (intros Ey; apply Hn; eauto). set_solver.
  - rewrite IH, Forall_cons. destruct (decide (false = true)); [done|]. naive_solver.
Qed.

Lemma stated_names_map l : stated_names l = map pk_Name (base.filter (fun k => negb (unset (pk_Name k)) = true) l).
Proof.
  unfold stated_names. induction l as [|k l IH]; [done|]. simpl. rewrite !filter_cons, IH.
  destruct (decide (pk_Name k <> "")) as [H|H]; destruct (decide (negb (unset (pk_Name k)) = true)) as [H2|H2]; try done.
  - apply unset_false in H. by rewrite H in H2.
  - apply negb_true_iff, unset_false in H2. done.
Qed.
Lemma constraint_names_ok i l :
  (exists s, foldi (validate_constraint_name i) 0 l ∅ = Ok s) <-> NoDup (stated_names l).
Proof.
  rewrite stated_names_map.
  rewrite (foldi_ext _ (fun j k names => if negb (unset (pk_Name k)) then
     check refuse_if (bool_decide (pk_Name k ∈ names)) (invalid (at_member i "constraints" j ".name") "duplicate constraint name" []);
     Ok ({[ pk_Name k ]} ∪ names) else Ok names)).
  2:{ intros j k names. unfold validate_constraint_name. by destruct (unset (pk_Name k)). }
  setoid_rewrite (foldi_named pk_Name (fun k => negb (unset (pk_Name k)))
    (fun j _ => invalid (at_member i "constraints" j ".name") "duplicate constraint name" [])).
  split; [by intros (s & [H _] & _)|]. intros H. eexists. split; [|done]. split; [done|].
  apply Forall_forall. set_solver.
Qed.

#[local] Arguments one_of : simpl never.
Lemma validate_part_ok p columns form part :
  form ∈ ["columns"; "expressions"; "keys"] ->
  validate_part p (list_to_set columns) form part = Ok tt <-> part_wf columns form part.
Proof.
  intros Hf. unfold validate_part, part_wf. rewrite check_ok, refuse_if_ok, andb_false_iff, !negb_false_iff, !unset_true.
  repeat setoid_rewrite elem_of_cons in Hf. destruct Hf as [->|[->|[->|Hf]]]; simpl; [| | |by apply not_elem_of_nil in Hf];
    rewrite ?check_ok, ?refuse_if_ok, ?orb_false_iff, ?negb_false_iff, ?unset_false, ?unset_true, ?none_of,
      ?bool_decide_eq_true, ?elem_of_list_to_set, ?Z.ltb_ge, ?andb_false_iff, ?negb_false_iff, ?unset_true, ?unset_false.
  - intuition (discriminate || auto).
  - intuition (discriminate || auto).
  - rewrite bool_decide_eq_true, elem_of_list_to_set, !one_of_in. destruct (decide (ip_Column part = "")); intuition (discriminate || auto).
Qed.
Lemma parts_ok (p : string -> string) columns form l :
  form ∈ ["columns"; "expressions"; "keys"] ->
  checki (fun k part => validate_part (p (".parts[" +:+ NatItoa k +:+ "]")) (list_to_set columns) form part) 0 l = Ok tt <->
  Forall (part_wf columns form) l.
Proof. intros H. apply checki_Forall. intros i x. by apply validate_part_ok. Qed.
Lemma indexes_ok i columns l :
  (exists s, foldi (validate_physical_index i (list_to_set columns)) 0 l ∅ = Ok s) <->
  NoDup (map pi_Name l) /\ Forall (physical_index_wf columns) l.
Proof.
  setoid_rewrite (foldi_distinct pi_Name (physical_index_wf columns)).
  - split; [naive_solver|]. intros [H1 H2]. eexists. split; [|done]. split_and!; [done..|]. apply Forall_forall. set_solver.
  - intros j x seen s1. unfold validate_physical_index, physical_index_wf.
    rewrite !check_ok, !refuse_if_ok, unset_false, none_of, length_nil, bool_decide_eq_false.
    split.
    + intros (H1 & H2 & H3 & H4 & H5 & [= <-]). rewrite parts_ok in H5 by done. naive_solver.
    + intros ((H1 & H2 & H3 & H4) & H5 & ->). rewrite parts_ok by done. naive_solver.
Qed.
Lemma validate_physical_exclusion_ok i j e : validate_physical_exclusion i j e = Ok tt <-> physical_exclusion_wf e.
Proof.
  unfold validate_physical_exclusion, physical_exclusion_wf. rewrite !check_ok, !refuse_if_ok, unset_false, length_nil.
  rewrite (checki_Forall _ (fun el => pe_ExpressionSQL el <> "")); [done|]. intros k el.
  rewrite refuse_if_ok. apply unset_false.
Qed.

Section Catalog.
Context {range : MapRange}.

Definition reference_local (engine : EngineIdentity) (m : gmap QName (gset string)) (o : PhysicalObject)
    (k : PhysicalConstraint) (r : ForeignReference) : Prop :=
  rf_Object r <> "" /\ rf_Columns r <> [] /\
  exists columns, (resolveForeignReference engine (po_Schema o) r m).2 = Some columns /\
    length (pk_Columns k) = length (rf_Columns r) /\ forall n, n ∈ rf_Columns r -> n ∈ columns.
Definition constraint_local engine m (o : PhysicalObject) (k : PhysicalConstraint) : Prop :=
  pk_Kind k ∈ constraint_kinds /\ (forall n, n ∈ pk_Columns k -> n ∈ map pc_Name (po_Columns o)) /\
  (pk_Kind k = "foreign_key" -> Reference k <> None) /\ (forall r, Reference k = Some r -> reference_local engine m o k r).
Lemma validate_reference_ok engine i j o m k r :
  validate_reference engine i j o m k r = Ok tt <-> reference_local engine m o k r.
Proof.
  unfold validate_reference, reference_local. rewrite check_ok, refuse_if_ok, orb_false_iff, unset_false, length_nil.
  destruct (resolveForeignReference engine (po_Schema o) r m).2 as [columns|]; [|naive_solver].
  rewrite check_ok, !refuse_if_ok, negb_false_iff, Nat.eqb_eq.
  assert (negb (known_columns columns (rf_Columns r)) = false <-> (forall n, n ∈ rf_Columns r -> n ∈ columns)) as ->; [|naive_solver].
  rewrite negb_false_iff. unfold known_columns. rewrite forallb_forall. setoid_rewrite bool_decide_eq_true.
  by setoid_rewrite <- list_elem_of_In.
Qed.
(** One primary key more for an object's name. *)
Definition counted (o : PhysicalObject) (k : PhysicalConstraint) (counts : gmap QName nat) : gmap QName nat :=
  if String.eqb (pk_Kind k) "primary_key" then <[po_QName o := S (default 0 (counts !! po_QName o))]> counts else counts.
Lemma validate_constraint_ok engine i o m j k counts counts' :
  validate_constraint engine i o (column_set (po_Columns o)) m j k counts = Ok counts' <->
  constraint_local engine m o k /\ counts' = counted o k counts.
Proof.
  unfold validate_constraint, constraint_local, counted, column_set.
  rewrite !check_ok, !refuse_if_ok, none_of, known_columns_ok, andb_false_iff, String.eqb_neq, is_some_neq.
  assert (match Reference k with Some r => validate_reference engine i j o m k r | None => Ok tt end = Ok tt <->
    (forall r, Reference k = Some r -> reference_local engine m o k r)) as ->.
  { destruct (Reference k) as [r|]; [rewrite validate_reference_ok; naive_solver|naive_solver]. }
  destruct (decide (pk_Kind k = "foreign_key")); split; [naive_solver| |naive_solver|].
  - intros ((H1 & H2 & H3 & H4) & ->). split_and!; auto.
  - intros ((H1 & H2 & H3 & H4) & ->). split_and!; auto.
Qed.
Definition counts_of (o : PhysicalObject) (l : list PhysicalConstraint) (counts : gmap QName nat) : gmap QName nat :=
  fold_left (fun counts k => counted o k counts) l counts.
Lemma constraints_loop_ok engine i o m j l counts counts' :
  foldi (validate_constraint engine i o (column_set (po_Columns o)) m) j l counts = Ok counts' <->
  Forall (constraint_local engine m o) l /\ counts' = counts_of o l counts.
Proof.
  revert j counts. induction l as [|k l IH]; intros j counts; simpl.
  - split; [intros [= <-]; split; [constructor|done]|by intros [_ ->]].
  - rewrite do_ok, Forall_cons. setoid_rewrite validate_constraint_ok. setoid_rewrite IH. naive_solver.
Qed.
Lemma counts_of_lookup o l counts q :
  counts_of o l counts !! q =
  if decide (q = po_QName o /\ primary_keys l <> []) then Some (default 0 (counts !! q) + length (primary_keys l)) else counts !! q.
Proof.
  revert counts. induction l as [|k l IH]; intros counts; simpl.
  { destruct (decide _) as [[_ H]|]; done. }
  rewrite IH. unfold primary_keys, counted. rewrite !filter_cons.
  destruct (String.eqb_spec (pk_Kind k) "primary_key") as [E|N].
  - destruct (decide (pk_Kind k = "primary_key")); [|done]. destruct (decide (q = po_QName o)) as [->|Nq].
    + rewrite lookup_insert_eq. simpl. set (l' := base.filter _ l).
      destruct (decide (po_QName o = po_QName o /\ k :: l' <> [])) as [_|[]]; [|done].
      destruct (decide (po_QName o = po_QName o /\ l' <> [])) as [_|H]; f_equal; [lia|].
      destruct l'; simpl; [lia|]. by destruct H.
    + rewrite lookup_insert_ne by done. destruct (decide _) as [[? _]|_]; [done|]. destruct (decide _) as [[? _]|_]; done.
  - by destruct (decide (pk_Kind k = "primary_key")).
Qed.

Definition object_local (engine : EngineIdentity) (m : gmap QName (gset string)) (o : PhysicalObject) : Prop :=
  po_ID o <> "" /\ po_Kind o ∈ ["table"; "view"] /\ po_Name o <> "" /\
  (forall j col, po_Columns o !! j = Some col -> pc_Ordinal col = Z.of_nat j) /\
  NoDup (map pc_Name (po_Columns o)) /\ Forall physical_column_wf (po_Columns o) /\
  Forall (constraint_local engine m o) (Constraints o) /\ NoDup (stated_names (Constraints o)) /\
  NoDup (map pi_Name (po_Indexes o)) /\ Forall (physical_index_wf (map pc_Name (po_Columns o))) (po_Indexes o) /\
  Forall physical_exclusion_wf (po_Exclusions o).
Definition object_next (o : PhysicalObject) (st : physical_state) : physical_state :=
  MkPhysicalState ({[ po_ID o ]} ∪ ps_seen st) ({[ po_QName o ]} ∪ ps_names st)
    (<[po_QName o := column_set (po_Columns o)]> (ps_columns st)) (counts_of o (Constraints o) (ps_counts st)).
Lemma validate_object_ok engine i o st st' :
  validate_object engine i o st = Ok st' <->
  (po_ID o ∉ ps_seen st) /\ (po_QName o ∉ ps_names st) /\
  object_local engine (<[po_QName o := column_set (po_Columns o)]> (ps_columns st)) o /\ st' = object_next o st.
Proof.
  unfold validate_object, object_local, object_next.
  rewrite !check_ok, !refuse_if_ok, !unset_false, none_of, !bool_decide_eq_false, validate_physical_columns_ok. simpl.
  rewrite do_ok. setoid_rewrite constraints_loop_ok.
  assert (forall (Q : result physical_state), (exists x, foldi (validate_constraint_name i) 0 (Constraints o) ∅ = Ok x /\
     match foldi (validate_physical_index i (column_set (po_Columns o))) 0 (po_Indexes o) ∅ with Ok _ => Q | Err e => Err e end = Ok st') <->
     NoDup (stated_names (Constraints o)) /\ NoDup (map pi_Name (po_Indexes o)) /\
     Forall (physical_index_wf (map pc_Name (po_Columns o))) (po_Indexes o) /\ Q = Ok st') as HQ.
  { intros Q. rewrite <- (constraint_names_ok i). setoid_rewrite do_ok.
    pose proof (indexes_ok i (map pc_Name (po_Columns o)) (po_Indexes o)) as Hi. unfold column_set. naive_solver. }
  split.
  - intros (H1 & H2 & H3 & H4 & H5 & H6 & counts & (H7 & ->) & H). apply do_ok in H. apply HQ in H as (H8 & H9 & H10 & H11).
    apply check_ok in H11 as [H11 [= <-]]. rewrite (checki_Forall _ physical_exclusion_wf) in H11 by (intros; apply validate_physical_exclusion_ok).
    tauto.
  - intros (H2 & H5 & (H1 & H3 & H4 & Ho & Hn & Hw & H7 & H8 & H9 & H10 & H11) & ->). split_and!; try done.
    eexists. split; [done|]. apply do_ok, HQ. split_and!; try done. apply check_ok. split; [|done].
    apply (checki_Forall _ physical_exclusion_wf); [intros; apply validate_physical_exclusion_ok|done].
Qed.
Lemma objects_loop_names engine i l st st' :
  foldi (validate_object engine) i l st = Ok st' ->
  NoDup (map po_QName l) /\ Forall (fun o => po_QName o ∉ ps_names st) l.
Proof.
  revert i st. induction l as [|o l IH]; intros i st; simpl; [repeat constructor|].
  intros (st1 & (_ & Hn & _ & ->)%validate_object_ok & [H1 H2]%IH)%do_ok. simpl in H2. rewrite Forall_forall in H2.
  split.
  - constructor; [|done]. intros (o' & E & Ho)%list_elem_of_fmap. specialize (H2 o' Ho).
    rewrite not_elem_of_union, not_elem_of_singleton in H2. destruct H2. congruence.
  - constructor; [done|]. apply Forall_forall. intros o' Ho. specialize (H2 o' Ho).
    rewrite not_elem_of_union in H2. tauto.
Qed.
Definition objects_next (l : list PhysicalObject) (st : physical_state) : physical_state :=
  fold_left (fun st o => object_next o st) l st.
Lemma objects_loop_ok engine i l st st' :
  (forall o, o ∈ l -> ps_columns st !! po_QName o = Some (column_set (po_Columns o))) ->
  foldi (validate_object engine) i l st = Ok st' <->
  (NoDup (map po_ID l) /\ Forall (fun o => po_ID o ∉ ps_seen st) l) /\
  (NoDup (map po_QName l) /\ Forall (fun o => po_QName o ∉ ps_names st) l) /\
  Forall (object_local engine (ps_columns st)) l /\ st' = objects_next l st.
Proof.
  revert i st. induction l as [|o l IH]; intros i st Hm; simpl.
  { split; [intros [= <-]; repeat constructor|by intros (_ & _ & _ & ->)]. }
  assert (<[po_QName o := column_set (po_Columns o)]> (ps_columns st) = ps_columns st) as Em.
  { apply insert_id, Hm, list_elem_of_here. }
  rewrite do_ok. setoid_rewrite validate_object_ok. rewrite Em.
  assert (forall o', o' ∈ l -> ps_columns (object_next o st) !! po_QName o' = Some (column_set (po_Columns o'))) as Hm'.
  { intros o' Ho. simpl. rewrite Em. apply Hm. by apply list_elem_of_further. }
  pose proof (IH (S i) (object_next o st) Hm') as IH'. simpl in IH'. rewrite Em in IH'.
  pose proof (Forall_fresh po_ID o l (ps_seen st)) as Hd1. pose proof (Forall_fresh po_QName o l (ps_names st)) as Hd2.
  rewrite !NoDup_cons, !Forall_cons. split.
  - intros (st1 & (H1 & H2 & H3 & ->) & H4). apply IH' in H4. tauto.
  - intros H. exists (object_next o st). split; [tauto|]. apply IH'. tauto.
Qed.

Lemma object_columns_lookup l q (columns : gset string) :
  NoDup (map po_QName l) ->
  object_columns l !! q = Some columns <-> exists o, o ∈ l /\ q = po_QName o /\ columns = column_set (po_Columns o).
Proof. apply index_by_lookup. Qed.
Lemma objects_next_counts l st q n :
  NoDup (map po_QName l) -> (forall o, o ∈ l -> ps_counts st !! po_QName o = None) ->
  ps_counts (objects_next l st) !! q = Some n <->
  ps_counts st !! q = Some n \/
  exists o, o ∈ l /\ q = po_QName o /\ primary_keys (Constraints o) <> [] /\ n = length (primary_keys (Constraints o)).
Proof.
  revert st. induction l as [|o l IH]; intros st; simpl.
  { intros _ _. split; [by left|]. intros [?|(o & Ho & _)]; [done|by apply not_elem_of_nil in Ho]. }
  intros [Hn Hd]%NoDup_cons Hf. unfold objects_next in IH |- *. simpl. rewrite IH.
  - simpl. rewrite counts_of_lookup. setoid_rewrite elem_of_cons. pose proof (Hf o (list_elem_of_here _ _)) as Ho.
    destruct (decide (q = po_QName o /\ primary_keys (Constraints o) <> [])) as [[-> Hp]|N].
    + rewrite Ho. simpl. split.
      * intros [[= <-]|(o' & Hi & E & H)]; [right; exists o; split_and!; [by left|done..]|].
        right. exists o'. destruct H. split_and!; [by right|done..].
      * intros [?|(o' & [->|Hi] & E & H1 & ->)]; [done|by left|]. destruct Hn. rewrite E. by apply list_elem_of_fmap_2.
    + split.
      * intros [?|(o' & Hi & H)]; [by left|]. right. exists o'. split; [by right|done].
      * intros [?|(o' & [->|Hi] & E & H1 & ->)]; [by left|by destruct N|]. right. by exists o'.
  - done.
  - intros o' Hi. simpl. rewrite counts_of_lookup. destruct (decide _) as [[E _]|_].
    + destruct Hn. rewrite <- E. by apply list_elem_of_fmap_2.
    + apply Hf. by apply list_elem_of_further.
Qed.
Lemma validate_counts_ok counts :
  validate_counts counts = Ok tt <-> (forall q n, counts !! q = Some n -> n <= 1).
Proof.
  unfold validate_counts. rewrite (checki_Forall _ (fun e : QName * nat => e.2 <= 1)).
  2:{ intros _ [q n]. rewrite refuse_if_ok. apply Nat.ltb_ge. }
  rewrite Forall_forall. split.
  - intros H q n E. apply (H (q, n)). by apply elem_of_range.
  - intros H [q n] E%elem_of_range. by apply (H q n).
Qed.

Lemma reference_catalog c o k r :
  NoDup (map po_QName (Objects c)) ->
  reference_local (Engine c) (object_columns (Objects c)) o k r <-> reference_wf c o k r.
Proof.
  intros Hd. unfold reference_local, reference_wf.
  assert (forall q : QName, q ∈ map po_QName (Objects c) <-> q ∈ dom (object_columns (Objects c))) as Hdom.
  { intros q. rewrite elem_of_dom. unfold is_Some. setoid_rewrite (object_columns_lookup _ _ _ Hd).
    rewrite list_elem_of_fmap. split; [intros (o' & -> & Ho)|intros (cs & o' & Ho & -> & _)]; eauto. }
  setoid_rewrite (resolveForeignReference_ok (Engine c) (po_Schema o) r _ _ _ Hdom).
  setoid_rewrite (object_columns_lookup _ _ _ Hd). split.
  - intros (H1 & H2 & columns & (q & Ht & target & Hi & -> & ->) & H3 & H4). split_and!; try done.
    exists target. split_and!; try done. intros n Hn%H4. unfold column_set in Hn. by apply elem_of_list_to_set in Hn.
  - intros (H1 & H2 & H3 & target & Hi & Ht & H4). split_and!; try done.
    exists (column_set (po_Columns target)). split_and!; [by eauto 8|done|].
    intros n Hn%H4. unfold column_set. by apply elem_of_list_to_set.
Qed.
Lemma object_catalog c o :
  NoDup (map po_QName (Objects c)) ->
  object_local (Engine c) (object_columns (Objects c)) o /\ length (primary_keys (Constraints o)) <= 1 <-> object_wf c o.
Proof.
  intros Hd. unfold object_local, object_wf, constraint_local, physical_constraint_wf.
  setoid_rewrite (reference_catalog c o _ _ Hd). tauto.
Qed.

Lemma ValidatePhysical_ok c : ValidatePhysical c = Ok tt <-> physical_wf c.
Proof.
  unfold ValidatePhysical, physical_wf. rewrite check_ok, refuse_if_ok, none_of, do_ok. setoid_rewrite validate_counts_ok.
  set (st := MkPhysicalState ∅ ∅ (object_columns (Objects c)) ∅).
  assert (NoDup (map po_QName (Objects c)) -> forall st', foldi (validate_object (Engine c)) 0 (Objects c) st = Ok st' <->
    NoDup (map po_ID (Objects c)) /\ Forall (object_local (Engine c) (object_columns (Objects c))) (Objects c) /\
    st' = objects_next (Objects c) st) as Hl.
  { intros Hd st'. rewrite objects_loop_ok.
    - simpl. assert (forall A (f : PhysicalObject -> A) `{Countable A}, Forall (fun o => f o ∉ (∅ : gset A)) (Objects c)) as He
        by (intros; apply Forall_forall; intros; apply not_elem_of_empty).
      pose proof (He _ po_ID _ _). pose proof (He _ po_QName _ _). tauto.
    - intros o Ho. simpl. apply object_columns_lookup; [done|]. eauto. }
  split.
  - intros (Hd & st' & Hf & Hc). destruct (objects_loop_names _ _ _ _ _ Hf) as [Hn _].
    apply (Hl Hn) in Hf as (H1 & H2 & ->). split_and!; try done. rewrite Forall_forall in H2 |- *. intros o Ho.
    apply object_catalog; [done|]. split; [auto|]. destruct (decide (primary_keys (Constraints o) = [])) as [->|Hp]; [simpl; lia|].
    apply (Hc (po_QName o)). apply objects_next_counts; [done|done|]. right. eauto.
  - intros (Hd & H1 & Hn & H2). split; [done|]. exists (objects_next (Objects c) st). rewrite Forall_forall in H2. split.
    + apply (Hl Hn). split_and!; try done. apply Forall_forall. intros o Ho. by apply object_catalog, H2.
    + intros q n E. apply objects_next_counts in E as [?|(o & Ho & _ & _ & ->)]; [done| |done|done].
      by apply (H2 o Ho).
Qed.
End Catalog.
