(* ===== verification/CompilerRound.v ===== *)
(** * CompilerRound: the theorems of [CompilerIR] and [CompilerPhysical]

    Valid descriptors survive the trip through the catalog, the catalog made
    of them is valid exactly when its objects are named apart and its foreign
    keys resolve, and identities follow their objects. *)

From S2P Require Import Prelude GoText GoSort Schema TableValidate Sha256 CompilerIR CompilerPhysical.
Open Scope string_scope.
Open Scope list_scope.
Open Scope nat_scope.

(** ** What the catalog keeps of a descriptor: all but the Go names *)
Definition plain_column (c : ColumnDef) : ColumnDef :=
  MkColumn (Column_Name c) (Column_Type c) (Column_Nullable c) (Column_Default c) None (Column_Collation c)
    (GeneratedExpression c) (Column_GeneratedStorage c) (Identity c) (Hidden c) (NativeType c).
Definition plain (t : TableDef) : TableDef :=
  MkTable (Schema t) (Name t) (EffectiveKind t) (Operations t) "" (map plain_column (Columns t)) (PrimaryKey t) (Strict t)
    (WithoutRowID t) (PrimaryKeyAutoincrement t) (PrimaryKeyOnConflict t) (VirtualTableModule t)
    (VirtualTableModuleArguments t) (UniqueConstraints t) (Checks t) (ExclusionConstraints t) (Indexes t) (ForeignKeys t).
Definition table_less : TableDef -> TableDef -> bool := then_by TableKind (then_by Schema (by_key Name)).

Lemma nativeDef_nativeType n : nativeDef (nativeType n) = n.
Proof.
  induction n as [dialect schema name kind args element IH] using native_ind. simpl. f_equal.
  destruct element as [e|]; [|done]. by rewrite (IH e eq_refl).
Qed.
Lemma column_type_back object virtual i col :
  column_wf virtual col ->
  exists t, Column_Type col = Some t /\ column_type_of object (physical_column i col) = (t, []).
Proof.
  intros (_ & (t & E & Ht & Hn) & _). exists t. split; [done|]. unfold column_type_of, physical_column. rewrite E. simpl.
  destruct t as [|u w z| |w f| | | | |p [s|] u z| |]; simpl in *; try done.
  - by destruct Ht as (_ & s & ? & _).
  - destruct (NativeType col); simpl; [done|by destruct Hn].
Qed.
Lemma column_back object virtual i col :
  column_wf virtual col -> column_def object (physical_column i col) = plain_column col.
Proof.
  intros H. destruct (column_type_back object virtual i col H) as (t & E & Et). unfold column_def, plain_column.
  rewrite Et, E. simpl. f_equal. destruct (NativeType col) as [n|]; simpl; [by rewrite nativeDef_nativeType|done].
Qed.

Lemma key_back k : unique_key (key_part k) = k.
Proof. destruct k as [e [|] c o p n]; unfold unique_key, key_part, unset; simpl; by destruct (String.eqb_spec e "") as [->|]. Qed.
Lemma keys_back l : map unique_key (map key_part l) = l.
Proof. induction l as [|k l IH]; simpl; [done|]. by rewrite key_back, IH. Qed.
Lemma unique_back u : unique_def (unique_constraint u) = u.
Proof. unfold unique_def, unique_constraint. simpl. rewrite keys_back. by destruct u. Qed.
Lemma foreign_back f :
  foreign_def (foreign_constraint f) (MkReference (ReferencedSchema f) (ReferencedTable f) (ReferencedColumns f)) = f.
Proof. by destruct f. Qed.
Lemma check_back c : check_def (check_constraint c) = c.
Proof. by destruct c. Qed.
Lemma constraints_back t :
  table_constraints_of (physical_constraints t) =
  MkTableConstraints (PrimaryKey t) (UniqueConstraints t) (Checks t) (ForeignKeys t).
Proof.
  unfold table_constraints_of, physical_constraints. rewrite !fold_left_app.
  assert (fold_left constraint_step (if 0 <? length (PrimaryKey t) then [primary_constraint (PrimaryKey t)] else [])
            (MkTableConstraints [] [] [] []) = MkTableConstraints (PrimaryKey t) [] [] []) as ->.
  { by destruct (PrimaryKey t). }
  assert (forall l u p k f, fold_left constraint_step (map unique_constraint l) (MkTableConstraints p u k f) =
            MkTableConstraints p (u ++ l) k f) as ->.
  { induction l as [|x l IH]; intros; simpl; [by rewrite app_nil_r|]. by rewrite IH, unique_back, <- app_assoc. }
  assert (forall l u p k f, fold_left constraint_step (map foreign_constraint l) (MkTableConstraints p u k f) =
            MkTableConstraints p u k (f ++ l)) as ->.
  { induction l as [|x l IH]; intros; simpl; [by rewrite app_nil_r|]. by rewrite IH, foreign_back, <- app_assoc. }
  assert (forall l u p k f, fold_left constraint_step (map check_constraint l) (MkTableConstraints p u k f) =
            MkTableConstraints p u (k ++ l) f) as ->; [|done].
  induction l as [|x l IH]; intros; simpl; [by rewrite app_nil_r|]. by rewrite IH, check_back, <- app_assoc.
Qed.

Lemma parts_back l c e : fold_left index_part (map column_part l) (c, e) = (c ++ l, e).
Proof.
  revert c. induction l as [|x l IH]; intros c; simpl; [by rewrite app_nil_r|].
  unfold index_part at 2. simpl. by rewrite IH, <- app_assoc.
Qed.
Lemma expressions_back l : map ip_ExpressionSQL (map expression_part l) = l.
Proof. induction l as [|x l IH]; simpl; [done|]. by rewrite IH. Qed.
Lemma index_back columns i : index_wf columns i -> index_forms i <= 1 /\ index_def (physical_index i) = i.
Proof.
  intros (_ & H & _). destruct i as [name cs u m es p inc inv nv sp ts ri keys nn]. unfold index_forms, index_def, physical_index, key_form.
  simpl in *. destruct (decide (keys = [])) as [->|Hk]; simpl.
  - destruct (decide (es = [])) as [->|He]; simpl.
    + destruct H as [Hc _]. split; [by destruct cs|]. by rewrite !app_nil_r, parts_back.
    + destruct H as [-> _]. destruct es as [|e es]; [done|]. split; [done|]. simpl. by rewrite app_nil_r, expressions_back.
  - destruct H as (-> & -> & _). destruct keys as [|k keys]; [done|]. split; [unfold stated; simpl; lia|]. simpl. by rewrite key_back, keys_back.
Qed.
Lemma indexes_back t columns :
  Forall (index_wf columns) (Indexes t) -> physical_indexes t = (map physical_index (Indexes t), []) /\
  map index_def (map physical_index (Indexes t)) = Indexes t.
Proof.
  intros H. unfold physical_indexes.
  assert (forall l acc, Forall (index_wf columns) l ->
    fold_left (fun acc i => if 1 <? index_forms i
      then (acc.1, acc.2 ++ [diagnostic_error "index_key_form_conflict" (QualifiedName t +:+ ".indexes." +:+ ix_Name i)
                               "index columns, expressions, and keys cannot be combined"])
      else (acc.1 ++ [physical_index i], acc.2)) l (acc, []) = (acc ++ map physical_index l, []) /\
    map index_def (map physical_index l) = l) as Hl; [|by apply (Hl (Indexes t) [])].
  intros l acc Hw. revert acc. induction Hw as [|i l Hi Hw IH]; intros acc; cbn [fold_left map]; [by rewrite app_nil_r|].
  destruct (index_back _ _ Hi) as [Hf Hb]. rewrite (proj2 (Nat.ltb_ge _ _) Hf). cbn [fst snd].
  destruct (IH (acc ++ [physical_index i])) as [-> ->]. by rewrite Hb, <- app_assoc.
Qed.
Lemma exclusion_back e : exclusion_def (physical_exclusion e) = e.
Proof.
  destruct e as [n m els p d]. unfold exclusion_def, physical_exclusion. simpl. f_equal.
  induction els as [|[x o] els IH]; simpl; [done|]. by rewrite IH.
Qed.

Lemma NoDup_reordered {A} (a b c d : list A) : NoDup (a ++ b ++ c ++ d) -> NoDup (a ++ d ++ b).
Proof.
  rewrite !NoDup_app. intros (H1 & H2 & H3 & H4 & H5 & H6 & H7). split_and!; try done.
  - intros x Hx [Hy|Hy]%elem_of_app; apply (H2 x Hx); rewrite !elem_of_app; tauto.
  - intros x Hx Hy. apply (H4 x Hy). rewrite elem_of_app. tauto.
Qed.

Section Trip.
Context {sort : SliceSort} {unicode : Unicode}.

Lemma columns_back object virtual (l : list ColumnDef) :
  Forall (column_wf virtual) l ->
  map (column_def object) (imap physical_column l) = map plain_column l /\
  flat_map (fun col => (column_type_of object col).2) (imap physical_column l) = [].
Proof.
  intros H. assert (forall k, map (column_def object) (imap (fun i => physical_column (k + i)) l) = map plain_column l /\
    flat_map (fun col => (column_type_of object col).2) (imap (fun i => physical_column (k + i)) l) = []) as Hk; [|apply (Hk 0)].
  induction H as [|c l Hc H IH]; intros k; simpl; [done|]. rewrite (column_back _ _ _ _ Hc).
  destruct (column_type_back object _ (k + 0) _ Hc) as (t & _ & ->). simpl.
  rewrite (imap_ext _ (fun i => physical_column (S k + i))) by (intros; simpl; f_equal; lia).
  by destruct (IH (S k)) as [-> ->].
Qed.
Lemma object_back t :
  Table_Validate t = Ok tt ->
  (physical_object t).2 = [] /\ table_def (physical_object t).1 = plain t /\
  flat_map (fun col => (column_type_of (Name t) col).2) (po_Columns (physical_object t).1) = [].
Proof.
  intros (_ & _ & _ & _ & _ & _ & _ & Hc & _ & _ & _ & _ & _ & _ & _ & _ & Hi & _)%Table_Validate_ok.
  destruct (indexes_back t _ Hi) as [E1 E2]. destruct (columns_back (Name t) _ _ Hc) as [E3 E4].
  unfold physical_object. rewrite E1. simpl. split_and!; [done| |done].
  unfold table_def, plain. simpl. rewrite constraints_back, E2, E3. simpl. f_equal.
  induction (ExclusionConstraints t) as [|e l IH]; simpl; [done|]. by rewrite exclusion_back, IH.
Qed.
Lemma object_keys t :
  po_Kind (physical_object t).1 = EffectiveKind t /\ po_Schema (physical_object t).1 = Schema t /\
  po_Name (physical_object t).1 = Name t /\ po_Columns (physical_object t).1 = imap physical_column (Columns t) /\
  Constraints (physical_object t).1 = physical_constraints t.
Proof. unfold physical_object. by destruct (physical_indexes t). Qed.

Lemma convert_valid ts acc ds :
  Forall (fun t => Table_Validate t = Ok tt) ts ->
  fold_left convert_table ts (acc, ds) = (acc ++ map (fun t => (physical_object t).1) ts, ds).
Proof.
  intros H. revert acc. induction H as [|t l Ht H IH]; intros acc; simpl; [by rewrite app_nil_r|].
  unfold convert_table at 2. rewrite Ht. destruct (object_back t Ht) as (E & _). destruct (physical_object t) as [o d].
  simpl in *. subst d. by rewrite app_nil_r, IH, <- app_assoc.
Qed.
Lemma convert_diagnosed ts acc ds :
  (fold_left convert_table ts (acc, ds)).2 = [] <-> ds = [] /\ Forall (fun t => Table_Validate t = Ok tt) ts.
Proof.
  revert acc ds. induction ts as [|t l IH]; intros acc ds; simpl; [split; [by intros ->|by intros [-> _]]|].
  unfold convert_table at 2. rewrite Forall_cons. destruct (Table_Validate t) as [[]|e] eqn:E.
  - destruct (object_back t E) as (Ed & _). destruct (physical_object t) as [o d]. simpl in *. subst d. rewrite app_nil_r, IH. tauto.
  - simpl. rewrite IH. split; [|naive_solver]. intros [Hn _]. by destruct ds.
Qed.
Lemma from_descriptors engine ts :
  Forall (fun t => Table_Validate t = Ok tt) ts ->
  PhysicalFromTableDefs engine ts = (MkCatalog engine (sort_Slice object_less (map (fun t => (physical_object t).1) ts)), []).
Proof.
  intros H. unfold PhysicalFromTableDefs, sortDiagnostics. rewrite (convert_valid _ _ _ H). simpl. by rewrite sort_Slice_nil.
Qed.
Lemma from_diagnosed engine ts : (PhysicalFromTableDefs engine ts).2 = [] <-> Forall (fun t => Table_Validate t = Ok tt) ts.
Proof.
  unfold PhysicalFromTableDefs, sortDiagnostics. pose proof (convert_diagnosed ts [] []) as H.
  destruct (fold_left convert_table ts ([], [])) as [objects ds]. simpl in *. rewrite sort_Slice_empty. tauto.
Qed.
Lemma object_less_weak : strict_weak object_less.
Proof. apply then_by_weak, then_by_weak, by_key_weak. Qed.

(** ** Identities *)
Lemma diagnose_nil b code path message : diagnose b code path message = [] <-> b = false.
Proof. by destruct b. Qed.
Lemma prior_loop_ok i l ids names ds ids' names' ds' :
  prior_loop i l (ids, names, ds) = (ids', names', ds') ->
  ids' = list_to_set (map pr_ID l) ∪ ids /\
  (ds' = [] <-> ds = [] /\ Forall (fun p => pr_ID p <> "") l /\
     (NoDup (map pr_ID l) /\ Forall (fun p => pr_ID p ∉ ids) l) /\
     NoDup (map pr_Name l) /\ Forall (fun p => pr_Name p ∉ names) l).
Proof.
  revert i ids names ds. induction l as [|p l IH]; intros i ids names ds; cbn [prior_loop].
  { intros [= <- <- <-]. split; [set_solver|]. split; [intros ->; repeat constructor|by intros [-> _]]. }
  unfold prior_step. intros [-> H]%IH. split; [simpl; set_solver|]. rewrite H. clear H IH.
  assert (forall x y z w : list Diagnostic, x ++ y ++ z ++ w = [] <-> x = [] /\ y = [] /\ z = [] /\ w = []) as Happ.
  { intros x y z w. split; [|by intros (-> & -> & -> & ->)]. intros (-> & (-> & (-> & ->)%app_nil)%app_nil)%app_nil. done. }
  rewrite Happ, !diagnose_nil, !bool_decide_eq_false, unset_false. cbn [map]. rewrite !NoDup_cons, !Forall_cons.
  rewrite (Forall_fresh pr_ID), (Forall_fresh pr_Name). tauto.
Qed.

Lemma rename_loop_ok prior i l st :
  let st' := rename_loop prior i l st in
  rs_diagnostics st' = [] <->
  rs_diagnostics st = [] /\ (NoDup (map rn_ID l) /\ Forall (fun r => rn_ID r ∉ rs_ids st) l) /\
  Forall (fun r => rn_ID r ∈ prior) l /\ NoDup (map To l) /\ Forall (fun r => To r ∉ rs_dests st) l.
Proof.
  revert i st. induction l as [|r l IH]; intros i st; cbn [rename_loop].
  { split; [intros ->; repeat constructor|by intros [-> _]]. }
  rewrite IH. clear IH. unfold rename_step. cbn [rs_diagnostics rs_ids rs_dests].
  assert (forall x y z w : list Diagnostic, x ++ y ++ z ++ w = [] <-> x = [] /\ y = [] /\ z = [] /\ w = []) as Happ.
  { intros x y z w. split; [|by intros (-> & -> & -> & ->)]. intros (-> & (-> & (-> & ->)%app_nil)%app_nil)%app_nil. done. }
  rewrite Happ, !diagnose_nil, !bool_decide_eq_false, negb_false_iff, bool_decide_eq_true. cbn [map].
  rewrite !NoDup_cons, !Forall_cons, (Forall_fresh rn_ID), (Forall_fresh To). tauto.
Qed.
Lemma rename_loop_lookup prior i l st id :
  NoDup (map rn_ID l) ->
  rs_renamed (rename_loop prior i l st) !! id =
  match list_find (fun r => rn_ID r = id) l with Some (_, r) => Some (To r) | None => rs_renamed st !! id end.
Proof.
  revert i st. induction l as [|r l IH]; intros i st; cbn [rename_loop map]; [done|]. intros [Hn Hd]%NoDup_cons.
  rewrite IH by done. simpl. destruct (decide (rn_ID r = id)) as [<-|N].
  - assert (list_find (fun r' => rn_ID r' = rn_ID r) l = None) as ->.
    { apply list_find_None, Forall_forall. intros r' Hr' E. apply Hn. rewrite <- E. by apply list_elem_of_fmap_2. }
    by rewrite lookup_insert_eq.
  - rewrite lookup_insert_ne by done. by destruct (list_find _ l) as [[]|].
Qed.

Lemma collision_loop_ok i l st :
  (collision_loop i l st).2 = [] <->
  st.2 = [] /\ NoDup (map po_ID l) /\ Forall (fun o => st.1 !! po_ID o = None) l.
Proof.
  revert i st. induction l as [|o l IH]; intros i st; cbn [collision_loop map].
  { split; [intros ->; repeat constructor|by intros [-> _]]. }
  rewrite IH, NoDup_cons, Forall_cons. unfold collision_step. destruct (st.1 !! po_ID o) as [p|] eqn:E; simpl.
  - split; [|naive_solver]. intros (Hn & _). by destruct st.2.
  - split.
    + intros (H1 & H2 & H3). rewrite Forall_forall in H3. split_and!; try done.
      * intros (o' & Eo & Ho)%list_elem_of_fmap. specialize (H3 o' Ho). by rewrite <- Eo, lookup_insert_eq in H3.
      * apply Forall_forall. intros o' Ho. specialize (H3 o' Ho). by apply lookup_insert_None in H3 as [? _].
    + intros (H1 & (Hn & H2) & _ & H3). split_and!; try done. rewrite Forall_forall in H3 |- *. intros o' Ho.
      apply lookup_insert_None. split; [by apply H3|]. intros Eo. apply Hn. rewrite Eo. by apply list_elem_of_fmap_2.
Qed.

(** The object of the catalog a prior object has become. *)
Definition owns (in_ : IdentityInput) (p : PriorObject) (o : PhysicalObject) : Prop :=
  po_Kind o = pr_Kind p /\
  (MkRename (pr_ID p) (po_QName o) ∈ Renames in_ \/
   (forall r, r ∈ Renames in_ -> rn_ID r <> pr_ID p) /\ po_QName o = pr_Name p).
Lemma renamed_name in_ prior st p q :
  NoDup (map rn_ID (Renames in_)) -> rs_renamed st = ∅ ->
  q = current_name (rs_renamed (rename_loop prior 0 (Renames in_) st)) p <->
  MkRename (pr_ID p) q ∈ Renames in_ \/ (forall r, r ∈ Renames in_ -> rn_ID r <> pr_ID p) /\ q = pr_Name p.
Proof.
  intros Hd He. unfold current_name. rewrite rename_loop_lookup, He, lookup_empty by done.
  destruct (list_find (fun r => rn_ID r = pr_ID p) (Renames in_)) as [[j r]|] eqn:E.
  - apply list_find_Some in E as (Hj & Er & _). apply list_elem_of_lookup_2 in Hj. split.
    + intros ->. left. destruct r. simpl in *. by subst.
    + intros [Hi|[Hn _]]; [|by destruct (Hn r)]. apply (list_elem_of_lookup_1 _ _) in Hj as [j1 H1].
      apply (list_elem_of_lookup_1 _ _) in Hi as [j2 H2].
      assert (j1 = j2) as ->; [|rewrite H1 in H2; by injection H2 as ->].
      apply (NoDup_lookup (map rn_ID (Renames in_)) _ _ (pr_ID p)); [done| |]; rewrite list_lookup_fmap, ?H1, ?H2; simpl; congruence.
  - apply list_find_None in E. rewrite Forall_forall in E. split.
    + intros ->. right. done.
    + intros [Hi|[_ ?]]; [|done]. by destruct (E _ Hi).
Qed.

Definition carry_one (renamed : gmap ObjectID QName) (prior : list PriorObject) (o : PhysicalObject) : PhysicalObject :=
  fold_left (fun o p => carried renamed p o) prior o.
Lemma carry_all_map renamed prior l : carry_all renamed prior l = map (carry_one renamed prior) l.
Proof.
  revert l. induction prior as [|p prior IH]; intros l; simpl; [by rewrite map_id|].
  unfold carry_all in *. simpl. by rewrite IH, map_map.
Qed.
Lemma carried_shape renamed p o :
  carried renamed p o = set_ID (if decide (po_Kind o = pr_Kind p /\ po_QName o = current_name renamed p) then pr_ID p else po_ID o) o.
Proof.
  unfold carried. destruct (String.eqb_spec (po_Kind o) (pr_Kind p)), (decide (po_Kind o = pr_Kind p /\ po_QName o = current_name renamed p));
    simpl; try case_bool_decide; try tauto; by destruct o.
Qed.
(** The last prior object that became [o] gives it its identity. *)
Definition carried_ID (renamed : gmap ObjectID QName) (prior : list PriorObject) (o : PhysicalObject) : ObjectID :=
  match last (base.filter (fun p => po_Kind o = pr_Kind p /\ po_QName o = current_name renamed p) prior) with
  | Some p => pr_ID p
  | None => po_ID o
  end.
Lemma carry_one_shape renamed prior o : carry_one renamed prior o = set_ID (carried_ID renamed prior o) o.
Proof.
  unfold carry_one, carried_ID. revert o. induction prior as [|p prior IH]; intros o; simpl; [by destruct o|].
  rewrite carried_shape, IH, filter_cons. simpl. unfold po_QName at 1 3. simpl. fold (po_QName o).
  set (l := base.filter _ prior). destruct (decide (po_Kind o = pr_Kind p /\ po_QName o = current_name renamed p)) as [H|H].
  - destruct (last l) as [q|] eqn:E; simpl.
    + destruct l as [|a l]; [done|]. rewrite last_cons_cons. by rewrite E.
    + apply last_None in E. by rewrite E.
  - by destruct (last l).
Qed.

(** What an assignment without diagnostics does. *)
Definition assigned (in_ : IdentityInput) (o : PhysicalObject) : PhysicalObject :=
  carry_one (rs_renamed (rename_loop (list_to_set (map pr_ID (Prior in_)) ∪ ∅) 0 (Renames in_) (MkRenameState ∅ ∅ ∅ [])))
    (Prior in_) (hashed (SourceIdentity in_) o).
Definition identity_wf (in_ : IdentityInput) : Prop :=
  SourceIdentity in_ <> "" /\ Forall (fun p => pr_ID p <> "") (Prior in_) /\
  NoDup (map pr_ID (Prior in_)) /\ NoDup (map pr_Name (Prior in_)) /\
  NoDup (map rn_ID (Renames in_)) /\ Forall (fun r => rn_ID r ∈ map pr_ID (Prior in_)) (Renames in_) /\
  NoDup (map To (Renames in_)).
Lemma rename_loop_renamed prior i l ids dests renamed ds ds2 :
  rs_renamed (rename_loop prior i l (MkRenameState ids dests renamed ds)) =
  rs_renamed (rename_loop prior i l (MkRenameState ids dests renamed ds2)).
Proof.
  revert i ids dests renamed ds ds2. induction l as [|r l IH]; intros i ids dests renamed ds ds2; cbn [rename_loop]; [done|]. apply IH.
Qed.
Lemma AssignObjectIDs_ok c in_ c' :
  AssignObjectIDs c in_ = (c', []) <->
  identity_wf in_ /\ c' = MkCatalog (Engine c) (map (assigned in_) (Objects c)) /\ NoDup (map po_ID (Objects c')).
Proof.
  unfold AssignObjectIDs.
  destruct (prior_loop 0 (Prior in_) _) as [[ids names] ds1] eqn:Ep. apply prior_loop_ok in Ep as [-> Hp].
  set (st := MkRenameState ∅ ∅ ∅ ds1). pose proof (rename_loop_ok (list_to_set (map pr_ID (Prior in_)) ∪ ∅) 0 (Renames in_) st) as Hr.
  assert (carry_all (rs_renamed (rename_loop (list_to_set (map pr_ID (Prior in_)) ∪ ∅) 0 (Renames in_) st)) (Prior in_)
            (map (hashed (SourceIdentity in_)) (Objects c)) = map (assigned in_) (Objects c)) as ->.
  { rewrite carry_all_map, map_map. apply map_ext. intros o. unfold assigned, st. by erewrite rename_loop_renamed. }
  destruct (collision_loop 0 _ _) as [final ds] eqn:Ec.
  pose proof (collision_loop_ok 0 (map (assigned in_) (Objects c))
    (∅, rs_diagnostics (rename_loop (list_to_set (map pr_ID (Prior in_)) ∪ ∅) 0 (Renames in_) st))) as Hc.
  rewrite Ec in Hc. simpl in *. rewrite Hr, Hp, diagnose_nil, unset_false in Hc. clear Hr Hp Ec.
  assert (forall B `{Countable B} A (f : A -> B) l, Forall (fun o => f o ∉ (∅ : gset B)) l) as He
    by (intros; apply Forall_forall; intros; apply not_elem_of_empty).
  pose proof (He _ _ _ _ pr_ID (Prior in_)) as He1. pose proof (He _ _ _ _ pr_Name (Prior in_)) as He2.
  pose proof (He _ _ _ _ rn_ID (Renames in_)) as He3. pose proof (He _ _ _ _ To (Renames in_)) as He4.
  assert (Forall (fun r => rn_ID r ∈ list_to_set (map pr_ID (Prior in_)) ∪ (∅ : gset string)) (Renames in_) <->
          Forall (fun r => rn_ID r ∈ map pr_ID (Prior in_)) (Renames in_)) as Hs.
  { rewrite !Forall_forall. setoid_rewrite elem_of_union. setoid_rewrite elem_of_list_to_set.
    setoid_rewrite elem_of_empty. naive_solver. }
  assert (Forall (fun o : PhysicalObject => (∅ : gmap ObjectID nat) !! po_ID o = None) (map (assigned in_) (Objects c))) as Hn
    by (apply Forall_forall; intros; apply lookup_empty).
  unfold identity_wf. unfold sortDiagnostics. split.
  - intros [= <- Hds]. apply sort_Slice_empty in Hds. simpl. tauto.
  - intros (H1 & -> & H2). assert (ds = []) as -> by (simpl in *; tauto). by rewrite sort_Slice_nil.
Qed.

Lemma assigned_shape in_ o :
  assigned in_ o = set_ID (carried_ID (rs_renamed (rename_loop (list_to_set (map pr_ID (Prior in_)) ∪ ∅) 0 (Renames in_) (MkRenameState ∅ ∅ ∅ [])))
    (Prior in_) (hashed (SourceIdentity in_) o)) o.
Proof. unfold assigned. rewrite carry_one_shape. by destruct o. Qed.
Lemma owners_filter in_ o p prior :
  NoDup (map rn_ID (Renames in_)) ->
  p ∈ base.filter (fun p => po_Kind o = pr_Kind p /\ po_QName o =
        current_name (rs_renamed (rename_loop prior 0 (Renames in_) (MkRenameState ∅ ∅ ∅ []))) p) (Prior in_) <->
  p ∈ Prior in_ /\ owns in_ p o.
Proof. intros Hd. rewrite list_elem_of_filter, renamed_name by done. unfold owns. tauto. Qed.
Lemma assigned_owned in_ o p :
  NoDup (map rn_ID (Renames in_)) -> p ∈ Prior in_ -> owns in_ p o ->
  (forall q, q ∈ Prior in_ -> owns in_ q o -> q = p) -> po_ID (assigned in_ o) = pr_ID p.
Proof.
  intros Hd Hp Ho Hu. rewrite assigned_shape. simpl. unfold carried_ID.
  pose proof (fun q => owners_filter in_ (hashed (SourceIdentity in_) o) q (list_to_set (map pr_ID (Prior in_)) ∪ ∅) Hd) as Hf.
  destruct (last _) as [q|] eqn:E.
  - apply last_Some_elem_of in E. apply Hf in E as [Hq Hoq]. by rewrite (Hu q).
  - apply last_None in E. assert (p ∈ []) as Hx; [|by apply not_elem_of_nil in Hx]. rewrite <- E. by apply Hf.
Qed.
Lemma assigned_new in_ o :
  NoDup (map rn_ID (Renames in_)) -> (forall p, p ∈ Prior in_ -> ~ owns in_ p o) ->
  po_ID (assigned in_ o) = hashID (SourceIdentity in_) (po_Kind o) (po_Schema o) (po_Name o).
Proof.
  intros Hd Hn. rewrite assigned_shape. simpl. unfold carried_ID.
  pose proof (fun q => owners_filter in_ (hashed (SourceIdentity in_) o) q (list_to_set (map pr_ID (Prior in_)) ∪ ∅) Hd) as Hf.
  destruct (last _) as [q|] eqn:E; [|done]. apply last_Some_elem_of in E. apply Hf in E as [Hq Hoq]. by destruct (Hn q).
Qed.

Lemma hashID_neq source kind schema name : hashID source kind schema name <> "".
Proof.
  unfold hashID. intros E. apply (f_equal String.length) in E. rewrite EncodeToString_length, Sum_length in E. discriminate E.
Qed.
Lemma assigned_neq in_ o : Forall (fun p => pr_ID p <> "") (Prior in_) -> po_ID (assigned in_ o) <> "".
Proof.
  intros Hp. rewrite assigned_shape. simpl. unfold carried_ID. rewrite Forall_forall in Hp.
  destruct (last _) as [q|] eqn:E; [|apply hashID_neq]. apply last_Some_elem_of, list_elem_of_filter in E as [_ Hq]. auto.
Qed.
(** The objects of a catalog as the next run's prior objects. *)
Definition priors (c : PhysicalCatalog) : list PriorObject :=
  map (fun o => MkPrior (po_ID o) (po_Kind o) (po_QName o)) (Objects c).
Lemma priors_ID c : map pr_ID (priors c) = map po_ID (Objects c).
Proof. unfold priors. by rewrite map_map. Qed.
Lemma priors_Name c : map pr_Name (priors c) = map po_QName (Objects c).
Proof. unfold priors. by rewrite map_map. Qed.
Lemma assigned_keys in_ o : po_Kind (assigned in_ o) = po_Kind o /\ po_QName (assigned in_ o) = po_QName o.
Proof. by rewrite assigned_shape. Qed.

Lemma again_same c in_ source :
  identity_wf in_ -> NoDup (map po_QName (Objects c)) ->
  NoDup (map po_ID (map (assigned in_) (Objects c))) -> source <> "" ->
  AssignObjectIDs c (MkIdentity source (priors (MkCatalog (Engine c) (map (assigned in_) (Objects c)))) []) =
  (MkCatalog (Engine c) (map (assigned in_) (Objects c)), []).
Proof.
  intros (_ & Hp & _) Hq Hi Hs. set (next := MkIdentity source _ []).
  assert (map po_QName (map (assigned in_) (Objects c)) = map po_QName (Objects c)) as Eq.
  { rewrite map_map. apply map_ext. intros o. apply assigned_keys. }
  assert (identity_wf next) as Hw.
  { unfold identity_wf, next. simpl. rewrite priors_ID, priors_Name. simpl. rewrite Eq.
    split_and!; [done| |done|done|constructor..].
    apply Forall_forall. intros p (o' & -> & (o & -> & _)%list_elem_of_fmap)%list_elem_of_fmap. simpl. by apply assigned_neq. }
  assert (map (assigned next) (Objects c) = map (assigned in_) (Objects c)) as E.
  { apply map_ext_in. intros o Ho%list_elem_of_In. rewrite (assigned_shape in_ o). rewrite (assigned_shape next o) at 1.
    f_equal.
    pose proof (assigned_owned next o (MkPrior (po_ID (assigned in_ o)) (po_Kind o) (po_QName o))) as Ha.
    rewrite (assigned_shape in_ o), (assigned_shape next o) in Ha. simpl in Ha. apply Ha.
    - constructor.
    - unfold next, priors. simpl. rewrite map_map. apply list_elem_of_fmap. exists o. split; [|done].
      by rewrite (assigned_shape in_ o).
    - split; [done|]. right. split; [|done]. intros r Hr. by apply not_elem_of_nil in Hr.
    - intros q. unfold next, priors. simpl. rewrite map_map. intros (o' & -> & Ho')%list_elem_of_fmap [_ [Hr|[_ Hn]]].
      { by apply not_elem_of_nil in Hr. }
      simpl in Hn. assert (o' = o) as ->; [|by rewrite (assigned_shape in_ o)].
      rewrite (proj2 (assigned_keys in_ o')) in Hn. apply (list_elem_of_lookup_1 _ _) in Ho as [i1 H1].
      apply (list_elem_of_lookup_1 _ _) in Ho' as [i2 H2].
      assert (i1 = i2) as ->; [|congruence].
      apply (NoDup_lookup (map po_QName (Objects c)) _ _ (po_QName o)); [done| |]; rewrite list_lookup_fmap, ?H1, ?H2; simpl; congruence. }
  apply AssignObjectIDs_ok. rewrite E. simpl. done.
Qed.

(** C20 Identities follow their objects. When [AssignObjectIDs] reports nothing,
    it changes the identities of the objects and nothing else, they are
    non-empty and distinct, an object that one prior object has become (by
    keeping its name, or by a rename) has that object's identity, and one no
    prior object has become gets the hash of its source, kind and name.  Run
    again with its own result as the prior objects, under any source name that
    is not empty and on objects of distinct names, it reports nothing and
    returns the same catalog. *)
Theorem identities_carried c in_ c' :
  AssignObjectIDs c in_ = (c', []) ->
  Engine c' = Engine c /\
  NoDup (map po_ID (Objects c')) /\ Forall (fun o => po_ID o <> "") (Objects c') /\
  Forall2 (fun o o' =>
    o' = set_ID (po_ID o') o /\
    (forall p, p ∈ Prior in_ -> owns in_ p o -> (forall q, q ∈ Prior in_ -> owns in_ q o -> q = p) -> po_ID o' = pr_ID p) /\
    ((forall p, p ∈ Prior in_ -> ~ owns in_ p o) ->
     po_ID o' = hashID (SourceIdentity in_) (po_Kind o) (po_Schema o) (po_Name o))) (Objects c) (Objects c') /\
  (forall source, source <> "" -> NoDup (map po_QName (Objects c)) ->
     AssignObjectIDs c (MkIdentity source (priors c') []) = (c', [])).
Proof.
  intros (Hw & -> & Hd)%AssignObjectIDs_ok. simpl in *. pose proof Hw as (_ & Hp & _ & _ & Hr & _).
  split; [done|]. split; [done|]. split; [apply Forall_map, Forall_forall; intros o _; by apply assigned_neq|]. split.
  - apply Forall2_fmap_r, Forall_Forall2_diag, Forall_forall. intros o _. split; [by rewrite assigned_shape|]. split.
    + intros p. by apply assigned_owned.
    + by apply assigned_new.
  - intros source Hs Hq. by apply again_same.
Qed.

Lemma AssignObjectIDs_objects c in_ :
  exists f, (AssignObjectIDs c in_).1 = MkCatalog (Engine c) (map (fun o => set_ID (f o) o) (Objects c)).
Proof.
  unfold AssignObjectIDs. destruct (prior_loop 0 _ _) as [[ids names] ds1]. set (renamed := rs_renamed _).
  destruct (collision_loop 0 _ _) as [final ds]. simpl.
  exists (fun o => carried_ID renamed (Prior in_) (hashed (SourceIdentity in_) o)). f_equal.
  rewrite carry_all_map, map_map. apply map_ext. intros o. by rewrite carry_one_shape.
Qed.
Lemma TableDefs_set_ID e l f :
  TableDefsFromPhysical (MkCatalog e (map (fun o => set_ID (f o) o) l)) = TableDefsFromPhysical (MkCatalog e l).
Proof.
  unfold TableDefsFromPhysical. simpl. rewrite map_map. f_equal. f_equal.
  induction l as [|o l IH]; [done|]. simpl. by rewrite IH.
Qed.
Lemma sorted_map {A B} (f : A -> B) (less : A -> A -> bool) (less' : B -> B -> bool) l :
  (forall x y, less' (f x) (f y) = less x y) ->
  StronglySorted (not_after less) l -> StronglySorted (not_after less') (map f l).
Proof.
  intros Hf. induction 1 as [|x l Hs IH Hx]; simpl; constructor; [done|].
  apply Forall_map. eapply Forall_impl; [exact Hx|]. intros y Hy. unfold not_after in *. by rewrite Hf.
Qed.

(** C19 Descriptors survive the catalog. [PhysicalFromTableDefs] reports nothing
    exactly when every descriptor is valid, and then the catalog, with or
    without identities, converts back without a diagnostic to the same
    descriptors, less the Go names they carry and with the kind spelled out,
    sorted by kind, schema and name. *)
Theorem descriptors_roundtrip engine in_ ts c ds :
  PhysicalFromTableDefs engine ts = (c, ds) ->
  (ds = [] <-> Forall (fun t => Table_Validate t = Ok tt) ts) /\
  (ds = [] -> exists ts', TableDefsFromPhysical c = (ts', []) /\
     TableDefsFromPhysical (AssignObjectIDs c in_).1 = (ts', []) /\
     ts' ≡ₚ map plain ts /\ StronglySorted (not_after table_less) ts').
Proof.
  intros E. pose proof (from_diagnosed engine ts) as Hd. rewrite E in Hd. split; [exact Hd|].
  intros ->. pose proof (proj1 Hd eq_refl) as Hv. rewrite (from_descriptors _ _ Hv) in E. injection E as <-.
  set (objects := map (fun t => (physical_object t).1) ts).
  assert (forall o, o ∈ sort_Slice object_less objects -> exists t, t ∈ ts /\ o = (physical_object t).1) as Ho.
  { intros o (t & -> & Ht)%sort_Slice_elem%list_elem_of_fmap. eauto. }
  exists (map table_def (sort_Slice object_less objects)).
  destruct (AssignObjectIDs_objects (MkCatalog engine (sort_Slice object_less objects)) in_) as [f ->].
  rewrite TableDefs_set_ID. simpl Objects. unfold TableDefsFromPhysical, sortDiagnostics. simpl Objects.
  rewrite (proj2 (flat_map_nil_iff _ _)), sort_Slice_nil.
  - split_and!; [done|done| |].
    + rewrite sort_Slice_perm. unfold objects. rewrite map_map.
      assert (map (fun t => table_def (physical_object t).1) ts = map plain ts) as ->; [|done]. apply map_ext_in.
      intros t Ht%list_elem_of_In. rewrite Forall_forall in Hv. by apply object_back, Hv.
    + apply (sorted_map _ object_less); [done|]. apply sort_Slice_sorted, object_less_weak.
  - intros o (t & Ht & ->)%Ho. rewrite Forall_forall in Hv. destruct (object_keys t) as (_ & _ & -> & _).
    by apply object_back, Hv.
Qed.

(** ** The catalog of valid descriptors *)
Definition table_QName (t : TableDef) : QName := (Schema t, Name t).
Definition reference_of (f : ForeignKeyDef) : ForeignReference :=
  MkReference (ReferencedSchema f) (ReferencedTable f) (ReferencedColumns f).
Fixpoint native_dialects (n : NativeTypeDef) : Prop :=
  match n with
  | MkNative dialect _ _ _ _ element =>
      dialect ∈ dialects /\ match element with Some e => native_dialects e | None => True end
  end.
Lemma native_physical n : native_wf n -> physical_native_wf (nativeType n) <-> native_dialects n.
Proof.
  induction n as [dialect schema name kind args element IH] using native_ind.
  cbn [native_wf nativeType physical_native_wf native_dialects]. intros (_ & Hn & Hk & _ & _ & _ & Ha & He). apply one_of_in in Hk.
  destruct element as [e|].
  - rewrite (IH e eq_refl He). split; [tauto|]. intros [H1 H2]. split_and!; done.
  - split; [tauto|]. intros [H1 H2]. split_and!; [done..| |done]. intros E. by destruct (proj1 Ha E).
Qed.
Lemma kind_logical t : type_wf t -> Kind t ∈ logical_kinds.
Proof. intros H. apply one_of_in. by destruct t. Qed.
Lemma column_physical virtual i c :
  column_wf virtual c ->
  physical_column_wf (physical_column i c) <-> (forall n, NativeType c = Some n -> native_dialects n).
Proof.
  intros ([Hn _] & (t & E & Ht & _) & Hnat & _ & _ & Hg & Hi & _). unfold physical_column_wf. simpl.
  unfold IdentityGeneration_valid, GeneratedStorage_valid in Hg, Hi. apply one_of_in in Hg, Hi.
  assert (facts_wf (physical_column i c)) as Hf.
  { unfold facts_wf. simpl. rewrite E. destruct t; simpl; split_and!; try discriminate.
    - intros f [= <-]. simpl. split; [done|]. intros z ->. done.
    - intros f [= <-]. simpl. split; [done|]. intros z ->. by apply Ht.
    - intros f [= <-]. simpl. split; [done|]. destruct Ht as (? & s & -> & ?). split; [lia|]. by intros z [= <-]. }
  assert ((forall n, option_map nativeType (NativeType c) = Some n -> physical_native_wf n) <->
          (forall n, NativeType c = Some n -> native_dialects n)) as ->.
  { destruct (NativeType c) as [n|]; simpl; [|naive_solver]. destruct (Hnat n eq_refl) as [Hw _].
    pose proof (native_physical n Hw) as Hp. split; [intros H n' [= <-]; by apply Hp, H|intros H n' [= <-]; by apply Hp, H]. }
  rewrite E. split; [tauto|]. intros H. split_and!; try done. by apply kind_logical.
Qed.

Lemma unique_physical c o u columns :
  unique_wf columns u -> map pc_Name (po_Columns o) = columns -> physical_constraint_wf c o (unique_constraint u).
Proof.
  intros [Hu _] E. unfold physical_constraint_wf. simpl. rewrite E. split_and!; [by apply one_of_in| |done|done].
  destruct (decide (uq_Keys u = [])).
  - destruct Hu as [_ [_ Hl]]. by rewrite Forall_forall in Hl.
  - destruct Hu as [-> _]. intros m Hm. by apply not_elem_of_nil in Hm.
Qed.
Lemma check_physical c o k : physical_constraint_wf c o (check_constraint k).
Proof.
  unfold physical_constraint_wf. simpl. split_and!; [by apply one_of_in| |done|done]. intros n Hn. by apply not_elem_of_nil in Hn.
Qed.
Lemma primary_physical c o key columns :
  listed columns key -> map pc_Name (po_Columns o) = columns -> physical_constraint_wf c o (primary_constraint key).
Proof.
  intros [_ H] E. unfold physical_constraint_wf. simpl. rewrite E, Forall_forall in *. split_and!; [by apply one_of_in|done|done|done].
Qed.
Lemma foreign_physical c o f columns :
  foreign_key_wf columns f -> map pc_Name (po_Columns o) = columns ->
  physical_constraint_wf c o (foreign_constraint f) <->
  exists target, target ∈ Objects c /\
    targets (Engine c) (po_Schema o) (reference_of f) (map po_QName (Objects c)) (po_QName target) /\
    forall n, n ∈ ReferencedColumns f -> n ∈ map pc_Name (po_Columns target).
Proof.
  intros (Hc & [_ Hl] & _ & [Ho _] & _ & _ & Hlen & _) E. unfold physical_constraint_wf, reference_wf. simpl. rewrite E.
  rewrite Forall_forall in Hl. split.
  - intros (_ & _ & _ & H). by destruct (H _ eq_refl) as (_ & _ & _ & ?).
  - intros H. split_and!; [by apply one_of_in|done|done|]. intros r [= <-]. split_and!; try done.
    intros En. simpl in En. rewrite En in Hlen. by destruct (fk_Columns f).
Qed.
Lemma column_part_wf columns name : name ∈ columns -> name <> "" -> part_wf columns "columns" (column_part name).
Proof. intros H N. unfold part_wf. simpl. split; [by right|]. split; [done|]. split; discriminate. Qed.
Lemma expression_part_wf columns e : e <> "" -> part_wf columns "expressions" (expression_part e).
Proof. intros H. unfold part_wf. simpl. split; [by left|]. split; [discriminate|]. split; [done|discriminate]. Qed.
Lemma key_part_wf columns k : key_wf k -> NullsOrder_valid (ik_NullsOrder k) = true -> part_wf columns "keys" (key_part k).
Proof.
  intros [H1 H2] H3. unfold part_wf. simpl. split; [by left|]. split; [discriminate|]. split; [discriminate|]. intros _.
  apply one_of_in in H3. split_and!; [by right|apply one_of_in; by destruct (Descending k)|done|done|done].
Qed.
Lemma index_physical columns i :
  Forall (fun n => n <> "") columns -> index_wf columns i -> physical_index_wf columns (physical_index i).
Proof.
  intros Hne ([Hn _] & H & _). destruct i as [name cs u m es p inc inv nv sp ts ri keys nn]. rewrite Forall_forall in Hne.
  unfold physical_index_wf, physical_index, key_form. simpl in *. split; [done|].
  destruct (decide (keys = [])) as [->|Hk]; [destruct (decide (es = [])) as [->|He]|].
  - destruct H as [Hc [_ Hl]]. rewrite Forall_forall in Hl. cbn [map length Nat.ltb Nat.leb]. rewrite !app_nil_r.
    split; [by apply one_of_in|]. split; [by destruct cs|]. apply Forall_map, Forall_forall. intros x Hx. simpl.
    apply column_part_wf; auto.
  - destruct H as [-> Hl]. destruct es as [|e es]; [done|]. split; [by apply one_of_in|]. split; [done|].
    cbn [map app length Nat.ltb Nat.leb]. rewrite app_nil_r. apply (Forall_map expression_part (part_wf columns "expressions") (e :: es)).
    eapply Forall_impl; [exact Hl|]. intros x Hx. by apply expression_part_wf.
  - destruct H as (-> & -> & Hl). destruct keys as [|k keys]; [done|]. split; [by apply one_of_in|]. split; [done|].
    cbn [map app length Nat.ltb Nat.leb]. apply (Forall_map key_part (part_wf columns "keys") (k :: keys)).
    eapply Forall_impl; [exact Hl|]. intros x [Hx Hy]. by apply key_part_wf.
Qed.
Lemma exclusion_physical e : exclusion_wf e -> physical_exclusion_wf (physical_exclusion e) <-> ex_Name e <> "".
Proof.
  intros (H1 & H2 & _). unfold physical_exclusion_wf. simpl. split; [by intros (? & _)|]. intros H. split_and!; [done| |].
  - by destruct (Elements e).
  - apply Forall_map. eapply Forall_impl; [exact H2|]. by intros x [? _].
Qed.
Lemma stated_names_app l1 l2 : stated_names (l1 ++ l2) = stated_names l1 ++ stated_names l2.
Proof. unfold stated_names. by rewrite map_app, filter_app. Qed.
Lemma constraints_named t : NoDup (constraint_names t) -> NoDup (stated_names (physical_constraints t)).
Proof.
  unfold constraint_names, physical_constraints. rewrite !filter_app, !stated_names_app. intros H.
  assert (stated_names (if 0 <? length (PrimaryKey t) then [primary_constraint (PrimaryKey t)] else []) = []) as ->
    by (by destruct (PrimaryKey t)).
  assert (stated_names (map unique_constraint (UniqueConstraints t)) = base.filter (fun n => n <> "") (uq_Name <$> UniqueConstraints t)) as ->
    by (unfold stated_names; by rewrite map_map).
  assert (stated_names (map foreign_constraint (ForeignKeys t)) = base.filter (fun n => n <> "") (fk_Name <$> ForeignKeys t)) as ->
    by (unfold stated_names; by rewrite map_map).
  assert (stated_names (map check_constraint (Checks t)) = base.filter (fun n => n <> "") (ck_Name <$> Checks t)) as ->
    by (unfold stated_names; by rewrite map_map).
  simpl. by eapply NoDup_reordered.
Qed.
Lemma one_primary t : length (primary_keys (physical_constraints t)) <= 1.
Proof.
  unfold primary_keys, physical_constraints. rewrite !filter_app, !length_app.
  assert (forall A (f : A -> PhysicalConstraint) l, (forall x, pk_Kind (f x) <> "primary_key") ->
    base.filter (fun k => pk_Kind k = "primary_key") (map f l) = []) as H.
  { intros A f l Hf. induction l as [|x l IH]; simpl; [done|]. by rewrite filter_cons_False. }
  rewrite !H by done. destruct (PrimaryKey t); cbn [length Nat.ltb Nat.leb]; [simpl; lia|]. rewrite filter_cons_True by done. simpl. lia.
Qed.

Lemma targets_ext engine source ref names names' q :
  (forall x : QName, x ∈ names <-> x ∈ names') -> targets engine source ref names q -> targets engine source ref names' q.
Proof.
  intros H [Hq Ht]. split; [by apply H|]. destruct Ht as [?|[Hn Ht]]; [by left|right]. split; [by rewrite <- H|].
  destruct (decide (en_Dialect engine = "sqlite")); [done|]. destruct Ht as (? & ? & Hu). split_and!; [done..|].
  intros q' Hq'. apply Hu. by apply H.
Qed.
Lemma column_names_physical t : map pc_Name (po_Columns (physical_object t).1) = column_names t.
Proof.
  destruct (object_keys t) as (_ & _ & _ & -> & _). unfold column_names.
  assert (forall k, map pc_Name (imap (fun i => physical_column (k + i)) (Columns t)) = Column_Name <$> Columns t) as H; [|apply (H 0)].
  induction (Columns t) as [|c l IH]; intros k; simpl; [done|]. f_equal.
  rewrite (imap_ext _ (fun i => physical_column (S k + i))) by (intros; simpl; f_equal; lia). apply IH.
Qed.
Lemma ordinals_physical t j col : po_Columns (physical_object t).1 !! j = Some col -> pc_Ordinal col = Z.of_nat j.
Proof.
  destruct (object_keys t) as (_ & _ & _ & -> & _). rewrite list_lookup_imap. by intros (c & _ & ->)%fmap_Some.
Qed.
Lemma po_parts t :
  Forall (index_wf (column_names t)) (Indexes t) ->
  po_Indexes (physical_object t).1 = map physical_index (Indexes t) /\
  po_Exclusions (physical_object t).1 = map physical_exclusion (ExclusionConstraints t).
Proof. intros H. destruct (indexes_back t _ H) as [E _]. unfold physical_object. by rewrite E. Qed.

(** The object of a valid descriptor is valid when it has an identity, its
    native types name known dialects, its exclusion constraints are named and
    its foreign keys resolve. *)
Lemma object_described c t id :
  Table_Validate t = Ok tt -> id <> "" ->
  object_wf c (set_ID id (physical_object t).1) <->
  (forall col n, col ∈ Columns t -> NativeType col = Some n -> native_dialects n) /\
  (forall e, e ∈ ExclusionConstraints t -> ex_Name e <> "") /\
  (forall f, f ∈ ForeignKeys t -> exists target, target ∈ Objects c /\
     targets (Engine c) (Schema t) (reference_of f) (map po_QName (Objects c)) (po_QName target) /\
     forall n, n ∈ ReferencedColumns f -> n ∈ map pc_Name (po_Columns target)).
Proof.
  intros Hv Hid. pose proof Hv as (Hkind & _ & _ & [Hname _] & _ & _ & Hnd & Hcols & Hpk & _ & Hcn & _ & Hu & Hck & Hex & Hix & Hi & Hfk)%Table_Validate_ok.
  destruct (object_keys t) as (Ek & Es & En & Ec & Eo). destruct (po_parts t Hi) as [Ei Ee].
  unfold object_wf. simpl. rewrite column_names_physical, Ek, En, Eo, Ei, Ee.
  set (o := set_ID id (physical_object t).1).
  assert (map pc_Name (po_Columns o) = column_names t) as Hnames by apply column_names_physical.
  assert (Forall physical_column_wf (po_Columns (physical_object t).1) <->
          (forall col n, col ∈ Columns t -> NativeType col = Some n -> native_dialects n)) as ->.
  { rewrite Ec. rewrite Forall_forall in Hcols. rewrite Forall_lookup. setoid_rewrite list_lookup_imap. split.
    - intros H col n Hin Hn. pose proof (Hcols col Hin) as Hw. apply list_elem_of_lookup in Hin as [i Hc].
      specialize (H i (physical_column i col)). rewrite Hc in H. specialize (H eq_refl).
      by apply (column_physical _ _ _ Hw) with (n := n) in H.
    - intros H i pc (col & Hc & ->)%fmap_Some. apply (column_physical (VirtualTableModule t)).
      + apply Hcols. by eapply list_elem_of_lookup_2.
      + intros n Hn. apply (H col); [by eapply list_elem_of_lookup_2|done]. }
  assert (Forall (physical_constraint_wf c o) (physical_constraints t) <->
          (forall f, f ∈ ForeignKeys t -> exists target, target ∈ Objects c /\
     targets (Engine c) (Schema t) (reference_of f) (map po_QName (Objects c)) (po_QName target) /\
     forall n, n ∈ ReferencedColumns f -> n ∈ map pc_Name (po_Columns target))) as ->.
  { unfold physical_constraints. rewrite !Forall_app, !Forall_map, !Forall_forall. rewrite Forall_forall in Hfk. split.
    - intros (_ & _ & H & _) f Hf. specialize (H f Hf). apply (foreign_physical c o f _ (Hfk f Hf) Hnames) in H. simpl in H.
      by rewrite Es in H.
    - intros H. split_and!.
      + intros k Hk. destruct (PrimaryKey t) as [|name key]; [by apply not_elem_of_nil in Hk|].
        apply list_elem_of_singleton in Hk as ->. by eapply primary_physical.
      + intros u Hin. rewrite Forall_forall in Hu. by eapply unique_physical; [apply Hu|].
      + intros f Hf. apply (foreign_physical c o f _ (Hfk f Hf) Hnames). simpl. rewrite Es. by apply H.
      + intros k _. apply check_physical. }
  assert (Forall physical_exclusion_wf (map physical_exclusion (ExclusionConstraints t)) <->
          (forall e, e ∈ ExclusionConstraints t -> ex_Name e <> "")) as ->.
  { rewrite Forall_map, Forall_forall. rewrite Forall_forall in Hex. split; intros H e He; [exact (proj1 (exclusion_physical e (Hex e He)) (H e He))|exact (proj2 (exclusion_physical e (Hex e He)) (H e He))]. }
  assert (Forall (physical_index_wf (column_names t)) (map physical_index (Indexes t))) as Hpi.
  { apply Forall_map. eapply Forall_impl; [exact Hi|]. intros i. apply index_physical. unfold column_names.
    apply Forall_map. eapply Forall_impl; [exact Hcols|]. by intros col [[? _] _]. }
  split; [tauto|]. intros (H1 & H2 & H3). split_and!; try done.
  - unfold ObjectKind_valid in Hkind. apply one_of_in in Hkind. unfold EffectiveKind.
    destruct (String.eqb_spec (TableKind t) "") as [E|N]; [by apply one_of_in|]. by apply elem_of_cons in Hkind as [E|Hk].
  - apply ordinals_physical.
  - by apply constraints_named.
  - apply one_primary.
  - by rewrite map_map.
Qed.

Definition table_described (engine : EngineIdentity) (ts : list TableDef) (t : TableDef) : Prop :=
  (forall col n, col ∈ Columns t -> NativeType col = Some n -> native_dialects n) /\
  (forall e, e ∈ ExclusionConstraints t -> ex_Name e <> "") /\
  (forall f, f ∈ ForeignKeys t -> exists target, target ∈ ts /\
     targets engine (Schema t) (reference_of f) (map table_QName ts) (table_QName target) /\
     forall n, n ∈ ReferencedColumns f -> n ∈ column_names target).
Lemma assigned_QName in_ t : po_QName (assigned in_ (physical_object t).1) = table_QName t.
Proof. rewrite (proj2 (assigned_keys _ _)). unfold po_QName. by destruct (object_keys t) as (_ & -> & -> & _). Qed.
Lemma assigned_described engine in_ ts objects :
  (forall o, o ∈ objects <-> exists t, t ∈ ts /\ o = (physical_object t).1) ->
  map po_QName (map (assigned in_) objects) ≡ₚ map table_QName ts ->
  Forall (fun p => pr_ID p <> "") (Prior in_) ->
  forall t, Table_Validate t = Ok tt ->
  object_wf (MkCatalog engine (map (assigned in_) objects)) (assigned in_ (physical_object t).1) <-> table_described engine ts t.
Proof.
  intros Hin Hnames Hp t Hv. pose proof (assigned_neq in_ (physical_object t).1 Hp) as Hid.
  assert (assigned in_ (physical_object t).1 = set_ID (po_ID (assigned in_ (physical_object t).1)) (physical_object t).1) as E
    by (by rewrite assigned_shape).
  rewrite E. rewrite object_described by done. unfold table_described. simpl.
  assert (forall x : QName, x ∈ map po_QName (map (assigned in_) objects) <-> x ∈ map table_QName ts) as Hmem
    by (intros x; by rewrite Hnames).
  assert (forall f, (exists target, target ∈ map (assigned in_) objects /\
      targets engine (Schema t) (reference_of f) (map po_QName (map (assigned in_) objects)) (po_QName target) /\
      forall n, n ∈ ReferencedColumns f -> n ∈ map pc_Name (po_Columns target)) <->
    (exists target, target ∈ ts /\ targets engine (Schema t) (reference_of f) (map table_QName ts) (table_QName target) /\
      forall n, n ∈ ReferencedColumns f -> n ∈ column_names target)) as Hf; [|by setoid_rewrite Hf].
  intros f. split.
  - intros (o & (o' & -> & (t' & Ht' & ->)%Hin)%list_elem_of_fmap & Ht & Hc). exists t'. split; [done|].
    rewrite assigned_QName in Ht. split; [by eapply targets_ext|]. intros n Hn%Hc.
    by rewrite assigned_shape, <- column_names_physical in *.
  - intros (t' & Ht' & Ht & Hc). exists (assigned in_ (physical_object t').1). split.
    + apply list_elem_of_fmap. exists (physical_object t').1. split; [done|]. apply Hin. eauto.
    + rewrite assigned_QName. split; [eapply targets_ext; [|done]; intros x; by rewrite Hmem|].
      intros n Hn%Hc. rewrite assigned_shape. simpl. by rewrite column_names_physical.
Qed.

(** C27 Catalogs of valid descriptors. [ValidatePhysical] accepts a catalog
    exactly when it is valid: a known engine, distinct identities and qualified
    names, well-formed columns with consistent facts, constraints and
    indexes over columns the object has, at most one primary key, and foreign
    keys that resolve, by the engine's rules, to columns of an object.  The
    catalog of valid descriptors, with identities assigned, is accepted exactly
    when the engine and the dialects of native types are known, qualified names
    are distinct, exclusion constraints are named and every foreign key
    resolves: nothing else can be wrong with it. *)
Theorem described_catalog {range : MapRange} :
  (forall c, ValidatePhysical c = Ok tt <-> physical_wf c) /\
  (forall engine in_ ts c c',
     PhysicalFromTableDefs engine ts = (c, []) -> AssignObjectIDs c in_ = (c', []) ->
     ValidatePhysical c' = Ok tt <->
     en_Dialect engine ∈ dialects /\ NoDup (map table_QName ts) /\ Forall (table_described engine ts) ts).
Proof.
  split; [exact ValidatePhysical_ok|]. intros engine in_ ts c c' Ec (Hw & -> & Hd)%AssignObjectIDs_ok.
  pose proof (from_diagnosed engine ts) as Hv. rewrite Ec in Hv. pose proof (proj1 Hv eq_refl) as Hv'. clear Hv.
  rewrite (from_descriptors _ _ Hv') in Ec. injection Ec as <-. rewrite ValidatePhysical_ok. unfold physical_wf. simpl in *.
  set (objects := sort_Slice object_less (map (fun t => (physical_object t).1) ts)) in *.
  assert (forall o, o ∈ objects <-> exists t, t ∈ ts /\ o = (physical_object t).1) as Hin.
  { intros o. unfold objects. rewrite sort_Slice_elem, list_elem_of_fmap. naive_solver. }
  assert (map po_QName (map (assigned in_) objects) ≡ₚ map table_QName ts) as Hnames.
  { unfold objects. rewrite sort_Slice_perm, !map_map. by rewrite (map_ext _ _ (assigned_QName in_)). }
  rewrite Hnames.
  assert (Forall (object_wf (MkCatalog engine (map (assigned in_) objects))) (map (assigned in_) objects) <->
          Forall (table_described engine ts) ts) as ->; [|tauto].
  rewrite Forall_map, !Forall_forall. setoid_rewrite Hin. rewrite Forall_forall in Hv'. split.
  - intros H t Ht. apply (assigned_described engine in_ ts objects Hin Hnames (proj1 (proj2 Hw)) t (Hv' t Ht)). apply H. eauto.
  - intros H o (t & Ht & ->). apply (assigned_described engine in_ ts objects Hin Hnames (proj1 (proj2 Hw)) t (Hv' t Ht)). auto.
Qed.
End Trip.

(** ** A store of authors and posts *)
Definition users : TableDef :=
  MkTable "" "users" "" 0 "User" [column_of "id" (Some (IntegerType false None false)) false;
    column_of "email" (Some (TextType (Some 120%Z) true)) true] ["id"] false false false "" "" []
    [MkUnique "email_key" ["email"] "" false [] "" [] false [] "" false []] [] [] [] [].
Definition posts : TableDef :=
  MkTable "" "posts" "table" 0 "" [column_of "id" (Some (IntegerType false None false)) false;
    column_of "author" (Some (IntegerType false None false)) true] ["id"] false false false "" "" [] []
    [MkCheck "positive" "id > 0" false false false] [] [MkIndex "by_author" ["author"] false "" [] "" [] false false [] "" false [] false]
    [MkForeignKey "author_fk" ["author"] "" "users" ["id"] "" "" "CASCADE" "" false false false []].
Definition store_engine : EngineIdentity := MkEngine "postgresql" "17" "".
Definition store_input : IdentityInput := MkIdentity "live" [MkPrior "u1" "table" ("", "people")] [MkRename "u1" ("", "users")].
Definition store_catalog : PhysicalCatalog := (PhysicalFromTableDefs store_engine [users; posts]).1.
Definition store_assigned : PhysicalCatalog := (AssignObjectIDs store_catalog store_input).1.

Lemma store_converted : PhysicalFromTableDefs store_engine [users; posts] = (store_catalog, []).
Proof. vm_compute. reflexivity. Qed.
Lemma store_identified : AssignObjectIDs store_catalog store_input = (store_assigned, []).
Proof. vm_compute. reflexivity. Qed.
Lemma descriptors_roundtrip_witness :
  exists ts', TableDefsFromPhysical store_catalog = (ts', []) /\ ts' ≡ₚ map plain [users; posts] /\ map Name ts' = ["posts"; "users"].
Proof.
  destruct (descriptors_roundtrip store_engine store_input [users; posts] store_catalog []
              store_converted) as [_ H].
  destruct (H eq_refl) as (ts' & E & _ & P & _). exists ts'. split; [exact E|]. split; [exact P|].
  assert (ts' = (TableDefsFromPhysical store_catalog).1) as -> by (by rewrite E). vm_compute. reflexivity.
Defined.
Lemma identities_carried_witness :
  map po_ID (Objects store_assigned) = [hashID "live" "table" "" "posts"; "u1"] /\
  AssignObjectIDs store_catalog (MkIdentity "again" (priors store_assigned) []) = (store_assigned, []).
Proof.
  destruct (identities_carried store_catalog store_input store_assigned store_identified)
    as (_ & _ & _ & _ & H).
  split; [vm_compute; reflexivity|]. apply H; [discriminate|]. apply (bool_decide_unpack _). vm_compute. exact I.
Defined.
Lemma described_catalog_witness : ValidatePhysical store_assigned = Ok tt.
Proof.
  apply (proj2 described_catalog store_engine store_input [users; posts] store_catalog store_assigned);
    [exact store_converted|exact store_identified|].
  split; [by apply one_of_in|]. split; [apply (bool_decide_unpack _); vm_compute; exact I|].
  repeat constructor; simpl.
  - intros col n Hc. repeat (apply elem_of_cons in Hc as [->|Hc]; [discriminate|]). by apply not_elem_of_nil in Hc.
  - intros e He. by apply not_elem_of_nil in He.
  - intros f Hf. by apply not_elem_of_nil in Hf.
  - intros col n Hc. repeat (apply elem_of_cons in Hc as [->|Hc]; [discriminate|]). by apply not_elem_of_nil in Hc.
  - intros e He. by apply not_elem_of_nil in He.
  - intros f [->|Hf]%elem_of_cons; [|by apply not_elem_of_nil in Hf]. exists users. split; [apply list_elem_of_here|].
    split; [split; [apply list_elem_of_here|by left]|]. intros n Hn. exact (proj2 (elem_of_cons _ _ _) (or_introl (proj1 (list_elem_of_singleton _ _) Hn))).
Defined.
