(* ===== verification/CompilerSemantic.v ===== *)
(** * CompilerSemantic: [internal/compilerir/semantic.go] and [mapping.go]

    Scalar mappings, the semantic model built of a physical catalog
    ([BuildSemantic]) and its validation ([ValidateSemantic] of [validate.go]).

    [parser.ParseExpr], the Go parser, is a parameter: the type expressions of
    a mapping are whatever syntax trees it gives. *)

From S2P Require Import Prelude GoText GoSort GoPath Schema TableValidate CompilerIR CompilerPhysical.
Open Scope string_scope.
Open Scope list_scope.
Open Scope nat_scope.

(** ** Data *)
Record GoImport := MkImport { im_Path : string; im_Alias : string }.
Record NativeMatch := MkMatch { mt_Dialect : string; mt_Schema : string; mt_Name : string; mt_Kind : string; mt_LogicalKind : string }.
Record ScalarMapping := MkScalarMapping {
  sm_Name : string; sm_Match : NativeMatch; sm_GoType : string; NullableGoType : string; sm_Imports : list GoImport;
  sm_Codec : string }.
(** [ThroughMapping], [SemanticThrough] and [GoThrough] have the same fields. *)
Record Through := MkThrough {
  th_Object : ObjectID; SourceFrom : list string; SourceTo : list string; TargetFrom : list string; TargetTo : list string }.
Record RelationMapping := MkRelationMapping {
  rm_Name : string; rm_Source : ObjectID; rm_From : list string; rm_Target : ObjectID; rm_To : list string; rm_Through : Through }.
Record MappingConfig := MkMappings { Scalars : list ScalarMapping; mc_Relations : list RelationMapping }.

Record SemanticColumn := MkSemanticColumn {
  sc_Name : string; sc_Scalar : string; sc_Nullable : bool; Readable : bool; InsertState : string; PatchState : string;
  sc_Certainty : string }.
Record SemanticRelation := MkSemanticRelation {
  sr_Name : string; sr_Kind : string; sr_From : list string; sr_Target : ObjectID; sr_To : list string; sr_Nullable : bool;
  sr_Through : option Through }.
Record SemanticObject := MkSemanticObject {
  so_ID : ObjectID; so_Kind : string; PhysicalName : QName; so_Columns : list SemanticColumn; Relations : list SemanticRelation }.
Record SemanticValue := MkSemanticValue {
  sv_Name : string; sv_Scalar : string; sv_Nullable : bool; TypeCertainty : string; NullabilityCertainty : string;
  sv_LogicalKind : string; sv_Native : option PhysicalNative; sv_Integer : option IntegerTypeFacts }.
Record SemanticQuery := MkSemanticQuery {
  sq_ID : QueryID; sq_Name : string; Parameters : list SemanticValue; Results : list SemanticValue; Cardinality : string }.
Record SemanticModel := MkSemanticModel {
  sm_Objects : list SemanticObject; sm_Queries : list SemanticQuery; Diagnostics : list Diagnostic }.
Record QueryAnalysis := MkAnalysis {
  qa_ID : QueryID; qa_Name : string; SQLPath : string; SQLSHA256 : string; qa_Engine : EngineIdentity; qa_Operation : string;
  qa_Parameters : list SemanticValue; qa_Results : list SemanticValue; qa_Cardinality : string; qa_Diagnostics : list Diagnostic }.

(** ** Go type expressions *)
Inductive GoExpr :=
| GoIdent (name : string)
| GoSelector (x : GoExpr) (sel : string)
| GoArray (len : option GoExpr) (elt : GoExpr)
| GoStar (x : GoExpr)
| GoMap (key value : GoExpr)
| GoParen (x : GoExpr)
| GoIndex (x index : GoExpr)
| GoIndexList (x : GoExpr) (indices : list GoExpr)
| GoBasicLit (value : string)
| GoOtherExpr (children : list GoExpr).
Class GoParser := { ParseExpr : string -> option GoExpr }.

(** The names [ast.Inspect] finds qualified by a selector. *)
Fixpoint selector_names (e : GoExpr) : list string :=
  match e with
  | GoIdent _ | GoBasicLit _ => []
  | GoSelector x _ => match x with GoIdent name => [name] | _ => [] end ++ selector_names x
  | GoArray len elt => match len with Some l => selector_names l | None => [] end ++ selector_names elt
  | GoStar x | GoParen x => selector_names x
  | GoMap k v | GoIndex k v => selector_names k ++ selector_names v
  | GoIndexList x l => selector_names x ++ flat_map selector_names l
  | GoOtherExpr l => flat_map selector_names l
  end.
(** The closure [check] of [validateGoTypeAST], with the names it has used. *)
Fixpoint check_type (imports : gset string) (e : GoExpr) (used : gset string) : result (gset string) :=
  match e with
  | GoIdent _ => Ok used
  | GoSelector (GoIdent name) _ =>
      if bool_decide (name ∈ imports) then Ok ({[ name ]} ∪ used) else Err (Errorf "unresolved import %q" [AStr name])
  | GoSelector _ _ => Err (errors_New "invalid selector")
  | GoArray None elt => check_type imports elt used
  | GoArray (Some (GoBasicLit _)) elt => check_type imports elt used
  | GoArray (Some _) _ => Err (errors_New "invalid array length")
  | GoStar x | GoParen x => check_type imports x used
  | GoMap k v | GoIndex k v => do used <- check_type imports k used; check_type imports v used
  | GoIndexList x l =>
      do used <- check_type imports x used;
      (fix go l used := match l with
                        | [] => Ok used
                        | y :: l' => do used <- check_type imports y used; go l' used
                        end) l used
  | GoBasicLit _ | GoOtherExpr _ => Err (errors_New "expression is not a Go type")
  end.

Section Mappings.
Context {unicode : Unicode} {parser : GoParser} {range : MapRange}.

Definition valid_package (name : string) : bool := negb (unset name) && IsIdentifier name && negb (String.eqb name "_").
Definition import_name (imp : GoImport) : string := if unset (im_Alias imp) then path_Base (im_Path imp) else im_Alias imp.
(** The loop over the imports: the paths and the names they bring. *)
Definition validate_import (i : nat) (imp : GoImport) (st : gset string * gmap string unit) : result (gset string * gmap string unit) :=
  check refuse_if (unset (im_Path imp)) (Errorf "imports[%d]: import path must not be empty" [ANat i]);
  check refuse_if (bool_decide (im_Path imp ∈ st.1)) (Errorf "imports[%d]: duplicate import path %q" [ANat i; AStr (im_Path imp)]);
  let alias := import_name imp in
  check refuse_if (negb (IsIdentifier alias) || String.eqb alias "_" || String.eqb alias ".")
          (Errorf "imports[%d]: invalid import alias %q" [ANat i; AStr alias]);
  check refuse_if (bool_decide (is_Some (st.2 !! alias)))
          (Errorf "imports[%d]: duplicate effective import name %q" [ANat i; AStr alias]);
  Ok ({[ im_Path imp ]} ∪ st.1, <[alias := tt]> st.2).
Definition validate_expression (imports : gset string) (expression : string) (used : gset string) : result (gset string) :=
  match ParseExpr expression with
  | None => Err (Errorf "invalid Go type %q" [AStr expression])
  | Some expr => check_type imports expr used
  end.
Definition validateGoExpressions (expressions : list string) (imports : list GoImport) (packageName : string) : result unit :=
  check refuse_if (negb (valid_package packageName)) (Errorf "invalid package name %q" [AStr packageName]);
  do st <- foldi validate_import 0 imports (∅, ∅);
  do used <- foldi (fun _ e used => validate_expression (dom st.2) e used) 0 expressions ∅;
  checki (fun _ e => refuse_if (negb (bool_decide (e.1 ∈ used))) (Errorf "unused import %q" [AStr e.1])) 0 (range_map st.2).
Definition importsForType (expression : string) (imports : list GoImport) : list GoImport :=
  match ParseExpr expression with
  | None => []
  | Some expr =>
      let used := selector_names expr in
      base.filter (fun imp =>
        (if unset (im_Alias imp) then default "" (last (Split (im_Path imp) "/")) else im_Alias imp) ∈ used) imports
  end.

(** ** Scalars *)
Definition default_types : list (string * string) :=
  [("boolean", "bool"); ("integer", "int64"); ("float", "float64"); ("unsigned_integer", "uint64"); ("text", "string");
   ("bytes", "[]byte"); ("time", "time.Time"); ("json", "[]byte"); ("uuid", "string"); ("decimal", "string")].
Fixpoint assoc_default (l : list (string * string)) (k : string) : string :=
  match l with [] => "" | (k', v) :: l' => if String.eqb k' k then v else assoc_default l' k end.
Definition no_match : NativeMatch := MkMatch "" "" "" "" "".
Definition DefaultScalarMapping (scalar : string) : option ScalarMapping :=
  let typeName := assoc_default default_types scalar in
  if unset typeName then None else Some (MkScalarMapping scalar no_match typeName "" [] "").
(** The loop that refuses a second mapping of the name. *)
Fixpoint sole_mapping (scalar : string) (l : list ScalarMapping) (found : option ScalarMapping) : result (option ScalarMapping) :=
  match l with
  | [] => Ok found
  | m :: l' => if String.eqb (sm_Name m) scalar
               then match found with
                    | Some _ => Err (Errorf "duplicate scalar mapping %q" [AStr scalar])
                    | None => sole_mapping scalar l' (Some m)
                    end
               else sole_mapping scalar l' found
  end.
Definition DeclaredQueryLogicalKind (scalar : string) (mappings : MappingConfig) : result (option string) :=
  if String.eqb scalar "unsigned_integer" then Ok (Some "integer")
  else match DefaultScalarMapping scalar with
  | Some _ => Ok (Some scalar)
  | None =>
      do found <- sole_mapping scalar (Scalars mappings) None;
      match found with
      | None => Ok None
      | Some m =>
          if one_of ["boolean"; "integer"; "float"; "text"; "bytes"; "time"; "json"; "uuid"; "decimal"] (mt_LogicalKind (sm_Match m))
          then Ok (Some (mt_LogicalKind (sm_Match m))) else Ok None
      end
  end.

Definition differs (stated actual : string) : bool := negb (unset stated) && negb (String.eqb stated actual).
Definition mappingRank (column : PhysicalColumn) (m : NativeMatch) : option nat :=
  if differs (mt_LogicalKind m) (LogicalKind column) then None
  else if unset (mt_Dialect m) && unset (mt_Schema m) && unset (mt_Name m) && unset (mt_Kind m)
  then (if unset (mt_LogicalKind m) then None else Some 1)
  else match pc_Native column with
  | None => None
  | Some n =>
      if differs (mt_Dialect m) (pn_Dialect n) || differs (mt_Schema m) (pn_Schema n) || differs (mt_Name m) (pn_Name n)
         || differs (mt_Kind m) (pn_Kind n) then None
      else if negb (unset (mt_Schema m)) && negb (unset (mt_Name m)) then Some 4 else Some 3
  end.
Record mappingSelection := MkSelection { sel_scalar : string; sel_found : bool; sel_ambiguous : bool }.
(** The loop over the mappings: the best rank, its first mapping and how many
    share it. *)
Definition select_step (column : PhysicalColumn) (best : option (nat * ScalarMapping * nat)) (m : ScalarMapping) :
    option (nat * ScalarMapping * nat) :=
  match mappingRank column (sm_Match m) with
  | None => best
  | Some rank =>
      match best with
      | None => Some (rank, m, 1)
      | Some (bestRank, selected, matches) =>
          if bestRank <? rank then Some (rank, m, 1)
          else if rank =? bestRank then Some (bestRank, selected, S matches) else best
      end
  end.
Definition selectMapping (column : PhysicalColumn) (config : MappingConfig) : mappingSelection :=
  match fold_left (select_step column) (Scalars config) None with
  | None =>
      if String.eqb (LogicalKind column) "integer" && match pc_Integer column with Some f => if_Unsigned f | None => false end
      then MkSelection "unsigned_integer" true false
      else match DefaultScalarMapping (LogicalKind column) with
      | Some m => MkSelection (sm_Name m) true false
      | None => MkSelection "" false false
      end
  | Some (_, selected, matches) => MkSelection (sm_Name selected) (matches =? 1) (1 <? matches)
  end.

(** ** Mapping configurations *)
Definition mapping_letter (c : ascii) : bool := in_range 65 90 (code c) || in_range 97 122 (code c).
Definition mapping_char (c : ascii) : bool :=
  mapping_letter c || is_digit c || Ascii.eqb c "_"%char || Ascii.eqb c "."%char || Ascii.eqb c "-"%char.
(** [^[A-Za-z][A-Za-z0-9_.-]{0,127}$]. *)
Definition mappingCodecPattern (s : string) : bool :=
  match s with
  | "" => false
  | String c s' => mapping_letter c && (String.length s' <=? 127) && str_forallb mapping_char s'
  end.
Definition validGeneratedIdentifier (name : string) : bool := negb (String.eqb name "_") && IsIdentifier name.
Definition validate_scalar (packageName : string) (i : nat) (m : ScalarMapping) (seen : gset string) : result (gset string) :=
  let path := indexed "scalars" i in
  check refuse_if (unset (sm_Name m)) (Errorf "%s.name: must not be empty" [AStr path]);
  check refuse_if (bool_decide (sm_Name m ∈ seen)) (Errorf "%s.name: duplicate scalar %q" [AStr path; AStr (sm_Name m)]);
  check refuse_if (unset (sm_GoType m)) (Errorf "%s.go_type: must not be empty" [AStr path]);
  check wrap_err (fun e => Errorf "%s.go_type: %w" [AStr path; AErr e])
    (validateGoExpressions (sm_GoType m :: if unset (NullableGoType m) then [] else [NullableGoType m]) (sm_Imports m) packageName);
  check refuse_if (unset (sm_Codec m)) (Errorf "%s.codec: must not be empty" [AStr path]);
  check refuse_if (negb (mappingCodecPattern (sm_Codec m))) (Errorf "%s.codec: malformed codec identifier" [AStr path]);
  let match_ := sm_Match m in
  check refuse_if (unset (mt_Dialect match_) && unset (mt_Schema match_) && unset (mt_Name match_) && unset (mt_Kind match_)
                   && unset (mt_LogicalKind match_))
          (Errorf "%s.match: must select a native type or logical kind" [AStr path]);
  check refuse_if (unset (mt_Dialect match_) && negb (unset (mt_Schema match_)))
          (Errorf "%s.match.schema: requires dialect" [AStr path]);
  check refuse_if (negb (unset (mt_Schema match_)) && unset (mt_Name match_)) (Errorf "%s.match.schema: requires name" [AStr path]);
  Ok ({[ sm_Name m ]} ∪ seen).
(** The columns of one path. *)
Definition validate_path (path : string) (columns : list string) : result unit :=
  do _ <- foldi (fun _ column seen =>
    check refuse_if (unset column) (Errorf "%s: relation paths must not contain empty columns" [AStr path]);
    check refuse_if (bool_decide (column ∈ seen)) (Errorf "%s: relation paths must not repeat columns" [AStr path]);
    Ok ({[ column ]} ∪ seen)) 0 columns (∅ : gset string);
  Ok tt.
Definition nul_key (a b : string) : string := a +:+ String nul "" +:+ b.
Definition same_columns (a b : list string) : bool := bool_decide (a = b).
Definition validate_relation (i : nat) (r : RelationMapping) (names : gset string) : result (gset string) :=
  let path := indexed "relations" i in
  let t := rm_Through r in
  check refuse_if (unset (rm_Name r)) (Errorf "%s.name: must not be empty" [AStr path]);
  check refuse_if (negb (validGeneratedIdentifier (rm_Name r))) (Errorf "%s.name: must be a valid Go identifier" [AStr path]);
  check refuse_if (bool_decide (nul_key (rm_Source r) (rm_Name r) ∈ names))
          (Errorf "%s.name: duplicate relation %q" [AStr path; AStr (rm_Name r)]);
  check refuse_if (unset (rm_Source r) || unset (rm_Target r) || unset (th_Object t))
          (Errorf "%s: source, target, and through object are required" [AStr path]);
  check refuse_if ((length (rm_From r) =? 0) || (length (rm_To r) =? 0)) (Errorf "%s: from and to paths are required" [AStr path]);
  check refuse_if (negb (length (rm_From r) =? length (SourceFrom t)) || negb (length (rm_From r) =? length (SourceTo t)))
          (Errorf "%s: source paths must have equal widths" [AStr path]);
  check refuse_if (negb (length (rm_To r) =? length (TargetFrom t)) || negb (length (rm_To r) =? length (TargetTo t)))
          (Errorf "%s: target paths must have equal widths" [AStr path]);
  check refuse_if (negb (same_columns (rm_From r) (SourceTo t))) (Errorf "%s: source path must equal through source_to" [AStr path]);
  check refuse_if (negb (same_columns (rm_To r) (TargetTo t))) (Errorf "%s: target path must equal through target_to" [AStr path]);
  check checki (fun _ columns => validate_path path columns) 0
    [rm_From r; rm_To r; SourceFrom t; SourceTo t; TargetFrom t; TargetTo t];
  Ok ({[ nul_key (rm_Source r) (rm_Name r) ]} ∪ names).
Definition ValidateMappingConfig (config : MappingConfig) (packageName : string) : result unit :=
  do _ <- foldi (validate_scalar packageName) 0 (Scalars config) ∅;
  do _ <- foldi validate_relation 0 (mc_Relations config) ∅;
  Ok tt.
End Mappings.
