(* ===== verification/CompilerBuild.v ===== *)
(** * CompilerBuild: [BuildSemantic] and [ValidateSemantic]

    The semantic model of a catalog: the column states, the relations its
    foreign keys and the mappings give, and what is reported. *)

From S2P Require Import Prelude GoText GoSort GoPath Schema TableValidate CompilerIR CompilerPhysical CompilerSemantic.
Open Scope string_scope.
Open Scope list_scope.
Open Scope nat_scope.

(** ** Names of relations *)
Section Names.
Context {case : CaseMap}.
Definition go_word (part : string) : string :=
  let low := strings_ToLower part in
  if String.eqb low "api" then "API" else if String.eqb low "id" then "ID" else if String.eqb low "json" then "JSON"
  else if String.eqb low "url" then "URL" else if String.eqb low "uuid" then "UUID"
  else match runes part with
       | [] => ""
       | r :: rest => string_of_runes (rune_upper r :: rest)
       end.
Definition RelationGoName (name : string) : string :=
  fold_right (fun part acc => go_word part +:+ acc) "" (base.filter (fun part => part <> "") (Split name "_")).
Definition relationName (source : string) (columns : list string) (target : string) : string :=
  let name := RelationGoName (match columns with c :: _ => TrimSuffix c "_id" | [] => "" end) in
  let name := if unset name then RelationGoName target else name in
  if unset name then RelationGoName source else name.
End Names.

(** [fmt.Sprintf("%08d", index)]. *)
Fixpoint pad_zeros (n : nat) : string := match n with 0 => "" | S n' => String "0" (pad_zeros n') end.
Definition decimal8 (n : nat) : string := pad_zeros (8 - String.length (NatItoa n)) +:+ NatItoa n.
Definition nul_join (l : list string) : string := Join l (String nul "").
Definition relationPhysicalIdentity (object : PhysicalObject) (c : PhysicalConstraint) (columns : list string) (index : nat)
    (target : QName) : string :=
  nul_join [po_Schema object; po_Name object; target.1; target.2; nul_join (pk_Columns c); nul_join columns; pk_Name c; decimal8 index].
Definition relationPairKey (source target : ObjectID) : string := nul_key source target.
Definition relationPath (object : QName) (name : string) : string := object.2 +:+ ".relations." +:+ name.

(** ** Columns *)
Definition certaintyFor (c : PhysicalColumn) : string :=
  match pc_Native c with
  | Some n => if unset (pn_Name n) then CertaintyUnknown else CertaintyKnown
  | None => CertaintyUnknown
  end.
Definition insert_state (column : PhysicalColumn) : string :=
  let state := if negb (unset (GeneratedSQL column)) || String.eqb (pc_Identity column) "ALWAYS" then "generated" else "optional" in
  let state := if String.eqb (pc_Identity column) "BY DEFAULT" then "optional" else state in
  if negb (pc_Nullable column) && String.eqb state "optional" && unset (DefaultSQL column)
     && negb (String.eqb (pc_Identity column) "BY DEFAULT") then "required" else state.
Definition patch_state (state : string) : string := if String.eqb state "generated" then "forbidden" else "settable".
Definition semantic_column (object : PhysicalObject) (mappings : MappingConfig) (column : PhysicalColumn) : SemanticColumn * list Diagnostic :=
  let selection := selectMapping column mappings in
  let path := po_Name object +:+ "." +:+ pc_Name column in
  let scalar := if sel_found selection then sel_scalar selection else LogicalKind column in
  let state := insert_state column in
  let view := String.eqb (po_Kind object) "view" in
  (MkSemanticColumn (pc_Name column) scalar (pc_Nullable column) (negb (pc_Hidden column))
     (if view then "forbidden" else state) (if view then "forbidden" else patch_state state) (certaintyFor column),
   diagnose (sel_ambiguous selection) "ambiguous_scalar" path "multiple scalar mappings have the same precedence" ++
   diagnose (negb (sel_found selection) && String.eqb (LogicalKind column) "native") "opaque_type" path
     "opaque native type requires an explicit mapping" ++
   diagnose (negb (sel_found selection) && unset scalar) "scalar_missing" path "logical scalar is missing").

(** ** The model under construction *)
Record build_state := MkBuild {
  b_objects : list SemanticObject; b_indexes : gmap ObjectID nat; b_names : gmap ObjectID (gset string);
  b_diagnostics : list Diagnostic }.
Definition add_diagnostics (ds : list Diagnostic) (st : build_state) : build_state :=
  MkBuild (b_objects st) (b_indexes st) (b_names st) (b_diagnostics st ++ ds).
Definition add_object (mappings : MappingConfig) (st : build_state) (object : PhysicalObject) : build_state :=
  let columns := map (semantic_column object mappings) (po_Columns object) in
  MkBuild (b_objects st ++ [MkSemanticObject (po_ID object) (po_Kind object) (po_QName object) (map fst columns) []])
    (<[po_ID object := length (b_objects st)]> (b_indexes st)) (<[po_ID object := ∅]> (b_names st))
    (b_diagnostics st ++ flat_map snd columns).
Definition add_relation_at (r : SemanticRelation) (o : SemanticObject) : SemanticObject :=
  MkSemanticObject (so_ID o) (so_Kind o) (PhysicalName o) (so_Columns o) (Relations o ++ [r]).

Section Build.
Context {unicode : Unicode} {case : CaseMap} {sort : SliceSort} {parser : GoParser} {range : MapRange}.

(** A relation is added under its name even when that is taken, which is
    reported. *)
Definition append_named (source : ObjectID) (index : nat) (name : string) (report : Diagnostic) (r : SemanticRelation)
    (st : build_state) : build_state :=
  let names := default ∅ (b_names st !! source) in
  let taken := bool_decide (RelationGoName name ∈ names) in
  MkBuild (alter (add_relation_at r) index (b_objects st)) (b_indexes st)
    (if taken then b_names st else <[source := {[ RelationGoName name ]} ∪ names]> (b_names st))
    (b_diagnostics st ++ if taken then [report] else []).
Definition appendSemanticRelation (source : ObjectID) (r : SemanticRelation) (path : string) (st : build_state) : build_state :=
  match b_indexes st !! source with
  | None => st
  | Some index => append_named source index (sr_Name r)
                    (diagnostic_error "relation_name_collision" path "relation name is duplicated") r st
  end.

(** ** Candidates *)
Record relationCandidate := MkCandidate {
  rc_source : ObjectID; rc_target : ObjectID; sourceName : QName; targetName : QName; rc_from : list string; rc_to : list string;
  rc_nullable : bool; directName : string; physicalIdentity : string }.
Definition nullable_path (object : PhysicalObject) (columns : list string) : bool :=
  existsb (fun column => pc_Nullable column && one_of columns (pc_Name column)) (po_Columns object).
(** One foreign key: what is reported of it and the candidate it gives. *)
Definition candidate_of (engine : EngineIdentity) (objectIDs : gmap QName ObjectID) (objectColumns : gmap QName (gset string))
    (object : PhysicalObject) (index : nat) (c : PhysicalConstraint) : list relationCandidate * list Diagnostic :=
  match Reference c with
  | Some ref =>
      if String.eqb (pk_Kind c) "foreign_key" then
        let '(q, resolved) := resolveForeignReference engine (po_Schema object) ref objectColumns in
        let path := po_Name object +:+ ".constraints[" +:+ NatItoa index +:+ "]" in
        ([MkCandidate (po_ID object) (default "" (objectIDs !! q)) (po_QName object) q (pk_Columns c) (rf_Columns ref)
            (nullable_path object (pk_Columns c)) (relationName (po_Name object) (pk_Columns c) q.2)
            (relationPhysicalIdentity object c (rf_Columns ref) index q)],
         diagnose (negb (is_some resolved)) "ambiguous_relation_target" path "foreign key target is unresolved or ambiguous" ++
         diagnose (negb (is_some (objectIDs !! q))) "unresolved_relation_target" path "foreign key target does not exist")
      else ([], [])
  | None => ([], [])
  end.
Definition object_candidates (engine : EngineIdentity) (objectIDs : gmap QName ObjectID) (objectColumns : gmap QName (gset string))
    (object : PhysicalObject) : list (list relationCandidate * list Diagnostic) :=
  imap (candidate_of engine objectIDs objectColumns object) (Constraints object).
Definition relationCandidates (c : PhysicalCatalog) (objectIDs : gmap QName ObjectID) (objectColumns : gmap QName (gset string)) :
    list relationCandidate * list Diagnostic :=
  let found := flat_map (object_candidates (Engine c) objectIDs objectColumns) (Objects c) in
  (sort_SliceStable (by_key physicalIdentity) (flat_map fst found), flat_map snd found).
Definition object_ids (l : list PhysicalObject) : gmap QName ObjectID := index_by po_QName po_ID l ∅.

(** ** The two relations of a candidate *)
Definition belongs_to (c : relationCandidate) : SemanticRelation :=
  MkSemanticRelation (directName c) "belongs_to" (rc_from c) (rc_target c) (rc_to c) (rc_nullable c) None.
Definition completeUniqueConstraint (object : PhysicalObject) (columns : list string) : bool :=
  existsb (fun k => (String.eqb (pk_Kind k) "primary_key" || String.eqb (pk_Kind k) "unique") && same_columns (pk_Columns k) columns)
    (Constraints object).
Fixpoint physicalObjectByID (objects : list PhysicalObject) (id : ObjectID) : option PhysicalObject :=
  match objects with
  | [] => None
  | o :: l => if String.eqb (po_ID o) id then Some o else physicalObjectByID l id
  end.
Definition pair_count (candidates : list relationCandidate) (c : relationCandidate) : nat :=
  length (base.filter (fun c' => relationPairKey (rc_source c') (rc_target c') = relationPairKey (rc_source c) (rc_target c)) candidates).
Definition inverse_name (candidates : list relationCandidate) (c : relationCandidate) : string :=
  let name := RelationGoName (sourceName c).2 in
  if 1 <? pair_count candidates c then directName c +:+ name else name.
Definition inverse_of (objects : list PhysicalObject) (candidates : list relationCandidate) (c : relationCandidate) : SemanticRelation :=
  let kind := match physicalObjectByID objects (rc_source c) with
              | Some child => if completeUniqueConstraint child (rc_from c) then "has_one" else "has_many"
              | None => "has_many"
              end in
  MkSemanticRelation (inverse_name candidates c) kind (rc_to c) (rc_source c) (rc_from c) false None.

(** ** Mapped relations *)
Definition many_through (m : RelationMapping) : SemanticRelation :=
  MkSemanticRelation (rm_Name m) "many_through" (rm_From m) (rm_Target m) (rm_To m) false (Some (rm_Through m)).
Definition add_mapped (i : nat) (m : RelationMapping) (st : build_state) : build_state :=
  match b_indexes st !! rm_Source m with
  | None => st
  | Some index =>
      append_named (rm_Source m) index (rm_Name m)
        (diagnostic_error "relation_name_collision" ("mappings." +:+ indexed "relations" i +:+ ".name")
           "relation name collides with another relation on the source object") (many_through m) st
  end.
Fixpoint add_all_mapped (i : nat) (l : list RelationMapping) (st : build_state) : build_state :=
  match l with [] => st | m :: l' => add_all_mapped (S i) l' (add_mapped i m st) end.

Definition hasColumns (object : PhysicalObject) (names : list string) : bool := known_columns (column_set (po_Columns object)) names.
Definition hasForeignKey (through : PhysicalObject) (columns : list string) (target : PhysicalObject) (targetColumns : list string) : bool :=
  existsb (fun c => match Reference c with
    | Some ref => String.eqb (pk_Kind c) "foreign_key" && same_columns (pk_Columns c) columns && same_columns (rf_Columns ref) targetColumns
                  && String.eqb (rf_Object ref) (po_Name target) && (unset (rf_Schema ref) || String.eqb (rf_Schema ref) (po_Schema target))
    | None => false end) (Constraints through).
(** The last column of the name. *)
Definition column_named (columns : list PhysicalColumn) (name : string) : option PhysicalColumn :=
  last (base.filter (fun c => pc_Name c = name) columns).
Definition compatiblePath (left : PhysicalObject) (leftNames : list string) (right : PhysicalObject) (rightNames : list string) : bool :=
  (length leftNames =? length rightNames) &&
  forallb (fun p => match column_named (po_Columns left) p.1, column_named (po_Columns right) p.2 with
                    | Some l, Some r => String.eqb (LogicalKind l) (LogicalKind r)
                    | _, _ => false
                    end) (combine leftNames rightNames).
Definition validate_mapping (objects : gmap ObjectID PhysicalObject) (i : nat) (m : RelationMapping) : list Diagnostic :=
  let path := "mappings." +:+ indexed "relations" i in
  let t := rm_Through m in
  match objects !! rm_Source m, objects !! rm_Target m, objects !! th_Object t with
  | Some source, Some target, Some through =>
      diagnose (String.eqb (po_Kind source) "view" || String.eqb (po_Kind target) "view" || String.eqb (po_Kind through) "view")
        "invalid_mapping_object" path "many-through mappings require physical tables" ++
      diagnose (negb (hasColumns source (rm_From m)) || negb (hasColumns target (rm_To m)) || negb (hasColumns through (SourceFrom t))
                || negb (hasColumns through (TargetFrom t)))
        "unresolved_mapping_column" path "mapping references an unknown column" ++
      diagnose (negb (hasForeignKey through (SourceFrom t) source (SourceTo t)))
        "missing_mapping_foreign_key" path "through source path does not reference the source object" ++
      diagnose (negb (hasForeignKey through (TargetFrom t) target (TargetTo t)))
        "missing_mapping_foreign_key" path "through target path does not reference the target object" ++
      diagnose (negb (compatiblePath through (SourceFrom t) source (SourceTo t)) || negb (compatiblePath through (TargetFrom t) target (TargetTo t)))
        "mapping_type_mismatch" path "foreign key path logical types do not match"
  | _, _, _ => [diagnostic_error "unresolved_mapping_object" path "source, target, and through objects must exist"]
  end.
Definition validateRelationMappings (c : PhysicalCatalog) (mappings : MappingConfig) : list Diagnostic :=
  let objects := index_by po_ID (fun o => o) (Objects c) (∅ : gmap ObjectID PhysicalObject) in
  concat (imap (validate_mapping objects) (mc_Relations mappings)).

(** ** [ValidateSemantic] *)
Definition semanticColumnNames (columns : list SemanticColumn) : gset string := list_to_set (map sc_Name columns).
Definition validateRelationColumns (path : string) (names : list string) (columns : gset string) : result unit :=
  check refuse_if (length names =? 0) (invalid path "path must not be empty" []);
  do _ <- foldi (fun _ name seen =>
    check refuse_if (unset name) (invalid path "path contains an empty column" []);
    check refuse_if (negb (bool_decide (name ∈ columns))) (invalid path "references unknown column %q" [AStr name]);
    check refuse_if (bool_decide (name ∈ seen)) (invalid path "path repeats column %q" [AStr name]);
    Ok ({[ name ]} ∪ seen)) 0 names (∅ : gset string);
  Ok tt.
Definition validate_semantic_column (i j : nat) (c : SemanticColumn) : result unit :=
  let p := at_member i "columns" j in
  check refuse_if (unset (sc_Name c) || unset (sc_Scalar c)) (invalid (p "") "name and scalar are required" []);
  check refuse_if (negb (one_of ["required"; "optional"; "generated"; "forbidden"] (InsertState c))) (invalid (p ".insert_state") "unknown state" []);
  check refuse_if (negb (one_of ["settable"; "forbidden"] (PatchState c))) (invalid (p ".patch_state") "unknown state" []);
  refuse_if (negb (one_of [CertaintyKnown; CertaintyDeclared; CertaintyUnknown] (sc_Certainty c))) (invalid (p ".certainty") "unknown certainty" []).
(** The checks of a many-through path, shared with the Go model. *)
Definition validate_through (path : string) (name : string) (nullable : bool) (from to : list string) (through : option Through)
    (columns targetColumns : gset string) (through_columns : ObjectID -> option (gset string)) : result unit :=
  check refuse_if (negb (validGeneratedIdentifier name)) (invalid (path +:+ ".name") "must be a valid Go identifier" []);
  match through with
  | Some t =>
      check refuse_if (nullable || unset (th_Object t)) (invalid path "invalid many-through metadata" []);
      match through_columns (th_Object t) with
      | None => Err (invalid (path +:+ ".through.object") "unknown through object" [])
      | Some throughColumns =>
          check refuse_if (negb (length from =? length (SourceFrom t)) || negb (length from =? length (SourceTo t))
                           || negb (length to =? length (TargetFrom t)) || negb (length to =? length (TargetTo t)))
                  (invalid path "invalid many-through path widths" []);
          check refuse_if (negb (same_columns from (SourceTo t))) (invalid (path +:+ ".from") "must equal through source_to" []);
          check refuse_if (negb (same_columns to (TargetTo t))) (invalid (path +:+ ".to") "must equal through target_to" []);
          check validateRelationColumns (path +:+ ".through.source_from") (SourceFrom t) throughColumns;
          check validateRelationColumns (path +:+ ".through.source_to") (SourceTo t) columns;
          check validateRelationColumns (path +:+ ".through.target_from") (TargetFrom t) throughColumns;
          validateRelationColumns (path +:+ ".through.target_to") (TargetTo t) targetColumns
      end
  | None => Err (invalid path "invalid many-through metadata" [])
  end.
Definition validate_semantic_relation (objects : gmap ObjectID SemanticObject) (i : nat) (columns : gset string) (j : nat)
    (r : SemanticRelation) (names : gset string) : result (gset string) :=
  let path := at_member i "relations" j "" in
  check refuse_if (unset (sr_Name r) || unset (sr_Target r) || (length (sr_From r) =? 0) || (length (sr_To r) =? 0))
          (invalid path "incomplete relation" []);
  check refuse_if (bool_decide (RelationGoName (sr_Name r) ∈ names)) (invalid (path +:+ ".name") "duplicate relation name" []);
  match objects !! sr_Target r with
  | None => Err (invalid (path +:+ ".target") "unknown target" [])
  | Some target =>
      check validateRelationColumns (path +:+ ".from") (sr_From r) columns;
      let targetColumns := semanticColumnNames (so_Columns target) in
      check validateRelationColumns (path +:+ ".to") (sr_To r) targetColumns;
      check (if one_of ["belongs_to"; "has_one"; "has_many"] (sr_Kind r)
             then refuse_if (is_some (sr_Through r) || negb (length (sr_From r) =? length (sr_To r)))
                    (invalid path "invalid belongs-to metadata" [])
             else if String.eqb (sr_Kind r) "many_through"
             then validate_through path (sr_Name r) (sr_Nullable r) (sr_From r) (sr_To r) (sr_Through r) columns targetColumns
                    (fun id => option_map (fun o => semanticColumnNames (so_Columns o)) (objects !! id))
             else Err (invalid (path +:+ ".kind") "unknown relation kind" []));
      Ok ({[ RelationGoName (sr_Name r) ]} ∪ names)
  end.
Definition validate_semantic_object (objects : gmap ObjectID SemanticObject) (i : nat) (o : SemanticObject)
    (st : gset ObjectID * gset QName) : result (gset ObjectID * gset QName) :=
  check refuse_if (unset (so_ID o)) (invalid (at_object i ".id") "must not be empty" []);
  check refuse_if (bool_decide (so_ID o ∈ st.1)) (invalid (at_object i ".id") "duplicate object ID" []);
  check refuse_if (bool_decide (PhysicalName o ∈ st.2)) (invalid (at_object i ".physical_name") "duplicate physical name" []);
  check checki (validate_semantic_column i) 0 (so_Columns o);
  do _ <- foldi (validate_semantic_relation objects i (semanticColumnNames (so_Columns o))) 0 (Relations o) ∅;
  Ok ({[ so_ID o ]} ∪ st.1, {[ PhysicalName o ]} ∪ st.2).
Definition validCertainty (c : string) : bool := one_of [CertaintyKnown; CertaintyDeclared; CertaintyUnknown] c.
Definition validateSemanticValue (value : SemanticValue) (path : string) : result unit :=
  check refuse_if (unset (sv_Name value) || unset (sv_Scalar value)) (invalid path "name and scalar are required" []);
  check refuse_if (negb (validCertainty (TypeCertainty value)) || negb (validCertainty (NullabilityCertainty value)))
          (invalid path "unknown certainty" []);
  check match sv_Integer value with
        | Some f =>
            check refuse_if (negb (String.eqb (sv_LogicalKind value) "integer")) (invalid (path +:+ ".integer") "facts do not match logical kind" []);
            refuse_if (set_and (fun z => z <? 0)%Z (if_DisplayWidth f)) (invalid (path +:+ ".integer.display_width") "must not be negative" [])
        | None => Ok tt end;
  check match sv_Native value with Some n => validateNative n (path +:+ ".native") | None => Ok tt end;
  refuse_if (String.eqb (TypeCertainty value) CertaintyKnown && unset (sv_Scalar value) && unset (sv_LogicalKind value)
             && negb (is_some (sv_Native value)))
    (invalid (path +:+ ".type_certainty") "known type requires logical kind or native descriptor" []).
Definition at_query (i : nat) (suffix : string) : string := "queries[" +:+ NatItoa i +:+ "]" +:+ suffix.
Definition cardinalities : list string := ["one"; "maybe"; "many"; "exec"].
Definition validate_semantic_query (i : nat) (q : SemanticQuery) (ids : gset QueryID) : result (gset QueryID) :=
  check refuse_if (unset (sq_ID q) || unset (sq_Name q)) (invalid (at_query i "") "ID and name are required" []);
  check refuse_if (negb (IsIdentifier (sq_Name q))) (invalid (at_query i ".name") "must be a valid identifier" []);
  check refuse_if (negb (one_of cardinalities (Cardinality q))) (invalid (at_query i ".cardinality") "unknown cardinality" []);
  check refuse_if (bool_decide (sq_ID q ∈ ids)) (invalid (at_query i ".id") "duplicate query ID" []);
  check checki (fun j v => validateSemanticValue v (at_query i (".values[" +:+ NatItoa j +:+ "]"))) 0 (Parameters q ++ Results q);
  Ok ({[ sq_ID q ]} ∪ ids).
Definition semantic_by_id (l : list SemanticObject) : gmap ObjectID SemanticObject := index_by so_ID (fun o => o) l ∅.
Definition ValidateSemantic (m : SemanticModel) : result unit :=
  do _ <- foldi (validate_semantic_object (semantic_by_id (sm_Objects m))) 0 (sm_Objects m) (∅, ∅);
  do _ <- foldi validate_semantic_query 0 (sm_Queries m) ∅;
  checki (fun i d => refuse_if (negb (one_of [DiagnosticError; DiagnosticWarning] (dg_Level d)))
                       (invalid ("diagnostics[" +:+ NatItoa i +:+ "].level") "unknown diagnostic level" [])) 0 (Diagnostics m).

(** ** [BuildSemantic] *)
Definition semantic_query (q : QueryAnalysis) : SemanticQuery :=
  MkSemanticQuery (qa_ID q) (qa_Name q) (qa_Parameters q) (qa_Results q) (qa_Cardinality q).
Definition failed (code path : string) (r : result unit) : list Diagnostic :=
  match r with Ok _ => [] | Err e => [MkDiagnostic DiagnosticError code path (AErr e)] end.
Definition build_relations (c : PhysicalCatalog) (mappings : MappingConfig) (candidates : list relationCandidate) (st : build_state) : build_state :=
  let st := fold_left (fun st k => appendSemanticRelation (rc_source k) (belongs_to k) (relationPath (sourceName k) (directName k)) st)
              candidates st in
  let st := fold_left (fun st k => appendSemanticRelation (rc_target k) (inverse_of (Objects c) candidates k)
                                     (relationPath (targetName k) (inverse_name candidates k)) st) candidates st in
  add_all_mapped 0 (mc_Relations mappings) st.
Definition BuildSemantic (c : PhysicalCatalog) (mappings : MappingConfig) (queries : list QueryAnalysis) : SemanticModel * list Diagnostic :=
  let ds := failed "invalid_mapping" "mappings" (ValidateMappingConfig (MkMappings [] (mc_Relations mappings)) "") ++
            failed "invalid_physical" "physical" (ValidatePhysical c) in
  let st := fold_left (add_object mappings) (Objects c) (MkBuild [] ∅ ∅ ds) in
  let '(candidates, reported) := relationCandidates c (object_ids (Objects c)) (object_columns (Objects c)) in
  let st := build_relations c mappings candidates (add_diagnostics reported st) in
  let diagnostics := sortDiagnostics (b_diagnostics st ++ validateRelationMappings c mappings ++ flat_map qa_Diagnostics queries) in
  let model := MkSemanticModel (b_objects st) (map semantic_query queries) diagnostics in
  let diagnostics := match ValidateSemantic model with
                     | Ok _ => diagnostics
                     | Err e => sortDiagnostics (diagnostics ++ [MkDiagnostic DiagnosticError "invalid_semantic" "semantic" (AErr e)])
                     end in
  (MkSemanticModel (b_objects st) (map semantic_query queries) diagnostics, diagnostics).
End Build.
