(* ===== verification/CompilerRelations.v ===== *)
(** * CompilerRelations: what [BuildSemantic] makes of a catalog

    Which relations the objects of the model have, and when the model is
    accepted. *)

From S2P Require Import Prelude GoText GoSort GoPath Schema TableValidate CompilerIR CompilerPhysical CompilerRound CompilerSemantic CompilerBuild.
Open Scope string_scope.
Open Scope list_scope.
Open Scope nat_scope.

Section Relations.
Context {unicode : Unicode} {case : CaseMap} {sort : SliceSort} {parser : GoParser} {range : MapRange}.

(** ** The state of the build *)
(** The indexes are those of the objects. *)
Definition indexed_by (st : build_state) : Prop :=
  NoDup (map so_ID (b_objects st)) /\
  forall id i, b_indexes st !! id = Some i <-> exists o, b_objects st !! i = Some o /\ so_ID o = id.
(** An object with the relations its identity is given. *)
Definition extended (rs : list (ObjectID * SemanticRelation)) (o : SemanticObject) : SemanticObject :=
  MkSemanticObject (so_ID o) (so_Kind o) (PhysicalName o) (so_Columns o)
    (Relations o ++ map snd (base.filter (fun p => p.1 = so_ID o) rs)).
Lemma extended_nil o : extended [] o = o.
Proof. unfold extended. simpl. rewrite app_nil_r. by destruct o. Qed.
Lemma extended_app rs1 rs2 o : extended rs2 (extended rs1 o) = extended (rs1 ++ rs2) o.
Proof. unfold extended. simpl. by rewrite filter_app, map_app, app_assoc. Qed.
Lemma extended_ID rs l : map so_ID (map (extended rs) l) = map so_ID l.
Proof. rewrite map_map. by apply map_ext. Qed.

Lemma alter_extended st source i r :
  indexed_by st -> b_indexes st !! source = Some i ->
  alter (add_relation_at r) i (b_objects st) = map (extended [(source, r)]) (b_objects st).
Proof.
  intros [Hd Hi] E. apply Hi in E as (o & Ho & Es). apply list_eq. intros j. rewrite list_lookup_fmap.
  destruct (decide (i = j)) as [<-|N].
  - rewrite list_lookup_alter_eq, Ho. simpl. f_equal. unfold extended, add_relation_at. by rewrite filter_cons_True by (simpl; congruence).
  - rewrite list_lookup_alter_ne by done. destruct (b_objects st !! j) as [o'|] eqn:E; simpl; [|done]. f_equal.
    unfold extended. rewrite filter_cons_False; [simpl; rewrite app_nil_r; by destruct o'|]. simpl. intros E'. apply N.
    apply (NoDup_lookup (map so_ID (b_objects st)) _ _ source); [done| |]; rewrite list_lookup_fmap, ?Ho, ?E; simpl; congruence.
Qed.
Lemma missing_extended st source r :
  indexed_by st -> b_indexes st !! source = None -> b_objects st = map (extended [(source, r)]) (b_objects st).
Proof.
  intros [Hd Hi] E. rewrite <- (map_id (b_objects st)) at 1. apply map_ext_in. intros o Ho%list_elem_of_In.
  apply list_elem_of_lookup in Ho as [i Ho]. unfold extended. rewrite filter_cons_False; [simpl; rewrite app_nil_r; by destruct o|].
  simpl. intros ->. assert (b_indexes st !! so_ID o = Some i) by (apply Hi; eauto). congruence.
Qed.
Lemma indexed_same st st' rs :
  indexed_by st -> b_objects st' = map (extended rs) (b_objects st) -> b_indexes st' = b_indexes st -> indexed_by st'.
Proof.
  intros [Hd Hi] Eo Ei. split; rewrite Eo; [by rewrite extended_ID|]. intros id i. rewrite Ei, Hi.
  setoid_rewrite list_lookup_fmap. setoid_rewrite fmap_Some. split.
  - intros (o & Ho & E). exists (extended rs o). eauto.
  - intros (o & (o' & Ho & ->) & E). eauto.
Qed.
Lemma append_ok source r path st :
  indexed_by st ->
  b_objects (appendSemanticRelation source r path st) = map (extended [(source, r)]) (b_objects st) /\
  b_indexes (appendSemanticRelation source r path st) = b_indexes st.
Proof.
  intros H. unfold appendSemanticRelation. destruct (b_indexes st !! source) as [i|] eqn:E; simpl.
  - split; [|done]. by apply alter_extended.
  - split; [|done]. by apply missing_extended.
Qed.
Lemma fold_append_ok {A} (source : A -> ObjectID) (r : A -> SemanticRelation) (path : A -> string) l st :
  indexed_by st ->
  let st' := fold_left (fun st k => appendSemanticRelation (source k) (r k) (path k) st) l st in
  b_objects st' = map (extended (map (fun k => (source k, r k)) l)) (b_objects st) /\ indexed_by st'.
Proof.
  revert st. induction l as [|k l IH]; intros st H; simpl.
  - split; [|done]. rewrite <- (map_id (b_objects st)) at 1. apply map_ext. intros o. by rewrite extended_nil.
  - destruct (append_ok (source k) (r k) (path k) st H) as [Eo Ei].
    destruct (IH _ (indexed_same _ _ _ H Eo Ei)) as [-> Hi]. split; [|done]. rewrite Eo, map_map.
    apply map_ext. intros o. by rewrite extended_app.
Qed.
Lemma add_mapped_ok i l st :
  indexed_by st ->
  b_objects (add_all_mapped i l st) = map (extended (map (fun m => (rm_Source m, many_through m)) l)) (b_objects st).
Proof.
  revert i st. induction l as [|m l IH]; intros i st H; simpl.
  - rewrite <- (map_id (b_objects st)) at 1. apply map_ext. intros o. by rewrite extended_nil.
  - assert (b_objects (add_mapped i m st) = map (extended [(rm_Source m, many_through m)]) (b_objects st) /\
            b_indexes (add_mapped i m st) = b_indexes st) as [Eo Ei].
    { unfold add_mapped. destruct (b_indexes st !! rm_Source m) as [j|] eqn:E; simpl.
      - split; [by apply alter_extended|done].
      - split; [by apply missing_extended|done]. }
    rewrite (IH _ _ (indexed_same _ _ _ H Eo Ei)), Eo, map_map. apply map_ext. intros o. by rewrite extended_app.
Qed.

(** The objects before any relation. *)
Definition semantic_object (mappings : MappingConfig) (o : PhysicalObject) : SemanticObject :=
  MkSemanticObject (po_ID o) (po_Kind o) (po_QName o) (map (fun col => (semantic_column o mappings col).1) (po_Columns o)) [].
Lemma add_objects_ok mappings l st :
  NoDup (map so_ID (b_objects st) ++ map po_ID l) -> indexed_by st ->
  let st' := fold_left (add_object mappings) l st in
  b_objects st' = b_objects st ++ map (semantic_object mappings) l /\ indexed_by st'.
Proof.
  revert st. induction l as [|o l IH]; intros st Hd H; cbn [fold_left map] in *.
  { by rewrite app_nil_r. }
  assert (b_objects (add_object mappings st o) = b_objects st ++ [semantic_object mappings o]) as Eo.
  { unfold add_object, semantic_object. simpl. by rewrite map_map. }
  assert (indexed_by (add_object mappings st o)) as Hi.
  { split; rewrite Eo.
    - rewrite map_app. simpl. rewrite cons_middle, app_assoc in Hd. by apply NoDup_app in Hd as [Hd _].
    - intros id i. simpl. apply NoDup_app in Hd as (_ & Hn & _). destruct H as [_ Hx].
      destruct (decide (id = po_ID o)) as [->|N].
      + rewrite lookup_insert_eq. split.
        * intros [= <-]. exists (semantic_object mappings o). split; [|done]. by rewrite lookup_app_r, Nat.sub_diag by lia.
        * intros (o' & Ho & E). f_equal. destruct (Nat.lt_ge_cases i (length (b_objects st))) as [L|L].
          -- rewrite lookup_app_l in Ho by done. exfalso. apply (Hn (po_ID o)); [|apply list_elem_of_here].
             rewrite <- E. apply list_elem_of_fmap_2. by eapply list_elem_of_lookup_2.
          -- apply lookup_lt_Some in Ho. rewrite length_app in Ho. simpl in Ho. lia.
      + rewrite lookup_insert_ne by done. rewrite Hx. split; intros (o' & Ho & E); exists o'; (split; [|done]).
        * apply lookup_app_l_Some. done.
        * apply lookup_app_Some in Ho as [Ho|[L Ho]]; [done|]. apply list_lookup_singleton_Some in Ho as [_ <-]. by destruct N. }
  destruct (IH (add_object mappings st o)) as [-> Hf]; [|done|split; [|done]].
  - rewrite Eo, map_app. simpl. by rewrite <- app_assoc.
  - by rewrite Eo, <- app_assoc.
Qed.

(** The relations of the model's objects, in the order they were added. *)
Lemma BuildSemantic_objects c mappings queries :
  NoDup (map po_ID (Objects c)) ->
  let candidates := (relationCandidates c (object_ids (Objects c)) (object_columns (Objects c))).1 in
  sm_Objects (BuildSemantic c mappings queries).1 =
  map (extended (map (fun k => (rc_source k, belongs_to k)) candidates ++
                 map (fun k => (rc_target k, inverse_of (Objects c) candidates k)) candidates ++
                 map (fun m => (rm_Source m, many_through m)) (mc_Relations mappings)))
    (map (semantic_object mappings) (Objects c)).
Proof.
  intros Hd. cbv zeta. unfold BuildSemantic. set (ds := failed _ _ _ ++ failed _ _ _).
  destruct (relationCandidates c _ _) as [k reported]. cbn [fst sm_Objects].
  assert (indexed_by (MkBuild [] ∅ ∅ ds)) as H0.
  { split; [constructor|]. intros id i. simpl. rewrite lookup_empty. split; [done|]. intros (o & Ho & _). by rewrite lookup_nil in Ho. }
  destruct (add_objects_ok mappings (Objects c) (MkBuild [] ∅ ∅ ds) Hd H0) as [E1 H1]. simpl in E1.
  set (st := fold_left (add_object mappings) (Objects c) _) in *.
  assert (indexed_by (add_diagnostics reported st)) as H2 by exact H1.
  unfold build_relations.
  destruct (fold_append_ok rc_source belongs_to (fun k => relationPath (sourceName k) (directName k)) k _ H2) as [E3 H3].
  cbv zeta in E3, H3. set (st3 := fold_left _ k (add_diagnostics reported st)) in *.
  destruct (fold_append_ok rc_target (inverse_of (Objects c) k) (fun x => relationPath (targetName x) (inverse_name k x)) k _ H3) as [E4 H4].
  cbv zeta in E4, H4. set (st4 := fold_left _ k st3) in *.
  rewrite (add_mapped_ok 0 _ _ H4), E4, E3. simpl. rewrite E1, !map_map. apply map_ext. intros o.
  by rewrite !extended_app.
Qed.

(** ** Candidates of a valid catalog *)
(** The foreign key [k] of [o] leads to [t]. *)
Definition foreign_edge (c : PhysicalCatalog) (o : PhysicalObject) (k : PhysicalConstraint) (r : ForeignReference)
    (t : PhysicalObject) : Prop :=
  o ∈ Objects c /\ k ∈ Constraints o /\ pk_Kind k = "foreign_key" /\ Reference k = Some r /\
  t ∈ Objects c /\ targets (Engine c) (po_Schema o) r (map po_QName (Objects c)) (po_QName t).
Definition candidate (o : PhysicalObject) (i : nat) (k : PhysicalConstraint) (r : ForeignReference) (t : PhysicalObject) : relationCandidate :=
  MkCandidate (po_ID o) (po_ID t) (po_QName o) (po_QName t) (pk_Columns k) (rf_Columns r) (nullable_path o (pk_Columns k))
    (relationName (po_Name o) (pk_Columns k) (po_Name t)) (relationPhysicalIdentity o k (rf_Columns r) i (po_QName t)).

Lemma object_ids_lookup l q id :
  NoDup (map po_QName l) -> object_ids l !! q = Some id <-> exists o, o ∈ l /\ q = po_QName o /\ id = po_ID o.
Proof. apply index_by_lookup. Qed.
Lemma candidate_of_edge c o i k r t :
  physical_wf c -> foreign_edge c o k r t ->
  candidate_of (Engine c) (object_ids (Objects c)) (object_columns (Objects c)) o i k = ([candidate o i k r t], []).
Proof.
  intros (_ & _ & Hd & _) (Ho & Hk & Ek & Er & Ht & Hq). unfold candidate_of. rewrite Er, Ek. simpl.
  assert (resolveForeignReference (Engine c) (po_Schema o) r (object_columns (Objects c)) = (po_QName t, Some (column_set (po_Columns t)))) as ->.
  { apply (resolve_exact _ _ _ _ (map po_QName (Objects c))).
    - intros q. rewrite elem_of_dom. unfold is_Some. setoid_rewrite (object_columns_lookup _ _ _ Hd).
      rewrite list_elem_of_fmap. split; [intros (x & -> & Hx)|intros (cs & x & Hx & -> & _)]; eauto.
    - split; [done|]. apply object_columns_lookup; eauto. }
  assert (object_ids (Objects c) !! po_QName t = Some (po_ID t)) as -> by (apply object_ids_lookup; eauto).
  done.
Qed.
Lemma edge_exists c o k :
  physical_wf c -> o ∈ Objects c -> k ∈ Constraints o -> pk_Kind k = "foreign_key" -> exists r t, foreign_edge c o k r t.
Proof.
  intros (_ & _ & _ & Hw) Ho Hk Ek. rewrite Forall_forall in Hw. destruct (Hw o Ho) as (_ & _ & _ & _ & _ & _ & Hc & _).
  rewrite Forall_forall in Hc. destruct (Hc k Hk) as (_ & _ & Hr & Hf). destruct (Reference k) as [r|] eqn:Er; [|by destruct (Hr Ek)].
  destruct (Hf r eq_refl) as (_ & _ & _ & t & Ht & Hq & _). exists r, t. by unfold foreign_edge.
Qed.
Lemma edge_unique c o k r t r' t' :
  physical_wf c -> foreign_edge c o k r t -> foreign_edge c o k r' t' -> r' = r /\ t' = t.
Proof.
  intros Hc H1 H2. pose proof (candidate_of_edge c o 0 k r t Hc H1) as E1.
  pose proof (candidate_of_edge c o 0 k r' t' Hc H2) as E2.
  destruct H1 as (_ & _ & _ & R1 & T1 & _), H2 as (_ & _ & _ & R2 & T2 & _). split; [congruence|].
  assert (po_ID t' = po_ID t) as Ei by (rewrite E1 in E2; by injection E2).
  destruct Hc as (_ & Hi & _). by apply (NoDup_map_inj po_ID (Objects c)).
Qed.
Lemma found_of_object c o :
  physical_wf c -> o ∈ Objects c ->
  let found := object_candidates (Engine c) (object_ids (Objects c)) (object_columns (Objects c)) o in
  flat_map snd found = [] /\
  (forall x, x ∈ flat_map fst found <->
     exists i k, Constraints o !! i = Some k /\ exists r t, foreign_edge c o k r t /\ x = candidate o i k r t) /\
  length (flat_map fst found) = length (base.filter (fun k => pk_Kind k = "foreign_key") (Constraints o)).
Proof.
  intros Hc Ho. apply flat_imap. intros i k Hk. apply list_elem_of_lookup_2 in Hk.
  destruct (decide (pk_Kind k = "foreign_key")) as [Ek|Ek]; [left|right]; (split; [done|]).
  - destruct (edge_exists c o k Hc Ho Hk Ek) as (r & t & He). exists (candidate o i k r t).
    split; [by apply candidate_of_edge|]. intros x. split; [|intros ->; eauto].
    intros (r' & t' & He' & ->). by destruct (edge_unique c o k r t r' t' Hc He He') as [-> ->].
  - split; [|by intros x (r & t & (_ & _ & ? & _) & _)]. unfold candidate_of. destruct (Reference k); [|done].
    by apply String.eqb_neq in Ek as ->.
Qed.

Lemma candidates_ok c :
  physical_wf c ->
  let '(candidates, reported) := relationCandidates c (object_ids (Objects c)) (object_columns (Objects c)) in
  reported = [] /\
  (forall x, x ∈ candidates <-> exists o i k r t, Constraints o !! i = Some k /\ foreign_edge c o k r t /\ x = candidate o i k r t).
Proof.
  intros Hc. unfold relationCandidates.
  set (found := object_candidates (Engine c) (object_ids (Objects c)) (object_columns (Objects c))).
  split.
  - apply flat_map_nil_iff. intros x (o & Hx & Ho)%elem_of_flat_map. destruct (found_of_object c o Hc Ho) as (Hn & _).
    destruct (proj1 (flat_map_nil_iff snd _) Hn x Hx). done.
  - intros x. rewrite sort_SliceStable_elem, elem_of_flat_map. setoid_rewrite elem_of_flat_map. split.
    + intros (p & Hx & o & Hp & Ho). destruct (found_of_object c o Hc Ho) as (_ & Hf & _).
      destruct (proj1 (Hf x)) as (i & k & Hk & r & t & He & ->); [apply elem_of_flat_map; eauto|]. eauto 10.
    + intros (o & i & k & r & t & Hk & He & ->). destruct (found_of_object c o Hc (proj1 He)) as (_ & Hf & _).
      destruct (proj1 (elem_of_flat_map _ _ _) (proj2 (Hf (candidate o i k r t)) ltac:(eauto 10))) as (p & Hx & Hp).
      exists p. split; [done|]. exists o. split; [done|]. apply He.
Qed.

(** ** Accepted models *)
Definition path_wf (columns names : list string) : Prop :=
  names <> [] /\ NoDup names /\ Forall (fun n => n <> "" /\ n ∈ columns) names.
Definition relation_wf (m : SemanticModel) (o : SemanticObject) (r : SemanticRelation) : Prop :=
  exists target, target ∈ sm_Objects m /\ so_ID target = sr_Target r /\
    path_wf (map sc_Name (so_Columns o)) (sr_From r) /\ path_wf (map sc_Name (so_Columns target)) (sr_To r) /\
    (sr_Kind r <> "many_through" -> sr_Through r = None /\ length (sr_From r) = length (sr_To r)).
Lemma validateRelationColumns_ok path names columns :
  validateRelationColumns path names (list_to_set columns) = Ok tt <-> path_wf columns names.
Proof.
  unfold validateRelationColumns, path_wf. rewrite check_ok, refuse_if_ok, length_nil, do_ok.
  setoid_rewrite (foldi_distinct (fun n : string => n) (fun n => n <> "" /\ n ∈ columns)).
  - rewrite map_id. split.
    + intros (H1 & s & ((H2 & H3 & _) & _) & _). done.
    + intros (H1 & H2 & H3). split; [done|]. eexists. split; [|done]. split; [|done]. split_and!; [done|done|].
      apply Forall_forall. intros x _. apply not_elem_of_empty.
  - intros j n seen s1. rewrite !check_ok, !refuse_if_ok, unset_false, negb_false_iff, bool_decide_eq_true, bool_decide_eq_false,
      elem_of_list_to_set. split; [intros (? & ? & ? & [= <-])|intros ((? & ?) & ? & ->)]; done.
Qed.

Lemma semantic_by_id_lookup l id o :
  NoDup (map so_ID l) -> semantic_by_id l !! id = Some o <-> o ∈ l /\ so_ID o = id.
Proof.
  intros Hd. unfold semantic_by_id. rewrite index_by_lookup by done.
  split; [intros (x & Hx & -> & ->); done|intros [Hx <-]; eauto].
Qed.
Lemma validate_semantic_relation_ok m i j (o : SemanticObject) r names names' :
  NoDup (map so_ID (sm_Objects m)) ->
  validate_semantic_relation (semantic_by_id (sm_Objects m)) i (semanticColumnNames (so_Columns o)) j r names = Ok names' ->
  (RelationGoName (sr_Name r) ∉ names) /\ names' = {[ RelationGoName (sr_Name r) ]} ∪ names /\ relation_wf m o r.
Proof.
  intros Hd. unfold validate_semantic_relation, relation_wf, semanticColumnNames.
  rewrite !check_ok, !refuse_if_ok, bool_decide_eq_false. intros (_ & Hn & H).
  destruct (semantic_by_id (sm_Objects m) !! sr_Target r) as [target|] eqn:E; [|done].
  apply semantic_by_id_lookup in E as [Ht Ei]; [|done].
  rewrite !check_ok, !validateRelationColumns_ok in H. destruct H as (H1 & H2 & H3 & [= <-]). split; [done|]. split; [done|].
  exists target. split_and!; try done. intros Hk. destruct (one_of _ (sr_Kind r)).
  - apply refuse_if_ok, orb_false_iff in H3 as [H3 H4]. apply negb_false_iff, Nat.eqb_eq in H4. by destruct (sr_Through r).
  - by apply String.eqb_neq in Hk as Hk'; rewrite Hk' in H3.
Qed.
Lemma relations_loop_ok m i j (o : SemanticObject) l names names' :
  NoDup (map so_ID (sm_Objects m)) ->
  foldi (validate_semantic_relation (semantic_by_id (sm_Objects m)) i (semanticColumnNames (so_Columns o))) j l names = Ok names' ->
  (NoDup (map (fun r => RelationGoName (sr_Name r)) l) /\ Forall (fun r => RelationGoName (sr_Name r) ∉ names) l) /\
  Forall (relation_wf m o) l.
Proof.
  intros Hd. revert j names. induction l as [|r l IH]; intros j names; simpl; [repeat constructor|].
  intros (names1 & (Hn & -> & Hr)%validate_semantic_relation_ok & [[H1 H2] H3]%IH)%do_ok; [|done].
  apply (Forall_fresh (fun r => RelationGoName (sr_Name r)) r l) in H2 as [H2 H4].
  split; [split; by constructor|by constructor].
Qed.
Lemma objects_loop_ids objects i l st st' :
  foldi (validate_semantic_object objects) i l st = Ok st' -> NoDup (map so_ID l) /\ Forall (fun o => so_ID o ∉ st.1) l.
Proof.
  revert i st. induction l as [|o l IH]; intros i st; simpl; [repeat constructor|].
  intros (st1 & H & [H1 H2]%IH)%do_ok. unfold validate_semantic_object in H. rewrite !check_ok, !refuse_if_ok in H.
  destruct H as (_ & Hn & _ & _ & (_ & _ & [= <-])%do_ok). apply bool_decide_eq_false in Hn. simpl in H2.
  apply (Forall_fresh so_ID o l) in H2 as [H2 H3]. split; [|]; by constructor.
Qed.
Lemma ValidateSemantic_relations m :
  ValidateSemantic m = Ok tt ->
  Forall (fun o => NoDup (map (fun r => RelationGoName (sr_Name r)) (Relations o)) /\ Forall (relation_wf m o) (Relations o)) (sm_Objects m).
Proof.
  unfold ValidateSemantic. intros (st & H & _)%do_ok. destruct (objects_loop_ids _ _ _ _ _ H) as [Hd _].
  revert H. generalize 0 as i. generalize (∅ : gset ObjectID, ∅ : gset QName) as st0.
  assert (forall l i st0, foldi (validate_semantic_object (semantic_by_id (sm_Objects m))) i l st0 = Ok st ->
    Forall (fun o => NoDup (map (fun r => RelationGoName (sr_Name r)) (Relations o)) /\ Forall (relation_wf m o) (Relations o)) l) as Hl.
  2:{ intros st0 i. apply Hl. }
  induction l as [|o l IH]; intros i st0; simpl; [constructor|]. intros (st1 & H & Hf)%do_ok. constructor; [|by eapply IH].
  unfold validate_semantic_object in H. rewrite !check_ok in H. destruct H as (_ & _ & _ & _ & (names & H & _)%do_ok).
  by apply relations_loop_ok in H as [[? _] ?].
Qed.
Lemma BuildSemantic_accepted c mappings queries model :
  BuildSemantic c mappings queries = (model, []) -> ValidateSemantic model = Ok tt.
Proof.
  unfold BuildSemantic. destruct (relationCandidates c _ _) as [k reported]. set (st := build_relations _ _ _ _).
  set (ds := sortDiagnostics _). destruct (ValidateSemantic (MkSemanticModel (b_objects st) (map semantic_query queries) ds)) as [[]|e] eqn:E.
  - intros [= <- _]. exact E.
  - intros [= _ H]. unfold sortDiagnostics in H. apply sort_Slice_empty in H. by destruct ds.
Qed.

(** ** The relations an object should have *)
Definition direct_of (o : PhysicalObject) (k : PhysicalConstraint) (r : ForeignReference) (t : PhysicalObject) : SemanticRelation :=
  MkSemanticRelation (relationName (po_Name o) (pk_Columns k) (po_Name t)) "belongs_to" (pk_Columns k) (po_ID t) (rf_Columns r)
    (nullable_path o (pk_Columns k)) None.
(** The columns are a primary key or a unique constraint of the object. *)
Definition unique_path (o : PhysicalObject) (columns : list string) : Prop :=
  exists k, k ∈ Constraints o /\ (pk_Kind k = "primary_key" \/ pk_Kind k = "unique") /\ pk_Columns k = columns.
Definition is_inverse (o : PhysicalObject) (k : PhysicalConstraint) (r : ForeignReference) (t : PhysicalObject) (rel : SemanticRelation) : Prop :=
  sr_From rel = rf_Columns r /\ sr_To rel = pk_Columns k /\ sr_Target rel = po_ID o /\ sr_Nullable rel = false /\ sr_Through rel = None /\
  (sr_Kind rel = "has_one" /\ unique_path o (pk_Columns k) \/ sr_Kind rel = "has_many" /\ ~ unique_path o (pk_Columns k)) /\
  (sr_Name rel = RelationGoName (po_Name o) \/ sr_Name rel = sr_Name (direct_of o k r t) +:+ RelationGoName (po_Name o)).
Lemma completeUniqueConstraint_ok o columns : completeUniqueConstraint o columns = true <-> unique_path o columns.
Proof.
  unfold completeUniqueConstraint, unique_path. rewrite existsb_exists. setoid_rewrite <- list_elem_of_In.
  setoid_rewrite andb_true_iff. setoid_rewrite orb_true_iff. setoid_rewrite String.eqb_eq. unfold same_columns.
  by setoid_rewrite bool_decide_eq_true.
Qed.
Lemma physicalObjectByID_ok l o : NoDup (map po_ID l) -> o ∈ l -> physicalObjectByID l (po_ID o) = Some o.
Proof.
  induction l as [|x l IH]; simpl; [by intros _ ?%not_elem_of_nil|]. intros [Hn Hd]%NoDup_cons [->|Ho]%elem_of_cons.
  - by rewrite String.eqb_refl.
  - destruct (String.eqb_spec (po_ID x) (po_ID o)) as [E|_]; [|auto]. destruct Hn. rewrite E. by apply list_elem_of_fmap_2.
Qed.
Lemma inverse_is_inverse c candidates o i k r t :
  physical_wf c -> foreign_edge c o k r t -> is_inverse o k r t (inverse_of (Objects c) candidates (candidate o i k r t)).
Proof.
  intros (_ & Hd & _) (Ho & _). unfold is_inverse, inverse_of, inverse_name. simpl. rewrite (physicalObjectByID_ok _ _ Hd Ho).
  split_and!; try done.
  - destruct (completeUniqueConstraint o (pk_Columns k)) eqn:E; [left|right]; (split; [done|]).
    + by apply completeUniqueConstraint_ok.
    + intros H. apply completeUniqueConstraint_ok in H. congruence.
  - destruct (1 <? pair_count _ _); [by right|by left].
Qed.

Definition relations_of (c : PhysicalCatalog) (mappings : MappingConfig) (o : PhysicalObject) (so : SemanticObject) : Prop :=
  so_ID so = po_ID o /\ so_Kind so = po_Kind o /\ PhysicalName so = po_QName o /\
  so_Columns so = map (fun col => (semantic_column o mappings col).1) (po_Columns o) /\
  (forall rel, rel ∈ Relations so ->
     (exists k r t, foreign_edge c o k r t /\ rel = direct_of o k r t) \/
     (exists o' k r, foreign_edge c o' k r o /\ is_inverse o' k r o rel) \/
     (exists m, m ∈ mc_Relations mappings /\ rm_Source m = po_ID o /\ rel = many_through m)) /\
  (forall k r t, foreign_edge c o k r t -> direct_of o k r t ∈ Relations so) /\
  (forall o' k r, foreign_edge c o' k r o -> exists rel, rel ∈ Relations so /\ is_inverse o' k r o rel) /\
  (forall m, m ∈ mc_Relations mappings -> rm_Source m = po_ID o -> many_through m ∈ Relations so).
Lemma extended_relations rs o r : r ∈ Relations (extended rs o) <-> r ∈ Relations o \/ (so_ID o, r) ∈ rs.
Proof.
  unfold extended. simpl. rewrite elem_of_app, list_elem_of_fmap. setoid_rewrite list_elem_of_filter. split.
  - intros [?|([id r'] & -> & E & H)]; [by left|right]. simpl in *. by subst.
  - intros [?|H]; [by left|right]. by exists (so_ID o, r).
Qed.

Lemma object_relations c mappings candidates o :
  physical_wf c -> o ∈ Objects c ->
  (forall x, x ∈ candidates <-> exists o i k r t, Constraints o !! i = Some k /\ foreign_edge c o k r t /\ x = candidate o i k r t) ->
  relations_of c mappings o
    (extended (map (fun k => (rc_source k, belongs_to k)) candidates ++
               map (fun k => (rc_target k, inverse_of (Objects c) candidates k)) candidates ++
               map (fun m => (rm_Source m, many_through m)) (mc_Relations mappings)) (semantic_object mappings o)).
Proof.
  intros Hc Ho Hx. unfold relations_of. split_and!; try done.
  - intros rel [?%not_elem_of_nil|H]%extended_relations; [done|]. simpl in H.
    rewrite !elem_of_app, !list_elem_of_fmap in H. destruct H as [(x & [= E ->] & Hin)|[(x & [= E ->] & Hin)|(m & [= E ->] & Hin)]].
    + apply Hx in Hin as (o' & i & k & r & t & Hk & He & ->). left. simpl in E.
      apply (NoDup_map_inj po_ID (Objects c)) in E; [|apply Hc|apply He|done]. subst o'. by exists k, r, t.
    + apply Hx in Hin as (o' & i & k & r & t & Hk & He & ->). right. left. simpl in E. pose proof He as (_ & _ & _ & _ & Ht & _).
      apply (NoDup_map_inj po_ID (Objects c)) in E; [|apply Hc|done|done]. subst t. exists o', k, r. split; [done|]. by apply inverse_is_inverse.
    + right. right. by exists m.
  - intros k r t He. apply extended_relations. right. rewrite elem_of_app. left. simpl. apply list_elem_of_fmap.
    pose proof He as (_ & Hk & _). apply list_elem_of_lookup in Hk as [i Hk]. exists (candidate o i k r t). split; [done|].
    apply Hx. eauto 10.
  - intros o' k r He. pose proof He as (_ & Hk & _). apply list_elem_of_lookup in Hk as [i Hk].
    exists (inverse_of (Objects c) candidates (candidate o' i k r o)). split; [|by apply inverse_is_inverse].
    apply extended_relations. right. rewrite !elem_of_app. right. left. simpl. apply list_elem_of_fmap.
    exists (candidate o' i k r o). split; [done|]. apply Hx. eauto 10.
  - intros m Hm E. apply extended_relations. right. rewrite !elem_of_app. right. right. simpl. apply list_elem_of_fmap.
    exists m. by rewrite E.
Qed.

(** C21 The relations of a model. Of a valid catalog, [BuildSemantic] makes one
    semantic object per object, in order, whose relations are: for each of its
    foreign keys, the "belongs_to" relation to the object the key resolves to,
    nullable when a column of the key is; for each foreign key that resolves
    to it, the inverse relation back, "has_one" exactly when the key's columns
    are a complete primary or unique key of the referring object, "has_many"
    otherwise; and the mapped many-through relations of its identity; and none
    else.  When nothing is reported, the Go names of an object's relations are
    distinct and every relation leads from columns of the object to columns of
    an object of the model, pairwise unless it goes through a junction. *)
Theorem semantic_relations c mappings queries model ds :
  ValidatePhysical c = Ok tt -> BuildSemantic c mappings queries = (model, ds) ->
  Forall2 (relations_of c mappings) (Objects c) (sm_Objects model) /\
  (ds = [] -> Forall (fun so => NoDup (map (fun r => RelationGoName (sr_Name r)) (Relations so)) /\
                                Forall (relation_wf model so) (Relations so)) (sm_Objects model)).
Proof.
  intros Hc%ValidatePhysical_ok E. split.
  - pose proof (BuildSemantic_objects c mappings queries (proj1 (proj2 Hc))) as Ho. rewrite E in Ho. cbn [fst] in Ho. rewrite Ho, map_map.
    pose proof (candidates_ok c Hc) as Hx. destruct (relationCandidates c _ _) as [candidates reported]. destruct Hx as [_ Hx].
    apply Forall2_fmap_r, Forall_Forall2_diag, Forall_forall. intros o Hin. by apply object_relations.
  - intros ->. apply ValidateSemantic_relations. by eapply BuildSemantic_accepted.
Qed.
End Relations.

(** ** The store of authors and posts *)
(** Enough of the Go parser for [a], [a.b] and [a.b[c]]. *)
Definition parse_operand (s : string) : option GoExpr :=
  match Split s "." with
  | [x] => if IsIdentifier x then Some (GoIdent x) else None
  | [x; sel] => if IsIdentifier x && IsIdentifier sel then Some (GoSelector (GoIdent x) sel) else None
  | _ => None
  end.
Definition small_parser : GoParser := {| ParseExpr s :=
  match Split s "[" with
  | [x] => parse_operand x
  | [x; index] => if HasSuffix index "]" then
                    match parse_operand x, parse_operand (TrimSuffix index "]") with
                    | Some x, Some index => Some (GoIndex x index)
                    | _, _ => None
                    end
                  else None
  | _ => None
  end |}.
Definition store_model : SemanticModel := (BuildSemantic (parser := small_parser) store_assigned (MkMappings [] []) []).1.
Lemma store_valid : ValidatePhysical store_assigned = Ok tt.
Proof. vm_compute. reflexivity. Qed.
Lemma store_built : BuildSemantic (parser := small_parser) store_assigned (MkMappings [] []) [] = (store_model, []).
Proof. vm_compute. reflexivity. Qed.
Lemma semantic_relations_witness :
  map (fun so => map (fun r => (sr_Name r, sr_Kind r)) (Relations so)) (sm_Objects store_model) =
    [[("Author", "belongs_to")]; [("Posts", "has_many")]] /\
  Forall (fun so => Forall (relation_wf store_model so) (Relations so)) (sm_Objects store_model).
Proof.
  destruct (semantic_relations (parser := small_parser) store_assigned (MkMappings [] []) [] store_model [] store_valid store_built) as [_ H].
  split; [vm_compute; reflexivity|]. eapply Forall_impl; [exact (H eq_refl)|]. by intros so [_ Hr].
Defined.
