(* ===== verification/CompilerGo.v ===== *)
(** * CompilerGo: [internal/compilerir/gomodel.go] and [ValidateGo]

    The Go model the emitters print: names and Go types for the objects and
    queries of a semantic model, and its validation.  Which columns a caller
    may write is decided here. *)

From S2P Require Import Prelude GoText GoSort GoPath Schema TableValidate CompilerIR CompilerPhysical CompilerRound CompilerSemantic CompilerBuild CompilerRelations.
Open Scope string_scope.
Open Scope list_scope.
Open Scope nat_scope.

(** ** Data *)
Record GoField := MkField { gf_Name : string; gf_Type : string; gf_Codec : string; gf_Nullable : bool }.
Record GoShape := MkShape { gs_Name : string; Fields : list GoField; DecoderName : string }.
Record GoColumn := MkGoColumn {
  gc_Name : string; gc_PhysicalName : string; gc_Scalar : string; gc_GoType : string; gc_Codec : string;
  gc_InsertState : string; gc_PatchState : string; gc_Nullable : bool }.
Record GoRelation := MkGoRelation {
  gr_Name : string; gr_Target : ObjectID; gr_Kind : string; gr_Nullable : bool; gr_From : list string; gr_To : list string;
  gr_Through : option Through }.
Record GoObject := MkGoObject {
  go_ID : ObjectID; SourceName : string; Row : GoShape; Create : option GoShape; Patch : option GoShape;
  go_Columns : list GoColumn; go_Relations : list GoRelation }.
Record GoQuery := MkGoQuery {
  gq_ID : QueryID; gq_Name : string; gq_Parameters : list GoField; gq_Result : option GoShape; ProjectionName : string;
  gq_Cardinality : string }.
Record GoFile := MkGoFile { fl_Path : string; Declarations : list string }.
Record GoModel := MkGoModel {
  Package : string; gm_Imports : list GoImport; gm_Files : list GoFile; gm_Objects : list GoObject; gm_Queries : list GoQuery }.
Record ObjectGoName := MkObjectName {
  on_ID : ObjectID; on_Source : string; on_Row : string; on_Create : string; on_Patch : string; on_File : string }.
Record QueryGoName := MkQueryName {
  qn_ID : QueryID; qn_Function : string; qn_Result : string; qn_Projection : string; qn_Decoder : string; qn_File : string }.
Record ColumnGoBinding := MkColumnBinding {
  cb_Object : ObjectID; cb_Column : string; cb_Type : string; cb_NullableType : string; cb_Imports : list GoImport }.
Record GoConfig := MkGoConfig {
  cf_Package : string; Output : string; cf_Objects : list ObjectGoName; cf_Queries : list QueryGoName;
  cf_Scalars : list ScalarMapping; ColumnBindings : list ColumnGoBinding; Emitter : string; Prune : bool }.

Definition goType (scalar : string) (nullable : bool) : string :=
  let base := assoc_default default_types scalar in
  if unset base then "" else if nullable then "rasql.Nullable[" +:+ base +:+ "]" else base.
Record scalarBindingResult := MkBinding { bd_Type : string; bd_Codec : string; bd_Imports : list GoImport }.

Section Go.
Context {unicode : Unicode} {case : CaseMap} {sort : SliceSort} {parser : GoParser} {range : MapRange}.

Definition scalarBinding (scalar : string) (nullable : bool) (mappings : list ScalarMapping) : scalarBindingResult * bool :=
  match find (fun m => String.eqb (sm_Name m) scalar) mappings with
  | Some m =>
      let typeName := if nullable
                      then (if unset (NullableGoType m) then "rasql.Nullable[" +:+ sm_GoType m +:+ "]" else NullableGoType m)
                      else sm_GoType m in
      (MkBinding typeName (sm_Codec m) (importsForType typeName (sm_Imports m)), true)
  | None => let typeName := goType scalar nullable in (MkBinding typeName "" [], negb (unset typeName))
  end.
Definition ColumnGoBindingFor (object : ObjectID) (column : string) (bindings : list ColumnGoBinding) : option ColumnGoBinding :=
  find (fun b => String.eqb (cb_Object b) object && String.eqb (cb_Column b) column) bindings.

(** ** [BuildGo] *)
(** One column: its Go column, the imports it brings and what is reported. *)
Definition go_column (config : GoConfig) (object : SemanticObject) (column : SemanticColumn) : GoColumn * list GoImport * list Diagnostic :=
  let '(binding, ok) := scalarBinding (sc_Scalar column) (sc_Nullable column) (cf_Scalars config) in
  let '(binding, ok) :=
    match ColumnGoBindingFor (so_ID object) (sc_Name column) (ColumnBindings config) with
    | Some override =>
        let boundType := if sc_Nullable column then cb_NullableType override else cb_Type override in
        if unset boundType then (binding, ok)
        else (MkBinding boundType (bd_Codec binding) (bd_Imports binding ++ cb_Imports override), true)
    | None => (binding, ok)
    end in
  (MkGoColumn (sc_Name column) (sc_Name column) (sc_Scalar column) (bd_Type binding) (bd_Codec binding) (InsertState column)
     (PatchState column) (sc_Nullable column), bd_Imports binding,
   diagnose (negb ok) "unsupported_scalar" ((PhysicalName object).2 +:+ "." +:+ sc_Name column) "scalar has no Go mapping").
Definition column_field (c : GoColumn) : GoField := MkField (gc_Name c) (gc_GoType c) (gc_Codec c) (gc_Nullable c).
Definition insertable (c : GoColumn) : bool := negb (String.eqb (gc_InsertState c) "forbidden") && negb (String.eqb (gc_InsertState c) "generated").
Definition patchable (c : GoColumn) : bool := negb (String.eqb (gc_PatchState c) "forbidden").
(** The last configured name for the object, or the default. *)
Definition configured_name (id : ObjectID) (get : ObjectGoName -> string) (names : list ObjectGoName) (default : string) : string :=
  fold_left (fun name n => if String.eqb (on_ID n) id && negb (unset (get n)) then get n else name) names default.
Definition object_files (id : ObjectID) (names : list ObjectGoName) : list GoFile :=
  flat_map (fun n => if String.eqb (on_ID n) id && negb (unset (on_File n)) then [MkGoFile (on_File n) []] else []) names.
Definition go_relation (r : SemanticRelation) : GoRelation :=
  MkGoRelation (sr_Name r) (sr_Target r) (sr_Kind r) (sr_Nullable r) (sr_From r) (sr_To r) (sr_Through r).
Definition go_object (config : GoConfig) (object : SemanticObject) : GoObject * list GoImport * list Diagnostic :=
  let names := cf_Objects config in
  let physical := (PhysicalName object).2 in
  let name := configured_name (so_ID object) on_Row names (physical +:+ "Row") in
  let built := map (go_column config object) (so_Columns object) in
  let columns := map (fun b => b.1.1) built in
  let readable := map fst (base.filter (fun p => Readable p.2 = true) (combine columns (so_Columns object))) in
  (MkGoObject (so_ID object) (configured_name (so_ID object) on_Source names physical)
     (MkShape name (map column_field readable) (name +:+ "Decoder"))
     (Some (MkShape (configured_name (so_ID object) on_Create names (physical +:+ "Create"))
              (map column_field (base.filter (fun c => insertable c = true) columns)) ""))
     (Some (MkShape (configured_name (so_ID object) on_Patch names (physical +:+ "Patch"))
              (map column_field (base.filter (fun c => patchable c = true) columns)) ""))
     columns (map go_relation (Relations object)),
   flat_map (fun b => b.1.2) built, flat_map snd built).

Definition go_value (config : GoConfig) (path : string) (value : SemanticValue) : GoField * list GoImport * list Diagnostic :=
  let '(binding, ok) := scalarBinding (sv_Scalar value) (sv_Nullable value) (cf_Scalars config) in
  (MkField (sv_Name value) (bd_Type binding) (bd_Codec binding) (sv_Nullable value), bd_Imports binding,
   diagnose (negb ok) "unsupported_scalar" (path +:+ sv_Name value) "scalar has no Go mapping").
Definition no_query_name : QueryGoName := MkQueryName "" "" "" "" "" "".
(** The result shape: of the results, then as configured. *)
Definition go_result (config : QueryGoName) (q : SemanticQuery) (fields : list GoField) : option GoShape :=
  let shape := if 0 <? length (Results q) then Some (MkShape (sq_Name q +:+ "Result") fields (sq_Name q +:+ "ResultDecoder")) else None in
  let shape := if unset (qn_Result config) then shape
               else match shape with
                    | Some s => Some (MkShape (qn_Result config) (Fields s) (DecoderName s))
                    | None => Some (MkShape (qn_Result config) [] (sq_Name q +:+ "ResultDecoder"))
                    end in
  if unset (qn_Decoder config) then shape
  else match shape with
       | Some s => Some (MkShape (gs_Name s) (Fields s) (qn_Decoder config))
       | None => Some (MkShape (sq_Name q +:+ "Result") [] (qn_Decoder config))
       end.
Definition go_query (config : GoConfig) (q : SemanticQuery) : GoQuery * list GoFile * list GoImport * list Diagnostic :=
  let configured := default no_query_name (find (fun n => String.eqb (qn_ID n) (sq_ID q)) (cf_Queries config)) in
  let parameters := map (go_value config (sq_Name q +:+ ".parameters.")) (Parameters q) in
  let results := map (go_value config (sq_Name q +:+ ".results.")) (Results q) in
  (MkGoQuery (sq_ID q) (if unset (qn_Function configured) then sq_Name q else qn_Function configured) (map (fun b => b.1.1) parameters)
     (go_result configured q (map (fun b => b.1.1) results)) (qn_Projection configured) (Cardinality q),
   if unset (qn_File configured) then [] else [MkGoFile (qn_File configured) []],
   flat_map (fun b => b.1.2) parameters ++ flat_map (fun b => b.1.2) results, flat_map snd parameters ++ flat_map snd results).

Definition is_time (t : string) : bool := String.eqb t "time.Time" || String.eqb t "rasql.Nullable[time.Time]".
Definition is_nullable (t : string) : bool := HasPrefix t "rasql.Nullable[".
(** The types the last loops look at. *)
Definition used_types (objects : list GoObject) (queries : list GoQuery) : list string :=
  flat_map (fun o => map gc_GoType (go_Columns o)) objects ++
  flat_map (fun q => map gf_Type (gq_Parameters q) ++ match gq_Result q with Some s => map gf_Type (Fields s) | None => [] end) queries.
Definition dedup_step (acc : list GoImport * gset string) (imp : GoImport) : list GoImport * gset string :=
  let key := nul_key (im_Path imp) (im_Alias imp) in
  if bool_decide (key ∈ acc.2) then acc else (acc.1 ++ [imp], {[ key ]} ∪ acc.2).
Definition dedupImports (l : list GoImport) : list GoImport := (fold_left dedup_step l ([], ∅)).1.

(** ** [ValidateGo] *)
Definition parseGoType (s : string) (imports : gset string) : result unit :=
  match ParseExpr s with
  | None => Err (Errorf "invalid Go type %q" [AStr s])
  | Some e => do _ <- check_type imports e ∅; Ok tt
  end.
Definition validateGoField (field : GoField) (imports : gset string) : result unit :=
  check refuse_if (unset (gf_Name field) || negb (IsIdentifier (gf_Name field)) || unset (gf_Type field)) (errors_New "invalid field");
  check refuse_if (negb (gf_Nullable field) && is_nullable (gf_Type field)) (errors_New "non-null field cannot use nullable type");
  parseGoType (gf_Type field) imports.
Definition as_invalid (path : string) (r : result unit) : result unit := wrap_err (fun e => invalid path "%v" [AErr e]) r.
Definition validate_go_import (i : nat) (imp : GoImport) (st : gset string * gset string) : result (gset string * gset string) :=
  let p s := "imports[" +:+ NatItoa i +:+ "]" +:+ s in
  let key := nul_key (im_Path imp) (im_Alias imp) in
  check refuse_if (unset (im_Path imp)) (invalid (p ".path") "must not be empty" []);
  check refuse_if (bool_decide (key ∈ st.1)) (invalid (p "") "duplicate import" []);
  check refuse_if (negb (unset (im_Alias imp)) && (negb (IsIdentifier (im_Alias imp)) || String.eqb (im_Alias imp) "_" || String.eqb (im_Alias imp) "."))
          (invalid (p ".alias") "must be a valid identifier" []);
  Ok ({[ key ]} ∪ st.1, {[ import_name imp ]} ∪ st.2).
Definition validate_go_file (i : nat) (f : GoFile) (seen : gset string) : result (gset string) :=
  let p := "files[" +:+ NatItoa i +:+ "].path" in
  check refuse_if (unset (fl_Path f) || HasPrefix (fl_Path f) "/" || negb (String.eqb (path_Clean (fl_Path f)) (fl_Path f))
                   || HasPrefix (fl_Path f) "../" || String.eqb (fl_Path f) "..") (invalid p "must be a relative path" []);
  check refuse_if (bool_decide (fl_Path f ∈ seen)) (invalid p "duplicate file" []);
  Ok ({[ fl_Path f ]} ∪ seen).
Definition validate_fields (p : string -> string) (fields : list GoField) (imports : gset string) : result unit :=
  checki (fun j f => as_invalid (p (".fields[" +:+ NatItoa j +:+ "]")) (validateGoField f imports)) 0 fields.
Definition validate_shape (i : nat) (name : string) (shape : GoShape) (imports : gset string) : result unit :=
  check refuse_if (unset (gs_Name shape) || negb (IsIdentifier (gs_Name shape))
                   || (negb (unset (DecoderName shape)) && negb (IsIdentifier (DecoderName shape))))
          (invalid (at_object i ("." +:+ name)) "invalid shape name" []);
  validate_fields (fun s => at_object i ("." +:+ name +:+ s)) (Fields shape) imports.
Definition validate_go_column (i : nat) (imports : gset string) (j : nat) (c : GoColumn) : result unit :=
  check refuse_if (unset (gc_Name c) || unset (gc_GoType c) || negb (IsIdentifier (gc_Name c)))
          (invalid (at_member i "columns" j "") "invalid column" []);
  as_invalid (at_member i "columns" j ".go_type") (parseGoType (gc_GoType c) imports).
Definition column_states (columns : list GoColumn) : gmap string (string * string) :=
  index_by gc_Name (fun c => (gc_InsertState c, gc_PatchState c)) columns ∅.
Definition goColumnNames (columns : list GoColumn) : gset string := list_to_set (map gc_Name columns).
Definition validate_go_relation (objects : gmap ObjectID GoObject) (i : nat) (columns : gset string) (j : nat) (r : GoRelation)
    (names : gset string) : result (gset string) :=
  let path := at_member i "relations" j "" in
  check refuse_if (unset (gr_Name r) || unset (gr_Target r)) (invalid path "invalid relation" []);
  check refuse_if (bool_decide (RelationGoName (gr_Name r) ∈ names)) (invalid (path +:+ ".name") "duplicate relation name" []);
  match objects !! gr_Target r with
  | None => Err (invalid (path +:+ ".target") "unknown target" [])
  | Some target =>
      check validateRelationColumns (path +:+ ".from") (gr_From r) columns;
      let targetColumns := goColumnNames (go_Columns target) in
      check validateRelationColumns (path +:+ ".to") (gr_To r) targetColumns;
      check (if one_of ["belongs_to"; "has_one"; "has_many"] (gr_Kind r)
             then refuse_if (is_some (gr_Through r) || negb (length (gr_From r) =? length (gr_To r)))
                    (invalid path "invalid belongs-to metadata" [])
             else if String.eqb (gr_Kind r) "many_through"
             then validate_through path (gr_Name r) (gr_Nullable r) (gr_From r) (gr_To r) (gr_Through r) columns targetColumns
                    (fun id => option_map (fun o => goColumnNames (go_Columns o)) (objects !! id))
             else Err (invalid (path +:+ ".kind") "unknown relation kind" []));
      Ok ({[ RelationGoName (gr_Name r) ]} ∪ names)
  end.
Definition validate_go_object (objects : gmap ObjectID GoObject) (imports : gset string) (i : nat) (o : GoObject) (seen : gset ObjectID) :
    result (gset ObjectID) :=
  check refuse_if (bool_decide (go_ID o ∈ seen)) (invalid (at_object i ".id") "duplicate object ID" []);
  check refuse_if (unset (go_ID o) || unset (SourceName o) || negb (IsIdentifier (SourceName o)) || unset (gs_Name (Row o))
                   || negb (IsIdentifier (gs_Name (Row o)))) (invalid (at_object i "") "invalid object or row name" []);
  check refuse_if (unset (DecoderName (Row o)) || negb (IsIdentifier (DecoderName (Row o))))
          (invalid (at_object i ".row.decoder_name") "invalid decoder name" []);
  match Create o, Patch o with
  | Some create, Some patch =>
      check validate_fields (fun s => at_object i (".row" +:+ s)) (Fields (Row o)) imports;
      check checki (fun _ s => validate_shape i s.1 s.2 imports) 0 (range_map (<["create" := create]> {[ "patch" := patch ]}));
      check checki (validate_go_column i imports) 0 (go_Columns o);
      let states := column_states (go_Columns o) in
      check checki (fun _ f => match states !! gf_Name f with
          | Some (insert, _) => refuse_if (one_of ["generated"; "forbidden"] insert)
              (invalid (at_object i (".create." +:+ gf_Name f)) "generated or forbidden column is caller-writable" [])
          | None => Ok tt end) 0 (Fields create);
      check checki (fun _ f => match states !! gf_Name f with
          | Some (_, patch) => refuse_if (String.eqb patch "forbidden")
              (invalid (at_object i (".patch." +:+ gf_Name f)) "forbidden column is caller-writable" [])
          | None => Ok tt end) 0 (Fields patch);
      do _ <- foldi (validate_go_relation objects i (goColumnNames (go_Columns o))) 0 (go_Relations o) ∅;
      Ok ({[ go_ID o ]} ∪ seen)
  | _, _ => Err (invalid (at_object i "") "create and patch shapes are required" [])
  end.
Definition validate_go_query (imports : gset string) (i : nat) (q : GoQuery) (ids : gset QueryID) : result (gset QueryID) :=
  check refuse_if (unset (gq_ID q) || unset (gq_Name q)) (invalid (at_query i "") "invalid query" []);
  check refuse_if (negb (IsIdentifier (gq_Name q))) (invalid (at_query i ".name") "must be a valid identifier" []);
  check refuse_if (negb (one_of cardinalities (gq_Cardinality q))) (invalid (at_query i ".cardinality") "unknown cardinality" []);
  check checki (fun j f => as_invalid (at_query i (".parameters[" +:+ NatItoa j +:+ "]")) (validateGoField f imports)) 0 (gq_Parameters q);
  check refuse_if (bool_decide (gq_ID q ∈ ids)) (invalid (at_query i ".id") "duplicate query ID" []);
  check match gq_Result q with
        | Some s =>
            check refuse_if (unset (gs_Name s) || negb (IsIdentifier (gs_Name s))) (invalid (at_query i ".result.name") "invalid result name" []);
            check refuse_if (unset (DecoderName s) || negb (IsIdentifier (DecoderName s)))
                    (invalid (at_query i ".result.decoder_name") "invalid decoder name" []);
            validate_fields (fun x => at_query i (".result" +:+ x)) (Fields s) imports
        | None => Ok tt end;
  Ok ({[ gq_ID q ]} ∪ ids).
Definition shape_types (s : option GoShape) : list string := match s with Some s => map gf_Type (Fields s) | None => [] end.
Definition goModelExpressions (m : GoModel) : list string :=
  flat_map (fun o => map gc_GoType (go_Columns o) ++ map gf_Type (Fields (Row o)) ++ shape_types (Create o) ++ shape_types (Patch o))
    (gm_Objects m) ++
  flat_map (fun q => map gf_Type (gq_Parameters q) ++ shape_types (gq_Result q)) (gm_Queries m).
Definition go_by_id (l : list GoObject) : gmap ObjectID GoObject := index_by go_ID (fun o => o) l ∅.
Definition ValidateGo (m : GoModel) : result unit :=
  check refuse_if (negb (valid_package (Package m))) (invalid "package" "must be a valid package identifier" []);
  do st <- foldi validate_go_import 0 (gm_Imports m) (∅, ∅);
  do _ <- foldi validate_go_file 0 (gm_Files m) ∅;
  do _ <- foldi (validate_go_object (go_by_id (gm_Objects m)) st.2) 0 (gm_Objects m) ∅;
  do _ <- foldi (validate_go_query st.2) 0 (gm_Queries m) ∅;
  as_invalid "types" (validateGoExpressions (goModelExpressions m) (gm_Imports m) (Package m)).

Definition BuildGo (model : SemanticModel) (config : GoConfig) : GoModel * list Diagnostic :=
  let ds := failed "invalid_semantic" "semantic" (ValidateSemantic model) ++
            diagnose (negb (one_of [""; "compact"; "legacy"] (Emitter config))) "invalid_emitter" "emitter" "emitter must be compact or legacy" ++
            failed "invalid_mapping" "mappings" (ValidateMappingConfig (MkMappings (cf_Scalars config) []) (cf_Package config)) in
  let objects := map (go_object config) (sm_Objects model) in
  let queries := map (go_query config) (sm_Queries model) in
  let files := flat_map (fun o => object_files (so_ID o) (cf_Objects config)) (sm_Objects model) ++ flat_map (fun q => q.1.1.2) queries in
  let types := used_types (map (fun o => o.1.1) objects) (map (fun q => q.1.1.1) queries) in
  let imports := flat_map (fun o => o.1.2) objects ++ flat_map (fun q => q.1.2) queries ++
                 (if existsb is_nullable types then [MkImport "github.com/lestrrat-go/rasql" ""] else []) ++
                 (if existsb is_time types then [MkImport "time" ""] else []) in
  let out := MkGoModel (cf_Package config) (dedupImports imports) files (map (fun o => o.1.1) objects) (map (fun q => q.1.1.1) queries) in
  let ds := ds ++ flat_map snd objects ++ flat_map snd queries ++ Diagnostics model ++ failed "invalid_go" "go" (ValidateGo out) in
  (out, sortDiagnostics ds).
End Go.

(** ** What the Go model lets a caller read and write *)
(** The database fills the column: generated or always an identity. *)
Definition database_written (col : PhysicalColumn) : Prop :=
  pc_Identity col <> "BY DEFAULT" /\ (GeneratedSQL col <> "" \/ pc_Identity col = "ALWAYS").
Definition caller_written (o : PhysicalObject) (col : PhysicalColumn) : Prop := po_Kind o <> "view" /\ ~ database_written col.
#[export] Instance caller_written_dec o col : Decision (caller_written o col).
Proof. unfold caller_written, database_written. apply _. Defined.
(** Nothing but the caller gives the column a value. *)
Definition caller_required (o : PhysicalObject) (col : PhysicalColumn) : Prop :=
  caller_written o col /\ pc_Nullable col = false /\ DefaultSQL col = "" /\ pc_Identity col <> "BY DEFAULT".
Definition go_shapes_of (o : PhysicalObject) (g : GoObject) : Prop :=
  go_ID g = po_ID o /\ map gc_Name (go_Columns g) = map pc_Name (po_Columns o) /\
  map gf_Name (Fields (Row g)) = map pc_Name (base.filter (fun col => pc_Hidden col = false) (po_Columns o)) /\
  (exists create, Create g = Some create /\
     map gf_Name (Fields create) = map pc_Name (base.filter (caller_written o) (po_Columns o))) /\
  (exists patch, Patch g = Some patch /\
     map gf_Name (Fields patch) = map pc_Name (base.filter (caller_written o) (po_Columns o))) /\
  Forall2 (fun col gc => gc_InsertState gc = "required" <-> caller_required o col) (po_Columns o) (go_Columns g).

Lemma filter_map {A B} (f : A -> B) (P : B -> Prop) `{forall y, Decision (P y)} (Q : A -> Prop) `{forall x, Decision (Q x)} l :
  (forall x, P (f x) <-> Q x) -> base.filter P (map f l) = map f (base.filter Q l).
Proof.
  intros E. induction l as [|x l IH]; [done|]. cbn [map]. rewrite !filter_cons, IH.
  destruct (decide (P (f x))) as [h|h]; destruct (decide (Q x)) as [h'|h']; try done; destruct (E x); tauto.
Qed.

Lemma combine_map {A B C} (f : A -> B) (g : A -> C) l : combine (map f l) (map g l) = map (fun x => (f x, g x)) l.
Proof. induction l as [|x l IH]; [done|]. simpl. by rewrite IH. Qed.

Section GoShapes.
Context {unicode : Unicode} {case : CaseMap} {sort : SliceSort} {parser : GoParser} {range : MapRange}.

(** The Go column of a catalog's column. *)
Definition built_column (config : GoConfig) (mappings : MappingConfig) (o : PhysicalObject) (so : SemanticObject) (col : PhysicalColumn) : GoColumn :=
  (go_column config so (semantic_column o mappings col).1).1.1.
Lemma built_column_shape config mappings o so col :
  let gc := built_column config mappings o so col in
  let state := if String.eqb (po_Kind o) "view" then "forbidden" else insert_state col in
  gc_Name gc = pc_Name col /\ gc_InsertState gc = state /\
  gc_PatchState gc = (if String.eqb (po_Kind o) "view" then "forbidden" else patch_state (insert_state col)).
Proof.
  unfold built_column, go_column. destruct (scalarBinding _ _ _) as [b ok].
  destruct (ColumnGoBindingFor _ _ _) as [override|]; [case_match|]; done.
Qed.
Lemma insert_state_generated col : insert_state col = "generated" <-> database_written col.
Proof.
  unfold insert_state, database_written. rewrite <- (String.eqb_eq (pc_Identity col) "ALWAYS"), <- (String.eqb_neq (pc_Identity col) "BY DEFAULT"), <- (unset_false (GeneratedSQL col)).
  destruct (unset (GeneratedSQL col)), (pc_Identity col =? "ALWAYS")%string, (pc_Identity col =? "BY DEFAULT")%string, (pc_Nullable col), (unset (DefaultSQL col));
    simpl; split; intros; naive_solver.
Qed.
Lemma insert_state_required col : insert_state col = "required" <-> 
  ~ database_written col /\ pc_Nullable col = false /\ DefaultSQL col = "" /\ pc_Identity col <> "BY DEFAULT".
Proof.
  unfold insert_state, database_written. rewrite <- (String.eqb_eq (pc_Identity col) "ALWAYS"), <- (String.eqb_neq (pc_Identity col) "BY DEFAULT"), <- (unset_false (GeneratedSQL col)), <- (unset_true (DefaultSQL col)).
  destruct (unset (GeneratedSQL col)), (pc_Identity col =? "ALWAYS")%string, (pc_Identity col =? "BY DEFAULT")%string, (pc_Nullable col), (unset (DefaultSQL col));
    simpl; split; intros; naive_solver.
Qed.
Lemma insert_state_cases col : insert_state col ∈ ["generated"; "optional"; "required"].
Proof. unfold insert_state. repeat case_match; set_solver. Qed.
Lemma insertable_written config mappings o so col :
  insertable (built_column config mappings o so col) = true <-> caller_written o col.
Proof.
  destruct (built_column_shape config mappings o so col) as (_ & E & _). unfold insertable, caller_written. rewrite E, <- insert_state_generated.
  rewrite andb_true_iff, !negb_true_iff, !String.eqb_neq. destruct (String.eqb_spec (po_Kind o) "view") as [->|N].
  - split; intros [H1 H2]; by destruct H1.
  - pose proof (insert_state_cases col) as Hc. repeat (apply elem_of_cons in Hc as [->|Hc]; [split; intros [? ?]; split; congruence|]).
    by apply not_elem_of_nil in Hc.
Qed.
Lemma patchable_written config mappings o so col :
  patchable (built_column config mappings o so col) = true <-> caller_written o col.
Proof.
  destruct (built_column_shape config mappings o so col) as (_ & _ & E). unfold patchable, caller_written. rewrite E, <- insert_state_generated.
  rewrite negb_true_iff, String.eqb_neq. destruct (String.eqb_spec (po_Kind o) "view") as [->|N].
  - split; [intros H; by destruct H|intros [H _]; by destruct H].
  - unfold patch_state. destruct (String.eqb_spec (insert_state col) "generated") as [->|N'].
    + split; [intros H; by destruct H|intros [_ H]; by destruct H].
    + split; [done|intros _; congruence].
Qed.

Lemma go_object_shapes config mappings o rs :
  go_shapes_of o (go_object config (extended rs (semantic_object mappings o))).1.1.
Proof.
  unfold go_shapes_of, go_object. cbn [fst snd go_ID go_Columns Row Create Patch Fields so_ID so_Columns extended semantic_object].
  rewrite !map_map.
  set (so := extended rs (semantic_object mappings o)).
  set (f := built_column config mappings o so).
  change (map (fun x => (go_column config so (semantic_column o mappings x).1).1.1) (po_Columns o)) with (map f (po_Columns o)).
  assert (forall col, gc_Name (f col) = pc_Name col) as Hn by (intros; apply built_column_shape).
  assert (forall l, map gf_Name (map column_field (map f l)) = map pc_Name l) as Hfields.
  { intros l. rewrite !map_map. by apply map_ext. }
  split_and!; [done|by apply map_ext| |eexists; split; [done|]|eexists; split; [done|]|].
  - assert (combine (map f (po_Columns o)) (map (fun x => (semantic_column o mappings x).1) (po_Columns o)) =
            map (fun x => (f x, (semantic_column o mappings x).1)) (po_Columns o)) as ->.
    { apply combine_map. }
    rewrite (filter_map _ _ (fun col => pc_Hidden col = false)) by (intros; simpl; by rewrite negb_true_iff).
    rewrite map_map. apply map_ext. exact Hn.
  - rewrite (filter_map f _ (caller_written o)) by (intros; apply insertable_written). apply Hfields.
  - rewrite (filter_map f _ (caller_written o)) by (intros; apply patchable_written). apply Hfields.
  - apply Forall2_fmap_r, Forall_Forall2_diag, Forall_forall. intros col _.
    destruct (built_column_shape config mappings o so col) as (_ & E & _). change (gc_InsertState (f col) = (if String.eqb (po_Kind o) "view" then "forbidden" else insert_state col)) in E.
    unfold compose. rewrite E.    unfold caller_required, caller_written.
    destruct (String.eqb_spec (po_Kind o) "view") as [->|N].
    + split; [done|]. intros [[H _] _]. by destruct H.
    + rewrite insert_state_required. tauto.
Qed.

Lemma BuildGo_accepted model config out :
  BuildGo model config = (out, []) -> ValidateSemantic model = Ok tt /\ ValidateGo out = Ok tt.
Proof.
  unfold BuildGo. set (m := MkGoModel _ _ _ _ _). set (ds := _ ++ failed "invalid_go" _ _). intros [= <- H].
  apply sort_Slice_empty in H. unfold ds in H. rewrite <- !app_assoc in H. unfold failed in H.
  destruct (ValidateSemantic model) as [[]|e]; [|done]. destruct (ValidateGo m) as [[]|e]; [done|].
  exfalso. repeat (apply app_nil in H as [_ H]). done.
Qed.

(** C22 What a generated model lets a caller write. Of a valid catalog, the Go
    object of every object has its columns in order, a row shape of exactly the
    columns that are not hidden, and create and patch shapes of exactly the
    columns the database does not fill itself: none of a view, and of a table
    those that are neither generated nor an identity that is always generated
    (a generated column that is a BY DEFAULT identity as well, which
    [TableDef.Validate] refuses, counts as written by the caller).
    A create shape requires a value exactly for the columns of these that are
    not nullable and have neither a default nor an identity.  When nothing is
    reported, [ValidateSemantic] and [ValidateGo] accept what was built. *)
Theorem generated_shapes c mappings queries config model out ds :
  ValidatePhysical c = Ok tt -> (BuildSemantic c mappings queries).1 = model -> BuildGo model config = (out, ds) ->
  Forall2 go_shapes_of (Objects c) (gm_Objects out) /\ (ds = [] -> ValidateSemantic model = Ok tt /\ ValidateGo out = Ok tt).
Proof.
  intros Hc%ValidatePhysical_ok Em E. split.
  - assert (gm_Objects out = map (fun so => (go_object config so).1.1) (sm_Objects model)) as ->.
    { unfold BuildGo in E. injection E as <- _. cbn [gm_Objects]. by rewrite map_map. }
    rewrite <- Em, (BuildSemantic_objects c mappings queries (proj1 (proj2 Hc))), !map_map.
    apply Forall2_fmap_r, Forall_Forall2_diag, Forall_forall. intros o _. apply go_object_shapes.
  - intros ->. by apply BuildGo_accepted with config.
Qed.
End GoShapes.

(** ** The store of authors and posts *)
Definition store_config : GoConfig := MkGoConfig "store" "" [] [] [] [] "" false.
Definition store_go : GoModel := (BuildGo (parser := small_parser) store_model store_config).1.
Lemma store_go_built : BuildGo (parser := small_parser) store_model store_config = (store_go, []).
Proof. vm_compute. reflexivity. Qed.
Lemma generated_shapes_witness :
  Forall2 go_shapes_of (Objects store_assigned) (gm_Objects store_go) /\ ValidateGo (parser := small_parser) store_go = Ok tt.
Proof.
  assert ((BuildSemantic (parser := small_parser) store_assigned (MkMappings [] []) []).1 = store_model) as E by (by rewrite store_built).
  destruct (generated_shapes (parser := small_parser) store_assigned (MkMappings [] []) [] store_config store_model store_go []
              store_valid E store_go_built) as [H1 H2].
  split; [exact H1|exact (proj2 (H2 eq_refl))].
Defined.
