(* ===== verification/GenSum.v ===== *)
(** * GenSum: [internal/gensum/gensum.go], the record of a generation

    [rasql.sum] names the settings a store was generated with and the checksums
    of its migrations, queries and outputs.  [Encode] writes it, [Parse] reads
    it and is strict about separators and order, and [Compare] says where two
    records differ.  The loop of [firstDifference] walks two sorted slices with
    an index each; here it is structural in both. *)

From S2P Require Import Prelude GoText GoSort.
Open Scope string_scope.
Open Scope list_scope.
Open Scope nat_scope.

Definition version : string := "v1".
Record Entry := MkEntry { e_Name : string; e_Value : string }.
#[export] Instance Entry_eq : EqDecision Entry.
Proof. solve_decision. Defined.
Record SumFile := MkSumFile {
  s_Dialect : string; s_Profile : string; s_Settings : string; s_Migrations : list Entry; s_Queries : list Entry; s_Outputs : list Entry }.
Record Difference := MkDifference { Group : string; d_Path : string }.

Definition nl : string := str1 newline.
Section Sum.
Context {sort : SliceSort}.

Definition sortedEntries (l : list Entry) : list Entry := sort_Slice (by_key e_Name) l.
Definition encode_entries (keyword : string) (l : list Entry) : string :=
  fold_right (fun e acc => keyword +:+ " " +:+ e_Name e +:+ " " +:+ e_Value e +:+ nl +:+ acc) "" (sortedEntries l).
Definition Encode (f : SumFile) : string :=
  "rasql.sum " +:+ version +:+ nl +:+ "dialect " +:+ s_Dialect f +:+ nl +:+ "profile " +:+ s_Profile f +:+ nl +:+
  "settings " +:+ s_Settings f +:+ nl +:+
  encode_entries "migration" (s_Migrations f) +:+ encode_entries "query" (s_Queries f) +:+ encode_entries "output" (s_Outputs f).

(** ** Parsing *)
Inductive group := groupHeader | groupDialect | groupProfile | groupSettings | groupMigration | groupQuery | groupOutput.
#[export] Instance group_eq : EqDecision group.
Proof. solve_decision. Defined.
(** The number of a group, by which Go compares them. *)
Definition rank (g : group) : nat :=
  match g with
  | groupHeader => 0 | groupDialect => 1 | groupProfile => 2 | groupSettings => 3 | groupMigration => 4 | groupQuery => 5 | groupOutput => 6
  end.
Definition repeats (g : group) : bool := match g with groupMigration | groupQuery | groupOutput => true | _ => false end.
Definition groupFor (keyword : string) : result (group * nat) :=
  if String.eqb keyword "dialect" then Ok (groupDialect, 2)
  else if String.eqb keyword "profile" then Ok (groupProfile, 2)
  else if String.eqb keyword "settings" then Ok (groupSettings, 2)
  else if String.eqb keyword "migration" then Ok (groupMigration, 3)
  else if String.eqb keyword "query" then Ok (groupQuery, 3)
  else if String.eqb keyword "output" then Ok (groupOutput, 3)
  else Err (Errorf "gensum: unknown record kind %q" [AStr keyword]).
Definition splitFields (line : string) (want : nat) : result (list string) :=
  if String.eqb line "" then Err (errors_New "gensum: empty record")
  else if Contains line (str1 (chr 9)) then Err (Errorf "gensum: record contains a tab: %q" [AStr line])
  else if HasPrefix line " " || HasSuffix line " " then Err (Errorf "gensum: record has leading or trailing space: %q" [AStr line])
  else
    let fields := Split line " " in
    if negb (length fields =? want) then
      Err (Errorf "gensum: record has %d fields, want %d: %q" [AInt (Z.of_nat (length fields)); AInt (Z.of_nat want); AStr line])
    else if existsb (fun field => String.eqb field "") fields then Err (Errorf "gensum: record has an empty field: %q" [AStr line])
    else Ok fields.
(** [strings.Cut]. *)
Definition Cut (s sep : string) : option (string * string) :=
  match Index s sep with Some i => Some (stake i s, sdrop (i + String.length sep) s) | None => None end.
(** The name last read in each group, the newest first. *)
Record parse_state := MkParse { ps_file : SumFile; ps_last : group; ps_lastName : list (group * string) }.
Definition name_of (g : group) (l : list (group * string)) : option string :=
  match List.find (fun p => bool_decide (p.1 = g)) l with Some p => Some p.2 | None => None end.
Definition set_field (g : group) (values : list string) (f : SumFile) : SumFile :=
  let v := nth 1 values "" in
  let e := MkEntry v (nth 2 values "") in
  match g with
  | groupHeader => f
  | groupDialect => MkSumFile v (s_Profile f) (s_Settings f) (s_Migrations f) (s_Queries f) (s_Outputs f)
  | groupProfile => MkSumFile (s_Dialect f) v (s_Settings f) (s_Migrations f) (s_Queries f) (s_Outputs f)
  | groupSettings => MkSumFile (s_Dialect f) (s_Profile f) v (s_Migrations f) (s_Queries f) (s_Outputs f)
  | groupMigration => MkSumFile (s_Dialect f) (s_Profile f) (s_Settings f) (s_Migrations f ++ [e]) (s_Queries f) (s_Outputs f)
  | groupQuery => MkSumFile (s_Dialect f) (s_Profile f) (s_Settings f) (s_Migrations f) (s_Queries f ++ [e]) (s_Outputs f)
  | groupOutput => MkSumFile (s_Dialect f) (s_Profile f) (s_Settings f) (s_Migrations f) (s_Queries f) (s_Outputs f ++ [e])
  end.
Definition out_of_order (line : string) : error := Errorf "gensum: record out of order: %q" [AStr line].
Definition parse_record (st : parse_state) (line : string) : result parse_state :=
  match Cut line " " with
  | None => Err (Errorf "gensum: malformed record %q" [AStr line])
  | Some (keyword, _) =>
      do kind <- groupFor keyword;
      let '(g, width) := kind in
      if (rank g <? rank (ps_last st)) || (rank g =? rank (ps_last st)) && negb (repeats g) then Err (out_of_order line)
      else
        do values <- splitFields line width;
        let name := nth 1 values "" in
        if repeats g && match name_of g (ps_lastName st) with Some prior => negb (str_ltb prior name) | None => false end
        then Err (out_of_order line)
        else Ok (MkParse (set_field g values (ps_file st)) g (if repeats g then (g, name) :: ps_lastName st else ps_lastName st))
  end.
Fixpoint parse_records (st : parse_state) (lines : list string) : result parse_state :=
  match lines with
  | [] => Ok st
  | line :: lines' => do st <- parse_record st line; parse_records st lines'
  end.
Definition no_sum : SumFile := MkSumFile "" "" "" [] [] [].
Definition Parse (b : string) : result SumFile :=
  let text := TrimSuffix b nl in
  if String.eqb text "" then Err (errors_New "gensum: empty rasql.sum")
  else match Split text nl with
  | [] => Err (errors_New "gensum: empty rasql.sum")
  | first :: lines =>
      match splitFields first 2 with
      | Err e => Err (Errorf "gensum: header: %w" [AErr e])
      | Ok header =>
          if negb (String.eqb (nth 0 header "") "rasql.sum") then Err (errors_New "gensum: not a rasql.sum file")
          else if negb (String.eqb (nth 1 header "") version) then Err (Errorf "gensum: unsupported rasql.sum version %q" [AStr (nth 1 header "")])
          else do st <- parse_records (MkParse no_sum groupHeader []) lines; Ok (ps_file st)
      end
  end.

(** ** Comparing *)
Fixpoint first_difference (a : list Entry) : list Entry -> option string :=
  fix go (b : list Entry) : option string :=
    match a, b with
    | x :: a', y :: b' =>
        if str_ltb (e_Name x) (e_Name y) then Some (e_Name x)
        else if str_ltb (e_Name y) (e_Name x) then Some (e_Name y)
        else if negb (String.eqb (e_Value x) (e_Value y)) then Some (e_Name x)
        else first_difference a' b'
    | x :: _, [] => Some (e_Name x)
    | [], y :: _ => Some (e_Name y)
    | [], [] => None
    end.
Definition firstDifference (recorded current : list Entry) : option string := first_difference (sortedEntries recorded) (sortedEntries current).
Definition field_difference (name recorded current : string) : list Difference :=
  if String.eqb recorded current then [] else [MkDifference name ""].
Definition entries_difference (name : string) (recorded current : list Entry) : list Difference :=
  match firstDifference recorded current with Some path => [MkDifference name path] | None => [] end.
Definition Compare (recorded current : SumFile) : list Difference :=
  field_difference "dialect" (s_Dialect recorded) (s_Dialect current) ++
  field_difference "profile" (s_Profile recorded) (s_Profile current) ++
  field_difference "settings" (s_Settings recorded) (s_Settings current) ++
  entries_difference "migrations" (s_Migrations recorded) (s_Migrations current) ++
  entries_difference "queries" (s_Queries recorded) (s_Queries current) ++
  entries_difference "outputs" (s_Outputs recorded) (s_Outputs current).
End Sum.

(** ** Text of one-byte separators *)
Lemma Cut_lacks c a r : lacks c a = true -> Cut (a +:+ str1 c +:+ r) (str1 c) = Some (a, r).
Proof.
  intros H. unfold Cut. assert (Index (a +:+ str1 c +:+ r) (str1 c) = Some (String.length a)) as ->.
  { induction a as [|x a IH]; [simpl; by rewrite Ascii.eqb_refl|]. unfold lacks in H. cbn [str_forallb] in H. apply andb_true_iff in H as [Hx Ha].
    apply negb_true_iff in Hx. change (String x a +:+ str1 c +:+ r) with (String x (a +:+ str1 c +:+ r)). cbn [Index HasPrefix str1].
    rewrite Ascii.eqb_sym, Hx. cbn [andb]. change (Index (a +:+ String c r) (str1 c)) with (Index (a +:+ str1 c +:+ r) (str1 c)). by rewrite IH. }
  rewrite stake_app. replace (String.length a + String.length (str1 c)) with (String.length (a +:+ str1 c)) by apply slength_app.
  by rewrite <- sapp_assoc, sdrop_app.
Qed.
Lemma Cut_some c s a r : Cut s (str1 c) = Some (a, r) -> lacks c a = true /\ s = a +:+ str1 c +:+ r.
Proof.
  revert a r. induction s as [|x s IH]; intros a r; [done|]. unfold Cut. cbn [Index HasPrefix str1]. rewrite Ascii.eqb_sym, andb_true_r.
  destruct (Ascii.eqb_spec x c) as [->|Hx]; [by intros [= <- <-]|]. unfold Cut in IH.
  change (Index s (String c "")) with (Index s (str1 c)) in *. destruct (Index s (str1 c)) as [n|]; [|done].
  intros [= <- <-]. destruct (IH _ _ eq_refl) as [Hl Hs]. split.
  - unfold lacks in *. cbn [str_forallb stake]. destruct (Ascii.eqb_spec x c); [done|]. by rewrite Hl.
  - cbn [stake]. simpl. f_equal. exact Hs.
Qed.

(** ** Records *)
(** A field: not empty, and free of the separators. *)
Definition one_line (s : string) : Prop := lacks newline s = true.
Definition field (s : string) : Prop := s <> "" /\ lacks " " s = true /\ lacks (chr 9) s = true /\ one_line s.
Abbreviation sp := (str1 " ").
Lemma lacks_Join c d l : c <> d -> lacks c (Join l (str1 d)) = forallb (lacks c) l.
Proof.
  intros Hc. induction l as [|x l IH]; [done|]. destruct l as [|y l]; [cbn; by rewrite andb_true_r|]. rewrite Join_cons, !lacks_app, IH.
  unfold lacks at 2. cbn [str_forallb str1]. destruct (Ascii.eqb_spec d c); [congruence|]. done.
Qed.
Lemma Split_last c s : Split (s +:+ str1 c) (str1 c) = Split s (str1 c) ++ [""].
Proof.
  induction s as [|x s IH]; [change ("" +:+ str1 c) with (String c ""); rewrite (Split_unfold c (String c "")), Ascii.eqb_refl; done|]. change (String x s +:+ str1 c) with (String x (s +:+ str1 c)).
  rewrite (Split_unfold c (String x _)), (Split_unfold c (String x s)), IH. destruct (Ascii.eqb x c); [done|]. by destruct (Split s (str1 c)) eqn:E; [destruct (Split_spec c s)|].
Qed.
Lemma HasSuffix_spec s p : HasSuffix s p = true -> exists r, s = r +:+ p.
Proof.
  intros [r E]%HasPrefix_spec. exists (str_rev r). rewrite <- (str_rev_involutive s), E, str_rev_app_rev. by rewrite str_rev_involutive.
Qed.
Lemma splitFields_ok line want fs : 0 < want -> one_line line ->
  splitFields line want = Ok fs <-> length fs = want /\ Forall field fs /\ line = Join fs sp.
Proof.
  intros Hw Hnl. unfold splitFields. change (Split line " ") with (Split line sp). split.
  - destruct (String.eqb line ""); [done|]. rewrite Contains_lacks. destruct (lacks (chr 9) line) eqn:Ht; [|done]. cbn [negb].
    destruct (_ || _); [done|]. destruct (Nat.eqb_spec (length (Split line sp)) want) as [Hl|]; [|done]. cbn [negb].
    destruct (existsb _ _) eqn:Ee; [done|]. intros [= <-]. split; [done|]. destruct (Split_spec " " line) as (_ & Hs & Hj). split; [|by rewrite Hj].
    unfold one_line in Hnl. rewrite <- Hj, lacks_Join in Ht, Hnl by done. rewrite forallb_forall in Ht, Hnl. apply Forall_forall. intros x Hx. rewrite Forall_forall in Hs.
    split; [|split; [by apply Hs|split; [apply Ht|apply Hnl]; by apply list_elem_of_In]]. intros ->. assert (existsb (fun f => String.eqb f "") (Split line sp) = true); [|congruence].
    apply existsb_exists. exists "". split; [by apply list_elem_of_In|done].
  - intros (Hl & Hf & ->). assert (fs <> []) as Hne by (by intros ->; simpl in Hl; lia).
    assert (Split (Join fs sp) sp = fs) as Hsp by (apply Split_Join; [done|eapply Forall_impl; [exact Hf|]; by intros x (_ & ? & _)]).
    assert (forall x, x ∈ fs -> x <> "") as Hx by (intros x Hx; rewrite Forall_forall in Hf; by apply Hf).
    rewrite Contains_lacks, lacks_Join, Hsp by done.
    assert (forallb (lacks (chr 9)) fs = true) as ->.
    { apply forallb_forall. intros x Hin%list_elem_of_In. rewrite Forall_forall in Hf. by apply Hf. }
    destruct (String.eqb_spec (Join fs sp) "") as [E|_].
    { exfalso. rewrite E in Hsp. rewrite <- Hsp in Hx. by apply (Hx "" (list_elem_of_here _ _)). }
    destruct (HasPrefix (Join fs sp) " ") eqn:Ep.
    { exfalso. apply HasPrefix_spec in Ep as [r E]. rewrite E in Hsp. change (" " +:+ r) with (String " " r) in Hsp. rewrite Split_unfold in Hsp.
      rewrite <- Hsp in Hx. by apply (Hx "" (list_elem_of_here _ _)). }
    destruct (HasSuffix (Join fs sp) " ") eqn:Es.
    { exfalso. apply HasSuffix_spec in Es as [r E]. change (r +:+ " ") with (r +:+ sp) in E. rewrite E, Split_last in Hsp. rewrite <- Hsp in Hx. apply (Hx ""); [|done].
      apply elem_of_app. right. apply list_elem_of_here. }
    cbn [negb orb]. rewrite Hl, Nat.eqb_refl. cbn [negb]. destruct (existsb _ fs) eqn:Ee; [|done]. exfalso.
    apply existsb_exists in Ee as (x & Hin%list_elem_of_In & E%String.eqb_eq). by apply (Hx x).
Qed.

(** ** What [Parse] accepts *)
Definition keyword (g : group) : string :=
  match g with
  | groupHeader => "" | groupDialect => "dialect" | groupProfile => "profile" | groupSettings => "settings"
  | groupMigration => "migration" | groupQuery => "query" | groupOutput => "output"
  end.
Lemma groupFor_ok k g n : groupFor k = Ok (g, n) <-> g <> groupHeader /\ k = keyword g /\ n = if repeats g then 3 else 2.
Proof.
  unfold groupFor. split.
  - repeat (match goal with |- context [String.eqb k ?x] => destruct (String.eqb_spec k x) as [->|] end; [intros [= <- <-]; by split_and!|]). done.
  - intros (Hg & -> & ->). by destruct g.
Qed.
Lemma keyword_field g : g <> groupHeader -> field (keyword g).
Proof. by destruct g. Qed.
Definition width (g : group) : nat := if repeats g then 2 else 1.
(** A line: the keyword of its group and its fields. *)
Definition record_text (g : group) (vs : list string) : string := Join (keyword g :: vs) sp.
Definition follows (st : parse_state) (g : group) (name : string) : Prop :=
  if repeats g then rank (ps_last st) <= rank g /\ forall prior, name_of g (ps_lastName st) = Some prior -> str_ltb prior name = true
  else rank (ps_last st) < rank g.
Definition after (st : parse_state) (g : group) (vs : list string) : parse_state :=
  MkParse (set_field g (keyword g :: vs) (ps_file st)) g
    (if repeats g then (g, nth 0 vs "") :: ps_lastName st else ps_lastName st).
Definition item_ok (g : group) (vs : list string) : Prop := g <> groupHeader /\ length vs = width g /\ Forall field vs.
Lemma follows_check st g name :
  follows st g name <->
  (rank g <? rank (ps_last st)) || (rank g =? rank (ps_last st)) && negb (repeats g) = false /\
  repeats g && match name_of g (ps_lastName st) with Some prior => negb (str_ltb prior name) | None => false end = false.
Proof.
  unfold follows. destruct (repeats g); cbn [negb andb].
  - rewrite andb_false_r, orb_false_r, Nat.ltb_ge. destruct (name_of g (ps_lastName st)) as [prior|]; [|naive_solver].
    rewrite negb_false_iff. split; intros [H1 H2]; (split; [done|]); [by apply H2|by intros ? [= <-]].
  - rewrite andb_true_r, orb_false_iff, Nat.ltb_ge, Nat.eqb_neq. lia.
Qed.
Lemma record_line g vs : Forall field (keyword g :: vs) -> one_line (record_text g vs).
Proof.
  intros Hf. unfold one_line, record_text. rewrite lacks_Join by done. apply forallb_forall. intros x Hx%list_elem_of_In.
  rewrite Forall_forall in Hf. by apply Hf.
Qed.
Lemma parse_record_ok st line st' : one_line line ->
  parse_record st line = Ok st' <-> exists g vs, item_ok g vs /\ line = record_text g vs /\ follows st g (nth 0 vs "") /\ st' = after st g vs.
Proof.
  intros Hnl. unfold parse_record. change (Cut line " ") with (Cut line sp). split.
  - destruct (Cut line sp) as [[k r]|] eqn:Ec; [|done]. apply Cut_some in Ec as [Hk Hl]. intros ([g n] & Eg & H)%do_ok.
    apply groupFor_ok in Eg as (Hg & -> & ->). destruct (_ || _) eqn:E1; [done|]. apply do_ok in H as (fs & Ef & H).
    apply splitFields_ok in Ef as (Hlen & Hf & Hj); [|by destruct (repeats g); lia|done].
    assert (fs = keyword g :: Split r sp) as ->.
    { rewrite <- (Split_app " " (keyword g) r Hk). change (String " " r) with (sp +:+ r). rewrite <- Hl, Hj, Split_Join; [done| |].
      - intros ->. destruct (repeats g); done.
      - eapply Forall_impl; [exact Hf|]. by intros x (_ & ? & _). }
    match type of H with (if ?c then _ else _) = _ => destruct c eqn:E2 end; [done|]. injection H as <-. exists g, (Split r sp). inversion_clear Hf. cbn [nth] in E2.
    split; [split; [done|]; split; [unfold width; destruct (repeats g); simpl in Hlen; lia|done]|]. split; [done|]. split; [by apply follows_check|done].
  - intros (g & vs & (Hg & Hlen & Hf) & -> & Hfol & ->). apply follows_check in Hfol as [E1 E2]. pose proof (keyword_field g Hg) as Hk.
    assert (Cut (record_text g vs) sp = Some (keyword g, Join vs sp)) as ->.
    { unfold record_text. destruct vs as [|v vs]; [unfold width in Hlen; by destruct (repeats g)|]. rewrite Join_cons. apply Cut_lacks. by apply Hk. }
    rewrite (proj2 (groupFor_ok (keyword g) g (if repeats g then 3 else 2)) ltac:(done)). rewrite E1.
    assert (splitFields (record_text g vs) (if repeats g then 3 else 2) = Ok (keyword g :: vs)) as ->.
    { apply splitFields_ok; [by destruct (repeats g); lia|done|]. split; [simpl; unfold width in Hlen; destruct (repeats g); lia|]. split; [by constructor|done]. }
    cbn [nth]. by rewrite E2.
Qed.

(** The items of a file: the group of a record and its fields. *)
Definition item : Type := group * list string.
Definition line_of (p : item) : string := record_text p.1 p.2.
Definition good (p : item) : Prop := item_ok p.1 p.2.
Definition name_in (p : item) : string := nth 0 p.2 "".
Definition item_before (p q : item) : Prop :=
  rank p.1 < rank q.1 \/ p.1 = q.1 /\ repeats p.1 = true /\ str_ltb (name_in p) (name_in q) = true.
Definition run_items (st : parse_state) (l : list item) : parse_state := fold_left (fun st p => after st p.1 p.2) l st.
Lemma run_items_snoc st l p : run_items st (l ++ [p]) = after (run_items st l) p.1 p.2.
Proof. apply fold_left_app. Qed.
Lemma rank_inj g g' : rank g = rank g' -> g = g'.
Proof. by destruct g, g'. Qed.
Lemma name_of_cons g g' n l : name_of g ((g', n) :: l) = if bool_decide (g' = g) then Some n else name_of g l.
Proof. unfold name_of. simpl. by case_bool_decide. Qed.
Lemma follows_after st g vs q : follows st g (nth 0 vs "") ->
  follows (after st g vs) q.1 (name_in q) <-> item_before (g, vs) q /\ follows st q.1 (name_in q).
Proof.
  destruct q as [g' ws]. unfold follows, item_before, name_in. cbn [fst snd after ps_last ps_lastName]. intros Hg.
  destruct (decide (g = g')) as [<-|Hne].
  - destruct (repeats g); [|split; [lia|intros [[?|(_ & ? & _)] _]; [lia|done]]]. rewrite name_of_cons, bool_decide_true by done. split.
    + intros [_ H]. specialize (H _ eq_refl). destruct Hg as [Hr Hn]. split; [by right|]. split; [done|].
      intros prior Hp. eapply str_ltb_trans; [by apply Hn|done].
    + intros [[?|(_ & _ & H)] _]; [lia|]. split; [done|]. by intros ? [= <-].
  - assert (rank g <= rank g' <-> rank g < rank g') as Hlt by (split; [|lia]; intros; assert (rank g <> rank g') by (by intros ?%rank_inj); lia).
    assert (name_of g' (if repeats g then (g, nth 0 vs "") :: ps_lastName st else ps_lastName st) = name_of g' (ps_lastName st)) as ->.
    { destruct (repeats g); [|done]. by rewrite name_of_cons, bool_decide_false. }
    assert (rank (ps_last st) <= rank g) by (destruct (repeats g); lia).
    destruct (repeats g'); split; intros H0; repeat split; try (destruct H0; (tauto || lia)).
    all: try (destruct H0 as [[?|[? _]] ?]; [|done]); try lia; try tauto; try (left; lia).
Qed.
(** The lines the reader takes one after the other. *)
Lemma parse_records_ok lines : Forall one_line lines -> forall st st',
  parse_records st lines = Ok st' <->
  exists l, lines = map line_of l /\ Forall good l /\ StronglySorted item_before l /\
            Forall (fun p => follows st p.1 (name_in p)) l /\ st' = run_items st l.
Proof.
  induction 1 as [|line lines Hl _ IH]; intros st st'; cbn [parse_records].
  - split; [intros [= <-]; exists []; by repeat constructor|]. by intros ([|] & ? & _ & _ & _ & ->).
  - split.
    + intros (st1 & (g & vs & Ho & -> & Hf & ->)%parse_record_ok & H)%do_ok; [|done]. apply IH in H as (l & -> & Hg & Hs & Hc & ->).
      exists ((g, vs) :: l). rewrite Forall_forall in Hc. setoid_rewrite (follows_after _ _ _ _ Hf) in Hc.
      split_and!; [done|by constructor| |constructor; [done|]; apply Forall_forall; intros; by apply Hc|done].
      constructor; [done|]. apply Forall_forall. intros; by apply Hc.
    + intros ([|[g vs] l] & E & Hg & Hs & Hc & ->); [done|]. injection E as -> ->. inversion_clear Hg as [|? ? Ho Hg'].
      inversion_clear Hs as [|? ? Hs' Hb]. inversion_clear Hc as [|? ? Hf Hc'].
      assert (parse_record st (line_of (g, vs)) = Ok (after st g vs)) as -> by (apply parse_record_ok; [done|eauto 10]).
      apply IH. exists l. split_and!; try done. apply Forall_forall. intros q Hq. apply follows_after; [done|].
      rewrite Forall_forall in Hb, Hc'. split; [by apply Hb|by apply Hc'].
Qed.

(** ** The items of a file *)
Definition value_of (g : group) (f : SumFile) : string :=
  match g with groupDialect => s_Dialect f | groupProfile => s_Profile f | groupSettings => s_Settings f | _ => "" end.
Definition entries_of (g : group) (f : SumFile) : list Entry :=
  match g with groupMigration => s_Migrations f | groupQuery => s_Queries f | groupOutput => s_Outputs f | _ => [] end.
Definition value_item (g : group) (v : string) : list item := if String.eqb v "" then [] else [(g, [v])].
Definition entry_item (g : group) (e : Entry) : item := (g, [e_Name e; e_Value e]).
Definition group_items (f : SumFile) (g : group) : list item := value_item g (value_of g f) ++ map (entry_item g) (entries_of g f).
Definition groups : list group := [groupDialect; groupProfile; groupSettings; groupMigration; groupQuery; groupOutput].
Definition items (f : SumFile) : list item := flat_map (group_items f) groups.
(** A record that reads back: its values are absent or fields, the entries of
    each group are in order and made of fields. *)
Definition named_before (x y : Entry) : Prop := str_ltb (e_Name x) (e_Name y) = true.
Definition fields_ok (e : Entry) : Prop := field (e_Name e) /\ field (e_Value e).
Definition sum_ok (f : SumFile) : Prop :=
  forall g, (value_of g f = "" \/ field (value_of g f)) /\ StronglySorted named_before (entries_of g f) /\ Forall fields_ok (entries_of g f).

Lemma file_ext f f' : (forall g, value_of g f = value_of g f' /\ entries_of g f = entries_of g f') -> f = f'.
Proof.
  destruct f, f'. intros H. pose proof (H groupDialect). pose proof (H groupProfile). pose proof (H groupSettings).
  pose proof (H groupMigration). pose proof (H groupQuery). pose proof (H groupOutput). simpl in *. f_equal; tauto.
Qed.
Lemma group_items_of f g p : p ∈ group_items f g -> p.1 = g.
Proof.
  unfold group_items, value_item. rewrite elem_of_app. intros [H|(e & -> & _)%list_elem_of_fmap]; [|done].
  destruct (String.eqb _ _); [by apply elem_of_nil in H|]. by apply list_elem_of_singleton in H as ->.
Qed.
Lemma items_of f g : g <> groupHeader -> List.filter (fun p => bool_decide (p.1 = g)) (items f) = group_items f g.
Proof.
  assert (forall g', List.filter (fun p => bool_decide (p.1 = g)) (group_items f g') = if decide (g' = g) then group_items f g' else []) as H.
  { intros g'. pose proof (group_items_of f g') as Hg. induction (group_items f g') as [|p l IH]; [by case_decide|].
    assert (p.1 = g') as Hp by apply Hg, list_elem_of_here. cbn [List.filter]. rewrite Hp, IH by (intros; apply Hg; by right). by repeat case_decide || case_bool_decide. }
  intros Hg. unfold items, groups. cbn [flat_map]. rewrite !List.filter_app, !H. by destruct g; simpl; rewrite ?app_nil_r.
Qed.
Lemma items_inj f f' : items f = items f' -> f = f'.
Proof.
  intros E. apply file_ext. intros g. destruct (decide (g = groupHeader)) as [->|Hg]; [done|].
  pose proof (items_of f g Hg) as H. rewrite E, items_of in H by done. unfold group_items, value_item in H.
  assert (forall l l' : list Entry, map (entry_item g) l = map (entry_item g) l' -> l = l') as Hinj.
  { induction l as [|[??] l IH]; intros [|[??] l']; try done. intros [= -> -> ?%IH]. by subst. }
  destruct (String.eqb_spec (value_of g f) "") as [->|Hv], (String.eqb_spec (value_of g f') "") as [->|Hv'].
  - split; [done|]. symmetry. by apply Hinj.
  - by destruct g.
  - by destruct g.
  - injection H as -> H. split; [done|]. symmetry. by apply Hinj.
Qed.
Lemma sorted_flat_map {A B} (R : B -> B -> Prop) (k : A -> list B) l :
  (forall a, a ∈ l -> StronglySorted R (k a)) -> StronglySorted (fun a b => forall x y, x ∈ k a -> y ∈ k b -> R x y) l ->
  StronglySorted R (flat_map k l).
Proof.
  intros Hk. induction 1 as [|a l Hs IH Ha]; [constructor|]. cbn [flat_map]. apply StronglySorted_app_2; [|by apply Hk, list_elem_of_here|].
  - intros x y Hx (b & Hb & Hy)%list_elem_of_In%in_flat_map. rewrite Forall_forall in Ha.
    apply (Ha b); [by apply list_elem_of_In|done|by apply list_elem_of_In].
  - apply IH. intros b Hb. apply Hk. by right.
Qed.

(** ** What reading keeps true of what was read *)
Definition read_value (g g' : group) (vs : list string) (v : string) : string := if decide (g' = g) then if repeats g then v else nth 0 vs "" else v.
Definition read_entries (g g' : group) (vs : list string) (l : list Entry) : list Entry :=
  if decide (g' = g) then if repeats g then l ++ [MkEntry (nth 0 vs "") (nth 1 vs "")] else l else l.
Lemma value_of_set g g' vs f : g <> groupHeader -> value_of g' (set_field g (keyword g :: vs) f) = read_value g g' vs (value_of g' f).
Proof. by destruct g, g'. Qed.
Lemma entries_of_set g g' vs f : g <> groupHeader -> entries_of g' (set_field g (keyword g :: vs) f) = read_entries g g' vs (entries_of g' f).
Proof. by destruct g, g'. Qed.
(** Groups a record of group [g] may still fill. *)
Definition open_group (g g' : group) : Prop := rank g < rank g' \/ g = g' /\ repeats g = false.
Record read_so_far (st : parse_state) (l : list item) : Prop := {
  rd_items : items (ps_file st) = l;
  rd_ok : sum_ok (ps_file st);
  rd_open : forall g, rank (ps_last st) < rank g -> entries_of g (ps_file st) = [] /\ value_of g (ps_file st) = "";
  rd_names : forall g, repeats g = true -> name_of g (ps_lastName st) = option_map e_Name (last (entries_of g (ps_file st))) }.
Lemma groups_split g : g <> groupHeader -> exists pre post, groups = pre ++ (g :: post) /\ (g ∉ pre) /\ Forall (fun g' => rank g < rank g') post.
Proof.
  intros Hg. destruct g; [done| exists (take 0 groups), (drop 1 groups) | exists (take 1 groups), (drop 2 groups) | exists (take 2 groups), (drop 3 groups)
    | exists (take 3 groups), (drop 4 groups) | exists (take 4 groups), (drop 5 groups) | exists (take 5 groups), (drop 6 groups)].
  all: split; [done|]; split; [simpl; set_solver|]; simpl; repeat constructor.
Qed.
Lemma group_items_set f g vs g' : item_ok g vs -> (repeats g = false -> value_of g f = "") ->
  group_items (set_field g (keyword g :: vs) f) g' = group_items f g' ++ (if decide (g' = g) then [(g, vs)] else []).
Proof.
  intros (Hg & Hlen & Hf) Hv. unfold group_items, value_item. rewrite value_of_set, entries_of_set by done. unfold read_value, read_entries.
  destruct (decide (g' = g)) as [->|]; [|by rewrite app_nil_r]. unfold width in Hlen.
  destruct (repeats g) eqn:Er; destruct vs as [|v [|w [|? ?]]]; try done.
  - by rewrite map_app, app_assoc.
  - rewrite Hv by done. inversion_clear Hf as [|? ? [He _] _]. cbn [nth]. rewrite (proj2 (String.eqb_neq v "")) by done.
    assert (entries_of g f = []) as -> by (by destruct g). done.
Qed.
Lemma items_set f g vs : item_ok g vs -> (forall g', open_group g g' -> (entries_of g' f = [] /\ value_of g' f = "")) ->
  items (set_field g (keyword g :: vs) f) = items f ++ [(g, vs)].
Proof.
  intros Hi Ho. destruct (groups_split g) as (pre & post & E & Hpre & Hpost); [by destruct Hi|]. unfold items.
  assert (forall l, g ∉ l -> flat_map (group_items (set_field g (keyword g :: vs) f)) l = flat_map (group_items f) l) as Hsame.
  { induction l as [|g' l IH]; [done|]. intros [Hne Hl]%not_elem_of_cons. cbn [flat_map]. rewrite IH, group_items_set by (done || intros; by apply Ho; right).
    by rewrite decide_False, app_nil_r by done. }
  assert (flat_map (group_items f) post = []) as Hn.
  { clear E. induction Hpost as [|g' post Hr _ IH]; [done|]. cbn [flat_map]. rewrite IH, app_nil_r. unfold group_items, value_item.
    by destruct (Ho g') as [-> ->]; [by left|]. }
  assert (g ∉ post) as Hpo by (intros Hin; rewrite Forall_forall in Hpost; specialize (Hpost _ Hin); lia).
  rewrite E, !flat_map_app. cbn [flat_map]. rewrite (Hsame pre Hpre), (Hsame post Hpo), Hn, !app_nil_r.
  rewrite group_items_set, decide_True by (done || intros; by apply Ho; right). by rewrite app_assoc.
Qed.
Lemma named_snoc l e : StronglySorted named_before l -> (forall x, last l = Some x -> named_before x e) -> StronglySorted named_before (l ++ [e]).
Proof.
  intros Hs Hl. apply StronglySorted_app_2; [|done|repeat constructor]. intros x y Hx ->%list_elem_of_singleton.
  destruct (decide (l = [])) as [->|Hne]; [by apply elem_of_nil in Hx|]. destruct (exists_last Hne) as (l0 & z & ->). clear Hne.
  assert (named_before z e) as Hz by (apply Hl; by rewrite last_snoc).
  apply elem_of_app in Hx as [Hx| ->%list_elem_of_singleton]; [|done]. eapply str_ltb_trans; [|exact Hz].
  eapply (StronglySorted_app_1_elem_of named_before l0 [z]); [done|done|]. apply list_elem_of_here.
Qed.
Lemma read_step st l g vs : read_so_far st l -> item_ok g vs -> follows st g (nth 0 vs "") -> read_so_far (after st g vs) (l ++ [(g, vs)]).
Proof.
  intros [Hi Hok Ho Hn] Hg Hf. assert (g <> groupHeader) as Hne by apply Hg.
  assert (forall g', open_group g g' -> rank (ps_last st) < rank g') as Hr.
  { intros g'. unfold follows in Hf. intros [?|[<- Hrep]]; [destruct (repeats g); lia|]. by rewrite Hrep in Hf. }
  assert (forall g', open_group g g' -> (entries_of g' (ps_file st) = [] /\ value_of g' (ps_file st) = "")) as Hop by (intros; by apply Ho, Hr).
  constructor; cbn [after ps_file ps_last ps_lastName].
  - by rewrite items_set, Hi.
  - intros g'. rewrite value_of_set, entries_of_set by done. unfold read_value, read_entries. destruct (Hok g') as (Hv & Hs & Hfs).
    destruct (decide (g' = g)) as [->|]; [|done]. destruct Hg as (_ & Hlen & Hfi). unfold width, follows in *.
    destruct (repeats g) eqn:Er; destruct vs as [|v [|w [|? ?]]]; try done; [|inversion_clear Hfi; by split; [right|]].
    split; [done|]. inversion_clear Hfi as [|? ? H1 H2]. inversion_clear H2. split; [|by apply Forall_app; split; [|constructor]].
    apply named_snoc; [done|]. intros x Hx. apply Hf. by rewrite Hn, Hx.
  - intros g' Hg'. rewrite value_of_set, entries_of_set by done. unfold read_value, read_entries.
    rewrite !decide_False by (intros ->; lia). by apply Hop; left.
  - intros g' Hg'. rewrite entries_of_set by done. unfold read_entries. specialize (Hn g' Hg'). destruct (decide (g' = g)) as [->|Hd].
    + by rewrite Hg', name_of_cons, bool_decide_true, last_snoc by done.
    + rewrite <- Hn. destruct (repeats g); [|done]. by rewrite name_of_cons, bool_decide_false.
Qed.
Definition start : parse_state := MkParse no_sum groupHeader [].
Lemma read_start : read_so_far start [].
Proof. constructor; try done; [|by intros []..]. intros g. split; [left; by destruct g|]. split; destruct g; constructor. Qed.
Lemma follows_start p : good p -> follows start p.1 (name_in p).
Proof. destruct p as [g vs]. intros (Hg & _). unfold follows. simpl in *. destruct (repeats g) eqn:E; [by split; [lia|]|by destruct g; simpl; try lia]. Qed.
Lemma run_items_read l : Forall good l -> StronglySorted item_before l -> read_so_far (run_items start l) l.
Proof.
  intros Hg Hs. assert (Forall (fun p => follows start p.1 (name_in p)) l) as Hf by (eapply Forall_impl; [exact Hg|]; by intros; apply follows_start).
  change l with ([] ++ l) at 2. pose proof read_start as Hr. revert Hg Hs Hf Hr. generalize start, (@nil item).
  induction l as [|[g vs] l IH]; intros st pre Hg Hs Hf Hr; [by rewrite app_nil_r|].
  inversion_clear Hg. inversion_clear Hs as [|? ? Hs' Hb]. inversion_clear Hf as [|? ? Hf0 Hf'].
  change (run_items st ((g, vs) :: l)) with (run_items (after st g vs) l).
  pose proof (IH (after st g vs) (pre ++ [(g, vs)])) as IH'. rewrite <- app_assoc in IH'. apply IH'; [done|done| |by apply read_step]. apply Forall_forall. intros q Hq. apply follows_after; [done|].
  rewrite Forall_forall in Hb, Hf'. split; [by apply Hb|by apply Hf'].
Qed.
Lemma items_good f : sum_ok f -> Forall good (items f) /\ StronglySorted item_before (items f).
Proof.
  intros Hok. assert (forall g, g <> groupHeader -> Forall good (group_items f g) /\ StronglySorted item_before (group_items f g)) as Hg.
  { intros g Hg. destruct (Hok g) as (Hv & Hs & Hf). unfold group_items, value_item.
    assert (Forall good (map (entry_item g) (entries_of g f)) /\ StronglySorted item_before (map (entry_item g) (entries_of g f))) as [He Hse].
    { destruct (decide (repeats g = true)) as [Hr|Hr]; [|destruct g; try done; by repeat constructor].
      assert (forall e, fields_ok e -> good (entry_item g e)) as Hgood.
      { intros e [H1 H2]. split; [done|]. cbn [fst snd entry_item]. split; [unfold width; by rewrite Hr|]. by apply Forall_cons_2, Forall_singleton. }
      clear Hok Hv. induction Hs as [|e l Hs IH He]; [by repeat constructor|]. inversion_clear Hf. destruct IH as [IH1 IH2]; [done|].
      split; cbn [map]; constructor; [by apply Hgood|done|done|]. apply Forall_forall. intros q (e' & -> & Hin)%list_elem_of_fmap.
      rewrite Forall_forall in He. right. split; [done|]. split; [done|]. by apply He. }
    destruct (String.eqb_spec (value_of g f) "") as [|Hne]; [done|]. destruct Hv as [|Hv]; [done|].
    assert (entries_of g f = [] /\ repeats g = false) as [-> Hr] by (by destruct g). cbn [app map].
    split; [|by repeat constructor]. apply Forall_singleton. split; [done|]. cbn [fst snd]. split; [unfold width; by rewrite Hr|by apply Forall_singleton]. }
  split.
  - apply Forall_forall. intros p (g & Hin & Hp)%list_elem_of_In%in_flat_map. assert (g <> groupHeader) as Hne by (intros ->; simpl in Hin; intuition done).
    destruct (Hg g Hne) as [H _]. rewrite Forall_forall in H. by apply H, list_elem_of_In.
  - apply sorted_flat_map; [intros g Hin; apply Hg; intros ->; unfold groups in Hin; set_solver|].
    assert (forall a b, rank a < rank b -> forall x y, x ∈ group_items f a -> y ∈ group_items f b -> item_before x y) as Hlt.
    { intros a b Hr x y <-%group_items_of <-%group_items_of. by left. }
    assert (StronglySorted (fun a b => rank a < rank b) groups) as H by repeat constructor.
    clear -H Hlt. induction H as [|a l Hs IH Ha]; constructor; [done|]. eapply Forall_impl; [exact Ha|]. intros b Hr. by apply Hlt.
Qed.
Definition header : string := "rasql.sum v1".
Lemma parse_header first fs : one_line first ->
  splitFields first 2 = Ok fs /\ String.eqb (nth 0 fs "") "rasql.sum" = true /\ String.eqb (nth 1 fs "") version = true <-> first = header /\ fs = ["rasql.sum"; "v1"].
Proof.
  intros Hl. rewrite splitFields_ok by (done || lia). split.
  - intros ((Hlen & _ & ->) & H1%String.eqb_eq & H2%String.eqb_eq). destruct fs as [|a [|b [|? ?]]]; try done. cbn in H1, H2. by subst.
  - intros [-> ->]. split; [|done]. split; [done|]. split; [|done]. by repeat constructor.
Qed.
Definition sum_lines (f : SumFile) : list string := header :: map line_of (items f).
Lemma sum_lines_one f : sum_ok f -> Forall one_line (sum_lines f).
Proof.
  intros [Hg _]%items_good. constructor; [done|]. apply Forall_fmap. eapply Forall_impl; [exact Hg|]. intros [g vs] (Hne & _ & Hf).
  apply record_line. constructor; [by apply keyword_field|done].
Qed.
Lemma Parse_ok b f : Parse b = Ok f <-> sum_ok f /\ TrimSuffix b nl = Join (sum_lines f) nl.
Proof.
  unfold Parse. destruct (Split_spec newline (TrimSuffix b nl)) as (Hne & Hl & Hj). change (str1 newline) with nl in *. split.
  - destruct (String.eqb _ ""); [done|]. destruct (Split (TrimSuffix b nl) nl) as [|first lines]; [done|]. inversion_clear Hl as [|? ? Hl1 Hl2].
    destruct (splitFields first 2) as [fs|] eqn:Es; [|done]. destruct (String.eqb (nth 0 fs "") "rasql.sum") eqn:E0; [|done]. cbn [negb].
    destruct (String.eqb (nth 1 fs "") version) eqn:E1; [|done]. cbn [negb]. intros (st & H & [= <-])%do_ok.
    apply parse_records_ok in H as (l & -> & Hg & Hs & _ & ->); [|done].
    destruct (proj1 (parse_header first fs Hl1) (conj Es (conj E0 E1))) as [-> _]. destruct (run_items_read l Hg Hs) as [Hi Hok _ _].
    split; [done|]. rewrite <- Hj. unfold sum_lines. fold start. by rewrite Hi.
  - intros [Hok E]. rewrite E. pose proof (sum_lines_one f Hok) as Hone. pose proof (Split_Join newline (sum_lines f) ltac:(done) Hone) as Hsp. change (str1 newline) with nl in Hsp. rewrite Hsp.
    destruct (String.eqb_spec (Join (sum_lines f) nl) "") as [Ee|_].
    { by rewrite Ee in Hsp. }
    unfold sum_lines. inversion_clear Hone as [|? ? H1 H2].
    destruct (proj2 (parse_header header ["rasql.sum"; "v1"] H1)) as (-> & _ & _); [done|]. cbn [negb nth String.eqb version].
    destruct (items_good f Hok) as [Hg Hs].
    assert (parse_records start (map line_of (items f)) = Ok (run_items start (items f))) as H.
    { apply parse_records_ok; [done|]. exists (items f). split_and!; try done. eapply Forall_impl; [exact Hg|]. intros; by apply follows_start. }
    fold start. rewrite H. change (Ok (ps_file (run_items start (items f))) = Ok f). f_equal. apply items_inj. by destruct (run_items_read _ Hg Hs).
Qed.

(** ** Writing *)
Section Written.
Context {sort : SliceSort}.
Definition in_order (f : SumFile) : SumFile :=
  MkSumFile (s_Dialect f) (s_Profile f) (s_Settings f) (sortedEntries (s_Migrations f)) (sortedEntries (s_Queries f)) (sortedEntries (s_Outputs f)).
Definition named_apart (f : SumFile) : Prop := forall g, NoDup (map e_Name (entries_of g f)).
Definition writable (f : SumFile) : Prop :=
  field (s_Dialect f) /\ field (s_Profile f) /\ field (s_Settings f) /\ named_apart f /\ forall g, Forall fields_ok (entries_of g f).
Lemma sortedEntries_nil : sortedEntries [] = [].
Proof. apply sort_Slice_nil. Qed.
Lemma entries_in_order f g : entries_of g (in_order f) = sortedEntries (entries_of g f).
Proof. destruct g; simpl; by rewrite ?sortedEntries_nil. Qed.
Lemma sortedEntries_perm l : sortedEntries l ≡ₚ l.
Proof. apply sort_Slice_perm. Qed.
Lemma sortedEntries_sorted l : NoDup (map e_Name l) -> StronglySorted named_before (sortedEntries l).
Proof.
  intros Hd. assert (NoDup (map e_Name (sortedEntries l))) as Hd' by (by rewrite sortedEntries_perm).
  pose proof (sort_Slice_sorted Entry (by_key e_Name) l (by_key_weak e_Name)) as Hs. fold (sortedEntries l) in Hs.
  induction Hs as [|x k Hs IH Hx]; [constructor|]. apply NoDup_cons in Hd' as [Hn Hd']. constructor; [by apply IH|].
  apply Forall_forall. intros y Hy. rewrite Forall_forall in Hx. specialize (Hx y Hy). unfold named_before.
  destruct (str_ltb (e_Name x) (e_Name y)) eqn:E; [done|]. exfalso. apply Hn. rewrite (str_ltb_total (e_Name x) (e_Name y) E Hx).
  apply list_elem_of_fmap. by exists y.
Qed.
Lemma in_order_ok f : writable f -> sum_ok (in_order f).
Proof.
  intros (H1 & H2 & H3 & Hd & Hf) g. rewrite entries_in_order. split; [destruct g; simpl; first [by left|by right]|]. split; [by apply sortedEntries_sorted|].
  by rewrite sortedEntries_perm.
Qed.
Definition each_line (l : list string) : string := fold_right (fun x acc => x +:+ nl +:+ acc) "" l.
Lemma each_line_Join x l : each_line (x :: l) = Join (x :: l) nl +:+ nl.
Proof. revert x. induction l as [|y l IH]; intros x; [done|]. rewrite Join_cons, !sapp_assoc, <- IH. done. Qed.
Lemma each_line_app l1 l2 : each_line (l1 ++ l2) = each_line l1 +:+ each_line l2.
Proof. induction l1 as [|x l1 IH]; [done|]. cbn [app each_line fold_right]. fold (each_line (l1 ++ l2)) (each_line l1). by rewrite IH, !sapp_assoc. Qed.
Lemma encode_lines g l : encode_entries (keyword g) l = each_line (map line_of (map (entry_item g) (sortedEntries l))).
Proof.
  unfold encode_entries. induction (sortedEntries l) as [|e k IH]; [done|]. cbn [fold_right map each_line]. fold (each_line (map line_of (map (entry_item g) k))).
  rewrite <- IH. unfold line_of, record_text, entry_item. cbn [fst snd]. by rewrite !Join_cons, !sapp_assoc.
Qed.
Lemma sortedEntries_twice l : NoDup (map e_Name l) -> sortedEntries (sortedEntries l) = sortedEntries l.
Proof.
  intros Hd. apply (sorted_unique (by_key e_Name)); [|apply sort_Slice_sorted, by_key_weak..|apply sortedEntries_perm].
  intros x y Hx Hy H1 H2. rewrite !sortedEntries_perm in Hx, Hy.
  eapply NoDup_map_inj; [exact Hd|done|done|]. symmetry. by apply str_ltb_total.
Qed.
Lemma Encode_lines f : writable f -> Encode f = Join (sum_lines (in_order f)) nl +:+ nl.
Proof.
  intros (H1 & H2 & H3 & _). unfold sum_lines. rewrite <- each_line_Join. unfold items, groups. cbn [flat_map]. unfold group_items.
  rewrite !entries_in_order. unfold value_item. cbn [value_of in_order s_Dialect s_Profile s_Settings].
  assert (forall v, field v -> String.eqb v "" = false) as Hv by (intros v [? _]; by apply String.eqb_neq).
  rewrite (Hv _ H1), (Hv _ H2), (Hv _ H3). cbn [entries_of String.eqb]. rewrite !sortedEntries_nil, app_nil_r. cbn [map app].
  unfold Encode. rewrite (encode_lines groupMigration), (encode_lines groupQuery), (encode_lines groupOutput).
  rewrite !map_app. cbn [each_line map fold_right app]. fold each_line. change (fold_right _ "" ?l) with (each_line l).
  rewrite !each_line_app, sapp_nil_r. 
  assert (forall g v, line_of (g, [v]) = keyword g +:+ sp +:+ v) as Hline by done. rewrite !Hline, !sapp_assoc. reflexivity.
Qed.
Lemma TrimSuffix_Encode f : writable f -> TrimSuffix (Encode f) nl = Join (sum_lines (in_order f)) nl.
Proof. intros H. by rewrite Encode_lines, TrimSuffix_app. Qed.
Lemma Encode_in_order f : named_apart f -> Encode (in_order f) = Encode f.
Proof.
  intros H. unfold Encode, encode_entries. cbn [in_order s_Dialect s_Profile s_Settings s_Migrations s_Queries s_Outputs].
  by rewrite (sortedEntries_twice (s_Migrations f) (H groupMigration)), (sortedEntries_twice (s_Queries f) (H groupQuery)), (sortedEntries_twice (s_Outputs f) (H groupOutput)).
Qed.

(** ** Where two records differ *)
Definition value_at (n : string) (l : list Entry) : option string := option_map e_Value (List.find (fun e => String.eqb (e_Name e) n) l).
(** The least name that has a value in one list and another, or none, in the
    other. *)
Definition least_difference (a b : list Entry) (o : option string) : Prop :=
  match o with
  | Some n => value_at n a <> value_at n b /\ forall m, str_ltb m n = true -> value_at m a = value_at m b
  | None => forall m, value_at m a = value_at m b
  end.
Lemma value_at_cons n e l : value_at n (e :: l) = if String.eqb (e_Name e) n then Some (e_Value e) else value_at n l.
Proof. unfold value_at. simpl. by destruct (String.eqb _ _). Qed.
Lemma value_at_absent n l : Forall (fun e => str_ltb n (e_Name e) = true) l -> value_at n l = None.
Proof.
  induction 1 as [|e l He _ IH]; [done|]. rewrite value_at_cons. destruct (String.eqb_spec (e_Name e) n) as [<-|]; [by rewrite str_ltb_irrefl in He|done].
Qed.
Lemma below_absent n e l : StronglySorted named_before (e :: l) -> str_ltb n (e_Name e) = true -> value_at n (e :: l) = None.
Proof.
  intros Hs Hn. inversion_clear Hs as [|? ? _ He]. apply value_at_absent. constructor; [done|]. eapply Forall_impl; [exact He|].
  intros x Hx. by eapply str_ltb_trans.
Qed.
Lemma tail_absent e l : StronglySorted named_before (e :: l) -> value_at (e_Name e) l = None.
Proof. intros Hs. inversion_clear Hs as [|? ? _ He]. by apply value_at_absent. Qed.
Lemma value_at_here e l : value_at (e_Name e) (e :: l) = Some (e_Value e).
Proof. by rewrite value_at_cons, String.eqb_refl. Qed.
Lemma first_difference_least a b : StronglySorted named_before a -> StronglySorted named_before b -> least_difference a b (first_difference a b).
Proof.
  intros Ha. revert b. induction a as [|x a IH]; intros [|y b] Hb; cbn [first_difference least_difference].
  - done.
  - split; [by rewrite value_at_here|]. intros m Hm. by rewrite (below_absent m y b).
  - split; [by rewrite value_at_here|]. intros m Hm. by rewrite (below_absent m x a).
  - assert (forall m, str_ltb m (e_Name x) = true -> value_at m (x :: a) = None) as Hx by (intros; by apply below_absent).
    assert (forall m, str_ltb m (e_Name y) = true -> value_at m (y :: b) = None) as Hy by (intros; by apply below_absent).
    destruct (str_ltb (e_Name x) (e_Name y)) eqn:E1.
    { split; [by rewrite value_at_here, Hy|]. intros m Hm. rewrite Hx, Hy; [done| |done]. by eapply str_ltb_trans. }
    destruct (str_ltb (e_Name y) (e_Name x)) eqn:E2.
    { split; [by rewrite value_at_here, Hx|]. intros m Hm. rewrite Hx, Hy; [done|done|]. by eapply str_ltb_trans. }
    pose proof (str_ltb_total _ _ E1 E2) as En. destruct (String.eqb_spec (e_Value x) (e_Value y)) as [Ev|Ev]; cbn [negb].
    + pose proof (tail_absent _ _ Ha) as Hta. pose proof (tail_absent _ _ Hb) as Htb. inversion_clear Ha as [|? ? Ha' _]. inversion_clear Hb as [|? ? Hb' _].
      assert (forall m, value_at m a = value_at m b -> value_at m (x :: a) = value_at m (y :: b)) as Hc.
      { intros m Hm. rewrite !value_at_cons, En, Ev. by destruct (String.eqb _ _). }
      specialize (IH Ha' b Hb'). destruct (first_difference a b) as [n|]; cbn [least_difference] in *; [|by intros m; apply Hc].
      destruct IH as [H1 H2]. split; [|intros m Hm; by apply Hc, H2]. rewrite !value_at_cons, En.
      destruct (String.eqb_spec (e_Name y) n) as [<-|]; [|done]. rewrite <- En in H1 at 1. congruence.
    + split; [rewrite value_at_here, En, value_at_here; congruence|]. intros m Hm. rewrite Hx by done. rewrite En in Hm. by rewrite Hy.
Qed.
Lemma value_at_in n v l : NoDup (map e_Name l) -> value_at n l = Some v <-> MkEntry n v ∈ l.
Proof.
  induction l as [|[k w] l IH]; cbn [map]; [by split; [|intros ?%elem_of_nil]|]. intros [Hn Hd]%NoDup_cons. cbn [e_Name] in Hn.
  rewrite value_at_cons, elem_of_cons. cbn [e_Name e_Value]. destruct (String.eqb_spec k n) as [<-|Hne].
  - split; [intros [= ->]; by left|]. intros [[= ->]|Hin]; [done|]. exfalso. apply Hn, list_elem_of_fmap. by exists (MkEntry k v).
  - rewrite IH by done. split; [by right|]. intros [[= -> ->]|Hin]; done.
Qed.
Lemma value_at_sorted n l : NoDup (map e_Name l) -> value_at n (sortedEntries l) = value_at n l.
Proof.
  intros Hd. assert (forall v, value_at n (sortedEntries l) = Some v <-> value_at n l = Some v) as H.
  { intros v. rewrite !value_at_in by (by rewrite ?sortedEntries_perm). by rewrite sortedEntries_perm. }
  destruct (value_at n l) as [v|]; [by apply H|]. destruct (value_at n (sortedEntries l)) as [v|]; [|done]. symmetry. by apply H.
Qed.
Lemma firstDifference_least a b : NoDup (map e_Name a) -> NoDup (map e_Name b) -> least_difference a b (firstDifference a b).
Proof.
  intros Ha Hb. unfold firstDifference.
  pose proof (first_difference_least _ _ (sortedEntries_sorted a Ha) (sortedEntries_sorted b Hb)) as H.
  destruct (first_difference _ _) as [n|]; cbn [least_difference] in *; [|intros m; specialize (H m)]; rewrite !value_at_sorted in H by done; [|done].
  destruct H as [H1 H2]. split; [done|]. intros m Hm. specialize (H2 m Hm). by rewrite !value_at_sorted in H2.
Qed.
Lemma named_apart_in_order f : named_apart f -> named_apart (in_order f).
Proof. intros H g. rewrite entries_in_order, sortedEntries_perm. apply H. Qed.

(** What a comparison of two records says: which of the three values changed,
    and for each list the least name whose entry did. *)
Definition changed (name v w : string) : list Difference := if decide (v = w) then [] else [MkDifference name ""].
Definition changed_entries (name : string) (a b : list Entry) (ds : list Difference) : Prop :=
  exists o, least_difference a b o /\ ds = match o with Some path => [MkDifference name path] | None => [] end.
Definition compared (f c : SumFile) (ds : list Difference) : Prop :=
  exists migrations queries outputs,
    ds = changed "dialect" (s_Dialect f) (s_Dialect c) ++ changed "profile" (s_Profile f) (s_Profile c) ++
         changed "settings" (s_Settings f) (s_Settings c) ++ migrations ++ queries ++ outputs /\
    changed_entries "migrations" (s_Migrations f) (s_Migrations c) migrations /\
    changed_entries "queries" (s_Queries f) (s_Queries c) queries /\
    changed_entries "outputs" (s_Outputs f) (s_Outputs c) outputs.
Lemma field_difference_changed name v w : field_difference name v w = changed name v w.
Proof. unfold field_difference, changed. destruct (String.eqb_spec v w); by case_decide. Qed.
Lemma Compare_compared f c : named_apart f -> named_apart c -> compared f c (Compare (in_order f) c).
Proof.
  intros Hf Hc. assert (forall g, least_difference (entries_of g f) (entries_of g c) (firstDifference (entries_of g (in_order f)) (entries_of g c))) as H.
  { intros g. pose proof (firstDifference_least _ _ (named_apart_in_order f Hf g) (Hc g)) as H. rewrite entries_in_order in *.
    destruct (firstDifference _ _); cbn [least_difference] in *;
      [destruct H as [H1 H2]; split; [|intros m Hm; specialize (H2 m Hm)]|intros m; specialize (H m)]; by rewrite value_at_sorted in *. }
  unfold Compare. rewrite !field_difference_changed. do 3 eexists. split; [reflexivity|].
  split_and!; eexists; (split; [|reflexivity]); [apply (H groupMigration)|apply (H groupQuery)|apply (H groupOutput)].
Qed.

(** C36 The record of a generation. [Parse] reads exactly the texts that are,
    up to a final newline, the lines of a record whose three values are absent
    or fields, non-empty and free of separators, and whose entries are made of
    fields and sorted by name without repetition. What [Encode] writes for a
    record that has its three values and names its entries apart is read back
    as that record with its entries sorted, which encodes to the same text;
    and comparing what was read with a current record reports exactly the
    values that changed and, per list, the least name that was added, removed
    or given another value. *)
Theorem generation_checked f :
  (forall b, Parse b = Ok f <-> sum_ok f /\ TrimSuffix b nl = Join (sum_lines f) nl) /\
  (writable f -> exists recorded, Parse (Encode f) = Ok recorded /\ Encode recorded = Encode f /\
     (forall g, value_of g recorded = value_of g f /\ entries_of g recorded ≡ₚ entries_of g f) /\
     forall current, named_apart current -> compared f current (Compare recorded current)).
Proof.
  split; [intros b; apply Parse_ok|]. intros Hw. assert (named_apart f) as Hd by apply Hw. exists (in_order f). split_and!.
  - apply Parse_ok. split; [by apply in_order_ok|by apply TrimSuffix_Encode].
  - by apply Encode_in_order.
  - intros g. split; [by destruct g|]. rewrite entries_in_order. apply sortedEntries_perm.
  - intros current Hc. by apply Compare_compared.
Qed.
End Written.

(** A record, what is written of it, and the same with one migration more and
    an output changed. *)
Definition some_record : SumFile :=
  MkSumFile "sqlite" "sqlite-3.45" "s1" [MkEntry "b" "2"; MkEntry "a" "1"] [] [MkEntry "store.go" "x"].
Definition other_record : SumFile :=
  MkSumFile "sqlite" "sqlite-3.45" "s2" [MkEntry "a" "1"; MkEntry "aa" "9"; MkEntry "b" "2"] [] [MkEntry "store.go" "y"].
Definition some_text : string := Eval vm_compute in
  Join ["rasql.sum v1"; "dialect sqlite"; "profile sqlite-3.45"; "settings s1"; "migration a 1"; "migration b 2"; "output store.go x"; ""] nl.
Example encode_some : Encode some_record = some_text.
Proof. by vm_compute. Qed.
Example parse_swapped : is_ok (Parse (Join ["rasql.sum v1"; "query b 1"; "query a 1"] nl)) = false.
Proof. by vm_compute. Qed.
Example compare_some : Compare some_record other_record =
  [MkDifference "settings" ""; MkDifference "migrations" "aa"; MkDifference "outputs" "store.go"].
Proof. by vm_compute. Qed.
Lemma some_writable : writable some_record.
Proof.
  assert (forall s, negb (String.eqb s "") && lacks " " s && lacks (chr 9) s && lacks newline s = true -> field s) as H.
  { intros s [[[H1%negb_true_iff H2]%andb_true_iff H3]%andb_true_iff H4]%andb_true_iff. by apply String.eqb_neq in H1. }
  split; [by apply H|]. split; [by apply H|]. split; [by apply H|].
  split; intros []; repeat constructor; cbn; try (by apply H); try set_solver.
Qed.
Lemma generation_checked_witness :
  Parse some_text = Ok (in_order some_record) /\ compared some_record other_record (Compare (in_order some_record) other_record).
Proof.
  destruct (generation_checked some_record) as [_ H]. destruct (H some_writable) as (r & E & _ & _ & Hc).
  assert (Ok r = Ok (in_order some_record)) as [= ->] by (rewrite <- E; by vm_compute).
  rewrite encode_some in E. split; [exact E|]. apply Hc. intros []; cbn; repeat constructor; set_solver.
Defined.
