(* ===== verification/BindPlan.v ===== *)
(** * BindPlan: [internal/bindplan] and [codec.go]

    Bound values on their way into a statement: the tokens a rendered
    statement carries become the values they hold, with the metadata of each
    bind and the copier that hands its value out again; encoding runs each
    value through its codec.  A codec is the caller's code. *)

From S2P Require Import Prelude GoText Schema Query Render Page Typed.
Open Scope string_scope.
Open Scope list_scope.
Open Scope nat_scope.

(** What reflection and [database/sql/driver] say of a Go value the model does
    not look into: the copy [Adopt] makes of it, and [driver.IsValue]. *)
Class BindValues := {
  adopt_opaque : string -> Z -> result any;
  driver_IsValue : any -> bool }.

(** ** [compiled.go] *)
Record Slot := MkSlot { slot_ID : N; slot_Codec : string; slot_PreEncoded : bool; slot_Parameter : bool }.
Definition zero_slot : Slot := MkSlot 0 "" false false.
Abbreviation ValueCopy := (result any).
Record Compiled := MkCompiled { cp_Statement : Statement; cp_Slots : list Slot; cp_CopyArgs : list (option ValueCopy) }.

Definition plan_code (code : string) (e : error) : bool :=
  match e with MkError (KTyped "planerr.Error") c _ => String.eqb c code | _ => false end.
Definition copyError (i : nat) (e : error) : error :=
  if plan_code "unsnapshotable_bind" e then e else planWrap "unsnapshotable_bind" ("args[" +:+ NatItoa i +:+ "]") e.
Definition args_at (i : nat) : string := "args[" +:+ NatItoa i +:+ "]".
Definition binds_at (i : nat) : string := "binds[" +:+ NatItoa i +:+ "]".
Definition slots_differ : error := planError "internal_plan" "binds" "statement arguments and bind slots differ".

(** [Adopt]: the value itself for the scalars, whose copies are equal; the
    value of a named argument is adopted under its name. *)
Section Adopt.
Context `{BindValues}.
Fixpoint Adopt (v : any) : result any :=
  match v with
  | any_nil | any_int _ | any_string _ => Ok v
  | any_other t id => adopt_opaque t id
  | any_token _ _ _ _ _ _ _ => Err (planError "unsnapshotable_bind" "bind" "mutable value is unsupported")
  | any_named name v => do v <- Adopt v; Ok (any_named name v)
  end.

(** The value of a token, its slot and its copier. *)
Definition unwrap_token (i : nat) (id : N) (codec : string) (err : option error) (copy : option ValueCopy) (pre parameter : bool)
    (wrap : any -> any) : result (any * Slot * option ValueCopy) :=
  match err, copy with
  | Some e, _ => Err (planErr "unsnapshotable_bind" (args_at i) e)
  | None, None => Err (planError "unsnapshotable_bind" (args_at i) "missing bind copier")
  | None, Some c =>
      if N.eqb id 0 || malformed_codec codec then Err (planError "internal_plan" (binds_at i) "invalid bind token")
      else
        let copier := do v <- c; Ok (wrap v) in
        match copier with
        | Err e => Err (copyError i e)
        | Ok v => Ok (v, MkSlot id codec pre parameter, Some copier)
        end
  end.
Definition unwrap_arg (i : nat) (arg : any) : result (any * Slot * option ValueCopy) :=
  match arg with
  | any_token id _ codec err copy pre parameter => unwrap_token i id codec err copy pre parameter (fun v => v)
  | any_named name (any_token id _ codec err copy pre parameter) => unwrap_token i id codec err copy pre parameter (any_named name)
  | _ =>
      match Adopt arg with
      | Err e => Err (planErr "unsnapshotable_bind" (args_at i) e)
      | Ok v => Ok (v, zero_slot, Some (Ok v))
      end
  end.
Fixpoint unwrap_args (i : nat) (l : list any) : result (list (any * Slot * option ValueCopy)) :=
  match l with
  | [] => Ok []
  | a :: l' => do x <- unwrap_arg i a; do xs <- unwrap_args (S i) l'; Ok (x :: xs)
  end.
Definition Unwrap (s : Statement) : result Compiled :=
  do l <- unwrap_args 0 (stmt_args s);
  Ok (MkCompiled (MkStatement (sql_text s) (map (fun x => x.1.1) l)) (map (fun x => x.1.2) l) (map snd l)).
End Adopt.

Fixpoint copy_args (i : nat) (l : list (option ValueCopy)) : result (list any) :=
  match l with
  | [] => Ok []
  | None :: _ => Err (planError "internal_plan" (binds_at i) "missing bind copier")
  | Some (Err e) :: _ => Err (copyError i e)
  | Some (Ok v) :: l' => do vs <- copy_args (S i) l'; Ok (v :: vs)
  end.
Definition Copy_ (c : Compiled) : result Statement :=
  let n := length (stmt_args (cp_Statement c)) in
  if negb (n =? length (cp_Slots c)) || negb (n =? length (cp_CopyArgs c)) then Err slots_differ
  else do args <- copy_args 0 (cp_CopyArgs c); Ok (MkStatement (sql_text (cp_Statement c)) args).

(** Where each bind of [base] is among those of [paged]. *)
Fixpoint find_slot (want : Slot) (j : nat) (l : list Slot) : result (option nat) :=
  match l with
  | [] => Ok None
  | got :: l' =>
      if N.eqb (slot_ID got) (slot_ID want)
      then if negb (String.eqb (slot_Codec got) (slot_Codec want))
           then Err (planError "unsupported_keyset_bind" ("paged[" +:+ NatItoa j +:+ "]") "codec differs") else Ok (Some j)
      else find_slot want (S j) l'
  end.
Fixpoint match_slots (i next : nat) (base paged : list Slot) : result (list nat) :=
  match base with
  | [] => Ok []
  | want :: base' =>
      let at_ := "base[" +:+ NatItoa i +:+ "]" in
      if N.eqb (slot_ID want) 0 then Err (planError "unsupported_keyset_bind" at_ "bind has no identity")
      else
        do found <- find_slot want next (drop next paged);
        match found with
        | None => Err (planError "unsupported_keyset_bind" at_ "bind occurrence is missing or reordered")
        | Some j => do l <- match_slots (S i) (S j) base' paged; Ok (j :: l)
        end
  end.
Definition MatchBaseOccurrences (base paged : Compiled) : result (list nat) :=
  if negb (length (cp_Slots base) =? length (stmt_args (cp_Statement base)))
     || negb (length (cp_Slots paged) =? length (stmt_args (cp_Statement paged))) then Err slots_differ
  else match_slots 0 0 (cp_Slots base) (cp_Slots paged).

(** ** [codec.go] and [encode.go] *)
Abbreviation ValueCodec := (any -> result any).
Abbreviation CodecRegistry := (gmap string ValueCodec).
Definition NewCodecRegistry (values : list (string * option ValueCodec)) : result CodecRegistry :=
  foldi (fun _ x m =>
    if String.eqb x.1 "" then Err (errors_New "codec ID must not be empty")
    else match x.2 with
         | None => Err (Errorf "codec %q must not be nil" [AStr x.1])
         | Some codec => Ok (<[x.1 := codec]> m)
         end) 0 values ∅.
Definition codecFor (reg : CodecRegistry) (id : string) : result (option ValueCodec) :=
  if String.eqb id "" then Ok None
  else match reg !! id with Some codec => Ok (Some codec) | None => Err (planError "codec_unavailable" "codec" id) end.
Definition EncodeError (index : nat) (codec : string) (e : error) : error :=
  MkError (KTyped "EncodeError") "encode bind %d with codec %q failed" [AInt (Z.of_nat index); AStr codec; AErr e].

Section Encode.
Context `{BindValues}.
Definition rename (name : string) (v : any) : any := if negb (String.eqb name "") then any_named name v else v.
Definition validDriverValue (v : any) : result unit :=
  match v with
  | any_nil => Ok tt
  | _ => if driver_IsValue v then Ok tt else Err (errors_New "value %T is not a legal driver value")
  end.
Definition encode_arg (reg : CodecRegistry) (i : nat) (slot : Slot) (arg : any) : result any :=
  do codec <- codecFor reg (slot_Codec slot);
  let '(name, value) := match arg with any_named n v => (n, v) | _ => ("", arg) end in
  if slot_PreEncoded slot then
    match validDriverValue value with
    | Err e => Err (planErr "internal_plan" (binds_at i) e)
    | Ok _ => Ok (rename name value)
    end
  else match codec, value with
  | None, _ => Ok arg
  | Some _, any_nil => Ok (rename name any_nil)
  | Some encode, _ =>
      match encode value with
      | Err e => Err (EncodeError i (slot_Codec slot) e)
      | Ok encoded => Ok (rename name encoded)
      end
  end.
Fixpoint encode_args (reg : CodecRegistry) (i : nat) (slots : list Slot) (l : list any) : result (list any) :=
  match slots, l with
  | slot :: slots', a :: l' => do v <- encode_arg reg i slot a; do vs <- encode_args reg (S i) slots' l'; Ok (v :: vs)
  | _, _ => Ok l
  end.
Definition EncodeStatement (s : Statement) (slots : list Slot) (reg : CodecRegistry) : result Statement :=
  if negb (length (stmt_args s) =? length slots) then Err (planError "bind_mismatch" "" "statement arguments and bind slots differ")
  else do args <- encode_args reg 0 slots (stmt_args s); Ok (MkStatement (sql_text s) args).

(** ** Binding keeps the number of values *)
Lemma unwrap_args_length i l xs : unwrap_args i l = Ok xs -> length xs = length l.
Proof.
  revert i xs. induction l as [|a l IH]; intros i xs; cbn [unwrap_args]; [by intros [= <-]|].
  intros (x & _ & (xs' & E & [= <-])%do_ok)%do_ok. simpl. f_equal. by eapply IH.
Qed.
Lemma Unwrap_length s c : Unwrap s = Ok c ->
  length (stmt_args (cp_Statement c)) = length (stmt_args s) /\ length (cp_Slots c) = length (stmt_args s) /\
  length (cp_CopyArgs c) = length (stmt_args s) /\ sql_text (cp_Statement c) = sql_text s.
Proof.
  intros (l & E%unwrap_args_length & [= <-])%do_ok. simpl. by rewrite !length_map.
Qed.
Lemma encode_args_length reg i slots l xs : encode_args reg i slots l = Ok xs -> length xs = length l.
Proof.
  revert i l xs. induction slots as [|s slots IH]; intros i [|a l] xs; cbn [encode_args]; try (by intros [= <-]).
  intros (x & _ & (xs' & E & [= <-])%do_ok)%do_ok. simpl. f_equal. by eapply IH.
Qed.
Lemma copy_args_length i l xs : copy_args i l = Ok xs -> length xs = length l.
Proof.
  revert i xs. induction l as [|[[v|e]|] l IH]; intros i xs; cbn [copy_args]; try done; [by intros [= <-]|].
  intros (vs & E & [= <-])%do_ok. simpl. f_equal. by eapply IH.
Qed.
End Encode.
