(* ===== verification/Mutation.v ===== *)
(** * Mutation: [mutation.go], what a batch of mutations compiles to

    Plans and the statements they lower to, the compilation of one mutation,
    and the batches [ExecBatch] sends: runs of inserts of one shape share a
    multi-row INSERT, cut at [MaxRows] plans and at the bind limit, where a
    search over prefixes finds the cut.  What a [CreatePlan] or a [PatchPlan]
    lowers to is given: lowering them reads Go struct types.

    The search shrinks its interval at every step; its fuel is the length of
    the run.  The product of a row count and a limit is an [int64]. *)

From S2P Require Import Prelude GoText Schema Dialect EngineProfile Query QueryWrite Render RenderWrite RenderLayout QueryCompile Page Typed BindPlan.
Open Scope string_scope.
Open Scope list_scope.
Open Scope nat_scope.

(** ** Plans *)
Record nativeQueryPlan := MkNative { np_engine : string; np_statement : Statement }.
Inductive MutationPlan :=
| CreatePlan (lower : result Insert)
| PatchPlan (lower : result Update) (versioned : bool)
| DeletePlan (table : TableRef) (where_ : expression) (all : bool)
| UpsertPlan (statement : Upsert)
| StatementPlan (statement : WriteStatement)
| NativeMutation (plan : nativeQueryPlan).

Definition requireTableOperation (t : TableRef) (operation : N) : result unit :=
  match table_validate t with
  | Err e => Err (Errorf "rasql: %w" [AErr e])
  | Ok _ =>
      if negb (table_Supports t operation)
      then Err (Errorf "rasql: object %q does not support operation %d" [AStr (QualifiedName (Query.def t)); AInt (Z.of_N operation)])
      else Ok tt
  end.
Definition NewDeletePlan (t : TableRef) (where_ : expression) : result MutationPlan :=
  check requireTableOperation t OperationDelete;
  if is_nil where_ then Err (errors_New "rasql: delete plan requires a predicate") else Ok (DeletePlan t where_ false).
Definition NewUpsertPlan (s : Upsert) : result MutationPlan := check Upsert_Validate s; Ok (UpsertPlan s).
Definition write_validate (s : WriteStatement) : result unit :=
  match s with
  | WInsert s => Insert_Validate s | WUpdate s => Update_Validate s | WDelete s => Delete_Validate s | WUpsert s => Upsert_Validate s
  | WNil => Ok tt
  end.
Definition NewStatementPlan (s : WriteStatement) : result MutationPlan :=
  match s with
  | WNil => Err (errors_New "rasql: mutation statement must not be nil")
  | _ => check write_validate s; Ok (StatementPlan s)
  end.
Definition delete_statement (t : TableRef) (where_ : expression) (all : bool) : result WriteStatement :=
  match table_validate t with
  | Err e => Err (Errorf "rasql: delete plan: %w" [AErr e])
  | Ok _ =>
      do statement <- NewDelete t;
      if is_nil where_ then
        if negb all then Err (errors_New "rasql: delete plan requires a predicate")
        else do s <- Delete_AllowAll statement; Ok (WDelete s)
      else do s <- Delete_WithWhere statement where_; Ok (WDelete s)
  end.
Definition mutationPlan (p : MutationPlan) : result WriteStatement :=
  match p with
  | CreatePlan lower => do s <- lower; Ok (WInsert s)
  | PatchPlan lower _ => do s <- lower; Ok (WUpdate s)
  | DeletePlan t where_ all => delete_statement t where_ all
  | UpsertPlan s => Ok (WUpsert s)
  | StatementPlan s => Ok s
  | NativeMutation _ => Err (planError "unsupported_feature" "native" "native mutations do not have a write statement")
  end.
Definition write_returning (s : WriteStatement) : list Projection :=
  match s with WInsert s => i_returning s | WUpdate s => u_returning s | WDelete s => d_returning s | WUpsert s => up_returning s | WNil => [] end.
Definition mutationTarget (s : WriteStatement) : string :=
  match s with
  | WInsert s => QualifiedName (Query.def (into s))
  | WUpdate s => QualifiedName (Query.def (u_table s))
  | WDelete s => QualifiedName (Query.def (d_from s))
  | WUpsert s => QualifiedName (Query.def (into (up_insert s)))
  | WNil => ""
  end.

(** ** Compiling one mutation *)
Section Mutation.
Context `{BindValues}.
(** What compiling asks of an executor: the compiler it retains and its
    codecs. *)
Variable compiler : option Compiler.
Variable registry : CodecRegistry.

Definition checkNoParameterSlots (slots : list Slot) : result unit :=
  checki (fun i slot =>
    if slot_Parameter slot
    then Err (planError "parameter_unsupported" (binds_at i) "a mutation cannot carry a parameter; bind a value with Value") else Ok tt) 0 slots.
Definition compileMutationParts (s : WriteStatement) : result Compiled :=
  match compiler with
  | None => Err (planError "engine_profile_unavailable" "" "executor has no retained compiler")
  | Some c =>
      do compiled <- Compiler_Write c s;
      do parts <- Unwrap compiled;
      check checkNoParameterSlots (cp_Slots parts);
      Ok parts
  end.
Definition encodeCompiledMutation (c : Compiled) : result Statement :=
  check checkNoParameterSlots (cp_Slots c);
  do s <- Copy_ c;
  EncodeStatement s (cp_Slots c) registry.
Definition compileMutation (s : WriteStatement) : result Statement :=
  do parts <- compileMutationParts s;
  do copy <- Copy_ parts;
  EncodeStatement copy (cp_Slots parts) registry.

Definition compileNativeMutation (dialect : option string) (plan : nativeQueryPlan) : result Statement :=
  let mismatch := planError "engine_mismatch" "native.engine" "executor dialect does not match native SQL" in
  match dialect with
  | None => Err mismatch
  | Some name =>
      if negb (String.eqb name (np_engine plan)) then Err mismatch
      else match compiler with
           | None => Err (planError "engine_profile_unavailable" "" "executor has no retained compiler")
           | Some c =>
               do compiled <- Compiler_Native c (np_statement plan);
               do parts <- Unwrap compiled;
               encodeCompiledMutation parts
           end
  end.

(** ** Batches *)
Definition mutationBatchInsert (plan : MutationPlan) (s : WriteStatement) : option Insert :=
  match plan, s with CreatePlan _, WInsert insert => Some insert | _, _ => None end.
Definition mutationRows (l : list (list expression)) : list (list operand_value) := map (map OpExpression) l.
Definition sameColumns (left right : list ColumnRef) : bool :=
  (length left =? length right) && forallb (fun p => String.eqb (cr_name p.1) (cr_name p.2)) (combine left right).
Definition isMutationBindLimit (e : error) : bool :=
  match e with MkError (KTyped "engineprofile.ProfileError") code _ => String.eqb code ErrBindLimit | _ => false end || plan_code "bind_limit" e.
Definition over (limit : Z) (args : nat) : bool := (0 <? limit)%Z && (limit <? Z.of_nat args)%Z.
Definition bound_args (c : Compiled) : nat := length (stmt_args (cp_Statement c)).

Record mutationPrefix := MkPrefix { px_compiled : Compiled; px_args : nat; px_fits : bool }.
Definition no_compiled : Compiled := MkCompiled (MkStatement "" []) [] [].
Definition compileMutationPrefix (first : Insert) (columns : list ColumnRef) (rows : list (list expression)) (bindLimit : Z) : result mutationPrefix :=
  do candidate <- NewInsertRows (into first) columns (mutationRows rows);
  match compileMutationParts (WInsert candidate) with
  | Err e => if isMutationBindLimit e then Ok (MkPrefix no_compiled 0 false) else Err e
  | Ok compiled =>
      if over bindLimit (bound_args compiled) then Ok (MkPrefix no_compiled (bound_args compiled) false)
      else Ok (MkPrefix compiled (bound_args compiled) true)
  end.

(** The plans at the head of a batch whose inserts have the shape of the
    first: their rows, and how many rows the first of them, the first two,
    and so on hold. *)
Fixpoint shared_run (columns : list ColumnRef) (maxRows : Z) (count : nat) (l : list (MutationPlan * WriteStatement))
    (rows : list (list expression)) (rowEnds : list nat) : list (list expression) * list nat :=
  match l with
  | [] => (rows, rowEnds)
  | (plan, s) :: l' =>
      if negb (Z.of_nat count <? maxRows)%Z then (rows, rowEnds)
      else match mutationBatchInsert plan s with
           | None => (rows, rowEnds)
           | Some insert =>
               if defaultValues insert || negb (sameColumns columns (i_columns insert)) then (rows, rowEnds)
               else let rows := rows ++ QueryWrite.rows insert in shared_run columns maxRows (S count) l' rows (rowEnds ++ [length rows])
           end
  end.

(** [int64] arithmetic, and [slices.BinarySearch]. *)
Definition wrap64 (z : Z) : Z := ((z + 2 ^ 63) mod 2 ^ 64 - 2 ^ 63)%Z.
Definition BinarySearch (l : list nat) (target : Z) : nat :=
  sort_Search (length l) (fun i => (target <=? Z.of_nat (nth i l O))%Z).
Definition mutationPrefixProbe (rowEnds : list nat) (low high : nat) (bindLimit : Z) (rows args : nat) : nat :=
  if (bindLimit <=? 0)%Z || (rows =? 0) || (args =? 0) then low + Nat.div2 (high - low)
  else
    let affordable := wrap64 (Z.quot (wrap64 (Z.of_nat rows * bindLimit)) (Z.of_nat args)) in
    Nat.min (Nat.max (BinarySearch rowEnds (wrap64 (affordable + 1))) low) high.

Definition batch_bind_limit : error := planError "bind_limit" "args" "mutation batch exceeds bind parameter limit".
Fixpoint narrow (fuel : nat) (first : Insert) (rows : list (list expression)) (rowEnds : list nat) (bindLimit : Z)
    (low high : nat) (rowsSeen argsSeen : nat) (best : Compiled) (count : nat) : result (Compiled * nat) :=
  if negb (low <=? high) then Ok (best, count)
  else match fuel with
  | 0 => Err (errors_New "out of fuel")
  | S fuel' =>
      let probe := mutationPrefixProbe rowEnds low high bindLimit rowsSeen argsSeen in
      let taken := nth (probe - 1) rowEnds 0 in
      do prefix <- compileMutationPrefix first (i_columns first) (take taken rows) bindLimit;
      let '(rowsSeen, argsSeen) := if 0 <? px_args prefix then (taken, px_args prefix) else (rowsSeen, argsSeen) in
      if negb (px_fits prefix) then narrow fuel' first rows rowEnds bindLimit low (probe - 1) rowsSeen argsSeen best count
      else narrow fuel' first rows rowEnds bindLimit (probe + 1) high rowsSeen argsSeen (px_compiled prefix) probe
  end.
(** The first plan alone. *)
Definition compile_first (first : Insert) (bindLimit : Z) : result Compiled :=
  do compiled <- compileMutationParts (WInsert first);
  if over bindLimit (bound_args compiled) then Err batch_bind_limit else Ok compiled.
Definition compileMutationGroup (l : list (MutationPlan * WriteStatement)) (first : Insert) (maxRows bindLimit : Z) : result (Compiled * nat) :=
  if defaultValues first then do compiled <- compileMutationParts (WInsert first); Ok (compiled, 1)
  else
    let '(rows, rowEnds) := shared_run (i_columns first) maxRows 1 (tail l) (QueryWrite.rows first) [length (QueryWrite.rows first)] in
    if length rowEnds =? 1 then do compiled <- compile_first first bindLimit; Ok (compiled, 1)
    else
      do whole <- compileMutationPrefix first (i_columns first) rows bindLimit;
      if px_fits whole then Ok (px_compiled whole, length rowEnds)
      else
        do best <- compile_first first bindLimit;
        let '(rowsSeen, argsSeen) :=
          if px_args whole =? 0 then (nth 0 rowEnds 0, bound_args best) else (nth (length rowEnds - 1) rowEnds 0, px_args whole) in
        narrow (length rowEnds) first rows rowEnds bindLimit 2 (length rowEnds - 1) rowsSeen argsSeen best 1.

Record preparedMutationBatch := MkBatch { pb_start : nat; pb_end : nat; pb_statement : Statement }.
(** What one batch takes of the plans left: its compiled statement and their
    number. *)
Definition next_batch (l : list (MutationPlan * WriteStatement)) (plan : MutationPlan) (s : WriteStatement) (maxRows bindLimit : Z) : result (Compiled * nat) :=
  match mutationBatchInsert plan s with
  | Some first => compileMutationGroup l first maxRows bindLimit
  | None =>
      do compiled <- compileMutationParts s;
      if over bindLimit (bound_args compiled) then Err (planError "bind_limit" "args" "mutation statement exceeds bind parameter limit")
      else Ok (compiled, 1)
  end.
Fixpoint prepare_from (fuel i : nat) (l : list (MutationPlan * WriteStatement)) (maxRows bindLimit : Z) : result (list preparedMutationBatch) :=
  match l, fuel with
  | [], _ => Ok []
  | _, 0 => Err (errors_New "out of fuel")
  | (plan, s) :: _, S fuel' =>
      do b <- next_batch l plan s maxRows bindLimit;
      do encoded <- encodeCompiledMutation b.1;
      do rest <- prepare_from fuel' (i + b.2) (drop b.2 l) maxRows bindLimit;
      Ok (MkBatch i (i + b.2) encoded :: rest)
  end.
Definition prepareMutationBatches (l : list (MutationPlan * WriteStatement)) (maxRows bindLimit : Z) : result (list preparedMutationBatch) :=
  prepare_from (length l) 0 l maxRows bindLimit.
Definition mutationBindLimit (override : Z) : Z :=
  let limit := match compiler with Some c => MaxBindParameters (profile c) | None => 0%Z end in
  if (0 <? override)%Z && ((limit =? 0)%Z || (override <? limit)%Z) then override else limit.
End Mutation.
