(* ===== verification/MutationBatch.v ===== *)
(** * MutationBatch: batches tile the plans and respect their bounds *)

From S2P Require Import Prelude GoText Schema Dialect EngineProfile Query QuerySelect QueryWrite Render RenderWrite RenderLayout QueryCompile Page Typed BindPlan Mutation.
Open Scope string_scope.
Open Scope list_scope.
Open Scope nat_scope.

Abbreviation input := (MutationPlan * WriteStatement)%type.
Definition plan_rows (x : input) : list (list expression) := match x.2 with WInsert i => rows i | _ => [] end.
Definition rows_of (l : list input) : list (list expression) := concat (map plan_rows l).
(** A plan shares a multi-row insert with one of these columns. *)
Definition shares (columns : list ColumnRef) (x : input) : Prop :=
  exists insert, mutationBatchInsert x.1 x.2 = Some insert /\ defaultValues insert = false /\ sameColumns columns (i_columns insert) = true.
Definition run_insert (first : Insert) (l : list input) : Insert := MkInsert (into first) (i_columns first) (rows_of l) false None [].

Lemma batch_insert x insert : mutationBatchInsert x.1 x.2 = Some insert -> x.2 = WInsert insert.
Proof. destruct x as [[] []]; simpl; congruence. Qed.
Lemma rows_of_app l l' : rows_of (l ++ l') = rows_of l ++ rows_of l'.
Proof. unfold rows_of. by rewrite map_app, concat_app. Qed.
Lemma rows_of_take j k l : j <= k -> take (length (rows_of (take j l))) (rows_of (take k l)) = rows_of (take j l).
Proof.
  intros H. rewrite <- (take_drop j (take k l)), take_take, Nat.min_l by done. by rewrite rows_of_app, take_app_length.
Qed.

(** The plans a run takes: as many as share the columns and the limit allows. *)
Definition run_taken (columns : list ColumnRef) (maxRows : Z) (count : nat) (l : list input) (rows : list (list expression)) (ends : list nat) (k : nat) : Prop :=
  k <= length l /\
  shared_run columns maxRows count l rows ends =
    (rows ++ rows_of (take k l), ends ++ map (fun j => length rows + length (rows_of (take (S j) l))) (seq 0 k)) /\
  Forall (shares columns) (take k l) /\ (k = 0 \/ (Z.of_nat (count + k) <= maxRows)%Z) /\
  (forall x, l !! k = Some x -> (Z.of_nat (count + k) < maxRows)%Z -> ~ shares columns x).
Lemma run_stops columns maxRows count l rows ends :
  shared_run columns maxRows count l rows ends = (rows, ends) ->
  (forall x, l !! 0 = Some x -> (Z.of_nat count < maxRows)%Z -> ~ shares columns x) -> run_taken columns maxRows count l rows ends 0.
Proof.
  intros E H. split; [lia|]. split; [simpl; by rewrite !app_nil_r|]. split; [constructor|]. split; [by left|]. by rewrite Nat.add_0_r.
Qed.
Lemma shared_run_spec columns maxRows l : forall count rows ends, exists k, run_taken columns maxRows count l rows ends k.
Proof.
  induction l as [|[plan s] l IH]; intros count rows ends; [exists 0; by apply run_stops|].
  destruct (Z.ltb_spec (Z.of_nat count) maxRows) as [Hc|Hc].
  2:{ exists 0. apply run_stops; [|lia]. cbn [shared_run]. by destruct (Z.ltb_spec (Z.of_nat count) maxRows); [lia|]. }
  assert (forall (r : list (list expression) * list nat), (Z.of_nat count <? maxRows)%Z = true) as Hlt by (intros _; lia).
  destruct (mutationBatchInsert plan s) as [insert|] eqn:Ei.
  2:{ exists 0. apply run_stops.
      - cbn [shared_run]. by rewrite (Hlt (rows, ends)), Ei.
      - intros x [= <-] _ (insert & E & _). simpl in E. congruence. }
  destruct (defaultValues insert || negb (sameColumns columns (i_columns insert))) eqn:Es.
  { exists 0. apply run_stops.
    - cbn [shared_run]. by rewrite (Hlt (rows, ends)), Ei, Es.
    - intros x [= <-] _ (insert' & E & Hd & Hs). simpl in E. replace insert' with insert in * by congruence.
      rewrite Hd, Hs in Es. done. }
  apply orb_false_iff in Es as [Hd Hs%negb_false_iff].
  destruct (IH (S count) (rows ++ QueryWrite.rows insert) (ends ++ [length (rows ++ QueryWrite.rows insert)])) as (k & Hk & E & Hf & Hm & Hstop).
  exists (S k). assert (plan_rows (plan, s) = QueryWrite.rows insert) as Hrows by (unfold plan_rows; by rewrite (batch_insert (plan, s) insert)).
  assert (forall j, rows_of (take (S j) ((plan, s) :: l)) = QueryWrite.rows insert ++ rows_of (take j l)) as Hone.
  { intros j. unfold rows_of. simpl. by rewrite Hrows. }
  split; [simpl; lia|]. split.
  { cbn [shared_run]. rewrite (Hlt (rows, ends)), Ei, Hd, Hs. cbn [negb orb]. rewrite E, Hone, <- !app_assoc. f_equal. f_equal. cbn [app seq map].
    f_equal; [by rewrite Hone, length_app; simpl; rewrite app_nil_r|]. rewrite <- seq_shift, map_map. apply map_ext. intros j.
    rewrite (Hone (S j)), !length_app. lia. }
  split; [simpl; constructor; [by exists insert|done]|]. split; [right; destruct Hm as [->|Hm]; lia|].
  intros x Hx Hl. apply (Hstop x Hx). lia.
Qed.

Section Batches.
Context {values : BindValues}.
Variable compiler : option Compiler.
Variable registry : CodecRegistry.
Abbreviation compile := (compileMutationParts compiler).
Abbreviation compile_prefix := (compileMutationPrefix compiler).

(** The plans from the first one share its insert, and the statement of so
    many of them. *)
Definition group_statement (first : Insert) (l : list input) (m : nat) : WriteStatement :=
  if m =? 1 then WInsert first else WInsert (run_insert first (take m l)).
(** The prefix of so many plans is over the limit. *)
Definition too_many (first : Insert) (l : list input) (bindLimit : Z) (m : nat) : Prop :=
  exists p, compile_prefix first (i_columns first) (rows_of (take m l)) bindLimit = Ok p /\ px_fits p = false.

Lemma operands_rows l : map operands (mutationRows l) = l.
Proof.
  unfold mutationRows. rewrite map_map. rewrite <- (map_id l) at 2. apply map_ext. intros row. unfold operands. rewrite map_map.
  by rewrite <- (map_id row) at 2.
Qed.
Lemma prefix_fits first rows bindLimit p : compile_prefix first (i_columns first) rows bindLimit = Ok p -> px_fits p = true ->
  compile (WInsert (MkInsert (into first) (i_columns first) rows false None [])) = Ok (px_compiled p) /\
  over bindLimit (bound_args (px_compiled p)) = false.
Proof.
  unfold compileMutationPrefix. intros (ins & Hi & Hp)%do_ok Hf.
  assert (ins = MkInsert (into first) (i_columns first) rows false None []) as ->.
  { unfold NewInsertRows, validatedInsert in Hi. rewrite operands_rows in Hi. by destruct (Insert_Validate _) as [[]|]; [injection Hi as <-|]. }
  destruct (compile _) as [c|e].
  - destruct (over bindLimit (bound_args c)) eqn:Eo; injection Hp as <-; done.
  - destruct (isMutationBindLimit e); [injection Hp as <-|]; done.
Qed.

(** A statement within, and one over, the limit of bound values. *)
Definition fits (bindLimit : Z) (w : WriteStatement) (c : Compiled) : Prop := compile w = Ok c /\ over bindLimit (bound_args c) = false.
Definition over_limit (bindLimit : Z) (w : WriteStatement) : Prop :=
  match compile w with Ok c => over bindLimit (bound_args c) = true | Err e => isMutationBindLimit e = true end.
Lemma prefix_over first rows bindLimit p : compile_prefix first (i_columns first) rows bindLimit = Ok p -> px_fits p = false ->
  over_limit bindLimit (WInsert (MkInsert (into first) (i_columns first) rows false None [])).
Proof.
  unfold compileMutationPrefix, over_limit. intros (ins & Hi & Hp)%do_ok Hf.
  assert (ins = MkInsert (into first) (i_columns first) rows false None []) as ->.
  { unfold NewInsertRows, validatedInsert in Hi. rewrite operands_rows in Hi. by destruct (Insert_Validate _) as [[]|]; [injection Hi as <-|]. }
  destruct (compile _) as [c|e].
  - destruct (over bindLimit (bound_args c)) eqn:Eo; injection Hp as <-; done.
  - by destruct (isMutationBindLimit e).
Qed.

(** ** The search for the cut *)
Definition run_ends (n : nat) (l : list input) : list nat := map (fun j => length (rows_of (take (S j) l))) (seq 0 n).
Lemma nth_ends n l p : 1 <= p <= n -> nth (p - 1) (run_ends n l) 0 = length (rows_of (take p l)).
Proof.
  intros H. unfold run_ends. rewrite nth_indep with (d' := length (rows_of (take (S (n - 1)) l))) by (rewrite length_map, length_seq; lia).
  rewrite (map_nth (fun j => length (rows_of (take (S j) l))) (seq 0 n) (n - 1)), seq_nth by lia. do 3 f_equal. lia.
Qed.
Lemma probe_between ends low high bindLimit rows args : low <= high -> low <= mutationPrefixProbe ends low high bindLimit rows args <= high.
Proof.
  intros H. unfold mutationPrefixProbe. destruct (_ || _).
  - pose proof (Nat.div2_div (high - low)) as ->. pose proof (Nat.Div0.div_le_mono (high - low) (high - low) 2). split; [lia|].
    assert ((high - low) / 2 <= high - low) by (apply Nat.Div0.div_le_upper_bound; lia). lia.
  - lia.
Qed.
(** What the search keeps true: so many plans fit, and the prefix past [high]
    does not. *)
Record searching (first : Insert) (l : list input) (bindLimit : Z) (n low high : nat) (best : Compiled) (count : nat) : Prop := {
  se_low : low = S count; se_count : 1 <= count; se_high : high < n; se_between : count <= high;
  se_best : fits bindLimit (group_statement first l count) best;
  se_cut : over_limit bindLimit (WInsert (run_insert first (take (S high) l))) }.
Lemma narrow_spec first l bindLimit n fuel : forall low high rowsSeen argsSeen best count c m,
  searching first l bindLimit n low high best count ->
  narrow compiler fuel first (rows_of (take n l)) (run_ends n l) bindLimit low high rowsSeen argsSeen best count = Ok (c, m) ->
  searching first l bindLimit n (S m) m c m.
Proof.
  induction fuel as [|fuel IH]; intros low high rowsSeen argsSeen best count c m I; cbn [narrow];
    destruct (Nat.leb_spec low high) as [Hle|Hgt]; try done.
  1, 3: intros [= <- <-]; destruct I; assert (high = count) by lia; subst; by constructor.
  cbn [negb]. set (probe := mutationPrefixProbe _ _ _ _ _ _).
  assert (low <= probe <= high) as Hp by (by apply probe_between). clearbody probe.
  assert (1 < probe /\ probe < n) as [H1 Hn] by (destruct I; lia).
  rewrite nth_ends by lia. rewrite (rows_of_take probe n) by lia. intros (p & Ep & H)%do_ok.
  destruct (if 0 <? px_args p then _ else _) as [rowsSeen' argsSeen']. destruct (px_fits p) eqn:Ef; cbn [negb] in H.
  - apply prefix_fits in Ep as [Ec Eo]; [|done]. eapply IH; [|exact H]. destruct I. constructor; try lia; [|done].
    split; [|done]. unfold group_statement. destruct (Nat.eqb_spec probe 1); [lia|]. exact Ec.
  - apply prefix_over in Ep; [|done]. eapply IH; [|exact H]. destruct I. constructor; try lia; [done|].
    by replace (S (probe - 1)) with probe by lia.
Qed.
(** Fuel for every length left to search is enough. *)
Lemma narrow_fuel first rows ends bindLimit f1 : forall f2 low high rowsSeen argsSeen best count,
  1 <= low -> S high - low <= f1 -> S high - low <= f2 ->
  narrow compiler f1 first rows ends bindLimit low high rowsSeen argsSeen best count =
  narrow compiler f2 first rows ends bindLimit low high rowsSeen argsSeen best count.
Proof.
  induction f1 as [|f1 IH]; intros [|f2] low high rowsSeen argsSeen best count L0 L1 L2; cbn [narrow];
    destruct (Nat.leb_spec low high) as [Hle|Hgt]; try lia; try done.
  cbn [negb]. set (probe := mutationPrefixProbe _ _ _ _ _ _).
  assert (low <= probe <= high) as Hp by (by apply probe_between). clearbody probe.
  destruct (compile_prefix _ _ _ _) as [p|e]; [|done]. destruct (if 0 <? px_args p then _ else _) as [rowsSeen' argsSeen'].
  destruct (px_fits p); cbn [negb]; apply IH; lia.
Qed.

(** ** What a batch takes *)
Record group_of (l : list input) (first : Insert) (maxRows bindLimit : Z) (c : Compiled) (m : nat) : Prop := {
  gr_some : 1 <= m <= length l;
  gr_max : (Z.of_nat m <= maxRows)%Z;
  gr_compiled : compile (group_statement first l m) = Ok c;
  gr_fits : defaultValues first = false -> over bindLimit (bound_args c) = false;
  gr_shares : 1 < m -> defaultValues first = false /\ Forall (shares (i_columns first)) (take m l);
  gr_cut : forall y, l !! m = Some y -> defaultValues first = false -> shares (i_columns first) y -> (Z.of_nat m < maxRows)%Z ->
    over_limit bindLimit (WInsert (run_insert first (take (S m) l))) }.
Lemma columns_same l : sameColumns l l = true.
Proof.
  unfold sameColumns. rewrite Nat.eqb_refl. simpl. induction l as [|c l IH]; [done|]. simpl. by rewrite String.eqb_refl.
Qed.
Lemma run_of_plans x l first maxRows : mutationBatchInsert x.1 x.2 = Some first -> defaultValues first = false -> (1 <= maxRows)%Z ->
  exists n, 1 <= n <= length (x :: l) /\ (Z.of_nat n <= maxRows)%Z /\
    shared_run (i_columns first) maxRows 1 l (rows first) [length (rows first)] = (rows_of (take n (x :: l)), run_ends n (x :: l)) /\
    Forall (shares (i_columns first)) (take n (x :: l)) /\
    (forall y, (x :: l) !! n = Some y -> (Z.of_nat n < maxRows)%Z -> ~ shares (i_columns first) y).
Proof.
  intros Hx Hd Hm. destruct (shared_run_spec (i_columns first) maxRows l 1 (rows first) [length (rows first)]) as (k & Hk & E & Hf & Hmax & Hstop).
  assert (plan_rows x = rows first) as Hrows by (unfold plan_rows; by rewrite (batch_insert x first)).
  assert (forall j, rows_of (take (S j) (x :: l)) = rows first ++ rows_of (take j l)) as Hone by (intros j; unfold rows_of; simpl; by rewrite Hrows).
  exists (S k). split; [simpl; lia|]. split; [lia|]. split; [|split].
  - rewrite E, Hone. f_equal. unfold run_ends. cbn [seq map app]. f_equal; [by rewrite Hone; simpl; rewrite app_nil_r|].
    rewrite <- seq_shift, map_map. apply map_ext. intros j. by rewrite (Hone (S j)), length_app.
  - simpl. constructor; [|done]. exists first. split; [done|]. split; [done|apply columns_same].
  - intros y Hy L. apply (Hstop y Hy). lia.
Qed.
Lemma group_spec x l first maxRows bindLimit c m : mutationBatchInsert x.1 x.2 = Some first -> (1 <= maxRows)%Z ->
  compileMutationGroup compiler (x :: l) first maxRows bindLimit = Ok (c, m) -> group_of (x :: l) first maxRows bindLimit c m.
Proof.
  intros Hx Hm. unfold compileMutationGroup. destruct (defaultValues first) eqn:Hd.
  { intros (c' & Ec & [= <- <-])%do_ok. constructor; [simpl; lia|done|done|congruence|lia|congruence]. }
  destruct (run_of_plans x l first maxRows Hx Hd Hm) as (n & Hn & Hmax & E & Hf & Hstop). cbn [tail]. rewrite E.
  assert (length (run_ends n (x :: l)) = n) as -> by (unfold run_ends; by rewrite length_map, length_seq).
  assert (forall best, compile_first compiler first bindLimit = Ok best -> fits bindLimit (group_statement first (x :: l) 1) best) as Hfirst.
  { intros best (c' & Ec & Hb)%do_ok. destruct (over bindLimit (bound_args c')) eqn:Eo; [done|]. injection Hb as <-. by split. }
  assert (forall m c, 1 <= m <= n -> fits bindLimit (group_statement first (x :: l) m) c ->
    (m < n -> over_limit bindLimit (WInsert (run_insert first (take (S m) (x :: l))))) -> group_of (x :: l) first maxRows bindLimit c m) as Hgroup.
  { clear c m. intros m c L [Ec Eo] Hcut. constructor; try done; [lia|lia| |].
    - intros _. split; [done|]. replace (take m (x :: l)) with (take m (take n (x :: l))) by (rewrite take_take; f_equal; lia). by apply Forall_take.
    - intros y Hy _ Hs Lm. destruct (Nat.eq_dec m n) as [->|]; [by destruct (Hstop y Hy Lm)|]. apply Hcut. lia. }
  destruct (Nat.eqb_spec n 1) as [->|Hn1].
  - intros (best & Eb & [= <- <-])%do_ok. apply Hgroup; [lia|auto|lia].
  - intros (whole & Ew & H)%do_ok. destruct (px_fits whole) eqn:Ef.
    + injection H as <- <-. apply prefix_fits in Ew as [Ec Eo]; [|done]. apply Hgroup; [lia| |lia]. split; [|done].
      unfold group_statement. destruct (Nat.eqb_spec n 1); [lia|]. exact Ec.
    + apply prefix_over in Ew; [|done]. apply do_ok in H as (best & Eb & H).
      destruct (if px_args whole =? 0 then _ else _) as [rowsSeen argsSeen]. eapply narrow_spec in H; [destruct H|].
      * apply Hgroup; [lia|done|]. intros _. done.
      * constructor; try lia; [auto|]. by replace (S (n - 1)) with n by lia.
Qed.

(** Compiling and encoding keep the number of values. *)
Lemma compiled_args cc w c : compiler = Some cc -> compile w = Ok c -> bound_args c = length (write_args (compiler_dialect cc) w).
Proof.
  unfold compileMutationParts. intros -> (s & Es & (parts & Ep & H)%do_ok)%do_ok. destruct (checkNoParameterSlots _) as [[]|]; [|done].
  injection H as <-. apply Unwrap_length in Ep as (L & _). unfold bound_args. rewrite L. f_equal.
  unfold Compiler_Write in Es. destruct (Validate_profile _) as [[]|]; [|done]. destruct (validateWriteCapabilities _ _) as [[]|]; [|done].
  apply within_limit_ok in Es as [Es _]. by apply write_values.
Qed.
Lemma encoded_args c s : encodeCompiledMutation registry c = Ok s ->
  length (stmt_args s) = bound_args c /\ sql_text s = sql_text (cp_Statement c).
Proof.
  unfold encodeCompiledMutation. destruct (checkNoParameterSlots _) as [[]|]; [|done]. intros (s' & Ec & He)%do_ok.
  unfold EncodeStatement in He. destruct (_ =? _) eqn:E1; [|done]. apply do_ok in He as (args & Ea & [= <-]). simpl.
  rewrite (encode_args_length _ _ _ _ _ Ea). unfold Copy_ in Ec. destruct (negb _ || negb _) eqn:E2; [done|].
  apply do_ok in Ec as (l & El & [= <-]). simpl. rewrite (copy_args_length _ _ _ El). apply orb_false_iff in E2 as [_ E2].
  apply negb_false_iff, Nat.eqb_eq in E2. unfold bound_args. by rewrite E2.
Qed.

(** ** Batches tile the plans *)
(** What the statement of a batch may be, of the plans left. *)
Definition batch_of (maxRows bindLimit : Z) (l : list input) (m : nat) (s : Statement) : Prop :=
  exists c, encodeCompiledMutation registry c = Ok s /\ ((0 < bindLimit)%Z -> (Z.of_nat (length (stmt_args s)) <= bindLimit)%Z) /\
    match l with
    | [] => False
    | x :: _ =>
        match mutationBatchInsert x.1 x.2 with
        | Some first => group_of l first maxRows bindLimit c m
        | None => m = 1 /\ compile x.2 = Ok c
        end
    end.
Fixpoint tiles (maxRows bindLimit : Z) (i : nat) (l : list input) (bs : list preparedMutationBatch) : Prop :=
  match bs with
  | [] => l = []
  | b :: bs' =>
      exists m, 1 <= m <= length l /\ pb_start b = i /\ pb_end b = i + m /\ batch_of maxRows bindLimit l m (pb_statement b) /\
        tiles maxRows bindLimit (i + m) (drop m l) bs'
  end.
Lemma over_false bindLimit n : over bindLimit n = false -> (0 < bindLimit)%Z -> (Z.of_nat n <= bindLimit)%Z.
Proof. unfold over. intros H L. apply andb_false_iff in H as [H|H]; lia. Qed.
Lemma next_batch_spec cc x l maxRows bindLimit c m s : compiler = Some cc -> (1 <= maxRows)%Z -> write_returning x.2 = [] ->
  next_batch compiler (x :: l) x.1 x.2 maxRows bindLimit = Ok (c, m) -> encodeCompiledMutation registry c = Ok s ->
  1 <= m <= length (x :: l) /\ batch_of maxRows bindLimit (x :: l) m s.
Proof.
  intros Hc Hm Hr H Hs. unfold batch_of. pose proof (encoded_args c s Hs) as [La _]. rewrite La. unfold next_batch in H.
  destruct (mutationBatchInsert x.1 x.2) as [first|] eqn:Hx.
  - apply group_spec in H; [|done..]. split; [apply H|]. exists c. split; [done|]. split; [|done]. intros L.
    destruct (defaultValues first) eqn:Hd; [|apply over_false; [by apply H|done]].
    assert (m = 1) as -> by (destruct H as [? _ _ _ Hs1 _]; destruct (Nat.eq_dec m 1); [done|destruct Hs1; [lia|congruence]]).
    rewrite (compiled_args cc _ c Hc (gr_compiled _ _ _ _ _ _ H)). apply batch_insert in Hx. rewrite Hx in Hr. simpl in *.
    unfold insert_base_args. rewrite Hd, Hr. simpl. lia.
  - apply do_ok in H as (c' & Ec & H). destruct (over bindLimit (bound_args c')) eqn:Eo; [done|]. injection H as <- <-.
    split; [simpl; lia|]. exists c'. split; [done|]. split; [by apply over_false|done].
Qed.
Lemma prepared_tiles cc maxRows bindLimit : compiler = Some cc -> (1 <= maxRows)%Z -> forall fuel i l bs,
  Forall (fun x => write_returning x.2 = []) l -> prepare_from compiler registry fuel i l maxRows bindLimit = Ok bs ->
  tiles maxRows bindLimit i l bs.
Proof.
  intros Hc Hm. induction fuel as [|fuel IH]; intros i l bs Hl; (destruct l as [|[plan s] l]; cbn [prepare_from]; [by intros [= <-]|]); [done|].
  intros ([c m] & Eb & (st & Es & (rest & Er & [= <-])%do_ok)%do_ok)%do_ok. cbn [fst snd] in *.
  destruct (next_batch_spec cc (plan, s) l maxRows bindLimit c m st Hc Hm) as [L B]; [by inversion Hl|done|done|].
  cbn [tiles pb_start pb_end pb_statement]. exists m. split; [done|]. split; [done|]. split; [done|]. split; [done|].
  eapply IH; [by apply Forall_drop|done].
Qed.
Lemma next_batch_takes x l maxRows bindLimit c m :
  next_batch compiler (x :: l) x.1 x.2 maxRows bindLimit = Ok (c, m) -> (1 <= maxRows)%Z -> 1 <= m.
Proof.
  unfold next_batch. intros H Hm. destruct (mutationBatchInsert x.1 x.2) as [first|] eqn:Hx.
  - apply group_spec in H; [|done..]. apply H.
  - apply do_ok in H as (c' & _ & H). destruct (over _ _); [done|]. by injection H as <- <-.
Qed.
(** Fuel for every plan is enough. *)
Lemma prepare_fuel maxRows bindLimit : (1 <= maxRows)%Z -> forall f1 f2 i l, length l <= f1 -> length l <= f2 ->
  prepare_from compiler registry f1 i l maxRows bindLimit = prepare_from compiler registry f2 i l maxRows bindLimit.
Proof.
  intros Hm. induction f1 as [|f1 IH]; intros [|f2] i [|[plan s] l] L1 L2; cbn [prepare_from]; try done; try (simpl in *; lia).
  destruct (next_batch _ _ _ _ _ _) as [[c m]|e] eqn:Eb; [|done]. destruct (encodeCompiledMutation _ _) as [st|]; [|done].
  apply (next_batch_takes (plan, s)) in Eb; [|done]. cbn [fst snd]. rewrite (IH f2); [done|..];
    destruct m; simpl in *; rewrite ?length_drop; lia.
Qed.

(** C15 A batch is a run of the plans, within its bounds. The statements that
    [prepareMutationBatches] hands out tile the plans in their order: each is
    the encoding of what the compiler makes of one plan's statement, or of an
    INSERT that holds the rows of exactly its plans, all of them inserts into
    the same columns. No statement has more plans than [MaxRows], none
    binds more values than the bind limit, and a run is cut only where its
    end, [MaxRows] or a plan of another shape cuts it, or where one plan more
    is over the bind limit. The search that finds the cut and the loop over
    the plans end within the fuel they are given: more fuel changes nothing. *)
Theorem batches_bounded cc maxRows bindLimit l : compiler = Some cc -> (1 <= maxRows)%Z -> Forall (fun x => write_returning x.2 = []) l ->
  (forall bs, prepareMutationBatches compiler registry l maxRows bindLimit = Ok bs -> tiles maxRows bindLimit 0 l bs) /\
  (forall fuel, length l <= fuel ->
     prepare_from compiler registry fuel 0 l maxRows bindLimit = prepareMutationBatches compiler registry l maxRows bindLimit) /\
  (forall first rows ends low high rowsSeen argsSeen best count fuel, 1 <= low -> S high - low <= fuel ->
     narrow compiler fuel first rows ends bindLimit low high rowsSeen argsSeen best count =
     narrow compiler (S high - low) first rows ends bindLimit low high rowsSeen argsSeen best count).
Proof.
  intros Hc Hm Hl. split; [|split].
  - intros bs. by eapply prepared_tiles.
  - intros fuel L. by apply prepare_fuel.
  - intros. by apply narrow_fuel.
Qed.
End Batches.

(** *** Five inserts, two to a statement *)
#[local] Instance plain_values : BindValues := { adopt_opaque t id := Ok (any_other t id); driver_IsValue _ := true }.
Definition one_user (id : Z) : input :=
  let s := MkInsert sample_table [MkColumnRef (RelTable sample_table) "id"] [[EValue (any_int id)]] false None [] in (CreatePlan (Ok s), WInsert s).
Definition five_users : list input := map one_user [1; 2; 3; 4; 5]%Z.
Lemma batches_bounded_witness :
  exists bs, prepareMutationBatches (Some (tiny_compiler 100)) ∅ five_users 1000 2 = Ok bs /\
    tiles (Some (tiny_compiler 100)) ∅ 1000 2 0 five_users bs /\
    map (fun b => (pb_start b, pb_end b, stmt_args (pb_statement b))) bs =
      [(0, 2, [any_int 1%Z; any_int 2%Z]); (2, 4, [any_int 3%Z; any_int 4%Z]); (4, 5, [any_int 5%Z])].
Proof.
  destruct (batches_bounded (Some (tiny_compiler 100)) ∅ (tiny_compiler 100) 1000 2 five_users eq_refl ltac:(lia)) as (H & _).
  { unfold five_users. repeat constructor. }
  destruct (prepareMutationBatches (Some (tiny_compiler 100)) ∅ five_users 1000 2) as [bs|e] eqn:E.
  - exists bs. split; [reflexivity|]. split; [exact (H bs eq_refl)|]. revert E. clear. intros E.
    match type of E with ?r = _ => let v := eval vm_compute in r in assert (r = v) as E' by (vm_compute; reflexivity) end.
    rewrite E in E'. injection E' as ->. reflexivity.
  - exfalso. revert E. vm_compute. discriminate.
Defined.
