(* ===== verification/Prog.v ===== *)
(** * Prog: programs that call code they do not own

    A Go function that calls a driver, a hook or a callback, keeps shared
    cells and may panic is a program: a tree of the calls it makes and the
    cells it reads and writes.  The code it calls is an environment, which
    answers each call from the calls made before, and may panic too. *)

From S2P Require Import Prelude GoText.
Open Scope list_scope.
Open Scope nat_scope.

Section Prog.
Context {call : Type} {answer : call -> Type} {state panic : Type}.

Inductive reply (A : Type) : Type := Returns (a : A) | Panics (v : panic).
Inductive prog (A : Type) : Type :=
| Ret (a : A)
| Panic (v : panic)
| Block
| Call (c : call) (k : reply (answer c) -> prog A)
| Get (k : state -> prog A)
| Put (s : state) (p : prog A).

Fixpoint bind {A B} (p : prog A) (f : A -> prog B) : prog B :=
  match p with
  | Ret _ a => f a
  | Panic _ v => Panic _ v
  | Block _ => Block _
  | Call _ c k => Call _ c (fun r => bind (k r) f)
  | Get _ k => Get _ (fun s => bind (k s) f)
  | Put _ s p => Put _ s (bind p f)
  end.
(** [recover] in a deferred function: the panic is a value. *)
Fixpoint try {A} (p : prog A) : prog (A + panic) :=
  match p with
  | Ret _ a => Ret _ (inl a)
  | Panic _ v => Ret _ (inr v)
  | Block _ => Block _
  | Call _ c k => Call _ c (fun r => try (k r))
  | Get _ k => Get _ (fun s => try (k s))
  | Put _ s p => Put _ s (try p)
  end.
Definition raise {A} (r : A + panic) : prog A := match r with inl a => Ret _ a | inr v => Panic _ v end.
(** [defer q()]: [q] runs however [p] ends. *)
Definition deferred {A} (p : prog A) (q : prog unit) : prog A := bind (try p) (fun r => bind q (fun _ => raise r)).
Definition request (c : call) : prog (answer c) :=
  Call _ c (fun r => match r with Returns _ a => Ret _ a | Panics _ v => Panic _ v end).
Definition gets {A} (f : state -> A) : prog A := Get _ (fun s => Ret _ (f s)).
Definition update {A} (f : state -> A * state) : prog A := Get _ (fun s => let '(a, s') := f s in Put _ s' (Ret _ a)).
Definition modify (f : state -> state) : prog unit := update (fun s => (tt, f s)).

(** ** Running a program *)
Record step := MkStep { st_call : call; st_reply : reply (answer st_call) }.
Definition environment : Type := list step -> forall c, reply (answer c).
Inductive outcome (A : Type) : Type := Done (a : A) | Panicked (v : panic) | Blocked.
Record world := MkWorld { cells : state; trace : list step }.
Fixpoint run {A} (env : environment) (p : prog A) (w : world) : outcome A * world :=
  match p with
  | Ret _ a => (Done _ a, w)
  | Panic _ v => (Panicked _ v, w)
  | Block _ => (Blocked _, w)
  | Call _ c k => let r := env (trace w) c in run env (k r) (MkWorld (cells w) (trace w ++ [MkStep c r]))
  | Get _ k => run env (k (cells w)) w
  | Put _ s p => run env p (MkWorld s (trace w))
  end.

Lemma run_bind {A B} env (p : prog A) (f : A -> prog B) w :
  run env (bind p f) w =
  match run env p w with
  | (Done _ a, w') => run env (f a) w'
  | (Panicked _ v, w') => (Panicked _ v, w')
  | (Blocked _, w') => (Blocked _, w')
  end.
Proof. revert w. induction p as [| | |c k IH|k IH|s p IH]; intros w; simpl; auto. Qed.
Lemma run_try {A} env (p : prog A) w :
  run env (try p) w =
  match run env p w with
  | (Done _ a, w') => (Done _ (inl a), w')
  | (Panicked _ v, w') => (Done _ (inr v), w')
  | (Blocked _, w') => (Blocked _, w')
  end.
Proof. revert w. induction p as [| | |c k IH|k IH|s p IH]; intros w; simpl; auto. Qed.
Lemma run_request env c w :
  run env (request c) w =
  (match env (trace w) c with Returns _ a => Done _ a | Panics _ v => Panicked _ v end,
   MkWorld (cells w) (trace w ++ [MkStep c (env (trace w) c)])).
Proof. simpl. by destruct (env (trace w) c). Qed.
(** A program only adds to the trace. *)
Lemma run_trace {A} env (p : prog A) w : exists t, trace (run env p w).2 = trace w ++ t.
Proof.
  revert w. induction p as [a|v| |c k IH|k IH|s p IH]; intros w; simpl;
    [by exists []; rewrite app_nil_r..| | |].
  - destruct (IH (env (trace w) c) (MkWorld (cells w) (trace w ++ [MkStep c (env (trace w) c)]))) as [t E]. rewrite E. simpl.
    rewrite <- app_assoc. by eexists.
  - apply IH.
  - destruct (IH (MkWorld s (trace w))) as [t E]. by exists t.
Qed.
End Prog.
Arguments reply {panic} A.
Arguments Returns {panic A} a.
Arguments Panics {panic A} v.
Arguments prog {call} answer {state panic} A.
Arguments Ret {call answer state panic A} a.
Arguments Panic {call answer state panic A} v.
Arguments Block {call answer state panic A}.
Arguments Call {call answer state panic A} c k.
Arguments Get {call answer state panic A} k.
Arguments Put {call answer state panic A} s p.
Arguments step {call} answer {panic}.
Arguments MkStep {call answer panic} st_call st_reply.
Arguments environment {call} answer {panic}.
Arguments outcome {panic} A.
Arguments Done {panic A} a.
Arguments Panicked {panic A} v.
Arguments Blocked {panic A}.
Arguments world {call} answer {state panic}.
Arguments MkWorld {call answer state panic} cells trace.

Declare Scope prog_scope.
Delimit Scope prog_scope with prog.
Notation "'let!' x := m 'in' k" := (bind m (fun x => k)) (at level 10, x pattern, m at level 100, k at level 200) : prog_scope.
Notation "m ;; k" := (bind m (fun _ : unit => k)) (at level 100, k at level 200, right associativity) : prog_scope.
