(* ===== verification/Exec.v ===== *)
(** * Exec: [db.go], [hook.go], [event.go], [rows.go]

    The database handle of the root package: hooks and observers around every
    call to [database/sql], the rows a query owns, the busy token and the
    events.  The driver, the hooks and the observers are not the package's
    code: they are calls of a program ([Prog]), answered by any environment.

    What the package shares is cells: the two counters of identities, the
    tokens and the once-only flags, and the state of the rows.  The engine
    profile, the compiler and the codec registry a [DB] carries take no part
    in execution and are left out.  The mutex of [ownedRows] is not modelled:
    its critical sections are single steps here. *)

From S2P Require Import Prelude GoText Schema Query Render Dialect Page GraphKey Prog.
Open Scope string_scope.
Open Scope list_scope.
Open Scope nat_scope.
Open Scope prog_scope.

(** ** Data *)
(** What a callback panics with; [AtomicPanic] wraps it with a failed cleanup. *)
Inductive panic_value := PanicWith (n : N) | AtomicPanic (value : panic_value) (cleanup : error).
(** A context: the caller's, one an observer derived from it, or the cleanup
    context ([context.WithoutCancel] with a timeout of thirty seconds). *)
Inductive Context := Background | Given (n : N) | Detached (c : Context).
Definition atomicCleanupContext (ctx : Context) : Context := Detached ctx.
(** A handle: a [*sql.Tx], or another one that may implement [BeginTx]. *)
Inductive Handle := SqlTx (t : N) | OtherHandle (n : N) (starts : bool).
Record TxOptions := MkTxOptions { Isolation : Z; ReadOnly : bool }.

Inductive OperationKind := QueryOperation | ExecOperation | BeginOperation | CommitOperation | RollbackOperation.
Definition OperationKind_String (k : OperationKind) : string :=
  match k with
  | QueryOperation => "query" | ExecOperation => "exec" | BeginOperation => "begin" | CommitOperation => "commit"
  | RollbackOperation => "rollback"
  end.
Record Operation := MkOperation { op_kind : OperationKind; op_stmt : Statement }.
Definition bare (k : OperationKind) : Operation := MkOperation k (MkStatement "" []).
Inductive Phase := ExecutionPhase | ConsumptionPhase | TransactionPhase.
Record Completion := MkCompletion {
  cm_Operation : Operation; cm_Phase : Phase; Started : Z; Finished : Z; cm_Err : option error; cm_RowsRead : Z; cm_EarlyClose : bool }.
Record ExtensionError := MkExtensionError { xe_Operation : Operation; xe_Errors : list error; xe_succeeded : bool }.

Inductive EventKind := EventScope | EventStatement | EventMutationBatch | EventGraph.
Inductive EventPhase := EventStart | EventTerminal.
Record Event := MkEvent {
  LogicalID : string; ParentID : string; ev_Kind : EventKind; ev_Phase : EventPhase; StatementIndex : Z; ev_Rows : Z;
  ev_EarlyClose : bool; ev_Err : option error }.

(** ** The calls *)
Inductive call :=
| BeginTx (h : Handle) (ctx : Context) (opts : option TxOptions)
| TxCommit (t : N) | TxRollback (t : N)
| ExecContext (h : Handle) (ctx : Context) (s : Statement)
| QueryContext (h : Handle) (ctx : Context) (s : Statement)
| RowsColumns (r : N) | RowsNext (r : N) | RowsErr (r : N) | RowsClose (r : N) | RowsScan (r : N)
| Before (h : N) (ctx : Context) (o : Operation)
| After (h : N) (ctx : Context) (o : Operation) (err : option error)
| Observe (o : N) (ctx : Context) (op : Operation) (err : option error)
| Start (o : N) (ctx : Context) (op : Operation)
| Complete (c : N) (ctx : Context) (completion : Completion)
| HandleExtensionError (handler : N) (ctx : Context) (e : ExtensionError)
| StartEvent (o : N) (ctx : Context) (e : Event)
| CompleteEvent (c : N) (ctx : Context) (e : Event)
| Now
| ContextErr (ctx : Context) | RowsAffected (result : N) | Certainty (classifier : N) (e : error).
(** What a call returns: a Go pair is a pair, both of whose parts may be set. *)
Definition answer (c : call) : Type :=
  match c with
  | BeginTx _ _ _ => option N * option error
  | ExecContext _ _ _ | QueryContext _ _ _ => option N * option error
  | RowsColumns _ => list string * option error
  | RowsNext _ => bool
  | RowsScan _ => list go_any * option error
  | Start _ _ _ | StartEvent _ _ _ => option Context * option N
  | HandleExtensionError _ _ _ => unit
  | Now => Z
  | RowsAffected _ => Z * option error
  | Certainty _ _ => N
  | _ => option error
  end.

(** ** The shared cells *)
Record invocation := MkInvocation { contexts : list Context; completions : list (option N); started : Z }.
(** The completion [startEventObservers] returns. *)
Record eventCompletion := MkEventCompletion { ec_completions : list N; ec_handler : option N }.
Record eventScopeCompletion := MkScopeCompletion {
  es_ctx : Context; es_completion : eventCompletion; es_event : Event; es_done : N }.
Record DB := MkDB {
  handle : option Handle; dialect : option Dialect; hooks : list N; observers : list N; extensionErrorHandler : option N;
  invocationObservers : list N; savepointScoped : bool; tx : option N; eventHandler : option N; eventObservers : list N;
  eventParentID : string; eventCounter : option N; eventScopeCtx : option Context;
  eventScopeComplete : option eventScopeCompletion; busy : option N }.
Record ownedRows := MkOwnedRows {
  or_rows : option N; or_db : DB; or_operation : Operation; or_invocation : invocation;
  exhausted : bool; closed : bool; completed : bool;
  iterErr : option error; scanErr : option error; columnErr : option error; closeErr : option error; rowsRead : Z }.
Record shared := MkShared {
  savepointID : N; eventID : N; next_cell : N;
  flags : gmap N bool;            (* tokens (taken) and once-only flags (set) *)
  counters : gmap N Z;            (* statement and row counters *)
  owned : gmap N ownedRows }.
Abbreviation M A := (prog (call := call) answer (state := shared) (panic := panic_value) A).

Definition ask (c : call) : M (answer c) := request c.

Definition set_flag (c : N) (b : bool) (s : shared) : shared :=
  MkShared (savepointID s) (eventID s) (next_cell s) (<[c := b]> (flags s)) (counters s) (owned s).
Definition set_counter (c : N) (z : Z) (s : shared) : shared :=
  MkShared (savepointID s) (eventID s) (next_cell s) (flags s) (<[c := z]> (counters s)) (owned s).
Definition set_owned (c : N) (r : ownedRows) (s : shared) : shared :=
  MkShared (savepointID s) (eventID s) (next_cell s) (flags s) (counters s) (<[c := r]> (owned s)).
Definition skip (s : shared) : shared :=
  MkShared (savepointID s) (eventID s) (next_cell s + 1) (flags s) (counters s) (owned s).
Definition new_flag : M N := update (fun s => (next_cell s, skip (set_flag (next_cell s) false s))).
Definition new_counter : M N := update (fun s => (next_cell s, skip (set_counter (next_cell s) 0%Z s))).
Definition new_rows (r : ownedRows) : M N := update (fun s => (next_cell s, skip (set_owned (next_cell s) r s))).
(** [CompareAndSwap(false, true)]: whether the flag was not yet set. *)
Definition first_time (c : N) : M bool := update (fun s => (negb (default false (flags s !! c)), set_flag c true s)).
Definition add_counter (c : N) : M Z :=
  update (fun s => let z := default 0%Z (counters s !! c) in (z, set_counter c (z + 1)%Z s)).

(** [executorBusy]: a channel of one token, full while it is taken. *)
Definition newExecutorBusy : M N := new_flag.
Definition acquire (b : N) : M bool := first_time b.
(** Receiving from an empty channel blocks. *)
Definition release (b : N) : M unit :=
  Get (fun s => if default false (flags s !! b) then Put (set_flag b false s) (Ret tt) else Block).
Definition nextEventID : M string :=
  let! n := update (fun s => ((eventID s + 1)%N, MkShared (savepointID s) (eventID s + 1) (next_cell s) (flags s) (counters s) (owned s)))
  in Ret ("rasql-" +:+ NatItoa (N.to_nat n)).
Definition nextEventStatement (counter : option N) : M Z := match counter with None => Ret 0%Z | Some c => add_counter c end.

(** ** Hooks and observers *)
Definition hook_error (when : string) (o : Operation) (e : error) : error :=
  Errorf ("rasql: hook " +:+ when +:+ " %s: %w") [AStr (OperationKind_String (op_kind o)); AErr e].
(** Those that were entered, and the error of the one that refused. *)
Fixpoint before_loop (ctx : Context) (o : Operation) (entered l : list N) : M (list N * option error) :=
  match l with
  | [] => Ret (entered, None)
  | h :: l' =>
      let! e := ask (Before h ctx o) in
      match e with
      | Some e => Ret (entered, Some (hook_error "before" o e))
      | None => before_loop ctx o (entered ++ [h]) l'
      end
  end.
Definition beforeHooks (db : DB) (ctx : Context) (o : Operation) : M (list N * option error) := before_loop ctx o [] (hooks db).
Definition reportExtensionError (db : DB) (ctx : Context) (e : ExtensionError) : M unit :=
  match extensionErrorHandler db with Some h => ask (HandleExtensionError h ctx e) | None => Ret tt end.
Fixpoint observe_loop (db : DB) (ctx : Context) (o : Operation) (driverErr : option error) (l : list N) : M unit :=
  match l with
  | [] => Ret tt
  | x :: l' =>
      let! e := ask (Observe x ctx o driverErr) in
      match e with Some e => reportExtensionError db ctx (MkExtensionError o [e] (negb (bool_decide (is_Some driverErr)))) | None => Ret tt end ;;
      observe_loop db ctx o driverErr l'
  end.
Definition observe (db : DB) (ctx : Context) (o : Operation) (driverErr : option error) : M unit :=
  observe_loop db ctx o driverErr (observers db).
(** The hooks still to leave, last entered first. *)
Fixpoint after_loop (db : DB) (ctx : Context) (o : Operation) (err : option error) (acc : option ExtensionError) (l : list N) :
    M (option ExtensionError) :=
  match l with
  | [] => Ret acc
  | h :: l' =>
      let! e := ask (After h ctx o err) in
      match e with
      | None => after_loop db ctx o err acc l'
      | Some e =>
          let wrapped := hook_error "after" o e in
          let succeeded := negb (bool_decide (is_Some err)) in
          match extensionErrorHandler db with
          | Some _ => reportExtensionError db ctx (MkExtensionError o [wrapped] succeeded) ;; after_loop db ctx o err acc l'
          | None =>
              let x := default (MkExtensionError o [] succeeded) acc in
              after_loop db ctx o err (Some (MkExtensionError (xe_Operation x) (xe_Errors x ++ [wrapped]) (xe_succeeded x))) l'
          end
      end
  end.
Definition afterHooks (db : DB) (ctx : Context) (o : Operation) (entered : list N) (err : option error) : M (option ExtensionError) :=
  after_loop db ctx o err None (rev entered).
Definition extension_error (x : ExtensionError) : error :=
  MkError (KTyped "ExtensionError") "rasql: %s extension error: %v"
    (AStr (OperationKind_String (op_kind (xe_Operation x))) :: AInt (if xe_succeeded x then 1 else 0)%Z :: map AErr (xe_Errors x)).
(** [errors.As] for [*ExtensionError]: whether the operation it reports
    succeeded. *)
Fixpoint as_extension (e : error) : option bool :=
  match e with
  | MkError (KTyped "ExtensionError") _ (AStr _ :: AInt n :: _) => Some (n =? 1)%Z
  | MkError kind format args =>
      if wraps kind format
      then (fix first (l : list err_arg) : option bool :=
              match l with
              | [] => None
              | AErr e' :: l' => match as_extension e' with Some b => Some b | None => first l' end
              | _ :: l' => first l'
              end) args
      else None
  end.

Fixpoint start_loop (o : Operation) (current : Context) (i : invocation) (l : list N) : M (Context * invocation) :=
  match l with
  | [] => Ret (current, i)
  | x :: l' =>
      let! (derived, completion) := ask (Start x current o) in
      let current := default current derived in
      start_loop o current (MkInvocation (contexts i ++ [current]) (completions i ++ [completion]) (started i)) l'
  end.
Definition startInvocation (db : DB) (ctx : Context) (o : Operation) : M (Context * invocation) :=
  let! now := ask Now in start_loop o ctx (MkInvocation [] [] now) (invocationObservers db).
(** The completions with the context each was given, last started first. *)
Fixpoint complete_loop (db : DB) (o : Operation) (ctx : Context) (completion : Completion) (l : list (option N * Context)) : M unit :=
  match l with
  | [] => Ret tt
  | (None, _) :: l' => complete_loop db o ctx completion l'
  | (Some c, cctx) :: l' =>
      let! e := ask (Complete c cctx completion) in
      match e with
      | Some e => reportExtensionError db ctx (MkExtensionError o [e] (negb (bool_decide (is_Some (cm_Err completion)))))
      | None => Ret tt
      end ;;
      complete_loop db o ctx completion l'
  end.
Definition completeInvocation (db : DB) (i : invocation) (o : Operation) (phase : Phase) (ctx : Context) (err : option error)
    (rowsRead : Z) (earlyClose : bool) : M unit :=
  let! now := ask Now in
  complete_loop db o ctx (MkCompletion o phase (started i) now err rowsRead earlyClose) (rev (combine (completions i) (contexts i))).

(** ** Statements *)
Abbreviation SQL := sql_text.
Abbreviation BoundArgs := stmt_args.
(** [valid]: the handle of a DB made by [Open]. *)
Definition db_valid (db : DB) : result Handle :=
  match handle db, dialect db with
  | Some h, Some _ => Ok h
  | _, _ => Err (errors_New "rasql: invalid DB: create one with rasql.Open")
  end.
Definition validStatement (db : DB) (s : Statement) : result Handle :=
  do h <- db_valid db;
  if String.eqb (TrimSpace (SQL s)) "" then Err (errors_New "rasql: statement SQL must not be empty") else Ok h.
Definition join_extension (err : option error) (x : ExtensionError) : option error := errors_Join [err; Some (extension_error x)].
(** What [QueryRendered], [queryOwned] and [execRendered] do around the call
    of the driver: [operate] makes it, [wrap] formats its error, and [failed]
    ends a call that a hook refused after the fact. *)
Definition around {A} (db : DB) (ctx : Context) (o : Operation) (zero : A) (operate : Context -> M (A * option error)) (wrap : string)
    (failed : A -> option error -> ExtensionError -> M (A * option error)) : M (Context * (A * option error)) :=
  let! (callContext, i) := startInvocation db ctx o in
  let! (entered, refused) := beforeHooks db callContext o in
  match refused with
  | Some e =>
      let! x := afterHooks db callContext o entered (Some e) in
      let err := match x with Some x => join_extension (Some e) x | None => Some e end in
      completeInvocation db i o ExecutionPhase callContext err 0 false ;;
      Ret (callContext, (zero, err))
  | None =>
      let! (a, driverErr) := operate callContext in
      let err := option_map (fun e => Errorf wrap [AErr e]) driverErr in
      observe db callContext o driverErr ;;
      completeInvocation db i o ExecutionPhase callContext err 0 false ;;
      let! x := afterHooks db callContext o entered err in
      match x with
      | Some x => let! out := failed a err x in Ret (callContext, out)
      | None => Ret (callContext, (a, err))
      end
  end.
(** The rows of a refused query are closed; their error joins the hooks'. *)
Definition close_refused (rows : option N) (err : option error) (x : ExtensionError) : M (option N * option error) :=
  let! closeErr := match rows with Some r => ask (RowsClose r) | None => Ret None end in
  let x := match closeErr with
           | Some e => MkExtensionError (xe_Operation x) (xe_Errors x ++ [Errorf "rasql: close query rows: %w" [AErr e]]) (xe_succeeded x)
           | None => x
           end in
  Ret (None, join_extension err x).
Definition query_around (db : DB) (ctx : Context) (s : Statement) (h : Handle) : M (Context * (option N * option error)) :=
  around db ctx (MkOperation QueryOperation s) None (fun c => ask (QueryContext h c s)) "rasql: execute query: %w" close_refused.
Definition QueryRendered (db : DB) (ctx : Context) (s : Statement) : M (option N * option error) :=
  match validStatement db s with
  | Err e => Ret (None, Some e)
  | Ok h =>
      let! (_, (rows, err)) := query_around db ctx s h in
      match err with Some e => Ret (None, Some e) | None => Ret (rows, None) end
  end.
Definition queryOwned (db : DB) (ctx : Context) (s : Statement) : M (option N * option error) :=
  match validStatement db s with
  | Err e => Ret (None, Some e)
  | Ok h =>
      let! (callContext, (rows, err)) := query_around db ctx s h in
      match err with
      | Some e => Ret (None, Some e)
      | None =>
          let! (_, consumption) := startInvocation db callContext (MkOperation QueryOperation s) in
          let! r := new_rows (MkOwnedRows rows db (MkOperation QueryOperation s) consumption false false false None None None None 0) in
          Ret (Some r, None)
      end
  end.
Definition execRendered (db : DB) (ctx : Context) (s : Statement) : M (option N * option error) :=
  match validStatement db s with
  | Err e => Ret (None, Some e)
  | Ok h =>
      let! (_, out) := around db ctx (MkOperation ExecOperation s) None (fun c => ask (ExecContext h c s)) "rasql: execute statement: %w"
                         (fun result err x => Ret (result, join_extension err x)) in
      Ret out
  end.

(** ** Rows ([rows.go]) *)
Definition zero_DB : DB := MkDB None None [] [] None [] false None None [] "" None None None None.
Definition zero_rows : ownedRows :=
  MkOwnedRows None zero_DB (bare QueryOperation) (MkInvocation [] [] 0) false false false None None None None 0.
Definition rows_at (c : N) (s : shared) : ownedRows := default zero_rows (owned s !! c).
Definition change_rows (c : N) (f : ownedRows -> ownedRows) : M unit := modify (fun s => set_owned c (f (rows_at c s)) s).
Definition join_column (e : option error) (r : ownedRows) : ownedRows :=
  MkOwnedRows (or_rows r) (or_db r) (or_operation r) (or_invocation r) (exhausted r) (closed r) (completed r) (iterErr r) (scanErr r)
    (errors_Join [columnErr r; e]) (closeErr r) (rowsRead r).
Definition join_scan (e : option error) (r : ownedRows) : ownedRows :=
  MkOwnedRows (or_rows r) (or_db r) (or_operation r) (or_invocation r) (exhausted r) (closed r) (completed r) (iterErr r)
    (errors_Join [scanErr r; e]) (columnErr r) (closeErr r) (rowsRead r).
Definition exhaust (iter close : option error) (closes : bool) (r : ownedRows) : ownedRows :=
  MkOwnedRows (or_rows r) (or_db r) (or_operation r) (or_invocation r) true (closes || closed r) (completed r)
    (errors_Join [iterErr r; iter]) (scanErr r) (columnErr r) (errors_Join [closeErr r; close]) (rowsRead r).
Definition complete_rows (closes : bool) (r : ownedRows) : ownedRows :=
  MkOwnedRows (or_rows r) (or_db r) (or_operation r) (or_invocation r) (exhausted r) (closes || closed r) true (iterErr r) (scanErr r)
    (columnErr r) (closeErr r) (rowsRead r).
Definition join_close (e : option error) (r : ownedRows) : ownedRows :=
  MkOwnedRows (or_rows r) (or_db r) (or_operation r) (or_invocation r) (exhausted r) (closed r) (completed r) (iterErr r) (scanErr r)
    (columnErr r) (errors_Join [closeErr r; e]) (rowsRead r).
Definition count_row (r : ownedRows) : ownedRows :=
  MkOwnedRows (or_rows r) (or_db r) (or_operation r) (or_invocation r) (exhausted r) (closed r) (completed r) (iterErr r) (scanErr r)
    (columnErr r) (closeErr r) (if completed r then rowsRead r else rowsRead r + 1)%Z.

Definition owned_Columns (c : N) : M (list string * option error) :=
  let! r := gets (rows_at c) in
  match or_rows r with
  | None => Ret ([], None)
  | Some n =>
      let! (columns, err) := ask (RowsColumns n) in
      match err with Some e => change_rows c (join_column (Some e)) | None => Ret tt end ;;
      Ret (columns, err)
  end.
Definition owned_Next (c : N) : M bool :=
  let! r := gets (rows_at c) in
  match or_rows r with
  | None => change_rows c (exhaust None None false) ;; Ret false
  | Some n =>
      let! more := ask (RowsNext n) in
      if more then Ret true
      else let! err := ask (RowsErr n) in
           let! closeErr := ask (RowsClose n) in
           change_rows c (exhaust err closeErr true) ;; Ret false
  end.
Definition owned_Scan (c : N) : M (list go_any * option error) :=
  let! r := gets (rows_at c) in
  match or_rows r with
  | None => Ret ([], None)
  | Some n =>
      let! (values, err) := ask (RowsScan n) in
      match err with Some e => change_rows c (join_scan (Some e)) | None => Ret tt end ;;
      Ret (values, err)
  end.
Definition owned_Err (c : N) : M (option error) := gets (fun s => iterErr (rows_at c s)).
Definition owned_RecordRow (c : N) : M unit := change_rows c count_row.
Definition contextFromInvocation (i : invocation) : Context := default Background (last (contexts i)).
Definition owned_Finish (c : N) (err : option error) (earlyClose : bool) : M (option error) :=
  let! r := gets (rows_at c) in
  if completed r then Ret err
  else
    let closes := negb (closed r) && bool_decide (is_Some (or_rows r)) in
    change_rows c (complete_rows closes) ;;
    match or_rows r with
    | Some n => if closes then let! e := ask (RowsClose n) in change_rows c (join_close e) else Ret tt
    | None => Ret tt
    end ;;
    let! r := gets (rows_at c) in
    let completionErr := errors_Join [err; columnErr r; scanErr r; iterErr r; closeErr r] in
    completeInvocation (or_db r) (or_invocation r) (or_operation r) ConsumptionPhase (contextFromInvocation (or_invocation r))
      completionErr (rowsRead r) (earlyClose && negb (exhausted r)) ;;
    Ret completionErr.
Definition owned_Close (c : N) : M (option error) := owned_Finish c None true.
