(* ===== verification/ExecScope.v ===== *)
(** * ExecScope: transactions and scopes ([db.go], [event.go], [atomic.go], [scope.go])

    Beginning, committing and rolling back, the token that guards a
    transaction, the events, and the two ways to own a scope: [Atomic] and
    [Within].  A callback is a program of the database handle it is given.
    [Within] is modelled for a [DB]: executors of other types are not. *)

From S2P Require Import Prelude GoText Schema Query Render Dialect Page Typed GraphKey Prog Exec.
Open Scope string_scope.
Open Scope list_scope.
Open Scope nat_scope.
Open Scope prog_scope.

(** ** Events ([event.go]) *)
(** [safeEventStart] and [safeEventComplete]: a panic is an error. *)
Definition EventObserverPanic (v : panic_value) : error := MkError (KTyped "EventObserverPanic") "rasql: event observer panicked: %v" [].
Definition reportEventError (ctx : Context) (handler : option N) (e : error) : M unit :=
  match handler with
  | None => Ret tt
  | Some h => let! _ := try (ask (HandleExtensionError h ctx (MkExtensionError (bare QueryOperation) [e] false))) in Ret tt
  end.
Fixpoint start_events (handler : option N) (e : Event) (current : Context) (completions l : list N) : M (Context * eventCompletion) :=
  match l with
  | [] => Ret (current, MkEventCompletion completions handler)
  | x :: l' =>
      let! r := try (ask (StartEvent x current e)) in
      match r with
      | inr v => reportEventError current handler (EventObserverPanic v) ;; start_events handler e current completions l'
      | inl (derived, completion) =>
          start_events handler e (default current derived) (completions ++ match completion with Some c => [c] | None => [] end) l'
      end
  end.
Definition startEvent (db : DB) (ctx : Context) (e : Event) : M (Context * eventCompletion) :=
  start_events (eventHandler db) e ctx [] (eventObservers db).
Fixpoint complete_events (ctx : Context) (handler : option N) (e : Event) (l : list N) : M unit :=
  match l with
  | [] => Ret tt
  | c :: l' =>
      let! r := try (ask (CompleteEvent c ctx e)) in
      match r with
      | inr v => reportEventError ctx handler (EventObserverPanic v)
      | inl (Some e) => reportEventError ctx handler e
      | inl None => Ret tt
      end ;;
      complete_events ctx handler e l'
  end.
Definition completeEvent (ctx : Context) (c : eventCompletion) (e : Event) : M unit :=
  complete_events ctx (ec_handler c) e (rev (ec_completions c)).
Definition start_of (id parent : string) (kind : EventKind) (index : Z) : Event := MkEvent id parent kind EventStart index 0 false None.
Definition terminal_of (id parent : string) (kind : EventKind) (index rows : Z) (early : bool) (err : option error) : Event :=
  MkEvent id parent kind EventTerminal index rows early err.
Definition childEventScope (parentID : string) (ctx : Context) (counter : N) (db : DB) : DB :=
  MkDB (handle db) (dialect db) (hooks db) (observers db) (extensionErrorHandler db) (invocationObservers db) (savepointScoped db) (tx db)
    (eventHandler db) (eventObservers db) parentID (Some counter) (Some ctx) (eventScopeComplete db) (busy db).
(** [eventScopeComplete.finish], which a nil one ignores. *)
Definition finish_scope (c : option eventScopeCompletion) (err : option error) : M unit :=
  match c with
  | None => Ret tt
  | Some c =>
      let! first := first_time (es_done c) in
      if first then
        let e := es_event c in
        completeEvent (es_ctx c) (es_completion c)
          (terminal_of (LogicalID e) (ParentID e) (ev_Kind e) (StatementIndex e) (ev_Rows e) (ev_EarlyClose e) err)
      else Ret tt
  end.

(** ** The handle's own fields *)
Definition set_transaction (h : Handle) (t : N) (db : DB) : DB :=
  MkDB (Some h) (dialect db) (hooks db) (observers db) (extensionErrorHandler db) (invocationObservers db) (savepointScoped db) (Some t)
    (eventHandler db) (eventObservers db) (eventParentID db) (eventCounter db) (eventScopeCtx db) (eventScopeComplete db) (busy db).
Definition set_hooks (l : list N) (db : DB) : DB :=
  MkDB (handle db) (dialect db) l (observers db) (extensionErrorHandler db) (invocationObservers db) (savepointScoped db) (tx db)
    (eventHandler db) (eventObservers db) (eventParentID db) (eventCounter db) (eventScopeCtx db) (eventScopeComplete db) (busy db).
Definition set_observers (handler : option N) (l : list N) (db : DB) : DB :=
  MkDB (handle db) (dialect db) (hooks db) l handler (invocationObservers db) (savepointScoped db) (tx db)
    (eventHandler db) (eventObservers db) (eventParentID db) (eventCounter db) (eventScopeCtx db) (eventScopeComplete db) (busy db).
Definition set_invocationObservers (handler : option N) (l : list N) (db : DB) : DB :=
  MkDB (handle db) (dialect db) (hooks db) (observers db) handler l (savepointScoped db) (tx db)
    (eventHandler db) (eventObservers db) (eventParentID db) (eventCounter db) (eventScopeCtx db) (eventScopeComplete db) (busy db).
Definition set_savepointScoped (db : DB) : DB :=
  MkDB (handle db) (dialect db) (hooks db) (observers db) (extensionErrorHandler db) (invocationObservers db) true (tx db)
    (eventHandler db) (eventObservers db) (eventParentID db) (eventCounter db) (eventScopeCtx db) (eventScopeComplete db) (busy db).
Definition set_busy (b : option N) (db : DB) : DB :=
  MkDB (handle db) (dialect db) (hooks db) (observers db) (extensionErrorHandler db) (invocationObservers db) (savepointScoped db) (tx db)
    (eventHandler db) (eventObservers db) (eventParentID db) (eventCounter db) (eventScopeCtx db) (eventScopeComplete db) b.
Definition set_scopeComplete (c : option eventScopeCompletion) (db : DB) : DB :=
  MkDB (handle db) (dialect db) (hooks db) (observers db) (extensionErrorHandler db) (invocationObservers db) (savepointScoped db) (tx db)
    (eventHandler db) (eventObservers db) (eventParentID db) (eventCounter db) (eventScopeCtx db) c (busy db).
Definition IsTransaction (db : DB) : bool := bool_decide (is_Some (tx db)).

(** A list of extensions with no nil among those added. *)
Fixpoint append_all (what : string) (current : list N) (additions : list (option N)) : result (list N) :=
  match additions with
  | [] => Ok current
  | None :: _ => Err (errors_New ("rasql: " +:+ what +:+ " must not be nil"))
  | Some x :: l => append_all what (current ++ [x]) l
  end.
Definition appendHooks (current : list N) (additions : list (option N)) : result (list N) := append_all "hook" current additions.
Definition WithHooks (db : DB) (additions : list (option N)) : result DB :=
  do _ <- db_valid db;
  do l <- appendHooks (hooks db) additions;
  Ok (set_hooks l db).
Definition WithObservers (db : DB) (handler : option N) (additions : list (option N)) : result DB :=
  do _ <- db_valid db;
  if (0 <? length (observers db) + length additions) && negb (bool_decide (is_Some handler))
  then Err (errors_New "rasql: extension error handler must not be nil when observers are supplied")
  else do l <- append_all "observer" (observers db) additions; Ok (set_observers handler l db).
Definition WithInvocationObservers (db : DB) (handler : option N) (additions : list (option N)) : result DB :=
  do _ <- db_valid db;
  if (0 <? length (invocationObservers db) + length additions) && negb (bool_decide (is_Some handler))
  then Err (errors_New "rasql: extension error handler must not be nil when invocation observers are supplied")
  else do l <- append_all "invocation observer" (invocationObservers db) additions; Ok (set_invocationObservers handler l db).
Definition WithEventObservers (db : DB) (handler : option N) (additions : list (option N)) : result DB :=
  if (0 <? length additions) && negb (bool_decide (is_Some handler))
  then Err (errors_New "rasql: extension error handler must not be nil when observers are supplied")
  else do l <- append_all "event observer" [] additions;
       match l with
       | [] => Ok db
       | _ => Ok (MkDB (handle db) (dialect db) (hooks db) (observers db) (extensionErrorHandler db) (invocationObservers db)
                    (savepointScoped db) (tx db) handler l "" None None None (busy db))
       end.

(** ** Transactions *)
Definition nested_transaction : error := errors_New "rasql: this DB is already a transaction: nested transactions are not supported".
Definition begins (h : Handle) : bool := match h with SqlTx _ => false | OtherHandle _ starts => starts end.
(** The part of [beginTxCore] around the call of the driver. *)
Definition call_begin (db : DB) (h : Handle) (ctx : Context) (opts : option TxOptions) : M (result N) :=
  let o := bare BeginOperation in
  let! (callContext, i) := startInvocation db ctx o in
  let! (transaction, err) := ask (BeginTx h callContext opts) in
  let r := match err, transaction with
           | Some e, _ => Err (Errorf "rasql: begin transaction: %w" [AErr e])
           | None, None => Err (errors_New "rasql: handle returned a nil transaction without an error")
           | None, Some t => Ok t
           end in
  completeInvocation db i o TransactionPhase callContext (match r with Ok _ => None | Err e => Some e end) 0 false ;;
  Ret r.
Definition beginTxCore (db : DB) (ctx : Context) (opts : option TxOptions) (additions : list (option N)) : M (result DB) :=
  match db_valid db with
  | Err e => Ret (Err e)
  | Ok h =>
      if IsTransaction db then Ret (Err nested_transaction)
      else if negb (begins h) then Ret (Err (errors_New "rasql: handle of type %T cannot start a transaction"))
      else
        let! r := call_begin db h ctx opts in
        match r with
        | Err e => Ret (Err e)
        | Ok t =>
            match WithHooks (set_transaction (SqlTx t) t db) additions with
            | Ok child => Ret (Ok child)
            | Err e => let! _ := ask (TxRollback t) in Ret (Err e)
            end
        end
  end.
Definition own_counter (c : option N) : M N := match c with Some c => Ret c | None => new_counter end.
Definition Begin (db : DB) (ctx : Context) (opts : option TxOptions) (additions : list (option N)) : M (result DB) :=
  if length (eventObservers db) =? 0 then beginTxCore db ctx opts additions
  else
    let! id := nextEventID in
    let parent := eventParentID db in
    let! (callCtx, completion) := startEvent db ctx (start_of id parent EventScope 0) in
    let! r := beginTxCore db callCtx opts additions in
    match r with
    | Err e => completeEvent callCtx completion (terminal_of id parent EventScope 0 0 false (Some e)) ;; Ret (Err e)
    | Ok child =>
        let! counter := own_counter (eventCounter child) in
        let! done := new_flag in
        Ret (Ok (set_scopeComplete (Some (MkScopeCompletion callCtx completion (terminal_of id parent EventScope 0 0 false None) done))
                   (childEventScope id callCtx counter child)))
    end.

Definition ErrTxDone : string := "sql: transaction has already been committed or rolled back".
(** What [commitContext] and [rollbackContext] share: the call [operate] and
    the error it is reported as. *)
Definition end_transaction (db : DB) (ctx : Context) (k : OperationKind) (operate : N -> M (option error)) (report : error -> option error) (what : string) :
    M (option error) :=
  if savepointScoped db then Ret (Some (errors_New ("rasql: atomic savepoint DB cannot " +:+ what +:+ " its outer transaction")))
  else match tx db with
  | None => Ret (Some (errors_New ("rasql: this DB is not a transaction: " +:+ match k with CommitOperation => "Commit" | _ => "Rollback" end +:+ " needs one from Begin")))
  | Some t =>
      let! (callContext, i) := startInvocation db ctx (bare k) in
      let! r := operate t in
      let err := match r with Some e => report e | None => None end in
      completeInvocation db i (bare k) TransactionPhase callContext err 0 false ;;
      finish_scope (eventScopeComplete db) err ;;
      Ret err
  end.
Definition commitContext (db : DB) (ctx : Context) : M (option error) :=
  end_transaction db ctx CommitOperation (fun t => ask (TxCommit t)) (fun e => Some (Errorf "rasql: commit transaction: %w" [AErr e])) "commit".
Definition rollbackContext (db : DB) (ctx : Context) : M (option error) :=
  end_transaction db ctx RollbackOperation (fun t => ask (TxRollback t))
    (fun e => if errors_Is ErrTxDone e then None else Some (Errorf "rasql: roll back transaction: %w" [AErr e])) "roll back".
Definition Commit (db : DB) : M (option error) := commitContext db Background.
Definition Rollback (db : DB) : M (option error) := rollbackContext db Background.

(** ** Statements under the token *)
Definition concurrent_use : error := planError "transaction_concurrent_use" "executor" "transaction executor is already in use".
Definition try_acquire (b : option N) : M bool := match b with None => Ret true | Some b => acquire b end.
Definition give_back (b : option N) : M unit := match b with None => Ret tt | Some b => release b end.
(** [ResultRows]: a query's own rows, those that hold the token, and those that
    report an event.  The last two embed the rows they wrap and override
    [Finish], the last [RecordRow] too. *)
Inductive ResultRows :=
| Owned (c : N)
| Exclusive (inner : ResultRows) (released busy : N)
| Evented (inner : ResultRows) (rows finished : N) (ctx : Context) (completion : eventCompletion) (id parent : string) (index : Z).
Fixpoint Finish (r : ResultRows) (err : option error) (early : bool) : M (option error) :=
  match r with
  | Owned c => owned_Finish c err early
  | Exclusive inner released b =>
      let! result := Finish inner err early in
      let! first := first_time released in
      (if first then release b else Ret tt) ;; Ret result
  | Evented inner rows finished ctx completion id parent index =>
      let! result := Finish inner err early in
      let! first := first_time finished in
      (if first then
         let! n := gets (fun s => default 0%Z (counters s !! rows)) in
         completeEvent ctx completion (terminal_of id parent EventStatement index n early result)
       else Ret tt) ;; Ret result
  end.
Fixpoint RecordRow (r : ResultRows) : M unit :=
  match r with
  | Owned c => owned_RecordRow c
  | Exclusive inner _ _ => RecordRow inner
  | Evented inner rows _ _ _ _ _ _ => let! _ := add_counter rows in RecordRow inner
  end.
(** The cell of the rows a wrapper promotes its other methods from. *)
Fixpoint innermost (r : ResultRows) : N :=
  match r with Owned c => c | Exclusive inner _ _ | Evented inner _ _ _ _ _ _ _ => innermost inner end.
Definition Columns (r : ResultRows) : M (list string * option error) := owned_Columns (innermost r).
Definition Next (r : ResultRows) : M bool := owned_Next (innermost r).
Definition Scan (r : ResultRows) : M (list go_any * option error) := owned_Scan (innermost r).
Definition Rows_Err (r : ResultRows) : M (option error) := owned_Err (innermost r).
Definition Close (r : ResultRows) : M (option error) := owned_Close (innermost r).

Definition queryGuarded (db : DB) (ctx : Context) (s : Statement) : M (option ResultRows * option error) :=
  let! free := try_acquire (busy db) in
  if negb free then Ret (None, Some concurrent_use)
  else
    let! (rows, err) := queryOwned db ctx s in
    match err, rows with
    | Some e, _ => give_back (busy db) ;; Ret (None, Some e)
    | None, None => give_back (busy db) ;; Ret (None, None)
    | None, Some c =>
        match busy db with
        | None => Ret (Some (Owned c), None)
        | Some b => let! released := new_flag in Ret (Some (Exclusive (Owned c) released b), None)
        end
    end.
Definition execGuarded (db : DB) (ctx : Context) (s : Statement) : M (option N * option error) :=
  let! free := try_acquire (busy db) in
  if negb free then Ret (None, Some concurrent_use) else deferred (execRendered db ctx s) (give_back (busy db)).
Definition queryObserved (db : DB) (ctx : Context) (s : Statement) : M (option ResultRows * option error) :=
  let! id := nextEventID in
  let! index := nextEventStatement (eventCounter db) in
  let parent := eventParentID db in
  let! (callCtx, completion) := startEvent db ctx (start_of id parent EventStatement index) in
  let! (rows, err) := queryGuarded db callCtx s in
  match err, rows with
  | Some e, _ => completeEvent callCtx completion (terminal_of id parent EventStatement index 0 false (Some e)) ;; Ret (None, Some e)
  | None, None => completeEvent callCtx completion (terminal_of id parent EventStatement index 0 false None) ;; Ret (None, None)
  | None, Some r =>
      let! rows := new_counter in
      let! finished := new_flag in
      Ret (Some (Evented r rows finished callCtx completion id parent index), None)
  end.
Definition execObserved (db : DB) (ctx : Context) (s : Statement) : M (option N * option error) :=
  let! id := nextEventID in
  let! index := nextEventStatement (eventCounter db) in
  let parent := eventParentID db in
  let! (callCtx, completion) := startEvent db ctx (start_of id parent EventStatement index) in
  let! (result, err) := execGuarded db callCtx s in
  completeEvent callCtx completion (terminal_of id parent EventStatement index 0 false err) ;;
  Ret (result, err).
Definition DB_Query (db : DB) (ctx : Context) (s : Statement) : M (option ResultRows * option error) :=
  if length (eventObservers db) =? 0 then queryGuarded db ctx s else queryObserved db ctx s.
Definition DB_Exec (db : DB) (ctx : Context) (s : Statement) : M (option N * option error) :=
  if length (eventObservers db) =? 0 then execGuarded db ctx s else execObserved db ctx s.

(** ** Scopes *)
(** [strconv.FormatUint(n, 36)]. *)
Definition digit36 (d : N) : ascii := ascii_of_N (if (d <? 10)%N then 48 + d else 87 + d).
Fixpoint digits36 (fuel : nat) (n : N) (acc : string) : string :=
  match fuel with
  | 0 => acc
  | S fuel' => let acc := String (digit36 (n mod 36)) acc in if (n <? 36)%N then acc else digits36 fuel' (n / 36) acc
  end.
Definition FormatUint36 (n : N) : string := digits36 (S (N.size_nat n)) n "".
Definition atomicSavepointName (db : DB) : M (result string) :=
  let! n := update (fun s => ((savepointID s + 1)%N, MkShared (savepointID s + 1) (eventID s) (next_cell s) (flags s) (counters s) (owned s))) in
  Ret match dialect db with
      | None => Err (errors_New "rasql: invalid DB: create one with rasql.Open")
      | Some d => wrap_err (fun e => Errorf "rasql: quote savepoint name: %w" [AErr e]) (d_QuoteIdentifier d ("rasql_sp_" +:+ FormatUint36 n))
      end.
Definition plain (sql : string) : Statement := MkStatement sql [].
(** A statement run for its error. *)
Definition control (db : DB) (ctx : Context) (sql : string) : M (option error) :=
  let! (_, err) := execRendered db ctx (plain sql) in Ret err.
Definition atomicRollbackSavepoint (db : DB) (ctx : Context) (name : string) : M (option error) := control db ctx ("ROLLBACK TO SAVEPOINT " +:+ name).
Definition atomicReleaseSavepoint (db : DB) (ctx : Context) (name : string) : M (option error) := control db ctx ("RELEASE SAVEPOINT " +:+ name).
(** The savepoint a scope opens: its name once the driver has made it. *)
Definition open_savepoint (db : DB) (ctx : Context) (unsupported : string -> error) : M (result string) :=
  match dialect db with
  | None => Ret (Err (errors_New "rasql: invalid DB: create one with rasql.Open"))
  | Some d =>
      if negb (d_Supports d CapabilitySavepoint) then Ret (Err (unsupported (d_Name d)))
      else
        let! name := atomicSavepointName db in
        match name with
        | Err e => Ret (Err e)
        | Ok name =>
            let! err := control db ctx ("SAVEPOINT " +:+ name) in
            Ret match err with Some e => Err e | None => Ok name end
        end
  end.
(** Undoing the work of a savepoint and dropping it. *)
Definition undo_savepoint (db : DB) (ctx : Context) (name : string) : M (option error) :=
  let! e1 := atomicRollbackSavepoint db ctx name in
  let! e2 := atomicReleaseSavepoint db ctx name in
  Ret (errors_Join [e1; e2]).

(** [errors.As] for [*PlanError]. *)
Fixpoint is_plan_error (e : error) : bool :=
  match e with
  | MkError kind format args =>
      match kind with KTyped "planerr.Error" => true | _ => false end
      || (wraps kind format &&
          (fix wrapped (l : list err_arg) : bool :=
             match l with
             | [] => false
             | AErr e' :: l' => is_plan_error e' || wrapped l'
             | _ :: l' => wrapped l'
             end) args)
  end.

(** *** [Atomic] *)
Definition AtomicFunc : Type := Context -> DB -> M (option error).
Definition panicAtomic {A} (value : panic_value) (cleanup : option error) : M A :=
  Panic (match cleanup with None => value | Some e => AtomicPanic value e end).
Definition atomicTransaction (db : DB) (ctx : Context) (opts : option TxOptions) (fn : AtomicFunc) : M (option error) :=
  let! r := beginTxCore db ctx opts [] in
  match r with
  | Err e => Ret (Some e)
  | Ok transaction =>
      let! result := try (fn ctx transaction) in
      match result with
      | inr value => let! cleanup := Rollback transaction in panicAtomic value cleanup
      | inl (Some e) => let! cleanup := Rollback transaction in Ret (errors_Join [Some e; cleanup])
      | inl None => Commit transaction
      end
  end.
Definition atomicSavepoint (db : DB) (ctx : Context) (opts : option TxOptions) (fn : AtomicFunc) : M (option error) :=
  match opts with
  | Some _ => Ret (Some (errors_New "rasql: nested atomic scope does not accept transaction options"))
  | None =>
      let! r := open_savepoint db ctx (fun d => Errorf "rasql: dialect %s does not support savepoints" [AStr d]) in
      match r with
      | Err e => Ret (Some e)
      | Ok name =>
          let! result := try (fn ctx (set_savepointScoped db)) in
          let cleanupCtx := atomicCleanupContext ctx in
          match result with
          | inr value => let! cleanup := undo_savepoint db cleanupCtx name in panicAtomic value cleanup
          | inl (Some e) => let! cleanup := undo_savepoint db cleanupCtx name in Ret (errors_Join [Some e; cleanup])
          | inl None => atomicReleaseSavepoint db cleanupCtx name
          end
      end
  end.
Definition Atomic (db : DB) (ctx : Context) (opts : option TxOptions) (fn : option AtomicFunc) : M (option error) :=
  match db_valid db with
  | Err e => Ret (Some e)
  | Ok _ =>
      match fn with
      | None => Ret (Some (errors_New "rasql: atomic function must not be nil"))
      | Some fn => if IsTransaction db then atomicSavepoint db ctx opts fn else atomicTransaction db ctx opts fn
      end
  end.

(** *** [BeginScope], [BeginSavepoint] and their finalizers *)
Inductive ScopeFinalizer :=
| OfTransaction (child : DB)
| OfSavepoint (db : DB) (ctx : Context) (name : string)
| GuardedBy (f : ScopeFinalizer) (busy : option N)
| ObservedBy (f : ScopeFinalizer) (cause : option error) (done : N) (ctx : Context) (completion : eventCompletion) (id parent : string).
Fixpoint finalize (commits : bool) (f : ScopeFinalizer) (ctx : Context) : M (option error) :=
  match f with
  | OfTransaction child => if commits then commitContext child ctx else rollbackContext child ctx
  | OfSavepoint db cleanupCtx name => if commits then atomicReleaseSavepoint db cleanupCtx name else undo_savepoint db cleanupCtx name
  | GuardedBy f busy =>
      let! free := try_acquire busy in
      if negb free then Ret (Some concurrent_use) else deferred (finalize commits f ctx) (give_back busy)
  | ObservedBy f cause done cctx completion id parent =>
      let! err := finalize commits f ctx in
      let err := match cause with Some c => errors_Join [Some c; err] | None => err end in
      let! first := first_time done in
      (if first then completeEvent cctx completion (terminal_of id parent EventScope 0 0 false err) else Ret tt) ;;
      Ret err
  end.
Definition Finalizer_Commit (f : ScopeFinalizer) (ctx : Context) : M (option error) := finalize true f ctx.
Definition Finalizer_Rollback (f : ScopeFinalizer) (ctx : Context) : M (option error) := finalize false f ctx.
Definition setCause (err : option error) (f : ScopeFinalizer) : ScopeFinalizer :=
  match f with ObservedBy g _ done ctx completion id parent => ObservedBy g err done ctx completion id parent | _ => f end.

Definition beginScope (db : DB) (ctx : Context) (opts : option TxOptions) : M (result (DB * ScopeFinalizer)) :=
  let! r := beginTxCore db ctx opts [] in
  Ret match r with Err e => Err e | Ok child => Ok (child, OfTransaction child) end.
Definition beginScopeGuarded (db : DB) (ctx : Context) (opts : option TxOptions) : M (result (DB * ScopeFinalizer)) :=
  let! r := beginScope db ctx opts in
  match r with
  | Err e => Ret (Err e)
  | Ok (child, f) => let! b := newExecutorBusy in Ret (Ok (set_busy (Some b) child, GuardedBy f (Some b)))
  end.
Definition beginSavepoint (db : DB) (ctx : Context) : M (result (DB * ScopeFinalizer)) :=
  if negb (IsTransaction db) then Ret (Err (errors_New "rasql: savepoint requires a transaction"))
  else
    let! r := open_savepoint db ctx (fun d => Errorf "rasql: savepoint unsupported by dialect %s" [AStr d]) in
    Ret match r with Err e => Err e | Ok name => Ok (db, OfSavepoint db (atomicCleanupContext ctx) name) end.
Definition beginSavepointGuarded (db : DB) (ctx : Context) : M (result (DB * ScopeFinalizer)) :=
  let! free := try_acquire (busy db) in
  if negb free then Ret (Err concurrent_use)
  else
    let! r := beginSavepoint db ctx in
    give_back (busy db) ;;
    Ret match r with
        | Err e => if is_plan_error e then Err e else Err (planErr "savepoint_unsupported" "scope" e)
        | Ok (child, f) => Ok (set_busy (busy db) child, GuardedBy f (busy db))
        end.
(** The event layer both have. *)
Definition observed_scope (db : DB) (ctx : Context) (begin_ : Context -> M (result (DB * ScopeFinalizer))) : M (result (DB * ScopeFinalizer)) :=
  if length (eventObservers db) =? 0 then begin_ ctx
  else
    let! id := nextEventID in
    let parent := eventParentID db in
    let! counter := own_counter (eventCounter db) in
    let! (callCtx, completion) := startEvent db ctx (start_of id parent EventScope 0) in
    let! r := begin_ callCtx in
    match r with
    | Err e => completeEvent callCtx completion (terminal_of id parent EventScope 0 0 false (Some e)) ;; Ret (Err e)
    | Ok (child, f) =>
        let! done := new_flag in
        Ret (Ok (childEventScope id callCtx counter child, ObservedBy f None done callCtx completion id parent))
    end.
Definition BeginScope (db : DB) (ctx : Context) (opts : option TxOptions) : M (result (DB * ScopeFinalizer)) :=
  observed_scope db ctx (fun c => beginScopeGuarded db c opts).
Definition BeginSavepoint (db : DB) (ctx : Context) : M (result (DB * ScopeFinalizer)) :=
  observed_scope db ctx (beginSavepointGuarded db).

(** *** [Within] *)
Definition Scope : Type := AtomicFunc.
Definition unsupportedScopeError : error := planError "transaction_scope_unsupported" "scope" "executor does not support transaction scopes".
Definition run_scope (ctx : Context) (child : DB) (finalizer : ScopeFinalizer) (fn : Scope) : M (option error) :=
  let callbackCtx := default ctx (eventScopeCtx child) in
  let! result := try (fn callbackCtx child) in
  let cleanupCtx := atomicCleanupContext callbackCtx in
  match result with
  | inr value =>
      let! cleanup := Finalizer_Rollback (setCause None finalizer) cleanupCtx in
      Panic (match cleanup with Some e => AtomicPanic value e | None => value end)
  | inl (Some e) =>
      let! cleanup := Finalizer_Rollback (setCause (Some e) finalizer) cleanupCtx in
      Ret (errors_Join [Some e; cleanup])
  | inl None => Finalizer_Commit finalizer cleanupCtx
  end.
Definition Within (ctx : Context) (executor : option DB) (opts : option TxOptions) (fn : option Scope) : M (option error) :=
  match executor, fn with
  | None, _ => Ret (Some unsupportedScopeError)
  | Some _, None => Ret (Some (errors_New "rasql: scope function must not be nil"))
  | Some db, Some fn =>
      let! r := if IsTransaction db
                then match opts with
                     | Some _ => Ret (Err (planError "nested_options" "scope" "nested scopes do not accept transaction options"))
                     | None => BeginSavepoint db ctx
                     end
                else BeginScope db ctx opts in
      match r with
      | Err e => Ret (Some e)
      | Ok (child, finalizer) => run_scope ctx child finalizer fn
      end
  end.
