(* ===== verification/ExecQuiet.v ===== *)
(** * ExecQuiet: what programs of [Exec] and [ExecScope] run to

    Reasoning about a program under an environment whose hooks let every
    operation pass and whose extensions do not panic: most of what the package
    does around a driver call is silent, that is, it calls nothing of the
    driver and leaves the cells that exist as they are. *)

From S2P Require Import Prelude GoText Schema Query Render Dialect Page Typed GraphKey Prog Exec ExecScope.
Open Scope string_scope.
Open Scope list_scope.
Open Scope nat_scope.
Open Scope prog_scope.

(** ** Blank text *)
Definition chars_of (l : list string) : list ascii := flat_map String.list_ascii_of_string l.
Lemma trim_left_blank encs k s :
  trim_left_of encs k s = "" -> Forall (fun c => c ∈ chars_of encs) (drop k (String.list_ascii_of_string s)).
Proof.
  revert k. induction s as [|c s IH]; intros k; cbn [trim_left_of String.list_ascii_of_string].
  { by rewrite drop_nil. }
  destruct k as [|k]; [|apply IH]. unfold space_prefix_of. cbn [drop].
  destruct (List.find (HasPrefix (String c s)) encs) as [e|] eqn:E; [|done].
  apply find_some in E as [He (r & Hp)%HasPrefix_spec].
  destruct (String.length e) as [|k] eqn:Hk; [done|]. intros H%IH.
  assert (forall x, x ∈ String.list_ascii_of_string e -> x ∈ chars_of encs) as Hin.
  { intros x Hx. unfold chars_of. apply list_elem_of_In, in_flat_map. exists e. split; [done|]. by apply list_elem_of_In. }
  assert (String.list_ascii_of_string (String c s) = String.list_ascii_of_string e ++ String.list_ascii_of_string r) as Hs.
  { rewrite Hp. clear. induction e as [|x e IH]; [done|]. simpl. by rewrite IH. }
  assert (length (String.list_ascii_of_string e) = S k) as Hlen.
  { rewrite <- Hk. clear. induction e as [|x e IH]; [done|]. simpl. by rewrite IH. }
  destruct (String.list_ascii_of_string e) as [|x l] eqn:El; [done|]. cbn [String.list_ascii_of_string app] in Hs. injection Hs as -> Hs.
  constructor; [apply Hin, list_elem_of_here|]. rewrite Hs in H |- *.
  injection Hlen as Hlen. rewrite <- Hlen, drop_app_length in H. apply Forall_app. split; [|done].
  apply Forall_forall. intros y Hy. apply Hin. by apply list_elem_of_further.
Qed.
Definition never_space (c : ascii) : bool :=
  negb (existsb (Ascii.eqb c) (chars_of space_encodings)) && negb (existsb (Ascii.eqb c) (chars_of (map str_rev space_encodings))).
Lemma not_in_chars c l : existsb (Ascii.eqb c) l = false -> c ∉ l.
Proof. intros H Hin. assert (existsb (Ascii.eqb c) l = true); [|congruence]. apply existsb_exists. exists c. split; [by apply list_elem_of_In|apply Ascii.eqb_refl]. Qed.
Lemma str_rev_chars s : String.list_ascii_of_string (str_rev s) = rev (String.list_ascii_of_string s).
Proof.
  assert (forall c s, str_rev (String c s) = str_rev s +:+ str1 c) as Hc by (intros c s'; exact (str_rev_app_rev (str1 c) s')).
  induction s as [|c s IH]; [done|]. rewrite Hc.
  assert (forall a b, String.list_ascii_of_string (a +:+ b) = String.list_ascii_of_string a ++ String.list_ascii_of_string b) as Happ.
  { clear. intros a b. induction a as [|x a IH]; [done|]. simpl. by rewrite IH. }
  by rewrite Happ, IH.
Qed.
Lemma TrimSpace_started c s : never_space c = true -> String.eqb (TrimSpace (String c s)) "" = false.
Proof.
  unfold never_space. rewrite andb_true_iff, !negb_true_iff. intros [H1%not_in_chars H2%not_in_chars].
  apply String.eqb_neq. unfold TrimSpace. intros E. apply (f_equal str_rev) in E. rewrite str_rev_involutive in E.
  assert (trim_left_of space_encodings 0 (String c s) = String c s) as El.
  { cbn [trim_left_of]. unfold space_prefix_of. destruct (List.find (HasPrefix (String c s)) space_encodings) as [e|] eqn:F; [|done].
    apply find_some in F as [He [r Hp]%HasPrefix_spec]. destruct e as [|x e]; [done|]. injection Hp as <- _.
    exfalso. apply H1. apply list_elem_of_In, in_flat_map. eexists. split; [done|]. by left. }
  rewrite El in E. apply trim_left_blank in E. cbn [drop] in E. rewrite str_rev_chars in E. cbn [String.list_ascii_of_string rev] in E.
  apply H2. rewrite Forall_forall in E. apply E. apply elem_of_app. right. apply list_elem_of_here.
Qed.

(** ** Environments *)
Definition is_driver (c : call) : bool :=
  match c with
  | BeginTx _ _ _ | TxCommit _ | TxRollback _ | ExecContext _ _ _ | QueryContext _ _ _
  | RowsColumns _ | RowsNext _ | RowsErr _ | RowsClose _ | RowsScan _ => true
  | _ => false
  end.
(** Hooks let every operation pass and nothing panics, but observers do as
    they like. *)
Definition permitting (env : environment answer (panic := panic_value)) : Prop :=
  forall t c,
    (exists a, env t c = Returns a) /\
    match c as c return reply (answer c) -> Prop with
    | Before _ _ _ | After _ _ _ _ => fun r => r = Returns None
    | _ => fun _ => True
    end (env t c).

Section Quiet.
Variable env : environment answer (panic := panic_value).
Hypothesis Henv : permitting env.
Abbreviation W := (world answer (state := shared) (panic := panic_value)).
(** The cells that exist are as they were, the flag [except] excepted. *)
Definition same_cells (except : option N) (w w' : W) : Prop :=
  (next_cell (cells w) <= next_cell (cells w'))%N /\
  forall c, (c < next_cell (cells w))%N -> Some c <> except -> flags (cells w') !! c = flags (cells w) !! c.
Definition same_rows (w w' : W) : Prop :=
  forall c, (c < next_cell (cells w))%N -> owned (cells w') !! c = owned (cells w) !! c.
Definition silent_to (w w' : W) : Prop :=
  (exists t, trace w' = trace w ++ t /\ Forall (fun st => is_driver (st_call st) = false) t) /\ same_cells None w w' /\ same_rows w w'.
Lemma same_cells_refl x w : same_cells x w w.
Proof. by split. Qed.
Lemma same_cells_trans x w1 w2 w3 : same_cells x w1 w2 -> same_cells x w2 w3 -> same_cells x w1 w3.
Proof. intros [L1 H1] [L2 H2]. split; [lia|]. intros c Hc Hx. rewrite H2 by (lia || done). by apply H1. Qed.
Lemma same_cells_weaken x w w' : same_cells None w w' -> same_cells x w w'.
Proof. intros [L H]. split; [done|]. intros c Hc _. by apply H. Qed.
Lemma silent_to_refl w : silent_to w w.
Proof. split; [exists []; by rewrite app_nil_r|]. split; [apply same_cells_refl|done]. Qed.
Lemma silent_to_trans w1 w2 w3 : silent_to w1 w2 -> silent_to w2 w3 -> silent_to w1 w3.
Proof.
  intros ((t1 & E1 & F1) & S1 & R1) ((t2 & E2 & F2) & S2 & R2). split; [|split].
  - exists (t1 ++ t2). rewrite E2, E1, app_assoc. split; [done|]. by apply Forall_app.
  - by eapply same_cells_trans.
  - intros c L. rewrite R2 by (destruct S1 as [L1 _]; lia). by apply R1.
Qed.
Definition silent {A} (p : M A) (P : A -> Prop) : Prop :=
  forall w, exists a w', run env p w = (Done a, w') /\ P a /\ silent_to w w'.

Lemma silent_ret {A} (a : A) (P : A -> Prop) : P a -> silent (Ret a) P.
Proof. intros H w. exists a, w. split; [done|]. split; [done|apply silent_to_refl]. Qed.
Lemma silent_skip {A} (a : A) : silent (Ret a) (fun _ => True).
Proof. by apply silent_ret. Qed.
Lemma silent_bind {A B} (p : M A) (f : A -> M B) P Q :
  silent p P -> (forall a, P a -> silent (f a) Q) -> silent (bind p f) Q.
Proof.
  intros Hp Hf w. destruct (Hp w) as (a & w1 & E1 & Ha & H1). destruct (Hf a Ha w1) as (b & w2 & E2 & Hb & H2).
  exists b, w2. rewrite run_bind, E1. split; [done|]. split; [done|]. by eapply silent_to_trans.
Qed.
Lemma silent_mono {A} (p : M A) (P Q : A -> Prop) : (forall a, P a -> Q a) -> silent p P -> silent p Q.
Proof. intros H Hp w. destruct (Hp w) as (a & w1 & E & Ha & Hw). eauto 10. Qed.
Lemma silent_try {A} (p : M A) P : silent p P -> silent (try p) (fun r => exists a, r = inl a /\ P a).
Proof. intros Hp w. destruct (Hp w) as (a & w1 & E & Ha & Hw). exists (inl a), w1. rewrite run_try, E. eauto. Qed.
Lemma silent_ask c (P : answer c -> Prop) :
  is_driver c = false -> (forall t a, env t c = Returns a -> P a) -> silent (ask c) P.
Proof.
  intros Hc HP w. destruct (Henv (trace w) c) as ((a & E) & _). unfold ask. eexists a, _. rewrite run_request, E.
  split; [done|]. split; [by eapply HP|]. split; [eexists; split; [done|by constructor]|]. by split.
Qed.
Ltac asked := match goal with |- silent (ask ?c) _ => apply (silent_ask c (fun _ => True)); [done|by intros] end.
Lemma silent_update {A} (f : shared -> A * shared) (P : A -> Prop) :
  (forall s, P (f s).1 /\ (next_cell s <= next_cell (f s).2)%N /\
             forall c, (c < next_cell s)%N -> flags (f s).2 !! c = flags s !! c /\ owned (f s).2 !! c = owned s !! c) -> silent (update f) P.
Proof.
  intros H w. destruct (H (cells w)) as (HP & Hn & Hc). exists (f (cells w)).1, (MkWorld (f (cells w)).2 (trace w)).
  unfold update. cbn [run]. destruct (f (cells w)) as [a s]. simpl in *. split; [done|]. split; [done|].
  split; [exists []; by rewrite app_nil_r|]. split; [split; [done|]|]; intros c L; [intros _|]; by apply Hc.
Qed.
Lemma silent_gets {A} (f : shared -> A) : silent (gets f) (fun _ => True).
Proof. intros w. exists (f (cells w)), w. split; [done|]. split; [done|apply silent_to_refl]. Qed.

Lemma silent_report db ctx e : silent (reportExtensionError db ctx e) (fun _ => True).
Proof. unfold reportExtensionError. destruct (extensionErrorHandler db); [asked|by apply silent_ret]. Qed.
Lemma silent_start db ctx o : silent (startInvocation db ctx o) (fun _ => True).
Proof.
  unfold startInvocation. eapply silent_bind; [asked|]. intros now _. generalize (MkInvocation [] [] now). revert ctx.
  induction (invocationObservers db) as [|x l IH]; intros ctx i; [by apply silent_ret|]. cbn [start_loop].
  eapply silent_bind; [asked|]. intros [derived completion] _. apply IH.
Qed.
Lemma silent_complete db i o phase ctx err n early : silent (completeInvocation db i o phase ctx err n early) (fun _ => True).
Proof.
  unfold completeInvocation. eapply silent_bind; [asked|]. intros now _.
  induction (rev _) as [|[[c|] cctx] l IH]; cbn [complete_loop]; [by apply silent_ret| |done].
  eapply silent_bind; [asked|]. intros [e|] _; (eapply silent_bind; [|by intros _ _; apply IH]);
    [apply silent_report|apply silent_skip].
Qed.
Lemma silent_observe db ctx o err : silent (observe db ctx o err) (fun _ => True).
Proof.
  unfold observe. induction (observers db) as [|x l IH]; cbn [observe_loop]; [by apply silent_ret|].
  eapply silent_bind; [asked|]. intros [e|] _; (eapply silent_bind; [|by intros _ _; apply IH]);
    [apply silent_report|apply silent_skip].
Qed.
Lemma silent_before db ctx o : silent (beforeHooks db ctx o) (fun r => r.2 = None).
Proof.
  unfold beforeHooks. generalize (@nil N). induction (hooks db) as [|h l IH]; intros entered; cbn [before_loop]; [by apply silent_ret|].
  eapply silent_bind.
  - apply (silent_ask (Before h ctx o) (fun r => r = None)); [done|]. intros t a E. destruct (Henv t (Before h ctx o)) as (_ & H). simpl in H. congruence.
  - intros a ->. apply IH.
Qed.
Lemma silent_after db ctx o entered err : silent (afterHooks db ctx o entered err) (fun r => r = None).
Proof.
  unfold afterHooks. induction (rev entered) as [|h l IH]; cbn [after_loop]; [by apply silent_ret|].
  eapply silent_bind.
  - apply (silent_ask (After h ctx o err) (fun r => r = None)); [done|]. intros t a E. destruct (Henv t (After h ctx o err)) as (_ & H). simpl in H. congruence.
  - intros a ->. apply IH.
Qed.

(** ** What a program runs to *)
Definition runs {A} (p : M A) (w : W) (Q : outcome A -> W -> Prop) : Prop := Q (run env p w).1 (run env p w).2.
Lemma runs_ret {A} (a : A) w (Q : outcome A -> W -> Prop) : Q (Done a) w -> runs (Ret a) w Q.
Proof. done. Qed.
Lemma runs_bind {A B} (p : M A) (f : A -> M B) w (R : outcome A -> W -> Prop) (Q : outcome B -> W -> Prop) :
  runs p w R ->
  (forall a w', R (Done a) w' -> runs (f a) w' Q) ->
  (forall v w', R (Panicked v) w' -> Q (Panicked v) w') ->
  (forall w', R Blocked w' -> Q Blocked w') -> runs (bind p f) w Q.
Proof.
  unfold runs. intros Hp Hd Hv Hb. rewrite run_bind. destruct (run env p w) as [[a|v|] w']; simpl in *; auto.
Qed.
Lemma runs_silent {A B} (p : M A) (f : A -> M B) w P (Q : outcome B -> W -> Prop) :
  silent p P -> (forall a w', P a -> silent_to w w' -> runs (f a) w' Q) -> runs (bind p f) w Q.
Proof. unfold runs. intros Hp Hf. destruct (Hp w) as (a & w' & E & Ha & Hw). rewrite run_bind, E. by apply Hf. Qed.
Lemma runs_mono {A} (p : M A) w (R Q : outcome A -> W -> Prop) : (forall o w', R o w' -> Q o w') -> runs p w R -> runs p w Q.
Proof. unfold runs. auto. Qed.
Lemma runs_try {A} (p : M A) w (Q : outcome (A + panic_value) -> W -> Prop) :
  runs p w (fun o w' => Q (match o with Done a => Done (inl a) | Panicked v => Done (inr v) | Blocked => Blocked end) w') -> runs (try p) w Q.
Proof. unfold runs. intros H. rewrite run_try. by destruct (run env p w) as [[a|v|] w']. Qed.
(** ** The token and the events *)
(** The token, if there is one, is taken or free. *)
Definition token (b : option N) (taken : bool) (w : W) : Prop :=
  match b with None => True | Some b => (b < next_cell (cells w))%N /\ flags (cells w) !! b = Some taken end.
Lemma token_same x b taken w w' : (forall c, b = Some c -> x <> Some c) -> token b taken w -> same_cells x w w' -> token b taken w'.
Proof.
  unfold token. destruct b as [b|]; [|done]. intros Hx [L H] [L' H']. split; [lia|]. rewrite H'; [done|done|].
  intros E. by destruct (Hx b).
Qed.
Lemma runs_acquire {B} b (f : bool -> M B) w (Q : outcome B -> W -> Prop) :
  token b false w -> (forall w', trace w' = trace w -> same_rows w w' -> same_cells b w w' -> token b true w' -> runs (f true) w' Q) ->
  runs (bind (try_acquire b) f) w Q.
Proof.
  unfold runs. rewrite run_bind. destruct b as [b|]; simpl.
  - intros [L H] HQ. rewrite H. simpl. apply HQ; [done|done| |].
    + split; [done|]. intros c _ Hc. simpl. rewrite lookup_insert_ne; [done|congruence].
    + split; [done|]. simpl. by rewrite lookup_insert_eq.
  - intros _ HQ. by apply HQ.
Qed.
Lemma runs_give_back {B} b (f : unit -> M B) w (Q : outcome B -> W -> Prop) :
  token b true w -> (forall w', trace w' = trace w -> same_rows w w' -> same_cells b w w' -> token b false w' -> runs (f tt) w' Q) ->
  runs (bind (give_back b) f) w Q.
Proof.
  unfold runs. rewrite run_bind. destruct b as [b|]; simpl.
  - intros [L H] HQ. rewrite H. simpl. apply HQ; [done|done| |].
    + split; [done|]. intros c _ Hc. simpl. rewrite lookup_insert_ne; [done|congruence].
    + split; [done|]. simpl. by rewrite lookup_insert_eq.
  - intros _ HQ. by apply HQ.
Qed.
Lemma silent_eventError ctx h e : silent (reportEventError ctx h e) (fun _ => True).
Proof.
  unfold reportEventError. destruct h as [h|]; [|apply silent_skip].
  eapply silent_bind; [eapply silent_try; asked|]. intros r _. apply silent_skip.
Qed.
Lemma silent_startEvent db ctx e : silent (startEvent db ctx e) (fun _ => True).
Proof.
  unfold startEvent. generalize (@nil N). revert ctx.
  induction (eventObservers db) as [|x l IH]; intros ctx done; cbn [start_events]; [apply silent_skip|].
  eapply silent_bind; [eapply silent_try; asked|]. intros r ([derived completion] & -> & _). apply IH.
Qed.
Lemma silent_completeEvent ctx c e : silent (completeEvent ctx c e) (fun _ => True).
Proof.
  unfold completeEvent. induction (rev _) as [|x l IH]; cbn [complete_events]; [apply silent_skip|].
  eapply silent_bind; [eapply silent_try; asked|]. intros r (err & -> & _).
  eapply silent_bind; [|intros _ _; apply IH]. simpl. destruct err; [apply silent_eventError|apply silent_skip].
Qed.
Lemma silent_eventID : silent nextEventID (fun _ => True).
Proof. unfold nextEventID. eapply silent_bind; [by apply (silent_update _ (fun _ => True))|]. intros; apply silent_skip. Qed.
Lemma silent_counter c : silent (own_counter c) (fun _ => True).
Proof.
  destruct c as [c|]; [apply silent_skip|]. apply (silent_update _ (fun _ => True)). intros s. simpl. split; [done|]. split; [lia|done].
Qed.
(** A new flag is none of those that exist. *)
Lemma runs_new_flag {B} (f : N -> M B) w (Q : outcome B -> W -> Prop) :
  (forall c w', trace w' = trace w -> same_rows w w' -> same_cells None w w' -> (next_cell (cells w) <= c)%N -> token (Some c) false w' -> runs (f c) w' Q) ->
  runs (bind new_flag f) w Q.
Proof.
  intros HQ. unfold runs, new_flag, update. cbn [bind run]. apply HQ; [done| | |simpl; lia|].
  - intros x L. done.
  - split; [simpl; lia|]. intros c L _. simpl. rewrite lookup_insert_ne; [done|lia].
  - split; simpl; [lia|]. by rewrite lookup_insert_eq.
Qed.
Lemma runs_first_time {B} c (f : bool -> M B) w (Q : outcome B -> W -> Prop) :
  (forall w', trace w' = trace w -> same_rows w w' -> same_cells (Some c) w w' -> flags (cells w') !! c = Some true ->
     runs (f (negb (default false (flags (cells w) !! c)))) w' Q) -> runs (bind (first_time c) f) w Q.
Proof.
  intros HQ. unfold runs, first_time, update. cbn [bind run]. apply HQ; [done|done| |simpl; by rewrite lookup_insert_eq].
  split; [done|]. intros x _ Hx. simpl. rewrite lookup_insert_ne; [done|congruence].
Qed.
End Quiet.
Arguments runs_bind {env A B} p f w R Q.
Arguments runs_mono {env A} p w R Q.
Arguments runs_try {env A} p w Q.
Arguments runs_silent {env A B} p f w P Q.
Arguments silent_update {env A} f P.
Arguments silent_ret {env A} a P.
Arguments silent_bind {env A B} p f P Q.
