(* ===== verification/ExecAtomic.v ===== *)
(** * ExecAtomic: scopes are all or nothing

    [Atomic] and [Within] over a database that keeps savepoints: the work of a
    callback that fails or panics leaves no trace, whatever scopes it nests. *)

From S2P Require Import Prelude GoText Schema Query Render Dialect Page Typed GraphKey Prog Exec ExecScope ExecQuiet.
Open Scope string_scope.
Open Scope list_scope.
Open Scope nat_scope.
Open Scope prog_scope.

(** ** A database with savepoints *)
Record database (S : Type) := MkDatabase { committed : S; session : option (N * S * list (string * S)); opened : N }.
Arguments MkDatabase {S} committed session opened.
Arguments committed {S} d.
Arguments session {S} d.
Arguments opened {S} d.

Definition after_prefix (s p : string) : string := sdrop (String.length p) s.
Definition tx_done : error := errors_New ErrTxDone.
Definition unknown_savepoint : error := errors_New "no such savepoint".

Section Database.
(** What a statement does to the data, or its error; whether the server
    refuses to begin or to commit. *)
Context {S : Type}.
Variable apply : Statement -> S -> error + S.
Variables begin_fails commit_fails : S -> option error.

Definition dropto (name : string) : list (string * S) -> list (string * S) :=
  fix go l := match l with [] => [] | p :: l' => if String.eqb p.1 name then l else go l' end.
Definition in_session (s : Statement) (cur : S) (stack : list (string * S)) : error + (S * list (string * S)) :=
  if HasPrefix (SQL s) "SAVEPOINT " then inr (cur, (after_prefix (SQL s) "SAVEPOINT ", cur) :: stack)
  else if HasPrefix (SQL s) "ROLLBACK TO SAVEPOINT " then
    match dropto (after_prefix (SQL s) "ROLLBACK TO SAVEPOINT ") stack with
    | (n, saved) :: l => inr (saved, (n, saved) :: l)
    | [] => inl unknown_savepoint
    end
  else if HasPrefix (SQL s) "RELEASE SAVEPOINT " then
    match dropto (after_prefix (SQL s) "RELEASE SAVEPOINT ") stack with
    | _ :: l => inr (cur, l)
    | [] => inl unknown_savepoint
    end
  else match apply s cur with inl e => inl e | inr cur => inr (cur, stack) end.
(** A call: what the database answers, and what it is afterwards. *)
Definition serve (c : call) (d : database S) : answer c * database S :=
  match c as c return answer c * database S with
  | BeginTx h _ _ =>
      match h, session d, begin_fails (committed d) with
      | OtherHandle _ _, None, None => ((Some (opened d), None), MkDatabase (committed d) (Some (opened d, committed d, [])) (opened d + 1))
      | _, _, Some e => ((None, Some e), d)
      | _, _, _ => ((None, Some (errors_New "cannot begin")), d)
      end
  | TxCommit t =>
      match session d with
      | Some (t', cur, _) =>
          if (t =? t')%N then
            match commit_fails cur with
            | None => (None, MkDatabase cur None (opened d))
            | Some e => (Some e, MkDatabase (committed d) None (opened d))
            end
          else (Some tx_done, d)
      | None => (Some tx_done, d)
      end
  | TxRollback t =>
      match session d with
      | Some (t', _, _) => if (t =? t')%N then (None, MkDatabase (committed d) None (opened d)) else (Some tx_done, d)
      | None => (Some tx_done, d)
      end
  | ExecContext h _ s =>
      match h, session d with
      | SqlTx t, Some (t', cur, stack) =>
          if (t =? t')%N then
            match in_session s cur stack with
            | inl e => ((None, Some e), d)
            | inr (cur, stack) => ((Some 0%N, None), MkDatabase (committed d) (Some (t', cur, stack)) (opened d))
            end
          else ((None, Some tx_done), d)
      | _, _ => ((None, Some tx_done), d)
      end
  | QueryContext _ _ _ => ((None, None), d)
  | RowsColumns _ => (([], None), d)
  | RowsNext _ => (false, d)
  | RowsScan _ => (([], None), d)
  | Start _ _ _ => ((None, None), d)
  | StartEvent _ _ _ => ((None, None), d)
  | HandleExtensionError _ _ _ => (tt, d)
  | Now => (0%Z, d)
  | RowsAffected _ => ((0%Z, None), d)
  | Certainty _ _ => (0%N, d)
  | RowsErr _ | RowsClose _ | Before _ _ _ | After _ _ _ _ | Observe _ _ _ _ | Complete _ _ _ | CompleteEvent _ _ _ | ContextErr _ => (None, d)
  end.
(** The database after the calls of a trace. *)
Variable start : database S.
Definition database_after (t : list (step answer (panic := panic_value))) : database S :=
  fold_left (fun d st => if is_driver (st_call st) then (serve (st_call st) d).2 else d) t start.
(** The driver answers for the database, and the rest is [permitting]. *)
Definition served (env : environment answer (panic := panic_value)) : Prop :=
  permitting env /\ forall t c, is_driver c = true -> env t c = Returns (serve c (database_after t)).1.

(** ** Programs that do not touch the database *)
Variable env : environment answer (panic := panic_value).
Hypothesis Henv : served env.
Abbreviation W := (world answer (state := shared) (panic := panic_value)).
Abbreviation base w := (database_after (trace w)).
Abbreviation runs := (runs env).
Definition quiet_to (w w' : W) : Prop := base w' = base w /\ same_cells None w w'.
Lemma quiet_to_refl w : quiet_to w w.
Proof. split; [done|apply same_cells_refl]. Qed.
Lemma quiet_to_trans w1 w2 w3 : quiet_to w1 w2 -> quiet_to w2 w3 -> quiet_to w1 w3.
Proof. intros [E1 H1] [E2 H2]. split; [congruence|by eapply same_cells_trans]. Qed.
Lemma database_silent t t' : Forall (fun st => is_driver (st_call st) = false) t' -> database_after (t ++ t') = database_after t.
Proof.
  intros H. unfold database_after. rewrite fold_left_app. generalize (fold_left (fun d st => if is_driver (st_call st) then (serve (st_call st) d).2 else d) t start).
  induction H as [|st l Hst _ IH]; intros d; [done|]. cbn [fold_left]. by rewrite Hst.
Qed.
Lemma database_driver t c r : is_driver c = true -> database_after (t ++ [MkStep c r]) = (serve c (database_after t)).2.
Proof. intros H. unfold database_after. rewrite fold_left_app. cbn [fold_left st_call]. by rewrite H. Qed.
Lemma silent_quiet w w' : silent_to w w' -> quiet_to w w'.
Proof. intros ((t & E & F) & H & _). split; [|done]. by rewrite E, database_silent. Qed.
Lemma runs_quiet {A B} (p : M A) (f : A -> M B) w P (Q : outcome B -> W -> Prop) :
  silent env p P -> (forall a w', P a -> quiet_to w w' -> runs (f a) w' Q) -> runs (bind p f) w Q.
Proof. intros Hp Hf. eapply runs_silent; [exact Hp|]. intros a w' Ha Hw. by apply Hf, silent_quiet. Qed.
Lemma Hpermits : permitting env.
Proof. apply Henv. Qed.
Lemma runs_driver {B} c (f : answer c -> M B) w (Q : outcome B -> W -> Prop) :
  is_driver c = true ->
  (forall w', base w' = (serve c (base w)).2 -> same_cells None w w' -> runs (f (serve c (base w)).1) w' Q) -> runs (bind (ask c) f) w Q.
Proof.
  intros Hc HQ. unfold ExecQuiet.runs, ask. rewrite run_bind, run_request. destruct Henv as (_ & H). rewrite (H _ _ Hc). cbn [fst snd]. apply HQ.
  - exact (database_driver _ _ _ Hc).
  - by split.
Qed.

(** The cells, as the database's part of a world sees them. *)
Lemma base_acquire {B} b (f : bool -> M B) w (Q : outcome B -> W -> Prop) :
  token b false w -> (forall w', base w' = base w -> same_cells b w w' -> token b true w' -> runs (f true) w' Q) ->
  runs (bind (try_acquire b) f) w Q.
Proof. intros Ht HQ. apply runs_acquire; [done|]. intros w' E _ Sw T. apply HQ; [by rewrite E|done..]. Qed.
Lemma base_give_back {B} b (f : unit -> M B) w (Q : outcome B -> W -> Prop) :
  token b true w -> (forall w', base w' = base w -> same_cells b w w' -> token b false w' -> runs (f tt) w' Q) ->
  runs (bind (give_back b) f) w Q.
Proof. intros Ht HQ. apply runs_give_back; [done|]. intros w' E _ Sw T. apply HQ; [by rewrite E|done..]. Qed.
Lemma base_new_flag {B} (f : N -> M B) w (Q : outcome B -> W -> Prop) :
  (forall c w', base w' = base w -> same_cells None w w' -> (next_cell (cells w) <= c)%N -> token (Some c) false w' -> runs (f c) w' Q) ->
  runs (bind new_flag f) w Q.
Proof. intros HQ. apply runs_new_flag. intros c w' E _ Sw L T. apply HQ; [by rewrite E|done..]. Qed.
Lemma base_first_time {B} c (f : bool -> M B) w (Q : outcome B -> W -> Prop) :
  (forall first w', base w' = base w -> same_cells (Some c) w w' -> runs (f first) w' Q) -> runs (bind (first_time c) f) w Q.
Proof. intros HQ. apply runs_first_time. intros w' E _ Sw _. apply HQ; [by rewrite E|done]. Qed.

(** The driver's answer as [execRendered] reports it. *)
Definition exec_error (e : error) : error := Errorf "rasql: execute statement: %w" [AErr e].
Lemma runs_exec db ctx s h w :
  validStatement db s = Ok h ->
  runs (execRendered db ctx s) w (fun o w' => exists c,
    let '(a, d) := serve (ExecContext h c s) (base w) in
    o = Done (a.1, option_map exec_error a.2) /\ base w' = d /\ same_cells None w w').
Proof.
  intros Hv. unfold execRendered. rewrite Hv. unfold around.
  set (Q := fun (o : outcome (option N * option error)) (w' : W) => _).
  eapply (runs_bind _ _ _ (fun o w' => match o with Done (_, out) => Q (Done out) w' | Panicked v => Q (Panicked v) w' | Blocked => Q Blocked w' end));
    [|by intros [c out]|done|done].
  eapply runs_quiet; [apply (silent_start _ Hpermits)|]. intros [c i] w1 _ [E1 S1].
  eapply runs_quiet; [apply (silent_before _ Hpermits)|]. intros [entered refused] w2 E [E2 S2]. simpl in E. subst refused.
  apply runs_driver; [done|]. intros w3 E3 S3. destruct (serve (ExecContext h c s) (base w2)).1 as [result driverErr] eqn:Ea.
  eapply runs_quiet; [apply (silent_observe _ Hpermits)|]. intros [] w4 _ [E4 S4].
  eapply runs_quiet; [apply (silent_complete _ Hpermits)|]. intros [] w5 _ [E5 S5].
  eapply runs_quiet; [apply (silent_after _ Hpermits)|]. intros x w6 -> [E6 S6].
  apply runs_ret. unfold Q. exists c. rewrite E2, E1 in Ea, E3. destruct (serve (ExecContext h c s) (base w)) as [a d]. simpl in *. subst a.
  split; [done|]. split; [congruence|].
  eapply same_cells_trans; [exact S1|]. eapply same_cells_trans; [exact S2|]. eapply same_cells_trans; [exact S3|].
  eapply same_cells_trans; [exact S4|]. by eapply same_cells_trans.
Qed.

(** ** Savepoints *)
Definition scoped_dialect (d : Dialect) : Prop :=
  d_Supports d CapabilitySavepoint = true /\ forall n, exists q, d_QuoteIdentifier d ("rasql_sp_" +:+ FormatUint36 n) = Ok q.
Definition in_tx (db : DB) (t : N) : Prop :=
  handle db = Some (SqlTx t) /\ tx db = Some t /\ exists d, dialect db = Some d /\ scoped_dialect d.
(** The data, the savepoints and nothing else of the database differ. *)
Definition at_work (t : N) (cur : S) (stack : list (string * S)) (w w' : W) : Prop :=
  base w' = MkDatabase (committed (base w)) (Some (t, cur, stack)) (opened (base w)).
Lemma after_prefix_app p s : after_prefix (p +:+ s) p = s.
Proof. unfold after_prefix. by rewrite sdrop_app. Qed.
Lemma statement_valid db t c s : in_tx db t -> never_space c = true -> validStatement db (plain (String c s)) = Ok (SqlTx t).
Proof.
  intros (Hh & _ & d & Hd & _) Hc. unfold validStatement, db_valid. rewrite Hh, Hd. cbn [SQL plain]. by rewrite TrimSpace_started.
Qed.
Lemma serve_session t ctx s d cur stack :
  session d = Some (t, cur, stack) ->
  serve (ExecContext (SqlTx t) ctx s) d =
  match in_session s cur stack with
  | inl e => ((None, Some e), d)
  | inr (cur, stack) => ((Some 0%N, None), MkDatabase (committed d) (Some (t, cur, stack)) (opened d))
  end.
Proof. intros H. cbn [serve]. by rewrite H, N.eqb_refl. Qed.
(** A control statement the database accepts. *)
Lemma runs_control db ctx t c sql w cur stack cur' stack' :
  in_tx db t -> session (base w) = Some (t, cur, stack) -> never_space c = true ->
  in_session (plain (String c sql)) cur stack = inr (cur', stack') ->
  runs (control db ctx (String c sql)) w
    (fun o w' => o = Done None /\ at_work t cur' stack' w w' /\ same_cells None w w').
Proof.
  intros Hdb Hs Hc Hi.
  eapply runs_bind; [eapply runs_exec; by eapply statement_valid|cbv beta; intros..].
  - destruct H as [x H]. rewrite (serve_session t x _ _ cur stack Hs), Hi in H.
    destruct a as [r err]. destruct H as ([= -> ->] & Hb & Hsame). by apply runs_ret.
  - destruct H as [x H]. destruct (serve _ _). by destruct H.
  - destruct H as [x H]. destruct (serve _ _). by destruct H.
Qed.
Lemma runs_release db ctx t name w cur saved stack :
  in_tx db t -> session (base w) = Some (t, cur, (name, saved) :: stack) ->
  runs (atomicReleaseSavepoint db ctx name) w (fun o w' => o = Done None /\ at_work t cur stack w w' /\ same_cells None w w').
Proof.
  intros Hdb Hs. eapply runs_control; [done..|].
  change (in_session (plain ("RELEASE SAVEPOINT " +:+ name)) cur ((name, saved) :: stack) = inr (cur, stack)).
  unfold in_session. cbn [SQL plain]. rewrite HasPrefix_app, after_prefix_app.
  change (HasPrefix ("RELEASE SAVEPOINT " +:+ name) "SAVEPOINT ") with false.
  change (HasPrefix ("RELEASE SAVEPOINT " +:+ name) "ROLLBACK TO SAVEPOINT ") with false.
  cbn [dropto fst]. by rewrite String.eqb_refl.
Qed.
Lemma runs_rollback_to db ctx t name w cur saved stack :
  in_tx db t -> session (base w) = Some (t, cur, (name, saved) :: stack) ->
  runs (atomicRollbackSavepoint db ctx name) w
    (fun o w' => o = Done None /\ at_work t saved ((name, saved) :: stack) w w' /\ same_cells None w w').
Proof.
  intros Hdb Hs. eapply runs_control; [done..|].
  change (in_session (plain ("ROLLBACK TO SAVEPOINT " +:+ name)) cur ((name, saved) :: stack) = inr (saved, (name, saved) :: stack)).
  unfold in_session. cbn [SQL plain]. rewrite HasPrefix_app, after_prefix_app.
  change (HasPrefix ("ROLLBACK TO SAVEPOINT " +:+ name) "SAVEPOINT ") with false.
  cbn [dropto fst]. by rewrite String.eqb_refl.
Qed.
Lemma runs_undo db ctx t name w cur saved stack :
  in_tx db t -> session (base w) = Some (t, cur, (name, saved) :: stack) ->
  runs (undo_savepoint db ctx name) w (fun o w' => o = Done None /\ at_work t saved stack w w' /\ same_cells None w w').
Proof.
  intros Hdb Hs. unfold undo_savepoint.
  eapply runs_bind; [by eapply runs_rollback_to| |by intros ? ? []|by intros ? []].
  intros e1 w1 ([= ->] & H1 & S1). eapply runs_bind; [eapply runs_release; [done|by rewrite H1]| |by intros ? ? []|by intros ? []].
  intros e2 w2 ([= ->] & H2 & S2). apply runs_ret. split; [done|]. split; [|by eapply same_cells_trans].
  unfold at_work in *. by rewrite H2, H1.
Qed.
Lemma runs_open db ctx t w cur stack unsupported :
  in_tx db t -> session (base w) = Some (t, cur, stack) ->
  runs (open_savepoint db ctx unsupported) w
    (fun o w' => exists name, o = Done (Ok name) /\ at_work t cur ((name, cur) :: stack) w w' /\ same_cells None w w').
Proof.
  intros Hdb Hs. destruct (Hdb) as (_ & _ & d & Hd & Hsup & Hq). unfold open_savepoint. rewrite Hd, Hsup. cbn [negb].
  eapply runs_quiet.
  { unfold atomicSavepointName. eapply silent_bind; [by apply (silent_update _ (fun _ => True))|]. intros n _. rewrite Hd.
    destruct (Hq n) as [q ->]. apply (silent_ret _ (fun r => exists name, r = Ok name)). by exists q. }
  intros r w1 [name ->] [E1 S1].
  eapply runs_bind; [eapply (runs_control db ctx t "S" ("AVEPOINT " +:+ name)); [done|by rewrite E1|done|]| |by intros ? ? []|by intros ? []].
  { unfold in_session. change (plain (String "S" ("AVEPOINT " +:+ name))) with (plain ("SAVEPOINT " +:+ name)). cbn [SQL plain].
    rewrite HasPrefix_app, after_prefix_app. done. }
  intros [e|] w2 (E & H2 & S2); [done|]. apply runs_ret. exists name. split; [done|]. split; [|by eapply same_cells_trans].
  unfold at_work in *. by rewrite H2, E1.
Qed.

(** ** Callbacks and what they mean *)
Inductive ending := Succeeds | Fails | Throws (v : panic_value).
Definition ends (e : ending) (o : outcome (option error)) : Prop :=
  match e, o with
  | Succeeds, Done None => True
  | Fails, Done (Some _) => True
  | Throws v, Panicked v' => v = v'
  | _, _ => False
  end.
(** The token of the handle is free. *)
Definition idle (db : DB) (w : W) : Prop := token (busy db) false w.
(** A callback does inside a transaction what [sem] says of its data. *)
Definition implements (fn : AtomicFunc) (sem : S -> ending * S) : Prop :=
  forall ctx db t w cur stack, in_tx db t -> idle db w -> session (base w) = Some (t, cur, stack) ->
  runs (fn ctx db) w (fun o w' => ends (sem cur).1 o /\ at_work t (sem cur).2 stack w w' /\ idle db w' /\
                                  (next_cell (cells w) <= next_cell (cells w'))%N).
(** All of the work, or none. *)
Definition atomically (sem : S -> ending * S) (cur : S) : ending * S :=
  match sem cur with (Succeeds, cur') => (Succeeds, cur') | (e, _) => (e, cur) end.
Definition nested (scope : Context -> DB -> AtomicFunc -> M (option error)) (fn : AtomicFunc) : AtomicFunc :=
  fun ctx db => scope ctx db fn.

Lemma idle_same db w w' : idle db w -> same_cells None w w' -> idle db w'.
Proof. by apply token_same. Qed.
Lemma at_work_session t cur stack w w' : at_work t cur stack w w' -> session (base w') = Some (t, cur, stack).
Proof. unfold at_work. by intros ->. Qed.
Lemma at_work_trans t cur stack cur' stack' w1 w2 w3 :
  at_work t cur stack w1 w2 -> at_work t cur' stack' w2 w3 -> at_work t cur' stack' w1 w3.
Proof. unfold at_work. intros E1 E2. by rewrite E2, E1. Qed.
Lemma at_work_quiet t cur stack w1 w2 w3 : at_work t cur stack w1 w2 -> quiet_to w2 w3 -> at_work t cur stack w1 w3.
Proof. unfold at_work. intros E1 [E2 _]. by rewrite E2. Qed.
Lemma same_cells_next x w w' : same_cells x w w' -> (next_cell (cells w) <= next_cell (cells w'))%N.
Proof. by intros [L _]. Qed.

(** How a callback ended, its panics recovered. *)
Definition returned (e : ending) (r : option error + panic_value) : Prop :=
  match e, r with Succeeds, inl None => True | Fails, inl (Some _) => True | Throws v, inr v' => v = v' | _, _ => False end.
Lemma runs_callback fn sem ctx db t w cur stack :
  implements fn sem -> in_tx db t -> idle db w -> session (base w) = Some (t, cur, stack) ->
  runs (try (fn ctx db)) w (fun o w' => exists r, o = Done r /\ returned (sem cur).1 r /\ at_work t (sem cur).2 stack w w' /\
                                        idle db w' /\ (next_cell (cells w) <= next_cell (cells w'))%N).
Proof.
  intros Hfn Hdb Hi Hs. apply runs_try. eapply runs_mono; [|by eapply (Hfn ctx db)].
  intros o w2 (Ho & H2). destruct (sem cur) as [[| |v] cur']; destruct o as [[e|]|v'|]; try done; by eexists.
Qed.
(** The end of a scope, by how its callback ended. *)
Definition settled (e : ending) (t : N) (cur cur' : S) (stack : list (string * S)) (w : W) (o : outcome (panic := panic_value) (option error)) (w' : W) : Prop :=
  ends e o /\ at_work t (match e with Succeeds => cur' | _ => cur end) stack w w' /\ same_cells None w w'.
Lemma nested_atomic fn sem : implements fn sem -> implements (nested (fun ctx db fn => Atomic db ctx None (Some fn)) fn) (atomically sem).
Proof.
  intros Hfn ctx db t w cur stack Hdb Hidle Hs. unfold nested, Atomic, db_valid, IsTransaction.
  destruct (Hdb) as (Hh & Ht & d & Hd & Hsc). rewrite Hh, Hd, Ht. rewrite bool_decide_eq_true_2 by eauto.
  unfold atomicSavepoint. eapply runs_bind; [by eapply runs_open| |by intros ? ? (? & ? & _)|by intros ? (? & ? & _)].
  intros r w1 (name & [= ->] & H1 & S1).
  eapply runs_bind; [eapply (runs_callback fn sem ctx (set_savepointScoped db) t w1 cur ((name, cur) :: stack));
    [done|done|by eapply idle_same|by eapply at_work_session]| |by intros ? ? (? & ? & _)|by intros ? (? & ? & _)].
  intros r w2 (? & [= <-] & Hr & H2 & Hi2 & L2). pose proof (at_work_session _ _ _ _ _ H2) as Hs2.
  assert (at_work t (sem cur).2 ((name, cur) :: stack) w w2) as H12 by (by eapply at_work_trans).
  apply same_cells_next in S1.
  eapply (runs_mono _ _ (fun o w' => settled (sem cur).1 t cur (sem cur).2 stack w2 o w')).
  { intros o w' (Ho & H3 & S3). unfold atomically. assert (at_work t (match (sem cur).1 with Succeeds => (sem cur).2 | _ => cur end) stack w w').
    { unfold at_work in *. by rewrite H3, H12. }
    apply (idle_same (set_savepointScoped db) _ _ Hi2) in S3 as Hi'. apply same_cells_next in S3.
    destruct (sem cur) as [[| |v] cur']; (split_and!; [done..|simpl in *; lia]). }
  destruct (sem cur) as [[| |v] cur'], r as [[err|]|v']; try done; cbn [fst snd] in *.
  - eapply runs_mono; [|by eapply runs_release]. by intros o w3 (-> & H3 & S3).
  - eapply runs_bind; [by eapply runs_undo| |by intros ? ? []|by intros ? []]. by intros c w3 ([= ->] & H3 & S3).
  - simpl in Hr. subst. eapply runs_bind; [by eapply runs_undo| |by intros ? ? []|by intros ? []]. by intros c w3 ([= ->] & H3 & S3).
Qed.

(** ** [Within] *)
(** A scope is open on the data [cur]: its handle is a transaction, and
    [ends_as] says how ending it leaves the world, on whatever was done to the
    data in between.  Rolling back does not fail. *)
Record scope_open (child : DB) (f : ScopeFinalizer) (cur : S) (ends_as : bool -> S -> option error -> W -> Prop) (w : W) : Prop := {
  so_idle : idle child w;
  so_cause : setCause None f = f;
  so_undone : forall cur' e w', ends_as false cur' e w' -> e = None;
  so_end : exists t stack, in_tx child t /\ session (base w) = Some (t, cur, stack) /\
    forall commits cur' cause ctx w', at_work t cur' stack w w' -> idle child w' -> (next_cell (cells w) <= next_cell (cells w'))%N ->
      runs (finalize commits (setCause cause f) ctx) w'
        (fun o w'' => exists e e', o = Done e' /\ (cause = None -> e' = e) /\ ends_as commits cur' e w'') }.
Lemma scope_finishes child f cur ends_as w : scope_open child f cur ends_as w -> exists t stack, in_tx child t /\ session (base w) = Some (t, cur, stack) /\
  forall commits cur' ctx w', at_work t cur' stack w w' -> idle child w' -> (next_cell (cells w) <= next_cell (cells w'))%N ->
    runs (finalize commits f ctx) w' (fun o w'' => exists e, o = Done e /\ ends_as commits cur' e w'').
Proof.
  intros [_ Hc _ (t & stack & Hdb & Hs & Hend)]. exists t, stack. split; [done|]. split; [done|]. intros commits cur' ctx w' H1 H2 H3.
  rewrite <- Hc. eapply runs_mono; [|by apply (Hend commits cur' None ctx w')]. intros o w'' (e & e' & -> & He & H). rewrite (He eq_refl). by exists e.
Qed.
Lemma runs_scope ctx child f fn sem cur ends_as w : implements fn sem -> scope_open child f cur ends_as w ->
  runs (run_scope ctx child f fn) w
    (fun o w' => match (sem cur).1 with
                 | Succeeds => exists e, o = Done e /\ ends_as true (sem cur).2 e w'
                 | e => ends e o /\ exists e', ends_as false (sem cur).2 e' w'
                 end).
Proof.
  intros Hfn Ho. pose proof (scope_finishes _ _ _ _ _ Ho) as (t & stack & Hdb & Hs & Hfin). destruct Ho as [Hi _ Hu (t' & stack' & _ & Hs' & Hend)].
  rewrite Hs in Hs'. injection Hs' as <- <-. unfold run_scope.
  eapply runs_bind; [by eapply (runs_callback fn sem)| |by intros ? ? (? & ? & _)|by intros ? (? & ? & _)].
  intros r w' (? & [= <-] & Hr & H2 & Hi2 & L). pose proof (fun cause c => Hend false (sem cur).2 cause c w' H2 Hi2 L) as Hroll.
  destruct (sem cur) as [[| |v] cur'] eqn:E, r as [[e|]|v']; try done; cbn [fst snd] in *.
  - by apply Hfin.
  - eapply runs_bind; [apply Hroll|cbv beta..].
    + intros c w'' (e' & ? & [= <-] & _ & HR). apply runs_ret. split; [done|by exists e'].
    + by intros ? ? (? & ? & ? & _).
    + by intros ? (? & ? & ? & _).
  - eapply runs_bind; [apply Hroll|cbv beta..].
    + intros c w'' (e' & ? & [= <-] & Hc & HR). rewrite (Hc eq_refl), (Hu _ _ _ HR). unfold runs. cbn [run fst snd]. simpl in Hr. split; [done|by exists e'].
    + by intros ? ? (? & ? & ? & _).
    + by intros ? (? & ? & ? & _).
Qed.
(** A guarded finalizer, whose token is free. *)
Lemma runs_guarded commits f b ctx w (P : outcome (option error) -> W -> Prop) :
  token b false w ->
  (forall w1, base w1 = base w -> same_cells b w w1 -> runs (finalize commits f ctx) w1 (fun o w2 => (exists e, o = Done e) /\ same_cells None w1 w2 /\
     forall w3, base w3 = base w2 -> same_cells b w w3 -> token b false w3 -> P o w3)) ->
  runs (finalize commits (GuardedBy f b) ctx) w P.
Proof.
  intros Ht Hf. cbn [finalize]. apply base_acquire; [done|]. intros w1 E1 S1 T1. cbn [negb]. unfold deferred.
  eapply (runs_bind (try _) _ _ (fun o w2 => exists e, o = Done (inl e) /\ same_cells None w1 w2 /\
     forall w3, base w3 = base w2 -> same_cells b w w3 -> token b false w3 -> P (Done e) w3)).
  - apply runs_try. eapply runs_mono; [|by apply Hf]. intros o w2 ((e & ->) & S2 & H2). by exists e.
  - intros r w2 (e & [= ->] & S2 & H2). apply base_give_back; [by eapply (token_same None); [|exact T1|exact S2]|]. intros w3 E3 S3 T3.
    unfold raise. apply runs_ret. apply H2; [done| |done].
    eapply same_cells_trans; [exact S1|]. eapply same_cells_trans; [by apply same_cells_weaken|done].
  - by intros ? ? (? & ? & _).
  - by intros ? (? & ? & _).
Qed.
(** An observed one reports the scope's end once, and its cause. *)
Lemma runs_observed commits f cause done cctx completion id parent ctx w (P : outcome (option error) -> W -> Prop) :
  runs (finalize commits f ctx) w (fun o w1 => exists e, o = Done e /\
     forall w2, base w2 = base w1 -> same_cells (Some done) w1 w2 ->
       P (Done (match cause with Some c => errors_Join [Some c; e] | None => e end)) w2) ->
  runs (finalize commits (ObservedBy f cause done cctx completion id parent) ctx) w P.
Proof.
  intros Hf. cbn [finalize]. eapply runs_bind; [exact Hf|cbv beta|by intros ? ? (? & ? & _)|by intros ? (? & ? & _)].
  intros e w1 (? & [= <-] & H). apply base_first_time. intros first w2 E2 S2.
  assert (silent env (if first then completeEvent cctx completion
            (terminal_of id parent EventScope 0 0 false match cause with Some c => errors_Join [Some c; e] | None => e end) else Ret tt)
            (fun _ => True)) as Hq by (destruct first; [apply (silent_completeEvent _ Hpermits)|apply silent_skip]).
  eapply runs_quiet; [exact Hq|]. intros [] w3 _ [E3 S3]. apply runs_ret. apply H; [congruence|].
  eapply same_cells_trans; [exact S2|]. by apply same_cells_weaken.
Qed.

(** *** Opening a scope *)
(** A scope and what the event layer makes of it. *)
Definition observes (child : DB) (f : ScopeFinalizer) (child' : DB) (f' : ScopeFinalizer) : Prop :=
  child' = child /\ f' = f \/
  exists id cctx counter done completion parent,
    child' = childEventScope id cctx counter child /\ f' = ObservedBy f None done cctx completion id parent /\
    forall b, busy child = Some b -> b <> done.
Lemma runs_observed_scope db ctx begin_ w (P : DB -> ScopeFinalizer -> W -> Prop) (E : W -> Prop) :
  (forall c w1, quiet_to w w1 -> runs (begin_ c) w1
     (fun o w' => (exists e, o = Done (Err e) /\ E w') \/ exists child f, o = Done (Ok (child, f)) /\ P child f w')) ->
  (forall w1 w2, E w1 -> quiet_to w1 w2 -> E w2) ->
  (forall child f w1 w2, P child f w1 -> quiet_to w1 w2 -> P child f w2) ->
  (forall child f w1, P child f w1 -> token (busy child) false w1) ->
  runs (observed_scope db ctx begin_) w
    (fun o w' => (exists e, o = Done (Err e) /\ E w') \/
                 exists child f child' f', o = Done (Ok (child', f')) /\ P child f w' /\ observes child f child' f').
Proof.
  intros Hb HE HP Ht. unfold observed_scope. destruct (length (eventObservers db) =? 0).
  { eapply runs_mono; [|apply Hb, quiet_to_refl]. intros o w' [H|(child & f & -> & H)]; [by left|right].
    exists child, f, child, f. split; [done|]. split; [done|by left]. }
  eapply runs_quiet; [apply silent_eventID|]. intros id w1 _ Q1.
  eapply runs_quiet; [apply silent_counter|]. intros counter w2 _ Q2.
  eapply runs_quiet; [apply (silent_startEvent _ Hpermits)|]. intros [cctx completion] w3 _ Q3.
  eapply runs_bind; [apply Hb; by eapply quiet_to_trans; [|eapply quiet_to_trans]|cbv beta..].
  - intros r w4 [(e & [= ->] & H4)|(child & f & [= ->] & H4)].
    + eapply runs_quiet; [apply (silent_completeEvent _ Hpermits)|]. intros [] w5 _ Q5. apply runs_ret. left. exists e. split; [done|]. by eapply HE.
    + apply base_new_flag. intros done w5 E5 S5 L5 _. apply runs_ret. right. exists child, f. eexists _, _. split; [done|].
      split; [eapply HP; [done|by split]|]. right. eexists _, _, _, _, _, _. split; [done|]. split; [done|].
      intros b Hbusy. apply Ht in H4. rewrite Hbusy in H4. destruct H4 as [L4 _]. lia.
  - intros v w4 [(e & ? & _)|(? & ? & ? & _)]; done.
  - intros w4 [(e & ? & _)|(? & ? & ? & _)]; done.
Qed.
(** Ending a scope through the event layer. *)
Lemma runs_end_observed child f child' f' commits cause ctx w (P : W -> Prop) (G : option error -> Prop) :
  observes child f child' f' ->
  (forall w1 w2, P w1 -> base w2 = base w1 -> (forall x, (forall b, busy child = Some b -> Some b <> x) -> same_cells x w1 w2 -> P w2)) ->
  (forall c, setCause c f = f) ->
  runs (finalize commits f ctx) w (fun o w1 => exists e, o = Done e /\ G e /\ P w1) ->
  runs (finalize commits (setCause cause f') ctx) w (fun o w1 => exists e e', o = Done e' /\ G e /\ (cause = None -> e' = e) /\ P w1).
Proof.
  intros [[-> ->]|(id & cctx & counter & done & completion & parent & -> & -> & Hd)] HP Hset Hf.
  - rewrite Hset. eapply runs_mono; [|exact Hf]. intros o w1 (e & -> & HG & H1). by exists e, e.
  - cbn [setCause]. apply runs_observed. eapply runs_mono; [|exact Hf]. intros o w1 (e & -> & HG & H1).
    exists e. split; [done|]. intros w2 E2 S2. exists e. eexists. split; [done|]. split; [done|]. split; [by intros ->|].
    eapply HP; [done|done| |exact S2]. intros b Hb. specialize (Hd b Hb). congruence.
Qed.

Lemma runs_savepoint_guarded db ctx t w cur stack :
  in_tx db t -> idle db w -> session (base w) = Some (t, cur, stack) ->
  runs (beginSavepointGuarded db ctx) w (fun o w' => exists name,
    o = Done (Ok (set_busy (busy db) db, GuardedBy (OfSavepoint db (atomicCleanupContext ctx) name) (busy db))) /\
    at_work t cur ((name, cur) :: stack) w w' /\ idle db w' /\ (next_cell (cells w) <= next_cell (cells w'))%N).
Proof.
  intros Hdb Hi Hs. unfold beginSavepointGuarded. apply base_acquire; [exact Hi|]. intros w1 E1 S1 T1. cbn [negb].
  destruct (Hdb) as (_ & Ht & _). unfold beginSavepoint, IsTransaction. rewrite Ht, bool_decide_eq_true_2 by eauto. cbn [negb].
  eapply (runs_bind _ _ _ (fun o w2 => exists name, o = Done (Ok (db, OfSavepoint db (atomicCleanupContext ctx) name)) /\
            at_work t cur ((name, cur) :: stack) w1 w2 /\ same_cells None w1 w2)).
  { eapply runs_bind; [eapply runs_open; [done|by rewrite E1]| |by intros ? ? (? & ? & _)|by intros ? (? & ? & _)].
    intros r w2 (name & [= ->] & H2 & S2). apply runs_ret. by exists name. }
  - intros r w2 (name & [= ->] & H2 & S2). apply base_give_back; [by eapply (token_same None); [|exact T1|exact S2]|].
    intros w3 E3 S3 T3. apply runs_ret. exists name. split; [done|]. split; [unfold at_work in *; by rewrite E3, H2, E1|].
    split; [exact T3|]. apply same_cells_next in S1, S2, S3. lia.
  - by intros ? ? (? & ? & _).
  - by intros ? (? & ? & _).
Qed.
Lemma runs_end_savepoint commits db cctx name ctx t cur saved stack w :
  in_tx db t -> idle db w -> session (base w) = Some (t, cur, (name, saved) :: stack) ->
  runs (finalize commits (GuardedBy (OfSavepoint db cctx name) (busy db)) ctx) w
    (fun o w' => exists e, o = Done e /\ e = None /\ at_work t (if commits then cur else saved) stack w w' /\ idle db w' /\
                 (next_cell (cells w) <= next_cell (cells w'))%N).
Proof.
  intros Hdb Hi Hs. apply runs_guarded; [exact Hi|]. intros w1 E1 S1.
  assert (session (base w1) = Some (t, cur, (name, saved) :: stack)) as Hs1 by (by rewrite E1).
  assert (runs (finalize commits (OfSavepoint db cctx name) ctx) w1
            (fun o w' => o = Done None /\ at_work t (if commits then cur else saved) stack w1 w' /\ same_cells None w1 w')) as Hf.
  { cbn [finalize]. destruct commits; [by eapply runs_release|by eapply runs_undo]. }
  eapply runs_mono; [|exact Hf]. intros o w2 (-> & H2 & S2). split; [by exists None|]. split; [done|].
  intros w3 E3 S3 T3. exists None. split; [done|]. split; [done|]. split; [unfold at_work in *; by rewrite E3, H2, E1|].
  split; [exact T3|]. by apply same_cells_next in S3.
Qed.
Lemma observes_tx child f child' f' t : observes child f child' f' -> in_tx child t -> in_tx child' t /\ (forall w, idle child w <-> idle child' w).
Proof. intros [[-> ->]|(? & ? & ? & ? & ? & ? & -> & _)]; done. Qed.

Lemma observes_cause child f child' f' : observes child f child' f' -> setCause None f = f -> setCause None f' = f'.
Proof. by intros [[-> ->]|(? & ? & ? & ? & ? & ? & -> & -> & _)]. Qed.
(** Ending a savepoint of the transaction [t]. *)
Definition savepoint_end (db : DB) (t : N) (cur : S) (stack : list (string * S)) (w : W) (commits : bool) (cur' : S) (e : option error) (w' : W) : Prop :=
  e = None /\ at_work t (if commits then cur' else cur) stack w w' /\ idle db w' /\ (next_cell (cells w) <= next_cell (cells w'))%N.
Lemma runs_BeginSavepoint_guarded db ctx t w cur stack :
  in_tx db t -> idle db w -> session (base w) = Some (t, cur, stack) ->
  runs (BeginSavepoint db ctx) w (fun o w' => exists name cctx child f, o = Done (Ok (child, f)) /\
    observes (set_busy (busy db) db) (GuardedBy (OfSavepoint db cctx name) (busy db)) child f /\
    at_work t cur ((name, cur) :: stack) w w' /\ idle db w' /\ (next_cell (cells w) <= next_cell (cells w'))%N).
Proof.
  intros Hdb Hidle Hs.
  set (P := fun (child : DB) (f : ScopeFinalizer) (w' : W) => exists name cctx,
              child = set_busy (busy db) db /\ f = GuardedBy (OfSavepoint db cctx name) (busy db) /\
              at_work t cur ((name, cur) :: stack) w w' /\ idle db w' /\ (next_cell (cells w) <= next_cell (cells w'))%N).
  eapply runs_mono; [|eapply (runs_observed_scope _ _ _ _ P (fun _ => False)); [|done|..]].
  - intros o w1 [(? & _ & [])|(child & f & child' & f' & -> & (name & cctx & -> & -> & H1) & Ho)]. by exists name, cctx, child', f'.
  - intros c w1 [E1 S1]. eapply runs_mono; [|eapply runs_savepoint_guarded; [exact Hdb|by eapply idle_same|by rewrite E1]].
    intros o w2 (name & -> & H2 & Hi2 & L2). right. eexists _, _. split; [done|]. exists name. eexists. split; [done|]. split; [done|].
    split; [unfold at_work in *; by rewrite H2, E1|]. split; [done|]. apply same_cells_next in S1. lia.
  - intros child f w1 w2 (name & cctx & -> & -> & H1 & Hi1 & L1) Hq. exists name, cctx. split; [done|]. split; [done|].
    split; [by eapply at_work_quiet|]. destruct Hq as [_ S2]. split; [by eapply idle_same|]. apply same_cells_next in S2. lia.
  - by intros child f w1 (name & cctx & -> & -> & H1 & Hi1 & L1).
Qed.
Lemma runs_BeginSavepoint db ctx t w cur stack :
  in_tx db t -> idle db w -> session (base w) = Some (t, cur, stack) ->
  runs (BeginSavepoint db ctx) w (fun o w' => exists child f, o = Done (Ok (child, f)) /\ scope_open child f cur (savepoint_end db t cur stack w) w').
Proof.
  intros Hdb Hidle Hs. eapply runs_mono; [|by eapply runs_BeginSavepoint_guarded].
  intros o w1 (name & cctx & child' & f' & -> & Ho & H1 & Hi1 & L1).
  destruct (observes_tx _ _ _ _ t Ho Hdb) as [Hdb' Hidle']. exists child', f'. split; [done|].
  constructor; [by apply Hidle'|by eapply observes_cause|by intros ? ? ? []|]. eexists t, _. split; [done|]. split; [by eapply at_work_session|].
  intros commits cur' cause c w' H' Hi' L'. apply Hidle' in Hi'.
  eapply (runs_mono _ _ (fun o w'' => exists e e', o = Done e' /\ e = None /\ (cause = None -> e' = e) /\ savepoint_end db t cur stack w commits cur' None w'')).
  { intros o w'' (e & e' & -> & -> & Hc & H). by exists None, e'. }
  eapply (runs_end_observed _ _ _ _ _ _ _ _ (savepoint_end db t cur stack w commits cur' None) (fun e => e = None)); [exact Ho| |done|].
  - intros w2 w3 (_ & H2 & Hi2 & L2) E3 x Hx S3. split; [done|]. split; [unfold at_work in *; by rewrite E3, H2|]. apply same_cells_next in S3 as L3.
    split; [|lia]. eapply token_same; [|exact Hi2|exact S3]. intros b Hb E. by destruct (Hx b Hb).
  - eapply runs_mono; [|eapply runs_end_savepoint; [exact Hdb|exact Hi'|by eapply at_work_session]].
    intros o w2 (e & -> & -> & H2 & Hi2 & L2). exists None. split; [done|]. split; [done|]. split; [done|].
    split; [eapply at_work_trans; [exact H1|]; by eapply at_work_trans|]. split; [done|]. lia.
Qed.
Lemma nested_within fn sem : implements fn sem -> implements (nested (fun ctx db fn => Within ctx (Some db) None (Some fn)) fn) (atomically sem).
Proof.
  intros Hfn ctx db t w cur stack Hdb Hidle Hs. unfold nested, Within, IsTransaction.
  destruct (Hdb) as (Hh & Ht & Hd). rewrite Ht, bool_decide_eq_true_2 by eauto.
  eapply runs_bind; [by apply (runs_BeginSavepoint db ctx t w cur stack)| |by intros ? ? (? & ? & ? & _)|by intros ? (? & ? & ? & _)].
  intros r w1 (child & f & [= ->] & Ho). eapply runs_mono; [|by eapply runs_scope].
  intros o w' H. unfold atomically. destruct (sem cur) as [[| |v] cur']; cbn [fst snd] in *.
  - by destruct H as (e & -> & -> & ? & ? & ?).
  - by destruct H as (? & e & _ & ? & ? & ?).
  - by destruct H as (? & e & _ & ? & ? & ?).
Qed.

(** ** Transactions *)
(** A handle that is not a transaction, as [Open] makes it. *)
Definition plain_db (db : DB) : Prop :=
  (exists n, handle db = Some (OtherHandle n true)) /\ (exists d, dialect db = Some d /\ scoped_dialect d) /\
  tx db = None /\ savepointScoped db = false /\ eventScopeComplete db = None /\ busy db = None.
Definition own_child (db : DB) (t : N) : DB := set_hooks (hooks db) (set_transaction (SqlTx t) t db).
Definition begun (t : N) (w w' : W) : Prop :=
  base w' = MkDatabase (committed (base w)) (Some (t, committed (base w), [])) (opened (base w) + 1).
(** The transaction is over and the data are [cur]. *)
Definition over (cur : S) (w' : W) : Prop := committed (base w') = cur /\ session (base w') = None.
(** All of the work is committed, or none. *)
Definition owned_work (sem : S -> ending * S) (cur : S) : ending * S :=
  match begin_fails cur with
  | Some _ => (Fails, cur)
  | None => match sem cur with
            | (Succeeds, cur') => match commit_fails cur' with None => (Succeeds, cur') | Some _ => (Fails, cur) end
            | (e, _) => (e, cur)
            end
  end.
Lemma own_child_tx db t : plain_db db -> in_tx (own_child db t) t /\ busy (own_child db t) = None.
Proof. intros (_ & Hd & _ & _ & _ & Hb). by split. Qed.
Lemma runs_begin db ctx opts w :
  plain_db db -> session (base w) = None ->
  runs (beginTxCore db ctx opts []) w (fun o w' =>
    match begin_fails (committed (base w)) with
    | Some _ => exists e, o = Done (Err e) /\ quiet_to w w'
    | None => exists t, o = Done (Ok (own_child db t)) /\ begun t w w' /\ same_cells None w w'
    end).
Proof.
  intros ((n & Hh) & (d & Hd & _) & Ht & _) Hs. unfold beginTxCore, db_valid, IsTransaction. rewrite Hh, Hd, Ht. cbn [begins negb].
  rewrite bool_decide_eq_false_2 by (by intros []). unfold call_begin.
  set (Q := fun (o : outcome (panic := panic_value) (result N)) (w' : W) =>
    match begin_fails (committed (base w)) with
    | Some _ => exists e, o = Done (Err e) /\ quiet_to w w'
    | None => exists t, o = Done (Ok t) /\ begun t w w' /\ same_cells None w w'
    end).
  eapply (runs_bind _ _ _ Q); unfold Q; cbv beta.
  - eapply runs_quiet; [apply (silent_start _ Hpermits)|]. intros [c i] w1 _ [E1 S1].
    apply runs_driver; [done|]. intros w2 E2 S2. rewrite E1 in E2 |- *. cbn [serve] in *. rewrite Hs in *.
    destruct (begin_fails (committed (base w))) as [e|]; cbn [fst snd] in *.
    + eapply runs_quiet; [apply (silent_complete _ Hpermits)|]. intros [] w3 _ Q3. apply runs_ret. eexists. split; [done|].
      eapply quiet_to_trans; [|exact Q3]. split; [done|]. by eapply same_cells_trans.
    + eapply runs_quiet; [apply (silent_complete _ Hpermits)|]. intros [] w3 _ [E3 S3]. apply runs_ret. eexists. split; [done|].
      split; [unfold begun; by rewrite E3, E2|]. eapply same_cells_trans; [exact S1|]. by eapply same_cells_trans.
  - intros r w1 H. destruct (begin_fails (committed (base w))).
    + destruct H as (e' & [= ->] & H). by exists e'.
    + destruct H as (t & [= ->] & H). unfold WithHooks, db_valid. cbn [handle dialect set_transaction]. rewrite Hd. apply runs_ret. by exists t.
  - intros v w1 H. destruct (begin_fails _); destruct H as (? & ? & _); done.
  - intros w1 H. destruct (begin_fails _); destruct H as (? & ? & _); done.
Qed.
Lemma runs_commit db ctx t w cur stack :
  tx db = Some t -> savepointScoped db = false -> eventScopeComplete db = None -> session (base w) = Some (t, cur, stack) ->
  runs (commitContext db ctx) w (fun o w' => exists e, o = Done e /\ same_cells None w w' /\
    match commit_fails cur with None => e = None /\ over cur w' | Some _ => e <> None /\ over (committed (base w)) w' end).
Proof.
  intros Ht Hsc He Hs. unfold commitContext, end_transaction. rewrite Hsc, Ht, He.
  eapply runs_quiet; [apply (silent_start _ Hpermits)|]. intros [c i] w1 _ [E1 S1].
  apply runs_driver; [done|]. intros w2 E2 S2. rewrite E1 in E2 |- *. cbn [serve] in *. rewrite Hs, N.eqb_refl in *.
  destruct (commit_fails cur) as [e|]; cbn [fst snd] in *.
  all: eapply runs_quiet; [apply (silent_complete _ Hpermits)|]; intros [] w3 _ [E3 S3]; apply runs_ret; eexists; split; [done|];
    split; [eapply same_cells_trans; [exact S1|]; by eapply same_cells_trans|]; split; [done|]; unfold over; by rewrite E3, E2.
Qed.
Lemma runs_rollback db ctx t w cur stack :
  tx db = Some t -> savepointScoped db = false -> eventScopeComplete db = None -> session (base w) = Some (t, cur, stack) ->
  runs (rollbackContext db ctx) w (fun o w' => exists e, o = Done e /\ same_cells None w w' /\ e = None /\ over (committed (base w)) w').
Proof.
  intros Ht Hsc He Hs. unfold rollbackContext, end_transaction. rewrite Hsc, Ht, He.
  eapply runs_quiet; [apply (silent_start _ Hpermits)|]. intros [c i] w1 _ [E1 S1].
  apply runs_driver; [done|]. intros w2 E2 S2. rewrite E1 in E2 |- *. cbn [serve] in *. rewrite Hs, N.eqb_refl in *. cbn [fst snd] in *.
  eapply runs_quiet; [apply (silent_complete _ Hpermits)|]. intros [] w3 _ [E3 S3]. apply runs_ret. eexists. split; [done|].
  split; [eapply same_cells_trans; [exact S1|]; by eapply same_cells_trans|]. split; [done|]. unfold over. by rewrite E3, E2.
Qed.
Definition owned_spec (sem : S -> ending * S) (w : W) (o : outcome (panic := panic_value) (option error)) (w' : W) : Prop :=
  ends (owned_work sem (committed (base w))).1 o /\ over (owned_work sem (committed (base w))).2 w'.

Lemma transaction_atomic db ctx opts fn sem w :
  plain_db db -> session (base w) = None -> implements fn sem -> runs (Atomic db ctx opts (Some fn)) w (owned_spec sem w).
Proof.
  intros Hp Hs Hfn. destruct (Hp) as ((n & Hh) & (d & Hd & _) & Ht & Hsc & He & Hb). unfold Atomic, db_valid, IsTransaction.
  rewrite Hh, Hd, Ht, bool_decide_eq_false_2 by (by intros []). unfold atomicTransaction, owned_spec, owned_work.
  eapply runs_bind; [by apply runs_begin|cbv beta..]; destruct (begin_fails (committed (base w))) as [bf|].
  - intros r w1 (e & [= ->] & [E1 _]). apply runs_ret. split; [done|]. unfold over. by rewrite E1.
  - intros r w1 (t & [= ->] & H1 & S1). destruct (own_child_tx db t Hp) as [Hdb Hbusy].
    eapply runs_bind; [eapply (runs_callback fn sem ctx (own_child db t) t w1 (committed (base w)) []);
      [done|done|unfold idle; by rewrite Hbusy|by rewrite H1]| |by intros ? ? (? & ? & _)|by intros ? (? & ? & _)].
    intros r w2 (? & [= <-] & Hr & H2 & Hi2 & L2). pose proof (at_work_session _ _ _ _ _ H2) as Hs2.
    assert (committed (base w2) = committed (base w)) as Hcom by (by rewrite H2, H1).
    destruct (sem (committed (base w))) as [[| |v] cur'], r as [[err|]|v']; try done; cbn [fst snd] in *.
    + eapply runs_mono; [|by eapply runs_commit]. rewrite Hcom. intros o w3 (e & -> & _ & H). destruct (commit_fails cur'); [|by destruct H as [-> ?]].
      destruct H as [? ?]. by destruct e.
    + eapply runs_bind; [by eapply runs_rollback|cbv beta; rewrite Hcom..].
      * intros c w3 (e & [= <-] & _ & -> & H). by apply runs_ret.
      * by intros ? ? (? & ? & _).
      * by intros ? (? & ? & _).
    + simpl in Hr. subst. eapply runs_bind; [by eapply runs_rollback|cbv beta; rewrite Hcom..].
      * intros c w3 (e & [= <-] & _ & -> & H). by split.
      * by intros ? ? (? & ? & _).
      * by intros ? (? & ? & _).
  - by intros ? ? (? & ? & _).
  - by intros ? ? (? & ? & _).
  - by intros ? (? & ? & _).
  - by intros ? (? & ? & _).
Qed.
Lemma runs_scope_guarded db ctx opts w :
  plain_db db -> session (base w) = None ->
  runs (beginScopeGuarded db ctx opts) w (fun o w' =>
    match begin_fails (committed (base w)) with
    | Some _ => exists e, o = Done (Err e) /\ base w' = base w
    | None => exists t b, o = Done (Ok (set_busy (Some b) (own_child db t), GuardedBy (OfTransaction (own_child db t)) (Some b))) /\
                          begun t w w' /\ token (Some b) false w'
    end).
Proof.
  intros Hp Hs. unfold beginScopeGuarded, beginScope.
  set (Q := fun (o : outcome (panic := panic_value) (result (DB * ScopeFinalizer))) (w' : W) =>
    match begin_fails (committed (base w)) with
    | Some _ => exists e, o = Done (Err e) /\ base w' = base w
    | None => exists t, o = Done (Ok (own_child db t, OfTransaction (own_child db t))) /\ begun t w w'
    end).
  eapply (runs_bind _ _ _ Q); unfold Q.
  - eapply runs_bind; [by apply runs_begin|cbv beta..]; destruct (begin_fails (committed (base w))).
    + intros r w1 (e' & [= ->] & [E1 _]). apply runs_ret. by exists e'.
    + intros r w1 (t & [= ->] & H1 & _). apply runs_ret. by exists t.
    + by intros ? ? (? & ? & _).
    + by intros ? ? (? & ? & _).
    + by intros ? (? & ? & _).
    + by intros ? (? & ? & _).
  - intros r w1. destruct (begin_fails (committed (base w))).
    + intros (e' & [= ->] & E1). by exists e'.
    + intros (t & [= ->] & H1). unfold newExecutorBusy. apply base_new_flag. intros b w2 E2 S2 L2 T2. apply runs_ret.
      exists t, b. split; [done|]. split; [unfold begun in *; by rewrite E2|done].
  - intros v w1. destruct (begin_fails _); by intros (? & ? & _).
  - intros w1. destruct (begin_fails _); by intros (? & ? & _).
Qed.
(** Ending the transaction of a scope whose data are [cur]. *)
Definition tx_end (commits : bool) (cur : S) (w : W) (e : option error) (w' : W) : Prop :=
  if commits then match commit_fails cur with None => e = None /\ over cur w' | Some _ => e <> None /\ over (committed (base w)) w' end
  else e = None /\ over (committed (base w)) w'.
Lemma runs_end_scope commits db b ctx t cur stack w :
  plain_db db -> token (Some b) false w -> session (base w) = Some (t, cur, stack) ->
  runs (finalize commits (GuardedBy (OfTransaction (own_child db t)) (Some b)) ctx) w
    (fun o w' => exists e, o = Done e /\ tx_end commits cur w e w').
Proof.
  intros (_ & _ & _ & Hsc & He & _) Ht Hs. apply runs_guarded; [exact Ht|]. intros w1 E1 S1.
  assert (session (base w1) = Some (t, cur, stack)) as Hs1 by (by rewrite E1).
  assert (runs (finalize commits (OfTransaction (own_child db t)) ctx) w1
            (fun o w' => exists e, o = Done e /\ same_cells None w1 w' /\ tx_end commits cur w1 e w')) as Hf.
  { cbn [finalize]. unfold tx_end. destruct commits; [by eapply runs_commit|by eapply runs_rollback]. }
  eapply runs_mono; [|exact Hf]. intros o w2 (e & -> & S2 & H2). split; [by exists e|]. split; [done|].
  intros w3 E3 S3 T3. exists e. split; [done|]. unfold tx_end, over in *. rewrite E3. by rewrite E1 in H2.
Qed.
Lemma runs_BeginScope_guarded db ctx opts w :
  plain_db db -> session (base w) = None ->
  runs (BeginScope db ctx opts) w (fun o w' =>
    match begin_fails (committed (base w)) with
    | Some _ => exists e, o = Done (Err e) /\ base w' = base w
    | None => exists t b child f, o = Done (Ok (child, f)) /\
        observes (set_busy (Some b) (own_child db t)) (GuardedBy (OfTransaction (own_child db t)) (Some b)) child f /\
        begun t w w' /\ token (Some b) false w'
    end).
Proof.
  intros Hp Hs. set (P := fun (child : DB) (f : ScopeFinalizer) (w' : W) => begin_fails (committed (base w)) = None /\ exists t b,
    child = set_busy (Some b) (own_child db t) /\ f = GuardedBy (OfTransaction (own_child db t)) (Some b) /\ begun t w w' /\ token (Some b) false w').
  set (E := fun w' : W => begin_fails (committed (base w)) <> None /\ base w' = base w).
  eapply runs_mono; [|eapply (runs_observed_scope _ _ _ _ P E)].
  - intros o w1 [(e & -> & Hbf & E1)|(child & f & child' & f' & -> & (Hbf & t & b & -> & -> & H1 & T1) & Ho)].
    { destruct (begin_fails _); [|done]. by exists e. }
    rewrite Hbf. by exists t, b, child', f'.
  - intros c w1 [E1 S1]. eapply runs_mono; [|eapply runs_scope_guarded; [exact Hp|by rewrite E1]]. rewrite E1. intros o w2 H.
    destruct (begin_fails (committed (base w))) eqn:Hbf.
    + left. destruct H as (e' & -> & H). exists e'. split; [done|]. split; [by try rewrite Hbf|done].
    + right. destruct H as (t & b & -> & H & T). eexists _, _. split; [done|]. split; [done|]. exists t, b. split; [done|]. split; [done|].
      split; [unfold begun in *; by rewrite H, E1|done].
  - intros w1 w2 [H1 H2] [E2 _]. split; [done|congruence].
  - intros child f w1 w2 (Hbf & t & b & -> & -> & H1 & T1) [E2 S2]. split; [done|]. exists t, b. split; [done|]. split; [done|].
    split; [unfold begun in *; by rewrite E2|]. by eapply (token_same None); [|exact T1|exact S2].
  - by intros child f w1 (Hbf & t & b & -> & -> & H1 & T1).
Qed.
Lemma runs_BeginScope db ctx opts w :
  plain_db db -> session (base w) = None ->
  runs (BeginScope db ctx opts) w (fun o w' =>
    match begin_fails (committed (base w)) with
    | Some _ => exists e, o = Done (Err e) /\ base w' = base w
    | None => exists child f, o = Done (Ok (child, f)) /\ scope_open child f (committed (base w)) (fun commits cur' e w' => tx_end commits cur' w e w') w'
    end).
Proof.
  intros Hp Hs. eapply runs_mono; [|by apply runs_BeginScope_guarded]. intros o w1 H. destruct (begin_fails _) eqn:Hbf; [done|].
  destruct H as (t & b & child' & f' & -> & Ho & H1 & T1).
  assert (in_tx (set_busy (Some b) (own_child db t)) t) as Hdb by apply (own_child_tx db t Hp).
  destruct (observes_tx _ _ _ _ t Ho Hdb) as [Hdb' Hidle']. exists child', f'. split; [done|].
  constructor; [by apply Hidle'|by eapply observes_cause|by intros ? ? ? [? _]|]. exists t, []. split; [done|]. split; [by rewrite H1|].
  intros commits cur' cause c w' H' Hi' L'. apply Hidle' in Hi'. assert (committed (base w') = committed (base w)) as Hcom by (by rewrite H', H1).
  destruct Ho as [[-> ->]|(id & cctx & counter & done & completion & parent & -> & -> & Hd)].
  - eapply runs_mono; [|eapply runs_end_scope; [exact Hp|exact Hi'|by eapply at_work_session]].
    intros o w2 (e & -> & H2). exists e, e. split; [done|]. split; [done|]. unfold tx_end in *. by rewrite Hcom in H2.
  - cbn [setCause]. apply runs_observed. eapply runs_mono; [|eapply runs_end_scope; [exact Hp|exact Hi'|by eapply at_work_session]].
    intros o w2 (e & -> & H2). exists e. split; [done|]. intros w3 E3 S3. exists e. eexists. split; [done|].
    split; [by intros ->|]. unfold tx_end, over in *. rewrite E3. by rewrite Hcom in H2.
Qed.
Lemma transaction_within db ctx opts fn sem w :
  plain_db db -> session (base w) = None -> implements fn sem -> runs (Within ctx (Some db) opts (Some fn)) w (owned_spec sem w).
Proof.
  intros Hp Hs Hfn. destruct (Hp) as (_ & _ & Ht & _). unfold Within, IsTransaction. rewrite Ht, bool_decide_eq_false_2 by (by intros []).
  unfold owned_spec, owned_work.
  eapply runs_bind; [by apply runs_BeginScope|cbv beta..]; destruct (begin_fails (committed (base w))).
  - intros r w1 (e' & [= ->] & E1). apply runs_ret. split; [done|]. unfold over. by rewrite E1.
  - intros r w1 (child & f & [= ->] & Ho). eapply runs_mono; [|by eapply runs_scope]. unfold tx_end.
    intros o w' H. destruct (sem (committed (base w))) as [[| |v] cur']; cbn [fst snd] in *.
    + destruct H as (e' & -> & H). destruct (commit_fails cur'); destruct H as [? ?]; [by destruct e'|by subst].
    + by destruct H as (? & ? & _ & ?).
    + by destruct H as (? & ? & _ & ?).
  - by intros ? ? (? & ? & _).
  - by intros ? ? (? & ? & ? & _).
  - by intros ? (? & ? & _).
  - by intros ? (? & ? & ? & _).
Qed.

(** ** Callbacks that keep the token

    Rows left open hold the token of the scope's handle: ending the scope is
    then refused, and what the callback did stays as it is, neither kept nor
    undone. *)
Definition keeps (fn : AtomicFunc) (sem : S -> ending * S) : Prop :=
  forall ctx db t b w cur stack, in_tx db t -> busy db = Some b -> token (Some b) false w -> session (base w) = Some (t, cur, stack) ->
  runs (fn ctx db) w (fun o w' => ends (sem cur).1 o /\ at_work t (sem cur).2 stack w w' /\ token (Some b) true w').
Definition refused_end (e : ending) (o : outcome (option error)) : Prop :=
  match e with
  | Succeeds => o = Done (Some concurrent_use)
  | Fails => exists e, o = Done (Some e)
  | Throws v => o = Panicked (AtomicPanic v concurrent_use)
  end.
Lemma runs_spoiled commits f b cause child' f' child ctx w :
  observes child (GuardedBy f (Some b)) child' f' -> token (Some b) true w ->
  runs (finalize commits (setCause cause f') ctx) w (fun o w' => exists e e', o = Done e' /\ e = Some concurrent_use /\ (cause = None -> e' = e) /\ base w' = base w).
Proof.
  intros Ho [_ Ht]. eapply (runs_end_observed _ _ _ _ _ _ _ _ (fun w' => base w' = base w) (fun e => e = Some concurrent_use)); [exact Ho| |done|].
  - intros w1 w2 E1 E2 ? _ _. congruence.
  - unfold ExecQuiet.runs. cbn [finalize try_acquire acquire first_time update bind run]. rewrite Ht. by exists (Some concurrent_use).
Qed.
Lemma runs_kept_scope ctx child f b child' f' fn sem t cur stack w :
  keeps fn sem -> observes child (GuardedBy f (Some b)) child' f' -> in_tx child t -> busy child = Some b ->
  token (Some b) false w -> session (base w) = Some (t, cur, stack) ->
  runs (run_scope ctx child' f' fn) w (fun o w' => refused_end (sem cur).1 o /\ at_work t (sem cur).2 stack w w').
Proof.
  intros Hk Ho Hdb Hb Ht Hs. destruct (observes_tx _ _ _ _ t Ho Hdb) as [Hdb' _].
  assert (busy child' = Some b) as Hb' by (by destruct Ho as [[-> ->]|(? & ? & ? & ? & ? & ? & -> & _)]).
  unfold run_scope. set (cctx := default ctx (eventScopeCtx child')).
  eapply (runs_bind _ _ _ (fun o w' => exists r, o = Done r /\ returned (sem cur).1 r /\ at_work t (sem cur).2 stack w w' /\ token (Some b) true w')).
  { apply runs_try. eapply runs_mono; [|by eapply (Hk cctx child')]. intros o w' (He & H). destruct (sem cur) as [[| |v] cur'], o as [[e|]|v'|]; try done; by eexists. }
  2: by intros ? ? (? & ? & _). 2: by intros ? (? & ? & _).
  intros r w1 (? & [= <-] & Hr & H1 & T1). pose proof (fun cm cause c => runs_spoiled cm f b cause child' f' child c w1 Ho T1) as Hend.
  assert (forall w2, base w2 = base w1 -> at_work t (sem cur).2 stack w w2) as Hat by (intros w2 E; unfold at_work in *; congruence).
  destruct (sem cur) as [[| |v] cur'], r as [[e|]|v']; try done; cbn [fst snd] in *.
  - assert (setCause None f' = f') as E by (by eapply observes_cause). unfold Finalizer_Commit. rewrite <- E.
    eapply runs_mono; [|apply Hend]. intros o w2 (e & e' & -> & -> & Hc & E2). split; [by rewrite (Hc eq_refl)|by apply Hat].
  - eapply runs_bind; [apply Hend|cbv beta..]; [|by intros ? ? (? & ? & ? & _)|by intros ? (? & ? & ? & _)].
    intros c w2 (e1 & e2 & _ & _ & _ & E2). apply runs_ret. split; [destruct c; by eexists|by apply Hat].
  - eapply runs_bind; [apply Hend|cbv beta..]; [|by intros ? ? (? & ? & ? & _)|by intros ? (? & ? & ? & _)].
    intros c w2 (e1 & e2 & [= <-] & -> & Hc & E2). rewrite (Hc eq_refl). simpl in Hr. subst. unfold ExecQuiet.runs. split; [done|by apply Hat].
Qed.
Lemma within_kept db ctx opts fn sem w :
  keeps fn sem -> plain_db db -> session (base w) = None -> begin_fails (committed (base w)) = None ->
  runs (Within ctx (Some db) opts (Some fn)) w (fun o w' =>
    refused_end (sem (committed (base w))).1 o /\ committed (base w') = committed (base w) /\
    exists t, session (base w') = Some (t, (sem (committed (base w))).2, [])).
Proof.
  intros Hk Hp Hs Hbf. destruct (Hp) as (_ & _ & Ht & _). unfold Within, IsTransaction. rewrite Ht, bool_decide_eq_false_2 by (by intros []).
  pose proof (runs_BeginScope_guarded db ctx opts w Hp Hs) as H. rewrite Hbf in H.
  eapply runs_bind; [exact H|cbv beta..]; [|by intros ? ? (? & ? & ? & ? & ? & _)|by intros ? (? & ? & ? & ? & ? & _)].
  intros r w1 (t & b & child & f & [= ->] & Ho & H1 & T1). assert (in_tx (set_busy (Some b) (own_child db t)) t) as Hdb by apply (own_child_tx db t Hp).
  eapply runs_mono; [|eapply (runs_kept_scope ctx _ _ b child f fn sem t (committed (base w)) [] w1 Hk Ho Hdb); [done|done|by rewrite H1]].
  intros o w2 (He & H2). split; [done|]. unfold at_work in H2. rewrite H2, H1. split; [done|]. by exists t.
Qed.
Lemma nested_kept db ctx t b fn sem w cur stack :
  keeps fn sem -> in_tx db t -> busy db = Some b -> token (Some b) false w -> session (base w) = Some (t, cur, stack) ->
  runs (Within ctx (Some db) None (Some fn)) w (fun o w' =>
    refused_end (sem cur).1 o /\ exists name, at_work t (sem cur).2 ((name, cur) :: stack) w w').
Proof.
  intros Hk Hdb Hb Ht Hs. destruct (Hdb) as (_ & Hx & _). unfold Within, IsTransaction. rewrite Hx, bool_decide_eq_true_2 by eauto.
  assert (idle db w) as Hi by (unfold idle; by rewrite Hb).
  eapply runs_bind; [by eapply runs_BeginSavepoint_guarded|cbv beta..]; [|by intros ? ? (? & ? & ? & ? & ? & _)|by intros ? (? & ? & ? & ? & ? & _)].
  intros r w1 (name & cctx & child & f & [= ->] & Ho & H1 & Hi1 & _). unfold idle in Hi1. rewrite Hb in Hi1, Ho.
  eapply runs_mono; [|eapply (runs_kept_scope ctx _ _ b child f fn sem t cur _ w1 Hk Ho); [done|done|done|by eapply at_work_session]].
  intros o w2 (He & H2). split; [done|]. exists name. by eapply at_work_trans.
Qed.

(** ** Callbacks built from statements and scopes *)
Definition ordinary (s : Statement) : Prop :=
  String.eqb (TrimSpace (SQL s)) "" = false /\ HasPrefix (SQL s) "SAVEPOINT " = false /\
  HasPrefix (SQL s) "ROLLBACK TO SAVEPOINT " = false /\ HasPrefix (SQL s) "RELEASE SAVEPOINT " = false.
Definition executes (s : Statement) : AtomicFunc := fun ctx db => let! (_, err) := DB_Exec db ctx s in Ret err.
Definition does (s : Statement) (cur : S) : ending * S := match apply s cur with inr cur' => (Succeeds, cur') | inl _ => (Fails, cur) end.
Definition first_then (fn1 fn2 : AtomicFunc) : AtomicFunc :=
  fun ctx db => let! e := fn1 ctx db in match e with None => fn2 ctx db | Some e => Ret (Some e) end.
Definition both (sem1 sem2 : S -> ending * S) (cur : S) : ending * S :=
  match sem1 cur with (Succeeds, cur') => sem2 cur' | r => r end.
Definition forgiven (fn : AtomicFunc) : AtomicFunc := fun ctx db => let! _ := fn ctx db in Ret None.
Definition forgives (sem : S -> ending * S) (cur : S) : ending * S :=
  match sem cur with (Fails, cur') => (Succeeds, cur') | r => r end.
Definition always (e : ending) (cur : S) : ending * S := (e, cur).

Lemma implements_return e : implements (fun _ _ => Ret e) (always match e with None => Succeeds | Some _ => Fails end).
Proof. intros ctx db t w cur stack _ Hi Hs. apply runs_ret. split; [by destruct e|]. split; [|done]. unfold at_work. simpl. rewrite <- Hs. by destruct (base w). Qed.
Lemma implements_panic v : implements (fun _ _ => Panic v) (always (Throws v)).
Proof. intros ctx db t w cur stack _ Hi Hs. unfold runs. simpl. split; [done|]. split; [|done]. unfold at_work. rewrite <- Hs. by destruct (base w). Qed.
Lemma implements_then fn1 fn2 sem1 sem2 : implements fn1 sem1 -> implements fn2 sem2 -> implements (first_then fn1 fn2) (both sem1 sem2).
Proof.
  intros H1 H2 ctx db t w cur stack Hdb Hi Hs. unfold first_then, both.
  eapply runs_bind; [by eapply (H1 ctx db)|cbv beta..]; destruct (sem1 cur) as [[| |v] cur']; cbn [fst snd].
  - intros e w1 (Ho & Hw & Hi1 & L1). destruct e; [done|].
    eapply runs_mono; [|eapply (H2 ctx db); [done..|by eapply at_work_session]]. intros o w2 (Ho2 & Hw2 & Hi2 & L2).
    split; [done|]. split; [by eapply at_work_trans|]. split; [done|lia].
  - intros e w1 (Ho & H). destruct e; [|done]. by apply runs_ret.
  - intros e w1 (Ho & H). done.
  - by intros v w1 (Ho & H).
  - by intros v w1 (Ho & H).
  - intros v' w1 (Ho & H). simpl in Ho. by subst.
  - by intros w1 (Ho & H).
  - by intros w1 (Ho & H).
  - by intros w1 (Ho & H).
Qed.
Lemma implements_forgiven fn sem : implements fn sem -> implements (forgiven fn) (forgives sem).
Proof.
  intros H ctx db t w cur stack Hdb Hi Hs. unfold forgiven, forgives.
  eapply runs_bind; [by eapply (H ctx db)|cbv beta..]; destruct (sem cur) as [[| |v] cur']; cbn [fst snd].
  all: intros; destruct_and?; try done; by apply runs_ret.
Qed.
(** What a statement has done when its error is [err]. *)
Definition executed (db : DB) (s : Statement) (t : N) (cur : S) (stack : list (string * S)) (w : W) (r : option N) (err : option error) (w' : W) : Prop :=
  match apply s cur with inr _ => err = None /\ is_Some r | inl _ => err <> None end /\
  at_work t (match apply s cur with inr cur' => cur' | inl _ => cur end) stack w w' /\ idle db w' /\
  (next_cell (cells w) <= next_cell (cells w'))%N.
Lemma runs_exec_guarded s db c t cur stack w w1 :
  ordinary s -> in_tx db t -> idle db w -> session (base w) = Some (t, cur, stack) -> quiet_to w w1 ->
  runs (execGuarded db c s) w1 (fun o w' => exists r err, o = Done (r, err) /\ executed db s t cur stack w r err w').
Proof.
  intros (Hblank & Hp1 & Hp2 & Hp3) Hdb Hi Hs [E1 S1]. unfold execGuarded.
  apply base_acquire; [by eapply idle_same|]. intros w2 E2 S2 T2. cbn [negb]. unfold deferred.
  assert (validStatement db s = Ok (SqlTx t)) as Hv.
  { destruct Hdb as (Hh & _ & d & Hd & _). unfold validStatement, db_valid. by rewrite Hh, Hd, Hblank. }
  eapply (runs_bind (try _) _ _ (fun o w3 => exists r err, o = Done (inl (r, err)) /\ same_cells None w2 w3 /\
            match apply s cur with inr cur' => (err = None /\ is_Some r) /\ at_work t cur' stack w w3 | inl _ => err <> None /\ base w3 = base w end)).
  - apply runs_try. eapply runs_mono; [|by eapply runs_exec]. intros o w3 (x & H).
    rewrite (serve_session t x s _ cur stack) in H by (by rewrite E2, E1). unfold in_session in H. rewrite Hp1, Hp2, Hp3, E2, E1 in H.
    destruct (apply s cur) as [e|cur']; destruct H as (-> & H3 & S3); eexists _, _; (split; [done|]); (split; [done|]); by split.
  - intros r w3 (r' & err & [= ->] & S3 & H3). apply base_give_back; [by eapply (token_same None); [|exact T2|exact S3]|].
    intros w4 E4 S4 T4. unfold raise. apply runs_ret. exists r', err. split; [done|]. unfold executed.
    assert ((next_cell (cells w) <= next_cell (cells w4))%N) by (apply same_cells_next in S1, S2, S3, S4; lia).
    destruct (apply s cur) as [e|cur']; destruct H3 as [He H3]; (split; [done|]); (split; [|by split]); unfold at_work in *; rewrite E4, H3; [|done].
    rewrite <- Hs. by destruct (base w).
  - by intros ? ? (? & ? & ? & _).
  - by intros ? (? & ? & ? & _).
Qed.
Lemma runs_DB_Exec s db ctx t cur stack w :
  ordinary s -> in_tx db t -> idle db w -> session (base w) = Some (t, cur, stack) ->
  runs (DB_Exec db ctx s) w (fun o w' => exists r err, o = Done (r, err) /\ executed db s t cur stack w r err w').
Proof.
  intros Hord Hdb Hi Hs. pose proof (fun c w1 => runs_exec_guarded s db c t cur stack w w1 Hord Hdb Hi Hs) as Hg.
  unfold DB_Exec. destruct (length (eventObservers db) =? 0); [apply Hg, quiet_to_refl|]. unfold execObserved.
  eapply runs_quiet; [apply silent_eventID|]. intros id w1 _ Q1.
  eapply (runs_quiet _ _ _ (fun _ => True)).
  { destruct (eventCounter db); [|apply silent_skip]. by apply (silent_update _ (fun _ => True)). }
  intros index w2 _ Q2. eapply runs_quiet; [apply (silent_startEvent _ Hpermits)|]. intros [cctx completion] w3 _ Q3.
  eapply runs_bind; [apply Hg; by eapply quiet_to_trans; [|eapply quiet_to_trans]|cbv beta..].
  - intros [r err] w4 (? & ? & [= <- <-] & Hr & H4 & Hi4 & L4). eapply runs_quiet; [apply (silent_completeEvent _ Hpermits)|]. intros [] w5 _ Q5.
    apply runs_ret. exists r, err. split; [done|]. split; [done|]. split; [by eapply at_work_quiet|]. destruct Q5 as [_ S5].
    split; [by eapply idle_same|]. apply same_cells_next in S5. lia.
  - by intros ? ? (? & ? & ? & _).
  - by intros ? (? & ? & ? & _).
Qed.
Lemma implements_exec s : ordinary s -> implements (executes s) (does s).
Proof.
  intros Hord ctx db t w cur stack Hdb Hi Hs. unfold executes, does.
  eapply runs_bind; [by eapply runs_DB_Exec|cbv beta..].
  - intros [r err] w1 (? & ? & [= <- <-] & Hr & H). apply runs_ret.
    destruct (apply s cur) as [e|cur']; (split; [|done]); [by destruct err|by destruct Hr; subst].
  - by intros ? ? (? & ? & ? & _).
  - by intros ? (? & ? & ? & _).
Qed.
(** A query whose rows are left open. *)
Definition leaves_open (s : Statement) : AtomicFunc := fun ctx db => let! (_, err) := DB_Query db ctx s in Ret err.
Lemma runs_query db ctx s h w :
  validStatement db s = Ok h ->
  runs (queryOwned db ctx s) w (fun o w' => exists r, o = Done (Some r, None) /\ quiet_to w w').
Proof.
  intros Hv. unfold queryOwned. rewrite Hv.
  eapply (runs_bind _ _ _ (fun o w' => exists c, o = Done (c, (None, None)) /\ quiet_to w w')).
  - unfold query_around, around. eapply runs_quiet; [apply (silent_start _ Hpermits)|]. intros [c i] w1 _ Q1.
    eapply runs_quiet; [apply (silent_before _ Hpermits)|]. intros [entered refused] w2 E Q2. simpl in E. subst refused.
    apply runs_driver; [done|]. intros w3 E3 S3. cbn [serve fst snd] in *.
    eapply runs_quiet; [apply (silent_observe _ Hpermits)|]. intros [] w4 _ Q4.
    eapply runs_quiet; [apply (silent_complete _ Hpermits)|]. intros [] w5 _ Q5.
    eapply runs_quiet; [apply (silent_after _ Hpermits)|]. intros x w6 -> Q6. apply runs_ret. exists c. split; [done|].
    eapply quiet_to_trans; [exact Q1|]. eapply quiet_to_trans; [exact Q2|]. eapply (quiet_to_trans _ w3); [by split|].
    eapply quiet_to_trans; [exact Q4|]. by eapply quiet_to_trans.
  - intros r w1 (c & [= ->] & Q1). eapply runs_quiet; [apply (silent_start _ Hpermits)|]. intros [c2 i] w2 _ Q2.
    eapply (runs_quiet _ _ _ (fun _ => True)).
    { apply (silent_update _ (fun _ => True)). intros st. split; [done|]. cbn [snd skip next_cell set_owned flags owned]. split; [lia|].
      intros c' L. split; [done|]. rewrite lookup_insert_ne; [done|lia]. }
    intros n w3 _ Q3. apply runs_ret. exists n. split; [done|]. eapply quiet_to_trans; [exact Q1|]. by eapply quiet_to_trans.
  - by intros ? ? (? & ? & _).
  - by intros ? (? & ? & _).
Qed.
Lemma runs_query_guarded db ctx s h b w :
  validStatement db s = Ok h -> busy db = Some b -> token (Some b) false w ->
  runs (queryGuarded db ctx s) w (fun o w' => exists r, o = Done (Some r, None) /\ base w' = base w /\ token (Some b) true w').
Proof.
  intros Hv Hb Ht. unfold queryGuarded. rewrite Hb. apply base_acquire; [done|]. intros w1 E1 S1 T1. cbn [negb].
  eapply runs_bind; [by eapply runs_query|cbv beta..]; [|by intros ? ? (? & ? & _)|by intros ? (? & ? & _)].
  intros r w2 (c & [= ->] & [E2 S2]). apply base_new_flag. intros f w3 E3 S3 _ _. apply runs_ret. eexists. split; [done|]. split; [congruence|].
  eapply (token_same None); [done| |exact S3]. by eapply (token_same None); [|exact T1|exact S2].
Qed.
Lemma runs_query_open db ctx s h b w :
  validStatement db s = Ok h -> busy db = Some b -> token (Some b) false w ->
  runs (DB_Query db ctx s) w (fun o w' => exists r, o = Done (Some r, None) /\ base w' = base w /\ token (Some b) true w').
Proof.
  intros Hv Hb Ht. unfold DB_Query. destruct (length (eventObservers db) =? 0); [by eapply runs_query_guarded|]. unfold queryObserved.
  eapply runs_quiet; [apply silent_eventID|]. intros id w1 _ [E1 S1].
  eapply (runs_quiet _ _ _ (fun _ => True)).
  { destruct (eventCounter db); [|apply silent_skip]. by apply (silent_update _ (fun _ => True)). }
  intros index w2 _ [E2 S2]. eapply runs_quiet; [apply (silent_startEvent _ Hpermits)|]. intros [cctx completion] w3 _ [E3 S3].
  eapply runs_bind; [eapply runs_query_guarded; [exact Hv|exact Hb|]|cbv beta..]; [|  |by intros ? ? (? & ? & _)|by intros ? (? & ? & _)].
  { eapply (token_same None); [done| |exact S3]. eapply (token_same None); [done| |exact S2]. by eapply (token_same None); [|exact Ht|exact S1]. }
  intros r w4 (c & [= ->] & E4 & T4). eapply (runs_quiet _ _ _ (fun _ => True)).
  { apply (silent_update _ (fun _ => True)). intros st. split; [done|]. cbn [snd skip next_cell set_counter flags owned]. split; [lia|done]. }
  intros rows w5 _ [E5 S5]. apply base_new_flag. intros f w6 E6 S6 _ _. apply runs_ret. eexists. split; [done|]. split; [congruence|].
  eapply (token_same None); [done| |exact S6]. by eapply (token_same None); [|exact T4|exact S5].
Qed.
Lemma keeps_query s : String.eqb (TrimSpace (SQL s)) "" = false -> keeps (leaves_open s) (always Succeeds).
Proof.
  intros Hblank ctx db t b w cur stack Hdb Hb Ht Hs. unfold leaves_open.
  assert (validStatement db s = Ok (SqlTx t)) as Hv.
  { destruct Hdb as (Hh & _ & d & Hd & _). unfold validStatement, db_valid. by rewrite Hh, Hd, Hblank. }
  eapply runs_bind; [by eapply runs_query_open|cbv beta..]; [|by intros ? ? (? & ? & _)|by intros ? (? & ? & _)].
  intros r w1 (c & [= ->] & E1 & T1). apply runs_ret. split; [done|]. split; [|done]. unfold at_work. simpl. rewrite E1, <- Hs. by destruct (base w).
Qed.
Lemma keeps_then fn1 fn2 sem1 sem2 : (forall cur, (sem1 cur).1 = Succeeds) -> implements fn1 sem1 -> keeps fn2 sem2 ->
  keeps (first_then fn1 fn2) (both sem1 sem2).
Proof.
  intros H H1 H2 ctx db t b w cur stack Hdb Hb Ht Hs. unfold first_then, both. specialize (H cur).
  assert (idle db w) as Hi by (unfold idle; by rewrite Hb).
  eapply runs_bind; [by eapply (H1 ctx db)|cbv beta..]; destruct (sem1 cur) as [[| |v] cur']; try done; cbn [fst snd].
  - intros e w1 (Ho & Hw & Hi1 & L1). destruct e; [done|]. unfold idle in Hi1. rewrite Hb in Hi1.
    eapply runs_mono; [|eapply (H2 ctx db); [done..|by eapply at_work_session]]. intros o w2 (Ho2 & Hw2 & Hi2).
    split; [done|]. split; [by eapply at_work_trans|done].
  - by intros v w1 (Ho & _).
  - by intros w1 (Ho & _).
Qed.
End Database.

(** C4 Scopes are all or nothing. Over a database that keeps savepoints, under
    hooks that let every operation pass and observers that do anything but
    panic: whatever a callback does to the data inside a transaction, provided
    it ends with its handle's token free (no rows open) and the savepoints as it
    found them, a nested [Atomic] or [Within] around it has the same effect
    when the callback succeeds, and no effect at all when it returns an error
    or panics; and on a handle that is no transaction, both commit the
    callback's work exactly when it succeeds and the commit does, leave the
    data as they were otherwise, and leave no transaction open.  The call
    fails when the callback, or beginning or committing, fails, and panics with
    the callback's value when it panics.  A callback that leaves rows open,
    and so keeps the token, has the end of its [Within] refused: the call
    fails with the error of concurrent use (a panic carries it along), nothing
    is committed, and the transaction, or the savepoint in the transaction,
    stays open with the callback's work in it. *)
Theorem scopes_all_or_nothing {S} (apply : Statement -> S -> error + S) begin_fails commit_fails start env db fn sem :
  served apply begin_fails commit_fails start env -> implements apply begin_fails commit_fails start env fn sem ->
  implements apply begin_fails commit_fails start env (nested (fun ctx db fn => Atomic db ctx None (Some fn)) fn) (atomically sem) /\
  implements apply begin_fails commit_fails start env (nested (fun ctx db fn => Within ctx (Some db) None (Some fn)) fn) (atomically sem) /\
  (plain_db db -> forall ctx opts w, session (database_after apply begin_fails commit_fails start (trace w)) = None ->
     runs env (Atomic db ctx opts (Some fn)) w (owned_spec apply begin_fails commit_fails start sem w) /\
     runs env (Within ctx (Some db) opts (Some fn)) w (owned_spec apply begin_fails commit_fails start sem w)) /\
  (forall fn' sem', keeps apply begin_fails commit_fails start env fn' sem' ->
     let D (w : world answer (state := shared) (panic := panic_value)) := database_after apply begin_fails commit_fails start (trace w) in
     (plain_db db -> forall ctx opts w, session (D w) = None -> begin_fails (committed (D w)) = None ->
        runs env (Within ctx (Some db) opts (Some fn')) w (fun o w' =>
          refused_end (sem' (committed (D w))).1 o /\ committed (D w') = committed (D w) /\
          exists t, session (D w') = Some (t, (sem' (committed (D w))).2, []))) /\
     (forall ctx child t b w cur stack, in_tx child t -> busy child = Some b -> token (Some b) false w -> session (D w) = Some (t, cur, stack) ->
        runs env (Within ctx (Some child) None (Some fn')) w (fun o w' =>
          refused_end (sem' cur).1 o /\ committed (D w') = committed (D w) /\
          exists name, session (D w') = Some (t, (sem' cur).2, (name, cur) :: stack)))).
Proof.
  intros Henv Hfn. split; [by apply nested_atomic|]. split; [by apply nested_within|]. split.
  { intros Hp ctx opts w Hs. split; [by apply transaction_atomic|by apply transaction_within]. }
  intros fn' sem' Hk D. split; [intros; by eapply within_kept|]. intros ctx child t b w cur stack Hdb Hb Ht Hs.
  eapply runs_mono; [|by eapply nested_kept]. intros o w' (He & name & H). split; [done|]. unfold at_work in H. unfold D. rewrite H. split; [done|by exists name].
Qed.

(** ** The built-in dialects have scopes *)
Definition plain_char (c : ascii) : bool := (1 <=? code c)%N && (code c <? 128)%N.
Lemma plain_identifier c s : plain_char c = true -> str_forallb plain_char s = true -> ValidateIdentifier (String c s) = Ok tt.
Proof.
  intros Hc Hs. assert (forall s, str_forallb plain_char s = true -> IndexByte s nul = None /\ ValidString s = true) as H.
  { clear. unfold IndexByte, ValidString. induction s as [|c s IH]; [done|]. cbn [str_forallb]. rewrite andb_true_iff. intros [Hc [H1 H2]%IH].
    unfold plain_char in Hc. apply andb_true_iff in Hc as [Hc1%N.leb_le Hc2].
    cbn [Index HasPrefix]. rewrite andb_true_r, H1. destruct (Ascii.eqb_spec nul c) as [<-|_]; [change (1 <= 0)%N in Hc1; lia|].
    split; [done|]. cbn [valid_from DecodeRune]. rewrite Hc2. apply N.ltb_lt in Hc2.
    destruct (N.eqb_spec (code c) rune_error) as [E|_]; [unfold rune_error in E; lia|]. done. }
  destruct (H (String c s)) as [H1 H2]; [cbn [str_forallb]; by rewrite Hc, Hs|].
  unfold ValidateIdentifier. cbn [String.eqb]. by rewrite H1, H2.
Qed.
Lemma digits36_plain fuel n acc : str_forallb plain_char acc = true -> str_forallb plain_char (digits36 fuel n acc) = true.
Proof.
  revert n acc. induction fuel as [|fuel IH]; intros n acc Hacc; [done|]. cbn [digits36].
  assert (str_forallb plain_char (String (digit36 (n mod 36)) acc) = true) as H.
  { cbn [str_forallb]. rewrite Hacc, andb_true_r. unfold plain_char, digit36. pose proof (N.mod_lt n 36 ltac:(done)) as L.
    assert (forall k, (k < 128)%N -> code (ascii_of_N k) = k) as Hk by (intros; unfold code; apply N_ascii_embedding; lia).
    set (m := (n mod 36)%N) in *. clearbody m.
    destruct (N.ltb_spec m 10); rewrite Hk by lia; apply andb_true_iff; split; [apply N.leb_le|apply N.ltb_lt|apply N.leb_le|apply N.ltb_lt]; lia. }
  destruct (n <? 36)%N; [done|by apply IH].
Qed.
Lemma builtin_scoped d : d ∈ [PostgreSQL; MySQL; SQLite] -> scoped_dialect d.
Proof.
  intros Hd. assert (exists b c, d = builtin_dialect b c /\ d_Supports d CapabilitySavepoint = true) as (b & c & -> & Hs).
  { repeat (apply elem_of_cons in Hd as [->|Hd]; [eexists _, _; split; [reflexivity|vm_compute; reflexivity]|]). by apply not_elem_of_nil in Hd. }
  split; [exact Hs|]. intros n. eexists. change (d_QuoteIdentifier (builtin_dialect b c)) with (QuoteIdentifier b).
  apply QuoteIdentifier_ok. split; [|reflexivity]. apply plain_identifier; [vm_compute; reflexivity|].
  unfold FormatUint36. assert (forall p s, str_forallb plain_char p = true -> str_forallb plain_char s = true -> str_forallb plain_char (p +:+ s) = true) as Happ.
  { clear. intros p s Hp Hs. induction p as [|c p IH]; [done|]. cbn [str_forallb String.append] in *. apply andb_true_iff in Hp as [-> Hp]. by apply IH. }
  apply (Happ "asql_sp_"); [vm_compute; reflexivity|by apply digits36_plain].
Qed.

(** ** A log of statements, written in nested scopes *)
Definition log_apply (s : Statement) (l : list string) : error + list string :=
  if String.eqb (SQL s) "bad" then inl (errors_New "bad") else inr (l ++ [SQL s]).
Definition log_start : database (list string) := MkDatabase [] None 0.
Definition never (l : list string) : option error := None.
Definition log_env : environment answer (panic := panic_value) :=
  fun t c => Returns (serve log_apply never never c (database_after log_apply never never log_start t)).1.
Definition log_world : world answer (state := shared) (panic := panic_value) := MkWorld (MkShared 0 0 0 ∅ ∅ ∅) [].
Definition log_db : DB := MkDB (Some (OtherHandle 0 true)) (Some SQLite) [7%N] [8%N] None [9%N] false None (Some 1%N) [2%N] "" None None None None.
Definition writes (sql : string) : AtomicFunc := executes (plain sql).
(** "a", then a scope of "b" that fails and is forgiven, then one of "c". *)
Definition log_work : AtomicFunc :=
  first_then (writes "a") (first_then (forgiven (nested (fun ctx db fn => Atomic db ctx None (Some fn)) (first_then (writes "b") (writes "bad"))))
    (nested (fun ctx db fn => Within ctx (Some db) None (Some fn)) (writes "c"))).
Definition log_sem : list string -> ending * list string :=
  let d s := does log_apply (plain s) in
  both (d "a") (both (forgives (atomically (both (d "b") (d "bad")))) (atomically (d "c"))).
Lemma log_served : served log_apply never never log_start log_env.
Proof. split; [|done]. intros t c. split; [by eexists|]. by destruct c. Qed.
Lemma writes_does sql : ordinary (plain sql) -> implements log_apply never never log_start log_env (writes sql) (does log_apply (plain sql)).
Proof. apply implements_exec, log_served. Qed.
Lemma log_implements : implements log_apply never never log_start log_env log_work log_sem.
Proof.
  repeat apply implements_then; try (by apply writes_does; vm_compute).
  - apply implements_forgiven, nested_atomic; [apply log_served|]. apply implements_then; by apply writes_does; vm_compute.
  - apply nested_within; [apply log_served|]. by apply writes_does; vm_compute.
Qed.
Lemma scopes_all_or_nothing_witness :
  let failing := first_then log_work (fun _ _ => Ret (Some (errors_New "no"))) in
  let data fn := committed (database_after log_apply never never log_start (trace (run log_env (Within Background (Some log_db) None (Some fn)) log_world).2)) in
  let open := first_then (writes "a") (leaves_open (plain "SELECT 1")) in
  data log_work = ["a"; "c"] /\ data failing = [] /\ data (first_then log_work (fun _ _ => Panic (PanicWith 3))) = [] /\
  data open = [] /\ (run log_env (Within Background (Some log_db) None (Some open)) log_world).1 = Done (Some concurrent_use).
Proof.
  intros failing data open.
  assert (plain_db log_db) as Hp.
  { split; [by eexists|]. split; [|done]. eexists. split; [reflexivity|]. apply builtin_scoped. apply list_elem_of_In. simpl. auto. }
  assert (forall fn sem, implements log_apply never never log_start log_env fn sem ->
            data fn = (owned_work never never sem []).2) as H.
  { intros fn sem Hfn.
    destruct (scopes_all_or_nothing log_apply never never log_start log_env log_db fn sem log_served Hfn) as (_ & _ & H & _).
    destruct (H Hp Background None log_world eq_refl) as [_ [_ [Hc _]]]. exact Hc. }
  assert (keeps log_apply never never log_start log_env open (both (does log_apply (plain "a")) (always Succeeds))) as Hk.
  { apply keeps_then; [done|by apply writes_does|apply keeps_query; [apply log_served|vm_compute; reflexivity]]. }
  destruct (scopes_all_or_nothing log_apply never never log_start log_env log_db _ _ log_served log_implements) as (_ & _ & _ & HK).
  destruct (proj1 (HK open _ Hk) Hp Background None log_world eq_refl eq_refl) as (He & Hc & _).
  split; [exact (H _ _ log_implements)|]. split; [|split; [|split; [exact Hc|exact He]]].
  - etransitivity; [apply (H failing (both log_sem (always Fails)))|reflexivity].
    apply implements_then; [exact log_implements|]. apply (implements_return log_apply never never log_start log_env (Some (errors_New "no"))).
  - etransitivity; [apply (H _ (both log_sem (always (Throws (PanicWith 3)))))|reflexivity].
    apply implements_then; [exact log_implements|]. apply (implements_panic log_apply never never log_start log_env (PanicWith 3)).
Defined.
