(* ===== verification/ExecRows.v ===== *)
(** * ExecRows: reading the rows of a query ([executor.go])

    The sequence [rowsPreparedRequired] makes, the cardinality it enforces,
    and the functions that drain it.  A consumer is what the body of a
    [range] over the sequence does: it takes what it has accumulated and a
    yielded pair and tells whether to go on.  The bodies of the package keep
    nothing but variables of their own, so a consumer is a function.

    The read loop ends when the driver says there is no next row; its fuel
    bounds the number of rows.  A context that carries the private
    [rowTerminal] of a page is not modelled here ([Page]), nor is the check
    that the executor compiles for the engine that prepared the query.  A
    decoder reads the rows; the codecs between them ([codecScanSource]) are
    part of it. *)

From S2P Require Import Prelude GoText Schema Query Render Dialect Page Typed GraphKey Prog Exec ExecScope ExecQuiet.
Open Scope string_scope.
Open Scope list_scope.
Open Scope nat_scope.
Open Scope prog_scope.

Inductive Cardinality := Many | AtMostOne | ExactlyOne.
(** [consumer > policy], the constants being numbered from 1. *)
Definition cardinality_rank (c : Cardinality) : nat := match c with Many => 1 | AtMostOne => 2 | ExactlyOne => 3 end.
(** [noRowsError] unwraps to the error of [database/sql]. *)
Definition ErrNoRows : error := MkError (KTyped "noRowsError") "rasql: expected one row, got none" [AErr (errors_New "sql: no rows in result set")].
Definition ErrMultipleRows : error := errors_New "rasql: expected one row, got more than one".

Section Rows.
Context {R : Type}.
(** A row decoder: it reads the current row of its source.  One that binds the
    returned columns gives a decoder and the columns it expects. *)
Record RowDecoder := MkDecoder { DecodeRow : ResultRows -> M (result R) }.
Record parameterSlot := MkSlot { sl_index : Z; sl_bound : bool }.
Record preparedRows := MkPrepared {
  pr_statement : Statement; pr_columns : list string; pr_decoder : RowDecoder;
  pr_binder : option (list string -> result (RowDecoder * list string));
  pr_cardinality : Cardinality; pr_emptyErr : option error; pr_parameters : list parameterSlot }.

Section Consumer.
Context {A : Type}.
Variable yield : A -> option R -> option error -> A * bool.

(** [finished := owned.Finish(cause, early); yield(zero, finished); return]. *)
Definition abandon (rows : ResultRows) (cause : error) (early : bool) (a : A) : M A :=
  let! finished := Finish rows (Some cause) early in Ret (yield a None finished).1.
(** The row given to the consumer; when it stops, consumption is completed. *)
Definition emit (rows : ResultRows) (v : R) (a : A) : M (A * bool) :=
  let '(a, more) := yield a (Some v) None in
  if more then Ret (a, true) else let! _ := Finish rows None true in Ret (a, false).
(** The loop: what is accumulated, and the row held back when it ends by
    itself rather than returning. *)
Fixpoint rows_loop (fuel : nat) (rows : ResultRows) (decoder : RowDecoder) (singleRow : bool) (held : option R) (a : A) : M (A * option (option R)) :=
  match fuel with
  | 0 => Block
  | S fuel' =>
      let! more := Next rows in
      if negb more then Ret (a, Some held)
      else
        let! value := DecodeRow decoder rows in
        match value with
        | Err e => let! a := abandon rows e true a in Ret (a, None)
        | Ok v =>
            if negb singleRow then
              RecordRow rows ;;
              let! (a, more) := emit rows v a in
              if more then rows_loop fuel' rows decoder singleRow held a else Ret (a, None)
            else match held with
            | Some _ => let! a := abandon rows ErrMultipleRows true a in Ret (a, None)
            | None => RecordRow rows ;; rows_loop fuel' rows decoder singleRow (Some v) a
            end
        end
  end.
Definition column_mismatch (expected columns : list string) : option error :=
  if negb (length columns =? length expected)
  then Some (planError "result_columns_mismatch" "result.columns" "column count differs from prepared schema")
  else match find (fun p => negb (String.eqb p.1.1 p.1.2)) (combine (combine columns expected) (seq 0 (length columns))) with
       | Some (_, i) => Some (planError "result_columns_mismatch" ("result.columns[" +:+ NatItoa i +:+ "]") "column name differs from prepared schema")
       | None => None
       end.
(** The decoder and why the returned columns are refused. *)
Definition bind_columns (prepared : preparedRows) (columns : list string) : result RowDecoder :=
  match pr_binder prepared with
  | Some bind =>
      do b <- bind columns;
      if negb (length columns =? length b.2)
      then Err (planError "result_columns_mismatch" "result.columns" "column count differs from prepared schema") else Ok b.1
  | None => match column_mismatch (pr_columns prepared) columns with Some e => Err e | None => Ok (pr_decoder prepared) end
  end.
(** What the sequence does with the rows the executor returned. *)
Definition consume (fuel : nat) (prepared : preparedRows) (consumer : Cardinality) (rows : ResultRows) (a : A) : M A :=
  let! (columns, err) := Columns rows in
  match err with
  | Some e => abandon rows e true a
  | None =>
      match bind_columns prepared columns with
      | Err e => abandon rows e true a
      | Ok decoder =>
          let policy := if cardinality_rank (pr_cardinality prepared) <? cardinality_rank consumer then consumer else pr_cardinality prepared in
          let! (a, ended) := rows_loop fuel rows decoder (match policy with Many => false | _ => true end) None a in
          match ended with
          | None => Ret a
          | Some held =>
              let! err := Rows_Err rows in
              match err with
              | Some e => abandon rows e false a
              | None =>
                  match policy, held with
                  | ExactlyOne, None => abandon rows (default ErrNoRows (pr_emptyErr prepared)) false a
                  | _, _ =>
                      let! (a, more) := match held with Some v => emit rows v a | None => Ret (a, true) end in
                      if negb more then Ret a
                      else
                        let! err := Finish rows None false in
                        match err with Some e => Ret (yield a None (Some e)).1 | None => Ret a end
                  end
              end
          end
      end
  end.
Definition unbound_error (prepared : preparedRows) : option error :=
  match find (fun s => negb (sl_bound s)) (pr_parameters prepared) with
  | Some s => Some (planError "parameter_unbound" ("binds[" +:+ Itoa (sl_index s) +:+ "]") "parameter has no value; call Prepared.Bind before running")
  | None => None
  end.
(** The sequence, ranged over once. *)
Definition range_rows (fuel : nat) (db : DB) (ctx : Context) (prepared : preparedRows) (consumer : Cardinality) (a : A) : M A :=
  let! (owned, err) := DB_Query db ctx (pr_statement prepared) in
  match err, owned with
  | Some e, _ => Ret (yield a None (Some e)).1
  | None, None => Ret (yield a None (Some (errors_New "executor returned nil rows"))).1
  | None, Some rows => consume fuel prepared consumer rows a
  end.
End Consumer.

(** ** The consumers *)
(** [appendRows]: the slice and the error; on an error the slice is as long as
    it was. *)
Definition append_body (start : nat) (acc : list R * option error) (value : option R) (err : option error) : (list R * option error) * bool :=
  match err, value with
  | Some e, _ => ((take start acc.1, Some e), false)
  | None, Some v => ((acc.1 ++ [v], None), true)
  | None, None => (acc, true)
  end.
Definition AppendAll (fuel : nat) (db : DB) (ctx : Context) (dst : list R) (prepared : preparedRows) : M (list R * option error) :=
  match unbound_error prepared with
  | Some e => Ret (dst, Some e)
  | None => range_rows (append_body (length dst)) fuel db ctx prepared Many (dst, None)
  end.
Definition All (fuel : nat) (db : DB) (ctx : Context) (prepared : preparedRows) : M (result (list R)) :=
  let! (values, err) := AppendAll fuel db ctx [] prepared in
  Ret match err with Some e => Err e | None => Ok values end.
(** The last row yielded, how many were, and the error that ended the range. *)
Definition row_body (acc : option R * nat * option error) (value : option R) (err : option error) : (option R * nat * option error) * bool :=
  match err with
  | Some e => ((acc.1, Some e), false)
  | None => ((value, acc.1.2 + 1, acc.2), true)
  end.
Definition One (fuel : nat) (db : DB) (ctx : Context) (prepared : preparedRows) : M (result (option R)) :=
  match unbound_error prepared with
  | Some e => Ret (Err e)
  | None =>
      let! acc := range_rows row_body fuel db ctx prepared ExactlyOne (None, 0, None) in
      Ret match acc.2 with Some e => Err e | None => Ok acc.1.1 end
  end.
Definition Maybe (fuel : nat) (db : DB) (ctx : Context) (prepared : preparedRows) : M (result (option R * bool)) :=
  match unbound_error prepared with
  | Some e => Ret (Err e)
  | None =>
      let! acc := range_rows row_body fuel db ctx prepared AtMostOne (None, 0, None) in
      Ret match acc.2 with Some e => Err e | None => Ok (acc.1.1, acc.1.2 =? 1) end
  end.
End Rows.
