(* ===== verification/ExecRead.v ===== *)
(** * ExecRead: what draining a query gives, and what it leaves behind

    Against a driver whose result set has [n] rows, [All], [AppendAll],
    [One] and [Maybe] return what a reference says of the decoded rows, and
    whichever way they end the rows are closed exactly once and the token of
    the transaction is free again. *)

From S2P Require Import Prelude GoText Schema Query Render Dialect Page Typed GraphKey Prog Exec ExecScope ExecQuiet ExecRows.
Open Scope string_scope.
Open Scope list_scope.
Open Scope nat_scope.
Open Scope prog_scope.

(** ** The result set *)
Definition advances (r : N) (c : call) : bool := match c with RowsNext x => N.eqb x r | _ => false end.
Definition closing (r : N) (c : call) : bool := match c with RowsClose x => N.eqb x r | _ => false end.
Definition calls (f : call -> bool) (t : list (step answer (panic := panic_value))) : nat :=
  length (List.filter (fun st => f (st_call st)) t).
(** The driver's rows [r]: how many there are, and the errors it reports. *)
Record result_set := MkResultSet {
  rs_id : N; rs_rows : nat; rs_columns : list string; rs_columnErr : option error; rs_iterErr : option error; rs_closeErr : option error }.
Definition offers (q : result_set) (env : environment answer (panic := panic_value)) : Prop :=
  permitting env /\
  forall t,
    (forall h ctx s, env t (QueryContext h ctx s) = Returns (Some (rs_id q), None)) /\
    env t (RowsColumns (rs_id q)) = Returns (rs_columns q, rs_columnErr q) /\
    env t (RowsNext (rs_id q)) = Returns (calls (advances (rs_id q)) t <? rs_rows q) /\
    env t (RowsErr (rs_id q)) = Returns (rs_iterErr q) /\
    env t (RowsClose (rs_id q)) = Returns (rs_closeErr q).

(** ** The reference *)
Section Reference.
Context {R : Type}.
Fixpoint first_error (l : list (result R)) : option error :=
  match l with [] => None | Err e :: _ => Some e | Ok _ :: l' => first_error l' end.
Definition decoded_values (l : list (result R)) : list R := omap (fun r => match r with Ok v => Some v | Err _ => None end) l.
(** What a cardinality makes of the decoded rows and the error that ended the
    iteration. *)
Definition expected (policy : Cardinality) (emptyErr iterErr : option error) (l : list (result R)) : result (list R) :=
  let considered := match policy with Many => l | _ => take 2 l end in
  match first_error considered, policy with
  | Some e, _ => Err e
  | None, Many => match iterErr with Some e => Err e | None => Ok (decoded_values l) end
  | None, _ =>
      if 2 <=? length l then Err ErrMultipleRows
      else match iterErr, l, policy with
           | Some e, _, _ => Err e
           | None, [], ExactlyOne => Err (default ErrNoRows emptyErr)
           | None, _, _ => Ok (decoded_values l)
           end
  end.
End Reference.

(** The error returned joins its cause first. *)
Definition joins (cause e : error) : Prop := exists l, errors_Join (Some cause :: l) = Some e.
Lemma joined cause l : exists e, errors_Join (Some cause :: l) = Some e /\ joins cause e.
Proof. destruct (errors_Join (Some cause :: l)) as [e|] eqn:E; [|done]. exists e. split; [done|]. by exists l. Qed.

Section Read.
Variable q : result_set.
Variable env : environment answer (panic := panic_value).
Hypothesis Henv : offers q env.
Let r := rs_id q.
Let n := rs_rows q.
Abbreviation W := (world answer (state := shared) (panic := panic_value)).
Abbreviation runs := (runs env).

Definition seen (w : W) : nat := calls (advances r) (trace w).
Definition closures (w : W) : nat := calls (closing r) (trace w).
(** Neither advances nor closes the rows, and leaves the cells but [x]. *)
Definition still (x : option N) (w w' : W) : Prop :=
  seen w' = seen w /\ closures w' = closures w /\ same_cells x w w'.
Lemma calls_app f t t' : calls f (t ++ t') = calls f t + calls f t'.
Proof. unfold calls. by rewrite List.filter_app, length_app. Qed.
Lemma calls_silent f t : (forall c, f c = true -> is_driver c = true) -> Forall (fun st => is_driver (st_call st) = false) t -> calls f t = 0.
Proof.
  intros Hf. unfold calls. induction 1 as [|st t H _ IH]; [done|]. simpl. destruct (f (st_call st)) eqn:E; [|done].
  apply Hf in E. congruence.
Qed.
Lemma driver_advances c : advances r c = true -> is_driver c = true.
Proof. by destruct c. Qed.
Lemma driver_closing c : closing r c = true -> is_driver c = true.
Proof. by destruct c. Qed.
Lemma silent_still w w' : silent_to w w' -> still None w w'.
Proof.
  intros ((t & E & F) & S & _). unfold still, seen, closures. rewrite E, !calls_app.
  rewrite (calls_silent (advances r) t driver_advances F), (calls_silent (closing r) t driver_closing F).
  split; [lia|]. split; [lia|done].
Qed.
Lemma silent_rows w w' : silent_to w w' -> same_rows w w'.
Proof. by intros (_ & _ & H). Qed.
Lemma still_trans x w1 w2 w3 : still x w1 w2 -> still x w2 w3 -> still x w1 w3.
Proof. intros (A1 & B1 & C1) (A2 & B2 & C2). split; [congruence|]. split; [congruence|]. by eapply same_cells_trans. Qed.

(** ** The rows being read *)
Fixpoint intact (b : option N) (rows : ResultRows) (w : W) : Prop :=
  match rows with
  | Owned c => b = None
  | Exclusive inner released b' =>
      (exists c, inner = Owned c) /\ b = Some b' /\ token (Some released) false w /\ token (Some b') true w
  | Evented inner _ finished _ _ _ _ _ => intact b inner w /\ b <> Some finished
  end.
Lemma intact_same b rows w w' : intact b rows w -> same_cells None w w' -> intact b rows w'.
Proof.
  intros H Hs. revert b H. induction rows as [c|inner IH released b'|inner IH]; intros b; simpl; [done| |by intros [H ?]; split; [apply IH|]].
  intros (Hi & -> & Hr & Hb). split; [done|]. split; [done|].
  split; [exact (token_same None (Some released) false w w' ltac:(done) Hr Hs)|exact (token_same None (Some b') true w w' ltac:(done) Hb Hs)].
Qed.
Definition at_rows (rows : ResultRows) (st : ownedRows) (w : W) : Prop :=
  (innermost rows < next_cell (cells w))%N /\ owned (cells w) !! innermost rows = Some st.
(** Nothing has gone wrong so far. *)
Definition clean (st : ownedRows) : Prop :=
  or_rows st = Some r /\ completed st = false /\ closed st = false /\ exhausted st = false /\
  iterErr st = None /\ scanErr st = None /\ columnErr st = None /\ closeErr st = None.
Record reading (b : option N) (rows : ResultRows) (k z : nat) (w : W) : Prop := MkReading {
  rd_intact : intact b rows w; rd_at : exists st, at_rows rows st w /\ clean st; rd_seen : seen w = k; rd_closed : closures w = z }.
(** The end: closed once, and the token given back. *)
Definition released (b : option N) (z : nat) (w : W) : Prop := closures w = S z /\ token b false w.
Lemma at_rows_lookup rows st w : at_rows rows st w -> rows_at (innermost rows) (cells w) = st.
Proof. intros [_ H]. unfold rows_at. by rewrite H. Qed.
Lemma at_rows_silent rows st w w' : at_rows rows st w -> silent_to w w' -> at_rows rows st w'.
Proof.
  intros [L H] Hs. pose proof (silent_rows _ _ Hs) as Hr. destruct Hs as (_ & [L' _] & _). split; [lia|]. by rewrite Hr.
Qed.
Lemma token_silent b taken w w' : token b taken w -> same_cells None w w' -> token b taken w'.
Proof. intros H Hs. exact (token_same None b taken w w' ltac:(done) H Hs). Qed.

(** ** The steps of a program *)
Lemma runs_ask {B} c a (f : answer c -> M B) w (Q : outcome B -> W -> Prop) :
  env (trace w) c = Returns a -> runs (f a) (MkWorld (cells w) (trace w ++ [MkStep c (Returns a)])) Q -> runs (bind (ask c) f) w Q.
Proof. unfold ExecQuiet.runs, ask. intros E H. rewrite run_bind, run_request, E. done. Qed.
Lemma runs_gets {A B} (g : shared -> A) (f : A -> M B) w (Q : outcome B -> W -> Prop) : runs (f (g (cells w))) w Q -> runs (bind (gets g) f) w Q.
Proof. done. Qed.
Lemma runs_change {B} c g (f : unit -> M B) w (Q : outcome B -> W -> Prop) :
  runs (f tt) (MkWorld (set_owned c (g (rows_at c (cells w))) (cells w)) (trace w)) Q -> runs (bind (change_rows c g) f) w Q.
Proof. done. Qed.
Lemma change_done c g w (Q : outcome unit -> W -> Prop) :
  Q (Done tt) (MkWorld (set_owned c (g (rows_at c (cells w))) (cells w)) (trace w)) -> runs (change_rows c g) w Q.
Proof. done. Qed.
Lemma calls_one f t c a : calls f (t ++ [MkStep c a]) = (if f c then S (calls f t) else calls f t).
Proof. rewrite calls_app. unfold calls at 2. simpl. destruct (f c); simpl; lia. Qed.

Lemma runs_complete db i o phase ctx err z early w (Q : outcome unit -> W -> Prop) :
  (forall w', silent_to w w' -> Q (Done tt) w') -> runs (completeInvocation db i o phase ctx err z early) w Q.
Proof.
  intros H. unfold ExecQuiet.runs. destruct (silent_complete env (proj1 Henv) db i o phase ctx err z early w) as ([] & w' & E & _ & Hs).
  rewrite E. by apply H.
Qed.
(** [Finish] of the rows a query owns. *)
Definition finish_error (cause : option error) (st : ownedRows) : option error :=
  errors_Join [cause; columnErr st; scanErr st; iterErr st; if closed st then closeErr st else errors_Join [closeErr st; rs_closeErr q]].
Lemma runs_owned_Finish c cause early st w :
  owned (cells w) !! c = Some st -> (c < next_cell (cells w))%N -> or_rows st = Some r -> completed st = false ->
  runs (owned_Finish c cause early) w (fun o w' =>
    o = Done (finish_error cause st) /\ closures w' = closures w + (if closed st then 0 else 1) /\ same_cells None w w').
Proof.
  intros Hc L Hr Hcomp. unfold owned_Finish. apply runs_gets.
  assert (rows_at c (cells w) = st) as E by (unfold rows_at; by rewrite Hc).
  rewrite E, Hcomp, Hr, bool_decide_eq_true_2, andb_true_r by (by eexists). apply runs_change. rewrite E.
  eapply (runs_bind _ _ _ (fun o w' => o = Done tt /\ closures w' = closures w + (if closed st then 0 else 1) /\ same_cells None w w' /\
    exists st', owned (cells w') !! c = Some st' /\ finish_error cause st = errors_Join [cause; columnErr st'; scanErr st'; iterErr st'; closeErr st']));
    [| |by intros v w' []|by intros w' []].
  - unfold finish_error. destruct (closed st); cbn [negb].
    + apply runs_ret. split; [done|]. split; [unfold closures; simpl; lia|]. split; [done|].
      eexists. split; [simpl; by rewrite lookup_insert_eq|done].
    + eapply runs_ask; [apply Henv|]. apply change_done. split; [done|].
      split; [unfold closures; cbn [trace]; rewrite calls_one; cbn [closing]; rewrite N.eqb_refl; lia|]. split; [done|].
      eexists. split; [cbn [cells set_owned owned]; by rewrite lookup_insert_eq|].
      unfold rows_at. cbn [cells set_owned owned]. rewrite lookup_insert_eq. done.
  - intros [] w1 (_ & Hcl & Hs & st' & Hst' & ->). apply runs_gets. unfold rows_at. rewrite Hst'. cbn [default].
    apply (runs_bind _ _ _ (fun o w' => o = Done tt /\ silent_to w1 w')); [by apply runs_complete| |by intros v w' []|by intros w' []].
    intros [] w' [_ Hs']. apply runs_ret. destruct (silent_still _ _ Hs') as (_ & Hcl' & Hsame). split; [done|].
    split; [congruence|]. by eapply same_cells_trans.
Qed.

Lemma runs_Finish b rows cause early st w :
  intact b rows w -> at_rows rows st w -> or_rows st = Some r -> completed st = false ->
  runs (Finish rows cause early) w (fun o w' =>
    o = Done (finish_error cause st) /\ closures w' = closures w + (if closed st then 0 else 1) /\ token b false w').
Proof.
  intros Hi Hat Hr Hc. revert Hi Hat. induction rows as [c|inner _ rel b'|inner IH cnt fin ctx completion id parent index]; cbn [Finish intact].
  - intros -> [L Hat]. eapply runs_mono; [|by apply (runs_owned_Finish c cause early st)]. intros o w' (-> & Hz & _). done.
  - intros ((c & ->) & -> & Hrel & Hb) [L Hat]. eapply runs_bind; [by apply (runs_owned_Finish c cause early st)| |by intros v w' []|by intros w' []].
    intros res w1 ([= ->] & Hz & Hs). apply (runs_first_time env). intros w2 Ht2 _ Hs2 _.
    assert (token (Some rel) false w1) as [_ Hrel1] by by eapply token_silent.
    assert (token (Some b') true w1) as Hb1 by by eapply token_silent. rewrite Hrel1. cbn [default negb].
    assert (rel <> b') as Hne by (intros ->; destruct Hb1 as [_ Hb1]; congruence).
    assert (token (Some b') true w2) as Hb2 by (eapply (token_same (Some rel)); [|done..]; congruence).
    apply (runs_give_back env (Some b')); [done|]. intros w3 Ht3 _ _ Hb3. apply runs_ret. split; [done|].
    split; [|done]. unfold closures in *. congruence.
  - intros [Hi Hb] Hat. eapply runs_bind; [by apply IH| |by intros v w' []|by intros w' []].
    intros res w1 ([= ->] & Hz & Htok). apply (runs_first_time env). intros w2 Ht2 _ Hs2 _.
    assert (token b false w2) as Htok2 by (eapply (token_same (Some fin)); [|done..]; congruence).
    eapply (runs_silent _ _ _ (fun _ => True)).
    + destruct (negb _); [|apply silent_skip]. eapply silent_bind; [apply silent_gets|]. intros z _. apply silent_completeEvent, Henv.
    + intros _ w3 _ Hs3. apply runs_ret. destruct (silent_still _ _ Hs3) as (_ & Hz3 & Hsame3).
      split; [done|]. split; [rewrite Hz3; unfold closures in *; congruence|]. by eapply token_silent.
Qed.

Lemma seen_one w c a : calls (advances r) (trace w ++ [MkStep c a]) = if advances r c then S (seen w) else seen w.
Proof. apply calls_one. Qed.
Lemma closures_one w c a : calls (closing r) (trace w ++ [MkStep c a]) = if closing r c then S (closures w) else closures w.
Proof. apply calls_one. Qed.
(** The end of the iteration, which closes the rows. *)
Record ended (b : option N) (rows : ResultRows) (z : nat) (w : W) : Prop := MkEnded {
  en_intact : intact b rows w;
  en_at : exists st, at_rows rows st w /\ or_rows st = Some r /\ completed st = false /\ closed st = true /\
            iterErr st = errors_Join [None; rs_iterErr q] /\ scanErr st = None /\ columnErr st = None /\
            closeErr st = errors_Join [None; rs_closeErr q];
  en_closed : closures w = S z }.
Lemma runs_Next b rows k z w (P : outcome bool -> W -> Prop) :
  reading b rows k z w ->
  (k < n -> forall w', reading b rows (S k) z w' -> P (Done true) w') ->
  (n <= k -> forall w', ended b rows z w' -> P (Done false) w') -> runs (Next rows) w P.
Proof.
  intros [Hi (st & Hat & Hc) Hk Hz] Ht Hf. unfold Next, owned_Next. apply runs_gets. rewrite (at_rows_lookup _ _ _ Hat).
  destruct Hc as (Hr & Hc). rewrite Hr. eapply runs_ask; [apply Henv|]. fold r n. fold (seen w). rewrite Hk.
  destruct (k <? n) eqn:E; [apply Nat.ltb_lt in E|apply Nat.ltb_ge in E].
  - apply runs_ret. apply Ht; [done|]. split.
    + by eapply intact_same.
    + by exists st.
    + unfold seen. cbn [trace]. rewrite seen_one. cbn [advances]. by rewrite N.eqb_refl, Hk.
    + unfold closures. cbn [trace]. rewrite closures_one. by cbn [closing].
  - eapply runs_ask; [apply Henv|]. eapply runs_ask; [apply Henv|]. apply runs_change. apply runs_ret. apply Hf; [done|].
    destruct Hat as [L Hst]. split.
    + by eapply intact_same.
    + eexists. split; [split; [done|]; cbn [cells set_owned owned]; by rewrite lookup_insert_eq|].
      unfold rows_at. cbn [cells]. rewrite Hst. destruct Hc as (Hco & Hcl & Hex & Hit & Hsc & Hcol & Hce). cbn [default exhaust or_rows completed closed iterErr scanErr columnErr closeErr orb].
      unfold id. by rewrite Hit, Hce.
    + unfold closures. cbn [trace]. rewrite calls_one. cbn [closing]. rewrite N.eqb_refl. cbn [trace]. rewrite calls_one. cbn [closing trace].
      rewrite closures_one. cbn [closing]. by rewrite Hz.
Qed.
Lemma clean_count st : clean st -> clean (count_row st).
Proof. done. Qed.
Lemma change_row b rows g k z w : (forall st, clean st -> clean (g st)) -> reading b rows k z w ->
  reading b rows k z (MkWorld (set_owned (innermost rows) (g (rows_at (innermost rows) (cells w))) (cells w)) (trace w)).
Proof.
  intros Hg [Hi (st & Hat & Hc) Hk Hz]. rewrite (at_rows_lookup _ _ _ Hat). destruct Hat as [L Hst]. split; [by eapply intact_same| |done|done].
  eexists. split; [split; [done|]; cbn [cells set_owned owned]; by rewrite lookup_insert_eq|]. by apply Hg.
Qed.
Lemma runs_RecordRow b rows k z w (P : outcome unit -> W -> Prop) :
  reading b rows k z w -> (forall w', reading b rows k z w' -> P (Done tt) w') -> runs (RecordRow rows) w P.
Proof.
  revert w. assert (forall rows', innermost rows' = innermost rows -> forall w,
    reading b rows k z w -> (forall w', reading b rows k z w' -> P (Done tt) w') -> runs (RecordRow rows') w P) as H; [|by apply H].
  intros rows'. induction rows' as [c|inner IH rel b'|inner IH cnt fin ctx completion id parent index]; cbn [RecordRow innermost]; intros E w Hw HP.
  - subst c. apply change_done. apply HP. apply change_row; [|done]. apply clean_count.
  - by apply IH.
  - unfold add_counter, update. unfold ExecQuiet.runs. cbn [bind run]. apply IH; [done| |done].
    destruct Hw as [Hi (st & Hat & Hc) Hk Hz]. split; [by eapply intact_same| |done|done]. by exists st.
Qed.

(** ** The query *)
Lemma runs_query_around {B} db ctx s h (f : Context * (option N * option error) -> M B) w (P : outcome B -> W -> Prop) :
  (forall c w', still None w w' -> runs (f (c, (Some r, None))) w' P) -> runs (bind (query_around db ctx s h) f) w P.
Proof.
  intros HP. pose proof (proj1 Henv) as Hp.
  eapply (runs_bind _ _ _ (fun o w' => exists c, o = Done (c, (Some r, None)) /\ still None w w')).
  2,3,4: intros; naive_solver.
  unfold query_around, around. eapply runs_silent; [by apply silent_start|]. intros [c i] w1 _ H1%silent_still.
  eapply runs_silent; [by apply silent_before|]. intros [entered refused] w2 [= ->] H2%silent_still.
  eapply (runs_ask (QueryContext h c s) (Some r, None)); [apply (proj2 Henv)|].
  set (w3 := MkWorld _ _). assert (still None w2 w3) as H3 by (split; [|split; [|done]]; unfold seen, closures; cbn [trace]; apply calls_one).
  eapply runs_silent; [by apply silent_observe|]. intros _ w4 _ H4%silent_still.
  eapply runs_silent; [by apply silent_complete|]. intros _ w5 _ H5%silent_still.
  eapply runs_silent; [by apply silent_after|]. intros x w6 -> H6%silent_still. apply runs_ret. exists c. split; [done|].
  eauto 7 using still_trans.
Qed.
Lemma reading_silent b rows k z w w' : reading b rows k z w -> silent_to w w' -> reading b rows k z w'.
Proof.
  intros [Hi (st & Hat & Hc) Hk Hz] Hs. pose proof (silent_still _ _ Hs) as (Hk' & Hz' & Hsame).
  split; [by eapply intact_same|exists st; split; [by eapply at_rows_silent|done]|congruence|congruence].
Qed.
Lemma runs_queryOwned {B} db ctx s h (f : option N * option error -> M B) w (P : outcome B -> W -> Prop) :
  validStatement db s = Ok h -> seen w = 0 ->
  (forall c w', same_cells None w w' -> reading None (Owned c) 0 (closures w) w' -> runs (f (Some c, None)) w' P) ->
  runs (bind (queryOwned db ctx s) f) w P.
Proof.
  intros Hv H0 HP. pose proof (proj1 Henv) as Hp.
  eapply (runs_bind _ _ _ (fun o w' => exists c, o = Done (Some c, None) /\ same_cells None w w' /\ reading None (Owned c) 0 (closures w) w')).
  2,3,4: intros; naive_solver.
  unfold queryOwned. rewrite Hv. apply runs_query_around. intros c w1 H1.
  eapply runs_silent; [by apply silent_start|]. intros [c' i] w2 _ H2%silent_still.
  pose proof (still_trans _ _ _ _ H1 H2) as (Hs & Hz & Hsame).
  set (st := MkOwnedRows _ _ _ i _ _ _ _ _ _ _ _). unfold new_rows, update, ExecQuiet.runs. cbn [bind run fst snd]. eexists. split; [done|].
  split; [split; [destruct Hsame; cbn; lia|]|].
  - intros x L _. destruct Hsame as [_ Hf]. by apply Hf.
  - split; [done| |by rewrite <- H0|done]. exists st. split; [|done]. split; [simpl; lia|]. simpl. by rewrite lookup_insert_eq.
Qed.
Lemma runs_queryGuarded {B} db ctx s h (f : option ResultRows * option error -> M B) w (P : outcome B -> W -> Prop) :
  validStatement db s = Ok h -> token (busy db) false w -> seen w = 0 ->
  (forall rows w', same_cells (busy db) w w' -> reading (busy db) rows 0 (closures w) w' -> runs (f (Some rows, None)) w' P) ->
  runs (bind (queryGuarded db ctx s) f) w P.
Proof.
  intros Hv Ht H0 HP.
  eapply (runs_bind _ _ _ (fun o w' => exists rows, o = Done (Some rows, None) /\ same_cells (busy db) w w' /\ reading (busy db) rows 0 (closures w) w')).
  2,3,4: intros; naive_solver.
  unfold queryGuarded. apply (runs_acquire env); [done|]. intros w1 E1 _ Hs1 Ht1. cbn [negb].
  assert (seen w1 = 0) as H1 by (unfold seen; by rewrite E1). assert (closures w1 = closures w) as <- by (unfold closures; by rewrite E1).
  eapply runs_queryOwned; [done|done|]. intros c w2 Hs2 Hr. destruct (busy db) as [b|] eqn:Eb.
  - apply (runs_new_flag env). intros rel w3 E3 Hr3 Hs3 Hnew Hrel. apply runs_ret. exists (Exclusive (Owned c) rel b). split; [done|].
    assert (same_cells None w1 w3) as Hs13 by by eapply same_cells_trans.
    split; [eapply same_cells_trans; [done|]; by apply same_cells_weaken|].
    destruct Hr as [_ (st & (L & Hst) & Hc) Hk Hz]. split.
    + split; [by exists c|]. split; [done|]. split; [done|]. by eapply token_silent.
    + exists st. split; [split; [destruct Hs3; simpl in *; lia|]|done]. simpl in *. by rewrite Hr3.
    + unfold seen in *. by rewrite E3.
    + unfold closures in *. by rewrite E3.
  - apply runs_ret. exists (Owned c). split; [done|]. split; [by eapply same_cells_trans|done].
Qed.
Lemma silent_statement counter : silent env (nextEventStatement counter) (fun _ => True).
Proof. destruct counter as [c|]; [by apply (silent_update _ (fun _ => True))|apply silent_skip]. Qed.
Lemma runs_Query {B} db ctx s h (f : option ResultRows * option error -> M B) w (P : outcome B -> W -> Prop) :
  validStatement db s = Ok h -> token (busy db) false w -> seen w = 0 ->
  (forall rows w', reading (busy db) rows 0 (closures w) w' -> runs (f (Some rows, None)) w' P) -> runs (bind (DB_Query db ctx s) f) w P.
Proof.
  intros Hv Ht H0 HP. pose proof (proj1 Henv) as Hp. unfold DB_Query. destruct (_ =? 0).
  { eapply runs_queryGuarded; [done..|]. eauto. }
  eapply (runs_bind _ _ _ (fun o w' => exists rows, o = Done (Some rows, None) /\ reading (busy db) rows 0 (closures w) w')).
  2,3,4: intros; naive_solver.
  unfold queryObserved. eapply runs_silent; [by apply silent_eventID|]. intros id w1 _ H1%silent_still.
  eapply runs_silent; [apply silent_statement|]. intros index w2 _ H2%silent_still.
  eapply runs_silent; [by apply silent_startEvent|]. intros [c completion] w3 _ H3%silent_still.
  pose proof (still_trans _ _ _ _ (still_trans _ _ _ _ H1 H2) H3) as (Hs & <- & Hsame).
  eapply runs_queryGuarded; [done|by eapply token_silent|congruence|]. intros rows w4 Hs4 Hr.
  eapply runs_silent; [by apply (silent_update _ (fun _ => True)); intros; simpl; split; [done|]; split; [lia|]|]. intros cnt w5 _ H5.
  pose proof (reading_silent _ _ _ _ _ _ Hr H5) as Hr5. apply (runs_new_flag env). intros fin w6 E6 Hr6 Hs6 Hnew _. apply runs_ret.
  eexists. split; [done|]. destruct Hr5 as [Hi (st & (L & Hst) & Hc) Hk Hz]. split.
  - split; [by eapply intact_same|]. intros E. destruct (busy db) as [b|]; [|done]. injection E as ->.
    destruct Ht as [Lb _]. destruct Hsame as [L1 _], Hs4 as [L4 _], H5 as (_ & [L5 _] & _). lia.
  - exists st. split; [split; [destruct Hs6; simpl in *; lia|]|done]. simpl in *. by rewrite Hr6.
  - unfold seen in *. by rewrite E6.
  - unfold closures in *. by rewrite E6.
Qed.

(** ** The consumer *)
Context {R A : Type}.
Variable yield : A -> option R -> option error -> A * bool.
Variable add : A -> R -> A.
Hypothesis yield_value : forall a v, yield a (Some v) None = (add a v, true).
Definition fails (a : A) (e : error) : A := (yield a None (Some e)).1.
(** What a sequence that ends in an error leaves. *)
Definition gave_up (a : A) (cause : error) (a' : A) : Prop := exists e, joins cause e /\ a' = fails a e.
Lemma runs_abandon b rows st cause early a z w (P : outcome A -> W -> Prop) :
  intact b rows w -> at_rows rows st w -> or_rows st = Some r -> completed st = false -> closures w = (if closed st then S z else z) ->
  (forall a' w', gave_up a cause a' -> released b z w' -> P (Done a') w') -> runs (abandon yield rows cause early a) w P.
Proof.
  intros Hi Hat Hr Hc Hz HP. unfold abandon.
  eapply runs_bind; [by apply (runs_Finish b _ _ _ st)| |by intros v w' []|by intros w' []].
  intros res w1 ([= ->] & Hz1 & Htok). apply runs_ret. apply HP; [|split; [destruct (closed st); lia|done]].
  unfold finish_error. match goal with |- context [errors_Join (Some cause :: ?l)] => destruct (joined cause l) as (e & -> & He) end.
  by exists e.
Qed.
Lemma runs_abandon_clean b rows cause early a k z w (P : outcome A -> W -> Prop) :
  reading b rows k z w -> (forall a' w', gave_up a cause a' -> released b z w' -> P (Done a') w') -> runs (abandon yield rows cause early a) w P.
Proof.
  intros [Hi (st & Hat & (Hr & Hc & Hcl & _)) Hk Hz] HP. eapply runs_abandon; try done. by rewrite Hcl.
Qed.
Lemma runs_abandon_ended b rows cause early a z w (P : outcome A -> W -> Prop) :
  ended b rows z w -> (forall a' w', gave_up a cause a' -> released b z w' -> P (Done a') w') -> runs (abandon yield rows cause early a) w P.
Proof.
  intros [Hi (st & Hat & Hr & Hc & Hcl & _) Hz] HP. eapply runs_abandon; try done. by rewrite Hcl.
Qed.

(** ** The loop *)
(** The decoder makes of the row at [k] what [decode] says of it: it may scan
    the row, and the rows remember an error of the scan. *)
Definition decodes (d : RowDecoder) (decode : nat -> result R) : Prop :=
  forall rows w k st, at_rows rows st w -> clean st -> seen w = S k -> k < n ->
  runs (DecodeRow d rows) w (fun o w' =>
    o = Done (decode k) /\ still None w w' /\
    exists e, at_rows rows (join_scan e st) w' /\ forall v, decode k = Ok v -> e = None).
Variable d : @RowDecoder R.
Variable decode : nat -> result R.
Hypothesis Hd : decodes d decode.
Lemma runs_decode {B} b rows k z w (f : result R -> M B) (P : outcome B -> W -> Prop) :
  reading b rows (S k) z w -> k < n ->
  (forall v w', decode k = Ok v -> reading b rows (S k) z w' -> runs (f (Ok v)) w' P) ->
  (forall e st w', decode k = Err e -> intact b rows w' -> at_rows rows st w' -> or_rows st = Some r -> completed st = false ->
     closed st = false -> closures w' = z -> runs (f (Err e)) w' P) ->
  runs (bind (DecodeRow d rows) f) w P.
Proof.
  intros [Hi (st & Hat & Hc) Hk Hz] Ln Hv He. eapply runs_bind; [by apply (Hd rows w k st)| |by intros v w' []|by intros w' []].
  intros res w' ([= ->] & (Hk' & Hz' & Hs') & e & Hat' & Hnone). destruct (decode k) as [v|x] eqn:E.
  2:{ destruct Hc as (Hr & Hcomp & Hcl & _). eapply He; try done; [by eapply intact_same|congruence]. }
  - rewrite (Hnone v) in Hat' by done. apply Hv; [done|]. split; [by eapply intact_same| |congruence|congruence].
    eexists. split; [done|]. destruct Hc as (? & ? & ? & ? & ? & Hsc & ? & ?).
    repeat split; cbn [join_scan or_rows completed closed exhausted iterErr scanErr columnErr closeErr]; try done. by rewrite Hsc.
Qed.
(** What the loop makes of the [m] rows left: the values given to the
    consumer, and the row held back or why it gave up. *)
Fixpoint walk (single : bool) (m k : nat) (held : option R) : list R * (option R + error) :=
  match m with
  | 0 => ([], inl held)
  | S m' =>
      match decode k with
      | Err e => ([], inr e)
      | Ok v =>
          if negb single then let '(vs, e) := walk single m' (S k) held in (v :: vs, e)
          else match held with Some _ => ([], inr ErrMultipleRows) | None => walk single m' (S k) (Some v) end
      end
  end.
Definition walked (b : option N) (rows : ResultRows) (z : nat) (a : A) (o : outcome (panic := panic_value) (A * option (option R))) (w : W) (x : list R * (option R + error)) : Prop :=
  let a' := fold_left add x.1 a in
  match x.2 with
  | inl held => o = Done (a', Some held) /\ ended b rows z w
  | inr cause => exists a'', gave_up a' cause a'' /\ o = Done (a'', None) /\ released b z w
  end.
Lemma runs_loop b rows single z fuel m : forall k held a w,
  reading b rows k z w -> m + k = n -> m < fuel ->
  runs (rows_loop yield fuel rows d single held a) w (fun o w' => walked b rows z a o w' (walk single m k held)).
Proof.
  revert m. induction fuel as [|fuel IH]; intros m k held a w Hw Hm Hf; [lia|]. cbn [rows_loop].
  eapply (runs_bind _ _ _ (fun o w' => match m with 0 => o = Done false /\ ended b rows z w' | S _ => o = Done true /\ reading b rows (S k) z w' end)).
  { eapply runs_Next; [done| |]; destruct m; (lia || done). }
  2,3: destruct m; intros; destruct_and?; done.
  intros more w1 H. destruct m as [|m]; destruct H as [[= ->] H]; cbn [negb].
  { by apply runs_ret. }
  assert (k < n) as Hkn by lia. eapply runs_decode; [done|done| |].
  - intros v w2 E H2. cbn [walk]. rewrite E. destruct single; cbn [negb].
    + destruct held as [u|].
      * eapply (runs_bind _ _ _ (fun o w' => exists a', o = Done a' /\ gave_up a ErrMultipleRows a' /\ released b z w')).
        { eapply runs_abandon_clean; [done|]. eauto. }
        2,3: intros; naive_solver.
        intros a' w3 (? & [= <-] & Ha & Hr). apply runs_ret. unfold walked. simpl. eauto.
      * eapply (runs_bind _ _ _ (fun o w' => o = Done tt /\ reading b rows (S k) z w')).
        { eapply runs_RecordRow; [done|]. eauto. }
        2,3: intros; naive_solver.
        intros [] w3 [_ H3]. apply IH; [done|lia|lia].
    + eapply (runs_bind _ _ _ (fun o w' => o = Done tt /\ reading b rows (S k) z w')).
      { eapply runs_RecordRow; [done|]. eauto. }
      2,3: intros; naive_solver.
      intros [] w3 [_ H3]. unfold emit. rewrite yield_value. change (runs (rows_loop yield fuel rows d false held (add a v)) w3 (fun o w' => walked b rows z a o w' (let '(vs, e) := walk false m (S k) held in (v :: vs, e)))).
      eapply runs_mono; [|apply (IH m (S k) held); [done|lia|lia]].
      intros o w4. destruct (walk false m (S k) held) as [vs e]. done.
  - intros e st w2 E Hi Hat Hr Hc Hcl Hz. cbn [walk]. rewrite E.
    eapply (runs_bind _ _ _ (fun o w' => exists a', o = Done a' /\ gave_up a e a' /\ released b z w')).
    { eapply runs_abandon; [exact Hi|exact Hat|exact Hr|exact Hc|by rewrite Hcl|eauto]. }
    2,3: intros; naive_solver.
    intros a' w3 (? & [= <-] & Ha & Hr'). apply runs_ret. unfold walked. simpl. eauto.
Qed.

(** ** The sequence *)
Definition bound (prepared : preparedRows (R := R)) : result (@RowDecoder R) :=
  match rs_columnErr q with Some e => Err e | None => bind_columns prepared (rs_columns q) end.
Definition stricter (c consumer : Cardinality) : Cardinality := if cardinality_rank c <? cardinality_rank consumer then consumer else c.
Definition single_row (c : Cardinality) : bool := match c with Many => false | _ => true end.
(** The values given to the consumer and why the sequence failed, if it did
    before the rows were closed. *)
Definition drained (policy : Cardinality) (emptyErr : option error) : list R * option error :=
  match walk (single_row policy) n 0 None with
  | (vs, inr e) => (vs, Some e)
  | (vs, inl held) =>
      match errors_Join [None; rs_iterErr q], policy, held with
      | Some e, _, _ => (vs, Some e)
      | None, ExactlyOne, None => (vs, Some (default ErrNoRows emptyErr))
      | None, _, _ => (vs ++ match held with Some v => [v] | None => [] end, None)
      end
  end.
(** The error of a sequence whose rows fail to close. *)
Definition close_failure : option error := errors_Join [errors_Join [None; rs_closeErr q]].
Definition left_with (a : A) (x : list R * option error) (a'' : A) : Prop :=
  let a' := fold_left add x.1 a in
  match x.2 with
  | Some c => gave_up a' c a''
  | None => a'' = match close_failure with Some e => fails a' e | None => a' end
  end.
Lemma runs_Columns {B} b rows z (f : list string * option error -> M B) w (P : outcome B -> W -> Prop) :
  reading b rows 0 z w ->
  (forall w' st, intact b rows w' -> at_rows rows st w' -> or_rows st = Some r -> completed st = false -> closed st = false -> closures w' = z ->
     (rs_columnErr q = None -> reading b rows 0 z w') -> runs (f (rs_columns q, rs_columnErr q)) w' P) ->
  runs (bind (Columns rows) f) w P.
Proof.
  intros [Hi (st & Hat & Hc) Hk Hz] HP. pose proof Hc as (Hr & Hcomp & Hcl & _).
  eapply (runs_bind _ _ _ (fun o w' => o = Done (rs_columns q, rs_columnErr q) /\ exists st, intact b rows w' /\ at_rows rows st w' /\ or_rows st = Some r /\
     completed st = false /\ closed st = false /\ closures w' = z /\ (rs_columnErr q = None -> reading b rows 0 z w'))).
  2,3,4: intros; naive_solver.
  unfold Columns, owned_Columns. apply runs_gets. rewrite (at_rows_lookup _ _ _ Hat), Hr. eapply runs_ask; [apply (proj2 Henv)|].
  set (w1 := MkWorld _ _).
  assert (still None w w1) as H1 by (split; [|split; [|done]]; unfold seen, closures; cbn [trace]; apply calls_one).
  assert (reading b rows 0 z w1) as Hw1.
  { destruct H1 as (Hk1 & Hz1 & Hs1). split; [by eapply intact_same|exists st; done|congruence|congruence]. }
  destruct (rs_columnErr q) as [e|].
  - apply runs_change. apply runs_ret. split; [done|]. exists (join_column (Some e) st). destruct Hat as [L Hst], Hw1 as [Hi1 _ _ Hz1].
    rewrite (at_rows_lookup rows st w1) by done. split; [by eapply intact_same|].
    split; [split; [done|]; cbn [cells set_owned owned]; by rewrite lookup_insert_eq|]. done.
  - apply (runs_bind _ _ _ (fun o w' => o = Done tt /\ w' = w1)); [by apply runs_ret| |by intros v w' []|by intros w' []].
    intros _ w' [_ ->]. apply runs_ret. split; [done|]. exists st. pose proof Hw1 as [Hi1 _ _ Hz1]. done.
Qed.
Lemma runs_Err {B} b rows z (f : option error -> M B) w (P : outcome B -> W -> Prop) :
  ended b rows z w -> runs (f (errors_Join [None; rs_iterErr q])) w P -> runs (bind (Rows_Err rows) f) w P.
Proof.
  intros [Hi (st & Hat & _ & _ & _ & <- & _) Hz] HP. unfold Rows_Err, owned_Err. apply runs_gets. by rewrite (at_rows_lookup _ _ _ Hat).
Qed.
Lemma runs_finished {B} b rows early z (f : option error -> M B) w (P : outcome B -> W -> Prop) :
  ended b rows z w -> errors_Join [None; rs_iterErr q] = None -> (forall w', released b z w' -> runs (f close_failure) w' P) ->
  runs (bind (Finish rows None early) f) w P.
Proof.
  intros [Hi (st & Hat & Hr & Hc & Hcl & Hit & Hsc & Hcol & Hce) Hz] Hnone HP.
  eapply runs_bind; [by apply (runs_Finish b _ _ _ st)| |by intros v w' []|by intros w' []].
  intros res w' ([= ->] & Hz' & Htok). unfold finish_error.
  rewrite Hcl, Hsc, Hcol, Hit, Hce, Hnone. apply HP. split; [|done]. rewrite Hcl in Hz'. lia.
Qed.
Lemma runs_consume fuel prepared consumer b rows z a w :
  bound prepared = Ok d -> reading b rows 0 z w -> n < fuel ->
  runs (consume yield fuel prepared consumer rows a) w (fun o w' =>
    exists a', o = Done a' /\ released b z w' /\ left_with a (drained (stricter (pr_cardinality prepared) consumer) (pr_emptyErr prepared)) a').
Proof.
  intros Hb Hw Hf. unfold consume. eapply runs_Columns; [done|]. intros w1 st Hi Hat Hr Hc Hcl Hz Hclean. unfold bound in Hb.
  destruct (rs_columnErr q); [done|]. rewrite Hb. fold (stricter (pr_cardinality prepared) consumer). set (policy := stricter _ _). fold (single_row policy).
  eapply runs_bind; [eapply (runs_loop b rows (single_row policy) z fuel n 0 None a); [by apply Hclean|lia|done]| |
    unfold walked; intros v w' H; destruct (walk _ _ _ _) as [vs [h|e]]; naive_solver|
    unfold walked; intros w' H; destruct (walk _ _ _ _) as [vs [h|e]]; naive_solver].
  intros [a1 fin] w2 H. unfold walked in H. unfold drained. destruct (walk (single_row policy) n 0 None) as [vs [held|cause]] eqn:Ew; cbn [fst snd] in H.
  2:{ destruct H as (a'' & Ha & [= -> ->] & Hrel). apply runs_ret. eauto. }
  destruct H as ([= -> ->] & He). eapply runs_Err; [exact He|]. destruct (errors_Join [None; rs_iterErr q]) as [e|] eqn:Ei.
  { eapply runs_abandon_ended; [done|]. intros a' w' Ha Hrel. eauto. }
  assert (forall a' x, x = (vs ++ match held with Some v => [v] | None => [] end, @None error) -> a' = fold_left add x.1 a ->
    runs (bind (Finish rows None false) (fun err => match err with Some e => Ret (yield a' None (Some e)).1 | None => Ret a' end)) w2
      (fun o w' => exists a'', o = Done a'' /\ released b z w' /\ left_with a x a'')) as Hend.
  { intros a' x -> ->. eapply runs_finished; [exact He|done|]. intros w' Hrel. unfold left_with. cbn [fst snd]. destruct close_failure as [e|]; apply runs_ret; eauto. }
  destruct policy, held as [v|]; cbn [bind]; try (unfold emit; rewrite yield_value); try (apply Hend; [done|cbn [fst]; rewrite ?fold_left_app, ?app_nil_r; done]).
  eapply runs_abandon_ended; [done|]. intros a' w' Ha Hrel. eauto.
Qed.
Lemma runs_refused fuel prepared consumer b rows z a w e :
  bound prepared = Err e -> reading b rows 0 z w ->
  runs (consume yield fuel prepared consumer rows a) w (fun o w' => exists a', o = Done a' /\ released b z w' /\ gave_up a e a').
Proof.
  intros Hb Hw. unfold consume. eapply runs_Columns; [done|]. intros w1 st Hi Hat Hr Hc Hcl Hz _. unfold bound in Hb.
  assert (runs (abandon yield rows e true a) w1 (fun o w' => exists a', o = Done a' /\ released b z w' /\ gave_up a e a')) as H.
  { eapply runs_abandon; [exact Hi|exact Hat|exact Hr|exact Hc|by rewrite Hcl|eauto]. }
  destruct (rs_columnErr q) as [e'|]; [by injection Hb as ->|]. by rewrite Hb.
Qed.
End Read.

(** ** The reference is what the loop computes *)
Section Agreement.
Variable q : result_set.
Context {R : Type}.
Variable decode : nat -> result R.
Definition decoded_rows : list (result R) := map decode (seq 0 (rs_rows q)).
Lemma walk_many m : forall k held,
  match first_error (map decode (seq k m)) with
  | Some e => exists vs, walk decode false m k held = (vs, inr e)
  | None => walk decode false m k held = (decoded_values (map decode (seq k m)), inl held)
  end.
Proof.
  induction m as [|m IH]; intros k held; [done|]. cbn [seq map first_error walk negb]. specialize (IH (S k) held).
  destruct (decode k) as [v|e] eqn:E; [|by exists []]. unfold decoded_values in *. cbn [omap list_omap]. rewrite ?E.
  destruct (first_error _) as [e|]; [destruct IH as [vs ->]; by exists (v :: vs)|by rewrite IH].
Qed.
Lemma drained_expected policy emptyErr :
  match expected policy emptyErr (errors_Join [None; rs_iterErr q]) decoded_rows with
  | Err e => exists vs, drained q decode policy emptyErr = (vs, Some e)
  | Ok vs => drained q decode policy emptyErr = (vs, None)
  end.
Proof.
  unfold drained, decoded_rows. set (i := errors_Join [None; rs_iterErr q]). destruct policy; cbn [single_row].
  { unfold expected. pose proof (walk_many (rs_rows q) 0 None) as H. destruct (first_error _) as [e|].
    - destruct H as [vs ->]. by exists vs.
    - rewrite H. destruct i; [by eexists|by rewrite app_nil_r]. }
  all: unfold expected; destruct (rs_rows q) as [|[|m]]; cbn [seq map take first_error length Nat.leb walk negb];
    [destruct i; [by eexists|try done; by eexists]|
     destruct (decode 0) as [v|e] eqn:E0; cbn [first_error walk]; [destruct i; [by eexists|unfold decoded_values; cbn [omap list_omap]; by rewrite ?E0]|by eexists]|
     destruct (decode 0) as [v|e] eqn:E0; [|by eexists]; destruct (decode 1) as [v'|e] eqn:E1; cbn [first_error]; by eexists].
Qed.
End Agreement.

(** ** Draining *)
(** What a consumer of a cardinality is promised of the prepared rows. *)
Definition promised {R} (q : result_set) (decode : nat -> result R) (prepared : @preparedRows R) (consumer : Cardinality) : result (list R) :=
  match bound q prepared with
  | Err e => Err e
  | Ok _ => expected (stricter (pr_cardinality prepared) consumer) (pr_emptyErr prepared) (errors_Join [None; rs_iterErr q]) (decoded_rows q decode)
  end.
(** What was got, when rows that fail to close make an error of their own. *)
Definition keeps {R} (q : result_set) (promise got : result R) : Prop :=
  match promise with
  | Err cause => exists e, got = Err e /\ joins cause e
  | Ok vs => got = match close_failure q with Some e => Err e | None => Ok vs end
  end.

Section Drain.
Variable q : result_set.
Variable env : environment answer (panic := panic_value).
Hypothesis Henv : offers q env.
Context {R : Type}.
Variable prepared : @preparedRows R.
Variable decode : nat -> result R.
Hypothesis Hdecode : forall d, bound q prepared = Ok d -> decodes q env d decode.
Variables (fuel : nat) (db : DB) (ctx : Context) (h : Handle).
Hypothesis Hvalid : validStatement db (pr_statement prepared) = Ok h.
Hypothesis Hbound : unbound_error prepared = None.
Hypothesis Hfuel : rs_rows q < fuel.
Abbreviation W := (world answer (state := shared) (panic := panic_value)).
(** The rows have not been touched, and nobody holds the token. *)
Definition ready (w : W) : Prop := token (busy db) false w /\ seen q w = 0.

Lemma runs_range {A} (yield : A -> option R -> option error -> A * bool) add consumer a w :
  (forall a v, yield a (Some v) None = (add a v, true)) -> ready w ->
  runs env (range_rows yield fuel db ctx prepared consumer a) w (fun o w' =>
    exists a', o = Done a' /\ released q (busy db) (closures q w) w' /\
    match promised q decode prepared consumer with
    | Err e => exists vs, gave_up yield (fold_left add vs a) e a'
    | Ok vs => a' = match close_failure q with Some e => fails yield (fold_left add vs a) e | None => fold_left add vs a end
    end).
Proof.
  intros Hy [Ht H0]. unfold range_rows. eapply runs_Query; [done..|]. intros rows w1 Hr. unfold promised.
  destruct (bound q prepared) as [d|e] eqn:Eb.
  - eapply runs_mono; [|by apply (runs_consume q env Henv yield add Hy d decode (Hdecode d eq_refl) fuel prepared consumer (busy db) rows (closures q w))].
    intros o w' (a' & -> & Hrel & Hl). exists a'. split; [done|]. split; [done|]. unfold left_with in Hl.
    pose proof (drained_expected q decode (stricter (pr_cardinality prepared) consumer) (pr_emptyErr prepared)) as H.
    destruct (expected _ _ _ _) as [vs|e]; [by rewrite H in Hl|]. destruct H as [vs E]. rewrite E in Hl. by exists vs.
  - eapply runs_mono; [|by eapply (runs_refused q env Henv yield fuel prepared consumer (busy db) rows (closures q w))].
    intros o w' (a' & -> & Hrel & Hg). exists a'. split; [done|]. split; [done|]. by exists [].
Qed.
Lemma fold_append (vs : list R) : forall l, fold_left (fun (acc : list R * option error) v => (acc.1 ++ [v], None)) vs (l, None) = (l ++ vs, None).
Proof. induction vs as [|v vs IH]; intros l; simpl; [by rewrite app_nil_r|]. by rewrite IH, <- app_assoc. Qed.
Lemma runs_AppendAll dst w : ready w ->
  runs env (AppendAll fuel db ctx dst prepared) w (fun o w' =>
    released q (busy db) (closures q w) w' /\
    exists got, keeps q (promised q decode prepared Many) got /\ o = Done match got with Ok vs => (dst ++ vs, None) | Err e => (dst, Some e) end).
Proof.
  intros Hw. unfold AppendAll. rewrite Hbound.
  eapply runs_mono; [|by apply (runs_range (append_body (length dst)) (fun acc v => (acc.1 ++ [v], None)) Many (dst, None) w)].
  intros o w' (a' & -> & Hrel & Ha). split; [done|]. unfold keeps. destruct (promised _ _ _ _) as [vs|cause].
  - eexists. split; [done|]. f_equal. rewrite Ha, fold_append. unfold fails. cbn [append_body fst]. destruct (close_failure q); [by rewrite take_app_length|done].
  - destruct Ha as (vs & e & Hj & ->). exists (Err e). split; [by exists e|]. f_equal. rewrite fold_append. unfold fails. cbn [append_body fst].
    by rewrite take_app_length.
Qed.
Lemma fold_rows (vs : list R) : forall v k,
  fold_left (fun (acc : option R * nat * option error) v => (Some v, acc.1.2 + 1, acc.2)) vs (v, k, None) =
  (match last vs with Some x => Some x | None => v end, k + length vs, None).
Proof.
  induction vs as [|x vs IH]; intros v k; simpl; [by rewrite Nat.add_0_r|]. rewrite IH. destruct vs; simpl; f_equal; f_equal; try lia.
  match goal with |- match ?l with _ => _ end = _ => destruct l eqn:E; [done|by apply (proj1 (last_None (_ :: _))) in E] end.
Qed.
Lemma runs_row {B} consumer (answer_of : list R -> B) (view : option R * nat -> B) w :
  (forall vs, view (last vs, length vs) = answer_of vs) -> ready w ->
  runs env (let! acc := range_rows row_body fuel db ctx prepared consumer (None, 0, None) in
            Ret match acc.2 with Some e => Err e | None => Ok (view acc.1) end) w (fun o w' =>
    released q (busy db) (closures q w) w' /\
    exists got, keeps q (promised q decode prepared consumer) got /\ o = Done match got with Ok vs => Ok (answer_of vs) | Err e => Err e end).
Proof.
  intros Hview Hw.
  eapply runs_bind; [by apply (runs_range row_body (fun acc v => (Some v, acc.1.2 + 1, acc.2)) consumer (None, 0, None) w)| |
    intros v w'; naive_solver|intros w'; naive_solver].
  intros acc w' (a' & [= <-] & Hrel & Ha). apply runs_ret. split; [done|]. unfold keeps. destruct (promised _ _ _ _) as [vs|cause].
  - eexists. split; [done|]. f_equal. rewrite Ha, fold_rows. unfold fails. cbn [row_body fst snd]. destruct (close_failure q); [done|].
    cbn [fst snd]. rewrite <- Hview. destruct (last vs); done.
  - destruct Ha as (vs & e & Hj & ->). exists (Err e). split; [by exists e|]. by rewrite fold_rows.
Qed.
End Drain.

(** C10 Against a driver whose result set has finitely many rows, reading a query
    to the end returns what the reference says of the decoded rows. [AppendAll]
    appends every decoded row or leaves the slice as it was; [One] gives the
    only row and refuses none or more than one; [Maybe] allows none. The first
    row that fails to decode, an error of the iteration, columns that differ
    from those prepared and rows that fail to close are errors that join their
    cause. Every way out closes the rows exactly once and gives the token of
    the transaction back, hooks and observers permitting. *)
Theorem rows_read {R} q env (prepared : @preparedRows R) decode fuel db ctx h w dst :
  offers q env -> (forall d, bound q prepared = Ok d -> decodes q env d decode) ->
  validStatement db (pr_statement prepared) = Ok h -> unbound_error prepared = None -> rs_rows q < fuel -> ready q db w ->
  let reads (consumer : Cardinality) (B : Type) (p : M B) (view : result (list R) -> B) :=
    exists got w', run env p w = (Done (view got), w') /\ keeps q (promised q decode prepared consumer) got /\
      released q (busy db) (closures q w) w' in
  reads Many _ (AppendAll fuel db ctx dst prepared) (fun got => match got with Ok vs => (dst ++ vs, None) | Err e => (dst, Some e) end) /\
  reads ExactlyOne _ (One fuel db ctx prepared) (fun got => match got with Ok vs => Ok (last vs) | Err e => Err e end) /\
  reads AtMostOne _ (Maybe fuel db ctx prepared) (fun got => match got with Ok vs => Ok (last vs, length vs =? 1) | Err e => Err e end).
Proof.
  intros Henv Hd Hv Hb Hf Hw reads.
  assert (forall consumer B (p : M B) view, runs env p w (fun o w' => released q (busy db) (closures q w) w' /\
            exists got, keeps q (promised q decode prepared consumer) got /\ o = Done (view got)) -> reads consumer B p view) as H.
  { intros consumer B p view. unfold runs, reads. destruct (run env p w) as [o w']. cbn [fst snd]. intros (Hrel & got & Hk & ->). by exists got, w'. }
  split; [|split]; apply H; clear H.
  - by eapply runs_AppendAll.
  - unfold One. rewrite Hb. by eapply (runs_row q env Henv prepared decode Hd fuel db ctx h Hv Hf ExactlyOne last fst).
  - unfold Maybe. rewrite Hb. by eapply (runs_row q env Henv prepared decode Hd fuel db ctx h Hv Hf AtMostOne (fun vs => (last vs, length vs =? 1)) (fun x => (x.1, x.2 =? 1))).
Qed.

(** ** The numbers from one to three, read inside a transaction *)
Definition numbers : result_set := MkResultSet 5 3 ["n"] None None None.
Definition numbers_env : environment answer (panic := panic_value) := fun t c =>
  Returns (match c as c return answer c with
           | QueryContext _ _ _ => (Some 5%N, None)
           | RowsColumns _ => (["n"], None)
           | RowsNext _ => calls (advances 5) t <? 3
           | RowsScan _ => ([GInt (Z.of_nat (calls (advances 5) t))], None)
           | BeginTx _ _ _ | ExecContext _ _ _ => (None, None)
           | Start _ _ _ | StartEvent _ _ _ => (None, Some 0%N)
           | HandleExtensionError _ _ _ => tt
           | Now => 0%Z
           | RowsAffected _ => (0%Z, None)
           | Certainty _ _ => 0%N
           | _ => None
           end).
Definition number_decoder : RowDecoder := MkDecoder (R := Z) (fun rows =>
  let! (values, err) := Scan rows in
  Ret match err, values with Some e, _ => Err e | None, [GInt z] => Ok z | None, _ => Err (errors_New "not a number") end).
Definition number_at (k : nat) : result Z := Ok (Z.of_nat (S k)).
Definition numbers_prepared : preparedRows := MkPrepared (plain "SELECT n") ["n"] number_decoder None Many None [MkSlot 0 true].
Definition numbers_db : DB := MkDB (Some (SqlTx 3)) (Some SQLite) [7%N] [8%N] (Some 1%N) [9%N] false (Some 3%N) (Some 1%N) [2%N] "" None None None (Some 0%N).
Definition numbers_world : world answer (state := shared) (panic := panic_value) := MkWorld (MkShared 0 0 1 {[ 0%N := false ]} ∅ ∅) [].
Lemma numbers_offered : offers numbers numbers_env.
Proof. split; [intros t c; split; [by eexists|by destruct c]|done]. Qed.
Lemma numbers_decoded d : bound numbers numbers_prepared = Ok d -> decodes numbers numbers_env d number_at.
Proof.
  intros [= <-] rows w k st [L Hst] (Hr & _ & _ & _ & _ & Hsc & _) Hk _. unfold number_decoder, Scan, owned_Scan.
  cbn [DecodeRow]. unfold runs. unfold seen in Hk.
  assert (rows_at (innermost rows) (cells w) = st) as E by (unfold rows_at; by rewrite Hst).
  cbn [bind run gets]. rewrite E, Hr. cbn [bind run ask request numbers_env st_call fst snd trace cells rs_id numbers]. cbn [rs_id numbers] in Hk.
  rewrite Hk. cbn. split; [done|]. split.
  - split; [|split; [|done]]; unfold seen, closures; cbn [trace rs_id numbers]; by rewrite (calls_one numbers).
  - exists None. split; [|done]. split; [done|]. simpl. rewrite Hst. f_equal. unfold join_scan. destruct st; simpl in *. by rewrite Hsc.
Qed.
Lemma rows_read_witness :
  (run numbers_env (AppendAll 4 numbers_db Background [7%Z] numbers_prepared) numbers_world).1 = Done ([7; 1; 2; 3]%Z, None) /\
  exists e, (run numbers_env (One 4 numbers_db Background numbers_prepared) numbers_world).1 = Done (Err e) /\ joins ErrMultipleRows e.
Proof.
  destruct (rows_read numbers numbers_env numbers_prepared number_at 4 numbers_db Background (SqlTx 3) numbers_world [7%Z]
              numbers_offered numbers_decoded) as ((got & w1 & E1 & K1 & _) & (got2 & w2 & E2 & (e & -> & He) & _) & _);
    [vm_compute; reflexivity|reflexivity|simpl; lia|split; [split; [vm_compute; reflexivity|reflexivity]|reflexivity]|].
  change (got = Ok [1; 2; 3]%Z) in K1. subst got. split; [exact (f_equal fst E1)|]. exists e. split; [exact (f_equal fst E2)|exact He].
Defined.
