(* ===== verification/ExecGuard.v ===== *)
(** * ExecGuard: the token of a transaction, and the order of the hooks

    What the token refuses while it is taken, where the code leaves it out or
    never gives it back, and how the hooks of a handle bracket the call of the
    driver: entered in order until one refuses, left in the reverse order. *)

From S2P Require Import Prelude GoText Schema Query Render Dialect Page Typed GraphKey Prog Exec ExecScope ExecQuiet ExecRows ExecRead.
Open Scope string_scope.
Open Scope list_scope.
Open Scope nat_scope.
Open Scope prog_scope.

(** ** The token *)
Section Token.
Variable env : environment answer (panic := panic_value).
Abbreviation W := (world answer (state := shared) (panic := panic_value)).
(** A taken token refuses, and changes nothing. *)
Lemma busy_refuses {B} b (f : bool -> M B) (w : W) : flags (cells w) !! b = Some true ->
  run env (bind (try_acquire (Some b)) f) w = run env (f false) (MkWorld (set_flag b true (cells w)) (trace w)).
Proof. intros H. cbn [try_acquire acquire first_time update bind run]. by rewrite H. Qed.
(** A transaction from [Begin] or [Atomic] has the token of the handle it began
    on, and a pool has none: its statements are not guarded. *)
Lemma begin_unguarded db ctx opts additions w child w' :
  run env (beginTxCore db ctx opts additions) w = (Done (Ok child), w') -> busy child = busy db.
Proof.
  unfold beginTxCore. destruct (db_valid db) as [h|e]; [|done]. destruct (IsTransaction db); [done|]. destruct (begins h); [|done]. cbn [negb].
  rewrite run_bind. destruct (run env (call_begin db h ctx opts) w) as [[[t|e]|v|] w1]; [|done..].
  unfold WithHooks. destruct (db_valid _) as [h'|e].
  - destruct (appendHooks _ _) as [l|e].
    + by intros [= <- _].
    + unfold ask. rewrite run_bind, run_request. by destruct (env _ _).
  - unfold ask. rewrite run_bind, run_request. by destruct (env _ _).
Qed.
(** [Finish] of completed rows gives back what it is given, not the error of
    the first call. *)
Lemma finish_again c err early w st : owned (cells w) !! c = Some st -> completed st = true ->
  run env (owned_Finish c err early) w = (Done err, w).
Proof.
  intros H Hc. unfold owned_Finish. cbn [gets bind run]. assert (rows_at c (cells w) = st) as -> by (unfold rows_at; by rewrite H).
  by rewrite Hc.
Qed.
End Token.
(** Closing guarded rows does not give the token back: the next statement of
    the transaction is refused. *)
Lemma close_keeps_token :
  (run numbers_env (let! (rows, _) := DB_Query (set_busy (Some 0%N) numbers_db) Background (plain "SELECT n") in
                    let! _ := match rows with Some r => Close r | None => Ret None end in
                    let! (_, err) := DB_Exec numbers_db Background (plain "DELETE FROM t") in Ret err) numbers_world).1 = Done (Some concurrent_use).
Proof. vm_compute. reflexivity. Qed.

(** ** The hooks *)

(** What the hooks, the driver and the rows of a query are asked, in order. *)
Inductive hook_step := Enters (h : N) | Leaves (h : N) | Drives | Closes (rows : N).
Definition hook_step_of (c : call) : list hook_step :=
  match c with
  | Before h _ _ => [Enters h]
  | After h _ _ _ => [Leaves h]
  | ExecContext _ _ _ | QueryContext _ _ _ => [Drives]
  | RowsClose r => [Closes r]
  | _ => []
  end.
Definition hook_steps (t : list (step answer (panic := panic_value))) : list hook_step := flat_map (fun st => hook_step_of (st_call st)) t.
(** What they answer: whether a hook refuses, what it makes of the error of an
    operation that ended, and what the driver returns. *)
Record answers := MkAnswers {
  refusal : N -> option error; complaint : N -> option error -> option error;
  executed : option N * option error; queried : option N * option error; closing : N -> option error }.
Record answers_as (env : environment answer (panic := panic_value)) (d : answers) : Prop := {
  aa_all : forall t c, exists a, env t c = Returns a;
  aa_before : forall t h ctx o, env t (Before h ctx o) = Returns (refusal d h);
  aa_after : forall t h ctx o err, env t (After h ctx o err) = Returns (complaint d h err);
  aa_exec : forall t h ctx s, env t (ExecContext h ctx s) = Returns (executed d);
  aa_query : forall t h ctx s, env t (QueryContext h ctx s) = Returns (queried d);
  aa_close : forall t r, env t (RowsClose r) = Returns (closing d r) }.
Section Outcome.
Variables (d : answers) (db : DB) (o : Operation).
(** The hooks that let the operation pass, and the one that refuses it. *)
Fixpoint passing (l : list N) : list N * option (N * error) :=
  match l with
  | [] => ([], None)
  | h :: l' => match refusal d h with Some e => ([], Some (h, e)) | None => let '(p, r) := passing l' in (h :: p, r) end
  end.
(** What the hooks that passed say of an operation that ended with [base],
    the last first. *)
Definition complaints (base : option error) (passed : list N) : list error :=
  omap (fun h => option_map (fun e => Errorf "rasql: hook after %s: %w" [AStr (OperationKind_String (op_kind o)); AErr e]) (complaint d h base))
    (rev passed).
(** They are joined to its error, with [extra], unless the handle has a handler
    of such errors. *)
Definition joins (base : option error) (passed : list N) : bool :=
  match extensionErrorHandler db, complaints base passed with None, _ :: _ => true | _, _ => false end.
Definition extended (base : option error) (passed : list N) (extra : list error) : option error :=
  if joins base passed
  then errors_Join [base; Some (extension_error (MkExtensionError o (complaints base passed ++ extra) (bool_decide (base = None))))]
  else base.
(** A refusal: the hooks entered, the refusing one last, and those that passed
    left. *)
Definition refused (passed : list N) (refuser : N) (e : error) (steps : list hook_step) (result : option N) (err : option error) : Prop :=
  steps = map Enters (passed ++ [refuser]) ++ map Leaves (rev passed) /\ result = None /\
  err = extended (Some (Errorf "rasql: hook before %s: %w" [AStr (OperationKind_String (op_kind o)); AErr e])) passed [].
Definition driver_error (wrap : string) (e : option error) : option error := option_map (fun e => Errorf wrap [AErr e]) e.
(** An execution: what the driver returned, whatever the hooks say after. *)
Definition exec_outcome (steps : list hook_step) (result : option N) (err : option error) : Prop :=
  match passing (hooks db) with
  | (passed, Some (refuser, e)) => refused passed refuser e steps result err
  | (passed, None) =>
      steps = map Enters passed ++ [Drives] ++ map Leaves (rev passed) /\ result = (executed d).1 /\
      err = extended (driver_error "rasql: execute statement: %w" (executed d).2) passed []
  end.
(** A query: its rows, if there is no error; a query that the hooks spoil has
    its rows closed, and an error of closing them is joined too. *)
Definition query_outcome (steps : list hook_step) (result : option N) (err : option error) : Prop :=
  match passing (hooks db) with
  | (passed, Some (refuser, e)) => refused passed refuser e steps result err
  | (passed, None) =>
      let base := driver_error "rasql: execute query: %w" (queried d).2 in
      let spoiled := if joins base passed then (queried d).1 else None in
      steps = map Enters passed ++ [Drives] ++ map Leaves (rev passed) ++ match spoiled with Some r => [Closes r] | None => [] end /\
      err = extended base passed
        (match spoiled with
         | Some r => match closing d r with Some e => [Errorf "rasql: close query rows: %w" [AErr e]] | None => [] end
         | None => []
         end) /\
      result = match err with Some _ => None | None => (queried d).1 end
  end.
End Outcome.

Section Hooks.
Variable env : environment answer (panic := panic_value).
Variable d : answers.
Hypothesis Henv : answers_as env d.
Abbreviation W := (world answer (state := shared) (panic := panic_value)).
(** A program that returns, and makes these steps of the hooks. *)
Definition makes {A} (p : M A) (l : list hook_step) (Q : A -> Prop) : Prop :=
  forall w : W, exists a w', run env p w = (Done a, w') /\ hook_steps (trace w') = hook_steps (trace w) ++ l /\ Q a.
Lemma makes_ret {A} (a : A) (Q : A -> Prop) : Q a -> makes (Ret a) [] Q.
Proof. intros H w. exists a, w. by rewrite app_nil_r. Qed.
Lemma makes_bind {A B} (p : M A) (f : A -> M B) l l' Q Q' :
  makes p l Q -> (forall a, Q a -> makes (f a) l' Q') -> makes (bind p f) (l ++ l') Q'.
Proof.
  intros Hp Hf w. destruct (Hp w) as (a & w1 & E1 & S1 & Ha). destruct (Hf a Ha w1) as (b & w2 & E2 & S2 & Hb).
  exists b, w2. rewrite run_bind, E1. split; [done|]. split; [|done]. by rewrite S2, S1, app_assoc.
Qed.
Lemma makes_then {A B} (p : M A) (f : A -> M B) l Q' : makes p [] (fun _ => True) -> (forall a, makes (f a) l Q') -> makes (bind p f) l Q'.
Proof. intros Hp Hf. apply (makes_bind p f [] l (fun _ => True)); [done|]. auto. Qed.
Lemma makes_mono {A} (p : M A) l (Q Q' : A -> Prop) : makes p l Q -> (forall a, Q a -> Q' a) -> makes p l Q'.
Proof. intros H HQ w. destruct (H w) as (a & w' & ? & ? & ?). exists a, w'. auto. Qed.
Lemma makes_ask c (Q : answer c -> Prop) : (forall t a, env t c = Returns a -> Q a) -> makes (ask c) (hook_step_of c) Q.
Proof.
  intros HQ w. destruct (aa_all _ _ Henv (trace w) c) as [a E]. exists a. eexists. unfold ask. rewrite run_request, E. split; [done|].
  split; [|by eapply HQ]. unfold hook_steps. cbn [trace]. rewrite flat_map_app. simpl. by rewrite app_nil_r.
Qed.
Lemma makes_quietly c : hook_step_of c = [] -> makes (ask c) [] (fun _ => True).
Proof. intros E. rewrite <- E. by apply makes_ask. Qed.
Lemma makes_answered {B} c a (f : answer c -> M B) l Q :
  (forall t, env t c = Returns a) -> makes (f a) l Q -> makes (bind (ask c) f) (hook_step_of c ++ l) Q.
Proof.
  intros E Hf. apply (makes_bind _ _ _ _ (fun r => r = a)); [|by intros r ->]. apply makes_ask. intros t r. rewrite E. congruence.
Qed.
Lemma makes_report db ctx e : makes (reportExtensionError db ctx e) [] (fun _ => True).
Proof. unfold reportExtensionError. destruct (extensionErrorHandler db) as [h|]; [by apply (makes_quietly (HandleExtensionError h ctx e))|by apply makes_ret]. Qed.
Lemma makes_start db ctx o : makes (startInvocation db ctx o) [] (fun _ => True).
Proof.
  unfold startInvocation. apply makes_then; [by apply (makes_quietly Now)|]. intros now. generalize (MkInvocation [] [] now). revert ctx.
  induction (invocationObservers db) as [|x l IH]; intros ctx i; [by apply makes_ret|]. cbn [start_loop].
  apply makes_then; [by apply (makes_quietly (Start x ctx o))|]. intros [derived completion]. apply IH.
Qed.
Lemma makes_complete db i o phase ctx err n early : makes (completeInvocation db i o phase ctx err n early) [] (fun _ => True).
Proof.
  unfold completeInvocation. apply makes_then; [by apply (makes_quietly Now)|]. intros now.
  induction (rev _) as [|[[c|] cctx] l IH]; cbn [complete_loop]; [by apply makes_ret| |done].
  apply makes_then; [by apply (makes_quietly (Complete _ _ _))|]. intros [e|]; (apply makes_then; [|intros _; apply IH]); [apply makes_report|by apply makes_ret].
Qed.
Lemma makes_observe db ctx o err : makes (observe db ctx o err) [] (fun _ => True).
Proof.
  unfold observe. induction (observers db) as [|x l IH]; cbn [observe_loop]; [by apply makes_ret|].
  apply makes_then; [by apply (makes_quietly (Observe _ _ _ _))|]. intros [e|]; (apply makes_then; [|intros _; apply IH]); [apply makes_report|by apply makes_ret].
Qed.
Lemma makes_before db ctx o :
  makes (beforeHooks db ctx o) (map Enters ((passing d (hooks db)).1 ++ match (passing d (hooks db)).2 with Some (h, _) => [h] | None => [] end))
    (fun r => r = ((passing d (hooks db)).1, option_map (fun x => hook_error "before" o x.2) (passing d (hooks db)).2)).
Proof.
  unfold beforeHooks. assert (forall l acc, makes (before_loop ctx o acc l)
    (map Enters ((passing d l).1 ++ match (passing d l).2 with Some (h, _) => [h] | None => [] end))
    (fun r => r = (acc ++ (passing d l).1, option_map (fun x => hook_error "before" o x.2) (passing d l).2))) as H; [|apply (H _ [])].
  induction l as [|h l IH]; intros acc; cbn [before_loop passing]; [apply makes_ret; by rewrite app_nil_r|].
  destruct (refusal d h) as [e|] eqn:Er.
  - refine (makes_answered (Before h ctx o) (Some e) _ [] _ _ _); [intros t; by rewrite (aa_before _ _ Henv), Er|].
    apply makes_ret. by rewrite app_nil_r.
  - specialize (IH (acc ++ [h])). destruct (passing d l) as [p r]. cbn [fst snd] in *.
    refine (makes_answered (Before h ctx o) None _ _ _ _ _); [intros t; by rewrite (aa_before _ _ Henv), Er|]. by rewrite <- app_assoc in IH.
Qed.
(** What leaving the hooks collects. *)
Definition collected (db : DB) (o : Operation) (err : option error) (passed : list N) : option ExtensionError :=
  if joins d db o err passed then Some (MkExtensionError o (complaints d o err passed) (bool_decide (err = None))) else None.
Lemma joins_bool db o base passed : joins d db o base passed =
  bool_decide (extensionErrorHandler db = None) && bool_decide (complaints d o base passed <> []).
Proof. unfold joins. destruct (extensionErrorHandler db); [done|]. by destruct (complaints d o base passed). Qed.
Lemma makes_after db ctx o entered err :
  makes (afterHooks db ctx o entered err) (map Leaves (rev entered)) (fun x => x = collected db o err entered).
Proof.
  unfold afterHooks, collected. rewrite joins_bool. unfold complaints.
  set (said := fun h => option_map (fun e => Errorf "rasql: hook after %s: %w" [AStr (OperationKind_String (op_kind o)); AErr e]) (complaint d h err)).
  assert (negb (bool_decide (is_Some err)) = bool_decide (err = None)) as Hs by (destruct err; done).
  assert (forall l acc, makes (after_loop db ctx o err acc l) (map Leaves l)
    (fun x => x = if bool_decide (extensionErrorHandler db = None) && bool_decide (omap said l <> [])
                  then let x := default (MkExtensionError o [] (bool_decide (err = None))) acc in
                       Some (MkExtensionError (xe_Operation x) (xe_Errors x ++ omap said l) (xe_succeeded x)) else acc)) as H; [|apply (H _ None)].
  induction l as [|h l IH]; intros acc; cbn [after_loop map]; [apply makes_ret; by rewrite andb_false_r|].
  assert (omap said (h :: l) = match said h with Some e => e :: omap said l | None => omap said l end) as -> by done.
  assert (said h = option_map (hook_error "after" o) (complaint d h err)) as Es by done.
  destruct (complaint d h err) as [e|] eqn:Ec; cbn [option_map] in Es; rewrite Es.
  2:{ refine (makes_answered (After h ctx o err) None _ (map Leaves l) _ _ _); [intros t; by rewrite (aa_after _ _ Henv), Ec|apply IH]. }
  refine (makes_answered (After h ctx o err) (Some e) _ (map Leaves l) _ _ _); [intros t; by rewrite (aa_after _ _ Henv), Ec|].
  destruct (extensionErrorHandler db) as [x|] eqn:E.
  - apply makes_then; [apply makes_report|]. intros _. eapply makes_mono; [apply IH|]. intros y ->. done.
  - eapply makes_mono; [apply IH|]. intros y ->. rewrite Hs. cbn [bool_decide andb default]. rewrite (bool_decide_true (_ :: _ <> [])) by done.
    destruct (decide (omap said l = [])) as [En|Ne].
    + rewrite En. by destruct acc.
    + rewrite (bool_decide_true (omap said l <> [])) by done. cbn. rewrite <- app_assoc. by destruct acc.
Qed.
Lemma joined_collected db o base passed extra : joins d db o base passed = true ->
  join_extension base (MkExtensionError o (complaints d o base passed ++ extra) (bool_decide (base = None))) = extended d db o base passed extra.
Proof. intros H. unfold extended. by rewrite H. Qed.
Lemma makes_around {A} db ctx o (zero a : A) derr operate wrap failed closes (spoilt : list N -> A * option error) :
  let base := driver_error wrap derr in
  (forall c, makes (operate c) [Drives] (fun r => r = (a, derr))) ->
  (forall x passed, collected db o base passed = Some x -> makes (failed a base x) closes (fun out => out = spoilt passed)) ->
  makes (around db ctx o zero operate wrap failed)
    (match passing d (hooks db) with
     | (passed, Some (refuser, _)) => map Enters (passed ++ [refuser]) ++ map Leaves (rev passed)
     | (passed, None) => map Enters passed ++ [Drives] ++ map Leaves (rev passed) ++ (if joins d db o base passed then closes else [])
     end)
    (fun r => r.2 = match passing d (hooks db) with
                    | (passed, Some (_, e)) => (zero, extended d db o (Some (hook_error "before" o e)) passed [])
                    | (passed, None) => if joins d db o base passed then spoilt passed else (a, base)
                    end).
Proof.
  intros base Hop Hf. unfold around. apply makes_then; [apply makes_start|]. intros [c i].
  pose proof (makes_before db c o) as Hb. destruct (passing d (hooks db)) as [passed [[h e]|]]; cbn [fst snd option_map] in *.
  - eapply makes_bind; [exact Hb|]. intros [entered r] [= -> ->]. rewrite <- (app_nil_r (map Leaves _)).
    eapply makes_bind; [apply makes_after|]. intros x ->. apply makes_then; [apply makes_complete|]. intros [].
    apply makes_ret. cbn [fst snd]. f_equal. unfold collected, extended.
    destruct (joins _ _ _ _ _); [|done]. by rewrite app_nil_r.
  - rewrite app_nil_r in *. eapply makes_bind; [exact Hb|]. intros [entered r] [= -> ->].
    eapply makes_bind; [apply Hop|]. intros [? ?] [= -> ->]. apply makes_then; [apply makes_observe|]. intros [].
    apply makes_then; [apply makes_complete|]. intros []. fold (driver_error wrap derr) base.
    eapply makes_bind; [apply makes_after|]. intros x ->. specialize (Hf (MkExtensionError o (complaints d o base passed) (bool_decide (base = None))) passed).
    unfold collected in *. destruct (joins _ _ _ _ _); [|by apply makes_ret].
    rewrite <- (app_nil_r closes). eapply makes_bind; [by apply Hf|]. intros out ->. by apply makes_ret.
Qed.
Lemma extended_alone db o base passed : joins d db o base passed = false -> forall extra, extended d db o base passed extra = base.
Proof. intros H extra. unfold extended. by rewrite H. Qed.
Lemma extended_error db o base passed extra : joins d db o base passed = true -> is_Some (extended d db o base passed extra).
Proof. intros H. unfold extended. rewrite H. destruct base; by eexists. Qed.
Lemma makes_exec db ctx s h : validStatement db s = Ok h -> forall w, exists result err steps w',
  run env (execRendered db ctx s) w = (Done (result, err), w') /\ hook_steps (trace w') = hook_steps (trace w) ++ steps /\
  exec_outcome d db (MkOperation ExecOperation s) steps result err.
Proof.
  intros Hv w. unfold execRendered, exec_outcome, refused. rewrite Hv. set (o := MkOperation ExecOperation s).
  destruct (executed d) as [a derr] eqn:Ed. set (base := driver_error "rasql: execute statement: %w" derr).
  destruct (makes_around db ctx o None a derr (fun c => ask (ExecContext h c s)) "rasql: execute statement: %w"
      (fun result err x => Ret (result, join_extension err x)) [] (fun passed => (a, extended d db o base passed []))) with (w := w)
    as ([c [result err]] & w' & E & S & Q).
  - intros c. apply (makes_ask (ExecContext h c s)). intros t r. rewrite (aa_exec _ _ Henv). congruence.
  - intros x passed. unfold collected, extended. fold base. destruct (joins _ _ _ _ _); [|done]. intros [= <-]. apply makes_ret. by rewrite app_nil_r.
  - exists result, err. eexists. exists w'. split; [by rewrite run_bind, E|]. split; [exact S|]. fold base in Q |- *.
    cbn [fst snd] in *. destruct (passing d (hooks db)) as [passed [[refuser e]|]]; [injection Q as -> ->; by split_and!|].
    destruct (joins d db o base passed) eqn:J; injection Q as -> ->; rewrite app_nil_r; split_and!; try done. by rewrite extended_alone.
Qed.
(** A query, up to the rows it returns. *)
Lemma makes_query db ctx s h (w : W) : exists c result err steps w',
  run env (query_around db ctx s h) w = (Done (c, (result, err)), w') /\ hook_steps (trace w') = hook_steps (trace w) ++ steps /\
  query_outcome d db (MkOperation QueryOperation s) steps (match err with Some _ => None | None => result end) err.
Proof.
  unfold query_around, query_outcome, refused. set (o := MkOperation QueryOperation s).
  destruct (queried d) as [a derr] eqn:Ed. set (base := driver_error "rasql: execute query: %w" derr). cbn [fst snd].
  set (extra := match a with Some r => match closing d r with Some e => [Errorf "rasql: close query rows: %w" [AErr e]] | None => [] end | None => [] end).
  destruct (makes_around db ctx o None a derr (fun c => ask (QueryContext h c s)) "rasql: execute query: %w" close_refused
      (match a with Some r => [Closes r] | None => [] end) (fun passed => (None, extended d db o base passed extra))) with (w := w)
    as ([c [result err]] & w' & E & S & Q).
  - intros c. apply (makes_ask (QueryContext h c s)). intros t r. rewrite (aa_query _ _ Henv). congruence.
  - intros x passed Hx. unfold collected in Hx. destruct (joins d db o _ passed) eqn:J; [|done]. injection Hx as <-. unfold close_refused, extra.
    destruct a as [r|].
    + refine (makes_answered (RowsClose r) (closing d r) _ [] _ _ _); [intros t; apply (aa_close _ _ Henv)|].
      apply makes_ret. rewrite <- (joined_collected _ _ _ _ _ J). destruct (closing d r); [done|]. by rewrite app_nil_r.
    + apply makes_ret. rewrite <- (joined_collected _ _ _ _ _ J). by rewrite app_nil_r.
  - exists c, result, err. eexists. exists w'. split; [exact E|]. split; [exact S|]. fold base in Q |- *. cbn [fst snd] in *.
    destruct (passing d (hooks db)) as [passed [[refuser e]|]].
    + injection Q as -> ->. split_and!; [done| |done]. by destruct (extended _ _ _ _ _ _).
    + destruct (joins d db o base passed) eqn:J; injection Q as -> ->.
      * split_and!; [by destruct a|done|]. destruct (extended_error db o base passed extra J) as [e ->]. done.
      * rewrite extended_alone by done. by split_and!.
Qed.
End Hooks.


(** Three hooks: the second refuses, the third, left, complains. *)
Definition three_hooks : answers := {|
  refusal := fun h => if (h =? 2)%N then Some (errors_New "no") else None;
  complaint := fun h err => if (h =? 3)%N then Some (errors_New "hm") else None;
  executed := (Some 9%N, None); queried := (Some 8%N, None); closing := fun _ => None |}.
Definition hooked_env : environment answer (panic := panic_value) := fun t c =>
  match c as c return reply (answer c) with
  | Before h _ _ => Returns (refusal three_hooks h)
  | After h _ _ err => Returns (complaint three_hooks h err)
  | ExecContext _ _ _ => Returns (executed three_hooks)
  | QueryContext _ _ _ => Returns (queried three_hooks)
  | RowsClose r => Returns (closing three_hooks r)
  | c => numbers_env t c
  end.
Lemma hooked_answers : answers_as hooked_env three_hooks.
Proof. split; try done. intros t c. destruct c; by eexists. Qed.
