(* ===== verification/MutationRun.v ===== *)
(** * MutationRun: running mutations on a database handle ([mutation.go], [mutation_result.go], [event.go])

    [Exec] and [ExecBatch], alone or in a scope of its own, for a [DB]: what
    becomes of every input of a batch, and how durable it is.  The compiler and
    the codecs a [DB] carries are arguments.  The slice of input outcomes is
    shared with the call that fills it, so a panic does not lose what it holds:
    [exec_prepared] hands the panic over with the outcome. *)

From S2P Require Import Prelude GoText Schema Dialect Query QueryWrite Render RenderWrite QueryCompile Page Typed BindPlan Mutation GraphKey Prog Exec ExecScope ExecRows.
Open Scope string_scope.
Open Scope list_scope.
Open Scope nat_scope.
Open Scope prog_scope.

(** ** Outcomes *)
Inductive Durability := DurabilityUnknown | DurabilityPending | DurabilityCommitted.
Record MutationOutcome := MkMutationOutcome { Affected : Z; mo_Durability : Durability }.
Inductive InputOutcome := InputUnattempted | InputApplied | InputRolledBack | InputRejected | InputUnknown.
#[export] Instance InputOutcome_eq : EqDecision InputOutcome.
Proof. solve_decision. Defined.
Record BulkOutcome := MkBulk { Inputs : list InputOutcome; bo_Durability : Durability; FailedBatch : list nat }.
Record BulkOptions := MkBulkOptions { MaxRows : Z; bo_MaxBindParameters : Z; bo_Atomic : bool; Classifier : option N }.
Definition ErrPrecondition : error := errors_New "rasql: mutation precondition failed".
Definition OutcomeRejected : N := 1.
Definition executorDurability (db : DB) : Durability := if IsTransaction db then DurabilityPending else DurabilityCommitted.

Section Run.
Context {values : BindValues}.
Variable compiler : option Compiler.
Variable registry : CodecRegistry.

(** ** One mutation *)
Definition unknown_outcome : MutationOutcome := MkMutationOutcome 0 DurabilityUnknown.
Definition precondition (plan : MutationPlan) : bool := match plan with PatchPlan _ versioned => versioned | _ => false end.
Definition compile_plan (db : DB) (plan : MutationPlan) : result Statement :=
  match plan with
  | NativeMutation native => compileNativeMutation compiler registry (option_map d_Name (Exec.dialect db)) native
  | _ =>
      do s <- mutationPlan plan;
      if negb (length (write_returning s) =? 0) then Err (errors_New "rasql: mutation has RETURNING projections; use Returning")
      else compileMutation compiler registry s
  end.
(** What [Exec] makes of what the executor returns. *)
Definition executed_outcome (db : DB) (plan : MutationPlan) (result : option N) (err : option error) : M (MutationOutcome * option error) :=
  match err, result with
  | Some e, Some r =>
      match as_extension e with
      | Some true =>
          let! (affected, rowsErr) := ask (RowsAffected r) in
          Ret (match rowsErr with None => MkMutationOutcome affected (executorDurability db) | Some _ => unknown_outcome end, Some e)
      | _ => Ret (unknown_outcome, Some e)
      end
  | Some e, None => Ret (unknown_outcome, Some e)
  | None, None => Ret (unknown_outcome, Some (errors_New "rasql: executor returned nil mutation result"))
  | None, Some r =>
      let! (affected, rowsErr) := ask (RowsAffected r) in
      match rowsErr with
      | Some e => Ret (unknown_outcome, Some e)
      | None =>
          Ret (MkMutationOutcome affected (executorDurability db),
               if precondition plan
               then if (affected =? 0)%Z then Some ErrPrecondition else if (1 <? affected)%Z then Some ErrMultipleRows else None
               else None)
      end
  end.
Definition Exec (ctx : Context) (executor : option DB) (plan : option MutationPlan) : M (MutationOutcome * option error) :=
  match executor, plan with
  | None, _ => Ret (unknown_outcome, Some (errors_New "rasql: executor must not be nil"))
  | Some _, None => Ret (unknown_outcome, Some (errors_New "rasql: mutation plan must not be nil"))
  | Some db, Some plan =>
      match compile_plan db plan with
      | Err e => Ret (unknown_outcome, Some e)
      | Ok s => let! (result, err) := DB_Exec db ctx s in executed_outcome db plan result err
      end
  end.

(** ** Logical invocations ([event.go]) *)
Definition beginLogicalInvocation (db : DB) (ctx : Context) (kind : EventKind) : M (Context * DB * option eventScopeCompletion) :=
  if length (eventObservers db) =? 0 then Ret (ctx, db, None)
  else
    let! id := nextEventID in
    let parent := eventParentID db in
    let! (callCtx, completion) := startEvent db ctx (start_of id parent kind 0) in
    let! counter := new_counter in
    let! done := new_flag in
    Ret (callCtx, childEventScope id callCtx counter db,
         Some (MkScopeCompletion callCtx completion (terminal_of id parent kind 0 0 false None) done)).
Definition completeLogicalInvocation (c : option eventScopeCompletion) (err : option error) (rows : Z) (early : bool) : M unit :=
  match c with
  | None => Ret tt
  | Some c =>
      let! first := first_time (es_done c) in
      if first then
        let e := es_event c in
        completeEvent (es_ctx c) (es_completion c) (terminal_of (LogicalID e) (ParentID e) (ev_Kind e) (StatementIndex e) rows early err)
      else Ret tt
  end.

(** ** The batches of a prepared list *)
Inductive batch_result := NotSent (e : error) | Failed (e : error) (certainty : InputOutcome) | Applied.
Definition makeRange (first end_ : nat) : list nat := seq first (end_ - first).
Definition set_inputs (b : preparedMutationBatch) (x : InputOutcome) (l : list InputOutcome) : list InputOutcome :=
  foldr (fun i l => <[i := x]> l) l (makeRange (pb_start b) (pb_end b)).
Definition certainty_of (options : BulkOptions) (e : error) : M InputOutcome :=
  match Classifier options with
  | None => Ret InputUnknown
  | Some c => let! x := ask (Certainty c e) in Ret (if N.eqb x OutcomeRejected then InputRejected else InputUnknown)
  end.
Definition exec_batch (ctx : Context) (db : DB) (options : BulkOptions) (b : preparedMutationBatch) : M batch_result :=
  let! cancelled := ask (ContextErr ctx) in
  match cancelled with
  | Some e => Ret (NotSent e)
  | None =>
      let! (result, execErr) := DB_Exec db ctx (pb_statement b) in
      let! execErr := match execErr, result with
                      | Some e, _ => Ret (Some e)
                      | None, None => Ret (Some (errors_New "rasql: executor returned nil mutation result"))
                      | None, Some r => let! (_, rowsErr) := ask (RowsAffected r) in Ret rowsErr
                      end in
      match execErr with
      | None => Ret Applied
      | Some e => let! certainty := certainty_of options e in Ret (Failed e certainty)
      end
  end.
Fixpoint exec_prepared (ctx : Context) (db : DB) (options : BulkOptions) (l : list preparedMutationBatch) (o : BulkOutcome) :
    M (BulkOutcome * (option error + panic_value)) :=
  match l with
  | [] => Ret (o, inl None)
  | b :: l' =>
      let! r := try (exec_batch ctx db options b) in
      match r with
      | inr v => Ret (o, inr v)
      | inl (NotSent e) => Ret (o, inl (Some e))
      | inl (Failed e certainty) =>
          Ret (MkBulk (set_inputs b certainty (Inputs o)) (bo_Durability o) (makeRange (pb_start b) (pb_end b)), inl (Some e))
      | inl Applied => exec_prepared ctx db options l' (MkBulk (set_inputs b InputApplied (Inputs o)) (bo_Durability o) (FailedBatch o))
      end
  end.
Definition batch_panicked (v : panic_value) : error := Errorf "mutation batch panicked: %v" [].

(** ** In a scope of its own *)
Definition attempted (f : InputOutcome -> InputOutcome) (l : list InputOutcome) : list InputOutcome :=
  map (fun x => match x with InputUnattempted => InputUnattempted | _ => f x end) l.
Definition rolled_back (x : InputOutcome) : InputOutcome := match x with InputApplied => InputRolledBack | _ => x end.
Definition lost (o : BulkOutcome) : BulkOutcome := MkBulk (attempted (fun _ => InputUnknown) (Inputs o)) DurabilityUnknown (FailedBatch o).
Definition undone (o : BulkOutcome) : BulkOutcome := MkBulk (attempted rolled_back (Inputs o)) DurabilityPending (FailedBatch o).
(** The end of the scope, by how its statements ended. *)
Definition settle_batch (db : DB) (finalizer : ScopeFinalizer) (cleanupCtx : Context) (complete : option eventScopeCompletion)
    (o : BulkOutcome) (r : option error + panic_value) : M (BulkOutcome * option error) :=
  match r with
  | inr v =>
      let! rollbackErr := Finalizer_Rollback finalizer cleanupCtx in
      match rollbackErr with
      | Some e => completeLogicalInvocation complete (errors_Join [Some (batch_panicked v); Some e]) 0 false ;; Panic (AtomicPanic v e)
      | None => completeLogicalInvocation complete (Some (batch_panicked v)) 0 false ;; Panic v
      end
  | inl (Some e) =>
      let! rollbackErr := Finalizer_Rollback finalizer cleanupCtx in
      match rollbackErr with
      | Some _ =>
          let joined := errors_Join [Some e; rollbackErr] in
          completeLogicalInvocation complete joined 0 false ;; Ret (lost o, joined)
      | None => completeLogicalInvocation complete (Some e) 0 false ;; Ret (undone o, Some e)
      end
  | inl None =>
      let! err := Finalizer_Commit finalizer cleanupCtx in
      match err with
      | Some e => completeLogicalInvocation complete (Some e) 0 false ;; Ret (lost o, Some e)
      | None =>
          completeLogicalInvocation complete None 0 false ;;
          Ret (MkBulk (Inputs o) (executorDurability db) (FailedBatch o), None)
      end
  end.
Definition execAtomicMutationBatch (ctx : Context) (db : DB) (l : list (MutationPlan * WriteStatement)) (options : BulkOptions) :
    M (BulkOutcome * option error) :=
  let maxRows := if (MaxRows options =? 0)%Z then 1000%Z else MaxRows options in
  let o := MkBulk (replicate (length l) InputUnattempted) (executorDurability db) [] in
  match prepareMutationBatches compiler registry l maxRows (mutationBindLimit compiler (bo_MaxBindParameters options)) with
  | Err e => Ret (o, Some e)
  | Ok prepared =>
      let! cancelled := ask (ContextErr ctx) in
      match cancelled with
      | Some e => Ret (o, Some e)
      | None =>
          let! scope := if IsTransaction db then BeginSavepoint db ctx else BeginScope db ctx None in
          match scope with
          | Err e => Ret (o, Some e)
          | Ok (child, finalizer) =>
              let! (logicalCtx, logicalExecutor, complete) := beginLogicalInvocation child ctx EventMutationBatch in
              let! (o, r) := exec_prepared logicalCtx logicalExecutor options prepared o in
              settle_batch db finalizer (atomicCleanupContext logicalCtx) complete o r
          end
      end
  end.

(** ** Batches of plans *)
Definition no_bulk : BulkOutcome := MkBulk [] DurabilityUnknown [].
(** No plan is nil or native. *)
Fixpoint batch_plans (i : nat) (plans : list (option MutationPlan)) : result (list MutationPlan) :=
  match plans with
  | [] => Ok []
  | None :: _ => Err (Errorf "rasql: mutation batch input %d is nil" [AInt (Z.of_nat i)])
  | Some (NativeMutation _) :: _ =>
      Err (planError "unsupported_feature" ("inputs[" +:+ NatItoa i +:+ "]") "native mutations are not supported in batches")
  | Some plan :: plans' => do l <- batch_plans (S i) plans'; Ok (plan :: l)
  end.
(** Every plan lowered, and all of them of one table. *)
Fixpoint lower_plans (i : nat) (target : string) (plans : list MutationPlan) : result (list (MutationPlan * WriteStatement)) :=
  match plans with
  | [] => Ok []
  | plan :: plans' =>
      do s <- mutationPlan plan;
      if 0 <? length (write_returning s) then Err (Errorf "rasql: mutation batch input %d has RETURNING projections" [AInt (Z.of_nat i)])
      else
        let identity := mutationTarget s in
        if negb (String.eqb identity "") && negb (String.eqb target "") && negb (String.eqb target identity)
        then Err (Errorf "rasql: mutation batch inputs target mixed tables %q and %q" [AStr target; AStr identity])
        else do l <- lower_plans (S i) (if String.eqb target "" then identity else target) plans'; Ok ((plan, s) :: l)
  end.
Definition execPlainMutationBatch (ctx : Context) (db : DB) (l : list (MutationPlan * WriteStatement)) (maxRows : Z) (options : BulkOptions)
    (o : BulkOutcome) : M (BulkOutcome * option error) :=
  match prepareMutationBatches compiler registry l maxRows (mutationBindLimit compiler (bo_MaxBindParameters options)) with
  | Err e => Ret (o, Some e)
  | Ok prepared =>
      let! cancelled := ask (ContextErr ctx) in
      match cancelled with
      | Some e => Ret (o, Some e)
      | None =>
          let! (logicalCtx, logicalExecutor, complete) := beginLogicalInvocation db ctx EventMutationBatch in
          let! (o, r) := exec_prepared logicalCtx logicalExecutor options prepared o in
          match r with
          | inr v => completeLogicalInvocation complete (Some (batch_panicked v)) 0 false ;; Panic v
          | inl err => completeLogicalInvocation complete err 0 false ;; Ret (o, err)
          end
      end
  end.
Definition ExecBatch (ctx : Context) (executor : option DB) (plans : list (option MutationPlan)) (options : BulkOptions) :
    M (BulkOutcome * option error) :=
  match executor with
  | None => Ret (no_bulk, Some (errors_New "rasql: executor must not be nil"))
  | Some db =>
      if length plans =? 0 then Ret (no_bulk, Some (errors_New "rasql: mutation batch requires at least one plan"))
      else
        let untouched := MkBulk (replicate (length plans) InputUnattempted) DurabilityUnknown [] in
        let maxRows := if (MaxRows options =? 0)%Z then 1000%Z else MaxRows options in
        if (maxRows <? 1)%Z then Ret (untouched, Some (errors_New "rasql: mutation batch MaxRows must be positive"))
        else if (bo_MaxBindParameters options <? 0)%Z then Ret (untouched, Some (errors_New "rasql: mutation batch MaxBindParameters must be positive"))
        else match batch_plans 0 plans with
        | Err e => Ret (untouched, Some e)
        | Ok plans =>
            let o := MkBulk (Inputs untouched) (executorDurability db) [] in
            match lower_plans 0 "" plans with
            | Err e => Ret (o, Some e)
            | Ok l => if bo_Atomic options then execAtomicMutationBatch ctx db l options else execPlainMutationBatch ctx db l maxRows options o
            end
        end
  end.
End Run.
