(* ===== verification/MutationAtomic.v ===== *)
(** * MutationAtomic: a batch in a scope of its own is all or nothing

    [ExecBatch] over the database with savepoints of [ExecAtomic]: what the
    statements of a batch do to the data, what becomes of its inputs, and that
    an atomic batch leaves either all of its work or none. *)

From S2P Require Import Prelude GoText Schema Dialect EngineProfile Query QueryWrite Render RenderWrite RenderLayout QueryCompile Page Typed BindPlan Mutation MutationBatch GraphKey Prog Exec ExecScope ExecQuiet ExecAtomic MutationRun.
Open Scope string_scope.
Open Scope list_scope.
Open Scope nat_scope.
Open Scope prog_scope.

(** ** Every statement of a batch writes *)
Lemma verb_ordinary s w r : w <> WNil -> sql_text s = write_verb w +:+ r -> ordinary s.
Proof.
  intros Hw E. unfold ordinary. rewrite E. destruct w; try done;
    (split; [apply TrimSpace_started; vm_compute; reflexivity|]; by split).
Qed.
Section Ordinary.
Context {values : BindValues}.
Variable compiler : option Compiler.
Variable registry : CodecRegistry.
Lemma encoded_ordinary w c s : compileMutationParts compiler w = Ok c -> encodeCompiledMutation registry c = Ok s -> ordinary s.
Proof.
  unfold compileMutationParts. destruct compiler as [cc|]; [|done]. intros (s0 & Ew & (parts & Eu & Hp)%do_ok)%do_ok He.
  destruct (checkNoParameterSlots _) as [[]|]; [|done]. injection Hp as <-.
  apply encoded_args in He as [_ Et]. apply Unwrap_length in Eu as (_ & _ & _ & Eu).
  assert (w <> WNil) as Hn by (intros ->; revert Ew; unfold Compiler_Write; destruct (Validate_profile _) as [[]|]; done).
  unfold Compiler_Write in Ew. destruct (Validate_profile _) as [[]|]; [|done]. destruct (validateWriteCapabilities _ _) as [[]|]; [|done].
  apply within_limit_ok in Ew as [Ew _]. apply write_starts in Ew as [r Ew]. eapply verb_ordinary; [exact Hn|]. by rewrite Et, Eu, Ew.
Qed.
Lemma tiles_ordinary maxRows bindLimit bs : forall i l,
  tiles compiler registry maxRows bindLimit i l bs -> Forall (fun b => ordinary (pb_statement b)) bs.
Proof.
  induction bs as [|b bs IH]; intros i l; [constructor|]. cbn [tiles]. intros (m & _ & _ & _ & (c & He & _ & Hc) & Ht).
  constructor; [|by eapply IH]. destruct l as [|x l]; [done|]. destruct (mutationBatchInsert _ _).
  - eapply encoded_ordinary; [by eapply gr_compiled|done].
  - destruct Hc as [_ Hc]. by eapply encoded_ordinary.
Qed.
End Ordinary.

(** ** What becomes of the inputs *)
(** The inputs of batches whose outcomes these are. *)
Definition marked (bs : list preparedMutationBatch) (f : nat -> InputOutcome) : list InputOutcome :=
  concat (imap (fun j b => replicate (pb_end b - pb_start b) (f j)) bs).
(** The first [k] batches were applied; [fail] says what the next is marked. *)
Definition progress (k : nat) (fail : option InputOutcome) (j : nat) : InputOutcome :=
  if j <? k then InputApplied else if j =? k then default InputUnattempted fail else InputUnattempted.
(** Batches that follow one another from [i]. *)
Fixpoint contiguous (i : nat) (bs : list preparedMutationBatch) : Prop :=
  match bs with [] => True | b :: bs' => pb_start b = i /\ i <= pb_end b /\ contiguous (pb_end b) bs' end.
Lemma marked_cons b bs f : marked (b :: bs) f = replicate (pb_end b - pb_start b) (f 0) ++ marked bs (fun j => f (S j)).
Proof. done. Qed.
Lemma marked_ext bs f g : (forall j, j < length bs -> f j = g j) -> marked bs f = marked bs g.
Proof.
  revert f g. induction bs as [|b bs IH]; intros f g H; [done|]. rewrite !marked_cons, (H 0) by (simpl; lia). f_equal.
  apply IH. intros j Hj. apply H. simpl. lia.
Qed.
Lemma fill_between {A} (x : A) mid : forall pre post,
  foldr (fun i l => <[i := x]> l) (pre ++ mid ++ post) (seq (length pre) (length mid)) = pre ++ replicate (length mid) x ++ post.
Proof.
  induction mid as [|a mid IH]; intros pre post; [done|]. cbn [length seq foldr replicate app].
  replace (pre ++ a :: mid ++ post) with ((pre ++ [a]) ++ mid ++ post) by (by rewrite <- app_assoc).
  replace (S (length pre)) with (length (pre ++ [a])) by (rewrite length_app; simpl; lia).
  rewrite IH, <- app_assoc. rewrite insert_app_r_alt by lia. by rewrite Nat.sub_diag.
Qed.
Lemma set_inputs_between b x y pre post : pb_start b = length pre ->
  set_inputs b x (pre ++ replicate (pb_end b - pb_start b) y ++ post) = pre ++ replicate (pb_end b - pb_start b) x ++ post.
Proof.
  intros E. unfold set_inputs, makeRange. pose proof (fill_between x (replicate (pb_end b - pb_start b) y) pre post) as H.
  rewrite length_replicate in H. rewrite <- E in H. exact H.
Qed.
Lemma replicate_split n m (x : InputOutcome) : replicate (n + m) x = replicate n x ++ replicate m x.
Proof. apply replicate_add. Qed.
(** Tiling batches say of every plan what becomes of it. *)
Lemma tiles_marked {values : BindValues} compiler registry maxRows bindLimit bs : forall i l,
  tiles compiler registry maxRows bindLimit i l bs ->
  contiguous i bs /\ forall x, marked bs (fun _ => x) = replicate (length l) x.
Proof.
  induction bs as [|b bs IH]; intros i l; cbn [tiles]; [by intros ->|]. intros (m & Hm & Hs & He & _ & Ht).
  apply IH in Ht as [Hc Hx]. split.
  - cbn [contiguous]. rewrite Hs, He. split; [done|]. split; [lia|done].
  - intros x. rewrite marked_cons, Hx, length_drop, Hs, He, <- replicate_add. f_equal. lia.
Qed.

(** ** Statements in a transaction *)
(** Contexts are not cancelled and results say how many rows they changed. *)
Definition heeds (env : environment answer (panic := panic_value)) : Prop :=
  (forall t ctx, env t (ContextErr ctx) = Returns None) /\ (forall t r, exists n, env t (RowsAffected r) = Returns (n, None)).
Section Effect.
Context {S : Type}.
Variable apply : Statement -> S -> error + S.
Fixpoint effect (bs : list preparedMutationBatch) (cur : S) : option S :=
  match bs with
  | [] => Some cur
  | b :: bs' => match apply (pb_statement b) cur with inl _ => None | inr cur' => effect bs' cur' end
  end.
Variables begin_fails commit_fails : S -> option error.
Variable start : database S.
Variable env : environment answer (panic := panic_value).
Hypothesis Henv : served apply begin_fails commit_fails start env.
(** The data after the first [k] batches, or after one more, whose count of
    rows could not be read: its inputs are then marked otherwise. *)
Definition reached (bs : list preparedMutationBatch) (k : nat) (fail : option InputOutcome) (cur cur' : S) : Prop :=
  effect (take k bs) cur = Some cur' \/
  fail <> None /\ ~ heeds env /\ is_Some (effect (take k bs) cur) /\ effect (take (k + 1) bs) cur = Some cur'.
Abbreviation W := (world answer (state := shared) (panic := panic_value)).
Abbreviation base w := (database_after apply begin_fails commit_fails start (trace w)).
Abbreviation runs := (runs env).
Abbreviation at_work := (at_work apply begin_fails commit_fails start).

Lemma at_work_same t cur stack (w w' : W) : session (base w) = Some (t, cur, stack) -> base w' = base w -> at_work t cur stack w w'.
Proof. unfold ExecAtomic.at_work. intros Hs ->. rewrite <- Hs. by destruct (base w). Qed.
Lemma runs_request {B} c (f : answer c -> M B) w (P : answer c -> Prop) (Q : outcome B -> W -> Prop) : is_driver c = false -> (forall t a, env t c = Returns a -> P a) ->
  (forall a w', P a -> quiet_to apply begin_fails commit_fails start w w' -> runs (f a) w' Q) -> runs (bind (ask c) f) w Q.
Proof. intros Hd HP. eapply runs_quiet, silent_ask; [by eapply Hpermits|done..]. Qed.

Section Transaction.
Variables (db : DB) (t : N) (ctx : Context) (options : BulkOptions) (stack : list (string * S)).
Hypothesis Hdb : in_tx db t.
(** What a batch has done, by its result. *)
Definition batch_done (s : Statement) (cur : S) (r : batch_result) (w w' : W) : Prop :=
  idle db w' /\ (next_cell (cells w) <= next_cell (cells w'))%N /\
  match r with
  | Applied => exists cur', apply s cur = inr cur' /\ at_work t cur' stack w w'
  | NotSent _ => at_work t cur stack w w' /\ ~ heeds env
  | Failed _ x =>
      (x = InputRejected \/ x = InputUnknown) /\
      ((exists e, apply s cur = inl e) /\ at_work t cur stack w w' \/ ~ heeds env /\ exists cur', apply s cur = inr cur' /\ at_work t cur' stack w w')
  end.
Lemma runs_certainty e w (Q : outcome InputOutcome -> W -> Prop) :
  (forall x w', x = InputRejected \/ x = InputUnknown -> quiet_to apply begin_fails commit_fails start w w' -> Q (Done x) w') ->
  runs (certainty_of options e) w Q.
Proof.
  intros H. unfold certainty_of. destruct (Classifier options) as [c|]; [|apply runs_ret, H; [by right|apply quiet_to_refl]].
  eapply (runs_request (Certainty c e) _ _ (fun _ => True)); [done|done|]. intros x w' _ Hq. apply runs_ret, H; [|done]. destruct (x =? OutcomeRejected)%N; auto.
Qed.
Lemma runs_exec_batch b cur w : ordinary (pb_statement b) -> idle db w -> session (base w) = Some (t, cur, stack) ->
  runs (exec_batch ctx db options b) w (fun o w' => exists r, o = Done r /\ batch_done (pb_statement b) cur r w w').
Proof.
  intros Hord Hi Hs. unfold exec_batch.
  eapply (runs_request (ContextErr ctx) _ _ (fun e : option error => e <> None -> ~ heeds env)); [done|by intros ? ? E He [H _]; rewrite H in E; congruence|].
  intros [e|] w1 Hc [E1 S1].
  { apply runs_ret. eexists. split; [done|]. split; [by eapply idle_same|]. split; [by apply same_cells_next in S1|].
    split; [by apply at_work_same|by apply Hc]. }
  eapply runs_bind; [eapply runs_DB_Exec; [exact Henv|exact Hord|exact Hdb|by eapply idle_same|by rewrite E1]|cbv beta..].
  2: by intros ? ? (? & ? & ? & _). 2: by intros ? (? & ? & ? & _).
  intros [r err] w2 (? & ? & [= <- <-] & Hr & H2 & Hi2 & L2). apply same_cells_next in S1 as L1.
  assert (at_work t (match apply (pb_statement b) cur with inr cur' => cur' | inl _ => cur end) stack w w2) as H12.
  { unfold ExecAtomic.at_work in *. by rewrite H2, E1. }
  (* the error, if any, and what it means *)
  eapply (runs_bind _ _ _ (fun o w3 => exists execErr, o = Done execErr /\ quiet_to apply begin_fails commit_fails start w2 w3 /\
            match execErr, apply (pb_statement b) cur with None, inl _ => False | Some _, inr _ => ~ heeds env | _, _ => True end)).
  - destruct err as [e|].
    { apply runs_ret. exists (Some e). split; [done|]. split; [apply quiet_to_refl|]. destruct (apply _ _); [done|]. by destruct Hr. }
    destruct (apply (pb_statement b) cur) as [e|cur']; [done|]. destruct Hr as [_ [n ->]].
    eapply (runs_request (RowsAffected n) _ _ (fun a : Z * option error => a.2 <> None -> ~ heeds env)); [done| |].
    { intros t' a E Ha [_ H]. destruct (H t' n) as [z E']. rewrite E' in E. injection E as <-. done. }
    intros [z rowsErr] w3 Ha Hq. apply runs_ret. exists rowsErr. split; [done|]. split; [done|]. destruct rowsErr; [by apply Ha|done].
  - intros execErr w3 (? & [= <-] & [E3 S3] & Hx). apply same_cells_next in S3 as L3. destruct execErr as [e|].
    + eapply runs_bind; [apply (runs_certainty e w3 (fun o w4 => exists x, o = Done x /\ (x = InputRejected \/ x = InputUnknown) /\
                           quiet_to apply begin_fails commit_fails start w3 w4)); eauto|cbv beta..].
      * intros x w4 (? & [= <-] & Hcert & [E4 S4]). apply runs_ret. eexists. split; [done|].
        split; [eapply idle_same; [by eapply idle_same|exact S4]|]. apply same_cells_next in S4 as L4. split; [lia|]. split; [done|].
        assert (at_work t (match apply (pb_statement b) cur with inr cur' => cur' | inl _ => cur end) stack w w4) as H4.
        { unfold ExecAtomic.at_work in *. by rewrite E4, E3, H12. }
        destruct (apply (pb_statement b) cur) as [e'|cur']; [left|right]; eauto.
      * by intros ? ? (? & ? & _).
      * by intros ? (? & ? & _).
    + apply runs_ret. eexists. split; [done|]. split; [by eapply idle_same|]. split; [lia|].
      destruct (apply (pb_statement b) cur) as [e'|cur']; [done|]. exists cur'. split; [done|]. unfold ExecAtomic.at_work in *. by rewrite E3, H12.
  - by intros ? ? (? & ? & _).
  - by intros ? (? & ? & _).
Qed.

(** The outcome of the batches that were sent. *)
Definition batches_done (bs : list preparedMutationBatch) (o : BulkOutcome) (pre : list InputOutcome) (cur : S) (w : W)
    (o' : BulkOutcome) (err : option error) (k : nat) (fail : option InputOutcome) (w' : W) : Prop :=
  Inputs o' = pre ++ marked bs (progress k fail) /\ bo_Durability o' = bo_Durability o /\ k <= length bs /\
  (fail = None \/ fail = Some InputRejected \/ fail = Some InputUnknown) /\
  match err with None => k = length bs | Some _ => k < length bs /\ (heeds env -> effect bs cur = None) end /\
  (exists cur', reached bs k fail cur cur' /\ at_work t cur' stack w w') /\
  idle db w' /\ (next_cell (cells w) <= next_cell (cells w'))%N.
Lemma progress_shift k fail j : progress k fail j = progress (k + 1) fail (1 + j).
Proof. unfold progress. destruct (Nat.ltb_spec j k), (Nat.ltb_spec (1 + j) (k + 1)), (Nat.eqb_spec j k), (Nat.eqb_spec (1 + j) (k + 1)); (done || lia). Qed.
Lemma runs_exec_prepared bs : forall o pre cur w,
  contiguous (length pre) bs -> Forall (fun b => ordinary (pb_statement b)) bs -> Inputs o = pre ++ marked bs (fun _ => InputUnattempted) ->
  idle db w -> session (base w) = Some (t, cur, stack) ->
  runs (exec_prepared ctx db options bs o) w (fun out w' => exists o' err k fail, out = Done (o', inl err) /\ batches_done bs o pre cur w o' err k fail w').
Proof.
  induction bs as [|b bs IH]; intros o pre cur w Hc Hord Ho Hi Hs; cbn [exec_prepared].
  { apply runs_ret. exists o, None, 0, None. split; [done|]. split; [done|]. split; [done|]. split; [done|]. split; [by left|]. split; [done|].
    split; [|done]. exists cur. split; [by left|by apply at_work_same]. }
  destruct Hc as (Hstart & Hle & Hc). inversion_clear Hord as [|? ? Hb Hbs]. rewrite marked_cons in Ho.
  eapply (runs_bind _ _ _ (fun out w' => exists r, out = Done (inl r) /\ batch_done (pb_statement b) cur r w w')).
  { apply runs_try. eapply runs_mono; [|by apply runs_exec_batch]. intros out w' (r & -> & H). by exists r. }
  2: by intros ? ? (? & ? & _). 2: by intros ? (? & ? & _).
  intros r w1 (r' & [= ->] & Hi1 & L1 & H1). destruct r' as [e|e x|].
  - destruct H1 as [H1 Hn]. apply runs_ret. exists o, (Some e), 0, None. split; [done|]. split; [rewrite Ho; f_equal; rewrite marked_cons; reflexivity|].
    split; [done|]. split; [lia|]. split; [by left|]. split; [split; [simpl; lia|by intros ?%Hn]|]. split; [|done]. exists cur. split; [by left|done].
  - destruct H1 as (Hx & H1). apply runs_ret. eexists _, _, 0, (Some x). split; [done|]. cbn [Inputs bo_Durability].
    split. { rewrite Ho, set_inputs_between by done. rewrite marked_cons. reflexivity. }
    split; [done|]. split; [lia|]. split; [destruct Hx as [->| ->]; auto|]. split.
    { split; [simpl; lia|]. intros Hh. destruct H1 as [((e' & E) & _)|[Hn _]]; [|done]. cbn [effect]. by rewrite E. }
    split; [|done]. destruct H1 as [(_ & H1)|(Hnh & cur' & E & H1)].
    + exists cur. split; [by left|done].
    + exists cur'. split; [right|done]. split; [done|]. split; [done|]. split; [by eexists|]. cbn [Nat.add take effect]. by rewrite E.
  - destruct H1 as (cur' & E & H1).
    set (pre' := pre ++ replicate (pb_end b - pb_start b) InputApplied).
    assert (length pre' = pb_end b) as Hpre' by (unfold pre'; rewrite length_app, length_replicate; lia).
    eapply runs_mono; [|eapply (IH _ pre' cur' w1)]; [| |done|cbn [Inputs]|done|by eapply at_work_session].
    + intros out w2 (o' & err & k & fail & -> & Hin & Hd & Hk & Hf & Herr & (cur'' & Hr & H2) & Hi2 & L2).
      exists o', err, (k + 1), fail. split; [done|]. split.
      { rewrite Hin. unfold pre'. rewrite <- app_assoc. f_equal. rewrite marked_cons. f_equal; [unfold progress; by rewrite Nat.add_1_r|].
        apply marked_ext. intros j _. apply (progress_shift k fail j). }
      split; [done|]. split; [simpl; lia|]. split; [done|].
      assert (forall l, effect (b :: l) cur = effect l cur') as Heff by (intros l; cbn [effect]; by rewrite E).
      split. { destruct err; [split; [simpl; lia|rewrite Heff; by apply Herr]|simpl; lia]. }
      split; [|split; [done|lia]]. exists cur''. split; [|by eapply at_work_trans].
      unfold reached in *. rewrite Nat.add_1_r, Nat.add_1_r. cbn [take]. rewrite !Heff. by rewrite Nat.add_1_r in Hr.
    + by rewrite Hpre'.
    + rewrite Ho, set_inputs_between by done. unfold pre'. by rewrite <- app_assoc.
Qed.
End Transaction.

(** ** Logical invocations *)
Lemma runs_logical {B} db ctx kind (f : Context * DB * option eventScopeCompletion -> M B) w (Q : outcome B -> W -> Prop) :
  (forall ctx' db' complete w', quiet_to apply begin_fails commit_fails start w w' ->
     (forall t, in_tx db t -> in_tx db' t) -> busy db' = busy db -> runs (f (ctx', db', complete)) w' Q) ->
  runs (bind (beginLogicalInvocation db ctx kind) f) w Q.
Proof.
  intros H. eapply (runs_bind _ _ _ (fun o w' => exists ctx' db' complete, o = Done (ctx', db', complete) /\
              quiet_to apply begin_fails commit_fails start w w' /\ (forall t, in_tx db t -> in_tx db' t) /\ busy db' = busy db)).
  2: by intros [[ctx' db'] complete] w' (? & ? & ? & [= <- <- <-] & Hq & Ht & Hb); apply H.
  2: by intros ? ? (? & ? & ? & ? & _). 2: by intros ? (? & ? & ? & ? & _).
  unfold beginLogicalInvocation. destruct (length (eventObservers db) =? 0).
  { apply runs_ret. eexists _, _, _. split; [done|]. split; [apply quiet_to_refl|]. by split. }
  pose proof (Hpermits _ _ _ _ _ Henv) as Hp.
  eapply runs_quiet; [apply silent_eventID|]. intros id w1 _ Q1.
  eapply runs_quiet; [by apply silent_startEvent|]. intros [cctx completion] w2 _ Q2.
  eapply runs_quiet; [apply (silent_counter env None)|]. intros counter w3 _ Q3.
  apply (base_new_flag apply begin_fails commit_fails start). intros done w4 E4 S4 _ _. apply runs_ret.
  eexists _, _, _. split; [done|]. split; [|by split].
  eapply quiet_to_trans; [exact Q1|]. eapply quiet_to_trans; [exact Q2|]. by eapply quiet_to_trans.
Qed.
Lemma runs_completed {B} c err n early (f : unit -> M B) w (Q : outcome B -> W -> Prop) :
  (forall w', base w' = base w -> runs (f tt) w' Q) -> runs (bind (completeLogicalInvocation c err n early) f) w Q.
Proof.
  intros H. eapply (runs_bind _ _ _ (fun o w' => o = Done tt /\ base w' = base w)).
  2: by intros [] w' [_ E]; apply H. 2: by intros ? ? [? _]. 2: by intros ? [? _].
  unfold completeLogicalInvocation. destruct c as [c|]; [|by apply runs_ret].
  apply (base_first_time apply begin_fails commit_fails start). intros [] w1 E1 _; [|by apply runs_ret].
  pose proof (silent_completeEvent env (Hpermits _ _ _ _ _ Henv) (es_ctx c) (es_completion c)
    (terminal_of (LogicalID (es_event c)) (ParentID (es_event c)) (ev_Kind (es_event c)) (StatementIndex (es_event c)) n early err) w1)
    as ([] & w2 & E2 & _ & Hs).
  unfold ExecQuiet.runs. rewrite E2. split; [done|]. apply (silent_quiet apply begin_fails commit_fails start) in Hs as [Hs _]. cbn [snd]. congruence.
Qed.

(** ** The end of a scope *)
(** What a batch in such a scope comes to. *)
Definition batch_settled (db : DB) (bs : list preparedMutationBatch) (cur : S) (ends_as : bool -> S -> option error -> database S -> Prop)
    (o : outcome (panic := panic_value) (BulkOutcome * option error)) (w' : W) : Prop :=
  exists out err, o = Done (out, err) /\
  match err with
  | None => Inputs out = marked bs (fun _ => InputApplied) /\ bo_Durability out = executorDurability db /\
            exists cur', effect bs cur = Some cur' /\ ends_as true cur' None (base w')
  | Some _ => (InputApplied ∉ Inputs out) /\ length (Inputs out) = length (marked bs (fun _ => InputApplied)) /\ bo_Durability out <> DurabilityCommitted /\
              ((exists cur' e, ends_as false cur' e (base w')) /\ (heeds env -> effect bs cur = None) \/
               (exists cur' e, effect bs cur = Some cur' /\ ends_as true cur' (Some e) (base w')))
  end.
Lemma not_applied f l : (forall x, f x <> InputApplied) -> InputApplied ∉ attempted f l.
Proof.
  intros H. unfold attempted. rewrite list_elem_of_fmap. intros (x & E & _). destruct x; try done; by eapply H.
Qed.
Lemma not_rolled_back x : rolled_back x <> InputApplied.
Proof. by destruct x. Qed.
Lemma marked_length bs f g : length (marked bs f) = length (marked bs g).
Proof.
  revert f g. induction bs as [|b bs IH]; intros f g; [done|]. rewrite !marked_cons, !length_app, !length_replicate. f_equal. apply IH.
Qed.
Lemma runs_settled db child f options ctx bs o cur ends_in ends_as w :
  scope_open apply begin_fails commit_fails start env child f cur ends_in w ->
  (forall commits cur' e w', ends_in commits cur' e w' -> ends_as commits cur' e (base w')) -> contiguous 0 bs -> Forall (fun b => ordinary (pb_statement b)) bs ->
  Inputs o = marked bs (fun _ => InputUnattempted) ->
  runs (let! (logicalCtx, logicalExecutor, complete) := beginLogicalInvocation child ctx EventMutationBatch in
        let! (o, r) := exec_prepared logicalCtx logicalExecutor options bs o in
        settle_batch db f (atomicCleanupContext logicalCtx) complete o r) w (batch_settled db bs cur ends_as).
Proof.
  intros Hopen Has Hc Hord Ho. pose proof (so_idle _ _ _ _ _ _ _ _ _ _ Hopen) as Hi.
  apply scope_finishes in Hopen as (t & stack & Hdb & Hs & Hend). apply runs_logical. intros ctx' db' complete w1 [E1 S1] Htx Hbusy.
  assert (idle db' w1) as Hi1 by (unfold idle; rewrite Hbusy; by eapply idle_same).
  eapply runs_bind; [eapply (runs_exec_prepared db' t ctx' options stack (Htx t Hdb) bs o [] cur w1); [exact Hc|done|done|done|by rewrite E1]|cbv beta..].
  2: by intros ? ? (? & ? & ? & ? & ? & _). 2: by intros ? (? & ? & ? & ? & ? & _).
  intros [? ?] w2 (o' & err & k & fail & [= -> ->] & Hin & Hd & Hk & Hf & Herr & (cur' & Hr & H2) & Hi2 & L2). cbn [app] in Hin.
  assert (at_work t cur' stack w w2) as H02 by (unfold ExecAtomic.at_work in *; by rewrite H2, E1).
  assert (idle child w2) as Hi2' by (unfold idle in *; by rewrite <- Hbusy).
  apply same_cells_next in S1.
  assert (forall commits c, runs (finalize commits f c) w2 (fun o w'' => exists e, o = Done e /\ ends_as commits cur' e (base w''))) as Hfin
    by (intros commits c; eapply runs_mono; [|apply Hend; [exact H02|done|lia]]; intros ? ? (e & -> & H); exists e; auto).
  assert (forall g, length (attempted g (Inputs o')) = length (marked bs (fun _ => InputApplied))) as Hlen.
  { intros g. unfold attempted. rewrite length_map, Hin. apply marked_length. }
  unfold settle_batch. destruct err as [e|].
  - eapply runs_bind; [apply (Hfin false)|cbv beta..]. 2: by intros ? ? (? & ? & _). 2: by intros ? (? & ? & _).
    intros rollbackErr w3 (? & [= <-] & H3). destruct Herr as [_ Herr]. destruct rollbackErr as [e'|]; apply runs_completed; intros w4 E4; apply runs_ret;
      eexists _, _; (split; [reflexivity|]).
    + split; [by apply not_applied|]. split; [apply Hlen|]. split; [done|]. left. rewrite E4. split; [eauto|done].
    + split; [by apply not_applied, not_rolled_back|]. split; [apply Hlen|]. split; [done|]. left. rewrite E4. split; [eauto|done].
  - subst k. assert (effect bs cur = Some cur') as Heff.
    { destruct Hr as [Hr|(_ & _ & _ & Hr)]; rewrite take_ge in Hr by lia; done. }
    eapply runs_bind; [apply (Hfin true)|cbv beta..]. 2: by intros ? ? (? & ? & _). 2: by intros ? (? & ? & _).
    intros commitErr w3 (? & [= <-] & H3). destruct commitErr as [e'|]; apply runs_completed; intros w4 E4; apply runs_ret;
      eexists _, _; (split; [reflexivity|]).
    + split; [by apply not_applied|]. split; [apply Hlen|]. split; [done|]. right. rewrite E4. eauto.
    + cbn [Inputs bo_Durability]. split; [|split; [done|]; rewrite E4; eauto]. rewrite Hin. apply marked_ext. intros j Hj.
      unfold progress. by destruct (Nat.ltb_spec j (length bs)); [|lia].
Qed.

(** ** [ExecBatch] *)
Section Batch.
Context {values : BindValues}.
Variable compiler : option Compiler.
Variable registry : CodecRegistry.
Abbreviation ExecBatch := (ExecBatch compiler registry).
Definition max_rows (options : BulkOptions) : Z := if (MaxRows options =? 0)%Z then 1000%Z else MaxRows options.
(** The batches that the plans come to. *)
Definition planned (plans : list (option MutationPlan)) (options : BulkOptions) (bs : list preparedMutationBatch) : Prop :=
  plans <> [] /\ (1 <= max_rows options)%Z /\ (0 <= bo_MaxBindParameters options)%Z /\
  exists ps l, batch_plans 0 plans = Ok ps /\ lower_plans 0 "" ps = Ok l /\
    prepareMutationBatches compiler registry l (max_rows options) (mutationBindLimit compiler (bo_MaxBindParameters options)) = Ok bs.
Lemma batch_plans_length plans : forall i ps, batch_plans i plans = Ok ps -> length ps = length plans.
Proof.
  induction plans as [|[plan|] plans IH]; intros i ps; cbn [batch_plans]; [by intros [= <-]| |done].
  destruct plan; try done; intros (l & E & [= <-])%do_ok; simpl; f_equal; by eapply IH.
Qed.
Lemma lower_plans_ok ps : forall i target l, lower_plans i target ps = Ok l -> length l = length ps /\ Forall (fun x => write_returning x.2 = []) l.
Proof.
  induction ps as [|plan ps IH]; intros i target l; cbn [lower_plans]; [by intros [= <-]|].
  intros (s & _ & H)%do_ok. destruct (Nat.ltb_spec 0 (length (write_returning s))) as [|Hr]; [done|].
  destruct (_ && _); [done|]. apply do_ok in H as (l' & E & [= <-]). apply IH in E as [L F]. split; [simpl; by f_equal|].
  constructor; [|done]. simpl. destruct (write_returning s); [done|simpl in Hr; lia].
Qed.
Lemma planned_batches l maxRows bindLimit bs : (1 <= maxRows)%Z -> Forall (fun x => write_returning x.2 = []) l ->
  prepareMutationBatches compiler registry l maxRows bindLimit = Ok bs ->
  contiguous 0 bs /\ (forall x, marked bs (fun _ => x) = replicate (length l) x) /\ Forall (fun b => ordinary (pb_statement b)) bs.
Proof.
  intros Hm Hr Hp. assert (tiles compiler registry maxRows bindLimit 0 l bs) as Ht.
  { destruct compiler as [cc|] eqn:Ec; [by eapply (prepared_tiles (Some cc) registry cc)|].
    destruct l as [|[plan s] l]; [by injection Hp as <-|]. exfalso. unfold prepareMutationBatches in Hp. cbn [length prepare_from] in Hp.
    unfold next_batch, compileMutationGroup, compileMutationPrefix, compile_first in Hp.
    apply do_ok in Hp as (b & Hb & _). destruct (mutationBatchInsert plan s) as [first|]; [|done].
    destruct (defaultValues first); [done|]. destruct (shared_run _ _ _ _ _ _) as [rows ends]. destruct (_ =? _); [done|].
    apply do_ok in Hb as (whole & Hw & Hb). by apply do_ok in Hw as (candidate & _ & Hw). }
  destruct (tiles_marked _ _ _ _ _ _ _ Ht) as [Hc Hx]. split; [done|]. split; [done|]. by eapply tiles_ordinary.
Qed.
(** What is left of [ExecBatch] once the plans are prepared. *)
Definition batch_body (db : DB) (ctx : Context) (options : BulkOptions) (bs : list preparedMutationBatch) (o : BulkOutcome) : M (BulkOutcome * option error) :=
  let! cancelled := ask (ContextErr ctx) in
  match cancelled with
  | Some e => Ret (o, Some e)
  | None =>
      if bo_Atomic options then
        let! scope := if IsTransaction db then BeginSavepoint db ctx else BeginScope db ctx None in
        match scope with
        | Err e => Ret (o, Some e)
        | Ok (child, finalizer) =>
            let! (logicalCtx, logicalExecutor, complete) := beginLogicalInvocation child ctx EventMutationBatch in
            let! (o, r) := exec_prepared logicalCtx logicalExecutor options bs o in
            settle_batch db finalizer (atomicCleanupContext logicalCtx) complete o r
        end
      else
        let! (logicalCtx, logicalExecutor, complete) := beginLogicalInvocation db ctx EventMutationBatch in
        let! (o, r) := exec_prepared logicalCtx logicalExecutor options bs o in
        match r with
        | inr v => completeLogicalInvocation complete (Some (batch_panicked v)) 0 false ;; Panic v
        | inl err => completeLogicalInvocation complete err 0 false ;; Ret (o, err)
        end
  end.
Definition untouched (n : nat) (dur : Durability) : BulkOutcome := MkBulk (replicate n InputUnattempted) dur [].
Lemma ExecBatch_cases db ctx plans options :
  (exists dur e, ExecBatch ctx (Some db) plans options = Ret (untouched (length plans) dur, Some e) /\ forall bs, ~ planned plans options bs) \/
  (exists bs, ExecBatch ctx (Some db) plans options = batch_body db ctx options bs (untouched (length plans) (executorDurability db)) /\
     planned plans options bs /\ (forall bs', planned plans options bs' -> bs' = bs) /\
     contiguous 0 bs /\ (forall x, marked bs (fun _ => x) = replicate (length plans) x) /\ Forall (fun b => ordinary (pb_statement b)) bs).
Proof.
  unfold MutationRun.ExecBatch. fold (max_rows options).
  destruct (Nat.eqb_spec (length plans) 0) as [Hz|Hz].
  { destruct plans; [|done]. left. eexists _, _. split; [reflexivity|]. by intros bs [? _]. }
  destruct (Z.ltb_spec (max_rows options) 1).
  { left. eexists _, _. split; [reflexivity|]. intros bs (_ & ? & _). lia. }
  destruct (Z.ltb_spec (bo_MaxBindParameters options) 0).
  { left. eexists _, _. split; [reflexivity|]. intros bs (_ & _ & ? & _). lia. }
  destruct (batch_plans 0 plans) as [ps|e] eqn:Eps.
  2:{ left. eexists _, _. split; [reflexivity|]. intros bs (_ & _ & _ & ? & ? & ? & _). congruence. }
  cbn [Inputs]. destruct (lower_plans 0 "" ps) as [l|e] eqn:El.
  2:{ left. eexists _, _. split; [reflexivity|]. intros bs (_ & _ & _ & ? & ? & ? & ? & _). congruence. }
  destruct (lower_plans_ok _ _ _ _ El) as [Hlen Hret]. apply batch_plans_length in Eps as Hlen'.
  unfold execAtomicMutationBatch, execPlainMutationBatch. fold (max_rows options). rewrite Hlen, Hlen'.
  destruct (prepareMutationBatches _ _ _ _ _) as [bs|e] eqn:Ebs.
  - right. exists bs. split; [unfold batch_body; by destruct (bo_Atomic options)|]. split; [split; [by intros ->|]; eauto 10|].
    split; [intros bs' (_ & _ & _ & ? & ? & ? & ? & ?); congruence|]. rewrite <- Hlen', <- Hlen. by eapply planned_batches.
  - left. exists (executorDurability db), e. split; [by destruct (bo_Atomic options)|]. intros bs (_ & _ & _ & ? & ? & ? & ? & ?). congruence.
Qed.
(** What an atomic batch comes to: [kept] says what the database is when its
    work is kept, [undone] when it is not, and [can] of which data its scope
    can keep. *)
Variables (kept : S -> database S -> Prop) (undone : database S -> Prop) (can : S -> Prop).
Definition all_or_nothing (db : DB) (plans : list (option MutationPlan)) (options : BulkOptions) (cur : S)
    (o : outcome (panic := panic_value) (BulkOutcome * option error)) (w' : W) : Prop :=
  exists out err, o = Done (out, err) /\ length (Inputs out) = length plans /\
  match err with
  | None => Inputs out = replicate (length plans) InputApplied /\ bo_Durability out = executorDurability db /\
            exists bs cur', planned plans options bs /\ effect bs cur = Some cur' /\ kept cur' (base w')
  | Some _ => (InputApplied ∉ Inputs out) /\ (bo_Durability out = DurabilityCommitted -> Inputs out = replicate (length plans) InputUnattempted) /\
              undone (base w') /\
              (heeds env -> forall bs cur', planned plans options bs -> effect bs cur = Some cur' -> ~ can cur')
  end.
Lemma not_unattempted n : InputApplied ∉ replicate n InputUnattempted.
Proof. intros [? _]%elem_of_replicate. done. Qed.
Lemma runs_atomic db ctx plans options cur w : bo_Atomic options = true -> undone (base w) ->
  (forall w1, base w1 = base w -> same_cells None w w1 ->
     runs (if IsTransaction db then BeginSavepoint db ctx else BeginScope db ctx None) w1 (fun o w2 =>
       (exists e, o = Done (Err e) /\ undone (base w2) /\ forall cur', ~ can cur') \/
       exists child f ends_in, o = Done (Ok (child, f)) /\ scope_open apply begin_fails commit_fails start env child f cur ends_in w2 /\
         forall commits cur' e w', ends_in commits cur' e w' ->
           match commits, e with true, None => kept cur' (base w') | true, Some _ => undone (base w') /\ ~ can cur' | false, _ => undone (base w') end)) ->
  runs (ExecBatch ctx (Some db) plans options) w (all_or_nothing db plans options cur).
Proof.
  intros Hatomic Hundone Hscope.
  assert (forall dur e w', undone (base w') -> (heeds env -> forall bs cur', planned plans options bs -> effect bs cur = Some cur' -> ~ can cur') ->
    all_or_nothing db plans options cur (Done (untouched (length plans) dur, Some e)) w') as Hearly.
  { intros dur e w' E H. eexists _, _. split; [reflexivity|]. cbn [Inputs bo_Durability untouched]. split; [by rewrite length_replicate|].
    split; [apply not_unattempted|]. by split. }
  destruct (ExecBatch_cases db ctx plans options) as [(dur & e & -> & Hn)|(bs & -> & Hplanned & Huniq & Hcont & Hmark & Hord)].
  { apply runs_ret, Hearly; [done|]. by intros _ bs cur' ?%Hn. }
  unfold batch_body. rewrite Hatomic.
  eapply (runs_request (ContextErr ctx) _ _ (fun e : option error => e <> None -> ~ heeds env)); [done|by intros ? ? E He [Hh _]; rewrite Hh in E; congruence|].
  intros [e|] w1 Hcancel [E1 S1]; [apply runs_ret, Hearly; [by rewrite E1|]; intros Hh; by destruct (Hcancel ltac:(done))|].
  eapply runs_bind; [by apply Hscope|cbv beta..].
  2: by intros ? ? [(? & ? & _)|(? & ? & ? & ? & _)]. 2: by intros ? [(? & ? & _)|(? & ? & ? & ? & _)].
  intros scope w2 [(e & [= ->] & Hu & Hn)|(child & f & ends_in & [= ->] & Hopen & Hends)].
  { apply runs_ret, Hearly; [done|]. intros. apply Hn. }
  eapply runs_mono; [|eapply (runs_settled db child f options ctx bs _ cur ends_in
    (fun commits cur' e d => match commits, e with true, None => kept cur' d | true, Some _ => undone d /\ ~ can cur' | false, _ => undone d end));
    [exact Hopen|exact Hends|done|done|by rewrite Hmark]].
  intros o w3 (out & err & -> & Ho). exists out, err. split; [done|]. destruct err as [e|].
  - destruct Ho as (Hna & Hlo & Hdur & Hend). split; [by rewrite Hlo, Hmark, length_replicate|]. split; [done|]. split; [done|].
    destruct Hend as [[(cur' & e' & Hu) Hh]|(cur' & e' & Heff & Hu & Hn)].
    + split; [done|]. intros Hheeds bs' c ->%Huniq. by rewrite Hh.
    + split; [done|]. intros _ bs' c ->%Huniq. rewrite Heff. by intros [= <-].
  - destruct Ho as (Hin & Hdur & cur' & Heff & Hk). rewrite Hmark in Hin. split; [by rewrite Hin, length_replicate|]. split; [done|]. split; [done|].
    by exists bs, cur'.
Qed.
(** A batch with no scope of its own, inside a transaction: the inputs say how
    far it came. *)
Definition as_far_as (plans : list (option MutationPlan)) (options : BulkOptions) (t : N) (cur : S) (stack : list (string * S)) (w : W)
    (o : outcome (panic := panic_value) (BulkOutcome * option error)) (w' : W) : Prop :=
  exists out err, o = Done (out, err) /\
  ((err <> None /\ Inputs out = replicate (length plans) InputUnattempted /\ at_work t cur stack w w') \/
   exists bs k fail cur', planned plans options bs /\ Inputs out = marked bs (progress k fail) /\ bo_Durability out = DurabilityPending /\
     (err = None <-> k = length bs) /\ reached bs k fail cur cur' /\ at_work t cur' stack w w').
Lemma runs_plain db t ctx plans options cur stack w : bo_Atomic options = false ->
  in_tx db t -> idle db w -> session (base w) = Some (t, cur, stack) ->
  runs (ExecBatch ctx (Some db) plans options) w (as_far_as plans options t cur stack w).
Proof.
  intros Hplain Hdb Hi Hs.
  assert (forall dur e w', base w' = base w -> as_far_as plans options t cur stack w (Done (untouched (length plans) dur, Some e)) w') as Hearly.
  { intros dur e w' E. eexists _, _. split; [reflexivity|]. left. split; [done|]. split; [done|]. by apply at_work_same. }
  destruct (ExecBatch_cases db ctx plans options) as [(dur & e & -> & Hn)|(bs & -> & Hplanned & _ & Hcont & Hmark & Hord)].
  { by apply runs_ret, Hearly. }
  unfold batch_body. rewrite Hplain. eapply (runs_request (ContextErr ctx) _ _ (fun _ => True)); [done..|]. intros [e|] w1 _ [E1 S1].
  { by apply runs_ret, Hearly. }
  apply runs_logical. intros ctx' db' complete w2 [E2 S2] Htx Hbusy.
  eapply runs_bind; [eapply (runs_exec_prepared db' t ctx' options stack (Htx t Hdb) bs _ [] cur w2);
    [exact Hcont|done|by rewrite Hmark|unfold idle; rewrite Hbusy; eapply idle_same; [by eapply idle_same|exact S2]|by rewrite E2, E1]|cbv beta..].
  2: by intros ? ? (? & ? & ? & ? & ? & _). 2: by intros ? (? & ? & ? & ? & ? & _).
  intros [? ?] w3 (o' & err & k & fail & [= -> ->] & Hin & Hd & Hk & Hf & Herr & (cur' & Hr & H3) & _).
  apply runs_completed. intros w4 E4. apply runs_ret. eexists _, _. split; [reflexivity|]. right. exists bs, k, fail, cur'.
  split; [done|]. split; [done|]. split.
  { rewrite Hd. unfold untouched, executorDurability, IsTransaction. destruct Hdb as (_ & -> & _). cbn [bo_Durability]. by rewrite bool_decide_eq_true_2 by eauto. }
  split; [destruct err; [split; [done|lia]|by split]|]. split; [done|]. unfold ExecAtomic.at_work in *. by rewrite E4, H3, E2, E1.
Qed.
End Batch.
End Effect.

(** C5 A batch says what became of it, and an atomic one is all or nothing.
    Over a database that keeps savepoints, under hooks that let every operation
    pass and observers that do anything but panic: [ExecBatch] in a scope of
    its own, a transaction or a savepoint of the one it is in, either returns
    no error, marks every input applied and leaves in the data exactly the work
    of the statements the plans come to, in their order; or it returns an
    error, marks no input applied, claims no commit of anything it attempted
    and leaves the data as they were. It fails only where a plan, a statement,
    a count of rows, a context, beginning or committing does. Without a scope,
    inside a transaction, the work of the statements whose inputs are marked
    applied is in the data, and no other work, with one exception: when the
    environment fails to say how many rows a statement changed (or cancels a
    context), the work of one more statement may be in the data, the one whose
    inputs are marked rejected or unknown. No error means every input was
    applied. *)
Theorem batch_all_or_nothing {S} (apply : Statement -> S -> error + S) begin_fails commit_fails start env
    {values : BindValues} compiler registry db plans options ctx w :
  served apply begin_fails commit_fails start env ->
  let D w := database_after apply begin_fails commit_fails start (trace w) in
  let batch := ExecBatch compiler registry ctx (Some db) plans options in
  (plain_db db -> bo_Atomic options = true -> session (D w) = None ->
     runs env batch w (all_or_nothing apply begin_fails commit_fails start env compiler registry
       (fun cur d => committed d = cur /\ session d = None)
       (fun d => committed d = committed (D w) /\ session d = None)
       (fun cur => begin_fails (committed (D w)) = None /\ commit_fails cur = None) db plans options (committed (D w)))) /\
  (forall t cur stack, in_tx db t -> idle db w -> session (D w) = Some (t, cur, stack) -> bo_Atomic options = true ->
     runs env batch w (all_or_nothing apply begin_fails commit_fails start env compiler registry
       (fun cur d => d = MkDatabase (committed (D w)) (Some (t, cur, stack)) (opened (D w)))
       (fun d => d = D w) (fun _ => True) db plans options cur)) /\
  (forall t cur stack, in_tx db t -> idle db w -> session (D w) = Some (t, cur, stack) -> bo_Atomic options = false ->
     runs env batch w (as_far_as apply begin_fails commit_fails start env compiler registry plans options t cur stack w)).
Proof.
  intros Henv D batch. split; [|split].
  - intros Hp Ha Hs. apply runs_atomic; [done|done|by split|]. intros w1 E1 S1. destruct (Hp) as (_ & _ & Ht & _). unfold IsTransaction.
    rewrite Ht, bool_decide_eq_false_2 by (by intros []). eapply runs_mono; [|apply (runs_BeginScope _ _ _ _ _ Henv); [done|by rewrite E1]].
    rewrite E1. intros o w2 H. fold (D w) in H. destruct (begin_fails (committed (D w))) eqn:Hb.
    + destruct H as (e0 & -> & H). left. exists e0. split; [done|]. rewrite H. split; [done|]. by intros cur' [? _].
    + destruct H as (child & f & -> & H). right. eexists child, f, _. split; [done|]. split; [exact H|]. intros commits cur' e w' He.
      unfold tx_end, over in He. rewrite E1 in He. fold (D w) in He. destruct commits; [|by destruct He].
      destruct (commit_fails cur'); destruct He as [He Hd]; [|by subst]. destruct e; [|done]. split; [done|]. by intros [_ ?].
  - intros t cur stack Hdb Hi Hs Ha. apply runs_atomic; [done|done|done|]. intros w1 E1 S1. destruct (Hdb) as (_ & Ht & _). unfold IsTransaction.
    rewrite Ht, bool_decide_eq_true_2 by eauto. eapply runs_mono; [|by eapply (runs_BeginSavepoint _ _ _ _ _ Henv); [|eapply idle_same|rewrite E1]].
    intros o w2 (child & f & -> & H). right. eexists child, f, _. split; [done|]. split; [exact H|]. intros commits cur' e w' (-> & He & _).
    unfold at_work in He. rewrite E1 in He. fold (D w) in He. destruct commits; [done|]. rewrite He, <- Hs. by destruct (D w).
  - intros t cur stack Hdb Hi Hs Ha. by apply runs_plain.
Qed.

(** *** Five inserts in three statements, into a log with room for so many *)
Definition room_apply (n : nat) (s : Statement) (l : list string) : error + list string :=
  if n <=? length l then inl (errors_New "no room") else inr (l ++ [SQL s]).
Definition room_env (n : nat) : environment answer (panic := panic_value) :=
  fun t c => Returns (serve (room_apply n) never never c (database_after (room_apply n) never never log_start t)).1.
Lemma room_served n : served (room_apply n) never never log_start (room_env n).
Proof. split; [|done]. intros t c. split; [by eexists|]. by destruct c. Qed.
#[local] Existing Instance plain_values.
Definition room_batch : M (BulkOutcome * option error) :=
  ExecBatch (Some (tiny_compiler 100)) ∅ Background (Some log_db) (map (fun x => Some x.1) five_users) (MkBulkOptions 0 2 true None).
Lemma batch_all_or_nothing_witness :
  (exists out, (run (room_env 3) room_batch log_world).1 = Done (out, None) /\ Inputs out = replicate 5 InputApplied /\
     length (committed (database_after (room_apply 3) never never log_start (trace (run (room_env 3) room_batch log_world).2))) = 3) /\
  (exists out e, (run (room_env 2) room_batch log_world).1 = Done (out, Some e) /\
     Inputs out = replicate 4 InputRolledBack ++ [InputUnknown] /\ bo_Durability out = DurabilityPending /\
     committed (database_after (room_apply 2) never never log_start (trace (run (room_env 2) room_batch log_world).2)) = []).
Proof.
  assert (plain_db log_db) as Hp.
  { split; [by eexists|]. split; [|done]. eexists. split; [reflexivity|]. apply builtin_scoped. apply list_elem_of_In. simpl. auto. }
  pose proof (fun n => proj1 (batch_all_or_nothing (room_apply n) never never log_start (room_env n) (Some (tiny_compiler 100)) ∅ log_db
    (map (fun x => Some x.1) five_users) (MkBulkOptions 0 2 true None) Background log_world (room_served n)) Hp eq_refl eq_refl) as H.
  fold room_batch in H. split.
  - destruct (H 3) as (out & err & E & _ & Ho). assert (err = None) as ->.
    { apply (f_equal (fun o => match o with Done (_, e) => e | _ => Some (errors_New "") end)) in E. rewrite <- E. vm_compute. reflexivity. }
    exists out. split; [exact E|]. split; [exact (proj1 Ho)|vm_compute; reflexivity].
  - destruct (H 2) as (out & err & E & _ & Ho). destruct err as [e|].
    + exists out, e. split; [exact E|]. destruct Ho as (_ & _ & Hd & _).
      apply (f_equal (fun o => match o with Done (out, _) => out | _ => no_bulk end)) in E. rewrite <- E. split; [vm_compute; reflexivity|].
      split; [vm_compute; reflexivity|exact (proj1 Hd)].
    + exfalso. apply (f_equal (fun o => match o with Done (_, e) => e | _ => None end)) in E. revert E. vm_compute. discriminate.
Defined.
